(* ===== verification/_CoqProject ===== *)
-Q . S2P
Prelude.v
Value.v
OrderSpec.v
Token.v
Bitset.v
BitsetHex.v
Function.v
Position.v
Num.v
NumSpec.v
ReadShow.v
ReadShowSpec.v
Tokenizer.v
Expr.v
Parser.v
ParserSafe.v
ParserPrint.v
ParserShape.v
ParserFold.v
Simplify.v
SimplifySpec.v
ModuleCall.v
Net.v
NetFire.v
ModuleRun.v
ModuleRunSpec.v
NetCross.v
NetEnabled.v
NetInvariant.v
NetFireSpec.v
NetTyping.v
MmgrLayout.v
Mmgr.v
MmgrSpec.v
MmgrSafe.v
SdpaJob.v
SdpaWorker.v
SdpaManager.v
SdpaScheduler.v
SdpaFrame.v
SdpaInvariant.v
SdpaAssign.v
SdpaRound.v
SdpaLost.v
Layer.v
NetActivity.v
LayerSpec.v
LayerChildren.v
LayerPut.v
LayerRuns.v
SdpaAgent.v
SdpaActivity.v
SdpaAgentSpec.v
SdpaAgentEvents.v
SdpaAgentRuns.v
SdpaAgentExample.v
DrtsWorker.v
DrtsWorkerSpec.v
DrtsWorkerFaults.v
DrtsExecute.v
VmemHandle.v
VmemUrl.v
VmemArea.v
VmemAreaSpec.v
VmemTransfer.v
VmemTransferSpec.v
VmemNotify.v
VmemNotifySpec.v
VmemManager.v
VmemReplicas.v
VmemCluster.v
VmemStart.v
VmemCopy.v
VmemTheorems.v
VmemClient.v
XmlNet.v
XmlSynthesize.v
XmlCheck.v
XmlBuild.v
XmlSound.v
