(* ===== verification/Prelude.v ===== *)
(** * Verification of GPI-Space

    GPI-Space executes workflows that are coloured Petri nets.  The compiler reads
    XML and produces nets; the workflow engine (src/src/we) puts tokens on places,
    evaluates conditions and expressions, fires transitions and extracts activities;
    agents (src/src/sdpa) schedule the activities as jobs on workers; workers use a
    virtual memory (src/src/gpi-space) that daemons on all nodes keep in segments, which are
    managed by src/src/mmgr.  This development models the compiler behind its reader of XML
    (src/src/xml/parse), the engine, the layer that drives it, the
    agents with their scheduler, the workers with the module calls that they execute, the
    memory managers and the virtual memory with its clients, translated function by function
    from the C++ sources, and proves what they promise.

    ** Conventions

    A member function that changes [*this] and may throw is a function in the monad [M S E
    A]: it gives a value or an exception, and the state reached at that point. Functions
    that only compute give an [outcome].  Machine integers are [Z] with their wrap-around
    written out ([w32], [w64], [Num]), and the overflow of signed ones is undefined;
    floating point numbers are [SpecFloat.spec_float].  Hash containers are finite maps with
    an arbitrary order of iteration (class [Unordered], [UnorderedMultiset] in Mmgr),
    priority queues give any greatest element (class [PriorityQueue]), the mathematical
    functions of the C library are the class [Float.Libm], and [AssertMode] says whether
    [fhg_assert] throws.  What is not in the repository is an argument: plugins and loaded
    modules (NetFire), the callbacks of the scheduler, the clock, the random choice of a
    transition, the state machine library of the jobs (class [job.StateMachine]).  Every
    member function that holds a mutex is one step.  The workflow layer is proved against an
    interface of activities (class [layer.Activity]) that the nets implement
    ([net_activity]); the agent needs besides how activities are handled and what they
    require (class [JobActivity], implemented by [net_jobs]).  In the agent the handling of
    an event, a step of the workflow engine, a round of scheduling and a registration are
    one step each, and the callbacks that the engine calls run when the call of the engine
    has returned; sent messages are recorded; generated identifiers and the results of
    connecting are arguments of the steps.  In a worker the event thread, the execution
    thread and the destructor interleave: what a thread does between two accesses to what it
    shares with the others is one step, and how the execution of an activity ends is an
    argument of its step; its jobs refer to their masters by iterators into a vector, which
    dangle when the vector moves its elements (by how much it grows is an argument).  For
    module calls, opening and closing shared libraries, what they register and what their
    functions do are arguments, copies between global and local memory are recorded, and the
    unspecified order in which the two lists of ranges of a transfer are evaluated is an
    argument.  The virtual memory is the state of all its nodes at once: a request of a
    client, with what it makes other nodes do, is one step, and so is a copy that a thread
    of a daemon runs.  The one-sided operations of GASPI are the class [Gaspi] with its laws
    [GaspiSpec] (within the segments, bytes arrive); the notifications with which a write is
    confirmed are modelled apart, message by message and with threads that interleave.  How
    many bytes a call of [read] or [write] moves is the class [Syscalls], what BeeGFS, the
    memory of a node and shared memory objects are like is the class [Machine].

    ** Files

    - Prelude: exceptions as values, the state monad, invariants, hash containers,
      machine integers, hints and generic lemmas.
    - Value (we/type/value.hpp, value/peek.cpp, value/poke.cpp, require_type.cpp,
      signature.hpp), OrderSpec: values, paths, typing, the order of values.
    - Bitset, BitsetHex (we/type/bitsetofint.cpp).
    - Position, Num, NumSpec (fhg/util/parse, fhg/util/num.cpp): parsing of numbers.
    - ReadShow, ReadShowSpec (we/type/value/read.cpp, show.cpp): values as text.
    - Token, Tokenizer, Function, Expr, Parser (we/expr): tokens, built-in functions,
      evaluation, the operator precedence parser and the printer of expressions;
      ParserSafe, ParserPrint, ParserShape, ParserFold: theorems about the parser; Simplify
      (we/expr/parse/simplify), SimplifySpec: the simplification of expressions.
    - ModuleCall (we/type/module_call.cpp, range.hpp, memory_buffer_info_t.cpp, we/field.cpp):
      the data of module calls, their ranges of memory and sizes of buffers; ModuleRun
      (we/loader, activity_t::execute, util-generic/print_exception.cpp): placing of buffers,
      transfers, loading of modules, the call, exceptions; ModuleRunSpec: theorems.
    - Net, NetFire (we/type/net.cpp, we/type/net.hpp, we/plugin): the net, the incremental
      computation of the enabled transitions, firing, extracting and injecting
      activities; NetCross, NetEnabled, NetInvariant, NetFireSpec, NetTyping: theorems.
    - XmlNet (xml/parse/type: function.cpp, net.cpp, transition.cpp, place.cpp, port.cpp,
      connect.cpp, struct.cpp, specialize.cpp, and the passes of xml/parse/parser.cpp): what the
      compiler has read, the specialization of templates, the resolving of functions and types,
      the checks; XmlSynthesize (the synthesis in function.cpp, net.cpp, transition.cpp, and
      xml/parse/util/weparse.cpp): nets of the engine from checked functions, with unfolding;
      XmlCheck, XmlBuild, XmlSound: theorems.
    - Mmgr (mmgr/tmmgr.cpp, mmgr/dtmmgr.cpp), MmgrLayout: the memory managers and the
      abstract layouts of a memory; MmgrSpec, MmgrSafe: the refinement and safety.
    - SdpaJob (sdpa/daemon/Job.hpp, Job.cpp), SdpaWorker (Worker.cpp, capability.hpp,
      scheduler/Reservation.cpp), SdpaManager (WorkerManager.cpp), SdpaScheduler
      (scheduler/CoallocationScheduler.cpp and the parts of WorkerManager.cpp that work on
      reservations): jobs, workers, reservations, scheduling; SdpaFrame, SdpaInvariant,
      SdpaAssign, SdpaRound, SdpaLost: theorems.
    - Layer (we/layer.cpp, we/workflow_response.cpp, sdpa/discovery_info.hpp): the queues of
      workflows with their deferred functions, the relation of workflows and children, the
      calls of the runtime system, the extracting thread as steps that interleave with them;
      NetActivity (we/type/activity.cpp): wrapping and unwrapping, nets as activities of the
      layer; LayerSpec, LayerChildren, LayerPut, LayerRuns: theorems and runs.
    - SdpaAgent (sdpa/daemon/Agent.cpp, Agent.hpp, sdpa/events): the agent: its events and
      their handlers, jobs, subscriptions, masters, the workflow engine with its callbacks
      into the agent, the scheduling thread; SdpaActivity (we/type/activity.cpp): the
      requirements of activities, nets as activities of jobs; SdpaAgentSpec (a logic of
      pre- and postconditions for the agent's operations and what its parts keep),
      SdpaAgentEvents (the handlers), SdpaAgentRuns (runs): theorems;
      SdpaAgentExample: lost masters, runs from a client to a worker and back.
    - DrtsWorker (drts/worker/drts.cpp, drts.hpp): the worker: registration, receiver,
      handlers of events, bounded backlog, execution thread, destructor; DrtsWorkerSpec,
      DrtsWorkerFaults (with runs of an agent and a worker): theorems; DrtsExecute: how the
      end of an execution decides the answer of a worker.
    - The virtual memory (gpi-space/pc, gpi-space/gpi): VmemHandle (type/handle.hpp,
      memory/handle_generator.cpp, drts/virtual_memory.cpp): handles; VmemUrl (url.cpp): the
      descriptions of segments; VmemArea (memory/memory_area.cpp and the three types of
      areas), VmemAreaSpec: the areas of a node with their memory managers; VmemTransfer
      (gaspi_area.cpp, memory_area.cpp, gpi/gaspi.cpp), VmemTransferSpec: the nodes, splitting
      and cutting of ranges, the tasks of copies; VmemNotify (gpi/gaspi.cpp),
      VmemNotifySpec: the confirmation of writes; VmemManager (memory/manager.cpp,
      global/topology.cpp, the creation of areas): all operations of a node and their
      requests to the others; VmemReplicas, VmemCluster, VmemStart, VmemCopy,
      VmemTheorems: distributed segments; VmemClient (container/manager.cpp, proto,
      client/api.cpp, drts/private/virtual_memory_impl.hpp, scoped_allocation.hpp),
      with theorems: the requests of clients to the daemon of their node, and the clients.

    ** Theorems

    Nets: in every net that the operations can produce as long as they return and no two
    places are on input ports of the same name, a transition with an input place is listed
    as enabled exactly if tokens on its places let it fire, found by a search that tries
    every combination; firing takes a most urgent transition; extraction takes exactly the
    chosen tokens, for module calls and for nets, or throws; every token has a value of the
    signature of its place.

    Compiler: a workflow whose uses of functions can be resolved and whose names are unique is,
    with the option for virtual places off,
    compiled into nets that the engine can build, whose connections join ports and places of
    the same type at every level, or rejected with an error of the input, never by a broken
    assumption of the compiler.  XmlSound has inputs outside of this: uses of functions and
    specializations that are nested, which the passes leave unresolved or do twice, and an input
    port that is connected twice.

    Expressions and values: parsing ends, never reads below its stack and throws only errors
    of reading and of evaluating constants (the only source of undefined behaviour);
    integers are read exactly or rejected, without overflow; printing and parsing are
    inverse for trees of the shapes that parsing produces, and for shown values; constant
    folding in the parser is invisible; simplification keeps the needed bindings of
    expressions with straight assignments (and changes results of others); evaluation
    depends on the key roots only; the typing of values, peek and poke have their
    specifications; values are strictly weakly ordered where bitsets have no trailing zero
    blocks.

    Memory: the tables of a memory manager describe one sequence of free and used segments,
    on which its operations are best-fit allocation, release with joining, and moving of the
    end; blocks are aligned, disjoint and inside; the two arenas of a segment never
    overlap; a failed operation changes nothing.

    Scheduling, with assertions switched off: the classes of workers index the workers
    exactly, as long as the capabilities of a worker change only while it has no jobs and
    company in its class; the choice of workers is optimal among the eligible ones; a round
    of the scheduling thread neither throws nor loses jobs, if those for several workers
    have no preferences, and starts a job on all of its workers or on none; the jobs of a
    lost worker survive; terminal states of jobs are final.  SdpaLost has runs in which jobs
    starve, are stolen by workers without the memory for them, and in which stealing throws.

    Workflow layer: whatever is called and however the thread interleaves, a workflow is in
    one place, gets at most one answer, and is not lost unless a call throws; it is reported
    finished or canceled only after its children have terminated.  LayerRuns has runs in
    which a workflow gets no answer, and a run of a module call through layer and net.

    Agents: in every run of an agent whose events respect what it relies on
    ([admissible]), with whatever events its handlers throw for, queues,
    reservations and workers agree, and the jobs that wait or have a reservation are the
    live jobs that workers handle; so the scheduling thread never ends with an exception
    and sends a started job to all of its workers.  SdpaAgentExample has the whole way of
    a module call from the client through the workflow engine to a worker and back, and a
    run in which a canceled workflow leaves the workflows inside it running; a lost master
    is lost for ever.

    Workers: in every interleaving in which the vector of masters does not move after a job
    has been accepted a worker answers an accepted job at most once and to its master, and
    the execution thread of a healthy worker, left alone, answers them all.
    DrtsWorkerFaults shows how, in any worker, a refused master is never told that the
    backlog has room again, and has runs in which a late registration makes the owners of
    jobs dangle, and in which a job that was canceled while it ran is accepted again and
    never executed; that a module or function left libraries loaded is never detected.

    Module calls: buffers lie in the shared memory, aligned and apart from each other, and
    transfers stay inside of them unless their ranges wrap around; local and global ranges
    are paired byte by byte.

    Virtual memory: handles are unique over all nodes; in every run of distributed allocations,
    releases and copies (without allocations local to a node) the nodes agree on the
    distributed allocations, which are apart from each other and together as large as they
    should be; all nodes allocate and release like one memory manager; a range is cut
    into exactly the pieces that are its bytes; what one client copies into a distributed
    allocation another one copies out of it, and nothing else changes; every write is
    confirmed, by notifications that never overwrite each other, in every interleaving, if
    the identifiers of all nodes fit into 16 bits; an
    allocation of a runtime system succeeds when the nodes have the memory, because its
    segment has room for it and for the communication buffers.

    ** Bounds

    Loops whose ends are not structural have fuel and fail with [out_of_fuel] when it runs
    out, and theorems show how much is enough: the loops of the parser run on the length of
    the input ([parse_safe]); the search for a combination of tokens on the number of
    combinations ([enables_loop_exhaustive]); specialization on the height of the function
    ([ends_specialize_all]) and synthesis on its depth ([compiled_workflow_fits]); the
    assignment of jobs on the length of the queue ([round_keeps_agreement]); the loop of
    [put] in the layer on the deferred functions and those that they defer
    ([put_terminates]); the pairing of ranges on the number of ranges ([zip_pairs_bytes]);
    the splitting of a range on the number of nodes it touches, the cutting on the number of
    pieces ([pieces_are_the_range]), the rounds of a copy through a buffer on the number of
    bytes ([stored_bytes_are_loaded]), and the release of all allocations of a segment on
    their number (a failing release that leaves its allocation would repeat for ever in the
    program); the execution thread of a worker takes at most eight steps for a job
    ([worker_answers_all]).  The callbacks of the workflow engine may call the engine again:
    they are nested up to a depth and run with a fuel that are arguments of the runs, and
    the theorems about runs hold for every depth and fuel, without assuming that they
    suffice, because running out is an exception of the step.  The firing of expressions in
    a net may go on for ever in the program; its theorem holds for every fuel and says what
    has been fired when it is used up.

    ** Not modelled

    Serialization (of activities, events and values), signature_of and conversions of
    values, of the compiler the reading of XML, the generation of code and files, the dumps
    and the command line (the rest of src/src/xml, src/src/pnetc), the client and the
    delivery of messages (sdpa/client.cpp), logging and monitoring events of agents and
    workers, the context that a worker gives to module calls (drts/worker/context.cpp:
    processes and signals), of the virtual memory its sockets, time limits, the queues of
    GASPI, requests of several clients that interleave on different nodes, and the lock and
    version files of BeeGFS, the startup of the runtime system (drts/private, rif), fhgcom,
    rpc, logging, monitoring and the editors: processes, files, network and user interface,
    or not yet done.*)

From Stdlib Require Export Ascii ZArith Lia Sorted.
From stdpp Require Export base tactics numbers list strings gmap sets fin_maps sorting.

(** ** Exceptions as values

    A C++ call either returns a value or leaves by an exception. *)
Inductive outcome (E A : Type) : Type :=
| Ret (a : A)
| Throw (e : E).
Arguments Ret {E A} _.
Arguments Throw {E A} _.

Declare Scope gspc_scope.
Delimit Scope gspc_scope with gspc.
Open Scope gspc_scope.

#[export] Instance outcome_ret {E} : MRet (outcome E) := λ _ a, Ret a.
#[export] Instance outcome_bind {E} : MBind (outcome E) :=
  λ _ _ k m, match m with Ret a => k a | Throw e => Throw e end.
#[export] Instance outcome_fmap {E} : FMap (outcome E) :=
  λ _ _ f m, match m with Ret a => Ret (f a) | Throw e => Throw e end.

Definition is_ret {E A} (m : outcome E A) : bool :=
  match m with Ret _ => true | Throw _ => false end.

(** [std::map::at], [boost::get], ...: a partial lookup that throws [e]. *)
Definition or_throw {E A} (e : E) (o : option A) : outcome E A :=
  match o with Some a => Ret a | None => Throw e end.

(** ** State and exceptions

    A member function that mutates [*this] and may throw: the state reached
    at the throw is part of the result, as in C++. *)
Definition M (S E A : Type) : Type := S → outcome E A * S.

#[export] Instance M_ret {S E} : MRet (M S E) := λ _ a s, (Ret a, s).
#[export] Instance M_bind {S E} : MBind (M S E) :=
  λ _ _ k m s,
    match m s with
    | (Ret a, s') => k a s'
    | (Throw e, s') => (Throw e, s')
    end.

Definition throw {S E A} (e : E) : M S E A := λ s, (Throw e, s).
Definition get {S E} : M S E S := λ s, (Ret s, s).
Definition put {S E} (s : S) : M S E unit := λ _, (Ret tt, s).
Definition modify {S E} (f : S → S) : M S E unit := λ s, (Ret tt, f s).
Definition lift {S E A} (o : outcome E A) : M S E A := λ s, (o, s).

(** [for (x : l) f (x);] *)
Fixpoint for_each {S E A} (f : A → M S E unit) (l : list A) : M S E unit :=
  match l with
  | [] => mret tt
  | x :: l => f x ≫= λ _, for_each f l
  end.

Lemma bind_ret_inv {S E A B} (m : M S E A) (k : A → M S E B) s b s' :
  (m ≫= k) s = (Ret b, s') →
  ∃ a s1, m s = (Ret a, s1) ∧ k a s1 = (Ret b, s').
Proof.
  unfold mbind, M_bind. destruct (m s) as [[a|e] s1]; intros H; [eauto|done].
Qed.

(** How the primitive actions run. *)
Lemma bind_get {S E B} (k : S → M S E B) s : (get ≫= k) s = k s s.
Proof. done. Qed.
Lemma bind_modify {S E B} (f : S → S) (k : unit → M S E B) s :
  (modify f ≫= k) s = k tt (f s).
Proof. done. Qed.
Lemma bind_lift {S E A B} (o : outcome E A) (k : A → M S E B) s :
  (lift o ≫= k) s = match o with Ret a => k a s | Throw e => (Throw e, s) end.
Proof. by destruct o. Qed.
Lemma bind_mret {S E A B} (a : A) (k : A → M S E B) s :
  ((mret a : M S E A) ≫= k) s = k a s.
Proof. done. Qed.
Lemma for_each_app {S E A} (f : A → M S E unit) l1 l2 s s' :
  for_each f (l1 ++ l2) s = (Ret tt, s') ↔
  ∃ s1, for_each f l1 s = (Ret tt, s1) ∧ for_each f l2 s1 = (Ret tt, s').
Proof.
  revert s. induction l1 as [|x l1 IH]; intros s; simpl.
  - split; [eauto|]. by intros (s1 & [= <-] & ?).
  - unfold mbind, M_bind. destruct (f x s) as [[[]|e] s1]; [apply IH|].
    split; [done|]. by intros (? & ? & ?).
Qed.

Lemma obind_ret_inv {E A B} (m : outcome E A) (k : A → outcome E B) b :
  (m ≫= k) = Ret b → ∃ a, m = Ret a ∧ k a = Ret b.
Proof. destruct m; simpl; intros H; [eauto|done]. Qed.

Lemma or_throw_ret {E A} (e : E) (o : option A) a :
  or_throw e o = Ret a ↔ o = Some a.
Proof. destruct o; simpl; naive_solver. Qed.

(** An invariant of the state that survives both ways of leaving. *)
Definition preserves {S E A} (I : S → Prop) (m : M S E A) : Prop :=
  ∀ s, I s → I (m s).2.

Section preserves.
Context {S E : Type} (I : S → Prop).

Lemma preserves_ret {A} (a : A) : preserves I (mret a : M S E A).
Proof. intros s Hs. exact Hs. Qed.
Lemma preserves_throw {A} (e : E) : preserves I (throw e : M S E A).
Proof. intros s Hs. exact Hs. Qed.
Lemma preserves_lift {A} (o : outcome E A) : preserves I (lift o : M S E A).
Proof. intros s Hs. exact Hs. Qed.
Lemma preserves_get : preserves I (get : M S E S).
Proof. intros s Hs. exact Hs. Qed.
Lemma preserves_modify (f : S → S) :
  (∀ s, I s → I (f s)) → preserves I (modify f : M S E unit).
Proof. intros Hf s Hs. by apply Hf. Qed.
Lemma preserves_bind {A B} (m : M S E A) (k : A → M S E B) :
  preserves I m → (∀ a, preserves I (k a)) → preserves I (m ≫= k).
Proof.
  intros Hm Hk s Hs. specialize (Hm s Hs).
  unfold mbind, M_bind. destruct (m s) as [[a|e] s']; simpl in *; [|done].
  by apply Hk.
Qed.
Lemma preserves_for_each {A} (f : A → M S E unit) l :
  (∀ x, x ∈ l → preserves I (f x)) → preserves I (for_each f l).
Proof.
  induction l as [|x l IH]; intros Hf; simpl; [apply preserves_ret|].
  apply preserves_bind; [apply Hf; set_solver|].
  intros _. apply IH. intros y Hy. apply Hf. set_solver.
Qed.
End preserves.

Create HintDb gspc.
#[export] Hint Resolve preserves_ret preserves_throw preserves_lift preserves_get
  preserves_bind preserves_for_each : gspc.

(** ** Hash containers

    The iteration order of [std::unordered_map] and [std::unordered_set] is
    not specified.  Everything that iterates one is parameterised by an
    arbitrary order: some permutation of the elements that depends on the
    contents.  Theorems hold for every instance. *)
Class Unordered := {
  unordered_list : ∀ {K V : Type} `{Countable K}, gmap K V → list (K * V);
  unordered_perm : ∀ {K V : Type} `{Countable K} (m : gmap K V),
    unordered_list m ≡ₚ map_to_list m;
  unordered_elements : ∀ {K : Type} `{Countable K}, gset K → list K;
  unordered_elements_perm : ∀ {K : Type} `{Countable K} (X : gset K),
    unordered_elements X ≡ₚ elements X
}.

(** One admissible order, used by the examples and witnesses. *)
#[refine] Instance canonical_order : Unordered := {
  unordered_list := λ _ _ _ _ m, map_to_list m;
  unordered_elements := λ _ _ _ X, elements X
}.
Proof. all: done. Defined.

Section unordered.
Context `{Unordered} `{Countable K} {V : Type}.
Implicit Types (m : gmap K V) (X : gset K).

Lemma elem_of_unordered_list m k v :
  (k, v) ∈ unordered_list m ↔ m !! k = Some v.
Proof. rewrite unordered_perm. apply elem_of_map_to_list. Qed.
Lemma elem_of_unordered_elements X k :
  k ∈ unordered_elements X ↔ k ∈ X.
Proof. rewrite unordered_elements_perm. apply elem_of_elements. Qed.
Lemma NoDup_unordered_elements X : NoDup (unordered_elements X).
Proof. rewrite unordered_elements_perm. apply NoDup_elements. Qed.
Lemma NoDup_unordered_keys m : NoDup (unordered_list m).*1.
Proof. rewrite unordered_perm. apply NoDup_fst_map_to_list. Qed.
Lemma unordered_list_nil m : unordered_list m = [] ↔ m = ∅.
Proof.
  rewrite <- map_to_list_empty_iff. pose proof (unordered_perm m) as Hp.
  split; intros Heq; rewrite Heq in Hp.
  - by apply Permutation_nil_l in Hp.
  - by apply Permutation_nil_r in Hp.
Qed.
Lemma length_unordered_list m : length (unordered_list m) = size m.
Proof. by rewrite unordered_perm, length_map_to_list. Qed.
End unordered.

(** [emplace] of a map: an existing entry is kept; the flag says whether the
    entry is new. *)
Definition emplace `{Countable K} {V} (k : K) (v : V) (m : gmap K V) : gmap K V * bool :=
  match m !! k with
  | Some _ => (m, false)
  | None => (<[k := v]> m, true)
  end.

Lemma emplace_new `{Countable K} {V} (k : K) (v : V) (m : gmap K V) :
  (emplace k v m).2 = true → m !! k = None ∧ (emplace k v m).1 = <[k := v]> m.
Proof. unfold emplace. by destruct (m !! k). Qed.

Lemma Forall2_impl_elem {A B} (P Q : A → B → Prop) l k :
  Forall2 P l k → (∀ x y, x ∈ l → P x y → Q x y) → Forall2 Q l k.
Proof.
  induction 1 as [|x y l k Hxy _ IH]; intros Himpl; constructor.
  - apply Himpl; [by left|done].
  - apply IH. intros. apply Himpl; [by right|done].
Qed.

(** Concatenation of strings is opaque to simplification. *)
Lemma string_app_cons c (a b : string) : String c a +:+ b = String c (a +:+ b).
Proof. done. Qed.
Lemma string_app_nil_l (a : string) : "" +:+ a = a.
Proof. done. Qed.
Lemma string_app_nil_r (a : string) : a +:+ "" = a.
Proof. induction a as [|c a IH]; [done|]. by rewrite string_app_cons, IH. Qed.
Lemma string_app_assoc (a b c : string) : a +:+ b +:+ c = (a +:+ b) +:+ c.
Proof. induction a as [|x a IH]; [done|]. by rewrite !string_app_cons, IH. Qed.

(** Closes a decidable goal on concrete data by evaluation. *)
Ltac by_computation := apply (bool_decide_unpack _); vm_compute; exact I.

(** ** Assertions

    Whether [fhg_assert] throws or does nothing, as chosen by
    [FHG_ASSERT_MODE] when the program is built. *)
Class AssertMode := { assert_throws : bool }.

(** ** Machine integers *)
Definition two64 : Z := 18446744073709551616.
Definition w64 (z : Z) : Z := z mod two64.
Definition is_w64 (z : Z) : Prop := (0 ≤ z < two64)%Z.

Lemma w64_range z : is_w64 (w64 z).
Proof. unfold is_w64, w64. by apply Z.mod_pos_bound. Qed.
Lemma w64_small z : is_w64 z → w64 z = z.
Proof. unfold is_w64, w64. intros. by apply Z.mod_small. Qed.
