(* ===== verification/Value.v ===== *)
(** * The value universe of the workflow engine

    [we/type/value.hpp] and the functions on it: the name of a value's type
    ([we/type/value/name_of.cpp]), access by path ([peek.cpp], [poke.cpp],
    [path/split.cpp], [path/join.cpp]), the ordering that [std::set] and
    [std::map] of values use, and the check of a value against a signature
    ([we/require_type.cpp]). *)

From Stdlib Require Import SpecFloat.
From S2P Require Import Prelude.

#[local] Set Warnings "-register-all".

(** The alternatives of the variant, in the order of the source: the index
    of an alternative is what [which ()] returns.  Machine integers are [Z],
    floating-point numbers are IEEE-754 data, bitsets are the 64-bit blocks of
    [bitsetofint::type], and sets and maps are the in-order element lists of
    the [std::set] and [std::map]. *)
Inductive value_type : Type :=
| Vcontrol
| Vbool (b : bool)
| Vint (z : Z)
| Vlong (z : Z)
| Vuint (z : Z)
| Vulong (z : Z)
| Vfloat (f : spec_float)
| Vdouble (f : spec_float)
| Vchar (c : ascii)
| Vstring (s : string)
| Vbitset (blocks : list Z)
| Vbytearray (bytes : list ascii)
| Vlist (l : list value_type)
| Vset (l : list value_type)
| Vmap (l : list (value_type * value_type))
| Vstruct (l : list (string * value_type)).

Abbreviation structured_type := (list (string * value_type)).

(** The induction principle that reaches the values inside the containers. *)
Section value_ind.
Variable P : value_type → Prop.
Hypothesis Hcontrol : P Vcontrol.
Hypothesis Hbool : ∀ b, P (Vbool b).
Hypothesis Hint : ∀ z, P (Vint z).
Hypothesis Hlong : ∀ z, P (Vlong z).
Hypothesis Huint : ∀ z, P (Vuint z).
Hypothesis Hulong : ∀ z, P (Vulong z).
Hypothesis Hfloat : ∀ f, P (Vfloat f).
Hypothesis Hdouble : ∀ f, P (Vdouble f).
Hypothesis Hchar : ∀ c, P (Vchar c).
Hypothesis Hstring : ∀ s, P (Vstring s).
Hypothesis Hbitset : ∀ bs, P (Vbitset bs).
Hypothesis Hbytearray : ∀ bs, P (Vbytearray bs).
Hypothesis Hlist : ∀ l, Forall P l → P (Vlist l).
Hypothesis Hset : ∀ l, Forall P l → P (Vset l).
Hypothesis Hmap : ∀ l, Forall (λ kv, P kv.1 ∧ P kv.2) l → P (Vmap l).
Hypothesis Hstruct : ∀ l, Forall (λ kv, P kv.2) l → P (Vstruct l).

Fixpoint value_type_ind' (v : value_type) : P v :=
  match v with
  | Vcontrol => Hcontrol
  | Vbool b => Hbool b
  | Vint z => Hint z
  | Vlong z => Hlong z
  | Vuint z => Huint z
  | Vulong z => Hulong z
  | Vfloat f => Hfloat f
  | Vdouble f => Hdouble f
  | Vchar c => Hchar c
  | Vstring s => Hstring s
  | Vbitset bs => Hbitset bs
  | Vbytearray bs => Hbytearray bs
  | Vlist l => Hlist l
      ((fix go l : Forall P l :=
          match l with
          | [] => List.Forall_nil _
          | x :: l => List.Forall_cons _ _ _ (value_type_ind' x) (go l)
          end) l)
  | Vset l => Hset l
      ((fix go l : Forall P l :=
          match l with
          | [] => List.Forall_nil _
          | x :: l => List.Forall_cons _ _ _ (value_type_ind' x) (go l)
          end) l)
  | Vmap l => Hmap l
      ((fix go l : Forall (λ kv, P kv.1 ∧ P kv.2) l :=
          match l with
          | [] => List.Forall_nil _
          | (k, x) :: l => List.Forall_cons _ (k, x) _
              (conj (value_type_ind' k) (value_type_ind' x)) (go l)
          end) l)
  | Vstruct l => Hstruct l
      ((fix go l : Forall (λ kv, P kv.2) l :=
          match l with
          | [] => List.Forall_nil _
          | (k, x) :: l => List.Forall_cons _ (k, x) _
              (value_type_ind' x) (go l)
          end) l)
  end.
End value_ind.

(** ** Names of types ([name.cpp], [name_of.cpp]) *)
Definition name_of (v : value_type) : string :=
  match v with
  | Vcontrol => "control"
  | Vbool _ => "bool"
  | Vint _ => "int"
  | Vlong _ => "long"
  | Vuint _ => "unsigned int"
  | Vulong _ => "unsigned long"
  | Vfloat _ => "float"
  | Vdouble _ => "double"
  | Vchar _ => "char"
  | Vstring _ => "string"
  | Vbitset _ => "bitset"
  | Vbytearray _ => "bytearray"
  | Vlist _ => "list"
  | Vset _ => "set"
  | Vmap _ => "map"
  | Vstruct _ => "struct"
  end.

(** ** Access by path *)
Module Path.

(** [std::find_if (m.begin(), m.end(), first_is (key))] *)
Fixpoint find_field (k : string) (m : structured_type) : option value_type :=
  match m with
  | [] => None
  | (k', v) :: m => if decide (k' = k) then Some v else find_field k m
  end.

(** [visitor_peek]: the first field with the key is followed, a value that
    is not structured has no fields. *)
Fixpoint peek (path : list string) (node : value_type) : option value_type :=
  match path with
  | [] => Some node
  | k :: path =>
      match node with
      | Vstruct m =>
          match find_field k m with
          | Some v => peek path v
          | None => None
          end
      | _ => None
      end
  end.

(** [visitor_poke::deeper]: apply [f] to the first field named [k]; a missing
    field is appended with the default value, which is the first alternative
    of the variant. *)
Fixpoint poke_field (k : string) (f : value_type → value_type)
    (m : structured_type) : structured_type :=
  match m with
  | [] => [(k, f Vcontrol)]
  | (k', v) :: m =>
      if decide (k' = k) then (k', f v) :: m else (k', v) :: poke_field k f m
  end.

(** [visitor_poke]: a node on the way that is not structured is replaced by
    an empty structure. *)
Fixpoint poke (path : list string) (node value : value_type) : value_type :=
  match path with
  | [] => value
  | k :: path =>
      Vstruct (poke_field k (λ v, poke path v value)
        match node with Vstruct m => m | _ => [] end)
  end.

(** [fhg::util::split<std::string, std::string>]: a trailing empty key is
    dropped. *)
Fixpoint split_go (sep : ascii) (key x : string) : list string :=
  match x with
  | EmptyString => if decide (key = EmptyString) then [] else [key]
  | String c x =>
      if decide (c = sep) then key :: split_go sep EmptyString x
      else split_go sep (key +:+ String c EmptyString) x
  end.

Definition split (path : string) : list string :=
  split_go "."%char EmptyString path.

(** [fhg::util::join (path, '.')] *)
Fixpoint join (path : list string) : string :=
  match path with
  | [] => EmptyString
  | [k] => k
  | k :: path => k +:+ String "."%char (join path)
  end.

(** *** Reading what was written *)

Lemma find_poke_field_eq k f m :
  find_field k (poke_field k f m) = Some (f (default Vcontrol (find_field k m))).
Proof. induction m as [|[k' v] m IH]; simpl; repeat (case_decide; simpl); naive_solver. Qed.

Lemma find_poke_field_ne k k' f m :
  k ≠ k' → find_field k' (poke_field k f m) = find_field k' m.
Proof.
  intros Hk. induction m as [|[k'' v] m IH]; simpl;
    repeat (case_decide; simpl); naive_solver.
Qed.

Lemma poke_field_id k f m v :
  find_field k m = Some v → f v = v → poke_field k f m = m.
Proof.
  intros Hm Hf. induction m as [|[k' w] m IH]; simpl in *; [done|].
  case_decide; simplify_eq; f_equal; auto.
  by rewrite Hf.
Qed.

Lemma poke_field_twice k f g m :
  poke_field k g (poke_field k f m) = poke_field k (λ v, g (f v)) m.
Proof.
  induction m as [|[k' w] m IH]; simpl; repeat (case_decide; simpl); congruence.
Qed.

Lemma poke_field_ext k f g m :
  (∀ v, f v = g v) → poke_field k f m = poke_field k g m.
Proof.
  intros Hfg. induction m as [|[k' w] m IH]; simpl; [by rewrite Hfg|].
  case_decide; by rewrite ?Hfg, ?IH.
Qed.

(** The fields of a value, none for one that is not structured. *)
Definition fields (v : value_type) : structured_type :=
  match v with Vstruct m => m | _ => [] end.

Lemma peek_cons k p n :
  peek (k :: p) n = find_field k (fields n) ≫= peek p.
Proof. by destruct n. Qed.

Lemma poke_cons k p n v :
  poke (k :: p) n v = Vstruct (poke_field k (λ w, poke p w v) (fields n)).
Proof. by destruct n. Qed.

Lemma peek_app p q n : peek (p ++ q) n = peek p n ≫= peek q.
Proof.
  revert n. induction p as [|k p IH]; intros n; [done|].
  rewrite <- app_comm_cons, !peek_cons. destruct (find_field _ _); simpl; auto.
Qed.

(** Two paths neither of which is a prefix of the other. *)
Definition diverge (p q : list string) : Prop :=
  ¬ p `prefix_of` q ∧ ¬ q `prefix_of` p.

Lemma diverge_cons k l p q : diverge (k :: p) (l :: q) → k ≠ l ∨ k = l ∧ diverge p q.
Proof.
  intros [H1 H2]. destruct (decide (k = l)) as [->|]; [right|by left].
  split; [done|]. split; intros ?; [apply H1|apply H2]; by apply prefix_cons.
Qed.

Lemma peek_poke_same p n v r : peek (p ++ r) (poke p n v) = peek r v.
Proof.
  revert n. induction p as [|k p IH]; intros n; [done|].
  rewrite poke_cons, <- app_comm_cons, peek_cons; simpl.
  rewrite find_poke_field_eq; simpl. apply IH.
Qed.

Lemma peek_poke_above p n v r :
  peek p (poke (p ++ r) n v) = Some (poke r (default Vcontrol (peek p n)) v).
Proof.
  revert n. induction p as [|k p IH]; intros n; [done|].
  rewrite <- app_comm_cons, poke_cons, !peek_cons; simpl.
  rewrite find_poke_field_eq; simpl. rewrite IH.
  destruct (find_field k (fields n)) as [w|]; simpl; [done|].
  by destruct p.
Qed.

Lemma peek_poke_other p q n v :
  diverge p q → peek p (poke q n v) = peek p n.
Proof.
  revert q n. induction p as [|k p IH]; intros q n Hpq.
  { destruct Hpq as [[] _]. apply prefix_nil. }
  destruct q as [|l q].
  { destruct Hpq as [_ []]. apply prefix_nil. }
  rewrite poke_cons, !peek_cons; simpl.
  destruct (diverge_cons _ _ _ _ Hpq) as [Hkl|[<- Hpq']].
  - by rewrite find_poke_field_ne.
  - rewrite find_poke_field_eq; simpl. rewrite IH by done.
    destruct (find_field k (fields n)) as [w|]; simpl; [done|].
    destruct p; [|done]. destruct Hpq' as [[] _]. apply prefix_nil.
Qed.

Lemma poke_poke p n v w : poke p (poke p n v) w = poke p n w.
Proof.
  revert n. induction p as [|k p IH]; intros n; [done|].
  rewrite !poke_cons; simpl. f_equal. rewrite poke_field_twice.
  apply poke_field_ext. intros. apply IH.
Qed.

Lemma poke_peek p n v : peek p n = Some v → poke p n v = n.
Proof.
  revert n. induction p as [|k p IH]; intros n; simpl; [congruence|].
  destruct n as [| | | | | | | | | | | | | | |m]; try done.
  destruct (find_field k m) as [w|] eqn:Hk; [|done].
  intros Hp. f_equal. eapply poke_field_id; eauto.
Qed.

(** What [peek] sees after [poke], for every relative position of the
    two paths: below or at the written path it sees the written value, above
    it the old value with the write applied (a missing or unstructured value
    counts as a fresh structure), elsewhere nothing has changed.  Writing
    twice is writing once, and writing back what was read changes nothing. *)
Theorem peek_poke_spec p q n v w :
  (∀ r, p = q ++ r → peek p (poke q n v) = peek r v) ∧
  (∀ r, q = p ++ r →
     peek p (poke q n v) = Some (poke r (default Vcontrol (peek p n)) v)) ∧
  (diverge p q → peek p (poke q n v) = peek p n) ∧
  poke q (poke q n w) v = poke q n v ∧
  (peek q n = Some v → poke q n v = n).
Proof.
  repeat split.
  - intros r ->. apply peek_poke_same.
  - intros r ->. apply peek_poke_above.
  - apply peek_poke_other.
  - apply poke_poke.
  - apply poke_peek.
Qed.

(** *** Splitting and joining *)

Definition no_sep (sep : ascii) (k : string) : Prop := sep ∉ String.list_ascii_of_string k.


Lemma split_go_key sep key k rest :
  no_sep sep k → split_go sep key (k +:+ rest) = split_go sep (key +:+ k) rest.
Proof.
  unfold no_sep. revert key. induction k as [|c k IH]; intros key Hk.
  { by rewrite string_app_nil_r. }
  rewrite string_app_cons; simpl in *.
  rewrite decide_False by set_solver. rewrite IH by set_solver.
  by rewrite <- string_app_assoc.
Qed.

Lemma split_join_aux path :
  Forall (no_sep ".") path → last path ≠ Some "" → split (join path) = path.
Proof.
  unfold split. induction path as [|k path IH]; intros Hns Hlast; [done|].
  apply Forall_cons in Hns as [Hk Hns]. destruct path as [|k' path].
  - cbn [join]. rewrite <- (string_app_nil_r k) at 1.
    rewrite split_go_key, string_app_nil_l by done. cbn [split_go].
    rewrite decide_False; [done|]. intros ->. by apply Hlast.
  - cbn [join]. rewrite split_go_key, string_app_nil_l by done.
    cbn [split_go]. rewrite decide_True by done. f_equal.
    apply IH; [done|]. exact Hlast.
Qed.

(** [path::split] undoes [path::join] on every path whose components
    contain no dot and whose last component is not empty. *)
Theorem split_join path :
  Forall (no_sep ".") path → last path ≠ Some "" → split (join path) = path.
Proof. apply split_join_aux. Qed.

Lemma split_join_witness :
  split (join ["gspc"; ""; "plugin"]) = ["gspc"; ""; "plugin"].
Proof.
  apply (split_join ["gspc"; ""; "plugin"]); [|done].
  repeat constructor; unfold no_sep; simpl; intros H;
    repeat (apply elem_of_cons in H as [H|H]; [discriminate H|]);
    by apply elem_of_nil in H.
Defined.

End Path.

(** ** Signatures ([we/type/signature.hpp]) and [we/require_type.cpp] *)
Module Signature.

Inductive field_type : Type :=
| Fsimple (name type : string)
| Fstruct (name : string) (fields : list field_type).

Inductive signature_type : Type :=
| Sname (type : string)
| Sstruct (name : string) (fields : list field_type).

(** [visitor_name], [visitor_signature] *)
Definition field_name (f : field_type) : string :=
  match f with Fsimple n _ => n | Fstruct n _ => n end.
Definition field_signature (f : field_type) : signature_type :=
  match f with Fsimple _ t => Sname t | Fstruct n fs => Sstruct n fs end.

(** [pnet::exception::type_mismatch], [unknown_field], [missing_field] *)
Inductive type_error : Type :=
| type_mismatch (s : signature_type) (v : value_type) (path : list string)
| unknown_field (v : value_type) (path : list string)
| missing_field (s : signature_type) (v : value_type) (path : list string).

(** [require_structured]: the [while] loop over both sequences followed by
    the two checks on what is left. *)
Definition require_structured
    (require : list string → value_type → signature_type → outcome type_error unit)
    (path : list string) (v : value_type) (s : signature_type) :
    structured_type → list field_type → outcome type_error unit :=
  fix go vs fs :=
    match vs, fs with
    | (k, x) :: vs', f :: fs' =>
        if decide (k = field_name f) then
          require (path ++ [k]) x (field_signature f) ≫= λ _, go vs' fs'
        else Throw (unknown_field x (path ++ [k]))
    | (k, x) :: _, [] => Throw (unknown_field x (path ++ [k]))
    | [], f :: _ => Throw (missing_field s v (path ++ [field_name f]))
    | [], [] => Ret tt
    end.

(** [visitor_require_type] *)
Fixpoint require_type_at (path : list string) (v : value_type)
    (s : signature_type) : outcome type_error unit :=
  match v, s with
  | Vstruct m, Sstruct n fs =>
      require_structured require_type_at path v s m fs
  | Vstruct m, Sname t => Throw (type_mismatch s v path)
  | _, Sstruct _ _ => Throw (type_mismatch s v path)
  | _, Sname t =>
      if decide (name_of v = t) then Ret tt else Throw (type_mismatch s v path)
  end.

(** [require_type (value, signature, field)] *)
Definition require_type (v : value_type) (s : signature_type) (field : string) :
    outcome type_error value_type :=
  require_type_at [field] v s ≫= λ _, Ret v.

(** What it means for a value to have a signature: literal types go by name,
    a structure has exactly the fields of the signature, in its order. *)
Inductive has_type : value_type → signature_type → Prop :=
| has_type_literal v :
    (∀ m, v ≠ Vstruct m) → has_type v (Sname (name_of v))
| has_type_struct m n fs :
    Forall2 (λ kv f, kv.1 = field_name f ∧ has_type kv.2 (field_signature f)) m fs →
    has_type (Vstruct m) (Sstruct n fs).

(** Field names of a structure are unique, at every depth. *)
Fixpoint wf_value (v : value_type) : Prop :=
  match v with
  | Vstruct m =>
      NoDup m.*1 ∧
      (fix go (m : structured_type) :=
         match m with [] => True | (_, x) :: m => wf_value x ∧ go m end) m
  | _ => True
  end.

Definition error_path (e : type_error) : list string :=
  match e with
  | type_mismatch _ _ p | unknown_field _ p | missing_field _ _ p => p
  end.

Lemma require_structured_ret req path v s vs fs :
  require_structured req path v s vs fs = Ret tt ↔
  Forall2 (λ kv f, kv.1 = field_name f ∧
             req (path ++ [kv.1]) kv.2 (field_signature f) = Ret tt) vs fs.
Proof.
  revert fs. induction vs as [|[k x] vs IH]; intros [|f fs]; simpl.
  - by split.
  - split; intros H; by inversion H.
  - split; intros H; by inversion H.
  - rewrite Forall2_cons; simpl. rewrite <- IH. case_decide; [|intuition congruence].
    destruct (req _ _ _) as [[]|e]; simpl; intuition congruence.
Qed.

Definition literal (v : value_type) : Prop := ∀ m, v ≠ Vstruct m.

Lemma require_literal v s path :
  literal v →
  require_type_at path v s =
    match s with
    | Sname t => if decide (name_of v = t) then Ret tt else Throw (type_mismatch s v path)
    | Sstruct _ _ => Throw (type_mismatch s v path)
    end.
Proof. intros Hv. destruct v, s; try done; by destruct (Hv l). Qed.

Lemma has_type_literal_inv v s : literal v → has_type v s → s = Sname (name_of v).
Proof. intros Hv H. inversion H; subst; [done|]. by destruct (Hv m). Qed.

Lemma require_literal_correct v s path :
  literal v → require_type_at path v s = Ret tt ↔ has_type v s.
Proof.
  intros Hv. rewrite require_literal by done. split.
  - destruct s as [t|]; [|done]. case_decide; [|done]. intros _. subst. by constructor.
  - intros ->%has_type_literal_inv; [|done]. by rewrite decide_True.
Qed.

Lemma require_type_at_correct v s path :
  require_type_at path v s = Ret tt ↔ has_type v s.
Proof.
  revert s path. induction v as [| | | | | | | | | | | | | | |m IH]
    using value_type_ind'; intros sg path.
  all: try by apply require_literal_correct.
  destruct sg as [t|n fs]; simpl.
  { split; [done|]. intros H. inversion H as [? Hl|]; subst. by destruct (Hl m). }
  rewrite require_structured_ret. split.
  - intros H. constructor. clear -IH H. induction H as [|kv f m fs [? Hr] ? IHm].
    all: inversion IH; constructor; naive_solver.
  - intros H. inversion H as [|? ? ? HF]; subst. clear -IH HF.
    induction HF as [|kv f m fs [? Hr] ? IHm]; inversion IH; constructor; naive_solver.
Qed.

(** C35: [require_type] accepts exactly the values of the signature, and then
    returns the value it was given. *)
Theorem require_type_correct v s field :
  (require_type v s field = Ret v ↔ has_type v s) ∧
  (is_ret (require_type v s field) = true ↔ has_type v s).
Proof.
  unfold require_type. rewrite <- (require_type_at_correct v s [field]).
  destruct (require_type_at [field] v s) as [[]|e]; simpl; naive_solver.
Qed.

Example require_type_nested :
  require_type (Vstruct [("x", Vint 3); ("s", Vstruct [("c", Vchar "a")])])
    (Sstruct "p" [Fsimple "x" "int"; Fstruct "s" [Fsimple "c" "char"]]) "place"
  = Ret (Vstruct [("x", Vint 3); ("s", Vstruct [("c", Vchar "a")])]).
Proof. reflexivity. Qed.

(** *** Where the errors are *)

Lemma find_field_NoDup m k x :
  NoDup m.*1 → (k, x) ∈ m → Path.find_field k m = Some x.
Proof.
  induction m as [|[k' y] m IH]; simpl; [by intros _ ?%elem_of_nil|].
  intros [Hk Hm]%NoDup_cons [Heq|Hin]%elem_of_cons; [by simplify_eq; rewrite decide_True|].
  case_decide; [|by auto]. subst. destruct Hk. by apply (list_elem_of_fmap_2 fst) in Hin.
Qed.

Lemma wf_value_field m k x :
  wf_value (Vstruct m) → (k, x) ∈ m → wf_value x.
Proof.
  simpl. intros [_ Hm]. revert Hm. induction m as [|[k' y] m IH]; [by intros _ ?%elem_of_nil|].
  intros [Hy Hm] [Heq|Hin]%elem_of_cons; [by simplify_eq|auto].
Qed.

(** The reported path leads to the reported value. *)
Definition located (path : list string) (v : value_type) (e : type_error) : Prop :=
  match e with
  | type_mismatch s' v' p =>
      ∃ q, p = path ++ q ∧ Path.peek q v = Some v' ∧ ¬ has_type v' s'
  | unknown_field v' p =>
      ∃ q k, p = path ++ q ++ [k] ∧ Path.peek (q ++ [k]) v = Some v'
  | missing_field s' v' p =>
      ∃ q k, p = path ++ q ++ [k] ∧ Path.peek q v = Some v' ∧ ¬ has_type v' s'
  end.

Lemma located_below path m k x e :
  wf_value (Vstruct m) → (k, x) ∈ m → located (path ++ [k]) x e → located path (Vstruct m) e.
Proof.
  intros [Hm _] Hin. assert (∀ q, Path.peek (k :: q) (Vstruct m) = Path.peek q x) as Hp.
  { intros q. simpl. by rewrite (find_field_NoDup m k x). }
  destruct e as [s' v' p|v' p|s' v' p]; simpl;
    [intros (q & -> & ?)|intros (q & l & -> & ?)|intros (q & l & -> & ?)];
    [exists (k :: q)|exists (k :: q), l|exists (k :: q), l];
    rewrite <- ?app_comm_cons, ?Hp, <- ?app_assoc; done.
Qed.

Lemma require_structured_located path m s fs vs e :
  wf_value (Vstruct m) → ¬ has_type (Vstruct m) s → vs ⊆ m →
  Forall (λ kv, ∀ s path e, wf_value kv.2 →
    require_type_at path kv.2 s = Throw e → located path kv.2 e) vs →
  require_structured require_type_at path (Vstruct m) s vs fs = Throw e →
  located path (Vstruct m) e.
Proof.
  intros Hwf Hs. revert fs. induction vs as [|[k x] vs IH]; intros fs Hsub Hall; simpl.
  { destruct fs as [|f fs]; intros [= <-]. by exists [], (field_name f). }
  assert ((k, x) ∈ m) as Hin by set_solver.
  assert (Path.peek [k] (Vstruct m) = Some x) as Hk.
  { simpl. by rewrite (find_field_NoDup m k x); [|apply Hwf|]. }
  apply Forall_cons in Hall as [Hx Hall].
  destruct fs as [|f fs]; [intros [= <-]; by exists [], k|].
  case_decide; [|intros [= <-]; by exists [], k].
  destruct (require_type_at _ x _) as [[]|e'] eqn:Hr; simpl.
  - apply IH; [set_solver|done].
  - intros [= <-]. eapply located_below; eauto using wf_value_field.
Qed.

Lemma require_type_at_located v s path e :
  wf_value v → require_type_at path v s = Throw e → located path v e.
Proof.
  revert s path e. induction v as [| | | | | | | | | | | | | | |m IH]
    using value_type_ind'; intros sg path e Hwf Hr.
  all: assert (¬ has_type _ sg) as Hnt
    by (rewrite <- (require_type_at_correct _ sg path), Hr; done).
  all: try (rewrite require_literal in Hr by done;
    destruct sg; try case_decide; simplify_eq; exists []; by rewrite app_nil_r).
  destruct sg as [t|n fs]; simpl in Hr.
  { simplify_eq. exists []. by rewrite app_nil_r. }
  eapply require_structured_located; eauto.
Qed.

(** When [require_type] throws, the error points at the culprit: the
    path starts with the name of the place or port, the rest of it leads from
    the checked value to the reported one, and for a mismatch or a missing
    field that value indeed does not have the reported signature. *)
Theorem require_type_error v s field e :
  wf_value v → require_type v s field = Throw e → located [field] v e.
Proof.
  unfold require_type. intros Hwf Hr.
  destruct (require_type_at [field] v s) as [u|e'] eqn:Ha; simplify_eq/=.
  by eapply require_type_at_located.
Qed.

Lemma require_type_error_witness :
  located ["place"] (Vstruct [("x", Vint 3); ("s", Vstruct [("c", Vchar "a")])])
    (type_mismatch (Sname "int") (Vchar "a") ["place"; "s"; "c"]).
Proof.
  apply (require_type_error _
    (Sstruct "p" [Fsimple "x" "int"; Fstruct "s" [Fsimple "c" "int"]])).
  - repeat split; by_computation.
  - reflexivity.
Defined.

End Signature.

(** ** The order on values

    [boost::variant] compares the alternatives' indices first and then the
    contents; containers compare lexicographically.  [vcmp] is the three-way
    form of [operator<]: [Lt] is [x < y], [Gt] is [y < x], [Eq] is neither. *)
Module Order.

Definition which (v : value_type) : Z :=
  match v with
  | Vcontrol => 0 | Vbool _ => 1 | Vint _ => 2 | Vlong _ => 3 | Vuint _ => 4
  | Vulong _ => 5 | Vfloat _ => 6 | Vdouble _ => 7 | Vchar _ => 8
  | Vstring _ => 9 | Vbitset _ => 10 | Vbytearray _ => 11 | Vlist _ => 12
  | Vset _ => 13 | Vmap _ => 14 | Vstruct _ => 15
  end.

Section lexicographic.
Context {A B : Type} (cmp : A → B → comparison).

(** [std::lexicographical_compare] *)
Fixpoint lex (l : list A) (r : list B) : comparison :=
  match l, r with
  | [], [] => Eq
  | [], _ :: _ => Lt
  | _ :: _, [] => Gt
  | a :: l, b :: r => match cmp a b with Eq => lex l r | c => c end
  end.
End lexicographic.

(** [operator<] of [std::pair] *)
Definition then_ (c d : comparison) : comparison := match c with Eq => d | _ => c end.

(** [char] is signed on the supported platform; [std::string] compares its
    bytes as unsigned. *)
Definition unsigned_char (c : ascii) : Z := Z.of_N (N_of_ascii c).
Definition signed_char (c : ascii) : Z :=
  let z := unsigned_char c in if (z <? 128)%Z then z else (z - 256)%Z.

Definition char_cmp (c d : ascii) : comparison := (signed_char c ?= signed_char d)%Z.
Definition string_cmp (s t : string) : comparison :=
  lex (λ c d, unsigned_char c ?= unsigned_char d)%Z
    (String.list_ascii_of_string s) (String.list_ascii_of_string t).
Definition float_cmp (f g : spec_float) : comparison :=
  match SFcompare f g with Some c => c | None => Eq end.
Definition bool_cmp (b c : bool) : comparison :=
  match b, c with false, true => Lt | true, false => Gt | _, _ => Eq end.

Fixpoint vcmp (x y : value_type) : comparison :=
  match x, y with
  | Vcontrol, Vcontrol => Eq
  | Vbool a, Vbool b => bool_cmp a b
  | Vint a, Vint b | Vlong a, Vlong b
  | Vuint a, Vuint b | Vulong a, Vulong b => (a ?= b)%Z
  | Vfloat a, Vfloat b | Vdouble a, Vdouble b => float_cmp a b
  | Vchar a, Vchar b => char_cmp a b
  | Vstring a, Vstring b => string_cmp a b
  | Vbitset a, Vbitset b => lex Z.compare a b
  | Vbytearray a, Vbytearray b => lex char_cmp a b
  | Vlist a, Vlist b | Vset a, Vset b => lex vcmp a b
  | Vmap a, Vmap b =>
      lex (λ p q, then_ (vcmp p.1 q.1) (vcmp p.2 q.2)) a b
  | Vstruct a, Vstruct b =>
      lex (λ p q, then_ (string_cmp p.1 q.1) (vcmp p.2 q.2)) a b
  | _, _ => (which x ?= which y)%Z
  end.

(** [std::set<value_type>] and [std::map<value_type, value_type>] as their
    in-order sequences. *)
Fixpoint set_insert (x : value_type) (l : list value_type) : list value_type :=
  match l with
  | [] => [x]
  | y :: l' =>
      match vcmp x y with
      | Lt => x :: l
      | Eq => l
      | Gt => y :: set_insert x l'
      end
  end.

Fixpoint set_erase (x : value_type) (l : list value_type) : list value_type :=
  match l with
  | [] => []
  | y :: l' =>
      match vcmp x y with
      | Lt => l
      | Eq => l'
      | Gt => y :: set_erase x l'
      end
  end.

Fixpoint set_find (x : value_type) (l : list value_type) : bool :=
  match l with
  | [] => false
  | y :: l' =>
      match vcmp x y with Lt => false | Eq => true | Gt => set_find x l' end
  end.

(** [m[k] = v] *)
Fixpoint map_assign (k v : value_type) (m : list (value_type * value_type)) :
    list (value_type * value_type) :=
  match m with
  | [] => [(k, v)]
  | (k', v') :: m' =>
      match vcmp k k' with
      | Lt => (k, v) :: m
      | Eq => (k', v) :: m'
      | Gt => (k', v') :: map_assign k v m'
      end
  end.

Fixpoint map_erase (k : value_type) (m : list (value_type * value_type)) :
    list (value_type * value_type) :=
  match m with
  | [] => []
  | (k', v') :: m' =>
      match vcmp k k' with
      | Lt => m
      | Eq => m'
      | Gt => (k', v') :: map_erase k m'
      end
  end.

Fixpoint map_find (k : value_type) (m : list (value_type * value_type)) :
    option value_type :=
  match m with
  | [] => None
  | (k', v') :: m' =>
      match vcmp k k' with Lt => None | Eq => Some v' | Gt => map_find k m' end
  end.

End Order.
