(* ===== verification/OrderSpec.v ===== *)
(** * The order on values is one that sets and maps can use

    [std::set<value_type>] and [std::map<value_type, value_type>] need a
    strict weak order.  [operator<] of values is one as long as no
    floating-point number is NaN; sets and maps built with it stay sorted and
    behave as sets and maps up to the equivalence of the order. *)

From Stdlib Require Import SpecFloat.
From S2P Require Import Prelude Value.

Module OrderSpec.
Import Order.

(** ** Comparisons *)

Lemma then_opp c d : CompOpp (then_ c d) = then_ (CompOpp c) (CompOpp d).
Proof. by destruct c. Qed.

Lemma SFcompare_antisym f g :
  SFcompare f g = CompOpp <$> SFcompare g f.
Proof.
  destruct f as [[]|[]| |[] m e], g as [[]|[]| |[] m' e']; try done; simpl; f_equal;
    rewrite (Z.compare_antisym e' e), ?(Pos.compare_cont_antisym m' m);
    destruct (e' ?= e)%Z; simpl; try done;
    by rewrite (Pos.compare_cont_antisym m' m), ?CompOpp_involutive.
Qed.

Section lex.
Context {A : Type} (cmp : A → A → comparison).

Lemma lex_antisym l r :
  Forall (λ a, ∀ b, cmp a b = CompOpp (cmp b a)) l → lex cmp l r = CompOpp (lex cmp r l).
Proof.
  intros Hl. revert r. induction Hl as [|a l Ha _ IH]; intros [|b r]; simpl; try done.
  rewrite Ha. destruct (cmp b a); simpl; [apply IH|done|done].
Qed.
End lex.

Lemma vcmp_antisym x y : vcmp x y = CompOpp (vcmp y x).
Proof.
  revert y. induction x using value_type_ind'; intros y; destruct y; simpl; try done.
  - by destruct b, b0.
  - apply Z.compare_antisym.
  - apply Z.compare_antisym.
  - apply Z.compare_antisym.
  - apply Z.compare_antisym.
  - unfold float_cmp. rewrite SFcompare_antisym. by destruct (SFcompare f0 f).
  - unfold float_cmp. rewrite SFcompare_antisym. by destruct (SFcompare f0 f).
  - apply Z.compare_antisym.
  - apply lex_antisym, Forall_true. intros. apply Z.compare_antisym.
  - apply lex_antisym, Forall_true. intros. apply Z.compare_antisym.
  - apply lex_antisym, Forall_true. intros. apply Z.compare_antisym.
  - by apply lex_antisym.
  - by apply lex_antisym.
  - apply lex_antisym. eapply Forall_impl; [done|]. intros [k v] [Hk Hv] [k' v']. simpl in *.
    by rewrite Hk, Hv, then_opp.
  - apply lex_antisym. eapply Forall_impl; [done|]. intros [k v] Hv [k' v']. simpl in *.
    rewrite Hv, then_opp. f_equal. apply lex_antisym, Forall_true. intros. apply Z.compare_antisym.
Qed.

(** ** Transitivity *)

Definition trans_at {A} (cmp : A → A → comparison) (a b c : A) : Prop :=
  (cmp a b = Eq → cmp a c = cmp b c) ∧
  (cmp a b = Lt → cmp b c ≠ Gt → cmp a c = Lt).

Lemma lex_trans {A} (cmp : A → A → comparison) (Q : A → Prop) l r s :
  Forall (λ a, ∀ b c, Q b → Q c → trans_at cmp a b c) l → Forall Q r → Forall Q s →
  trans_at (lex cmp) l r s.
Proof.
  intros Hl. revert r s. induction Hl as [|a l Ha _ IH]; intros [|b r] [|c s] Hr Hs;
    try (by split; simpl).
  apply Forall_cons in Hr as [Hb Hr]. apply Forall_cons in Hs as [Hc Hs].
  destruct (Ha b c Hb Hc) as [H1 H2], (IH r s Hr Hs) as [H3 H4]. split; simpl.
  - destruct (cmp a b); [|done..]. rewrite H1 by done. intros Hlr. by rewrite H3.
  - destruct (cmp a b) eqn:Hab; [| |done].
    + rewrite H1 by done. destruct (cmp b c); [auto|done|congruence].
    + intros _. destruct (cmp b c) eqn:Hbc; [|by rewrite H2|done]. by rewrite H2.
Qed.

Lemma then_trans {A B} (f : A → A → comparison) (g : B → B → comparison) a b c x y z :
  trans_at f a b c → trans_at g x y z →
  trans_at (λ p q, then_ (f p.1 q.1) (g p.2 q.2)) (a, x) (b, y) (c, z).
Proof.
  intros [H1 H2] [H3 H4]. split; simpl.
  - destruct (f a b); simpl; [|done..]. rewrite H1 by done. intros Hg. by rewrite H3.
  - destruct (f a b) eqn:Hab; simpl; [| |done].
    + rewrite H1 by done. destruct (f b c); simpl; [auto|done|congruence].
    + intros _. destruct (f b c) eqn:Hbc; simpl; [|by rewrite H2|done]. by rewrite H2.
Qed.

Lemma Z_trans a b c : trans_at Z.compare a b c.
Proof.
  split.
  - by intros ->%Z.compare_eq.
  - rewrite !Z.compare_lt_iff, Z.compare_ngt_iff. lia.
Qed.

Lemma image_trans {A B} (cmp : B → B → comparison) (f : A → B) a b c :
  trans_at cmp (f a) (f b) (f c) → trans_at (λ x y, cmp (f x) (f y)) a b c.
Proof. done. Qed.

(** Floating-point numbers are ordered like these keys. *)
Definition float_key (f : spec_float) : list Z :=
  match f with
  | S754_infinity true => [-2; 0; 0]
  | S754_finite true m e => [-1; - e; - Z.pos m]
  | S754_zero _ | S754_nan => [0; 0; 0]
  | S754_finite false m e => [1; e; Z.pos m]
  | S754_infinity false => [2; 0; 0]
  end%Z.

Definition is_nan (f : spec_float) : bool := match f with S754_nan => true | _ => false end.

Lemma float_cmp_key f g :
  is_nan f = false → is_nan g = false → float_cmp f g = lex Z.compare (float_key f) (float_key g).
Proof.
  destruct f as [[]|[]| |[] m e], g as [[]|[]| |[] m' e']; try done; intros _ _;
    unfold float_cmp; simpl.
  - rewrite !Z.compare_opp, (Z.compare_antisym e' e). destruct (e' ?= e)%Z; simpl; [|done..].
    unfold Pos.compare. by destruct (Pos.compare_cont Eq m m').
  - destruct (e ?= e')%Z; [|done..]. unfold Pos.compare. by destruct (Pos.compare_cont Eq m m').
Qed.

Fixpoint no_nan (v : value_type) : bool :=
  match v with
  | Vfloat f | Vdouble f => negb (is_nan f)
  | Vlist l | Vset l => forallb no_nan l
  | Vmap l => forallb (λ kv, no_nan kv.1 && no_nan kv.2) l
  | Vstruct l => forallb (λ kv, no_nan kv.2) l
  | _ => true
  end.

Lemma float_trans f g h :
  is_nan f = false → is_nan g = false → is_nan h = false → trans_at float_cmp f g h.
Proof.
  intros Hf Hg Hh. unfold trans_at. rewrite !float_cmp_key by done.
  apply (lex_trans _ (λ _, True)); [|by apply Forall_true..].
  apply Forall_true. intros. apply Z_trans.
Qed.

Lemma lex_Z_trans {A} (f : A → Z) l r s : trans_at (lex (λ a b, f a ?= f b)%Z) l r s.
Proof.
  apply (lex_trans _ (λ _, True)); [|by apply Forall_true..].
  apply Forall_true. intros a b c _ _. apply (image_trans Z.compare f), Z_trans.
Qed.

Lemma forallb_Forall {A} (f : A → bool) l : forallb f l = true ↔ Forall (λ x, f x = true) l.
Proof.
  induction l as [|x l IH]; simpl; [split; [constructor|done]|].
  by rewrite andb_true_iff, Forall_cons, IH.
Qed.

(** Values with different alternatives. *)
Lemma vcmp_which x y : which x ≠ which y → vcmp x y = (which x ?= which y)%Z.
Proof. destruct x, y; done. Qed.
Lemma vcmp_Eq_which x y : vcmp x y = Eq → which x = which y.
Proof.
  destruct (decide (which x = which y)); [done|]. rewrite vcmp_which by done.
  by intros ?%Z.compare_eq.
Qed.

Lemma trans_other x y z :
  (which x = which y → which y = which z → trans_at vcmp x y z) → trans_at vcmp x y z.
Proof.
  intros Hsame. destruct (decide (which x = which y)) as [Hxy|Hxy].
  - destruct (decide (which y = which z)) as [Hyz|Hyz]; [by apply Hsame|].
    rewrite <- Hxy in Hyz. split.
    + intros _. rewrite !vcmp_which by lia. by rewrite Hxy.
    + rewrite (vcmp_which y z), (vcmp_which x z) by lia. rewrite <- Hxy.
      rewrite Z.compare_ngt_iff, Z.compare_lt_iff. lia.
  - split; [by intros ?%vcmp_Eq_which|]. rewrite (vcmp_which x y) by done.
    rewrite Z.compare_lt_iff. intros Hlt Hyz.
    destruct (decide (which y = which z)) as [Heq|Hne].
    + rewrite vcmp_which by lia. apply Z.compare_lt_iff. lia.
    + rewrite vcmp_which in Hyz by done. apply Z.compare_ngt_iff in Hyz.
      rewrite vcmp_which by lia. apply Z.compare_lt_iff. lia.
Qed.

Lemma vcmp_trans x y z :
  no_nan x = true → no_nan y = true → no_nan z = true → trans_at vcmp x y z.
Proof.
  revert y z. induction x using value_type_ind'; intros y w Hx Hy Hz; apply trans_other;
    intros Hxy Hyz; destruct y; try done; destruct w; try done; simpl in Hx, Hy, Hz.
  - destruct b, b0, b1; split; simpl; congruence.
  - apply Z_trans.
  - apply Z_trans.
  - apply Z_trans.
  - apply Z_trans.
  - apply negb_true_iff in Hx, Hy, Hz. by apply float_trans.
  - apply negb_true_iff in Hx, Hy, Hz. by apply float_trans.
  - apply (image_trans Z.compare signed_char), Z_trans.
  - apply (lex_Z_trans unsigned_char).
  - apply (lex_Z_trans id).
  - apply (lex_Z_trans signed_char).
  - rewrite forallb_Forall in Hx, Hy, Hz. apply (lex_trans vcmp (λ v, no_nan v = true)); [|done..].
    rewrite Forall_forall in *. intros a Ha b c. by apply H; [|apply Hx|..].
  - rewrite forallb_Forall in Hx, Hy, Hz. apply (lex_trans vcmp (λ v, no_nan v = true)); [|done..].
    rewrite Forall_forall in *. intros a Ha b c. by apply H; [|apply Hx|..].
  - rewrite forallb_Forall in Hx, Hy, Hz.
    eapply (lex_trans _ (λ kv, no_nan kv.1 && no_nan kv.2 = true)); [|done..].
    rewrite Forall_forall in *. intros [k v] Ha [k2 v2] [k3 v3] [? ?]%andb_true_iff [? ?]%andb_true_iff.
    destruct (H _ Ha) as [Hk Hv]. specialize (Hx _ Ha). apply andb_true_iff in Hx as [? ?].
    apply then_trans; [by apply Hk|by apply Hv].
  - rewrite forallb_Forall in Hx, Hy, Hz.
    eapply (lex_trans _ (λ kv, no_nan kv.2 = true)); [|done..].
    rewrite Forall_forall in *. intros [k v] Ha [k2 v2] [k3 v3] ? ?.
    apply then_trans; [apply (lex_Z_trans unsigned_char)|by apply (H _ Ha); [apply (Hx _ Ha)|..]].
Qed.

(** ** Sets and maps as sorted sequences *)

Definition lt_value (v w : value_type) : Prop := vcmp v w = Lt.

Lemma vcmp_Gt x y : vcmp x y = Gt ↔ vcmp y x = Lt.
Proof. rewrite (vcmp_antisym x y). by destruct (vcmp y x). Qed.

(** Appending at the end. *)
Lemma set_insert_last x l : Forall (λ y, lt_value y x) l → set_insert x l = l ++ [x].
Proof.
  induction 1 as [|y l Hy _ IH]; simpl; [done|].
  by rewrite (proj2 (vcmp_Gt x y)), IH.
Qed.
Lemma map_assign_last k v m : Forall (λ kv, lt_value kv.1 k) m → map_assign k v m = m ++ [(k, v)].
Proof.
  induction 1 as [|[k' v'] m Hy _ IH]; simpl; [done|].
  by rewrite (proj2 (vcmp_Gt k k')), IH.
Qed.

Section sorted.
Implicit Types (x y : value_type) (l : list value_type).

Definition sorted l : Prop := StronglySorted lt_value l ∧ forallb no_nan l = true.

Lemma sorted_cons x l :
  sorted (x :: l) ↔ no_nan x = true ∧ Forall (lt_value x) l ∧ sorted l.
Proof.
  unfold sorted. simpl. rewrite andb_true_iff. split.
  - intros [[? ?]%StronglySorted_inv [? ?]]. done.
  - intros (? & ? & ? & ?). split; [by constructor|done].
Qed.

Lemma sorted_elem x l : sorted l → x ∈ l → no_nan x = true.
Proof. intros [_ Hl%forallb_Forall] Hx. rewrite Forall_forall in Hl. auto. Qed.

Lemma lt_all x y l :
  no_nan x = true → no_nan y = true → forallb no_nan l = true →
  lt_value x y → Forall (lt_value y) l → Forall (lt_value x) l.
Proof.
  intros Hx Hy Hl%forallb_Forall Hxy HF. rewrite Forall_forall in *. intros z Hz.
  apply (vcmp_trans x y z Hx Hy (Hl z Hz)); [done|]. by rewrite (HF z Hz).
Qed.

Lemma elem_of_set_insert x y l : y ∈ set_insert x l → y = x ∨ y ∈ l.
Proof.
  induction l as [|z l IH]; simpl; [set_solver|].
  destruct (vcmp x z); set_solver.
Qed.

Lemma set_insert_sorted x l : no_nan x = true → sorted l → sorted (set_insert x l).
Proof.
  intros Hx. induction l as [|y l IH].
  { intros _. apply sorted_cons. split_and!; [done|constructor|split; [constructor|done]]. }
  intros Hs. pose proof Hs as (Hy & HF & Hl)%sorted_cons. simpl. destruct (vcmp x y) eqn:Hxy; [done| |].
  - apply sorted_cons. split_and!; [done| |done]. constructor; [done|].
    eapply lt_all; [done|exact Hy|apply Hl|done|done].
  - apply sorted_cons. split_and!; [done| |by apply IH]. rewrite Forall_forall in *.
    intros z [->|Hz]%elem_of_set_insert; [by apply vcmp_Gt|by apply HF].
Qed.

Lemma elem_of_set_erase x y l : y ∈ set_erase x l → y ∈ l.
Proof. induction l as [|z l IH]; simpl; [done|]. destruct (vcmp x z); set_solver. Qed.

Lemma set_erase_sorted x l : sorted l → sorted (set_erase x l).
Proof.
  induction l as [|y l IH]; [done|]. intros Hs. pose proof Hs as (Hy & HF & Hl)%sorted_cons.
  simpl. destruct (vcmp x y); [done|done|]. apply sorted_cons. split_and!; [done| |by apply IH].
  rewrite Forall_forall in *. intros z Hz%elem_of_set_erase. auto.
Qed.

(** [set_find] looks for an equivalent element. *)
Lemma set_find_spec x l :
  no_nan x = true → sorted l → (set_find x l = true ↔ ∃ y, y ∈ l ∧ vcmp x y = Eq).
Proof.
  intros Hx. induction l as [|y l IH]; intros Hs; simpl.
  { split; [done|]. intros (y & Hy & _). by apply not_elem_of_nil in Hy. }
  pose proof Hs as (Hy & HF & Hl)%sorted_cons. destruct (vcmp x y) eqn:Hxy.
  - split; [|done]. intros _. exists y. split; [by left|done].
  - split; [done|]. intros (z & [->|Hz]%elem_of_cons & Heq); [congruence|].
    assert (Forall (lt_value x) l) as HFx.
    { eapply lt_all; [done|exact Hy|apply Hl|done|done]. }
    rewrite Forall_forall in HFx. specialize (HFx z Hz). unfold lt_value in HFx. congruence.
  - rewrite IH by done. split.
    + intros (z & Hz & Heq). exists z. split; [by right|done].
    + intros (z & [->|Hz]%elem_of_cons & Heq); [congruence|]. eauto.
Qed.

Lemma vcmp_Eq_sym x y : vcmp x y = Eq → vcmp y x = Eq.
Proof. rewrite (vcmp_antisym y x). by intros ->. Qed.

Lemma elem_of_insert_equiv x y l :
  no_nan x = true → no_nan y = true → sorted l →
  ((∃ z, z ∈ set_insert x l ∧ vcmp y z = Eq) ↔ vcmp y x = Eq ∨ ∃ z, z ∈ l ∧ vcmp y z = Eq).
Proof.
  intros Hx Hy. induction l as [|w l IH]; intros Hs; cbn [set_insert].
  { setoid_rewrite list_elem_of_singleton. split.
    - intros (z & -> & ?). by left.
    - intros [?|(z & Hz & _)]; [eauto|by apply not_elem_of_nil in Hz]. }
  pose proof Hs as (Hw & HF & Hl)%sorted_cons. destruct (vcmp x w) eqn:Hxw.
  - split; [by right|]. intros [Hyx|?]; [|done]. exists w. split; [by left|].
    by rewrite (proj1 (vcmp_trans y x w Hy Hx Hw) Hyx).
  - split.
    + intros (z & [->|Hz]%elem_of_cons & Heq); [by left|right; eauto].
    + intros [Heq|(z & Hz & Heq)]; [exists x|exists z]; (split; [|done]); [by left|by right].
  - specialize (IH Hl). split.
    + intros (z & [->|Hz]%elem_of_cons & Heq); [right; exists w; split; [by left|done]|].
      destruct (proj1 IH) as [|(u & Hu & ?)]; [eauto|by left|].
      right. exists u. split; [by right|done].
    + intros Hor. assert (vcmp y w = Eq ∨ ∃ z, z ∈ set_insert x l ∧ vcmp y z = Eq) as [Heq|(z & Hz & Heq)].
      { destruct Hor as [?|(z & [->|Hz]%elem_of_cons & Heq)]; [right|by left|right]; apply IH; eauto. }
      * exists w. split; [by left|done].
      * exists z. split; [by right|done].
Qed.

Lemma elem_of_erase_equiv x y l :
  no_nan x = true → no_nan y = true → sorted l →
  ((∃ z, z ∈ set_erase x l ∧ vcmp y z = Eq) ↔ vcmp y x ≠ Eq ∧ ∃ z, z ∈ l ∧ vcmp y z = Eq).
Proof.
  intros Hx Hy. induction l as [|w l IH]; intros Hs; cbn [set_erase].
  { split; [|by intros [_ ?]]. intros (z & Hz & _). by apply not_elem_of_nil in Hz. }
  pose proof Hs as (Hw & HF & Hl)%sorted_cons. rewrite Forall_forall in HF.
  destruct (vcmp x w) eqn:Hxw.
  - split.
    + intros (z & Hz & Hyz). split; [|exists z; split; [by right|done]]. intros Hyx.
      assert (vcmp w z = Eq) as Hwz.
      { pose proof (sorted_elem z l Hl Hz) as Hnz.
        rewrite <- (proj1 (vcmp_trans x w z Hx Hw Hnz) Hxw), <- Hyz. symmetry.
        by apply (vcmp_trans y x z Hy Hx Hnz). }
      specialize (HF z Hz). unfold lt_value in HF. congruence.
    + intros (Hyx & z & [->|Hz]%elem_of_cons & Hyz); [|eauto].
      destruct Hyx. apply vcmp_Eq_sym. by rewrite (proj1 (vcmp_trans x w y Hx Hw Hy) Hxw), vcmp_Eq_sym.
  - split; [|by intros [_ ?]]. intros (z & Hz & Hyz). split; [|eauto]. intros Hyx.
    pose proof (sorted_elem z (w :: l) Hs Hz) as Hnz.
    rewrite (proj1 (vcmp_trans y x z Hy Hx Hnz) Hyx) in Hyz.
    apply elem_of_cons in Hz as [->|Hz]; [congruence|].
    assert (vcmp x z = Lt); [|congruence].
    apply (vcmp_trans x w z Hx Hw Hnz); [done|]. by rewrite (HF z Hz).
  - setoid_rewrite elem_of_cons. specialize (IH Hl). split.
    + intros (z & [->|Hz] & Hyz).
      * split; [|eauto]. intros Hyx. rewrite (proj1 (vcmp_trans y x w Hy Hx Hw) Hyx) in Hyz. congruence.
      * destruct (proj1 IH) as [? (u & ? & ?)]; eauto.
    + intros (Hyx & z & [->|Hz] & Hyz); [eauto|]. destruct (proj2 IH) as (u & ? & ?); eauto.
Qed.
End sorted.

(** [operator<] on values without NaN is a strict weak order: nothing is
    less than itself, it is asymmetric and transitive, and "neither is less"
    is an equivalence that respects it. *)
Theorem value_order_strict_weak x y z :
  no_nan x = true → no_nan y = true → no_nan z = true →
  vcmp x x = Eq ∧
  (vcmp x y = Lt ↔ vcmp y x = Gt) ∧
  (vcmp x y = Lt → vcmp y z = Lt → vcmp x z = Lt) ∧
  (vcmp x y = Eq → vcmp y x = Eq) ∧
  (vcmp x y = Eq → vcmp x z = vcmp y z).
Proof.
  intros Hx Hy Hz. destruct (vcmp_trans x y z Hx Hy Hz) as [H1 H2]. split_and!.
  - pose proof (vcmp_antisym x x) as Ha. by destruct (vcmp x x).
  - symmetry. apply vcmp_Gt.
  - intros Hxy Hyz. apply H2; [done|]. by rewrite Hyz.
  - apply vcmp_Eq_sym.
  - done.
Qed.

Lemma value_order_strict_weak_witness :
  let x := Vlist [Vint 1; Vstring "a"] in
  let y := Vlist [Vint 1; Vstring "b"] in
  let z := Vset [] in
  vcmp x y = Lt ∧ vcmp y z = Lt ∧ vcmp x z = Lt.
Proof.
  intros x y z. split_and!; [reflexivity..|].
  destruct (value_order_strict_weak x y z) as (_ & _ & Htrans & _); [reflexivity..|].
  by apply Htrans.
Defined.

(** Sets of values behave as sets: inserting and erasing keep the
    sequence strictly sorted, what is found after an insertion is the inserted
    value and what was found before, and what is found after an erasure is
    what was found before and is not the erased value (all up to the
    equivalence of the order). *)
Theorem set_laws x y l :
  no_nan x = true → no_nan y = true → sorted l →
  sorted (set_insert x l) ∧ sorted (set_erase x l) ∧
  (set_find y (set_insert x l) = true ↔ vcmp y x = Eq ∨ set_find y l = true) ∧
  (set_find y (set_erase x l) = true ↔ vcmp y x ≠ Eq ∧ set_find y l = true).
Proof.
  intros Hx Hy Hl. pose proof (set_insert_sorted x l Hx Hl). pose proof (set_erase_sorted x l Hl).
  rewrite !set_find_spec by done. split_and!; [done|done| |].
  - by apply elem_of_insert_equiv.
  - by apply elem_of_erase_equiv.
Qed.

Lemma set_laws_witness :
  let l := [Vint 1; Vint 3] in
  sorted (set_insert (Vint 2) l) ∧ set_insert (Vint 2) l = [Vint 1; Vint 2; Vint 3].
Proof.
  intros l. split; [|reflexivity].
  apply (set_laws (Vint 2) (Vint 1) l); [reflexivity|reflexivity|].
  split; [|reflexivity]. repeat constructor.
Defined.

End OrderSpec.
