(* ===== verification/Token.v ===== *)
(** * Tokens of the expression language and the parser's action table

    [we/expr/token/type.hpp], [prop.cpp], [assoc.cpp], [prec.cpp] and
    [we/expr/parse/action.cpp]. *)

From S2P Require Import Prelude.

Module token.

(** [enum type]: the order matters, [is_builtin] compares positions. *)
Inductive type : Type :=
  | _or_boolean | _or_integral | _and_boolean | _and_integral | _not | lt
  | le | gt | ge | ne | eq | add | sub | mul | div | divint | modint | _pow
  | _powint | neg | min | max | abs | _floor | _ceil | _round | _sin | _cos
  | _sqrt | _log | _toint | _tolong | _touint | _toulong | _tofloat
  | _todouble | _bitset_insert | _bitset_delete | _bitset_is_element
  | _bitset_or | _bitset_and | _bitset_xor | _bitset_count | _bitset_tohex
  | _bitset_fromhex | _stack_empty | _stack_top | _stack_push | _stack_pop
  | _stack_size | _stack_join | _map_assign | _map_unassign
  | _map_is_assigned | _map_get_assignment | _map_size | _map_empty
  | _set_insert | _set_erase | _set_is_element | _set_pop | _set_top
  | _set_empty | _set_size | _set_is_subset | sep | lpr | rpr | val | ref
  | define | eof.

Definition all : list type :=
  [_or_boolean; _or_integral; _and_boolean; _and_integral; _not; lt; le; gt;
  ge; ne; eq; add; sub; mul; div; divint; modint; _pow; _powint; neg; min;
  max; abs; _floor; _ceil; _round; _sin; _cos; _sqrt; _log; _toint;
  _tolong; _touint; _toulong; _tofloat; _todouble; _bitset_insert;
  _bitset_delete; _bitset_is_element; _bitset_or; _bitset_and; _bitset_xor;
  _bitset_count; _bitset_tohex; _bitset_fromhex; _stack_empty; _stack_top;
  _stack_push; _stack_pop; _stack_size; _stack_join; _map_assign;
  _map_unassign; _map_is_assigned; _map_get_assignment; _map_size;
  _map_empty; _set_insert; _set_erase; _set_is_element; _set_pop; _set_top;
  _set_empty; _set_size; _set_is_subset; sep; lpr; rpr; val; ref; define;
  eof].

(** The position in the enumeration. *)
Definition index (t : type) : nat :=
  match t with
  | _or_boolean => 0 | _or_integral => 1 | _and_boolean => 2
  | _and_integral => 3 | _not => 4 | lt => 5 | le => 6 | gt => 7 | ge => 8
  | ne => 9 | eq => 10 | add => 11 | sub => 12 | mul => 13 | div => 14
  | divint => 15 | modint => 16 | _pow => 17 | _powint => 18 | neg => 19
  | min => 20 | max => 21 | abs => 22 | _floor => 23 | _ceil => 24
  | _round => 25 | _sin => 26 | _cos => 27 | _sqrt => 28 | _log => 29
  | _toint => 30 | _tolong => 31 | _touint => 32 | _toulong => 33
  | _tofloat => 34 | _todouble => 35 | _bitset_insert => 36
  | _bitset_delete => 37 | _bitset_is_element => 38 | _bitset_or => 39
  | _bitset_and => 40 | _bitset_xor => 41 | _bitset_count => 42
  | _bitset_tohex => 43 | _bitset_fromhex => 44 | _stack_empty => 45
  | _stack_top => 46 | _stack_push => 47 | _stack_pop => 48
  | _stack_size => 49 | _stack_join => 50 | _map_assign => 51
  | _map_unassign => 52 | _map_is_assigned => 53
  | _map_get_assignment => 54 | _map_size => 55 | _map_empty => 56
  | _set_insert => 57 | _set_erase => 58 | _set_is_element => 59
  | _set_pop => 60 | _set_top => 61 | _set_empty => 62 | _set_size => 63
  | _set_is_subset => 64 | sep => 65 | lpr => 66 | rpr => 67 | val => 68
  | ref => 69 | define => 70 | eof => 71
  end.

Lemma all_index t : all !! index t = Some t.
Proof. by destruct t. Qed.

#[global] Instance index_inj : Inj (=) (=) index.
Proof. intros x y Hxy. pose proof (all_index x) as Hx. rewrite Hxy, all_index in Hx. congruence. Qed.

#[global] Instance type_eq_dec : EqDecision type.
Proof.
  intros x y. destruct (decide (index x = index y)) as [H|H].
  - left. by apply index_inj.
  - right. congruence.
Defined.

(** [prop.cpp] *)
Definition is_builtin (t : type) : bool :=
  bool_decide (index neg < index t ∧ index t < index sep).

Definition is_prefix (t : type) : bool :=
  match t with
  | min | max | _floor | _ceil | _round | _sin | _cos
  | _bitset_insert | _bitset_delete | _bitset_is_element
  | _bitset_tohex | _bitset_fromhex | _bitset_or | _bitset_and | _bitset_xor
  | _bitset_count | _stack_top | _stack_push | _stack_pop | _stack_join
  | _map_assign | _map_unassign | _map_is_assigned | _map_get_assignment
  | _set_insert | _set_erase | _set_is_element | _set_is_subset
  | abs => true
  | _ => false
  end.

Definition next_can_be_unary (t : type) : bool :=
  match t with val | rpr | ref => false | _ => true end.

(** [token::show] ([type.cpp]) *)
Definition show (t : type) : string :=
  match t with
  | _or_boolean => " || "
  | _or_integral => " | "
  | _and_boolean => " && "
  | _and_integral => " & "
  | _not => "!"
  | lt => " < "
  | le => " <= "
  | gt => " > "
  | ge => " >= "
  | ne => " != "
  | eq => " == "
  | add => " + "
  | sub => " - "
  | mul => " * "
  | div => " / "
  | divint => " div "
  | modint => " mod "
  | _pow => "**"
  | _powint => "^"
  | neg => "-"
  | min => "min"
  | max => "max"
  | _floor => "floor"
  | _ceil => "ceil"
  | _round => "round"
  | _sin => "sin"
  | _cos => "cos"
  | _sqrt => "sqrt"
  | _log => "log"
  | _toint => "int"
  | _tolong => "long"
  | _touint => "uint"
  | _toulong => "ulong"
  | _tofloat => "float"
  | _todouble => "double"
  | _bitset_insert => "bitset_insert"
  | _bitset_delete => "bitset_delete"
  | _bitset_is_element => "bitset_is_element"
  | _bitset_or => "bitset_or"
  | _bitset_and => "bitset_and"
  | _bitset_xor => "bitset_xor"
  | _bitset_count => "bitset_count"
  | _bitset_tohex => "bitset_tohex"
  | _bitset_fromhex => "bitset_fromhex"
  | _stack_empty => "stack_empty"
  | _stack_top => "stack_top"
  | _stack_push => "stack_push"
  | _stack_pop => "stack_pop"
  | _stack_size => "stack_size"
  | _stack_join => "stack_join"
  | _map_assign => "map_assign"
  | _map_unassign => "map_unassign"
  | _map_is_assigned => "map_is_assigned"
  | _map_get_assignment => "map_get_assignment"
  | _map_size => "map_size"
  | _map_empty => "map_empty"
  | _set_insert => "set_insert"
  | _set_erase => "set_erase"
  | _set_is_element => "set_is_element"
  | _set_pop => "set_pop"
  | _set_top => "set_top"
  | _set_empty => "set_empty"
  | _set_size => "set_size"
  | _set_is_subset => "set_is_subset"
  | abs => "abs"
  | sep => ", "
  | lpr => "("
  | rpr => ")"
  | val => "<val>"
  | ref => "<ref>"
  | eof => "<eof>"
  | define => " := "
  end.

Definition is_define (t : type) : bool := bool_decide (t = define).
Definition is_or_boolean (t : type) : bool := bool_decide (t = _or_boolean).
Definition is_and_boolean (t : type) : bool := bool_decide (t = _and_boolean).

End token.

Module associativity.

Inductive type : Type := left | right.

#[global] Instance type_eq_dec : EqDecision type.
Proof. solve_decision. Defined.

(** [assoc.cpp] *)
Definition associativity (t : token.type) : type :=
  match t with
  | token._or_boolean | token._or_integral
  | token._and_boolean | token._and_integral => left
  | token._not => right
  | token.lt | token.le | token.gt | token.ge | token.ne | token.eq
  | token.add | token.sub | token.mul | token.div
  | token.divint | token.modint => left
  | token._pow | token._powint | token.neg => right
  | token.define => right
  | _ => left
  end.

End associativity.

Module prec.

(** [prec.cpp]; a token without a precedence throws. *)
Definition prec (t : token.type) : option Z :=
  match t with
  | token._or_boolean => Some 0
  | token._or_integral => Some 0
  | token._and_boolean => Some 1
  | token._and_integral => Some 1
  | token._not => Some 30
  | token.lt | token.le | token.gt | token.ge | token.ne | token.eq => Some 10
  | token.add | token.sub => Some 21
  | token.mul | token.divint | token.div => Some 22
  | token.modint => Some 23
  | token._pow | token._powint => Some 24
  | token.neg => Some 25
  | token.define => Some (-98)
  | _ => None
  end%Z.

End prec.
