(* ===== verification/Bitset.v ===== *)
(** * Bitsets of integers

    [we/type/bitsetofint.cpp]: a set of [unsigned long] stored as a vector of
    64-bit blocks.  The operations are the source's, on blocks; the theorems
    relate them to sets of integers. *)

From S2P Require Import Prelude.

#[local] Open Scope Z_scope.

Module bitsetofint.

(** [std::vector<uint64_t> _container] *)
Abbreviation type := (list Z).

(** [_container[i]], which the source only reads in range. *)
Definition block (c : type) (i : nat) : Z := default 0 (c !! i).

(** [x >> 6] and [1UL << (x & 63)] *)
Definition word (x : Z) : nat := Z.to_nat (Z.shiftr x 6).
Definition bit (x : Z) : Z := Z.shiftl 1 (Z.land x 63).

Definition empty : type := [].
Definition push_back (v : Z) (c : type) : type := c ++ [v].

(** [_container.resize (n, 0)] for an [n] that is not smaller *)
Definition resize (n : nat) (c : type) : type := c ++ replicate (n - length c) 0.

Definition ins (x : Z) (c : type) : type :=
  let c := if bool_decide (length c ≤ word x)%nat then resize (word x + 1) c else c in
  <[word x := Z.lor (block c (word x)) (bit x)]> c.

(** [while (_container.size() && !_container.back()) pop_back();] *)
Fixpoint trim (c : type) : type :=
  match c with
  | [] => []
  | b :: c =>
      match trim c with
      | [] => if bool_decide (b = 0) then [] else [b]
      | c' => b :: c'
      end
  end.

Definition del (x : Z) (c : type) : type :=
  if bool_decide (word x < length c)%nat then
    trim (<[word x := Z.land (block c (word x)) (w64 (Z.lnot (bit x)))]> c)
  else c.

Definition is_element (x : Z) (c : type) : bool :=
  bool_decide (word x < length c)%nat &&
  negb (bool_decide (Z.land (block c (word x)) (bit x) = 0)).

(** One iteration of the loop of [count]: the population count of a block by
    partial sums held in pairs, nibbles and bytes.  Arithmetic is modulo
    [2^64]. *)
Definition m1 : Z := 0x5555555555555555.
Definition m2 : Z := 0x3333333333333333.
Definition m4 : Z := 0x0f0f0f0f0f0f0f0f.
Definition h01 : Z := 0x0101010101010101.

Definition hamming_weight (b : Z) : Z :=
  let b := w64 (b - Z.land (Z.shiftr b 1) m1) in
  let b := w64 (Z.land b m2 + Z.land (Z.shiftr b 2) m2) in
  let b := Z.land (w64 (b + Z.shiftr b 4)) m4 in
  Z.shiftr (w64 (b * h01)) 56.

Definition count (c : type) : Z :=
  fold_left (λ cnt b, w64 (cnt + hamming_weight b)) c 0.

(** [list] calls its argument with the elements in this order, [elements]
    collects them. *)
Fixpoint list_bits (n : nat) (x b : Z) : list Z :=
  match n with
  | O => []
  | S n =>
      (if bool_decide (Z.land b 1 ≠ 0) then [x] else []) ++
      list_bits n (w64 (x + 1)) (Z.shiftr b 1)
  end.

Fixpoint list_from (x : Z) (c : type) : list Z :=
  match c with
  | [] => []
  | b :: c => list_bits 64 x b ++ list_from (w64 (x + 64)) c
  end.

Definition elements (c : type) : list Z := list_from 0 c.

(** [operator|], [operator&], [operator^]: the shared loop. *)
Definition blockwise (op : Z → Z → Z) (lhs rhs : type) : type :=
  (λ i : nat,
     op (if bool_decide (i < length lhs)%nat then block lhs i else 0)
        (if bool_decide (i < length rhs)%nat then block rhs i else 0))
  <$> seq 0 (length lhs `max` length rhs).

Definition or_ : type → type → type := blockwise Z.lor.
Definition and_ : type → type → type := blockwise Z.land.
Definition xor_ : type → type → type := blockwise Z.lxor.

(** [operator==]: blocks that only one side has must be zero. *)
Fixpoint eqb (x y : type) : bool :=
  match x, y with
  | a :: x, b :: y => bool_decide (a = b) && eqb x y
  | x, [] => forallb (λ a, bool_decide (a = 0)) x
  | [], y => forallb (λ b, bool_decide (b = 0)) y
  end.

(** [operator<]: lexicographic on the vectors. *)
Fixpoint ltb (x y : type) : bool :=
  match x, y with
  | _, [] => false
  | [], _ :: _ => true
  | a :: x, b :: y =>
      if a <? b then true else if b <? a then false else ltb x y
  end.

(** Every block is a 64-bit word, and there are not more blocks than the
    largest [unsigned long] needs. *)
Definition wf (c : type) : Prop :=
  Forall is_w64 c ∧ Z.of_nat (length c) ≤ 2 ^ 58.

(** ** Blocks and bits *)

Lemma land63 x : Z.land x 63 = x mod 64.
Proof. change 63 with (Z.ones 6). by rewrite Z.land_ones. Qed.

Lemma word_div x : word x = Z.to_nat (x / 64).
Proof. unfold word. by rewrite Z.shiftr_div_pow2. Qed.

Lemma bit_testbit x n : 0 ≤ n → Z.testbit (bit x) n = bool_decide (n = x mod 64).
Proof.
  intros Hn. unfold bit. rewrite land63.
  assert (0 ≤ x mod 64 < 64) by (by apply Z.mod_pos_bound).
  rewrite Z.shiftl_spec by done. case_bool_decide as Heq.
  - subst. by rewrite Z.sub_diag.
  - destruct (decide (n < x mod 64)).
    + by apply Z.testbit_neg_r; lia.
    + change 1 with (2 ^ 0). apply Z.pow2_bits_false. lia.
Qed.

Lemma land_bit_zero b x : Z.land b (bit x) = 0 ↔ Z.testbit b (x mod 64) = false.
Proof.
  assert (0 ≤ x mod 64 < 64) by (by apply Z.mod_pos_bound). split.
  - intros H0. apply (f_equal (λ z, Z.testbit z (x mod 64))) in H0.
    rewrite Z.land_spec, bit_testbit, bool_decide_true, andb_true_r, Z.bits_0 in H0; done || lia.
  - intros Hb. apply Z.bits_inj'. intros n Hn.
    rewrite Z.land_spec, bit_testbit, Z.bits_0 by done.
    case_bool_decide; [subst; by rewrite Hb|by rewrite andb_false_r].
Qed.

Lemma block_ge c i : (length c ≤ i)%nat → block c i = 0.
Proof. intros Hi. unfold block. by rewrite lookup_ge_None_2. Qed.

(** Membership is one bit of one block. *)
Definition mem (c : type) (x : Z) : bool := Z.testbit (block c (word x)) (x mod 64).

Lemma is_element_mem x c : is_element x c = mem c x.
Proof.
  unfold is_element, mem. case_bool_decide as Hlt; simpl.
  - case_bool_decide as Hb; rewrite land_bit_zero in Hb; simpl.
    + by rewrite Hb.
    + by destruct (Z.testbit _ _).
  - rewrite block_ge by lia. by rewrite Z.bits_0.
Qed.

Lemma same_bit x y :
  0 ≤ x → 0 ≤ y → word x = word y → x mod 64 = y mod 64 → x = y.
Proof.
  rewrite !word_div. intros Hx Hy Hw Hm.
  assert (x / 64 = y / 64) by (apply Z2Nat.inj; [by apply Z.div_pos..|done]).
  rewrite (Z.div_mod x 64), (Z.div_mod y 64) by done. congruence.
Qed.

Lemma block_insert c i b :
  (i < length c)%nat → ∀ j, block (<[i:=b]> c) j = if decide (i = j) then b else block c j.
Proof.
  intros Hi j. unfold block. case_decide as Heq.
  - subst. by rewrite list_lookup_insert_eq.
  - by rewrite list_lookup_insert_ne.
Qed.

Lemma block_resize n c i : block (resize n c) i = block c i.
Proof.
  unfold block, resize. destruct (decide (i < length c)%nat).
  - by rewrite lookup_app_l.
  - rewrite lookup_app_r, (lookup_ge_None_2 c) by lia.
    destruct (replicate _ _ !! _) eqn:Hr; [|done].
    by apply lookup_replicate in Hr as [-> _].
Qed.

Lemma length_resize n c : length (resize n c) = (length c `max` n)%nat.
Proof. unfold resize. rewrite length_app, length_replicate. lia. Qed.

Lemma block_trim c i : block (trim c) i = block c i.
Proof.
  revert i. induction c as [|b c IH]; intros i; [done|]; simpl.
  destruct (trim c) as [|b' c'] eqn:Ht; [|destruct i; [done|apply IH]].
  case_bool_decide; destruct i as [|i]; subst; try done.
  - change (block (0 :: c) (S i)) with (block c i). by rewrite <- IH.
  - change (block (b :: c) (S i)) with (block c i). by rewrite <- IH.
Qed.

Lemma mem_update c i b (x : Z) :
  (i < length c)%nat → mem (<[i:=b]> c) x =
    if decide (word x = i) then Z.testbit b (x mod 64) else mem c x.
Proof.
  intros Hi. unfold mem. rewrite block_insert by done.
  repeat case_decide; congruence.
Qed.

Lemma mem_ins c x y :
  0 ≤ x → 0 ≤ y → mem (ins x c) y = bool_decide (y = x) || mem c y.
Proof.
  intros Hx Hy. unfold ins.
  set (c' := if bool_decide _ then _ else c).
  assert (∀ i, block c' i = block c i) as Hc'
    by (intros i; unfold c'; case_bool_decide; [apply block_resize|done]).
  assert (word x < length c')%nat.
  { unfold c'. case_bool_decide; [rewrite length_resize; lia|lia]. }
  rewrite mem_update by done. rewrite Hc'.
  assert (0 ≤ y mod 64 < 64) by (by apply Z.mod_pos_bound).
  case_decide as Hw.
  - rewrite Z.lor_spec, bit_testbit by lia. unfold mem. rewrite Hw, orb_comm. f_equal.
    apply bool_decide_ext. split; [|congruence]. intros. by apply same_bit.
  - rewrite bool_decide_false by congruence. unfold mem. by rewrite Hc'.
Qed.

Lemma mem_del c x y :
  0 ≤ x → 0 ≤ y → mem (del x c) y = negb (bool_decide (y = x)) && mem c y.
Proof.
  intros Hx Hy. unfold del.
  assert (0 ≤ y mod 64 < 64) by (by apply Z.mod_pos_bound).
  case_bool_decide as Hlt.
  - unfold mem at 1. rewrite block_trim. fold (mem (<[word x:=Z.land (block c (word x))
      (w64 (Z.lnot (bit x)))]> c) y). rewrite mem_update by done. case_decide as Hw.
    + rewrite Z.land_spec. unfold w64, two64.
      change 18446744073709551616 with (2 ^ 64).
      rewrite Z.mod_pow2_bits_low, Z.lnot_spec, bit_testbit, andb_comm by lia.
      unfold mem. rewrite Hw. f_equal. f_equal. apply bool_decide_ext.
      split; [|congruence]. intros. by apply same_bit.
    + by rewrite bool_decide_false by congruence.
  - case_bool_decide as Heq; [|done]. subst. unfold mem. rewrite block_ge by lia. apply Z.bits_0.
Qed.

Lemma block_blockwise op lhs rhs i :
  op 0 0 = 0 → block (blockwise op lhs rhs) i = op (block lhs i) (block rhs i).
Proof.
  intros H0. assert (∀ c : type, (if bool_decide (i < length c)%nat then block c i else 0) = block c i) as Hb.
  { intros c. case_bool_decide; [done|]. by rewrite block_ge by lia. }
  unfold blockwise, block at 1. rewrite list_lookup_fmap.
  destruct (decide (i < length lhs `max` length rhs)%nat) as [Hi|Hi].
  - rewrite lookup_seq_lt by done. simpl. by rewrite !Hb.
  - rewrite lookup_seq_ge by lia. simpl. by rewrite !block_ge by lia.
Qed.

(** *** Well-formedness is kept *)

Lemma is_w64_bits z : 0 ≤ z → (∀ n, 64 ≤ n → Z.testbit z n = false) → is_w64 z.
Proof.
  intros Hz Hn. unfold is_w64, two64. split; [done|].
  destruct (decide (z = 0)) as [->|]; [lia|]. change 18446744073709551616 with (2 ^ 64).
  apply Z.log2_lt_pow2; [lia|]. destruct (decide (Z.log2 z < 64)); [done|].
  pose proof (Z.bit_log2 z ltac:(lia)) as Hb. rewrite Hn in Hb by lia. done.
Qed.

Lemma w64_bit_high z n : is_w64 z → 64 ≤ n → Z.testbit z n = false.
Proof.
  intros Hz Hn. rewrite <- (w64_small z) by done. unfold w64, two64.
  change 18446744073709551616 with (2 ^ 64). by apply Z.mod_pow2_bits_high.
Qed.

Lemma block_w64 c i : Forall is_w64 c → is_w64 (block c i).
Proof.
  intros Hc. unfold block. destruct (c !! i) as [b|] eqn:Hb; simpl.
  - by eapply Forall_lookup_1 in Hc.
  - unfold is_w64, two64. lia.
Qed.

Lemma bit_w64 x : is_w64 (bit x).
Proof.
  assert (0 ≤ x mod 64 < 64) by (by apply Z.mod_pos_bound). apply is_w64_bits.
  - unfold bit. rewrite land63, Z.shiftl_1_l. lia.
  - intros n Hn. rewrite bit_testbit by lia. apply bool_decide_false. lia.
Qed.

Lemma bitwise_w64 a b :
  is_w64 a → is_w64 b → is_w64 (Z.lor a b) ∧ is_w64 (Z.land a b) ∧ is_w64 (Z.lxor a b).
Proof.
  intros Ha Hb. unfold is_w64 in Ha, Hb.
  repeat split; apply is_w64_bits.
  all: try (intros n Hn; rewrite ?Z.lor_spec, ?Z.land_spec, ?Z.lxor_spec, !w64_bit_high by done; done).
  - by apply Z.lor_nonneg; lia.
  - by apply Z.lor_nonneg; lia.
  - by apply Z.land_nonneg; lia.
  - by apply Z.land_nonneg; lia.
  - by apply Z.lxor_nonneg; lia.
  - by apply Z.lxor_nonneg; lia.
Qed.

Lemma Forall_trim (P : Z → Prop) c : Forall P c → Forall P (trim c).
Proof.
  induction 1 as [|b c Hb Hc IH]; simpl; [done|].
  destruct (trim c); [case_bool_decide; [done|]|]; by constructor.
Qed.

Lemma length_trim c : (length (trim c) ≤ length c)%nat.
Proof.
  induction c as [|b c IH]; simpl; [done|].
  destruct (trim c) eqn:Ht; [case_bool_decide|]; simpl in *; lia.
Qed.

Lemma wf_ins x c : is_w64 x → wf c → wf (ins x c).
Proof.
  intros Hx [Hc Hlen]. unfold ins.
  assert (Z.of_nat (word x) < 2 ^ 58).
  { rewrite word_div, Z2Nat.id; unfold is_w64, two64 in Hx.
    - apply Z.div_lt_upper_bound; lia.
    - apply Z.div_pos; lia. }
  set (c' := if bool_decide _ then _ else c).
  assert (Forall is_w64 c' ∧ Z.of_nat (length c') ≤ 2 ^ 58) as [Hc' Hl'].
  { unfold c'. case_bool_decide; [|done]. rewrite length_resize. split; [|lia].
    apply Forall_app; split; [done|]. apply Forall_replicate. unfold is_w64, two64. lia. }
  split; [|by rewrite length_insert]. apply Forall_insert; [done|].
  apply bitwise_w64; [by apply block_w64|apply bit_w64].
Qed.

Lemma wf_del x c : wf c → wf (del x c).
Proof.
  intros [Hc Hlen]. unfold del. case_bool_decide; [|done]. split.
  - apply Forall_trim, Forall_insert; [done|].
    apply bitwise_w64; [by apply block_w64|apply w64_range].
  - etrans; [|exact Hlen]. rewrite <- Nat2Z.inj_le.
    etrans; [apply length_trim|]. by rewrite length_insert.
Qed.

Lemma wf_blockwise op c d :
  (∀ a b, is_w64 a → is_w64 b → is_w64 (op a b)) → wf c → wf d → wf (blockwise op c d).
Proof.
  intros Hop [Hc Hlc] [Hd Hld]. unfold blockwise. split.
  - apply Forall_fmap, Forall_forall. intros i _. simpl.
    apply Hop; case_bool_decide; try (by apply block_w64); unfold is_w64, two64; lia.
  - rewrite length_fmap, length_seq. lia.
Qed.

Lemma mem_blockwise op f c d x :
  0 ≤ x → op 0 0 = 0 → (∀ a b n, 0 ≤ n → Z.testbit (op a b) n = f (Z.testbit a n) (Z.testbit b n)) →
  mem (blockwise op c d) x = f (mem c x) (mem d x).
Proof.
  intros Hx H0 Hf. unfold mem. rewrite block_blockwise by done.
  apply Hf. by apply Z.mod_pos_bound.
Qed.

(** C37: The operations on blocks are the operations on sets: what
    [is_element] says after an insertion, a deletion, a union, an
    intersection and a symmetric difference, and the result is again a
    well-formed bitset. *)
Theorem set_operations c d x y :
  wf c → wf d → is_w64 x → is_w64 y →
  (is_element y empty = false) ∧
  (wf (ins x c) ∧ is_element y (ins x c) = bool_decide (y = x) || is_element y c) ∧
  (wf (del x c) ∧ is_element y (del x c) = negb (bool_decide (y = x)) && is_element y c) ∧
  (wf (or_ c d) ∧ is_element y (or_ c d) = is_element y c || is_element y d) ∧
  (wf (and_ c d) ∧ is_element y (and_ c d) = is_element y c && is_element y d) ∧
  (wf (xor_ c d) ∧ is_element y (xor_ c d) = xorb (is_element y c) (is_element y d)).
Proof.
  intros Hc Hd Hx Hy. assert (0 ≤ x ∧ 0 ≤ y) as [? ?] by (unfold is_w64 in *; lia).
  rewrite !is_element_mem. split; [apply Z.bits_0|].
  split; [by auto using wf_ins, mem_ins|]. split; [by auto using wf_del, mem_del|].
  repeat split; try (apply wf_blockwise; [by apply bitwise_w64|done..]);
    apply mem_blockwise; try done; intros; first [apply Z.lor_spec|apply Z.land_spec|apply Z.lxor_spec].
Qed.

Lemma set_operations_witness :
  is_element 64 (xor_ (ins 64 empty) (ins 3 empty)) = true.
Proof.
  apply (set_operations (ins 64 empty) (ins 3 empty) 0 64).
  all: try (split; [|vm_compute; discriminate]); by_computation.
Defined.

(** *** Equality *)

Lemma eqb_block c d : eqb c d = true ↔ ∀ i, block c i = block d i.
Proof.
  assert (∀ c : type, forallb (λ a, bool_decide (a = 0)) c = true ↔ ∀ i, block c i = 0) as Hz.
  { clear. induction c as [|b c IH]; simpl; [done|]. rewrite andb_true_iff, bool_decide_eq_true, IH.
    split; [intros [-> H] [|i]; [done|apply H]|]. intros H. split; [apply (H 0%nat)|].
    intros i. apply (H (S i)). }
  revert d. induction c as [|a c IH]; intros [|b d].
  - done.
  - cbn [eqb]. rewrite Hz. split; intros H i; symmetry; apply H.
  - cbn [eqb]. rewrite Hz. done.
  - cbn [eqb]. rewrite andb_true_iff, bool_decide_eq_true, IH.
    split; [intros [-> H] [|i]; [done|apply H]|]. intros H. split; [apply (H 0%nat)|].
    intros i. apply (H (S i)).
Qed.

(** [operator==] is equality of the sets: trailing zero blocks do not
    matter. *)
Theorem eqb_elements c d :
  wf c → wf d →
  eqb c d = true ↔ ∀ x, is_w64 x → is_element x c = is_element x d.
Proof.
  intros [Hc Hlc] [Hd Hld]. rewrite eqb_block. split.
  - intros H x Hx. rewrite !is_element_mem. unfold mem. by rewrite H.
  - intros H i. destruct (decide (Z.of_nat i < 2 ^ 58)); [|by rewrite !block_ge by lia].
    apply Z.bits_inj'. intros n Hn. destruct (decide (n < 64)).
    + specialize (H (64 * Z.of_nat i + n)). rewrite !is_element_mem in H. unfold mem in H.
      assert (word (64 * Z.of_nat i + n) = i) as Hw.
      { rewrite word_div, Z.mul_comm, Z.div_add_l, Z.div_small, Z.add_0_r by lia. apply Nat2Z.id. }
      assert ((64 * Z.of_nat i + n) mod 64 = n) as Hm.
      { rewrite Z.mul_comm, Z.add_comm, Z.mod_add, Z.mod_small by lia. done. }
      rewrite Hw, Hm in H. apply H. unfold is_w64, two64. lia.
    + rewrite !w64_bit_high by (done || lia || by apply block_w64). done.
Qed.

Lemma eqb_elements_witness :
  eqb (ins 3 empty) [8; 0] = true ∧
  (eqb (ins 3 empty) [8; 0] = true ↔
   ∀ x, is_w64 x → is_element x (ins 3 empty) = is_element x [8; 0]).
Proof.
  split; [reflexivity|]. apply eqb_elements.
  all: split; [|vm_compute; discriminate]; by_computation.
Defined.

(** [operator<] does look at trailing zero blocks, so it orders two
    bitsets that [operator==] identifies: a [std::set] keyed by values can hold
    both.  Such bitsets arise from [operator&]. *)
Theorem ltb_not_consistent_with_eqb :
  ∃ c d : type, wf c ∧ wf d ∧ eqb c d = true ∧ ltb c d = true ∧
    d = and_ (ins 0 empty) (ins 1 empty).
Proof.
  exists [], [0]. split; [split; [constructor|simpl; lia]|].
  split; [|done]. split; [by_computation|simpl; lia].
Qed.

End bitsetofint.
