(* ===== verification/BitsetHex.v ===== *)
(** * Bitsets: counting, listing, text

    The loop of [bitsetofint::type::count] adds up population counts that are
    computed by partial sums; [list] visits the elements.  Both agree with
    membership.  Below, bitsets as text. *)

From S2P Require Import Prelude Bitset.

Import bitsetofint.

#[local] Open Scope Z_scope.

(** ** The population count

    Each of the first three steps of [hamming_weight] works on the bytes of
    the block independently; a byte has 256 values. *)

Fixpoint rep (m : Z) (n : nat) : Z :=
  match n with O => 0 | S n => m + 256 * rep m n end.

Definition s1 (n : nat) (b : Z) : Z := b - Z.land (Z.shiftr b 1) (rep 0x55 n).
Definition s2 (n : nat) (b : Z) : Z :=
  Z.land b (rep 0x33 n) + Z.land (Z.shiftr b 2) (rep 0x33 n).
Definition s3 (n : nat) (b : Z) : Z := Z.land (b + Z.shiftr b 4) (rep 0x0f n).

(** All of [P 0 .. P (n - 1)], by evaluation. *)
Definition all_below (n : nat) (P : Z → bool) : bool :=
  forallb (λ k, P (Z.of_nat k)) (seq 0 n).

Lemma all_below_spec n P :
  all_below n P = true → ∀ y, 0 ≤ y < Z.of_nat n → P y = true.
Proof.
  unfold all_below. rewrite forallb_forall. intros H y Hy.
  rewrite <- (Z2Nat.id y) by lia. apply H. apply in_seq. lia.
Qed.

Lemma land_split a x m M :
  0 ≤ a < 256 → 0 ≤ m < 256 →
  Z.land (a + 256 * x) (m + 256 * M) = Z.land a m + 256 * Z.land x M.
Proof.
  intros Ha Hm. change 256 with (2 ^ 8) in *.
  assert (∀ c z, 0 ≤ c < 2 ^ 8 → c + 2 ^ 8 * z = Z.lor c (Z.shiftl z 8)) as Hlor.
  { intros c z Hc. rewrite Z.mul_comm, <- Z.shiftl_mul_pow2 by lia.
    rewrite <- Z.lxor_lor, Z.add_nocarry_lxor; try done;
    apply Z.bits_inj'; intros n Hn; rewrite Z.land_spec, Z.shiftl_spec, Z.bits_0 by done;
    (destruct (decide (n < 8)); [rewrite (Z.testbit_neg_r z) by lia; apply andb_false_r|];
     rewrite <- (Z.mod_small c (2 ^ 8)) by lia; rewrite Z.mod_pow2_bits_high by lia; done). }
  assert (0 ≤ Z.land a m < 2 ^ 8).
  { split; [by apply Z.land_nonneg; lia|].
    rewrite <- (Z.mod_small a (2 ^ 8)) by lia. rewrite <- Z.land_ones by lia.
    rewrite (Z.land_comm a), <- Z.land_assoc, Z.land_comm, Z.land_ones by lia.
    by apply Z.mod_pos_bound. }
  rewrite !Hlor by done. apply Z.bits_inj'. intros n Hn.
  rewrite !Z.land_spec, !Z.lor_spec, !Z.land_spec, !Z.shiftl_spec, Z.land_spec by done.
  destruct (decide (n < 8)) as [Hlt|Hge].
  - rewrite !(Z.testbit_neg_r _ (n - 8)) by lia. by rewrite !orb_false_r.
  - rewrite <- (Z.mod_small a (2 ^ 8)), <- (Z.mod_small m (2 ^ 8)) by lia.
    by rewrite !Z.mod_pow2_bits_high by lia.
Qed.

Lemma shiftr_split y r s :
  0 ≤ s → Z.shiftr (y + 256 * r) s
          = Z.shiftr (y + 256 * (r mod 2 ^ s)) s + 256 * Z.shiftr r s.
Proof.
  intros Hs. rewrite !Z.shiftr_div_pow2 by done.
  rewrite (Z.div_mod r (2 ^ s)) at 1 by lia.
  rewrite <- Z.div_add by lia. f_equal. lia.
Qed.

(** A shifted byte, masked so that nothing of the next byte remains. *)
Definition masks (s m : Z) : bool :=
  all_below 256 (λ y, all_below (Z.to_nat (2 ^ s)) (λ t,
    bool_decide (0 ≤ Z.shiftr (y + 256 * t) s < 256) &&
    bool_decide (Z.land (Z.shiftr (y + 256 * t) s) m = Z.land (Z.shiftr y s) m))).

Lemma masked_shift y r s m M :
  0 ≤ s → masks s m = true → 0 ≤ y < 256 → 0 ≤ m < 256 →
  Z.land (Z.shiftr (y + 256 * r) s) (m + 256 * M)
  = Z.land (Z.shiftr y s) m + 256 * Z.land (Z.shiftr r s) M.
Proof.
  intros Hs Hmask Hy Hm. rewrite shiftr_split by done.
  pose proof (all_below_spec _ _ Hmask y Hy) as H1.
  assert (0 ≤ r mod 2 ^ s < 2 ^ s) by (apply Z.mod_pos_bound; lia).
  pose proof (all_below_spec _ _ H1 (r mod 2 ^ s)) as H2.
  rewrite Z2Nat.id in H2 by lia. specialize (H2 ltac:(done)). simpl in H2.
  apply andb_true_iff in H2 as [H2 H3]. apply bool_decide_eq_true in H2, H3.
  rewrite land_split by done. by rewrite H3.
Qed.

(** Blocks as sequences of bytes, least significant first. *)
Definition of_bytes (l : list Z) : Z := foldr (λ y r, y + 256 * r) 0 l.

Fixpoint to_bytes (n : nat) (b : Z) : list Z :=
  match n with O => [] | S n => b mod 256 :: to_bytes n (b / 256) end.

Definition is_byte (y : Z) : Prop := 0 ≤ y < 256.
(** The two counters of a byte after the second step. *)
Definition nibbles (y : Z) : Prop := is_byte y ∧ y mod 16 ≤ 4 ∧ y / 16 ≤ 4.

Lemma to_bytes_range n b : Forall is_byte (to_bytes n b).
Proof.
  revert b. induction n as [|n IH]; intros b; simpl; constructor; [|done].
  by apply Z.mod_pos_bound.
Qed.

Lemma length_to_bytes n b : length (to_bytes n b) = n.
Proof. revert b. induction n as [|n IH]; intros b; simpl; congruence. Qed.

Lemma of_to_bytes n b : 0 ≤ b < 256 ^ Z.of_nat n → of_bytes (to_bytes n b) = b.
Proof.
  revert b. induction n as [|n IH]; intros b Hb; simpl; [simpl in Hb; lia|].
  rewrite IH; [rewrite (Z.div_mod b 256) at 3; lia|].
  rewrite Nat2Z.inj_succ, Z.pow_succ_r in Hb by lia.
  split; [apply Z.div_pos; lia|]. apply Z.div_lt_upper_bound; lia.
Qed.

Lemma of_bytes_range l : Forall is_byte l → 0 ≤ of_bytes l < 256 ^ Z.of_nat (length l).
Proof.
  induction 1 as [|y l Hy Hl IH]; [simpl; lia|].
  cbn [of_bytes foldr length]. fold (of_bytes l). rewrite Nat2Z.inj_succ, Z.pow_succ_r by lia.
  unfold is_byte in Hy. lia.
Qed.

Lemma of_bytes_mod16 l : Forall nibbles l → of_bytes l mod 16 ≤ 4.
Proof.
  destruct 1 as [|y l (Hy & Hm & Hd) Hl]; [done|]. cbn [of_bytes foldr].
  replace (y + 256 * _) with (y + (16 * of_bytes l) * 16) by (unfold of_bytes; lia).
  rewrite Z.mod_add; done.
Qed.

Lemma s1_bytes l :
  Forall is_byte l → s1 (length l) (of_bytes l) = of_bytes (s1 1 <$> l).
Proof.
  induction 1 as [|y l Hy Hl IH]; [done|]. cbn [of_bytes foldr length fmap list_fmap].
  fold (of_bytes l) (of_bytes (s1 1 <$> l)). rewrite <- IH. unfold s1. cbn [rep].
  rewrite masked_shift by (done || vm_compute; done).
  replace (0x55 + 256 * 0) with 0x55 by done. lia.
Qed.

Lemma s2_bytes l :
  Forall is_byte l → s2 (length l) (of_bytes l) = of_bytes (s2 1 <$> l).
Proof.
  induction 1 as [|y l Hy Hl IH]; [done|]. cbn [of_bytes foldr length fmap list_fmap].
  fold (of_bytes l) (of_bytes (s2 1 <$> l)). rewrite <- IH. unfold s2. cbn [rep].
  rewrite masked_shift, land_split by (done || vm_compute; done).
  replace (0x33 + 256 * 0) with 0x33 by done. lia.
Qed.

(** No carry leaves a byte in the third step. *)
Lemma s3_byte y t :
  nibbles y → 0 ≤ t ≤ 4 →
  is_byte (y + Z.shiftr (y + 256 * t) 4) ∧
  Z.land (y + Z.shiftr (y + 256 * t) 4) 0x0f = s3 1 y.
Proof.
  intros (Hy & Hm & Hd) Ht.
  assert (all_below 256 (λ y, all_below 5 (λ t,
     bool_decide (is_byte y ∧ y mod 16 ≤ 4 ∧ y / 16 ≤ 4 →
       (0 ≤ y + Z.shiftr (y + 256 * t) 4 < 256) ∧
       Z.land (y + Z.shiftr (y + 256 * t) 4) 0x0f = s3 1 y))) = true) as Hall
    by (vm_compute; reflexivity).
  pose proof (all_below_spec _ _ Hall y Hy) as H1.
  pose proof (all_below_spec _ _ H1 t ltac:(lia)) as H2. simpl in H2.
  apply bool_decide_eq_true in H2. by apply H2.
Qed.

Lemma s3_bytes l :
  Forall nibbles l → s3 (length l) (of_bytes l) = of_bytes (s3 1 <$> l).
Proof.
  induction 1 as [|y l Hy Hl IH]; [done|]. cbn [of_bytes foldr length fmap list_fmap].
  fold (of_bytes l) (of_bytes (s3 1 <$> l)). rewrite <- IH. unfold s3 at 1. cbn [rep].
  rewrite shiftr_split by lia. change (2 ^ 4) with 16.
  pose proof (of_bytes_mod16 l Hl).
  assert (0 ≤ of_bytes l mod 16 < 16) by (by apply Z.mod_pos_bound).
  destruct (s3_byte y (of_bytes l mod 16)) as [Hb Hs]; [done|lia|].
  replace (y + 256 * of_bytes l + _) with
    (y + Z.shiftr (y + 256 * (of_bytes l mod 16)) 4
     + 256 * (of_bytes l + Z.shiftr (of_bytes l) 4)) by lia.
  rewrite land_split by done. rewrite Hs. done.
Qed.

(** The number of bits of a byte, by counting. *)
Definition pop8 (y : Z) : Z := Z.of_nat (length (list_bits 8 0 y)).
Definition sum (l : list Z) : Z := foldr Z.add 0 l.

Lemma byte_weight y :
  is_byte y → is_byte (s1 1 y) ∧ nibbles (s2 1 (s1 1 y)) ∧
  s3 1 (s2 1 (s1 1 y)) = pop8 y ∧ 0 ≤ pop8 y ≤ 8.
Proof.
  intros Hy.
  assert (all_below 256 (λ y,
     bool_decide (is_byte (s1 1 y) ∧ nibbles (s2 1 (s1 1 y)) ∧
       s3 1 (s2 1 (s1 1 y)) = pop8 y ∧ 0 ≤ pop8 y ≤ 8)) = true) as Hall
    by (vm_compute; reflexivity).
  pose proof (all_below_spec _ _ Hall y Hy) as H1. by apply bool_decide_eq_true in H1.
Qed.

Lemma top_byte l :
  length l = 8%nat → Forall (λ y, 0 ≤ y ≤ 8) l →
  Z.shiftr (w64 (of_bytes l * h01)) 56 = sum l.
Proof.
  intros Hl H.
  do 8 (destruct l as [|? l]; [done|]; apply Forall_cons in H as [? H]).
  destruct l; [|done].
  rename z into b0, z0 into b1, z1 into b2, z2 into b3, z3 into b4, z4 into b5,
    z5 into b6, z6 into b7.
  set (low := b0 + 256 * (b1 + b0) + 256^2 * (b2 + b1 + b0) + 256^3 * (b3 + b2 + b1 + b0)
    + 256^4 * (b4 + b3 + b2 + b1 + b0) + 256^5 * (b5 + b4 + b3 + b2 + b1 + b0)
    + 256^6 * (b6 + b5 + b4 + b3 + b2 + b1 + b0)).
  set (high := (b7 + b6 + b5 + b4 + b3 + b2 + b1) + 256 * (b7 + b6 + b5 + b4 + b3 + b2)
    + 256^2 * (b7 + b6 + b5 + b4 + b3) + 256^3 * (b7 + b6 + b5 + b4) + 256^4 * (b7 + b6 + b5)
    + 256^5 * (b7 + b6) + 256^6 * b7).
  set (mid := b0 + b1 + b2 + b3 + b4 + b5 + b6 + b7).
  assert (of_bytes [b0; b1; b2; b3; b4; b5; b6; b7] * h01
          = (low + mid * 2 ^ 56) + high * two64) as ->.
  { unfold low, high, mid, of_bytes, h01, two64; simpl. ring. }
  assert (0 ≤ low < 2 ^ 56) by (unfold low; lia).
  assert (0 ≤ mid ≤ 64) by (unfold mid; lia).
  unfold w64. rewrite Z.mod_add, Z.mod_small, Z.shiftr_div_pow2 by (unfold two64; lia).
  rewrite Z.div_add, Z.div_small by lia. unfold mid, sum; simpl. lia.
Qed.

Lemma of_bytes_half l :
  Forall (λ y, 0 ≤ y < 128) l → 0 ≤ of_bytes l ∧ 2 * of_bytes l < 256 ^ Z.of_nat (length l).
Proof.
  induction 1 as [|y l Hy Hl IH]; [simpl; lia|].
  cbn [of_bytes foldr length]. fold (of_bytes l). rewrite Nat2Z.inj_succ, Z.pow_succ_r by lia.
  lia.
Qed.

Lemma w64_bytes l : length l = 8%nat → Forall is_byte l → w64 (of_bytes l) = of_bytes l.
Proof.
  intros Hl Hb. apply w64_small. pose proof (of_bytes_range l Hb) as H.
  by rewrite Hl in H.
Qed.

Lemma hamming_weight_bytes l :
  length l = 8%nat → Forall is_byte l → hamming_weight (of_bytes l) = sum (pop8 <$> l).
Proof.
  intros Hl Hb. unfold hamming_weight.
  assert (Forall is_byte (s1 1 <$> l) ∧ Forall nibbles (s2 1 <$> (s1 1 <$> l)) ∧
    s3 1 <$> (s2 1 <$> (s1 1 <$> l)) = pop8 <$> l ∧ Forall (λ y, 0 ≤ y ≤ 8) (pop8 <$> l))
    as (H1 & H2 & H3 & H4).
  { clear Hl. induction Hb as [|y l Hy Hb (H1 & H2 & H3 & H4)]; [done|].
    destruct (byte_weight y Hy) as (? & ? & Hw & ?).
    cbn. rewrite Hw. repeat split; try (by constructor). f_equal. exact H3. }
  change m1 with (rep 0x55 8). change m2 with (rep 0x33 8). change m4 with (rep 0x0f 8).
  pose proof (s1_bytes l Hb) as E1. rewrite Hl in E1. unfold s1 at 1 in E1. rewrite E1.
  rewrite w64_bytes by (by rewrite ?length_fmap).
  pose proof (s2_bytes _ H1) as E2. rewrite length_fmap, Hl in E2.
  unfold s2 at 1 in E2. rewrite E2.
  assert (Forall is_byte (s2 1 <$> (s1 1 <$> l))) by (eapply Forall_impl; [done|]; by intros ? [? _]).
  rewrite w64_bytes by (by rewrite ?length_fmap).
  pose proof (s3_bytes _ H2) as E3. rewrite !length_fmap, Hl in E3.
  unfold s3 at 1 in E3. rewrite (w64_small (_ + Z.shiftr _ 4)); cycle 1.
  { assert (Forall (λ y, 0 ≤ y < 128) (s2 1 <$> (s1 1 <$> l))) as Hh.
    { eapply Forall_impl; [exact H2|]. intros y ([? ?] & ? & ?).
      pose proof (Z.div_mod y 16). lia. }
    apply of_bytes_half in Hh. rewrite !length_fmap, Hl in Hh.
    unfold is_w64, two64. rewrite Z.shiftr_div_pow2 by lia.
    pose proof (Z.div_pos (of_bytes (s2 1 <$> (s1 1 <$> l))) (2 ^ 4)).
    pose proof (Z.div_le_upper_bound (of_bytes (s2 1 <$> (s1 1 <$> l))) (2 ^ 4)
      (of_bytes (s2 1 <$> (s1 1 <$> l)))). simpl in *. lia. }
  rewrite E3, H3. apply top_byte; [by rewrite length_fmap|done].
Qed.

(** ** Listing *)

Lemma length_list_bits_base n x x' b :
  length (list_bits n x b) = length (list_bits n x' b).
Proof.
  revert x x' b. induction n as [|n IH]; intros x x' b; simpl; [done|].
  rewrite !length_app, (IH _ (w64 (x' + 1))). by case_bool_decide.
Qed.

Lemma list_bits_app n k x b :
  0 ≤ x → x + Z.of_nat (n + k) < two64 →
  list_bits (n + k) x b = list_bits n x b ++ list_bits k (x + Z.of_nat n) (Z.shiftr b (Z.of_nat n)).
Proof.
  revert x b. induction n as [|n IH]; intros x b Hx Hlt.
  { simpl. by rewrite Z.add_0_r. }
  cbn [Nat.add list_bits]. rewrite <- app_assoc. f_equal.
  rewrite w64_small by (unfold is_w64; lia). rewrite IH by lia.
  by rewrite Z.shiftr_shiftr, Nat2Z.inj_succ, <- Z.add_1_l, Z.add_assoc by lia.
Qed.

Lemma land1 b : (Z.land b 1 ≠ 0) ↔ Z.testbit b 0 = true.
Proof.
  change 1 with (Z.ones 1). rewrite Z.land_ones by done.
  rewrite <- Z.bit0_mod by done. rewrite Z.bit0_odd. destruct (Z.odd b); simpl; naive_solver.
Qed.

Lemma elem_of_list_bits n x b y :
  0 ≤ x → x + Z.of_nat n ≤ two64 →
  y ∈ list_bits n x b ↔ x ≤ y < x + Z.of_nat n ∧ Z.testbit b (y - x) = true.
Proof.
  revert x b. induction n as [|n IH]; intros x b Hx Hlt.
  { simpl. rewrite elem_of_nil. lia. }
  cbn [list_bits]. rewrite elem_of_app.
  assert (y ∈ (if bool_decide (Z.land b 1 ≠ 0) then [x] else []) ↔
    y = x ∧ Z.testbit b 0 = true) as ->.
  { rewrite (bool_decide_ext _ _ (land1 b)). case_bool_decide; [rewrite list_elem_of_singleton|rewrite elem_of_nil]; intuition congruence. }
  destruct n as [|n].
  { simpl. rewrite elem_of_nil. split; [intros [[-> ?]|[]]|intros [? Ht]; left].
    - rewrite Z.sub_diag. split; [lia|done].
    - assert (y = x) as -> by lia. by rewrite Z.sub_diag in Ht. }
  rewrite w64_small by (unfold is_w64; lia). rewrite IH by lia.
  split.
  - intros [[-> ?]|[? Ht]]; [rewrite Z.sub_diag; split; [lia|done]|].
    rewrite Z.shiftr_spec in Ht by lia. split; [lia|].
    by replace (y - x) with (y - (x + 1) + 1) by lia.
  - intros [? Ht]. destruct (decide (y = x)) as [->|]; [left|right].
    + by rewrite Z.sub_diag in Ht.
    + rewrite Z.shiftr_spec by lia. split; [lia|].
      by replace (y - (x + 1) + 1) with (y - x) by lia.
Qed.

Lemma list_bits_ext n x b b' :
  (∀ i, 0 ≤ i < Z.of_nat n → Z.testbit b i = Z.testbit b' i) →
  list_bits n x b = list_bits n x b'.
Proof.
  revert x b b'. induction n as [|n IH]; intros x b b' Hb; [done|]. cbn [list_bits]. f_equal.
  - rewrite !(bool_decide_ext _ _ (land1 _)). by rewrite Hb by lia.
  - apply IH. intros i Hi. rewrite !Z.shiftr_spec by lia. apply Hb. lia.
Qed.

Lemma length_list_bits_bytes l :
  Forall is_byte l → (length l ≤ 8)%nat →
  Z.of_nat (length (list_bits (8 * length l) 0 (of_bytes l))) = sum (pop8 <$> l).
Proof.
  induction 1 as [|y l Hy Hl IH]; intros Hle; [done|].
  cbn [length] in *. rewrite Nat.mul_succ_r, Nat.add_comm.
  rewrite list_bits_app by (unfold two64; lia). rewrite length_app, Nat2Z.inj_add.
  cbn [of_bytes foldr fmap list_fmap sum]. fold (of_bytes l) (sum (pop8 <$> l)). f_equal.
  - unfold pop8. f_equal. f_equal. apply list_bits_ext. intros i Hi.
    change 256 with (2 ^ 8). rewrite <- (Z.mod_pow2_bits_low _ 8) by lia.
    rewrite Z.mul_comm, Z.mod_add, Z.mod_small by (unfold is_byte in Hy; lia). done.
  - rewrite <- IH by lia. f_equal.
    rewrite (length_list_bits_base _ _ 0). repeat f_equal.
    rewrite Z.shiftr_div_pow2 by lia. change (2 ^ Z.of_nat 8) with 256.
    rewrite Z.mul_comm, Z.div_add, Z.div_small by (done || lia). done.
Qed.

Lemma hamming_weight_correct b x :
  is_w64 b → hamming_weight b = Z.of_nat (length (list_bits 64 x b)).
Proof.
  intros Hb. rewrite <- (of_to_bytes 8 b) by (unfold is_w64, two64 in Hb; simpl; lia).
  rewrite hamming_weight_bytes by auto using length_to_bytes, to_bytes_range.
  rewrite <- length_list_bits_bytes by (auto using to_bytes_range || by rewrite length_to_bytes).
  rewrite length_to_bytes. f_equal. apply length_list_bits_base.
Qed.

Lemma elem_of_list_from x c y :
  0 ≤ x → x + 64 * Z.of_nat (length c) ≤ two64 →
  y ∈ list_from x c ↔
    x ≤ y < x + 64 * Z.of_nat (length c) ∧
    Z.testbit (block c (word (y - x))) ((y - x) mod 64) = true.
Proof.
  revert x. induction c as [|b c IH]; intros x Hx Hle; cbn [list_from length] in *.
  { rewrite elem_of_nil. simpl. lia. }
  rewrite elem_of_app, elem_of_list_bits by lia.
  assert (y ∈ list_from (w64 (x + 64)) c ↔
    x + 64 ≤ y < x + 64 + 64 * Z.of_nat (length c) ∧
    Z.testbit (block c (word (y - (x + 64)))) ((y - (x + 64)) mod 64) = true) as ->.
  { destruct c as [|b' c]; [simpl; rewrite elem_of_nil; lia|].
    cbn [length] in *. rewrite w64_small by (unfold is_w64; lia). apply IH; lia. }
  assert (0 ≤ y - x < 64 → word (y - x) = 0%nat ∧ (y - x) mod 64 = y - x) as Hlo.
  { intros. by rewrite word_div, Z.div_small, Z.mod_small. }
  assert (64 ≤ y - x → word (y - x) = S (word (y - (x + 64))) ∧
    (y - x) mod 64 = (y - (x + 64)) mod 64) as Hhi.
  { intros. replace (y - x) with (y - (x + 64) + 1 * 64) by lia.
    rewrite !word_div, Z.div_add, Z.mod_add by done.
    rewrite Z2Nat.inj_add by (try apply Z.div_pos; lia). split; [simpl; lia|done]. }
  split.
  - intros [[? Ht]|[? Ht]].
    + destruct Hlo as [-> ->]; [lia|]. split; [lia|done].
    + destruct Hhi as [-> ->]; [lia|]. split; [lia|done].
  - intros [? Ht]. destruct (decide (y < x + 64)).
    + left. destruct Hlo as [Hw Hm]; [lia|]. rewrite Hw, Hm in Ht. split; [lia|done].
    + right. destruct Hhi as [Hw Hm]; [lia|]. rewrite Hw, Hm in Ht. split; [lia|done].
Qed.

Lemma elem_of_elements x c :
  wf c → is_w64 x → x ∈ elements c ↔ mem c x = true.
Proof.
  intros [_ Hlen] Hx. unfold elements. unfold is_w64, two64 in Hx.
  rewrite elem_of_list_from by (unfold two64; lia). rewrite Z.sub_0_r.
  split; [by intros [_ ?]|]. intros Hm. split; [|done].
  destruct (decide (x < 64 * Z.of_nat (length c))); [lia|].
  unfold mem in Hm. rewrite block_ge, Z.bits_0 in Hm; [done|].
  rewrite word_div. assert (Z.of_nat (length c) ≤ x / 64) by (apply Z.div_le_lower_bound; lia). lia.
Qed.

Lemma list_bits_sorted n x b :
  0 ≤ x → x + Z.of_nat n ≤ two64 → StronglySorted Z.lt (list_bits n x b).
Proof.
  revert x b. induction n as [|n IH]; intros x b Hx Hle; [constructor|].
  cbn [list_bits]. destruct n as [|n].
  { case_bool_decide; simpl; repeat constructor. }
  rewrite w64_small by (unfold is_w64; lia).
  specialize (IH (x + 1) (Z.shiftr b 1) ltac:(lia) ltac:(lia)).
  case_bool_decide; [|done]. apply SSorted_cons; [done|].
  apply Forall_forall. intros y Hy. apply elem_of_list_bits in Hy; lia.
Qed.

Lemma list_from_sorted x c :
  0 ≤ x → x + 64 * Z.of_nat (length c) ≤ two64 → StronglySorted Z.lt (list_from x c).
Proof.
  revert x. induction c as [|b c IH]; intros x Hx Hle; cbn [list_from length] in *; [constructor|].
  destruct c as [|b' c].
  { cbn [list_from length] in *. rewrite app_nil_r. apply list_bits_sorted; lia. }
  cbn [length] in *. rewrite w64_small by (unfold is_w64; lia).
  apply StronglySorted_app_2; [|apply list_bits_sorted; lia|apply IH; cbn [length]; lia].
  intros y z Hy Hz. apply elem_of_list_bits in Hy; [|lia..].
  apply elem_of_list_from in Hz; cbn [length] in *; lia.
Qed.

Lemma length_elements c :
  Forall is_w64 c → count c = w64 (Z.of_nat (length (elements c))).
Proof.
  intros Hc. unfold count, elements.
  assert (∀ a n x, Forall is_w64 c → a = w64 n →
    fold_left (λ cnt b, w64 (cnt + hamming_weight b)) c a
    = w64 (n + Z.of_nat (length (list_from x c)))) as H.
  { clear Hc. induction c as [|b c IH]; intros a n x Hc Ha; cbn [fold_left list_from].
    { cbn. by rewrite Z.add_0_r. }
    apply Forall_cons in Hc as [Hb Hc].
    rewrite (hamming_weight_correct b x) by done.
    rewrite length_app, Nat2Z.inj_add, Z.add_assoc. apply IH; [done|].
    rewrite Ha. unfold w64. by rewrite Zplus_mod_idemp_l. }
  by apply (H 0 0 0).
Qed.

(** [count] is the number of elements that [list] visits (modulo
    [2^64], which only the set of all [unsigned long] reaches), and [list]
    visits them in increasing order, each once. *)
Theorem count_elements c :
  wf c →
  count c = w64 (Z.of_nat (length (elements c))) ∧
  StronglySorted Z.lt (elements c) ∧
  ∀ x, is_w64 x → x ∈ elements c ↔ is_element x c = true.
Proof.
  intros Hwf. split; [by apply length_elements, Hwf|]. split.
  - apply list_from_sorted; [done|]. destruct Hwf. unfold two64. lia.
  - intros x Hx. rewrite is_element_mem. by apply elem_of_elements.
Qed.

Lemma count_elements_witness :
  count (ins 200 (ins 3 empty)) = w64 (Z.of_nat (length (elements (ins 200 (ins 3 empty))))).
Proof.
  apply (count_elements (ins 200 (ins 3 empty))).
  split; [|vm_compute; discriminate].
  by_computation.
Defined.

(** ** Bitsets as text

    [to_hex] and [from_hex] of [we/type/bitsetofint.cpp].  Strings are
    sequences of characters here; an iterator into a string is the rest of
    the sequence. *)

#[local] Open Scope Z_scope.

Module hex.

Definition digit_char (d : Z) : ascii :=
  ascii_of_N (Z.to_N (if d <? 10 then 48 + d else 87 + d)).

(** The value of a character as a hexadecimal digit. *)
Definition digit_of (c : ascii) : option Z :=
  let n := Z.of_N (N_of_ascii c) in
  if (48 <=? n) && (n <=? 57) then Some (n - 48)
  else if (97 <=? n) && (n <=? 102) then Some (n - 87)
  else if (65 <=? n) && (n <=? 70) then Some (n - 55)
  else None.

(** [oss << v] with [std::ios::hex], [width (16)] and [fill ('0')]: the digits
    of a 64-bit number, which are at most sixteen. *)
Fixpoint digits (n : nat) (v : Z) : list ascii :=
  match n with
  | O => []
  | S n => digits n (v / 16) ++ [digit_char (v mod 16)]
  end.

Definition to_hex_list (t : list Z) : list ascii :=
  ["0"; "x"; "/"]%char ++ concat ((λ v, digits 16 v ++ ["/"%char]) <$> t).

Definition to_hex (t : list Z) : string := String.string_of_list_ascii (to_hex_list t).

(** [iss >> value] for an [uint64_t] in base 16: an optional sign, an
    optional prefix [0x], and the longest run of digits; it fails when there
    is no digit.  The argument has sixteen characters, so that the number
    fits. *)
Fixpoint read_digits (acc : Z) (s : list ascii) : Z :=
  match s with
  | [] => acc
  | c :: s =>
      match digit_of c with
      | Some d => read_digits (16 * acc + d) s
      | None => acc
      end
  end.

Definition starts_with_digit (s : list ascii) : bool :=
  match s with c :: _ => bool_decide (is_Some (digit_of c)) | [] => false end.

Definition at_ (c : ascii) (s : list ascii) : bool := bool_decide (head s = Some c).

Definition read_magnitude (s : list ascii) : option Z :=
  let s' :=
    if at_ "0" s && (at_ "x" (drop 1 s) || at_ "X" (drop 1 s)) then drop 2 s else s in
  if starts_with_digit s' then Some (read_digits 0 s') else None.

Definition extract_hex (s : list ascii) : option Z :=
  if at_ "-" s then (λ v, w64 (- v)) <$> read_magnitude (drop 1 s)
  else if at_ "+" s then read_magnitude (drop 1 s)
  else read_magnitude s.

(** The [while] loop: every iteration passes a slash, so the length of the
    input bounds the number of iterations. *)
Fixpoint from_hex_loop (fuel : nat) (bs : list Z) (pos : list ascii) :
    list Z * list ascii :=
  match fuel with
  | O => (bs, pos)
  | S fuel =>
      if at_ "/" pos then
        let pos := drop 1 pos in
        if bool_decide (16 ≤ length pos)%nat then
          match extract_hex (take 16 pos) with
          | None => (bs, pos)
          | Some value => from_hex_loop fuel (bs ++ [value]) (drop 16 pos)
          end
        else from_hex_loop fuel bs pos
      else (bs, pos)
  end.

Definition from_hex_pos (pos : list ascii) : option (list Z * list ascii) :=
  if at_ "0" pos && at_ "x" (drop 1 pos) then
    let pos := drop 2 pos in Some (from_hex_loop (length pos) [] pos)
  else None.

Inductive error : Type := missing_prefix | rest_after_parsing (rest : list ascii).

Definition from_hex (s : string) : outcome error (list Z) :=
  match from_hex_pos (String.list_ascii_of_string s) with
  | None => Throw missing_prefix
  | Some (bs, []) => Ret bs
  | Some (_, rest) => Throw (rest_after_parsing rest)
  end.

(** ** Reading back what was written *)

Lemma digit_char_spec d :
  0 ≤ d < 16 →
  digit_of (digit_char d) = Some d ∧ digit_char d ≠ "x"%char ∧ digit_char d ≠ "X"%char ∧
  digit_char d ≠ "-"%char ∧ digit_char d ≠ "+"%char.
Proof.
  intros Hd.
  assert (forallb (λ k, let d := Z.of_nat k in
    bool_decide (digit_of (digit_char d) = Some d ∧ digit_char d ≠ "x"%char ∧
      digit_char d ≠ "X"%char ∧ digit_char d ≠ "-"%char ∧ digit_char d ≠ "+"%char))
    (seq 0 16) = true) as Hall by (vm_compute; reflexivity).
  rewrite forallb_forall in Hall. specialize (Hall (Z.to_nat d)).
  rewrite in_seq in Hall. cbv zeta in Hall. rewrite Z2Nat.id in Hall by lia.
  specialize (Hall ltac:(lia)). by apply bool_decide_eq_true in Hall.
Qed.

Lemma length_digits n v : length (digits n v) = n.
Proof. revert v. induction n as [|n IH]; intros v; simpl; [done|]. rewrite length_app, IH. simpl. lia. Qed.

Lemma read_digits_app acc s t :
  Forall (λ c, is_Some (digit_of c)) s →
  read_digits acc (s ++ t) = read_digits (read_digits acc s) t.
Proof.
  revert acc. induction s as [|c s IH]; intros acc Hs; [done|].
  apply Forall_cons in Hs as [[d Hd] Hs]. simpl. rewrite Hd. by apply IH.
Qed.

Lemma digits_good n v :
  0 ≤ v → Forall (λ c, ∃ d, 0 ≤ d < 16 ∧ c = digit_char d) (digits n v).
Proof.
  revert v. induction n as [|n IH]; intros v Hv; simpl; [done|].
  apply Forall_app; split; [apply IH, Z.div_pos; lia|].
  repeat constructor. exists (v mod 16). split; [by apply Z.mod_pos_bound|done].
Qed.

Lemma good_digit c : (∃ d, 0 ≤ d < 16 ∧ c = digit_char d) → is_Some (digit_of c).
Proof. intros (d & Hd & ->). destruct (digit_char_spec d Hd) as [-> _]. eauto. Qed.

Lemma read_digits_digits n v : 0 ≤ v < 16 ^ Z.of_nat n → read_digits 0 (digits n v) = v.
Proof.
  revert v. induction n as [|n IH]; intros v Hv; simpl; [simpl in Hv; lia|].
  rewrite Nat2Z.inj_succ, Z.pow_succ_r in Hv by lia.
  rewrite read_digits_app.
  - rewrite IH by (split; [apply Z.div_pos; lia|apply Z.div_lt_upper_bound; lia]).
    simpl. assert (0 ≤ v mod 16 < 16) by (by apply Z.mod_pos_bound).
    destruct (digit_char_spec (v mod 16)) as [-> _]; [done|].
    pose proof (Z.div_mod v 16). lia.
  - eapply Forall_impl; [apply digits_good, Z.div_pos; lia|]. apply good_digit.
Qed.

Lemma extract_hex_digits v :
  is_w64 v → extract_hex (digits 16 v) = Some v.
Proof.
  intros Hv. pose proof (digits_good 16 v ltac:(unfold is_w64 in Hv; lia)) as Hg.
  assert (read_digits 0 (digits 16 v) = v) as Hr.
  { apply read_digits_digits. unfold is_w64, two64 in Hv. simpl. lia. }
  pose proof (length_digits 16 v) as Hlen.
  destruct (digits 16 v) as [|c1 [|c2 s]]; [done..|].
  apply Forall_cons in Hg as [H1 Hg]. apply Forall_cons in Hg as [H2 _].
  assert (starts_with_digit (c1 :: c2 :: s) = true) as Hs
    by (simpl; by apply bool_decide_true, good_digit).
  destruct H1 as (d1 & Hd1 & ->), H2 as (d2 & Hd2 & ->).
  destruct (digit_char_spec d1 Hd1) as (_ & _ & _ & Hm & Hp).
  destruct (digit_char_spec d2 Hd2) as (_ & Hx & HX & _ & _).
  unfold extract_hex, at_. cbn [head].
  rewrite !(bool_decide_false (Some (digit_char d1) = _)) by congruence.
  unfold read_magnitude, at_. cbn [drop head].
  rewrite !(bool_decide_false (Some (digit_char d2) = _)), andb_false_r by congruence.
  by rewrite Hs, Hr.
Qed.

Lemma from_hex_loop_blocks fuel bs t :
  Forall is_w64 t → (length t < fuel)%nat →
  from_hex_loop fuel bs ("/"%char :: concat ((λ v, digits 16 v ++ ["/"%char]) <$> t))
  = (bs ++ t, []).
Proof.
  intros Ht. revert fuel bs. induction Ht as [|v t Hv Ht IH]; intros fuel bs Hf;
    (destruct fuel as [|fuel]; [simpl in Hf; lia|]).
  - cbn. rewrite app_nil_r. by destruct fuel.
  - cbn [fmap list_fmap concat from_hex_loop]. unfold at_. cbn [head drop].
    rewrite bool_decide_true by done.
    rewrite drop_0. rewrite bool_decide_true by (rewrite !length_app, length_digits; lia).
    rewrite <- app_assoc.
    rewrite take_app_length' by (symmetry; apply length_digits).
    rewrite drop_app_length' by (symmetry; apply length_digits).
    rewrite extract_hex_digits by done. cbn [app].
    rewrite IH by (simpl in Hf; lia). by rewrite <- app_assoc.
Qed.

(** [from_hex] reads back what [to_hex] wrote. *)
Theorem from_hex_to_hex t : Forall is_w64 t → from_hex (to_hex t) = Ret t.
Proof.
  intros Ht. unfold from_hex, to_hex. rewrite String.list_ascii_of_string_of_list_ascii.
  unfold from_hex_pos, to_hex_list, at_. cbn [app head drop andb].
  rewrite !bool_decide_true by done. cbn [andb].
  rewrite from_hex_loop_blocks; [done|done|].
  cbn [length]. rewrite length_concat, <- list_fmap_compose.
  induction Ht as [|v t Hv Ht IH]; [simpl; lia|].
  cbn [fmap list_fmap sum_list sum_list_with length]. unfold compose at 1.
  rewrite length_app, length_digits. simpl in *. lia.
Qed.

Lemma from_hex_to_hex_witness : from_hex (to_hex [17; two64 - 1]) = Ret [17; two64 - 1].
Proof. apply from_hex_to_hex. by_computation. Defined.

End hex.
