(* ===== verification/Function.v ===== *)
(** * The built-in operations of the expression language

    [we/type/value/function.cpp]: [unary] and [binary] on values, with the
    exceptions they raise.  Machine integers keep their width; what C++ leaves
    undefined (signed overflow, the top of an empty stack, a float that does
    not fit an integer) is the exception value [undefined]. *)

From Stdlib Require Import SpecFloat.
From S2P Require Import Prelude Value Token Bitset BitsetHex.

(** ** Exceptions of the workflow engine

    [we/exception.hpp], [we/expr/exception.hpp], [fhg/util/parse/error.hpp] and
    the standard exceptions that the modelled code throws. *)
Inductive exn : Type :=
| type_error (e : Signature.type_error)
| eval_unary (t : token.type) (x : value_type)
| eval_binary (t : token.type) (l r : value_type)
| missing_binding (key : string)
| divide_by_zero
| negative_exponent
| square_root_for_negative_argument
| log_for_nonpositive_argument
| eval_type_error (what : string)
| bad_get
| out_of_range
| runtime_error (what : string)
| logic_error (what : string)
| invalid_argument (what : string)
| port_unknown (transition port : string)
| parse_error (what : string) (eaten : nat)
| expr_parse_error (kind msg : string) (eaten : Z)
| undefined (what : string)
(** not an exception of the program: the bound of a modelled loop was reached *)
| out_of_fuel.

(** ** Floating point *)
Module Float.

Record format : Type := { prec : Z; emax : Z }.
Definition binary32 : format := {| prec := 24; emax := 128 |}.
Definition binary64 : format := {| prec := 53; emax := 1024 |}.

#[local] Open Scope Z_scope.

Section ops.
Context (F : format).

Definition of_Z (z : Z) : spec_float := binary_normalize (prec F) (emax F) z 0 false.

(** Conversion from the other format. *)
Definition cast (f : spec_float) : spec_float :=
  match f with
  | S754_finite s m e =>
      binary_normalize (prec F) (emax F) (if s then Z.neg m else Z.pos m) e s
  | f => f
  end.

Definition add := SFadd (prec F) (emax F).
Definition sub := SFsub (prec F) (emax F).
Definition mul := SFmul (prec F) (emax F).
Definition div := SFdiv (prec F) (emax F).
Definition sqrt := SFsqrt (prec F) (emax F).

(** [std::numeric_limits<T>::min()], the smallest normal number *)
Definition min_normal : spec_float :=
  binary_normalize (prec F) (emax F) 1 (3 - emax F - 1) false.

(** Rounds to an integral value, [g m k] being the rounded [± m / 2^k]; the
    sign of a zero result is that of the argument. *)
Definition integral (g : bool → Z → Z → Z) (f : spec_float) : spec_float :=
  match f with
  | S754_finite s m e =>
      if 0 <=? e then f
      else
        let z := g s (Z.pos m) (- e) in
        if z =? 0 then S754_zero s
        else binary_normalize (prec F) (emax F) z 0 s
  | f => f
  end.

Definition floor : spec_float → spec_float :=
  integral (λ s m k, let z := if s then - m else m in z / 2 ^ k).
Definition ceil : spec_float → spec_float :=
  integral (λ s m k, let z := if s then - m else m in - (- z / 2 ^ k)).
(** half away from zero *)
Definition round : spec_float → spec_float :=
  integral (λ s m k, let z := (m + 2 ^ (k - 1)) / 2 ^ k in if s then - z else z).
End ops.

(** [static_cast<integral> (f)]: truncation; no value for NaN and infinities *)
Definition trunc (f : spec_float) : option Z :=
  match f with
  | S754_zero _ => Some 0
  | S754_finite s m e =>
      let z := if 0 <=? e then Z.pos m * 2 ^ e else Z.pos m / 2 ^ (- e) in
      Some (if s then - z else z)
  | _ => None
  end.

Definition min (l r : spec_float) : spec_float := if SFltb r l then r else l.
Definition max (l r : spec_float) : spec_float := if SFltb l r then r else l.

(** The functions of the C mathematics library that are not exactly
    specified by IEEE 754. *)
Class Libm := {
  libm_sin : format → spec_float → spec_float;
  libm_cos : format → spec_float → spec_float;
  libm_log : format → spec_float → spec_float;
  libm_pow : format → spec_float → spec_float → spec_float
}.

(** An instance for examples: no function value is ever a number. *)
Definition nan_libm : Libm := {|
  libm_sin := λ _ _, S754_nan; libm_cos := λ _ _, S754_nan;
  libm_log := λ _ _, S754_nan; libm_pow := λ _ _ _, S754_nan |}.

End Float.

(** ** Machine integers of the value universe *)
Module Int.

#[local] Open Scope Z_scope.

Inductive ty : Type := I32 | I64 | U32 | U64.

Definition inj (T : ty) (z : Z) : value_type :=
  match T with I32 => Vint z | I64 => Vlong z | U32 => Vuint z | U64 => Vulong z end.

Definition lo (T : ty) : Z :=
  match T with I32 => - 2 ^ 31 | I64 => - 2 ^ 63 | U32 | U64 => 0 end.
Definition hi (T : ty) : Z :=
  match T with I32 => 2 ^ 31 | I64 => 2 ^ 63 | U32 => 2 ^ 32 | U64 => 2 ^ 64 end.

Definition in_range (T : ty) (z : Z) : Prop := lo T ≤ z < hi T.
#[global] Instance in_range_dec T z : Decision (in_range T z).
Proof. unfold in_range. apply _. Defined.

(** Conversion to [T]: the value modulo the width. *)
Definition wrap (T : ty) (z : Z) : Z := (z - lo T) mod (hi T - lo T) + lo T.

(** The result of an arithmetic operation in [T]; overflow is undefined. *)
Definition checked (T : ty) (z : Z) : outcome exn Z :=
  if decide (in_range T z) then Ret z else Throw (undefined "signed overflow").

(** [static_cast<T> (f)] *)
Definition of_float (T : ty) (f : spec_float) : outcome exn value_type :=
  match Float.trunc f with
  | Some z =>
      if decide (in_range T z) then Ret (inj T z) else Throw (undefined "float to integer")
  | None => Throw (undefined "float to integer")
  end.

End Int.

(** ** [pnet::type::value::unary], [pnet::type::value::binary] *)
Module Function.

Section functions.
Context `{Float.Libm}.

#[local] Open Scope Z_scope.

Abbreviation result := (outcome exn value_type).

Definition double (z : Z) : spec_float := Float.of_Z Float.binary64 z.

(** [visitor_unary::operator() (bool)] *)
Definition unary_bool (t : token.type) (x : bool) : result :=
  match t with
  | token._not => Ret (Vbool (negb x))
  | token._toint => Ret (Vint (if x then 1 else 0))
  | token._tolong => Ret (Vlong (if x then 1 else 0))
  | token._touint => Ret (Vuint (if x then 1 else 0))
  | token._toulong => Ret (Vulong (if x then 1 else 0))
  | _ => Throw (eval_unary t (Vbool x))
  end.

(** the casts that every number has *)
Definition integral_cast (t : token.type) (x : Z) : option value_type :=
  match t with
  | token._toint => Some (Vint (Int.wrap Int.I32 x))
  | token._tolong => Some (Vlong (Int.wrap Int.I64 x))
  | token._touint => Some (Vuint (Int.wrap Int.U32 x))
  | token._toulong => Some (Vulong (Int.wrap Int.U64 x))
  | token._tofloat => Some (Vfloat (Float.of_Z Float.binary32 x))
  | token._todouble => Some (Vdouble (Float.of_Z Float.binary64 x))
  | _ => None
  end.

(** [visitor_unary::integral_signed] *)
Definition unary_integral_signed (T : Int.ty) (t : token.type) (x : Z) : result :=
  match t with
  | token._not => Ret (Int.inj T (Z.lnot x))
  | token.neg => Int.inj T <$> Int.checked T (- x)
  | token.abs => Int.inj T <$> Int.checked T (Z.abs x)
  | token._sin => Ret (Vdouble (Float.libm_sin Float.binary64 (double x)))
  | token._cos => Ret (Vdouble (Float.libm_cos Float.binary64 (double x)))
  | token._sqrt =>
      if x <? 0 then Throw square_root_for_negative_argument
      else Ret (Vdouble (Float.sqrt Float.binary64 (double x)))
  | token._log =>
      if negb (0 <? x) then Throw log_for_nonpositive_argument
      else Ret (Vdouble (Float.libm_log Float.binary64 (double x)))
  | token._floor | token._ceil | token._round => Ret (Int.inj T x)
  | _ => or_throw (eval_unary t (Int.inj T x)) (integral_cast t x)
  end.

(** [visitor_unary::integral_unsigned] *)
Definition unary_integral_unsigned (T : Int.ty) (t : token.type) (x : Z) : result :=
  match t with
  | token._not => Ret (Int.inj T (Int.wrap T (Z.lnot x)))
  | token._sin => Ret (Vdouble (Float.libm_sin Float.binary64 (double x)))
  | token._cos => Ret (Vdouble (Float.libm_cos Float.binary64 (double x)))
  | token._sqrt => Ret (Vdouble (Float.sqrt Float.binary64 (double x)))
  | token._log => Ret (Vdouble (Float.libm_log Float.binary64 (double x)))
  | token._floor | token._ceil | token._round => Ret (Int.inj T x)
  | _ => or_throw (eval_unary t (Int.inj T x)) (integral_cast t x)
  end.

(** [visitor_unary::unary_fractional]; [inj] is the alternative of the
    format [F]. *)
Definition unary_fractional (F : Float.format) (inj : spec_float → value_type)
    (t : token.type) (x : spec_float) : result :=
  match t with
  | token.neg => Ret (inj (SFopp x))
  | token.abs => Ret (inj (SFabs x))
  | token._sin => Ret (inj (Float.libm_sin F x))
  | token._cos => Ret (inj (Float.libm_cos F x))
  | token._sqrt =>
      if SFltb x (S754_zero false) then Throw square_root_for_negative_argument
      else Ret (inj (Float.sqrt F x))
  | token._log =>
      if negb (SFltb (S754_zero false) x) then Throw log_for_nonpositive_argument
      else Ret (inj (Float.libm_log F x))
  | token._floor => Ret (inj (Float.floor F x))
  | token._ceil => Ret (inj (Float.ceil F x))
  | token._round => Ret (inj (Float.round F x))
  | token._toint => Int.of_float Int.I32 x
  | token._tolong => Int.of_float Int.I64 x
  | token._touint => Int.of_float Int.U32 x
  | token._toulong => Int.of_float Int.U64 x
  | token._tofloat => Ret (Vfloat (Float.cast Float.binary32 x))
  | token._todouble => Ret (Vdouble (Float.cast Float.binary64 x))
  | _ => Throw (eval_unary t (inj x))
  end.

Definition unary_string (t : token.type) (x : string) : result :=
  match t with
  | token._bitset_fromhex =>
      match hex.from_hex x with
      | Ret bs => Ret (Vbitset bs)
      | Throw hex.missing_prefix =>
          Throw (runtime_error "bitsetofint::from_hex: missing prefix 0x")
      | Throw (hex.rest_after_parsing rest) =>
          let quote := String "034" "" in
          Throw (runtime_error ("bitsetofint::from_hex invalid argument: " +:+ quote +:+ x +:+ quote
                   +:+ ", rest after parsing: " +:+ String.string_of_list_ascii rest))
      end
  | _ => Throw (eval_unary t (Vstring x))
  end.

Definition unary_bitset (t : token.type) (x : list Z) : result :=
  match t with
  | token._bitset_tohex => Ret (Vstring (hex.to_hex x))
  | token._bitset_count => Ret (Vulong (bitsetofint.count x))
  | _ => Throw (eval_unary t (Vbitset x))
  end.

(** [back ()], [pop_back ()], [*begin ()] of an empty container are
    undefined. *)
Definition unary_list (t : token.type) (x : list value_type) : result :=
  match t with
  | token._stack_empty => Ret (Vbool (bool_decide (x = [])))
  | token._stack_top => or_throw (undefined "back of an empty list") (last x)
  | token._stack_pop =>
      match last x with
      | None => Throw (undefined "pop_back of an empty list")
      | Some _ => Ret (Vlist (removelast x))
      end
  | token._stack_size => Ret (Vulong (Z.of_nat (length x)))
  | _ => Throw (eval_unary t (Vlist x))
  end.

Definition unary_set (t : token.type) (x : list value_type) : result :=
  match t with
  | token._set_pop =>
      match x with
      | [] => Throw (undefined "erase of end")
      | _ :: x' => Ret (Vset x')
      end
  | token._set_top => or_throw (undefined "dereference of end") (head x)
  | token._set_empty => Ret (Vbool (bool_decide (x = [])))
  | token._set_size => Ret (Vulong (Z.of_nat (length x)))
  | _ => Throw (eval_unary t (Vset x))
  end.

Definition unary_map (t : token.type) (x : list (value_type * value_type)) : result :=
  match t with
  | token._map_size => Ret (Vulong (Z.of_nat (length x)))
  | token._map_empty => Ret (Vbool (bool_decide (x = [])))
  | _ => Throw (eval_unary t (Vmap x))
  end.

(** [unary], by the overloads of [visitor_unary]; control, char, bytearray
    and structured values have no unary operation. *)
Definition unary (t : token.type) (x : value_type) : result :=
  match x with
  | Vbool b => unary_bool t b
  | Vint z => unary_integral_signed Int.I32 t z
  | Vlong z => unary_integral_signed Int.I64 t z
  | Vuint z => unary_integral_unsigned Int.U32 t z
  | Vulong z => unary_integral_unsigned Int.U64 t z
  | Vfloat f => unary_fractional Float.binary32 Vfloat t f
  | Vdouble f => unary_fractional Float.binary64 Vdouble t f
  | Vstring s => unary_string t s
  | Vbitset bs => unary_bitset t bs
  | Vlist l => unary_list t l
  | Vset l => unary_set t l
  | Vmap m => unary_map t m
  | Vcontrol | Vchar _ | Vbytearray _ | Vstruct _ => Throw (eval_unary t x)
  end.

(** The six comparisons and [min], [max] from a three-way comparison. *)
Definition comparison_op (t : token.type) (c : comparison) : option bool :=
  match t with
  | token.lt => Some match c with Lt => true | _ => false end
  | token.le => Some match c with Gt => false | _ => true end
  | token.gt => Some match c with Gt => true | _ => false end
  | token.ge => Some match c with Lt => false | _ => true end
  | token.ne => Some match c with Eq => false | _ => true end
  | token.eq => Some match c with Eq => true | _ => false end
  | _ => None
  end.

(** [std::min (l, r)] is [r] only if [r < l]; [std::max (l, r)] is [r] only
    if [l < r]. *)
Definition min_by {A} (cmp : A → A → comparison) (l r : A) : A :=
  match cmp r l with Lt => r | _ => l end.
Definition max_by {A} (cmp : A → A → comparison) (l r : A) : A :=
  match cmp l r with Lt => r | _ => l end.

Definition binary_bool (t : token.type) (l r : bool) : result :=
  match t with
  | token._or_boolean => Ret (Vbool (l || r))
  | token._and_boolean => Ret (Vbool (l && r))
  | token.min => Ret (Vbool (min_by Order.bool_cmp l r))
  | token.max => Ret (Vbool (max_by Order.bool_cmp l r))
  | _ => Vbool <$> or_throw (eval_binary t (Vbool l) (Vbool r))
                     (comparison_op t (Order.bool_cmp l r))
  end.

(** [for (T i (0); i < r; ++i) x *= l;] *)
Fixpoint pow_loop (mul : Z → Z → outcome exn Z) (n : nat) (l x : Z) : outcome exn Z :=
  match n with
  | O => Ret x
  | S n => mul x l ≫= pow_loop mul n l
  end.

(** [visitor_binary::integral_signed] *)
Definition binary_integral_signed (T : Int.ty) (t : token.type) (l r : Z) : result :=
  match t with
  | token._or_integral => Ret (Int.inj T (Z.lor l r))
  | token._and_integral => Ret (Int.inj T (Z.land l r))
  | token.add => Int.inj T <$> Int.checked T (l + r)
  | token.sub => Int.inj T <$> Int.checked T (l - r)
  | token.mul => Int.inj T <$> Int.checked T (l * r)
  | token.divint =>
      if r =? 0 then Throw divide_by_zero
      else Int.inj T <$> Int.checked T (Z.quot l r)
  | token.modint =>
      if r =? 0 then Throw divide_by_zero
      else Int.inj T <$> (Int.checked T (Z.quot l r) ≫= λ _, Ret (Z.rem l r))
  | token._powint =>
      if r <? 0 then Throw negative_exponent
      else Int.inj T <$> pow_loop (λ x l, Int.checked T (x * l)) (Z.to_nat r) l 1
  | token.min => Ret (Int.inj T (min_by Z.compare l r))
  | token.max => Ret (Int.inj T (max_by Z.compare l r))
  | _ => Vbool <$> or_throw (eval_binary t (Int.inj T l) (Int.inj T r))
                     (comparison_op t (l ?= r))
  end.

(** [visitor_binary::integral_unsigned] *)
Definition binary_integral_unsigned (T : Int.ty) (t : token.type) (l r : Z) : result :=
  match t with
  | token._or_integral => Ret (Int.inj T (Z.lor l r))
  | token._and_integral => Ret (Int.inj T (Z.land l r))
  | token.add => Ret (Int.inj T (Int.wrap T (l + r)))
  | token.sub =>
      if l <? r then Throw (runtime_error "r > l => neg result")
      else Ret (Int.inj T (l - r))
  | token.mul => Ret (Int.inj T (Int.wrap T (l * r)))
  | token.divint =>
      if r =? 0 then Throw divide_by_zero else Ret (Int.inj T (Z.quot l r))
  | token.modint =>
      if r =? 0 then Throw divide_by_zero else Ret (Int.inj T (Z.rem l r))
  | token._powint =>
      Int.inj T <$> pow_loop (λ x l, Ret (Int.wrap T (x * l))) (Z.to_nat r) l 1
  | token.min => Ret (Int.inj T (min_by Z.compare l r))
  | token.max => Ret (Int.inj T (max_by Z.compare l r))
  | _ => Vbool <$> or_throw (eval_binary t (Int.inj T l) (Int.inj T r))
                     (comparison_op t (l ?= r))
  end.

(** [visitor_binary::fractional]: no equality on floating-point numbers,
    and a divisor below the smallest normal number counts as zero. *)
Definition binary_fractional (F : Float.format) (inj : spec_float → value_type)
    (t : token.type) (l r : spec_float) : result :=
  match t with
  | token.lt => Ret (Vbool (SFltb l r))
  | token.le => Ret (Vbool (SFleb l r))
  | token.gt => Ret (Vbool (SFltb r l))
  | token.ge => Ret (Vbool (SFleb r l))
  | token.add => Ret (inj (Float.add F l r))
  | token.sub => Ret (inj (Float.sub F l r))
  | token.mul => Ret (inj (Float.mul F l r))
  | token.div =>
      if SFltb (SFabs r) (Float.min_normal F) then Throw divide_by_zero
      else Ret (inj (Float.div F l r))
  | token._pow => Ret (inj (Float.libm_pow F l r))
  | token.min => Ret (inj (Float.min l r))
  | token.max => Ret (inj (Float.max l r))
  | _ => Throw (eval_binary t (inj l) (inj r))
  end.

Definition binary_char (t : token.type) (l r : ascii) : result :=
  match t with
  | token.add => Ret (Vstring (String l (String r EmptyString)))
  | token.min => Ret (Vchar (min_by Order.char_cmp l r))
  | token.max => Ret (Vchar (max_by Order.char_cmp l r))
  | _ => Vbool <$> or_throw (eval_binary t (Vchar l) (Vchar r))
                     (comparison_op t (Order.char_cmp l r))
  end.

Definition binary_string (t : token.type) (l r : string) : result :=
  match t with
  | token.add => Ret (Vstring (l +:+ r))
  | token.min => Ret (Vstring (min_by Order.string_cmp l r))
  | token.max => Ret (Vstring (max_by Order.string_cmp l r))
  | _ => Vbool <$> or_throw (eval_binary t (Vstring l) (Vstring r))
                     (comparison_op t (Order.string_cmp l r))
  end.

Definition binary_bitset (t : token.type) (l r : list Z) : result :=
  match t with
  | token.ne => Ret (Vbool (negb (bitsetofint.eqb l r)))
  | token.eq => Ret (Vbool (bitsetofint.eqb l r))
  | token._bitset_or => Ret (Vbitset (bitsetofint.or_ l r))
  | token._bitset_and => Ret (Vbitset (bitsetofint.and_ l r))
  | token._bitset_xor => Ret (Vbitset (bitsetofint.xor_ l r))
  | _ => Throw (eval_binary t (Vbitset l) (Vbitset r))
  end.

Definition binary_bitset_ulong (t : token.type) (l : list Z) (r : Z) : result :=
  match t with
  | token._bitset_insert => Ret (Vbitset (bitsetofint.ins r l))
  | token._bitset_delete => Ret (Vbitset (bitsetofint.del r l))
  | token._bitset_is_element => Ret (Vbool (bitsetofint.is_element r l))
  | _ => Throw (eval_binary t (Vbitset l) (Vulong r))
  end.

Definition binary_bytearray (t : token.type) (l r : list ascii) : result :=
  match t with
  | token.ne => Ret (Vbool (negb (bool_decide (l = r))))
  | token.eq => Ret (Vbool (bool_decide (l = r)))
  | _ => Throw (eval_binary t (Vbytearray l) (Vbytearray r))
  end.

(** Two stacks can be joined but not nested: pushing a list resolves to the
    overload for two lists. *)
Definition binary_list_list (t : token.type) (l r : list value_type) : result :=
  match t with
  | token._stack_join => Ret (Vlist (l ++ r))
  | _ => Throw (eval_binary t (Vlist l) (Vlist r))
  end.

Definition binary_list (t : token.type) (l : list value_type) (r : value_type) : result :=
  match t with
  | token._stack_push => Ret (Vlist (l ++ [r]))
  | _ => Throw (eval_binary t (Vlist l) r)
  end.

Definition binary_set_set (t : token.type) (l r : list value_type) : result :=
  match t with
  | token._set_is_subset => Ret (Vbool (forallb (λ lv, Order.set_find lv r) l))
  | _ => Throw (eval_binary t (Vset l) (Vset r))
  end.

Definition binary_set (t : token.type) (l : list value_type) (r : value_type) : result :=
  match t with
  | token._set_insert => Ret (Vset (Order.set_insert r l))
  | token._set_erase => Ret (Vset (Order.set_erase r l))
  | token._set_is_element => Ret (Vbool (Order.set_find r l))
  | _ => Throw (eval_binary t (Vset l) r)
  end.

Definition binary_map (t : token.type) (l : list (value_type * value_type))
    (r : value_type) : result :=
  match t with
  | token._map_unassign => Ret (Vmap (Order.map_erase r l))
  | token._map_is_assigned => Ret (Vbool (bool_decide (is_Some (Order.map_find r l))))
  | token._map_get_assignment => or_throw out_of_range (Order.map_find r l)
  | _ => Throw (eval_binary t (Vmap l) r)
  end.

(** The lambda [traverse] of the overload for two structured values: stop
    at the first field whose comparison gives [early]; different shapes
    throw when they are reached. *)
Definition traverse (compare : value_type → value_type → result) (early : bool) (e : exn) :
    structured_type → structured_type → outcome exn bool :=
  fix go l r :=
    match l, r with
    | (kl, vl) :: l', (kr, vr) :: r' =>
        if decide (kl = kr) then
          compare vl vr ≫= λ v,
          match v with
          | Vbool b => if Bool.eqb b early then Ret early else go l' r'
          | _ => go l' r'
          end
        else Throw e
    | [], [] => Ret (negb early)
    | _, _ => Throw e
    end.

(** [binary], by the overloads of [visitor_binary]. *)
Fixpoint binary (t : token.type) (l r : value_type) : result :=
  match l, r with
  | Vbool a, Vbool b => binary_bool t a b
  | Vint a, Vint b => binary_integral_signed Int.I32 t a b
  | Vlong a, Vlong b => binary_integral_signed Int.I64 t a b
  | Vuint a, Vuint b => binary_integral_unsigned Int.U32 t a b
  | Vulong a, Vulong b => binary_integral_unsigned Int.U64 t a b
  | Vfloat a, Vfloat b => binary_fractional Float.binary32 Vfloat t a b
  | Vdouble a, Vdouble b => binary_fractional Float.binary64 Vdouble t a b
  | Vchar a, Vchar b => binary_char t a b
  | Vstring a, Vstring b => binary_string t a b
  | Vbitset a, Vbitset b => binary_bitset t a b
  | Vbitset a, Vulong b => binary_bitset_ulong t a b
  | Vbytearray a, Vbytearray b => binary_bytearray t a b
  | Vlist a, Vlist b => binary_list_list t a b
  | Vlist a, r => binary_list t a r
  | Vset a, Vset b => binary_set_set t a b
  | Vset a, r => binary_set t a r
  | Vmap a, r => binary_map t a r
  | Vstruct a, Vstruct b =>
      match t with
      | token.ne => Vbool <$> traverse (binary t) true (eval_binary t l r) a b
      | token.eq => Vbool <$> traverse (binary t) false (eval_binary t l r) a b
      | _ => Throw (eval_binary t l r)
      end
  | _, _ => Throw (eval_binary t l r)
  end.
End functions.

End Function.
