(* ===== verification/Position.v ===== *)
(** * Reading from a position

    [fhg/util/parse/position.hpp] and [fhg/util/parse/require.cpp]: a cursor
    in a text and the small parsers that everything else is built from. *)

From S2P Require Import Prelude Value Token Function.

(** ** Characters ([<cctype>], in the C locale) *)
Module char.

Definition code (c : ascii) : nat := nat_of_ascii c.
Definition between (lo hi : ascii) (c : ascii) : bool :=
  (code lo <=? code c)%nat && (code c <=? code hi)%nat.

Definition isspace (c : ascii) : bool :=
  between "009" "013" c || bool_decide (c = " "%char).
Definition isdigit (c : ascii) : bool := between "0" "9" c.
Definition isalpha (c : ascii) : bool := between "a" "z" c || between "A" "Z" c.

End char.

(** ** The cursor *)
Module position.

(** [_k] and what lies between [_pos] and [_end] *)
Record type : Type := mk {
  eaten : nat;
  rest : string
}.

(** [position_string (input)] *)
Definition make (input : string) : type := mk 0 input.

(** [end ()], [operator* ()], [operator++ ()] *)
Definition at_end (p : type) : bool := bool_decide (rest p = "").
Definition current (p : type) : option ascii :=
  match rest p with String c _ => Some c | EmptyString => None end.
Definition next (p : type) : type :=
  match rest p with
  | String _ s => mk (S (eaten p)) s
  | EmptyString => p
  end.

End position.

(** ** Small parsers ([require.cpp]) *)
Module require.

Abbreviation P A := (M position.type exn A).

Definition fail {A} (what : string) : P A :=
  λ p, (Throw (parse_error what (position.eaten p)), p).

(** [++pos] *)
Definition skip : P unit := modify position.next.

(** [!pos.end () && f ( *pos )] *)
Definition looking_at (f : ascii → bool) (p : position.type) : bool :=
  match position.current p with Some c => f c | None => false end.
Definition is_char (c : ascii) : ascii → bool := λ c', bool_decide (c' = c).

(** [require (pos, char)] *)
Definition require_char (what : ascii) : P unit :=
  λ p, if looking_at (is_char what) p then skip p else fail (String what "") p.

(** [require (pos, string)] *)
Fixpoint require_string (what : string) : P unit :=
  match what with
  | "" => mret tt
  | String c what' =>
      λ p, if looking_at (is_char c) p then (skip ≫= λ _, require_string what') p
           else fail (String c what') p
  end.

(** [while (!pos.end () && f ( *pos )) ++pos;] *)
Fixpoint skip_while_from (f : ascii → bool) (k : nat) (s : string) : position.type :=
  match s with
  | String c s' => if f c then skip_while_from f (S k) s' else position.mk k s
  | "" => position.mk k ""
  end.
Definition skip_while (f : ascii → bool) : P unit :=
  modify (λ p, skip_while_from f (position.eaten p) (position.rest p)).

Definition skip_spaces : P unit := skip_while char.isspace.

Definition plain_character : P ascii :=
  λ p, match position.current p with
       | Some c => (Ret c, position.next p)
       | None => fail "character" p
       end.

(** [plain_string (pos, until, escape)] *)
Fixpoint plain_string_from (until escape : ascii) (acc : string) (k : nat) (s : string) :
    outcome exn string * position.type :=
  match s with
  | "" => fail (String until "") (position.mk k "")
  | String c s' =>
      if bool_decide (c = until) then (Ret acc, position.mk (S k) s')
      else if bool_decide (c = escape) then
        match s' with
        | String c' s'' =>
            if bool_decide (c' = until) || bool_decide (c' = escape) then
              plain_string_from until escape (acc +:+ String c' "") (S (S k)) s''
            else fail (String until "" +:+ " or " +:+ String escape "") (position.mk (S k) s')
        | "" => fail (String until "" +:+ " or " +:+ String escape "") (position.mk (S k) "")
        end
      else plain_string_from until escape (acc +:+ String c "") (S k) s'
  end.
Definition plain_string (until : ascii) : P string :=
  λ p, plain_string_from until "\" "" (position.eaten p) (position.rest p).

(** [identifier]: [[a-zA-Z_][a-zA-Z_0-9]*] *)
Definition id_start (c : ascii) : bool := char.isalpha c || bool_decide (c = "_"%char).
Definition id_char (c : ascii) : bool := id_start c || char.isdigit c.

Fixpoint take_while (f : ascii → bool) (s : string) : string :=
  match s with
  | String c s' => if f c then String c (take_while f s') else ""
  | "" => ""
  end.

Definition identifier : P string :=
  λ p, if looking_at id_start p then
         (Ret (take_while id_char (position.rest p)),
          skip_while_from id_char (position.eaten p) (position.rest p))
       else fail "identifier [a-zA-Z_][a-zA-Z_0-9]*" p.

Definition character : P ascii :=
  skip_spaces ≫= λ _,
  require_char "'" ≫= λ _,
  c ← plain_character;
  require_char "'" ≫= λ _,
  mret c.

Definition double_quote : ascii := "034".

Definition string_ : P string :=
  skip_spaces ≫= λ _,
  require_char double_quote ≫= λ _,
  plain_string double_quote.

Definition boolean : P bool :=
  skip_spaces ≫= λ _,
  get ≫= λ p : position.type,
  match position.current p with
  | Some "0"%char => skip ≫= λ _, mret false
  | Some "1"%char => skip ≫= λ _, mret true
  | Some "f"%char => skip ≫= λ _, require_string "alse" ≫= λ _, mret false
  | Some "n"%char => skip ≫= λ _, require_char "o" ≫= λ _, mret false
  | Some "o"%char =>
      skip ≫= λ _,
      get ≫= λ p : position.type,
      match position.current p with
      | Some "f"%char => skip ≫= λ _, require_char "f" ≫= λ _, mret false
      | Some "n"%char => skip ≫= λ _, mret true
      | _ => fail "ff' or 'n"
      end
  | Some "t"%char => skip ≫= λ _, require_string "rue" ≫= λ _, mret true
  | Some "y"%char => skip ≫= λ _, require_string "es" ≫= λ _, mret true
  | _ => fail "0' or '1' or 'false' or 'no' or 'off' or 'on' or 'true' or 'yes"
  end.

(** [list (pos, open, sep, close, f)] with both optional skips; every
    iteration of the [do ... while] consumes input, so the length of the rest
    bounds their number.  [f] threads the container that is being filled. *)
Section list.
Context {A : Type} (sep close : ascii) (f : A → P A).

Fixpoint list_loop (fuel : nat) (expect_sep : bool) (a : A) : P A :=
  match fuel with
  | O => λ p, (Throw out_of_fuel, p)
  | S fuel =>
      get ≫= λ p : position.type,
      match position.current p with
      | None =>
          fail (String close "" +:+ " or " +:+
                (if expect_sep then String sep "" else "<list_element>"))
      | Some c =>
          if bool_decide (c = close) then skip ≫= λ _, mret a
          else if expect_sep then
            require_char sep ≫= λ _,
            skip_spaces ≫= λ _,
            list_loop fuel false a
          else if bool_decide (c = sep) then fail "<list_element>"
          else
            a ← f a;
            skip_spaces ≫= λ _,
            list_loop fuel true a
      end
  end.

Definition list_ (open : ascii) (a : A) : P A :=
  skip_spaces ≫= λ _,
  require_char open ≫= λ _,
  skip_spaces ≫= λ _,
  get ≫= λ p : position.type,
  list_loop (S (String.length (position.rest p))) false a.
End list.

(** [rest] *)
Definition rest : P string :=
  λ p, (Ret (position.rest p),
        position.mk (position.eaten p + String.length (position.rest p)) "").

End require.
