(* ===== verification/Num.v ===== *)
(** * Reading numbers

    [fhg/util/num.cpp]: integers with overflow checks, decimal fractions, and
    the suffixes that select the type of a literal. *)

From Stdlib Require Import SpecFloat.
From S2P Require Import Prelude Value Token Function Position.

Module num.

#[local] Open Scope Z_scope.

Abbreviation P A := (M position.type exn A).

(** [struct hex], [struct dec] *)
Record base : Type := {
  isdig : ascii → bool;
  val : ascii → Z;
  radix : Z
}.

Definition digit (c : ascii) : Z := Z.of_nat (char.code c) - Z.of_nat (char.code "0").

Definition dec : base := {| isdig := char.isdigit; val := digit; radix := 10 |}.

Definition hex : base := {|
  isdig := λ c, char.between "a" "f" c || char.between "A" "F" c || char.isdigit c;
  val := λ c,
    if char.between "a" "f" c then 10 + (Z.of_nat (char.code c) - Z.of_nat (char.code "a"))
    else if char.between "A" "F" c then 10 + (Z.of_nat (char.code c) - Z.of_nat (char.code "A"))
    else digit c;
  radix := 16 |}.

(** [generic_base_read_integral<Base, I>]: the two loops *)
Section base_read.
Context (B : base) (I : Int.ty).

(** [*=], [+=] and [-=]: unsigned numbers wrap around, overflow of signed ones is undefined *)
Definition arith (z : Z) : outcome exn Z := if Int.lo I <? 0 then Int.checked I z else Ret (Int.wrap I z).

Definition unexpected_digit (p : position.type) : outcome exn Z * position.type :=
  (Throw (parse_error "unexpected digit" (position.eaten p)), p).

Fixpoint read_negative (l : Z) (k : nat) (s : string) : outcome exn Z * position.type :=
  let p := position.mk k s in
  match s with
  | String c s' =>
      if isdig B c then
        if l <? Z.quot (Int.lo I) (radix B) then unexpected_digit p
        else
          match arith (l * radix B) with
          | Throw e => (Throw e, p)
          | Ret l =>
              if l <? Int.lo I + val B c then unexpected_digit p
              else
                match arith (l - val B c) with
                | Throw e => (Throw e, p)
                | Ret l => read_negative l (S k) s'
                end
          end
      else (Ret l, p)
  | "" => (Ret l, p)
  end.

Fixpoint read_positive (l : Z) (k : nat) (s : string) : outcome exn Z * position.type :=
  let p := position.mk k s in
  match s with
  | String c s' =>
      if isdig B c then
        if Z.quot (Int.hi I - 1) (radix B) <? l then unexpected_digit p
        else
          match arith (l * radix B) with
          | Throw e => (Throw e, p)
          | Ret l =>
              if Int.hi I - 1 - val B c <? l then unexpected_digit p
              else
                match arith (l + val B c) with
                | Throw e => (Throw e, p)
                | Ret l => read_positive l (S k) s'
                end
          end
      else (Ret l, p)
  | "" => (Ret l, p)
  end.

Definition base_read_integral (has_sign : bool) : P Z :=
  λ p, (if has_sign then read_negative else read_positive)
         0 (position.eaten p) (position.rest p).
End base_read.

(** [generic_read_integral<I>] *)
Definition read_integral (I : Int.ty) (has_sign : bool) : P Z :=
  get ≫= λ p : position.type,
  if negb (require.looking_at char.isdigit p) then require.fail "digit"
  else
    require.skip_while (require.is_char "0") ≫= λ _,
    get ≫= λ q : position.type,
    let leading_zero := negb (bool_decide (position.eaten q = position.eaten p)) in
    match position.current q with
    | None => mret 0
    | Some c =>
        if leading_zero && (bool_decide (c = "x"%char) || bool_decide (c = "X"%char)) then
          require.skip ≫= λ _, base_read_integral hex I has_sign
        else base_read_integral dec I has_sign
    end.

Definition read_sign : P bool :=
  get ≫= λ p : position.type,
  if require.looking_at (require.is_char "-") p then require.skip ≫= λ _, mret true
  else if require.looking_at (require.is_char "+") p then require.skip ≫= λ _, mret false
  else mret false.

Definition read_signed_integral (I : Int.ty) : P Z :=
  has_sign ← read_sign;
  read_integral I has_sign.

Definition read_ulong : P Z := read_integral Int.U64 false.
Definition read_uint : P Z := read_integral Int.U32 false.
Definition read_size_t : P Z := read_integral Int.U64 false.
Definition read_long : P Z := read_signed_integral Int.I64.
Definition read_int : P Z := read_signed_integral Int.I32.

(** [read_fraction<F>] *)
Section fraction.
Context (F : Float.format).

Definition ten : spec_float := Float.of_Z F 10.
(** [initial_fak<F>::value], and the double constant [0.1] *)
Definition initial_fak : spec_float := Float.div F (Float.of_Z F 1) ten.
Definition tenth : spec_float :=
  Float.div Float.binary64 (Float.of_Z Float.binary64 1) (Float.of_Z Float.binary64 10).

Fixpoint fraction_digits (frac fak : spec_float) (k : nat) (s : string) :
    spec_float * position.type :=
  match s with
  | String c s' =>
      if char.isdigit c then
        fraction_digits (Float.add F frac (Float.mul F (Float.of_Z F (digit c)) fak))
          (Float.cast F (Float.mul Float.binary64 (Float.cast Float.binary64 fak) tenth))
          (S k) s'
      else (frac, position.mk k s)
  | "" => (frac, position.mk k s)
  end.

Definition read_fraction (ipart : Z) : P spec_float :=
  let x := Float.of_Z F ipart in
  get ≫= λ p : position.type,
  let '(frac, q) :=
    fraction_digits (S754_zero false) initial_fak (position.eaten p) (position.rest p) in
  put q ≫= λ _,
  let x := if SFltb x (S754_zero false) then Float.sub F x frac else Float.add F x frac in
  if require.looking_at (λ c, bool_decide (c = "e"%char) || bool_decide (c = "E"%char)) q then
    require.skip ≫= λ _,
    negative ← read_sign;
    ex ← read_ulong;
    mret (N.iter (Z.to_N ex)
      (λ x, if (negative : bool) then Float.div F x ten else Float.mul F x ten) x)
  else mret x.

Definition read_fractional : P spec_float :=
  negative ← read_sign;
  i ← read_ulong;
  get ≫= λ p : position.type,
  (if require.looking_at (require.is_char ".") p then require.skip else mret tt) ≫= λ _,
  x ← read_fraction i;
  mret (if (negative : bool) then SFopp x else x).
End fraction.

Definition read_double : P spec_float := read_fractional Float.binary64.
Definition read_float : P spec_float := read_fractional Float.binary32.

(** [cast<unsigned long, I>] *)
Definition cast_integral (I : Int.ty) (x : Z) : P Z :=
  λ p, if Int.hi I - 1 <? x then (Throw (parse_error "value too big" (position.eaten p)), p)
       else (Ret x, p).

(** [cast<unsigned long, float>] converts the largest float to [unsigned long],
    where it does not fit *)
Definition cast_ulong_float (x : Z) : P spec_float :=
  λ p, (Throw (undefined "float to integer"), p).

(** [cast<double, float>] *)
Definition float_max : spec_float := S754_finite false (2 ^ 24 - 1) 104.
Definition cast_double_float (x : spec_float) : P spec_float :=
  λ p, if SFltb (Float.cast Float.binary64 float_max) x
       then (Throw (parse_error "value too big" (position.eaten p)), p)
       else (Ret (Float.cast Float.binary32 x), p).

(** [SIGNED (e)]; the minus of an unsigned type wraps *)
Definition signed (negative : bool) (I : Int.ty) (x : Z) : value_type :=
  Int.inj I (if negative then Int.wrap I (- x) else x).
Definition fsigned (negative : bool) (x : spec_float) : spec_float :=
  if negative then SFopp x else x.

(** the alternatives of the switch that read a fraction *)
Definition read_num_fraction (negative : bool) (ul : Z) : P value_type :=
  d ← read_fraction Float.binary64 ul;
  get ≫= λ p : position.type,
  if require.looking_at (λ c, bool_decide (c = "f"%char) || bool_decide (c = "F"%char)) p then
    require.skip ≫= λ _,
    f ← cast_double_float d;
    mret (Vfloat (fsigned negative f))
  else mret (Vdouble (fsigned negative d)).

(** the switch on the character behind the digits *)
Definition read_num_suffix (negative : bool) (ul : Z) (c : option ascii) : P value_type :=
  match c with
  | Some "l"%char | Some "L"%char =>
      require.skip ≫= λ _,
      x ← cast_integral Int.I64 ul;
      mret (signed negative Int.I64 x)
  | Some "u"%char | Some "U"%char =>
      require.skip ≫= λ _,
      get ≫= λ p : position.type,
      if require.looking_at (λ c, bool_decide (c = "l"%char) || bool_decide (c = "L"%char)) p then
        require.skip ≫= λ _, mret (signed negative Int.U64 ul)
      else
        x ← cast_integral Int.U32 ul;
        mret (signed negative Int.U32 x)
  | Some "f"%char | Some "F"%char =>
      require.skip ≫= λ _,
      x ← cast_ulong_float ul;
      mret (Vfloat (fsigned negative x))
  | Some "."%char => require.skip ≫= λ _, read_num_fraction negative ul
  | Some "e"%char | Some "E"%char => read_num_fraction negative ul
  | _ =>
      x ← cast_integral Int.I32 ul;
      mret (signed negative Int.I32 x)
  end.

Definition read_num : P value_type :=
  negative ← read_sign;
  ul ← read_ulong;
  get ≫= λ p : position.type,
  read_num_suffix negative ul (position.current p).

(** [from_string], [read_int (string)], [read_size_t (string)] *)
Definition from_string {A} (read : P A) (input : string) : outcome exn A :=
  match read (position.make input) with
  | (Ret x, p) => if position.at_end p then Ret x else Throw (runtime_error "additional input")
  | (Throw e, _) => Throw e
  end.
Definition read_int_string : string → outcome exn Z := from_string read_int.
Definition read_size_t_string : string → outcome exn Z := from_string read_size_t.

End num.
