(* ===== verification/NumSpec.v ===== *)
(** * Integers are read exactly

    The overflow checks of [fhg/util/num.cpp] reject exactly the numbers that
    do not fit, on every width, for both signs and in both bases, and no operation
    overflows. *)

From S2P Require Import Prelude Value Token Function Position Num.

Module NumSpec.

#[local] Open Scope Z_scope.

(** The number that a digit sequence denotes. *)
Fixpoint value (B : num.base) (acc : Z) (s : string) : Z :=
  match s with
  | "" => acc
  | String c s => value B (acc * num.radix B + num.val B c) s
  end.

Fixpoint all_chars (f : ascii → bool) (s : string) : bool :=
  match s with "" => true | String c s => f c && all_chars f s end.

(** Does the text start with such a character? *)
Definition starts (f : ascii → bool) (s : string) : bool :=
  match s with "" => false | String c _ => f c end.

(** What makes a base well-formed. *)
Class Base (B : num.base) : Prop := {
  radix_pos : 1 < num.radix B;
  val_range c : num.isdig B c = true → 0 ≤ num.val B c < num.radix B
}.

(** The values of all characters, by enumeration. *)
Lemma all_ascii (f : ascii → bool) :
  forallb f (ascii_of_nat <$> seq 0 256) = true → ∀ c, f c = true.
Proof.
  intros Hall c. rewrite forallb_forall in Hall. apply Hall, list_elem_of_In, list_elem_of_fmap.
  exists (nat_of_ascii c). split; [by rewrite ascii_nat_embedding|].
  apply elem_of_seq. pose proof (nat_ascii_bounded c). lia.
Qed.

Lemma val_range_by (B : num.base) :
  forallb (λ c, implb (num.isdig B c) ((0 <=? num.val B c) && (num.val B c <? num.radix B)))
    (ascii_of_nat <$> seq 0 256) = true →
  ∀ c, num.isdig B c = true → 0 ≤ num.val B c < num.radix B.
Proof.
  intros Hall c Hc. pose proof (all_ascii _ Hall c) as Hr. simpl in Hr.
  rewrite Hc in Hr. simpl in Hr. apply andb_true_iff in Hr as [H1 H2].
  rewrite Z.leb_le in H1. rewrite Z.ltb_lt in H2. lia.
Qed.

#[global] Instance dec_base : Base num.dec.
Proof. split; [done|]. apply val_range_by. by vm_compute. Qed.
#[global] Instance hex_base : Base num.hex.
Proof. split; [done|]. apply val_range_by. by vm_compute. Qed.

Section exact.
Context (B : num.base) `{!Base B} (I : Int.ty).

Lemma value_ge acc s : 0 ≤ acc → all_chars (num.isdig B) s = true → acc ≤ value B acc s.
Proof.
  revert acc. induction s as [|c s IH]; intros acc Hacc; simpl; [lia|].
  intros [Hc Hs]%andb_true_iff. pose proof (val_range c Hc). pose proof radix_pos.
  etrans; [|apply IH; [nia|done]]. nia.
Qed.

Lemma range_ok : Int.lo I ≤ 0 < Int.hi I.
Proof. by destruct I. Qed.

(** Operations whose results fit are exact. *)
Lemma arith_exact z : Int.in_range I z → num.arith I z = Ret z.
Proof.
  intros Hz. unfold num.arith, Int.checked, Int.wrap. destruct (Int.lo I <? 0); [by rewrite decide_True|].
  unfold Int.in_range in Hz. rewrite Z.mod_small by lia. f_equal. lia.
Qed.

(** The first check ensures that the product fits, and both together are passed exactly if
    the number with the next digit fits. *)
Lemma positive_check l v :
  0 ≤ l → 0 ≤ v < num.radix B →
  if decide (l * num.radix B + v < Int.hi I) then
    l ≤ Z.quot (Int.hi I - 1) (num.radix B) ∧ l * num.radix B ≤ Int.hi I - 1 - v
  else l ≤ Z.quot (Int.hi I - 1) (num.radix B) → l * num.radix B < Int.hi I ∧ Int.hi I - 1 - v < l * num.radix B.
Proof.
  intros Hl Hv. pose proof radix_pos. pose proof range_ok. rewrite Z.quot_div_nonneg by lia.
  pose proof (Z.mul_div_le (Int.hi I - 1) (num.radix B)). pose proof (Z.mul_succ_div_gt (Int.hi I - 1) (num.radix B)).
  case_decide; nia.
Qed.

Lemma negative_check l v :
  l ≤ 0 → 0 ≤ v < num.radix B →
  if decide (Int.lo I ≤ l * num.radix B - v) then
    Z.quot (Int.lo I) (num.radix B) ≤ l ∧ Int.lo I + v ≤ l * num.radix B
  else Z.quot (Int.lo I) (num.radix B) ≤ l → Int.lo I ≤ l * num.radix B ∧ l * num.radix B < Int.lo I + v.
Proof.
  intros Hl Hv. pose proof radix_pos. pose proof range_ok.
  assert (Z.quot (Int.lo I) (num.radix B) = - ((- Int.lo I) / num.radix B)) as ->.
  { rewrite <- (Z.opp_involutive (Int.lo I)) at 1. rewrite Z.quot_opp_l by lia.
    by rewrite Z.quot_div_nonneg by lia. }
  pose proof (Z.mul_div_le (- Int.lo I) (num.radix B)). pose proof (Z.mul_succ_div_gt (- Int.lo I) (num.radix B)).
  case_decide; nia.
Qed.

(** Where the digit is that was rejected. *)
Definition rejects (r : outcome exn Z * position.type) : Prop :=
  ∃ k, r.1 = Throw (parse_error "unexpected digit" k).

Lemma read_positive_exact l k ds rest :
  0 ≤ l → all_chars (num.isdig B) ds = true → starts (num.isdig B) rest = false →
  l < Int.hi I →
  if decide (value B l ds < Int.hi I) then
    num.read_positive B I l k (ds +:+ rest) =
      (Ret (value B l ds), position.mk (k + String.length ds) rest)
  else rejects (num.read_positive B I l k (ds +:+ rest)).
Proof.
  revert l k. induction ds as [|c ds IH]; intros l k Hl Hds Hrest Hhi.
  { simpl. rewrite string_app_nil_l, decide_True by done. rewrite Nat.add_0_r.
    destruct rest as [|c s]; simpl in *; [done|]. by rewrite Hrest. }
  rewrite string_app_cons. simpl in Hds |- *. apply andb_true_iff in Hds as [Hc Hds].
  rewrite Hc. pose proof (val_range c Hc) as Hv. pose proof radix_pos. pose proof range_ok.
  pose proof (positive_check l (num.val B c) Hl Hv) as Hcheck. case_decide as Hlt.
  - destruct Hcheck as [Hq1 Hq2]. rewrite (proj2 (Z.ltb_ge _ _)) by done.
    rewrite arith_exact by (unfold Int.in_range; nia). rewrite (proj2 (Z.ltb_ge _ _)) by done.
    rewrite arith_exact by (unfold Int.in_range; nia).
    replace (k + S (String.length ds))%nat with (S k + String.length ds)%nat by lia.
    apply IH; [nia|done..].
  - pose proof (value_ge (l * num.radix B + num.val B c) ds ltac:(nia) Hds).
    rewrite decide_False by lia. destruct (Z.ltb_spec (Z.quot (Int.hi I - 1) (num.radix B)) l) as [_|Hq]; [by eexists|].
    destruct (Hcheck Hq) as [Hq1 Hq2]. rewrite arith_exact by (unfold Int.in_range; nia).
    rewrite (proj2 (Z.ltb_lt _ _)) by done. by eexists.
Qed.

Lemma read_negative_exact l k ds rest :
  0 ≤ l → all_chars (num.isdig B) ds = true → starts (num.isdig B) rest = false →
  Int.lo I ≤ - l →
  if decide (Int.lo I ≤ - value B l ds) then
    num.read_negative B I (- l) k (ds +:+ rest) =
      (Ret (- value B l ds), position.mk (k + String.length ds) rest)
  else rejects (num.read_negative B I (- l) k (ds +:+ rest)).
Proof.
  revert l k. induction ds as [|c ds IH]; intros l k Hl Hds Hrest Hlo.
  { simpl. rewrite string_app_nil_l, decide_True by done. rewrite Nat.add_0_r.
    destruct rest as [|c s]; simpl in *; [done|]. by rewrite Hrest. }
  rewrite string_app_cons. simpl in Hds |- *. apply andb_true_iff in Hds as [Hc Hds].
  rewrite Hc. pose proof (val_range c Hc) as Hv. pose proof radix_pos. pose proof range_ok.
  pose proof (negative_check (- l) (num.val B c) ltac:(lia) Hv) as Hcheck. case_decide as Hlt.
  - destruct Hcheck as [Hq1 Hq2]. rewrite (proj2 (Z.ltb_ge _ _)) by done.
    rewrite arith_exact by (unfold Int.in_range; nia). rewrite (proj2 (Z.ltb_ge _ _)) by done.
    rewrite arith_exact by (unfold Int.in_range; nia).
    replace (k + S (String.length ds))%nat with (S k + String.length ds)%nat by lia.
    replace (- l * num.radix B - num.val B c) with (- (l * num.radix B + num.val B c)) by lia.
    apply IH; [nia|done|done|nia].
  - pose proof (value_ge (l * num.radix B + num.val B c) ds ltac:(nia) Hds).
    rewrite decide_False by lia. destruct (Z.ltb_spec (- l) (Z.quot (Int.lo I) (num.radix B))) as [_|Hq]; [by eexists|].
    destruct (Hcheck Hq) as [Hq1 Hq2]. rewrite arith_exact by (unfold Int.in_range; nia).
    rewrite (proj2 (Z.ltb_lt _ _)) by done. by eexists.
Qed.

(** Reading with a sign. *)
Definition apply_sign (neg : bool) (z : Z) : Z := if neg then - z else z.

Lemma base_read_exact neg k ds rest :
  all_chars (num.isdig B) ds = true → starts (num.isdig B) rest = false →
  (neg = true → Int.lo I < 0) →
  let z := apply_sign neg (value B 0 ds) in
  if decide (Int.in_range I z) then
    num.base_read_integral B I neg (position.mk k (ds +:+ rest)) =
      (Ret z, position.mk (k + String.length ds) rest)
  else rejects (num.base_read_integral B I neg (position.mk k (ds +:+ rest))).
Proof.
  intros Hds Hrest Hneg. pose proof range_ok. pose proof (value_ge 0 ds ltac:(lia) Hds).
  unfold num.base_read_integral, Int.in_range. destruct neg; simpl.
  - pose proof (read_negative_exact 0 k ds rest ltac:(lia) Hds Hrest ltac:(lia)) as Hr.
    specialize (Hneg eq_refl). simpl in Hr.
    destruct (decide (Int.lo I ≤ - value B 0 ds)).
    + rewrite decide_True by lia. done.
    + rewrite decide_False by lia. done.
  - pose proof (read_positive_exact 0 k ds rest ltac:(lia) Hds Hrest ltac:(lia)) as Hr.
    destruct (decide (value B 0 ds < Int.hi I)).
    + rewrite decide_True by lia. done.
    + rewrite decide_False by lia. done.
Qed.
End exact.

(** *** Decimal numbers with leading zeros *)

Lemma string_length_app a b : String.length (a +:+ b) = (String.length a + String.length b)%nat.
Proof. induction a as [|c a IH]; [done|]. rewrite string_app_cons. simpl. by rewrite IH. Qed.

Lemma all_chars_app f a b : all_chars f (a +:+ b) = all_chars f a && all_chars f b.
Proof.
  induction a as [|c a IH]; [done|]. rewrite string_app_cons. simpl. by rewrite IH, andb_assoc.
Qed.

Lemma skip_while_app f k z s :
  all_chars f z = true → starts f s = false →
  require.skip_while_from f k (z +:+ s) = position.mk (k + String.length z) s.
Proof.
  revert k. induction z as [|c z IH]; intros k; simpl.
  - intros _ Hs. rewrite string_app_nil_l, Nat.add_0_r. destruct s as [|c s]; simpl in *; [done|].
    by rewrite Hs.
  - intros [-> Hz]%andb_true_iff Hs. rewrite IH by done. f_equal. lia.
Qed.

Lemma span_chars f s :
  ∃ z s', s = z +:+ s' ∧ all_chars f z = true ∧ starts f s' = false.
Proof.
  induction s as [|c s IH]; [by exists "", ""|]. destruct (f c) eqn:Hc.
  - destruct IH as (z & s' & -> & Hz & Hs'). exists (String c z), s'. simpl. by rewrite Hc, Hz.
  - exists "", (String c s). simpl. by rewrite Hc.
Qed.

Lemma value_zeros z s : all_chars (require.is_char "0") z = true →
  value num.dec 0 (z +:+ s) = value num.dec 0 s.
Proof.
  induction z as [|c z IH]; simpl; [by rewrite string_app_nil_l|].
  intros [Hc Hz]%andb_true_iff. apply bool_decide_eq_true in Hc as ->. by apply IH.
Qed.

Definition is_x (c : ascii) : bool := bool_decide (c = "x"%char) || bool_decide (c = "X"%char).

Lemma digit_not_x c : char.isdigit c = true → is_x c = false.
Proof.
  intros Hc. pose proof (all_ascii (λ c, implb (char.isdigit c) (negb (is_x c)))
    ltac:(by vm_compute) c) as Hx. simpl in Hx. rewrite Hc in Hx. by apply negb_true_iff.
Qed.

Lemma read_integral_decimal I neg k ds rest :
  ds ≠ "" → all_chars char.isdigit ds = true →
  starts char.isdigit rest = false → starts is_x rest = false →
  (neg = true → Int.lo I < 0) →
  let z := apply_sign neg (value num.dec 0 ds) in
  if decide (Int.in_range I z) then
    num.read_integral I neg (position.mk k (ds +:+ rest)) =
      (Ret z, position.mk (k + String.length ds) rest)
  else rejects (num.read_integral I neg (position.mk k (ds +:+ rest))).
Proof.
  intros Hne Hds Hrest Hx Hneg z.
  destruct (span_chars (require.is_char "0") ds) as (zs & ds' & -> & Hzs & Hds').
  assert (starts (require.is_char "0") (ds' +:+ rest) = false) as Hstart.
  { destruct ds' as [|c ds']; [|done]. rewrite string_app_nil_l.
    destruct rest as [|c rest]; [done|]. simpl in *. apply bool_decide_eq_false. by intros ->. }
  assert (num.read_integral I neg (position.mk k ((zs +:+ ds') +:+ rest)) =
    match ds' +:+ rest with
    | "" => (Ret 0, position.mk (k + String.length zs) "")
    | _ => num.base_read_integral num.dec I neg (position.mk (k + String.length zs) (ds' +:+ rest))
    end) as ->.
  { unfold num.read_integral. rewrite bind_get.
    assert (require.looking_at char.isdigit (position.mk k ((zs +:+ ds') +:+ rest)) = true) as ->.
    { destruct (zs +:+ ds') as [|c s]; [done|]. simpl in Hds. by apply andb_true_iff in Hds as [? _]. }
    cbn [negb]. unfold require.skip_while. rewrite bind_modify, bind_get.
    cbn [position.eaten position.rest]. rewrite <- string_app_assoc, skip_while_app by done.
    destruct (ds' +:+ rest) as [|c s] eqn:Hs; [done|]. cbn [position.current position.rest].
    assert (is_x c = false) as Hc.
    { rewrite all_chars_app in Hds. apply andb_true_iff in Hds as [_ Hd].
      destruct ds' as [|d ds']; simpl in Hs, Hd.
      - rewrite string_app_nil_l in Hs. subst. done.
      - rewrite string_app_cons in Hs. simplify_eq. apply digit_not_x.
        by apply andb_true_iff in Hd as [? _]. }
    fold (is_x c). rewrite Hc, andb_false_r. done. }
  subst z. rewrite value_zeros by done. rewrite all_chars_app in Hds.
  apply andb_true_iff in Hds as [_ Hd]. rewrite string_length_app, Nat.add_assoc.
  destruct (ds' +:+ rest) as [|c s] eqn:Hs.
  - destruct ds' as [|]; [|done]. rewrite string_app_nil_l in Hs. subst rest. simpl.
    rewrite decide_True by (destruct neg, I; done). rewrite Nat.add_0_r. by destruct neg.
  - rewrite <- Hs. exact (base_read_exact num.dec I neg (k + String.length zs) ds' rest Hd Hrest Hneg).
Qed.

(** *** Hexadecimal numbers: zeros, an x, and any number of digits *)
Fixpoint zeros (n : nat) : string := match n with O => "" | S n => String "0" (zeros n) end.
Lemma all_zeros n : all_chars (require.is_char "0") (zeros n) = true.
Proof. induction n as [|n IH]; [done|]. done. Qed.
Lemma read_integral_hexadecimal I neg k n x ds rest :
  is_x x = true → all_chars (num.isdig num.hex) ds = true → starts (num.isdig num.hex) rest = false →
  (neg = true → Int.lo I < 0) →
  let z := apply_sign neg (value num.hex 0 ds) in
  let text := zeros (S n) +:+ String x ds in
  if decide (Int.in_range I z) then
    num.read_integral I neg (position.mk k (text +:+ rest)) =
      (Ret z, position.mk (k + String.length text) rest)
  else rejects (num.read_integral I neg (position.mk k (text +:+ rest))).
Proof.
  intros Hx Hds Hrest Hneg z text.
  assert (starts (require.is_char "0") (String x (ds +:+ rest)) = false) as Hstart.
  { simpl. apply bool_decide_eq_false. by intros ->. }
  assert (num.read_integral I neg (position.mk k (text +:+ rest)) =
    num.base_read_integral num.hex I neg (position.mk (k + S (S n)) (ds +:+ rest))) as ->.
  { unfold num.read_integral. rewrite bind_get. unfold text. rewrite <- string_app_assoc, string_app_cons.
    change (require.looking_at char.isdigit (position.mk k (zeros (S n) +:+ String x (ds +:+ rest)))) with true.
    cbn [negb]. unfold require.skip_while. rewrite bind_modify, bind_get.
    cbn [position.eaten position.rest]. rewrite skip_while_app by (done || apply (all_zeros (S n))).
    cbn [position.current position.rest position.eaten]. fold (is_x x). rewrite Hx.
    assert (String.length (zeros (S n)) = S n) as -> by (simpl; f_equal; clear; by induction n as [|n IH]; simpl; congruence).
    rewrite bool_decide_eq_false_2 by lia. simpl. unfold require.skip. rewrite bind_modify. simpl.
    unfold position.next. simpl. by replace (k + S (S n))%nat with (S (k + S n)) by lia. }
  assert (String.length text = S (S n) + String.length ds)%nat as ->.
  { unfold text. rewrite string_length_app. simpl.
    assert (String.length (zeros n) = n) as -> by (clear; by induction n as [|n IH]; simpl; congruence). lia. }
  rewrite Nat.add_assoc. exact (base_read_exact num.hex I neg _ ds rest Hds Hrest Hneg).
Qed.

(** *** Numbers as they are written *)
Inductive notation : Type :=
| Decimal (ds : string)
| Hexadecimal (leading : nat) (x : ascii) (ds : string).
Definition text (n : notation) : string :=
  match n with Decimal ds => ds | Hexadecimal leading x ds => zeros (S leading) +:+ String x ds end.
Definition denotes (n : notation) : Z :=
  match n with Decimal ds => value num.dec 0 ds | Hexadecimal _ _ ds => value num.hex 0 ds end.
Definition written (n : notation) : bool :=
  match n with
  | Decimal ds => negb (bool_decide (ds = "")) && all_chars char.isdigit ds
  | Hexadecimal _ x ds => is_x x && all_chars (num.isdig num.hex) ds
  end.
(** what follows belongs to the number *)
Definition goes_on (n : notation) (rest : string) : bool :=
  match n with
  | Decimal _ => starts char.isdigit rest || starts is_x rest
  | Hexadecimal _ _ _ => starts (num.isdig num.hex) rest
  end.
Lemma read_integral_exact I neg k n rest :
  written n = true → goes_on n rest = false → (neg = true → Int.lo I < 0) →
  let z := apply_sign neg (denotes n) in
  if decide (Int.in_range I z) then
    num.read_integral I neg (position.mk k (text n +:+ rest)) = (Ret z, position.mk (k + String.length (text n)) rest)
  else rejects (num.read_integral I neg (position.mk k (text n +:+ rest))).
Proof.
  destruct n as [ds|m x ds]; simpl; intros [Hw1 Hw2]%andb_true_iff Hg Hneg.
  - apply negb_true_iff, bool_decide_eq_false in Hw1. apply orb_false_iff in Hg as [Hg1 Hg2].
    by apply read_integral_decimal.
  - by apply (read_integral_hexadecimal I neg k m x ds rest).
Qed.

(** C38: Integers are read exactly, in decimal and hexadecimal notation: the reader of any of
    the four types ([read_ulong], [read_size_t], [read_uint]) and, for the signed ones, the reader
    with an optional sign ([read_long], [read_int]) give the number that is written if it is in
    the range of the type, and throw [unexpected_digit] otherwise; the operations on the way,
    whose overflow wraps around or is undefined, never overflow.  A number is a non-empty
    sequence of digits that is followed neither by a digit nor by an x, or zeros, an x and a
    sequence of hexadecimal digits that is not followed by another one. *)
Theorem integers_read_exactly I sign k n rest :
  written n = true → goes_on n rest = false → (sign ≠ "" → Int.lo I < 0) → sign = "" ∨ sign = "+" ∨ sign = "-" →
  let z := if bool_decide (sign = "-") then - denotes n else denotes n in
  let read := if Int.lo I <? 0 then num.read_signed_integral I else num.read_integral I false in
  let input := position.mk k (sign +:+ text n +:+ rest) in
  if decide (Int.in_range I z) then read input = (Ret z, position.mk (k + String.length (sign +:+ text n)) rest)
  else rejects (read input).
Proof.
  intros Hw Hg Hs Hsign z read input.
  assert (read input = num.read_integral I (bool_decide (sign = "-")) (position.mk (k + String.length sign) (text n +:+ rest))) as ->.
  { assert (∀ neg, num.read_sign input = (Ret neg, position.mk (k + String.length sign) (text n +:+ rest)) →
      num.read_signed_integral I input = num.read_integral I neg (position.mk (k + String.length sign) (text n +:+ rest))) as Hr.
    { intros neg Hn. unfold num.read_signed_integral, mbind, M_bind. by rewrite Hn. }
    unfold read, input in *. destruct Hsign as [->|[->| ->]].
    - simpl. rewrite Nat.add_0_r. destruct (Int.lo I <? 0); [|done]. simpl in Hr. rewrite Nat.add_0_r in Hr. apply Hr.
      unfold num.read_sign. rewrite bind_get.
      assert (starts (λ c, require.is_char "-" c || require.is_char "+" c) (text n +:+ rest) = false) as Hst.
      { destruct n as [[|c ds]|m x ds]; [done| |done]. simpl in Hw. apply andb_true_iff in Hw as [Hc _]. simpl.
        pose proof (all_ascii (λ c, implb (char.isdigit c) (negb (require.is_char "-" c || require.is_char "+" c)))
          ltac:(by vm_compute) c) as Hx. simpl in Hx. rewrite Hc in Hx. by apply negb_true_iff. }
      destruct (text n +:+ rest) as [|c s]; [done|]. simpl in Hst. apply orb_false_iff in Hst as [Hm Hp].
      rewrite string_app_nil_l. unfold require.looking_at. cbn [position.current position.rest]. by rewrite Hm, Hp.
    - rewrite (proj2 (Z.ltb_lt _ _)) by (by apply Hs). apply Hr. simpl. by rewrite Nat.add_1_r.
    - rewrite (proj2 (Z.ltb_lt _ _)) by (by apply Hs). apply Hr. simpl. by rewrite Nat.add_1_r. }
  rewrite string_length_app, Nat.add_assoc.
  apply (read_integral_exact I (bool_decide (sign = "-")) (k + String.length sign) n rest Hw Hg).
  intros Hneg%bool_decide_eq_true. apply Hs. by subst.
Qed.

Lemma integers_read_exactly_witness :
  num.read_int (position.make "-2147483648;") = (Ret (-2147483648), position.mk 11 ";") ∧
  rejects (num.read_int (position.make "+2147483648;")) ∧
  num.read_uint (position.make "00xFFFFFFFF") = (Ret 4294967295, position.mk 11 "") ∧
  rejects (num.read_ulong (position.make "0x1FFFFFFFFFFFFFFFF")).
Proof.
  split_and!.
  - by apply (integers_read_exactly Int.I32 "-" 0 (Decimal "2147483648") ";"); auto.
  - by apply (integers_read_exactly Int.I32 "+" 0 (Decimal "2147483648") ";"); auto.
  - by apply (integers_read_exactly Int.U32 "" 0 (Hexadecimal 1 "x" "FFFFFFFF") ""); auto.
  - by apply (integers_read_exactly Int.U64 "" 0 (Hexadecimal 0 "x" "1FFFFFFFFFFFFFFFF") ""); auto.
Defined.

End NumSpec.
