(* ===== verification/ReadShow.v ===== *)
(** * Reading and showing values

    [we/type/value/read.cpp] and [we/type/value/show.cpp]. *)

From Stdlib Require Import SpecFloat.
From S2P Require Import Prelude Value Token Bitset Function Position Num.

(** ** [read] *)
Module read.

Abbreviation P A := (M position.type exn A).

(** [while (!pos.end () && *pos != close) { c.push_back (read_ulong (pos));
    skip_spaces (pos); }], then the closing character; every iteration
    consumes a digit *)
Fixpoint numbers {A} (close : ascii) (push_back : Z → A → A) (fuel : nat) (a : A) : P A :=
  match fuel with
  | O => throw out_of_fuel
  | S fuel =>
      get ≫= λ p : position.type,
      if require.looking_at (λ c, negb (require.is_char close c)) p then
        v ← num.read_ulong;
        require.skip_spaces ≫= λ _,
        numbers close push_back fuel (push_back v a)
      else require.require_char close ≫= λ _, mret a
  end.

Definition read_numbers {A} (close : ascii) (push_back : Z → A → A) (a : A) : P A :=
  require.skip_spaces ≫= λ _,
  get ≫= λ p : position.type,
  numbers close push_back (S (String.length (position.rest p))) a.

(** [bytearray::push_back]: the number is converted to [char] *)
Definition push_byte (z : Z) (bytes : list ascii) : list ascii :=
  bytes ++ [ascii_of_N (Z.to_N (z mod 256))].

(** [map_item], [struct_item], [list_item], [set_item]; [rd] is [read] *)
Section items.
Context (rd : P value_type).

Definition map_item (m : list (value_type * value_type)) : P (list (value_type * value_type)) :=
  key ← rd;
  require.skip_spaces ≫= λ _,
  require.require_string "->" ≫= λ _,
  v ← rd;
  mret (Order.map_assign key v m).

Definition struct_item (m : structured_type) : P structured_type :=
  require.skip_spaces ≫= λ _,
  fieldname ← require.identifier;
  require.skip_spaces ≫= λ _,
  require.require_string ":=" ≫= λ _,
  v ← rd;
  mret (m ++ [(fieldname, v)]).

Definition list_item (l : list value_type) : P (list value_type) :=
  v ← rd; mret (l ++ [v]).

Definition set_item (s : list value_type) : P (list value_type) :=
  v ← rd; mret (Order.set_insert v s).
End items.

(** the switch of [read (pos)] on the first character *)
Definition read_dispatch (rd : P value_type) (c : option ascii) : P value_type :=
  match c with
  | None => require.fail "value"
  | Some "["%char => require.skip ≫= λ _, require.require_char "]" ≫= λ _, mret Vcontrol
  | Some "t"%char =>
      require.skip ≫= λ _, require.require_string "rue" ≫= λ _, mret (Vbool true)
  | Some "f"%char =>
      require.skip ≫= λ _, require.require_string "alse" ≫= λ _, mret (Vbool false)
  | Some "'"%char =>
      require.skip ≫= λ _,
      c ← require.plain_character;
      require.require_char "'" ≫= λ _, mret (Vchar c)
  | Some "034"%char =>
      require.skip ≫= λ _,
      s ← require.plain_string require.double_quote; mret (Vstring s)
  | Some "{"%char =>
      require.skip ≫= λ _,
      bs ← read_numbers "}" bitsetofint.push_back bitsetofint.empty; mret (Vbitset bs)
  | Some "y"%char =>
      require.skip ≫= λ _,
      require.require_char "(" ≫= λ _,
      ba ← read_numbers ")" push_byte []; mret (Vbytearray ba)
  | Some "M"%char =>
      require.skip ≫= λ _,
      require.require_string "ap" ≫= λ _,
      m ← require.list_ "," "]" (map_item rd) "[" []; mret (Vmap m)
  | Some "S"%char =>
      require.skip ≫= λ _,
      get ≫= λ p : position.type,
      match position.current p with
      | Some "e"%char =>
          require.skip ≫= λ _,
          require.require_char "t" ≫= λ _,
          s ← require.list_ "," "}" (set_item rd) "{" []; mret (Vset s)
      | Some "t"%char =>
          require.skip ≫= λ _,
          require.require_string "ruct" ≫= λ _,
          m ← require.list_ "," "]" (struct_item rd) "[" []; mret (Vstruct m)
      | _ => require.fail "truct, et"
      end
  | Some "L"%char =>
      require.skip ≫= λ _,
      require.require_string "ist" ≫= λ _,
      l ← require.list_ "," ")" (list_item rd) "(" []; mret (Vlist l)
  | Some _ => num.read_num
  end.

(** [read (pos)]; the nesting of values is bounded by the length of the text *)
Fixpoint read_value (fuel : nat) : P value_type :=
  match fuel with
  | O => throw out_of_fuel
  | S fuel =>
      require.skip_spaces ≫= λ _,
      get ≫= λ p : position.type,
      read_dispatch (read_value fuel) (position.current p)
  end.

Definition read : P value_type :=
  get ≫= λ p : position.type,
  read_value (S (String.length (position.rest p))).

(** [read (string)]: input behind the value is ignored *)
Definition read_string (input : string) : outcome exn value_type :=
  (read (position.make input)).1.

End read.

(** ** [show] *)
Module show.

#[local] Open Scope Z_scope.

(** Decimal digits of a natural number, as [operator<<] prints it. *)
Fixpoint digits (fuel : nat) (z : Z) (acc : string) : string :=
  let acc := String (ascii_of_N (48 + Z.to_N (z mod 10))) acc in
  match fuel with
  | O => acc
  | S fuel => if z <? 10 then acc else digits fuel (z / 10) acc
  end.
Definition natural (z : Z) : string := digits (Z.to_nat (Z.log2 z)) z "".
Definition integer (z : Z) : string :=
  if z <? 0 then "-" +:+ natural (- z) else natural z.

(** Floating-point numbers with the flag [showpoint] and the default precision
    of six significant digits: the format [%#g] of the C library. *)
Definition power (z : Z) : Z * Z := if z <? 0 then (1, 10 ^ (- z)) else (10 ^ z, 1).

(** the integer nearest to [n / d], ties to even *)
Definition nearest (n d : Z) : Z :=
  let q := n / d in
  let r := 2 * (n mod d) in
  if (r <? d) || ((r =? d) && Z.even q) then q else q + 1.

(** the decimal exponent of [n / d], by search from an estimate *)
Fixpoint exponent_from (fuel : nat) (n d x : Z) : Z :=
  match fuel with
  | O => x
  | S fuel =>
      let '(a, b) := power x in
      let '(a', b') := power (x + 1) in
      if n * b <? a * d then exponent_from fuel n d (x - 1)
      else if a' * d <=? n * b' then exponent_from fuel n d (x + 1)
      else x
  end.

Definition zeros (n : Z) : string :=
  Nat.iter (Z.to_nat n) (String "0"%char) "".
Fixpoint split_at (n : nat) (s : string) : string * string :=
  match n, s with
  | S n, String c s => let '(a, b) := split_at n s in (String c a, b)
  | _, _ => ("", s)
  end.

(** [%#g] of the positive number [n / d] *)
Definition general (n d : Z) : string :=
  let x := exponent_from 1000 n d ((Z.log2 n - Z.log2 d) * 3 / 10) in
  let '(a, b) := power (x - 5) in
  let m := nearest (n * b) (d * a) in
  let '(m, x) := if m =? 10 ^ 6 then (10 ^ 5, x + 1) else (m, x) in
  if (-4 <=? x) && (x <? 6) then
    if x <? 0 then "0." +:+ zeros (- x - 1) +:+ natural m
    else let '(i, f) := split_at (Z.to_nat (x + 1)) (natural m) in i +:+ "." +:+ f
  else
    let '(i, f) := split_at 1 (natural m) in
    let e := natural (Z.abs x) in
    i +:+ "." +:+ f +:+ (if x <? 0 then "e-" else "e+") +:+
      (if Z.abs x <? 10 then "0" else "") +:+ e.

Definition floating (f : spec_float) : string :=
  let sign (s : bool) := if s then "-" else "" in
  match f with
  | S754_zero s => sign s +:+ "0.00000"
  | S754_infinity s => sign s +:+ "inf"
  | S754_nan => "nan"
  | S754_finite s m e =>
      sign s +:+ (if 0 <=? e then general (Z.pos m * 2 ^ e) 1 else general (Z.pos m) (2 ^ (- e)))
  end.

(** [print_container (open, separator, close, c, print)] *)
Fixpoint joined {A} (print : A → string) (l : list A) : string :=
  match l with
  | [] => ""
  | [x] => print x
  | x :: l => print x +:+ ", " +:+ joined print l
  end.
Definition print_container {A} (open close : string) (print : A → string) (l : list A) : string :=
  open +:+ joined print l +:+ close.

Fixpoint spaced (l : list Z) : string :=
  match l with [] => "" | z :: l => " " +:+ natural z +:+ spaced l end.

(** [static_cast<unsigned long> (char)] of a signed [char] *)
Definition ulong_of_char (c : ascii) : Z := w64 (Order.signed_char c).

Definition quoted (quote : ascii) (s : string) : string := String quote (s +:+ String quote "").

(** [visitor_show], with [boolalpha] *)
Fixpoint show (v : value_type) : string :=
  match v with
  | Vcontrol => "[]"
  | Vbool b => if b then "true" else "false"
  | Vint z => integer z
  | Vlong z => integer z +:+ "L"
  | Vuint z => integer z +:+ "U"
  | Vulong z => integer z +:+ "UL"
  | Vfloat f => floating f +:+ "f"
  | Vdouble f => floating f
  | Vchar c => quoted "'" (String c "")
  | Vstring s => quoted require.double_quote s
  | Vbitset bs => "{" +:+ spaced bs +:+ "}"
  | Vbytearray ba => "y(" +:+ spaced (ulong_of_char <$> ba) +:+ ")"
  | Vlist l => print_container "List (" ")" show l
  | Vset l => print_container "Set {" "}" show l
  | Vmap l => print_container "Map [" "]" (λ kv, show kv.1 +:+ " -> " +:+ show kv.2) l
  | Vstruct l => print_container "Struct [" "]" (λ kv, kv.1 +:+ " := " +:+ show kv.2) l
  end.

End show.
