(* ===== verification/ReadShowSpec.v ===== *)
(** * What is shown can be read back

    The printer of [we/type/value/show.cpp] and the reader of
    [we/type/value/read.cpp] are inverse on values without floating-point
    numbers, except where they are not: the smallest [int] and [long], and
    strings with a quote or a backslash. *)

From S2P Require Import Prelude Value OrderSpec Token Bitset Function Position Num NumSpec ReadShow.

Module ReadShow.
Import NumSpec OrderSpec.

(** ** Running the small parsers on a known text *)

Abbreviation at_ k s := (position.mk k s).

Lemma looking_at_starts f k s : require.looking_at f (at_ k s) = starts f s.
Proof. by destruct s. Qed.

Lemma is_char_refl c : require.is_char c c = true.
Proof. by apply bool_decide_eq_true. Qed.

Lemma require_char_run c k s : require.require_char c (at_ k (String c s)) = (Ret tt, at_ (S k) s).
Proof.
  unfold require.require_char. rewrite looking_at_starts. cbn [starts]. by rewrite is_char_refl.
Qed.

Lemma skip_run c k s : require.skip (at_ k (String c s)) = (Ret tt, at_ (S k) s).
Proof. done. Qed.

Lemma require_string_run w k s :
  require.require_string w (at_ k (w +:+ s)) = (Ret tt, at_ (k + String.length w) s).
Proof.
  revert k. induction w as [|c w IH]; intros k; [by rewrite Nat.add_0_r|].
  cbn [require.require_string]. rewrite looking_at_starts, string_app_cons. cbn [starts].
  rewrite is_char_refl. unfold require.skip. rewrite bind_modify.
  cbn [position.next position.rest position.eaten]. rewrite IH. cbn [String.length].
  do 2 f_equal. lia.
Qed.

Lemma skip_spaces_run k s :
  starts char.isspace s = false → require.skip_spaces (at_ k s) = (Ret tt, at_ k s).
Proof.
  intros Hs. unfold require.skip_spaces, require.skip_while, modify. simpl.
  destruct s as [|c s]; simpl in *; [done|]. by rewrite Hs.
Qed.

Lemma skip_one_space k s :
  starts char.isspace s = false →
  require.skip_spaces (at_ k (String " " s)) = (Ret tt, at_ (S k) s).
Proof.
  intros Hs. unfold require.skip_spaces, require.skip_while, modify. simpl.
  destruct s as [|c s]; simpl in *; [done|]. by rewrite Hs.
Qed.

(** Sequencing with a parser whose run is known. *)
Lemma bind_run {A B} (m : M position.type exn A) (k : A → M position.type exn B) p a p' r :
  m p = (Ret a, p') → k a p' = r → (m ≫= k) p = r.
Proof. intros Hm Hk. unfold mbind, M_bind. by rewrite Hm. Qed.

(** ** Numbers *)

(** Characters that would continue a number. *)
Definition continues (c : ascii) : bool :=
  char.isdigit c || is_x c ||
  existsb (λ d, bool_decide (c = d)) ["l"%char; "L"%char; "u"%char; "U"%char; "f"%char; "F"%char;
                                      "."%char; "e"%char; "E"%char].

Lemma starts_weaken (f g : ascii → bool) s :
  (∀ c, g c = true → f c = true) → starts f s = false → starts g s = false.
Proof.
  intros Hfg. destruct s as [|c s]; simpl; [done|]. specialize (Hfg c).
  destruct (g c); [|done]. by rewrite Hfg.
Qed.

Lemma continues_digit s : starts continues s = false → starts char.isdigit s = false.
Proof. apply starts_weaken. intros c Hc. unfold continues. by rewrite Hc. Qed.
Lemma continues_x s : starts continues s = false → starts is_x s = false.
Proof.
  apply starts_weaken. intros c Hc. unfold continues. by rewrite Hc, orb_true_r.
Qed.

#[local] Open Scope Z_scope.

Definition digit_char (z : Z) : ascii := ascii_of_N (48 + Z.to_N z).

Lemma decimal_digit_spec z :
  0 ≤ z < 10 → char.isdigit (digit_char z) = true ∧ num.digit (digit_char z) = z.
Proof.
  intros Hz.
  assert (Forall (λ z, char.isdigit (digit_char z) = true ∧ num.digit (digit_char z) = z)
    [0; 1; 2; 3; 4; 5; 6; 7; 8; 9]) as Hall by (repeat constructor).
  rewrite Forall_forall in Hall. apply Hall. rewrite !elem_of_cons. lia.
Qed.

Lemma value_snoc a d c :
  value num.dec a (d +:+ String c "") = value num.dec a d * 10 + num.digit c.
Proof.
  revert a. induction d as [|c' d IH]; intros a; [done|].
  rewrite string_app_cons. cbn [value]. apply IH.
Qed.

Lemma digits_spec fuel z acc :
  0 ≤ z < 10 ^ Z.of_nat (S fuel) →
  ∃ d, show.digits fuel z acc = d +:+ acc ∧ d ≠ "" ∧ all_chars char.isdigit d = true ∧
       ∀ a, value num.dec a d = a * 10 ^ Z.of_nat (String.length d) + z.
Proof.
  revert z acc. induction fuel as [|fuel IH]; intros z acc Hz; cbn [show.digits]; fold (digit_char (z mod 10)).
  - change (10 ^ Z.of_nat 1) with 10 in Hz. rewrite Z.mod_small by lia.
    destruct (decimal_digit_spec z Hz) as [Hd Hv].
    exists (String (digit_char z) ""). split_and!; [done|done|cbn [all_chars]; by rewrite Hd|].
    intros a. change (a * 10 + num.digit (digit_char z) = a * 10 + z). by rewrite Hv.
  - destruct (decimal_digit_spec (z mod 10)) as [Hd Hv]; [by apply Z.mod_pos_bound|].
    destruct (Z.ltb_spec z 10).
    + exists (String (digit_char (z mod 10)) ""). split_and!; [done|done|cbn [all_chars]; by rewrite Hd|].
      intros a. change (a * 10 + num.digit (digit_char (z mod 10)) = a * 10 + z).
      by rewrite Hv, Z.mod_small by lia.
    + destruct (IH (z / 10) (String (digit_char (z mod 10)) acc)) as (d & -> & Hne & Hall & Hval).
      { split; [apply Z.div_pos; lia|]. apply Z.div_lt_upper_bound; [lia|].
        rewrite Nat2Z.inj_succ, Z.pow_succ_r in Hz by lia. lia. }
      exists (d +:+ String (digit_char (z mod 10)) "").
      split_and!.
      * by rewrite <- string_app_assoc.
      * by destruct d.
      * rewrite all_chars_app, Hall. cbn [all_chars]. by rewrite Hd.
      * intros a. rewrite string_length_app. cbn [String.length].
        rewrite value_snoc, Hv, Hval, Nat.add_1_r, Nat2Z.inj_succ, Z.pow_succ_r by lia.
        pose proof (Z.div_mod z 10 ltac:(lia)). lia.
Qed.

Lemma natural_spec z :
  0 ≤ z → show.natural z ≠ "" ∧ all_chars char.isdigit (show.natural z) = true ∧
          value num.dec 0 (show.natural z) = z.
Proof.
  intros Hz. unfold show.natural.
  destruct (digits_spec (Z.to_nat (Z.log2 z)) z "") as (d & -> & Hne & Hall & Hval).
  { split; [done|]. rewrite Nat2Z.inj_succ, Z2Nat.id by apply Z.log2_nonneg.
    destruct (decide (z = 0)) as [->|]; [done|].
    apply Z.lt_le_trans with (2 ^ Z.succ (Z.log2 z)); [apply Z.log2_spec; lia|].
    apply Z.pow_le_mono_l. lia. }
  rewrite string_app_nil_r. split_and!; [done|done|]. rewrite Hval. lia.
Qed.

Lemma read_ulong_run z k rest :
  0 ≤ z < 2 ^ 64 → starts char.isdigit rest = false → starts is_x rest = false →
  num.read_ulong (at_ k (show.natural z +:+ rest)) =
    (Ret z, at_ (k + String.length (show.natural z)) rest).
Proof.
  intros Hz Hd Hx. destruct (natural_spec z) as (Hne & Hall & Hval); [lia|].
  pose proof (read_integral_decimal Int.U64 false k _ rest Hne Hall Hd Hx ltac:(done)) as Hr.
  cbn zeta in Hr. rewrite Hval, decide_True in Hr; [done|]. unfold Int.in_range. simpl. lia.
Qed.

Definition head_is (f : ascii → bool) (s : string) : Prop := ∃ c s', s = String c s' ∧ f c = true.

Lemma natural_head z : 0 ≤ z → head_is char.isdigit (show.natural z).
Proof.
  intros Hz. destruct (natural_spec z Hz) as (Hne & Hall & _).
  destruct (show.natural z) as [|c s]; [done|]. simpl in Hall. apply andb_true_iff in Hall as [? _].
  by exists c, s.
Qed.

Lemma head_is_starts f g s rest :
  head_is f s → (∀ c, f c = true → g c = false) → starts g (s +:+ rest) = false.
Proof. intros (c & s' & -> & Hc) Hfg. simpl. by apply Hfg. Qed.

Lemma by_ascii2 (f g : ascii → bool) :
  forallb (λ c, implb (f c) (negb (g c))) (ascii_of_nat <$> seq 0 256) = true →
  ∀ c, f c = true → g c = false.
Proof.
  intros Hall c Hc. pose proof (all_ascii _ Hall c) as Hx. simpl in Hx. rewrite Hc in Hx.
  by apply negb_true_iff.
Qed.

Lemma read_num_run z k rest :
  - 2 ^ 64 < z < 2 ^ 64 → starts char.isdigit rest = false → starts is_x rest = false →
  num.read_num (at_ k (show.integer z +:+ rest)) =
    num.read_num_suffix (z <? 0) (Z.abs z)
      (position.current (at_ 0 rest)) (at_ (k + String.length (show.integer z)) rest).
Proof.
  intros Hz Hd Hx. unfold num.read_num, show.integer. destruct (Z.ltb_spec z 0).
  - rewrite Z.abs_neq by lia. rewrite string_app_cons, string_app_nil_l.
    eapply (bind_run _ _ _ true); [done|]. eapply bind_run; [apply read_ulong_run; [lia|done..]|].
    rewrite bind_get. cbn [String.length]. f_equal. f_equal. simpl. lia.
  - rewrite Z.abs_eq by lia. eapply (bind_run _ _ _ false).
    { unfold num.read_sign. rewrite bind_get, !looking_at_starts.
      rewrite !(head_is_starts char.isdigit) by
        (try (apply natural_head; lia); by apply by_ascii2; vm_compute). done. }
    eapply bind_run; [apply read_ulong_run; [lia|done..]|]. rewrite bind_get. done.
Qed.

Lemma suffix_none neg ul c :
  starts continues (match c with Some c => String c "" | None => "" end) = false →
  num.read_num_suffix neg ul c = (x ← num.cast_integral Int.I32 ul; mret (num.signed neg Int.I32 x)).
Proof. destruct c as [[[] [] [] [] [] [] [] []]|]; done. Qed.

Lemma signed_small I z :
  Int.lo I < 0 → Int.in_range I z → Int.inj I z = num.signed (z <? 0) I (Z.abs z).
Proof.
  intros Hlo Hz. unfold num.signed. destruct (Z.ltb_spec z 0).
  - rewrite Z.abs_neq by lia. f_equal. unfold Int.wrap, Int.in_range in *.
    rewrite Z.opp_involutive, Z.mod_small; lia.
  - by rewrite Z.abs_eq by lia.
Qed.

Lemma cast_integral_run I x p : x < Int.hi I → num.cast_integral I x p = (Ret x, p).
Proof. intros Hx. unfold num.cast_integral. destruct (Z.ltb_spec (Int.hi I - 1) x); [lia|done]. Qed.

Lemma read_int_run z k rest :
  - 2 ^ 31 < z < 2 ^ 31 → starts continues rest = false →
  num.read_num (at_ k (show.integer z +:+ rest)) =
    (Ret (Vint z), at_ (k + String.length (show.integer z)) rest).
Proof.
  intros Hz Hrest. rewrite read_num_run by (try lia; by auto using continues_digit, continues_x).
  rewrite suffix_none by (by destruct rest).
  eapply bind_run; [apply cast_integral_run; simpl; lia|].
  rewrite <- signed_small; [done|done|]. unfold Int.in_range. simpl. lia.
Qed.

Lemma read_long_run z k rest :
  - 2 ^ 63 < z < 2 ^ 63 →
  num.read_num (at_ k ((show.integer z +:+ "L") +:+ rest)) =
    (Ret (Vlong z), at_ (k + String.length (show.integer z +:+ "L")) rest).
Proof.
  intros Hz. rewrite <- string_app_assoc, read_num_run by (done || lia).
  rewrite string_length_app, Nat.add_assoc, Nat.add_1_r.
  eapply (bind_run _ _ _ tt); [done|]. eapply bind_run; [apply cast_integral_run; simpl; lia|].
  rewrite <- signed_small; [done|done|]. unfold Int.in_range. simpl. lia.
Qed.

Lemma read_uint_run z k rest :
  0 ≤ z < 2 ^ 32 → starts continues rest = false →
  num.read_num (at_ k ((show.integer z +:+ "U") +:+ rest)) =
    (Ret (Vuint z), at_ (k + String.length (show.integer z +:+ "U")) rest).
Proof.
  intros Hz Hrest. rewrite <- string_app_assoc, read_num_run by (done || lia).
  rewrite string_length_app, Nat.add_assoc, Nat.add_1_r.
  assert ((z <? 0) = false) as -> by lia. rewrite Z.abs_eq by lia.
  eapply (bind_run _ _ _ tt (at_ _ rest)); [done|]. rewrite bind_get, looking_at_starts.
  rewrite (starts_weaken continues).
  - eapply bind_run; [apply cast_integral_run; simpl; lia|]. done.
  - intros c. unfold continues. simpl. intros [->| ->]%orb_true_iff; by rewrite ?orb_true_r.
  - done.
Qed.

Lemma read_ulong_value_run z k rest :
  0 ≤ z < 2 ^ 64 →
  num.read_num (at_ k ((show.integer z +:+ "UL") +:+ rest)) =
    (Ret (Vulong z), at_ (k + String.length (show.integer z +:+ "UL")) rest).
Proof.
  intros Hz. rewrite <- string_app_assoc, read_num_run by (done || lia).
  rewrite string_length_app, Nat.add_assoc. change (String.length "UL") with 2%nat.
  replace (k + String.length (show.integer z) + 2)%nat
    with (S (S (k + String.length (show.integer z)))) by lia.
  assert ((z <? 0) = false) as -> by lia. rewrite Z.abs_eq by lia.
  by eapply (bind_run _ _ _ tt (at_ _ ("L" +:+ rest))).
Qed.

#[local] Open Scope nat_scope.

(** ** Strings and identifiers *)

Definition plain (q : ascii) (c : ascii) : bool :=
  negb (bool_decide (c = q)) && negb (bool_decide (c = "\"%char)).

Lemma plain_string_run q acc k s rest :
  all_chars (plain q) s = true →
  require.plain_string_from q "\" acc k (s +:+ String q rest) =
    (Ret (acc +:+ s), at_ (k + String.length s + 1) rest).
Proof.
  revert acc k. induction s as [|c s IH]; intros acc k Hs.
  - rewrite string_app_nil_l, string_app_nil_r. cbn [require.plain_string_from].
    rewrite bool_decide_true by done. do 2 f_equal. simpl. lia.
  - cbn [all_chars] in Hs. apply andb_true_iff in Hs as [Hc Hs]. unfold plain in Hc.
    apply andb_true_iff in Hc as [H1%negb_true_iff H2%negb_true_iff].
    rewrite string_app_cons. cbn [require.plain_string_from]. rewrite H1, H2, IH by done.
    rewrite <- string_app_assoc. cbn [String.length]. do 2 f_equal. lia.
Qed.

Definition is_identifier (s : string) : bool :=
  starts require.id_start s && all_chars require.id_char s.

Lemma take_while_run f s rest :
  all_chars f s = true → starts f rest = false → require.take_while f (s +:+ rest) = s.
Proof.
  intros Hs Hr. induction s as [|c s IH].
  - rewrite string_app_nil_l. destruct rest as [|c rest]; cbn in *; [done|]. by rewrite Hr.
  - cbn [all_chars] in Hs. apply andb_true_iff in Hs as [Hc Hs]. rewrite string_app_cons.
    cbn [require.take_while]. by rewrite Hc, IH.
Qed.

Lemma identifier_run s k rest :
  is_identifier s = true → starts require.id_char rest = false →
  require.identifier (at_ k (s +:+ rest)) = (Ret s, at_ (k + String.length s) rest).
Proof.
  intros [Hst Hall]%andb_true_iff Hr. unfold require.identifier. rewrite looking_at_starts.
  assert (starts require.id_start (s +:+ rest) = true) as -> by (by destruct s).
  cbn [position.rest position.eaten]. by rewrite take_while_run, skip_while_app by done.
Qed.

(** ** Sequences of numbers *)
Section numbers.
Context {A : Type} (close : ascii) (push : Z → A → A).
Context (Hclose : continues close = false) (Hspace : char.isspace close = false).

Definition numbers_text (l : list Z) (rest : string) : string :=
  show.spaced l +:+ String close rest.

Lemma numbers_text_head l rest :
  starts char.isdigit (numbers_text l rest) = false ∧ starts is_x (numbers_text l rest) = false.
Proof.
  unfold numbers_text. destruct l as [|z l]; [|done]. cbn [show.spaced].
  rewrite string_app_nil_l. split.
  - apply (continues_digit (String close rest)). done.
  - apply (continues_x (String close rest)). done.
Qed.

Lemma numbers_run l fuel a k rest :
  Forall (λ z, 0 ≤ z < 2 ^ 64)%Z l → length l < fuel →
  (require.skip_spaces ≫= λ _, read.numbers close push fuel a) (at_ k (numbers_text l rest)) =
    (Ret (foldl (λ a z, push z a) a l), at_ (k + String.length (show.spaced l) + 1) rest).
Proof.
  revert fuel a k. induction l as [|z l IH]; intros fuel a k Hl Hfuel;
    (destruct fuel as [|fuel]; [simpl in Hfuel; lia|]).
  - unfold numbers_text. cbn [show.spaced]. rewrite string_app_nil_l.
    eapply bind_run; [by apply skip_spaces_run|]. cbn [read.numbers].
    rewrite bind_get, looking_at_starts. cbn [starts]. rewrite is_char_refl. cbn [negb].
    eapply bind_run; [apply require_char_run|]. cbn. by rewrite Nat.add_0_r, Nat.add_1_r.
  - apply Forall_cons in Hl as [Hz Hl]. simpl in Hfuel.
    destruct (numbers_text_head l rest) as [Hd Hx].
    assert (numbers_text (z :: l) rest = String " " (show.natural z +:+ numbers_text l rest)) as ->.
    { unfold numbers_text. cbn [show.spaced]. by rewrite <- !string_app_assoc. }
    eapply bind_run; [apply skip_one_space|].
    { apply (head_is_starts char.isdigit); [apply natural_head; lia|]. by apply by_ascii2; vm_compute. }
    cbn [read.numbers]. rewrite bind_get, looking_at_starts.
    assert (starts (λ c, negb (require.is_char close c)) (show.natural z +:+ numbers_text l rest) = true)
      as ->.
    { destruct (natural_head z) as (c & s & -> & Hc); [lia|]. cbn [starts]. rewrite string_app_cons.
      cbn [starts]. apply negb_true_iff, bool_decide_eq_false. intros ->. unfold continues in Hclose.
      by rewrite Hc in Hclose. }
    eapply bind_run; [by apply read_ulong_run|].
    rewrite IH by (done || lia). cbn [show.spaced foldl]. do 2 f_equal.
    rewrite !string_length_app. cbn [String.length]. lia.
Qed.

Lemma read_numbers_run l a k rest :
  Forall (λ z, 0 ≤ z < 2 ^ 64)%Z l →
  read.read_numbers close push a (at_ k (numbers_text l rest)) =
    (Ret (foldl (λ a z, push z a) a l), at_ (k + String.length (show.spaced l) + 1) rest).
Proof.
  intros Hl. unfold read.read_numbers.
  assert (∃ k' s', require.skip_spaces (at_ k (numbers_text l rest)) = (Ret tt, at_ k' s') ∧
    length l < S (String.length s')) as (k' & s' & Hskip & Hlen).
  { destruct l as [|z l].
    - unfold numbers_text. cbn [show.spaced]. rewrite string_app_nil_l.
      eexists _, _. split; [by apply skip_spaces_run|]. simpl. lia.
    - exists (S k), (show.natural z +:+ numbers_text l rest). split.
      + assert (numbers_text (z :: l) rest = String " " (show.natural z +:+ numbers_text l rest)) as ->.
        { unfold numbers_text. cbn [show.spaced]. by rewrite <- !string_app_assoc. }
        apply skip_one_space. apply (head_is_starts char.isdigit).
        * apply natural_head. apply Forall_cons in Hl as [? _]. lia.
        * by apply by_ascii2; vm_compute.
      + assert (length l ≤ String.length (numbers_text l rest)).
        { clear. induction l as [|z l IH]; [simpl; lia|]. unfold numbers_text in *. cbn [show.spaced].
          rewrite !string_length_app in *. simpl in *. lia. }
        destruct (natural_head z) as (c & s & Hc & _); [apply Forall_cons in Hl as [? _]; lia|].
        rewrite string_length_app, Hc. simpl. lia. }
  pose proof (numbers_run l (S (String.length s')) a k rest Hl Hlen) as Hrun.
  unfold mbind, M_bind in Hrun |- *. rewrite Hskip in Hrun |- *. exact Hrun.
Qed.
End numbers.

(** ** Containers *)
Section container.
Context {A B : Type} (close : ascii) (f : A → M position.type exn A)
  (pr : B → string) (step : A → B → A).
Context (Hclose : continues close = false) (Hspace : char.isspace close = false)
  (Hsep : close ≠ ","%char).

(** How an element starts. *)
Definition item_start (c : ascii) : bool :=
  negb (char.isspace c) && negb (bool_decide (c = ","%char)) && negb (bool_decide (c = close)).

Definition reads_item (x : B) : Prop :=
  head_is item_start (pr x) ∧
  ∀ a k rest, starts continues rest = false →
    f a (at_ k (pr x +:+ rest)) = (Ret (step a x), at_ (k + String.length (pr x)) rest).

Lemma joined_cons x l rest :
  show.joined pr (x :: l) +:+ String close rest =
  pr x +:+ match l with
           | [] => String close rest
           | _ => String "," (String " " (show.joined pr l +:+ String close rest))
           end.
Proof. destruct l as [|y l]; [done|]. cbn [show.joined]. by rewrite <- !string_app_assoc. Qed.

Lemma joined_head l rest :
  Forall reads_item l → starts char.isspace (show.joined pr l +:+ String close rest) = false.
Proof.
  destruct l as [|x l]; [done|]. intros [[Hh _] _]%Forall_cons. rewrite joined_cons.
  eapply head_is_starts; [done|]. intros c. unfold item_start.
  by destruct (char.isspace c).
Qed.

Lemma list_loop_run l fuel a k rest :
  Forall reads_item l → 2 * length l < fuel →
  require.list_loop "," close f fuel false a (at_ k (show.joined pr l +:+ String close rest)) =
    (Ret (foldl step a l), at_ (k + String.length (show.joined pr l) + 1) rest).
Proof.
  revert fuel a k. induction l as [|x l IH]; intros fuel a k Hl Hfuel.
  - destruct fuel as [|fuel]; [simpl in Hfuel; lia|]. cbn [require.list_loop show.joined].
    rewrite string_app_nil_l, bind_get. cbn [position.current position.rest].
    rewrite bool_decide_true by done. eapply bind_run; [apply skip_run|].
    cbn. by rewrite Nat.add_0_r, Nat.add_1_r.
  - apply Forall_cons in Hl as [[Hh Hx] Hl]. simpl in Hfuel.
    destruct fuel as [|[|fuel]]; [lia..|].
    assert (Hlen : String.length (show.joined pr (x :: l)) =
      String.length (pr x) + match l with [] => 0 | _ => 2 + String.length (show.joined pr l) end).
    { destruct l; cbn [show.joined]; [lia|]. by rewrite !string_length_app. }
    rewrite joined_cons, Hlen. destruct Hh as (c & s & Hc & Hstart).
    cbn [require.list_loop]. rewrite bind_get.
    assert (∀ r, position.current (at_ k (pr x +:+ r)) = Some c) as -> by (intros; by rewrite Hc).
    unfold item_start in Hstart. apply andb_true_iff in Hstart as [Hstart H3].
    apply andb_true_iff in Hstart as [H1 H2].
    apply negb_true_iff in H2 as ->. apply negb_true_iff in H3 as ->.
    eapply bind_run; [apply Hx; destruct l; [done|by vm_compute]|].
    eapply bind_run; [apply skip_spaces_run; destruct l; [done|by vm_compute]|].
    destruct l as [|y l].
    + cbn [foldl]. rewrite bind_get. cbn [position.current position.rest].
      rewrite bool_decide_true by done.
      eapply bind_run; [apply skip_run|]. cbn. do 2 f_equal. lia.
    + rewrite bind_get. cbn [position.current position.rest].
      rewrite bool_decide_false by done.
      eapply bind_run; [apply require_char_run|].
      eapply bind_run; [apply skip_one_space; by apply joined_head|].
      rewrite IH; [|done|cbn [length] in *; lia]. cbn [foldl]. do 2 f_equal. lia.
Qed.

Lemma length_joined l :
  Forall reads_item l → 2 * length l ≤ S (String.length (show.joined pr l)).
Proof.
  induction 1 as [|x l [(c & s & Hc & _) _] _ IH]; [simpl; lia|].
  destruct l as [|y l]; cbn [show.joined]; rewrite ?string_length_app, Hc; simpl in *; lia.
Qed.

Lemma list_run open l a k rest :
  char.isspace open = false → Forall reads_item l →
  require.list_ "," close f open a
    (at_ k (String " " (String open (show.joined pr l +:+ String close rest)))) =
    (Ret (foldl step a l), at_ (k + 2 + String.length (show.joined pr l) + 1) rest).
Proof.
  intros Hopen Hl. unfold require.list_. eapply bind_run; [by apply skip_one_space|].
  eapply bind_run; [apply require_char_run|].
  eapply bind_run; [apply skip_spaces_run; by apply joined_head|].
  rewrite bind_get. cbn [position.rest]. rewrite list_loop_run; [|done|].
  - do 2 f_equal. lia.
  - pose proof (length_joined l Hl). rewrite string_length_app. simpl. lia.
Qed.
End container.

(** ** Values that can be read back *)

#[local] Set Warnings "-register-all".

Inductive readable : value_type → Prop :=
| readable_control : readable Vcontrol
| readable_bool b : readable (Vbool b)
| readable_int z : (- 2 ^ 31 < z < 2 ^ 31)%Z → readable (Vint z)
| readable_long z : (- 2 ^ 63 < z < 2 ^ 63)%Z → readable (Vlong z)
| readable_uint z : (0 ≤ z < 2 ^ 32)%Z → readable (Vuint z)
| readable_ulong z : (0 ≤ z < 2 ^ 64)%Z → readable (Vulong z)
| readable_char c : readable (Vchar c)
| readable_string s : all_chars (plain require.double_quote) s = true → readable (Vstring s)
| readable_bitset bs : Forall (λ z, 0 ≤ z < 2 ^ 64)%Z bs → readable (Vbitset bs)
| readable_bytearray ba : readable (Vbytearray ba)
| readable_list l : Forall readable l → readable (Vlist l)
| readable_set l : Forall readable l → StronglySorted lt_value l → readable (Vset l)
| readable_map l : Forall (λ kv, readable kv.1 ∧ readable kv.2) l →
    StronglySorted (λ x y, lt_value x.1 y.1) l → readable (Vmap l)
| readable_struct l : Forall (λ kv, is_identifier kv.1 = true ∧ readable kv.2) l →
    readable (Vstruct l).

(** How a shown value starts: neither with a space nor with a separator. *)
Definition value_start (c : ascii) : bool :=
  negb (char.isspace c) && negb (existsb (λ d, bool_decide (c = d)) [","%char; ")"%char; "]"%char; "}"%char]).

Lemma integer_head z : head_is (λ c, char.isdigit c || bool_decide (c = "-"%char)) (show.integer z).
Proof.
  unfold show.integer. destruct (Z.ltb_spec z 0).
  - by exists "-"%char, (show.natural (- z)).
  - destruct (natural_head z) as (c & s & -> & Hc); [done|]. exists c, s. by rewrite Hc.
Qed.

Lemma head_is_impl (f g : ascii → bool) s :
  head_is f s → (∀ c, f c = true → g c = true) → head_is g s.
Proof. intros (c & s' & -> & Hc) Hfg. exists c, s'. auto. Qed.

Lemma head_is_app f s t : head_is f s → head_is f (s +:+ t).
Proof. intros (c & s' & -> & Hc). by exists c, (s' +:+ t). Qed.

Lemma by_ascii (f g : ascii → bool) :
  forallb (λ c, implb (f c) (g c)) (ascii_of_nat <$> seq 0 256) = true →
  ∀ c, f c = true → g c = true.
Proof.
  intros Hall c Hc. pose proof (all_ascii _ Hall c) as Hx. simpl in Hx. by rewrite Hc in Hx.
Qed.

Lemma show_head v : readable v → head_is value_start (show.show v).
Proof.
  assert (∀ z, head_is value_start (show.integer z)) as Hint.
  { intros z. eapply head_is_impl; [apply integer_head|]. by apply by_ascii; vm_compute. }
  destruct 1; cbn [show.show]; try (by eexists _, _); auto using head_is_app.
  destruct b; by eexists _, _.
Qed.

(** ** The round trip *)

(** What has to be shown of each value; the length of its text is enough fuel. *)
Definition reads_back (v : value_type) : Prop :=
  ∀ fuel k rest, String.length (show.show v) ≤ fuel → starts continues rest = false →
    read.read_value fuel (at_ k (show.show v +:+ rest)) =
      (Ret v, at_ (k + String.length (show.show v)) rest).

(** The text starts with a known character. *)
Lemma reads_back_dispatch v c s :
  show.show v = String c s → char.isspace c = false →
  (∀ fuel k rest, String.length (show.show v) ≤ S fuel → starts continues rest = false →
     read.read_dispatch (read.read_value fuel) (Some c) (at_ k (String c (s +:+ rest))) =
       (Ret v, at_ (k + S (String.length s)) rest)) →
  reads_back v.
Proof.
  intros Hs Hc Hd fuel k rest Hfuel Hrest. destruct fuel as [|fuel]; [by rewrite Hs in Hfuel; simpl in Hfuel; lia|].
  cbn [read.read_value]. rewrite Hs, string_app_cons.
  eapply bind_run; [by apply skip_spaces_run|]. rewrite bind_get.
  cbn [position.current position.rest]. cbn [String.length]. by apply Hd.
Qed.

Lemma dispatch_number rd c :
  char.isdigit c || bool_decide (c = "-"%char) = true → read.read_dispatch rd (Some c) = num.read_num.
Proof. destruct c as [[] [] [] [] [] [] [] []]; done. Qed.

(** Numbers: the text is the integer and a suffix. *)
Lemma reads_back_number v z suffix :
  show.show v = show.integer z +:+ suffix →
  (∀ k rest, starts continues rest = false →
     num.read_num (at_ k ((show.integer z +:+ suffix) +:+ rest)) =
       (Ret v, at_ (k + String.length (show.integer z +:+ suffix)) rest)) →
  reads_back v.
Proof.
  intros Hs Hread. destruct (integer_head z) as (c & s & Hz & Hc).
  rewrite Hz in Hs. rewrite Hz in Hread. rewrite string_app_cons in *.
  eapply reads_back_dispatch; [done| |].
  - revert c Hc Hs Hread Hz. intros c Hc _ _ _. revert c Hc. apply by_ascii2. by vm_compute.
  - intros fuel k rest _ Hrest. rewrite dispatch_number by done. by rewrite <- Hread.
Qed.

Lemma length_elem {B} (pr : B → string) (l : list B) x :
  x ∈ l → String.length (pr x) ≤ String.length (show.joined pr l).
Proof.
  induction l as [|y l IH]; [by intros ?%not_elem_of_nil|].
  destruct l as [|z l]; [by intros ->%list_elem_of_singleton|].
  assert (show.joined pr (y :: z :: l) = pr y +:+ ", " +:+ show.joined pr (z :: l)) as -> by done.
  rewrite !string_length_app. intros [->|Hx%IH]%elem_of_cons; lia.
Qed.

Lemma value_item_start close c :
  close = ")"%char ∨ close = "]"%char ∨ close = "}"%char →
  value_start c = true → item_start close c = true.
Proof.
  intros Hclose. revert c. destruct Hclose as [->|[->| ->]]; apply by_ascii; by vm_compute.
Qed.

(** Folding the items gives the container back. *)
Lemma fold_list (l : list value_type) : ∀ acc, foldl (λ l v, l ++ [v]) acc l = acc ++ l.
Proof.
  induction l as [|v l IH]; intros acc; simpl; [by rewrite app_nil_r|]. by rewrite IH, <- app_assoc.
Qed.
Lemma fold_struct (l : structured_type) : ∀ acc, foldl (λ m kv, m ++ [(kv.1, kv.2)]) acc l = acc ++ l.
Proof.
  induction l as [|[k v] l IH]; intros acc; simpl; [by rewrite app_nil_r|].
  by rewrite IH, <- app_assoc.
Qed.
Lemma fold_set l acc :
  StronglySorted lt_value (acc ++ l) → foldl (λ s v, Order.set_insert v s) acc l = acc ++ l.
Proof.
  revert acc. induction l as [|v l IH]; intros acc Hs; simpl; [by rewrite app_nil_r|].
  rewrite set_insert_last.
  - rewrite IH; by rewrite <- app_assoc.
  - apply Forall_forall. intros y Hy. eapply StronglySorted_app_1_elem_of; [done..|by left].
Qed.
Lemma fold_map l acc :
  StronglySorted (λ x y, lt_value x.1 y.1) (acc ++ l) →
  foldl (λ m kv, Order.map_assign kv.1 kv.2 m) acc l = acc ++ l.
Proof.
  revert acc. induction l as [|[k v] l IH]; intros acc Hs; simpl; [by rewrite app_nil_r|].
  rewrite map_assign_last.
  - rewrite IH; by rewrite <- app_assoc.
  - apply Forall_forall. intros y Hy.
    by apply (StronglySorted_app_1_elem_of (λ x y, lt_value x.1 y.1) acc ((k, v) :: l) y (k, v));
      [done|done|left].
Qed.
Lemma fold_bytes (l : list ascii) acc :
  foldl (λ a z, read.push_byte z a) acc (show.ulong_of_char <$> l) = acc ++ l.
Proof.
  assert (∀ c, ascii_of_N (Z.to_N (show.ulong_of_char c `mod` 256)) = c) as Hc.
  { intros c. apply (bool_decide_eq_true_1 _). revert c. apply all_ascii. by vm_compute. }
  revert acc. induction l as [|c l IH]; intros acc; simpl; [by rewrite app_nil_r|].
  unfold read.push_byte at 2. by rewrite IH, Hc, <- app_assoc.
Qed.
Lemma fold_blocks (l : list Z) acc : foldl (λ a z, bitsetofint.push_back z a) acc l = acc ++ l.
Proof.
  revert acc. induction l as [|z l IH]; intros acc; simpl; [by rewrite app_nil_r|].
  unfold bitsetofint.push_back at 2. by rewrite IH, <- app_assoc.
Qed.

(** Containers: ["Name (" elements ")"]. *)
Lemma reads_back_container {A B} (v : value_type) (name : string) (n : ascii) (open close : ascii)
    (f : M position.type exn value_type → A → M position.type exn A)
    (pr : B → string) (step : A → B → A) (a : A) (con : A → value_type) (l : list B) :
  show.show v = String n name +:+ String " " (String open (show.joined pr l +:+ String close "")) →
  char.isspace n = false → char.isspace open = false →
  continues close = false → char.isspace close = false → close ≠ ","%char →
  (∀ fuel, String.length (show.joined pr l) ≤ fuel →
     Forall (reads_item close (f (read.read_value fuel)) pr step) l) →
  (∀ rd k s, read.read_dispatch rd (Some n) (at_ k (String n (name +:+ s))) =
     (x ← require.list_ "," close (f rd) open a; mret (con x)) (at_ (k + S (String.length name)) s)) →
  con (foldl step a l) = v →
  reads_back v.
Proof.
  intros Hs Hn Hopen Hc1 Hc2 Hc3 Hitems Hdisp Hcon.
  eapply reads_back_dispatch; [by rewrite Hs, string_app_cons|done|].
  intros fuel k rest Hfuel Hrest.
  assert (∀ r, (name +:+ String " " (String open (show.joined pr l +:+ String close ""))) +:+ r =
    name +:+ String " " (String open (show.joined pr l +:+ String close r))) as ->.
  { intros r. rewrite <- string_app_assoc, !string_app_cons, <- string_app_assoc. done. }
  rewrite Hdisp. eapply bind_run.
  - apply (list_run close _ pr step Hc1 Hc2 Hc3); [done|]. apply Hitems.
    rewrite Hs in Hfuel. rewrite !string_length_app in Hfuel. simpl in Hfuel.
    rewrite string_length_app in Hfuel. simpl in Hfuel. lia.
  - rewrite Hcon. rewrite string_length_app. simpl. rewrite string_length_app. simpl.
    unfold mret, M_ret. do 2 f_equal. lia.
Qed.

Lemma dispatch_list rd k s :
  read.read_dispatch rd (Some "L"%char) (at_ k (String "L" ("ist" +:+ s))) =
  (x ← require.list_ "," ")" (read.list_item rd) "(" []; mret (Vlist x)) (at_ (k + 4) s).
Proof.
  unfold read.read_dispatch. eapply bind_run; [apply skip_run|].
  eapply bind_run; [apply require_string_run|]. do 2 f_equal. simpl. lia.
Qed.
Lemma dispatch_map rd k s :
  read.read_dispatch rd (Some "M"%char) (at_ k (String "M" ("ap" +:+ s))) =
  (x ← require.list_ "," "]" (read.map_item rd) "[" []; mret (Vmap x)) (at_ (k + 3) s).
Proof.
  unfold read.read_dispatch. eapply bind_run; [apply skip_run|].
  eapply bind_run; [apply require_string_run|]. do 2 f_equal. simpl. lia.
Qed.
Lemma dispatch_set rd k s :
  read.read_dispatch rd (Some "S"%char) (at_ k (String "S" ("et" +:+ s))) =
  (x ← require.list_ "," "}" (read.set_item rd) "{" []; mret (Vset x)) (at_ (k + 3) s).
Proof.
  unfold read.read_dispatch. eapply bind_run; [apply skip_run|]. rewrite bind_get.
  eapply (bind_run _ _ _ tt (at_ (S (S k)) ("t" +:+ s))); [done|].
  eapply (bind_run _ _ _ tt (at_ (S (S (S k))) s)); [done|]. do 2 f_equal. lia.
Qed.
Lemma dispatch_struct rd k s :
  read.read_dispatch rd (Some "S"%char) (at_ k (String "S" ("truct" +:+ s))) =
  (x ← require.list_ "," "]" (read.struct_item rd) "[" []; mret (Vstruct x)) (at_ (k + 6) s).
Proof.
  unfold read.read_dispatch. eapply bind_run; [apply skip_run|]. rewrite bind_get.
  eapply (bind_run _ _ _ tt (at_ (S (S k)) ("ruct" +:+ s))); [done|].
  eapply bind_run; [apply require_string_run|]. do 2 f_equal. simpl. lia.
Qed.

(** The elements of the containers. *)
Lemma value_item close (f : M position.type exn value_type → list value_type → _)
    (add : list value_type → value_type → list value_type) l fuel :
  close = ")"%char ∨ close = "]"%char ∨ close = "}"%char →
  (∀ rd a, f rd a = (v ← rd; mret (add a v))) →
  Forall readable l → Forall reads_back l → String.length (show.joined show.show l) ≤ fuel →
  Forall (reads_item close (f (read.read_value fuel)) show.show add) l.
Proof.
  intros Hclose Hf Hr Hb Hfuel. rewrite Forall_forall in *. intros v Hv. split.
  - eapply head_is_impl; [apply show_head, Hr, Hv|]. intros c. by apply value_item_start.
  - intros a k rest Hrest. rewrite Hf. eapply bind_run; [apply Hb; [done| |done]|done].
    pose proof (length_elem show.show l v Hv). lia.
Qed.

(** A space before a value does not matter. *)
Lemma read_after_space v fuel k rest :
  readable v → String.length (show.show v) ≤ fuel →
  read.read_value fuel (at_ k (" " +:+ show.show v +:+ rest)) =
  read.read_value fuel (at_ (S k) (show.show v +:+ rest)).
Proof.
  intros Hv Hlen. destruct (show_head v Hv) as (c & s & Hs & Hc).
  destruct fuel as [|fuel]; [rewrite Hs in Hlen; simpl in Hlen; lia|]. cbn [read.read_value].
  assert (starts char.isspace (show.show v +:+ rest) = false) as Hst.
  { eapply head_is_starts; [by apply show_head|]. by apply by_ascii2; vm_compute. }
  unfold mbind, M_bind. by rewrite (skip_one_space _ _ Hst), (skip_spaces_run _ _ Hst).
Qed.

Lemma map_item_reads l fuel :
  let pr := (λ kv : value_type * value_type, show.show kv.1 +:+ " -> " +:+ show.show kv.2) in
  Forall (λ kv, readable kv.1 ∧ readable kv.2) l →
  Forall (λ kv, reads_back kv.1 ∧ reads_back kv.2) l → String.length (show.joined pr l) ≤ fuel →
  Forall (reads_item "]" (read.map_item (read.read_value fuel)) pr
            (λ m kv, Order.map_assign kv.1 kv.2 m)) l.
Proof.
  intros pr Hr Hb Hfuel. rewrite Forall_forall in *. intros [key v] Hkv.
  destruct (Hr _ Hkv) as [Hrk Hrv], (Hb _ Hkv) as [Hbk Hbv]. simpl in *.
  pose proof (length_elem pr l (key, v) Hkv) as Hlen. unfold pr in Hlen, Hfuel. simpl in Hlen.
  rewrite !string_length_app in Hlen. split.
  - apply head_is_app. eapply head_is_impl; [by apply show_head|].
    intros c. apply value_item_start. auto.
  - intros a k rest Hrest. unfold pr. simpl. rewrite <- !string_app_assoc. unfold read.map_item.
    eapply bind_run; [apply Hbk; [lia|done]|].
    eapply bind_run.
    { apply (skip_one_space _ ("-> " +:+ show.show v +:+ rest)). done. }
    eapply bind_run; [apply (require_string_run "->" _ (" " +:+ show.show v +:+ rest))|].
    eapply bind_run; [rewrite read_after_space by (done || lia); apply Hbv; [lia|done]|].
    unfold mret, M_ret. do 2 f_equal. rewrite !string_length_app. simpl. lia.
Qed.

Lemma struct_item_reads l fuel :
  let pr := (λ kv : string * value_type, kv.1 +:+ " := " +:+ show.show kv.2) in
  Forall (λ kv, is_identifier kv.1 = true ∧ readable kv.2) l →
  Forall (λ kv, reads_back kv.2) l → String.length (show.joined pr l) ≤ fuel →
  Forall (reads_item "]" (read.struct_item (read.read_value fuel)) pr
            (λ m kv, m ++ [(kv.1, kv.2)])) l.
Proof.
  intros pr Hr Hb Hfuel. rewrite Forall_forall in *. intros [key v] Hkv.
  destruct (Hr _ Hkv) as [Hrk Hrv]. pose proof (Hb _ Hkv) as Hbv. simpl in *.
  pose proof (length_elem pr l (key, v) Hkv) as Hlen. unfold pr in Hlen, Hfuel. simpl in Hlen.
  rewrite !string_length_app in Hlen.
  assert (head_is require.id_start key) as Hkey.
  { unfold is_identifier in Hrk. destruct key as [|c key]; [done|]. exists c, key.
    by apply andb_true_iff in Hrk as [? _]. }
  split.
  - apply head_is_app. eapply head_is_impl; [done|]. by apply by_ascii; vm_compute.
  - intros a k rest Hrest. unfold pr. simpl. rewrite <- !string_app_assoc. unfold read.struct_item.
    eapply bind_run.
    { apply skip_spaces_run. eapply head_is_starts; [done|]. by apply by_ascii2; vm_compute. }
    eapply bind_run; [by apply identifier_run|].
    eapply bind_run.
    { apply (skip_one_space _ (":= " +:+ show.show v +:+ rest)). done. }
    eapply bind_run; [apply (require_string_run ":=" _ (" " +:+ show.show v +:+ rest))|].
    eapply bind_run; [rewrite read_after_space by (done || lia); apply Hbv; [lia|done]|].
    unfold mret, M_ret. do 2 f_equal. rewrite !string_length_app. simpl. lia.
Qed.

Lemma readable_reads_back v : readable v → reads_back v.
Proof.
  induction v as [|b|z|z|z|z|f|f|c|s|bs|ba|l IH|l IH|l IH|l IH] using value_type_ind';
    intros Hv; inversion Hv as [| | | | | | | | | |? Hl|? Hl Hsort|? Hl Hsort|? Hl]; subst.
  - eapply (reads_back_dispatch _ "["%char); [done..|]. intros fuel k rest _ _.
    eapply bind_run; [apply skip_run|]. eapply bind_run; [apply require_char_run|].
    unfold mret, M_ret. do 2 f_equal. simpl. lia.
  - destruct b.
    + eapply (reads_back_dispatch _ "t"%char); [done..|]. intros fuel k rest _ _.
      eapply bind_run; [apply skip_run|]. eapply bind_run; [apply require_string_run|].
      unfold mret, M_ret. do 2 f_equal. simpl. lia.
    + eapply (reads_back_dispatch _ "f"%char); [done..|]. intros fuel k rest _ _.
      eapply bind_run; [apply skip_run|]. eapply bind_run; [apply require_string_run|].
      unfold mret, M_ret. do 2 f_equal. simpl. lia.
  - apply (reads_back_number _ z ""); [by rewrite string_app_nil_r|].
    intros k rest Hrest. rewrite string_app_nil_r. by apply read_int_run.
  - apply (reads_back_number _ z "L"); [done|]. intros k rest _. by apply read_long_run.
  - apply (reads_back_number _ z "U"); [done|]. intros k rest Hrest. by apply read_uint_run.
  - apply (reads_back_number _ z "UL"); [done|]. intros k rest _. by apply read_ulong_value_run.
  - eapply (reads_back_dispatch _ "'"%char); [done..|]. intros fuel k rest _ _.
    eapply bind_run; [apply skip_run|]. eapply (bind_run _ _ _ c (at_ (S (S k)) ("'" +:+ rest))); [done|].
    eapply bind_run; [apply require_char_run|]. unfold mret, M_ret. do 2 f_equal. simpl. lia.
  - eapply (reads_back_dispatch _ "034"%char); [done..|]. intros fuel k rest _ _.
    eapply bind_run; [apply skip_run|].
    eapply bind_run.
    { unfold require.plain_string. cbn [position.eaten position.rest]. rewrite <- string_app_assoc.
      by apply plain_string_run. }
    unfold mret, M_ret. rewrite string_app_nil_l, string_length_app. do 2 f_equal. simpl. lia.
  - eapply (reads_back_dispatch _ "{"%char); [done..|]. intros fuel k rest _ _.
    eapply bind_run; [apply skip_run|]. rewrite <- string_app_assoc.
    eapply bind_run; [by apply (read_numbers_run "}")|]. rewrite fold_blocks. unfold mret, M_ret.
    rewrite string_length_app. do 2 f_equal. simpl. lia.
  - eapply (reads_back_dispatch _ "y"%char); [done..|]. intros fuel k rest _ _.
    eapply bind_run; [apply skip_run|].
    eapply (bind_run _ _ _ tt (at_ (S (S k)) ((show.spaced (show.ulong_of_char <$> ba) +:+ ")") +:+ rest))); [done|].
    rewrite <- string_app_assoc.
    eapply bind_run.
    { apply (read_numbers_run ")"); [done|done|]. apply Forall_fmap, Forall_true. intros c.
      apply w64_range. }
    rewrite fold_bytes. unfold mret, M_ret. do 2 f_equal. simpl. rewrite string_length_app. simpl. lia.
  - apply (reads_back_container _ "ist" "L" "(" ")" read.list_item show.show (λ l v, l ++ [v]) [] Vlist l);
      try done.
    + intros fuel Hfuel. apply value_item; auto.
      rewrite Forall_forall in *. intros. by apply IH, Hl.
    + intros. apply dispatch_list.
    + by rewrite fold_list.
  - apply (reads_back_container _ "et" "S" "{" "}" read.set_item show.show
      (λ s v, Order.set_insert v s) [] Vset l); try done.
    + intros fuel Hfuel. apply value_item; auto.
      rewrite Forall_forall in *. intros. by apply IH, Hl.
    + intros. apply dispatch_set.
    + by rewrite fold_set.
  - apply (reads_back_container _ "ap" "M" "[" "]" read.map_item
      (λ kv, show.show kv.1 +:+ " -> " +:+ show.show kv.2) (λ m kv, Order.map_assign kv.1 kv.2 m)
      [] Vmap l); try done.
    + intros fuel Hfuel. apply map_item_reads; [done| |done].
      rewrite Forall_forall in *. intros kv Hkv. destruct (IH _ Hkv), (Hl _ Hkv). auto.
    + intros. apply dispatch_map.
    + by rewrite fold_map.
  - apply (reads_back_container _ "truct" "S" "[" "]" read.struct_item
      (λ kv, kv.1 +:+ " := " +:+ show.show kv.2) (λ m kv, m ++ [(kv.1, kv.2)])
      [] Vstruct l); try done.
    + intros fuel Hfuel. apply struct_item_reads; [done| |done].
      rewrite Forall_forall in *. intros kv Hkv. apply IH, Hl; done.
    + intros. apply dispatch_struct.
    + by rewrite fold_struct.
Qed.

(** C28: Reading what was shown gives the value back, for every value without
    floating-point numbers, smallest [int] or [long], strings with quotes or
    backslashes, and fields of structures whose names are not identifiers, with integers
    in the range of their types and sets and maps in order, whatever text follows that
    does not continue a number ([continues]); exactly the text of the value is consumed. *)
Theorem read_show v rest :
  readable v → starts continues rest = false →
  read.read (position.make (show.show v +:+ rest)) =
    (Ret v, position.mk (String.length (show.show v)) rest).
Proof.
  intros Hv Hrest. unfold read.read. rewrite bind_get.
  apply (readable_reads_back v Hv _ 0 rest); [|done].
  unfold position.make. cbn [position.rest]. rewrite string_length_app. lia.
Qed.

Lemma read_show_witness :
  let v := Vstruct [("a", Vlist [Vint (-5); Vlong 7; Vbool true]); ("b", Vset [Vstring "x"; Vstring "y"])] in
  read.read (position.make (show.show v +:+ ";")) = (Ret v, position.mk (String.length (show.show v)) ";").
Proof.
  intros v. apply (read_show v ";"); [|reflexivity].
  repeat (constructor; try reflexivity).
Defined.

(** The boundary of the round trip: the smallest [int] and [long] and a
    string with a quote are shown as texts that are not read back. *)
Theorem read_show_fails :
  read.read_string (show.show (Vint (- 2 ^ 31))) = Throw (parse_error "value too big" 11) ∧
  read.read_string (show.show (Vlong (- 2 ^ 63))) = Throw (parse_error "value too big" 21) ∧
  read.read_string (show.show (Vstring (String "a" (String require.double_quote "b")))) =
    Ret (Vstring "a").
Proof. split_and!; vm_compute; reflexivity. Qed.

End ReadShow.
