(* ===== verification/Tokenizer.v ===== *)
(** * The tokenizer of the expression language

    [we/expr/token/tokenizer.cpp]. *)

From Stdlib Require Import SpecFloat.
From S2P Require Import Prelude Value Token Function Position Num ReadShow.

Module tokenizer.

(** ** What the keys of the language do *)
Inductive action : Type :=
| notne
| identifier
| mulpow
| or_boolean_integral
| and_boolean_integral
| negsub
| divcomment
| cmp (t e : token.type)
| set_token (t : token.type)
| set_value (v : value_type)
| unary (t : token.type) (descr : string).

(** [node_type]: a tree of characters, [std::map<char, ...>] as its sequence
    of entries *)
#[warnings="-register-all"]
Inductive node_type : Type :=
| children (m : list (ascii * node_type))
| leaf (f : action).
Abbreviation child_type := (list (ascii * node_type)).

Definition char_lt (c d : ascii) : bool := (Order.signed_char c <? Order.signed_char d)%Z.

Fixpoint find_child (c : ascii) (m : child_type) : option node_type :=
  match m with
  | [] => None
  | (d, n) :: m => if bool_decide (c = d) then Some n else find_child c m
  end.

(** [m.insert], or the replacement of a subtree that was changed in place *)
Fixpoint set_child (c : ascii) (n : node_type) (m : child_type) : child_type :=
  match m with
  | [] => [(c, n)]
  | (d, n') :: m' =>
      if bool_decide (c = d) then (c, n) :: m'
      else if char_lt c d then (c, n) :: m
      else (d, n') :: set_child c n m'
  end.

(** [put] *)
Fixpoint put (key : string) (f : action) (m : child_type) : outcome exn child_type :=
  match key with
  | "" => Throw (runtime_error "Upps, action with empty key!?")
  | String c "" =>
      match find_child c m with
      | Some _ => Throw (runtime_error "Upps, doubled action(-path)!? ")
      | None => Ret (set_child c (leaf f) m)
      end
  | String c key =>
      match find_child c m with
      | None => m' ← put key f []; Ret (set_child c (children m') m)
      | Some (children m0) => m' ← put key f m0; Ret (set_child c (children m') m)
      | Some (leaf _) => Throw bad_get
      end
  end.

(** [2.7182818284590452354] and [3.14159265358979323846] as doubles *)
Definition const_e : spec_float := S754_finite false 6121026514868073 (-51).
Definition const_pi : spec_float := S754_finite false 7074237752028440 (-51).

(** The entries of [create_description], in order. *)
Definition entries : list (string * action) :=
  [("!", notne); ("${", identifier); ("*", mulpow); ("|", or_boolean_integral);
   ("&", and_boolean_integral); ("-", negsub); ("/", divcomment);
   ("<", cmp token.lt token.le); (">", cmp token.gt token.ge);
   ("%", set_token token.modint); ("(", set_token token.lpr); (")", set_token token.rpr);
   ("+", set_token token.add); (",", set_token token.sep); (":=", set_token token.define);
   (":and:", set_token token._and_boolean); (":eq:", set_token token.eq);
   (":ge:", set_token token.ge); (":gt:", set_token token.gt); (":le:", set_token token.le);
   (":lt:", set_token token.lt); (":ne:", set_token token.ne);
   (":or:", set_token token._or_boolean); ("==", set_token token.eq);
   ("^", set_token token._powint); ("div", set_token token.divint);
   ("int", set_token token._toint); ("long", set_token token._tolong);
   ("uint", set_token token._touint); ("ulong", set_token token._toulong);
   ("float", set_token token._tofloat); ("double", set_token token._todouble);
   ("max", set_token token.max); ("min", set_token token.min); ("mod", set_token token.modint);
   ("round", set_token token._round);
   ("map_assign", set_token token._map_assign);
   ("map_get_assignment", set_token token._map_get_assignment);
   ("map_is_assigned", set_token token._map_is_assigned);
   ("map_unassign", set_token token._map_unassign);
   ("map_empty", unary token._map_empty "map_empty");
   ("map_size", unary token._map_size "map_size");
   ("e", set_value (Vdouble const_e)); ("pi", set_value (Vdouble const_pi));
   ("false", set_value (Vbool false)); ("true", set_value (Vbool true));
   ("abs", unary token.abs "abs"); ("ceil", unary token._ceil "ceil");
   ("cos", unary token._cos "cos"); ("floor", unary token._floor "floor");
   ("log", unary token._log "log"); ("sin", unary token._sin "sin");
   ("sqrt", unary token._sqrt "sqrt");
   ("bitset_and", set_token token._bitset_and); ("bitset_count", set_token token._bitset_count);
   ("bitset_delete", set_token token._bitset_delete);
   ("bitset_insert", set_token token._bitset_insert);
   ("bitset_is_element", set_token token._bitset_is_element);
   ("bitset_or", set_token token._bitset_or); ("bitset_xor", set_token token._bitset_xor);
   ("bitset_fromhex", unary token._bitset_fromhex "bitset_fromhex");
   ("bitset_tohex", unary token._bitset_tohex "bitset_tohex");
   ("set_insert", set_token token._set_insert); ("set_erase", set_token token._set_erase);
   ("set_is_element", set_token token._set_is_element);
   ("set_is_subset", set_token token._set_is_subset);
   ("set_empty", unary token._set_empty "set_empty"); ("set_pop", unary token._set_pop "set_pop");
   ("set_size", unary token._set_size "set_size"); ("set_top", unary token._set_top "set_top");
   ("stack_join", set_token token._stack_join); ("stack_push", set_token token._stack_push);
   ("stack_empty", unary token._stack_empty "stack_empty");
   ("stack_pop", unary token._stack_pop "stack_pop");
   ("stack_size", unary token._stack_size "stack_size");
   ("stack_top", unary token._stack_top "stack_top")].

Definition create_description : outcome exn child_type :=
  foldl (λ m e, m ≫= put e.1 e.2) (Ret []) entries.

(** The static tree; building it does not throw (see [description_builds]). *)
Definition description : child_type :=
  Eval vm_compute in match create_description with Ret m => m | Throw _ => [] end.

Lemma description_builds : create_description = Ret description.
Proof. vm_compute. reflexivity. Qed.

(** ** The tokenizer ([tokenizer.hpp]) *)
Record type : Type := mk {
  pos : position.type;
  current : token.type;
  tokval : value_type;
  ref : list string
}.

Definition make (p : position.type) : type := mk p token.eof Vcontrol [].

Abbreviation T A := (M type exn A).

Definition on_pos {A} (m : M position.type exn A) : T A :=
  λ t, let '(r, p) := m (pos t) in (r, mk p (current t) (tokval t) (ref t)).
Definition do_set_token (tok : token.type) : T unit :=
  modify (λ t, mk (pos t) tok (tokval t) (ref t)).
Definition do_set_value (v : value_type) : T unit :=
  modify (λ t, mk (pos t) token.val v (ref t)).

(** [is_eof] *)
Definition is_eof (p : position.type) : bool :=
  position.at_end p || require.looking_at (require.is_char ";") p.

(** [!is_eof () && *_pos == c] *)
Definition next_is (c : ascii) (t : type) : bool :=
  negb (is_eof (pos t)) && require.looking_at (require.is_char c) (pos t).

Definition either (c : ascii) (if_next otherwise : T unit) : T unit :=
  get ≫= λ t : type,
  if next_is c t then on_pos require.skip ≫= λ _, if_next else otherwise.

(** The exceptions of [we/expr/exception.cpp].  The position reported by
    [misplaced] is computed in [std::size_t]. *)
Definition expected {A} (what : string) : T A :=
  λ t, (Throw (expr_parse_error "expected" ("expected one of: " +:+ what)
                 (Z.of_nat (position.eaten (pos t)))), t).
Definition misplaced {A} (what : string) : T A :=
  λ t, (Throw (expr_parse_error "misplaced" ("misplaced " +:+ what +:+ ", operator expected")
                 (w64 (Z.of_nat (position.eaten (pos t)) - Z.of_nat (String.length what)))), t).
Definition unterminated (what : string) (opened : Z) (k : nat) : exn :=
  expr_parse_error "unterminated"
    ("unterminated " +:+ what +:+ ", opened at: " +:+ show.natural opened) (Z.of_nat k).

(** [unary] *)
Definition do_unary (tok : token.type) (descr : string) : T unit :=
  get ≫= λ t : type,
  if token.next_can_be_unary (current t) then do_set_token tok else misplaced descr.

(** [identifier]: every iteration reads at least one character *)
Fixpoint identifier_loop (fuel : nat) : T unit :=
  match fuel with
  | O => throw out_of_fuel
  | S fuel =>
      id ← on_pos require.identifier;
      modify (λ t, mk (pos t) (current t) (tokval t) (ref t ++ [id])) ≫= λ _,
      get ≫= λ t : type,
      if position.at_end (pos t) then expected "'.' or '}'"
      else
        (if require.looking_at (require.is_char ".") (pos t) then on_pos require.skip
         else mret tt) ≫= λ _,
        get ≫= λ t : type,
        if require.looking_at (λ c, negb (require.is_char "}" c)) (pos t)
        then identifier_loop fuel else mret tt
  end.
Definition do_identifier : T unit :=
  modify (λ t, mk (pos t) token.ref (tokval t) []) ≫= λ _,
  get ≫= λ t : type,
  identifier_loop (S (String.length (position.rest (pos t)))) ≫= λ _,
  on_pos (require.require_char "}").

(** [skip_comment]: comments nest; [open] is where the innermost comment
    opened and [outer] are the ones around it, the callers *)
Fixpoint skip_comment (open : nat) (outer : list nat) (k : nat) (s : string) :
    outcome exn unit * position.type :=
  let stop k := (Throw (unterminated "comment" (Z.of_nat open - 2) k), position.mk k "") in
  match s with
  | "" => stop k
  | String c s' =>
      match s' with
      | "" => stop (S k)
      | String c' s'' =>
          if bool_decide (c = "/"%char) && bool_decide (c' = "*"%char) then
            skip_comment (S (S k)) (open :: outer) (S (S k)) s''
          else if bool_decide (c = "*"%char) && bool_decide (c' = "/"%char) then
            match outer with
            | open :: outer => skip_comment open outer (S (S k)) s''
            | [] => (Ret tt, position.mk (S (S k)) s'')
            end
          else skip_comment open outer (S k) s'
      end
  end.

(** [visitor_names]: the keys below a node, for the message *)
Fixpoint names_from (fuel : nat) (prefix : string) (n : node_type) : list string :=
  match fuel with
  | O => []
  | S fuel =>
      match n with
      | leaf _ => [prefix]
      | children m =>
          mjoin ((λ cn, names_from fuel (prefix +:+ String cn.1 "") cn.2) <$> m)
      end
  end.

(** deeper than the longest key *)
Definition max_depth : nat := 20.
Definition names (n : node_type) : string :=
  show.joined id (names_from max_depth "" n).

(** [operator++], [visitor_tokenize] and the actions; a comment is followed by
    the next token, so the number of rounds is bounded by the length *)
Section next.
Context (increment : T unit).

Definition perform (f : action) : T unit :=
  match f with
  | notne => either "=" (do_set_token token.ne) (do_unary token._not "negation")
  | identifier => do_identifier
  | mulpow => either "*" (do_set_token token._pow) (do_set_token token.mul)
  | or_boolean_integral =>
      either "|" (do_set_token token._or_boolean) (do_set_token token._or_integral)
  | and_boolean_integral =>
      either "&" (do_set_token token._and_boolean) (do_set_token token._and_integral)
  | negsub =>
      get ≫= λ t : type,
      do_set_token (if token.next_can_be_unary (current t) then token.neg else token.sub)
  | divcomment =>
      either "*"
        (on_pos (λ p, skip_comment (position.eaten p) [] (position.eaten p) (position.rest p)) ≫= λ _,
         increment)
        (do_set_token token.div)
  | cmp t e => either "=" (do_set_token e) (do_set_token t)
  | set_token t => do_set_token t
  | set_value v => do_set_value v
  | unary t descr => do_unary t descr
  end.
End next.

(** [visitor_tokenize]: the tree is walked along the text *)
Fixpoint tokenize (depth : nat) (first : bool) (m : child_type) : T (option action) :=
  match depth with
  | O => throw out_of_fuel
  | S depth =>
      get ≫= λ t : type,
      if is_eof (pos t) then expected (names (children m))
      else
        match position.current (pos t) ≫= λ c, find_child c m with
        | Some (leaf f) => on_pos require.skip ≫= λ _, mret (Some f)
        | Some (children m') => on_pos require.skip ≫= λ _, tokenize depth false m'
        | None =>
            if first then v ← on_pos read.read; do_set_value v ≫= λ _, mret None
            else expected (names (children m))
        end
  end.

Fixpoint increment (fuel : nat) : T unit :=
  match fuel with
  | O => throw out_of_fuel
  | S fuel =>
      on_pos require.skip_spaces ≫= λ _,
      get ≫= λ t : type,
      if is_eof (pos t) then
        (if position.at_end (pos t) then mret tt else on_pos require.skip) ≫= λ _,
        do_set_token token.eof
      else
        f ← tokenize max_depth true description;
        match f with
        | Some f => perform (increment fuel) f
        | None => mret tt
        end
  end.

(** [operator++] *)
Definition next : T unit :=
  get ≫= λ t : type,
  increment (S (String.length (position.rest (pos t)))).

End tokenizer.
