(* ===== verification/Expr.v ===== *)
(** * Expressions: syntax trees, contexts and evaluation

    [we/expr/parse/node.cpp], [we/expr/eval/context.cpp],
    [we/expr/eval/eval.cpp] and the parts of [we/expr/parse/parser.cpp] that
    work on finished trees. *)

From S2P Require Import Prelude Value Token Function ReadShow.

(** ** Syntax trees ([node.hpp]) *)
Module node.

Inductive type : Type :=
| value (v : value_type)
| ref (key : list string)
| unary (t : token.type) (child : type)
| binary (t : token.type) (l r : type)
| ternary (t : token.type) (child0 child1 child2 : type).

(** [node::get], [is_value], [is_ref] *)
Definition get (n : type) : outcome exn value_type :=
  match n with
  | value v => Ret v
  | _ => Throw (eval_type_error "get: node is not an value")
  end.
Definition is_value (n : type) : bool := match n with value _ => true | _ => false end.
Definition is_ref (n : type) : bool := match n with ref _ => true | _ => false end.

(** [visitor_rename]: the first component of a matching key is replaced. *)
Fixpoint rename (from to : string) (n : type) : type :=
  match n with
  | value v => value v
  | ref [] => ref []
  | ref (k :: key) => ref ((if decide (k = from) then to else k) :: key)
  | unary t c => unary t (rename from to c)
  | binary t l r => binary t (rename from to l) (rename from to r)
  | ternary t a b c =>
      ternary t (rename from to a) (rename from to b) (rename from to c)
  end.

(** [visitor_collect_key_roots] *)
Fixpoint collect_key_roots (n : type) (roots : gset string) : outcome exn (gset string) :=
  match n with
  | value _ => Ret roots
  | ref [] => Throw (invalid_argument "collect_key_roots: empty key")
  | ref (k :: _) => Ret ({[k]} ∪ roots)
  | unary _ c => collect_key_roots c roots
  | binary _ l r => collect_key_roots l roots ≫= collect_key_roots r
  | ternary _ a b c =>
      (collect_key_roots a roots ≫= collect_key_roots b) ≫= collect_key_roots c
  end.

End node.

(** ** Contexts ([context.hpp], [context.cpp]) *)
Module context.

(** [_container] owns values, [_ref_container] points to values owned by
    others, which do not change while the context lives. *)
Record type : Type := mk {
  container : gmap string value_type;
  ref_container : gmap string value_type
}.

Definition empty : type := mk ∅ ∅.

Definition bind_ref (key : string) (v : value_type) (c : type) : type :=
  mk (container c) (<[key := v]> (ref_container c)).

(** The reference is replaced by a copy of what it points to, and the value
    is written into the copy; a key that is bound to nothing starts as the
    default value. *)
Definition bind_and_discard_ref (key_vec : list string) (v : value_type) :
    M type exn unit :=
  match key_vec with
  | [] => throw (runtime_error "context::bind_and_discard_ref []")
  | key :: path =>
      modify (λ c,
        let old :=
          match ref_container c !! key with
          | Some r => r
          | None => default Vcontrol (container c !! key)
          end in
        mk (<[key := Path.poke path old v]> (container c))
           (delete key (ref_container c)))
  end.

(** [join (key_vec, ".")], for the message *)
Definition value (key_vec : list string) (c : type) : outcome exn value_type :=
  match key_vec with
  | [] => Throw (runtime_error "context::value []")
  | key :: path =>
      match ref_container c !! key ≫= Path.peek path with
      | Some v => Ret v
      | None =>
          match container c !! key ≫= Path.peek path with
          | Some v => Ret v
          | None => Throw (missing_binding (Path.join key_vec))
          end
      end
  end.

End context.

(** ** Evaluation ([eval.cpp]) *)
Module eval.

Section eval.
Context `{Float.Libm}.

(** [boost::get<bool>] *)
Definition get_bool (v : value_type) : outcome exn bool :=
  match v with Vbool b => Ret b | _ => Throw bad_get end.

Definition read (key : list string) : M context.type exn value_type :=
  λ c, (context.value key c, c).

(** [visitor_eval] *)
Fixpoint eval (nd : node.type) : M context.type exn value_type :=
  match nd with
  | node.value v => mret v
  | node.ref key => read key
  | node.unary t child =>
      c0 ← eval child;
      lift (Function.unary t c0)
  | node.binary t l r =>
      if token.is_define t then
        c1 ← eval r;
        match l with
        | node.ref key => context.bind_and_discard_ref key c1 ≫= λ _, mret c1
        | _ => throw bad_get
        end
      else if token.is_or_boolean t then
        c0 ← eval l;
        b ← lift (get_bool c0);
        if (b : bool) then mret c0
        else c1 ← eval r; lift (Function.binary t c0 c1)
      else if token.is_and_boolean t then
        c0 ← eval l;
        b ← lift (get_bool c0);
        if (b : bool) then c1 ← eval r; lift (Function.binary t c0 c1)
        else mret c0
      else if decide (associativity.associativity t = associativity.left) then
        c0 ← eval l;
        c1 ← eval r;
        lift (Function.binary t c0 c1)
      else
        c1 ← eval r;
        c0 ← eval l;
        lift (Function.binary t c0 c1)
  | node.ternary t child0 child1 child2 =>
      match t with
      | token._map_assign =>
          c0 ← eval child0;
          c1 ← eval child1;
          c2 ← eval child2;
          match c0 with
          | Vmap m => mret (Vmap (Order.map_assign c1 c2 m))
          | _ => throw (eval_type_error ("map_assign (" +:+ show.show c0 +:+ ", " +:+ show.show c1
                                    +:+ ", " +:+ show.show c2 +:+ ")"))
          end
      | _ => throw (runtime_error ("eval-ternary (" +:+ token.show t +:+ ")"))
      end
  end.

(** [parser::eval_all]: evaluate the whole stack in order, return the last
    value. *)
Fixpoint eval_all_from (v : value_type) (nds : list node.type) :
    M context.type exn value_type :=
  match nds with
  | [] => mret v
  | nd :: nds => v' ← eval nd; eval_all_from v' nds
  end.

Definition eval_all (nds : list node.type) : M context.type exn value_type :=
  eval_all_from Vcontrol nds.

(** [parser::is_const_true]: only a missing binding means "not constant",
    every other exception is passed on. *)
Definition is_const_true (nds : list node.type) : outcome exn bool :=
  match (eval_all nds context.empty).1 ≫= get_bool with
  | Throw (missing_binding _) => Ret false
  | o => o
  end.

(** [parser::key_roots] *)
Fixpoint key_roots_from (roots : gset string) (nds : list node.type) :
    outcome exn (gset string) :=
  match nds with
  | [] => Ret roots
  | nd :: nds => node.collect_key_roots nd roots ≫= λ roots, key_roots_from roots nds
  end.

Definition key_roots (nds : list node.type) : outcome exn (gset string) :=
  key_roots_from ∅ nds.

(** [parser::rename] *)
Definition rename (from to : string) (nds : list node.type) : list node.type :=
  node.rename from to <$> nds.
End eval.

End eval.

(** ** What an expression depends on

    An expression reads and writes only bindings whose names are key roots
    of the expression. *)
Module Dependence.

Fixpoint roots (n : node.type) : gset string :=
  match n with
  | node.value _ => ∅
  | node.ref key => match key with [] => ∅ | k :: _ => {[k]} end
  | node.unary _ c => roots c
  | node.binary _ l r => roots l ∪ roots r
  | node.ternary _ a b c => roots a ∪ roots b ∪ roots c
  end.

Definition roots_all (ns : list node.type) : gset string := ⋃ (roots <$> ns).

Lemma roots_all_cons n ns : roots_all (n :: ns) = roots n ∪ roots_all ns.
Proof. done. Qed.

Lemma collect_key_roots_roots n X Y :
  node.collect_key_roots n X = Ret Y → Y = roots n ∪ X.
Proof.
  revert X Y. induction n as [|key| |t l IHl r IHr|t a IHa b IHb c IHc]; intros X Y; simpl.
  - intros [= <-]. set_solver.
  - destruct key; intros [= <-]. done.
  - auto.
  - intros (X1 & H1 & H2)%obind_ret_inv. apply IHl in H1 as ->. apply IHr in H2 as ->. set_solver.
  - intros (X2 & (X1 & H1 & H2)%obind_ret_inv & H3)%obind_ret_inv.
    apply IHa in H1 as ->. apply IHb in H2 as ->. apply IHc in H3 as ->. set_solver.
Qed.

Lemma key_roots_roots ns X : eval.key_roots ns = Ret X → X = roots_all ns.
Proof.
  unfold eval.key_roots, roots_all.
  assert (∀ Y, eval.key_roots_from Y ns = Ret X → X = ⋃ (roots <$> ns) ∪ Y) as Hgen.
  { induction ns as [|n ns IH]; intros Y; simpl; [intros [= <-]; set_solver|].
    intros (Z' & H1 & H2)%obind_ret_inv. apply collect_key_roots_roots in H1 as ->.
    apply IH in H2 as ->. set_solver. }
  intros ->%Hgen. set_solver.
Qed.

Section dependence.
Context `{Float.Libm}.
Context (X : gset string).

(** The contexts bind the names in [X] alike. *)
Definition agree (c d : context.type) : Prop :=
  ∀ k, k ∈ X → context.container c !! k = context.container d !! k ∧
               context.ref_container c !! k = context.ref_container d !! k.

Definition respects {A} (m : M context.type exn A) : Prop :=
  ∀ c d, agree c d → (m c).1 = (m d).1 ∧ agree (m c).2 (m d).2.

Lemma respects_ret {A} (a : A) : respects (mret a).
Proof. by intros c d Hcd. Qed.
Lemma respects_throw {A} e : respects (throw e : M _ _ A).
Proof. by intros c d Hcd. Qed.
Lemma respects_lift {A} (o : outcome exn A) : respects (lift o).
Proof. by intros c d Hcd. Qed.
Lemma respects_bind {A B} (m : M context.type exn A) (k : A → M context.type exn B) :
  respects m → (∀ a, respects (k a)) → respects (m ≫= k).
Proof.
  intros Hm Hk c d Hcd. destruct (Hm c d Hcd) as [Ho Ha].
  unfold mbind, M_bind. destruct (m c) as [oc c'], (m d) as [od d']; simpl in *; subst.
  destruct od as [a|e]; [by apply Hk|done].
Qed.

Lemma respects_read key :
  (∀ k path, key = k :: path → k ∈ X) → respects (eval.read key).
Proof.
  intros Hkey c d Hcd. split; [|done]. simpl. destruct key as [|k path]; [done|].
  destruct (Hcd k) as [H1 H2]; [eauto|]. simpl. by rewrite H1, H2.
Qed.

Lemma respects_define key v :
  (∀ k path, key = k :: path → k ∈ X) → respects (context.bind_and_discard_ref key v).
Proof.
  intros Hkey. destruct key as [|k path]; [apply respects_throw|].
  assert (k ∈ X) as Hk by eauto. intros c d Hcd. split; [done|].
  destruct (Hcd k Hk) as [H1 H2]. intros l Hl. simpl. rewrite H1, H2.
  destruct (Hcd l Hl) as [H3 H4]. destruct (decide (k = l)) as [->|Hne].
  - by rewrite !lookup_insert_eq, !lookup_delete_eq.
  - by rewrite !lookup_insert_ne, !lookup_delete_ne.
Qed.

Create HintDb respects.
#[local] Hint Resolve respects_ret respects_throw respects_lift respects_bind
  respects_read respects_define : respects.

Lemma respects_eval n : roots n ⊆ X → respects (eval.eval n).
Proof.
  induction n as [v|key|t c IH|t l IHl r IHr|t a IHa b IHb c IHc]; simpl; intros HX.
  - auto with respects.
  - apply respects_read. intros k path ->. set_solver.
  - auto with respects.
  - assert (respects (eval.eval l)) by (apply IHl; set_solver).
    assert (respects (eval.eval r)) by (apply IHr; set_solver).
    destruct (token.is_define t).
    { apply respects_bind; [done|]. intros c1. destruct l as [|key| | |]; auto with respects.
      apply respects_bind; [|auto with respects].
      apply respects_define. intros k path ->. set_solver. }
    destruct (token.is_or_boolean t); [|destruct (token.is_and_boolean t)].
    1,2: apply respects_bind; [done|]; intros c0;
      apply respects_bind; [apply respects_lift|]; intros []; auto with respects.
    case_decide; auto with respects.
  - destruct t; try apply respects_throw.
    apply respects_bind; [apply IHa; set_solver|]. intros c0.
    apply respects_bind; [apply IHb; set_solver|]. intros c1.
    apply respects_bind; [apply IHc; set_solver|]. intros c2.
    destruct c0; auto with respects.
Qed.

Lemma respects_eval_all_from v ns : roots_all ns ⊆ X → respects (eval.eval_all_from v ns).
Proof.
  revert v. induction ns as [|n ns IH]; intros v HX; simpl; [apply respects_ret|].
  rewrite roots_all_cons in HX. apply respects_bind; [apply respects_eval; set_solver|].
  intros v'. apply IH. set_solver.
Qed.
End dependence.

(** C36: Evaluating an expression looks only at the bindings named by its key
    roots: two contexts that agree on [key_roots] give the same value, or the
    same exception, and agree again afterwards. *)
Theorem eval_all_key_roots `{Float.Libm} ns X c d :
  eval.key_roots ns = Ret X → agree X c d →
  (eval.eval_all ns c).1 = (eval.eval_all ns d).1 ∧
  agree X (eval.eval_all ns c).2 (eval.eval_all ns d).2.
Proof.
  intros ->%key_roots_roots Hcd. by apply respects_eval_all_from.
Qed.

Lemma eval_all_key_roots_witness :
  let ns := [node.binary token.define (node.ref ["y"])
               (node.binary token.add (node.ref ["x"; "a"]) (node.value (Vint 1)))] in
  let c := context.mk {["x" := Vstruct [("a", Vint 2)]; "z" := Vcontrol]} ∅ in
  let d := context.mk {["x" := Vstruct [("a", Vint 2)]]} {["w" := Vint 7]} in
  let eval := @eval.eval_all Float.nan_libm ns in
  (eval c).1 = Ret (Vint 3) ∧ (eval c).1 = (eval d).1.
Proof.
  intros ns c d eval. split; [reflexivity|].
  apply (@eval_all_key_roots Float.nan_libm ns {["y"; "x"]} c d); [reflexivity|].
  intros k [->%elem_of_singleton| ->%elem_of_singleton]%elem_of_union; split; reflexivity.
Defined.

End Dependence.
