(* ===== verification/Parser.v ===== *)
(** * The parser of the expression language

    [we/expr/parse/action.cpp], the parser of [we/expr/parse/parser.cpp], the
    printer of [we/expr/parse/node.cpp] and [we/type/expression.cpp]. *)

From S2P Require Import Prelude Value Token Function Position ReadShow Tokenizer Expr.

(** ** The action table ([action.cpp]) *)
Module action.

Inductive type : Type :=
| shift | reduce | accept | error1 | error2 | error3 | error4.

#[global] Instance type_eq_dec : EqDecision type.
Proof. solve_decision. Defined.

Definition show (a : type) : string :=
  match a with
  | shift => "shift"
  | reduce => "reduce"
  | accept => "accept"
  | error1 => "error: missing right parenthesis"
  | error2 => "error: missing operator"
  | error3 => "error: unbalanced parenthesis"
  | error4 => "error: invalid function argument"
  end.

(** A token without a precedence makes [prec] throw. *)
Definition precedence (t : token.type) : outcome exn Z :=
  or_throw (runtime_error ("prec (" +:+ token.show t +:+ ")")) (prec.prec t).

Definition action (top inp : token.type) : outcome exn type :=
  if decide (top = token.lpr) then
    Ret (if decide (inp = token.eof) then error1 else shift)
  else if decide (top = token.rpr) then
    Ret (if decide (inp = token.lpr) then error2
         else if decide (inp = token.sep) then reduce
         else if token.is_builtin inp then error3
         else reduce)
  else if decide (top = token.eof) then
    Ret (if decide (inp = token.eof) then accept
         else if decide (inp = token.rpr) then error3
         else if decide (inp = token.sep) then error4
         else shift)
  else if decide (top = token.sep) then
    Ret (if decide (inp = token.eof) then error4 else reduce)
  else if token.is_builtin top then
    Ret (if decide (inp = token.lpr) then shift else reduce)
  else if decide (inp = token.sep) then Ret reduce
  else if decide (inp = token.lpr) then Ret shift
  else if decide (inp = token.rpr) then Ret reduce
  else if decide (inp = token.eof) then Ret reduce
  else if token.is_builtin inp then Ret shift
  else
    p ← precedence top;
    q ← precedence inp;
    Ret (if (p <? q)%Z then shift
         else if decide (top = inp) then
           if decide (associativity.associativity top = associativity.left)
           then reduce else shift
         else if decide (top = token._not ∧ inp = token.neg) then shift
         else reduce).

End action.

(** ** The parser ([parser.cpp]) *)
Module parser.

(** [op_stack] with its top first, [nd_stack] and [tmp_stack] in the order of
    the lists *)
Record type : Type := mk {
  op_stack : list token.type;
  nd_stack : list node.type;
  tmp_stack : list node.type
}.

(** [tmp_stack.back()], [tmp_stack.pop_back()] *)
Definition unsnoc {A} (l : list A) : option (list A * A) :=
  match reverse l with
  | [] => None
  | x :: l => Some (reverse l, x)
  end.

Section parser.
Context `{Float.Libm}.

(** [exception::parse::exception] and [missing_operand] *)
Definition parse_exception {A} (msg : string) (k : nat) : M type exn A :=
  throw (expr_parse_error "exception" msg (Z.of_nat k)).
Definition missing_operand {A} (which : string) (k : nat) : M type exn A :=
  throw (expr_parse_error "missing_operand" ("missing " +:+ which +:+ "operand") (Z.of_nat k)).

(** Takes the node at the back of [tmp_stack], which must exist. *)
Definition pop_operand (which : string) (k : nat) : M type exn node.type :=
  get ≫= λ p : type,
  match unsnoc (tmp_stack p) with
  | None => missing_operand which k
  | Some (rest, c) =>
      put (mk (op_stack p) (nd_stack p) rest) ≫= λ _, mret c
  end.
Definition emplace_back (c : node.type) : M type exn unit :=
  modify (λ p, mk (op_stack p) (nd_stack p) (tmp_stack p ++ [c])).

Definition unary (t : token.type) (k : nat) : M type exn unit :=
  c ← pop_operand "" k;
  if node.is_value c then
    v ← lift (node.get c ≫= Function.unary t);
    emplace_back (node.value v)
  else emplace_back (node.unary t c).

Definition binary (t : token.type) (k : nat) : M type exn unit :=
  r ← pop_operand "left " k;
  l ← pop_operand "right " k;
  if token.is_define t && negb (node.is_ref l) then
    parse_exception ("left hand of " +:+ token.show t +:+ " must be reference name") k
  else if node.is_value l && node.is_value r then
    v ← lift (node.get l ≫= λ l, node.get r ≫= λ r, Function.binary t l r);
    emplace_back (node.value v)
  else emplace_back (node.binary t l r).

Definition ternary (t : token.type) (k : nat) : M type exn unit :=
  c ← pop_operand "first " k;
  s ← pop_operand "second " k;
  f ← pop_operand "third " k;
  emplace_back (node.ternary t f s c).

(** [op_stack.top()] and [op_stack.pop()] of an empty stack are undefined. *)
Definition top : M type exn token.type :=
  get ≫= λ p : type, lift (or_throw (undefined "top of an empty stack") (head (op_stack p))).
Definition pop : M type exn unit :=
  get ≫= λ p : type,
  match op_stack p with
  | [] => throw (undefined "pop of an empty stack")
  | _ :: rest => put (mk rest (nd_stack p) (tmp_stack p))
  end.
Definition push (t : token.type) : M type exn unit :=
  modify (λ p, mk (t :: op_stack p) (nd_stack p) (tmp_stack p)).

Definition reduce (k : nat) : M type exn unit :=
  t ← top;
  match t with
  | token._or_boolean | token._or_integral
  | token._and_boolean | token._and_integral => binary t k
  | token._not => unary t k
  | token.lt | token.le | token.gt | token.ge | token.ne | token.eq
  | token.add | token.sub
  | token._bitset_insert | token._bitset_delete | token._bitset_is_element
  | token._bitset_or | token._bitset_and | token._bitset_xor => binary t k
  | token._bitset_tohex | token._bitset_fromhex | token._bitset_count => unary t k
  | token._stack_empty | token._stack_top => unary t k
  | token._stack_push => binary t k
  | token._stack_pop | token._stack_size => unary t k
  | token._stack_join => binary t k
  | token._map_assign => ternary t k
  | token._map_unassign | token._map_is_assigned
  | token._map_get_assignment => binary t k
  | token._map_size | token._map_empty => unary t k
  | token._set_insert | token._set_erase | token._set_is_subset
  | token._set_is_element => binary t k
  | token._set_pop | token._set_top | token._set_empty | token._set_size => unary t k
  | token.mul | token.div | token.divint | token.modint
  | token._pow | token._powint => binary t k
  | token.neg => unary t k
  | token.min | token.max => binary t k
  | token._floor | token._ceil | token._round | token._sin | token._cos
  | token._sqrt | token._log | token._toint | token._tolong | token._touint
  | token._toulong | token._tofloat | token._todouble | token.abs => unary t k
  | token.rpr => pop
  | token.define => binary t k
  | _ => mret tt
  end ≫= λ _,
  pop.

(** [ACTION]: reduce until the token can be shifted or accepted.  Every
    reduction takes something from [op_stack], so the height of the stack
    bounds the number of rounds. *)
Fixpoint act (fuel : nat) (inp : token.type) (eaten : nat) : M type exn unit :=
  match fuel with
  | O => throw out_of_fuel
  | S fuel =>
      t ← top;
      a ← lift (action.action t inp);
      match a with
      | action.reduce => reduce eaten ≫= λ _, act fuel inp eaten
      | action.shift => push inp
      | action.accept =>
          modify (λ p, mk (op_stack p) (nd_stack p ++ tmp_stack p) [])
      | a => parse_exception (action.show a) eaten
      end
  end.

(** One token: operands go to [tmp_stack], everything else to the table. *)
Definition feed (t : tokenizer.type) : M type exn unit :=
  match tokenizer.current t with
  | token.val => emplace_back (node.value (tokenizer.tokval t))
  | token.ref => emplace_back (node.ref (tokenizer.ref t))
  | inp =>
      get ≫= λ p : type,
      act (S (length (op_stack p))) inp (position.eaten (tokenizer.pos t))
  end.

(** The two nested loops: the inner one runs once more and ends when the
    end of an expression was read, the outer one ends with the input. *)
Fixpoint parse_loop (fuel : nat) (t : tokenizer.type) : M type exn unit :=
  match fuel with
  | O => throw out_of_fuel
  | S fuel =>
      let '(r, t') := tokenizer.next t in
      lift r ≫= λ _,
      feed t' ≫= λ _,
      if bool_decide (tokenizer.current t' = token.eof)
         && position.at_end (tokenizer.pos t')
      then mret tt
      else parse_loop fuel t'
  end.

(** Every token but the last one takes at least one character. *)
Definition parse (input : string) : M type exn unit :=
  push token.eof ≫= λ _,
  let t := tokenizer.make (position.make input) in
  if position.at_end (tokenizer.pos t) then mret tt
  else parse_loop (2 + String.length input) t.

(** [parser::parser (input)] *)
Definition make (input : string) : outcome exn (list node.type) :=
  match parse input (mk [] [] []) with
  | (Ret _, p) => Ret (nd_stack p)
  | (Throw e, _) => Throw e
  end.
End parser.

End parser.

(** ** Printing ([node.cpp], [parser::string]) *)
Module print.

(** [show_key_vec]: a separator is written once something was written *)
Definition show_key_vec (key : list string) : string :=
  foldl (λ s k, (if decide (s = "") then s else s +:+ ".") +:+ k) "" key.

(** [visitor_show] *)
Fixpoint show (n : node.type) : outcome exn string :=
  match n with
  | node.value v => Ret (show.show v)
  | node.ref key => Ret ("${" +:+ show_key_vec key +:+ "}")
  | node.unary t c => c ← show c; Ret (token.show t +:+ "(" +:+ c +:+ ")")
  | node.binary t l r =>
      l ← show l;
      r ← show r;
      Ret (if token.is_prefix t then token.show t +:+ "(" +:+ l +:+ ", " +:+ r +:+ ")"
           else "(" +:+ l +:+ token.show t +:+ r +:+ ")")
  | node.ternary t c0 c1 c2 =>
      match t with
      | token._map_assign =>
          c0 ← show c0;
          c1 ← show c1;
          c2 ← show c2;
          Ret (token.show t +:+ "(" +:+ c0 +:+ "," +:+ c1 +:+ "," +:+ c2 +:+ ")")
      | _ => Throw (runtime_error ("show_parse_node_ternary (" +:+ token.show t +:+ ")"))
      end
  end.

(** [parser::string]: every node is followed by a semicolon *)
Fixpoint string_ (ns : list node.type) : outcome exn string :=
  match ns with
  | [] => Ret ""
  | n :: ns => s ← show n; rest ← string_ ns; Ret (s +:+ ";" +:+ rest)
  end.

End print.

(** ** [we::type::expression_t] ([expression.cpp]) *)
Module expression.

Record type : Type := mk { expr : string; ast : list node.type }.

(** [boost::trim] in the classic locale *)
Fixpoint trim_left (s : string) : string :=
  match s with
  | String c s' => if char.isspace c then trim_left s' else s
  | "" => ""
  end.
Definition trim (s : string) : string :=
  String.rev (trim_left (String.rev (trim_left s))).

Section expression.
Context `{Float.Libm}.

Definition make (e : string) : outcome exn type :=
  ast ← parser.make e;
  Ret (mk (trim e) ast).

(** [expression_t::rename] *)
Definition rename (from to : string) (e : type) : outcome exn type :=
  let ast := eval.rename from to (ast e) in
  s ← print.string_ ast;
  Ret (mk s ast).
End expression.

End expression.
