(* ===== verification/ParserSafe.v ===== *)
(** * The parsers end and stay within their stacks

    Every loop of the reader, of the tokenizer and of the parser consumes
    input or shrinks the operator stack, so the bounds chosen for the modelled
    loops are never reached; and the shift-reduce parser never looks at an
    empty stack and never asks for the precedence of a token without one. *)

From S2P Require Import Prelude Value Token Bitset Function Position Num ReadShow Tokenizer Expr Parser.

Module Safe.

(** What the built-in functions do that is undefined in C++: the parser evaluates functions of
    constants and converts the largest float to an integer. *)
Definition undefined_on_values : list string :=
  ["signed overflow"; "float to integer"; "back of an empty list"; "pop_back of an empty list"; "erase of end"; "dereference of end"].

(** What must not come out of a parser: a bound of the model, an operation on
    an empty [std::stack] or anything undefined that is not an operation on constants, a token
    that [prec] does not know, or an exception of another component.  The others are the
    errors of reading and those of evaluating functions of constants. *)
Definition internal (e : exn) : Prop :=
  match e with
  | out_of_fuel => True
  | undefined what => what ∉ undefined_on_values
  | runtime_error what => String.prefix "bitsetofint::from_hex" what || String.prefix "r > l => neg result" what = false
  | parse_error _ _ | expr_parse_error _ _ _ | eval_unary _ _ | eval_binary _ _ _ | eval_type_error _ | divide_by_zero
  | negative_exponent | square_root_for_negative_argument | log_for_nonpositive_argument | bad_get | out_of_range => False
  | _ => True
  end.

Definition sound {A} (o : outcome exn A) : Prop :=
  match o with Ret _ => True | Throw e => ¬ internal e end.

Lemma sound_ret {A} (a : A) : sound (Ret a).
Proof. exact I. Qed.
Lemma sound_bind {A B} (o : outcome exn A) (k : A → outcome exn B) :
  sound o → (∀ a, sound (k a)) → sound (o ≫= k).
Proof. destruct o; simpl; auto. Qed.
Lemma sound_fmap {A B} (f : A → B) (o : outcome exn A) : sound o → sound (f <$> o).
Proof. by destruct o. Qed.
Lemma sound_or_throw {A} e (o : option A) : ¬ internal e → sound (or_throw e o).
Proof. by destruct o. Qed.

(** An exception that is not internal by its constructor or its text. *)
Ltac not_internal :=
  solve [simpl; tauto | simpl; discriminate | let H := fresh in simpl; intros H; apply H, (bool_decide_unpack _); vm_compute; exact Logic.I].

Create HintDb sound.

(** ** The built-in functions *)
Section functions.
Context `{Float.Libm}.

Lemma sound_checked T z : sound (Int.checked T z).
Proof. unfold Int.checked. case_decide; [done|not_internal]. Qed.
Lemma sound_of_float T f : sound (Int.of_float T f).
Proof.
  unfold Int.of_float. destruct (Float.trunc f); [case_decide; [done|]|]; not_internal.
Qed.
Lemma sound_pow_loop mul n l x :
  (∀ x l, sound (mul x l)) → sound (Function.pow_loop mul n l x).
Proof.
  intros Hmul. revert x. induction n as [|n IH]; intros x; simpl; [done|].
  by apply sound_bind.
Qed.

#[local] Hint Resolve sound_ret sound_checked sound_of_float sound_pow_loop sound_fmap sound_bind : sound.

Ltac solve_sound :=
  repeat (first [case_match | apply sound_fmap | apply sound_or_throw]);
  try solve [done | eauto with sound | not_internal].

Lemma sound_unary t v : sound (Function.unary t v).
Proof.
  destruct v; simpl; try not_internal.
  1: unfold Function.unary_bool.
  2, 3: unfold Function.unary_integral_signed.
  4, 5: unfold Function.unary_integral_unsigned.
  6, 7: unfold Function.unary_fractional.
  8: unfold Function.unary_string.
  9: unfold Function.unary_bitset.
  10: unfold Function.unary_list.
  11: unfold Function.unary_set.
  12: unfold Function.unary_map.
  all: destruct t; solve_sound.
Qed.

Lemma sound_traverse compare early e l r :
  Forall (λ kv, ∀ w, sound (compare kv.2 w)) l → ¬ internal e →
  sound (Function.traverse compare early e l r).
Proof.
  intros Hl He. revert r. induction Hl as [|[k v] l Hv _ IH]; intros [|[k' w] r]; simpl; try done.
  case_decide; [|done]. apply sound_bind; [apply Hv|]. intros x. solve_sound.
Qed.

Lemma sound_binary t l r : sound (Function.binary t l r).
Proof.
  revert r. induction l using value_type_ind'; intros r; destruct r; simpl; try not_internal.
  all: unfold Function.binary_bool, Function.binary_integral_signed,
    Function.binary_integral_unsigned, Function.binary_fractional, Function.binary_char,
    Function.binary_string, Function.binary_bitset, Function.binary_bitset_ulong,
    Function.binary_bytearray, Function.binary_list_list, Function.binary_list,
    Function.binary_set_set, Function.binary_set, Function.binary_map.
  all: destruct t; solve_sound.
  all: apply sound_traverse; [done|not_internal].
Qed.
End functions.

(** ** Parsers on positions

    [eats k m p]: run at [p], the parser fails with an ordinary exception or
    consumes at least [k] characters. *)
Abbreviation P A := (M position.type exn A).
Definition len (p : position.type) : nat := String.length (position.rest p).

Definition eats {A} (k : nat) (m : P A) (p : position.type) : Prop :=
  match m p with
  | (Ret _, q) => len q + k ≤ len p
  | (Throw e, _) => ¬ internal e
  end.

Lemma eats_weaken {A} k j (m : P A) p : eats k m p → j ≤ k → eats j m p.
Proof. unfold eats. destruct (m p) as [[]]; [lia|done]. Qed.
Lemma eats_ret {A} (a : A) p : eats 0 (mret a) p.
Proof. unfold eats. simpl. lia. Qed.
Lemma eats_throw {A} e k p : ¬ internal e → eats k (throw e : P A) p.
Proof. done. Qed.
Lemma eats_bind {A B} j k (m : P A) (f : A → P B) p :
  eats j m p → (∀ a q, len q + j ≤ len p → eats (k - j) (f a) q) → eats k (m ≫= f) p.
Proof.
  unfold eats, mbind, M_bind. destruct (m p) as [[a|e] q]; [|done].
  intros Hq Hf. specialize (Hf a q Hq). destruct (f a q) as [[]]; [lia|done].
Qed.
Lemma eats_get {A} k (f : position.type → P A) p : eats k (f p) p → eats k (get ≫= f) p.
Proof. done. Qed.
Lemma eats_lift {A} (o : outcome exn A) p : sound o → eats 0 (lift o) p.
Proof. unfold eats. destruct o; simpl; [lia|done]. Qed.

Lemma looking_at_cons f p :
  require.looking_at f p = true → ∃ c s, position.rest p = String c s.
Proof.
  unfold require.looking_at, position.current. destruct (position.rest p); [done|eauto].
Qed.
Lemma eats_skip p c s : position.rest p = String c s → eats 1 require.skip p.
Proof.
  intros Hp. unfold eats, len. simpl. unfold position.next. rewrite Hp. simpl. lia.
Qed.
Lemma eats_skip_weak p : eats 0 require.skip p.
Proof.
  unfold eats, len. simpl. unfold position.next. destruct (position.rest p) eqn:E; simpl; rewrite ?E; simpl; lia.
Qed.
Lemma eats_skip_at f p : require.looking_at f p = true → eats 1 require.skip p.
Proof. intros (c & s & Hp)%looking_at_cons. by eapply eats_skip. Qed.
Lemma eats_current p c : position.current p = Some c → eats 1 require.skip p.
Proof.
  unfold position.current. destruct (position.rest p) eqn:E; [done|]. intros _. by eapply eats_skip.
Qed.
Lemma eats_fail {A} what k p : eats k (require.fail what : P A) p.
Proof. unfold eats. simpl. tauto. Qed.
Lemma eats_require_char c p : eats 1 (require.require_char c) p.
Proof.
  unfold eats, require.require_char. destruct (require.looking_at _ p) eqn:E; [|simpl; tauto].
  by apply (eats_skip_at _ _ E).
Qed.
Lemma eats_require_string s p : eats (String.length s) (require.require_string s) p.
Proof.
  revert p. induction s as [|c s IH]; intros p; [apply eats_ret|].
  unfold eats. simpl. destruct (require.looking_at _ p) eqn:E; [|simpl; tauto].
  apply (eats_bind 1); [by eapply eats_skip_at|]. intros _ q _.
  eapply eats_weaken; [apply IH|lia].
Qed.

Lemma len_skip_while f k s : len (require.skip_while_from f k s) ≤ String.length s.
Proof.
  revert k. induction s as [|c s IH]; intros k; simpl; [unfold len; simpl; lia|].
  case_match; [|unfold len; simpl; lia]. etrans; [apply IH|lia].
Qed.
Lemma eats_skip_spaces p : eats 0 require.skip_spaces p.
Proof.
  unfold eats, require.skip_spaces, require.skip_while. simpl.
  pose proof (len_skip_while char.isspace (position.eaten p) (position.rest p)). unfold len in *. lia.
Qed.
Lemma eats_plain_character p : eats 1 require.plain_character p.
Proof.
  unfold eats, require.plain_character, position.current, position.next, len.
  destruct (position.rest p); simpl; [tauto|lia].
Qed.
Lemma eats_identifier p : eats 1 require.identifier p.
Proof.
  unfold eats, require.identifier. destruct (require.looking_at _ p) eqn:E; [|simpl; tauto].
  unfold require.looking_at, position.current in E. unfold len at 2.
  destruct (position.rest p) as [|c s] eqn:Hp; [done|]. simpl.
  unfold require.id_char at 1. rewrite E. simpl.
  pose proof (len_skip_while require.id_char (S (position.eaten p)) s). lia.
Qed.
Lemma eats_plain_string until p : eats 1 (require.plain_string until) p.
Proof.
  unfold eats, require.plain_string, len at 2. generalize (position.eaten p), "".
  induction (position.rest p) as [s IH] using (well_founded_induction
    (well_founded_ltof _ String.length)); unfold ltof in IH.
  intros k acc. destruct s as [|c s]; simpl; [tauto|].
  case_bool_decide; [unfold len; simpl; lia|]. case_bool_decide.
  - destruct s as [|c' s]; [simpl; tauto|]. destruct (_ || _); [|simpl; tauto].
    assert (String.length s < String.length (String c (String c' s))) as Hs by (simpl; lia).
    specialize (IH s Hs (S (S k)) (acc +:+ String c' "")).
    destruct (require.plain_string_from _ _ _ _ s) as [[]]; [simpl; lia|done].
  - assert (String.length s < String.length (String c s)) as Hs by (simpl; lia).
    specialize (IH s Hs (S k) (acc +:+ String c "")).
    destruct (require.plain_string_from _ _ _ _ s) as [[]]; [simpl; lia|done].
Qed.

(** ** Numbers *)
Definition within {A} (n : nat) (r : outcome exn A * position.type) : Prop :=
  match r with
  | (Ret _, q) => len q ≤ n
  | (Throw e, _) => ¬ internal e
  end.
Lemma within_weaken {A} n m (r : outcome exn A * position.type) : within n r → n ≤ m → within m r.
Proof. destruct r as [[] q]; simpl; [lia|done]. Qed.
Lemma within_eats {A} k (m : P A) p : within (len p - k) (m p) → k ≤ len p → eats k m p.
Proof. unfold within, eats. destruct (m p) as [[] q]; [lia|done]. Qed.

Lemma sound_arith I z : sound (num.arith I z).
Proof. unfold num.arith. destruct (_ <? _)%Z; [apply sound_checked|done]. Qed.
Ltac step_arith :=
  match goal with |- context [num.arith ?I ?z] =>
    let H := fresh in pose proof (sound_arith I z) as H; destruct (num.arith I z); [clear H|exact H] end.
Lemma within_digits B I (has_sign : bool) l k s :
  within (String.length s) ((if has_sign then num.read_negative B I else num.read_positive B I) l k s).
Proof.
  revert l k. induction s as [|c s IH]; intros l k; [destruct has_sign; unfold within, len; simpl; lia|].
  destruct has_sign; simpl; (destruct (num.isdig B c); [|simpl; unfold len; simpl; lia]).
  all: repeat first [destruct (_ <? _)%Z; [by unfold num.unexpected_digit; not_internal|]|step_arith].
  all: eapply within_weaken; [apply IH|lia].
Qed.
Lemma within_first_digit B I (has_sign : bool) l k c s :
  num.isdig B c = true →
  within (String.length s)
    ((if has_sign then num.read_negative B I else num.read_positive B I) l k (String c s)).
Proof.
  intros Hc. destruct has_sign; simpl; rewrite Hc;
    repeat first [destruct (_ <? _)%Z; [by unfold num.unexpected_digit; not_internal|]|step_arith].
  - apply (within_digits B I true).
  - apply (within_digits B I false).
Qed.

Lemma eats_base_read B I has_sign p :
  eats (if require.looking_at (num.isdig B) p then 1 else 0) (num.base_read_integral B I has_sign) p.
Proof.
  unfold require.looking_at, position.current.
  destruct (position.rest p) as [|c s] eqn:Hp; [|destruct (num.isdig B c) eqn:Hc].
  all: apply within_eats; unfold len, num.base_read_integral; rewrite Hp; [|simpl; lia].
  - apply within_digits.
  - eapply within_weaken; [by apply within_first_digit|simpl; lia].
  - eapply within_weaken; [apply within_digits|simpl; lia].
Qed.

Lemma eats_read_integral I has_sign p : eats 1 (num.read_integral I has_sign) p.
Proof.
  apply eats_get. destruct (require.looking_at char.isdigit p) eqn:Hd; [|apply eats_fail]. simpl.
  destruct (decide (require.looking_at (require.is_char "0") p = true)) as [H0|H0].
  - apply (eats_bind 1).
    { unfold require.looking_at, position.current in H0. unfold eats. simpl.
      destruct (position.rest p) as [|c s] eqn:Hp; [done|]. unfold len at 2. rewrite Hp. simpl.
      rewrite H0. pose proof (len_skip_while (require.is_char "0") (S (position.eaten p)) s). lia. }
    intros _ q _. apply eats_get.
    destruct (position.current q) as [c|]; [|apply eats_ret].
    destruct (_ && _).
    + apply (eats_bind 0); [apply eats_skip_weak|]. intros _ q' _.
      eapply eats_weaken; [apply eats_base_read|lia].
    + eapply eats_weaken; [apply eats_base_read|lia].
  - assert (require.skip_while (require.is_char "0") p = (Ret tt, p)) as Hskip.
    { unfold require.skip_while, modify. f_equal. destruct p as [k s]. simpl.
      unfold require.looking_at, position.current in H0. simpl in H0. destruct s as [|c s]; [done|].
      simpl. by destruct (require.is_char "0" c). }
    unfold eats, mbind at 1, M_bind at 1. rewrite Hskip. apply eats_get.
    destruct (position.current p) as [c|] eqn:Hc.
    + rewrite bool_decide_true by done. simpl.
      pose proof (eats_base_read num.dec I has_sign p) as Hb. simpl in Hb. by rewrite Hd in Hb.
    + unfold require.looking_at in Hd. by rewrite Hc in Hd.
Qed.

Lemma eats_read_sign p : eats 0 num.read_sign p.
Proof.
  apply eats_get. repeat case_match; [..|apply eats_ret].
  all: apply (eats_bind 0); [apply eats_skip_weak|intros; apply eats_ret].
Qed.

Lemma eats_fraction_digits F frac fak k s : len (num.fraction_digits F frac fak k s).2 ≤ String.length s.
Proof.
  revert frac fak k. induction s as [|c s IH]; intros frac fak k; simpl; [unfold len; simpl; lia|].
  case_match; [|unfold len; simpl; lia]. etrans; [apply IH|lia].
Qed.
Lemma eats_read_fraction F i p : eats 0 (num.read_fraction F i) p.
Proof.
  unfold num.read_fraction. apply eats_get.
  pose proof (eats_fraction_digits F (SpecFloat.S754_zero false) (num.initial_fak F)
                (position.eaten p) (position.rest p)) as Hq.
  destruct (num.fraction_digits _ _ _ _ _) as [frac q]. simpl in Hq.
  apply (eats_bind 0); [unfold eats; simpl; unfold len at 2; lia|]. intros _ q' _.
  case_match; [|apply eats_ret].
  apply (eats_bind 0); [apply eats_skip_weak|]. intros _ q1 _.
  apply (eats_bind 0); [apply eats_read_sign|]. intros b q2 _.
  apply (eats_bind 0); [eapply eats_weaken; [apply eats_read_integral|lia]|]. intros; apply eats_ret.
Qed.
Lemma eats_cast_integral I x p : eats 0 (num.cast_integral I x) p.
Proof. unfold eats, num.cast_integral. destruct (_ <? _)%Z; simpl; [tauto|lia]. Qed.
Lemma eats_read_num_fraction negative ul p : eats 0 (num.read_num_fraction negative ul) p.
Proof.
  apply (eats_bind 0); [apply eats_read_fraction|]. intros d q _. apply eats_get.
  case_match; [|apply eats_ret].
  apply (eats_bind 0); [apply eats_skip_weak|]. intros _ q' _.
  apply (eats_bind 0); [|intros; apply eats_ret].
  unfold eats, num.cast_double_float. destruct (SpecFloat.SFltb _ _); simpl; [tauto|lia].
Qed.

(** one step of an argument by cases on what follows *)
Ltac eat_step :=
  first
    [ apply eats_ret | apply eats_fail | apply eats_get
    | apply (eats_bind 0); [first [apply eats_skip_weak|apply eats_cast_integral]|intros ? ? _] ].

Lemma eats_read_num_suffix negative ul c p : eats 0 (num.read_num_suffix negative ul c) p.
Proof.
  unfold num.read_num_suffix. repeat case_match; repeat eat_step; try apply eats_read_num_fraction.
  all: try (case_match; repeat eat_step).
  all: apply (eats_bind 0); [by apply eats_throw; not_internal|intros; apply eats_ret].
Qed.
Lemma eats_read_num p : eats 1 num.read_num p.
Proof.
  apply (eats_bind 0); [apply eats_read_sign|]. intros b q _.
  apply (eats_bind 1); [apply eats_read_integral|]. intros ul q' _.
  apply eats_get, eats_read_num_suffix.
Qed.

(** ** Values *)
Lemma eats_list_loop {A} sep close (f : A → P A) n fuel expect_sep a p :
  (∀ a q, len q ≤ n → eats 1 (f a) q) → len p ≤ n → len p < fuel →
  eats 1 (require.list_loop sep close f fuel expect_sep a) p.
Proof.
  intros Hf. revert expect_sep a p. induction fuel as [|fuel IH]; intros expect_sep a p Hn Hp; [lia|].
  apply eats_get. destruct (position.current p) as [c|] eqn:Hc; [|apply eats_fail].
  case_bool_decide.
  { apply (eats_bind 1); [by eapply eats_current|]. intros; apply eats_ret. }
  destruct expect_sep; [|case_bool_decide; [apply eats_fail|]].
  - apply (eats_bind 1); [apply eats_require_char|]. intros _ q Hq.
    apply (eats_bind 0); [apply eats_skip_spaces|]. intros _ q' Hq'.
    eapply eats_weaken; [apply IH|]; lia.
  - apply (eats_bind 1); [by apply Hf|]. intros a' q Hq.
    apply (eats_bind 0); [apply eats_skip_spaces|]. intros _ q' Hq'.
    eapply eats_weaken; [apply IH|]; lia.
Qed.
Lemma eats_list {A} sep close (f : A → P A) open a p :
  (∀ a q, len q < len p → eats 1 (f a) q) → eats 1 (require.list_ sep close f open a) p.
Proof.
  intros Hf. apply (eats_bind 0); [apply eats_skip_spaces|]. intros _ q Hq.
  apply (eats_bind 1); [apply eats_require_char|]. intros _ q' Hq'.
  apply (eats_bind 0); [apply eats_skip_spaces|]. intros _ r Hr. apply eats_get.
  eapply eats_weaken; [apply (eats_list_loop _ _ _ (len p - 1))|]; [|unfold len in *; lia..].
  intros. apply Hf. lia.
Qed.

Lemma eats_numbers {A} close push (a : A) fuel p :
  len p < fuel → eats 1 (read.numbers close push fuel a) p.
Proof.
  revert a p. induction fuel as [|fuel IH]; intros a p Hp; [lia|]. apply eats_get.
  case_match; [|apply (eats_bind 1); [apply eats_require_char|intros; apply eats_ret]].
  apply (eats_bind 1); [apply eats_read_integral|]. intros v q Hq.
  apply (eats_bind 0); [apply eats_skip_spaces|]. intros _ q' Hq'.
  eapply eats_weaken; [apply IH|]; lia.
Qed.
Lemma eats_read_numbers {A} close push (a : A) p : eats 1 (read.read_numbers close push a) p.
Proof.
  apply (eats_bind 0); [apply eats_skip_spaces|]. intros _ q _. apply eats_get, eats_numbers.
  unfold len. lia.
Qed.

(** One step of a parser that is a sequence of smaller ones. *)
Ltac eat :=
  first
    [ apply eats_ret | apply eats_fail | apply eats_get
    | eapply eats_bind;
        [ first
            [ eapply eats_current; eassumption | apply eats_skip_weak | apply eats_skip_spaces
            | apply eats_require_char | apply eats_require_string | apply eats_plain_character
            | apply eats_plain_string | apply eats_identifier | apply eats_read_numbers ]
        | intros ? ? ? ] ].

Section read.
Context (rd : P value_type) (n : nat) (Hrd : ∀ r, len r < n → eats 1 rd r).

Lemma eats_map_item m r : len r < n → eats 1 (read.map_item rd m) r.
Proof.
  intros Hr. eapply eats_bind; [by apply Hrd|]. intros key q Hq. do 2 eat.
  eapply eats_bind; [apply Hrd; lia|]. intros. apply eats_ret.
Qed.
Lemma eats_struct_item m r : len r < n → eats 1 (read.struct_item rd m) r.
Proof.
  intros Hr. do 4 eat. eapply eats_bind; [apply Hrd; simpl in *; lia|]. intros. apply eats_ret.
Qed.
Lemma eats_list_item l r : len r < n → eats 1 (read.list_item rd l) r.
Proof. intros Hr. eapply eats_bind; [by apply Hrd|]. intros. apply eats_ret. Qed.
Lemma eats_set_item l r : len r < n → eats 1 (read.set_item rd l) r.
Proof. intros Hr. eapply eats_bind; [by apply Hrd|]. intros. apply eats_ret. Qed.

Lemma eats_container {A} sep close (f : A → P A) open a (k : A → value_type) j r :
  len r ≤ n → (∀ a r', len r' < n → eats 1 (f a) r') → j ≤ 1 →
  eats j (l ← require.list_ sep close f open a; mret (k l)) r.
Proof.
  intros Hr Hf Hj. eapply eats_weaken; [|exact Hj].
  eapply eats_bind; [apply eats_list; intros; apply Hf; lia|]. intros. apply eats_ret.
Qed.

Lemma eats_read_dispatch c q :
  position.current q = Some c → len q ≤ n → eats 1 (read.read_dispatch rd (Some c)) q.
Proof.
  intros Hc Hq. destruct c as [[] [] [] [] [] [] [] []]; try apply eats_read_num.
  all: unfold read.read_dispatch; repeat eat.
  all: try (apply eats_container; [simpl in *; lia| |lia];
            auto using eats_map_item, eats_struct_item, eats_list_item, eats_set_item).
  match goal with |- eats _ (match position.current ?r with _ => _ end) _ =>
    destruct (position.current r) as [c|] eqn:Hc'; [|apply eats_fail] end.
  destruct c as [[] [] [] [] [] [] [] []]; try apply eats_fail; repeat eat.
  all: apply eats_container; [simpl in *; lia| |lia];
       auto using eats_map_item, eats_struct_item, eats_list_item, eats_set_item.
Qed.
End read.

Lemma eats_read_value fuel p : len p < fuel → eats 1 (read.read_value fuel) p.
Proof.
  revert p. induction fuel as [|fuel IH]; intros p Hp; [lia|].
  do 2 eat. destruct (position.current q) as [c|] eqn:Hc; [|apply eats_fail].
  apply (eats_read_dispatch _ fuel); [auto|done|lia].
Qed.
Lemma eats_read p : eats 1 read.read p.
Proof. apply eats_get, eats_read_value. unfold len. lia. Qed.

(** ** The tokenizer *)
Abbreviation T A := (M tokenizer.type exn A).
Definition tlen (t : tokenizer.type) : nat := len (tokenizer.pos t).

Definition teats {A} (k : nat) (m : T A) (t : tokenizer.type) : Prop :=
  match m t with
  | (Ret _, u) => tlen u + k ≤ tlen t
  | (Throw e, _) => ¬ internal e
  end.

Lemma teats_weaken {A} k j (m : T A) t : teats k m t → j ≤ k → teats j m t.
Proof. unfold teats. destruct (m t) as [[]]; [lia|done]. Qed.
Lemma teats_ret {A} (a : A) t : teats 0 (mret a) t.
Proof. unfold teats. simpl. lia. Qed.
Lemma teats_bind {A B} j k (m : T A) (f : A → T B) t :
  teats j m t → (∀ a u, tlen u + j ≤ tlen t → teats (k - j) (f a) u) → teats k (m ≫= f) t.
Proof.
  unfold teats, mbind, M_bind. destruct (m t) as [[a|e] u]; [|done].
  intros Hu Hf. specialize (Hf a u Hu). destruct (f a u) as [[]]; [lia|done].
Qed.
Lemma teats_get {A} k (f : tokenizer.type → T A) t : teats k (f t) t → teats k (get ≫= f) t.
Proof. done. Qed.
Lemma teats_on_pos {A} k (m : P A) t : eats k m (tokenizer.pos t) → teats k (tokenizer.on_pos m) t.
Proof. unfold teats, tokenizer.on_pos, eats. destruct (m (tokenizer.pos t)) as [[] q]; done. Qed.
Lemma teats_set_token tok t : teats 0 (tokenizer.do_set_token tok) t.
Proof. unfold teats, tlen. simpl. lia. Qed.
Lemma teats_set_value v t : teats 0 (tokenizer.do_set_value v) t.
Proof. unfold teats, tlen. simpl. lia. Qed.
Lemma teats_expected {A} what k t : teats k (tokenizer.expected what : T A) t.
Proof. unfold teats. simpl. tauto. Qed.
Lemma teats_unary tok what t : teats 0 (tokenizer.do_unary tok what) t.
Proof.
  apply teats_get. destruct (token.next_can_be_unary _); [apply teats_set_token|].
  unfold teats. simpl. tauto.
Qed.
Lemma teats_either c (f g : T unit) t :
  (∀ u, tlen u ≤ tlen t → teats 0 f u) → teats 0 g t → teats 0 (tokenizer.either c f g) t.
Proof.
  intros Hf Hg. apply teats_get. destruct (tokenizer.next_is c t); [|done].
  apply (teats_bind 0); [apply teats_on_pos, eats_skip_weak|]. intros _ u Hu. apply Hf. lia.
Qed.

Lemma within_skip_comment open outer k s :
  within (String.length s) (tokenizer.skip_comment open outer k s).
Proof.
  revert open outer k. induction s as [s IH] using (well_founded_induction
    (well_founded_ltof _ String.length)); unfold ltof in IH. intros open outer k.
  destruct s as [|c [|c' s]]; [simpl; tauto..|]. simpl. repeat case_match.
  all: try (eapply within_weaken; [apply IH; simpl; lia|simpl; lia]).
  all: unfold within, len; simpl; try lia.
Qed.

Lemma teats_identifier_loop fuel t : tlen t < fuel → teats 1 (tokenizer.identifier_loop fuel) t.
Proof.
  revert t. induction fuel as [|fuel IH]; intros t Ht; [lia|].
  apply (teats_bind 1); [apply teats_on_pos, eats_identifier|]. intros id u Hu.
  apply (teats_bind 0); [unfold teats, tlen; simpl; lia|]. intros _ v Hv.
  apply teats_get. destruct (position.at_end _); [apply teats_expected|].
  apply (teats_bind 0).
  { case_match; [apply teats_on_pos, eats_skip_weak|apply teats_ret]. }
  intros _ w Hw. apply teats_get. case_match; [|apply teats_ret].
  eapply teats_weaken; [apply IH|]; lia.
Qed.
Lemma teats_identifier t : teats 0 tokenizer.do_identifier t.
Proof.
  apply (teats_bind 0); [unfold teats, tlen; simpl; lia|]. intros _ u Hu. apply teats_get.
  apply (teats_bind 1); [apply teats_identifier_loop; unfold tlen, len; lia|]. intros _ v Hv.
  apply (teats_weaken 1); [apply teats_on_pos, eats_require_char|lia].
Qed.

(** The tree of keys is not deeper than the bound of [tokenize]. *)
Fixpoint fits (depth : nat) (m : tokenizer.child_type) : bool :=
  match depth with
  | O => false
  | S depth =>
      forallb (λ cn, match cn.2 with
                     | tokenizer.leaf _ => true
                     | tokenizer.children m => fits depth m
                     end) m
  end.

Lemma fits_description : fits tokenizer.max_depth tokenizer.description = true.
Proof. vm_compute. reflexivity. Qed.

Lemma fits_child depth m c m' :
  fits (S depth) m = true → tokenizer.find_child c m = Some (tokenizer.children m') →
  fits depth m' = true.
Proof.
  simpl. intros Hm. induction m as [|[d n] m IH]; simpl in *; [done|].
  apply andb_prop in Hm as [Hn Hm]. case_bool_decide; [|auto]. intros [= ->]. done.
Qed.

Lemma teats_tokenize depth first m t :
  fits depth m = true → teats 1 (tokenizer.tokenize depth first m) t.
Proof.
  revert first m t. induction depth as [|depth IH]; intros first m t Hm; [done|].
  apply teats_get. destruct (tokenizer.is_eof (tokenizer.pos t)) eqn:Heof; [apply teats_expected|].
  assert (∀ c, position.current (tokenizer.pos t) = Some c →
               teats 1 (tokenizer.on_pos require.skip) t) as Hskip.
  { intros c Hc. by eapply teats_on_pos, eats_current. }
  destruct (position.current (tokenizer.pos t)) as [c|] eqn:Hc; simpl.
  2: { unfold tokenizer.is_eof, position.at_end in Heof. unfold position.current in Hc.
       destruct (position.rest (tokenizer.pos t)); done. }
  destruct (tokenizer.find_child c m) as [[m'|f]|] eqn:Hf.
  - apply (teats_bind 1); [by eapply Hskip|]. intros _ u Hu.
    eapply teats_weaken; [apply IH; by eapply fits_child|lia].
  - apply (teats_bind 1); [by eapply Hskip|]. intros _ u Hu. apply teats_ret.
  - destruct first; [|apply teats_expected].
    apply (teats_bind 1); [apply teats_on_pos, eats_read|]. intros v u Hu.
    apply (teats_bind 0); [apply teats_set_value|]. intros; apply teats_ret.
Qed.

(** What the next token costs: a character, unless the input is used up. *)
Definition progress (t : tokenizer.type) (r : outcome exn unit * tokenizer.type) : Prop :=
  match r with
  | (Ret _, u) => tlen u < tlen t ∨ tokenizer.current u = token.eof ∧ tlen u = 0
  | (Throw e, _) => ¬ internal e
  end.

Lemma progress_trans t u r : progress u r → tlen u ≤ tlen t → progress t r.
Proof. destruct r as [[] v]; simpl; [|done]. intros [|]; [left; lia|by right]. Qed.
Lemma teats_progress (m : T unit) t u : teats 0 m u → tlen u < tlen t → progress t (m u).
Proof. unfold teats, progress. destruct (m u) as [[] v]; [left; lia|done]. Qed.

Lemma progress_perform next f t u :
  tlen u < tlen t → (∀ v, tlen v < tlen t → progress t (next v)) →
  progress t (tokenizer.perform next f u).
Proof.
  intros Hu Hnext.
  assert (∀ tok v, teats 0 (tokenizer.do_set_token tok) v) as Hset by apply teats_set_token.
  destruct f; cbn [tokenizer.perform];
    first [match goal with |- context [next] => idtac end | apply teats_progress; [|done]].
  - apply teats_either; [done|apply teats_unary].
  - apply teats_identifier.
  - by apply teats_either.
  - by apply teats_either.
  - by apply teats_either.
  - by apply teats_get.
  - unfold tokenizer.either. rewrite bind_get. destruct (tokenizer.next_is "*" u).
    2: { by apply teats_progress. }
    pose proof (teats_on_pos 0 require.skip u (eats_skip_weak _)) as Hskip.
    unfold teats in Hskip. unfold mbind at 1, M_bind at 1.
    destruct (tokenizer.on_pos require.skip u) as [[[]|e] v]; [|done].
    assert (teats 0 (tokenizer.on_pos (λ p, tokenizer.skip_comment (position.eaten p) []
              (position.eaten p) (position.rest p))) v) as Hc.
    { apply teats_on_pos, within_eats; [|lia]. eapply within_weaken;
        [apply within_skip_comment|unfold len; lia]. }
    unfold teats in Hc. unfold mbind, M_bind.
    destruct (tokenizer.on_pos _ v) as [[[]|e] w]; [|done]. apply Hnext. lia.
  - by apply teats_either.
  - done.
  - apply teats_set_value.
  - apply teats_unary.
Qed.

Lemma increment_S fuel :
  tokenizer.increment (S fuel) =
  (tokenizer.on_pos require.skip_spaces ≫= λ _,
   get ≫= λ t : tokenizer.type,
   if tokenizer.is_eof (tokenizer.pos t) then
     (if position.at_end (tokenizer.pos t) then mret tt else tokenizer.on_pos require.skip) ≫= λ _,
     tokenizer.do_set_token token.eof
   else
     f ← tokenizer.tokenize tokenizer.max_depth true tokenizer.description;
     match f with
     | Some f => tokenizer.perform (tokenizer.increment fuel) f
     | None => mret tt
     end).
Proof. done. Qed.

Lemma progress_increment fuel t : tlen t < fuel → progress t (tokenizer.increment fuel t).
Proof.
  revert t. induction fuel as [|fuel IH]; intros t Ht; [lia|]. rewrite increment_S.
  pose proof (teats_on_pos 0 require.skip_spaces t (eats_skip_spaces _)) as Hskip.
  unfold teats in Hskip. unfold mbind at 1, M_bind at 1.
  destruct (tokenizer.on_pos require.skip_spaces t) as [[[]|e] u]; [|done].
  rewrite bind_get. destruct (tokenizer.is_eof (tokenizer.pos u)) eqn:Heof.
  - destruct (position.at_end (tokenizer.pos u)) eqn:Hend.
    + right. split; [done|]. unfold position.at_end in Hend. apply bool_decide_eq_true in Hend.
      unfold tlen, len. simpl. by rewrite Hend.
    + left. unfold tokenizer.is_eof in Heof. rewrite Hend in Heof. simpl in Heof.
      pose proof (teats_on_pos 1 require.skip u (eats_skip_at _ _ Heof)) as Hs.
      unfold teats in Hs. simpl in Hs. unfold tlen in *. simpl in *. lia.
  - pose proof (teats_tokenize _ true _ u fits_description) as Htok. unfold teats in Htok.
    unfold mbind at 1, M_bind at 1. destruct (tokenizer.tokenize _ _ _ u) as [[[f|]|e] v]; [| |exact Htok].
    + apply progress_perform; [lia|]. intros w Hw. apply (progress_trans _ w); [apply IH|]; lia.
    + left. simpl. lia.
Qed.

Lemma progress_next t : progress t (tokenizer.next t).
Proof. unfold tokenizer.next. rewrite bind_get. apply progress_increment. unfold tlen, len. lia. Qed.

(** ** The parser

    The operator stack ends with [eof]; above it there is no operand and no
    second [eof], and a right parenthesis only on top, right above its left
    parenthesis. *)
Definition pushable (t : token.type) : bool :=
  match t with token.rpr | token.val | token.ref | token.eof => false | _ => true end.
Definition open_stack (ops : list token.type) : Prop :=
  ∃ l, ops = l ++ [token.eof] ∧ forallb pushable l = true.
Definition wf_stack (ops : list token.type) : Prop :=
  open_stack ops ∨ ∃ ops', ops = token.rpr :: token.lpr :: ops' ∧ open_stack ops'.

Lemma open_stack_push t ops : pushable t = true → open_stack ops → open_stack (t :: ops).
Proof. intros Ht (l & -> & Hl). exists (t :: l). simpl. by rewrite Ht. Qed.
Lemma open_stack_pop t ops : open_stack (t :: ops) → t ≠ token.eof → open_stack ops.
Proof.
  intros ([|x l] & Heq & Hl) Ht; simplify_eq/=. apply andb_prop in Hl as [_ Hl]. by exists l.
Qed.
Lemma open_stack_top ops : open_stack ops → ∃ t ops', ops = t :: ops' ∧ (t = token.eof ∨ pushable t = true).
Proof.
  intros ([|x l] & -> & Hl); simpl in *; [eauto|]. apply andb_prop in Hl as [Hx _]. eauto.
Qed.
Lemma wf_stack_top ops :
  wf_stack ops → ∃ t ops', ops = t :: ops' ∧ t ≠ token.val ∧ t ≠ token.ref.
Proof.
  intros [(t & ops' & -> & [->|Ht])%open_stack_top|(ops' & -> & _)]; eexists _, _; split; try done.
  split; by intros ->.
Qed.

(** What the action table promises, for every top of the stack and every
    token that the parser looks up. *)
Definition table_entry (top inp : token.type) : bool :=
  match action.action top inp with
  | Throw _ => false
  | Ret action.reduce => negb (bool_decide (top = token.eof))
  | Ret action.shift =>
      negb (bool_decide (top = token.rpr)) &&
      (pushable inp || bool_decide (inp = token.rpr ∧ top = token.lpr))
  | Ret _ => true
  end.
Definition operand (t : token.type) : bool :=
  match t with token.val | token.ref => true | _ => false end.

Lemma table_checked :
  forallb (λ top, operand top || forallb (λ inp, operand inp || table_entry top inp) token.all)
    token.all = true.
Proof. vm_compute. reflexivity. Qed.

Lemma in_all t : t ∈ token.all.
Proof. eapply list_elem_of_lookup_2, token.all_index. Qed.

Lemma table_entries top inp :
  operand top = false → operand inp = false → table_entry top inp = true.
Proof.
  intros Htop Hinp. pose proof table_checked as Hc.
  pose proof (proj1 (forallb_forall _ _) Hc top (proj1 (list_elem_of_In _ _) (in_all top))) as Ht.
  cbn beta in Ht. rewrite Htop in Ht. cbn [orb] in Ht.
  pose proof (proj1 (forallb_forall _ _) Ht inp (proj1 (list_elem_of_In _ _) (in_all inp))) as Hi.
  cbn beta in Hi. by rewrite Hinp in Hi.
Qed.

(** [safe m Q p]: run at [p], no internal failure, and [Q] if it returns. *)
Definition safe {A} (m : M parser.type exn A) (Q : parser.type → Prop) (p : parser.type) : Prop :=
  match m p with
  | (Ret _, q) => Q q
  | (Throw e, _) => ¬ internal e
  end.

Lemma safe_bind {A B} (m : M parser.type exn A) (f : A → M parser.type exn B) Q R p :
  safe m Q p → (∀ a q, Q q → safe (f a) R q) → safe (m ≫= f) R p.
Proof.
  unfold safe, mbind, M_bind. destruct (m p) as [[a|e] q]; [|done]. intros HQ Hf. by apply Hf.
Qed.
Lemma safe_weaken {A} (m : M parser.type exn A) (Q R : parser.type → Prop) p :
  safe m Q p → (∀ q, Q q → R q) → safe m R p.
Proof. unfold safe. destruct (m p) as [[]]; [auto|done]. Qed.
Lemma safe_lift {A B} (o : outcome exn A) (f : A → M parser.type exn B) R p :
  sound o → (∀ a, o = Ret a → safe (f a) R p) → safe (lift o ≫= f) R p.
Proof. destruct o; intros Ho Hf; [by apply Hf|exact Ho]. Qed.

Section parser.
Context `{Float.Libm}.

Definition same_ops (p q : parser.type) : Prop := parser.op_stack q = parser.op_stack p.

Lemma safe_pop_operand which k p : safe (parser.pop_operand which k) (same_ops p) p.
Proof.
  unfold safe, parser.pop_operand. rewrite bind_get.
  destruct (parser.unsnoc _) as [[rest c]|]; [done|]. simpl. tauto.
Qed.
Lemma safe_emplace_back c p : safe (parser.emplace_back c) (same_ops p) p.
Proof. done. Qed.
Lemma sound_get n : sound (node.get n).
Proof. destruct n; simpl; tauto. Qed.

(** the operand stack changes, the operator stack does not *)
Ltac operands :=
  repeat (eapply safe_bind; [apply safe_pop_operand|]; intros ? ? ?Hq);
  repeat (case_match; try solve [unfold safe; simpl; tauto]);
  try (apply safe_lift; [|intros ? _]);
  try (eapply safe_weaken; [apply safe_emplace_back|]; unfold same_ops in *; congruence).

Lemma safe_unary t k p : safe (parser.unary t k) (same_ops p) p.
Proof. unfold parser.unary. operands. apply sound_bind; [apply sound_get|apply sound_unary]. Qed.
Lemma safe_binary t k p : safe (parser.binary t k) (same_ops p) p.
Proof.
  unfold parser.binary. operands. apply sound_bind; [apply sound_get|]. intros l.
  apply sound_bind; [apply sound_get|]. intros r. apply sound_binary.
Qed.
Lemma safe_ternary t k p : safe (parser.ternary t k) (same_ops p) p.
Proof. unfold parser.ternary. operands. Qed.

Lemma safe_top p t ops (f : token.type → M parser.type exn unit) R :
  parser.op_stack p = t :: ops → safe (f t) R p → safe (parser.top ≫= f) R p.
Proof. intros Hp. unfold safe, parser.top, mbind, M_bind, get, lift. by rewrite Hp. Qed.
Lemma safe_pop p t ops :
  parser.op_stack p = t :: ops → safe parser.pop (λ q, parser.op_stack q = ops) p.
Proof. intros Hp. unfold safe, parser.pop. rewrite bind_get. by rewrite Hp. Qed.

(** A reduction leaves a shorter stack in which no parenthesis is pending. *)
Lemma safe_reduce k p t ops :
  wf_stack (parser.op_stack p) → parser.op_stack p = t :: ops → t ≠ token.eof →
  safe (parser.reduce k) (λ q, open_stack (parser.op_stack q) ∧
    length (parser.op_stack q) < length (parser.op_stack p)) p.
Proof.
  intros Hwf Hp Ht. unfold parser.reduce. eapply safe_top; [done|].
  destruct (decide (t = token.rpr)) as [->|Hr].
  - destruct Hwf as [(t' & ops' & Heq & Htop)%open_stack_top|(ops' & Heq & Hopen)].
    { rewrite Hp in Heq. simplify_eq. by destruct Htop. }
    rewrite Hp in Heq. simplify_eq.
    eapply safe_bind; [by eapply safe_pop|]. simpl. intros _ q Hq.
    eapply safe_weaken; [by eapply safe_pop|]. simpl. intros r ->. split; [done|].
    rewrite Hp. simpl. lia.
  - assert (open_stack (t :: ops)) as Hopen.
    { rewrite Hp in Hwf. destruct Hwf as [|(? & Heq & _)]; [done|]. simplify_eq. }
    apply (safe_bind _ _ (same_ops p)).
    { destruct t; auto using safe_unary, safe_binary, safe_ternary; done. }
    intros _ q Hq. eapply safe_weaken; [eapply safe_pop; by rewrite Hq|]. simpl. intros r ->.
    split; [by eapply open_stack_pop|]. rewrite Hp. simpl. lia.
Qed.

Lemma safe_act fuel inp k p :
  operand inp = false → wf_stack (parser.op_stack p) → length (parser.op_stack p) < fuel →
  safe (parser.act fuel inp k) (λ q, wf_stack (parser.op_stack q)) p.
Proof.
  intros Hinp. revert p. induction fuel as [|fuel IH]; intros p Hwf Hlen; [lia|].
  destruct (wf_stack_top _ Hwf) as (t & ops & Hp & Hval & Href). cbn [parser.act].
  eapply safe_top; [done|].
  assert (operand t = false) as Hop by (by destruct t).
  pose proof (table_entries t inp Hop Hinp) as Htab. unfold table_entry in Htab.
  destruct (action.action t inp) as [a|e] eqn:Ha; [|done].
  apply safe_lift; [done|]. intros a' [= <-].
  destruct a; try solve [unfold safe; simpl; tauto].
  - apply andb_prop in Htab as [Hrpr Hpush]. apply negb_true_iff, bool_decide_eq_false in Hrpr.
    assert (open_stack (t :: ops)) as Hopen.
    { rewrite Hp in Hwf. destruct Hwf as [|(? & Heq & _)]; [done|]. simplify_eq. }
    unfold safe. simpl. rewrite Hp. apply orb_prop in Hpush as [Hpush|[-> ->]%bool_decide_eq_true].
    + left. by apply open_stack_push.
    + right. exists ops. split; [done|]. by eapply open_stack_pop.
  - apply negb_true_iff, bool_decide_eq_false in Htab.
    eapply safe_bind; [by eapply safe_reduce|]. simpl. intros _ q [Hq Hl].
    apply IH; [by left|lia].
Qed.

Lemma safe_feed t p :
  wf_stack (parser.op_stack p) → safe (parser.feed t) (λ q, wf_stack (parser.op_stack q)) p.
Proof.
  intros Hwf. unfold parser.feed.
  destruct (tokenizer.current t) eqn:Ht; try done.
  all: unfold safe; rewrite bind_get; apply safe_act; [done..|lia].
Qed.

Lemma safe_parse_loop fuel t p :
  wf_stack (parser.op_stack p) → tlen t < fuel →
  safe (parser.parse_loop fuel t) (λ q, wf_stack (parser.op_stack q)) p.
Proof.
  revert t p. induction fuel as [|fuel IH]; intros t p Hwf Hlen; [lia|].
  cbn [parser.parse_loop]. pose proof (progress_next t) as Hnext.
  destruct (tokenizer.next t) as [r t']. apply safe_lift; [by destruct r|]. intros [] ->.
  eapply safe_bind; [by apply safe_feed|]. simpl. intros _ q Hq.
  destruct (bool_decide (tokenizer.current t' = token.eof)) eqn:Heof; simpl.
  - destruct (position.at_end _) eqn:Hend; [done|]. apply IH; [done|].
    destruct Hnext as [|[_ Hz]]; [lia|]. unfold position.at_end in Hend.
    apply bool_decide_eq_false in Hend. destruct Hend. unfold tlen, len in Hz.
    by destruct (position.rest _).
  - apply IH; [done|]. apply bool_decide_eq_false in Heof. destruct Hnext as [|[? _]]; [lia|done].
Qed.

(** C29: Parsing an expression ends and never leaves the operator stack: for
    every input the bounds of the modelled loops of the reader, the tokenizer
    and the parser suffice, [top] and [pop] are never called on an empty
    stack, the action table never needs a precedence that does not exist; and
    after a successful parse the stack is well formed.  What is thrown is an error of reading, or
    of evaluating a function of constants, which the parser does at once; such an evaluation is
    the only thing that may be undefined in C++ ([undefined_on_values]: the overflow of
    2147483647 + 1, the conversion of the largest float in 1f). *)
Theorem parse_safe input :
  let '(r, p) := parser.parse input (parser.mk [] [] []) in
  match r with
  | Ret _ => wf_stack (parser.op_stack p)
  | Throw e => ¬ internal e
  end.
Proof.
  assert (wf_stack [token.eof]) as Hwf by (left; by exists []).
  change (parser.parse input (parser.mk [] [] [])) with
    ((if position.at_end (position.make input) then mret tt
      else parser.parse_loop (2 + String.length input) (tokenizer.make (position.make input)))
       (parser.mk [token.eof] [] [])).
  destruct (position.at_end _); [done|].
  pose proof (safe_parse_loop (2 + String.length input) (tokenizer.make (position.make input))
                (parser.mk [token.eof] [] []) Hwf) as Hloop.
  unfold safe in Hloop. destruct (parser.parse_loop _ _ _) as [r p].
  destruct r; apply Hloop; unfold tlen, len; simpl; lia.
Qed.
End parser.

End Safe.
