(* ===== verification/ParserPrint.v ===== *)
(** * Parsing what was printed

    [expression_t] is stored as the text that [parser::string] prints and is
    parsed again when it is loaded ([expression.hpp]).  Parsing the printed
    text gives the syntax trees back whenever the constants in them can be
    read back. *)

From S2P Require Import Prelude Value OrderSpec Token Bitset Function Position Num NumSpec ReadShow ReadShowSpec Tokenizer Expr Parser ParserSafe.

Import NumSpec ReadShow.

Module RoundTrip.

(** ** The forms of operators

    as [parser::reduce] treats them *)
Definition is_infix (t : token.type) : bool :=
  match t with
  | token._or_boolean | token._or_integral | token._and_boolean | token._and_integral
  | token.lt | token.le | token.gt | token.ge | token.ne | token.eq | token.add | token.sub
  | token.mul | token.div | token.divint | token.modint | token._pow | token._powint
  | token.define => true
  | _ => false
  end.
Definition is_unary (t : token.type) : bool :=
  match t with
  | token._not | token.neg | token._bitset_tohex | token._bitset_fromhex | token._bitset_count
  | token._stack_empty | token._stack_top | token._stack_pop | token._stack_size
  | token._map_size | token._map_empty
  | token._set_pop | token._set_top | token._set_empty | token._set_size
  | token._floor | token._ceil | token._round | token._sin | token._cos | token._sqrt
  | token._log | token._toint | token._tolong | token._touint | token._toulong
  | token._tofloat | token._todouble | token.abs => true
  | _ => false
  end.
Definition is_binary_function (t : token.type) : bool :=
  match t with
  | token._bitset_insert | token._bitset_delete | token._bitset_is_element
  | token._bitset_or | token._bitset_and | token._bitset_xor
  | token._stack_push | token._stack_join
  | token._map_unassign | token._map_is_assigned | token._map_get_assignment
  | token._set_insert | token._set_erase | token._set_is_subset | token._set_is_element
  | token.min | token.max => true
  | _ => false
  end.

(** The trees that parsing can produce: operators with their arity, keys of
    identifiers, constants folded, references on the left of [:=]. *)
Inductive shape (constant : value_type → Prop) : node.type → Prop :=
| shape_value v : constant v → shape constant (node.value v)
| shape_ref key : key ≠ [] → Forall (λ k, is_identifier k = true) key → shape constant (node.ref key)
| shape_unary t c :
    is_unary t = true → node.is_value c = false → shape constant c →
    shape constant (node.unary t c)
| shape_binary t l r :
    is_infix t || is_binary_function t = true →
    node.is_value l && node.is_value r = false →
    (t = token.define → node.is_ref l = true) →
    shape constant l → shape constant r →
    shape constant (node.binary t l r)
| shape_ternary a b c :
    shape constant a → shape constant b → shape constant c →
    shape constant (node.ternary token._map_assign a b c).

(** Trees whose constants can be read back. *)
Abbreviation printable := (shape readable).

(** ** Tokens of printed text *)
Abbreviation at_ := position.mk.

Lemma tokenize_keys :
  Forall (λ kf, ∀ k rest cur v r,
    tokenizer.tokenize tokenizer.max_depth true tokenizer.description
      (tokenizer.mk (at_ k (kf.1 +:+ rest)) cur v r)
    = (Ret (Some kf.2), tokenizer.mk (at_ (String.length kf.1 + k) rest) cur v r))
  tokenizer.entries.
Proof. repeat constructor; intros; vm_compute; reflexivity. Qed.

(** Every key starts with a character that is neither a space nor the end of
    an expression. *)
Lemma keys_start :
  forallb (λ kf, match kf.1 with
                 | String c _ => negb (char.isspace c) && negb (bool_decide (c = ";"%char))
                 | "" => false
                 end) tokenizer.entries = true.
Proof. vm_compute. reflexivity. Qed.

(** At most one space. *)
Definition blank (sp : string) : Prop := sp = "" ∨ sp = " ".

Lemma skip_blank sp k s :
  blank sp → starts char.isspace s = false →
  require.skip_spaces (at_ k (sp +:+ s)) = (Ret tt, at_ (String.length sp + k) s).
Proof. intros [->| ->] Hs; [by apply skip_spaces_run|by apply skip_one_space]. Qed.

(** The first token behind at most one space. *)
Lemma increment_run sp fuel k c s cur v r :
  blank sp → char.isspace c = false → c ≠ ";"%char →
  tokenizer.increment (S fuel) (tokenizer.mk (at_ k (sp +:+ String c s)) cur v r) =
  (f ← tokenizer.tokenize tokenizer.max_depth true tokenizer.description;
   match f with
   | Some f => tokenizer.perform (tokenizer.increment fuel) f
   | None => mret tt
   end) (tokenizer.mk (at_ (String.length sp + k) (String c s)) cur v r).
Proof.
  intros Hsp Hc Hsemi. rewrite Safe.increment_S.
  unfold mbind at 1, M_bind at 1, tokenizer.on_pos at 1. cbn [tokenizer.pos].
  rewrite skip_blank by (done || by simpl). cbn [tokenizer.current tokenizer.tokval tokenizer.ref].
  rewrite bind_get. cbn [tokenizer.pos].
  assert (tokenizer.is_eof (at_ (String.length sp + k) (String c s)) = false) as ->; [|done].
  unfold tokenizer.is_eof, position.at_end, require.looking_at, require.is_char. simpl.
  rewrite !bool_decide_false by done. done.
Qed.

Lemma increment_key key f sp fuel k rest cur v r :
  (key, f) ∈ tokenizer.entries → blank sp →
  tokenizer.increment (S fuel) (tokenizer.mk (at_ k (sp +:+ key +:+ rest)) cur v r) =
  tokenizer.perform (tokenizer.increment fuel) f
    (tokenizer.mk (at_ (String.length key + (String.length sp + k)) rest) cur v r).
Proof.
  intros Hin Hsp. pose proof (proj1 (Forall_forall _ _) tokenize_keys _ Hin) as Htok.
  pose proof (proj1 (forallb_forall _ _) keys_start _ (proj1 (list_elem_of_In _ _) Hin)) as Hstart.
  cbn [fst snd] in *. destruct key as [|c key]; [done|].
  apply andb_prop in Hstart as [Hc Hsemi]. rewrite string_app_cons, increment_run;
    [|done|by apply negb_true_iff|by apply negb_true_iff, bool_decide_eq_false in Hsemi].
  rewrite <- string_app_cons. unfold mbind, M_bind. by rewrite Htok.
Qed.

(** [lexes s cur tok rest]: behind the token [cur], the text [s] starts with
    the token [tok], which is no operand, and goes on with [rest]. *)
Definition lexes (s : string) (cur tok : token.type) (rest : string) : Prop :=
  ∀ k v r, ∃ k', tokenizer.next (tokenizer.mk (at_ k s) cur v r) =
                 (Ret tt, tokenizer.mk (at_ k' rest) tok v r).

(** How an action ends, with what follows in the text. *)
Definition performs (f : tokenizer.action) (s : string) (cur tok : token.type) (rest : string) : Prop :=
  ∀ next k v r, ∃ k', tokenizer.perform next f (tokenizer.mk (at_ k s) cur v r) =
                      (Ret tt, tokenizer.mk (at_ k' rest) tok v r).

Lemma lexes_key key f sp s cur tok rest :
  (key, f) ∈ tokenizer.entries → blank sp → performs f s cur tok rest →
  lexes (sp +:+ key +:+ s) cur tok rest.
Proof.
  intros Hin Hsp Hf k v r. unfold tokenizer.next. rewrite bind_get.
  rewrite (increment_key _ _ _ _ _ _ _ _ _ Hin Hsp). apply Hf.
Qed.

Lemma performs_set_token tok s cur : performs (tokenizer.set_token tok) s cur tok s.
Proof. intros next k v r. by eexists. Qed.
Lemma performs_unary tok descr s cur :
  token.next_can_be_unary cur = true → performs (tokenizer.unary tok descr) s cur tok s.
Proof.
  intros Hcur next k v r. eexists. cbn [tokenizer.perform]. unfold tokenizer.do_unary.
  rewrite bind_get. cbn [tokenizer.current]. rewrite Hcur. done.
Qed.
Lemma performs_negsub s cur :
  performs tokenizer.negsub s cur
    (if token.next_can_be_unary cur then token.neg else token.sub) s.
Proof. intros next k v r. by eexists. Qed.
Lemma performs_not s cur :
  token.next_can_be_unary cur = true →
  performs tokenizer.notne (String "(" s) cur token._not (String "(" s).
Proof.
  intros Hcur next k v r. eexists. cbn [tokenizer.perform]. unfold tokenizer.either.
  rewrite bind_get. change (tokenizer.next_is "=" _) with false. cbn iota.
  unfold tokenizer.do_unary. rewrite bind_get. cbn [tokenizer.current]. rewrite Hcur. done.
Qed.

(** Membership in the table of keys, decided. *)
Lemma in_entries key f n : tokenizer.entries !! n = Some (key, f) → (key, f) ∈ tokenizer.entries.
Proof. apply list_elem_of_lookup_2. Qed.

Lemma lexes_lpr sp cur rest : blank sp → lexes (sp +:+ "(" +:+ rest) cur token.lpr rest.
Proof.
  intros Hsp. eapply lexes_key; [by apply (in_entries _ (tokenizer.set_token token.lpr) 10)|done|].
  apply performs_set_token.
Qed.
Lemma lexes_rpr cur rest : lexes (")" +:+ rest) cur token.rpr rest.
Proof.
  apply (lexes_key ")" (tokenizer.set_token token.rpr) ""); [by apply (in_entries _ _ 11)|by left|].
  apply performs_set_token.
Qed.
Lemma lexes_sep cur rest : lexes ("," +:+ rest) cur token.sep rest.
Proof.
  apply (lexes_key "," (tokenizer.set_token token.sep) ""); [by apply (in_entries _ _ 13)|by left|].
  apply performs_set_token.
Qed.

(** Prefix operators and functions, followed by a parenthesis. *)
Definition is_function (t : token.type) : bool :=
  is_unary t || is_binary_function t || bool_decide (t = token._map_assign).

Definition function_entry (t : token.type) : bool :=
  implb (is_function t)
    (bool_decide (t = token.neg) || bool_decide (t = token._not) ||
     existsb (λ kf : string * tokenizer.action,
       bool_decide (kf.1 = token.show t) &&
       match kf.2 with
       | tokenizer.set_token t' => bool_decide (t' = t)
       | tokenizer.unary t' _ => bool_decide (t' = t)
       | _ => false
       end) tokenizer.entries).

Lemma functions_have_entries : forallb function_entry token.all = true.
Proof. vm_compute. reflexivity. Qed.

Lemma lexes_function t sp cur rest :
  is_function t = true → blank sp → token.next_can_be_unary cur = true →
  lexes (sp +:+ token.show t +:+ String "(" rest) cur t (String "(" rest).
Proof.
  intros Ht Hsp Hcur.
  pose proof (proj1 (forallb_forall _ _) functions_have_entries t
                (proj1 (list_elem_of_In _ _) (Safe.in_all t))) as He.
  unfold function_entry in He. rewrite Ht in He. cbn [implb] in He.
  apply orb_prop in He as [[->%bool_decide_eq_true| ->%bool_decide_eq_true]%orb_prop|He].
  - eapply lexes_key; [by apply (in_entries _ tokenizer.negsub 5)|done|].
    pose proof (performs_negsub (String "(" rest) cur) as Hp. by rewrite Hcur in Hp.
  - eapply lexes_key; [by apply (in_entries _ tokenizer.notne 0)|done|]. by apply performs_not.
  - apply existsb_exists in He as ([key f] & Hin & [Hkey Hf]%andb_prop). cbn [fst snd] in *.
    apply bool_decide_eq_true in Hkey as ->. apply list_elem_of_In in Hin.
    eapply lexes_key; [exact Hin|done|].
    destruct f; try done; apply bool_decide_eq_true in Hf as ->.
    + apply performs_set_token.
    + by apply performs_unary.
Qed.

(** Infix operators: what [show] prints behind the operator. *)
Definition trail (t : token.type) : string :=
  match t with token._pow | token._powint => "" | _ => " " end.

Lemma lexes_infix t cur rest :
  is_infix t = true → token.next_can_be_unary cur = false →
  lexes (token.show t +:+ rest) cur t (trail t +:+ rest).
Proof.
  intros Ht Hcur k v r. destruct t; try done; eexists; try (vm_compute; reflexivity).
  change (token.show token.sub +:+ rest) with (" " +:+ "-" +:+ " " +:+ rest).
  unfold tokenizer.next. rewrite bind_get.
  rewrite (increment_key "-" tokenizer.negsub) by (by apply (in_entries _ _ 5) || by right).
  cbn [tokenizer.perform]. rewrite bind_get. cbn [tokenizer.current]. rewrite Hcur. done.
Qed.

Lemma lexes_eof cur rest : lexes (String ";" rest) cur token.eof rest.
Proof. intros k v r. eexists. vm_compute. reflexivity. Qed.

(** ** Operands of printed text *)

(** Constants that are printed with a sign are read as a sign and a
    magnitude. *)
Definition negative (v : value_type) : bool :=
  match v with Vint z | Vlong z => (z <? 0)%Z | _ => false end.
Definition magnitude (v : value_type) : value_type :=
  match v with Vint z => Vint (- z) | Vlong z => Vlong (- z) | _ => v end.

Lemma show_negative v :
  negative v = true → show.show v = "-" +:+ show.show (magnitude v).
Proof.
  destruct v as [| |z|z| | | | | | | | | | | |]; try done; simpl; intros Hz%Z.ltb_lt.
  all: unfold show.integer; rewrite (proj2 (Z.ltb_lt z 0)) by done.
  all: by rewrite (proj2 (Z.ltb_ge (- z) 0)) by lia.
Qed.
Lemma magnitude_readable v :
  readable v → negative v = true → readable (magnitude v) ∧ negative (magnitude v) = false.
Proof.
  destruct 1; try done; simpl; intros Hz%Z.ltb_lt; split;
    try (constructor; lia); by apply Z.ltb_ge; lia.
Qed.
Lemma negate_magnitude `{Float.Libm} v :
  readable v → negative v = true → Function.unary token.neg (magnitude v) = Ret v.
Proof.
  destruct 1; try done; simpl; intros Hz%Z.ltb_lt; unfold Int.checked;
    rewrite decide_True by (unfold Int.in_range; simpl; lia); by rewrite Z.opp_involutive.
Qed.

(** The first character of a constant without a sign. *)
Definition literal_start (c : ascii) : bool :=
  char.isdigit c ||
  existsb (λ d, bool_decide (c = d)) ["["%char; "'"%char; "034"%char; "{"%char; "y"%char; "L"%char;
                                      "S"%char; "M"%char].
Definition starts_literal (c : ascii) : bool :=
  negb (char.isspace c) && negb (bool_decide (c = ";"%char)) &&
  match tokenizer.find_child c tokenizer.description with None => true | Some _ => false end.
Lemma literal_start_spec c : literal_start c = true → starts_literal c = true.
Proof. apply by_ascii. vm_compute. reflexivity. Qed.

Lemma show_literal v :
  readable v → negative v = false → (∀ b, v ≠ Vbool b) → head_is literal_start (show.show v).
Proof.
  assert (∀ z, (0 ≤ z)%Z → head_is literal_start (show.integer z)) as Hint.
  { intros z Hz. unfold show.integer. rewrite (proj2 (Z.ltb_ge z 0)) by done.
    eapply head_is_impl; [by apply natural_head|]. intros c Hc. unfold literal_start. by rewrite Hc. }
  assert (∀ z, (0 ≤ z)%Z → head_is literal_start (show.natural z)) as Hnat.
  { intros z Hz. eapply head_is_impl; [by apply natural_head|].
    intros c Hc. unfold literal_start. by rewrite Hc. }
  destruct 1; cbn [show.show negative]; intros Hneg Hb; try (by eexists _, _).
  - by destruct (Hb b).
  - apply Hint. by apply Z.ltb_ge in Hneg.
  - apply head_is_app, Hint. by apply Z.ltb_ge in Hneg.
  - apply head_is_app, Hint. lia.
  - apply head_is_app, Hint. lia.
Qed.

(** [lexes_operand s cur tok v r rest]: as [lexes], for an operand. *)
Definition lexes_value (s : string) (cur : token.type) (v : value_type) (rest : string) : Prop :=
  ∀ k v' r, ∃ k', tokenizer.next (tokenizer.mk (at_ k s) cur v' r) =
                  (Ret tt, tokenizer.mk (at_ k' rest) token.val v r).
Definition lexes_ref (s : string) (cur : token.type) (key : list string) (rest : string) : Prop :=
  ∀ k v r, ∃ k', tokenizer.next (tokenizer.mk (at_ k s) cur v r) =
                 (Ret tt, tokenizer.mk (at_ k' rest) token.ref v key).

Lemma lexes_bool b sp cur rest :
  blank sp → lexes_value (sp +:+ show.show (Vbool b) +:+ rest) cur (Vbool b) rest.
Proof.
  intros Hsp k v' r. destruct b; eexists; unfold tokenizer.next; rewrite bind_get.
  - change (show.show (Vbool true)) with "true".
    by rewrite (increment_key "true" (tokenizer.set_value (Vbool true)))
      by (by apply (in_entries _ _ 45) || done).
  - change (show.show (Vbool false)) with "false".
    by rewrite (increment_key "false" (tokenizer.set_value (Vbool false)))
      by (by apply (in_entries _ _ 44) || done).
Qed.

Lemma lexes_literal v sp cur rest :
  readable v → head_is literal_start (show.show v) → blank sp → starts continues rest = false →
  lexes_value (sp +:+ show.show v +:+ rest) cur v rest.
Proof.
  intros Hv (c & s & Hs & Hc%literal_start_spec) Hsp Hrest k v' r. eexists.
  unfold starts_literal in Hc. apply andb_prop in Hc as [[Hspace Hsemi]%andb_prop Hkey].
  unfold tokenizer.next. rewrite bind_get. rewrite Hs, string_app_cons.
  rewrite increment_run;
    [|done|by apply negb_true_iff|by apply negb_true_iff, bool_decide_eq_false in Hsemi].
  unfold mbind at 1, M_bind at 1. cbn [tokenizer.max_depth tokenizer.tokenize]. rewrite bind_get.
  cbn [tokenizer.pos]. unfold tokenizer.is_eof, position.at_end, require.looking_at, require.is_char.
  cbn [position.current position.rest]. rewrite bool_decide_false by done.
  apply negb_true_iff in Hsemi. rewrite Hsemi. cbn [orb].
  cbn [mbind option_bind]. destruct (tokenizer.find_child c tokenizer.description); [done|].
  unfold mbind, M_bind, tokenizer.on_pos. cbn [tokenizer.pos].
  unfold read.read. rewrite bind_get. cbn [position.rest].
  rewrite <- string_app_cons, <- Hs.
  rewrite (readable_reads_back v Hv) by (done || rewrite string_length_app; lia).
  reflexivity.
Qed.

Lemma lexes_constant v sp cur rest :
  readable v → negative v = false → blank sp → starts continues rest = false →
  lexes_value (sp +:+ show.show v +:+ rest) cur v rest.
Proof.
  intros Hv Hneg Hsp Hrest. pose proof (show_literal v Hv Hneg) as Hl.
  destruct v; try (apply lexes_literal; [done|by apply Hl|done..]). by apply lexes_bool.
Qed.

Lemma lexes_sign v sp cur rest :
  negative v = true → blank sp → token.next_can_be_unary cur = true →
  lexes (sp +:+ show.show v +:+ rest) cur token.neg (show.show (magnitude v) +:+ rest).
Proof.
  intros Hneg Hsp Hcur. rewrite (show_negative v Hneg), <- string_app_assoc.
  eapply lexes_key; [by apply (in_entries _ tokenizer.negsub 5)|done|].
  pose proof (performs_negsub (show.show (magnitude v) +:+ rest) cur) as Hp. by rewrite Hcur in Hp.
Qed.

(** References: [show_key_vec] separates the components by dots. *)
Fixpoint dotted (key : list string) : string :=
  match key with
  | [] => ""
  | k :: key => "." +:+ k +:+ dotted key
  end.

Lemma show_key_vec_from s key :
  s ≠ "" →
  foldl (λ s k, (if decide (s = "") then s else s +:+ ".") +:+ k) s key = s +:+ dotted key.
Proof.
  revert s. induction key as [|k key IH]; intros s Hs; simpl; [by rewrite string_app_nil_r|].
  rewrite decide_False by done. rewrite IH by (destruct s; done).
  by rewrite <- !string_app_assoc.
Qed.
Lemma show_key_vec_cons k key :
  is_identifier k = true → print.show_key_vec (k :: key) = k +:+ dotted key.
Proof.
  intros Hk. unfold print.show_key_vec. simpl. apply show_key_vec_from. by destruct k.
Qed.

Lemma identifier_start k s :
  is_identifier k = true → ∃ c s', k +:+ s = String c s' ∧ c ≠ "}"%char.
Proof.
  destruct k as [|c k]; [done|]. unfold is_identifier. simpl. intros [Hc _]%andb_prop.
  exists c, (k +:+ s). split; [done|]. by intros ->.
Qed.

Lemma identifier_loop_run key k n fuel v cur acc rest :
  Forall (λ k, is_identifier k = true) (k :: key) → length key < fuel →
  ∃ n', tokenizer.identifier_loop fuel
          (tokenizer.mk (at_ n (k +:+ dotted key +:+ "}" +:+ rest)) cur v acc) =
        (Ret tt, tokenizer.mk (at_ n' (String "}" rest)) cur v (acc ++ k :: key)).
Proof.
  revert k n fuel acc. induction key as [|k' key IH]; intros k n fuel acc Hkey Hfuel;
    apply Forall_cons in Hkey as [Hk Hkey]; (destruct fuel as [|fuel]; [simpl in Hfuel; lia|]).
  all: cbn [tokenizer.identifier_loop]; unfold mbind at 1, M_bind at 1, tokenizer.on_pos at 1;
       cbn [tokenizer.pos]; rewrite identifier_run by done;
       rewrite bind_modify, bind_get; cbn [tokenizer.current tokenizer.tokval tokenizer.ref tokenizer.pos].
  - eexists. reflexivity.
  - apply Forall_cons in Hkey as [Hk' Hkey].
    destruct (IH k' (S (n + String.length k)) fuel (acc ++ [k])) as [n' Hrun];
      [by constructor|simpl in Hfuel; lia|].
    exists n'. rewrite <- app_assoc in Hrun. simpl in Hrun. rewrite <- Hrun.
    destruct (identifier_start k' (dotted key +:+ "}" +:+ rest) Hk') as (c & s & Heq & Hc).
    cbn [dotted]. rewrite <- !string_app_assoc. change ("." +:+ ?s) with (String "." s).
    rewrite Heq.
    transitivity ((if negb (require.is_char "}" c) then tokenizer.identifier_loop fuel else mret tt)
      (tokenizer.mk (at_ (S (n + String.length k)) (String c s)) cur v (acc ++ [k]))); [reflexivity|].
    unfold require.is_char. by rewrite bool_decide_false.
Qed.

Lemma lexes_key_vec key sp cur rest :
  key ≠ [] → Forall (λ k, is_identifier k = true) key → blank sp →
  lexes_ref (sp +:+ "${" +:+ print.show_key_vec key +:+ "}" +:+ rest) cur key rest.
Proof.
  intros Hne Hkey Hsp n v r. destruct key as [|k key]; [done|].
  rewrite show_key_vec_cons by (by apply Forall_cons in Hkey as [? _]).
  unfold tokenizer.next. rewrite bind_get.
  rewrite (increment_key "${" tokenizer.identifier) by (by apply (in_entries _ _ 1) || done).
  cbn [tokenizer.perform]. unfold tokenizer.do_identifier. rewrite bind_modify, bind_get.
  cbn [tokenizer.pos tokenizer.tokval]. rewrite <- string_app_assoc.
  edestruct (identifier_loop_run key k) as [n' Hrun]; [done| |].
  2: { eexists. unfold mbind, M_bind. rewrite Hrun. unfold tokenizer.on_pos. cbn [tokenizer.pos].
       rewrite require_char_run. reflexivity. }
  cbn [position.rest]. rewrite string_length_app.
  assert (length key ≤ String.length (dotted key)) as Hlen.
  { clear. induction key as [|k key IH]; cbn [dotted length]; [lia|]. rewrite !string_length_app. simpl. lia. }
  rewrite string_length_app. lia.
Qed.

(** ** The action table on printed text *)
Definition acts (top inp : token.type) (a : action.type) : bool :=
  match action.action top inp with Ret b => bool_decide (b = a) | Throw _ => false end.
Lemma acts_spec top inp a : acts top inp a = true → action.action top inp = Ret a.
Proof. unfold acts. destruct (action.action top inp); [|done]. by intros ->%bool_decide_eq_true. Qed.

(** Where an operand can start, what can start it and what can follow it. *)
Definition ready (t : token.type) : bool :=
  match t with token.lpr | token.eof => true | _ => is_infix t end.
Definition opens (t : token.type) : bool := bool_decide (t = token.lpr) || is_function t.
Definition follows (t : token.type) : bool :=
  match t with token.rpr | token.sep | token.eof => true | _ => is_infix t end.

Definition table_row (top inp : token.type) : bool :=
  implb (ready top && opens inp) (acts top inp action.shift) &&
  implb (is_function top) (acts top token.lpr action.shift) &&
  implb ((is_function top || bool_decide (top = token.rpr)) && follows inp)
    (acts top inp action.reduce) &&
  implb (is_infix inp) (acts token.lpr inp action.shift) &&
  implb (is_infix top) (acts top token.rpr action.reduce) &&
  implb (negb (bool_decide (inp = token.eof))) (acts token.sep inp action.reduce).

Lemma table_rows_checked :
  forallb (λ top, forallb (table_row top) token.all) token.all = true.
Proof. vm_compute. reflexivity. Qed.

Lemma table_rows top inp : table_row top inp = true.
Proof.
  pose proof (proj1 (forallb_forall _ _) table_rows_checked top
    (proj1 (list_elem_of_In _ _) (Safe.in_all top))) as Ht. cbn beta in Ht.
  exact (proj1 (forallb_forall _ _) Ht inp (proj1 (list_elem_of_In _ _) (Safe.in_all inp))).
Qed.

(** the entries of one row *)
Ltac table top inp :=
  let H := fresh in
  pose proof (table_rows top inp) as H; unfold table_row in H;
  repeat match goal with H' : _ && _ = true |- _ => apply andb_prop in H' as [? ?] end;
  apply acts_spec;
  repeat match goal with
  | Hi : implb ?b (acts _ _ _) = true |- _ =>
      let E := fresh in
      first [ assert (b = true) as E
                by (rewrite ?andb_true_iff, ?orb_true_iff, ?negb_true_iff, ?bool_decide_eq_true,
                      ?bool_decide_eq_false; tauto);
              rewrite E in Hi; exact Hi
            | clear Hi ]
  end.

Lemma act_open top inp :
  ready top = true → opens inp = true → action.action top inp = Ret action.shift.
Proof. intros. table top inp. Qed.
Lemma act_function_lpr top : is_function top = true → action.action top token.lpr = Ret action.shift.
Proof. intros. table top token.lpr. Qed.
Lemma act_function top inp :
  is_function top = true → follows inp = true → action.action top inp = Ret action.reduce.
Proof. intros. table top inp. Qed.
Lemma act_rpr inp : follows inp = true → action.action token.rpr inp = Ret action.reduce.
Proof. intros. table token.rpr inp. Qed.
Lemma act_lpr_infix inp : is_infix inp = true → action.action token.lpr inp = Ret action.shift.
Proof. intros. table token.lpr inp. Qed.
Lemma act_infix_rpr top : is_infix top = true → action.action top token.rpr = Ret action.reduce.
Proof. intros. table top token.rpr. Qed.
Lemma act_sep inp : inp ≠ token.eof → action.action token.sep inp = Ret action.reduce.
Proof. intros. table token.sep inp. Qed.

(** ** Runs of the parser *)
Section runs.
Context `{Float.Libm}.

(** One reduction in front of the token [inp]. *)
Definition red (inp : token.type) (p q : parser.type) : Prop :=
  ∃ t ops, parser.op_stack p = t :: ops ∧ action.action t inp = Ret action.reduce ∧
    ∀ k, parser.reduce k p = (Ret tt, q).

Lemma pop_shorter p q :
  parser.pop p = (Ret tt, q) → length (parser.op_stack q) < length (parser.op_stack p).
Proof.
  unfold parser.pop. rewrite bind_get. destruct (parser.op_stack p); [done|].
  intros [= <-]. simpl. lia.
Qed.
Lemma safe_same_ops {A} (m : M parser.type exn A) p a q :
  Safe.safe m (Safe.same_ops p) p → m p = (Ret a, q) → parser.op_stack q = parser.op_stack p.
Proof. unfold Safe.safe. intros Hs Hm. by rewrite Hm in Hs. Qed.

Lemma red_shorter inp p q :
  red inp p q → length (parser.op_stack q) < length (parser.op_stack p).
Proof.
  intros (t & ops & Hp & _ & Hr). specialize (Hr 0). unfold parser.reduce in Hr.
  apply bind_ret_inv in Hr as (t' & p1 & Htop & Hr).
  assert (t' = t ∧ p1 = p) as [-> ->].
  { unfold parser.top in Htop. rewrite bind_get, Hp in Htop. by injection Htop. }
  apply bind_ret_inv in Hr as ([] & p2 & Hm & Hpop%pop_shorter).
  enough (length (parser.op_stack p2) ≤ length (parser.op_stack p)) by lia.
  destruct (decide (t = token.rpr)) as [->|Hne]; [by apply pop_shorter in Hm; lia|].
  enough (parser.op_stack p2 = parser.op_stack p) as -> by done.
  destruct t; try done;
    try (by apply (safe_same_ops _ _ _ _ (Safe.safe_unary _ _ _) Hm));
    try (by apply (safe_same_ops _ _ _ _ (Safe.safe_binary _ _ _) Hm));
    try (by apply (safe_same_ops _ _ _ _ (Safe.safe_ternary _ _ _) Hm));
    by injection Hm as <-.
Qed.

Lemma act_reds inp p q k fuel :
  rtc (red inp) p q → length (parser.op_stack p) < fuel →
  ∃ fuel', length (parser.op_stack q) < fuel' ∧
    parser.act fuel inp k p = parser.act fuel' inp k q.
Proof.
  intros Hpq. revert fuel. induction Hpq as [p|p q r Hstep _ IH]; intros fuel Hf; [eauto|].
  pose proof (red_shorter _ _ _ Hstep) as Hl. destruct Hstep as (t & ops & Hp & Ha & Hr).
  destruct fuel as [|fuel]; [lia|]. destruct (IH fuel ltac:(lia)) as (fuel' & Hf' & Hact).
  exists fuel'. split; [done|]. rewrite <- Hact. cbn [parser.act].
  unfold parser.top, mbind, M_bind, get, lift. rewrite Hp. simpl. rewrite Ha. by rewrite Hr.
Qed.

(** What the parser does with a token that is not an operand. *)
Lemma feed_act t inp p q top ops a k :
  tokenizer.current t = inp → Safe.operand inp = false → position.eaten (tokenizer.pos t) = k →
  rtc (red inp) p q → parser.op_stack q = top :: ops → action.action top inp = Ret a →
  a ≠ action.reduce →
  parser.feed t p =
    match a with
    | action.shift => parser.push inp
    | action.accept =>
        modify (λ p, parser.mk (parser.op_stack p) (parser.nd_stack p ++ parser.tmp_stack p) [])
    | a => parser.parse_exception (action.show a) k
    end q.
Proof.
  intros Hcur Hop Hk Hreds Hq Ha Hne.
  assert (parser.feed t p = parser.act (S (length (parser.op_stack p))) inp k p) as ->.
  { unfold parser.feed. rewrite Hcur, Hk. by destruct inp. }
  destruct (act_reds inp p q k _ Hreds (Nat.lt_succ_diag_r _)) as (fuel & Hf & ->).
  destruct fuel as [|fuel]; [lia|]. cbn [parser.act].
  unfold parser.top, mbind, M_bind, get, lift. rewrite Hq. simpl. rewrite Ha. by destruct a.
Qed.

Definition step (x y : tokenizer.type * parser.type) : Prop :=
  tokenizer.next x.1 = (Ret tt, y.1) ∧ parser.feed y.1 x.2 = (Ret tt, y.2) ∧
  tokenizer.current y.1 ≠ token.eof.

(** The parser reads from the text [s] to the text [s'] within an
    expression; positions and the values of earlier tokens do not matter. *)
Definition runs (s : string) (cur : token.type) (p : parser.type)
    (s' : string) (cur' : token.type) (p' : parser.type) : Prop :=
  ∀ k v r, ∃ k' v' r',
    rtc step (tokenizer.mk (at_ k s) cur v r, p) (tokenizer.mk (at_ k' s') cur' v' r', p').

Lemma runs_refl s cur p : runs s cur p s cur p.
Proof. intros k v r. by exists k, v, r. Qed.
Lemma runs_trans s1 c1 p1 s2 c2 p2 s3 c3 p3 :
  runs s1 c1 p1 s2 c2 p2 → runs s2 c2 p2 s3 c3 p3 → runs s1 c1 p1 s3 c3 p3.
Proof.
  intros H12 H23 k v r. destruct (H12 k v r) as (k' & v' & r' & Hr1).
  destruct (H23 k' v' r') as (k2 & v2 & r2 & Hr2). exists k2, v2, r2. by etrans.
Qed.

Lemma runs_shift s cur p s' inp q top ops :
  lexes s cur inp s' → Safe.operand inp = false → inp ≠ token.eof →
  rtc (red inp) p q → parser.op_stack q = top :: ops →
  action.action top inp = Ret action.shift →
  runs s cur p s' inp (parser.mk (inp :: top :: ops) (parser.nd_stack q) (parser.tmp_stack q)).
Proof.
  intros Hlex Hop Heof Hreds Hq Ha k v r. destruct (Hlex k v r) as [k' Hnext].
  exists k', v, r. apply rtc_once. split; [done|]. split; [|done]. cbn [fst snd].
  rewrite (feed_act _ inp p q top ops action.shift k') by done.
  unfold parser.push, modify. by rewrite Hq.
Qed.
Lemma runs_value s cur p v s' :
  lexes_value s cur v s' →
  runs s cur p s' token.val
    (parser.mk (parser.op_stack p) (parser.nd_stack p) (parser.tmp_stack p ++ [node.value v])).
Proof.
  intros Hlex k v' r. destruct (Hlex k v' r) as [k' Hnext].
  exists k', v, r. apply rtc_once. by split; [|split].
Qed.
Lemma runs_ref s cur p key s' :
  lexes_ref s cur key s' →
  runs s cur p s' token.ref
    (parser.mk (parser.op_stack p) (parser.nd_stack p) (parser.tmp_stack p ++ [node.ref key])).
Proof.
  intros Hlex k v' r. destruct (Hlex k v' r) as [k' Hnext].
  exists k', v', key. apply rtc_once. by split; [|split].
Qed.

(** ** Reductions *)
Lemma unsnoc_app {A} (l : list A) x : parser.unsnoc (l ++ [x]) = Some (l, x).
Proof. unfold parser.unsnoc. rewrite reverse_snoc. by rewrite reverse_involutive. Qed.
Lemma pop_operand_run which k ops nds tmp c :
  parser.pop_operand which k (parser.mk ops nds (tmp ++ [c])) = (Ret c, parser.mk ops nds tmp).
Proof. unfold parser.pop_operand. rewrite bind_get. cbn [parser.tmp_stack]. by rewrite unsnoc_app. Qed.

Lemma red_sep inp base nds tmp :
  inp ≠ token.eof → red inp (parser.mk (token.sep :: base) nds tmp) (parser.mk base nds tmp).
Proof. intros. exists token.sep, base. split; [done|]. split; [by apply act_sep|done]. Qed.
Lemma red_rpr inp ops nds tmp :
  follows inp = true →
  red inp (parser.mk (token.rpr :: token.lpr :: ops) nds tmp) (parser.mk ops nds tmp).
Proof. intros. eexists _, _. split; [done|]. split; [by apply act_rpr|done]. Qed.

(** A reduction by the operator on top of the stack. *)
Lemma red_operator inp t ops nds tmp tmp' :
  action.action t inp = Ret action.reduce →
  (∀ k, (if is_unary t then parser.unary t k
         else if is_infix t || is_binary_function t then parser.binary t k
         else parser.ternary t k) (parser.mk (t :: ops) nds tmp)
        = (Ret tt, parser.mk (t :: ops) nds tmp')) →
  is_unary t || is_infix t || is_binary_function t || bool_decide (t = token._map_assign) = true →
  red inp (parser.mk (t :: ops) nds tmp) (parser.mk ops nds tmp').
Proof.
  intros Ha Hm Ht. exists t, ops. split; [done|]. split; [done|]. intros k. specialize (Hm k).
  unfold parser.reduce. unfold mbind at 1, M_bind at 1.
  change (parser.top (parser.mk (t :: ops) nds tmp)) with
    (Ret t : outcome exn token.type, parser.mk (t :: ops) nds tmp). cbn iota beta.
  unfold mbind, M_bind. destruct t; try done; cbn [is_unary is_infix is_binary_function orb] in Hm;
    rewrite Hm; done.
Qed.

Lemma red_unary inp t ops nds tmp c :
  is_unary t = true → node.is_value c = false → follows inp = true →
  red inp (parser.mk (t :: ops) nds (tmp ++ [c])) (parser.mk ops nds (tmp ++ [node.unary t c])).
Proof.
  intros Ht Hc Hinp. apply red_operator; [apply act_function; [|done]; unfold is_function; by rewrite Ht| |by rewrite Ht].
  intros k. rewrite Ht. unfold parser.unary. unfold mbind at 1, M_bind at 1.
  rewrite pop_operand_run. by rewrite Hc.
Qed.
Lemma red_negate inp ops nds tmp v :
  readable v → negative v = true → follows inp = true →
  red inp (parser.mk (token.neg :: ops) nds (tmp ++ [node.value (magnitude v)]))
          (parser.mk ops nds (tmp ++ [node.value v])).
Proof.
  intros Hv Hneg Hinp. apply red_operator; [by apply act_function| |done].
  intros k. cbn [is_unary]. unfold parser.unary, mbind, M_bind.
  rewrite pop_operand_run. cbn [node.is_value node.get].
  unfold lift, mbind, outcome_bind. by rewrite negate_magnitude.
Qed.
Lemma red_binary inp t ops nds tmp l r :
  is_infix t || is_binary_function t = true → action.action t inp = Ret action.reduce →
  node.is_value l && node.is_value r = false → (t = token.define → node.is_ref l = true) →
  red inp (parser.mk (t :: ops) nds (tmp ++ [l] ++ [r])) (parser.mk ops nds (tmp ++ [node.binary t l r])).
Proof.
  intros Ht Ha Hlr Hdef. apply red_operator; [done| |by destruct t].
  intros k. assert (is_unary t = false) as -> by (by destruct t). rewrite Ht.
  unfold parser.binary, mbind, M_bind. rewrite app_assoc, pop_operand_run. cbn iota beta.
  rewrite pop_operand_run.
  assert (token.is_define t && negb (node.is_ref l) = false) as ->.
  { unfold token.is_define. case_bool_decide as Hd; [|done]. by rewrite Hdef. }
  by rewrite Hlr.
Qed.
Lemma red_ternary inp ops nds tmp a b c :
  follows inp = true →
  red inp (parser.mk (token._map_assign :: ops) nds (tmp ++ [a] ++ [b] ++ [c]))
          (parser.mk ops nds (tmp ++ [node.ternary token._map_assign a b c])).
Proof.
  intros Hinp. apply red_operator; [by apply act_function| |done].
  intros k. cbn [is_unary is_infix is_binary_function orb]. unfold parser.ternary, mbind, M_bind.
  rewrite !app_assoc, pop_operand_run. cbn iota beta. rewrite pop_operand_run. cbn iota beta.
  rewrite pop_operand_run. done.
Qed.

(** ** Operands

    [ctx ops base]: an operand may start; a comma on top of the stack is
    dropped by the next token that is looked up. *)
Definition ctx (ops base : list token.type) : Prop :=
  (∃ t o, base = t :: o ∧ ready t = true) ∧ (ops = base ∨ ops = token.sep :: base).

Lemma ctx_settle inp ops base nds tmp :
  ctx ops base → (inp = token.eof → ops = base) →
  rtc (red inp) (parser.mk ops nds tmp) (parser.mk base nds tmp).
Proof.
  intros [_ [-> | ->]] Heof; [done|]. apply rtc_once, red_sep. intros ->. specialize (Heof eq_refl).
  apply (f_equal length) in Heof. simpl in Heof. lia.
Qed.

(** [parses n s]: wherever an operand may start, the text [s] is read as [n],
    up to reductions that every token that may follow triggers. *)
Definition parses (n : node.type) (s : string) : Prop :=
  ∀ sp rest cur ops base nds tmp,
    blank sp → starts continues rest = false → token.next_can_be_unary cur = true → ctx ops base →
    ∃ cur' p', runs (sp +:+ s +:+ rest) cur (parser.mk ops nds tmp) rest cur' p' ∧
      token.next_can_be_unary cur' = false ∧
      ∀ inp, follows inp = true → (inp = token.eof → ops = base) →
        rtc (red inp) p' (parser.mk base nds (tmp ++ [n])).

Lemma opens_no_operand inp : opens inp = true → Safe.operand inp = false ∧ inp ≠ token.eof.
Proof. by destruct inp. Qed.

Lemma runs_open s cur ops base nds tmp s' inp :
  ctx ops base → opens inp = true → lexes s cur inp s' →
  runs s cur (parser.mk ops nds tmp) s' inp (parser.mk (inp :: base) nds tmp).
Proof.
  intros Hctx Hinp Hlex. destruct (opens_no_operand inp Hinp) as [Hop Heof].
  pose proof Hctx as [(t & o & -> & Ht) _].
  eapply (runs_shift _ _ _ _ _ (parser.mk (t :: o) nds tmp)); try done.
  - by apply ctx_settle.
  - by apply act_open.
Qed.

(** A function up to its opening parenthesis. *)
Lemma runs_call t sp cur ops base nds tmp rest :
  is_function t = true → blank sp → token.next_can_be_unary cur = true → ctx ops base →
  runs (sp +:+ token.show t +:+ "(" +:+ rest) cur (parser.mk ops nds tmp)
       rest token.lpr (parser.mk (token.lpr :: t :: base) nds tmp).
Proof.
  intros Ht Hsp Hcur Hctx. eapply runs_trans.
  - apply (runs_open _ _ _ base _ _ ("(" +:+ rest) t); [done| |by apply lexes_function].
    unfold opens. by rewrite Ht, orb_true_r.
  - eapply (runs_shift _ _ _ _ _ (parser.mk (t :: base) nds tmp)); try done.
    + by apply (lexes_lpr ""); left.
    + by apply act_function_lpr.
Qed.

(** An operand between parentheses, up to and including the token behind it. *)
Lemma runs_argument n s sp cur ops' ops nds tmp text inp rest :
  parses n s → blank sp → starts continues text = false → token.next_can_be_unary cur = true →
  ops' = token.lpr :: ops ∨ ops' = token.sep :: token.lpr :: ops →
  (∀ cur', token.next_can_be_unary cur' = false → lexes text cur' inp rest) →
  follows inp = true → inp ≠ token.eof →
  runs (sp +:+ s +:+ text) cur (parser.mk ops' nds tmp)
       rest inp (parser.mk (inp :: token.lpr :: ops) nds (tmp ++ [n])).
Proof.
  intros Hn Hsp Htext Hcur Hops Hlex Hinp Heof.
  destruct (Hn sp text cur ops' (token.lpr :: ops) nds tmp) as (cur' & p' & Hruns & Hcur' & Hreds);
    [done..|split; [by exists token.lpr, ops|done]|].
  eapply runs_trans; [exact Hruns|].
  eapply (runs_shift _ _ _ _ _ (parser.mk (token.lpr :: ops) nds (tmp ++ [n]))); try done.
  - by apply Hlex.
  - by destruct inp.
  - by apply Hreds.
  - by destruct inp; try done; apply act_lpr_infix.
Qed.

(** Behind the closing parenthesis of a construct that stands for [n]. *)
Lemma parses_closed n s :
  (∀ sp rest cur ops base nds tmp,
     blank sp → starts continues rest = false → token.next_can_be_unary cur = true → ctx ops base →
     ∃ p', runs (sp +:+ s +:+ rest) cur (parser.mk ops nds tmp) rest token.rpr p' ∧
       ∀ inp, follows inp = true → rtc (red inp) p' (parser.mk base nds (tmp ++ [n]))) →
  parses n s.
Proof.
  intros Hs sp rest cur ops base nds tmp Hsp Hrest Hcur Hctx.
  destruct (Hs sp rest cur ops base nds tmp) as (p' & Hruns & Hreds); [done..|].
  exists token.rpr, p'. split; [done|]. split; [done|]. auto.
Qed.

Lemma parses_value v : readable v → parses (node.value v) (show.show v).
Proof.
  intros Hv sp rest cur ops base nds tmp Hsp Hrest Hcur Hctx. destruct (negative v) eqn:Hneg.
  - destruct (magnitude_readable v Hv Hneg) as [Hm Hmneg]. eexists token.val, _. split; [|split; [done|]].
    + eapply runs_trans.
      * apply (runs_open _ _ _ base); [done| |by apply lexes_sign]. done.
      * apply runs_value, (lexes_constant _ ""); [done|done|by left|done].
    + intros inp Hinp _. apply rtc_once. by apply red_negate.
  - eexists token.val, _. split; [|split; [done|]].
    + apply runs_value, lexes_constant; done.
    + intros inp Hinp Heof. by apply ctx_settle.
Qed.

Lemma parses_ref key :
  key ≠ [] → Forall (λ k, is_identifier k = true) key →
  parses (node.ref key) ("${" +:+ print.show_key_vec key +:+ "}").
Proof.
  intros Hne Hkey sp rest cur ops base nds tmp Hsp Hrest Hcur Hctx.
  eexists token.ref, _. split; [|split; [done|]].
  - rewrite <- !string_app_assoc. by apply runs_ref, lexes_key_vec.
  - intros inp Hinp Heof. by apply ctx_settle.
Qed.

Lemma parses_unary t c s :
  is_unary t = true → node.is_value c = false → parses c s →
  parses (node.unary t c) (token.show t +:+ "(" +:+ s +:+ ")").
Proof.
  intros Ht Hc Hs. apply parses_closed. intros sp rest cur ops base nds tmp Hsp Hrest Hcur Hctx.
  assert (is_function t = true) as Hf by (unfold is_function; by rewrite Ht).
  eexists. rewrite <- !string_app_assoc. split.
  - eapply runs_trans; [by apply runs_call|].
    apply (runs_argument c s ""); try done; [by left|by left|]. intros. apply lexes_rpr.
  - intros inp Hinp. eapply rtc_l; [by apply red_rpr|]. apply rtc_once. by apply red_unary.
Qed.

Lemma parses_binary_function t l r sl sr :
  is_binary_function t = true → node.is_value l && node.is_value r = false →
  parses l sl → parses r sr →
  parses (node.binary t l r) (token.show t +:+ "(" +:+ sl +:+ ", " +:+ sr +:+ ")").
Proof.
  intros Ht Hlr Hl Hr. apply parses_closed. intros sp rest cur ops base nds tmp Hsp Hrest Hcur Hctx.
  assert (is_function t = true) as Hf by (unfold is_function; by rewrite Ht, orb_true_r).
  eexists. rewrite <- !string_app_assoc. split.
  - eapply runs_trans; [by apply runs_call|].
    eapply runs_trans.
    + apply (runs_argument l sl "" _ _ (t :: base) _ _ ("," +:+ " " +:+ sr +:+ ")" +:+ rest) token.sep
               (" " +:+ sr +:+ ")" +:+ rest)); try done; [by left|by left|].
      intros. apply lexes_sep.
    + apply (runs_argument r sr " "); try done; [by right|by right|]. intros. apply lexes_rpr.
  - intros inp Hinp. eapply rtc_l; [by apply red_rpr|]. apply rtc_once. rewrite <- app_assoc.
    apply red_binary; [by rewrite Ht, orb_true_r|by apply act_function|done|by intros ->].
Qed.

Lemma parses_ternary a b c sa sb sc :
  parses a sa → parses b sb → parses c sc →
  parses (node.ternary token._map_assign a b c)
    (token.show token._map_assign +:+ "(" +:+ sa +:+ "," +:+ sb +:+ "," +:+ sc +:+ ")").
Proof.
  intros Ha Hb Hc. apply parses_closed. intros sp rest cur ops base nds tmp Hsp Hrest Hcur Hctx.
  eexists. rewrite <- !string_app_assoc. split.
  - eapply runs_trans; [by apply runs_call|].
    eapply runs_trans; [|eapply runs_trans].
    + apply (runs_argument a sa "" _ _ (token._map_assign :: base) _ _
        ("," +:+ sb +:+ "," +:+ sc +:+ ")" +:+ rest) token.sep (sb +:+ "," +:+ sc +:+ ")" +:+ rest));
        try done; [by left|by left|]. intros. apply lexes_sep.
    + apply (runs_argument b sb "" _ _ (token._map_assign :: base) _ _
        ("," +:+ sc +:+ ")" +:+ rest) token.sep (sc +:+ ")" +:+ rest));
        try done; [by left|by right|]. intros. apply lexes_sep.
    + apply (runs_argument c sc ""); try done; [by left|by right|]. intros. apply lexes_rpr.
  - intros inp Hinp. eapply rtc_l; [by apply red_rpr|]. apply rtc_once. rewrite <- !app_assoc.
    by apply red_ternary.
Qed.

Lemma parses_infix t l r sl sr :
  is_infix t = true → node.is_value l && node.is_value r = false →
  (t = token.define → node.is_ref l = true) →
  parses l sl → parses r sr →
  parses (node.binary t l r) ("(" +:+ sl +:+ token.show t +:+ sr +:+ ")").
Proof.
  intros Ht Hlr Hdef Hl Hr. apply parses_closed. intros sp rest cur ops base nds tmp Hsp Hrest Hcur Hctx.
  rewrite <- !string_app_assoc.
  destruct (Hr (trail t) (")" +:+ rest) t (t :: token.lpr :: base) (t :: token.lpr :: base) nds (tmp ++ [l]))
    as (cur' & p' & Hruns & Hcur' & Hreds).
  { destruct t; (by left) || (by right). }
  { done. }
  { by destruct t. }
  { split; [|by left]. exists t, (token.lpr :: base). split; [done|]. by destruct t. }
  eexists. split.
  - eapply runs_trans; [apply (runs_open _ _ _ base _ _ _ token.lpr); [done|done|by apply lexes_lpr]|].
    eapply runs_trans.
    + apply (runs_argument l sl "" _ _ base _ _ (token.show t +:+ sr +:+ ")" +:+ rest) t
        (trail t +:+ sr +:+ ")" +:+ rest)); try done; [by left|by destruct t|by left| | |].
      * intros. by apply lexes_infix.
      * by destruct t.
      * by destruct t.
    + eapply runs_trans; [exact Hruns|].
      eapply (runs_shift _ _ _ _ _ (parser.mk (token.lpr :: base) nds (tmp ++ [node.binary t l r])));
        try done; [apply lexes_rpr|].
      etrans; [by apply Hreds|]. apply rtc_once. rewrite <- app_assoc.
      apply red_binary; [by rewrite Ht|by apply act_infix_rpr|done..].
  - intros inp Hinp. apply rtc_once. by apply red_rpr.
Qed.

Lemma printable_parses n : printable n → ∃ s, print.show n = Ret s ∧ parses n s.
Proof.
  induction 1 as [v Hv|key Hne Hkey|t c Ht Hc _ (s & Hs & Hp)
    |t l r Ht Hlr Hdef _ (sl & Hsl & Hpl) _ (sr & Hsr & Hpr)
    |a b c _ (sa & Hsa & Hpa) _ (sb & Hsb & Hpb) _ (sc & Hsc & Hpc)]; simpl.
  - eexists. split; [done|]. by apply parses_value.
  - eexists. split; [done|]. by apply parses_ref.
  - rewrite Hs. eexists. split; [done|]. by apply parses_unary.
  - rewrite Hsl. simpl. rewrite Hsr. simpl. apply orb_prop in Ht as [Ht|Ht].
    + assert (token.is_prefix t = false) as -> by (by destruct t).
      eexists. split; [done|]. by apply parses_infix.
    + assert (token.is_prefix t = true) as -> by (by destruct t).
      eexists. split; [done|]. by apply parses_binary_function.
  - rewrite Hsa. simpl. rewrite Hsb. simpl. rewrite Hsc. simpl.
    eexists. split; [done|]. by apply parses_ternary.
Qed.

(** ** Whole texts *)
Lemma parse_loop_step fuel t p t' p' :
  tokenizer.next t = (Ret tt, t') → parser.feed t' p = (Ret tt, p') →
  parser.parse_loop (S fuel) t p =
    (if bool_decide (tokenizer.current t' = token.eof) && position.at_end (tokenizer.pos t')
     then mret tt else parser.parse_loop fuel t') p'.
Proof.
  intros Hnext Hfeed. cbn [parser.parse_loop]. rewrite Hnext. unfold mbind, M_bind, lift.
  by rewrite Hfeed.
Qed.

Lemma parse_loop_steps x y fuel :
  rtc step x y → Safe.tlen x.1 < fuel →
  ∃ fuel', Safe.tlen y.1 < fuel' ∧ parser.parse_loop fuel x.1 x.2 = parser.parse_loop fuel' y.1 y.2.
Proof.
  intros Hxy. revert fuel. induction Hxy as [x|x y z (Hnext & Hfeed & Hne) _ IH]; intros fuel Hf; [eauto|].
  pose proof (Safe.progress_next x.1) as Hp. rewrite Hnext in Hp.
  destruct Hp as [Hp|[Hp _]]; [|done]. destruct fuel as [|fuel]; [lia|].
  destruct (IH fuel ltac:(lia)) as (fuel' & Hf' & Heq). exists fuel'. split; [done|].
  rewrite <- Heq, (parse_loop_step _ _ _ _ _ Hnext Hfeed). by rewrite bool_decide_false.
Qed.

(** One printed expression with its semicolon. *)
Lemma parse_loop_expression n s rest t nds fuel :
  parses n s → position.rest (tokenizer.pos t) = s +:+ ";" +:+ rest →
  token.next_can_be_unary (tokenizer.current t) = true → Safe.tlen t < fuel →
  ∃ t' fuel', position.rest (tokenizer.pos t') = rest ∧ tokenizer.current t' = token.eof ∧
    Safe.tlen t' < fuel' ∧
    parser.parse_loop fuel t (parser.mk [token.eof] nds []) =
      (if position.at_end (tokenizer.pos t') then mret tt else parser.parse_loop fuel' t')
        (parser.mk [token.eof] (nds ++ [n]) []).
Proof.
  intros Hn Hrest Hcur Hfuel. destruct t as [[k text] cur v r]. simpl in Hrest, Hcur. subst text.
  destruct (Hn "" (";" +:+ rest) cur [token.eof] [token.eof] nds []) as (cur' & p' & Hruns & _ & Hreds);
    [by left|done..|split; [by eexists _, _|by left]|].
  destruct (Hruns k v r) as (k' & v' & r' & Hsteps).
  destruct (parse_loop_steps _ _ fuel Hsteps Hfuel) as (fuel' & Hf' & Heq). cbn [fst snd] in *.
  destruct (lexes_eof cur' rest k' v' r') as [k2 Hnext].
  exists (tokenizer.mk (at_ k2 rest) token.eof v' r'), (pred fuel').
  destruct fuel' as [|fuel']; [lia|]. split; [done|]. split; [done|].
  assert (parser.feed (tokenizer.mk (at_ k2 rest) token.eof v' r') p' =
          (Ret tt, parser.mk [token.eof] (nds ++ [n]) [])) as Hfeed.
  { by rewrite (feed_act _ token.eof p' (parser.mk [token.eof] nds [n]) token.eof [] action.accept k2)
      by (done || by apply Hreds). }
  split.
  - change (";" +:+ rest) with (String ";" rest) in Hf'. unfold Safe.tlen, Safe.len in *. simpl in *. lia.
  - rewrite string_app_nil_l in Heq. rewrite Heq. rewrite (parse_loop_step _ _ _ _ _ Hnext Hfeed). done.
Qed.

Lemma parse_loop_expressions ns s t nds fuel :
  ns ≠ [] → Forall printable ns → print.string_ ns = Ret s →
  position.rest (tokenizer.pos t) = s → token.next_can_be_unary (tokenizer.current t) = true →
  Safe.tlen t < fuel →
  parser.parse_loop fuel t (parser.mk [token.eof] nds []) =
    (Ret tt, parser.mk [token.eof] (nds ++ ns) []).
Proof.
  intros Hne Hns. revert s t nds fuel Hne. induction Hns as [|n ns Hn Hns IH]; [done|].
  intros s t nds fuel _ Hs Ht Hcur Hfuel. destruct (printable_parses n Hn) as (sn & Hsn & Hpn).
  simpl in Hs. rewrite Hsn in Hs. simpl in Hs.
  apply obind_ret_inv in Hs as (rest & Hrest & [= <-]).
  destruct (parse_loop_expression n sn rest t nds fuel) as (t' & fuel' & Ht' & Hcur' & Hf' & ->); [done..|].
  destruct ns as [|n' ns].
  - injection Hrest as <-. unfold position.at_end. by rewrite Ht'.
  - assert (rest ≠ "") as Hnil.
    { simpl in Hrest. apply obind_ret_inv in Hrest as (s1 & _ & (s2 & _ & [= <-])%obind_ret_inv).
      by destruct s1. }
    unfold position.at_end. rewrite Ht', bool_decide_false by done.
    rewrite (IH rest t' (nds ++ [n]) fuel') by
      (done || by rewrite Hcur').
    by rewrite <- app_assoc.
Qed.

Lemma make_string ns s :
  Forall printable ns → print.string_ ns = Ret s → parser.make s = Ret ns.
Proof.
  intros Hns Hs. unfold parser.make, parser.parse.
  destruct (decide (ns = [])) as [->|Hne]; [by injection Hs as <-|].
  assert (position.at_end (position.make s) = false) as Hend.
  { destruct ns as [|n ns]; [done|]. simpl in Hs.
    apply obind_ret_inv in Hs as (s1 & _ & (s2 & _ & [= <-])%obind_ret_inv).
    unfold position.at_end. by destruct s1. }
  unfold mbind, M_bind, parser.push, modify. cbn [parser.op_stack parser.nd_stack parser.tmp_stack].
  unfold tokenizer.make. cbn [tokenizer.pos]. rewrite Hend.
  rewrite (parse_loop_expressions ns s) by (done || unfold Safe.tlen, Safe.len; simpl; lia).
  done.
Qed.

Lemma string_printable ns : Forall printable ns → ∃ s, print.string_ ns = Ret s.
Proof.
  induction 1 as [|n ns Hn _ [s Hs]]; simpl; [eauto|].
  destruct (printable_parses n Hn) as (sn & -> & _). simpl. rewrite Hs. simpl. eauto.
Qed.
End runs.

(** C30: Parsing undoes printing: expressions whose trees have the form that
    the parser produces and whose constants can be read back are printed, and
    parsing the printed text gives exactly these trees. *)
Theorem parse_print `{Float.Libm} ns :
  Forall printable ns →
  ∃ s, print.string_ ns = Ret s ∧ parser.make s = Ret ns.
Proof.
  intros Hns. destruct (string_printable ns Hns) as [s Hs]. exists s. split; [done|].
  by apply make_string.
Qed.

(** [${a.b} := min (${c}, -3) + 4L * ${d}; !(${e})] *)
Definition example_nodes : list node.type :=
  [node.binary token.define (node.ref ["a"; "b"])
     (node.binary token.add
        (node.binary token.min (node.ref ["c"]) (node.value (Vint (-3))))
        (node.binary token.mul (node.value (Vlong 4)) (node.ref ["d"])));
   node.unary token._not (node.ref ["e"])].

Lemma parse_print_witness :
  print.string_ example_nodes = Ret "(${a.b} := (min(${c}, -3) + (4L * ${d})));!(${e});" ∧
  ∃ s, print.string_ example_nodes = Ret s ∧ @parser.make Float.nan_libm s = Ret example_nodes.
Proof.
  split; [reflexivity|]. apply (@parse_print Float.nan_libm).
  repeat constructor; try done; by intros [=].
Defined.
End RoundTrip.
