(* ===== verification/ParserShape.v ===== *)
(** * What parsing produces

    The trees that come out of the parser have the form on which printing can
    be undone: operators with their arity, folded constants, references made
    of identifiers.  So an expression whose constants can be read back
    survives being renamed, stored as text and loaded again. *)

From S2P Require Import Prelude Value OrderSpec Token Bitset Function Position Num NumSpec ReadShow ReadShowSpec Tokenizer Expr Parser ParserSafe ParserPrint.

Import NumSpec ReadShow RoundTrip.

Module Shape.

Abbreviation shaped := (shape (λ _, True)).
Definition is_key (key : list string) : Prop :=
  key ≠ [] ∧ Forall (λ k, is_identifier k = true) key.

(** ** References are sequences of identifiers *)
Lemma take_while_all f s : all_chars f (require.take_while f s) = true.
Proof. induction s as [|c s IH]; simpl; [done|]. destruct (f c) eqn:Hc; simpl; [by rewrite Hc|done]. Qed.
Lemma identifier_is_identifier p id q :
  require.identifier p = (Ret id, q) → is_identifier id = true.
Proof.
  unfold require.identifier, require.looking_at, position.current.
  destruct (position.rest p) as [|c s]; [done|]. destruct (require.id_start c) eqn:Hc; [|done].
  intros [= <- _]. assert (require.id_char c = true) as Hid.
  { unfold require.id_char. by rewrite Hc. }
  pose proof (take_while_all require.id_char (String c s)) as Hall.
  simpl in *. rewrite Hid in *. unfold is_identifier. simpl in *. by rewrite Hc, Hall.
Qed.

Lemma identifier_loop_keys fuel t t' :
  tokenizer.identifier_loop fuel t = (Ret tt, t') →
  Forall (λ k, is_identifier k = true) (tokenizer.ref t) →
  Forall (λ k, is_identifier k = true) (tokenizer.ref t') ∧ tokenizer.ref t' ≠ [].
Proof.
  revert t. induction fuel as [|fuel IH]; intros t Hrun Hkey; [done|]. cbn [tokenizer.identifier_loop] in Hrun.
  apply bind_ret_inv in Hrun as (id & t1 & Hid & Hrun).
  assert (is_identifier id = true ∧ tokenizer.ref t1 = tokenizer.ref t) as [Hi Href].
  { unfold tokenizer.on_pos in Hid. destruct (require.identifier (tokenizer.pos t)) as [o q] eqn:E.
    injection Hid as -> <-. split; [by eapply identifier_is_identifier|done]. }
  rewrite bind_modify, bind_get in Hrun. destruct (position.at_end _); [done|].
  apply bind_ret_inv in Hrun as ([] & t2 & Hskip & Hrun). rewrite bind_get in Hrun.
  assert (tokenizer.ref t2 = tokenizer.ref t ++ [id]) as Href2.
  { destruct (require.looking_at _ _); injection Hskip as <-; simpl; by rewrite Href. }
  assert (Forall (λ k, is_identifier k = true) (tokenizer.ref t2)) as Hkey2.
  { rewrite Href2. apply Forall_app. split; [done|]. by constructor. }
  destruct (require.looking_at _ (tokenizer.pos t2)); [by apply (IH t2)|].
  injection Hrun as <-. split; [done|]. rewrite Href2. by destruct (tokenizer.ref t).
Qed.

(** No other action makes a reference. *)
Definition no_ref (f : tokenizer.action) : bool :=
  match f with
  | tokenizer.cmp t e => negb (bool_decide (t = token.ref)) && negb (bool_decide (e = token.ref))
  | tokenizer.set_token t | tokenizer.unary t _ => negb (bool_decide (t = token.ref))
  | _ => true
  end.
Fixpoint no_refs (depth : nat) (m : tokenizer.child_type) : bool :=
  match depth with
  | O => false
  | S depth =>
      forallb (λ cn, match cn.2 with
                     | tokenizer.leaf f => no_ref f
                     | tokenizer.children m => no_refs depth m
                     end) m
  end.
Lemma no_refs_description : no_refs tokenizer.max_depth tokenizer.description = true.
Proof. vm_compute. reflexivity. Qed.
Lemma no_refs_child depth m c n :
  no_refs (S depth) m = true → tokenizer.find_child c m = Some n →
  match n with tokenizer.leaf f => no_ref f | tokenizer.children m => no_refs depth m end = true.
Proof.
  simpl. intros Hm. induction m as [|[d n'] m IH]; simpl in *; [done|].
  apply andb_prop in Hm as [Hn Hm]. case_bool_decide; [|auto]. by intros [= ->].
Qed.

Definition key_ok (t : tokenizer.type) : Prop :=
  tokenizer.current t = token.ref → is_key (tokenizer.ref t).

Lemma tokenize_no_ref depth first m t r t' :
  no_refs depth m = true → tokenizer.tokenize depth first m t = (Ret r, t') →
  match r with Some f => no_ref f = true | None => tokenizer.current t' = token.val end.
Proof.
  revert first m t. induction depth as [|depth IH]; intros first m t Hm Hrun; [done|].
  cbn [tokenizer.tokenize] in Hrun. rewrite bind_get in Hrun.
  destruct (tokenizer.is_eof _); [done|].
  destruct (position.current (tokenizer.pos t)) as [c|] eqn:Hc; simpl in Hrun.
  - destruct (tokenizer.find_child c m) as [[m'|f]|] eqn:Hf.
    + apply bind_ret_inv in Hrun as ([] & t1 & _ & Hrun).
      eapply IH; [|exact Hrun]. by apply (no_refs_child _ _ _ _ Hm Hf).
    + apply bind_ret_inv in Hrun as ([] & t1 & _ & [= <- <-]).
      by apply (no_refs_child _ _ _ _ Hm Hf).
    + destruct first; [|done]. apply bind_ret_inv in Hrun as (v & t1 & _ & [= <- <-]). done.
  - destruct first; [|done]. apply bind_ret_inv in Hrun as (v & t1 & _ & [= <- <-]). done.
Qed.

Lemma either_ret c (f g : M tokenizer.type exn unit) t t' :
  tokenizer.either c f g t = (Ret tt, t') → ∃ u, f u = (Ret tt, t') ∨ g u = (Ret tt, t').
Proof.
  unfold tokenizer.either. rewrite bind_get. destruct (tokenizer.next_is c t); [|eauto].
  intros ([] & u & _ & Hf)%bind_ret_inv. eauto.
Qed.
Lemma set_token_current tok u t' :
  tokenizer.do_set_token tok u = (Ret tt, t') → tokenizer.current t' = tok.
Proof. by intros [= <-]. Qed.
Lemma unary_current tok what u t' :
  tokenizer.do_unary tok what u = (Ret tt, t') → tokenizer.current t' = tok.
Proof.
  unfold tokenizer.do_unary. rewrite bind_get. destruct (token.next_can_be_unary _); [|done].
  apply set_token_current.
Qed.

Lemma identifier_key_ok t t' : tokenizer.do_identifier t = (Ret tt, t') → key_ok t'.
Proof.
  unfold tokenizer.do_identifier. rewrite bind_modify, bind_get.
  intros ([] & u & Hloop & Hclose)%bind_ret_inv _.
  apply identifier_loop_keys in Hloop as [Hkey Hne]; [|constructor].
  unfold tokenizer.on_pos in Hclose. destruct (require.require_char _ _) as [o q].
  injection Hclose as -> <-. done.
Qed.

Lemma perform_key_ok next f t t' :
  (∀ u, next u = (Ret tt, t') → key_ok t') → no_ref f = true →
  tokenizer.perform next f t = (Ret tt, t') → key_ok t'.
Proof.
  intros Hnext Hf. destruct f; cbn [tokenizer.perform];
    try (intros (u & [Hu|Hu])%either_ret;
         (apply set_token_current in Hu || apply unary_current in Hu); by (unfold key_ok; rewrite Hu)).
  - apply identifier_key_ok.
  - rewrite bind_get. intros Hu%set_token_current. (unfold key_ok; rewrite Hu). by case_match.
  - intros (u & [Hu|Hu])%either_ret.
    + apply bind_ret_inv in Hu as ([] & v & _ & Hu). by eapply Hnext.
    + apply set_token_current in Hu. by (unfold key_ok; rewrite Hu).
  - simpl in Hf. apply andb_prop in Hf as [Ht He].
    apply negb_true_iff, bool_decide_eq_false in Ht. apply negb_true_iff, bool_decide_eq_false in He.
    intros (u & [Hu|Hu])%either_ret; apply set_token_current in Hu; by (unfold key_ok; rewrite Hu).
  - simpl in Hf. apply negb_true_iff, bool_decide_eq_false in Hf.
    intros Hu%set_token_current. by (unfold key_ok; rewrite Hu).
  - by intros [= <-].
  - simpl in Hf. apply negb_true_iff, bool_decide_eq_false in Hf.
    intros Hu%unary_current. by (unfold key_ok; rewrite Hu).
Qed.

Lemma next_key_ok t t' : tokenizer.next t = (Ret tt, t') → key_ok t'.
Proof.
  unfold tokenizer.next. rewrite bind_get. generalize (S (String.length (position.rest (tokenizer.pos t)))).
  intros fuel. revert t. induction fuel as [|fuel IH]; intros t Hrun; [done|].
  rewrite Safe.increment_S in Hrun. apply bind_ret_inv in Hrun as ([] & u & _ & Hrun).
  rewrite bind_get in Hrun. destruct (tokenizer.is_eof _).
  - apply bind_ret_inv in Hrun as ([] & v & _ & Hrun%set_token_current). by (unfold key_ok; rewrite Hrun).
  - apply bind_ret_inv in Hrun as (f & v & Htok & Hrun).
    apply tokenize_no_ref in Htok; [|exact no_refs_description]. destruct f as [f|].
    + eapply perform_key_ok; [exact IH|exact Htok|exact Hrun].
    + injection Hrun as <-. by (unfold key_ok; rewrite Htok).
Qed.

(** ** The stacks hold shaped trees *)
Section parser.
Context `{Float.Libm}.

Definition stacks_shaped (p : parser.type) : Prop :=
  Forall shaped (parser.nd_stack p) ∧ Forall shaped (parser.tmp_stack p).

(** [yields m Q]: from shaped stacks, a result that satisfies [Q] and shaped
    stacks. *)
Definition yields {A} (m : M parser.type exn A) (Q : A → Prop) : Prop :=
  ∀ p a q, stacks_shaped p → m p = (Ret a, q) → Q a ∧ stacks_shaped q.

Lemma yields_bind {A B} (m : M parser.type exn A) (f : A → M parser.type exn B) Q R :
  yields m Q → (∀ a, Q a → yields (f a) R) → yields (m ≫= f) R.
Proof.
  intros Hm Hf p b q Hp (a & p1 & Hm1 & Hf1)%bind_ret_inv.
  destruct (Hm _ _ _ Hp Hm1) as [Ha Hp1]. by eapply Hf.
Qed.
Lemma yields_lift {A} (o : outcome exn A) : yields (lift o) (λ _, True).
Proof. intros p a q Hp [= -> <-]. done. Qed.
Lemma yields_throw {A} e Q : yields (throw e : M parser.type exn A) Q.
Proof. by intros p a q Hp. Qed.
Lemma yields_emplace_back c : shaped c → yields (parser.emplace_back c) (λ _, True).
Proof.
  intros Hc p a q [Hn Ht] [= <- <-]. split; [done|]. split; [done|]. simpl.
  apply Forall_app. split; [done|]. by constructor.
Qed.
Lemma yields_pop_operand which k : yields (parser.pop_operand which k) shaped.
Proof.
  intros p a q [Hn Ht]. unfold parser.pop_operand. rewrite bind_get.
  unfold parser.unsnoc. destruct (reverse (parser.tmp_stack p)) as [|c l] eqn:Hrev; [done|].
  intros [= <- <-]. assert (Forall shaped (c :: l)) as [Hc Hl]%Forall_cons.
  { rewrite <- Hrev. by apply Forall_reverse. }
  split; [done|]. split; [done|]. simpl. by apply Forall_reverse.
Qed.

Lemma yields_unary t k : is_unary t = true → yields (parser.unary t k) (λ _, True).
Proof.
  intros Ht. eapply yields_bind; [apply yields_pop_operand|]. intros c Hc.
  destruct (node.is_value c) eqn:Hv.
  - eapply yields_bind; [apply yields_lift|]. intros v _. apply yields_emplace_back. by constructor.
  - apply yields_emplace_back. by constructor.
Qed.
Lemma yields_binary t k :
  is_infix t || is_binary_function t = true → yields (parser.binary t k) (λ _, True).
Proof.
  intros Ht. eapply yields_bind; [apply yields_pop_operand|]. intros r Hr.
  eapply yields_bind; [apply yields_pop_operand|]. intros l Hl.
  destruct (token.is_define t && negb (node.is_ref l)) eqn:Hdef; [apply yields_throw|].
  destruct (node.is_value l && node.is_value r) eqn:Hv.
  - eapply yields_bind; [apply yields_lift|]. intros v _. apply yields_emplace_back. by constructor.
  - apply yields_emplace_back. constructor; try done. intros ->.
    simpl in Hdef. by apply negb_false_iff in Hdef.
Qed.
Lemma yields_ternary k : yields (parser.ternary token._map_assign k) (λ _, True).
Proof.
  do 3 (eapply yields_bind; [apply yields_pop_operand|]; intros ? ?).
  apply yields_emplace_back. by constructor.
Qed.
Lemma yields_pop : yields parser.pop (λ _, True).
Proof.
  intros p a q Hp. unfold parser.pop. rewrite bind_get. destruct (parser.op_stack p); [done|].
  by intros [= <- <-].
Qed.
Lemma yields_top : yields parser.top (λ _, True).
Proof.
  intros p a q Hp. unfold parser.top. rewrite bind_get. destruct (head _); [|done]. by intros [= <- <-].
Qed.

Lemma yields_reduce k : yields (parser.reduce k) (λ _, True).
Proof.
  eapply yields_bind; [apply yields_top|]. intros t _.
  eapply (yields_bind _ _ (λ _, True)); [|intros; apply yields_pop].
  destruct t; first [by apply yields_unary | by apply yields_binary | apply yields_ternary
                    | apply yields_pop | by intros p a q Hp [= <- <-]].
Qed.
Lemma yields_act fuel inp k : yields (parser.act fuel inp k) (λ _, True).
Proof.
  induction fuel as [|fuel IH]; [apply yields_throw|]. cbn [parser.act].
  eapply yields_bind; [apply yields_top|]. intros t _.
  eapply yields_bind; [apply yields_lift|]. intros a _. destruct a; try apply yields_throw.
  - by intros p x q Hp [= <- <-].
  - eapply yields_bind; [apply yields_reduce|]. intros _ _. exact IH.
  - intros p x q [Hn Ht] [= <- <-]. split; [done|]. split; [|constructor]. simpl.
    by apply Forall_app.
Qed.
Lemma yields_feed t : key_ok t → yields (parser.feed t) (λ _, True).
Proof.
  intros Hkey. unfold parser.feed. unfold key_ok in Hkey.
  destruct (tokenizer.current t);
    try (intros p a q Hp; rewrite bind_get; by apply yields_act).
  - apply yields_emplace_back. by constructor.
  - apply yields_emplace_back. destruct Hkey as [? ?]; [done|]. by constructor.
Qed.
Lemma yields_parse_loop fuel t : yields (parser.parse_loop fuel t) (λ _, True).
Proof.
  revert t. induction fuel as [|fuel IH]; intros t; [apply yields_throw|].
  cbn [parser.parse_loop]. destruct (tokenizer.next t) as [[[]|e] t'] eqn:Hnext; [|apply yields_throw].
  eapply (yields_bind _ _ (λ _, True)); [apply yields_lift|]. intros _ _.
  eapply yields_bind; [apply yields_feed; by eapply next_key_ok|]. intros _ _.
  destruct (_ && _); [|apply IH]. by intros p a q Hp [= <- <-].
Qed.

Lemma make_shaped input ns : parser.make input = Ret ns → Forall shaped ns.
Proof.
  unfold parser.make. destruct (parser.parse input _) as [[[]|e] p] eqn:Hparse; [|done].
  intros [= <-]. unfold parser.parse in Hparse.
  apply bind_ret_inv in Hparse as ([] & p0 & [= <-] & Hparse).
  assert (stacks_shaped (parser.mk [token.eof] [] [])) as Hinit by (by split).
  destruct (position.at_end _); [by injection Hparse as <-|].
  by apply (yields_parse_loop _ _ _ _ _ Hinit) in Hparse as [_ [? _]].
Qed.
End parser.

(** ** Renaming and storing *)

(** The constants of a tree. *)
Fixpoint constants (n : node.type) : list value_type :=
  match n with
  | node.value v => [v]
  | node.ref _ => []
  | node.unary _ c => constants c
  | node.binary _ l r => constants l ++ constants r
  | node.ternary _ a b c => constants a ++ constants b ++ constants c
  end.

Lemma shaped_printable n : shaped n → Forall readable (constants n) → printable n.
Proof.
  induction 1; simpl; rewrite ?Forall_app.
  - intros [? _]%Forall_cons. by constructor.
  - by constructor.
  - constructor; auto.
  - intros [? ?]. constructor; auto.
  - intros (? & ? & ?). constructor; auto.
Qed.

Lemma rename_is_value from to n : node.is_value (node.rename from to n) = node.is_value n.
Proof. by destruct n as [| [|]| | |]. Qed.
Lemma rename_is_ref from to n : node.is_ref (node.rename from to n) = node.is_ref n.
Proof. by destruct n as [| [|]| | |]. Qed.

Lemma rename_printable from to n :
  is_identifier to = true → printable n → printable (node.rename from to n).
Proof.
  intros Hto. induction 1 as [| [|k key] Hne Hkey| | |]; simpl; try (constructor; done).
  - constructor; [done|]. apply Forall_cons in Hkey as [Hk Hkey]. constructor; [|done].
    by case_decide.
  - constructor; [done| |done]. by rewrite rename_is_value.
  - constructor; [done|by rewrite !rename_is_value| |done..]. by rewrite rename_is_ref.
Qed.

(** An expression survives renaming and storing: whatever [expression_t]
    was built from a text, if its constants can be read back then renaming a
    binding to an identifier succeeds, and loading the stored text gives the
    renamed trees. *)
Theorem renamed_expression_reloads `{Float.Libm} input e from to :
  expression.make input = Ret e →
  Forall readable (mjoin (constants <$> expression.ast e)) →
  is_identifier to = true →
  ∃ e', expression.rename from to e = Ret e' ∧
    expression.ast e' = eval.rename from to (expression.ast e) ∧
    parser.make (expression.expr e') = Ret (expression.ast e').
Proof.
  intros (ns & Hns%make_shaped & [= <-])%obind_ret_inv Hread Hto. cbn [expression.ast] in *.
  assert (Forall printable (eval.rename from to ns)) as Hp.
  { unfold eval.rename. apply Forall_fmap. induction Hns as [|n ns Hn _ IH]; [constructor|].
    simpl in Hread. apply Forall_app in Hread as [Hn' Hns']. constructor; [|by apply IH].
    by apply rename_printable, shaped_printable. }
  destruct (string_printable _ Hp) as [s Hs]. exists (expression.mk s (eval.rename from to ns)).
  unfold expression.rename. cbn [expression.ast expression.expr]. rewrite Hs. split; [done|].
  split; [done|]. by apply make_string.
Qed.

Lemma renamed_expression_reloads_witness :
  ∃ e e', @expression.make Float.nan_libm " ${x.a} > 2 && map_is_assigned (${m}, ${x.b}) " = Ret e ∧
    expression.rename "x" "y" e = Ret e' ∧
    expression.expr e' = "((${y.a} > 2) && map_is_assigned(${m}, ${y.b}));" ∧
    @parser.make Float.nan_libm (expression.expr e') = Ret (expression.ast e').
Proof.
  pose (input := " ${x.a} > 2 && map_is_assigned (${m}, ${x.b}) ").
  pose (e := ltac:(let r := eval vm_compute in (@expression.make Float.nan_libm input) in
                   match r with Ret ?e => exact e end)).
  assert (@expression.make Float.nan_libm input = Ret e) as He by (vm_compute; reflexivity).
  assert (Forall readable (mjoin (constants <$> expression.ast e))) as Hread
    by (simpl; repeat constructor; lia).
  destruct (@renamed_expression_reloads Float.nan_libm input e "x" "y" He Hread eq_refl)
    as (e' & He' & _ & Hload).
  exists e, e'. split; [exact He|]. split; [exact He'|]. split; [|exact Hload].
  vm_compute in He'. injection He' as <-. reflexivity.
Defined.
End Shape.
