(* ===== verification/ParserFold.v ===== *)
(** * Constant folding in the parser

    [parser::unary] and [parser::binary] evaluate operators whose operands are
    constants while they parse.  The parser is compared with one that only
    builds trees: the folding parser gives the trees of the plain parser,
    folded, and folding does not change what evaluation does.  *)

From S2P Require Import Prelude Value Token Function Position ReadShow Tokenizer Expr Parser ParserPrint.

Import RoundTrip.

(** ** A parser that only builds trees *)
Module Plain.

Section plain.
Context `{Float.Libm}.

Definition unary (t : token.type) (k : nat) : M parser.type exn unit :=
  c ← parser.pop_operand "" k;
  parser.emplace_back (node.unary t c).

Definition binary (t : token.type) (k : nat) : M parser.type exn unit :=
  r ← parser.pop_operand "left " k;
  l ← parser.pop_operand "right " k;
  if token.is_define t && negb (node.is_ref l) then
    parser.parse_exception ("left hand of " +:+ token.show t +:+ " must be reference name") k
  else parser.emplace_back (node.binary t l r).

Definition operate (t : token.type) (k : nat) : M parser.type exn unit :=
  if is_unary t then unary t k
  else if is_infix t || is_binary_function t then binary t k
  else if decide (t = token._map_assign) then parser.ternary t k
  else if decide (t = token.rpr) then parser.pop
  else mret tt.

Definition reduce (k : nat) : M parser.type exn unit :=
  t ← parser.top;
  operate t k ≫= λ _,
  parser.pop.

Fixpoint act (fuel : nat) (inp : token.type) (eaten : nat) : M parser.type exn unit :=
  match fuel with
  | O => throw out_of_fuel
  | S fuel =>
      t ← parser.top;
      a ← lift (action.action t inp);
      match a with
      | action.reduce => reduce eaten ≫= λ _, act fuel inp eaten
      | action.shift => parser.push inp
      | action.accept =>
          modify (λ p, parser.mk (parser.op_stack p) (parser.nd_stack p ++ parser.tmp_stack p) [])
      | a => parser.parse_exception (action.show a) eaten
      end
  end.

Definition feed (t : tokenizer.type) : M parser.type exn unit :=
  match tokenizer.current t with
  | token.val => parser.emplace_back (node.value (tokenizer.tokval t))
  | token.ref => parser.emplace_back (node.ref (tokenizer.ref t))
  | inp =>
      get ≫= λ p : parser.type,
      act (S (length (parser.op_stack p))) inp (position.eaten (tokenizer.pos t))
  end.

Fixpoint parse_loop (fuel : nat) (t : tokenizer.type) : M parser.type exn unit :=
  match fuel with
  | O => throw out_of_fuel
  | S fuel =>
      let '(r, t') := tokenizer.next t in
      lift r ≫= λ _,
      feed t' ≫= λ _,
      if bool_decide (tokenizer.current t' = token.eof)
         && position.at_end (tokenizer.pos t')
      then mret tt
      else parse_loop fuel t'
  end.

Definition parse (input : string) : M parser.type exn unit :=
  parser.push token.eof ≫= λ _,
  let t := tokenizer.make (position.make input) in
  if position.at_end (tokenizer.pos t) then mret tt
  else parse_loop (2 + String.length input) t.

Definition make (input : string) : outcome exn (list node.type) :=
  match parse input (parser.mk [] [] []) with
  | (Ret _, p) => Ret (parser.nd_stack p)
  | (Throw e, _) => Throw e
  end.
End plain.

End Plain.

Module Folding.

Section folding.
Context `{Float.Libm}.

(** ** Folding a finished tree *)
Definition fold_unary (t : token.type) (c : node.type) : outcome exn node.type :=
  if node.is_value c then v ← (node.get c ≫= Function.unary t); Ret (node.value v)
  else Ret (node.unary t c).
Definition fold_binary (t : token.type) (l r : node.type) : outcome exn node.type :=
  if node.is_value l && node.is_value r then
    v ← (node.get l ≫= λ l, node.get r ≫= λ r, Function.binary t l r); Ret (node.value v)
  else Ret (node.binary t l r).
Fixpoint fold (n : node.type) : outcome exn node.type :=
  match n with
  | node.unary t c => c ← fold c; fold_unary t c
  | node.binary t l r => l ← fold l; r ← fold r; fold_binary t l r
  | node.ternary t a b c => a ← fold a; b ← fold b; c ← fold c; Ret (node.ternary t a b c)
  | n => Ret n
  end.

Fixpoint fold_all (ns : list node.type) : outcome exn (list node.type) :=
  match ns with
  | [] => Ret []
  | n :: ns => m ← fold n; ms ← fold_all ns; Ret (m :: ms)
  end.

Lemma fold_all_app ns ns' :
  fold_all (ns ++ ns') = (ms ← fold_all ns; ms' ← fold_all ns'; Ret (ms ++ ms')).
Proof.
  induction ns as [|n ns IH]; simpl; [by destruct (fold_all ns')|].
  rewrite IH. destruct (fold n); [|done]. simpl. destruct (fold_all ns); [|done]. simpl.
  by destruct (fold_all ns').
Qed.

(** ** Folding does not change what evaluation does *)
Lemma or_and_boolean t l r w :
  token.is_or_boolean t || token.is_and_boolean t = true → Function.binary t l r = Ret w →
  ∃ a b, l = Vbool a ∧ r = Vbool b.
Proof.
  intros [->%bool_decide_eq_true| ->%bool_decide_eq_true]%orb_prop;
    destruct l, r; simpl; try done; eauto.
Qed.

Lemma eval_values t l r w c :
  Function.binary t l r = Ret w → t ≠ token.define →
  eval.eval (node.binary t (node.value l) (node.value r)) c = (Ret w, c).
Proof.
  intros Hw Hdef. cbn [eval.eval]. unfold token.is_define. rewrite bool_decide_eq_false_2 by done.
  destruct (token.is_or_boolean t) eqn:Hor.
  { destruct (or_and_boolean t l r w) as (a & b & -> & ->); [by rewrite Hor|done|].
    apply bool_decide_eq_true in Hor as ->. injection Hw as <-. by destruct a. }
  destruct (token.is_and_boolean t) eqn:Hand.
  { destruct (or_and_boolean t l r w) as (a & b & -> & ->); [by rewrite Hor, Hand|done|].
    apply bool_decide_eq_true in Hand as ->. injection Hw as <-. by destruct a. }
  case_decide; rewrite !bind_mret, Hw; done.
Qed.

Lemma define_constants l r w : Function.binary token.define l r ≠ Ret w.
Proof. destruct l, r; simpl; done. Qed.

(** Actions that run alike. *)
Definition alike {S E A} (m m' : M S E A) : Prop := ∀ s, m s = m' s.
Lemma alike_refl {S E A} (m : M S E A) : alike m m.
Proof. done. Qed.
Lemma alike_bind {S E A B} (m m' : M S E A) (f f' : A → M S E B) :
  alike m m' → (∀ a, alike (f a) (f' a)) → alike (m ≫= f) (m' ≫= f').
Proof.
  intros Hm Hf s. unfold mbind, M_bind. rewrite Hm. destruct (m' s) as [[a|e] s']; [|done]. apply Hf.
Qed.

Create HintDb alike.
#[local] Hint Resolve alike_refl alike_bind : alike.

Lemma eval_binary_alike t l l' r r' :
  alike (eval.eval l) (eval.eval l') → alike (eval.eval r) (eval.eval r') →
  l = l' ∨ node.is_ref l = false ∧ node.is_ref l' = false →
  alike (eval.eval (node.binary t l r)) (eval.eval (node.binary t l' r')).
Proof.
  intros Hl Hr Href. cbn [eval.eval]. destruct (token.is_define t).
  - apply alike_bind; [done|]. intros c1. destruct Href as [->|[Hn Hn']]; [apply alike_refl|].
    by destruct l, l'.
  - destruct (token.is_or_boolean t); [|destruct (token.is_and_boolean t)].
    1,2: apply alike_bind; [done|]; intros c0; apply alike_bind; [done|]; intros []; auto with alike.
    case_decide; auto with alike.
Qed.

Lemma fold_is_ref n m : fold n = Ret m → n = m ∨ node.is_ref n = false ∧ node.is_ref m = false.
Proof.
  destruct n; cbn [fold]; try (intros [= <-]; by left); right; split; try done; revert H0.
  - intros (c & _ & Hm)%obind_ret_inv. unfold fold_unary in Hm. destruct (node.is_value c); [|by injection Hm as <-].
    by apply obind_ret_inv in Hm as (v & _ & [= <-]).
  - intros (l & _ & (r & _ & Hm)%obind_ret_inv)%obind_ret_inv.
    unfold fold_binary in Hm.
    destruct (_ && _); [|by injection Hm as <-]. by apply obind_ret_inv in Hm as (v & _ & [= <-]).
  - by intros (a & _ & (b & _ & (c & _ & [= <-])%obind_ret_inv)%obind_ret_inv)%obind_ret_inv.
Qed.

Lemma fold_eval n m : fold n = Ret m → alike (eval.eval n) (eval.eval m).
Proof.
  revert m. induction n as [v|key|t c IH|t l IHl r IHr|t a IHa b IHb c IHc]; intros m; cbn [fold].
  - intros [= <-]. apply alike_refl.
  - intros [= <-]. apply alike_refl.
  - intros (c' & Hc & Hm)%obind_ret_inv. intros s. cbn [eval.eval].
    rewrite (alike_bind _ _ _ _ (IH c' Hc) (λ _, alike_refl _)).
    unfold fold_unary in Hm. destruct (node.is_value c') eqn:Hv; [|by injection Hm as <-].
    destruct c'; try done. apply obind_ret_inv in Hm as (w & Hw & [= <-]).
    simpl in *. by rewrite bind_mret, Hw.
  - intros (l' & Hl & (r' & Hr & Hm)%obind_ret_inv)%obind_ret_inv s.
    rewrite (eval_binary_alike t l l' r r'); eauto using fold_is_ref.
    unfold fold_binary in Hm. destruct (node.is_value l' && node.is_value r') eqn:Hv; [|by injection Hm as <-].
    destruct l', r'; try done. apply obind_ret_inv in Hm as (w & Hw & [= <-]).
    simpl in Hw. rewrite (eval_values _ _ _ w); [done|done|].
    intros ->. by apply define_constants in Hw.
  - intros (a' & Ha & (b' & Hb & (c' & Hc & [= <-])%obind_ret_inv)%obind_ret_inv)%obind_ret_inv.
    cbn [eval.eval]. destruct t; auto 8 with alike.
Qed.

Lemma fold_all_eval ns ms v : fold_all ns = Ret ms → alike (eval.eval_all_from v ns) (eval.eval_all_from v ms).
Proof.
  revert ms v. induction ns as [|n ns IH]; intros ms v; cbn [fold_all].
  - intros [= <-]. apply alike_refl.
  - intros (m & Hm & (ms' & Hms & [= <-])%obind_ret_inv)%obind_ret_inv. cbn [eval.eval_all_from].
    apply alike_bind; [by apply fold_eval|]. intros w. by apply IH.
Qed.

(** ** The folding parser follows the plain one *)

(** The stacks of the folding parser are those of the plain one, folded. *)
Definition rel (p q : parser.type) : Prop :=
  parser.op_stack p = parser.op_stack q ∧
  fold_all (parser.nd_stack q) = Ret (parser.nd_stack p) ∧
  fold_all (parser.tmp_stack q) = Ret (parser.tmp_stack p).

(** The folding parser has thrown [e]: the plain one holds the operator whose
    evaluation throws [e]. *)
Definition doomed (e : exn) (q : parser.type) : Prop :=
  fold_all (parser.nd_stack q ++ parser.tmp_stack q) = Throw e.

Definition simulates_at {A} (m m' : M parser.type exn A) (p q : parser.type) : Prop :=
  match m p, m' q with
  | (Ret a, p'), (Ret a', q') => a = a' ∧ rel p' q'
  | (Throw e, _), (Ret _, q') => doomed e q'
  | (Throw _, _), (Throw _, _) => True
  | (Ret _, _), (Throw _, _) => False
  end.
Definition simulates {A} (m m' : M parser.type exn A) : Prop :=
  ∀ p q, rel p q → simulates_at m m' p q.

Definition keeps {A} (m' : M parser.type exn A) : Prop :=
  ∀ e q, doomed e q → match m' q with (Ret _, q') => doomed e q' | _ => True end.

Lemma simulates_at_bind {A B} (m m' : M parser.type exn A) (f f' : A → M parser.type exn B) p q :
  simulates_at m m' p q → (∀ a, simulates (f a) (f' a)) → (∀ a, keeps (f' a)) →
  simulates_at (m ≫= f) (m' ≫= f') p q.
Proof.
  unfold simulates_at. intros Hm Hf Hk. unfold mbind, M_bind.
  destruct (m p) as [[a|e] p'], (m' q) as [[a'|e'] q']; try done.
  - destruct Hm as [-> Hrel]. by apply Hf.
  - pose proof (Hk a' e q' Hm). by destruct (f' a' q') as [[]].
Qed.
Lemma simulates_bind {A B} (m m' : M parser.type exn A) (f f' : A → M parser.type exn B) :
  simulates m m' → (∀ a, simulates (f a) (f' a)) → (∀ a, keeps (f' a)) →
  simulates (m ≫= f) (m' ≫= f').
Proof. intros Hm Hf Hk p q Hpq. apply simulates_at_bind; auto. Qed.
Lemma keeps_bind {A B} (m : M parser.type exn A) (f : A → M parser.type exn B) :
  keeps m → (∀ a, keeps (f a)) → keeps (m ≫= f).
Proof.
  intros Hm Hf e q Hq. specialize (Hm e q Hq). unfold mbind, M_bind.
  destruct (m q) as [[a|e'] q']; [by apply Hf|done].
Qed.
Lemma keeps_throw {A} e : keeps (throw e : M parser.type exn A).
Proof. by intros e' q Hq. Qed.
Lemma simulates_throw {A} e : simulates (throw e : M parser.type exn A) (throw e).
Proof. by intros p q Hpq. Qed.
Lemma keeps_lift {A} (o : outcome exn A) : keeps (lift o).
Proof. intros e' q Hq. by destruct o. Qed.
Lemma simulates_lift {A} (o : outcome exn A) : simulates (lift o) (lift o).
Proof. intros p q Hpq. by destruct o. Qed.

(** The actions on the operator stack *)
Lemma simulates_top : simulates parser.top parser.top.
Proof.
  intros p q Hpq. unfold simulates_at, parser.top. rewrite !bind_get.
  destruct Hpq as [Hops Hst]. rewrite Hops. destruct (head _); [|done]. done.
Qed.
Lemma keeps_top : keeps parser.top.
Proof. intros e q Hq. unfold parser.top. rewrite bind_get. by destruct (head _). Qed.
Lemma simulates_pop : simulates parser.pop parser.pop.
Proof.
  intros p q [Hops Hst]. unfold simulates_at, parser.pop. rewrite !bind_get, Hops.
  by destruct (parser.op_stack q).
Qed.
Lemma keeps_pop : keeps parser.pop.
Proof. intros e q Hq. unfold parser.pop. rewrite bind_get. by destruct (parser.op_stack q). Qed.
Lemma simulates_push t : simulates (parser.push t) (parser.push t).
Proof. intros p q [Hops Hst]. split; [done|]. split; [|done]. simpl. by rewrite Hops. Qed.
Lemma keeps_push t : keeps (parser.push t).
Proof. by intros e q Hq. Qed.

(** The actions on operands *)
Lemma pop_operand_empty which k ops nds :
  parser.pop_operand which k (parser.mk ops nds []) =
  (Throw (expr_parse_error "missing_operand" ("missing " +:+ which +:+ "operand") (Z.of_nat k)),
   parser.mk ops nds []).
Proof. done. Qed.

Lemma fold_all_snoc l c ms :
  fold_all (l ++ [c]) = Ret ms → ∃ l' c', ms = l' ++ [c'] ∧ fold_all l = Ret l' ∧ fold c = Ret c'.
Proof.
  rewrite fold_all_app. intros (l' & Hl & (r & Hr & [= <-])%obind_ret_inv)%obind_ret_inv.
  simpl in Hr. apply obind_ret_inv in Hr as (c' & Hc & [= <-]). eauto.
Qed.

Lemma rel_operand p q :
  rel p q →
  (parser.tmp_stack p = [] ∧ parser.tmp_stack q = []) ∨
  ∃ ops nds nds' l l' c c',
    p = parser.mk ops nds (l ++ [c]) ∧ q = parser.mk ops nds' (l' ++ [c']) ∧
    rel (parser.mk ops nds l) (parser.mk ops nds' l') ∧ fold c' = Ret c.
Proof.
  destruct p as [ops nds tmp], q as [ops' nds' tmp']. intros (Hops & Hnd & Htmp). simpl in *. subst ops'.
  induction tmp' as [|c' l' _] using rev_ind; [by left; injection Htmp as <-|right].
  apply fold_all_snoc in Htmp as (l & c & -> & Hl & Hc).
  by exists ops, nds, nds', l, l', c, c'.
Qed.

Lemma simulates_emplace n p q :
  rel p q → simulates_at (lift (fold n) ≫= parser.emplace_back) (parser.emplace_back n) p q.
Proof.
  intros (Hops & Hnd & Htmp). unfold simulates_at. rewrite bind_lift.
  destruct (fold n) as [m|e] eqn:Hn; simpl.
  - split; [done|]. split; [done|]. split; [done|]. simpl. rewrite fold_all_app, Htmp. simpl. by rewrite Hn.
  - unfold doomed. simpl. rewrite !fold_all_app, Hnd, Htmp. simpl. by rewrite Hn.
Qed.

(** The operators in terms of folding one tree *)
Lemma unary_run t k ops nds l c :
  parser.unary t k (parser.mk ops nds (l ++ [c])) =
  (lift (fold_unary t c) ≫= parser.emplace_back) (parser.mk ops nds l).
Proof.
  unfold parser.unary, fold_unary. unfold mbind at 1, M_bind at 1. rewrite pop_operand_run.
  destruct (node.is_value c); [|done]. rewrite !bind_lift. by destruct (node.get c ≫= Function.unary t).
Qed.
Lemma plain_unary_run t k ops nds l c :
  Plain.unary t k (parser.mk ops nds (l ++ [c])) =
  parser.emplace_back (node.unary t c) (parser.mk ops nds l).
Proof. unfold Plain.unary, mbind, M_bind. by rewrite pop_operand_run. Qed.

Definition bad_define (t : token.type) (l : node.type) : bool :=
  token.is_define t && negb (node.is_ref l).
Lemma binary_run t k ops nds m l r :
  bad_define t l = false →
  parser.binary t k (parser.mk ops nds ((m ++ [l]) ++ [r])) =
  (lift (fold_binary t l r) ≫= parser.emplace_back) (parser.mk ops nds m).
Proof.
  unfold parser.binary, bad_define, fold_binary. intros Hdef.
  unfold mbind at 1, M_bind at 1. rewrite pop_operand_run.
  unfold mbind at 1, M_bind at 1. rewrite pop_operand_run, Hdef.
  destruct (node.is_value l && node.is_value r); [|done]. rewrite !bind_lift.
  by destruct (node.get l ≫= λ l, node.get r ≫= λ r, Function.binary t l r).
Qed.
Lemma plain_binary_run t k ops nds m l r :
  bad_define t l = false →
  Plain.binary t k (parser.mk ops nds ((m ++ [l]) ++ [r])) =
  parser.emplace_back (node.binary t l r) (parser.mk ops nds m).
Proof.
  unfold Plain.binary, bad_define. intros Hdef. unfold mbind, M_bind.
  by rewrite !pop_operand_run, Hdef.
Qed.
Lemma binary_throws t k ops nds m l r :
  bad_define t l = true →
  ∃ e s, parser.binary t k (parser.mk ops nds ((m ++ [l]) ++ [r])) = (Throw e, s) ∧
         Plain.binary t k (parser.mk ops nds ((m ++ [l]) ++ [r])) = (Throw e, s).
Proof.
  unfold parser.binary, Plain.binary, bad_define. intros Hdef. unfold mbind, M_bind.
  rewrite !pop_operand_run, Hdef. eauto.
Qed.

Lemma simulates_unary t k : simulates (parser.unary t k) (Plain.unary t k).
Proof.
  intros p q Hpq.
  destruct (rel_operand _ _ Hpq) as [[Hp Hq]|(ops & nds & nds' & l & l' & c & c' & -> & -> & Hrel & Hc)].
  { destruct p, q. simpl in *. by subst. }
  pose proof (simulates_emplace (node.unary t c') _ _ Hrel) as Hs. unfold simulates_at in *.
  cbn [fold] in Hs. rewrite Hc in Hs. by rewrite unary_run, plain_unary_run.
Qed.

Lemma simulates_binary t k : simulates (parser.binary t k) (Plain.binary t k).
Proof.
  intros p q Hpq.
  destruct (rel_operand _ _ Hpq) as [[Hp Hq]|(ops & nds & nds' & l & l' & r & r' & -> & -> & Hrel & Hr)].
  { destruct p, q. simpl in *. by subst. }
  destruct (rel_operand _ _ Hrel) as [[Hp Hq]|(ops1 & nds1 & nds1' & m & m' & c & c' & Heq & Heq' & Hrel' & Hc)].
  { simpl in *. by subst. }
  injection Heq as <- <- ->. injection Heq' as <- ->.
  assert (bad_define t c = bad_define t c') as Hsame.
  { unfold bad_define. by destruct (fold_is_ref _ _ Hc) as [->|[-> ->]]. }
  destruct (bad_define t c') eqn:Hbad; unfold simulates_at.
  { destruct (binary_throws t k ops nds m c r Hsame) as (e & s & -> & _).
    by destruct (binary_throws t k ops nds' m' c' r' Hbad) as (e' & s' & _ & ->). }
  rewrite binary_run, plain_binary_run by done.
  pose proof (simulates_emplace (node.binary t c' r') _ _ Hrel') as Hs. unfold simulates_at in *.
  cbn [fold] in Hs. rewrite Hc in Hs. cbn [mbind outcome_bind] in Hs. by rewrite Hr in Hs.
Qed.

Lemma simulates_ternary k :
  simulates (parser.ternary token._map_assign k) (parser.ternary token._map_assign k).
Proof.
  intros p q Hpq.
  destruct (rel_operand _ _ Hpq) as [[Hp Hq]|(ops & nds & nds' & l & l' & c & c' & -> & -> & Hrel & Hc)].
  { destruct p, q. simpl in *. by subst. }
  destruct (rel_operand _ _ Hrel) as [[Hp Hq]|(ops1 & nds1 & nds1' & m & m' & b & b' & Heq & Heq' & Hrel' & Hb)].
  { simpl in *. by subst. }
  injection Heq as <- <- ->. injection Heq' as <- ->.
  destruct (rel_operand _ _ Hrel') as [[Hp Hq]|(ops2 & nds2 & nds2' & n & n' & a & a' & Heq & Heq' & Hrel2 & Ha)].
  { simpl in *. by subst. }
  injection Heq as <- <- ->. injection Heq' as <- ->.
  pose proof (simulates_emplace (node.ternary token._map_assign a' b' c') _ _ Hrel2) as Hs.
  unfold simulates_at, parser.ternary in *. cbn [fold] in Hs.
  rewrite Ha in Hs. cbn [mbind outcome_bind] in Hs. rewrite Hb in Hs. cbn [mbind outcome_bind] in Hs.
  rewrite Hc in Hs. cbn [mbind outcome_bind] in Hs. unfold mbind, M_bind in *.
  by rewrite !pop_operand_run.
Qed.

(** Building a larger tree does not save the parser. *)
Lemma doomed_operands e ops ops' nds l cs n :
  (∀ e, fold_all cs = Throw e → fold n = Throw e) →
  doomed e (parser.mk ops nds (l ++ cs)) → doomed e (parser.mk ops' nds (l ++ [n])).
Proof.
  intros Hn. unfold doomed. simpl. rewrite !fold_all_app. destruct (fold_all nds); [|done]. simpl.
  destruct (fold_all l); [|done]. simpl. destruct (fold_all cs) as [|e']; [done|]. simpl.
  by rewrite (Hn e').
Qed.
Lemma keeps_emplace n : keeps (parser.emplace_back n).
Proof.
  intros e q. unfold doomed. simpl. intros Hq. by rewrite app_assoc, fold_all_app, Hq.
Qed.
Lemma keeps_unary t k : keeps (Plain.unary t k).
Proof.
  intros e [ops nds tmp] Hq. destruct tmp as [|c l _] using rev_ind; [done|].
  rewrite plain_unary_run. eapply doomed_operands; [|exact Hq]. simpl. intros e'. destruct (fold c); [done|]. by intros [= ->].
Qed.
Lemma keeps_binary t k : keeps (Plain.binary t k).
Proof.
  intros e [ops nds tmp] Hq. destruct tmp as [|r l _] using rev_ind; [done|].
  destruct l as [|l m _] using rev_ind; [done|].
  destruct (bad_define t l) eqn:Hbad.
  - by destruct (binary_throws t k ops nds m l r Hbad) as (e' & s & _ & ->).
  - rewrite plain_binary_run by done. rewrite <- app_assoc in Hq.
    eapply doomed_operands; [|exact Hq]. simpl. intros e'. destruct (fold l); [|by intros [= ->]].
    simpl. destruct (fold r); [done|]. by intros [= ->].
Qed.
Lemma keeps_ternary k : keeps (parser.ternary token._map_assign k).
Proof.
  intros e [ops nds tmp] Hq. destruct tmp as [|c l _] using rev_ind; [done|].
  destruct l as [|b l _] using rev_ind; [done|]. destruct l as [|a l _] using rev_ind; [done|].
  unfold parser.ternary, mbind, M_bind. rewrite !pop_operand_run. rewrite <- !app_assoc in Hq.
  eapply doomed_operands; [|exact Hq]. simpl. intros e'. destruct (fold a); [|by intros [= ->]].
  simpl. destruct (fold b); [|by intros [= ->]]. simpl. destruct (fold c); [done|]. by intros [= ->].
Qed.

Create HintDb simulates.
#[local] Hint Resolve simulates_throw simulates_lift simulates_top simulates_pop simulates_push
  simulates_unary simulates_binary simulates_ternary simulates_bind : simulates.
#[local] Hint Resolve keeps_throw keeps_lift keeps_top keeps_pop keeps_push keeps_emplace
  keeps_unary keeps_binary keeps_ternary keeps_bind : simulates.

Lemma simulates_ret : simulates (mret tt) (mret tt).
Proof. by intros p q Hpq. Qed.
Lemma keeps_mret : keeps (mret tt).
Proof. by intros e q Hq. Qed.
#[local] Hint Resolve simulates_ret keeps_mret : simulates.

Lemma keeps_operate t k : keeps (Plain.operate t k).
Proof.
  unfold Plain.operate.
  destruct (is_unary t); [auto with simulates|]. destruct (_ || _); [auto with simulates|].
  case_decide; subst; [auto with simulates|]. case_decide; auto with simulates.
Qed.
#[local] Hint Resolve keeps_operate : simulates.
Lemma keeps_reduce k : keeps (Plain.reduce k).
Proof. unfold Plain.reduce. auto with simulates. Qed.
Lemma simulates_reduce k : simulates (parser.reduce k) (Plain.reduce k).
Proof.
  apply simulates_bind; [auto with simulates| |auto with simulates].
  intros t. apply simulates_bind; [|auto with simulates..].
  destruct t; unfold Plain.operate; cbn [is_unary is_infix is_binary_function orb];
    first [apply simulates_unary | apply simulates_binary | apply simulates_ternary
          | apply simulates_pop | apply simulates_ret].
Qed.
#[local] Hint Resolve keeps_reduce simulates_reduce : simulates.

Lemma keeps_accept :
  keeps (modify (λ p, parser.mk (parser.op_stack p) (parser.nd_stack p ++ parser.tmp_stack p) [])).
Proof. intros e q Hq. unfold doomed. simpl. by rewrite app_nil_r. Qed.
Lemma simulates_accept :
  let accept := modify (λ p, parser.mk (parser.op_stack p) (parser.nd_stack p ++ parser.tmp_stack p) []) in
  simulates accept accept.
Proof.
  intros accept p q (Hops & Hnd & Htmp). split; [done|]. split; [done|]. split; [|done].
  simpl. by rewrite fold_all_app, Hnd, Htmp.
Qed.
#[local] Hint Resolve keeps_accept simulates_accept : simulates.

Lemma keeps_act fuel inp k : keeps (Plain.act fuel inp k).
Proof.
  induction fuel as [|fuel IH]; cbn [Plain.act]; [auto with simulates|].
  apply keeps_bind; [auto with simulates|]. intros t.
  apply keeps_bind; [auto with simulates|]. intros []; try apply keeps_throw; auto with simulates.
Qed.
Lemma simulates_act fuel inp k : simulates (parser.act fuel inp k) (Plain.act fuel inp k).
Proof.
  induction fuel as [|fuel IH]; cbn [parser.act Plain.act]; [auto with simulates|].
  apply simulates_bind; [auto with simulates| |].
  - intros t. apply simulates_bind; [auto with simulates| |].
    + intros []; try apply simulates_throw; auto using keeps_act with simulates.
    + intros []; try apply keeps_throw; auto using keeps_act with simulates.
  - intros t. apply keeps_bind; [auto with simulates|].
    intros []; try apply keeps_throw; auto using keeps_act with simulates.
Qed.

Lemma simulates_feed t : simulates (parser.feed t) (Plain.feed t).
Proof.
  unfold parser.feed, Plain.feed. destruct (tokenizer.current t);
    try (intros p q Hpq; unfold simulates_at; rewrite !bind_get;
         destruct (Hpq) as [-> _]; by apply simulates_act).
  - intros p q Hpq. by apply (simulates_emplace (node.value _)).
  - intros p q Hpq. by apply (simulates_emplace (node.ref _)).
Qed.
Lemma keeps_feed t : keeps (Plain.feed t).
Proof.
  unfold Plain.feed. destruct (tokenizer.current t);
    try (intros e q Hq; rewrite bind_get; by apply keeps_act); auto with simulates.
Qed.
#[local] Hint Resolve keeps_feed simulates_feed : simulates.

Lemma keeps_parse_loop fuel t : keeps (Plain.parse_loop fuel t).
Proof.
  revert t. induction fuel as [|fuel IH]; intros t; cbn [Plain.parse_loop]; [auto with simulates|].
  destruct (tokenizer.next t) as [r t'].
  apply keeps_bind; [auto with simulates|]. intros _.
  apply keeps_bind; [auto with simulates|]. intros _. destruct (_ && _); auto with simulates.
Qed.
Lemma simulates_parse_loop fuel t : simulates (parser.parse_loop fuel t) (Plain.parse_loop fuel t).
Proof.
  revert t. induction fuel as [|fuel IH]; intros t; cbn [parser.parse_loop Plain.parse_loop];
    [auto with simulates|].
  destruct (tokenizer.next t) as [r t'].
  assert (keeps (if bool_decide (tokenizer.current t' = token.eof) && position.at_end (tokenizer.pos t')
                 then mret tt else Plain.parse_loop fuel t')) as Hk.
  { destruct (_ && _); auto using keeps_parse_loop with simulates. }
  apply simulates_bind; [auto with simulates| |auto with simulates]. intros _.
  apply simulates_bind; [auto with simulates| |auto with simulates]. intros _.
  destruct (_ && _); auto with simulates.
Qed.

(** At the end of an expression nothing is left on [tmp_stack]. *)
Lemma act_eof fuel k q u q' :
  Plain.act fuel token.eof k q = (Ret u, q') → parser.tmp_stack q' = [].
Proof.
  revert q. induction fuel as [|fuel IH]; intros q Hrun; [done|]. cbn [Plain.act] in Hrun.
  apply bind_ret_inv in Hrun as (t & q1 & _ & Hrun).
  apply bind_ret_inv in Hrun as (a & q2 & Ha & Hrun).
  assert (action.action t token.eof ≠ Ret action.shift) as Hshift by (by destruct t).
  injection Ha as Ha ->. destruct a; try done.
  - apply bind_ret_inv in Hrun as (v & q3 & _ & Hrun). by apply (IH q3).
  - by injection Hrun as _ <-.
Qed.
Lemma parse_loop_tmp_stack fuel t q u q' :
  Plain.parse_loop fuel t q = (Ret u, q') → parser.tmp_stack q' = [].
Proof.
  revert t q. induction fuel as [|fuel IH]; intros t q Hrun; [done|]. cbn [Plain.parse_loop] in Hrun.
  destruct (tokenizer.next t) as [r t'].
  apply bind_ret_inv in Hrun as (a & q1 & _ & Hrun).
  apply bind_ret_inv in Hrun as (b & q2 & Hfeed & Hrun).
  destruct (bool_decide (tokenizer.current t' = token.eof) && _) eqn:Hend; [|by apply IH in Hrun].
  apply andb_prop in Hend as [Heof%bool_decide_eq_true _]. injection Hrun as _ <-.
  unfold Plain.feed in Hfeed. rewrite Heof, bind_get in Hfeed. by apply act_eof in Hfeed.
Qed.

(** The folding parser folds the trees of the plain one; when folding throws,
    so does parsing. *)
Lemma make_fold input :
  match Plain.make input with
  | Ret ns => parser.make input = fold_all ns
  | Throw _ => ∃ e, parser.make input = Throw e
  end.
Proof.
  unfold Plain.make, parser.make, Plain.parse, parser.parse, parser.push. rewrite !bind_modify. cbn beta zeta.
  assert (rel (parser.mk [token.eof] [] []) (parser.mk [token.eof] [] [])) as Hrel by done.
  cbn [parser.op_stack parser.nd_stack parser.tmp_stack].
  destruct (position.at_end _); [done|].
  pose proof (simulates_parse_loop (2 + String.length input)
                (tokenizer.make (position.make input)) _ _ Hrel) as Hsim.
  unfold simulates_at in Hsim. destruct (parser.parse_loop _ _ _) as [[[]|e] p];
    destruct (Plain.parse_loop _ _ _) as [[[]|e'] q] eqn:Hplain; [|done| |by eauto].
  - destruct Hsim as [_ (_ & Hnd & _)]. by rewrite Hnd.
  - apply parse_loop_tmp_stack in Hplain. unfold doomed in Hsim. by rewrite Hplain, app_nil_r in Hsim.
Qed.
End folding.

(** C33: Folding constants while parsing is invisible: whatever the parser
    returns evaluates in every context exactly like the trees of the parser
    that does not fold, to the same value or the same exception, with the same
    bindings afterwards. *)
Theorem constant_folding `{Float.Libm} input ms :
  parser.make input = Ret ms →
  ∃ ns, Plain.make input = Ret ns ∧ ∀ c, eval.eval_all ms c = eval.eval_all ns c.
Proof.
  intros Hms. pose proof (make_fold input) as Hfold.
  destruct (Plain.make input) as [ns|e]; [|destruct Hfold as [e' Hfold]; congruence].
  exists ns. split; [done|]. intros c. symmetry. apply fold_all_eval. congruence.
Qed.

Lemma constant_folding_witness :
  let input := "${y} := 2 * 3 + ${x}; ${y} < 10 && true" in
  let c := context.mk {["x" := Vint 3]} ∅ in
  ∃ ms ns,
    @parser.make Float.nan_libm input = Ret ms ∧ @Plain.make input = Ret ns ∧ ms ≠ ns ∧
    (@eval.eval_all Float.nan_libm ms c).1 = Ret (Vbool true) ∧
    @eval.eval_all Float.nan_libm ms c = @eval.eval_all Float.nan_libm ns c.
Proof.
  intros input c.
  pose (ms := ltac:(let r := eval vm_compute in (@parser.make Float.nan_libm input) in
                    match r with Ret ?e => exact e end)).
  assert (@parser.make Float.nan_libm input = Ret ms) as Hms by (vm_compute; reflexivity).
  destruct (@constant_folding Float.nan_libm input ms Hms) as (ns & Hns & Heval).
  exists ms, ns. split; [exact Hms|]. split; [exact Hns|]. split; [|split; [reflexivity|apply Heval]].
  vm_compute in Hns. by injection Hns as <-.
Defined.
End Folding.
