(* ===== verification/Simplify.v ===== *)
(** * The simplification of expressions

    [we/expr/parse/simplify]: constants and copies that earlier assignments have stored
    are propagated to the expressions that read them, and assignments to names that
    nobody reads afterwards are removed; [expression_t::simplify]
    ([we/type/expression.cpp]). *)

From S2P Require Import Prelude Value Token Function Position ReadShow Tokenizer Expr Parser.

Module simplify.

(** ** Keys ([util.cpp]) *)
Definition key_type : Type := list string.
Definition begins_with (lhs rhs : key_type) : bool :=
  (length rhs <=? length lhs) && bool_decide (take (length rhs) lhs = rhs).

(** [while (!current_parent.empty()) { ...; current_parent.pop_back(); }]: the values of
    [current_parent], whose last component is the head of [rev_parent] *)
Fixpoint parents_of (rev_parent : list string) : list key_type :=
  match rev_parent with
  | [] => []
  | _ :: rest => reverse rev_parent :: parents_of rest
  end.
Definition parents (var : key_type) : list key_type := parents_of (reverse var).

(** ** The visitor of both propagations

    The class [propagation] is the same in [constant_propagation.cpp] and
    [copy_propagation.cpp] but for what it makes of a key and of an assignment. *)
Section propagation.
Context {S : Type} (visit_key : key_type → S → node.type) (assign : key_type → node.type → S → S).

Fixpoint propagation (nd : node.type) : M S exn node.type :=
  match nd with
  | node.value v => mret (node.value v)
  | node.ref k => λ s, (Ret (visit_key k s), s)
  | node.unary t child =>
      child ← propagation child;
      mret (node.unary t child)
  | node.binary t l r =>
      if token.is_define t then
        r ← propagation r;
        match l with
        | node.ref lhs => modify (assign lhs r) ≫= λ _, mret (node.binary t l r)
        | _ => throw bad_get
        end
      else if decide (associativity.associativity t = associativity.left) then
        l ← propagation l;
        r ← propagation r;
        mret (node.binary t l r)
      else
        r ← propagation r;
        l ← propagation l;
        mret (node.binary t l r)
  | node.ternary t child0 child1 child2 =>
      child0 ← propagation child0;
      child1 ← propagation child1;
      child2 ← propagation child2;
      mret (node.ternary t child0 child1 child2)
  end.

Fixpoint propagate_all (nds : list node.type) : M S exn (list node.type) :=
  match nds with
  | [] => mret []
  | nd :: nds =>
      nd ← propagation nd;
      nds ← propagate_all nds;
      mret (nd :: nds)
  end.
End propagation.

(** ** Constant propagation ([constant_propagation.cpp]) *)
Definition constants : Type := gmap key_type value_type.

Definition remove_parents_and_children_left (var : key_type) (map : constants) : constants :=
  filter (λ kv, begins_with kv.1 var = false) (foldl (λ map parent, delete parent map) map (parents var)).

Definition constant_key (k : key_type) (map : constants) : node.type :=
  match map !! k with Some v => node.value v | None => node.ref k end.

Definition constant_assign (lhs : key_type) (rhs : node.type) (map : constants) : constants :=
  let map := remove_parents_and_children_left lhs map in
  match rhs with node.value v => <[lhs := v]> map | _ => map end.

Definition constant_propagation (nds : list node.type) : outcome exn (list node.type) :=
  (propagate_all constant_key constant_assign nds ∅).1.

(** ** Copy propagation ([copy_propagation.cpp]) *)
Definition copies : Type := gmap key_type key_type.

Definition remove_parents_and_children_both (var : key_type) (map : copies) : copies :=
  filter (λ kv, begins_with kv.1 var || begins_with kv.2 var = false)
    (foldl (λ map current_parent, filter (λ kv, ¬ (kv.1 = current_parent ∨ kv.2 = current_parent)) map)
       map (parents var)).

(** [current_parent] is the reverse of [rev_parent], [suffix] is what has been taken off *)
Fixpoint replacement (rev_parent suffix : list string) (map : copies) : option key_type :=
  match rev_parent with
  | [] => None
  | last :: rest =>
      match map !! (reverse rev_parent : key_type) with
      | Some replacement => Some (replacement ++ suffix)
      | None => replacement rest (last :: suffix) map
      end
  end.
Definition copy_key (k : key_type) (map : copies) : node.type :=
  node.ref (default k (replacement (reverse k) [] map)).

Definition copy_assign (lhs : key_type) (rhs : node.type) (map : copies) : copies :=
  let map := remove_parents_and_children_both lhs map in
  match rhs with node.ref k => <[lhs := k]> map | _ => map end.

Definition copy_propagation (nds : list node.type) : outcome exn (list node.type) :=
  (propagate_all copy_key copy_assign nds ∅).1.

(** ** Dead code elimination ([dead_code_elimination.cpp]) *)
Definition key_set_type : Type := gset key_type.

Definition variable_or_member_referenced (k : key_type) (referenced_names : key_set_type) : bool :=
  bool_decide (k ∈ referenced_names) ||
  existsb (λ current_parent, bool_decide (current_parent ∈ referenced_names)) (parents k) ||
  existsb (λ it, begins_with it k) (elements referenced_names).

(** the names that the assignment to [lhs] provides *)
Definition erase_assigned (lhs : key_type) (referenced_names : key_set_type) : key_set_type :=
  filter (λ it, begins_with it lhs = false) (referenced_names ∖ {[lhs]}).

(** [_referenced_names] and [_has_assignment_somewhere] *)
Fixpoint elimination (nd : node.type) : M (key_set_type * bool) exn node.type :=
  match nd with
  | node.value v => mret (node.value v)
  | node.ref key => modify (λ s, ({[key]} ∪ s.1, s.2)) ≫= λ _, mret (node.ref key)
  | node.unary t child =>
      child ← elimination child;
      mret (node.unary t child)
  | node.binary t l r =>
      if token.is_define t then
        match l with
        | node.ref lhs =>
            s ← get;
            let lhs_referenced := variable_or_member_referenced lhs s.1 in
            modify (λ s, (erase_assigned lhs s.1, s.2)) ≫= λ _,
            r ← elimination r;
            if (negb lhs_referenced : bool) then mret r
            else modify (λ s, (s.1, true)) ≫= λ _, mret (node.binary t l r)
        | _ => throw bad_get
        end
      else if decide (associativity.associativity t = associativity.left) then
        l ← elimination l;
        r ← elimination r;
        mret (node.binary t l r)
      else
        r ← elimination r;
        l ← elimination l;
        mret (node.binary t l r)
  | node.ternary t child0 child1 child2 =>
      child0 ← elimination child0;
      child1 ← elimination child1;
      child2 ← elimination child2;
      mret (node.ternary t child0 child1 child2)
  end.

(** from the last expression to the first one *)
Fixpoint eliminate (nds : list node.type) (referenced_names : key_set_type) :
    outcome exn (list node.type * key_set_type) :=
  match nds with
  | [] => Ret ([], referenced_names)
  | nd :: nds =>
      '(nds, referenced_names) ← eliminate nds referenced_names;
      let '(o, (referenced_names, had_assignment_somewhere)) := elimination nd (referenced_names, false) in
      nd ← o;
      Ret (if (had_assignment_somewhere : bool) then nd :: nds else nds, referenced_names)
  end.

Definition dead_code_elimination (nds : list node.type) (needed_bindings : key_set_type) :
    outcome exn (list node.type) :=
  fst <$> eliminate nds needed_bindings.

(** ** All passes ([simplify.cpp]) *)
Definition simplification_pass (nds : list node.type) (needed_bindings : key_set_type) :
    outcome exn (list node.type) :=
  expressions ← constant_propagation nds;
  expressions ← copy_propagation expressions;
  dead_code_elimination expressions needed_bindings.

(** [expression_t::simplify] *)
Definition simplify (needed_bindings : key_set_type) : M expression.type exn bool :=
  e ← get;
  ast ← lift (simplification_pass (expression.ast e) needed_bindings);
  modify (λ e, expression.mk (expression.expr e) ast) ≫= λ _,
  s ← lift (print.string_ ast);
  let modified := bool_decide (s ≠ expression.expr e) in
  (if modified then modify (λ e, expression.mk s (expression.ast e)) else mret tt) ≫= λ _,
  mret modified.

End simplify.
