(* ===== verification/SimplifySpec.v ===== *)
(** * Simplification keeps the needed bindings

    For expressions whose assignments are neither conditional nor inside of other
    operators, the passes of [we/expr/parse/simplify] keep what evaluation binds to the
    needed names; and expressions for which they do not. *)

From S2P Require Import Prelude Value Token Function Position ReadShow Tokenizer Expr Parser Simplify.

Import simplify.

Module SimplifySpec.

(** ** Reading and writing a context *)

(** A name is bound to a value or to a reference, not to both: [bind_ref] is called before
    anything is assigned. *)
Definition single (c : context.type) : Prop := context.container c ##ₘ context.ref_container c.
Definition bound (c : context.type) (name : string) : option value_type :=
  union (context.ref_container c !! name) (context.container c !! name).
Definition find (k : key_type) (c : context.type) : option value_type :=
  match k with [] => None | name :: path => bound c name ≫= Path.peek path end.

Definition not_found (k : key_type) : exn :=
  match k with [] => runtime_error "context::value []" | _ => missing_binding (Path.join k) end.
Lemma value_find k c : single c → context.value k c = or_throw (not_found k) (find k c).
Proof.
  intros Hc. destruct k as [|name path]; [done|]. unfold context.value, find, bound, not_found.
  destruct (context.ref_container c !! name) as [r|] eqn:Hr; simpl.
  - assert (context.container c !! name = None) as -> by (eapply map_disjoint_Some_r; done).
    simpl. by destruct (Path.peek path r).
  - destruct (context.container c !! name) as [v|]; simpl; [|done]. by destruct (Path.peek path v).
Qed.

Lemma find_app k r c : k ≠ [] → find (k ++ r) c = find k c ≫= Path.peek r.
Proof.
  destruct k as [|name path]; [done|]. intros _. simpl. destruct (bound c name) as [v|]; simpl; [|done].
  apply Path.peek_app.
Qed.

(** What a context has at every key after an assignment *)
Record assigned (q : key_type) (v : value_type) (c c' : context.type) : Prop := mk_assigned {
  assigned_single : single c';
  assigned_below r : find (q ++ r) c' = Path.peek r v;
  assigned_above p r : p ≠ [] → q = p ++ r → find p c' = Some (Path.poke r (default Vcontrol (find p c)) v);
  assigned_other p : Path.diverge p q → find p c' = find p c
}.
Lemma bind_assigned q v c :
  single c → q ≠ [] → ∃ c', context.bind_and_discard_ref q v c = (Ret tt, c') ∧ assigned q v c c'.
Proof.
  intros Hc Hq. destruct q as [|name path]; [done|]. eexists. split; [reflexivity|].
  set (old := match context.ref_container c !! name with Some r => r | None => default Vcontrol (context.container c !! name) end).
  set (c' := context.mk _ _).
  assert (old = default Vcontrol (bound c name)) as Hold.
  { unfold old, bound. destruct (context.ref_container c !! name), (context.container c !! name); done. }
  assert (bound c' name = Some (Path.poke path old v)) as Hname.
  { unfold bound, c'; simpl. by rewrite lookup_delete_eq, lookup_insert_eq. }
  assert (∀ n, n ≠ name → bound c' n = bound c n) as Hn.
  { intros n Hn. unfold bound, c'; simpl. by rewrite lookup_delete_ne, lookup_insert_ne by done. }
  split.
  - unfold single, c'; simpl. apply map_disjoint_insert_l. split; [by rewrite lookup_delete_eq|].
    by apply map_disjoint_delete_r.
  - intros r. simpl. rewrite Hname; simpl. apply Path.peek_poke_same.
  - intros [|n p] r Hp; [done|]. intros [= <- ->]. simpl. rewrite Hname; simpl. rewrite Path.peek_poke_above, Hold.
    destruct (bound c name) as [w|]; simpl; [done|]. by destruct p.
  - intros [|n p]; simpl; [done|]. intros Hd. destruct (Path.diverge_cons _ _ _ _ Hd) as [Hne|[-> Hd']]; [by rewrite Hn|].
    rewrite Hname; simpl. rewrite Path.peek_poke_other, Hold by done.
    destruct (bound c name) as [w|]; simpl; [done|]. destruct p; [|done]. destruct Hd' as [[] _]. apply prefix_nil.
Qed.

(** ** Keys *)
Lemma begins_with_prefix l r : begins_with l r = true ↔ r `prefix_of` l.
Proof.
  unfold begins_with. rewrite andb_true_iff, bool_decide_eq_true, Nat.leb_le. split.
  - intros [_ Hl]. exists (drop (length r) l). rewrite <- Hl at 1. symmetry. apply take_drop.
  - intros [t ->]. rewrite length_app, take_app_length. split; [lia|done].
Qed.
Lemma begins_with_not_prefix l r : begins_with l r = false ↔ ¬ r `prefix_of` l.
Proof. rewrite <- begins_with_prefix. by destruct (begins_with l r). Qed.

Lemma elem_of_parents p k : p ∈ parents k ↔ p ≠ [] ∧ p `prefix_of` k.
Proof.
  unfold parents. rewrite <- (reverse_involutive k) at 2. generalize (reverse k). clear k. intros r.
  induction r as [|x r IH]; simpl; [rewrite elem_of_nil|rewrite elem_of_cons, IH, reverse_cons]; split.
  - done.
  - intros [? ->%prefix_nil_inv]. done.
  - intros [->|[? ?]]; [|split; [done|by apply prefix_app_r]]. split; [by destruct (reverse r)|done].
  - intros [? [t Ht]]. destruct t as [|y t _] using rev_ind; [rewrite app_nil_r in Ht; by left|].
    rewrite app_assoc in Ht. apply app_inj_tail in Ht as [-> _]. right. split; [done|]. by exists t.
Qed.

Lemma key_cases (p q : key_type) : (∃ r, p = q ++ r) ∨ (∃ r, q = p ++ r) ∨ Path.diverge p q.
Proof.
  destruct (decide (q `prefix_of` p)) as [?|Hqp]; [by left|]. destruct (decide (p `prefix_of` q)) as [?|Hpq]; [by right; left|].
  right; right. done.
Qed.

(** ** Which expressions

    An expression is [straight] if it assigns the value of an expression without
    assignments to one or more names, or has no assignments; it is [unconditional] if no
    assignment is in the right operand of a boolean operator that may skip it. *)
Fixpoint pure (nd : node.type) : bool :=
  match nd with
  | node.value _ | node.ref _ => true
  | node.unary _ c => pure c
  | node.binary t l r => negb (token.is_define t) && pure l && pure r
  | node.ternary _ a b c => pure a && pure b && pure c
  end.
Fixpoint straight (nd : node.type) : bool :=
  match nd with
  | node.binary t l r => if token.is_define t then node.is_ref l && straight r else pure l && pure r
  | _ => pure nd
  end.
Fixpoint unconditional (nd : node.type) : bool :=
  match nd with
  | node.value _ | node.ref _ => true
  | node.unary _ c => unconditional c
  | node.binary t l r =>
      if token.is_define t then node.is_ref l && unconditional r
      else unconditional l && (if token.is_or_boolean t || token.is_and_boolean t then pure r else unconditional r)
  | node.ternary _ a b c => unconditional a && unconditional b && unconditional c
  end.
Lemma pure_unconditional nd : pure nd = true → unconditional nd = true.
Proof.
  induction nd as [| | |t l IHl r IHr|]; simpl; intros Hp; rewrite ?andb_true_iff in *; [done|done|auto| |naive_solver].
  destruct Hp as [[Ht Hl] Hr]. apply negb_true_iff in Ht. rewrite Ht. rewrite IHl by done. simpl. destruct (_ || _); auto.
Qed.
Lemma straight_unconditional nd : straight nd = true → unconditional nd = true.
Proof.
  induction nd as [| | |t l _ r IHr|]; simpl; intros Hs; [done|done|by apply (pure_unconditional (node.unary t nd))| |].
  - destruct (token.is_define t) eqn:Ht; [rewrite andb_true_iff in *; naive_solver|].
    assert (unconditional (node.binary t l r) = true) as Hu; [apply pure_unconditional; simpl; by rewrite Ht|].
    simpl in Hu. by rewrite Ht in Hu.
  - by apply (pure_unconditional (node.ternary t nd1 nd2 nd3)).
Qed.

Lemma straight_all nds : forallb straight nds = true → forallb unconditional nds = true.
Proof. rewrite !forallb_forall. intros Hs nd Hnd. by apply straight_unconditional, Hs. Qed.

(** every assignment in the expression *)
Fixpoint assignments (P : key_type → node.type → bool) (nd : node.type) : bool :=
  match nd with
  | node.value _ | node.ref _ => true
  | node.unary _ c => assignments P c
  | node.binary t l r =>
      match l with node.ref k => if token.is_define t then P k r else true | _ => true end &&
      (assignments P l && assignments P r)
  | node.ternary _ a b c => assignments P a && (assignments P b && assignments P c)
  end.

(** ** A propagation is sound

    when a key and what it becomes have the same value in the contexts that agree with
    the collected assignments ([valid]), and an assignment keeps that agreement.  [other]
    relates exceptions that may be exchanged, and [admits] describes the assignments of
    the result. *)
Section sound.
Context `{Float.Libm}.
Context (other : exn → exn → Prop).
Definition similar {X} (x y : outcome exn X * context.type) : Prop :=
  x.2 = y.2 ∧
  match x.1, y.1 with
  | Ret a, Ret b => a = b
  | Throw e, Throw e' => e = e' ∨ other e e'
  | _, _ => False
  end.

Context {S : Type} (valid : S → context.type → Prop).
Definition keeps {X} (s : S) (m' m : M context.type exn X) (c : context.type) : Prop :=
  similar (m' c) (m c) ∧ ∀ x c', m c = (Ret x, c') → single c' ∧ valid s c'.
Lemma leaves_needed_bind {X Y} s1 s2 (m' m : M context.type exn X) (k' k : X → M context.type exn Y) c :
  keeps s1 m' m c → (∀ x c', m c = (Ret x, c') → single c' → valid s1 c' → keeps s2 (k' x) (k x) c') →
  keeps s2 (m' ≫= k') (m ≫= k) c.
Proof.
  intros [Hs Hv] Hk. unfold keeps, similar, mbind, M_bind in *.
  destruct (m' c) as [o' c1'], (m c) as [o c1]. simpl in Hs. destruct Hs as [-> Hs].
  destruct o' as [x'|e'], o as [x|e]; simpl in *; [subst x'|done|done|split; [done|intros; discriminate]].
  destruct (Hv x c1 eq_refl). by apply Hk.
Qed.
Lemma leaves_needed_lift {X} s (o : outcome exn X) c : single c → valid s c → keeps s (lift o) (lift o) c.
Proof. intros Hc Hv. split; [split; [done|destruct o; simpl; auto]|]. by intros x c' [= _ <-]. Qed.
Lemma leaves_needed_ret {X} s (x : X) c : single c → valid s c → keeps s (mret x) (mret x) c.
Proof. apply (leaves_needed_lift s (Ret x)). Qed.
Lemma leaves_needed_throw {X} s e c : keeps (X := X) s (throw e) (throw e) c.
Proof. split; [split; [done|by left]|intros; discriminate]. Qed.

Context (visit_key : key_type → S → node.type) (assign : key_type → node.type → S → S).
Context (admits : key_type → node.type → bool).
Context (visit_pure : ∀ k s, pure (visit_key k s) = true).
Context (visit_sound : ∀ k s c, single c → valid s c → keeps s (eval.eval (visit_key k s)) (eval.read k) c).
Context (assign_sound : ∀ lhs r s c0 c v c', admits lhs r = true → single c → valid s c → eval.eval r c0 = (Ret v, c) →
           lhs ≠ [] → assigned lhs v c c' → valid (assign lhs r s) c').
Abbreviation propagation := (propagation visit_key assign).

Lemma propagation_pure nd s :
  pure nd = true → ∃ nd', propagation nd s = (Ret nd', s) ∧ pure nd' = true.
Proof.
  revert s. induction nd as [v|k|t nd IH|t l IHl r IHr|t a IHa b IHb d IHd]; intros s Hp; simpl in *.
  - by exists (node.value v).
  - eauto.
  - unfold mbind, M_bind. destruct (IH s Hp) as (nd' & -> & ?). by exists (node.unary t nd').
  - rewrite !andb_true_iff, negb_true_iff in Hp. destruct Hp as [[Ht Hl] Hr]. rewrite Ht.
    destruct (IHl s Hl) as (l' & Hl1 & ?), (IHr s Hr) as (r' & Hr1 & ?). unfold mbind, M_bind.
    exists (node.binary t l' r'). simpl. rewrite !andb_true_iff, negb_true_iff. case_decide; rewrite ?Hl1, ?Hr1, ?Hl1; done.
  - rewrite !andb_true_iff in Hp. destruct Hp as [[Ha Hb] Hd]. unfold mbind, M_bind.
    destruct (IHa s Ha) as (a' & -> & ?), (IHb s Hb) as (b' & -> & ?), (IHd s Hd) as (d' & -> & ?).
    exists (node.ternary t a' b' d'). simpl. by rewrite !andb_true_iff.
Qed.
Lemma keeps_result {X} s (m' m : M context.type exn X) c x c' : keeps s m' m c → m c = (Ret x, c') → m' c = (Ret x, c').
Proof.
  intros [Hs _] Hm. unfold similar in Hs. rewrite Hm in Hs. destruct (m' c) as [[y|e] c1]; simpl in *; [|by destruct Hs].
  by destruct Hs as [-> ->].
Qed.

Definition propagated (nd : node.type) (s : S) (nd' : node.type) (s' : S) : Prop :=
  assignments admits nd' = true → ∀ c, single c → valid s c → keeps s' (eval.eval nd') (eval.eval nd) c.
Lemma propagated_define t k r s r' s' :
  token.is_define t = true → propagated r s r' s' →
  propagated (node.binary t (node.ref k) r) s (node.binary t (node.ref k) r') (assign k r' s').
Proof.
  intros Ht Hr Has c Hc Hv. simpl in *. rewrite Ht, !andb_true_iff in *. destruct Has as (Ha & Hr'). apply (leaves_needed_bind s'); [by apply Hr|]. intros v c1 Hev Hc1 Hv1.
  destruct (decide (k = [])) as [->|Hk]; [apply (leaves_needed_bind s'); [apply leaves_needed_throw|done]|].
  destruct (bind_assigned k v c1 Hc1 Hk) as (c2 & Hb & Hc2).
  unfold keeps, similar, mbind, M_bind. rewrite Hb. simpl. split; [done|]. intros v' c' [= <- <-].
  split; [apply Hc2|]. apply (assign_sound k r' s' c c1 v c2 Ha Hc1 Hv1); [|done|done].
  by apply (keeps_result s' _ _ _ _ _ (Hr Hr' c Hc Hv)).
Qed.
Lemma propagated_binary t l r s l' s1 r' s2 :
  token.is_define t = false → associativity.associativity t = associativity.left →
  propagated l s l' s1 → propagated r s1 r' s2 → (token.is_or_boolean t || token.is_and_boolean t = true → s2 = s1) →
  propagated (node.binary t l r) s (node.binary t l' r') s2.
Proof.
  intros Ht Hl' Hl Hr Hs Has c Hc Hv. simpl in *. rewrite !andb_true_iff in Has. destruct Has as (_ & Hla & Hra). rewrite Ht. rewrite !(decide_True (P := _ = associativity.left)) by done.
  assert (∀ v0 c1, single c1 → valid s1 c1 →
    keeps s2 (c1 ← eval.eval r'; lift (Function.binary t v0 c1)) (c1 ← eval.eval r; lift (Function.binary t v0 c1)) c1) as Hrest.
  { intros v0 c1 Hc1 Hv1. apply (leaves_needed_bind s2); [by apply Hr|]. intros. by apply leaves_needed_lift. }
  destruct (token.is_or_boolean t); [|destruct (token.is_and_boolean t)];
    (apply (leaves_needed_bind s1); [by apply Hl|intros v0 c1 _ Hc1 Hv1]).
  - rewrite (Hs eq_refl) in *. apply (leaves_needed_bind s1); [by apply leaves_needed_lift|]. intros [] c2 _ Hc2 Hv2; [by apply leaves_needed_ret|by apply Hrest].
  - rewrite (Hs eq_refl) in *. apply (leaves_needed_bind s1); [by apply leaves_needed_lift|]. intros [] c2 _ Hc2 Hv2; [by apply Hrest|by apply leaves_needed_ret].
  - by apply Hrest.
Qed.
Lemma propagated_right t l r s l' s1 r' s2 :
  token.is_define t = false → associativity.associativity t ≠ associativity.left →
  propagated r s r' s1 → propagated l s1 l' s2 → propagated (node.binary t l r) s (node.binary t l' r') s2.
Proof.
  intros Ht Hl' Hr Hl Has c Hc Hv. simpl in *. rewrite !andb_true_iff in Has. destruct Has as (_ & Hla & Hra). rewrite Ht.
  destruct (token.is_or_boolean t) eqn:Ho; [by destruct t|]. destruct (token.is_and_boolean t) eqn:Hand; [by destruct t|].
  rewrite !(decide_False (P := _ = associativity.left)) by done.
  apply (leaves_needed_bind s1); [by apply Hr|]. intros v1 c1 _ Hc1 Hv1. apply (leaves_needed_bind s2); [by apply Hl|]. intros. by apply leaves_needed_lift.
Qed.
Lemma propagated_ternary t a b d s a' s1 b' s2 d' s3 :
  propagated a s a' s1 → propagated b s1 b' s2 → propagated d s2 d' s3 →
  propagated (node.ternary t a b d) s (node.ternary t a' b' d') s3.
Proof.
  intros Ha Hb Hd Has c Hc Hv. simpl in *. rewrite !andb_true_iff in Has. destruct Has as (? & ? & ?).
  destruct t; try apply leaves_needed_throw.
  apply (leaves_needed_bind s1); [by apply Ha|]. intros v1 c1 _ Hc1 Hv1. apply (leaves_needed_bind s2); [by apply Hb|].
  intros v2 c2 _ Hc2 Hv2. apply (leaves_needed_bind s3); [by apply Hd|]. intros v3 c3 _ Hc3 Hv3.
  destruct v1; first [by apply leaves_needed_ret|apply leaves_needed_throw].
Qed.

Lemma propagation_sound nd s :
  unconditional nd = true → ∃ nd' s', propagation nd s = (Ret nd', s') ∧ propagated nd s nd' s'.
Proof.
  revert s. induction nd as [v|k|t nd IH|t l IHl r IHr|t a IHa b IHb d IHd]; intros s Hu; simpl in *; unfold mbind, M_bind.
  - exists (node.value v), s. split; [done|]. intros _ c Hc Hv. by apply leaves_needed_ret.
  - exists (visit_key k s), s. split; [done|]. intros _ c Hc Hv. by apply visit_sound.
  - destruct (IH s Hu) as (nd' & s' & -> & Hnd). exists (node.unary t nd'), s'. split; [done|].
    intros Ha c Hc Hv. simpl. apply (leaves_needed_bind s'); [by apply Hnd|]. intros. by apply leaves_needed_lift.
  - destruct (token.is_define t) eqn:Ht; apply andb_true_iff in Hu as [Hl Hr].
    { destruct l as [|k| | |]; try discriminate Hl. destruct (IHr s Hr) as (r' & s' & -> & Hnd).
      exists (node.binary t (node.ref k) r'), (assign k r' s'). split; [done|]. by apply propagated_define. }
    assert (unconditional r = true) as Hr' by (destruct (_ || _); auto using pure_unconditional).
    case_decide as Hd.
    + destruct (IHl s Hl) as (l' & s1 & -> & Hl1). destruct (IHr s1 Hr') as (r' & s2 & Hr2 & Hr3). rewrite Hr2.
      exists (node.binary t l' r'), s2. split; [done|]. apply (propagated_binary t l r s l' s1 r' s2); try done.
      intros Hb. rewrite Hb in Hr. destruct (propagation_pure r s1 Hr) as (r'' & Hr'' & _). congruence.
    + destruct (IHr s Hr') as (r' & s1 & -> & Hr1). destruct (IHl s1 Hl) as (l' & s2 & -> & Hl2).
      exists (node.binary t l' r'), s2. split; [done|]. by apply (propagated_right t l r s l' s1 r' s2).
  - rewrite !andb_true_iff in Hu. destruct Hu as [[Ha Hb] Hd]. destruct (IHa s Ha) as (a' & s1 & -> & ?).
    destruct (IHb s1 Hb) as (b' & s2 & -> & ?), (IHd s2 Hd) as (d' & s3 & -> & ?).
    exists (node.ternary t a' b' d'), s3. split; [done|]. by apply (propagated_ternary t a b d s a' s1 b' s2 d' s3).
Qed.

Lemma propagation_straight nd s nd' s' :
  straight nd = true → propagation nd s = (Ret nd', s') → straight nd' = true.
Proof.
  assert (∀ nd, pure nd = true → straight nd = true) as Hps.
  { intros [| | |t l r|] Hp; [done..| |done]. simpl in *. rewrite !andb_true_iff, negb_true_iff in *. destruct Hp as [[-> ->] ->]. done. }
  assert (∀ nd, pure nd = true → propagation nd s = (Ret nd', s') → straight nd' = true) as Hp.
  { intros nd1 Hp Hrun. apply Hps. destruct (propagation_pure nd1 s Hp) as (nd2 & Hrun2 & ?). congruence. }
  revert s' nd' Hp. induction nd as [v|k|t nd _|t l _ r IH|t a _ b _ d _]; intros s' nd' Hp Hs Hrun; try by eapply Hp.
  simpl in Hs. destruct (token.is_define t) eqn:Ht.
  - simpl in Hrun. rewrite Ht in Hrun. apply andb_true_iff in Hs as [Hl Hr]. destruct l as [|k| | |]; try done.
    unfold mbind, M_bind in Hrun. destruct (propagation r s) as [[r'|e] s1] eqn:Hr1; [|done].
    simpl in Hrun. injection Hrun as <- <-. simpl. rewrite Ht. simpl.
    apply (IH s1); [|done|done]. intros nd1 Hp1 Hrun1. apply Hps.
    destruct (propagation_pure nd1 s Hp1) as (nd2 & Hrun2 & ?). congruence.
  - apply (Hp (node.binary t l r)); [simpl; by rewrite Ht|done].
Qed.

(** ** Lists of expressions *)
Lemma propagate_all_sound nds s :
  forallb unconditional nds = true →
  ∃ nds' s', propagate_all visit_key assign nds s = (Ret nds', s') ∧
    (forallb straight nds = true → forallb straight nds' = true) ∧
    (forallb (assignments admits) nds' = true → ∀ c v, single c → valid s c →
       keeps s' (eval.eval_all_from v nds') (eval.eval_all_from v nds) c).
Proof.
  revert s. induction nds as [|nd nds IH]; intros s; simpl.
  { intros _. exists [], s. split; [done|]. split; [done|]. intros. by apply leaves_needed_ret. }
  intros [Hu Hus]%andb_true_iff. unfold mbind, M_bind. destruct (propagation_sound nd s Hu) as (nd' & s1 & Hnd & Hp). rewrite Hnd.
  destruct (IH s1 Hus) as (nds' & s2 & -> & Hst & Hs). exists (nd' :: nds'), s2. split; [done|]. simpl. rewrite !andb_true_iff. split.
  - intros [H1 H2]. split; [by eapply propagation_straight|auto].
  - intros [H1 H2] c v Hc Hv. apply (leaves_needed_bind s1); [by apply Hp|]. intros. by apply Hs.
Qed.
End sound.

(** Removing entries of a map one kind after the other *)
Lemma foldl_shrinks {A} (f : gmap key_type A → key_type → gmap key_type A) (P : key_type → key_type → A → Prop) ps m k v :
  (∀ m p k v, f m p !! k = Some v → m !! k = Some v ∧ P p k v) →
  foldl f m ps !! k = Some v → m !! k = Some v ∧ Forall (λ p, P p k v) ps.
Proof.
  intros Hf. revert m. induction ps as [|p ps IH]; intros m Hm; simpl in *; [done|].
  apply IH in Hm as [[Hm Hp]%Hf Hps]. auto.
Qed.

(** ** Constants *)
Section constants.
Context `{Float.Libm}.
Definition stored (map : constants) (c : context.type) : Prop := ∀ k v, map !! k = Some v → find k c = Some v.

Lemma lookup_remove_left var map k v :
  remove_parents_and_children_left var map !! k = Some v → map !! k = Some v ∧ (k ∉ parents var) ∧ ¬ (var `prefix_of` k).
Proof.
  intros [Hk Hp%begins_with_not_prefix]%map_lookup_filter_Some.
  apply (foldl_shrinks _ (λ p k _, p ≠ k)) in Hk as [Hk Hps]; [|by intros ? ? ? ? [? ?]%lookup_delete_Some].
  split; [done|]. split; [|done]. intros Hin. rewrite Forall_forall in Hps. by apply (Hps k).
Qed.
Lemma constant_assign_stored lhs r map c0 c v c' :
  stored map c → eval.eval r c0 = (Ret v, c) → assigned lhs v c c' → stored (constant_assign lhs r map) c'.
Proof.
  intros Hm Hr Ha.
  assert (stored (remove_parents_and_children_left lhs map) c') as Hrem.
  { intros k w (Hk & Hp & Hpre)%lookup_remove_left. rewrite elem_of_parents in Hp. specialize (Hm k w Hk).
    rewrite (assigned_other _ _ _ _ Ha); [done|]. split; [|done]. intros ?. apply Hp. split; [by intros ->|done]. }
  unfold constant_assign. destruct r as [w| | | |]; try done.
  intros k w' [[<- <-]|[_ Hk]]%lookup_insert_Some; [|by apply Hrem].
  injection Hr as <- <-. pose proof (assigned_below _ _ _ _ Ha []) as Hb. by rewrite app_nil_r in Hb.
Qed.
Lemma constant_key_pure k map : pure (constant_key k map) = true.
Proof. unfold constant_key. by destruct (map !! k). Qed.
Lemma constant_key_stored k map c :
  single c → stored map c → keeps (λ _ _, False) stored map (eval.eval (constant_key k map)) (eval.read k) c.
Proof.
  intros Hc Hm. unfold constant_key. destruct (map !! k) as [v|] eqn:Hk; [|by apply leaves_needed_lift].
  unfold keeps, similar, eval.read. rewrite value_find by done.
  rewrite (Hm k v Hk). simpl. split; [done|]. by intros x c' [= _ <-].
Qed.
Lemma assignments_all nds : forallb (assignments (λ _ _, true)) nds = true.
Proof.
  apply forallb_forall. intros nd _. induction nd as [| | |t l IHl r IHr|]; simpl; rewrite ?andb_true_iff; auto.
  destruct l; auto. by destruct (token.is_define t).
Qed.

(** Constant propagation does not change what evaluation does: for expressions without
    conditional assignments it succeeds, and in every context its result evaluates like the
    original, to the same value or exception with the same bindings. *)
Lemma constant_propagation_keeps (nds : list node.type) :
  forallb unconditional nds = true →
  ∃ nds', constant_propagation nds = Ret nds' ∧ (forallb straight nds = true → forallb straight nds' = true) ∧
    ∀ c, single c → eval.eval_all nds' c = eval.eval_all nds c.
Proof.
  intros Hu.
  destruct (propagate_all_sound (λ _ _, False) stored constant_key constant_assign (λ _ _, true)
              constant_key_pure constant_key_stored (λ lhs r map c0 c v c' _ _ Hm Hr _, constant_assign_stored lhs r map c0 c v c' Hm Hr)
              nds ∅ Hu) as (nds' & map & Hrun & Hs & Hk).
  exists nds'. unfold constant_propagation. rewrite Hrun. split; [done|]. split; [done|]. intros c Hc.
  destruct (Hk (assignments_all nds') c Vcontrol Hc) as [[Hc' Ho] _]; [done|]. unfold eval.eval_all.
  destruct (eval.eval_all_from Vcontrol nds' c) as [[v'|e'] c1'], (eval.eval_all_from Vcontrol nds c) as [[v|e] c1]; simpl in *;
    subst; try done. by destruct Ho as [->|[]].
Qed.
End constants.

(** ** Copies *)
Definition copied (map : copies) (c : context.type) : Prop :=
  ∀ k k', map !! k = Some k' → ∃ v, find k c = Some v ∧ find k' c = Some v.
(** Neither part of the copied value is assigned by the copy itself. *)
Definition apart (lhs : key_type) (rhs : node.type) : bool :=
  match rhs with
  | node.ref k => bool_decide (k = lhs) || negb (begins_with k lhs) && negb (begins_with lhs k)
  | _ => true
  end.
Lemma apart_ref lhs k : apart lhs (node.ref k) = true → k = lhs ∨ Path.diverge k lhs.
Proof.
  unfold apart. rewrite orb_true_iff, andb_true_iff, !negb_true_iff, bool_decide_eq_true, !begins_with_not_prefix.
  intros [?|[? ?]]; [by left|by right].
Qed.
Definition other_missing (e e' : exn) : Prop := ∃ x y, e = missing_binding x ∧ e' = missing_binding y.

Section copies.
Context `{Float.Libm}.
Lemma lookup_remove_both var map k k' :
  remove_parents_and_children_both var map !! k = Some k' →
  map !! k = Some k' ∧ ∀ x, x = k ∨ x = k' → (x ∉ parents var) ∧ ¬ (var `prefix_of` x).
Proof.
  intros [Hk [Hp Hp']%orb_false_iff]%map_lookup_filter_Some. simpl in *. rewrite begins_with_not_prefix in Hp, Hp'.
  apply (foldl_shrinks _ (λ p k k', ¬ (k = p ∨ k' = p))) in Hk as [Hk Hps]; [|by intros ? ? ? ? [? ?]%map_lookup_filter_Some].
  split; [done|]. rewrite Forall_forall in Hps. intros x [->| ->]; (split; [|done]); intros Hin; apply (Hps _ Hin); auto.
Qed.
Lemma copy_assign_copied lhs r map c0 c v c' :
  apart lhs r = true → single c → copied map c → eval.eval r c0 = (Ret v, c) → assigned lhs v c c' → copied (copy_assign lhs r map) c'.
Proof.
  intros Hr Hc Hm Hev Ha.
  assert (copied (remove_parents_and_children_both lhs map) c') as Hrem.
  { intros k k' [Hk Hx]%lookup_remove_both. destruct (Hm k k' Hk) as (w & Hw & Hw'). exists w.
    assert (∀ x, x = k ∨ x = k' → find x c = Some w → find x c' = Some w) as Hkeep.
    { intros x Hx' Hf. destruct (Hx x Hx') as [Hp Hpre]. rewrite elem_of_parents in Hp.
      rewrite (assigned_other _ _ _ _ Ha); [done|]. split; [|done]. intros ?. apply Hp. split; [by intros ->|done]. }
    split; apply Hkeep; auto. }
  unfold copy_assign. destruct r as [|k| | |]; try done.
  intros k1 k2 [[<- <-]|[_ Hk]]%lookup_insert_Some; [|by apply Hrem].
  pose proof (assigned_below _ _ _ _ Ha []) as Hb. rewrite app_nil_r in Hb. exists v. split; [done|].
  destruct (apart_ref _ _ Hr) as [->|Hd]; [done|]. rewrite (assigned_other _ _ _ _ Ha) by done.
  simpl in Hev. unfold eval.read in Hev. injection Hev as Hev ->. rewrite value_find in Hev by done. by destruct (find k c); simplify_eq/=.
Qed.
Lemma replacement_copied rev_parent suffix map c k :
  copied map c → replacement rev_parent suffix map = Some k → find k c = find (reverse rev_parent ++ suffix) c ∧ k ≠ [].
Proof.
  intros Hm. revert suffix. induction rev_parent as [|x rest IH]; intros suffix Hk; simpl in Hk; [done|].
  destruct (map !! _) as [k'|] eqn:Hk'.
  - injection Hk as <-. destruct (Hm _ _ Hk') as (v & Hv & Hv'). assert (k' ≠ []) by (by intros ->).
    rewrite !find_app, Hv, Hv' by (done || by intros Hn; rewrite Hn in Hv). split; [done|]. by destruct k'.
  - apply IH in Hk as [-> ?]. by rewrite reverse_cons, <- app_assoc.
Qed.
Lemma copy_key_copied k map c :
  single c → copied map c → keeps other_missing copied map (eval.eval (copy_key k map)) (eval.read k) c.
Proof.
  intros Hc Hm. unfold copy_key. simpl. destruct (replacement (reverse k) [] map) as [k'|] eqn:Hk; simpl; [|by apply leaves_needed_lift].
  destruct (replacement_copied _ _ _ _ _ Hm Hk) as [Hf Hne]. rewrite reverse_involutive, app_nil_r in Hf.
  unfold keeps, similar, eval.read. simpl. rewrite !value_find, Hf by done. split; [|by intros x c' [= _ <-]].
  split; [done|]. destruct (find k c); simpl; [done|]. right.
  destruct k as [|x k]; [done|]. destruct k'; [done|]. by eexists _, _.
Qed.

(** Copy propagation keeps what evaluation does, up to the name in the exception for a
    missing binding, when no assignment of its result copies a part of its target into
    the target or the target into one of its parts. *)
Lemma copy_propagation_keeps (nds : list node.type) :
  forallb unconditional nds = true →
  ∃ nds', copy_propagation nds = Ret nds' ∧ (forallb straight nds = true → forallb straight nds' = true) ∧
    (forallb (assignments apart) nds' = true →
     ∀ c, single c → similar other_missing (eval.eval_all nds' c) (eval.eval_all nds c)).
Proof.
  intros Hu.
  destruct (propagate_all_sound other_missing copied copy_key copy_assign apart
              (λ _ _, eq_refl) copy_key_copied (λ lhs r map c0 c v c' Hr Hc Hm Hev _, copy_assign_copied lhs r map c0 c v c' Hr Hc Hm Hev)
              nds ∅ Hu) as (nds' & map & Hrun & Hs & Hk).
  exists nds'. unfold copy_propagation. rewrite Hrun. split; [done|]. split; [done|]. intros Ha c Hc. by apply (Hk Ha c Vcontrol Hc).
Qed.
End copies.

(** ** Dead assignments *)
Definition agree (names : key_set_type) (c1 c2 : context.type) : Prop := ∀ k, k ∈ names → find k c1 = find k c2.

Lemma not_referenced k names :
  variable_or_member_referenced k names = false → ∀ x, x ∈ names → x ≠ [] → Path.diverge x k.
Proof.
  unfold variable_or_member_referenced. rewrite !orb_false_iff. intros [[_ Hp] Hc] x Hx Hne.
  assert (∀ (p : key_type → bool) l y, existsb p l = false → y ∈ l → p y = false) as Hex.
  { intros p l y Hl Hy. destruct (p y) eqn:Hpy; [|done]. rewrite <- Hl. symmetry. apply existsb_exists. exists y.
    by rewrite <- list_elem_of_In. }
  split; intros Hpre.
  - apply (Hex _ _ x) in Hp; [by apply bool_decide_eq_false in Hp|]. by apply elem_of_parents.
  - apply (Hex _ _ x) in Hc; [by apply begins_with_not_prefix in Hc|]. by apply elem_of_elements.
Qed.
Lemma elem_of_erase_assigned x k names : x ∈ erase_assigned k names ↔ x ∈ names ∧ ¬ (k `prefix_of` x).
Proof.
  unfold erase_assigned. rewrite elem_of_filter, elem_of_difference, elem_of_singleton, begins_with_not_prefix. split; [tauto|].
  intros [? Hx]. split_and!; [done..|]. intros ->. by apply Hx.
Qed.

(** The assignment makes contexts agree that agree on the names that it does not provide. *)
Lemma agree_assigned k v names c1 c2 c1' c2' :
  agree (erase_assigned k names) c1 c2 → assigned k v c1 c1' → assigned k v c2 c2' → agree names c1' c2'.
Proof.
  intros Hag H1 H2 x Hx. destruct (decide (x = [])) as [->|Hne]; [done|].
  assert (¬ (k `prefix_of` x) → find x c1 = find x c2) as Hx' by (intros; by apply Hag, elem_of_erase_assigned).
  destruct (decide (k `prefix_of` x)) as [[r ->]|Hkx]; [by rewrite (assigned_below _ _ _ _ H1), (assigned_below _ _ _ _ H2)|].
  destruct (key_cases x k) as [[r ->]|[[r ->]|Hd]]; [by destruct Hkx; exists r| |].
  - by rewrite (assigned_above _ _ _ _ H1 x r), (assigned_above _ _ _ _ H2 x r), Hx'.
  - by rewrite (assigned_other _ _ _ _ H1), (assigned_other _ _ _ _ H2), Hx'.
Qed.
Lemma agree_dropped k v names c1 c2 c1' :
  variable_or_member_referenced k names = false →
  agree (erase_assigned k names) c1 c2 → assigned k v c1 c1' → agree names c1' c2.
Proof.
  intros Hn Hag H1 x Hx. destruct (decide (x = [])) as [->|Hne]; [done|].
  pose proof (not_referenced _ _ Hn x Hx Hne) as Hd. rewrite (assigned_other _ _ _ _ H1) by done.
  apply Hag, elem_of_erase_assigned. split; [done|]. apply Hd.
Qed.

Section elimination.
Context `{Float.Libm}.
(** evaluation without assignments, which reads [names] only *)
Definition reads {X} (names : key_set_type) (m : M context.type exn X) : Prop :=
  ∀ c1 c2, single c1 → single c2 → agree names c1 c2 → ∃ o, m c1 = (o, c1) ∧ m c2 = (o, c2).
Lemma reads_mono {X} (names names' : key_set_type) (m : M context.type exn X) : names ⊆ names' → reads names m → reads names' m.
Proof. intros Hsub Hm c1 c2 ? ? Hag. apply Hm; [done..|]. intros k Hk. by apply Hag, Hsub. Qed.
Lemma reads_bind {X Y} names (m : M context.type exn X) (k : X → M context.type exn Y) :
  reads names m → (∀ x, reads names (k x)) → reads names (m ≫= k).
Proof.
  intros Hm Hk c1 c2 Hc1 Hc2 Hag. destruct (Hm c1 c2 Hc1 Hc2 Hag) as (o & Ho1 & Ho2). unfold mbind, M_bind. rewrite Ho1, Ho2.
  destruct o as [x|e]; [by apply Hk|]. by exists (Throw e).
Qed.
Lemma reads_lift {X} names (o : outcome exn X) : reads names (lift o).
Proof. intros c1 c2 _ _ _. by exists o. Qed.
Lemma reads_read names k : k ∈ names → reads names (eval.read k).
Proof.
  intros Hk c1 c2 H1 H2 Hag. exists (context.value k c1). split; [done|]. unfold eval.read.
  by rewrite !value_find, (Hag k Hk).
Qed.
Lemma reads_binary names t l r :
  token.is_define t = false → reads names (eval.eval l) → reads names (eval.eval r) → reads names (eval.eval (node.binary t l r)).
Proof.
  intros Ht Hl Hr. simpl. rewrite Ht.
  assert (∀ c0, reads names (c1 ← eval.eval r; lift (Function.binary t c0 c1))) as Hrest
    by (intros; apply reads_bind; [done|intros; apply reads_lift]).
  destruct (token.is_or_boolean t); [|destruct (token.is_and_boolean t); [|case_decide]]; (apply reads_bind; [done|intros v]).
  - apply reads_bind; [apply reads_lift|intros [|]]; [apply (reads_lift _ (Ret v))|apply Hrest].
  - apply reads_bind; [apply reads_lift|intros [|]]; [apply Hrest|apply (reads_lift _ (Ret v))].
  - apply Hrest.
  - apply reads_bind; [done|intros; apply reads_lift].
Qed.

Lemma elimination_pure nd names h :
  pure nd = true →
  ∃ names', elimination nd (names, h) = (Ret nd, (names', h)) ∧ names ⊆ names' ∧ reads names' (eval.eval nd).
Proof.
  revert names. induction nd as [v|k|t nd IH|t l IHl r IHr|t a IHa b IHb d IHd]; intros names Hp; simpl in Hp.
  - exists names. split_and!; [done..|]. by apply (reads_lift _ (Ret v)).
  - exists ({[k]} ∪ names). split_and!; [done|set_solver|]. apply reads_read. set_solver.
  - destruct (IH names Hp) as (n1 & Hrun & Hn1 & Hr). exists n1. split_and!; [simpl; unfold mbind, M_bind; by rewrite Hrun|done|].
    apply reads_bind; [done|]. intros. apply reads_lift.
  - rewrite !andb_true_iff, negb_true_iff in Hp. destruct Hp as [[Ht Hl] Hr].
    destruct (decide (associativity.associativity t = associativity.left)) as [Hd|Hd].
    + destruct (IHl names Hl) as (n1 & Hrun1 & Hn1 & Hl1), (IHr n1 Hr) as (n2 & Hrun2 & Hn2 & Hr2).
      exists n2. split_and!; [simpl; rewrite Ht, decide_True by done; unfold mbind, M_bind; by rewrite Hrun1, Hrun2|set_solver|].
      apply reads_binary; [done|by apply (reads_mono n1)|done].
    + destruct (IHr names Hr) as (n1 & Hrun1 & Hn1 & Hr1), (IHl n1 Hl) as (n2 & Hrun2 & Hn2 & Hl2).
      exists n2. split_and!; [simpl; rewrite Ht, decide_False by done; unfold mbind, M_bind; by rewrite Hrun1, Hrun2|set_solver|].
      apply reads_binary; [done|done|by apply (reads_mono n1)].
  - rewrite !andb_true_iff in Hp. destruct Hp as [[Ha Hb] Hd].
    destruct (IHa names Ha) as (n1 & Hr1 & Hn1 & Ha1), (IHb n1 Hb) as (n2 & Hr2 & Hn2 & Hb2), (IHd n2 Hd) as (n3 & Hr3 & Hn3 & Hd3).
    exists n3. split_and!; [simpl; unfold mbind, M_bind; by rewrite Hr1, Hr2, Hr3|set_solver|].
    simpl. destruct t; try apply (reads_lift _ (Throw _)).
    apply reads_bind; [apply (reads_mono n1); [set_solver|done]|intros v0]. apply reads_bind; [by apply (reads_mono n2)|intros v1].
    apply reads_bind; [done|intros v2]. destruct v0; first [apply (reads_lift _ (Ret _))|apply (reads_lift _ (Throw _))].
Qed.

(** From contexts that agree on [names'], what is left of the expression gives the same value,
    and contexts that agree on [names]; without an assignment it changes nothing. *)
Definition covers (nd nd' : node.type) (names names' : key_set_type) (h : bool) : Prop :=
  ∀ c1 c2 v c1', single c1 → single c2 → agree names' c1 c2 → eval.eval nd c1 = (Ret v, c1') →
    ∃ c2', eval.eval nd' c2 = (Ret v, c2') ∧ single c1' ∧ single c2' ∧ agree names c1' c2' ∧ (h = false → c2' = c2).
Lemma covers_pure nd names names' h :
  names ⊆ names' → reads names' (eval.eval nd) → covers nd nd names names' h.
Proof.
  intros Hsub Hr c1 c2 v c1' Hc1 Hc2 Hag Hev. destruct (Hr c1 c2 Hc1 Hc2 Hag) as (o & Ho1 & Ho2).
  rewrite Ho1 in Hev. injection Hev as -> <-. exists c2. split_and!; [done..| |done]. intros k Hk. by apply Hag, Hsub.
Qed.
Lemma bind_single k v c c' : single c → context.bind_and_discard_ref k v c = (Ret tt, c') → assigned k v c c' ∧ k ≠ [].
Proof.
  intros Hc Hb. destruct (decide (k = [])) as [->|Hk]; [done|]. destruct (bind_assigned k v c Hc Hk) as (c2 & Hb2 & Ha).
  split; [congruence|done].
Qed.
Lemma eval_define t k r c v c' :
  token.is_define t = true → eval.eval (node.binary t (node.ref k) r) c = (Ret v, c') ↔
  ∃ c1, eval.eval r c = (Ret v, c1) ∧ context.bind_and_discard_ref k v c1 = (Ret tt, c').
Proof.
  intros Ht. simpl. rewrite Ht. unfold mbind, M_bind. split.
  - destruct (eval.eval r c) as [[v1|e] c1]; [|done]. destruct (context.bind_and_discard_ref k v1 c1) as [[[]|e] c2] eqn:Hb; [|done].
    intros [= -> ->]. eauto.
  - intros (c1 & -> & ->). done.
Qed.
Lemma elimination_straight nd names h :
  straight nd = true →
  ∃ nd' names' h', elimination nd (names, h) = (Ret nd', (names', h')) ∧ covers nd nd' names names' h'.
Proof.
  assert (∀ nd, pure nd = true → ∃ nd' names' h', elimination nd (names, h) = (Ret nd', (names', h')) ∧ covers nd nd' names names' h') as Hpure.
  { intros nd1 Hp. destruct (elimination_pure nd1 names h Hp) as (n1 & Hrun & Hsub & Hr). exists nd1, n1, h.
    split; [done|]. by apply covers_pure. }
  revert names Hpure. induction nd as [| | |t l _ r IH|]; intros names Hpure Hs; try by apply Hpure.
  simpl in Hs. destruct (token.is_define t) eqn:Ht; [|apply Hpure; simpl; by rewrite Ht].
  apply andb_true_iff in Hs as [Hl Hr]. destruct l as [|k| | |]; try done.
  destruct (IH (erase_assigned k names)) as (r' & n1 & h1 & Hrun & Hcov); [|done|].
  { intros nd1 Hp. destruct (elimination_pure nd1 (erase_assigned k names) h Hp) as (n1 & Hrun & Hsub & Hr1). exists nd1, n1, h.
    split; [done|]. by apply covers_pure. }
  destruct (variable_or_member_referenced k names) eqn:Hn.
  - exists (node.binary t (node.ref k) r'), n1, true.
    split; [simpl; rewrite Ht; unfold mbind, M_bind; simpl; by rewrite Hrun, Hn|].
    intros c1 c2 v c1' Hc1 Hc2 Hag (c1m & Hev & Hb)%(eval_define t); [|done].
    destruct (Hcov c1 c2 v c1m) as (c2m & Hev2 & Hs1 & Hs2 & Hag2 & _); [done..|].
    destruct (bind_single _ _ _ _ Hs1 Hb) as [Ha1 Hk]. destruct (bind_assigned k v c2m Hs2 Hk) as (c2' & Hb2 & Ha2).
    exists c2'. split; [rewrite eval_define by done; eauto|]. split_and!; [apply Ha1|apply Ha2| |done].
    by eapply agree_assigned.
  - exists r', n1, h1. split; [simpl; rewrite Ht; unfold mbind, M_bind; simpl; by rewrite Hrun, Hn|].
    intros c1 c2 v c1' Hc1 Hc2 Hag (c1m & Hev & Hb)%(eval_define t); [|done].
    destruct (Hcov c1 c2 v c1m) as (c2m & Hev2 & Hs1 & Hs2 & Hag2 & Hh); [done..|].
    destruct (bind_single _ _ _ _ Hs1 Hb) as [Ha1 _]. exists c2m. split_and!; [done|apply Ha1|done| |done].
    by eapply agree_dropped.
Qed.
Lemma eliminate_straight nds names :
  forallb straight nds = true →
  ∃ nds' names', eliminate nds names = Ret (nds', names') ∧
    ∀ c1 c2 u u' v c1', single c1 → single c2 → agree names' c1 c2 → eval.eval_all_from u nds c1 = (Ret v, c1') →
      ∃ v' c2', eval.eval_all_from u' nds' c2 = (Ret v', c2') ∧ single c1' ∧ single c2' ∧ agree names c1' c2'.
Proof.
  induction nds as [|nd nds IH]; intros Hs.
  { exists [], names. split; [done|]. intros c1 c2 u u' v c1' Hc1 Hc2 Hag [= <- <-]. by exists u', c2. }
  simpl in Hs. apply andb_true_iff in Hs as [Hs1 Hs2]. destruct (IH Hs2) as (nds' & n1 & Hrun1 & Hcov1).
  destruct (elimination_straight nd n1 false Hs1) as (nd' & n2 & h & Hrun2 & Hcov2).
  exists (if h then nd' :: nds' else nds'), n2. split; [simpl; rewrite Hrun1; simpl; by rewrite Hrun2|].
  intros c1 c2 u u' v c1' Hc1 Hc2 Hag. simpl. unfold mbind at 1, M_bind at 1.
  destruct (eval.eval nd c1) as [[v1|e] c1m] eqn:Hev; [|done]. intros Hrest.
  destruct (Hcov2 c1 c2 v1 c1m Hc1 Hc2 Hag Hev) as (c2m & Hev2 & Hsm1 & Hsm2 & Hag1 & Hh).
  destruct h; [simpl; unfold mbind, M_bind; rewrite Hev2|rewrite (Hh eq_refl) in *];
    apply (Hcov1 c1m _ v1 _ v c1' Hsm1 Hsm2 Hag1 Hrest).
Qed.

(** C34: Simplification keeps the needed bindings: when the assignments of an expression are
    straight, constant propagation, copy propagation and dead code elimination succeed; and when
    none of the assignments after the two propagations copies between a name and its own parts,
    then, in every context that has each name either as a reference or as a value ([single]),
    in which the original evaluates, the simplified expression evaluates and gives every needed
    name the value that the original gives it. *)
Theorem simplification_keeps_needed (nds : list node.type) (needed : key_set_type) :
  forallb straight nds = true →
  ∃ propagated nds', constant_propagation nds ≫= copy_propagation = Ret propagated ∧
    simplification_pass nds needed = Ret nds' ∧
    (forallb (assignments apart) propagated = true → ∀ c v c1, single c → eval.eval_all nds c = (Ret v, c1) →
      ∃ v' c2, eval.eval_all nds' c = (Ret v', c2) ∧ ∀ k, k ∈ needed → context.value k c2 = context.value k c1).
Proof.
  intros Hs. destruct (constant_propagation_keeps nds) as (nds1 & Hrun1 & Hs1 & Hk1); [by apply straight_all|].
  destruct (copy_propagation_keeps nds1) as (propagated & Hrun2 & Hs2 & Hk2); [by apply straight_all, Hs1|].
  destruct (eliminate_straight propagated needed) as (nds3 & names & Hrun3 & Hk3); [auto|].
  exists propagated, nds3. split; [by rewrite Hrun1|].
  split; [unfold simplification_pass, dead_code_elimination; rewrite Hrun1; simpl; rewrite Hrun2; simpl; by rewrite Hrun3|].
  intros Ha c v c1 Hc Hev. rewrite <- Hk1 in Hev by done. specialize (Hk2 Ha c Hc). rewrite Hev in Hk2. unfold similar in Hk2.
  destruct (eval.eval_all propagated c) as [[v2|e] c2] eqn:Hev2; simpl in Hk2; [destruct Hk2 as [-> ->]|by destruct Hk2].
  destruct (Hk3 c c Vcontrol Vcontrol v c1 Hc Hc) as (v3 & c3 & Hev3 & Hc1 & Hc3 & Hag); [done|done|].
  exists v3, c3. split; [done|]. intros k Hk. by rewrite !value_find, (Hag k Hk).
Qed.
End elimination.

(** ** Examples *)
Definition parsed (text : string) : list node.type :=
  match parser.make (H := Float.nan_libm) text with Ret nds => nds | Throw _ => [] end.
Definition value_after (nds : list node.type) (c : context.type) (k : key_type) : outcome exn value_type :=
  match eval.eval_all (H := Float.nan_libm) nds c with (Ret _, c) => context.value k c | (Throw e, _) => Throw e end.
Definition simplified (nds : list node.type) (k : key_type) : list node.type :=
  match simplification_pass nds {[k]} with Ret nds => nds | Throw _ => [] end.
Definition bindings (l : list (string * value_type)) : context.type := context.mk ∅ (list_to_map l).

Definition chain : list node.type := parsed "${a} := 3; ${b} := ${a} + ${c}; ${d} := ${b}; ${e} := ${d} + 1".
Lemma simplification_keeps_needed_witness :
  print.string_ (simplified chain ["e"]) = Ret "(${b} := (3 + ${c}));(${e} := (${b} + 1));" ∧
  value_after (simplified chain ["e"]) (bindings [("c", Vint 4)]) ["e"] = value_after chain (bindings [("c", Vint 4)]) ["e"].
Proof.
  split; [vm_compute; reflexivity|].
  destruct (simplification_keeps_needed (H := Float.nan_libm) chain {[["e"]]}) as (propagated & nds' & Hprop & Hrun & Hk);
    [vm_compute; reflexivity|].
  assert (forallb (assignments apart) propagated = true) as Ha.
  { apply (f_equal (λ o, match o with Ret l => forallb (assignments apart) l | Throw _ => true end)) in Hprop.
    rewrite <- Hprop. vm_compute. reflexivity. }
  specialize (Hk Ha).
  assert (simplified chain ["e"] = nds') as -> by (unfold simplified; destruct (simplification_pass chain _) eqn:He; congruence).
  unfold value_after.
  destruct (eval.eval_all chain (bindings [("c", Vint 4)])) as [o c1] eqn:Hev.
  assert (o = Ret (Vint 8)) as -> by (apply (f_equal fst) in Hev; vm_compute in Hev; symmetry; exact Hev).
  destruct (Hk (bindings [("c", Vint 4)]) (Vint 8) c1) as (v' & c2 & -> & Hneed); [apply map_disjoint_empty_l|exact Hev|].
  apply Hneed. by apply elem_of_singleton.
Defined.

(** Simplification changes results beyond these assumptions: when a copied value is a
    part of what it is assigned to, when an assignment is skipped by a boolean operator, and
    when an expression uses a name that it has assigned itself. *)
Theorem simplification_changes_results :
  (let nds := parsed "${a} := ${a.x}; ${b} := ${a}" in
   let c := bindings [("a", Vstruct [("x", Vstruct [("x", Vint 1)])])] in
   value_after nds c ["b"] = Ret (Vstruct [("x", Vint 1)]) ∧ value_after (simplified nds ["b"]) c ["b"] = Ret (Vint 1)) ∧
  (let nds := parsed "${t} && (${a} := true); ${b} := ${a}" in
   let c := bindings [("t", Vbool false); ("a", Vbool false)] in
   value_after nds c ["b"] = Ret (Vbool false) ∧ value_after (simplified nds ["b"]) c ["b"] = Ret (Vbool true)) ∧
  (let nds := parsed "${b} := (${x} := ${y} + 1) + ${x}" in
   let c := bindings [("x", Vint 7); ("y", Vint 1)] in
   value_after nds c ["b"] = Ret (Vint 4) ∧ value_after (simplified nds ["b"]) c ["b"] = Ret (Vint 9)).
Proof. vm_compute. repeat split. Qed.
End SimplifySpec.
