(* ===== verification/ModuleCall.v ===== *)
(** * Module calls: data and memory ranges

    [we/type/module_call.hpp], [module_call.cpp], [memory_transfer.hpp],
    [memory_buffer_info_t.cpp], [range.hpp], [we/field.cpp]: what a transition with a module
    call carries, and the ranges of local and global memory that its transfers give. *)

From S2P Require Import Prelude Value Token Function Position ReadShow Tokenizer Expr Parser.

Module module_call.

Abbreviation expression_t := (list node.type).

(** ** Data *)
Record memory_buffer_info_t : Type := mk_buffer_info { size_ : expression_t; alignment_ : expression_t }.
Record memory_transfer : Type := mk_transfer {
  global : string;
  local : string;
  not_modified_in_module_call : option bool
}.
(** The buffers are in the order in which the hash map yields them. *)
Record module_call_t : Type := mk {
  module : string;
  function : string;
  memory_buffers : list (string * memory_buffer_info_t);
  memory_gets : list memory_transfer;
  memory_puts : list memory_transfer;
  require_function_unloads_without_rest : bool;
  require_module_unloads_without_rest : bool
}.
(** a call without memory *)
Definition simple (module function : string) : module_call_t := mk module function [] [] [] false false.

(** ** Ranges ([range.hpp]) *)
Record interval : Type := mk_interval { offset : Z; size : Z }.
Record range : Type := mk_range { where_ : interval; name : string }.

Definition field (f : string) (v : value_type) (s : Signature.signature_type) : outcome exn value_type :=
  or_throw (type_error (Signature.missing_field s v [f])) (Path.peek [f] v).
Definition field_as {X} (get : value_type → option X) (f : string) (v : value_type) (s : Signature.signature_type) :
    outcome exn X :=
  x ← field f v s;
  or_throw (type_error (Signature.type_mismatch s x [f])) (get x).
(** an unsigned long is kept at its width *)
Definition ulong (v : value_type) : option Z := match v with Vulong z => Some (w64 z) | _ => None end.
Definition string_ (v : value_type) : option string := match v with Vstring s => Some s | _ => None end.

Definition interval_of (v : value_type) : outcome exn interval :=
  offset ← field_as ulong "offset" v (Signature.Sname "unsigned long");
  size ← field_as ulong "size" v (Signature.Sname "unsigned long");
  Ret (mk_interval offset size).
(** [global::range], with the name of its handle *)
Definition global_range (v : value_type) : outcome exn range :=
  i ← interval_of v;
  handle ← field "handle" v (Signature.Sname "handle");
  name ← field_as string_ "name" handle (Signature.Sname "string");
  Ret (mk_range i name).
(** [local::range], with the name of its buffer *)
Definition local_range (v : value_type) : outcome exn range :=
  i ← interval_of v;
  buffer ← field_as string_ "buffer" v (Signature.Sname "string");
  Ret (mk_range i buffer).

Definition part (r : range) (s : Z) : range := mk_range (mk_interval (offset (where_ r)) s) (name r).
Definition shrink (delta : Z) (r : range) : range :=
  mk_range (mk_interval (w64 (offset (where_ r) + delta)) (w64 (size (where_ r) - delta))) (name r).

(** ** Evaluation ([module_call.cpp]) *)

(** the [while] loop of [zip], which appends to [zipped] *)
Fixpoint zip (fuel : nat) (locals globals : list range) (zipped : list (range * range)) :
    outcome exn (list (range * range)) :=
  match locals, globals with
  | l :: ls, g :: gs =>
      match fuel with
      | O => Throw out_of_fuel
      | S fuel =>
          let min_size := Z.min (size (where_ l)) (size (where_ g)) in
          let l' := shrink min_size l in
          let g' := shrink min_size g in
          zip fuel (if (size (where_ l') =? 0)%Z then ls else l' :: ls)
                   (if (size (where_ g') =? 0)%Z then gs else g' :: gs)
                   (zipped ++ [(part l min_size, part g min_size)])
      end
  | [], [] => Ret zipped
  | _, _ => Throw (runtime_error "sum of sizes of ranges differ")
  end.

Section evaluation.
Context `{Float.Libm}.
(** which of the two lists of ranges is evaluated first: the order of evaluation of the
    arguments of [zip] is unspecified *)
Context (local_first : bool).

Fixpoint ranges (f : value_type → outcome exn range) (vs : list value_type) : outcome exn (list range) :=
  match vs with
  | [] => Ret []
  | v :: vs => r ← f v; rs ← ranges f vs; Ret (r :: rs)
  end.
Definition evaluate (f : value_type → outcome exn range) (expression : string) : M context.type exn (list range) :=
  e ← lift (parser.make expression);
  v ← eval.eval_all e;
  match v with
  | Vlist vs => lift (ranges f vs)
  | _ => throw bad_get
  end.
Definition evaluate_both (t : memory_transfer) : M context.type exn (list range * list range) :=
  if local_first then
    ls ← evaluate local_range (local t); gs ← evaluate global_range (global t); mret (ls, gs)
  else
    gs ← evaluate global_range (global t); ls ← evaluate local_range (local t); mret (ls, gs).

Fixpoint transfers (input : context.type) (ts : list memory_transfer) (zipped : list (range * range)) :
    outcome exn (list (range * range)) :=
  match ts with
  | [] => Ret zipped
  | t :: ts =>
      '(ls, gs) ← (evaluate_both t input).1;
      zipped ← zip (length ls + length gs) ls gs zipped;
      transfers input ts zipped
  end.
Definition gets (m : module_call_t) (input : context.type) : outcome exn (list (range * range)) :=
  transfers input (memory_gets m) [].
Definition puts_evaluated_before_call (m : module_call_t) (output : context.type) : outcome exn (list (range * range)) :=
  transfers output (filter (λ t, default false (not_modified_in_module_call t) = true) (memory_puts m)) [].
Definition puts_evaluated_after_call (m : module_call_t) (output : context.type) : outcome exn (list (range * range)) :=
  transfers output (filter (λ t, default false (not_modified_in_module_call t) = false) (memory_puts m)) [].

(** ** Sizes of buffers ([memory_buffer_info_t.cpp]) *)
Definition eval_ulong (e : expression_t) (input : context.type) : outcome exn Z :=
  v ← (eval.eval_all e input).1;
  or_throw bad_get (ulong v).
Definition is_power_of_2 (n : Z) : bool := negb (n =? 0)%Z && (Z.land n (w64 (n - 1)) =? 0)%Z.
Definition buffer_size (i : memory_buffer_info_t) (input : context.type) : outcome exn Z := eval_ulong (size_ i) input.
Definition buffer_alignment (i : memory_buffer_info_t) (input : context.type) : outcome exn Z :=
  alignment ← eval_ulong (alignment_ i) input;
  if is_power_of_2 alignment then Ret alignment
  else Throw (runtime_error "Invalid alignment expression. The alignment should be a power of 2!").

Fixpoint memory_buffer_sizes (buffers : list (string * memory_buffer_info_t)) (input : context.type) :
    outcome exn (list (string * Z)) :=
  match buffers with
  | [] => Ret []
  | (name, info) :: buffers =>
      size ← buffer_size info input;
      sizes ← memory_buffer_sizes buffers input;
      Ret ((name, size) :: sizes)
  end.
Definition memory_buffer_size_total (m : module_call_t) (input : context.type) : outcome exn Z :=
  sizes ← memory_buffer_sizes (memory_buffers m) input;
  Ret (foldl (λ a x, w64 (a + x.2)) 0%Z sizes).
End evaluation.

(** ** What [zip] gives

    The bytes of a list of ranges, one after the other *)
Definition bytes (r : range) : list (string * Z) :=
  (λ i, (name r, w64 (offset (where_ r) + i))) <$> seqZ 0 (size (where_ r)).
Definition all_bytes (rs : list range) : list (string * Z) := concat (bytes <$> rs).
Definition valid (r : range) : Prop := is_w64 (offset (where_ r)) ∧ is_w64 (size (where_ r)).
Definition pairs (zipped : list (range * range)) : list ((string * Z) * (string * Z)) :=
  concat ((λ x, zip_with pair (bytes x.1) (bytes x.2)) <$> zipped).

(** what is left of a list of ranges when [m] bytes of its first range are taken *)
Definition rest (m : Z) (r : range) (rs : list range) : list range :=
  let r' := shrink m r in if (size (where_ r') =? 0)%Z then rs else r' :: rs.
Lemma bytes_length r : length (bytes r) = Z.to_nat (size (where_ r)).
Proof. unfold bytes. by rewrite length_fmap, length_seqZ. Qed.
Lemma shrink_size m r : valid r → (0 ≤ m ≤ size (where_ r))%Z → size (where_ (shrink m r)) = (size (where_ r) - m)%Z.
Proof. intros [_ Hs] Hm. simpl. apply w64_small. unfold is_w64 in *. lia. Qed.
Lemma shrink_valid m r : valid (shrink m r).
Proof. split; apply w64_range. Qed.
Lemma take_bytes m r rs :
  valid r → (0 ≤ m ≤ size (where_ r))%Z → all_bytes (r :: rs) = bytes (part r m) ++ all_bytes (rest m r rs).
Proof.
  intros Hr Hm. assert (bytes r = bytes (part r m) ++ bytes (shrink m r)) as Hsplit.
  { unfold bytes. rewrite shrink_size by done. simpl. replace (size (where_ r)) with (m + (size (where_ r) - m))%Z at 1 by lia.
    rewrite seqZ_app by lia. rewrite fmap_app. f_equal. rewrite Z.add_0_l, <- (Z.add_0_r m) at 1. rewrite <- fmap_add_seqZ, <- list_fmap_compose.
    apply list_fmap_ext. intros _ i _. simpl. f_equal. unfold w64. by rewrite Zplus_mod_idemp_l, Z.add_assoc. }
  unfold all_bytes, rest. simpl. rewrite Hsplit, <- app_assoc. f_equal.
  destruct (w64 (size (where_ r) - m) =? 0)%Z eqn:H0; [|done]. apply Z.eqb_eq in H0.
  assert (bytes (shrink m r) = []) as ->; [|done]. unfold bytes. simpl. by rewrite H0.
Qed.
Lemma rest_valid m r rs : Forall valid rs → Forall valid (rest m r rs).
Proof. intros Hrs. unfold rest. simpl. destruct (_ =? 0)%Z; [done|]. constructor; [apply shrink_valid|done]. Qed.
Lemma rest_length m r rs : length (rest m r rs) ≤ S (length rs).
Proof. unfold rest. simpl. destruct (_ =? 0)%Z; simpl; lia. Qed.
Lemma rest_used r rs : valid r → rest (size (where_ r)) r rs = rs.
Proof. intros Hr. unfold rest. rewrite shrink_size by (try done; destruct Hr as [_ ?]; unfold is_w64 in *; lia). by rewrite Z.sub_diag. Qed.
Lemma rest_nonempty m r rs :
  valid r → (0 ≤ m ≤ size (where_ r))%Z → Forall (λ r, 0 < size (where_ r))%Z rs → Forall (λ r, 0 < size (where_ r))%Z (rest m r rs).
Proof.
  intros Hr Hm Hrs. unfold rest. rewrite shrink_size by done. destruct (_ =? 0)%Z eqn:H0; [done|]. constructor; [|done].
  rewrite shrink_size by done. apply Z.eqb_neq in H0. lia.
Qed.
Lemma zip_fuel fuel ls gs z : 
  Forall valid ls → Forall valid gs → length ls + length gs ≤ fuel →
  (∀ z', zip fuel ls gs z = Ret z' → ∃ z2, z' = z ++ z2 ∧ Forall (λ x, size (where_ x.1) = size (where_ x.2)) z2 ∧
     pairs z2 = zip_with pair (all_bytes ls) (all_bytes gs) ∧ length (all_bytes ls) = length (all_bytes gs)) ∧
  (∀ e, zip fuel ls gs z = Throw e → e = runtime_error "sum of sizes of ranges differ") ∧
  (Forall (λ r, 0 < size (where_ r))%Z ls → Forall (λ r, 0 < size (where_ r))%Z gs →
     length (all_bytes ls) = length (all_bytes gs) → ∃ z', zip fuel ls gs z = Ret z').
Proof.
  assert (∀ r rs, Forall valid (r :: rs) → Forall (λ r, 0 < size (where_ r))%Z (r :: rs) → length (all_bytes (r :: rs)) ≠ 0) as Hpos.
  { intros r rs _ Hr. apply Forall_cons in Hr as [Hr _]. unfold all_bytes. simpl. rewrite length_app, bytes_length. lia. }
  revert ls gs z. induction fuel as [|fuel IH]; intros [|l ls] [|g gs] z Hls Hgs Hf; simpl in Hf |- *.
  all: try lia.
  all: try (split_and!; [intros z' [= <-]; exists []; by rewrite app_nil_r|done|eauto]).
  all: try (split_and!; [done|by intros e [= <-]|]; intros Hl Hg Hlen; exfalso;
    first [by apply (Hpos _ _ Hls Hl)|by apply (Hpos _ _ Hgs Hg)]).
  apply Forall_cons in Hls as [Hl Hls]. apply Forall_cons in Hgs as [Hg Hgs].
  set (m := Z.min (size (where_ l)) (size (where_ g))).
  assert (0 ≤ m ≤ size (where_ l) ∧ m ≤ size (where_ g))%Z as (Hm1 & Hm2).
  { destruct Hl as [_ Hl], Hg as [_ Hg]. unfold is_w64 in *. lia. }
  assert (length (rest m l ls) + length (rest m g gs) ≤ fuel) as Hlen.
  { pose proof (rest_length m l ls). pose proof (rest_length m g gs).
    assert (m = size (where_ l) ∨ m = size (where_ g)) as [->| ->] by lia; rewrite rest_used by done; lia. }
  destruct (IH (rest m l ls) (rest m g gs) (z ++ [(part l m, part g m)])) as (Hret & Hthrow & Hok);
    [by apply rest_valid|by apply rest_valid|done|].
  assert (all_bytes (l :: ls) = bytes (part l m) ++ all_bytes (rest m l ls)) as Hbl by (by apply take_bytes).
  assert (all_bytes (g :: gs) = bytes (part g m) ++ all_bytes (rest m g gs)) as Hbg by (apply take_bytes; [done|lia]).
  assert (length (bytes (part l m)) = length (bytes (part g m))) as Hlm by (rewrite !bytes_length; done).
  rewrite Hbl, Hbg. split_and!; [|done|].
  - intros z' Hz. destruct (Hret z' Hz) as (z2 & -> & Hs & Hp & Hle). exists ((part l m, part g m) :: z2).
    rewrite <- app_assoc. split_and!; [done|by constructor| |by rewrite !length_app, Hlm, Hle].
    change (pairs ((part l m, part g m) :: z2)) with (zip_with pair (bytes (part l m)) (bytes (part g m)) ++ pairs z2).
    by rewrite Hp, zip_with_app.
  - intros Hpl Hpg Hle. rewrite !length_app, Hlm in Hle. apply Forall_cons in Hpl as [_ Hpl]. apply Forall_cons in Hpg as [_ Hpg].
    apply Hok; [by apply rest_nonempty|apply rest_nonempty; [done|lia|done]|lia].
Qed.

(** C25: The transfers of a module call pair the bytes of the local with the bytes of the
    global ranges in their order, and give pairs of ranges of the same size; the loop ends,
    and it throws only when the numbers of bytes differ or a range is empty. *)
Theorem zip_pairs_bytes (ls gs : list range) :
  Forall valid ls → Forall valid gs →
  match zip (length ls + length gs) ls gs [] with
  | Ret zipped =>
      pairs zipped = zip_with pair (all_bytes ls) (all_bytes gs) ∧ length (all_bytes ls) = length (all_bytes gs) ∧
      Forall (λ x, size (where_ x.1) = size (where_ x.2)) zipped
  | Throw e =>
      e = runtime_error "sum of sizes of ranges differ" ∧
      (length (all_bytes ls) ≠ length (all_bytes gs) ∨ Exists (λ r, size (where_ r) = 0%Z) (ls ++ gs))
  end.
Proof.
  intros Hls Hgs. destruct (zip_fuel (length ls + length gs) ls gs [] Hls Hgs) as (Hret & Hthrow & Hok); [done|].
  destruct (zip _ ls gs []) as [zipped|e].
  - destruct (Hret zipped eq_refl) as (z2 & -> & ? & ? & ?). done.
  - split; [by apply Hthrow|]. destruct (decide (length (all_bytes ls) = length (all_bytes gs))) as [Hlen|]; [right|by left].
    destruct (decide (Exists (λ r, size (where_ r) = 0%Z) (ls ++ gs))) as [|Hne]; [done|]. exfalso.
    apply Forall_Exists_neg, Forall_app in Hne as [Hl Hg].
    assert (∀ rs, Forall valid rs → Forall (λ r, size (where_ r) ≠ 0%Z) rs → Forall (λ r, 0 < size (where_ r))%Z rs) as Hpos.
    { intros rs Hv Hn. apply Forall_forall. intros r Hr. rewrite Forall_forall in Hv, Hn. destruct (Hv r Hr) as [_ ?].
      specialize (Hn r Hr). unfold is_w64 in *. lia. }
    destruct Hok as [z' Hz']; [auto|auto|done|done].
Qed.
Lemma zip_pairs_bytes_witness :
  let ls := [mk_range (mk_interval 0 3) "a"; mk_range (mk_interval 8 1) "b"] in
  let gs := [mk_range (mk_interval 100 1) "x"; mk_range (mk_interval 200 3) "x"] in
  Forall valid ls ∧
  match zip 4 ls gs [] with
  | Ret zipped => pairs zipped =
      [(("a", 0), ("x", 100)); (("a", 1), ("x", 200)); (("a", 2), ("x", 201)); (("b", 8), ("x", 202))]%Z
  | Throw _ => False
  end.
Proof.
  intros ls gs. assert (Forall valid ls ∧ Forall valid gs) as [Hls Hgs] by (split; repeat constructor; simpl; lia).
  split; [exact Hls|]. pose proof (zip_pairs_bytes ls gs Hls Hgs) as Hz. change (length ls + length gs) with 4 in Hz.
  destruct (zip 4 ls gs []) as [zipped|e] eqn:He; [|vm_compute in He; discriminate He].
  destruct Hz as (-> & _ & _). reflexivity.
Defined.
(** A trailing empty range is taken for a difference of the sums. *)
Lemma zip_rejects_empty_range :
  let ls := [mk_range (mk_interval 0 8) "a"] in
  let gs := [mk_range (mk_interval 0 8) "x"; mk_range (mk_interval 0 0) "x"] in
  length (all_bytes ls) = length (all_bytes gs) ∧ zip 3 ls gs [] = Throw (runtime_error "sum of sizes of ranges differ").
Proof. by vm_compute. Qed.
End module_call.
