(* ===== verification/Net.v ===== *)
(** * Petri nets: data and operations

    [we/type/net.cpp] with the data of [place.hpp], [port.hpp],
    [connection.hpp] and [transition.cpp].  A net keeps, beside its structure
    and its tokens, the set of transitions that can fire and for each of them
    the tokens it would take; every operation updates this information
    incrementally. *)

From S2P Require Import Prelude Value Token Function ReadShow Expr ModuleCall.

(** Identifiers are 64-bit counters ([id.hpp]), [operator++ (int)] wraps. *)
Abbreviation place_id_type := Z.
Abbreviation port_id_type := Z.
Abbreviation transition_id_type := Z.
Abbreviation token_id_type := Z.
Abbreviation priority_type := Z.

Definition next_id (i : Z) : Z := w64 (i + 1).

(** [we::type::expression_t]: the parsed expression. *)
Abbreviation expression_t := (list node.type).

(** [we::type::property::type]: a structured value. *)
Abbreviation property_type := value_type.

Module edge.
Inductive type : Type := PT | PT_READ | TP | TP_MANY.
End edge.

Module place.
Record type : Type := mk {
  name : string;
  signature : Signature.signature_type;
  put_token : option bool
}.
Definition is_marked_for_put_token (p : type) : bool := default false (put_token p).
End place.

Module port.
Inductive PortDirection : Type := PORT_IN | PORT_OUT | PORT_TUNNEL.
Record port_t : Type := mk {
  name : string;
  direction : PortDirection;
  signature : Signature.signature_type;
  associated_place : option place_id_type
}.
End port.

(** [transition_t]; [N] is the type of the nets that can be nested in a
    transition. *)
Module transition.

Inductive data_type (N : Type) : Type :=
| module_call (m : module_call.module_call_t)
| multi_module_call (m : list (string * module_call.module_call_t))
| expression (e : expression_t)
| net (n : N).
Arguments module_call {N} _.
Arguments multi_module_call {N} _.
Arguments expression {N} _.
Arguments net {N} _.

Record transition_t (N : Type) : Type := mk {
  name : string;
  data : data_type N;
  condition : option expression_t;
  ports_input : gmap port_id_type port.port_t;
  ports_output : gmap port_id_type port.port_t;
  ports_tunnel : gmap port_id_type port.port_t;
  port_id_counter : port_id_type;
  prop : property_type;
  requirements : list (string * bool);
  preferences : list string;
  priority : priority_type;
  eureka_id : option string
}.
Arguments mk {N}.
Arguments name {N}.
Arguments data {N}.
Arguments condition {N}.
Arguments ports_input {N}.
Arguments ports_output {N}.
Arguments ports_tunnel {N}.
Arguments port_id_counter {N}.
Arguments prop {N}.
Arguments requirements {N}.
Arguments preferences {N}.
Arguments priority {N}.
Arguments eureka_id {N}.

Section transition.
Context {N : Type}.
Implicit Types t : transition_t N.

(** the constructor: a condition that is constantly true is dropped, and
    preferences need several implementations to choose from *)
Definition make `{Float.Libm} (name : string) (data : data_type N)
    (condition : option expression_t) (prop : property_type) (priority : priority_type)
    (eureka_id : option string) (preferences : list string) :
    outcome exn (transition_t N) :=
  let failed := runtime_error ("Failed to create transition '" +:+ name +:+ "'") in
  let is_multi := match data with multi_module_call _ => true | _ => false end in
  match (match condition with
         | None => Ret None
         | Some c =>
             b ← eval.is_const_true c;
             Ret (if (b : bool) then None else Some c)
         end) with
  | Throw _ => Throw failed
  | Ret c =>
      if negb (bool_decide (preferences = [])) && negb is_multi then Throw failed
      else Ret (mk name data c ∅ ∅ ∅ 0 prop [] preferences priority eureka_id)
  end.

(** [expression ()], [net ()] *)
Definition get_expression t : option expression_t :=
  match data t with expression e => Some e | _ => None end.
Definition get_net t : option N :=
  match data t with net n => Some n | _ => None end.

Definition set_net (n : N) t : transition_t N :=
  mk (name t) (net n) (condition t) (ports_input t) (ports_output t) (ports_tunnel t)
     (port_id_counter t) (prop t) (requirements t) (preferences t) (priority t) (eureka_id t).

Definition add_requirement (r : string * bool) t : transition_t N :=
  mk (name t) (data t) (condition t) (ports_input t) (ports_output t) (ports_tunnel t)
     (port_id_counter t) (prop t) (requirements t ++ [r]) (preferences t) (priority t)
     (eureka_id t).

Definition set_property (path : list string) (val : value_type) t : transition_t N :=
  mk (name t) (data t) (condition t) (ports_input t) (ports_output t) (ports_tunnel t)
     (port_id_counter t) (Path.poke path (prop t) val) (requirements t) (preferences t)
     (priority t) (eureka_id t).

(** [add_port]: an output port of a net must be associated with a place *)
Definition add_port (p : port.port_t) : M (transition_t N) exn port_id_type :=
  λ t,
    let port_id := port_id_counter t in
    let upd i o u :=
      mk (name t) (data t) (condition t) i o u (next_id port_id) (prop t)
         (requirements t) (preferences t) (priority t) (eureka_id t) in
    let emplace m := (emplace port_id p m).1 in
    match port.direction p with
    | port.PORT_IN =>
        (Ret port_id, upd (emplace (ports_input t)) (ports_output t) (ports_tunnel t))
    | port.PORT_OUT =>
        if bool_decide (is_Some (get_net t)) && bool_decide (port.associated_place p = None) then
          (Throw (runtime_error ("Error when adding output port '" +:+ port.name p +:+ "' to net '"
                     +:+ name t +:+ "': Not associated with any place")),
           upd (ports_input t) (ports_output t) (ports_tunnel t))
        else
          (Ret port_id, upd (ports_input t) (emplace (ports_output t)) (ports_tunnel t))
    | port.PORT_TUNNEL =>
        (Ret port_id, upd (ports_input t) (ports_output t) (emplace (ports_tunnel t)))
    end.

(** [input_port_by_name], [output_port_by_name]: the first match in the
    iteration order *)
Definition port_by_name `{Unordered} (ports : gmap port_id_type port.port_t)
    (port_name : string) : option port_id_type :=
  fst <$> find (λ p, bool_decide (port.name p.2 = port_name)) (unordered_list ports).

Definition input_port_by_name `{Unordered} t (port_name : string) : outcome exn port_id_type :=
  or_throw (port_unknown (name t) port_name) (port_by_name (ports_input t) port_name).
Definition output_port_by_name `{Unordered} t (port_name : string) : outcome exn port_id_type :=
  or_throw (port_unknown (name t) port_name) (port_by_name (ports_output t) port_name).
End transition.

End transition.
Abbreviation transition_t := transition.transition_t.

(** ** The state of a net ([net.hpp]) *)
Module net.

(** A bimap of places and transitions keeps each pair once. *)
Abbreviation adj_type := (gset (place_id_type * transition_id_type)).
Abbreviation port_to_place_type :=
  (gmap transition_id_type (gmap port_id_type (place_id_type * property_type))).
Abbreviation port_to_response_type :=
  (gmap transition_id_type (gmap port_id_type (string * property_type))).
Abbreviation place_to_port_type :=
  (gmap transition_id_type (gmap place_id_type (port_id_type * property_type))).
Abbreviation token_by_id_type := (gmap token_id_type value_type).
(** For each place the chosen token and whether the connection only reads. *)
Abbreviation choice_type := (gmap place_id_type (token_id_type * bool)).

(** The members that describe the structure of the net. *)
Record structure (N : Type) : Type := mk_structure {
  place_id : place_id_type;
  pmap : gmap place_id_type place.type;
  place_id_by_name : gmap string place_id_type;
  transition_id : transition_id_type;
  tmap : gmap transition_id_type (transition_t N);
  adj_pt_consume : adj_type;
  adj_pt_read : adj_type;
  adj_tp : list (place_id_type * transition_id_type);
  port_to_place : port_to_place_type;
  port_many_to_place : port_to_place_type;
  port_to_eureka : gmap transition_id_type port_id_type;
  port_to_response : port_to_response_type;
  place_to_port : place_to_port_type
}.
Arguments mk_structure {N}.
Arguments place_id {N}.
Arguments pmap {N}.
Arguments place_id_by_name {N}.
Arguments transition_id {N}.
Arguments tmap {N}.
Arguments adj_pt_consume {N}.
Arguments adj_pt_read {N}.
Arguments adj_tp {N}.
Arguments port_to_place {N}.
Arguments port_many_to_place {N}.
Arguments port_to_eureka {N}.
Arguments port_to_response {N}.
Arguments place_to_port {N}.

(** A net: its structure, its tokens, the transitions that can fire (by
    priority), and the tokens each of them would take. *)
Record net_type (N : Type) : Type := mk {
  str : structure N;
  token_id : token_id_type;
  token_by_place_id : gmap place_id_type token_by_id_type;
  enabled : gmap priority_type (gset transition_id_type);
  enabled_choice : gmap transition_id_type choice_type
}.
Arguments mk {N}.
Arguments str {N}.
Arguments token_id {N}.
Arguments token_by_place_id {N}.
Arguments enabled {N}.
Arguments enabled_choice {N}.

Section setters.
Context {N : Type}.

Definition empty : net_type N := mk (mk_structure 0 ∅ ∅ 0 ∅ ∅ ∅ [] ∅ ∅ ∅ ∅ ∅) 0 ∅ ∅ ∅.

Definition set_place_id (f : place_id_type →
    place_id_type) (n : structure N) : structure N :=
  mk_structure (f (place_id n)) (pmap n) (place_id_by_name n) (transition_id n)
    (tmap n) (adj_pt_consume n) (adj_pt_read n) (adj_tp n) (port_to_place n)
    (port_many_to_place n) (port_to_eureka n) (port_to_response n) (place_to_port n).
Definition set_pmap (f : gmap place_id_type place.type →
    gmap place_id_type place.type) (n : structure N) : structure N :=
  mk_structure (place_id n) (f (pmap n)) (place_id_by_name n) (transition_id n)
    (tmap n) (adj_pt_consume n) (adj_pt_read n) (adj_tp n) (port_to_place n)
    (port_many_to_place n) (port_to_eureka n) (port_to_response n) (place_to_port n).
Definition set_place_id_by_name (f : gmap string place_id_type →
    gmap string place_id_type) (n : structure N) : structure N :=
  mk_structure (place_id n) (pmap n) (f (place_id_by_name n)) (transition_id n)
    (tmap n) (adj_pt_consume n) (adj_pt_read n) (adj_tp n) (port_to_place n)
    (port_many_to_place n) (port_to_eureka n) (port_to_response n) (place_to_port n).
Definition set_transition_id (f : transition_id_type →
    transition_id_type) (n : structure N) : structure N :=
  mk_structure (place_id n) (pmap n) (place_id_by_name n) (f (transition_id n))
    (tmap n) (adj_pt_consume n) (adj_pt_read n) (adj_tp n) (port_to_place n)
    (port_many_to_place n) (port_to_eureka n) (port_to_response n) (place_to_port n).
Definition set_tmap (f : gmap transition_id_type (transition_t N) →
    gmap transition_id_type (transition_t N)) (n : structure N) : structure N :=
  mk_structure (place_id n) (pmap n) (place_id_by_name n) (transition_id n)
    (f (tmap n)) (adj_pt_consume n) (adj_pt_read n) (adj_tp n) (port_to_place n)
    (port_many_to_place n) (port_to_eureka n) (port_to_response n) (place_to_port n).
Definition set_adj_pt_consume (f : adj_type →
    adj_type) (n : structure N) : structure N :=
  mk_structure (place_id n) (pmap n) (place_id_by_name n) (transition_id n) (tmap n)
    (f (adj_pt_consume n)) (adj_pt_read n) (adj_tp n) (port_to_place n)
    (port_many_to_place n) (port_to_eureka n) (port_to_response n) (place_to_port n).
Definition set_adj_pt_read (f : adj_type →
    adj_type) (n : structure N) : structure N :=
  mk_structure (place_id n) (pmap n) (place_id_by_name n) (transition_id n) (tmap n)
    (adj_pt_consume n) (f (adj_pt_read n)) (adj_tp n) (port_to_place n)
    (port_many_to_place n) (port_to_eureka n) (port_to_response n) (place_to_port n).
Definition set_adj_tp (f : list (place_id_type * transition_id_type) →
    list (place_id_type * transition_id_type)) (n : structure N) : structure N :=
  mk_structure (place_id n) (pmap n) (place_id_by_name n) (transition_id n) (tmap n)
    (adj_pt_consume n) (adj_pt_read n) (f (adj_tp n)) (port_to_place n)
    (port_many_to_place n) (port_to_eureka n) (port_to_response n) (place_to_port n).
Definition set_port_to_place (f : port_to_place_type →
    port_to_place_type) (n : structure N) : structure N :=
  mk_structure (place_id n) (pmap n) (place_id_by_name n) (transition_id n) (tmap n)
    (adj_pt_consume n) (adj_pt_read n) (adj_tp n) (f (port_to_place n))
    (port_many_to_place n) (port_to_eureka n) (port_to_response n) (place_to_port n).
Definition set_port_many_to_place (f : port_to_place_type →
    port_to_place_type) (n : structure N) : structure N :=
  mk_structure (place_id n) (pmap n) (place_id_by_name n) (transition_id n) (tmap n)
    (adj_pt_consume n) (adj_pt_read n) (adj_tp n) (port_to_place n)
    (f (port_many_to_place n)) (port_to_eureka n) (port_to_response n)
    (place_to_port n).
Definition set_port_to_eureka (f : gmap transition_id_type port_id_type →
    gmap transition_id_type port_id_type) (n : structure N) : structure N :=
  mk_structure (place_id n) (pmap n) (place_id_by_name n) (transition_id n) (tmap n)
    (adj_pt_consume n) (adj_pt_read n) (adj_tp n) (port_to_place n)
    (port_many_to_place n) (f (port_to_eureka n)) (port_to_response n)
    (place_to_port n).
Definition set_port_to_response (f : port_to_response_type →
    port_to_response_type) (n : structure N) : structure N :=
  mk_structure (place_id n) (pmap n) (place_id_by_name n) (transition_id n) (tmap n)
    (adj_pt_consume n) (adj_pt_read n) (adj_tp n) (port_to_place n)
    (port_many_to_place n) (port_to_eureka n) (f (port_to_response n))
    (place_to_port n).
Definition set_place_to_port (f : place_to_port_type →
    place_to_port_type) (n : structure N) : structure N :=
  mk_structure (place_id n) (pmap n) (place_id_by_name n) (transition_id n) (tmap n)
    (adj_pt_consume n) (adj_pt_read n) (adj_tp n) (port_to_place n)
    (port_many_to_place n) (port_to_eureka n) (port_to_response n)
    (f (place_to_port n)).

Definition set_str (f : structure N → structure N) (n : net_type N) : net_type N :=
  mk (f (str n)) (token_id n) (token_by_place_id n) (enabled n) (enabled_choice n).
Definition set_token_id (f : token_id_type →
    token_id_type) (n : net_type N) : net_type N :=
  mk (str n) (f (token_id n)) (token_by_place_id n) (enabled n) (enabled_choice n).
Definition set_token_by_place_id (f : gmap place_id_type token_by_id_type →
    gmap place_id_type token_by_id_type) (n : net_type N) : net_type N :=
  mk (str n) (token_id n) (f (token_by_place_id n)) (enabled n) (enabled_choice n).
Definition set_enabled (f : gmap priority_type (gset transition_id_type) →
    gmap priority_type (gset transition_id_type)) (n : net_type N) : net_type N :=
  mk (str n) (token_id n) (token_by_place_id n) (f (enabled n)) (enabled_choice n).
Definition set_enabled_choice (f : gmap transition_id_type choice_type →
    gmap transition_id_type choice_type) (n : net_type N) : net_type N :=
  mk (str n) (token_id n) (token_by_place_id n) (enabled n) (f (enabled_choice n)).
End setters.

End net.
Coercion net.str : net.net_type >-> net.structure.
Abbreviation net_type := net.net_type.

(** ** The search for tokens that enable a transition ([cross_type]) *)
Module cross.

Section cross.
Context `{Float.Libm} `{Unordered} {N : Type}.

(** [iterators_type]: the tokens between [_begin] and [_end], those between
    [_pos] and [_end]. *)
Record iterators_type : Type := mk_iterators {
  seq : list (token_id_type * value_type);
  pos : list (token_id_type * value_type);
  is_read_connection : bool
}.

Definition iterators (tokens : list (token_id_type * value_type)) (is_read : bool) :
    iterators_type := mk_iterators tokens tokens is_read.
Definition at_end (it : iterators_type) : bool := bool_decide (pos it = []).
Definition increment (it : iterators_type) : iterators_type :=
  mk_iterators (seq it) (tail (pos it)) (is_read_connection it).
Definition rewind (it : iterators_type) : iterators_type :=
  mk_iterators (seq it) (seq it) (is_read_connection it).

(** [cross_type]; the net and the transition it refers to are arguments. *)
Record cross_type : Type := mk {
  slots : gmap place_id_type iterators_type;
  referenced_places : gset place_id_type
}.

Definition empty : cross_type := mk ∅ ∅.

Context (net : net.structure N) (tid : transition_id_type) (t : transition_t N).

(** [_key_roots] *)
Definition key_roots : outcome exn (gset string) :=
  match transition.condition t with
  | Some c => eval.key_roots c
  | None => Ret ∅
  end.

Definition input_port_name (pid : place_id_type) : outcome exn string :=
  ports ← or_throw out_of_range (net.place_to_port net !! tid);
  port ← or_throw out_of_range (fst <$> ports !! pid);
  match transition.ports_input t !! port with
  | Some p => Ret (port.name p)
  | None => port.name <$> or_throw out_of_range (transition.ports_tunnel t !! port)
  end.

Definition is_referenced (roots : gset string) (pid : place_id_type) : outcome exn bool :=
  name ← input_port_name pid;
  Ret (bool_decide (name ∈ roots)).

(** [push]; [_m.emplace] keeps an existing entry *)
Definition push (roots : gset string) (pid : place_id_type)
    (tokens : list (token_id_type * value_type)) (is_read : bool) (x : cross_type) :
    outcome exn cross_type :=
  b ← is_referenced roots pid;
  Ret (mk (emplace pid (iterators tokens is_read) (slots x)).1
          (if (b : bool) then {[pid]} ∪ referenced_places x else referenced_places x)).

(** [do_step]: the next combination, like an odometer *)
Fixpoint do_step (places : list place_id_type) (m : gmap place_id_type iterators_type) :
    outcome exn (bool * gmap place_id_type iterators_type) :=
  match places with
  | [] => Ret (false, m)
  | place :: places =>
      slot ← or_throw (undefined "dereference of end") (m !! place);
      let slot := increment slot in
      if negb (at_end slot) then Ret (true, <[place := slot]> m)
      else do_step places (<[place := rewind slot]> m)
  end.

(** The context in which the condition is evaluated. *)
Definition bind_place (x : cross_type) (c : context.type) (place : place_id_type) :
    outcome exn context.type :=
  name ← input_port_name place;
  slot ← or_throw out_of_range (slots x !! place);
  token ← or_throw (undefined "dereference of end") (head (pos slot));
  Ret (context.bind_ref name token.2 c).

Definition bind_places (x : cross_type) : outcome exn context.type :=
  foldl (λ c place, c ≫= λ c, bind_place x c place) (Ret context.empty)
    (unordered_elements (referenced_places x)).

(** The number of combinations: one more than the number of iterations that
    [do_step] can start. *)
Definition combinations (x : cross_type) : nat :=
  foldr (λ p n, (n * match slots x !! p with Some it => length (seq it) | None => 1 end)%nat)
    1%nat (unordered_elements (referenced_places x)).

(** The [do ... while] loop of [enables]; the result is the combination that
    satisfies the condition. *)
Fixpoint enables_loop (fuel : nat) (condition : expression_t) (x : cross_type) :
    outcome exn (option cross_type) :=
  match fuel with
  | O => Throw out_of_fuel
  | S fuel =>
      c ← bind_places x;
      v ← (eval.eval_all condition c).1;
      b ← eval.get_bool v;
      if (b : bool) then Ret (Some x)
      else
        step ← do_step (unordered_elements (referenced_places x)) (slots x);
        if (step.1 : bool) then
          enables_loop fuel condition (mk step.2 (referenced_places x))
        else Ret None
  end.

Definition enables (x : cross_type) : outcome exn (option cross_type) :=
  if bool_decide (size (slots x) < size (transition.ports_input t)) then Ret None
  else
    match transition.condition t with
    | None => Ret (Some x)
    | Some condition => enables_loop (combinations x) condition x
    end.

(** [write_to]: the chosen tokens; other entries of [choice] stay *)
Definition chosen (it : iterators_type) : option (token_id_type * bool) :=
  (λ token, (token.1, is_read_connection it)) <$> head (pos it).

Definition write_to (x : cross_type) (choice : net.choice_type) : net.choice_type :=
  omap chosen (slots x) ∪ choice.
End cross.

End cross.

(** ** The operations of [net_type] *)
Module net_ops.

Section ops.
Context `{Float.Libm} `{Unordered} {N : Type}.

Abbreviation Net A := (M (net_type N) exn A).

Definition this : Net (net_type N) := get.

Definition at_ `{Countable K} {V} (k : K) (m : gmap K V) : Net V :=
  lift (or_throw out_of_range (m !! k)).

(** *** Building a net *)

Definition add_place (place : place.type) : Net place_id_type :=
  this ≫= λ n : net_type N,
  let pid := net.place_id n in
  modify (net.set_str (λ s,
    net.set_pmap (λ m, (emplace pid place m).1) (net.set_place_id next_id s))) ≫= λ _,
  let '(by_name, is_new) := emplace (place.name place) pid (net.place_id_by_name n) in
  modify (net.set_str (net.set_place_id_by_name (λ _, by_name))) ≫= λ _,
  if (is_new : bool) then mret pid
  else throw (invalid_argument ("duplicate place with name '" +:+ place.name place +:+ "'")).

Definition add_transition (t : transition_t N) : Net transition_id_type :=
  this ≫= λ n : net_type N,
  let tid := net.transition_id n in
  modify (net.set_str (λ s,
    net.set_tmap (λ m, (emplace tid t m).1) (net.set_transition_id next_id s))) ≫= λ _,
  mret tid.

(** [m[k1].emplace (k2, v)] *)
Definition emplace2 `{Countable K1} `{Countable K2} {V} (k1 : K1) (k2 : K2) (v : V)
    (m : gmap K1 (gmap K2 V)) : gmap K1 (gmap K2 V) * bool :=
  let '(inner, is_new) := emplace k2 v (default ∅ (m !! k1)) in
  (<[k1 := inner]> m, is_new).

Definition require_no_output_connection (m : net.port_to_place_type)
    (tid : transition_id_type) (port : port_id_type) : Net unit :=
  match m !! tid ≫= (.!! port) with
  | Some _ => throw (logic_error "duplicate connection: out and out-many")
  | None => mret tt
  end.

(** *** Which transitions can fire *)

(** [_token_by_place_id[pid]] *)
Definition touch (pid : place_id_type) : Net net.token_by_id_type :=
  modify (net.set_token_by_place_id (λ m, (emplace pid ∅ m).1)) ≫= λ _,
  this ≫= λ n : net_type N,
  mret (default ∅ (net.token_by_place_id n !! pid)).

(** [_enabled]: a priority without transitions is removed *)
Definition erase_enabled (prio : priority_type) (tid : transition_id_type)
    (e : gmap priority_type (gset transition_id_type)) :
    gmap priority_type (gset transition_id_type) :=
  match e !! prio with
  | None => e
  | Some tids =>
      let tids := tids ∖ {[tid]} in
      if decide (tids = ∅) then delete prio e else <[prio := tids]> e
  end.

Definition disable (tid : transition_id_type) : Net unit :=
  this ≫= λ n : net_type N,
  t ← at_ tid (net.tmap n);
  modify (net.set_enabled (erase_enabled (transition.priority t) tid)) ≫= λ _,
  modify (net.set_enabled_choice (delete tid)).

(** [adj.right.equal_range (tid)], [adj.left.equal_range (pid)] *)
Definition places_of (adj : net.adj_type) (tid : transition_id_type) : list place_id_type :=
  (filter (λ a, a.2 = tid) (unordered_elements adj)).*1.
Definition transitions_of (adj : net.adj_type) (pid : place_id_type) :
    list transition_id_type :=
  (filter (λ a, a.1 = pid) (unordered_elements adj)).*2.

(** The lambda [push] of [update_enabled] and [update_enabled_put_token]:
    [fixed] is the token that is the only candidate on its place. *)
Fixpoint push_places (fixed : option (place_id_type * token_id_type))
    (tid : transition_id_type) (t : transition_t N) (roots : gset string)
    (is_read : bool) (places : list place_id_type) (x : cross.cross_type) :
    Net (option cross.cross_type) :=
  match places with
  | [] => mret (Some x)
  | pid :: places =>
      tokens ← match fixed with
               | Some (fpid, ftoken) =>
                   if decide (pid = fpid) then
                     this ≫= λ n : net_type N,
                     tokens ← at_ pid (net.token_by_place_id n);
                     v ← lift (or_throw (undefined "dereference of end") (tokens !! ftoken));
                     mret [(ftoken, v)]
                   else tokens ← touch pid; mret (unordered_list tokens)
               | None => tokens ← touch pid; mret (unordered_list tokens)
               end;
      if decide (tokens = []) then disable tid ≫= λ _, mret None
      else
        this ≫= λ n : net_type N,
        x ← lift (cross.push (net.str n) tid t roots pid tokens is_read x);
        push_places fixed tid t roots is_read places x
  end.

(** The shared body of the two functions. *)
Definition update_enabled_with (fixed : option (place_id_type * token_id_type))
    (tid : transition_id_type) : Net unit :=
  this ≫= λ n : net_type N,
  t ← at_ tid (net.tmap n);
  roots ← lift (cross.key_roots t);
  x ← push_places fixed tid t roots false (places_of (net.adj_pt_consume n) tid) cross.empty;
  match x with
  | None => mret tt
  | Some x =>
      x ← push_places fixed tid t roots true (places_of (net.adj_pt_read n) tid) x;
      match x with
      | None => mret tt
      | Some x =>
          this ≫= λ n : net_type N,
          r ← lift (cross.enables (net.str n) tid t x);
          match r with
          | Some x =>
              modify (net.set_enabled (λ e,
                <[transition.priority t :=
                    {[tid]} ∪ default ∅ (e !! transition.priority t)]> e)) ≫= λ _,
              modify (net.set_enabled_choice (λ c,
                <[tid := cross.write_to x (default ∅ (c !! tid))]> c))
          | None => disable tid
          end
      end
  end.

Definition update_enabled (tid : transition_id_type) : Net unit :=
  update_enabled_with None tid.

Definition is_enabled (n : net_type N) (tid : transition_id_type) (t : transition_t N) : bool :=
  bool_decide (tid ∈ default ∅ (net.enabled n !! transition.priority t)).

(** Only combinations with the new token are tried. *)
Definition update_enabled_put_token (tid : transition_id_type)
    (to_be_updated : place_id_type * token_id_type) : Net unit :=
  this ≫= λ n : net_type N,
  t ← at_ tid (net.tmap n);
  if is_enabled n tid t then mret tt
  else update_enabled_with (Some to_be_updated) tid.

(** *** Connections *)

Definition add_connection (type : edge.type) (tid : transition_id_type)
    (pid : place_id_type) (port : port_id_type) (property : property_type) : Net unit :=
  this ≫= λ n : net_type N,
  match type with
  | edge.TP =>
      require_no_output_connection (net.port_many_to_place n) tid port ≫= λ _,
      let '(m, is_new) := emplace2 tid port (pid, property) (net.port_to_place n) in
      modify (net.set_str (λ s, net.set_port_to_place (λ _, m)
        (net.set_adj_tp (λ l, l ++ [(pid, tid)]) s))) ≫= λ _,
      if (is_new : bool) then mret tt else throw (logic_error "duplicate connection")
  | edge.TP_MANY =>
      require_no_output_connection (net.port_to_place n) tid port ≫= λ _,
      let '(m, is_new) := emplace2 tid port (pid, property) (net.port_many_to_place n) in
      modify (net.set_str (λ s, net.set_port_many_to_place (λ _, m)
        (net.set_adj_tp (λ l, l ++ [(pid, tid)]) s))) ≫= λ _,
      if (is_new : bool) then mret tt else throw (logic_error "duplicate connection")
  | edge.PT =>
      let '(m, is_new) := emplace2 tid pid (port, property) (net.place_to_port n) in
      modify (net.set_str (λ s, net.set_place_to_port (λ _, m)
        (net.set_adj_pt_consume (λ a, {[(pid, tid)]} ∪ a) s))) ≫= λ _,
      if (is_new : bool) then update_enabled tid
      else throw (logic_error "duplicate connection")
  | edge.PT_READ =>
      let '(m, is_new) := emplace2 tid pid (port, property) (net.place_to_port n) in
      modify (net.set_str (λ s, net.set_place_to_port (λ _, m)
        (net.set_adj_pt_read (λ a, {[(pid, tid)]} ∪ a) s))) ≫= λ _,
      if (is_new : bool) then update_enabled tid
      else throw (logic_error "duplicate read connection")
  end.

Definition add_response (tid : transition_id_type) (port : port_id_type) (to : string)
    (property : property_type) : Net unit :=
  this ≫= λ n : net_type N,
  let '(m, is_new) := emplace2 tid port (to, property) (net.port_to_response n) in
  modify (net.set_str (net.set_port_to_response (λ _, m))) ≫= λ _,
  if (is_new : bool) then mret tt else throw (logic_error "duplicate response").

Definition add_eureka (tid : transition_id_type) (port : port_id_type) : Net unit :=
  this ≫= λ n : net_type N,
  let '(m, is_new) := emplace tid port (net.port_to_eureka n) in
  modify (net.set_str (net.set_port_to_eureka (λ _, m))) ≫= λ _,
  if (is_new : bool) then mret tt else throw (logic_error "duplicate eureka").

(** *** Tokens *)

Definition get_token (n : net_type N) (pid : place_id_type) : net.token_by_id_type :=
  default ∅ (net.token_by_place_id n !! pid).

Definition require (v : value_type) (p : place.type) : outcome exn value_type :=
  match Signature.require_type v (place.signature p) (place.name p) with
  | Ret v => Ret v
  | Throw e => Throw (type_error e)
  end.

(** The identifier is taken before the type check can throw; that the place
    gets its entry before is one of the evaluation orders C++ admits. *)
Definition do_put_value (pid : place_id_type) (value : value_type) :
    Net (place_id_type * token_id_type) :=
  this ≫= λ n : net_type N,
  place ← at_ pid (net.pmap n);
  let token_id := net.token_id n in
  modify (net.set_token_id next_id) ≫= λ _,
  tokens ← touch pid;
  v ← lift (require value place);
  modify (net.set_token_by_place_id (<[pid := (emplace token_id v tokens).1]>)) ≫= λ _,
  mret (pid, token_id).

Definition do_update (to_be_updated : place_id_type * token_id_type) : Net unit :=
  this ≫= λ n : net_type N,
  for_each (λ tid, update_enabled_put_token tid to_be_updated)
    (transitions_of (net.adj_pt_consume n) to_be_updated.1 ++
     transitions_of (net.adj_pt_read n) to_be_updated.1).

Definition put_value (pid : place_id_type) (value : value_type) : Net unit :=
  do_put_value pid value ≫= do_update.

(** the head of the messages of [put_token] *)
Definition put_token_message (place_name : string) (value : value_type) : string :=
  "put_token (" +:+ show.quoted "034" place_name +:+ ", " +:+ show.show value +:+ "): ".

Definition put_token (place_name : string) (value : value_type) : Net unit :=
  this ≫= λ n : net_type N,
  match net.place_id_by_name n !! place_name with
  | None => throw (invalid_argument (put_token_message place_name value +:+ "place not found"))
  | Some pid =>
      place ← at_ pid (net.pmap n);
      if negb (place.is_marked_for_put_token place) then
        throw (invalid_argument (put_token_message place_name value +:+
                 "place not marked with attribute put_token=" +:+ show.quoted "034" "true"))
      else put_value pid value
  end.
End ops.

End net_ops.

(** ** Nets of nets

    The nets nested in the transitions of a net are nets of the same kind. *)
#[warnings="-register-all"]
Inductive workflow : Type := subnet (n : net_type workflow).
Definition the_net (w : workflow) : net_type workflow := match w with subnet n => n end.
