(* ===== verification/NetFire.v ===== *)
(** * Petri nets: taking tokens, firing, injecting

    The second half of [we/type/net.cpp] ([do_extract] to [inject]), the
    activities it produces ([we/type/activity.cpp]) and the registry of
    plugins ([we/plugin/Plugins.cpp]). *)

From S2P Require Import Prelude Value Token Function ReadShow Expr Parser Net.

(** [TokenOnPort] *)
Abbreviation token_on_port := (value_type * port_id_type)%type.
(** [token_to_be_deleted_type], [to_be_updated_type] *)
Abbreviation token_ref := (place_id_type * token_id_type)%type.

(** ** Activities: the data ([activity.hpp]) *)
Module activity.

Record activity_t : Type := mk {
  transition : transition_t workflow;
  transition_id : option transition_id_type;
  input : list token_on_port;
  output_ : list token_on_port;
  evaluation_context_requested : bool
}.

(** the constructor *)
Definition make (t : transition_t workflow) (tid : option transition_id_type) : activity_t :=
  mk t tid [] [] false.

Definition set_transition (t : transition_t workflow) (a : activity_t) : activity_t :=
  mk t (transition_id a) (input a) (output_ a) (evaluation_context_requested a).

(** [transition ().net ()] *)
Definition get_net (a : activity_t) : option (net_type workflow) :=
  the_net <$> transition.get_net (transition a).

Section activity.
Context `{Float.Libm} `{Unordered}.

(** [mutable_transition ().mutable_net ().f (...)]; [mutable_net] of a
    transition without a net is a [boost::bad_get] *)
Definition with_net {A} (f : M (net_type workflow) exn A) : M activity_t exn A :=
  λ a,
    match get_net a with
    | None => (Throw bad_get, a)
    | Some n =>
        let '(r, n) := f n in
        (r, set_transition (transition.set_net (subnet n) (transition a)) a)
    end.

(** [add_input] *)
Definition add_input (port_id : port_id_type) (value : value_type) : M activity_t exn unit :=
  get ≫= λ a : activity_t,
  if evaluation_context_requested a then
    throw (logic_error "add_input after evaluation context has been requested")
  else
    match get_net a with
    | Some _ =>
        p ← lift (or_throw out_of_range (transition.ports_input (transition a) !! port_id));
        match port.associated_place p with
        | Some pid => with_net (net_ops.put_value pid value)
        | None => mret tt
        end
    | None =>
        put (mk (transition a) (transition_id a) (input a ++ [(value, port_id)])
                (output_ a) (evaluation_context_requested a))
    end.
End activity.

End activity.
Abbreviation activity_t := activity.activity_t.

(** ** The registry of plugins ([Plugins.cpp])

    [P] stands for loaded plugins, which are shared libraries of the user. *)
Module plugin.

Record Plugins (P : Type) : Type := mk {
  next_plugin_id : Z;
  plugins : gmap Z P
}.
Arguments mk {P}.
Arguments next_plugin_id {P}.
Arguments plugins {P}.

Definition none {P} : Plugins P := mk 0 ∅.

(** The user's code, on a world [W] of its own. *)
Record library (P W : Type) : Type := {
  plugin_create : string → context.type → M W exn P;
  plugin_destroy : P → W → W;
  plugin_before_eval : P → context.type → M W exn unit;
  plugin_after_eval : P → context.type → M W exn unit
}.
Arguments plugin_create {P W}.
Arguments plugin_destroy {P W}.
Arguments plugin_before_eval {P W}.
Arguments plugin_after_eval {P W}.

Section plugins.
Context {P W : Type} (lib : library P W).
Abbreviation S := (Plugins P * W)%type.

Definition on_world {A} (m : M W exn A) : M S exn A :=
  λ '(ps, w), let '(r, w) := m w in (r, (ps, w)).

Definition create (path : string) (c : context.type) : M S exn Z :=
  λ '(ps, w),
    let id := next_plugin_id ps in
    let ps := mk (next_id id) (plugins ps) in
    match plugin_create lib path c w with
    | (Throw e, w) => (Throw e, (ps, w))
    | (Ret p, w) => (Ret id, (mk (next_plugin_id ps) (emplace id p (plugins ps)).1, w))
    end.

Definition at_ (id : Z) : M S exn P :=
  λ s, (or_throw (invalid_argument ("Plugins: Unknown " +:+ show.natural id)) (plugins s.1 !! id), s).

Definition destroy (id : Z) : M S exn unit :=
  p ← at_ id;
  modify (λ '(ps, w), (mk (next_plugin_id ps) (delete id (plugins ps)), plugin_destroy lib p w)).

Definition before_eval (id : Z) (c : context.type) : M S exn unit :=
  p ← at_ id;
  on_world (plugin_before_eval lib p c).
Definition after_eval (id : Z) (c : context.type) : M S exn unit :=
  p ← at_ id;
  on_world (plugin_after_eval lib p c).
End plugins.

End plugin.

(** ** Firing *)
Module fire.

Section take.
Context `{Float.Libm} `{Unordered} {N : Type}.

(** [do_extract]: [fun_] sees each chosen token with its port; the consumed
    tokens are returned, last one first. *)
Fixpoint extract_loop {S} (n : net_type N) (tid : transition_id_type)
    (fun_ : port_id_type → value_type → M S exn unit)
    (l : list (place_id_type * (token_id_type * bool)))
    (tokens_to_be_deleted : list token_ref) : M S exn (list token_ref) :=
  match l with
  | [] => mret tokens_to_be_deleted
  | (pid, (token_id, is_read_connection)) :: l =>
      ports ← lift (or_throw out_of_range (net.place_to_port n !! tid));
      port ← lift (or_throw out_of_range (ports !! pid));
      tokens ← lift (or_throw out_of_range (net.token_by_place_id n !! pid));
      token ← lift (or_throw out_of_range (tokens !! token_id));
      fun_ port.1 token ≫= λ _,
      extract_loop n tid fun_ l
        (if (is_read_connection : bool) then tokens_to_be_deleted
         else (pid, token_id) :: tokens_to_be_deleted)
  end.

Definition do_extract {S} (n : net_type N) (tid : transition_id_type)
    (fun_ : port_id_type → value_type → M S exn unit) : M S exn (list token_ref) :=
  choice ← lift (or_throw out_of_range (net.enabled_choice n !! tid));
  extract_loop n tid fun_ (unordered_list choice) [].

(** [do_delete] *)
Definition erase (r : token_ref) : M (net_type N) exn unit :=
  get ≫= λ n : net_type N,
  tokens ← net_ops.at_ r.1 (net.token_by_place_id n);
  modify (net.set_token_by_place_id (<[r.1 := delete r.2 tokens]>)).

Definition revise (deleted_tokens : gset token_id_type) (tid : transition_id_type) :
    M (net_type N) exn unit :=
  get ≫= λ n : net_type N,
  t ← net_ops.at_ tid (net.tmap n);
  if net_ops.is_enabled n tid t then
    choices ← net_ops.at_ tid (net.enabled_choice n);
    if existsb (λ c, bool_decide (c.2.1 ∈ deleted_tokens)) (unordered_list choices)
    then net_ops.update_enabled tid else mret tt
  else mret tt.

Definition do_delete (tokens_to_be_deleted : list token_ref) : M (net_type N) exn unit :=
  for_each erase tokens_to_be_deleted ≫= λ _,
  let deleted_tokens := list_to_set tokens_to_be_deleted.*2 in
  for_each (λ r,
    get ≫= λ n : net_type N,
    for_each (revise deleted_tokens)
      (net_ops.transitions_of (net.adj_pt_consume n) r.1 ++
       net_ops.transitions_of (net.adj_pt_read n) r.1)) tokens_to_be_deleted.

(** [context_bind] *)
Definition context_bind (t : transition_t N) (port_id : port_id_type) (value : value_type) :
    M context.type exn unit :=
  p ← lift (or_throw out_of_range (transition.ports_input t !! port_id));
  modify (context.bind_ref (port.name p) value).
End take.

Section fire.
Context `{Float.Libm} `{Unordered}.

(** [extract_activity]: nothing is deleted unless all inputs are added *)
Definition extract_activity (tid : transition_id_type) (t : transition_t workflow) :
    M (net_type workflow) exn activity_t :=
  λ n,
    let '(r, act) := do_extract n tid activity.add_input (activity.make t (Some tid)) in
    match r with
    | Throw e => (Throw e, n)
    | Ret tokens => (do_delete tokens ≫= λ _, mret act) n
    end.
End fire.

(** What the caller of the net provides: the callbacks, the loaded plugins and
    the random engine. *)
Record environment (P W : Type) : Type := {
  library : plugin.library P W;
  random_index : nat → W → nat * W;
  workflow_response : value_type → value_type → M W exn unit;
  eureka_response : gset string → M W exn unit
}.
Arguments library {P W}.
Arguments random_index {P W}.
Arguments workflow_response {P W}.
Arguments eureka_response {P W}.

(** [boost::get<T>] *)
Definition get_string (v : value_type) : outcome exn string :=
  match v with Vstring s => Ret s | _ => Throw bad_get end.
Definition get_ulong (v : value_type) : outcome exn Z :=
  match v with Vulong z => Ret z | _ => Throw bad_get end.
Definition get_list (v : value_type) : outcome exn (list value_type) :=
  match v with Vlist l => Ret l | _ => Throw bad_get end.
Definition get_set (v : value_type) : outcome exn (list value_type) :=
  match v with Vset l => Ret l | _ => Throw bad_get end.

(** [unwrap<eureka_id_type>] *)
Fixpoint unwrap (l : list value_type) : outcome exn (gset string) :=
  match l with
  | [] => Ret ∅
  | v :: l => s ← get_string v; ids ← unwrap l; Ret ({[s]} ∪ ids)
  end.

(** [nest_exceptions<std::runtime_error>] *)
Definition nest_exceptions {S A} (what : string) (m : M S exn A) : M S exn A :=
  λ s, match m s with
       | (Throw _, s) => (Throw (runtime_error what), s)
       | r => r
       end.

Section fire_expression.
Context `{Float.Libm} `{Unordered} {P W : Type} (env : environment P W).

Abbreviation state := (net_type workflow * (plugin.Plugins P * W))%type.
Abbreviation F A := (M state exn A).

Definition on_net {A} (m : M (net_type workflow) exn A) : F A :=
  λ '(n, s), let '(r, n) := m n in (r, (n, s)).
Definition on_plugins {A} (m : M (plugin.Plugins P * W) exn A) : F A :=
  λ '(n, s), let '(r, s) := m s in (r, (n, s)).
Definition on_world {A} (m : M W exn A) : F A :=
  λ '(n, (ps, w)), let '(r, w) := m w in (r, (n, (ps, w))).

(** [call_before_eval], [call_after_eval]: an expression for the list of
    plugins to call *)
Definition call_plugins (key : string) (call : Z → context.type → M _ exn unit)
    (plugin_commands : value_type) (c : context.type) : F context.type :=
  match Path.peek [key] plugin_commands with
  | None => mret c
  | Some v =>
      s ← lift (get_string v);
      e ← lift (parser.make s);
      let '(r, c) := eval.eval_all e c in
      pids ← lift (r ≫= get_list);
      for_each (λ pid, id ← lift (get_ulong pid); on_plugins (call id c)) pids ≫= λ _,
      mret c
  end.

Definition destroy_plugin (plugin_commands : value_type) (c : context.type) : F unit :=
  match Path.peek ["destroy"] plugin_commands with
  | None => mret tt
  | Some _ =>
      id ← lift (context.value ["plugin_id"] c ≫= get_ulong);
      on_plugins (plugin.destroy (library env) id)
  end.

Definition create_plugin (plugin_commands : value_type) (c : context.type) : F context.type :=
  match Path.peek ["create"] plugin_commands with
  | None => mret c
  | Some _ =>
      path ← lift (context.value ["plugin_path"] c ≫= get_string);
      id ← on_plugins (plugin.create (library env) path c);
      mret (context.bind_and_discard_ref ["plugin_id"] (Vulong id) c).2
  end.

(** The whole evaluation of a transition's expression. *)
Definition evaluate (t : transition_t workflow) (c : context.type) : F context.type :=
  let plugin_commands := Path.peek ["gspc"; "we"; "plugin"] (transition.prop t) in
  c ← match plugin_commands with
      | None => mret c
      | Some commands =>
          c ← call_plugins "call_before_eval" (plugin.before_eval (library env)) commands c;
          destroy_plugin commands c ≫= λ _, mret c
      end;
  e ← lift (or_throw bad_get (transition.get_expression t));
  let '(r, c) := eval.eval_all e c in
  lift r ≫= λ _,
  match plugin_commands with
  | None => mret c
  | Some commands =>
      c ← create_plugin commands c;
      call_plugins "call_after_eval" (plugin.after_eval (library env)) commands c
  end.

(** [m.count (tid) && m.at (tid).count (port)] *)
Definition connection {V} (m : gmap transition_id_type (gmap port_id_type V))
    (tid : transition_id_type) (port_id : port_id_type) : option V :=
  m !! tid ≫= (.!! port_id).

Fixpoint put_many (pid : place_id_type) (tokens : list value_type) : F (list token_ref) :=
  match tokens with
  | [] => mret []
  | v :: tokens =>
      r ← on_net (net_ops.do_put_value pid v);
      rs ← put_many pid tokens;
      mret (r :: rs)
  end.

Definition send_eureka (ids : gset string) : F unit :=
  if decide (ids = ∅) then mret tt
  else nest_exceptions "inject result: sending eureka response failed"
         (on_world (eureka_response env ids)).

(** The body of the loop over the output ports. *)
Definition emit (tid : transition_id_type) (c : context.type) (p : port_id_type * port.port_t) :
    F (list token_ref) :=
  get ≫= λ s : state,
  let n := net.str s.1 in
  match connection (net.port_to_place n) tid p.1 with
  | Some (pid, _) =>
      v ← lift (context.value [port.name p.2] c);
      put_many pid [v]
  | None =>
  match connection (net.port_many_to_place n) tid p.1 with
  | Some (pid, _) =>
      tokens ← lift (context.value [port.name p.2] c ≫= get_list);
      put_many pid tokens
  | None =>
  if bool_decide (net.port_to_eureka n !! tid = Some p.1) then
    ids ← lift ((context.value [port.name p.2] c ≫= get_set) ≫= unwrap);
    send_eureka ids ≫= λ _, mret []
  else
    nest_exceptions "fire_expression: sending workflow response failed"
      (to ← lift (or_throw out_of_range (connection (net.port_to_response n) tid p.1));
       description ← lift (context.value [to.1] c);
       v ← lift (context.value [port.name p.2] c);
       on_world (workflow_response env description v)) ≫= λ _, mret []
  end
  end.

Fixpoint emit_all (tid : transition_id_type) (c : context.type)
    (ports : list (port_id_type * port.port_t)) : F (list token_ref) :=
  match ports with
  | [] => mret []
  | p :: ports =>
      r ← emit tid c p;
      rs ← emit_all tid c ports;
      mret (r ++ rs)
  end.

Definition fire_expression (tid : transition_id_type) (t : transition_t workflow) : F unit :=
  get ≫= λ s : state,
  let '(r, c) := do_extract s.1 tid (context_bind t) context.empty in
  tokens_to_be_deleted ← lift r;
  c ← evaluate t c;
  pending_updates ← emit_all tid c (unordered_list (transition.ports_output t));
  on_net (do_delete tokens_to_be_deleted) ≫= λ _,
  on_net (for_each net_ops.do_update pending_updates).

(** [_enabled.begin ()]: the map is ordered by [std::greater] *)
Definition highest (e : gmap priority_type (gset transition_id_type)) :
    option (priority_type * gset transition_id_type) :=
  let keys := (map_to_list e).*1 in
  match keys with
  | [] => None
  | k :: ks => let p := foldr Z.max k ks in pair p <$> (e !! p)
  end.

(** One iteration of the loop of
    [fire_expressions_and_extract_activity_random]: [None] to go on. *)
Definition fire_step (tids : gset transition_id_type) : F (option activity_t) :=
  i ← on_world (λ w, let '(i, w) := random_index env (size tids) w in (Ret i, w));
  tid ← lift (or_throw (undefined "dereference of end") (unordered_elements tids !! i));
  get ≫= λ s : state,
  t ← lift (or_throw out_of_range (net.tmap (net.str s.1) !! tid));
  match transition.get_expression t with
  | Some _ => fire_expression tid t ≫= λ _, mret None
  | None => act ← on_net (extract_activity tid t); mret (Some act)
  end.

(** The loop does not end for nets that fire expressions forever; [fuel]
    bounds the number of iterations, [None] means the bound was reached. *)
Fixpoint fire_expressions_and_extract_activity_random (fuel : nat) (s : state) :
    option (outcome exn (option activity_t) * state) :=
  match fuel with
  | O => None
  | S fuel =>
      match highest (net.enabled s.1) with
      | None => Some (Ret None, s)
      | Some (_, tids) =>
          match fire_step tids s with
          | (Ret None, s) => fire_expressions_and_extract_activity_random fuel s
          | (Ret (Some act), s) => Some (Ret (Some act), s)
          | (Throw e, s) => Some (Throw e, s)
          end
      end
  end.

(** [inject]: the results of an activity go to the places, or to whom asked *)
Definition put_values (pid : place_id_type) (tokens : list value_type) : F unit :=
  for_each (λ v, on_net (net_ops.put_value pid v)) tokens.

Definition inject_token (tid : transition_id_type) (input : list token_on_port)
    (token_on_port : token_on_port) : F unit :=
  get ≫= λ s : state,
  let n := net.str s.1 in
  let '(token, port_id) := token_on_port in
  match connection (net.port_to_place n) tid port_id with
  | Some (pid, _) => put_values pid [token]
  | None =>
  match connection (net.port_many_to_place n) tid port_id with
  | Some (pid, _) =>
      tokens ← lift (get_list token);
      put_values pid tokens
  | None =>
  if bool_decide (net.port_to_eureka n !! tid = Some port_id) then
    ids ← lift (get_set token ≫= unwrap);
    send_eureka ids
  else
    nest_exceptions "inject result: sending workflow response failed"
      (to ← lift (or_throw out_of_range (connection (net.port_to_response n) tid port_id));
       t ← lift (or_throw out_of_range (net.tmap n !! tid));
       input_port_id ← lift (transition.input_port_by_name t to.1);
       description ← lift (or_throw (undefined "dereference of end")
         (fst <$> find (λ i, bool_decide (i.2 = input_port_id)) input));
       on_world (workflow_response env description token))
  end
  end.

Definition inject (tid : transition_id_type) (output input : list token_on_port) : F unit :=
  for_each (inject_token tid input) output.
End fire_expression.

End fire.

(** ** The operations of [activity_t] *)
Module activity_ops.

Section ops.
Context `{Float.Libm} `{Unordered}.

Definition add_input_by_name (port_name : string) (value : value_type) :
    M activity_t exn unit :=
  get ≫= λ a : activity_t,
  port_id ← lift (transition.input_port_by_name (activity.transition a) port_name);
  activity.add_input port_id value.

Definition handle_by_workflow_engine (a : activity_t) : bool :=
  bool_decide (is_Some (transition.get_net (activity.transition a))).

Definition set_wait_for_output : M activity_t exn unit :=
  modify (λ a, activity.set_transition
    (transition.set_property ["drts"; "wait_for_output"] (Vbool true) (activity.transition a)) a).

Definition put_token (place_name : string) (token : value_type) : M activity_t exn unit :=
  activity.with_net (net_ops.put_token place_name token).

(** [output ()]: for a net the tokens on the places of the output ports *)
Fixpoint net_output (n : net_type workflow) (ports : list (port_id_type * port.port_t)) :
    outcome exn (list token_on_port) :=
  match ports with
  | [] => Ret []
  | (port_id, p) :: ports =>
      pid ← or_throw (undefined "dereference of none") (port.associated_place p);
      rest ← net_output n ports;
      Ret (((λ token, (token.2, port_id)) <$> unordered_list (net_ops.get_token n pid)) ++ rest)
  end.

Definition output (a : activity_t) : outcome exn (list token_on_port) :=
  match activity.get_net a with
  | Some n => net_output n (unordered_list (transition.ports_output (activity.transition a)))
  | None => Ret (activity.output_ a)
  end.

(** [result ()] *)
Fixpoint named (ports : gmap port_id_type port.port_t) (l : list token_on_port) :
    outcome exn (list (string * value_type)) :=
  match l with
  | [] => Ret []
  | (v, port_id) :: l =>
      p ← or_throw out_of_range (ports !! port_id);
      rest ← named ports l;
      Ret ((port.name p, v) :: rest)
  end.
Definition result (a : activity_t) : outcome exn (list (string * value_type)) :=
  out ← output a;
  named (transition.ports_output (activity.transition a)) out.

Definition add_output (port_id : port_id_type) (value : value_type) : M activity_t exn unit :=
  modify (λ a, activity.mk (activity.transition a) (activity.transition_id a) (activity.input a)
                 (activity.output_ a ++ [(value, port_id)])
                 (activity.evaluation_context_requested a)).

Definition add_output_context (c : context.type) : M activity_t exn unit :=
  get ≫= λ a : activity_t,
  if handle_by_workflow_engine a then throw (logic_error "add_output for subnetwork")
  else
    for_each (λ p : port_id_type * port.port_t,
      v ← lift (context.value [port.name p.2] c);
      add_output p.1 v) (unordered_list (transition.ports_output (activity.transition a))).

(** [property::type::is_true] *)
Definition is_true (path : list string) (prop : property_type) : outcome exn bool :=
  match Path.peek path prop with
  | None => Ret false
  | Some v => eval.get_bool v
  end.

Definition wait_for_output (a : activity_t) : outcome exn bool :=
  b ← is_true ["drts"; "wait_for_output"] (transition.prop (activity.transition a));
  if negb b then Ret false
  else
    out ← output a;
    let ports := transition.ports_output (activity.transition a) in
    if bool_decide (length out < size ports) then Ret true
    else Ret (negb (bool_decide (size (list_to_set out.*2 : gset port_id_type) = size ports))).

Definition evaluation_context : M activity_t exn context.type :=
  get ≫= λ a : activity_t,
  if handle_by_workflow_engine a then
    throw (logic_error "evaluation context for net is undefined")
  else
    modify (λ a, activity.mk (activity.transition a) (activity.transition_id a)
                   (activity.input a) (activity.output_ a) true) ≫= λ _,
    lift (foldl (λ c i, c ≫= λ c,
            p ← or_throw out_of_range (transition.ports_input (activity.transition a) !! i.2);
            Ret (context.bind_ref (port.name p) i.1 c))
          (Ret context.empty) (activity.input a)).
End ops.

End activity_ops.
