(* ===== verification/ModuleRun.v ===== *)
(** * Module calls: buffers, transfers and execution

    [we/loader/module_call.cpp], [we/loader/loader.cpp], [we/loader/Module.cpp] and
    [activity_t::execute] ([we/type/activity.cpp]): the buffers of a call are placed in the
    shared memory of the worker, the call is surrounded by transfers, and its exceptions are
    wrapped.

    Shared libraries are arguments: what opening one gives, what closing it leaves, and the
    functions that it registers.  What is transferred is recorded. *)

From S2P Require Import Prelude Value Token Function Position ReadShow Tokenizer Expr Parser ModuleCall Net NetFire.

Module module_run.
Import module_call.
Local Open Scope Z_scope.

(** ** Exceptions

    The two exceptions about libraries that stay loaded and the cancellation, which callers
    tell apart, and exceptions with another exception nested in them, if there was one. *)
Inductive thrown : Type :=
| Std (e : exn)
| Other
| Cancelled
| Module_does_not_unload (message : string)
| Function_does_not_unload (message : string)
| Nested (what : string) (inner : option thrown).

(** *** [print_exception]

    nothing if it ends the program, which [std::rethrow_if_nested] does when no exception is
    nested *)
Definition newline : string := String (ascii_of_nat 10) "".
Definition spaces (n : nat) : string := String.concat "" (replicate n " ").
Definition prefix (separator : option string) (indentation : option nat) (is_first : bool) : string :=
  (if is_first then "" else default newline separator) +:+ spaces (default 0%nat indentation).
Fixpoint print_exception (what : exn → string) (separator : option string) (indentation : option nat) (is_first : bool)
    (t : thrown) : option string :=
  let before := prefix separator indentation is_first in
  match t with
  | Std e => Some (before +:+ what e)
  | Other => Some (before +:+ "unknown exception type")
  | Cancelled => Some (before +:+ "std::exception")
  | Module_does_not_unload m | Function_does_not_unload m => Some (before +:+ m)
  | Nested w None => None
  | Nested w (Some t) => (λ s, before +:+ w +:+ s) <$> print_exception what separator (S <$> indentation) false t
  end.
(** [current_exception_printer()] and [current_exception_printer (": ")] *)
Definition printed_lines (what : exn → string) : thrown → option string := print_exception what None (Some 0%nat) true.
Definition printed (what : exn → string) : thrown → option string := print_exception what (Some ": ") None true.

(** *** What was left over, in the order of paths *)
Section left_overs.
Context (path_lt : string → string → bool).
Fixpoint insert_path (x : string) (l : list string) : list string :=
  match l with
  | [] => [x]
  | y :: l' => if path_lt y x then y :: insert_path x l' else x :: l
  end.
Definition sort_paths (l : list string) : list string := foldr insert_path [] l.
Fixpoint set_difference (l : list string) : list string → list string :=
  fix go r :=
    match l, r with
    | [], _ => []
    | _, [] => l
    | x :: l', y :: r' =>
        if path_lt x y then x :: set_difference l' r
        else if path_lt y x then go r'
        else set_difference l' r'
    end.
Definition left_overs (lhs rhs : list string) : list string := set_difference (sort_paths lhs) (sort_paths rhs).
End left_overs.

(** ** Memory *)
Record buffer : Type := mk_buffer { position : Z; b_size : Z }.
Inductive direction : Type := Get | Put.
(** a call of [memcpy_and_wait] between global and shared memory; [source] is the local
    range it is made for *)
Record copy : Type := mk_copy {
  way : direction;
  global_memory_handle : Z;
  global_memory_offset : Z;
  copy_size : Z;
  shared_memory_offset : Z;
  source : range
}.

(** [_align]: the pointer and the space that is left, if there is enough *)
Definition align (alignment size ptr space : Z) : option (Z * Z) :=
  if size <=? space then
    let p := Z.land (w64 (- alignment)) (w64 (w64 (ptr + alignment) - 1)) in
    let d := w64 (p - ptr) in
    let n := w64 (space - d) in
    if (d <=? space) && (size <=? n) then Some (p, n) else None
  else None.

Section run.
Context `{Float.Libm} `{Unordered} (local_first : bool) (what : exn → string).

(** the loop over the buffers; [local_memory] is the address of the shared memory *)
Fixpoint place_buffers (shared_memory_size local_memory : Z) (input : context.type)
    (buffers : list (string * memory_buffer_info_t)) (buffer_ptr space : Z) : outcome exn (list (string * buffer)) :=
  match buffers with
  | [] => Ret []
  | (name, info) :: buffers =>
      size ← buffer_size info input;
      alignment ← buffer_alignment info input;
      match align alignment size buffer_ptr space with
      | None =>
          Throw (runtime_error ("Not enough local memory: " +:+ show.integer (w64 (buffer_ptr - local_memory + size + alignment)) +:+
            " > " +:+ show.integer shared_memory_size +:+ ". Please take into account also the buffer alignments " +:+
            "when allocating local shared memory!"))
      | Some (buffer_ptr, space) =>
          rest ← place_buffers shared_memory_size local_memory input buffers (w64 (buffer_ptr + size)) (w64 (space - size));
          Ret ((name, mk_buffer (w64 (buffer_ptr - local_memory)) size) :: rest)
      end
  end.
Definition find_buffer (name : string) (memory_buffer : list (string * buffer)) : option buffer :=
  (λ x, x.2.2) <$> list_find (λ x, x.1 = name) memory_buffer.

(** *** [std::stoul (name, nullptr, 16)] *)
Definition hex_digit (c : ascii) : option Z :=
  let n := Z.of_N (N_of_ascii c) in
  if (48 <=? n) && (n <=? 57) then Some (n - 48)
  else if (97 <=? n) && (n <=? 102) then Some (n - 87)
  else if (65 <=? n) && (n <=? 70) then Some (n - 55)
  else None.
Fixpoint hex_digits (s : string) : list Z :=
  match s with
  | String c s => match hex_digit c with Some d => d :: hex_digits s | None => [] end
  | "" => []
  end.
Definition without_prefix (s : string) : string :=
  match s with
  | String "0" (String x (String d s')) =>
      if (bool_decide (x = "x"%char) || bool_decide (x = "X"%char)) && bool_decide (is_Some (hex_digit d)) then String d s' else s
  | _ => s
  end.
Fixpoint skip_space (s : string) : string :=
  match s with
  | String c s' => if char.isspace c then skip_space s' else s
  | "" => ""
  end.
Definition stoul16 (s : string) : outcome exn Z :=
  let s := skip_space s in
  let '(negative, s) :=
    match s with
    | String "-" s => (true, s)
    | String "+" s => (false, s)
    | s => (false, s)
    end in
  match hex_digits (without_prefix s) with
  | [] => Throw (invalid_argument "stoul")
  | ds =>
      let n := foldl (λ n d, 16 * n + d) 0 ds in
      if n <? two64 then Ret (if negative : bool then w64 (- n) else n) else Throw out_of_range
  end.

(** *** State: the loaded libraries, the table of the loader, and what has been copied *)
Definition wrapper : Type := context.type → gmap string Z → list string → outcome thrown context.type * list string.
(** [Module] *)
Record module_ : Type := mk_module { path_ : string; call_table_ : gmap string wrapper }.
Record world : Type := mk_world {
  libraries : list string;
  module_table : gmap string module_;
  copies : list copy;
  calls : list (string * string * nat)
}.
Abbreviation R := (M world thrown).
Definition std {X} (o : outcome exn X) : R X :=
  lift match o with Ret x => Ret x | Throw e => Throw (Std e) end.

(** [transfer] *)
Definition transfer (way : direction) (memory_buffer : list (string * buffer)) (x : range * range) : R unit :=
  let '(local, global) := x in
  match find_buffer (name local) memory_buffer with
  | None => throw (Std (runtime_error ("unknown memory buffer " +:+ name local)))
  | Some b =>
      if b_size b <? w64 (offset (where_ local) + size (where_ local)) then throw (Std (runtime_error "local range to large"))
      else
        handle ← std (stoul16 (name global));
        modify (λ w, mk_world (libraries w) (module_table w)
          (copies w ++ [mk_copy way handle (offset (where_ global)) (size (where_ local)) (w64 (position b + offset (where_ local))) local])
          (calls w))
  end.
Definition transfer_all (way : direction) (memory_buffer : list (string * buffer)) (l : list (range * range)) : R unit :=
  for_each (transfer way memory_buffer) l.

(** *** The loader

    How paths are shown and compared is an argument. *)
Context (show_path : string → string) (path_lt : string → string → bool).
Context (search_path : list string) (exists_ : string → bool).
(** opening a library, closing it again, and what [we_mod_initialize] of it does: the
    functions it adds, and how it ends *)
Context (dlopen : string → list string → outcome thrown unit * list string)
        (dlclose : string → list string → list string)
        (we_mod_initialize : string → list string → list (string * wrapper) * outcome thrown unit * list string).

Definition print_paths (l : list string) : string := "{" +:+ String.concat ", " (show_path <$> l) +:+ "}".
Definition module_load_failed (file reason : string) : exn :=
  runtime_error ("could not load module '" +:+ show_path file +:+ "': " +:+ reason).
Definition module_not_found (file search_path : string) : exn :=
  runtime_error ("module '" +:+ show_path file +:+ "' not found in '" +:+ search_path +:+ "'").
Definition function_not_found (module name : string) : exn :=
  runtime_error ("function " +:+ show_path module +:+ "::" +:+ name +:+ " not found").
Definition duplicate_function (module name : string) : exn :=
  runtime_error ("duplicate function " +:+ show_path module +:+ "::" +:+ name).
Definition module_does_not_unload (module : string) (before after : list string) : thrown :=
  Module_does_not_unload ("module '" +:+ show_path module +:+ "' does not properly unload on dlclose, leaking " +:+
    print_paths (left_overs path_lt after before) +:+ " loaded in the process").
Definition function_does_not_unload (module name : string) (before after : list string) : thrown :=
  Function_does_not_unload ("function " +:+ module +:+ "::" +:+ name +:+
    " dynamically opened libraries but did not properly unload, leaking " +:+
    print_paths (left_overs path_lt after before) +:+ " loaded in the process").

Definition set_libraries (f : list string → list string) (w : world) : world :=
  mk_world (f (libraries w)) (module_table w) (copies w) (calls w).
Definition open_library (path : string) : R unit :=
  w ← get;
  let '(o, libs) := dlopen path (libraries w) in
  modify (set_libraries (λ _, libs)) ≫= λ _, lift o.
Definition close_library (path : string) : R unit := modify (set_libraries (dlclose path)).
(** [catch (...) { throw module_load_failed (path, current_exception_printer().string()); }] *)
Definition load_failed {X} (path : string) (m : R X) : R X :=
  λ w, match m w with
       | (Throw e, w) =>
           (Throw (Std match printed_lines what e with
                       | Some reason => module_load_failed path reason
                       | None => undefined "std::terminate"
                       end), w)
       | r => r
       end.
Fixpoint add_functions (path : string) (fs : list (string * wrapper)) (table : gmap string wrapper) : R (gmap string wrapper) :=
  match fs with
  | [] => mret table
  | (name, f) :: fs =>
      match table !! name with
      | Some _ => throw (Std (duplicate_function path name))
      | None => add_functions path fs (<[name := f]> table)
      end
  end.
(** the library is closed again when the initialization throws *)
Definition initialize (path : string) : R (gmap string wrapper) :=
  λ w,
    let '(fs, o, libs) := we_mod_initialize path (libraries w) in
    match (add_functions path fs ∅ ≫= λ table, lift o ≫= λ _, mret table) (set_libraries (λ _, libs) w) with
    | (Throw e, w) => (Throw e, set_libraries (dlclose path) w)
    | r => r
    end.
Definition open_module (path : string) : R module_ :=
  load_failed path (open_library path ≫= λ _, table ← initialize path; mret (mk_module path table)).
Definition ensure_unloads_without_rest_and_load (path : string) : R unit :=
  before ← get;
  open_library path ≫= λ _,
  close_library path ≫= λ _,
  after ← get;
  if decide (libraries before = libraries after) then mret tt
  else throw (module_does_not_unload path (libraries before) (libraries after)).
Definition make_module (require_module_unloads_without_rest : bool) (path : string) : R module_ :=
  if require_module_unloads_without_rest then
    load_failed path (ensure_unloads_without_rest_and_load path ≫= λ _, open_module path)
  else open_module path.
Definition get_module (require_module_unloads_without_rest : bool) (module : string) : R module_ :=
  w ← get;
  match module_table w !! module with
  | Some m => mret m
  | None =>
      let file_name := "lib" +:+ module +:+ ".so" in
      match list_find (λ p, exists_ (p +:+ "/" +:+ file_name) = true) search_path with
      | None => throw (Std (module_not_found file_name (String.concat ":" (show_path <$> search_path))))
      | Some (_, p) =>
          m ← make_module require_module_unloads_without_rest (p +:+ "/" +:+ file_name);
          modify (λ w, mk_world (libraries w) (<[module := m]> (module_table w)) (copies w) (calls w)) ≫= λ _,
          mret m
      end
  end.

(** *** [loader::module_call] *)
(** the shared memory of the worker: its size and address *)
Context (virtual_memory_api : bool) (shared_memory : option (Z * Z)) (worker_name : string).

Definition unable (m : module_call_t) (why : string) : exn :=
  logic_error ("module call '" +:+ module m +:+ "::" +:+ function m +:+ "' with " +:+
    show.integer (Z.of_nat (length (memory_buffers m))) +:+ " memory transfers scheduled to worker '" +:+ worker_name +:+
    "' that is unable to manage memory: " +:+ why).
Definition buffers_of (m : module_call_t) (input : context.type) : outcome exn (list (string * buffer) * gmap string Z) :=
  match memory_buffers m with
  | [] => Ret ([], ∅)
  | _ =>
      if negb virtual_memory_api then Throw (unable m "no handler for the virtual memory was provided.")
      else match shared_memory with
           | None => Throw (unable m "no local shared memory was allocated.")
           | Some (shared_memory_size, local_memory) =>
               total_size_required ← memory_buffer_size_total m input;
               if shared_memory_size <? total_size_required then
                 Throw (runtime_error ("not enough local memory allocated: " +:+ show.integer total_size_required +:+
                   " bytes required, only " +:+ show.integer shared_memory_size +:+ " bytes allocated"))
               else
                 buffers ← place_buffers shared_memory_size local_memory input (memory_buffers m) local_memory shared_memory_size;
                 Ret (buffers, list_to_map ((λ x : string * buffer, (x.1, w64 (local_memory + position x.2))) <$> buffers))
           end
  end.
(** [Module::call] and what surrounds it *)
Definition call_function (m : module_call_t) (loaded : module_) (input : context.type) (pointers : gmap string Z) :
    R context.type :=
  w ← get;
  match call_table_ loaded !! function m with
  | None => throw (Std (function_not_found (path_ loaded) (function m)))
  | Some f =>
      modify (λ w, mk_world (libraries w) (module_table w) (copies w) (calls w ++ [(module m, function m, length (copies w))])) ≫= λ _,
      let '(o, libs) := f input pointers (libraries w) in
      modify (set_libraries (λ _, libs)) ≫= λ _,
      out ← lift o;
      if require_function_unloads_without_rest m && negb (bool_decide (libraries w = libs)) then
        throw (function_does_not_unload (module m) (function m) (libraries w) libs)
      else mret out
  end.
Definition module_call (m : module_call_t) (input : context.type) : R context.type :=
  '(memory_buffer, pointers) ← std (buffers_of m input);
  get_list ← std (gets local_first m input);
  transfer_all Get memory_buffer get_list ≫= λ _,
  puts_before ← std (puts_evaluated_before_call local_first m input);
  loaded ← get_module (require_module_unloads_without_rest m) (module m);
  out ← call_function m loaded input pointers;
  transfer_all Put memory_buffer puts_before ≫= λ _,
  puts_after ← std (puts_evaluated_after_call local_first m out);
  transfer_all Put memory_buffer puts_after ≫= λ _,
  mret out.

(** *** [wfe_exec_context] and [activity_t::execute] *)
Definition execute_call (m : module_call_t) (input : context.type) : R context.type :=
  λ w, match module_call m input w with
       | (Throw Cancelled, w) => (Throw Cancelled, w)
       | (Throw e, w) => (Throw (Nested ("call to '" +:+ module m +:+ "::" +:+ function m +:+ "' failed") (Some e)), w)
       | r => r
       end.
(** outside of a handler nothing is nested *)
Definition execute_data (target_implementation : option string) (name : string) (d : transition.data_type workflow)
    (input : context.type) : R context.type :=
  match d with
  | transition.net _ => throw (Std (logic_error "wfe_exec_context (net)"))
  | transition.expression _ => throw (Std (logic_error "wfe_exec_context (expression)"))
  | transition.module_call m => execute_call m input
  | transition.multi_module_call ms =>
      match target_implementation with
      | None => throw (Nested ("no target selected for multi-module transition '" +:+ name +:+ "' failed") None)
      | Some target =>
          match list_find (λ x : string * module_call_t, x.1 = target) ms with
          | None => throw (Nested ("no module for target '" +:+ target +:+ "' found found in multi-module transition '" +:+ name) None)
          | Some (_, x) => execute_call x.2 input
          end
      end
  end.
Definition on_activity {X} (m : M activity_t exn X) : M (activity_t * world) thrown X :=
  λ s, let '(o, a) := m s.1 in (match o with Ret x => Ret x | Throw e => Throw (Std e) end, (a, s.2)).
Definition on_world {X} (m : R X) : M (activity_t * world) thrown X :=
  λ s, let '(o, w) := m s.2 in (o, (s.1, w)).
Definition execute (target_implementation : option string) : M (activity_t * world) thrown unit :=
  input ← on_activity activity_ops.evaluation_context;
  s ← get;
  let t := activity.transition s.1 in
  out ← on_world (execute_data target_implementation (transition.name t) (transition.data t) input);
  on_activity (activity_ops.add_output_context out).
End run.
End module_run.
