(* ===== verification/ModuleRunSpec.v ===== *)
(** * The memory of module calls

    Buffers lie in the shared memory of the worker, aligned and apart from each other, and
    transfers stay inside of their buffers. *)

From S2P Require Import Prelude Value Token Function Position ReadShow Tokenizer Expr Parser ModuleCall Net NetFire ModuleRun.

Import module_call module_run.

Module CallSpec.
Local Open Scope Z_scope.

(** ** Alignment *)
Lemma power_of_2 n : is_w64 n → is_power_of_2 n = true → ∃ k, 0 ≤ k < 64 ∧ n = 2 ^ k.
Proof.
  unfold is_w64, is_power_of_2. intros Hn [H0%negb_true_iff%Z.eqb_neq Hl%Z.eqb_eq]%andb_true_iff.
  rewrite w64_small in Hl by (unfold is_w64; lia). set (k := Z.log2 n).
  assert (0 ≤ k) as Hk by apply Z.log2_nonneg.
  destruct (Z.log2_spec n) as [H1 H2]; [lia|]. fold k in H1, H2.
  assert (k < 64). { apply Z.log2_lt_pow2; [lia|]. change (2 ^ 64) with two64. lia. }
  exists k. split; [lia|]. destruct (decide (n = 2 ^ k)) as [|Hne]; [done|]. exfalso.
  assert (Z.testbit n k = true) as B1 by (apply Z.bit_log2; lia).
  assert (Z.log2 (n - 1) = k) as Hk1 by (apply Z.log2_unique; lia).
  assert (Z.testbit (n - 1) k = true) as B2 by (rewrite <- Hk1; apply Z.bit_log2; lia).
  assert (Z.testbit (Z.land n (n - 1)) k = true) as B3 by (by rewrite Z.land_spec, B1, B2).
  rewrite Hl, Z.bits_0 in B3. done.
Qed.
Lemma mask_pow2 k x : 0 ≤ k < 64 → 0 ≤ x < two64 → Z.land (w64 (- 2 ^ k)) x = x - x mod 2 ^ k.
Proof.
  intros Hk Hx. assert (0 < 2 ^ k) by lia. assert (2 ^ k < two64) by (change two64 with (2 ^ 64); apply Z.pow_lt_mono_r; lia).
  assert (w64 (- 2 ^ k) = Z.shiftl (Z.ones (64 - k)) k) as ->.
  { rewrite Z.shiftl_mul_pow2, Z.ones_equiv by lia.
    assert (2 ^ (64 - k) * 2 ^ k = two64) as Hp by (rewrite <- Z.pow_add_r by lia; by replace (64 - k + k) with 64 by lia).
    replace (Z.pred (2 ^ (64 - k)) * 2 ^ k) with (two64 - 2 ^ k) by lia.
    unfold w64. symmetry. apply (Z.mod_unique _ _ (-1)); [left|]; lia. }
  assert (x - x mod 2 ^ k = Z.shiftl (Z.shiftr x k) k) as ->.
  { rewrite Z.shiftl_mul_pow2, Z.shiftr_div_pow2 by lia. pose proof (Z.div_mod x (2 ^ k)). lia. }
  apply Z.bits_inj'. intros n Hn. rewrite Z.land_spec. destruct (Z.lt_ge_cases n k) as [Hnk|Hnk].
  - by rewrite !Z.shiftl_spec_low by lia.
  - rewrite !Z.shiftl_spec, Z.shiftr_spec by lia. replace (n - k + k) with n by lia.
    destruct (Z.lt_ge_cases n 64) as [Hn64|Hn64].
    + rewrite Z.ones_spec_low by lia. done.
    + rewrite Z.ones_spec_high by lia. simpl. symmetry. apply Z.bits_above_log2; [lia|].
      destruct (decide (x = 0)) as [->|]; [simpl; lia|]. apply Z.lt_le_trans with 64; [|lia].
      apply Z.log2_lt_pow2; [lia|]. change (2 ^ 64) with two64. lia.
Qed.
Lemma align_spec alignment size ptr space p n :
  is_w64 alignment → is_power_of_2 alignment = true → 0 ≤ ptr → 0 ≤ space → ptr + space < two64 → 0 ≤ size →
  align alignment size ptr space = Some (p, n) →
  ptr ≤ p ∧ p mod alignment = 0 ∧ n = space - (p - ptr) ∧ size ≤ n.
Proof.
  intros Ha Hp Hptr Hspace Hsum Hsize. destruct (power_of_2 _ Ha Hp) as (k & Hk & ->). unfold align.
  destruct (size <=? space) eqn:Hss; [|done]. apply Z.leb_le in Hss.
  assert (0 < 2 ^ k) by lia. assert (2 ^ k < two64) by (unfold is_w64 in Ha; lia).
  rewrite mask_pow2; [|lia|apply w64_range].
  set (x := w64 (w64 (ptr + 2 ^ k) - 1)). pose proof (w64_range (w64 (ptr + 2 ^ k) - 1)) as Hx. fold x in Hx.
  assert (x = ptr + 2 ^ k - 1 ∨ x = ptr + 2 ^ k - 1 - two64) as Hcases.
  { unfold x, w64. rewrite Zminus_mod_idemp_l. destruct (Z.lt_ge_cases (ptr + 2 ^ k - 1) two64).
    - left. apply Z.mod_small. lia.
    - right. symmetry. apply (Z.mod_unique _ _ 1); [left|]; lia. }
  pose proof (Z.mod_pos_bound x (2 ^ k)) as Hmod. unfold is_w64 in Hx.
  assert (0 ≤ x - x mod 2 ^ k) as Hpos. { pose proof (Z.div_mod x (2 ^ k)). assert (0 ≤ x / 2 ^ k) by (apply Z.div_pos; lia). nia. }
  assert ((x - x mod 2 ^ k) mod 2 ^ k = 0) as Haligned.
  { rewrite Zminus_mod_idemp_r, Z.sub_diag. apply Z.mod_0_l. lia. }
  set (q := x - x mod 2 ^ k) in *. destruct Hcases as [Hc|Hc].
  - rewrite (w64_small (q - ptr)) by (unfold is_w64; lia).
    destruct ((q - ptr <=? space) && _) eqn:Hd; [|done]. apply andb_true_iff in Hd as [Hd1%Z.leb_le Hd2%Z.leb_le].
    rewrite w64_small in Hd2 |- * by (unfold is_w64; lia). intros [= <- <-]. split_and!; [lia|done|lia|lia].
  - assert (w64 (q - ptr) = q - ptr + two64) as ->.
    { unfold w64. symmetry. apply (Z.mod_unique _ _ (-1)); [left|]; lia. }
    destruct ((q - ptr + two64 <=? space) && _) eqn:Hd; [|done]. apply andb_true_iff in Hd as [Hd%Z.leb_le _]. lia.
Qed.

(** ** Buffers

    one after the other from [lo] to [hi] *)
Fixpoint laid_out (lo hi : Z) (bs : list (string * buffer)) : Prop :=
  match bs with
  | [] => lo ≤ hi
  | (_, b) :: bs => lo ≤ position b ∧ 0 ≤ b_size b ∧ laid_out (position b + b_size b) hi bs
  end.
Lemma laid_out_hi lo hi bs : laid_out lo hi bs → lo ≤ hi.
Proof. revert lo. induction bs as [|[x b] bs IH]; intros lo; simpl; [done|]. intros (? & ? & ?%IH). lia. Qed.
Lemma laid_out_inside lo hi bs x b :
  laid_out lo hi bs → (x, b) ∈ bs → lo ≤ position b ∧ 0 ≤ b_size b ∧ position b + b_size b ≤ hi.
Proof.
  revert lo. induction bs as [|[y c] bs IH]; intros lo Hl Hin; [by apply elem_of_nil in Hin|].
  destruct Hl as (H1 & H2 & Hl). apply elem_of_cons in Hin as [[= -> ->]|Hin]; [pose proof (laid_out_hi _ _ _ Hl); lia|].
  destruct (IH _ Hl Hin). lia.
Qed.
(** different buffers do not overlap *)
Lemma laid_out_disjoint lo hi bs i j x y b c :
  laid_out lo hi bs → bs !! i = Some (x, b) → bs !! j = Some (y, c) → (i < j)%nat → position b + b_size b ≤ position c.
Proof.
  revert lo i j. induction bs as [|[z d] bs IH]; intros lo i j Hl Hi Hj Hij; [done|]. destruct Hl as (H1 & H2 & Hl).
  destruct j as [|j]; [lia|]. simpl in Hj. destruct i as [|i]; simpl in Hi; [|by apply (IH _ i j Hl); [..|lia]].
  simplify_eq. apply list_elem_of_lookup_2 in Hj. by destruct (laid_out_inside _ _ _ _ _ Hl Hj).
Qed.

Section buffers.
Context `{Float.Libm}.
Lemma eval_ulong_range e input z : eval_ulong e input = Ret z → is_w64 z.
Proof.
  unfold eval_ulong. intros (v & _ & Hv)%obind_ret_inv. destruct v; try done. injection Hv as <-. apply w64_range.
Qed.
Lemma buffer_alignment_range i input a : buffer_alignment i input = Ret a → is_w64 a ∧ is_power_of_2 a = true.
Proof.
  unfold buffer_alignment. intros (x & Hx & Ha)%obind_ret_inv. destruct (is_power_of_2 x) eqn:Hp; [|done]. injection Ha as <-.
  split; [by eapply eval_ulong_range|done].
Qed.
Definition aligned (local_memory : Z) (input : context.type) (x : string * memory_buffer_info_t) (y : string * buffer) : Prop :=
  y.1 = x.1 ∧ buffer_size x.2 input = Ret (b_size y.2) ∧
  ∃ a, buffer_alignment x.2 input = Ret a ∧ (local_memory + position y.2) mod a = 0.
Lemma place_buffers_spec ssize base input infos ptr space bs :
  0 ≤ base → base ≤ ptr → 0 ≤ space → ptr + space = base + ssize → base + ssize < two64 →
  place_buffers ssize base input infos ptr space = Ret bs →
  laid_out (ptr - base) ssize bs ∧ Forall2 (aligned base input) infos bs.
Proof.
  intros Hbase. revert ptr space bs. induction infos as [|[x info] infos IH]; intros ptr space bs Hptr Hspace Hsum Htop; simpl.
  { intros [= <-]. simpl. split; [lia|constructor]. }
  intros (size & Hsize & Hr)%obind_ret_inv. apply obind_ret_inv in Hr as (a & Ha & Hr).
  pose proof (eval_ulong_range _ _ _ Hsize) as Hs64. destruct (buffer_alignment_range _ _ _ Ha) as [Ha64 Hpow].
  unfold is_w64 in Hs64. destruct (align a size ptr space) as [[p n]|] eqn:Hal; [|done].
  destruct (align_spec a size ptr space p n) as (H1 & H2 & H3 & H4); [done|done|lia|lia|lia|lia|done|].
  apply obind_ret_inv in Hr as (rest & Hrest & Hr). injection Hr as <-.
  rewrite (w64_small (p + size)), (w64_small (n - size)) in Hrest by (unfold is_w64; lia).
  destruct (IH (p + size) (n - size) rest) as [Hl Hf]; [lia|lia|lia|lia|done|].
  rewrite (w64_small (p - base)) by (unfold is_w64; lia). simpl. split.
  - replace (p - base + size) with (p + size - base) by lia. split_and!; [lia|lia|done].
  - constructor; [|done]. split_and!; [done|done|]. exists a. split; [done|]. simpl. by replace (base + (p - base)) with p by lia.
Qed.
End buffers.

(** ** Transfers *)
Section transfers.
Context `{Float.Libm} `{Unordered} (local_first : bool) (what : exn → string).

Lemma ulong_range v z : ulong v = Some z → is_w64 z.
Proof. destruct v; try done. intros [= <-]. apply w64_range. Qed.
Lemma field_as_ulong f v s z : field_as ulong f v s = Ret z → is_w64 z.
Proof.
  unfold field_as. intros (x & _ & Hx)%obind_ret_inv. unfold or_throw in Hx.
  destruct (ulong x) as [y|] eqn:Hu; [|done]. injection Hx as <-. by eapply ulong_range.
Qed.
Lemma interval_valid v i : interval_of v = Ret i → is_w64 (offset i) ∧ is_w64 (size i).
Proof.
  unfold interval_of. intros (o & Ho & Hi)%obind_ret_inv. apply obind_ret_inv in Hi as (s & Hs & [= <-]).
  split; simpl; by eapply field_as_ulong.
Qed.
Lemma local_range_valid v r : local_range v = Ret r → valid r.
Proof.
  unfold local_range. intros (i & Hi%interval_valid & Hr)%obind_ret_inv. by apply obind_ret_inv in Hr as (b & _ & [= <-]).
Qed.
Lemma global_range_valid v r : global_range v = Ret r → valid r.
Proof.
  unfold global_range. intros (i & Hi%interval_valid & Hr)%obind_ret_inv. apply obind_ret_inv in Hr as (h & _ & Hr).
  by apply obind_ret_inv in Hr as (b & _ & [= <-]).
Qed.
Lemma ranges_valid f vs rs : (∀ v r, f v = Ret r → valid r) → ranges f vs = Ret rs → Forall valid rs.
Proof.
  intros Hf. revert rs. induction vs as [|v vs IH]; intros rs; simpl; [by intros [= <-]|].
  intros (r & Hr%Hf & H1)%obind_ret_inv. apply obind_ret_inv in H1 as (rs' & Hrs%IH & [= <-]). by constructor.
Qed.
Lemma evaluate_valid f e c rs c' : (∀ v r, f v = Ret r → valid r) → evaluate f e c = (Ret rs, c') → Forall valid rs.
Proof.
  intros Hf. unfold evaluate. intros (x & s1 & _ & H1)%bind_ret_inv. apply bind_ret_inv in H1 as (v & s2 & _ & H2).
  destruct v; try done. injection H2 as H2 _. by eapply ranges_valid.
Qed.
Lemma evaluate_both_valid t c ls gs c' :
  evaluate_both local_first t c = (Ret (ls, gs), c') → Forall valid ls ∧ Forall valid gs.
Proof.
  unfold evaluate_both. pose proof local_range_valid. pose proof global_range_valid.
  destruct local_first; intros (x & s1 & H3 & H4)%bind_ret_inv; apply bind_ret_inv in H4 as (y & s2 & H5 & [= <- <- <-]);
    split; (eapply evaluate_valid; [|eassumption]; done).
Qed.
Lemma zip_valid fuel ls gs z z' :
  Forall valid ls → Forall valid gs → Forall (λ x : range * range, valid x.1) z →
  module_call.zip fuel ls gs z = Ret z' → Forall (λ x, valid x.1) z'.
Proof.
  revert ls gs z. induction fuel as [|fuel IH]; intros [|l ls] [|g gs] z Hls Hgs Hz; simpl; try done; try (by intros [= <-]).
  apply Forall_cons in Hls as [Hl Hls]. apply Forall_cons in Hgs as [Hg Hgs].
  apply IH; [by apply (rest_valid _ l ls)|by apply (rest_valid _ g gs)|].
  apply Forall_app; split; [done|]. constructor; [|constructor].
  destruct Hl as [Ho Hs], Hg as [_ Hg]. unfold valid, is_w64 in *. simpl. lia.
Qed.
Lemma transfers_valid input ts z z' :
  Forall (λ x : range * range, valid x.1) z → transfers local_first input ts z = Ret z' → Forall (λ x, valid x.1) z'.
Proof.
  revert z. induction ts as [|t ts IH]; intros z Hz; simpl; [by intros [= <-]|].
  intros ([ls gs] & H1 & H2)%obind_ret_inv. apply obind_ret_inv in H2 as (z1 & Hz1 & H2).
  destruct (evaluate_both local_first t input) as [o c'] eqn:He. simpl in H1. subst o.
  apply evaluate_both_valid in He as [Hls Hgs]. eapply IH; [|done]. by apply (zip_valid _ ls gs z z1 Hls Hgs Hz Hz1).
Qed.

(** a copy is inside of the buffer that its range names, if that range does not wrap around *)
Definition inside (bs : list (string * buffer)) (c : copy) : Prop :=
  offset (where_ (source c)) + copy_size c < two64 →
  ∃ b, (name (source c), b) ∈ bs ∧ position b ≤ shared_memory_offset c ∧
       shared_memory_offset c + copy_size c ≤ position b + b_size b.
Lemma find_buffer_elem x bs b : find_buffer x bs = Some b → (x, b) ∈ bs.
Proof.
  unfold find_buffer. intros (y & Hy & ->)%fmap_Some. destruct y as [i [z c]]. simpl in *.
  apply list_find_Some in Hy as (Hi & Hz & _). simpl in Hz. subst. by eapply list_elem_of_lookup_2.
Qed.
Lemma preserves_transfer_all way ssize bs l :
  laid_out 0 ssize bs → ssize < two64 → Forall (λ x, valid x.1) l →
  preserves (λ w, Forall (inside bs) (copies w)) (transfer_all way bs l).
Proof.
  intros Hl Htop Hv. unfold transfer_all. apply preserves_for_each. intros [lr gr] Hx. unfold transfer.
  destruct (find_buffer (name lr) bs) as [b|] eqn:Hf; [|auto with gspc].
  apply find_buffer_elem in Hf. rewrite Forall_forall in Hv. destruct (Hv _ Hx) as [Ho Hs]. simpl in Ho, Hs.
  case_match eqn:Hlt; [auto with gspc|]. apply Z.ltb_ge in Hlt. apply preserves_bind; [unfold std; auto with gspc|].
  intros handle. apply preserves_modify. intros w Hw. simpl. apply Forall_app; split; [done|]. constructor; [|constructor].
  unfold inside. simpl. intros Hnw. exists b. split; [done|].
  destruct (laid_out_inside _ _ _ _ _ Hl Hf) as (Hp & Hb & Hend). unfold is_w64 in Ho, Hs.
  rewrite w64_small in Hlt by (unfold is_w64; lia). rewrite w64_small by (unfold is_w64; lia). lia.
Qed.

(** The loader and the call itself copy nothing. *)
Context (show_path : string → string) (path_lt : string → string → bool) (search_path : list string) (exists_ : string → bool).
Context (dlopen : string → list string → outcome thrown unit * list string)
        (dlclose : string → list string → list string)
        (we_mod_initialize : string → list string → list (string * wrapper) * outcome thrown unit * list string).
Section keeps.
Context (I : list copy → Prop).
Abbreviation keeps m := (preserves (λ w, I (copies w)) m).
Lemma keeps_load_failed {X} path (m : M world thrown X) : keeps m → keeps (load_failed what show_path path m).
Proof. intros Hm w Hw. specialize (Hm w Hw). unfold load_failed. by destruct (m w) as [[x|e] w1]. Qed.
Lemma keeps_libraries f : keeps (modify (set_libraries f) : M world thrown unit).
Proof. apply preserves_modify. done. Qed.
Hint Resolve keeps_load_failed keeps_libraries : gspc.
Ltac keeps := repeat first [progress intros | progress auto with gspc | apply keeps_load_failed | apply preserves_bind | case_match | case_decide ].
Lemma keeps_add_functions path fs table : keeps (add_functions show_path path fs table).
Proof. revert table. induction fs as [|[x f] fs IH]; intros table; simpl; keeps. Qed.
Hint Resolve keeps_add_functions : gspc.
Lemma keeps_initialize path : keeps (initialize show_path dlclose we_mod_initialize path).
Proof.
  intros w Hw. unfold initialize. destruct (we_mod_initialize path (libraries w)) as [[fs o] libs].
  assert (keeps (add_functions show_path path fs ∅ ≫= λ table, lift o ≫= λ _, mret table)) as Hk by keeps.
  specialize (Hk (set_libraries (λ _, libs) w) Hw). simpl in Hk.
  by destruct ((add_functions _ _ _ _ ≫= _) _) as [[x|e] w1].
Qed.
Hint Resolve keeps_initialize : gspc.
Lemma keeps_make_module b path : keeps (make_module what show_path path_lt dlopen dlclose we_mod_initialize b path).
Proof. unfold make_module, open_module, ensure_unloads_without_rest_and_load, open_library, close_library. keeps. Qed.
Hint Resolve keeps_make_module : gspc.
Lemma keeps_get_module b name : keeps (get_module what show_path path_lt search_path exists_ dlopen dlclose we_mod_initialize b name).
Proof. unfold get_module. keeps. apply preserves_modify. done. Qed.
Lemma keeps_call_function m loaded input ptrs : keeps (call_function show_path path_lt m loaded input ptrs).
Proof. unfold call_function. keeps. apply preserves_modify. done. Qed.
End keeps.

Context (virtual_memory_api : bool) (worker_name : string).
Abbreviation call ssize base :=
  (module_run.module_call local_first what show_path path_lt search_path exists_ dlopen dlclose we_mod_initialize virtual_memory_api
    (Some (ssize, base)) worker_name).
Abbreviation buffers ssize base := (buffers_of virtual_memory_api (Some (ssize, base)) worker_name).

Lemma buffers_of_spec ssize base m input bs ptrs :
  0 ≤ ssize → 0 ≤ base → base + ssize < two64 → buffers ssize base m input = Ret (bs, ptrs) →
  laid_out 0 ssize bs ∧ Forall2 (aligned base input) (memory_buffers m) bs.
Proof.
  intros Hs Hb Htop. unfold buffers_of. destruct (memory_buffers m) as [|x xs]; [intros [= <- _]; split; [done|constructor]|].
  destruct virtual_memory_api; [simpl|done]. intros (total & _ & Hr)%obind_ret_inv. destruct (ssize <? total); [done|].
  apply obind_ret_inv in Hr as (bs' & Hp & [= <- _]).
  destruct (place_buffers_spec ssize base input (x :: xs) base ssize bs') as [Hl Hf]; try done; try lia.
  by rewrite Z.sub_diag in Hl.
Qed.

Lemma preserves_std {A B} I (o : outcome exn A) (k : A → M world thrown B) :
  (∀ x, o = Ret x → preserves I (k x)) → preserves I (std o ≫= k).
Proof. intros Hk w Hw. unfold std. rewrite bind_lift. destruct o as [x|e]; [by apply Hk|done]. Qed.

(** C24: The buffers of a module call lie in the shared memory of the worker one after the
    other, each with its size and at a multiple of its alignment, and whatever the ranges of
    the transfers evaluate to and however the call ends, all that is copied is inside of the
    buffer that its local range names, unless that range wraps around. *)
Theorem module_call_memory_safe (ssize base : Z) (m : module_call_t) (input : context.type) bs ptrs :
  0 ≤ ssize → 0 ≤ base → base + ssize < two64 → buffers ssize base m input = Ret (bs, ptrs) →
  laid_out 0 ssize bs ∧ Forall2 (aligned base input) (memory_buffers m) bs ∧
  ∀ w, copies w = [] → Forall (inside bs) (copies (call ssize base m input w).2).
Proof.
  intros Hs Hb Htop Hbuf. destruct (buffers_of_spec _ _ _ _ _ _ Hs Hb Htop Hbuf) as [Hl Ha]. split_and!; [done|done|].
  intros w Hw. pose (I w := Forall (inside bs) (copies w)). assert (preserves I (call ssize base m input)) as Hp;
    [|apply Hp; unfold I; rewrite Hw; constructor].
  assert (∀ way l, Forall (λ x, valid x.1) l → preserves I (transfer_all way bs l)) as Ht.
  { intros way l Hv. apply (preserves_transfer_all way ssize); [done|lia|done]. }
  unfold module_run.module_call. apply preserves_std; intros [bs' ptrs'] Hbs. rewrite Hbuf in Hbs. injection Hbs as <- <-.
  apply preserves_std; intros gl Hgl%transfers_valid; [|constructor]. apply preserves_bind; [by apply Ht|intros _].
  apply preserves_std; intros pl Hpl%transfers_valid; [|constructor]. apply preserves_bind; [apply keeps_get_module|intros loaded].
  apply preserves_bind; [apply keeps_call_function|intros out]. apply preserves_bind; [by apply Ht|intros _].
  apply preserves_std; intros al Hal%transfers_valid; [|constructor]. apply preserves_bind; [by apply Ht|auto with gspc].
Qed.
End transfers.

(** ** A call with two buffers *)
Definition expression (s : string) : expression_t := match @parser.make Float.nan_libm s with Ret e => e | Throw _ => [] end.
Definition two_buffers : module_call_t :=
  module_call.mk "m" "f"
    [("a", mk_buffer_info (expression "10UL") (expression "8UL")); ("b", mk_buffer_info (expression "16UL") (expression "16UL"))]
    [mk_transfer "${g}" "${l}" None] [mk_transfer "${g}" "${l}" None] false false.
Definition local_at (buffer : string) (offset size : Z) : value_type :=
  Vstruct [("buffer", Vstring buffer); ("offset", Vulong offset); ("size", Vulong size)].
Definition global_at (handle : string) (offset size : Z) : value_type :=
  Vstruct [("handle", Vstruct [("name", Vstring handle)]); ("offset", Vulong offset); ("size", Vulong size)].
Definition with_ranges (l g : value_type) : context.type :=
  context.bind_ref "l" (Vlist [l]) (context.bind_ref "g" (Vlist [g]) context.empty).
(** a library with one function, that returns its input *)
Definition identity_module : world :=
  mk_world [] {["m" := mk_module "libm.so" {["f" := λ input _ libs, (Ret input, libs)]}]} [] [].
Definition no_initialize (path : string) (libs : list string) : list (string * wrapper) * outcome thrown unit * list string :=
  ([], Ret tt, libs).
Definition call_two_buffers (input : context.type) : outcome thrown context.type * world :=
  @module_run.module_call Float.nan_libm false (λ _, "") id String.ltb [] (λ _, false) (λ _ libs, (Ret tt, libs)) (λ _ libs, libs)
    no_initialize true (Some (64, 1000)) "worker" two_buffers input identity_module.

Lemma module_call_memory_safe_witness :
  let input := with_ranges (local_at "b" 2 6) (global_at "1f" 100 6) in
  let bs := [("a", mk_buffer 0 10); ("b", mk_buffer 24 16)] in
  let w := (call_two_buffers input).2 in
  (shared_memory_offset <$> copies w) = [26; 26] ∧ laid_out 0 64 bs ∧ Forall (inside bs) (copies w).
Proof.
  intros input bs w. split; [vm_compute; reflexivity|].
  assert (∃ ptrs, @buffers_of Float.nan_libm true (Some (64, 1000)) "worker" two_buffers input = Ret (bs, ptrs)) as [ptrs Hb]
    by (eexists; vm_compute; reflexivity).
  destruct (module_call_memory_safe (H := Float.nan_libm) false (λ _, "") id String.ltb [] (λ _, false) (λ _ libs, (Ret tt, libs))
    (λ _ libs, libs) no_initialize true "worker" 64 1000 two_buffers input bs ptrs) as (Hl & _ & Hc); [lia|lia|reflexivity|exact Hb|].
  split; [exact Hl|]. apply Hc. reflexivity.
Defined.
(** The check of a range adds its offset to its size with the width of both: this range of
    eight bytes ends inside of its buffer, and the four bytes in front of the buffer are
    overwritten. *)
Lemma wrapping_range_leaves_buffer :
  let input := with_ranges (local_at "b" (two64 - 4) 8) (global_at "1f" 100 8) in
  let w := (call_two_buffers input).2 in
  match @buffers_of Float.nan_libm true (Some (64, 1000)) "worker" two_buffers input with
  | Ret (bs, _) => find_buffer "b" bs = Some (mk_buffer 24 16)
  | Throw _ => False
  end ∧
  ((λ c, (shared_memory_offset c, copy_size c)) <$> copies w) = [(20, 8); (20, 8)].
Proof. by vm_compute. Qed.
End CallSpec.
