(* ===== verification/NetCross.v ===== *)
(** * The search for an enabling combination is exhaustive

    [cross_type] of [we/type/net.cpp] steps through the combinations of the
    candidate tokens like an odometer.  Here the search is compared with a
    plain search through the list of all combinations. *)

From S2P Require Import Prelude Value Token Function Expr Net.

Module CrossSpec.

Abbreviation tok := (token_id_type * value_type)%type.
Abbreviation slots_type := (gmap place_id_type cross.iterators_type).

(** All ways to choose one element of each list; the first list runs
    fastest. *)
Fixpoint product {A} (ls : list (list A)) : list (list A) :=
  match ls with
  | [] => [[]]
  | l :: ls => r ← product ls; (λ a, a :: r) <$> l
  end.

Lemma elem_of_product {A} (ls : list (list A)) c :
  c ∈ product ls ↔ Forall2 (λ a l, a ∈ l) c ls.
Proof.
  revert c. induction ls as [|l ls IH]; intros c; simpl.
  - rewrite list_elem_of_singleton. split; [intros ->; constructor|apply Forall2_nil_inv_r].
  - rewrite list_elem_of_bind. split.
    + intros (r & (a & -> & Ha)%list_elem_of_fmap & Hr%IH). by constructor.
    + intros (a & r & Ha & Hr%IH & ->)%Forall2_cons_inv_r. exists r. split; [|done].
      by apply (list_elem_of_fmap_2 (λ a, a :: r)).
Qed.

Lemma length_product {A} (ls : list (list A)) :
  length (product ls) = foldr (λ l n, (n * length l)%nat) 1%nat ls.
Proof.
  induction ls as [|l ls IH]; simpl; [done|]. rewrite <- IH. clear IH.
  induction (product ls) as [|r rs IHr]; simpl; [done|].
  rewrite length_app, length_fmap. unfold mbind in IHr. rewrite IHr. lia.
Qed.

(** The first combination that passes a test that may throw. *)
Fixpoint search {A} (test : A → outcome exn bool) (l : list A) : outcome exn (option A) :=
  match l with
  | [] => Ret None
  | a :: l =>
      b ← test a;
      if (b : bool) then Ret (Some a) else search test l
  end.

Lemma search_none {A} (test : A → outcome exn bool) l :
  search test l = Ret None ↔ ∀ a, a ∈ l → test a = Ret false.
Proof.
  induction l as [|a l IH]; simpl.
  - split; [|done]. intros _ a Ha. by apply not_elem_of_nil in Ha.
  - setoid_rewrite elem_of_cons. destruct (test a) as [[]|e] eqn:Ha; simpl.
    + split; [done|]. intros Hall. rewrite (Hall a) in Ha by auto. done.
    + rewrite IH. split; [intros Hl b [->|]|]; auto.
    + split; [done|]. intros Hall. rewrite (Hall a) in Ha by auto. done.
Qed.

Lemma search_some {A} (test : A → outcome exn bool) l a :
  search test l = Ret (Some a) → a ∈ l ∧ test a = Ret true.
Proof.
  induction l as [|b l IH]; simpl; [done|]. rewrite elem_of_cons.
  destruct (test b) as [[]|e] eqn:Hb; simpl; [intros [= ->]; auto| |done].
  intros [??]%IH. auto.
Qed.

(** ** The odometer *)
Definition slot (m : slots_type) (p : place_id_type) : cross.iterators_type :=
  default (cross.mk_iterators [] [] false) (m !! p).

(** Every place has a current token. *)
Definition ready (L : list place_id_type) (m : slots_type) : Prop :=
  ∀ p, p ∈ L → is_Some (m !! p) ∧ cross.pos (slot m p) ≠ [] ∧ cross.seq (slot m p) ≠ [].

Definition current (L : list place_id_type) (m : slots_type) (c : list tok) : Prop :=
  Forall2 (λ p t, head (cross.pos (slot m p)) = Some t) L c.

(** The combinations from the current one on. *)
Fixpoint remaining (L : list place_id_type) (m : slots_type) : list (list tok) :=
  match L with
  | [] => [[]]
  | p :: L =>
      match remaining L m with
      | [] => []
      | r :: rs => ((λ t, t :: r) <$> cross.pos (slot m p)) ++
                   (r ← rs; (λ t, t :: r) <$> cross.seq (slot m p))
      end
  end.

(** Only the positions of the places in [L] differ. *)
Definition same_shape (L : list place_id_type) (m m' : slots_type) : Prop :=
  ∀ p, (p ∉ L → m' !! p = m !! p) ∧
       (λ it, (cross.seq it, cross.is_read_connection it)) <$> (m' !! p) =
       (λ it, (cross.seq it, cross.is_read_connection it)) <$> (m !! p).

Lemma same_shape_refl L m : same_shape L m m.
Proof. done. Qed.
Lemma same_shape_trans L m1 m2 m3 :
  same_shape L m1 m2 → same_shape L m2 m3 → same_shape L m1 m3.
Proof.
  intros H12 H23 p. destruct (H12 p) as [H1 H2], (H23 p) as [H3 H4].
  rewrite H4, H2. split; [|done]. intros Hp. by rewrite H3, H1.
Qed.
Lemma same_shape_cons L p m m' : same_shape L m m' → same_shape (p :: L) m m'.
Proof.
  intros Hs q. destruct (Hs q) as [H1 H2]. split; [|done].
  intros Hq. apply H1. set_solver.
Qed.

Lemma slot_insert_eq m p it : slot (<[p := it]> m) p = it.
Proof. unfold slot. by rewrite lookup_insert_eq. Qed.
Lemma slot_insert_ne m p q it : p ≠ q → slot (<[p := it]> m) q = slot m q.
Proof. intros. unfold slot. by rewrite lookup_insert_ne. Qed.
Lemma slot_lookup m p : is_Some (m !! p) → m !! p = Some (slot m p).
Proof. intros [it Hit]. unfold slot. by rewrite Hit. Qed.

Lemma same_shape_insert L m p pos :
  p ∈ L → is_Some (m !! p) →
  same_shape L m
    (<[p := cross.mk_iterators (cross.seq (slot m p)) pos (cross.is_read_connection (slot m p))]> m).
Proof.
  intros Hp Hm q. destruct (decide (p = q)) as [<-|Hne].
  - rewrite lookup_insert_eq, (slot_lookup m p) by done. split; [by intros []|]. done.
  - rewrite lookup_insert_ne by done. done.
Qed.

Lemma remaining_ext L m m' : (∀ p, p ∈ L → m' !! p = m !! p) → remaining L m' = remaining L m.
Proof.
  induction L as [|p L IH]; intros Heq; simpl; [done|].
  rewrite IH by (intros q Hq; apply Heq; set_solver).
  unfold slot. rewrite Heq by set_solver. done.
Qed.

Lemma ready_ext L m m' : (∀ p, p ∈ L → m' !! p = m !! p) → ready L m → ready L m'.
Proof. intros Heq Hr p Hp. unfold slot. rewrite Heq by done. by apply Hr. Qed.

Lemma ready_cons p L m :
  ready (p :: L) m ↔
  (is_Some (m !! p) ∧ cross.pos (slot m p) ≠ [] ∧ cross.seq (slot m p) ≠ []) ∧ ready L m.
Proof.
  unfold ready. split.
  - intros Hr. split; [apply Hr; set_solver|]. intros q Hq. apply Hr. set_solver.
  - intros [H1 H2] q [->|Hq]%elem_of_cons; auto.
Qed.

Lemma remaining_head L m :
  ready L m → ∃ c rs, remaining L m = c :: rs ∧ current L m c.
Proof.
  induction L as [|p L IH]; simpl.
  - intros _. exists [], []. split; [done|constructor].
  - intros [(_ & Hpos & _) Hr]%ready_cons. destruct (IH Hr) as (c & rs & -> & Hc).
    destruct (cross.pos (slot m p)) as [|t ts] eqn:Ht; [done|].
    eexists (t :: c), _. split; [done|]. constructor; [by rewrite Ht|done].
Qed.

(** A step goes to the next combination, or there is none. *)
Lemma do_step_spec L m :
  NoDup L → ready L m →
  ∃ b m', cross.do_step L m = Ret (b, m') ∧ same_shape L m m' ∧
    if (b : bool) then tail (remaining L m) = remaining L m' ∧ ready L m'
    else tail (remaining L m) = [].
Proof.
  revert m. induction L as [|p L IH]; intros m HL Hr; simpl.
  { exists false, m. done. }
  apply NoDup_cons in HL as [HpL HL]. apply ready_cons in Hr as [(Hp & Hpos & Hseq) Hr].
  rewrite (slot_lookup m p Hp). simpl. unfold cross.at_end, cross.increment, cross.rewind; simpl.
  destruct (remaining_head L m Hr) as (c & rs & Hrem & Hc). rewrite Hrem.
  destruct (cross.pos (slot m p)) as [|t [|t' ts]] eqn:Ht; [done| |]; simpl.
  - set (m1 := <[p := _]> m).
    assert (∀ q, q ∈ L → m1 !! q = m !! q) as Hm1.
    { intros q Hq. apply lookup_insert_ne. intros ->. done. }
    destruct (IH m1 HL (ready_ext _ _ _ Hm1 Hr)) as (b & m' & Hstep & Hshape & Hb).
    rewrite (remaining_ext _ _ _ Hm1), Hrem in Hb. simpl in Hb.
    assert (m' !! p = m1 !! p) as Hm'p by (by apply Hshape).
    assert (slot m' p = slot m1 p) as Hslot by (unfold slot; by rewrite Hm'p).
    exists b, m'. split_and!; [done| |].
    + eapply same_shape_trans; [|by apply same_shape_cons].
      apply same_shape_insert; [set_solver|done].
    + destruct b; [|by rewrite Hb]. destruct Hb as [-> Hr'].
      destruct (remaining_head L m' Hr') as (c' & rs' & -> & _).
      unfold slot in Hslot at 1. subst m1. rewrite slot_insert_eq in Hslot. fold (slot m' p) in Hslot.
      rewrite Hslot. simpl. split; [done|]. apply ready_cons. split; [|done].
      rewrite Hslot. simpl. rewrite Hm'p, lookup_insert_eq. done.
  - eexists true, _. split; [done|]. split; [apply same_shape_insert; [set_solver|done]|].
    rewrite (remaining_ext L m), Hrem by (intros q Hq; apply lookup_insert_ne; by intros ->).
    rewrite slot_insert_eq. simpl. split; [done|].
    apply ready_cons. rewrite slot_insert_eq, lookup_insert_eq. split; [done|].
    eapply ready_ext; [|done]. intros q Hq. apply lookup_insert_ne. by intros ->.
Qed.

(** Nothing has been tried yet. *)
Definition fresh (L : list place_id_type) (m : slots_type) : Prop :=
  ∀ p, p ∈ L → is_Some (m !! p) ∧ cross.pos (slot m p) = cross.seq (slot m p) ∧
               cross.seq (slot m p) ≠ [].

Lemma fresh_ready L m : fresh L m → ready L m.
Proof. intros Hf p Hp. destruct (Hf p Hp) as (? & -> & ?). done. Qed.

Lemma remaining_fresh L m :
  fresh L m → remaining L m = product ((λ p, cross.seq (slot m p)) <$> L).
Proof.
  induction L as [|p L IH]; intros Hf; [done|]. rewrite fmap_cons. cbn [product remaining].
  assert (fresh L m) as HfL by (intros q Hq; apply Hf; set_solver).
  destruct (remaining_head L m (fresh_ready _ _ HfL)) as (c & rs & Hrem & _).
  rewrite <- IH, Hrem by done. destruct (Hf p) as (_ & -> & _); [set_solver|]. done.
Qed.

(** ** The loop of [enables] *)
#[local] Arguments eval.eval_all : simpl never.

Section loop.
Context `{Float.Libm} `{Unordered} {N : Type}.
Context (net : net.structure N) (tid : transition_id_type) (t : transition_t N).

(** The context of a combination, and the test of the condition in it. *)
Definition combination_context (L : list place_id_type) (c : list tok) :
    outcome exn context.type :=
  foldl (λ ctx pt, ctx ≫= λ ctx,
    name ← cross.input_port_name net tid t pt.1;
    Ret (context.bind_ref name pt.2.2 ctx)) (Ret context.empty) (zip L c).

Definition test (condition : expression_t) (L : list place_id_type) (c : list tok) :
    outcome exn bool :=
  ctx ← combination_context L c;
  v ← (eval.eval_all condition ctx).1;
  eval.get_bool v.

Lemma bind_places_current x c :
  let L := unordered_elements (cross.referenced_places x) in
  ready L (cross.slots x) → current L (cross.slots x) c →
  cross.bind_places net tid t x = combination_context L c.
Proof.
  unfold cross.bind_places, combination_context. simpl.
  generalize (unordered_elements (cross.referenced_places x)); intros L.
  generalize (Ret context.empty : outcome exn context.type).
  revert c. induction L as [|p L IH]; intros c ctx Hr Hc; [done|].
  apply ready_cons in Hr as [(Hp & _) Hr].
  apply Forall2_cons_inv_l in Hc as (a & c' & Ha & Hc & ->). simpl.
  rewrite <- IH by done. f_equal. destruct ctx as [ctx|e]; [|done]. simpl.
  unfold cross.bind_place. rewrite (slot_lookup _ _ Hp). simpl. rewrite Ha.
  by destruct (cross.input_port_name net tid t p).
Qed.

(** How the result of the loop and of the plain search correspond. *)
Definition agrees (x : cross.cross_type)
    (r : outcome exn (option cross.cross_type)) (s : outcome exn (option (list tok))) : Prop :=
  let L := unordered_elements (cross.referenced_places x) in
  match r, s with
  | Ret None, Ret None => True
  | Ret (Some x'), Ret (Some c) =>
      cross.referenced_places x' = cross.referenced_places x ∧
      same_shape L (cross.slots x) (cross.slots x') ∧
      ready L (cross.slots x') ∧ current L (cross.slots x') c
  | Throw e, Throw e' => e = e'
  | _, _ => False
  end.

Lemma enables_loop_remaining condition fuel x :
  let L := unordered_elements (cross.referenced_places x) in
  ready L (cross.slots x) → length (remaining L (cross.slots x)) ≤ fuel →
  agrees x (cross.enables_loop net tid t fuel condition x)
           (search (test condition L) (remaining L (cross.slots x))).
Proof.
  revert x. induction fuel as [|fuel IH]; intros x L Hr Hfuel;
    destruct (remaining_head L _ Hr) as (c & rs & Hrem & Hc); rewrite Hrem in *;
    simpl in Hfuel; [lia|].
  simpl. rewrite (bind_places_current x c Hr Hc).
  assert (test condition L c = (ctx ← combination_context L c;
    v ← (eval.eval_all condition ctx).1; eval.get_bool v)) as -> by done. fold L.
  destruct (combination_context L c) as [ctx|e]; simpl; [|done].
  destruct (eval.eval_all condition ctx).1 as [v|e]; simpl; [|done].
  destruct (eval.get_bool v) as [[]|e]; simpl; [|clear Hc|done].
  { split_and!; [done|apply same_shape_refl|done|done]. }
  destruct (do_step_spec L (cross.slots x)) as (b & m' & Hstep & Hshape & Hb);
    [apply NoDup_unordered_elements|done|].
  fold L. rewrite Hstep. simpl. rewrite Hrem in Hb. simpl in Hb.
  destruct b; [|by rewrite Hb]. destruct Hb as [-> Hr'].
  specialize (IH (cross.mk m' (cross.referenced_places x)) Hr'). simpl in IH. fold L in IH.
  unfold agrees in *. simpl in IH. fold L in IH. fold L.
  specialize (IH ltac:(lia)). revert IH.
  destruct (cross.enables_loop _ _ _ _ _ _) as [[x'|]|e], (search _ _) as [[c'|]|e']; try done.
  intros (? & Hs & ? & ?). split_and!; [done| |done|done].
  by eapply same_shape_trans.
Qed.
End loop.

(** The candidate tokens of the places whose ports the condition mentions. *)
Definition candidates (L : list place_id_type) (x : cross.cross_type) : list (list tok) :=
  (λ p, cross.seq (slot (cross.slots x) p)) <$> L.

Lemma combinations_product `{Unordered} x :
  let L := unordered_elements (cross.referenced_places x) in
  fresh L (cross.slots x) → cross.combinations x = length (product (candidates L x)).
Proof.
  unfold cross.combinations, candidates. simpl. rewrite length_product.
  generalize (unordered_elements (cross.referenced_places x)); intros L Hf.
  induction L as [|p L IH]; [done|]. rewrite fmap_cons. cbn [foldr].
  rewrite IH by (intros q Hq; apply Hf; set_solver).
  destruct (Hf p) as [Hp _]; [set_solver|]. by rewrite (slot_lookup _ _ Hp).
Qed.

Lemma enables_loop_product `{Float.Libm} `{Unordered} {N} (net : net.structure N) tid t
    condition (x : cross.cross_type) :
  let L := unordered_elements (cross.referenced_places x) in
  fresh L (cross.slots x) →
  agrees x (cross.enables_loop net tid t (cross.combinations x) condition x)
           (search (test net tid t condition L) (product (candidates L x))).
Proof.
  intros L Hf. unfold candidates. rewrite <- remaining_fresh by done.
  apply enables_loop_remaining; [by apply fresh_ready|].
  rewrite combinations_product by done. unfold candidates. by rewrite <- remaining_fresh.
Qed.

(** C7: The search of [cross_type::enables] is exhaustive and ends: on freshly
    pushed tokens it behaves like the search through the list of all
    combinations of one candidate per place that the condition refers to.
    It throws what the first throwing evaluation throws, it fails only if the
    condition is false for every combination, and otherwise it stops with the
    iterators at the first combination for which the condition is true,
    without having touched the other places. *)
Theorem enables_loop_exhaustive `{Float.Libm} `{Unordered} {N} (net : net.structure N) tid t
    condition (x : cross.cross_type) :
  let L := unordered_elements (cross.referenced_places x) in
  fresh L (cross.slots x) →
  agrees x (cross.enables_loop net tid t (cross.combinations x) condition x)
           (search (test net tid t condition L) (product (candidates L x))).
Proof. apply enables_loop_product. Qed.

Definition example_transition : transition_t Empty_set :=
  transition.mk "t" (transition.expression []) None
    {[0%Z := port.mk "x" port.PORT_IN (Signature.Sname "int") None;
      1%Z := port.mk "y" port.PORT_IN (Signature.Sname "int") None]}
    ∅ ∅ 2 (Vstruct []) [] [] 0 None.

Definition example_structure : net.structure Empty_set :=
  net.set_place_to_port
    (λ _, {[7%Z := {[3%Z := (0%Z, Vstruct []); 4%Z := (1%Z, Vstruct [])]}]})
    (net.str net.empty).

Definition example_cross : cross.cross_type :=
  cross.mk {[3%Z := cross.iterators [(0%Z, Vint 1); (1%Z, Vint 2)] false;
             4%Z := cross.iterators [(2%Z, Vint 3); (3%Z, Vint 2)] true]} {[3%Z; 4%Z]}.

(** The condition [${x} == ${y}] selects the second candidate of both. *)
Lemma enables_loop_exhaustive_witness :
  let condition := [node.binary token.eq (node.ref ["x"]) (node.ref ["y"])] in
  let L := unordered_elements (cross.referenced_places example_cross) in
  search (@test Float.nan_libm _ example_structure 7%Z example_transition condition L)
         (product (candidates L example_cross)) = Ret (Some [(1%Z, Vint 2); (3%Z, Vint 2)]) ∧
  agrees example_cross
    (@cross.enables_loop Float.nan_libm _ _ example_structure 7%Z example_transition
       (cross.combinations example_cross) condition example_cross)
    (search (@test Float.nan_libm _ example_structure 7%Z example_transition condition L)
       (product (candidates L example_cross))).
Proof.
  split; [reflexivity|]. apply enables_loop_exhaustive.
  intros p [->%elem_of_singleton| ->%elem_of_singleton]%elem_of_unordered_elements%elem_of_union;
    (split_and!; [by eexists|reflexivity|discriminate]).
Defined.

End CrossSpec.
