(* ===== verification/NetEnabled.v ===== *)
(** * When a transition can fire, and that [update_enabled] finds out

    The meaning of the members [_enabled] and [_enabled_choice] of
    [we/type/net.cpp], independent of how they are maintained, and the
    correctness of [update_enabled] and [update_enabled_put_token]. *)

From S2P Require Import Prelude Value Token Function Expr Net NetCross.

Module Enabled.

#[local] Arguments eval.eval_all : simpl never.

Section meaning.
Context {N : Type}.
Implicit Types (s : net.structure N) (n : net_type N) (t : transition_t N)
  (ch : net.choice_type).

(** There is a connection from the place to the transition. *)
Definition is_input s (tid : transition_id_type) (pid : place_id_type) : Prop :=
  (pid, tid) ∈ net.adj_pt_consume s ∪ net.adj_pt_read s.
#[global] Instance is_input_dec s tid pid : Decision (is_input s tid pid).
Proof. unfold is_input. apply _. Defined.

Definition reads s (tid : transition_id_type) (pid : place_id_type) : bool :=
  bool_decide ((pid, tid) ∈ net.adj_pt_read s).

(** One existing token for each input place. *)
Definition selects n tid ch : Prop :=
  (∀ pid, is_Some (ch !! pid) ↔ is_input n tid pid) ∧
  map_Forall (λ pid c, is_Some (net_ops.get_token n pid !! c.1) ∧ c.2 = reads n tid pid) ch.

(** What the condition sees: the chosen tokens under the names of the ports. *)
Definition binding n tid t (c : place_id_type * (token_id_type * bool)) :
    option (string * value_type) :=
  match cross.input_port_name n tid t c.1, net_ops.get_token n c.1 !! c.2.1 with
  | Ret name, Some v => Some (name, v)
  | _, _ => None
  end.
Definition bindings n tid t ch : gmap string value_type :=
  list_to_map (omap (binding n tid t) (map_to_list ch)).

Definition condition_holds `{Float.Libm} n tid t ch : Prop :=
  match transition.condition t with
  | None => True
  | Some e => (eval.eval_all e (context.mk ∅ (bindings n tid t ch))).1 = Ret (Vbool true)
  end.

(** The transition can fire with these tokens. *)
Definition fireable `{Float.Libm} n tid t ch : Prop :=
  selects n tid ch ∧ size (transition.ports_input t) ≤ size ch ∧ condition_holds n tid t ch.

(** The connections are those of existing transitions to ports they have,
    and no two input places share a port name. *)
Record wf s : Prop := {
  wf_port tid pid : is_input s tid pid →
    ∃ t name, net.tmap s !! tid = Some t ∧ cross.input_port_name s tid t pid = Ret name;
  wf_name tid t p1 p2 name : is_input s tid p1 → is_input s tid p2 →
    net.tmap s !! tid = Some t →
    cross.input_port_name s tid t p1 = Ret name →
    cross.input_port_name s tid t p2 = Ret name → p1 = p2;
  wf_disjoint : net.adj_pt_consume s ## net.adj_pt_read s
}.

Lemma bindings_lookup n tid t ch pid tok b name v :
  wf n → net.tmap n !! tid = Some t → selects n tid ch →
  ch !! pid = Some (tok, b) →
  cross.input_port_name n tid t pid = Ret name →
  net_ops.get_token n pid !! tok = Some v →
  bindings n tid t ch !! name = Some v.
Proof.
  intros Hwf Ht [Hdom _] Hch Hname Hv. unfold bindings.
  apply elem_of_list_to_map_1'.
  - intros v' ([p' [k' b']] & Hp'%elem_of_map_to_list & Hb)%list_elem_of_omap.
    unfold binding in Hb. simpl in Hb.
    destruct (cross.input_port_name n tid t p') as [n'|] eqn:Hn'; [|done].
    destruct (net_ops.get_token n p' !! k') eqn:Hk'; [|done]. simplify_eq.
    assert (p' = pid) as ->; [|simplify_eq; congruence].
    eapply wf_name; [done|by apply Hdom; eexists|by apply Hdom; eexists|done..].
  - apply list_elem_of_omap. exists (pid, (tok, b)). split; [by apply elem_of_map_to_list|].
    unfold binding. simpl. by rewrite Hname, Hv.
Qed.
End meaning.

(** ** The condition looks at the referenced places only *)
Section context.
Context `{Float.Libm} {N : Type}.
Implicit Types (n : net_type N) (t : transition_t N) (ch : net.choice_type).

(** The combination [c] of the places [L] consists of the tokens of [ch]. *)
Definition picks n ch (L : list place_id_type) (c : list CrossSpec.tok) : Prop :=
  Forall2 (λ p tv, ∃ b, ch !! p = Some (tv.1, b) ∧
                        net_ops.get_token n p !! tv.1 = Some tv.2) L c.

Lemma combination_context_extends n tid t ch L c ctx0 :
  wf n → net.tmap n !! tid = Some t → selects n tid ch → picks n ch L c →
  context.ref_container ctx0 ⊆ bindings n tid t ch →
  ∃ ctx, foldl (λ ctx pt, ctx ≫= λ ctx,
           name ← cross.input_port_name n tid t pt.1;
           Ret (context.bind_ref name pt.2.2 ctx)) (Ret ctx0) (zip L c) = Ret ctx ∧
    context.container ctx = context.container ctx0 ∧
    context.ref_container ctx ⊆ bindings n tid t ch ∧
    (∀ name, is_Some (context.ref_container ctx0 !! name) ∨
             (∃ p, p ∈ L ∧ cross.input_port_name n tid t p = Ret name) →
             is_Some (context.ref_container ctx !! name)).
Proof.
  intros Hwf Ht Hsel Hpicks. revert ctx0.
  induction Hpicks as [|p [k v] L c (b & Hp & Hv) _ IH]; intros ctx0 Hsub.
  { exists ctx0. split_and!; [done..|]. intros name [?|(p & Hp & _)]; [done|].
    by apply not_elem_of_nil in Hp. }
  destruct (wf_port n Hwf tid p) as (t' & name & Ht' & Hname).
  { by apply Hsel; eexists. }
  simplify_eq. simpl. rewrite Hname. simpl.
  destruct (IH (context.bind_ref name v ctx0)) as (ctx & -> & Hc & Hr & Hn).
  { simpl. apply insert_subseteq_l; [|done]. by eapply bindings_lookup. }
  exists ctx. split_and!; [done..|]. intros name' Hname'. apply Hn. simpl.
  destruct (decide (name = name')) as [->|Hne]; [left; by rewrite lookup_insert_eq; eexists|].
  rewrite lookup_insert_ne by done. destruct Hname' as [|(q & [->|Hq]%elem_of_cons & Hq')];
    [by left|congruence|eauto].
Qed.

(** On the names that occur in the condition, the context of the search and
    the context of all chosen tokens are the same. *)
Lemma combination_context_agree n tid t ch L c (roots : gset string) :
  wf n → net.tmap n !! tid = Some t → selects n tid ch → picks n ch L c →
  (∀ pid name, is_input n tid pid → cross.input_port_name n tid t pid = Ret name →
     name ∈ roots → pid ∈ L) →
  ∃ ctx, CrossSpec.combination_context n tid t L c = Ret ctx ∧
    Dependence.agree roots ctx (context.mk ∅ (bindings n tid t ch)).
Proof.
  intros Hwf Ht Hsel Hpicks HL.
  destruct (combination_context_extends n tid t ch L c context.empty)
    as (ctx & Hctx & Hc & Hsub & Hn); [done..|apply map_empty_subseteq|].
  exists ctx. split; [done|]. intros name Hroot. split; [by rewrite Hc|]. simpl.
  destruct (bindings n tid t ch !! name) as [v|] eqn:Hb; [|by eapply lookup_weaken_None].
  apply elem_of_list_to_map_2, list_elem_of_omap in Hb as ([p [k b]] & Hp & Hpb).
  apply elem_of_map_to_list in Hp. unfold binding in Hpb. simpl in Hpb.
  destruct (cross.input_port_name n tid t p) as [nm|] eqn:Hnm; [|done].
  destruct (net_ops.get_token n p !! k) as [w|] eqn:Hk; [|done]. simplify_eq.
  destruct (Hn name) as [v' Hv'].
  { right. exists p. split; [|done]. eapply HL; [|done..]. by apply Hsel; eexists. }
  rewrite Hv'. pose proof (lookup_weaken _ _ _ _ Hv' Hsub) as Hb.
  erewrite bindings_lookup in Hb; [|done..]. done.
Qed.

Lemma test_condition n tid t ch L c e roots :
  wf n → net.tmap n !! tid = Some t → selects n tid ch → picks n ch L c →
  (∀ pid name, is_input n tid pid → cross.input_port_name n tid t pid = Ret name →
     name ∈ roots → pid ∈ L) →
  eval.key_roots e = Ret roots →
  CrossSpec.test n tid t e L c =
    ((eval.eval_all e (context.mk ∅ (bindings n tid t ch))).1 ≫= eval.get_bool).
Proof.
  intros Hwf Ht Hsel Hpicks HL ->%Dependence.key_roots_roots.
  destruct (combination_context_agree n tid t ch L c _ Hwf Ht Hsel Hpicks HL)
    as (ctx & Hctx & Hagree).
  unfold CrossSpec.test. rewrite Hctx. simpl. unfold eval.eval_all.
  by rewrite (proj1 (Dependence.respects_eval_all_from _ Vcontrol e (reflexivity _) _ _ Hagree)).
Qed.
End context.

(** ** Collecting the candidates *)
Section push.
Context `{Float.Libm} `{Unordered} {N : Type}.
Implicit Types (n : net_type N) (t : transition_t N) (ch : net.choice_type)
  (fixed : option (place_id_type * token_id_type)).

(** The same net, up to places that got an empty entry in the token map. *)
Record similar n n' : Prop := {
  sim_str : net.str n' = net.str n;
  sim_token_id : net.token_id n' = net.token_id n;
  sim_enabled : net.enabled n' = net.enabled n;
  sim_choice : net.enabled_choice n' = net.enabled_choice n;
  sim_tokens pid : net_ops.get_token n' pid = net_ops.get_token n pid
}.

#[global] Instance similar_preorder : PreOrder similar.
Proof.
  split; [done|]. intros n1 n2 n3 [] []. split; try congruence.
Qed.

Definition candidates n fixed (pid : place_id_type) : list CrossSpec.tok :=
  match fixed with
  | Some (fpid, ftoken) =>
      if decide (pid = fpid) then
        match net_ops.get_token n pid !! ftoken with
        | Some v => [(ftoken, v)]
        | None => []
        end
      else unordered_list (net_ops.get_token n pid)
  | None => unordered_list (net_ops.get_token n pid)
  end.

Lemma elem_of_candidates n fixed pid k v :
  (k, v) ∈ candidates n fixed pid ↔
  net_ops.get_token n pid !! k = Some v ∧ (∀ f, fixed = Some (pid, f) → k = f).
Proof.
  unfold candidates. destruct fixed as [[fpid f]|]; [case_decide as Hd|].
  - subst. destruct (net_ops.get_token n fpid !! f) as [w|] eqn:Hf.
    + rewrite list_elem_of_singleton. split.
      * intros [= -> ->]. split; [done|]. by intros ? [= ->].
      * intros [Hk Hfix]. specialize (Hfix f eq_refl). congruence.
    + split; [by intros ?%not_elem_of_nil|]. intros [Hk Hfix].
      specialize (Hfix f eq_refl). congruence.
  - rewrite elem_of_unordered_list. naive_solver.
  - rewrite elem_of_unordered_list. naive_solver.
Qed.

Lemma candidates_similar n n' fixed pid :
  similar n n' → candidates n' fixed pid = candidates n fixed pid.
Proof. intros Hs. unfold candidates. by rewrite (sim_tokens _ _ Hs). Qed.

Lemma touch_spec pid n :
  ∃ n', net_ops.touch pid n = (Ret (net_ops.get_token n pid), n') ∧ similar n n'.
Proof.
  unfold net_ops.touch, net_ops.this. rewrite bind_modify, bind_get.
  unfold net_ops.get_token, emplace. simpl.
  destruct (net.token_by_place_id n !! pid) as [m|] eqn:Hm; simpl.
  - rewrite Hm. eexists. split; [done|]. split; try done.
    intros q. unfold net_ops.get_token. simpl. by rewrite Hm.
  - rewrite lookup_insert_eq. eexists. split; [done|]. split; try done.
    intros q. unfold net_ops.get_token. simpl. rewrite Hm. simpl.
    destruct (decide (pid = q)) as [<-|].
    + by rewrite lookup_insert_eq, Hm.
    + by rewrite lookup_insert_ne.
Qed.

(** The candidates of one place, as [push_places] finds them. *)
Definition find_candidates fixed (pid : place_id_type) : M (net_type N) exn (list CrossSpec.tok) :=
  match fixed with
  | Some (fpid, ftoken) =>
      if decide (pid = fpid) then
        net_ops.this ≫= λ n : net_type N,
        tokens ← net_ops.at_ pid (net.token_by_place_id n);
        v ← lift (or_throw (undefined "dereference of end") (tokens !! ftoken));
        mret [(ftoken, v)]
      else tokens ← net_ops.touch pid; mret (unordered_list tokens)
  | None => tokens ← net_ops.touch pid; mret (unordered_list tokens)
  end.

Lemma find_candidates_spec fixed pid n l n' :
  find_candidates fixed pid n = (Ret l, n') → l = candidates n fixed pid ∧ similar n n'.
Proof.
  assert (∀ m : M (net_type N) exn _, m = (tokens ← net_ops.touch pid; mret (unordered_list tokens)) →
    m n = (Ret l, n') → l = unordered_list (net_ops.get_token n pid) ∧ similar n n') as Hall.
  { intros m -> (tokens & n1 & Ht & Hr)%bind_ret_inv.
    destruct (touch_spec pid n) as (n2 & Ht2 & Hs). rewrite Ht2 in Ht.
    injection Hr as <- <-. injection Ht as <- <-. done. }
  unfold find_candidates, candidates.
  destruct fixed as [[fpid f]|]; [case_decide; [|by apply Hall]|by apply Hall].
  unfold net_ops.this, net_ops.at_, net_ops.get_token.
  rewrite bind_get, bind_lift.
  destruct (net.token_by_place_id n !! pid) as [m|]; [|done]. simpl. rewrite bind_lift.
  destruct (m !! f); [|done]. by intros [= <- <-].
Qed.

Lemma push_places_spec fixed tid t roots is_read places x n r n' :
  net_ops.push_places fixed tid t roots is_read places x n = (Ret r, n') →
  match r with
  | Some x' =>
      similar n n' ∧
      (∀ p, p ∈ places → candidates n fixed p ≠ []) ∧
      (∀ p, cross.slots x' !! p =
        match cross.slots x !! p with
        | Some it => Some it
        | None => if decide (p ∈ places) then Some (cross.iterators (candidates n fixed p) is_read)
                  else None
        end) ∧
      (∀ p, p ∈ cross.referenced_places x' ↔ p ∈ cross.referenced_places x ∨
         p ∈ places ∧ ∃ name, cross.input_port_name n tid t p = Ret name ∧ name ∈ roots)
  | None =>
      ∃ n1 p, similar n n1 ∧ p ∈ places ∧ candidates n fixed p = [] ∧
              net_ops.disable tid n1 = (Ret tt, n')
  end.
Proof.
  revert x n. induction places as [|pid places IH]; intros x n.
  { intros [= <- <-]. split_and!; [done|set_solver| |set_solver].
    intros p. by destruct (cross.slots x !! p). }
  simpl. fold (find_candidates fixed pid).
  intros (l & n1 & [-> Hs]%find_candidates_spec & Hrest)%bind_ret_inv.
  case_decide as Hl.
  { apply bind_ret_inv in Hrest as ([] & n2 & Hd & [= <- <-]).
    exists n1, pid. split_and!; [done|set_solver|done|done]. }
  unfold net_ops.this in Hrest. rewrite bind_get, bind_lift in Hrest.
  unfold cross.push, cross.is_referenced in Hrest. rewrite (sim_str _ _ Hs) in Hrest.
  destruct (cross.input_port_name n tid t pid) as [name|] eqn:Hname; [|done].
  simpl in Hrest. apply IH in Hrest. clear IH. destruct r as [x'|].
  - destruct Hrest as (Hs' & Hne & Hslots & Href). split_and!; [by etrans| | |].
    + intros p [->|Hp]%elem_of_cons; [done|]. rewrite <- (candidates_similar n n1) by done. auto.
    + intros p. rewrite Hslots. simpl. rewrite (candidates_similar n n1) by done.
      unfold emplace. destruct (cross.slots x !! pid) as [it|] eqn:Hit; simpl.
      * destruct (cross.slots x !! p) eqn:Hp; [done|].
        assert (p ≠ pid) by congruence. repeat case_decide; set_solver.
      * destruct (decide (p = pid)) as [->|Hne'].
        { rewrite lookup_insert_eq, Hit, decide_True by set_solver. done. }
        rewrite lookup_insert_ne by done. destruct (cross.slots x !! p); [done|].
        repeat case_decide; set_solver.
    + intros p. rewrite Href. simpl. rewrite (sim_str _ _ Hs), elem_of_cons.
      case_bool_decide as Hroot; [rewrite elem_of_union, elem_of_singleton|]; split.
      * intros [[->|?]|[??]]; eauto 10.
      * intros [?|[[->|?] ?]]; eauto.
      * intros [?|[??]]; eauto.
      * intros [?|[[->|?] (nm & Hnm & Hin)]]; [eauto|congruence|eauto].
  - destruct Hrest as (n2 & p & Hs' & Hp & Hc & Hd). exists n2, p.
    split_and!; [by etrans|set_solver| |done]. by rewrite <- (candidates_similar n n1).
Qed.
End push.

(** ** The outcome of the search *)
Section search.
Context `{Float.Libm} `{Unordered} {N : Type}.
Implicit Types (n : net_type N) (t : transition_t N) (ch : net.choice_type)
  (fixed : option (place_id_type * token_id_type)) (x : cross.cross_type).

(** The state of the search when all places have been pushed. *)
Record pushed n fixed tid t (roots : gset string) x : Prop := {
  pushed_slots p : cross.slots x !! p =
    if decide (is_input n tid p) then
      Some (cross.iterators (candidates n fixed p) (reads n tid p)) else None;
  pushed_referenced p : p ∈ cross.referenced_places x ↔
    is_input n tid p ∧ ∃ name, cross.input_port_name n tid t p = Ret name ∧ name ∈ roots;
  pushed_candidates p : is_input n tid p → candidates n fixed p ≠ []
}.

(** The state of the search when it has succeeded. *)
Record settled n fixed tid x : Prop := {
  settled_input p : is_input n tid p →
    ∃ it k v, cross.slots x !! p = Some it ∧ head (cross.pos it) = Some (k, v) ∧
              (k, v) ∈ candidates n fixed p ∧ cross.is_read_connection it = reads n tid p;
  settled_other p : ¬ is_input n tid p → cross.slots x !! p = None
}.

(** The choice respects the fixed token. *)
Definition compatible fixed ch : Prop :=
  ∀ pid f k b, fixed = Some (pid, f) → ch !! pid = Some (k, b) → k = f.

Lemma pushed_settled n fixed tid t roots x : pushed n fixed tid t roots x → settled n fixed tid x.
Proof.
  intros [Hslots _ Hc]. split; intros p Hp; rewrite Hslots.
  - rewrite decide_True by done. specialize (Hc p Hp).
    destruct (candidates n fixed p) as [|[k v] l] eqn:Hl; [done|].
    eexists _, k, v. split_and!; [done| |set_solver|done]. done.
  - by rewrite decide_False.
Qed.

Lemma pushed_slot n fixed tid t roots x p :
  pushed n fixed tid t roots x → is_input n tid p →
  CrossSpec.slot (cross.slots x) p = cross.iterators (candidates n fixed p) (reads n tid p).
Proof.
  intros Hx Hp. unfold CrossSpec.slot. by rewrite (pushed_slots _ _ _ _ _ _ Hx), decide_True.
Qed.

Lemma pushed_fresh n fixed tid t roots x :
  pushed n fixed tid t roots x →
  CrossSpec.fresh (unordered_elements (cross.referenced_places x)) (cross.slots x).
Proof.
  intros Hx p Hp%elem_of_unordered_elements.
  apply (pushed_referenced _ _ _ _ _ _ Hx) in Hp as [Hp _].
  rewrite (pushed_slot _ _ _ _ _ _ _ Hx Hp), (pushed_slots _ _ _ _ _ _ Hx), decide_True by done.
  split_and!; [by eexists|done|]. by apply (pushed_candidates _ _ _ _ _ _ Hx).
Qed.

Lemma write_to_lookup n fixed tid x old p :
  settled n fixed tid x → is_input n tid p →
  ∃ k v, cross.write_to x old !! p = Some (k, reads n tid p) ∧
         (k, v) ∈ candidates n fixed p ∧
         (∃ it, cross.slots x !! p = Some it ∧ head (cross.pos it) = Some (k, v)).
Proof.
  intros Hx Hp. destruct (settled_input _ _ _ _ Hx p Hp) as (it & k & v & Hit & Hhd & Hc & Hr).
  exists k, v. split_and!; [|done|eauto]. unfold cross.write_to.
  apply lookup_union_Some_l. rewrite lookup_omap, Hit. simpl. unfold cross.chosen.
  by rewrite Hhd, Hr.
Qed.

Lemma settled_selects n fixed tid x old :
  settled n fixed tid x → (∀ p, is_Some (old !! p) → is_input n tid p) →
  selects n tid (cross.write_to x old).
Proof.
  intros Hx Hold. assert (∀ p, is_Some (cross.write_to x old !! p) → is_input n tid p) as Hdom.
  { intros p [c Hp]. unfold cross.write_to in Hp.
    apply lookup_union_Some_raw in Hp as [Hp|[_ Hp]]; [|eauto].
    rewrite lookup_omap in Hp. destruct (decide (is_input n tid p)) as [|Hn]; [done|].
    by rewrite (settled_other _ _ _ _ Hx p Hn) in Hp. }
  split.
  - intros p. split; [apply Hdom|]. intros Hp.
    destruct (write_to_lookup _ _ _ _ old _ Hx Hp) as (k & v & -> & _). by eexists.
  - intros p [k b] Hp. assert (is_input n tid p) as Hin by (apply Hdom; by eexists).
    destruct (write_to_lookup _ _ _ _ old _ Hx Hin) as (k' & v & Hp' & Hc & _).
    rewrite Hp in Hp'. simplify_eq/=. apply elem_of_candidates in Hc as [Hk _].
    split; [by eexists|done].
Qed.

Lemma size_choice n fixed tid t roots x ch :
  pushed n fixed tid t roots x → selects n tid ch → size ch = size (cross.slots x).
Proof.
  intros Hx [Hdom _]. rewrite <- !size_dom. f_equal. apply set_eq. intros p.
  rewrite !elem_of_dom, Hdom, (pushed_slots _ _ _ _ _ _ Hx).
  case_decide as Hp; split; intros Hs; [by eexists|done|done|by destruct Hs].
Qed.

(** A choice is one of the combinations that are tried. *)
Lemma choice_in_product n fixed tid t roots x ch :
  let L := unordered_elements (cross.referenced_places x) in
  pushed n fixed tid t roots x → selects n tid ch → compatible fixed ch →
  ∃ c, picks n ch L c ∧ c ∈ CrossSpec.product (CrossSpec.candidates L x).
Proof.
  intros L Hx [Hdom Htok] Hcompat.
  assert (∀ p, p ∈ L → is_input n tid p) as HL.
  { intros p Hp%elem_of_unordered_elements. by apply (pushed_referenced _ _ _ _ _ _ Hx) in Hp as [? _]. }
  setoid_rewrite CrossSpec.elem_of_product. unfold CrossSpec.candidates, picks.
  clearbody L. induction L as [|p L IH]; [by exists []; repeat constructor|].
  destruct IH as (c & Hp1 & Hp2); [set_solver|].
  assert (is_input n tid p) as Hp by (apply HL; set_solver).
  destruct (proj2 (Hdom p) Hp) as [[k b] Hch].
  destruct (Htok p (k, b) Hch) as [[v Hv] _]. simpl in Hv.
  exists ((k, v) :: c). rewrite fmap_cons. split; constructor; try done; [by exists b|].
  rewrite (pushed_slot _ _ _ _ _ _ _ Hx Hp). apply elem_of_candidates. split; [done|].
  intros f Hf. by eapply Hcompat.
Qed.

Lemma current_picks n fixed tid t roots x x' old c :
  let L := unordered_elements (cross.referenced_places x) in
  pushed n fixed tid t roots x → settled n fixed tid x' →
  CrossSpec.current L (cross.slots x') c → picks n (cross.write_to x' old) L c.
Proof.
  intros L Hx Hx' Hc. eapply Forall2_impl_elem; [exact Hc|]. simpl.
  intros p [k v] Hp%elem_of_unordered_elements Hhd.
  apply (pushed_referenced _ _ _ _ _ _ Hx) in Hp as [Hp _].
  destruct (write_to_lookup _ _ _ _ old _ Hx' Hp) as (k' & v' & -> & Hcand & it & Hit & Hhd').
  unfold CrossSpec.slot in Hhd. rewrite Hit in Hhd. simpl in Hhd. simplify_eq.
  apply elem_of_candidates in Hcand as [Hv _]. eauto.
Qed.

(** The iterators stop on candidates. *)
Lemma agrees_settled n fixed tid t roots x x' c :
  let L := unordered_elements (cross.referenced_places x) in
  pushed n fixed tid t roots x →
  CrossSpec.same_shape L (cross.slots x) (cross.slots x') →
  CrossSpec.current L (cross.slots x') c →
  c ∈ CrossSpec.product (CrossSpec.candidates L x) → settled n fixed tid x'.
Proof.
  intros L Hx Hshape Hc Hprod%CrossSpec.elem_of_product. split.
  - intros p Hp. destruct (Hshape p) as [Hsame Hmap].
    destruct (decide (p ∈ L)) as [HpL|HpL].
    2: { rewrite Hsame by done. by apply (pushed_settled _ _ _ _ _ _ Hx). }
    rewrite (pushed_slots _ _ _ _ _ _ Hx), decide_True in Hmap by done.
    destruct (cross.slots x' !! p) as [it|] eqn:Hit; [|done]. simplify_eq/=.
    apply list_elem_of_lookup in HpL as [i Hi].
    destruct (Forall2_lookup_l _ _ _ _ _ Hc Hi) as ([k v] & Hci & Hhd).
    destruct (Forall2_lookup_l _ _ _ _ _ Hprod Hci) as (l & Hl & Hin).
    unfold CrossSpec.candidates in Hl. rewrite list_lookup_fmap, Hi in Hl. simplify_eq/=.
    rewrite (pushed_slot _ _ _ _ _ _ _ Hx Hp) in Hin.
    unfold CrossSpec.slot in Hhd. rewrite Hit in Hhd.
    eexists it, k, v. done.
  - intros p Hp. destruct (Hshape p) as [Hsame _]. rewrite Hsame.
    + by apply (pushed_settled _ _ _ _ _ _ Hx).
    + intros HpL%elem_of_unordered_elements. by apply (pushed_referenced _ _ _ _ _ _ Hx) in HpL as [? _].
Qed.

Lemma enables_spec n fixed tid t roots x r :
  wf n → net.tmap n !! tid = Some t → cross.key_roots t = Ret roots →
  pushed n fixed tid t roots x → cross.enables n tid t x = Ret r →
  match r with
  | Some x' => ∀ old, (∀ p, is_Some (old !! p) → is_input n tid p) →
                      fireable n tid t (cross.write_to x' old)
  | None => ∀ ch, fireable n tid t ch → compatible fixed ch → False
  end.
Proof.
  intros Hwf Ht Hroots Hx. unfold cross.enables, cross.key_roots in *.
  case_bool_decide as Hsize.
  { intros [= <-] ch (Hsel & Hle & _) _.
    rewrite (size_choice _ _ _ _ _ _ _ Hx Hsel) in Hle. lia. }
  unfold fireable, condition_holds. destruct (transition.condition t) as [e|].
  2: { intros [= <-] old Hold. pose proof (pushed_settled _ _ _ _ _ _ Hx) as Hset.
       pose proof (settled_selects _ _ _ _ old Hset Hold) as Hsel.
       split_and!; [done| |done]. rewrite (size_choice _ _ _ _ _ _ _ Hx Hsel). lia. }
  pose proof (CrossSpec.enables_loop_product n tid t e x (pushed_fresh _ _ _ _ _ _ Hx)) as Hagree.
  set (L := unordered_elements (cross.referenced_places x)) in *.
  assert (∀ pid name, is_input n tid pid → cross.input_port_name n tid t pid = Ret name →
     name ∈ roots → pid ∈ L) as HL.
  { intros. apply elem_of_unordered_elements, (pushed_referenced _ _ _ _ _ _ Hx). eauto. }
  intros Hr. rewrite Hr in Hagree.
  destruct (CrossSpec.search _ _) as [[c|]|err] eqn:Hsearch; destruct r as [x'|]; try done.
  - apply CrossSpec.search_some in Hsearch as [Hin Htest].
    destruct Hagree as (_ & Hshape & _ & Hcur). intros old Hold.
    pose proof (agrees_settled _ _ _ _ _ _ _ _ Hx Hshape Hcur Hin) as Hset.
    pose proof (settled_selects _ _ _ _ old Hset Hold) as Hsel.
    pose proof (current_picks _ _ _ _ _ _ _ old _ Hx Hset Hcur) as Hpicks. fold L in Hpicks.
    split_and!; [done|rewrite (size_choice _ _ _ _ _ _ _ Hx Hsel); lia|].
    rewrite (test_condition _ _ _ _ _ _ _ _ Hwf Ht Hsel Hpicks HL Hroots) in Htest.
    apply obind_ret_inv in Htest as (v & -> & Hv). by destruct v; simplify_eq/=.
  - intros ch (Hsel & _ & Hcond) Hcompat.
    destruct (choice_in_product _ _ _ _ _ _ _ Hx Hsel Hcompat) as (c & Hpicks & Hin).
    rewrite CrossSpec.search_none in Hsearch. apply Hsearch in Hin as Htest. fold L in Hpicks.
    rewrite (test_condition _ _ _ _ _ _ _ _ Hwf Ht Hsel Hpicks HL Hroots), Hcond in Htest.
    done.
Qed.
End search.

(** ** [update_enabled] *)
Section update.
Context `{Float.Libm} `{Unordered} {N : Type}.
Implicit Types (n : net_type N) (t : transition_t N) (ch : net.choice_type)
  (fixed : option (place_id_type * token_id_type)) (x : cross.cross_type).

(** The same structure and the same tokens. *)
Record same_marking n n' : Prop := {
  sm_str : net.str n' = net.str n;
  sm_token_id : net.token_id n' = net.token_id n;
  sm_tokens pid : net_ops.get_token n' pid = net_ops.get_token n pid
}.

#[global] Instance same_marking_equiv : Equivalence same_marking.
Proof.
  split; [done| |].
  - intros n1 n2 []. by split.
  - intros n1 n2 n3 [] []. split; congruence.
Qed.

Lemma similar_same_marking n n' : similar n n' → same_marking n n'.
Proof. intros []. by split. Qed.

Lemma fireable_same_marking n n' tid t ch :
  same_marking n n' → fireable n tid t ch → fireable n' tid t ch.
Proof.
  intros [Hstr _ Htok] ((Hdom & Hall) & Hsize & Hcond).
  assert (bindings n' tid t ch = bindings n tid t ch) as Hb.
  { unfold bindings. f_equal. apply list_omap_ext, Forall2_same_length_lookup_2; [done|].
    intros i [p c] y Hx Hy. simplify_eq. unfold binding. simpl. by rewrite Hstr, Htok. }
  split_and!; [split|done|].
  - intros p. by rewrite Hdom, Hstr.
  - intros p c Hc. destruct (Hall p c Hc). by rewrite Htok, Hstr.
  - unfold condition_holds in *. by rewrite Hb.
Qed.

(** The sets of enabled transitions and the choices belong together. *)
Record bookkeeping n : Prop := {
  bk_nonempty prio tids : net.enabled n !! prio = Some tids → tids ≠ ∅;
  bk_priority prio tids tid : net.enabled n !! prio = Some tids → tid ∈ tids →
    ∃ t, net.tmap n !! tid = Some t ∧ transition.priority t = prio;
  bk_known tid : is_Some (net.enabled_choice n !! tid) → is_Some (net.tmap n !! tid);
  bk_choice tid t : net.tmap n !! tid = Some t →
    net_ops.is_enabled n tid t = bool_decide (is_Some (net.enabled_choice n !! tid))
}.

(** Only the information about [tid] changes. *)
Record updates (tid : transition_id_type) n n' : Prop := {
  up_marking : same_marking n n';
  up_others tid' : tid' ≠ tid → net.enabled_choice n' !! tid' = net.enabled_choice n !! tid'
}.

Lemma bookkeeping_similar n n' : similar n n' → bookkeeping n → bookkeeping n'.
Proof.
  intros [Hstr _ He Hc _] [H1 H2 H3 H4]. split; unfold net_ops.is_enabled in *;
    rewrite ?Hstr, ?He, ?Hc; auto.
Qed.

Lemma disable_spec tid n n' :
  bookkeeping n → net_ops.disable tid n = (Ret tt, n') →
  updates tid n n' ∧ bookkeeping n' ∧ net.enabled_choice n' !! tid = None.
Proof.
  intros [Hne Hprio Hknown Hchoice]. unfold net_ops.disable, net_ops.this, net_ops.at_.
  rewrite bind_get, bind_lift. destruct (net.tmap n !! tid) as [t|] eqn:Ht; [|done].
  simpl. rewrite bind_modify. intros [= <-].
  set (e' := net_ops.erase_enabled (transition.priority t) tid (net.enabled n)).
  assert (∀ prio tids, e' !! prio = Some tids → tids ≠ ∅ ∧
            ∃ tids0, net.enabled n !! prio = Some tids0 ∧ tids ⊆ tids0) as He'.
  { intros prio tids. subst e'. unfold net_ops.erase_enabled. destruct (net.enabled n !! transition.priority t) as [ts|] eqn:Hts.
    2: { intros He. split; eauto. }
    case_decide as Hempty.
    - intros [Hp He]%lookup_delete_Some. split; eauto.
    - intros [[<- <-]|[Hp He]]%lookup_insert_Some; [|split; eauto].
      split; [done|]. exists ts. split; [done|set_solver]. }
  assert (∀ tid' t', net.tmap n !! tid' = Some t' →
    tid' ∈ default ∅ (e' !! transition.priority t') ↔
    tid' ≠ tid ∧ tid' ∈ default ∅ (net.enabled n !! transition.priority t')) as Hmem.
  { intros tid' t' Ht'. subst e'. unfold net_ops.erase_enabled.
    destruct (decide (transition.priority t' = transition.priority t)) as [Hpe|Hpe].
    - rewrite Hpe. destruct (net.enabled n !! transition.priority t) as [ts|] eqn:Hts.
      2: { rewrite Hts. simpl. set_solver. }
      case_decide; [rewrite lookup_delete_eq|rewrite lookup_insert_eq]; simpl; set_solver.
    - assert (tid' ≠ tid) by congruence.
      destruct (net.enabled n !! transition.priority t) as [ts|] eqn:Hts; [|set_solver].
      case_decide; [rewrite lookup_delete_ne by congruence|rewrite lookup_insert_ne by congruence];
        set_solver. }
  split_and!; [split; [by split|]|split|]; simpl.
  - intros tid' Hne'. by rewrite lookup_delete_ne.
  - intros prio tids Hp. by destruct (He' _ _ Hp).
  - intros prio tids tid' Hp Hin. destruct (He' _ _ Hp) as (_ & ts & Hts & Hsub).
    eapply Hprio; [done|set_solver].
  - intros tid' [c [_ Hc]%lookup_delete_Some]. apply Hknown. by eexists.
  - intros tid' t' Ht'. specialize (Hchoice tid' t' Ht'). unfold net_ops.is_enabled in *. simpl.
    rewrite (bool_decide_ext _ _ (Hmem tid' t' Ht')).
    destruct (decide (tid' = tid)) as [->|Hne'].
    + rewrite lookup_delete_eq. rewrite !bool_decide_false; [done|by intros []|by intros []].
    + rewrite lookup_delete_ne by done. rewrite <- Hchoice. apply bool_decide_ext. intuition.
  - by rewrite lookup_delete_eq.
Qed.

(** Recording a choice. *)
Definition enable tid t (ch : net.choice_type) n : net_type N :=
  net.set_enabled_choice (<[tid := ch]>)
    (net.set_enabled (λ e, <[transition.priority t :=
       {[tid]} ∪ default ∅ (e !! transition.priority t)]> e) n).

Lemma enable_spec tid t ch n :
  bookkeeping n → net.tmap n !! tid = Some t →
  updates tid n (enable tid t ch n) ∧ bookkeeping (enable tid t ch n) ∧
  net.enabled_choice (enable tid t ch n) !! tid = Some ch.
Proof.
  intros [Hne Hprio Hknown Hchoice] Ht. split_and!; [split; [by split|]|split|]; simpl.
  - intros tid' Hne'. by rewrite lookup_insert_ne.
  - intros prio tids [[<- <-]|[Hp He]]%lookup_insert_Some; [set_solver|eauto].
  - intros prio tids tid' [[<- <-]|[Hp He]]%lookup_insert_Some; [|eauto].
    intros [->%elem_of_singleton|Hin]%elem_of_union; [eauto|].
    destruct (net.enabled n !! transition.priority t) eqn:He; [|set_solver]. eauto.
  - intros tid' [c [[<- _]|[_ Hc]]%lookup_insert_Some]; [by eexists|]. apply Hknown. by eexists.
  - intros tid' t' Ht'. specialize (Hchoice tid' t' Ht'). unfold net_ops.is_enabled in *. simpl.
    destruct (decide (tid = tid')) as [<-|Hne'].
    + simplify_eq. rewrite !lookup_insert_eq. simpl. by rewrite bool_decide_true by set_solver.
    + rewrite (lookup_insert_ne (net.enabled_choice n)), <- Hchoice by done.
      apply bool_decide_ext.
      destruct (decide (transition.priority t = transition.priority t')) as [->|Hp].
      * rewrite lookup_insert_eq. simpl. set_solver.
      * by rewrite lookup_insert_ne.
  - by rewrite lookup_insert_eq.
Qed.

Lemma elem_of_places_of adj tid p : p ∈ net_ops.places_of adj tid ↔ (p, tid) ∈ adj.
Proof.
  unfold net_ops.places_of. rewrite list_elem_of_fmap. split.
  - intros ([p' tid'] & -> & [Heq Hin]%list_elem_of_filter). simpl in *. subst.
    by apply elem_of_unordered_elements.
  - intros Hin. exists (p, tid). split; [done|]. apply list_elem_of_filter.
    split; [done|]. by apply elem_of_unordered_elements.
Qed.

Lemma updates_trans_similar tid n n1 n' : similar n n1 → updates tid n1 n' → updates tid n n'.
Proof.
  intros Hs [Hm Ho]. split.
  - etrans; [by apply similar_same_marking|done].
  - intros tid' Hne. rewrite Ho by done. by rewrite (sim_choice _ _ Hs).
Qed.

(** A transition with an input place that has no candidate cannot fire. *)
Lemma no_candidates_not_fireable n fixed tid t ch p :
  is_input n tid p → candidates n fixed p = [] →
  fireable n tid t ch → compatible fixed ch → False.
Proof.
  intros Hp Hc ((Hdom & Htok) & _) Hcompat.
  destruct (proj2 (Hdom p) Hp) as [[k b] Hch]. destruct (Htok p (k, b) Hch) as [[v Hv] _].
  assert ((k, v) ∈ candidates n fixed p) as Hin; [|rewrite Hc in Hin; by apply not_elem_of_nil in Hin].
  apply elem_of_candidates. split; [done|]. intros f Hf. by eapply Hcompat.
Qed.

Lemma pushed_both n1 n2 n fixed tid t roots x1 x2 :
  wf n → similar n n1 →
  net_ops.push_places fixed tid t roots false
    (net_ops.places_of (net.adj_pt_consume n) tid) cross.empty n = (Ret (Some x1), n1) →
  net_ops.push_places fixed tid t roots true
    (net_ops.places_of (net.adj_pt_read n) tid) x1 n1 = (Ret (Some x2), n2) →
  similar n n2 ∧ pushed n fixed tid t roots x2.
Proof.
  intros Hwf Hs (_ & Hc1 & Hslots1 & Href1)%push_places_spec
    (Hs2 & Hc2 & Hslots2 & Href2)%push_places_spec.
  split; [by etrans|]. split.
  - intros p. rewrite Hslots2, Hslots1, (candidates_similar n n1) by done. simpl.
    rewrite lookup_empty. unfold is_input, reads.
    destruct (decide (p ∈ net_ops.places_of (net.adj_pt_consume n) tid)) as [Hp|Hp];
      rewrite elem_of_places_of in Hp.
    + rewrite decide_True by set_solver. rewrite bool_decide_false; [done|].
      intros Hr. by eapply (wf_disjoint n Hwf).
    + destruct (decide (p ∈ net_ops.places_of (net.adj_pt_read n) tid)) as [Hp'|Hp'];
        rewrite elem_of_places_of in Hp'.
      * by rewrite decide_True, bool_decide_true by set_solver.
      * by rewrite decide_False by set_solver.
  - intros p. rewrite Href2, Href1, !elem_of_places_of, (sim_str _ _ Hs). simpl.
    unfold is_input. set_solver.
  - intros p [Hp|Hp]%elem_of_union.
    + apply Hc1. by apply elem_of_places_of.
    + rewrite <- (candidates_similar n n1) by done. apply Hc2. by apply elem_of_places_of.
Qed.

Lemma update_enabled_with_spec fixed tid t n n' :
  wf n → bookkeeping n → net.tmap n !! tid = Some t →
  (∀ ch p, net.enabled_choice n !! tid = Some ch → is_Some (ch !! p) → is_input n tid p) →
  net_ops.update_enabled_with fixed tid n = (Ret tt, n') →
  updates tid n n' ∧ bookkeeping n' ∧
  match net.enabled_choice n' !! tid with
  | Some ch => fireable n tid t ch
  | None => ∀ ch, fireable n tid t ch → compatible fixed ch → False
  end.
Proof.
  intros Hwf Hbk Ht Hold. unfold net_ops.update_enabled_with, net_ops.this, net_ops.at_.
  rewrite bind_get, bind_lift, Ht. simpl. rewrite bind_lift.
  assert (∀ n1 p n2, similar n n1 → is_input n tid p → candidates n fixed p = [] →
    net_ops.disable tid n1 = (Ret tt, n2) →
    updates tid n n2 ∧ bookkeeping n2 ∧
    match net.enabled_choice n2 !! tid with
    | Some ch => fireable n tid t ch
    | None => ∀ ch, fireable n tid t ch → compatible fixed ch → False
    end) as Hdisable.
  { intros n1 p n2 Hs Hp Hc Hd.
    destruct (disable_spec tid n1 n2) as (Hup & Hbk2 & ->);
      [by eapply bookkeeping_similar|done|].
    split_and!; [by eapply updates_trans_similar|done|].
    intros ch. by eapply no_candidates_not_fireable. }
  destruct (cross.key_roots t) as [roots|] eqn:Hroots; [|done].
  intros (r1 & n1 & Hp1 & Hrest)%bind_ret_inv. destruct r1 as [x1|].
  2: { injection Hrest as <-. apply push_places_spec in Hp1 as (n2 & p & Hs & Hp & Hc & Hd).
       rewrite elem_of_places_of in Hp. eapply Hdisable; [done| |done..].
       unfold is_input. set_solver. }
  pose proof (push_places_spec _ _ _ _ _ _ _ _ _ _ Hp1) as (Hs1 & _).
  apply bind_ret_inv in Hrest as (r2 & n2 & Hp2 & Hrest). destruct r2 as [x2|].
  2: { injection Hrest as <-. apply push_places_spec in Hp2 as (n3 & p & Hs & Hp & Hc & Hd).
       rewrite elem_of_places_of in Hp. rewrite (candidates_similar n n1) in Hc by done.
       eapply Hdisable; [by etrans| |done..]. unfold is_input. set_solver. }
  destruct (pushed_both n1 n2 n fixed tid t roots x1 x2) as [Hs2 Hpushed]; [done..|].
  rewrite bind_get, bind_lift, (sim_str _ _ Hs2) in Hrest.
  destruct (cross.enables n tid t x2) as [r|] eqn:Hen; [|done].
  apply (enables_spec n fixed tid t roots x2 r Hwf Ht Hroots Hpushed) in Hen.
  assert (bookkeeping n2) as Hbk2 by (by eapply bookkeeping_similar).
  destruct r as [x'|].
  - rewrite bind_modify in Hrest. injection Hrest as <-.
    set (ch := cross.write_to x' (default ∅ (net.enabled_choice n2 !! tid))).
    destruct (enable_spec tid t ch n2 Hbk2) as (Hup & Hbk3 & Hch).
    { by rewrite (sim_str _ _ Hs2). }
    split_and!; [by eapply updates_trans_similar|done|]. simpl. rewrite lookup_insert_eq.
    apply Hen. intros p. rewrite (sim_choice _ _ Hs2).
    destruct (net.enabled_choice n !! tid) as [ch0|] eqn:Hch0; simpl; [by apply Hold|].
    rewrite lookup_empty. by intros [].
  - destruct (disable_spec tid n2 n' Hbk2 Hrest) as (Hup & Hbk3 & ->).
    split_and!; [by eapply updates_trans_similar|done|]. done.
Qed.
End update.

End Enabled.
