(* ===== verification/NetInvariant.v ===== *)
(** * The invariant of a net

    Every operation of [we/type/net.cpp] keeps [_enabled] and
    [_enabled_choice] equal to what they stand for: exactly the transitions
    that can fire are enabled, each with tokens it can fire with.  The
    operations are followed through the states in which the information is
    out of date for some transitions. *)

From S2P Require Import Prelude Value Token Function Expr Net NetFire NetCross NetEnabled ModuleCall.

Module Invariant.
Import Enabled.

#[local] Arguments eval.eval_all : simpl never.

Section invariant.
Context `{Float.Libm} `{Unordered} {N : Type}.
Implicit Types (n : net_type N) (t : transition_t N) (ch : net.choice_type).

(** The choice takes a token of [P]. *)
Definition uses (P : list token_ref) ch : Prop :=
  ∃ pid k b, ch !! pid = Some (k, b) ∧ (pid, k) ∈ P.

(** [excused]: choices that a transition that is not enabled may have
    nevertheless; [stale]: choices recorded for an enabled transition that
    need not be good any more. *)
Record Inv (excused stale : transition_id_type → net.choice_type → Prop) n : Prop := {
  inv_wf : wf n;
  inv_bookkeeping : bookkeeping n;
  inv_fed tid : is_Some (net.enabled_choice n !! tid) → ∃ p, is_input n tid p;
  inv_dom tid ch p : net.enabled_choice n !! tid = Some ch → is_Some (ch !! p) →
    is_input n tid p;
  inv_choice tid t ch : net.tmap n !! tid = Some t → net.enabled_choice n !! tid = Some ch →
    fireable n tid t ch ∨ stale tid ch;
  inv_complete tid t ch : net.tmap n !! tid = Some t → net.enabled_choice n !! tid = None →
    (∃ p, is_input n tid p) → fireable n tid t ch → excused tid ch
}.

(** Up to date, except for tokens that have not been announced. *)
Abbreviation Pending P := (Inv (λ _, uses P) (λ _ _, False)).
Abbreviation UpToDate := (Pending []).

Lemma Inv_mono (e e' s s' : transition_id_type → net.choice_type → Prop) n :
  Inv e s n →
  (∀ tid ch, (∀ p, is_Some (ch !! p) → is_input n tid p) → e tid ch → e' tid ch) →
  (∀ tid ch, net.enabled_choice n !! tid = Some ch → s tid ch → s' tid ch) →
  Inv e' s' n.
Proof.
  intros [Hwf Hbk Hfed Hdom Hch Hco] He Hs. split; [done..| |].
  - intros tid t ch Ht Hc. destruct (Hch tid t ch Ht Hc); auto.
  - intros tid t ch Ht Hc Hp Hf. eapply He; [|eauto].
    intros p. destruct Hf as ((Hsel & _) & _). by apply Hsel.
Qed.

Lemma Inv_same_marking_wf n n' : same_marking n n' → wf n → wf n'.
Proof. by intros [-> _ _]. Qed.

(** The choice takes this token. *)
Definition takes (pid : place_id_type) (k : token_id_type) ch : Prop :=
  ∃ b, ch !! pid = Some (k, b).

(** One update. *)
Lemma update_step e s fixed tid t n n' :
  Inv e s n → net.tmap n !! tid = Some t → (∃ p, is_input n tid p) →
  net_ops.update_enabled_with fixed tid n = (Ret tt, n') →
  same_marking n n' ∧
  Inv (λ tid' ch,
         if decide (tid' = tid) then
           ¬ compatible fixed ch ∧ (net.enabled_choice n !! tid = None → e tid ch)
         else e tid' ch)
      (λ tid' ch, tid' ≠ tid ∧ s tid' ch) n'.
Proof.
  intros [Hwf Hbk Hfed Hdom Hch Hco] Ht Hhas Hup.
  destruct (update_enabled_with_spec fixed tid t n n' Hwf Hbk Ht (λ ch p, Hdom tid ch p) Hup)
    as ([Hsm Hothers] & Hbk' & Hres).
  split; [done|]. pose proof (sm_str _ _ Hsm) as Hstr.
  assert (∀ tid' ch, fireable n' tid' t ch ↔ fireable n tid' t ch) as Hfire.
  { split; apply fireable_same_marking; [by symmetry|done]. }
  split; [by eapply Inv_same_marking_wf|done|..].
  - intros tid' Hc. rewrite Hstr. destruct (decide (tid' = tid)) as [->|Hne]; [done|].
    rewrite Hothers in Hc by done. auto.
  - intros tid' ch p Hc Hp. rewrite Hstr. destruct (decide (tid' = tid)) as [->|Hne].
    + rewrite Hc in Hres. destruct Hres as ((Hsel & _) & _). by apply Hsel.
    + rewrite Hothers in Hc by done. eauto.
  - intros tid' t' ch Ht' Hc. rewrite Hstr in Ht'. destruct (decide (tid' = tid)) as [->|Hne].
    + simplify_eq. rewrite Hc in Hres. left. by apply Hfire.
    + rewrite Hothers in Hc by done. destruct (Hch tid' t' ch Ht' Hc); [left|by right].
      by eapply fireable_same_marking.
  - intros tid' t' ch Ht' Hc [p Hp] Hf. rewrite Hstr in Ht', Hp.
    apply (fireable_same_marking n' n) in Hf; [|by symmetry]. case_decide as Hd.
    + subst. simplify_eq. rewrite Hc in Hres. split; [intros Hcomp; by apply (Hres ch)|]. eauto.
    + rewrite Hothers in Hc by done. eauto.
Qed.

(** *** A new token *)

Lemma uses_cons pid k P ch :
  uses ((pid, k) :: P) ch ↔ takes pid k ch ∨ uses P ch.
Proof.
  unfold uses, takes. setoid_rewrite elem_of_cons. split.
  - intros (q & k' & b & Hq & [Heq|Hin]); [left; simplify_eq; eauto|right; eauto].
  - intros [[b Hb]|(q & k' & b & Hq & Hin)]; eauto 10.
Qed.

Lemma uses_nil ch : ¬ uses [] ch.
Proof. intros (pid & k & b & _ & Hin). by apply not_elem_of_nil in Hin. Qed.

Lemma put_token_step e (todo : transition_id_type → Prop) pid k tid n n' :
  Inv (λ tid ch, e tid ch ∨ (todo tid ∧ takes pid k ch)) (λ _ _, False) n → (∃ p, is_input n tid p) →
  net_ops.update_enabled_put_token tid (pid, k) n = (Ret tt, n') →
  same_marking n n' ∧
  Inv (λ tid' ch, e tid' ch ∨ ((todo tid' ∧ tid' ≠ tid) ∧ takes pid k ch)) (λ _ _, False) n'.
Proof.
  intros Hinv Hhas. unfold net_ops.update_enabled_put_token, net_ops.this, net_ops.at_.
  rewrite bind_get, bind_lift. destruct (net.tmap n !! tid) as [t|] eqn:Ht; [|done]. simpl.
  rewrite (bk_choice n (inv_bookkeeping _ _ _ Hinv) tid t Ht).
  case_bool_decide as Hen; intros Hrun.
  - injection Hrun as <-. split; [done|].
    destruct Hinv as [Hwf Hbk Hfed Hdom Hch Hco]. split; [done..|].
    intros tid' t' ch Ht' Hc Hp Hf. destruct (Hco tid' t' ch Ht' Hc Hp Hf) as [|[? ?]]; [by left|].
    right. split; [split; [done|]|done]. intros ->. rewrite Hc in Hen. by destruct Hen.
  - apply eq_None_not_Some in Hen.
    destruct (update_step _ _ _ _ _ _ _ Hinv Ht Hhas Hrun) as [Hsm Hinv']. split; [done|].
    eapply Inv_mono; [done| |by intros ?? _ []]. intros tid' ch _. simpl.
    case_decide as Hd; [|by intros [?|[??]]; auto]. subst. intros [Hcomp Hold].
    destruct (Hold Hen) as [|[_ [b Hb]]]; [by left|]. exfalso. apply Hcomp.
    intros pid' f k' b' [= <- <-] Hk'. congruence.
Qed.

Lemma elem_of_transitions_of adj pid tid :
  tid ∈ net_ops.transitions_of adj pid ↔ (pid, tid) ∈ adj.
Proof.
  unfold net_ops.transitions_of. rewrite list_elem_of_fmap. split.
  - intros ([p' tid'] & -> & [Heq Hin]%list_elem_of_filter). simpl in *. subst.
    by apply elem_of_unordered_elements.
  - intros Hin. exists (pid, tid). split; [done|]. apply list_elem_of_filter.
    split; [done|]. by apply elem_of_unordered_elements.
Qed.

(** The transitions that are looked at when a place changes. *)
Definition successors n (pid : place_id_type) : list transition_id_type :=
  net_ops.transitions_of (net.adj_pt_consume n) pid ++
  net_ops.transitions_of (net.adj_pt_read n) pid.

Lemma elem_of_successors n pid tid : tid ∈ successors n pid ↔ is_input n tid pid.
Proof.
  unfold successors, is_input. by rewrite elem_of_app, !elem_of_transitions_of, elem_of_union.
Qed.

Lemma put_token_steps e (todo : transition_id_type → Prop) pid k tids n n' :
  Inv (λ tid ch, e tid ch ∨ (todo tid ∧ takes pid k ch)) (λ _ _, False) n →
  (∀ tid, tid ∈ tids → ∃ p, is_input n tid p) →
  for_each (λ tid, net_ops.update_enabled_put_token tid (pid, k)) tids n = (Ret tt, n') →
  same_marking n n' ∧
  Inv (λ tid' ch, e tid' ch ∨ ((todo tid' ∧ tid' ∉ tids) ∧ takes pid k ch)) (λ _ _, False) n'.
Proof.
  revert todo n. induction tids as [|tid tids IH]; intros todo n Hinv Hhas; simpl.
  - intros [= <-]. split; [done|]. eapply Inv_mono; [done| |by intros ?? _ []].
    intros tid' ch _ [?|[? ?]]; [by left|right]. split; [split; [done|set_solver]|done].
  - intros ([] & n1 & Hrun & Hrest)%bind_ret_inv.
    destruct (put_token_step _ _ _ _ _ _ _ Hinv (Hhas tid ltac:(by left)) Hrun) as [Hsm1 Hinv1].
    destruct (IH _ _ Hinv1) as [Hsm2 Hinv2]; [|done|].
    { intros tid' Hin. rewrite (sm_str _ _ Hsm1). apply Hhas. by right. }
    split; [by etrans|]. eapply Inv_mono; [done| |by intros ?? _ []].
    intros tid' ch _ [?|[[[??] ?] ?]]; [by left|right]. split; [|done]. split; [done|set_solver].
Qed.

Lemma do_update_spec P pid k n n' :
  Pending ((pid, k) :: P) n → net_ops.do_update (pid, k) n = (Ret tt, n') →
  same_marking n n' ∧ Pending P n'.
Proof.
  intros Hinv. unfold net_ops.do_update, net_ops.this. rewrite bind_get. simpl.
  fold (successors n pid). intros Hrun.
  destruct (put_token_steps (λ _, uses P) (λ _, True) pid k (successors n pid) n n')
    as [Hsm Hinv']; [| |done|].
  { eapply Inv_mono; [done| |by intros ?? _ []]. intros tid ch _ [?|?]%uses_cons; auto. }
  { intros tid Hin%elem_of_successors. by exists pid. }
  split; [done|]. eapply Inv_mono; [done| |by intros ?? _ []].
  intros tid ch Hdom [?|[[_ Hnot] [b Hb]]]; [done|]. exfalso. apply Hnot, elem_of_successors.
  rewrite <- (sm_str _ _ Hsm). apply Hdom. by eexists.
Qed.

(** *** Changes of the marking *)

(** Whether a choice is good depends on its tokens only. *)
Lemma fireable_transfer n n' tid t ch :
  net.str n' = net.str n →
  map_Forall (λ pid c, net_ops.get_token n' pid !! c.1 = net_ops.get_token n pid !! c.1) ch →
  fireable n tid t ch → fireable n' tid t ch.
Proof.
  intros Hstr Htok ((Hdom & Hall) & Hsize & Hcond).
  assert (bindings n' tid t ch = bindings n tid t ch) as Hb.
  { unfold bindings. f_equal. apply list_omap_ext, Forall2_same_length_lookup_2; [done|].
    intros i [p c] y Hx Hy. simplify_eq. unfold binding. simpl.
    apply list_elem_of_lookup_2, elem_of_map_to_list in Hx. by rewrite Hstr, (Htok p c Hx). }
  split_and!; [split|done|].
  - intros p. by rewrite Hdom, Hstr.
  - intros p c Hc. destruct (Hall p c Hc). by rewrite (Htok p c Hc), Hstr.
  - unfold condition_holds in *. by rewrite Hb.
Qed.

Definition same_tokens n n' ch : Prop :=
  map_Forall (λ pid c, net_ops.get_token n' pid !! c.1 = net_ops.get_token n pid !! c.1) ch.

(** A change of the marking makes some recorded choices stale, and some
    choices possible. *)
Lemma Inv_marking (e e' s s' : transition_id_type → net.choice_type → Prop) n n' :
  Inv e s n →
  net.str n' = net.str n → net.enabled n' = net.enabled n →
  net.enabled_choice n' = net.enabled_choice n →
  (∀ tid ch, e tid ch → e' tid ch) → (∀ tid ch, s tid ch → s' tid ch) →
  (∀ tid t ch, net.enabled_choice n !! tid = Some ch → fireable n tid t ch →
     same_tokens n n' ch ∨ s' tid ch) →
  (∀ tid t ch, fireable n' tid t ch → same_tokens n n' ch ∨ e' tid ch) →
  Inv e' s' n'.
Proof.
  intros [Hwf [H1 H2 H3 H4] Hfed Hdom Hch Hco] Hstr Hen Hchoice He Hs Hstale Hexc.
  split; [by rewrite Hstr|split; unfold net_ops.is_enabled in *|..];
    rewrite ?Hstr, ?Hen, ?Hchoice; try done.
  - intros tid t ch Ht Hc. destruct (Hch tid t ch Ht Hc) as [Hf|]; [|by right; apply Hs].
    destruct (Hstale tid t ch Hc Hf) as [Hsame|]; [left|by right].
    by eapply fireable_transfer.
  - intros tid t ch Ht Hc Hp Hf. destruct (Hexc tid t ch Hf) as [Hsame|]; [|done].
    apply He. eapply Hco; [done..|]. eapply fireable_transfer; [done| |done].
    intros pid c Hc'. symmetry. by apply Hsame.
Qed.

Lemma do_put_value_spec P pid v n r n' :
  Pending P n → net_ops.do_put_value pid v n = (Ret r, n') →
  r = (pid, net.token_id n) ∧ Pending (r :: P) n' ∧
  net.str n' = net.str n ∧ net.token_id n' = next_id (net.token_id n) ∧
  ∃ p v', net.pmap n !! pid = Some p ∧ net_ops.require v p = Ret v' ∧
  ∀ q, net_ops.get_token n' q =
    if decide (q = pid) then (emplace (net.token_id n) v' (net_ops.get_token n pid)).1
    else net_ops.get_token n q.
Proof.
  intros Hinv. unfold net_ops.do_put_value, net_ops.this, net_ops.at_.
  rewrite bind_get, bind_lift. destruct (net.pmap n !! pid) as [p|] eqn:Hp; [|done]. simpl.
  rewrite bind_modify. intros (tokens & n1 & Htouch & Hrest)%bind_ret_inv.
  destruct (touch_spec pid (net.set_token_id next_id n)) as (n2 & Ht2 & Hsim).
  rewrite Ht2 in Htouch. injection Htouch as <- <-. rewrite bind_lift in Hrest.
  destruct (net_ops.require v p) as [v'|] eqn:Hv; [|done]. rewrite bind_modify in Hrest.
  injection Hrest as <- <-. destruct Hsim as [Hstr Hid Hen Hchoice Htok].
  set (m := (emplace _ _ _).1) in *.
  assert (∀ q, net_ops.get_token (net.set_token_by_place_id <[pid := m]> n2) q =
    if decide (q = pid) then m else net_ops.get_token n q) as Hget.
  { intros q. unfold net_ops.get_token at 1. simpl. case_decide as Hq.
    - subst. by rewrite lookup_insert_eq.
    - rewrite lookup_insert_ne by done. apply (Htok q). }
  split_and!; [done| |done|done|by exists p, v'].
  eapply (Inv_marking _ _ _ _ n); [done..| |done| |].
  - intros tid ch Hu. apply uses_cons. by right.
  - intros tid t ch _ ((_ & Hall) & _). left. intros q [k b] Hc. rewrite Hget. case_decide as Hq; [|done].
    subst q m. destruct (Hall pid (k, b) Hc) as [[w Hw] _]. simpl in *. unfold emplace.
    change (net_ops.get_token (net.set_token_id next_id n) pid) with (net_ops.get_token n pid).
    destruct (net_ops.get_token n pid !! net.token_id n) eqn:Hold; [done|]. simpl.
    apply lookup_insert_ne. congruence.
  - intros tid t ch _. destruct (ch !! pid) as [[k b]|] eqn:Hch.
    + destruct (decide (k = net.token_id n)) as [->|Hne].
      { right. apply uses_cons. left. by exists b. }
      left. intros q [k' b'] Hc. rewrite Hget. case_decide as Hq; [|done]. simplify_eq/=.
      subst m. unfold emplace. change (net_ops.get_token (net.set_token_id next_id n) pid)
        with (net_ops.get_token n pid).
      destruct (net_ops.get_token n pid !! net.token_id n); [done|]. by apply lookup_insert_ne.
    + left. intros q c Hc. rewrite Hget. case_decide; [by simplify_eq|done].
Qed.

Lemma put_value_spec pid v n n' :
  UpToDate n → net_ops.put_value pid v n = (Ret tt, n') →
  UpToDate n' ∧ net.str n' = net.str n ∧ net.token_id n' = next_id (net.token_id n) ∧
  ∃ p v', net.pmap n !! pid = Some p ∧ net_ops.require v p = Ret v' ∧
  ∀ q, net_ops.get_token n' q =
    if decide (q = pid) then (emplace (net.token_id n) v' (net_ops.get_token n pid)).1
    else net_ops.get_token n q.
Proof.
  unfold net_ops.put_value. intros Hinv (r & n1 & Hput & Hupd)%bind_ret_inv.
  destruct (do_put_value_spec _ _ _ _ _ _ Hinv Hput)
    as (-> & Hinv1 & Hstr & Hid & p & v' & Hp & Hv & Htok).
  destruct (do_update_spec _ _ _ _ _ Hinv1 Hupd) as [[Hstr2 Hid2 Htok2] Hinv2].
  split_and!; [done|congruence|congruence|]. exists p, v'. split_and!; [done..|].
  intros q. by rewrite Htok2.
Qed.

(** *** Deleting tokens *)

Lemma erase_spec r n n' :
  fire.erase r n = (Ret tt, n') →
  net.str n' = net.str n ∧ net.token_id n' = net.token_id n ∧
  net.enabled n' = net.enabled n ∧ net.enabled_choice n' = net.enabled_choice n ∧
  ∀ q, net_ops.get_token n' q =
    if decide (q = r.1) then delete r.2 (net_ops.get_token n q) else net_ops.get_token n q.
Proof.
  unfold fire.erase, net_ops.at_. rewrite bind_get, bind_lift.
  destruct (net.token_by_place_id n !! r.1) as [m|] eqn:Hm; [|done]. intros [= <-].
  split_and!; [done..|]. intros q. unfold net_ops.get_token. simpl. case_decide as Hq.
  - subst. by rewrite lookup_insert_eq, Hm.
  - by rewrite lookup_insert_ne.
Qed.

Lemma erase_all_spec l n n' :
  for_each fire.erase l n = (Ret tt, n') →
  net.str n' = net.str n ∧ net.token_id n' = net.token_id n ∧
  net.enabled n' = net.enabled n ∧ net.enabled_choice n' = net.enabled_choice n ∧
  ∀ q k, net_ops.get_token n' q !! k =
    if decide ((q, k) ∈ l) then None else net_ops.get_token n q !! k.
Proof.
  revert n. induction l as [|r l IH]; intros n; cbn [for_each].
  - intros [= <-]. split_and!; [done..|]. intros q k. rewrite decide_False; [done|].
    apply not_elem_of_nil.
  - intros ([] & n1 & (Hstr & Hid & Hen & Hch & Htok)%erase_spec & Hrest)%bind_ret_inv.
    apply IH in Hrest as (-> & -> & -> & -> & Htok'). split_and!; [done..|].
    intros q k. rewrite Htok', Htok. destruct r as [pid k0]. cbn [fst snd].
    destruct (decide ((q, k) ∈ l)) as [Hin|Hin]; [by rewrite decide_True by set_solver|].
    case_decide as Hq; [|rewrite decide_False by set_solver; done]. subst.
    destruct (decide (k0 = k)) as [->|Hne].
    + by rewrite lookup_delete_eq, decide_True by set_solver.
    + rewrite lookup_delete_ne by done. rewrite decide_False by set_solver. done.
Qed.

Lemma compatible_none ch : compatible None ch.
Proof. by intros pid f k b. Qed.

(** Recorded choices that take a deleted token are looked for by the
    identifier of the token alone, which finds all of them. *)
Lemma existsb_uses (l : list token_ref) ch :
  existsb (λ c, bool_decide (c.2.1 ∈ (list_to_set l.*2 : gset token_id_type)))
    (unordered_list ch) = false → ¬ uses l ch.
Proof.
  intros Hex (pid & k & b & Hch & Hin). apply not_true_iff_false in Hex. apply Hex.
  apply existsb_exists. exists (pid, (k, b)). split.
  - by apply list_elem_of_In, elem_of_unordered_list.
  - apply bool_decide_eq_true_2, elem_of_list_to_set. simpl.
    apply list_elem_of_fmap. by exists (pid, k).
Qed.

Lemma revise_step e (todo : transition_id_type → Prop) l tid n n' :
  Inv e (λ tid ch, todo tid ∧ uses l ch) n →
  fire.revise (list_to_set l.*2) tid n = (Ret tt, n') →
  same_marking n n' ∧ Inv e (λ tid' ch, (todo tid' ∧ tid' ≠ tid) ∧ uses l ch) n'.
Proof.
  intros Hinv. unfold fire.revise, net_ops.at_. rewrite bind_get, bind_lift.
  destruct (net.tmap n !! tid) as [t|] eqn:Ht; [|done]. cbn [or_throw].
  rewrite (bk_choice n (inv_bookkeeping _ _ _ Hinv) tid t Ht). case_bool_decide as Hen.
  2: { intros [= <-]. split; [done|]. eapply Inv_mono; [done|done|].
       intros tid' ch Hc [??]. split; [split; [done|]|done]. intros ->. apply Hen. by eexists. }
  rewrite bind_lift. destruct (net.enabled_choice n !! tid) as [ch|] eqn:Hch; [|done].
  cbn [or_throw]. destruct (existsb _ _) eqn:Hex; intros Hrun.
  - destruct (update_step _ _ _ _ _ _ _ Hinv Ht (inv_fed _ _ _ Hinv tid ltac:(by rewrite Hch)) Hrun) as [Hsm Hinv']. split; [done|].
    eapply Inv_mono; [done| |].
    + intros tid' ch' _. simpl. case_decide; [|done]. intros [Hcomp _].
      by destruct (Hcomp (compatible_none ch')).
    + by intros tid' ch' _ (? & ? & ?).
  - injection Hrun as <-. split; [done|]. eapply Inv_mono; [done|done|].
    intros tid' ch' Hc [??]. split; [split; [done|]|done]. intros ->. simplify_eq.
    by eapply existsb_uses.
Qed.

Lemma revise_steps e (todo : transition_id_type → Prop) l tids n n' :
  Inv e (λ tid ch, todo tid ∧ uses l ch) n →
  for_each (fire.revise (list_to_set l.*2)) tids n = (Ret tt, n') →
  same_marking n n' ∧ Inv e (λ tid' ch, (todo tid' ∧ tid' ∉ tids) ∧ uses l ch) n'.
Proof.
  revert todo n. induction tids as [|tid tids IH]; intros todo n Hinv; simpl.
  - intros [= <-]. split; [done|]. eapply Inv_mono; [done|done|].
    intros tid' ch _ [? ?]. split; [split; [done|set_solver]|done].
  - intros ([] & n1 & Hrun & Hrest)%bind_ret_inv.
    destruct (revise_step _ _ _ _ _ _ Hinv Hrun) as [Hsm1 Hinv1].
    destruct (IH _ _ Hinv1 Hrest) as [Hsm2 Hinv2].
    split; [by etrans|]. eapply Inv_mono; [done|done|].
    intros tid' ch _ [[[??] ?] ?]. split; [split; [done|set_solver]|done].
Qed.

(** [rs] are the deleted tokens whose places are still to be visited. *)
Lemma revise_places e (todo : transition_id_type → Prop) l rs n n' :
  Inv e (λ tid ch, todo tid ∧ uses l ch) n →
  for_each (λ r : token_ref, get ≫= λ n : net_type N,
    for_each (fire.revise (list_to_set l.*2))
      (net_ops.transitions_of (net.adj_pt_consume n) r.1 ++
       net_ops.transitions_of (net.adj_pt_read n) r.1)) rs n = (Ret tt, n') →
  same_marking n n' ∧
  Inv e (λ tid ch, (todo tid ∧ ∀ r : token_ref, r ∈ rs → ¬ is_input n tid r.1) ∧ uses l ch) n'.
Proof.
  revert todo n. induction rs as [|r rs IH]; intros todo n Hinv.
  - intros [= <-]. split; [done|]. eapply Inv_mono; [done|done|].
    intros tid ch _ [? ?]. split; [split; [done|set_solver]|done].
  - cbn [for_each]. intros ([] & n1 & Hrun & Hrest)%bind_ret_inv. rewrite bind_get in Hrun.
    destruct (revise_steps _ _ _ _ _ _ Hinv Hrun) as [Hsm1 Hinv1].
    destruct (IH _ _ Hinv1 Hrest) as [Hsm2 Hinv2]. fold (successors n r.1) in Hinv2.
    split; [by etrans|]. eapply Inv_mono; [done|done|].
    intros tid ch _ [[[? Hsucc] Hrs] ?]. split; [split; [done|]|done].
    intros r' [->|Hr']%elem_of_cons.
    + by rewrite elem_of_successors in Hsucc.
    + rewrite <- (sm_str _ _ Hsm1). by apply Hrs.
Qed.

Lemma do_delete_spec P l n n' :
  Pending P n → fire.do_delete l n = (Ret tt, n') →
  Pending P n' ∧ net.str n' = net.str n ∧ net.token_id n' = net.token_id n ∧
  ∀ q k, net_ops.get_token n' q !! k =
    if decide ((q, k) ∈ l) then None else net_ops.get_token n q !! k.
Proof.
  unfold fire.do_delete. intros Hinv ([] & n1 & Herase & Hrev)%bind_ret_inv.
  apply erase_all_spec in Herase as (Hstr & Hid & Hen & Hch & Htok).
  assert (Inv (λ _, uses P) (λ tid ch, True ∧ uses l ch) n1) as Hinv1.
  { eapply (Inv_marking _ _ _ _ n); [done..|by intros ?? []| |].
    - intros tid t ch Hc Hf.
      destruct (decide (map_Forall (λ pid c, (pid, c.1) ∉ l) ch)) as [Hall|Hnot].
      + left. intros pid c Hpc. rewrite Htok, decide_False; [done|]. by apply Hall.
      + right. split; [done|]. apply map_not_Forall in Hnot as (pid & [k b] & Hpc & Hin); [|apply _].
        exists pid, k, b. split; [done|]. by destruct (decide ((pid, k) ∈ l)).
    - intros tid t ch ((_ & Hall) & _). left. intros pid c Hpc.
      destruct (Hall pid c Hpc) as [[v Hv] _]. rewrite Htok in Hv |- *. by case_decide. }
  destruct (revise_places _ _ _ _ _ _ Hinv1 Hrev) as [[Hstr2 Hid2 Htok2] Hinv2].
  split_and!; [|congruence|congruence|].
  - eapply Inv_mono; [done|done|]. intros tid ch Hc [[_ Hnot] (pid & k & b & Hpc & Hin)].
    apply (Hnot (pid, k) Hin). rewrite <- Hstr2. eapply (inv_dom _ _ _ Hinv2); [done|by eexists].
  - intros q k. by rewrite Htok2, Htok.
Qed.
End invariant.

(** ** The operations that fire *)
Section firing.
Context `{Float.Libm} `{Unordered} {P W : Type} (env : fire.environment P W).
Abbreviation net_t := (net_type workflow).
Abbreviation state := (net_t * (plugin.Plugins P * W))%type.
Abbreviation Pending Q := (Inv (λ _, uses Q) (λ _ _, False)).
Abbreviation UpToDate := (Pending []).

Lemma Pending_equiv (Q Q' : list token_ref) (n : net_t) :
  (∀ r, r ∈ Q → r ∈ Q') → Pending Q n → Pending Q' n.
Proof.
  intros HQ Hinv. eapply Inv_mono; [done| |done].
  intros tid ch _ (pid & k & b & Hch & Hin). exists pid, k, b. auto.
Qed.

Lemma extract_activity_spec tid t (n n' : net_t) act :
  UpToDate n → fire.extract_activity tid t n = (Ret act, n') →
  UpToDate n' ∧ net.str n' = net.str n ∧ net.token_id n' = net.token_id n.
Proof.
  intros Hinv. unfold fire.extract_activity.
  destruct (fire.do_extract _ _ _ _) as [[l|e] act']; [|done].
  intros ([] & n1 & Hdel & [= _ <-])%bind_ret_inv.
  by destruct (do_delete_spec _ _ _ _ Hinv Hdel) as (? & ? & ? & _).
Qed.

Lemma put_many_spec pid vs Q (n n' : net_t) (s : plugin.Plugins P * W) rs s' :
  Pending Q n → fire.put_many pid vs (n, s) = (Ret rs, (n', s')) →
  Pending (rs ++ Q) n' ∧ net.str n' = net.str n.
Proof.
  revert Q n s rs. induction vs as [|v vs IH]; intros Q n s rs Hinv; cbn [fire.put_many].
  { by intros [= <- <- <-]. }
  intros (r & [n1 s1] & Hput & Hrest)%bind_ret_inv. unfold fire.on_net in Hput.
  destruct (net_ops.do_put_value pid v n) as [[r'|e] n1'] eqn:Hput'; [|done].
  injection Hput as <- <- <-.
  destruct (do_put_value_spec _ _ _ _ _ _ Hinv Hput') as (_ & Hinv1 & Hstr & _).
  apply bind_ret_inv in Hrest as (rs' & [n2 s2] & Hmany & [= <- <- <-]).
  destruct (IH _ _ _ _ Hinv1 Hmany) as [Hinv2 Hstr2]. split; [|congruence].
  eapply Pending_equiv; [|done]. set_solver.
Qed.

(** Parts that leave the net alone. *)
Abbreviation keeps n := (preserves (λ s : state, s.1 = n)).

Lemma keeps_on_plugins {A} n (m : M _ exn A) : keeps n (fire.on_plugins m : M state exn A).
Proof. intros [n0 s]. simpl. by destruct (m s). Qed.
Lemma keeps_on_world {A} n (m : M W exn A) : keeps n (fire.on_world m : M state exn A).
Proof. intros [n0 [ps w]]. simpl. by destruct (m w). Qed.
Lemma keeps_nest {A} n what (m : M state exn A) :
  keeps n m → keeps n (fire.nest_exceptions what m).
Proof.
  intros Hm s Hs. specialize (Hm s Hs). unfold fire.nest_exceptions.
  by destruct (m s) as [[]].
Qed.
Lemma keeps_send_eureka n ids : keeps n (fire.send_eureka env ids).
Proof.
  unfold fire.send_eureka. case_decide; [apply preserves_ret|].
  apply keeps_nest, keeps_on_world.
Qed.

#[local] Hint Resolve keeps_on_plugins keeps_on_world keeps_nest keeps_send_eureka : gspc.

Lemma keeps_call_plugins n key call commands c :
  keeps n (fire.call_plugins key call commands c).
Proof.
  unfold fire.call_plugins. destruct (Path.peek [key] commands); auto with gspc.
  apply preserves_bind; [auto with gspc|]. intros s.
  apply preserves_bind; [auto with gspc|]. intros e.
  destruct (eval.eval_all e c) as [r c']. auto 10 with gspc.
Qed.

Lemma keeps_evaluate n t c : keeps n (fire.evaluate env t c).
Proof.
  unfold fire.evaluate, fire.destroy_plugin, fire.create_plugin.
  apply preserves_bind.
  { destruct (Path.peek _ _); auto with gspc. apply preserves_bind; [apply keeps_call_plugins|].
    intros c'. destruct (Path.peek _ _); auto with gspc. }
  intros c'. apply preserves_bind; [auto with gspc|]. intros e.
  destruct (eval.eval_all e c') as [r c'']. apply preserves_bind; [auto with gspc|]. intros _.
  destruct (Path.peek _ _); auto with gspc. apply preserves_bind.
  - destruct (Path.peek _ _); auto 10 with gspc.
  - intros. apply keeps_call_plugins.
Qed.

Lemma keeps_ret n {A} (m : M state exn A) a n' s s' :
  keeps n m → m (n, s) = (Ret a, (n', s')) → n' = n.
Proof. intros Hm Hrun. specialize (Hm (n, s) eq_refl). by rewrite Hrun in Hm. Qed.

Lemma emit_spec tid c p Q (n n' : net_t) (s : plugin.Plugins P * W) rs s' :
  Pending Q n → fire.emit env tid c p (n, s) = (Ret rs, (n', s')) →
  Pending (rs ++ Q) n' ∧ net.str n' = net.str n.
Proof.
  intros Hinv. unfold fire.emit. rewrite bind_get. cbn [fst].
  assert (∀ m : M state exn unit, keeps n m →
    (m ≫= λ _, mret []) (n, s) = (Ret rs, (n', s')) →
    Pending (rs ++ Q) n' ∧ net.str n' = net.str n) as Hsilent.
  { intros m Hm ([] & [n1 s1] & Hrun & [= <- <- <-])%bind_ret_inv.
    by apply (keeps_ret n m tt n1 s s1) in Hrun as ->. }
  destruct (fire.connection (net.port_to_place n) tid p.1) as [[pid prop]|].
  { rewrite bind_lift. destruct (context.value _ _); [|done]. by apply put_many_spec. }
  destruct (fire.connection (net.port_many_to_place n) tid p.1) as [[pid prop]|].
  { rewrite bind_lift. destruct (_ ≫= _); [|done]. by apply put_many_spec. }
  case_bool_decide.
  - rewrite bind_lift. destruct (_ ≫= _) as [ids|]; [|done]. apply Hsilent. auto with gspc.
  - apply Hsilent. auto 10 with gspc.
Qed.

Lemma emit_all_spec tid c ports Q (n n' : net_t) (s : plugin.Plugins P * W) rs s' :
  Pending Q n → fire.emit_all env tid c ports (n, s) = (Ret rs, (n', s')) →
  Pending (rs ++ Q) n' ∧ net.str n' = net.str n.
Proof.
  revert Q n s rs. induction ports as [|p ports IH]; intros Q n s rs Hinv; cbn [fire.emit_all].
  { by intros [= <- <- <-]. }
  intros (r & [n1 s1] & Hemit & Hrest)%bind_ret_inv.
  destruct (emit_spec _ _ _ _ _ _ _ _ _ Hinv Hemit) as [Hinv1 Hstr1].
  apply bind_ret_inv in Hrest as (rs' & [n2 s2] & Hall & [= <- <- <-]).
  destruct (IH _ _ _ _ Hinv1 Hall) as [Hinv2 Hstr2]. split; [|congruence].
  eapply Pending_equiv; [|done]. set_solver.
Qed.

Lemma do_updates_spec rs (n n' : net_t) :
  Pending rs n → for_each net_ops.do_update rs n = (Ret tt, n') →
  UpToDate n' ∧ same_marking n n'.
Proof.
  revert n. induction rs as [|[pid k] rs IH]; intros n Hinv; cbn [for_each].
  { by intros [= <-]. }
  intros ([] & n1 & Hupd & Hrest)%bind_ret_inv.
  destruct (do_update_spec _ _ _ _ _ Hinv Hupd) as [Hsm1 Hinv1].
  destruct (IH _ Hinv1 Hrest) as [Hinv2 Hsm2]. split; [done|by etrans].
Qed.

Lemma on_net_ret {A} (m : M net_t exn A) n (s : plugin.Plugins P * W) a n' s' :
  fire.on_net m (n, s) = (Ret a, (n', s')) → m n = (Ret a, n') ∧ s' = s.
Proof. simpl. destruct (m n) as [r n1]. by intros [= -> -> ->]. Qed.

Lemma fire_expression_spec tid t (n n' : net_t) (s s' : plugin.Plugins P * W) :
  UpToDate n → fire.fire_expression env tid t (n, s) = (Ret tt, (n', s')) →
  UpToDate n' ∧ net.str n' = net.str n.
Proof.
  intros Hinv. unfold fire.fire_expression. rewrite bind_get. cbn [fst].
  destruct (fire.do_extract _ _ _ _) as [r c]. rewrite bind_lift. destruct r as [l|]; [|done].
  intros (c' & [n1 s1] & Hev & Hrest)%bind_ret_inv.
  apply (keeps_ret n) in Hev; [subst|apply keeps_evaluate].
  apply bind_ret_inv in Hrest as (rs & [n2 s2] & Hemit & Hrest).
  destruct (emit_all_spec _ _ _ _ _ _ _ _ _ Hinv Hemit) as [Hinv2 Hstr2].
  rewrite app_nil_r in Hinv2.
  apply bind_ret_inv in Hrest as ([] & [n3 s3] & [Hdel ->]%on_net_ret & [Hupd _]%on_net_ret).
  destruct (do_delete_spec _ _ _ _ Hinv2 Hdel) as (Hinv3 & Hstr3 & _ & _).
  destruct (do_updates_spec _ _ _ Hinv3 Hupd) as [Hinv4 [Hstr4 _ _]].
  split; [done|congruence].
Qed.

Lemma put_values_spec pid vs (n n' : net_t) (s s' : plugin.Plugins P * W) :
  UpToDate n → fire.put_values pid vs (n, s) = (Ret tt, (n', s')) →
  UpToDate n' ∧ net.str n' = net.str n.
Proof.
  unfold fire.put_values. revert n s. induction vs as [|v vs IH]; intros n s Hinv; cbn [for_each].
  { by intros [= <- <-]. }
  intros ([] & [n1 s1] & [Hput ->]%on_net_ret & Hrest)%bind_ret_inv.
  destruct (put_value_spec _ _ _ _ Hinv Hput) as (Hinv1 & Hstr1 & _).
  destruct (IH _ _ Hinv1 Hrest) as [? ?]. split; [done|congruence].
Qed.

Lemma inject_token_spec tid input top (n n' : net_t) (s s' : plugin.Plugins P * W) :
  UpToDate n → fire.inject_token env tid input top (n, s) = (Ret tt, (n', s')) →
  UpToDate n' ∧ net.str n' = net.str n.
Proof.
  intros Hinv. unfold fire.inject_token. rewrite bind_get. destruct top as [v port]. cbn [fst].
  assert (∀ m : M state exn unit, keeps n m → m (n, s) = (Ret tt, (n', s')) →
    UpToDate n' ∧ net.str n' = net.str n) as Hsilent.
  { intros m Hm Hrun. by apply (keeps_ret n m tt n' s s') in Hrun as ->. }
  destruct (fire.connection _ _ _) as [[pid prop]|]; [by apply put_values_spec|].
  destruct (fire.connection _ _ _) as [[pid prop]|].
  { rewrite bind_lift. destruct (fire.get_list v); [|done]. by apply put_values_spec. }
  case_bool_decide.
  - rewrite bind_lift. destruct (_ ≫= _) as [ids|]; [|done]. apply Hsilent. auto with gspc.
  - apply Hsilent. auto 10 with gspc.
Qed.

Lemma inject_spec tid output input (n n' : net_t) (s s' : plugin.Plugins P * W) :
  UpToDate n → fire.inject env tid output input (n, s) = (Ret tt, (n', s')) →
  UpToDate n' ∧ net.str n' = net.str n.
Proof.
  unfold fire.inject. revert n s. induction output as [|top output IH]; intros n s Hinv; cbn [for_each].
  { by intros [= <- <-]. }
  intros ([] & [n1 s1] & Htok & Hrest)%bind_ret_inv.
  destruct (inject_token_spec _ _ _ _ _ _ _ Hinv Htok) as [Hinv1 Hstr1].
  destruct (IH _ _ Hinv1 Hrest) as [? ?]. split; [done|congruence].
Qed.
End firing.

(** ** Building a net *)
Section building.
Context `{Float.Libm} `{Unordered} {N : Type}.
Implicit Types (s : net.structure N) (n : net_type N) (t : transition_t N)
  (ch : net.choice_type).

(** Nothing changes for this transition. *)
Record same_inputs (tid : transition_id_type) s s' : Prop := {
  si_input p : is_input s' tid p ↔ is_input s tid p;
  si_reads p : reads s' tid p = reads s tid p;
  si_ports : net.place_to_port s' !! tid = net.place_to_port s !! tid
}.

Lemma same_inputs_sym tid s s' : same_inputs tid s s' → same_inputs tid s' s.
Proof. intros [H1 H2 H3]. by split. Qed.

Lemma input_port_name_same tid t s s' p :
  same_inputs tid s s' → cross.input_port_name s' tid t p = cross.input_port_name s tid t p.
Proof. intros [_ _ H3]. unfold cross.input_port_name. by rewrite H3. Qed.

Lemma fireable_same_inputs tid t s' n ch :
  same_inputs tid n s' → fireable n tid t ch → fireable (net.set_str (λ _, s') n) tid t ch.
Proof.
  intros Hsame ((Hdom & Hall) & Hsize & Hcond).
  assert (bindings (net.set_str (λ _, s') n) tid t ch = bindings n tid t ch) as Hb.
  { unfold bindings. f_equal. apply list_omap_ext, Forall2_same_length_lookup_2; [done|].
    intros i [p c] y Hx Hy. simplify_eq. unfold binding. simpl.
    by rewrite (input_port_name_same _ _ _ _ _ Hsame). }
  split_and!; [split|done|].
  - intros p. simpl. by rewrite (si_input _ _ _ Hsame).
  - intros p c Hc. simpl. rewrite (si_reads _ _ _ Hsame). by apply Hall.
  - unfold condition_holds in *. by rewrite Hb.
Qed.

(** Changes of the structure outside the inputs of transitions; [changed] is
    a transition that is left to be updated. *)
Lemma Inv_structure (changed : option transition_id_type) s' n :
  Inv (λ _, uses []) (λ _ _, False) n → wf s' → net.tmap n ⊆ net.tmap s' →
  (∀ tid p, net.tmap n !! tid = None → ¬ is_input s' tid p) →
  (∀ tid, changed ≠ Some tid → same_inputs tid n s') →
  (∀ tid p, is_input n tid p → is_input s' tid p) →
  Inv (λ tid _, changed = Some tid) (λ tid _, changed = Some tid) (net.set_str (λ _, s') n).
Proof.
  intros [Hwf [H1 H2 H3 H4] Hfed Hdom Hch Hco] Hwf' Hsub Hnew Hsame Hgrow.
  assert (∀ tid t, net.tmap s' !! tid = Some t → net.tmap n !! tid = Some t ∨
    net.tmap n !! tid = None) as Hcase.
  { intros tid t Ht. destruct (net.tmap n !! tid) as [t'|] eqn:Ht'; [left|by right].
    pose proof (lookup_weaken _ _ _ _ Ht' Hsub). congruence. }
  split; [done|split|..]; simpl.
  - done.
  - intros prio tids tid Hp Hin. destruct (H2 _ _ _ Hp Hin) as (t & Ht & Hprio).
    exists t. split; [by eapply lookup_weaken|done].
  - intros tid Hc. destruct (H3 tid Hc) as [t Ht]. exists t. by eapply lookup_weaken.
  - intros tid t Ht. unfold net_ops.is_enabled in *. simpl.
    destruct (Hcase tid t Ht) as [Ht'|Hnone]; [by apply H4|].
    rewrite !bool_decide_false; [done| |].
    + intros Hc. destruct (H3 tid Hc) as [? ?]. congruence.
    + destruct (net.enabled n !! transition.priority t) as [tids|] eqn:Hp; [|set_solver].
      simpl. intros Hin. destruct (H2 _ _ _ Hp Hin) as (? & ? & _). congruence.
  - intros tid Hc. destruct (Hfed tid Hc) as [p Hp]. exists p. by apply Hgrow.
  - intros tid ch p Hc Hp. eapply Hgrow, Hdom; done.
  - intros tid t ch Ht Hc. destruct (decide (changed = Some tid)) as [|Hne]; [by right|left].
    destruct (Hcase tid t Ht) as [Ht'|Hnone].
    + destruct (Hch tid t ch Ht' Hc) as [|[]]. apply fireable_same_inputs; auto.
    + destruct (H3 tid) as [? ?]; [by eexists|]. congruence.
  - intros tid t ch Ht Hc [p Hp] Hf. destruct (decide (changed = Some tid)) as [|Hne]; [done|].
    exfalso. destruct (Hcase tid t Ht) as [Ht'|Hnone]; [|by eapply Hnew].
    eapply uses_nil, Hco; [done..| |].
    + exists p. by apply (si_input _ _ _ (Hsame tid Hne)).
    + apply (fireable_same_inputs tid t (net.str n)) in Hf; [by destruct n|].
      apply same_inputs_sym. auto.
Qed.

Lemma same_inputs_eq s s' tid :
  net.adj_pt_consume s' = net.adj_pt_consume s → net.adj_pt_read s' = net.adj_pt_read s →
  net.place_to_port s' = net.place_to_port s → same_inputs tid s s'.
Proof.
  intros Hc Hr Hp. split; intros; unfold is_input, reads; by rewrite ?Hc, ?Hr, ?Hp.
Qed.

(** The structure changes only where no input of a transition is concerned. *)
Lemma Inv_frame s' n :
  Inv (λ _, uses []) (λ _ _, False) n → net.tmap n ⊆ net.tmap s' →
  net.adj_pt_consume s' = net.adj_pt_consume n → net.adj_pt_read s' = net.adj_pt_read n →
  net.place_to_port s' = net.place_to_port n →
  Inv (λ _, uses []) (λ _ _, False) (net.set_str (λ _, s') n).
Proof.
  intros Hinv Hsub Hc Hr Hp. pose proof (λ tid, same_inputs_eq n s' tid Hc Hr Hp) as Hsame.
  pose proof (inv_wf _ _ _ Hinv) as [W1 W2 W3].
  eapply Inv_mono; [apply (Inv_structure None); [done| |done| |by auto|]| |]; try done.
  - split; [| |by rewrite Hc, Hr].
    + intros tid p Hin%Hsame. destruct (W1 tid p Hin) as (t & name & Ht & Hname).
      exists t, name. split; [by eapply lookup_weaken|]. by rewrite (input_port_name_same _ _ n).
    + intros tid t p1 p2 name Hp1%Hsame Hp2%Hsame Ht.
      rewrite (input_port_name_same _ _ n _ p1), (input_port_name_same _ _ n _ p2) by done.
      apply W2; [done..|].
      destruct (W1 tid p1 Hp1) as (t' & name' & Ht' & _).
      pose proof (lookup_weaken _ _ _ _ Ht' Hsub). congruence.
  - intros tid p Hnone Hin%Hsame. destruct (W1 tid p Hin) as (? & ? & ? & _). congruence.
  - intros tid p Hin. by apply Hsame.
Qed.

Lemma Inv_frame_eq n n' :
  Inv (λ _, uses []) (λ _ _, False) n → n' = net.set_str (λ _, net.str n') n →
  net.tmap n ⊆ net.tmap n' →
  net.adj_pt_consume n' = net.adj_pt_consume n → net.adj_pt_read n' = net.adj_pt_read n →
  net.place_to_port n' = net.place_to_port n →
  Inv (λ _, uses []) (λ _ _, False) n'.
Proof. intros ? -> ? ? ? ?. by apply Inv_frame. Qed.

Lemma emplace_subseteq `{Countable K} {V} (k : K) (v : V) m : m ⊆ (emplace k v m).1.
Proof.
  unfold emplace. destruct (m !! k) eqn:Hk; [done|]. by apply insert_subseteq.
Qed.

Lemma add_place_spec p n pid n' :
  Inv (λ _, uses []) (λ _ _, False) n → net_ops.add_place p n = (Ret pid, n') →
  Inv (λ _, uses []) (λ _ _, False) n'.
Proof.
  intros Hinv. unfold net_ops.add_place, net_ops.this. rewrite bind_get, bind_modify.
  destruct (emplace (place.name p) _ _) as [by_name is_new]. rewrite bind_modify.
  destruct is_new; [|done]. intros [= _ <-].
  by apply (Inv_frame_eq n).
Qed.

Lemma add_transition_spec t n tid n' :
  Inv (λ _, uses []) (λ _ _, False) n → net_ops.add_transition t n = (Ret tid, n') →
  Inv (λ _, uses []) (λ _ _, False) n'.
Proof.
  intros Hinv. unfold net_ops.add_transition, net_ops.this. rewrite bind_get, bind_modify.
  intros [= _ <-]. apply (Inv_frame_eq n); try done. apply emplace_subseteq.
Qed.

Lemma add_response_spec tid port to prop n n' :
  Inv (λ _, uses []) (λ _ _, False) n → net_ops.add_response tid port to prop n = (Ret tt, n') →
  Inv (λ _, uses []) (λ _ _, False) n'.
Proof.
  intros Hinv. unfold net_ops.add_response, net_ops.this. rewrite bind_get.
  destruct (net_ops.emplace2 _ _ _ _) as [m []]; rewrite bind_modify; [|done]. intros [= <-].
  by apply (Inv_frame_eq n).
Qed.

Lemma add_eureka_spec tid port n n' :
  Inv (λ _, uses []) (λ _ _, False) n → net_ops.add_eureka tid port n = (Ret tt, n') →
  Inv (λ _, uses []) (λ _ _, False) n'.
Proof.
  intros Hinv. unfold net_ops.add_eureka, net_ops.this. rewrite bind_get.
  destruct (emplace _ _ _) as [m []]; rewrite bind_modify; [|done]. intros [= <-].
  by apply (Inv_frame_eq n).
Qed.

(** The transition has such an input or tunnel port, and no connected place
    goes by the name of the port. *)
Definition connectable n (tid : transition_id_type) (port : port_id_type) : Prop :=
  ∃ t name, net.tmap n !! tid = Some t ∧
    match transition.ports_input t !! port with
    | Some p => Ret (port.name p)
    | None => port.name <$> or_throw out_of_range (transition.ports_tunnel t !! port)
    end = Ret name ∧
    ∀ p, is_input n tid p → cross.input_port_name n tid t p ≠ Ret name.

(** The structure with one more input connection. *)
Definition connect (read : bool) tid pid (c : port_id_type * property_type) s :
    net.structure N :=
  net.set_place_to_port (λ m, <[tid := <[pid := c]> (default ∅ (m !! tid))]> m)
    ((if read then net.set_adj_pt_read (λ a, {[(pid, tid)]} ∪ a)
      else net.set_adj_pt_consume (λ a, {[(pid, tid)]} ∪ a)) s).

Lemma connect_input read tid pid c s tid' p :
  is_input (connect read tid pid c s) tid' p ↔ (tid' = tid ∧ p = pid) ∨ is_input s tid' p.
Proof. unfold is_input, connect. destruct read; simpl; set_solver. Qed.

Lemma connect_same_inputs read tid pid c s tid' :
  tid' ≠ tid → same_inputs tid' s (connect read tid pid c s).
Proof.
  intros Hne. split.
  - intros p. rewrite connect_input. naive_solver.
  - intros p. unfold reads, connect. destruct read; simpl; [|done].
    apply bool_decide_ext. set_solver.
  - unfold connect. destruct read; simpl; by rewrite lookup_insert_ne.
Qed.

Lemma connect_port_name read tid pid c s t p :
  cross.input_port_name (connect read tid pid c s) tid t p =
  if decide (p = pid) then
    match transition.ports_input t !! c.1 with
    | Some p => Ret (port.name p)
    | None => port.name <$> or_throw out_of_range (transition.ports_tunnel t !! c.1)
    end
  else
    match net.place_to_port s !! tid ≫= (.!! p) with
    | Some _ => cross.input_port_name s tid t p
    | None => Throw out_of_range
    end.
Proof.
  unfold cross.input_port_name, connect.
  assert (∀ m, net.place_to_port (net.set_place_to_port (N:=N) m
    ((if read then net.set_adj_pt_read (λ a, {[(pid, tid)]} ∪ a)
      else net.set_adj_pt_consume (λ a, {[(pid, tid)]} ∪ a)) s)) = m (net.place_to_port s)) as ->.
  { by destruct read. }
  rewrite lookup_insert_eq. simpl. case_decide as Hp; [subst; by rewrite lookup_insert_eq|].
  rewrite lookup_insert_ne by done. destruct (net.place_to_port s !! tid) as [m|]; simpl.
  - by destruct (m !! p).
  - by rewrite lookup_empty.
Qed.

Lemma input_port_name_connected tid t s p name :
  cross.input_port_name s tid t p = Ret name → is_Some (net.place_to_port s !! tid ≫= (.!! p)).
Proof.
  unfold cross.input_port_name. destruct (net.place_to_port s !! tid) as [m|]; [|done]. simpl.
  destruct (m !! p); [by eexists|done].
Qed.

Lemma connect_wf read tid pid port prop n :
  wf n → connectable n tid port → net.place_to_port n !! tid ≫= (.!! pid) = None →
  wf (connect read tid pid (port, prop) n).
Proof.
  intros [W1 W2 W3] (t & name & Ht & Hname & Hfresh) Hnew.
  assert (net.tmap (connect read tid pid (port, prop) n) = net.tmap n) as Htmap by (by destruct read).
  assert (∀ tid' t', tid' ≠ tid → ∀ p, cross.input_port_name (connect read tid pid (port, prop) n)
    tid' t' p = cross.input_port_name n tid' t' p) as Hother.
  { intros. apply input_port_name_same. by apply connect_same_inputs. }
  assert (¬ is_input n tid pid) as Hnot.
  { intros Hin. destruct (W1 _ _ Hin) as (t' & nm & Ht' & Hnm%input_port_name_connected).
    rewrite Hnew in Hnm. by destruct Hnm. }
  assert (∀ p, is_input n tid p → cross.input_port_name (connect read tid pid (port, prop) n) tid t p
    = cross.input_port_name n tid t p) as Hold.
  { intros p Hp. rewrite connect_port_name, decide_False by (by intros ->).
    destruct (W1 _ _ Hp) as (t' & nm & Ht' & Hnm). simplify_eq.
    by destruct (input_port_name_connected _ _ _ _ _ Hnm) as [? ->]. }
  assert (cross.input_port_name (connect read tid pid (port, prop) n) tid t pid = Ret name) as Hpid.
  { by rewrite connect_port_name, decide_True. }
  split.
  - intros tid' p [[-> ->]|Hin]%connect_input; rewrite Htmap; [eauto|].
    destruct (W1 _ _ Hin) as (t' & nm & Ht' & Hnm). exists t', nm. split; [done|].
    destruct (decide (tid' = tid)) as [->|]; [|by rewrite Hother]. simplify_eq. by rewrite Hold.
  - intros tid' t' p1 p2 nm Hp1%connect_input Hp2%connect_input Ht'. rewrite Htmap in Ht'.
    destruct (decide (tid' = tid)) as [->|Hne].
    2: { rewrite !Hother by done. apply W2; naive_solver. }
    simplify_eq. destruct Hp1 as [[_ ->]|Hp1], Hp2 as [[_ ->]|Hp2]; [done|..].
    + rewrite Hpid, Hold by done. intros [= <-] Hn. by destruct (Hfresh _ Hp2).
    + rewrite Hpid, Hold by done. intros Hn [= <-]. by destruct (Hfresh _ Hp1).
    + rewrite !Hold by done. by apply W2.
  - unfold is_input in Hnot. unfold connect. destruct read; simpl; set_solver.
Qed.

Lemma emplace2_new `{Countable K1, Countable K2} {V} (k1 : K1) (k2 : K2) (v : V) m m' :
  net_ops.emplace2 k1 k2 v m = (m', true) →
  m !! k1 ≫= (.!! k2) = None ∧ m' = <[k1 := <[k2 := v]> (default ∅ (m !! k1))]> m.
Proof.
  unfold net_ops.emplace2, emplace.
  destruct (m !! k1) as [mi|] eqn:Hk1; simpl.
  - destruct (mi !! k2) eqn:Hk2; intros [= <-]. done.
  - rewrite lookup_empty. intros [= <-]. done.
Qed.

Lemma add_input_connection_spec read tid pid port prop n n' :
  Inv (λ _, uses []) (λ _ _, False) n → connectable n tid port →
  net.place_to_port n !! tid ≫= (.!! pid) = None →
  net_ops.update_enabled tid (net.set_str (λ _, connect read tid pid (port, prop) n) n) = (Ret tt, n') →
  Inv (λ _, uses []) (λ _ _, False) n'.
Proof.
  intros Hinv Hconn Hnew Hupd.
  pose proof (connect_wf read tid pid port prop n (inv_wf _ _ _ Hinv) Hconn Hnew) as Hwf.
  destruct Hconn as (t & name & Ht & _).
  assert (net.tmap (connect read tid pid (port, prop) n) = net.tmap n) as Htmap by (by destruct read).
  destruct (update_step (λ tid' _, Some tid = Some tid') (λ tid' _, Some tid = Some tid')
    None tid t (net.set_str (λ _, connect read tid pid (port, prop) n) n) n') as [_ Hinv'];
    [|rewrite <- Htmap in Ht; exact Ht|exists pid; apply connect_input; by left|done|].
  - apply Inv_structure; [done|done|by rewrite Htmap| | |].
    + intros tid' p Hnone [[-> _]|Hin]%connect_input; [congruence|].
      destruct (wf_port _ (inv_wf _ _ _ Hinv) tid' p Hin) as (? & ? & ? & _). congruence.
    + intros tid' Hne. apply connect_same_inputs. congruence.
    + intros tid' p Hin. apply connect_input. by right.
  - eapply Inv_mono; [done| |].
    + intros tid' ch _. simpl. case_decide; [|congruence]. intros [Hc _].
      by destruct (Hc (compatible_none ch)).
    + intros tid' ch _ [? ?]. congruence.
Qed.

Lemma add_connection_spec type tid pid port prop n n' :
  Inv (λ _, uses []) (λ _ _, False) n →
  (type = edge.PT ∨ type = edge.PT_READ → connectable n tid port) →
  net_ops.add_connection type tid pid port prop n = (Ret tt, n') →
  Inv (λ _, uses []) (λ _ _, False) n'.
Proof.
  intros Hinv Hconn. unfold net_ops.add_connection, net_ops.this. rewrite bind_get.
  assert (∀ m, net_ops.require_no_output_connection m tid port n = (Ret tt, n) ∨
    ∃ e, net_ops.require_no_output_connection m tid port n = (Throw e, n)) as Hreq.
  { intros m. unfold net_ops.require_no_output_connection. destruct (m !! tid ≫= _); eauto. }
  destruct type.
  1, 2: destruct (net_ops.emplace2 _ _ _ _) as [m []] eqn:Hm; intros Hrun;
    rewrite bind_modify in Hrun; [|done]; apply emplace2_new in Hm as [Hnone ->].
  - by apply (add_input_connection_spec false tid pid port prop n); auto.
  - by apply (add_input_connection_spec true tid pid port prop n); auto.
  - intros ([] & n1 & Hr & Hrun)%bind_ret_inv.
    destruct (Hreq (net.port_many_to_place n)) as [Hr'|[e Hr']]; rewrite Hr' in Hr; [|done].
    injection Hr as <-. destruct (net_ops.emplace2 _ _ _ _) as [m []];
      rewrite bind_modify in Hrun; [|done]. injection Hrun as <-. by apply (Inv_frame_eq n).
  - intros ([] & n1 & Hr & Hrun)%bind_ret_inv.
    destruct (Hreq (net.port_to_place n)) as [Hr'|[e Hr']]; rewrite Hr' in Hr; [|done].
    injection Hr as <-. destruct (net_ops.emplace2 _ _ _ _) as [m []];
      rewrite bind_modify in Hrun; [|done]. injection Hrun as <-. by apply (Inv_frame_eq n).
Qed.

Lemma empty_up_to_date : Inv (λ _, uses []) (λ _ _, False) (net.empty : net_type N).
Proof.
  split; [split|split|..]; simpl; try done; intros tid [? ?]; done.
Qed.
End building.

(** ** Reachable nets *)
Section reachable.
Context `{Float.Libm} `{Unordered} {P W : Type} (env : fire.environment P W).
Abbreviation state := (net_type workflow * (plugin.Plugins P * W))%type.

(** The public operations of a net, when they return.  Connecting a second place to an input port
    is left out: its tokens and those of the first place would be bound to the same name, and
    which of them the condition sees depends on the order of the hash containers. *)
Inductive step : net_type workflow → net_type workflow → Prop :=
| step_add_place p n pid n' : net_ops.add_place p n = (Ret pid, n') → step n n'
| step_add_transition t n tid n' : net_ops.add_transition t n = (Ret tid, n') → step n n'
| step_add_connection type tid pid port prop n n' :
    (type = edge.PT ∨ type = edge.PT_READ → connectable n tid port) →
    net_ops.add_connection type tid pid port prop n = (Ret tt, n') → step n n'
| step_add_response tid port to prop n n' :
    net_ops.add_response tid port to prop n = (Ret tt, n') → step n n'
| step_add_eureka tid port n n' : net_ops.add_eureka tid port n = (Ret tt, n') → step n n'
| step_put_value pid v n n' : net_ops.put_value pid v n = (Ret tt, n') → step n n'
| step_put_token name v n n' : net_ops.put_token name v n = (Ret tt, n') → step n n'
| step_fire tids n s r n' s' :
    fire.fire_step env tids (n, s) = (Ret r, (n', s')) → step n n'
| step_inject tid output input n s n' s' :
    fire.inject env tid output input (n, s) = (Ret tt, (n', s')) → step n n'.

Definition reachable : net_type workflow → Prop := rtc step net.empty.

Lemma put_token_is_put_value {N} name v (n n' : net_type N) :
  net_ops.put_token name v n = (Ret tt, n') →
  ∃ pid p, net.place_id_by_name n !! name = Some pid ∧ net.pmap n !! pid = Some p ∧
    place.is_marked_for_put_token p = true ∧ net_ops.put_value pid v n = (Ret tt, n').
Proof.
  unfold net_ops.put_token, net_ops.this, net_ops.at_. rewrite bind_get.
  destruct (net.place_id_by_name n !! name) as [pid|]; [|done]. rewrite bind_lift.
  destruct (net.pmap n !! pid) as [p|] eqn:Hp; [|done]. cbn [or_throw].
  destruct (place.is_marked_for_put_token p) eqn:Hm; [|done]. by exists pid, p.
Qed.

Lemma fire_step_spec tids (n n' : net_type workflow) (s s' : plugin.Plugins P * W) r :
  Inv (λ _, uses []) (λ _ _, False) n →
  fire.fire_step env tids (n, s) = (Ret r, (n', s')) →
  Inv (λ _, uses []) (λ _ _, False) n'.
Proof.
  intros Hinv. unfold fire.fire_step. intros (i & [n1 s1] & Hrand & Hrest)%bind_ret_inv.
  apply (keeps_ret n) in Hrand; [subst|apply keeps_on_world].
  rewrite bind_lift in Hrest. destruct (or_throw _ _) as [tid|] in Hrest; [|done].
  rewrite bind_get, bind_lift in Hrest. destruct (or_throw _ _) as [t|] in Hrest; [|done].
  destruct (transition.get_expression t).
  - apply bind_ret_inv in Hrest as ([] & [n2 s2] & Hf & [= _ <- _]).
    by apply (fire_expression_spec env tid t n n2 s1 s2).
  - apply bind_ret_inv in Hrest as (act & [n2 s2] & [Hx _]%on_net_ret & [= _ <- _]).
    by apply (extract_activity_spec tid t n n2 act).
Qed.

Lemma step_up_to_date n n' :
  step n n' → Inv (λ _, uses []) (λ _ _, False) n → Inv (λ _, uses []) (λ _ _, False) n'.
Proof.
  destruct 1 as [| | | | | |name v n n' Hput| |]; intros Hinv.
  - by eapply add_place_spec.
  - by eapply add_transition_spec.
  - by eapply add_connection_spec.
  - by eapply add_response_spec.
  - by eapply add_eureka_spec.
  - by eapply put_value_spec.
  - apply put_token_is_put_value in Hput as (pid & p & _ & _ & _ & Hput).
    by eapply put_value_spec.
  - by eapply fire_step_spec.
  - by eapply inject_spec.
Qed.

Lemma reachable_up_to_date n : reachable n → Inv (λ _, uses []) (λ _ _, False) n.
Proof.
  unfold reachable. intros Hr. generalize (empty_up_to_date (N:=workflow)). revert Hr.
  generalize (net.empty : net_type workflow). intros n0 Hr.
  induction Hr as [|n1 n2 n3 Hs _ IH]; [done|]. intros Hinv. apply IH. by eapply step_up_to_date.
Qed.

(** C1: In every net that is built and run by the public operations, as long as they return and
    connect no two places to input ports of one transition with the same name, the transitions
    that are marked as enabled are exactly the transitions that can fire: a transition is in the
    set of its priority if and only if it has an input place and there is a choice of one
    existing token per input place such that all input ports are served and the condition
    evaluates to true for these tokens; and the recorded choice is such a choice.  A transition
    without input places is never enabled. *)
Theorem enabled_iff_fireable n tid t :
  reachable n → net.tmap n !! tid = Some t →
  (net_ops.is_enabled n tid t = true ↔ (∃ p, is_input n tid p) ∧ ∃ ch, fireable n tid t ch) ∧
  (∀ ch, net.enabled_choice n !! tid = Some ch → fireable n tid t ch).
Proof.
  intros Hr%reachable_up_to_date Ht. destruct Hr as [Hwf Hbk Hfed Hdom Hch Hco].
  assert (∀ ch, net.enabled_choice n !! tid = Some ch → fireable n tid t ch) as Hgood.
  { intros ch Hc. by destruct (Hch tid t ch Ht Hc). }
  split; [|done]. rewrite (bk_choice n Hbk tid t Ht), bool_decide_eq_true. split.
  - intros [ch Hc]. split; [apply Hfed; by eexists|eauto].
  - intros [Hp [ch Hf]]. destruct (net.enabled_choice n !! tid) as [c|] eqn:Hc; [by eexists|].
    exfalso. by eapply uses_nil, Hco.
Qed.
End reachable.

(** ** An example net

    The place [in] feeds the port [x] of a transition that fires for values
    above 1; the tokens 1 and 2 are put. *)
Definition quiet : fire.environment unit unit := {|
  fire.library := {|
    plugin.plugin_create := λ _ _, mret tt;
    plugin.plugin_destroy := λ _ w, w;
    plugin.plugin_before_eval := λ _ _, mret tt;
    plugin.plugin_after_eval := λ _ _, mret tt |};
  fire.random_index := λ _ w, (0, w);
  fire.workflow_response := λ _ _, mret tt;
  fire.eureka_response := λ _, mret tt |}.


Definition filter_transition : transition_t workflow :=
  transition.mk "filter" (transition.module_call (module_call.simple "m" "f"))
    (Some [node.binary token.gt (node.ref ["x"]) (node.value (Vint 1))])
    {[0%Z := port.mk "x" port.PORT_IN (Signature.Sname "int") None]}
    ∅ ∅ 1 (Vstruct []) [] [] 0 None.

Definition input_place : place.type := place.mk "in" (Signature.Sname "int") None.

Definition filter_net0 : net_type workflow := (net_ops.add_place input_place net.empty).2.
Definition filter_net1 : net_type workflow := (net_ops.add_transition filter_transition filter_net0).2.
Definition filter_net2 : net_type workflow :=
  (@net_ops.add_connection Float.nan_libm _ _ edge.PT 0 0 0 (Vstruct []) filter_net1).2.
Definition filter_net3 : net_type workflow :=
  (@net_ops.put_value Float.nan_libm _ _ 0 (Vint 1) filter_net2).2.
Definition filter_net : net_type workflow :=
  (@net_ops.put_value Float.nan_libm _ _ 0 (Vint 2) filter_net3).2.

Lemma filter_net_reachable : @reachable Float.nan_libm _ _ _ quiet filter_net.
Proof.
  unfold reachable.
  apply rtc_l with filter_net0.
  { refine (step_add_place _ input_place net.empty 0%Z filter_net0 _). by vm_compute. }
  apply rtc_l with filter_net1.
  { refine (step_add_transition _ filter_transition filter_net0 0%Z filter_net1 _). by vm_compute. }
  apply rtc_l with filter_net2.
  { refine (step_add_connection _ edge.PT 0 0 0 (Vstruct []) filter_net1 filter_net2 _ _);
      [|by vm_compute]. intros _.
    exists filter_transition, "x". split_and!; [by vm_compute|done|].
    intros p Hp. exfalso. unfold is_input in Hp. vm_compute in Hp. done. }
  apply rtc_l with filter_net3.
  { refine (step_put_value _ 0 (Vint 1) filter_net2 filter_net3 _). by vm_compute. }
  apply rtc_once.
  refine (step_put_value _ 0 (Vint 2) filter_net3 filter_net _). by vm_compute.
Qed.

Lemma enabled_iff_fireable_witness :
  net_ops.is_enabled filter_net 0 filter_transition = true ∧
  net.enabled_choice filter_net !! 0%Z = Some {[0%Z := (1%Z, false)]} ∧
  (∃ p, is_input filter_net 0 p) ∧ ∃ ch, @fireable _ Float.nan_libm filter_net 0 filter_transition ch.
Proof.
  split; [reflexivity|]. split; [reflexivity|].
  apply (@enabled_iff_fireable Float.nan_libm _ _ _ quiet filter_net 0%Z filter_transition filter_net_reachable eq_refl).
  reflexivity.
Defined.

End Invariant.
