(* ===== verification/NetFireSpec.v ===== *)
(** * What firing does

    Which tokens [extract_activity] takes and what the activity gets, which
    transition the loop [fire_expressions_and_extract_activity_random] picks,
    and that tokens always have the types of their places. *)

From S2P Require Import Prelude Value Token Function Expr Net NetFire NetCross NetEnabled NetInvariant.

Module FireSpec.
Import Enabled Invariant.

#[local] Arguments eval.eval_all : simpl never.

Section extract.
Context `{Float.Libm} `{Unordered} {N : Type}.
Implicit Types (n : net_type N) (ch : net.choice_type).

(** The token a choice takes from a place, with the port it goes to. *)
Definition taken n (tid : transition_id_type) (c : place_id_type * (token_id_type * bool)) :
    option token_on_port :=
  ports ← net.place_to_port n !! tid;
  port ← ports !! c.1;
  v ← net_ops.get_token n c.1 !! c.2.1;
  Some (v, port.1).

(** The tokens that are consumed. *)
Definition consumed (l : list (place_id_type * (token_id_type * bool))) : list token_ref :=
  omap (λ c, if c.2.2 : bool then None else Some (c.1, c.2.1)) l.

Lemma fireable_taken n tid t ch pid c :
  wf n → fireable n tid t ch → ch !! pid = Some c →
  ∃ v ports port, net.place_to_port n !! tid = Some ports ∧ ports !! pid = Some port ∧
    net_ops.get_token n pid !! c.1 = Some v ∧ taken n tid (pid, c) = Some (v, port.1).
Proof.
  intros Hwf ((Hdom & Hall) & _) Hc.
  destruct (wf_port n Hwf tid pid) as (t' & name & _ & Hname); [by apply Hdom; eexists|].
  destruct (Hall pid c Hc) as [[v Hv] _].
  destruct (input_port_name_connected _ _ _ _ _ Hname) as [port Hport].
  destruct (net.place_to_port n !! tid) as [ports|] eqn:Hports; [|done]. simpl in Hport.
  exists v, ports, port. split_and!; [done..|]. unfold taken. rewrite Hports. simpl.
  by rewrite Hport, Hv.
Qed.

(** With good choices the loop of [do_extract] calls the function once per
    place and cannot throw itself. *)
Lemma extract_loop_spec {S} n tid (f : port_id_type → value_type → M S exn unit) l tbd s :
  (∀ c, c ∈ l → is_Some (taken n tid c)) →
  fire.extract_loop n tid f l tbd s =
    (for_each (λ top : token_on_port, f top.2 top.1) (omap (taken n tid) l) ≫= λ _,
     mret (reverse (consumed l) ++ tbd)) s.
Proof.
  revert tbd s. induction l as [|[pid [k b]] l IH]; intros tbd s Hl; [done|].
  destruct (Hl (pid, (k, b))) as [[v port] Htaken]; [by left|].
  assert (∃ ports m prop, net.place_to_port n !! tid = Some ports ∧ ports !! pid = Some (port, prop) ∧
    net.token_by_place_id n !! pid = Some m ∧ m !! k = Some v) as (ports & m & prop & H1 & H2 & H3 & H4).
  { unfold taken, net_ops.get_token in Htaken. simpl in Htaken.
    destruct (net.place_to_port n !! tid) as [ports|]; [|done]. simpl in Htaken.
    destruct (ports !! pid) as [[port' prop]|] eqn:Hp; [|done]. simpl in Htaken.
    destruct (net.token_by_place_id n !! pid) as [m|]; simpl in Htaken; [|by rewrite lookup_empty in Htaken].
    destruct (m !! k) eqn:Hk; [|done]. simplify_eq/=. eauto 10. }
  cbn [fire.extract_loop]. rewrite bind_lift, H1. cbn [or_throw]. rewrite bind_lift, H2. cbn [or_throw].
  rewrite bind_lift, H3. cbn [or_throw]. rewrite bind_lift, H4. cbn [or_throw fst].
  cbn [omap list_omap]. rewrite Htaken. cbn [for_each fst snd].
  unfold mbind, M_bind at 1 2 3. destruct (f port v s) as [[[]|e] s1]; [|done].
  rewrite IH by (intros c Hc; apply Hl; by right). unfold mbind, M_bind.
  fold (omap (M:=list) (taken n tid)).
  destruct (for_each _ _ s1) as [[[]|e] s2]; [|done]. unfold consumed. simpl. destruct b; [done|].
  rewrite reverse_cons, <- app_assoc. done.
Qed.
End extract.

Section extract_activity.
Context `{Float.Libm} `{Unordered} {P W : Type} (env : fire.environment P W).

Lemma add_inputs_spec l a :
  activity.evaluation_context_requested a = false → activity.get_net a = None →
  for_each (λ top : token_on_port, activity.add_input top.2 top.1) l a =
    (Ret tt, activity.mk (activity.transition a) (activity.transition_id a)
               (activity.input a ++ l) (activity.output_ a) false).
Proof.
  revert a. induction l as [|[v port] l IH]; intros [t tid input out req]; cbn [for_each].
  - intros Hreq _. simpl in *. subst. by rewrite app_nil_r.
  - intros Hreq Hnet. simpl in Hreq. subst req.
    assert (activity.add_input port v (activity.mk t tid input out false) =
      (Ret tt, activity.mk t tid (input ++ [(v, port)]) out false)) as Hadd.
    { unfold activity.add_input. rewrite bind_get, Hnet. done. }
    unfold mbind, M_bind. cbn [fst snd]. rewrite Hadd, IH by done. simpl.
    by rewrite <- app_assoc.
Qed.

Lemma elem_of_consumed ch q k :
  (q, k) ∈ consumed (unordered_list ch) ↔ ch !! q = Some (k, false).
Proof.
  unfold consumed. rewrite list_elem_of_omap. split.
  - intros ([pid [k' []]] & Hin%elem_of_unordered_list & Heq); simpl in Heq; by simplify_eq.
  - intros Hch. exists (q, (k, false)). split; [by apply elem_of_unordered_list|done].
Qed.

(** Revising which transitions are enabled leaves the tokens alone, also when it throws. *)
Definition holding {N} (g : place_id_type → net.token_by_id_type) (n : net_type N) : Prop := ∀ q, net_ops.get_token n q = g q.
Section holding.
Context {N : Type} (g : place_id_type → net.token_by_id_type).
Abbreviation holds m := (preserves (holding (N:=N) g) m).
Lemma holding_modify (f : net_type N → net_type N) :
  (∀ n, net.token_by_place_id (f n) = net.token_by_place_id n) → holds (modify f : M _ exn unit).
Proof. intros Hf. apply preserves_modify. intros n Hn q. unfold net_ops.get_token. rewrite Hf. apply Hn. Qed.
#[local] Hint Extern 1 (preserves (holding _) (modify _)) => (apply holding_modify; done) : gspc.
#[local] Hint Extern 1 (preserves (holding _) (net_ops.at_ _ _)) => apply preserves_lift : gspc.
#[local] Hint Extern 1 (preserves (holding _) net_ops.this) => apply preserves_get : gspc.
Lemma holding_touch pid : holds (net_ops.touch pid : M (net_type N) exn _).
Proof.
  intros n Hn. destruct (touch_spec pid n) as (n' & -> & Hs). intros q. by rewrite (sim_tokens _ _ Hs).
Qed.
Lemma holding_disable tid : holds (net_ops.disable tid : M (net_type N) exn _).
Proof. unfold net_ops.disable. auto 10 with gspc. Qed.
#[local] Hint Resolve holding_touch holding_disable : gspc.
Lemma holding_push_places fixed tid t roots is_read places x :
  holds (net_ops.push_places fixed tid t roots is_read places x : M (net_type N) exn _).
Proof.
  revert x. induction places as [|pid places IH]; intros x; cbn [net_ops.push_places]; [apply preserves_ret|].
  apply preserves_bind.
  - destruct fixed as [[fpid f]|]; [case_decide|]; auto 10 with gspc.
  - intros tokens. case_decide; auto 10 with gspc.
Qed.
#[local] Hint Resolve holding_push_places : gspc.
Lemma holding_update fixed tid : holds (net_ops.update_enabled_with fixed tid : M (net_type N) exn _).
Proof.
  unfold net_ops.update_enabled_with. apply preserves_bind; [auto with gspc|]. intros n.
  apply preserves_bind; [auto with gspc|]. intros t.
  apply preserves_bind; [auto with gspc|]. intros roots.
  apply preserves_bind; [auto with gspc|]. intros [x1|]; [|auto with gspc].
  apply preserves_bind; [auto with gspc|]. intros [x2|]; [|auto with gspc].
  apply preserves_bind; [auto with gspc|]. intros n2.
  apply preserves_bind; [auto with gspc|]. intros [x'|]; auto with gspc.
Qed.
Lemma holding_revise deleted tid : holds (fire.revise deleted tid : M (net_type N) exn _).
Proof.
  unfold fire.revise, net_ops.update_enabled. apply preserves_bind; [auto with gspc|]. intros n.
  apply preserves_bind; [auto with gspc|]. intros t. destruct (net_ops.is_enabled n tid t); [|auto with gspc].
  apply preserves_bind; [auto with gspc|]. intros c. destruct (existsb _ _); [apply holding_update|auto with gspc].
Qed.
End holding.
Lemma erase_all_ret {N} (l : list token_ref) (n : net_type N) :
  (∀ r, r ∈ l → is_Some (net.token_by_place_id n !! r.1)) → ∃ n', for_each fire.erase l n = (Ret tt, n').
Proof.
  revert n. induction l as [|r l IH]; intros n Hl; cbn [for_each]; [by eexists|].
  destruct (Hl r) as [m Hm]; [by left|].
  assert (fire.erase r n = (Ret tt, net.set_token_by_place_id (<[r.1 := delete r.2 m]>) n)) as He.
  { unfold fire.erase, net_ops.at_. rewrite bind_get, bind_lift, Hm. done. }
  unfold mbind, M_bind. rewrite He. apply IH. intros r' Hr'. simpl. destruct (decide (r.1 = r'.1)) as [->|Hne]; [by rewrite lookup_insert_eq; eexists|].
  rewrite lookup_insert_ne by done. apply Hl. by right.
Qed.
(** the tokens are deleted even when revising throws *)
Lemma do_delete_tokens {N} (l : list token_ref) (n : net_type N) :
  (∀ r, r ∈ l → is_Some (net.token_by_place_id n !! r.1)) → ∀ q k,
  net_ops.get_token (fire.do_delete l n).2 q !! k = if decide ((q, k) ∈ l) then None else net_ops.get_token n q !! k.
Proof.
  intros Hl q k. destruct (erase_all_ret l n Hl) as [n1 Hrun]. unfold fire.do_delete, mbind, M_bind. rewrite Hrun.
  apply erase_all_spec in Hrun as (_ & _ & _ & _ & Htok). rewrite <- Htok. f_equal.
  assert (∀ rs, preserves (holding (net_ops.get_token n1)) (for_each (λ r : token_ref, get ≫= λ n : net_type N,
    for_each (fire.revise (list_to_set l.*2)) (net_ops.transitions_of (net.adj_pt_consume n) r.1 ++
      net_ops.transitions_of (net.adj_pt_read n) r.1)) rs)) as Hrev.
  { intros rs. apply preserves_for_each. intros r _. apply preserves_bind; [apply preserves_get|]. intros n2.
    apply preserves_for_each. intros tid _. apply holding_revise. }
  by apply (Hrev l n1).
Qed.

(** What the activity is when it has got its tokens: those of a module call are kept as its input,
    those of a net are put on the places of the net that belong to their ports. *)
Definition enter (t : transition_t workflow) (l : list token_on_port) : M (net_type workflow) exn unit :=
  for_each (λ top : token_on_port,
    match transition.ports_input t !! top.2 with
    | None => throw out_of_range
    | Some p => match port.associated_place p with Some pid => net_ops.put_value pid top.1 | None => mret tt end
    end) l.
Definition given (tid : transition_id_type) (t : transition_t workflow) (l : list token_on_port) : outcome exn activity_t :=
  match transition.get_net t with
  | None => Ret (activity.mk t (Some tid) l [] false)
  | Some inner =>
      match enter t l (the_net inner) with
      | (Ret _, n) => Ret (activity.mk (transition.set_net (subnet n) t) (Some tid) [] [] false)
      | (Throw e, _) => Throw e
      end
  end.
Lemma add_inputs_net (t : transition_t workflow) tid n0 l :
  let run := for_each (λ top : token_on_port, activity.add_input top.2 top.1) l
    (activity.mk (transition.set_net (subnet n0) t) (Some tid) [] [] false) in
  run.1 = (enter t l n0).1 ∧
  ∀ n, enter t l n0 = (Ret tt, n) → run.2 = activity.mk (transition.set_net (subnet n) t) (Some tid) [] [] false.
Proof.
  revert n0. unfold enter. induction l as [|[v port] l IH]; intros n0; cbn [for_each].
  - split; [done|]. by intros n [= <-].
  - unfold mbind, M_bind. cbn [fst snd]. unfold activity.add_input at 1 3, mbind, M_bind. cbn.
    destruct (transition.ports_input t !! port) as [p|]; cbn; [|by split].
    destruct (port.associated_place p) as [pid|]; cbn; [|apply (IH n0)].
    destruct (net_ops.put_value pid v n0) as [[[]|e] n1]; cbn; [|by split].
    change (transition.set_net (subnet n1) (transition.set_net (subnet n0) t)) with (transition.set_net (subnet n1) t).
    apply (IH n1).
Qed.
Lemma set_same_net (t : transition_t workflow) inner : transition.get_net t = Some inner → transition.set_net inner t = t.
Proof. destruct t as [? d]. unfold transition.get_net, transition.set_net. simpl. by destruct d; intros [= ->]. Qed.

(** C5: Extracting an activity of an enabled transition takes exactly the chosen tokens.  The
    recorded choice is one that can fire, and the activity gets each chosen token once, on the
    port its place is connected to: a module call as its input, a net on the places inside that
    are associated with the ports.  When putting them there throws, nothing is taken; otherwise
    the tokens on consuming connections are removed from their places, the tokens on reading
    connections and all other tokens stay, and the result is the activity and a net that is up
    to date again, unless a condition that is evaluated again throws, after the tokens have
    been removed. *)
Theorem extract_activity_tokens n tid t :
  reachable env n → net.tmap n !! tid = Some t → net_ops.is_enabled n tid t = true →
  ∃ ch l, net.enabled_choice n !! tid = Some ch ∧ fireable n tid t ch ∧
    l ≡ₚ omap (taken n tid) (map_to_list ch) ∧ length l = size ch ∧
    let '(r, n') := fire.extract_activity tid t n in
    match given tid t l with
    | Throw e => r = Throw e ∧ n' = n
    | Ret act =>
        (∀ q k, net_ops.get_token n' q !! k =
           if decide (ch !! q = Some (k, false)) then None else net_ops.get_token n q !! k) ∧
        match r with
        | Ret act' => act' = act ∧ Inv (λ _, uses []) (λ _ _, False) n'
        | Throw e => fire.do_delete (reverse (consumed (unordered_list ch))) n = (Throw e, n')
        end
    end.
Proof.
  intros Hinv%reachable_up_to_date Ht Hen. pose proof Hinv as [Hwf Hbk _ _ Hch _].
  rewrite (bk_choice n Hbk tid t Ht), bool_decide_eq_true in Hen. destruct Hen as [ch Hc].
  destruct (Hch tid t ch Ht Hc) as [Hfire|[]].
  assert (∀ c, c ∈ unordered_list ch → is_Some (taken n tid c)) as Htaken.
  { intros [pid c] Hin%elem_of_unordered_list.
    destruct (fireable_taken n tid t ch pid c Hwf Hfire Hin) as (? & ? & ? & _ & _ & _ & ->).
    by eexists. }
  exists ch, (omap (taken n tid) (unordered_list ch)). split_and!; [done|done| | |].
  { by rewrite unordered_perm. }
  { rewrite <- length_unordered_list. clear -Htaken.
    induction (unordered_list ch) as [|c l IH]; [done|]. cbn [omap list_omap length].
    destruct (Htaken c) as [top ->]; [by left|]. cbn [length]. f_equal. apply IH.
    intros c' Hc'. apply Htaken. by right. }
  set (l := omap (taken n tid) (unordered_list ch)). set (gone := reverse (consumed (unordered_list ch))).
  assert (fire.extract_activity tid t n = match given tid t l with
    | Ret act => (fire.do_delete gone ≫= λ _, mret act) n
    | Throw e => (Throw e, n)
    end) as Hrun.
  { unfold fire.extract_activity, fire.do_extract. rewrite bind_lift, Hc. cbn [or_throw].
    rewrite extract_loop_spec by done. fold l. unfold given. destruct (transition.get_net t) as [inner|] eqn:Hnet.
    - destruct inner as [n0]. destruct (add_inputs_net t tid n0 l) as [H1 H2]. rewrite (set_same_net t _ Hnet) in H1, H2.
      unfold mbind at 1, M_bind at 1, activity.make. simpl.
      destruct (for_each _ l _) as [r a]. simpl in H1, H2. destruct (enter t l n0) as [[[]|e] n1]; simpl in H1; subst r; [|done].
      rewrite (H2 n1 eq_refl). cbn. by rewrite app_nil_r.
    - unfold mbind at 1, M_bind at 1. rewrite add_inputs_spec; [|done|by unfold activity.get_net; simpl; rewrite Hnet].
      cbn. by rewrite app_nil_r. }
  rewrite Hrun. destruct (given tid t l) as [act|e]; [|done].
  assert (∀ r, r ∈ gone → is_Some (net.token_by_place_id n !! r.1)) as Hthere.
  { intros [q k] Hin%elem_of_reverse%elem_of_consumed. destruct (fireable_taken n tid t ch q (k, false) Hwf Hfire Hin) as (v & _ & _ & _ & _ & Hv & _).
    unfold net_ops.get_token in Hv. simpl. destruct (net.token_by_place_id n !! q); [by eexists|done]. }
  pose proof (do_delete_tokens gone n Hthere) as Htok. unfold mbind, M_bind.
  destruct (fire.do_delete gone n) as [[[]|e] n'] eqn:Hdel; simpl in Htok |- *.
  - destruct (do_delete_spec _ _ _ _ Hinv Hdel) as (Hinv' & _). split; [|done]. intros q k. rewrite Htok.
    apply decide_ext. unfold gone. by rewrite elem_of_reverse, elem_of_consumed.
  - split; [|done]. intros q k. rewrite Htok. apply decide_ext. unfold gone. by rewrite elem_of_reverse, elem_of_consumed.
Qed.
End extract_activity.

Lemma extract_activity_tokens_witness :
  ∃ act n', @fire.extract_activity Float.nan_libm _ 0 filter_transition filter_net = (Ret act, n') ∧
    ∃ l, l ≡ₚ [(Vint 2, 0%Z)] ∧ activity.input act = l.
Proof.
  eexists _, _. split; [vm_compute; reflexivity|].
  destruct (@extract_activity_tokens Float.nan_libm _ _ _ quiet filter_net
    0%Z filter_transition filter_net_reachable eq_refl eq_refl) as (ch & l & Hc & _ & Hl & _ & Hrun).
  assert (ch = {[0%Z := (1%Z, false)]}) as -> by (apply (inj Some); rewrite <- Hc; vm_compute; reflexivity).
  exists l. split; [etrans; [exact Hl|]; vm_compute; reflexivity|].
  destruct (fire.extract_activity _ _ _) as [r n'] eqn:Hx. destruct Hrun as [_ Hr]. vm_compute in Hx. injection Hx as <- _.
  destruct Hr as [Ha _]. by apply (f_equal activity.input) in Ha.
Defined.

(** ** The loop *)
Section loop.
Context `{Float.Libm} `{Unordered} {P W : Type} (env : fire.environment P W).

Lemma foldr_max_ge (k : Z) ks : (k ≤ foldr Z.max k ks)%Z ∧ Forall (λ x, x ≤ foldr Z.max k ks)%Z ks.
Proof.
  induction ks as [|x ks [IH1 IH2]]; simpl; [split; [lia|constructor]|].
  split; [lia|]. constructor; [lia|]. eapply Forall_impl; [done|]. simpl. lia.
Qed.
Lemma foldr_max_elem (k : Z) ks : foldr Z.max k ks ∈ k :: ks.
Proof.
  induction ks as [|x ks IH]; simpl; [set_solver|].
  destruct (Z.max_spec x (foldr Z.max k ks)) as [[_ ->]|[_ ->]]; set_solver.
Qed.

Lemma highest_spec e :
  match fire.highest e with
  | None => e = ∅
  | Some (p, tids) => e !! p = Some tids ∧ ∀ q, is_Some (e !! q) → (q ≤ p)%Z
  end.
Proof.
  unfold fire.highest. destruct ((map_to_list e).*1) as [|k ks] eqn:Hk.
  { apply map_to_list_empty_iff. by apply fmap_nil_inv in Hk. }
  assert (∀ q, is_Some (e !! q) ↔ q ∈ k :: ks) as Hdom.
  { intros q. rewrite <- Hk, list_elem_of_fmap. split.
    - intros [v Hv]. exists (q, v). split; [done|]. by apply elem_of_map_to_list.
    - intros ([q' v] & -> & Hv%elem_of_map_to_list). by eexists. }
  destruct (proj2 (Hdom _) (foldr_max_elem k ks)) as [tids Htids]. rewrite Htids. simpl.
  split; [done|]. intros q [->|Hq]%Hdom%elem_of_cons; [apply foldr_max_ge|].
  by apply (proj1 (Forall_forall _ _) (proj2 (foldr_max_ge k ks))).
Qed.

(** The pick of one iteration. *)
Definition pick (tid : transition_id_type) (t : transition_t workflow) :
    M (net_type workflow * (plugin.Plugins P * W)) exn (option activity_t) :=
  match transition.get_expression t with
  | Some _ => fire.fire_expression env tid t ≫= λ _, mret None
  | None => act ← fire.on_net (fire.extract_activity tid t); mret (Some act)
  end.

(** The transition has the highest priority of all that can fire. *)
Definition most_urgent (n : net_type workflow) tid t : Prop :=
  net.tmap n !! tid = Some t ∧ (∃ ch, fireable n tid t ch) ∧
  ∀ tid' t' ch', net.tmap n !! tid' = Some t' → (∃ p, is_input n tid' p) →
    fireable n tid' t' ch' → (transition.priority t' ≤ transition.priority t)%Z.

Lemma enabled_set (n : net_type workflow) tid t ch :
  Inv (λ _, uses []) (λ _ _, False) n → net.tmap n !! tid = Some t →
  (∃ p, is_input n tid p) → fireable n tid t ch →
  ∃ tids, net.enabled n !! transition.priority t = Some tids ∧ tid ∈ tids.
Proof.
  intros [_ Hbk _ _ _ Hco] Ht Hp Hf.
  assert (net_ops.is_enabled n tid t = true) as Hen.
  { rewrite (bk_choice n Hbk tid t Ht), bool_decide_eq_true.
    destruct (net.enabled_choice n !! tid) eqn:Hc; [by eexists|].
    exfalso. by eapply uses_nil, Hco. }
  unfold net_ops.is_enabled in Hen. apply bool_decide_eq_true in Hen.
  destruct (net.enabled n !! transition.priority t) as [tids|]; [eauto|set_solver].
Qed.

Lemma in_enabled_set (n : net_type workflow) prio tids tid :
  Inv (λ _, uses []) (λ _ _, False) n → net.enabled n !! prio = Some tids → tid ∈ tids →
  ∃ t ch, net.tmap n !! tid = Some t ∧ transition.priority t = prio ∧
    net.enabled_choice n !! tid = Some ch ∧ fireable n tid t ch.
Proof.
  intros [_ Hbk _ _ Hch _] He Hin. destruct (bk_priority n Hbk _ _ _ He Hin) as (t & Ht & Hprio).
  assert (net_ops.is_enabled n tid t = true) as Hen.
  { unfold net_ops.is_enabled. rewrite Hprio, He. by apply bool_decide_eq_true. }
  rewrite (bk_choice n Hbk tid t Ht), bool_decide_eq_true in Hen. destruct Hen as [ch Hc].
  exists t, ch. destruct (Hch tid t ch Ht Hc) as [?|[]]. done.
Qed.

Lemma highest_most_urgent (n : net_type workflow) prio tids tid :
  Inv (λ _, uses []) (λ _ _, False) n → fire.highest (net.enabled n) = Some (prio, tids) →
  tid ∈ tids → ∃ t, most_urgent n tid t.
Proof.
  intros Hinv Hh Hin. pose proof (highest_spec (net.enabled n)) as Hspec. rewrite Hh in Hspec.
  destruct Hspec as [He Hmax].
  destruct (in_enabled_set n prio tids tid Hinv He Hin) as (t & ch & Ht & Hprio & _ & Hf).
  exists t. split_and!; [done|eauto|]. intros tid' t' ch' Ht' Hp' Hf'.
  destruct (enabled_set n tid' t' ch' Hinv Ht' Hp' Hf') as (tids' & He' & _).
  rewrite Hprio. apply Hmax. by eexists.
Qed.

(** One iteration fires a most urgent transition, or throws what firing it throws. *)
Lemma fire_step_pick (n : net_type workflow) s prio tids :
  (∀ k w, 0 < k → (fire.random_index env k w).1 < k) →
  Inv (λ _, uses []) (λ _ _, False) n → fire.highest (net.enabled n) = Some (prio, tids) →
  ∃ tid t s1, most_urgent n tid t ∧ fire.fire_step env tids (n, s) = pick tid t (n, s1).
Proof.
  intros Hrandom Hinv Hh. pose proof (highest_spec (net.enabled n)) as Hspec. rewrite Hh in Hspec.
  pose proof (bk_nonempty n (inv_bookkeeping _ _ _ Hinv) _ _ (proj1 Hspec)) as Hne.
  destruct s as [ps w]. unfold fire.fire_step, mbind at 1, M_bind at 1. simpl.
  specialize (Hrandom (size tids) w). destruct (fire.random_index env (size tids) w) as [i w'].
  assert (0 < size tids) as Hsize.
  { apply Nat.neq_0_lt_0. intros Hz. by apply Hne, leibniz_equiv, size_empty_iff. }
  destruct (lookup_lt_is_Some_2 (unordered_elements tids) i) as [tid Hi].
  { rewrite unordered_elements_perm. by apply Hrandom. }
  rewrite bind_lift, Hi. cbn [or_throw]. apply list_elem_of_lookup_2, elem_of_unordered_elements in Hi.
  destruct (highest_most_urgent n prio tids tid Hinv Hh Hi) as [t Hurgent].
  exists tid, t, (ps, w'). split; [done|]. rewrite bind_get, bind_lift. cbn [fst]. rewrite (proj1 Hurgent). done.
Qed.

(** [k] expressions have been fired one after the other, each of a transition that had the
    highest priority of all that could fire. *)
Abbreviation state := (net_type workflow * (plugin.Plugins P * W))%type.
Inductive fired : nat → state → state → Prop :=
| fired_none s : fired 0 s s
| fired_one k n tid t s s' s'' :
    most_urgent n tid t → is_Some (transition.get_expression t) → (∃ s1, fire.fire_expression env tid t (n, s1) = (Ret tt, s')) →
    fired k s' s'' → fired (S k) (n, s) s''.

(** C4: The loop that fires expressions and extracts an activity, in a net as in
    [enabled_iff_fireable], with a random choice among the transitions it is given: within
    any number of iterations it has fired some expressions, each of a transition
    that had the highest priority of all that could fire, and then either the iterations are used
    up by firing expressions (a net may do so for ever), or no transition can fire and the loop
    ends without an activity, or it returns the activity that was extracted from a
    transition without expression that had the highest priority of all that could fire, or
    firing such a transition throws.  A transition can fire only if it has an input place. *)
Theorem fire_random_result fuel n s :
  (∀ k w, 0 < k → (fire.random_index env k w).1 < k) → reachable env n →
  ∃ k n1 s1, fired k (n, s) (n1, s1) ∧ reachable env n1 ∧
    match fire.fire_expressions_and_extract_activity_random env fuel (n, s) with
    | None => k = fuel
    | Some (Ret None, s') => k < fuel ∧ s' = (n1, s1) ∧
        ∀ tid t ch, net.tmap n1 !! tid = Some t → (∃ p, is_input n1 tid p) → ¬ fireable n1 tid t ch
    | Some (Ret (Some act), (n', _)) => k < fuel ∧ reachable env n' ∧
        ∃ tid t, most_urgent n1 tid t ∧ transition.get_expression t = None ∧
          fire.extract_activity tid t n1 = (Ret act, n')
    | Some (Throw e, s') => k < fuel ∧
        ∃ tid t s2, most_urgent n1 tid t ∧ pick tid t (n1, s2) = (Throw e, s')
    end.
Proof.
  intros Hrandom. revert n s. induction fuel as [|fuel IH]; intros n s Hreach; cbn.
  { exists 0, n, s. split; [constructor|done]. }
  pose proof (reachable_up_to_date _ _ Hreach) as Hinv.
  destruct (fire.highest (net.enabled n)) as [[prio tids]|] eqn:Hh.
  2: { exists 0, n, s. split; [constructor|]. split; [done|]. split; [lia|]. split; [done|]. intros tid t ch Ht Hp Hf.
       pose proof (highest_spec (net.enabled n)) as Hspec. rewrite Hh in Hspec.
       destruct (enabled_set n tid t ch Hinv Ht Hp Hf) as (tids & He & _).
       by rewrite Hspec, lookup_empty in He. }
  destruct (fire_step_pick n s prio tids Hrandom Hinv Hh) as (tid & t & s1 & Hurgent & Hpick).
  destruct (fire.fire_step env tids (n, s)) as [[r1|e] [n1 s2]] eqn:Hstep.
  2: { exists 0, n, s. split; [constructor|]. split; [done|]. split; [lia|]. by exists tid, t, s1. }
  assert (reachable env n1) as Hreach1.
  { eapply rtc_r; [exact Hreach|]. by eapply step_fire. }
  symmetry in Hpick. unfold pick in Hpick. destruct (transition.get_expression t) eqn:He.
  - apply bind_ret_inv in Hpick as ([] & [n2 s3] & Hf & [= <- <- <-]).
    destruct (IH n2 s3 Hreach1) as (k & n3 & s4 & Hfired & Hr3 & Hres). exists (S k), n3, s4.
    split; [apply (fired_one k n tid t s (n2, s3)); [done|by eexists|by exists s1|done]|]. split; [done|].
    destruct (fire.fire_expressions_and_extract_activity_random env fuel (n2, s3)) as [[[[act|]|e] [n4 s5]]|];
      [destruct Hres as [? ?]; split; [lia|done]..|lia].
  - apply bind_ret_inv in Hpick as (act & [n2 s3] & [Hx _]%on_net_ret & [= <- <- <-]).
    exists 0, n, s. split; [constructor|]. split; [done|]. split; [lia|]. split; [done|]. by exists tid, t.
Qed.
End loop.

Lemma fire_random_result_witness :
  ∃ act n' s',
    @fire.fire_expressions_and_extract_activity_random Float.nan_libm _ _ _ quiet 1
      (filter_net, (plugin.none, tt)) = Some (Ret (Some act), (n', s')) ∧
    ∃ n1 tid t, @most_urgent Float.nan_libm n1 tid t ∧
      @fire.extract_activity Float.nan_libm _ tid t n1 = (Ret act, n').
Proof.
  destruct (@fire_random_result Float.nan_libm _ _ _ quiet 1 filter_net (plugin.none, tt)) as (k & n1 & s1 & _ & _ & Hres);
    [intros k [] Hk; exact Hk|exact filter_net_reachable|].
  destruct (fire.fire_expressions_and_extract_activity_random _ _ _) as [[[[act|]|e] [n' s']]|] eqn:Hrun; vm_compute in Hrun; try discriminate.
  exists act, n', s'. split; [reflexivity|]. destruct Hres as (_ & _ & tid & t & Hurgent & _ & Hx).
  exists n1, tid, t. split; [exact Hurgent|exact Hx].
Defined.

End FireSpec.
