(* ===== verification/NetTyping.v ===== *)
(** * Tokens have the types of their places

    Whatever sequence of operations is applied to a net, and whether they
    return or throw, a place only ever holds values of its signature. *)

From S2P Require Import Prelude Value Token Function Expr Net NetFire NetCross NetEnabled NetInvariant.

Module Typing.

Section typing.
Context `{Float.Libm} `{Unordered} {N : Type}.
Implicit Types (n : net_type N).

Definition typed n : Prop :=
  ∀ pid k v, net_ops.get_token n pid !! k = Some v →
    ∃ p, net.pmap n !! pid = Some p ∧ Signature.has_type v (place.signature p).

(** It is enough that places stay and no token is new. *)
Lemma typed_mono n n' :
  net.pmap n ⊆ net.pmap n' →
  (∀ pid, net_ops.get_token n' pid ⊆ net_ops.get_token n pid) → typed n → typed n'.
Proof.
  intros Hp Ht Hn pid k v Hv. destruct (Hn pid k v) as (p & Hpid & Hty).
  { by eapply lookup_weaken. }
  exists p. split; [by eapply lookup_weaken|done].
Qed.

Lemma typed_modify (f : net_type N → net_type N) :
  (∀ n, net.pmap n ⊆ net.pmap (f n)) →
  (∀ n, net.token_by_place_id (f n) = net.token_by_place_id n) →
  preserves typed (modify f : M _ exn unit).
Proof.
  intros Hp Ht. apply preserves_modify. intros n. apply typed_mono; [done|].
  intros pid. unfold net_ops.get_token. by rewrite Ht.
Qed.

Lemma typed_at `{Countable K} {V} (k : K) (m : gmap K V) :
  preserves typed (net_ops.at_ k m : M (net_type N) exn V).
Proof. apply preserves_lift. Qed.

#[local] Hint Resolve typed_at : gspc.
#[local] Hint Extern 1 (preserves typed (modify _)) =>
  (apply typed_modify; [done|done]) : gspc.
#[local] Hint Extern 1 (preserves typed net_ops.this) => apply preserves_get : gspc.

Lemma typed_touch pid : preserves typed (net_ops.touch pid : M (net_type N) exn _).
Proof.
  intros n Hn. destruct (Enabled.touch_spec pid n) as (n' & -> & Hs). cbn [snd].
  eapply typed_mono; [| |done].
  - by rewrite (Enabled.sim_str _ _ Hs).
  - intros q. by rewrite (Enabled.sim_tokens _ _ Hs).
Qed.

Lemma typed_disable tid : preserves typed (net_ops.disable tid : M (net_type N) exn _).
Proof. unfold net_ops.disable. auto 10 with gspc. Qed.

#[local] Hint Resolve typed_touch typed_disable : gspc.

Lemma typed_push_places fixed tid t roots is_read places x :
  preserves typed (net_ops.push_places fixed tid t roots is_read places x : M (net_type N) exn _).
Proof.
  revert x. induction places as [|pid places IH]; intros x; cbn [net_ops.push_places].
  { apply preserves_ret. }
  apply preserves_bind.
  - destruct fixed as [[fpid f]|]; [case_decide|]; auto 10 with gspc.
  - intros tokens. case_decide; auto 10 with gspc.
Qed.

#[local] Hint Resolve typed_push_places : gspc.

Lemma typed_update fixed tid :
  preserves typed (net_ops.update_enabled_with fixed tid : M (net_type N) exn _).
Proof.
  unfold net_ops.update_enabled_with. apply preserves_bind; [auto with gspc|]. intros n.
  apply preserves_bind; [auto with gspc|]. intros t.
  apply preserves_bind; [auto with gspc|]. intros roots.
  apply preserves_bind; [auto with gspc|]. intros [x1|]; [|auto with gspc].
  apply preserves_bind; [auto with gspc|]. intros [x2|]; [|auto with gspc].
  apply preserves_bind; [auto with gspc|]. intros n2.
  apply preserves_bind; [auto with gspc|]. intros [x'|]; auto with gspc.
Qed.

Lemma typed_update_put_token tid r :
  preserves typed (net_ops.update_enabled_put_token tid r : M (net_type N) exn _).
Proof.
  unfold net_ops.update_enabled_put_token. apply preserves_bind; [auto with gspc|]. intros n.
  apply preserves_bind; [auto with gspc|]. intros t.
  destruct (net_ops.is_enabled n tid t); auto using typed_update with gspc.
Qed.

#[local] Hint Resolve typed_update typed_update_put_token : gspc.

(** The only place where a token comes in checks its type. *)
Lemma typed_do_put_value pid v :
  preserves typed (net_ops.do_put_value pid v : M (net_type N) exn _).
Proof.
  intros n Hn. unfold net_ops.do_put_value, net_ops.this, net_ops.at_.
  rewrite bind_get, bind_lift. destruct (net.pmap n !! pid) as [p|] eqn:Hp; [|done].
  cbn [or_throw]. rewrite bind_modify. unfold mbind at 1, M_bind at 1.
  destruct (Enabled.touch_spec pid (net.set_token_id next_id n)) as (n1 & -> & Hs).
  assert (typed n1) as Hn1.
  { eapply typed_mono; [| |exact Hn].
    - by rewrite (Enabled.sim_str _ _ Hs).
    - intros q. by rewrite (Enabled.sim_tokens _ _ Hs). }
  rewrite bind_lift. destruct (net_ops.require v p) as [v'|] eqn:Hreq; [|done].
  rewrite bind_modify. intros q k w. unfold net_ops.get_token at 1. simpl.
  destruct (decide (pid = q)) as [<-|Hne].
  2: { rewrite lookup_insert_ne by done. apply Hn1. }
  rewrite lookup_insert_eq. simpl. unfold emplace.
  assert (net_ops.get_token (net.set_token_id next_id n) pid = net_ops.get_token n1 pid) as ->
    by (by rewrite (Enabled.sim_tokens _ _ Hs)).
  destruct (net_ops.get_token n1 pid !! net.token_id n); [apply Hn1|]. simpl.
  intros [[<- <-]|[_ Hw]]%lookup_insert_Some; [|by eapply Hn1].
  exists p. split; [by rewrite (Enabled.sim_str _ _ Hs)|].
  unfold net_ops.require, Signature.require_type in Hreq.
  destruct (Signature.require_type_at _ v _) as [[]|e] eqn:Hr; simplify_eq/=.
  by eapply Signature.require_type_at_correct.
Qed.

Lemma typed_do_update r : preserves typed (net_ops.do_update r : M (net_type N) exn _).
Proof. unfold net_ops.do_update. auto with gspc. Qed.

#[local] Hint Resolve typed_do_put_value typed_do_update : gspc.

Lemma typed_put_value pid v : preserves typed (net_ops.put_value pid v : M (net_type N) exn _).
Proof. unfold net_ops.put_value. auto with gspc. Qed.

#[local] Hint Resolve typed_put_value : gspc.

Lemma typed_put_token name v : preserves typed (net_ops.put_token name v : M (net_type N) exn _).
Proof.
  unfold net_ops.put_token. apply preserves_bind; [auto with gspc|]. intros n.
  destruct (net.place_id_by_name n !! name); [|auto with gspc].
  apply preserves_bind; [auto with gspc|]. intros p.
  destruct (place.is_marked_for_put_token p); simpl; auto with gspc.
Qed.

Lemma typed_erase r : preserves typed (fire.erase r : M (net_type N) exn _).
Proof.
  intros n Hn. destruct (fire.erase r n) as [[[]|e] n'] eqn:Hrun.
  - apply Invariant.erase_spec in Hrun as (Hstr & _ & _ & _ & Htok).
    eapply typed_mono; [| |exact Hn]; simpl; [by rewrite Hstr|]. intros q. rewrite Htok.
    case_decide; [apply delete_subseteq|done].
  - unfold fire.erase, net_ops.at_ in Hrun. rewrite bind_get, bind_lift in Hrun.
    destruct (net.token_by_place_id n !! r.1); [done|]. by injection Hrun as <- <-.
Qed.

Lemma typed_revise ids tid : preserves typed (fire.revise ids tid : M (net_type N) exn _).
Proof.
  unfold fire.revise. apply preserves_bind; [auto with gspc|]. intros n.
  apply preserves_bind; [auto with gspc|]. intros t.
  destruct (net_ops.is_enabled n tid t); [|auto with gspc].
  apply preserves_bind; [auto with gspc|]. intros ch.
  destruct (existsb _ _); [apply typed_update|auto with gspc].
Qed.

#[local] Hint Resolve typed_erase typed_revise : gspc.

Lemma typed_do_delete l : preserves typed (fire.do_delete l : M (net_type N) exn _).
Proof. unfold fire.do_delete. auto 10 with gspc. Qed.
End typing.

(** ** Any sequence of operations *)
Section sequences.
Context `{Float.Libm} `{Unordered} {P W : Type} (env : fire.environment P W).
Abbreviation state := (net_type workflow * (plugin.Plugins P * W))%type.
Abbreviation net_typed := (λ s : state, typed s.1).

Inductive op : Type :=
| op_add_place (p : place.type)
| op_add_transition (t : transition_t workflow)
| op_add_connection (type : edge.type) (tid : transition_id_type) (pid : place_id_type)
    (port : port_id_type) (prop : property_type)
| op_add_response (tid : transition_id_type) (port : port_id_type) (to : string)
    (prop : property_type)
| op_add_eureka (tid : transition_id_type) (port : port_id_type)
| op_put_value (pid : place_id_type) (v : value_type)
| op_put_token (name : string) (v : value_type)
| op_fire (fuel : nat)
| op_inject (tid : transition_id_type) (output input : list token_on_port).

(** The state an operation leaves behind, however it ends. *)
Definition run (o : op) (s : state) : state :=
  match o with
  | op_add_place p => (fire.on_net (net_ops.add_place p) s).2
  | op_add_transition t => (fire.on_net (net_ops.add_transition t) s).2
  | op_add_connection type tid pid port prop =>
      (fire.on_net (net_ops.add_connection type tid pid port prop) s).2
  | op_add_response tid port to prop =>
      (fire.on_net (net_ops.add_response tid port to prop) s).2
  | op_add_eureka tid port => (fire.on_net (net_ops.add_eureka tid port) s).2
  | op_put_value pid v => (fire.on_net (net_ops.put_value pid v) s).2
  | op_put_token name v => (fire.on_net (net_ops.put_token name v) s).2
  | op_fire fuel =>
      default s (snd <$> fire.fire_expressions_and_extract_activity_random env fuel s)
  | op_inject tid output input => (fire.inject env tid output input s).2
  end.

Lemma typed_on_net {A} (m : M (net_type workflow) exn A) :
  preserves typed m → preserves net_typed (fire.on_net m : M state exn A).
Proof.
  intros Hm [n s] Hn. specialize (Hm n Hn). simpl in *. by destruct (m n) as [r n'].
Qed.
Lemma typed_on_plugins {A} (m : M _ exn A) :
  preserves net_typed (fire.on_plugins m : M state exn A).
Proof. intros [n s] Hn. simpl. by destruct (m s). Qed.
Lemma typed_on_world {A} (m : M W exn A) :
  preserves net_typed (fire.on_world m : M state exn A).
Proof. intros [n [ps w]] Hn. simpl. by destruct (m w). Qed.
Lemma typed_nest {A} what (m : M state exn A) :
  preserves net_typed m → preserves net_typed (fire.nest_exceptions what m).
Proof.
  intros Hm s Hs. specialize (Hm s Hs). unfold fire.nest_exceptions. by destruct (m s) as [[]].
Qed.
Lemma typed_send_eureka ids : preserves net_typed (fire.send_eureka env ids).
Proof.
  unfold fire.send_eureka. case_decide; [apply preserves_ret|].
  apply typed_nest, typed_on_world.
Qed.

#[local] Hint Resolve typed_on_net typed_on_plugins typed_on_world typed_nest
  typed_send_eureka typed_do_put_value typed_put_value typed_do_update typed_do_delete
  typed_put_token : gspc.

Lemma typed_put_many pid vs : preserves net_typed (fire.put_many pid vs : M state exn _).
Proof. induction vs as [|v vs IH]; cbn [fire.put_many]; auto 10 with gspc. Qed.
#[local] Hint Resolve typed_put_many : gspc.

Lemma typed_emit tid c p : preserves net_typed (fire.emit env tid c p).
Proof.
  unfold fire.emit. apply preserves_bind; [auto with gspc|]. intros s.
  destruct (fire.connection _ _ _) as [[pid prop]|]; [auto with gspc|].
  destruct (fire.connection _ _ _) as [[pid prop]|]; [auto with gspc|].
  case_bool_decide; auto 10 with gspc.
Qed.
Lemma typed_emit_all tid c ports : preserves net_typed (fire.emit_all env tid c ports).
Proof.
  induction ports as [|p ports IH]; cbn [fire.emit_all]; auto 10 using typed_emit with gspc.
Qed.
Lemma typed_evaluate t c : preserves net_typed (fire.evaluate env t c).
Proof.
  intros [n s] Hn. simpl. pose proof (Invariant.keeps_evaluate env n t c (n, s) eq_refl) as Hk.
  simpl in Hk. by rewrite Hk.
Qed.
Lemma typed_fire_expression tid t : preserves net_typed (fire.fire_expression env tid t).
Proof.
  unfold fire.fire_expression. apply preserves_bind; [auto with gspc|]. intros s.
  destruct (fire.do_extract _ _ _ _) as [r c].
  apply preserves_bind; [auto with gspc|]. intros l.
  apply preserves_bind; [apply typed_evaluate|]. intros c'.
  apply preserves_bind; [apply typed_emit_all|]. intros rs. auto 10 with gspc.
Qed.
Lemma typed_extract_activity tid t : preserves typed (fire.extract_activity tid t).
Proof.
  intros n Hn. unfold fire.extract_activity.
  destruct (fire.do_extract _ _ _ _) as [[l|e] act]; [|done].
  revert n Hn. change (preserves typed (fire.do_delete l ≫= λ _, mret act : M (net_type workflow) exn _)).
  auto with gspc.
Qed.
Lemma typed_fire_step tids : preserves net_typed (fire.fire_step env tids).
Proof.
  unfold fire.fire_step. apply preserves_bind; [auto with gspc|]. intros i.
  apply preserves_bind; [auto with gspc|]. intros tid.
  apply preserves_bind; [auto with gspc|]. intros s.
  apply preserves_bind; [auto with gspc|]. intros t. destruct (transition.get_expression t).
  - apply preserves_bind; [apply typed_fire_expression|auto with gspc].
  - apply preserves_bind; [apply typed_on_net, typed_extract_activity|auto with gspc].
Qed.
Lemma typed_fire_loop fuel s r :
  net_typed s → fire.fire_expressions_and_extract_activity_random env fuel s = Some r →
  net_typed r.2.
Proof.
  revert s. induction fuel as [|fuel IH]; intros s Hs; cbn; [done|].
  destruct (fire.highest _) as [[prio tids]|]; [|by intros [= <-]].
  pose proof (typed_fire_step tids s Hs) as Hs'.
  destruct (fire.fire_step env tids s) as [[[act|]|e] s']; [by intros [= <-]| |by intros [= <-]].
  by apply IH.
Qed.
Lemma typed_inject tid output input : preserves net_typed (fire.inject env tid output input).
Proof.
  unfold fire.inject. apply preserves_for_each. intros [v port] _. unfold fire.inject_token.
  apply preserves_bind; [auto with gspc|]. intros s. unfold fire.put_values.
  destruct (fire.connection _ _ _) as [[pid prop]|]; [auto with gspc|].
  destruct (fire.connection _ _ _) as [[pid prop]|]; [auto with gspc|].
  case_bool_decide; auto 10 with gspc.
Qed.

Lemma typed_build (m : M (net_type workflow) exn unit) (s : state) :
  preserves typed m → net_typed s → net_typed (fire.on_net m s).2.
Proof. intros Hm Hs. by apply typed_on_net. Qed.

Lemma typed_run o s : net_typed s → net_typed (run o s).
Proof.
  destruct o; unfold run; intros Hs.
  - apply typed_on_net; [|done]. unfold net_ops.add_place, net_ops.this.
    apply preserves_bind; [auto with gspc|]. intros n.
    apply preserves_bind.
    { apply typed_modify; [|done]. intros n'. apply Invariant.emplace_subseteq. }
    intros _. destruct (emplace _ _ _) as [m b].
    apply preserves_bind; [by apply typed_modify|]. intros _. destruct b; auto with gspc.
  - apply typed_on_net; [|done]. unfold net_ops.add_transition, net_ops.this.
    apply preserves_bind; [auto with gspc|]. intros n.
    apply preserves_bind; [by apply typed_modify|auto with gspc].
  - apply typed_on_net; [|done]. unfold net_ops.add_connection, net_ops.this,
      net_ops.require_no_output_connection.
    apply preserves_bind; [auto with gspc|]. intros n.
    destruct type; destruct (net_ops.emplace2 _ _ _ _) as [m []];
      repeat first [apply preserves_bind; [|intros _] | by apply typed_modify
        | apply typed_update | apply preserves_ret | apply preserves_throw
        | destruct (_ !! _ ≫= _) ].
  - apply typed_on_net; [|done]. unfold net_ops.add_response, net_ops.this.
    apply preserves_bind; [auto with gspc|]. intros n.
    destruct (net_ops.emplace2 _ _ _ _) as [m []]; (apply preserves_bind;
      [by apply typed_modify|auto with gspc]).
  - apply typed_on_net; [|done]. unfold net_ops.add_eureka, net_ops.this.
    apply preserves_bind; [auto with gspc|]. intros n.
    destruct (emplace _ _ _) as [m []]; (apply preserves_bind;
      [by apply typed_modify|auto with gspc]).
  - apply typed_on_net; [auto with gspc|done].
  - apply typed_on_net; [auto with gspc|done].
  - destruct (fire.fire_expressions_and_extract_activity_random env fuel s) as [r|] eqn:Hr;
      [|done]. by apply (typed_fire_loop fuel s).
  - by apply typed_inject.
Qed.

(** C6: Type safety of the net: after any sequence of operations, each of
    which may have returned or thrown, every token on a place is a value of
    the place's signature. *)
Theorem tokens_well_typed (ops : list op) (s : plugin.Plugins P * W) pid k v :
  let n := (foldl (λ s o, run o s) (net.empty, s) ops).1 in
  net_ops.get_token n pid !! k = Some v →
  ∃ p, net.pmap n !! pid = Some p ∧ Signature.has_type v (place.signature p).
Proof.
  intros n. revert pid k v. change (typed n). subst n.
  assert (net_typed (net.empty, s)) as Hempty.
  { intros pid k v Hv. done. }
  revert Hempty. generalize (net.empty : net_type workflow, s). clear s.
  induction ops as [|o ops IH]; intros s Hs; [done|]. cbn [foldl].
  apply IH. by apply typed_run.
Qed.
End sequences.

Lemma tokens_well_typed_witness :
  let ops := [op_add_place (place.mk "in" (Signature.Sname "int") None);
              op_put_value 0 (Vstring "rejected"); op_put_value 0 (Vint 7)] in
  let n := (foldl (λ s o, @run Float.nan_libm _ _ _ Invariant.quiet o s)
              (net.empty, (plugin.none, tt)) ops).1 in
  net_ops.get_token n 0 !! 1%Z = Some (Vint 7) ∧ net_ops.get_token n 0 !! 0%Z = None ∧
  ∃ p, net.pmap n !! 0%Z = Some p ∧ Signature.has_type (Vint 7) (place.signature p).
Proof.
  split_and!; [vm_compute; reflexivity..|].
  apply (@tokens_well_typed Float.nan_libm _ _ _ Invariant.quiet _ _ 0%Z 1%Z).
  vm_compute. reflexivity.
Defined.

End Typing.
