(* ===== verification/MmgrLayout.v ===== *)
(** * Layouts of a memory segment

    The abstract view of an arena: the sequence of its free and used segments
    from offset 0 on.  [tmmgr] keeps five tables that index this sequence. *)

From S2P Require Import Prelude.

Open Scope Z_scope.

Module layout.

Inductive segment : Type := Free (n : Z) | Used (h n : Z).
Abbreviation type := (list segment).

Definition seg_size (s : segment) : Z := match s with Free n => n | Used _ n => n end.
Definition is_free (s : segment) : bool := match s with Free _ => true | Used _ _ => false end.
Definition total (l : type) : Z := foldr (λ s z, seg_size s + z) 0 l.
Definition free_total (l : type) : Z :=
  foldr (λ s z, (if is_free s then seg_size s else 0) + z) 0 l.

(** The segments with their offsets *)
Fixpoint segs (o : Z) (l : type) : list (Z * segment) :=
  match l with [] => [] | s :: l => (o, s) :: segs (o + seg_size s) l end.

Definition handles (l : type) : list Z := omap (λ s, match s with Used h _ => Some h | _ => None end) l.

Definition ends_free (l : type) : Prop := match last l with Some s => is_free s = true | None => False end.
Definition starts_free (l : type) : Prop := match head l with Some s => is_free s = true | None => False end.
Fixpoint separate (l : type) : Prop :=
  match l with [] => True | s :: l => ¬ (is_free s = true ∧ starts_free l) ∧ separate l end.

(** The end of the last used segment *)
Definition high (l : type) : Z :=
  match last l with Some (Free n) => total l - n | _ => total l end.

(** A free segment, unless it is empty *)
Definition free_seg (n : Z) : type := if 0 <? n then [Free n] else [].

Definition positive (l : type) : Prop := Forall (λ s, 0 < seg_size s) l.

Record wf (align : Z) (l : type) : Prop := {
  wf_positive : positive l;
  wf_aligned : Forall (λ s, (align | seg_size s)) l;
  wf_separate : separate l;
  wf_handles : NoDup (handles l);
  wf_total : total l < two64
}.

(** ** Sums *)
Lemma total_cons s l : total (s :: l) = seg_size s + total l.
Proof. done. Qed.
Lemma total_app l k : total (l ++ k) = total l + total k.
Proof. induction l as [|s l IH]; simpl; [done|]. rewrite IH. lia. Qed.
Lemma free_total_cons s l :
  free_total (s :: l) = (if is_free s then seg_size s else 0) + free_total l.
Proof. done. Qed.
Lemma free_total_app l k : free_total (l ++ k) = free_total l + free_total k.
Proof. induction l as [|s l IH]; simpl; [done|]. rewrite IH. lia. Qed.
Lemma total_free_seg n : 0 ≤ n → total (free_seg n) = n.
Proof. unfold free_seg. intros. destruct (Z.ltb_spec 0 n); simpl; lia. Qed.
Lemma free_total_free_seg n : 0 ≤ n → free_total (free_seg n) = n.
Proof. unfold free_seg. intros. destruct (Z.ltb_spec 0 n); simpl; lia. Qed.
Lemma positive_app l k : positive (l ++ k) ↔ positive l ∧ positive k.
Proof. unfold positive. by rewrite Forall_app. Qed.
Lemma positive_cons s l : positive (s :: l) ↔ 0 < seg_size s ∧ positive l.
Proof. unfold positive. by rewrite Forall_cons. Qed.
Lemma positive_free_seg n : positive (free_seg n).
Proof. unfold free_seg. destruct (Z.ltb_spec 0 n); repeat constructor; done. Qed.
Lemma total_nonneg l : positive l → 0 ≤ total l.
Proof. induction 1; simpl; lia. Qed.
Lemma total_positive l : positive l → l ≠ [] → 0 < total l.
Proof. destruct 1 as [|s l Hs Hl]; [done|]. pose proof (total_nonneg _ Hl). simpl in *. lia. Qed.
Lemma free_total_bounds l : positive l → 0 ≤ free_total l ≤ total l.
Proof. induction 1 as [|[]]; simpl in *; lia. Qed.

(** ** Offsets *)
Lemma segs_app o l k : segs o (l ++ k) = segs o l ++ segs (o + total l) k.
Proof.
  revert o. induction l as [|s l IH]; intros o; simpl; [by rewrite Z.add_0_r|].
  rewrite IH. by replace (o + seg_size s + total l) with (o + (seg_size s + total l)) by lia.
Qed.
Lemma segs_bounds o l x s : positive l → (x, s) ∈ segs o l → o ≤ x ∧ 0 < seg_size s ∧ x + seg_size s ≤ o + total l.
Proof.
  intros Hl. revert o. induction Hl as [|s' l Hs Hl IH]; intros o; simpl; [by intros ?%elem_of_nil|].
  pose proof (total_nonneg _ Hl). intros [[= -> ->]|Hx]%elem_of_cons; [lia|].
  apply IH in Hx. lia.
Qed.
(** Every segment splits the layout. *)
Lemma segs_split o l x s :
  (x, s) ∈ segs o l → ∃ l1 l2, l = l1 ++ s :: l2 ∧ x = o + total l1.
Proof.
  revert o. induction l as [|s' l IH]; intros o; simpl; [by intros ?%elem_of_nil|].
  intros [[= -> ->]|Hx]%elem_of_cons.
  - exists [], l. split; [done|]. simpl. lia.
  - apply IH in Hx as (l1 & l2 & -> & ->). exists (s' :: l1), l2. split; [done|]. simpl. lia.
Qed.
Lemma segs_middle o l1 s l2 : (o + total l1, s) ∈ segs o (l1 ++ s :: l2).
Proof. rewrite segs_app. apply elem_of_app. right. by left. Qed.
Lemma segs_middle_0 l1 s l2 : (total l1, s) ∈ segs 0 (l1 ++ s :: l2).
Proof. apply (segs_middle 0). Qed.
(** Two segments are the same or do not overlap. *)
Lemma segs_disjoint o l x s y r :
  positive l → (x, s) ∈ segs o l → (y, r) ∈ segs o l →
  (x = y ∧ s = r) ∨ x + seg_size s ≤ y ∨ y + seg_size r ≤ x.
Proof.
  intros Hl. revert o. induction Hl as [|s' l Hs Hl IH]; intros o; simpl; [by intros ?%elem_of_nil|].
  intros [[= -> ->]|Hx]%elem_of_cons [[= -> ->]|Hy]%elem_of_cons; [by left|right|right|by eapply IH].
  - apply segs_bounds in Hy; [lia|done].
  - apply segs_bounds in Hx; [lia|done].
Qed.
Lemma segs_start_inj o l x s r :
  positive l → (x, s) ∈ segs o l → (x, r) ∈ segs o l → s = r.
Proof.
  intros Hl Hs Hr. pose proof (segs_bounds _ _ _ _ Hl Hs). pose proof (segs_bounds _ _ _ _ Hl Hr).
  destruct (segs_disjoint _ _ _ _ _ _ Hl Hs Hr) as [[_ ?]|?]; [done|lia].
Qed.
Lemma segs_end_inj o l x s y r :
  positive l → (x, s) ∈ segs o l → (y, r) ∈ segs o l → x + seg_size s = y + seg_size r → x = y ∧ s = r.
Proof.
  intros Hl Hs Hr Heq. pose proof (segs_bounds _ _ _ _ Hl Hs). pose proof (segs_bounds _ _ _ _ Hl Hr).
  destruct (segs_disjoint _ _ _ _ _ _ Hl Hs Hr) as [?|?]; [done|lia].
Qed.
(** The segment that ends where the layout ends is the last one. *)
Lemma segs_last o l x s :
  positive l → (x, s) ∈ segs o l → x + seg_size s = o + total l → ∃ l1, l = l1 ++ [s].
Proof.
  intros Hl (l1 & l2 & -> & ->)%segs_split Hx. exists l1.
  apply positive_app in Hl as [_ Hl]. apply positive_cons in Hl as [Hs Hl2].
  destruct l2 as [|r l2]; [done|]. apply total_positive in Hl2; [|done].
  rewrite total_app, total_cons in Hx. lia.
Qed.

Lemma elem_of_handles h l o : h ∈ handles l ↔ ∃ x n, (x, Used h n) ∈ segs o l.
Proof.
  revert o. induction l as [|s l IH]; intros o; simpl.
  - split; [by intros ?%elem_of_nil|]. by intros (? & ? & ?%elem_of_nil).
  - specialize (IH (o + seg_size s)). destruct s as [n|h' n]; simpl.
    + rewrite IH. split; intros (x & m & Hx); exists x, m; [by right|].
      by apply elem_of_cons in Hx as [[= ]|Hx].
    + rewrite elem_of_cons, IH. split.
      * intros [->|(x & m & Hx)]; [exists o, n; by left|exists x, m; by right].
      * intros (x & m & [[= _ -> _]|Hx]%elem_of_cons); [by left|right; eauto].
Qed.
Lemma handles_app l k : handles (l ++ k) = handles l ++ handles k.
Proof. apply omap_app. Qed.
Lemma handles_free_seg n : handles (free_seg n) = [].
Proof. unfold free_seg. by destruct (0 <? n). Qed.

(** ** Separation *)
Lemma last_cons_default {A} (x : A) l : last (x :: l) = Some (default x (last l)).
Proof. rewrite last_cons. by destruct (last l). Qed.
Lemma separate_app l k : separate (l ++ k) ↔ separate l ∧ separate k ∧ ¬ (ends_free l ∧ starts_free k).
Proof.
  induction l as [|s l IH]; simpl.
  - unfold ends_free. simpl. tauto.
  - rewrite IH. unfold ends_free, starts_free. rewrite last_cons_default.
    destruct l as [|r l]; simpl; [tauto|]. rewrite last_cons_default. simpl. tauto.
Qed.
Lemma separate_cons s l : separate (s :: l) ↔ ¬ (is_free s = true ∧ starts_free l) ∧ separate l.
Proof. done. Qed.
Lemma ends_free_snoc l s : ends_free (l ++ [s]) ↔ is_free s = true.
Proof. unfold ends_free. by rewrite last_snoc. Qed.
Lemma separate_free_seg n : separate (free_seg n).
Proof. unfold free_seg. destruct (0 <? n); simpl; tauto. Qed.

(** Whether a layout ends or starts with a free segment *)
Lemma ends_free_cases l : (∃ l' n, l = l' ++ [Free n]) ∨ ¬ ends_free l.
Proof.
  destruct l as [|[n|h n] l _] using rev_ind; [right; by intros []|left; eauto|right].
  by rewrite ends_free_snoc.
Qed.
Lemma starts_free_cases l : (∃ l' n, l = Free n :: l') ∨ ¬ starts_free l.
Proof. destruct l as [|[n|h n] l]; [right; by intros []|left; eauto|by right]. Qed.

(** ** High water *)
Lemma high_snoc_free l n : high (l ++ [Free n]) = total l.
Proof. unfold high. rewrite last_snoc, total_app. simpl. lia. Qed.
Lemma high_not_free l : ¬ ends_free l → high l = total l.
Proof. unfold high, ends_free. destruct (last l) as [[]|]; simpl; done. Qed.
Lemma high_bounds l : positive l → 0 ≤ high l ≤ total l.
Proof.
  intros Hl. destruct (ends_free_cases l) as [(l' & n & ->)|Hn].
  - rewrite high_snoc_free, total_app. apply positive_app in Hl as [Hl Hn].
    apply total_nonneg in Hl. apply positive_cons in Hn as [Hn _]. simpl in *. lia.
  - rewrite high_not_free by done. apply total_nonneg in Hl. lia.
Qed.
(** Used segments end below. *)
Lemma high_used o l x h n :
  positive l → (x, Used h n) ∈ segs o l → x + n ≤ o + high l.
Proof.
  intros Hl Hx. destruct (ends_free_cases l) as [(l' & m & ->)|Hn].
  - rewrite high_snoc_free. rewrite segs_app in Hx. apply positive_app in Hl as [Hl _].
    apply elem_of_app in Hx as [Hx|Hx].
    + by apply segs_bounds in Hx as (_ & _ & ?).
    + by apply list_elem_of_singleton in Hx as [= ].
  - rewrite high_not_free by done. by apply segs_bounds in Hx as (_ & _ & ?).
Qed.
(** It is the end of a used segment, or 0. *)
Lemma high_is_end l :
  positive l → separate l → high l = 0 ∨ ∃ x h n, (x, Used h n) ∈ segs 0 l ∧ high l = x + n.
Proof.
  intros Hl Hsep.
  assert (∀ l, ¬ ends_free l → total l = 0 ∨ ∃ x h n, (x, Used h n) ∈ segs 0 l ∧ total l = x + n) as Hend.
  { intros k Hk. destruct k as [|[n|h n] k _] using rev_ind; [by left| |right].
    - by rewrite ends_free_snoc in Hk.
    - exists (0 + total k), h, n. split; [apply segs_middle|]. rewrite total_app. simpl. lia. }
  destruct (ends_free_cases l) as [(l' & m & ->)|Hn].
  - rewrite high_snoc_free. apply separate_app in Hsep as (_ & _ & Hsep).
    destruct (Hend l') as [?|(x & h & n & Hx & ?)]; [|by left|right].
    + intros ?. by apply Hsep.
    + exists x, h, n. split; [|done]. rewrite segs_app. apply elem_of_app. by left.
  - rewrite high_not_free by done. by apply Hend.
Qed.
(** The used part fits below the high water mark. *)
Lemma used_high l : positive l → total l - free_total l ≤ high l.
Proof.
  intros Hl. destruct (ends_free_cases l) as [(l' & n & ->)|Hn].
  - rewrite high_snoc_free, total_app, free_total_app. apply positive_app in Hl as [Hl _].
    apply free_total_bounds in Hl. simpl. lia.
  - rewrite high_not_free by done. apply free_total_bounds in Hl. lia.
Qed.

(** ** Replacing segments *)
Lemma elem_of_segs_middle e l1 mid l2 :
  e ∈ segs 0 (l1 ++ mid ++ l2) ↔
  e ∈ segs 0 l1 ∨ e ∈ segs (total l1) mid ∨ e ∈ segs (total l1 + total mid) l2.
Proof. by rewrite !segs_app, !elem_of_app, Z.add_0_l. Qed.

Lemma replace_segs l1 mid mid' l2 e :
  positive (l1 ++ mid ++ l2) → total mid = total mid' ∨ l2 = [] →
  e ∈ segs 0 (l1 ++ mid' ++ l2) ↔
  (e ∈ segs 0 (l1 ++ mid ++ l2) ∧ e ∉ segs (total l1) mid) ∨ e ∈ segs (total l1) mid'.
Proof.
  intros Hpos Htotal. apply positive_app in Hpos as [Hl1 Hpos]. apply positive_app in Hpos as [Hmid Hl2].
  destruct e as [x s]. rewrite !elem_of_segs_middle.
  assert ((x, s) ∈ segs 0 l1 → (x, s) ∉ segs (total l1) mid) as H1.
  { intros Hx%segs_bounds Hy%segs_bounds; [lia|done..]. }
  assert ((x, s) ∈ segs (total l1 + total mid) l2 → (x, s) ∉ segs (total l1) mid) as H2.
  { intros Hx%segs_bounds Hy%segs_bounds; [lia|done..]. }
  destruct Htotal as [<-| ->]; [tauto|]. simpl. rewrite !elem_of_nil. tauto.
Qed.

Lemma wf_replace a l1 mid mid' l2 :
  wf a (l1 ++ mid ++ l2) →
  positive mid' → Forall (λ s, (a | seg_size s)) mid' → separate (l1 ++ mid' ++ l2) →
  NoDup (handles (l1 ++ mid' ++ l2)) → total (l1 ++ mid' ++ l2) < two64 →
  wf a (l1 ++ mid' ++ l2).
Proof.
  intros [Hpos Hal _ _ _] Hpos' Hal' Hsep Hnd Htot. split; try done.
  - rewrite !positive_app in *. tauto.
  - rewrite !Forall_app in *. tauto.
Qed.

(** ** The steps of a layout *)

(** Take [n] bytes for [h] from the smallest free segment that is large
    enough, at its start. *)
Definition alloc_step (h n o : Z) (l l' : type) : Prop :=
  ∃ l1 m l2, l = l1 ++ Free m :: l2 ∧ o = total l1 ∧ n ≤ m ∧
    (∀ k, Free k ∈ l → n ≤ k → m ≤ k) ∧
    l' = l1 ++ Used h n :: free_seg (m - n) ++ l2.

(** The free segment at the end or at the start of a layout *)
Definition strip_right (l : type) : type * Z :=
  match last l with Some (Free n) => (take (length l - 1) l, n) | _ => (l, 0) end.
Definition strip_left (l : type) : Z * type :=
  match l with Free n :: l => (n, l) | _ => (0, l) end.

(** Make the segment of [h] free and join it with its free neighbours. *)
Definition free_step (h : Z) (l l' : type) : Prop :=
  ∃ l1 n l2, l = l1 ++ Used h n :: l2 ∧
    let '(l1, a) := strip_right l1 in
    let '(b, l2) := strip_left l2 in
    l' = l1 ++ Free (a + n + b) :: l2.

(** Let the layout end at [size]. *)
Definition resize_layout (size : Z) (l : type) : type :=
  let l := (strip_right l).1 in l ++ free_seg (size - total l).

Lemma strip_right_free l n : strip_right (l ++ [Free n]) = (l, n).
Proof.
  unfold strip_right. rewrite last_snoc. f_equal. rewrite length_app. simpl.
  by rewrite Nat.add_sub, take_app_length.
Qed.
Lemma strip_right_not_free l : ¬ ends_free l → strip_right l = (l, 0).
Proof. unfold strip_right, ends_free. by destruct (last l) as [[]|]. Qed.
Lemma strip_left_not_free l : ¬ starts_free l → strip_left l = (0, l).
Proof. unfold strip_left, starts_free. by destruct l as [|[]]. Qed.

Lemma high_app_used l s k : positive (l ++ s :: k) → is_free s = false → total l + seg_size s ≤ high (l ++ s :: k).
Proof.
  intros Hpos Hs. apply positive_app in Hpos as [Hl Hk]. apply positive_cons in Hk as [Hs' Hk].
  destruct (ends_free_cases k) as [(k' & n & ->)|Hn].
  - replace (l ++ s :: k' ++ [Free n]) with ((l ++ s :: k') ++ [Free n]) by (by rewrite <- app_assoc).
    rewrite high_snoc_free, total_app, total_cons.
    apply positive_app in Hk as [Hk _]. apply total_nonneg in Hk. lia.
  - rewrite high_not_free.
    + apply total_nonneg in Hk. rewrite total_app, total_cons. lia.
    + unfold ends_free in *. rewrite last_app_cons, last_cons_default.
      destruct (last k); simpl; [done|]. by rewrite Hs.
Qed.
Lemma high_app l k : k ≠ [] → high (l ++ k) = total l + high k.
Proof.
  intros Hk. destruct k as [|s k _] using rev_ind; [done|].
  rewrite app_assoc. destruct s as [n|h n].
  - by rewrite !high_snoc_free, total_app.
  - rewrite !high_not_free, <- app_assoc, total_app; [done|by rewrite ends_free_snoc..].
Qed.

Lemma alloc_step_high a h n o l l' :
  wf a l → 0 < n → alloc_step h n o l l' → high l' = Z.max (high l) (o + n).
Proof.
  intros [Hpos _ Hsep _ _] Hn (l1 & m & l2 & -> & -> & Hle & _ & ->).
  apply separate_app in Hsep as (_ & [Hsep _]%separate_cons & _).
  apply positive_app in Hpos as [Hl1 Hpos]. pose proof Hpos as [Hm Hl2]%positive_cons.
  rewrite !high_app by (by destruct l2). simpl in Hm.
  destruct l2 as [|s l2].
  - rewrite app_nil_r. unfold free_seg. destruct (Z.ltb_spec 0 (m - n)).
    + change [Used h n; Free (m - n)] with ([Used h n] ++ [Free (m - n)]).
      rewrite (high_snoc_free [Used h n]). change [Free m] with ([] ++ [Free m]).
      rewrite (high_snoc_free []). simpl. lia.
    + unfold high. simpl. lia.
  - assert (is_free s = false) as Hs.
    { destruct s; [|done]. destruct Hsep. by split. }
    pose proof (high_app_used [] s l2 Hl2 Hs) as Hhigh. simpl in Hhigh.
    apply positive_cons in Hl2 as [Hs' _].
    replace (Used h n :: free_seg (m - n) ++ s :: l2) with ((Used h n :: free_seg (m - n)) ++ s :: l2) by done.
    replace (Free m :: s :: l2) with ([Free m] ++ s :: l2) by done.
    rewrite !high_app by done. simpl. rewrite total_free_seg by lia. lia.
Qed.

End layout.
