(* ===== verification/Mmgr.v ===== *)
(** * The segment allocator of the virtual memory

    [mmgr/tmmgr.cpp] and [mmgr/dtmmgr.cpp]: the tables behind one arena of a
    memory segment and the pair of arenas that grow towards each other.  All
    numbers are [unsigned long], arithmetic wraps around. *)

From stdpp Require Import gmultiset.
From S2P Require Import Prelude.

Open Scope Z_scope.

(** ** Unordered multisets

    [begin()] of a [std::unordered_multiset] is some element. *)
Class UnorderedMultiset := {
  ms_begin : gmultiset Z → option Z;
  ms_begin_elem : ∀ X x, ms_begin X = Some x → x ∈ X;
  ms_begin_end : ∀ X, ms_begin X = None → X = ∅
}.

(** One admissible order *)
#[refine] Instance canonical_multiset : UnorderedMultiset := {
  ms_begin := λ X, head (elements X)
}.
Proof.
  - intros X x. rewrite head_Some. intros [l Hl]. apply gmultiset_elem_of_elements. rewrite Hl. by left.
  - intros X Hx%head_None. by apply gmultiset_elements_empty_inv.
Defined.

(** ** One arena ([tmmgr]) *)
Module tmmgr.

(** the exceptions of [tmmgr.hpp], failed assertions and undefined behaviour *)
Inductive error : Type :=
| unknown_handle (handle : Z)
| duplicate_handle (handle : Z)
| insufficient_contiguous_memory (handle size_unaligned size_aligned mem_free : Z)
| insufficient_memory (handle size_unaligned size_aligned mem_free : Z)
| below_mem_used (new_size_unaligned new_size_aligned mem_size mem_free : Z)
| below_high_water (new_size_unaligned new_size_aligned high_water : Z)
| missing_size (size : Z)
| missing_offset (offset : Z)
| assertion_failed (condition : string)
| undefined_behaviour (what : string).

Record type : Type := mk {
  handle_to_offset_and_size : gmap Z (Z * Z);
  offset_to_handle : gmap Z Z;
  free_offset_by_size : gmap Z (gmultiset Z);
  free_segment_start : gmap Z Z;
  free_segment_end : gmap Z Z;
  align : Z;
  mem_size : Z;
  mem_free : Z;
  high_water : Z
}.

Definition set_handle_to_offset_and_size f t :=
  mk (f (handle_to_offset_and_size t)) (offset_to_handle t) (free_offset_by_size t)
     (free_segment_start t) (free_segment_end t) (align t) (mem_size t) (mem_free t) (high_water t).
Definition set_offset_to_handle f t :=
  mk (handle_to_offset_and_size t) (f (offset_to_handle t)) (free_offset_by_size t)
     (free_segment_start t) (free_segment_end t) (align t) (mem_size t) (mem_free t) (high_water t).
Definition set_free_offset_by_size f t :=
  mk (handle_to_offset_and_size t) (offset_to_handle t) (f (free_offset_by_size t))
     (free_segment_start t) (free_segment_end t) (align t) (mem_size t) (mem_free t) (high_water t).
Definition set_free_segment_start f t :=
  mk (handle_to_offset_and_size t) (offset_to_handle t) (free_offset_by_size t)
     (f (free_segment_start t)) (free_segment_end t) (align t) (mem_size t) (mem_free t) (high_water t).
Definition set_free_segment_end f t :=
  mk (handle_to_offset_and_size t) (offset_to_handle t) (free_offset_by_size t)
     (free_segment_start t) (f (free_segment_end t)) (align t) (mem_size t) (mem_free t) (high_water t).
Definition set_mem_size v t :=
  mk (handle_to_offset_and_size t) (offset_to_handle t) (free_offset_by_size t)
     (free_segment_start t) (free_segment_end t) (align t) v (mem_free t) (high_water t).
Definition set_mem_free v t :=
  mk (handle_to_offset_and_size t) (offset_to_handle t) (free_offset_by_size t)
     (free_segment_start t) (free_segment_end t) (align t) (mem_size t) v (high_water t).
Definition set_high_water v t :=
  mk (handle_to_offset_and_size t) (offset_to_handle t) (free_offset_by_size t)
     (free_segment_start t) (free_segment_end t) (align t) (mem_size t) (mem_free t) v.

Abbreviation T := (M type error).

(** [~x] of an unsigned long *)
Definition wnot (x : Z) : Z := two64 - 1 - x.
Definition alignDown (Size Align : Z) : Z := Z.land Size (wnot (w64 (Align - 1))).
Definition alignUp (Size Align : Z) : Z := alignDown (w64 (w64 (Size + Align) - 1)) Align.

(** [lower_bound]: the smallest key that is not less *)
Definition lower_bound {A} (size : Z) (m : gmap Z A) : option (Z * A) :=
  match filter (λ k, size ≤ k) (map_to_list m).*1 with
  | [] => None
  | k :: ks => let k := foldr Z.min k ks in pair k <$> (m !! k)
  end.

Section tmmgr.
Context `{UnorderedMultiset} `{AssertMode}.

Definition fhg_assert (condition : bool) (text : string) : T unit :=
  if assert_throws && negb condition then throw (assertion_failed text) else mret tt.

Definition delete_free_segment (OffsetStart Size : Z) : T unit :=
  let OffsetEnd := w64 (OffsetStart + Size) in
  get ≫= λ t : type,
  match free_offset_by_size t !! Size with
  | None => throw (missing_size Size)
  | Some offsets =>
      if decide (OffsetStart ∈ offsets) then
        let offsets := offsets ∖ {[+ OffsetStart +]} in
        modify (set_free_offset_by_size
                  (if decide (offsets = ∅) then delete Size else <[Size := offsets]>)) ≫= λ _,
        modify (set_free_segment_start (delete OffsetStart)) ≫= λ _,
        modify (set_free_segment_end (delete OffsetEnd))
      else throw (missing_offset OffsetStart)
  end.

Definition insert_free_segment (OffsetStart Size : Z) : T unit :=
  if 0 <? Size then
    let OffsetEnd := w64 (OffsetStart + Size) in
    modify (set_free_offset_by_size
              (λ m, <[Size := default ∅ (m !! Size) ⊎ {[+ OffsetStart +]}]> m)) ≫= λ _,
    modify (set_free_segment_start (λ m, (emplace OffsetStart Size m).1)) ≫= λ _,
    modify (set_free_segment_end (λ m, (emplace OffsetEnd Size m).1))
  else mret tt.

(** [tmmgr::tmmgr] *)
Definition make (MemSize Align : Z) : type :=
  let mem_size := alignDown MemSize Align in
  (insert_free_segment 0 mem_size (mk ∅ ∅ ∅ ∅ ∅ Align mem_size mem_size 0)).2.

Definition resize (NewSizeUnaligned : Z) : T unit :=
  get ≫= λ t : type,
  let NewSize := alignDown NewSizeUnaligned (align t) in
  if NewSize <? w64 (mem_size t - mem_free t) then
    throw (below_mem_used NewSizeUnaligned NewSize (mem_size t) (mem_free t))
  else if NewSize <? high_water t then
    throw (below_high_water NewSizeUnaligned NewSize (high_water t))
  else
    let OldSize := mem_size t in
    if NewSize =? OldSize then mret tt
    else
      let Delta := if OldSize <? NewSize then w64 (NewSize - OldSize) else w64 (OldSize - NewSize) in
      match free_segment_end t !! OldSize with
      | Some FreeSize =>
          fhg_assert ((OldSize <? NewSize) || (Delta <=? FreeSize))
            "NewSize > OldSize || Delta <= FreeSize" ≫= λ _,
          let NewFreeSize :=
            if OldSize <? NewSize then w64 (FreeSize + Delta) else w64 (FreeSize - Delta) in
          let OffsetStart := w64 (OldSize - FreeSize) in
          delete_free_segment OffsetStart FreeSize ≫= λ _,
          insert_free_segment OffsetStart NewFreeSize
      | None =>
          fhg_assert (OldSize <? NewSize) "NewSize > OldSize" ≫= λ _,
          insert_free_segment OldSize Delta
      end ≫= λ _,
      modify (set_mem_size NewSize) ≫= λ _,
      get ≫= λ t : type,
      modify (set_mem_free (if OldSize <? NewSize then w64 (mem_free t + Delta)
                            else w64 (mem_free t - Delta))).

Definition alloc (Handle SizeUnaligned : Z) : T (Z * Z) :=
  get ≫= λ t : type,
  let Size := alignUp SizeUnaligned (align t) in
  if mem_free t <? Size then
    throw (insufficient_memory Handle SizeUnaligned Size (mem_free t))
  else if decide (is_Some (handle_to_offset_and_size t !! Handle)) then
    throw (duplicate_handle Handle)
  else
    match lower_bound Size (free_offset_by_size t) with
    | None => throw (insufficient_contiguous_memory Handle SizeUnaligned Size (mem_free t))
    | Some (_, offsets) =>
        Offset ← lift (or_throw (undefined_behaviour "*begin of an empty set") (ms_begin offsets));
        fhg_assert (0 <? Size) "Size > 0" ≫= λ _,
        fhg_assert (Size <=? mem_free t) "Size <= _mem_free" ≫= λ _,
        modify (set_mem_free (w64 (mem_free t - Size))) ≫= λ _,
        (if high_water t <? w64 (Offset + Size)
         then modify (set_high_water (w64 (Offset + Size))) else mret tt) ≫= λ _,
        let PSizeStart := free_segment_start t !! Offset in
        fhg_assert (bool_decide (is_Some PSizeStart))
          "PSizeStart != _free_segment_start.end()" ≫= λ _,
        OldFreeSize ← lift (or_throw (undefined_behaviour "PSizeStart->second") PSizeStart);
        fhg_assert (Size <=? OldFreeSize) "Size <= PSizeStart->second" ≫= λ _,
        fhg_assert (bool_decide (is_Some (free_segment_end t !! w64 (Offset + OldFreeSize))))
          "_free_segment_end.find (Offset + PSizeStart->second) != _free_segment_end.end()" ≫= λ _,
        fhg_assert (bool_decide (free_segment_end t !! w64 (Offset + OldFreeSize) = Some OldFreeSize))
          "PSizeStart->second == _free_segment_end.at (Offset + PSizeStart->second)" ≫= λ _,
        let NewFreeSize := w64 (OldFreeSize - Size) in
        delete_free_segment Offset OldFreeSize ≫= λ _,
        insert_free_segment (w64 (Offset + Size)) NewFreeSize ≫= λ _,
        modify (set_handle_to_offset_and_size (λ m, (emplace Handle (Offset, Size) m).1)) ≫= λ _,
        modify (set_offset_to_handle (λ m, (emplace Offset Handle m).1)) ≫= λ _,
        mret (Offset, Size)
    end.

Definition free (Handle : Z) : T unit :=
  get ≫= λ t : type,
  match handle_to_offset_and_size t !! Handle with
  | None => throw (unknown_handle Handle)
  | Some (Offset, Size) =>
      fhg_assert (0 <? Size) "Size > 0" ≫= λ _,
      modify (set_mem_free (w64 (mem_free t + Size))) ≫= λ _,
      modify (set_handle_to_offset_and_size (delete Handle)) ≫= λ _,
      modify (set_offset_to_handle (delete Offset)) ≫= λ _,
      let PSizeL := free_segment_end t !! Offset in
      let PSizeR := free_segment_start t !! w64 (Offset + Size) in
      (if w64 (Offset + Size) =? high_water t
       then modify (set_high_water (w64 (Offset - default 0 PSizeL))) else mret tt) ≫= λ _,
      match PSizeL, PSizeR with
      | Some SizeL, Some SizeR =>
          fhg_assert (SizeL <=? Offset) "Offset >= SizeL" ≫= λ _,
          let OffsetL := w64 (Offset - SizeL) in
          let OffsetR := w64 (Offset + Size) in
          delete_free_segment OffsetL SizeL ≫= λ _,
          delete_free_segment OffsetR SizeR ≫= λ _,
          insert_free_segment OffsetL (w64 (w64 (SizeL + Size) + SizeR))
      | Some SizeL, None =>
          fhg_assert (SizeL <=? Offset) "Offset >= SizeL" ≫= λ _,
          let OffsetL := w64 (Offset - SizeL) in
          delete_free_segment OffsetL SizeL ≫= λ _,
          insert_free_segment OffsetL (w64 (SizeL + Size))
      | None, Some SizeR =>
          let OffsetR := w64 (Offset + Size) in
          delete_free_segment OffsetR SizeR ≫= λ _,
          insert_free_segment Offset (w64 (Size + SizeR))
      | None, None => insert_free_segment Offset Size
      end
  end.

Definition memsize (t : type) : Z := mem_size t.
Definition memfree (t : type) : Z := mem_free t.
Definition highwater (t : type) : Z := high_water t.
Definition numhandle (t : type) : nat := size (handle_to_offset_and_size t).
End tmmgr.

End tmmgr.

(** ** Two arenas in one segment ([dtmmgr]) *)
Module dtmmgr.

Inductive Arena_t : Type := ARENA_UP | ARENA_DOWN.

Definition other (a : Arena_t) : Arena_t :=
  match a with ARENA_UP => ARENA_DOWN | ARENA_DOWN => ARENA_UP end.

Record type : Type := mk { up : tmmgr.type; down : tmmgr.type; mem_size : Z }.

(** [_arena[Arena]] *)
Definition arena (a : Arena_t) (t : type) : tmmgr.type :=
  match a with ARENA_UP => up t | ARENA_DOWN => down t end.
Definition set_arena (a : Arena_t) (x : tmmgr.type) (t : type) : type :=
  match a with
  | ARENA_UP => mk x (down t) (mem_size t)
  | ARENA_DOWN => mk (up t) x (mem_size t)
  end.

Abbreviation T := (M type tmmgr.error).

(** An operation of one arena *)
Definition on {A} (a : Arena_t) (m : M tmmgr.type tmmgr.error A) : T A :=
  λ t, let '(r, x) := m (arena a t) in (r, set_arena a x t).

Section dtmmgr.
Context `{UnorderedMultiset} `{AssertMode}.

Definition make (MemSize Align : Z) : type :=
  let a := tmmgr.make MemSize Align in
  mk a (tmmgr.make MemSize Align) (tmmgr.memsize a).

Definition resize_other (Arena : Arena_t) : T unit :=
  get ≫= λ t : type,
  on (other Arena) (tmmgr.resize (w64 (mem_size t - tmmgr.highwater (arena Arena t)))).

Definition alloc (Handle : Z) (Arena : Arena_t) (Size : Z) : T (Z * Z) :=
  OffsetSize ← on Arena (tmmgr.alloc Handle Size);
  resize_other Arena ≫= λ _,
  match Arena with
  | ARENA_DOWN =>
      get ≫= λ t : type,
      on ARENA_DOWN
        (tmmgr.fhg_assert (w64 (OffsetSize.1 + OffsetSize.2) <=? mem_size t)
           "_mem_size >= OffsetSize.first + OffsetSize.second") ≫= λ _,
      mret (w64 (mem_size t - w64 (OffsetSize.1 + OffsetSize.2)), OffsetSize.2)
  | ARENA_UP => mret OffsetSize
  end.

Definition free (Handle : Z) (Arena : Arena_t) : T unit :=
  on Arena (tmmgr.free Handle) ≫= λ _,
  resize_other Arena.

Definition memfree (t : type) : Z := Z.max (tmmgr.memfree (up t)) (tmmgr.memfree (down t)).
Definition numhandle (Arena : Arena_t) (t : type) : nat := tmmgr.numhandle (arena Arena t).
End dtmmgr.

End dtmmgr.

(** ** Examples *)
Example alloc_two_free_one :
  let asserting := {| assert_throws := true |} in
  let t := @tmmgr.make 100 8 in
  let '(r1, t1) := @tmmgr.alloc canonical_multiset asserting 7 10 t in
  let '(r2, t2) := @tmmgr.alloc canonical_multiset asserting 8 80 t1 in
  let '(r3, t3) := @tmmgr.free asserting 7 t2 in
  let '(r4, t4) := @tmmgr.alloc canonical_multiset asserting 9 17 t3 in
  r1 = Ret (0, 16) ∧ r2 = Ret (16, 80) ∧ r3 = Ret tt ∧
  tmmgr.mem_free t3 = 16 ∧ tmmgr.high_water t3 = 96 ∧
  r4 = Throw (tmmgr.insufficient_memory 9 17 24 16).
Proof. vm_compute. repeat split. Qed.
