(* ===== verification/MmgrSpec.v ===== *)
(** * The allocator implements layouts

    [tmmgr] keeps its tables in agreement with a layout: every operation of
    [Mmgr.v] is a step of the layout, no internal error can occur, and the
    exceptions are thrown exactly when the layout cannot serve the request. *)

From stdpp Require Import gmultiset.
From S2P Require Import Prelude MmgrLayout Mmgr.

Open Scope Z_scope.
Import layout.

Module MmgrSpec.

(** ** Alignment *)
Definition valid_align (a : Z) : Prop := ∃ k, 0 ≤ k < 64 ∧ a = 2 ^ k.

Lemma valid_align_bounds a : valid_align a → 0 < a < two64.
Proof.
  intros (k & Hk & ->). split; [by apply Z.pow_pos_nonneg; lia|].
  change two64 with (2 ^ 64). apply Z.pow_lt_mono_r; lia.
Qed.

Lemma alignDown_spec n a :
  valid_align a → 0 ≤ n < two64 → tmmgr.alignDown n a = n - n mod a.
Proof.
  intros (k & Hk & ->) Hn. unfold tmmgr.alignDown, tmmgr.wnot.
  assert (0 < 2 ^ k) by (apply Z.pow_pos_nonneg; lia).
  assert (2 ^ k < two64) by (change two64 with (2 ^ 64); apply Z.pow_lt_mono_r; lia).
  rewrite w64_small by (unfold is_w64; lia).
  replace (two64 - 1 - (2 ^ k - 1)) with (Z.shiftl (Z.ones (64 - k)) k).
  2:{ rewrite Z.shiftl_mul_pow2, Z.ones_equiv by lia. unfold Z.pred.
      rewrite Z.mul_add_distr_r, <- Z.pow_add_r by lia.
      replace (64 - k + k) with 64 by lia.
      change (2 ^ 64) with two64. lia. }
  replace (n - n mod 2 ^ k) with (Z.ldiff n (Z.ones k)).
  2:{ rewrite Z.ldiff_ones_r, Z.shiftl_mul_pow2, Z.shiftr_div_pow2 by lia.
      pose proof (Z.div_mod n (2 ^ k)). lia. }
  apply Z.bits_inj'. intros i Hi. rewrite Z.land_spec, Z.ldiff_spec.
  rewrite Z.shiftl_spec by lia.
  destruct (Z.lt_ge_cases i 64) as [Hlt|Hge].
  - f_equal. rewrite (Z.testbit_ones_nonneg k) by lia. destruct (Z.lt_ge_cases i k).
    + rewrite Z.testbit_neg_r by lia. by rewrite (proj2 (Z.ltb_lt i k)).
    + rewrite Z.testbit_ones_nonneg by lia. rewrite (proj2 (Z.ltb_ge i k)) by lia.
      rewrite (proj2 (Z.ltb_lt _ _)) by lia. done.
  - rewrite (Z.bits_above_log2 n i); [done|lia|].
    destruct (Z.eq_dec n 0) as [->|]; [simpl; lia|]. apply Z.log2_lt_pow2; [lia|].
    apply Z.lt_le_trans with two64; [lia|]. change two64 with (2 ^ 64). apply Z.pow_le_mono_r; lia.
Qed.

Lemma alignDown_bounds n a :
  valid_align a → 0 ≤ n < two64 →
  0 ≤ tmmgr.alignDown n a ≤ n ∧ n < tmmgr.alignDown n a + a ∧ (a | tmmgr.alignDown n a).
Proof.
  intros Ha Hn. rewrite alignDown_spec by done. pose proof (valid_align_bounds a Ha).
  pose proof (Z.mod_pos_bound n a). split; [|split; [lia|]].
  - split; [|lia]. pose proof (Z.mod_le n a). lia.
  - exists (n / a). pose proof (Z.div_mod n a). lia.
Qed.
Lemma alignUp_bounds n a :
  valid_align a → 0 ≤ n → n + a ≤ two64 →
  n ≤ tmmgr.alignUp n a < n + a ∧ (a | tmmgr.alignUp n a).
Proof.
  intros Ha Hn Hfit. pose proof (valid_align_bounds a Ha). unfold tmmgr.alignUp.
  assert (w64 (w64 (n + a) - 1) = n + a - 1) as ->.
  { unfold w64. rewrite Zminus_mod_idemp_l. apply Z.mod_small. lia. }
  destruct (alignDown_bounds (n + a - 1) a) as (? & ? & ?); [done|lia|]. split; [lia|done].
Qed.

(** ** The three indices of the free segments *)
Record index (F : Z → Z → Prop) (by_size : gmap Z (gmultiset Z)) (by_start by_end : gmap Z Z) : Prop := {
  index_start : ∀ o n, by_start !! o = Some n ↔ F o n;
  index_end : ∀ e n, by_end !! e = Some n ↔ F (e - n) n;
  index_size : ∀ n o, o ∈ default ∅ (by_size !! n) ↔ F o n;
  index_set : ∀ n X, by_size !! n = Some X → X ≠ ∅ ∧ ∀ o, (multiplicity o X ≤ 1)%nat;
  index_range : ∀ o n, F o n → 0 ≤ o ∧ 0 < n ∧ o + n < two64
}.

Lemma index_ext (F G : Z → Z → Prop) a b c :
  (∀ o n, F o n ↔ G o n) → index F a b c → index G a b c.
Proof.
  intros HFG [H1 H2 H3 H4 H5]. split; [|..|done|].
  - intros o n. by rewrite H1, HFG.
  - intros e n. by rewrite H2, HFG.
  - intros n o. by rewrite H3, HFG.
  - intros o n. rewrite <- HFG. apply H5.
Qed.

(** A state with other indices *)
Definition with_free (t : tmmgr.type) a b c : tmmgr.type :=
  tmmgr.mk (tmmgr.handle_to_offset_and_size t) (tmmgr.offset_to_handle t) a b c
    (tmmgr.align t) (tmmgr.mem_size t) (tmmgr.mem_free t) (tmmgr.high_water t).
Definition indexed (F : Z → Z → Prop) (t : tmmgr.type) : Prop :=
  index F (tmmgr.free_offset_by_size t) (tmmgr.free_segment_start t) (tmmgr.free_segment_end t).

(** What an operation on the free segments does: [F] becomes [G]. *)
Definition reindexes (m : M tmmgr.type tmmgr.error unit) (t : tmmgr.type) (G : Z → Z → Prop) : Prop :=
  ∃ a b c, m t = (Ret tt, with_free t a b c) ∧ index G a b c.

Lemma delete_free_segment_spec F t o n :
  indexed F t → F o n →
  reindexes (tmmgr.delete_free_segment o n) t (λ o' n', F o' n' ∧ ¬ (o' = o ∧ n' = n)).
Proof.
  intros [H1 H2 H3 H4 H5] Ho. destruct (H5 o n Ho) as (? & ? & ?).
  unfold reindexes, tmmgr.delete_free_segment. rewrite bind_get.
  assert (o ∈ default ∅ (tmmgr.free_offset_by_size t !! n)) as Hin by (by apply H3).
  destruct (tmmgr.free_offset_by_size t !! n) as [X|] eqn:HX; [|by apply gmultiset_not_elem_of_empty in Hin].
  simpl in Hin. rewrite decide_True by done. destruct (H4 n X HX) as [_ Hmul].
  rewrite !bind_modify. unfold w64. rewrite Z.mod_small by lia.
  eexists _, _, _. split; [reflexivity|]. split; cbn.
  - intros o' n'. rewrite lookup_delete_Some, H1. split.
    + intros [? ?]. split; [done|]. by intros [-> _].
    + intros [Ho' Hne]. split; [|done]. intros <-. apply Hne. split; [done|].
      apply H1 in Ho, Ho'. congruence.
  - intros e n'. rewrite lookup_delete_Some, H2. split.
    + intros [Hne ?]. split; [done|]. intros [Heq ->]. apply Hne. lia.
    + intros [Ho' Hne]. split; [|done]. intros <-. apply Hne.
      assert (n' = n) as ->.
      { apply H2 in Ho'. assert (tmmgr.free_segment_end t !! (o + n) = Some n) as Hn'.
        { apply H2. by replace (o + n - n) with o by lia. }
        congruence. }
      split; [lia|done].
  - intros n' o'. case_decide as Hemp.
    + destruct (decide (n' = n)) as [->|Hn].
      * rewrite lookup_delete_eq. simpl. split; [by intros ?%gmultiset_not_elem_of_empty|].
        intros [Ho' Hne]. apply H3 in Ho'. rewrite HX in Ho'. simpl in Ho'.
        assert (o' ∈ X ∖ {[+ o +]}) as Hd; [|rewrite Hemp in Hd; by apply gmultiset_not_elem_of_empty in Hd].
        apply elem_of_multiplicity. rewrite multiplicity_difference, multiplicity_singleton_ne by naive_solver.
        rewrite elem_of_multiplicity in Ho'. lia.
      * rewrite lookup_delete_ne by done. rewrite H3. naive_solver.
    + destruct (decide (n' = n)) as [->|Hn].
      * rewrite lookup_insert_eq. simpl. rewrite <- H3, HX. simpl.
        rewrite !elem_of_multiplicity, multiplicity_difference.
        destruct (decide (o' = o)) as [->|].
        -- rewrite multiplicity_singleton_eq. pose proof (Hmul o). split; [lia|naive_solver].
        -- rewrite multiplicity_singleton_ne by done. rewrite Nat.sub_0_r. naive_solver.
      * rewrite lookup_insert_ne by done. rewrite H3. naive_solver.
  - intros n' Y. case_decide.
    + rewrite lookup_delete_Some. intros [_ HY]. by apply (H4 n').
    + rewrite lookup_insert_Some. intros [[<- <-]|[_ HY]]; [|by apply (H4 n')].
      split; [done|]. intros o'. rewrite multiplicity_difference. pose proof (Hmul o'). lia.
  - intros o' n' [Ho' _]. by apply H5.
Qed.

Lemma insert_free_segment_spec F t o n :
  indexed F t → 0 ≤ o → 0 ≤ n → o + n < two64 →
  (0 < n → (∀ m, ¬ F o m) ∧ ∀ m, ¬ F (o + n - m) m) →
  reindexes (tmmgr.insert_free_segment o n) t (λ o' n', F o' n' ∨ 0 < n ∧ o' = o ∧ n' = n).
Proof.
  intros Hidx Ho Hn Hfit Hnew. unfold reindexes, tmmgr.insert_free_segment.
  destruct (Z.ltb_spec 0 n) as [Hpos|Hzero].
  2:{ exists (tmmgr.free_offset_by_size t), (tmmgr.free_segment_start t), (tmmgr.free_segment_end t).
      split; [by destruct t|]. eapply index_ext; [|exact Hidx]. intros; simpl. naive_solver lia. }
  destruct (Hnew Hpos) as [Hs He]. destruct Hidx as [H1 H2 H3 H4 H5].
  rewrite !bind_modify. unfold w64. rewrite Z.mod_small by lia.
  assert (tmmgr.free_segment_start t !! o = None) as Hs'.
  { apply eq_None_not_Some. intros [m Hm%H1]. by apply (Hs m). }
  assert (tmmgr.free_segment_end t !! (o + n) = None) as He'.
  { apply eq_None_not_Some. intros [m Hm%H2]. by apply (He m). }
  eexists _, _, _. split; [reflexivity|]. split; cbn; unfold emplace; rewrite ?Hs', ?He'; cbn.
  - intros o' n'. rewrite lookup_insert_Some, H1. split; [naive_solver|].
    intros [Ho'|(_ & -> & ->)]; [right|by left]. split; [|done]. intros <-. by apply (Hs n').
  - intros e n'. rewrite lookup_insert_Some, H2. split.
    + intros [[<- <-]|[_ ?]]; [right|by left]. split; [done|]. split; [lia|done].
    + intros [Ho'|(_ & ? & ->)]; [right|left; split; [lia|done]]. split; [|done].
      intros <-. by apply (He n').
  - intros n' o'. destruct (decide (n' = n)) as [->|Hne].
    + rewrite lookup_insert_eq. simpl. rewrite gmultiset_elem_of_disj_union, H3.
      rewrite gmultiset_elem_of_singleton. naive_solver.
    + rewrite lookup_insert_ne by done. rewrite H3. naive_solver.
  - intros n' Y. rewrite lookup_insert_Some. intros [[<- <-]|[_ HY]]; [|by apply (H4 n')].
    split; [multiset_solver|].
    intros o'. rewrite multiplicity_disj_union.
    assert (multiplicity o (default ∅ (tmmgr.free_offset_by_size t !! n)) = 0)%nat as Hzero.
    { apply not_elem_of_multiplicity. intros Hin%H3. by apply (Hs n). }
    destruct (decide (o' = o)) as [->|].
    + rewrite multiplicity_singleton_eq. lia.
    + rewrite multiplicity_singleton_ne by done. rewrite Nat.add_0_r.
      destruct (tmmgr.free_offset_by_size t !! n) as [X|] eqn:HX; simpl; [by apply (H4 n)|].
      rewrite multiplicity_empty. lia.
  - intros o' n' [Ho'|(_ & -> & ->)]; [by apply H5|lia].
Qed.

(** ** The tables of a layout *)
Record rep (t : tmmgr.type) (l : layout.type) : Prop := {
  rep_align : valid_align (tmmgr.align t);
  rep_wf : wf (tmmgr.align t) l;
  rep_index : indexed (λ o n, (o, Free n) ∈ segs 0 l) t;
  rep_handle : ∀ h o n, tmmgr.handle_to_offset_and_size t !! h = Some (o, n) ↔ (o, Used h n) ∈ segs 0 l;
  rep_offset : ∀ o h, tmmgr.offset_to_handle t !! o = Some h ↔ ∃ n, (o, Used h n) ∈ segs 0 l;
  rep_size : tmmgr.mem_size t = total l;
  rep_free : tmmgr.mem_free t = free_total l;
  rep_high : tmmgr.high_water t = high l
}.

Lemma foldr_min_le k ks x : x ∈ k :: ks → foldr Z.min k ks ≤ x.
Proof.
  induction ks as [|y ks IH]; simpl; [intros ->%list_elem_of_singleton; lia|].
  rewrite !elem_of_cons in *. intros [?|[?|?]]; [|lia|]; (apply Z.le_trans with (foldr Z.min k ks); [lia|]);
    apply IH; naive_solver.
Qed.
Lemma foldr_min_elem k ks : foldr Z.min k ks ∈ k :: ks.
Proof.
  induction ks as [|y ks IH]; simpl; [by left|].
  destruct (Z.min_spec y (foldr Z.min k ks)) as [[_ ->]|[_ ->]]; rewrite !elem_of_cons in *; naive_solver.
Qed.
Lemma lower_bound_spec {A} n (m : gmap Z A) :
  match tmmgr.lower_bound n m with
  | Some (k, x) => n ≤ k ∧ m !! k = Some x ∧ ∀ k', n ≤ k' → is_Some (m !! k') → k ≤ k'
  | None => ∀ k, n ≤ k → m !! k = None
  end.
Proof.
  unfold tmmgr.lower_bound.
  assert (∀ k, k ∈ filter (λ k, n ≤ k) (map_to_list m).*1 ↔ n ≤ k ∧ is_Some (m !! k)) as Helem.
  { intros k. rewrite list_elem_of_filter, list_elem_of_fmap. apply and_iff_compat_l. split.
    - intros ([k' x] & -> & Hx%elem_of_map_to_list). by exists x.
    - intros [x Hx]. exists (k, x). split; [done|]. by apply elem_of_map_to_list. }
  destruct (filter (λ k, n ≤ k) (map_to_list m).*1) as [|k ks] eqn:Hf.
  - intros k Hk. apply eq_None_not_Some. intros Hs. assert (k ∈ []) as Hin by (by apply Helem).
    by apply elem_of_nil in Hin.
  - destruct (proj1 (Helem _) (foldr_min_elem k ks)) as [Hle [x Hx]]. rewrite Hx. simpl.
    split; [done|]. split; [done|]. intros k' Hk' Hs. apply foldr_min_le, Helem. done.
Qed.

(** Free segments by size are the free segments of the layout. *)
Lemma elem_of_free t l k : rep t l → Free k ∈ l ↔ is_Some (tmmgr.free_offset_by_size t !! k).
Proof.
  intros [_ _ [_ _ H3 H4 _] _ _ _ _ _]. split.
  - intros (l1 & l2 & ->)%list_elem_of_split.
    assert ((0 + total l1, Free k) ∈ segs 0 (l1 ++ Free k :: l2)) as Hin by apply segs_middle.
    apply H3 in Hin. destruct (_ !! k); [done|]. by apply gmultiset_not_elem_of_empty in Hin.
  - intros [X HX]. destruct (H4 k X HX) as [Hne _].
    apply gmultiset_choose in Hne as [o Ho]. assert (o ∈ default ∅ (tmmgr.free_offset_by_size t !! k)) as Hin
      by (by rewrite HX).
    apply H3 in Hin. apply segs_split in Hin as (l1 & l2 & -> & _).
    apply elem_of_app. right. by left.
Qed.

(** *** Construction *)
Lemma make_spec n a :
  valid_align a → 0 ≤ n < two64 → rep (tmmgr.make n a) (free_seg (tmmgr.alignDown n a)).
Proof.
  intros Ha Hn. destruct (alignDown_bounds n a Ha Hn) as ([Hnn Hle] & _ & Hdiv).
  unfold tmmgr.make. set (d := tmmgr.alignDown n a) in *.
  set (t0 := tmmgr.mk ∅ ∅ ∅ ∅ ∅ a d d 0).
  assert (indexed (λ _ _, False) t0) as Hidx.
  { split; cbn; try done; intros; rewrite ?lookup_empty in *; simpl; try naive_solver.
    by rewrite gmultiset_elem_of_empty. }
  destruct (insert_free_segment_spec _ t0 0 d Hidx) as (x & y & z & -> & Hidx'); [lia..|naive_solver|].
  split; cbn; [done|..].
  - split.
    + apply positive_free_seg.
    + unfold free_seg. destruct (0 <? d); repeat constructor. done.
    + apply separate_free_seg.
    + rewrite handles_free_seg. constructor.
    + rewrite total_free_seg by done. lia.
  - eapply index_ext; [|exact Hidx']. intros o m. cbn. unfold free_seg.
    destruct (Z.ltb_spec 0 d); simpl.
    + rewrite list_elem_of_singleton. naive_solver.
    + rewrite elem_of_nil. naive_solver lia.
  - intros h o m. rewrite lookup_empty. unfold free_seg. destruct (0 <? d); simpl.
    + rewrite list_elem_of_singleton. naive_solver.
    + rewrite elem_of_nil. naive_solver.
  - intros o h. rewrite lookup_empty. unfold free_seg. split; [done|].
    destruct (0 <? d); simpl; intros [m Hm]; [by apply list_elem_of_singleton in Hm|by apply elem_of_nil in Hm].
  - by rewrite total_free_seg.
  - by rewrite free_total_free_seg.
  - unfold free_seg. destruct (0 <? d); [|done]. symmetry. apply (high_snoc_free [] d).
Qed.

(** *** Allocation on layouts *)
Lemma alloc_step_wf a h n o l l' :
  wf a l → 0 < n → (a | n) → h ∉ handles l → alloc_step h n o l l' → wf a l'.
Proof.
  intros Hwf Hn Hdiv Hh (l1 & m & l2 & -> & -> & Hle & _ & ->).
  assert ((a | m)) as Hm.
  { destruct Hwf as [_ Hal _ _ _]. apply Forall_app in Hal as [_ Hal]. by apply Forall_cons in Hal as [? _]. }
  change (Used h n :: free_seg (m - n) ++ l2) with ((Used h n :: free_seg (m - n)) ++ l2).
  apply (wf_replace a l1 [Free m]); [done|..].
  - apply positive_cons. split; [done|apply positive_free_seg].
  - constructor; [done|]. unfold free_seg. destruct (0 <? m - n); [|constructor].
    constructor; [|constructor]. by apply Z.divide_sub_r.
  - destruct Hwf as [_ _ Hsep _ _]. apply separate_app in Hsep as (Hs1 & [Hs2 Hs3]%separate_cons & _).
    rewrite separate_app. split; [done|]. split; [|by intros [_ ?]].
    rewrite <- app_comm_cons, separate_cons. split; [by intros [? _]|].
    rewrite separate_app. split; [apply separate_free_seg|]. split; [done|].
    intros [_ Hst]. apply Hs2. by split.
  - destruct Hwf as [_ _ _ Hnd _]. rewrite !handles_app in *. simpl in *. rewrite handles_free_seg. simpl.
    rewrite elem_of_app in Hh.
    apply NoDup_app in Hnd as (Hnd1 & Hdis & Hnd2). apply NoDup_app. split; [done|]. split.
    + intros x Hx [->|Hx']%elem_of_cons; [tauto|]. by apply (Hdis x).
    + constructor; [tauto|done].
  - destruct Hwf as [_ _ _ _ Htot]. rewrite !total_app, total_cons in *. simpl in *.
    rewrite total_free_seg by lia. lia.
Qed.

(** Which segments there are after an allocation *)
Lemma alloc_step_segs h n l1 m l2 e :
  positive (l1 ++ Free m :: l2) → n ≤ m →
  e ∈ segs 0 (l1 ++ Used h n :: free_seg (m - n) ++ l2) ↔
  (e ∈ segs 0 (l1 ++ Free m :: l2) ∧ e ≠ (total l1, Free m)) ∨
  e = (total l1, Used h n) ∨ 0 < m - n ∧ e = (total l1 + n, Free (m - n)).
Proof.
  intros Hpos Hle.
  change (Used h n :: free_seg (m - n) ++ l2) with ((Used h n :: free_seg (m - n)) ++ l2).
  rewrite (replace_segs l1 [Free m]); [|done|].
  2:{ left. simpl. rewrite total_free_seg by lia. lia. }
  unfold free_seg. destruct (Z.ltb_spec 0 (m - n)); simpl; rewrite !elem_of_cons, !elem_of_nil;
    intuition lia.
Qed.

Section operations.
Context `{UnorderedMultiset} `{AssertMode}.

Lemma bind_assert {B} (c : bool) text (k : unit → M tmmgr.type tmmgr.error B) t :
  c = true → (tmmgr.fhg_assert c text ≫= k) t = k tt t.
Proof. intros ->. unfold tmmgr.fhg_assert. by rewrite andb_false_r. Qed.
Lemma bind_if {B} (b : bool) f (k : unit → M tmmgr.type tmmgr.error B) t :
  ((if b then modify f else mret tt) ≫= k) t = k tt (if b then f t else t).
Proof. by destruct b. Qed.
Lemma bind_reindexes {B} m t G (k : unit → M tmmgr.type tmmgr.error B) :
  reindexes m t G → ∃ a b c, (m ≫= k) t = k tt (with_free t a b c) ∧ index G a b c.
Proof.
  intros (a & b & c & Hm & Hidx). exists a, b, c. split; [|done]. unfold mbind, M_bind. by rewrite Hm.
Qed.

(** The end of an allocation, once the segment is found *)
Lemma alloc_run t l h n o m X l1 l2 size :
  rep t l → 0 < n → n ≤ m → l = l1 ++ Free m :: l2 → o = total l1 →
  n = tmmgr.alignUp size (tmmgr.align t) → h ∉ handles l → n ≤ tmmgr.mem_free t →
  tmmgr.lower_bound n (tmmgr.free_offset_by_size t) = Some (m, X) → ms_begin X = Some o →
  ∃ a b c,
    tmmgr.alloc h size t = (Ret (o, n),
      tmmgr.mk (<[h := (o, n)]> (tmmgr.handle_to_offset_and_size t)) (<[o := h]> (tmmgr.offset_to_handle t))
        a b c (tmmgr.align t) (tmmgr.mem_size t) (tmmgr.mem_free t - n)
        (Z.max (tmmgr.high_water t) (o + n))) ∧
    index (λ x k, ((x, Free k) ∈ segs 0 l ∧ ¬ (x = o ∧ k = m)) ∨ 0 < m - n ∧ x = o + n ∧ k = m - n) a b c.
Proof.
  intros Hrep Hn Hle Hl Ho Hsize Hh Hfree Hlb Hbegin. destruct Hrep as [_ Hwf Hidx Hhandle Hoffset Hms Hmf Hhw].
  assert ((o, Free m) ∈ segs 0 l) as Hin by (subst; apply segs_middle_0).
  pose proof (wf_positive _ _ Hwf) as Hpos. pose proof (segs_bounds _ _ _ _ Hpos Hin) as (? & ? & ?).
  pose proof (wf_total _ _ Hwf). simpl in *.
  assert (tmmgr.free_segment_start t !! o = Some m) as Hstart by (by apply (index_start _ _ _ _ Hidx)).
  assert (tmmgr.free_segment_end t !! (o + m) = Some m) as Hend.
  { apply (index_end _ _ _ _ Hidx). by replace (o + m - m) with o by lia. }
  assert (tmmgr.handle_to_offset_and_size t !! h = None) as Hnone.
  { apply eq_None_not_Some. intros [[o' n'] Hx%Hhandle]. apply Hh, (elem_of_handles _ _ 0). eauto. }
  assert (tmmgr.offset_to_handle t !! o = None) as Hnone'.
  { apply eq_None_not_Some. intros [h' [n' Hx]%Hoffset].
    by pose proof (segs_start_inj _ _ _ _ _ Hpos Hin Hx). }
  pose proof (free_total_bounds _ Hpos).
  unfold tmmgr.alloc. rewrite bind_get, <- Hsize, (proj2 (Z.ltb_ge _ _)) by lia.
  rewrite decide_False by (by rewrite Hnone; intros []). rewrite Hlb, bind_lift, Hbegin. simpl.
  rewrite !bind_assert by (apply Z.ltb_lt || apply Z.leb_le; lia).
  rewrite bind_modify, bind_if. unfold w64. rewrite (Z.mod_small (o + n)) by lia.
  rewrite (Z.mod_small (tmmgr.mem_free t - n)) by lia.
  rewrite Hstart, bind_assert by (by apply bool_decide_eq_true). rewrite bind_lift. simpl.
  rewrite (Z.mod_small (o + m)), Hend by lia.
  rewrite !bind_assert by (apply Z.leb_le || apply bool_decide_eq_true; done || lia).
  match goal with |- context [(tmmgr.delete_free_segment _ _ ≫= _) ?s] => set (t1 := s) end.
  assert (indexed (λ x k, (x, Free k) ∈ segs 0 l) t1) as Hidx1 by (subst t1; by destruct (_ <? _)).
  destruct (bind_reindexes _ t1 _ (λ _, tmmgr.insert_free_segment (o + n) ((m - n) mod two64) ≫= λ _,
    modify (tmmgr.set_handle_to_offset_and_size (λ m, (emplace h (o, n) m).1)) ≫= λ _,
    modify (tmmgr.set_offset_to_handle (λ m, (emplace o h m).1)) ≫= λ _, mret (o, n))
    (delete_free_segment_spec _ _ _ _ Hidx1 Hin)) as (a & b & c & -> & Hidx2).
  rewrite (Z.mod_small (m - n)) by lia.
  assert (indexed _ (with_free t1 a b c)) as Hidx3 by exact Hidx2.
  assert (0 < m - n → (∀ k, ¬ ((o + n, Free k) ∈ segs 0 l ∧ ¬ (o + n = o ∧ k = m))) ∧
            ∀ k, ¬ ((o + n + (m - n) - k, Free k) ∈ segs 0 l ∧ ¬ (o + n + (m - n) - k = o ∧ k = m))) as Hnew.
  { intros Hlt. split; intros k [Hk Hne].
    - pose proof (segs_bounds _ _ _ _ Hpos Hk).
      destruct (segs_disjoint _ _ _ _ _ _ Hpos Hin Hk) as [[? _]|?]; simpl in *; lia.
    - destruct (segs_end_inj _ _ _ _ _ _ Hpos Hin Hk) as [? [= ?]]; simpl; [lia|]. apply Hne. lia. }
  destruct (bind_reindexes _ (with_free t1 a b c) _ (λ _,
    modify (tmmgr.set_handle_to_offset_and_size (λ m, (emplace h (o, n) m).1)) ≫= λ _,
    modify (tmmgr.set_offset_to_handle (λ m, (emplace o h m).1)) ≫= λ _, mret (o, n))
    (insert_free_segment_spec _ _ (o + n) (m - n) Hidx3 ltac:(lia) ltac:(lia) ltac:(lia) Hnew))
    as (a' & b' & c' & -> & Hidx4).
  exists a', b', c'. split; [|exact Hidx4]. rewrite !bind_modify. unfold mret, M_ret. f_equal.
  unfold tmmgr.set_offset_to_handle, tmmgr.set_handle_to_offset_and_size, with_free. simpl.
  unfold emplace. subst t1. destruct (Z.ltb_spec (tmmgr.high_water t) (o + n)); simpl;
    rewrite Hnone, Hnone'; simpl; f_equal; lia.
Qed.

(** *** Allocation *)
Definition alloc_result (t : tmmgr.type) (l : layout.type) (h size : Z)
    (r : outcome tmmgr.error (Z * Z) * tmmgr.type) : Prop :=
  let n := tmmgr.alignUp size (tmmgr.align t) in
  match r with
  | (Ret (o, n'), t') =>
      n' = n ∧ (h ∉ handles l) ∧ tmmgr.align t' = tmmgr.align t ∧ ∃ l', alloc_step h n o l l' ∧ rep t' l'
  | (Throw e, t') => t' = t ∧
      ((e = tmmgr.insufficient_memory h size n (free_total l) ∧ free_total l < n) ∨
       (e = tmmgr.duplicate_handle h ∧ h ∈ handles l) ∨
       (e = tmmgr.insufficient_contiguous_memory h size n (free_total l) ∧ ∀ k, Free k ∈ l → k < n))
  end.

Lemma alloc_spec t l h size :
  rep t l → 0 < size → size + tmmgr.align t ≤ two64 → alloc_result t l h size (tmmgr.alloc h size t).
Proof.
  intros Hrep Hpos Hfit. pose proof Hrep as [Ha Hwf Hidx Hhandle Hoffset Hms Hmf Hhw].
  destruct (alignUp_bounds size _ Ha) as [Hn Hdiv]; [lia..|].
  assert (is_Some (tmmgr.handle_to_offset_and_size t !! h) ↔ h ∈ handles l) as Hdup.
  { rewrite (elem_of_handles h l 0). split.
    - intros [[o n] Ho%Hhandle]. eauto.
    - intros (o & n & Ho%Hhandle). eauto. }
  destruct (decide (tmmgr.mem_free t < tmmgr.alignUp size (tmmgr.align t))) as [Hlt|Hge].
  { unfold tmmgr.alloc. rewrite bind_get, (proj2 (Z.ltb_lt _ _)) by done.
    split; [done|]. left. rewrite <- Hmf. done. }
  destruct (decide (h ∈ handles l)) as [Hin|Hout].
  { unfold tmmgr.alloc. rewrite bind_get, (proj2 (Z.ltb_ge _ _)), decide_True by (lia || by apply Hdup).
    split; [done|]. auto. }
  pose proof (lower_bound_spec (tmmgr.alignUp size (tmmgr.align t)) (tmmgr.free_offset_by_size t)) as Hlb.
  destruct (tmmgr.lower_bound _ _) as [[m X]|] eqn:Hb.
  2:{ unfold tmmgr.alloc.
      rewrite bind_get, (proj2 (Z.ltb_ge _ _)), decide_False, Hb by (lia || by rewrite Hdup).
      split; [done|]. right; right. split; [by rewrite <- Hmf|]. intros k Hk%(elem_of_free _ _ _ Hrep).
      destruct (Z.lt_ge_cases k (tmmgr.alignUp size (tmmgr.align t))) as [|Hle]; [done|].
      apply Hlb in Hle. rewrite Hle in Hk. by destruct Hk. }
  destruct Hlb as (Hle & HX & Hmin). destruct (ms_begin X) as [o|] eqn:Hbegin.
  2:{ apply ms_begin_end in Hbegin. by destruct (index_set _ _ _ _ Hidx _ _ HX). }
  assert ((o, Free m) ∈ segs 0 l) as Hin.
  { apply (index_size _ _ _ _ Hidx). rewrite HX. by apply ms_begin_elem. }
  apply segs_split in Hin as (l1 & l2 & Hl & Ho). rewrite Z.add_0_l in Ho.
  set (n := tmmgr.alignUp size (tmmgr.align t)) in *.
  destruct (alloc_run t l h n o m X l1 l2 size) as (a & b & c & -> & Hidx'); try done; [lia|lia|].
  assert (alloc_step h n o l (l1 ++ Used h n :: free_seg (m - n) ++ l2)) as Hstep.
  { exists l1, m, l2. split; [done|]. split; [done|]. split; [done|]. split; [|done].
    intros k Hk Hnk. apply Hmin; [done|]. by apply (elem_of_free _ _ _ Hrep). }
  split; [done|]. split; [done|]. split; [done|].
  exists (l1 ++ Used h n :: free_seg (m - n) ++ l2). split; [done|].
  pose proof (wf_positive _ _ Hwf) as Hp. rewrite Hl in Hp.
  split; cbn [tmmgr.align tmmgr.handle_to_offset_and_size tmmgr.offset_to_handle tmmgr.mem_size
              tmmgr.mem_free tmmgr.high_water]; [done|..].
  - apply (alloc_step_wf _ h n o l); [done|lia|done..].
  - unfold indexed. simpl. eapply index_ext; [|exact Hidx']. intros x k. cbn.
    rewrite alloc_step_segs by done. rewrite Hl, <- Ho. naive_solver.
  - intros h' x k. rewrite lookup_insert_Some, Hhandle, alloc_step_segs, Hl, <- Ho by done.
    assert ((x, Used h' k) ∈ segs 0 l → h' ≠ h) as Hne.
    { intros Hx ->. apply Hout, (elem_of_handles _ _ 0). eauto. }
    rewrite Hl in Hne. naive_solver.
  - intros x h'. rewrite lookup_insert_Some, Hoffset. setoid_rewrite (alloc_step_segs h n l1 m l2); [|done..].
    rewrite Hl, <- Ho.
    assert (∀ k, (x, Used h' k) ∈ segs 0 l → x ≠ o) as Hne.
    { intros k Hx ->. assert ((o, Free m) ∈ segs 0 l) as Hf by (rewrite Hl, Ho; apply segs_middle_0).
      by pose proof (segs_start_inj _ _ _ _ _ (wf_positive _ _ Hwf) Hf Hx). }
    rewrite Hl in Hne. naive_solver.
  - rewrite Hms, Hl, !total_app, !total_cons, total_app, total_free_seg by lia. simpl. lia.
  - rewrite Hmf, Hl, !free_total_app, !free_total_cons, free_total_app, free_total_free_seg by lia. simpl. lia.
  - rewrite Hhw. symmetry. apply (alloc_step_high (tmmgr.align t) h); [done|lia|done].
Qed.

(** *** Release *)
Lemma reindexes_bind m m' t F G :
  reindexes m t F → (∀ a b c, index F a b c → reindexes m' (with_free t a b c) G) →
  reindexes (m ≫= λ _, m') t G.
Proof.
  intros (a & b & c & Hm & Hidx) Hm'. destruct (Hm' a b c Hidx) as (a' & b' & c' & Heq & Hidx').
  exists a', b', c'. split; [|done]. unfold mbind, M_bind. by rewrite Hm, Heq.
Qed.
Lemma reindexes_ext m t F G : (∀ o n, F o n ↔ G o n) → reindexes m t F → reindexes m t G.
Proof. intros HFG (a & b & c & ? & ?). exists a, b, c. split; [done|]. by eapply index_ext. Qed.
Lemma reindexes_ret F t : indexed F t → reindexes (mret tt) t F.
Proof.
  intros Hidx. exists (tmmgr.free_offset_by_size t), (tmmgr.free_segment_start t), (tmmgr.free_segment_end t).
  split; [by destruct t|done].
Qed.

(** A neighbour that is free, given by its size, or 0 *)
Definition delete_if (o n : Z) : M tmmgr.type tmmgr.error unit :=
  if 0 <? n then tmmgr.delete_free_segment o n else mret tt.
Lemma delete_if_spec F t o n :
  indexed F t → (0 < n → F o n) →
  reindexes (delete_if o n) t (λ o' n', F o' n' ∧ ¬ (0 < n ∧ o' = o ∧ n' = n)).
Proof.
  intros Hidx Ho. unfold delete_if. destruct (Z.ltb_spec 0 n).
  - eapply reindexes_ext; [|apply (delete_free_segment_spec F); auto]. intros; simpl. tauto.
  - eapply reindexes_ext; [|by apply reindexes_ret]. intros; simpl. intuition lia.
Qed.

(** The segment of [h] with its free neighbours *)
Definition neighbourhood (h a n b : Z) : layout.type := free_seg a ++ Used h n :: free_seg b.

Lemma elem_of_neighbourhood o h a n b e :
  0 ≤ a → 0 ≤ b →
  e ∈ segs o (neighbourhood h a n b) ↔
  (0 < a ∧ e = (o, Free a)) ∨ e = (o + a, Used h n) ∨ (0 < b ∧ e = (o + a + n, Free b)).
Proof.
  intros Ha Hb. unfold neighbourhood, free_seg.
  destruct (Z.ltb_spec 0 a), (Z.ltb_spec 0 b); simpl; rewrite !elem_of_cons, !elem_of_nil;
    try replace a with 0 by lia; rewrite ?Z.add_0_r; intuition lia.
Qed.

Lemma join_spec l k1 h a n b k2 t :
  positive l → total l < two64 → 0 ≤ a → 0 ≤ b → 0 < n →
  l = k1 ++ neighbourhood h a n b ++ k2 → indexed (λ o k, (o, Free k) ∈ segs 0 l) t →
  reindexes (delete_if (total k1) a ≫= λ _, delete_if (total k1 + a + n) b ≫= λ _,
             tmmgr.insert_free_segment (total k1) (a + n + b)) t
    (λ o k, (o, Free k) ∈ segs 0 (k1 ++ [Free (a + n + b)] ++ k2)).
Proof.
  intros Hpos Hfit Ha Hb Hn Hl Hidx.
  assert (∀ e, e ∈ segs (total k1) (neighbourhood h a n b) → e ∈ segs 0 l) as Hmid.
  { intros e He. rewrite Hl. apply elem_of_segs_middle. auto. }
  assert (total l = total k1 + (a + n + b) + total k2) as Htot.
  { rewrite Hl, !total_app. unfold neighbourhood. rewrite total_app, total_cons, !total_free_seg by done.
    simpl. lia. }
  pose proof Hpos as Hpos'. rewrite Hl in Hpos'. pose proof Hpos' as [Hk1 Hk2]%positive_app.
  apply positive_app in Hk2 as [_ Hk2]. pose proof (total_nonneg _ Hk1). pose proof (total_nonneg _ Hk2).
  eapply reindexes_bind; [apply delete_if_spec; [exact Hidx|]|].
  { intros Ha'. apply Hmid. rewrite elem_of_neighbourhood by done. auto. }
  intros x y z Hidx1. eapply reindexes_bind; [apply delete_if_spec; [exact Hidx1|]|].
  { intros Hb'. split; [|intros (_ & ? & _); lia].
    apply Hmid. rewrite elem_of_neighbourhood by done. auto. }
  intros x' y' z' Hidx2. eapply reindexes_ext; [|apply insert_free_segment_spec; [exact Hidx2|lia..|]].
  - intros o k. cbv beta. rewrite (replace_segs k1 (neighbourhood h a n b)); [|done|].
    2:{ left. unfold neighbourhood. rewrite total_app, total_cons, !total_free_seg by done. simpl. lia. }
    rewrite <- Hl, elem_of_neighbourhood by done. simpl. rewrite list_elem_of_singleton.
    split.
    { intros [[[Ho Hn1] Hn2]|(_ & -> & ->)]; [left|by right]. split; [done|].
      intros [[? [= -> ->]]|[[= ]|[? [= -> ->]]]]; [by apply Hn1|by apply Hn2]. }
    intros [[Ho Hne]|[= -> ->]]; [left|right; lia].
    split; [split; [done|]|]; intros (? & -> & ->); apply Hne; auto.
  - intros _. split; intros k [[Hk Hne1] Hne2].
    + (* the start lies in the neighbourhood *)
      rewrite Hl in Hk. apply elem_of_segs_middle in Hk as [Hk|[Hk|Hk]].
      * apply segs_bounds in Hk; [lia|done].
      * apply elem_of_neighbourhood in Hk as [[? [= ->]]|[[= ]|[? [= ? ->]]]]; [|lia|lia|done..].
        by apply Hne1.
      * apply segs_bounds in Hk; [|done]. unfold neighbourhood in Hk.
        rewrite total_app, total_cons, !total_free_seg in Hk by done. simpl in Hk. lia.
    + rewrite Hl in Hk. apply elem_of_segs_middle in Hk as [Hk|[Hk|Hk]].
      * apply segs_bounds in Hk; [|done]. simpl in Hk. lia.
      * apply elem_of_neighbourhood in Hk as [[? [= ? ->]]|[[= ]|[? [= ? ->]]]]; [lia| |done..].
        apply Hne2. lia.
      * apply segs_bounds in Hk; [|done]. unfold neighbourhood in Hk.
        rewrite total_app, total_cons, !total_free_seg in Hk by done. simpl in Hk. lia.
Qed.

Lemma neighbourhood_split l1 h n l2 k1 a b k2 :
  positive (l1 ++ Used h n :: l2) → separate (l1 ++ Used h n :: l2) →
  strip_right l1 = (k1, a) → strip_left l2 = (b, k2) →
  l1 ++ Used h n :: l2 = k1 ++ neighbourhood h a n b ++ k2 ∧
  0 ≤ a ∧ 0 ≤ b ∧ total l1 = total k1 + a ∧ ¬ ends_free k1 ∧ ¬ starts_free k2.
Proof.
  intros Hpos Hsep Hr Hl. unfold neighbourhood.
  apply positive_app in Hpos as [Hp1 Hp2]. apply positive_cons in Hp2 as [_ Hp2].
  apply separate_app in Hsep as (Hs1 & [_ Hs2]%separate_cons & _).
  assert (l1 = k1 ++ free_seg a ∧ 0 ≤ a ∧ ¬ ends_free k1) as (-> & Ha & Hk1).
  { destruct (ends_free_cases l1) as [(k & m & ->)|Hn].
    - rewrite strip_right_free in Hr. injection Hr as -> ->.
      apply positive_app in Hp1 as [_ Hm]. apply positive_cons in Hm as [Hm _]. simpl in Hm.
      unfold free_seg. rewrite (proj2 (Z.ltb_lt _ _)) by done. split; [done|]. split; [lia|].
      apply separate_app in Hs1 as (_ & _ & Hs1). intros ?. by apply Hs1.
    - rewrite strip_right_not_free in Hr by done. injection Hr as -> <-. by rewrite app_nil_r. }
  assert (l2 = free_seg b ++ k2 ∧ 0 ≤ b ∧ ¬ starts_free k2) as (-> & Hb & Hk2).
  { destruct (starts_free_cases l2) as [(k & m & ->)|Hn].
    - simpl in Hl. injection Hl as -> ->. apply positive_cons in Hp2 as [Hm _]. simpl in Hm.
      unfold free_seg. rewrite (proj2 (Z.ltb_lt _ _)) by done. split; [done|]. split; [lia|].
      apply separate_cons in Hs2 as [Hs2 _]. intros ?. by apply Hs2.
    - rewrite strip_left_not_free in Hl by done. injection Hl as <- <-. done. }
  rewrite total_app, total_free_seg, <- !app_assoc by done. done.
Qed.

(** What [free] finds next to the segment *)
Lemma neighbours t l k1 h a n b k2 :
  rep t l → l = k1 ++ neighbourhood h a n b ++ k2 → 0 ≤ a → 0 ≤ b →
  ¬ ends_free k1 → ¬ starts_free k2 →
  tmmgr.free_segment_end t !! (total k1 + a) = (if 0 <? a then Some a else None) ∧
  tmmgr.free_segment_start t !! (total k1 + a + n) = (if 0 <? b then Some b else None).
Proof.
  intros [_ Hwf Hidx _ _ _ _ _] Hl Ha Hb Hk1 Hk2. pose proof (wf_positive _ _ Hwf) as Hpos.
  assert (∀ e, e ∈ segs (total k1) (neighbourhood h a n b) → e ∈ segs 0 l) as Hmid.
  { intros e He. rewrite Hl. apply elem_of_segs_middle. auto. }
  assert ((total k1 + a, Used h n) ∈ segs 0 l) as Hused.
  { apply Hmid. rewrite elem_of_neighbourhood by done. auto. }
  pose proof (segs_bounds _ _ _ _ Hpos Hused) as (_ & Hn & _). simpl in Hn.
  pose proof Hpos as Hpos'. rewrite Hl in Hpos'. apply positive_app in Hpos' as [Hp1 Hp2].
  apply positive_app in Hp2 as [_ Hp2]. split.
  - destruct (Z.ltb_spec 0 a).
    + apply (index_end _ _ _ _ Hidx). apply Hmid. rewrite elem_of_neighbourhood by done.
      left. split; [done|]. f_equal. lia.
    + apply eq_None_not_Some. intros [x Hx%(index_end _ _ _ _ Hidx)]. apply Hk1.
      pose proof (segs_bounds _ _ _ _ Hpos Hx) as (_ & Hx0 & _). simpl in Hx0.
      rewrite Hl in Hx. apply elem_of_segs_middle in Hx as [Hx|[Hx|Hx]].
      * apply segs_last in Hx as [k ->]; [by apply ends_free_snoc|done|simpl; lia].
      * apply elem_of_neighbourhood in Hx as [[? ?]|[[= ]|[? [= ? ?]]]]; [lia|lia|done..].
      * apply segs_bounds in Hx as (Hx & _); [|done]. unfold neighbourhood in Hx.
        rewrite total_app, total_cons, !total_free_seg in Hx by done. simpl in Hx. lia.
  - destruct (Z.ltb_spec 0 b).
    + apply (index_start _ _ _ _ Hidx). apply Hmid. rewrite elem_of_neighbourhood by done. auto.
    + apply eq_None_not_Some. intros [x Hx%(index_start _ _ _ _ Hidx)]. apply Hk2.
      rewrite Hl in Hx. apply elem_of_segs_middle in Hx as [Hx|[Hx|Hx]].
      * apply segs_bounds in Hx; [|done]. simpl in Hx. lia.
      * apply elem_of_neighbourhood in Hx as [[? [= ? ?]]|[[= ]|[? _]]]; [lia|lia|done..].
      * unfold neighbourhood in Hx. rewrite total_app, total_cons, !total_free_seg in Hx by done.
        simpl in Hx. destruct k2 as [|s k2]; [by apply elem_of_nil in Hx|].
        apply elem_of_cons in Hx as [[= _ <-]|Hx]; [done|].
        apply positive_cons in Hp2 as [? Hp2]. apply segs_bounds in Hx; [|done]. lia.
Qed.

Lemma free_high k1 h a n b k2 :
  let l := k1 ++ neighbourhood h a n b ++ k2 in
  positive l → 0 ≤ a → 0 ≤ b → ¬ starts_free k2 →
  high (k1 ++ [Free (a + n + b)] ++ k2) =
  if total k1 + a + n =? high l then total k1 else high l.
Proof.
  intros l Hpos Ha Hb Hk2. subst l. destruct k2 as [|s k2].
  - rewrite !app_nil_r, high_snoc_free. unfold neighbourhood.
    assert (high (k1 ++ free_seg a ++ Used h n :: free_seg b) = total k1 + a + n) as ->; [|by rewrite Z.eqb_refl].
    rewrite app_assoc. change (Used h n :: free_seg b) with ([Used h n] ++ free_seg b). rewrite app_assoc.
    unfold free_seg at 2. destruct (Z.ltb_spec 0 b).
    + rewrite high_snoc_free, !total_app, total_free_seg by done. simpl. lia.
    + rewrite app_nil_r, high_not_free by (by rewrite ends_free_snoc).
      rewrite !total_app, total_free_seg by done. simpl. lia.
  - assert (is_free s = false) as Hs by (destruct s; [by destruct Hk2|done]).
    apply positive_app in Hpos as [_ Hpos]. apply positive_app in Hpos as [_ Hpos].
    pose proof (high_app_used [] s k2 Hpos Hs) as Hhigh. apply positive_cons in Hpos as [Hs' _].
    rewrite !app_assoc, !high_app, !total_app by done. unfold neighbourhood.
    rewrite total_app, total_cons, !total_free_seg by done. simpl in *. rewrite ?total_free_seg by done.
    rewrite (proj2 (Z.eqb_neq _ _)) by lia. lia.
Qed.

Lemma free_wf al k1 h a n b k2 :
  wf al (k1 ++ neighbourhood h a n b ++ k2) → 0 ≤ a → 0 ≤ b → 0 < n →
  ¬ ends_free k1 → ¬ starts_free k2 → wf al (k1 ++ [Free (a + n + b)] ++ k2).
Proof.
  intros Hwf Ha Hb Hn Hk1 Hk2. apply (wf_replace al k1 (neighbourhood h a n b)); [done|..].
  - repeat constructor. simpl. lia.
  - destruct Hwf as [_ Hal _ _ _]. apply Forall_app in Hal as [_ Hal]. apply Forall_app in Hal as [Hal _].
    unfold neighbourhood in Hal. apply Forall_app in Hal as [H1 [H2 H3]%Forall_cons].
    assert (∀ x, 0 ≤ x → Forall (λ s, (al | seg_size s)) (free_seg x) → (al | x)) as Hseg.
    { intros x Hx. unfold free_seg. destruct (Z.ltb_spec 0 x); [by intros [? _]%Forall_cons|].
      intros _. replace x with 0 by lia. apply Z.divide_0_r. }
    constructor; [|constructor]. simpl. apply Z.divide_add_r; [apply Z.divide_add_r|]; auto.
  - destruct Hwf as [_ _ Hsep _ _]. apply separate_app in Hsep as (Hs1 & Hsep & _).
    apply separate_app in Hsep as (_ & Hs2 & _). apply separate_app. split; [done|].
    split; [|by intros [? _]]. apply separate_app. split; [by split; [intros [_ []]|]|].
    split; [done|by intros [_ ?]].
  - destruct Hwf as [_ _ _ Hnd _]. rewrite !handles_app in *. simpl in *.
    apply NoDup_app in Hnd as (Hnd1 & Hd & Hnd). apply NoDup_app in Hnd as (_ & Hd' & Hnd2).
    apply NoDup_app. split; [done|]. split; [|done]. intros x Hx Hx'. apply (Hd x Hx).
    apply elem_of_app. by right.
  - destruct Hwf as [_ _ _ _ Htot]. rewrite !total_app in *. unfold neighbourhood in Htot.
    rewrite total_app, total_cons, !total_free_seg in Htot by done. simpl in *. lia.
Qed.

(** What [free] does with the tables, once the segment is found *)
Lemma free_run t l k1 h a n b k2 :
  rep t l → l = k1 ++ neighbourhood h a n b ++ k2 → 0 ≤ a → 0 ≤ b →
  ¬ ends_free k1 → ¬ starts_free k2 →
  ∃ x y z,
    tmmgr.free h t = (Ret tt,
      tmmgr.mk (delete h (tmmgr.handle_to_offset_and_size t))
        (delete (total k1 + a) (tmmgr.offset_to_handle t)) x y z (tmmgr.align t) (tmmgr.mem_size t)
        (tmmgr.mem_free t + n)
        (if total k1 + a + n =? tmmgr.high_water t then total k1 else tmmgr.high_water t)) ∧
    index (λ o k, (o, Free k) ∈ segs 0 (k1 ++ [Free (a + n + b)] ++ k2)) x y z.
Proof.
  intros Hrep Hl Ha Hb Hk1 Hk2. destruct (neighbours _ _ _ _ _ _ _ _ Hrep Hl Ha Hb Hk1 Hk2) as [HL HR].
  destruct Hrep as [_ Hwf Hidx Hhandle _ Hms Hmf Hhw]. pose proof (wf_positive _ _ Hwf) as Hpos.
  assert ((total k1 + a, Used h n) ∈ segs 0 l) as Hused.
  { rewrite Hl. apply elem_of_segs_middle. right; left. rewrite elem_of_neighbourhood by done. auto. }
  pose proof (segs_bounds _ _ _ _ Hpos Hused) as (_ & Hn & Hle). simpl in Hn, Hle.
  pose proof (wf_total _ _ Hwf) as Htot. pose proof (free_total_bounds _ Hpos).
  assert (0 ≤ total k1 ∧ free_total l + n ≤ total l ∧ total k1 + a + n + b ≤ total l) as (? & ? & ?).
  { rewrite Hl in Hpos. apply positive_app in Hpos as [Hp1 Hp2]. apply positive_app in Hp2 as [_ Hp2].
    pose proof (total_nonneg _ Hp1). pose proof (free_total_bounds _ Hp1).
    pose proof (free_total_bounds _ Hp2). rewrite Hl, !free_total_app, !total_app. unfold neighbourhood.
    rewrite !free_total_app, !total_app, !total_cons, !free_total_cons. simpl.
    rewrite !total_free_seg, !free_total_free_seg by done. lia. }
  unfold tmmgr.free. rewrite bind_get, (proj2 (Hhandle _ _ _) Hused).
  rewrite bind_assert by (by apply Z.ltb_lt). rewrite !bind_modify. unfold w64.
  rewrite (Z.mod_small (total k1 + a + n)), HL, HR, bind_if by lia.
  set (t1 := if total k1 + a + n =? tmmgr.high_water t then _ else _).
  assert (indexed (λ o k, (o, Free k) ∈ segs 0 l) t1) as Hidx1 by (subst t1; by destruct (_ =? _)).
  destruct (join_spec l k1 h a n b k2 t1) as (x & y & z & Hrun & Hidx2); [done..|].
  exists x, y, z. split; [|done]. transitivity (Ret (E := tmmgr.error) tt, with_free t1 x y z).
  - rewrite <- Hrun. unfold delete_if. destruct (Z.ltb_spec 0 a), (Z.ltb_spec 0 b).
    all: rewrite ?bind_mret, ?bind_assert by (apply Z.leb_le; lia).
    all: rewrite ?(Z.mod_small (total k1 + a - a)), ?(Z.mod_small (a + n)), ?(Z.mod_small (n + b)),
           ?(Z.mod_small (a + n + b)) by lia.
    all: replace (total k1 + a - a) with (total k1) by lia; try done.
    all: try replace b with 0 by lia; try replace a with 0 by lia.
    all: by rewrite ?Z.add_0_r, ?Z.add_0_l.
  - subst t1. unfold with_free. rewrite (Z.mod_small (tmmgr.mem_free t + n)) by lia.
    destruct (_ =? _); simpl; [|done]. f_equal. f_equal. destruct (Z.ltb_spec 0 a); simpl;
      rewrite Z.mod_small by lia; lia.
Qed.

Definition free_result (t : tmmgr.type) (l : layout.type) (h : Z)
    (r : outcome tmmgr.error unit * tmmgr.type) : Prop :=
  match r with
  | (Ret _, t') => tmmgr.align t' = tmmgr.align t ∧ ∃ l', free_step h l l' ∧ rep t' l'
  | (Throw e, t') => t' = t ∧ e = tmmgr.unknown_handle h ∧ (h ∉ handles l)
  end.

Lemma free_spec t l h : rep t l → free_result t l h (tmmgr.free h t).
Proof.
  intros Hrep. destruct (decide (h ∈ handles l)) as [Hin|Hout].
  2:{ unfold tmmgr.free. rewrite bind_get.
      destruct (tmmgr.handle_to_offset_and_size t !! h) as [[o n]|] eqn:Hh; [|done].
      apply (rep_handle _ _ Hrep) in Hh. destruct Hout. apply (elem_of_handles _ _ 0). eauto. }
  apply (elem_of_handles _ _ 0) in Hin as (o & n & (l1 & l2 & Hl & _)%segs_split).
  pose proof Hrep as [Ha Hwf _ Hhandle Hoffset Hms Hmf Hhw]. pose proof (wf_positive _ _ Hwf) as Hpos.
  destruct (strip_right l1) as [k1 a] eqn:Hr, (strip_left l2) as [b k2] eqn:Hs.
  destruct (neighbourhood_split l1 h n l2 k1 a b k2) as (Hsplit & Ha0 & Hb0 & Ht1 & Hk1 & Hk2);
    [by rewrite <- Hl|rewrite <- Hl; by apply (wf_separate _ _ Hwf)|done..|].
  rewrite Hsplit in Hl.
  destruct (free_run t l k1 h a n b k2) as (x & y & z & -> & Hidx); [done..|].
  split; [done|]. exists (k1 ++ [Free (a + n + b)] ++ k2). split.
  { exists l1, n, l2. rewrite Hr, Hs. split; [by rewrite Hsplit|done]. }
  assert ((total k1 + a, Used h n) ∈ segs 0 l) as Hused.
  { rewrite Hl. apply elem_of_segs_middle. right; left. rewrite elem_of_neighbourhood by done. auto. }
  pose proof (segs_bounds _ _ _ _ Hpos Hused) as (_ & Hn & _). simpl in Hn.
  assert (total (neighbourhood h a n b) = a + n + b) as Htn.
  { unfold neighbourhood. rewrite total_app, total_cons, !total_free_seg by done. simpl. lia. }
  assert (∀ x h' k, (x, Used h' k) ∈ segs 0 (k1 ++ [Free (a + n + b)] ++ k2) ↔
            (x, Used h' k) ∈ segs 0 l ∧ h' ≠ h) as Hsegs.
  { intros x' h' k. rewrite (replace_segs k1 (neighbourhood h a n b)), <- Hl;
      [|by rewrite <- Hl|left; simpl; lia].
    rewrite elem_of_neighbourhood by done. simpl. rewrite list_elem_of_singleton.
    split; [|intros [? ?]; left; split; [done|]; naive_solver].
    intros [[Hx Hne]|[= ]]. split; [done|]. intros ->. apply Hne.
    apply Hhandle in Hx, Hused. right; left. congruence. }
  split; cbn [tmmgr.align tmmgr.handle_to_offset_and_size tmmgr.offset_to_handle tmmgr.mem_size
              tmmgr.mem_free tmmgr.high_water]; [done|..].
  - apply (free_wf _ _ h); [by rewrite <- Hl|done..].
  - done.
  - intros h' x' k. rewrite lookup_delete_Some, Hhandle, Hsegs. naive_solver.
  - intros x' h'. rewrite lookup_delete_Some, Hoffset. setoid_rewrite Hsegs. split.
    + intros [Hne [k Hk]]. exists k. split; [done|]. intros ->. apply Hhandle in Hk, Hused. congruence.
    + intros [k [Hk Hne]]. split; [|by exists k]. intros <-. apply Hne.
      by injection (segs_start_inj _ _ _ _ _ Hpos Hk Hused).
  - rewrite Hms, Hl, !total_app, Htn. simpl. lia.
  - rewrite Hmf, Hl, !free_total_app. unfold neighbourhood.
    rewrite free_total_app, free_total_cons, !free_total_free_seg by done. simpl. lia.
  - rewrite Hhw, (free_high k1 h) by (done || by rewrite <- Hl). by rewrite <- Hl.
Qed.

(** *** Resizing *)
Lemma strip_right_split l k f :
  positive l → separate l → strip_right l = (k, f) →
  l = k ++ free_seg f ∧ 0 ≤ f ∧ ¬ ends_free k ∧ total k = high l.
Proof.
  intros Hpos Hsep Hr. destruct (ends_free_cases l) as [(k' & m & ->)|Hn].
  - rewrite strip_right_free in Hr. injection Hr as -> ->.
    apply positive_app in Hpos as [_ Hm]. apply positive_cons in Hm as [Hm _]. simpl in Hm.
    rewrite high_snoc_free. unfold free_seg. rewrite (proj2 (Z.ltb_lt _ _)) by done. split; [done|].
    split; [lia|]. split; [|done]. apply separate_app in Hsep as (_ & _ & Hsep). intros ?. by apply Hsep.
  - rewrite strip_right_not_free in Hr by done. injection Hr as -> <-.
    rewrite high_not_free by done. by rewrite app_nil_r.
Qed.

(** The index of the last free segment is changed from [f] to [g]. *)
Lemma resize_index l k f g t :
  positive l → l = k ++ free_seg f → 0 ≤ f → 0 ≤ g → total k + g < two64 →
  indexed (λ o n, (o, Free n) ∈ segs 0 l) t →
  reindexes (delete_if (total k) f ≫= λ _, tmmgr.insert_free_segment (total k) g) t
    (λ o n, (o, Free n) ∈ segs 0 (k ++ free_seg g)).
Proof.
  intros Hpos Hl Hf Hg Hfit Hidx.
  assert (∀ x o n, 0 ≤ x → (o, Free n) ∈ segs (total k) (free_seg x) ↔ 0 < x ∧ o = total k ∧ n = x) as Hseg.
  { intros x o n Hx. unfold free_seg. destruct (Z.ltb_spec 0 x); simpl.
    - rewrite list_elem_of_singleton. naive_solver.
    - rewrite elem_of_nil. naive_solver lia. }
  pose proof Hpos as Hk. rewrite Hl in Hk. apply positive_app in Hk as [Hk _].
  pose proof (total_nonneg _ Hk).
  eapply reindexes_bind; [apply delete_if_spec; [exact Hidx|]|].
  { intros ?. rewrite Hl, segs_app, elem_of_app. right. by apply Hseg. }
  intros x y z Hidx'. eapply reindexes_ext; [|apply insert_free_segment_spec; [exact Hidx'|lia..|]].
  - intros o n. cbv beta. rewrite Hl, !segs_app, !elem_of_app, !Z.add_0_l, !Hseg by done.
    assert ((o, Free n) ∈ segs 0 k → ¬ (0 < f ∧ o = total k ∧ n = f)) as Hne.
    { intros Ho (? & -> & ->). apply segs_bounds in Ho; [|done]. simpl in Ho. lia. }
    tauto.
  - intros Hg'. rewrite Hl. setoid_rewrite segs_app. setoid_rewrite elem_of_app. rewrite Z.add_0_l.
    setoid_rewrite Hseg; [|done..]. split; intros n [[Hn|?] Hne]; try tauto.
    + apply segs_bounds in Hn; [|done]. simpl in Hn. lia.
    + apply segs_bounds in Hn; [|done]. simpl in Hn. lia.
Qed.

Definition resize_result (t : tmmgr.type) (l : layout.type) (size : Z)
    (r : outcome tmmgr.error unit * tmmgr.type) : Prop :=
  let n := tmmgr.alignDown size (tmmgr.align t) in
  match r with
  | (Ret _, t') => high l ≤ n ∧ tmmgr.align t' = tmmgr.align t ∧ rep t' (resize_layout n l)
  | (Throw e, t') => t' = t ∧ n < high l ∧
      (e = tmmgr.below_mem_used size n (total l) (free_total l) ∨
       e = tmmgr.below_high_water size n (high l))
  end.

Lemma resize_run t l size k f :
  rep t l → 0 ≤ size < two64 → l = k ++ free_seg f → 0 ≤ f → total k = high l → ¬ ends_free k →
  total k ≤ tmmgr.alignDown size (tmmgr.align t) → tmmgr.alignDown size (tmmgr.align t) ≠ total l →
  let n := tmmgr.alignDown size (tmmgr.align t) in
  ∃ x y z,
    tmmgr.resize size t = (Ret tt,
      tmmgr.mk (tmmgr.handle_to_offset_and_size t) (tmmgr.offset_to_handle t) x y z
        (tmmgr.align t) n (tmmgr.mem_free t + (n - total l)) (tmmgr.high_water t)) ∧
    index (λ o m, (o, Free m) ∈ segs 0 (k ++ free_seg (n - total k))) x y z.
Proof.
  intros [Ha Hwf Hidx _ _ Hms Hmf Hhw] Hsize Hl Hf Hhigh Hk Hge Hne n. fold n in Hge, Hne.
  destruct (alignDown_bounds size _ Ha Hsize) as ([? ?] & _ & _). fold n in H1, H2.
  pose proof (wf_positive _ _ Hwf) as Hpos. pose proof (wf_total _ _ Hwf).
  pose proof (free_total_bounds _ Hpos). pose proof (used_high _ Hpos).
  pose proof Hpos as Hpk. rewrite Hl in Hpk. apply positive_app in Hpk as [Hpk _].
  pose proof (total_nonneg _ Hpk). pose proof (free_total_bounds _ Hpk).
  assert (total l = total k + f) as Htl by (by rewrite Hl, total_app, total_free_seg).
  assert (free_total l = free_total k + f) as Hfl by (by rewrite Hl, free_total_app, free_total_free_seg).
  destruct (resize_index l k f (n - total k) t) as (x & y & z & Hrun & Hidx'); [done..|lia|lia|done|].
  exists x, y, z. split; [|done].
  assert (tmmgr.free_segment_end t !! total l = if 0 <? f then Some f else None) as Hend.
  { destruct (Z.ltb_spec 0 f) as [Hf0|Hf0].
    - apply (index_end _ _ _ _ Hidx). rewrite Hl, segs_app, elem_of_app. right.
      unfold free_seg. rewrite (proj2 (Z.ltb_lt _ _)) by done. rewrite total_app. simpl.
      apply list_elem_of_singleton. f_equal. lia.
    - apply eq_None_not_Some. intros [m Hm%(index_end _ _ _ _ Hidx)]. apply Hk.
      unfold free_seg in Hl. rewrite (proj2 (Z.ltb_ge _ _)), app_nil_r in Hl by done. subst k.
      apply segs_last in Hm as [k' ->]; [by apply ends_free_snoc|done|simpl; lia]. }
  unfold tmmgr.resize. rewrite bind_get. fold n. unfold w64. rewrite Hms, Hmf, Hhw.
  rewrite (Z.mod_small (total l - free_total l)) by lia.
  rewrite !(proj2 (Z.ltb_ge _ _)), (proj2 (Z.eqb_neq _ _)), Hend by lia.
  assert (∀ (c d : M tmmgr.type tmmgr.error unit) (q : unit → M tmmgr.type tmmgr.error unit) s r,
    c t = d t → (d ≫= q) t = (r, s) → (c ≫= q) t = (r, s)) as Hsame.
  { intros c d q s r Hcd. unfold mbind, M_bind. by rewrite Hcd. }
  eapply (Hsame _ (delete_if (total k) f ≫= λ _, tmmgr.insert_free_segment (total k) (n - total k))).
  - unfold delete_if. destruct (Z.ltb_spec 0 f).
    + rewrite bind_assert.
      2:{ destruct (Z.ltb_spec (total l) n); [done|]. simpl. apply Z.leb_le. rewrite Z.mod_small by lia. lia. }
      rewrite (Z.mod_small (total l - f)) by lia. replace (total l - f) with (total k) by lia.
      destruct (Z.ltb_spec (total l) n); rewrite ?(Z.mod_small (n - total l)), ?(Z.mod_small (total l - n)),
        Z.mod_small by lia.
      * by replace (f + (n - total l)) with (n - total k) by lia.
      * by replace (f - (total l - n)) with (n - total k) by lia.
    + assert (total l < n) by lia. rewrite bind_assert by (apply Z.ltb_lt; lia).
      rewrite (proj2 (Z.ltb_lt _ _)), Z.mod_small, bind_mret by lia.
      replace (total l) with (total k) by lia. done.
  - unfold mbind at 1, M_bind at 1. rewrite Hrun. rewrite bind_modify, bind_get. unfold modify, with_free.
    simpl. unfold tmmgr.set_mem_free, tmmgr.set_mem_size. simpl. rewrite Hmf, Hhw.
    f_equal. f_equal. destruct (Z.ltb_spec (total l) n).
    + rewrite (Z.mod_small (n - total l)), Z.mod_small by lia. lia.
    + rewrite (Z.mod_small (total l - n)), Z.mod_small by lia. lia.
Qed.

Lemma total_divide a l : Forall (λ s, (a | seg_size s)) l → (a | total l).
Proof. induction 1; simpl; [apply Z.divide_0_r|]. by apply Z.divide_add_r. Qed.

Lemma resize_wf a k f g :
  wf a (k ++ free_seg f) → (a | g) → 0 ≤ g → ¬ ends_free k → total k + g < two64 →
  wf a (k ++ free_seg g).
Proof.
  intros Hwf Hdiv Hg Hk Hfit. rewrite <- (app_nil_r (free_seg g)).
  apply (wf_replace a k (free_seg f)); rewrite ?app_nil_r; [done|apply positive_free_seg|..].
  - unfold free_seg. destruct (0 <? g); by repeat constructor.
  - destruct Hwf as [_ _ Hsep _ _]. apply separate_app in Hsep as (Hsep & _ & _). apply separate_app.
    split; [done|]. split; [apply separate_free_seg|by intros [? _]].
  - destruct Hwf as [_ _ _ Hnd _]. rewrite handles_app, handles_free_seg in *. done.
  - by rewrite total_app, total_free_seg.
Qed.

(** Growing and shrinking at the end does not move the used segments. *)
Lemma resize_layout_used n l x h m :
  positive l → separate l →
  (x, Used h m) ∈ segs 0 (resize_layout n l) ↔ (x, Used h m) ∈ segs 0 l.
Proof.
  intros Hpos Hsep. unfold resize_layout. destruct (strip_right l) as [k f] eqn:Hr. simpl.
  destruct (strip_right_split l k f Hpos Hsep Hr) as (Hl & _ & _ & _).
  assert (∀ o g, (x, Used h m) ∉ segs o (free_seg g)) as Hno.
  { intros o g. unfold free_seg. destruct (0 <? g); simpl;
      [by intros [= ]%list_elem_of_singleton|by intros ?%elem_of_nil]. }
  rewrite Hl, !segs_app, !elem_of_app. naive_solver.
Qed.

Lemma resize_spec t l size :
  rep t l → 0 ≤ size < two64 → resize_result t l size (tmmgr.resize size t).
Proof.
  intros Hrep Hsize. pose proof Hrep as [Ha Hwf Hidx Hhandle Hoffset Hms Hmf Hhw].
  pose proof (wf_positive _ _ Hwf) as Hpos. pose proof (wf_separate _ _ Hwf) as Hsep.
  destruct (strip_right l) as [k f] eqn:Hr.
  destruct (strip_right_split l k f Hpos Hsep Hr) as (Hl & Hf & Hk & Hkh).
  destruct (alignDown_bounds size _ Ha Hsize) as ([? ?] & _ & Hdiv).
  pose proof (free_total_bounds _ Hpos). pose proof (used_high _ Hpos). pose proof (wf_total _ _ Hwf).
  assert (resize_layout (tmmgr.alignDown size (tmmgr.align t)) l =
          k ++ free_seg (tmmgr.alignDown size (tmmgr.align t) - total k)) as Hlay.
  { unfold resize_layout. by rewrite Hr. }
  unfold resize_result. cbv zeta. set (n := tmmgr.alignDown size (tmmgr.align t)) in *.
  destruct (decide (n < high l)) as [Hlt|Hge].
  - unfold tmmgr.resize. rewrite bind_get, Hms, Hmf, Hhw. fold n. unfold w64. rewrite Z.mod_small by lia.
    destruct (Z.ltb_spec n (total l - free_total l)); [simpl; by auto|].
    rewrite (proj2 (Z.ltb_lt _ _)) by done. simpl. auto.
  - destruct (decide (n = total l)) as [Heq|Hne].
    { unfold tmmgr.resize. rewrite bind_get, Hms, Hmf, Hhw. fold n. unfold w64. rewrite Z.mod_small by lia.
      rewrite !(proj2 (Z.ltb_ge _ _)), (proj2 (Z.eqb_eq _ _)) by lia.
      split; [lia|]. split; [done|]. rewrite Hlay. replace (n - total k) with f; [by rewrite <- Hl|].
      rewrite Heq, Hl, total_app, total_free_seg by done. lia. }
    destruct (resize_run t l size k f) as (x & y & z & -> & Hidx'); try done; [lia|]. fold n in Hidx' |- *.
    split; [lia|]. split; [done|].
    split; cbn [tmmgr.align tmmgr.handle_to_offset_and_size tmmgr.offset_to_handle tmmgr.mem_size
                tmmgr.mem_free tmmgr.high_water]; [done|..].
    + rewrite Hlay. apply (resize_wf _ _ f); [by rewrite <- Hl| |lia|done|lia].
      apply Z.divide_sub_r; [done|]. apply total_divide. pose proof (wf_aligned _ _ Hwf) as Hal.
      rewrite Hl in Hal. by apply Forall_app in Hal as [? _].
    + by rewrite Hlay.
    + intros h o m. rewrite Hhandle, resize_layout_used by done. done.
    + intros o h. rewrite Hoffset. by setoid_rewrite resize_layout_used.
    + rewrite Hlay, total_app, total_free_seg by lia. lia.
    + rewrite Hmf, Hlay. assert (free_total l = free_total k + f) as ->.
      { by rewrite Hl, free_total_app, free_total_free_seg. }
      rewrite free_total_app, free_total_free_seg by lia.
      assert (total l = total k + f) as -> by (by rewrite Hl, total_app, total_free_seg). lia.
    + rewrite Hhw, Hlay, <- Hkh. unfold free_seg. destruct (0 <? _).
      * by rewrite high_snoc_free.
      * by rewrite app_nil_r, high_not_free.
Qed.

(** *** The tables are determined by the layout. *)
Lemma rep_determines t t' l : rep t l → rep t' l → tmmgr.align t = tmmgr.align t' → t = t'.
Proof.
  intros [_ _ I1 H1 O1 S1 F1 W1] [_ _ I2 H2 O2 S2 F2 W2] Ha.
  destruct I1 as [s1 e1 z1 m1 r1], I2 as [s2 e2 z2 m2 r2].
  destruct t as [a1 b1 c1 d1 f1 g1 h1 i1 j1], t' as [a2 b2 c2 d2 f2 g2 h2 i2 j2].
  simpl in *. f_equal; try congruence; apply map_eq; intros i; apply option_eq; try intros v.
  - destruct v. by rewrite H1, H2.
  - by rewrite O1, O2.
  - assert (∀ X, c1 !! i = Some X ↔ c2 !! i = Some X) as Heq; [|apply Heq].
    assert (∀ o, o ∈ default ∅ (c1 !! i) ↔ o ∈ default ∅ (c2 !! i)) as Hin by (intros o; by rewrite z1, z2).
    specialize (m1 i). specialize (m2 i).
    assert (∀ X Y : gmultiset Z, (∀ o, o ∈ X ↔ o ∈ Y) → (∀ o, (multiplicity o X ≤ 1)%nat) →
              (∀ o, (multiplicity o Y ≤ 1)%nat) → X = Y) as Hext.
    { intros X Y HXY HX HY. apply gmultiset_eq. intros o. specialize (HX o). specialize (HY o).
      specialize (HXY o). rewrite !elem_of_multiplicity in HXY. lia. }
    destruct (c1 !! i) as [X1|], (c2 !! i) as [X2|]; simpl in *; intros X; [..|done].
    + destruct (m1 X1) as [_ ?], (m2 X2) as [_ ?]; [done..|]. by rewrite (Hext X1 X2).
    + destruct (m1 X1) as [[] ?]; [done|]. apply gmultiset_eq. intros o.
      rewrite multiplicity_empty. apply not_elem_of_multiplicity. rewrite Hin. apply gmultiset_not_elem_of_empty.
    + destruct (m2 X2) as [[] ?]; [done|]. apply gmultiset_eq. intros o.
      rewrite multiplicity_empty. apply not_elem_of_multiplicity. rewrite <- Hin. apply gmultiset_not_elem_of_empty.
  - by rewrite s1, s2.
  - by rewrite e1, e2.
Qed.
End operations.
End MmgrSpec.
