(* ===== verification/MmgrSafe.v ===== *)
(** * What the allocator promises

    Theorems about the states that the operations of [tmmgr] and [dtmmgr] can
    reach: blocks do not overlap, the accounting is exact, releasing undoes
    allocating, and the two arenas of a segment never run into each other. *)

From stdpp Require Import gmultiset.
From S2P Require Import Prelude MmgrLayout Mmgr MmgrSpec.

Open Scope Z_scope.
Import layout MmgrSpec.

Module Allocator.

Section allocator.
Context `{UnorderedMultiset} `{AssertMode}.

(** ** One arena *)
Inductive op : Type := Alloc (h size : Z) | Release (h : Z) | Resize (size : Z).

(** Requests of at least one byte whose size, rounded up, is an unsigned long *)
Definition admissible (align : Z) (x : op) : Prop :=
  match x with
  | Alloc _ size => 0 < size ∧ size + align ≤ two64
  | Release _ => True
  | Resize size => 0 ≤ size < two64
  end.
Definition run (x : op) (t : tmmgr.type) : tmmgr.type :=
  match x with
  | Alloc h size => (tmmgr.alloc h size t).2
  | Release h => (tmmgr.free h t).2
  | Resize size => (tmmgr.resize size t).2
  end.

Inductive reachable : tmmgr.type → Prop :=
| reachable_make n a : valid_align a → 0 ≤ n < two64 → reachable (tmmgr.make n a)
| reachable_run x t : reachable t → admissible (tmmgr.align t) x → reachable (run x t).

Lemma reachable_rep t : reachable t → ∃ l, rep t l.
Proof.
  induction 1 as [n a Ha Hn|x t _ [l Hrep] Hx]; [eexists; by apply make_spec|].
  destruct x as [h size|h|size]; simpl in *.
  - destruct Hx as [H1 H2]. pose proof (alloc_spec t l h size Hrep H1 H2) as Hspec.
    destruct (tmmgr.alloc h size t) as [[[o n]|e] t'].
    + destruct Hspec as (_ & _ & _ & l' & _ & ?). eauto.
    + destruct Hspec as [-> _]. eauto.
  - pose proof (free_spec t l h Hrep) as Hspec. destruct (tmmgr.free h t) as [[[]|e] t'].
    + destruct Hspec as (_ & l' & _ & ?). eauto.
    + destruct Hspec as [-> _]. eauto.
  - pose proof (resize_spec t l size Hrep Hx) as Hspec. destruct (tmmgr.resize size t) as [[[]|e] t'].
    + destruct Hspec as (_ & _ & ?). eauto.
    + destruct Hspec as [-> _]. eauto.
Qed.

(** ** Accounting *)
Definition block (s : Z * segment) : option (Z * (Z * Z)) :=
  match s.2 with Used h n => Some (h, (s.1, n)) | Free _ => None end.
Definition blocks (o : Z) (l : layout.type) : list (Z * (Z * Z)) := omap block (segs o l).

Lemma elem_of_blocks h o n x l : (h, (o, n)) ∈ blocks x l ↔ (o, Used h n) ∈ segs x l.
Proof.
  unfold blocks. rewrite list_elem_of_omap. split.
  - intros ([y [m|h' m]] & Hin & Hb); [done|]. by injection Hb as -> -> ->.
  - intros Hin. by exists (o, Used h n).
Qed.
Lemma blocks_handles o l : (blocks o l).*1 = handles l.
Proof.
  unfold blocks, handles. revert o. induction l as [|[n|h n] l IH]; intros o; simpl; [done|apply IH|].
  by rewrite IH.
Qed.

(** The bytes in use according to the table of handles *)
Definition bytes (b : Z * (Z * Z)) (z : Z) : Z := b.2.2 + z.
Definition used_bytes (t : tmmgr.type) : Z :=
  foldr bytes 0 (map_to_list (tmmgr.handle_to_offset_and_size t)).

Lemma bytes_permutation l k : l ≡ₚ k → foldr bytes 0 l = foldr bytes 0 k.
Proof.
  induction 1 as [|x l k _ IH|x y l|l k k' _ IH1 _ IH2]; simpl; [done|by rewrite IH| |congruence].
  generalize (foldr bytes 0 l). intros z. unfold bytes. lia.
Qed.

Lemma used_bytes_layout t l : rep t l → used_bytes t = total l - free_total l.
Proof.
  intros [_ Hwf _ Hhandle _ _ _ _]. unfold used_bytes.
  assert (map_to_list (tmmgr.handle_to_offset_and_size t) ≡ₚ blocks 0 l) as Hperm.
  { apply NoDup_Permutation; [apply NoDup_map_to_list|..].
    - apply (NoDup_fmap_1 fst). rewrite blocks_handles. apply (wf_handles _ _ Hwf).
    - intros [h [o n]]. rewrite elem_of_map_to_list, elem_of_blocks. apply Hhandle. }
  rewrite (bytes_permutation _ _ Hperm). clear.
  assert (∀ o, foldr bytes 0 (blocks o l) = total l - free_total l) as Hsum; [|apply Hsum].
  unfold blocks. induction l as [|[n|h n] l IH]; intros o; simpl; [done|..]; unfold bytes at 1; simpl in *;
    rewrite IH; lia.
Qed.

(** ** The theorems *)

(** C21: The allocator implements its layout: in every state that operations
    can reach, the tables describe one sequence of free and used segments, and
    on it allocation takes the smallest free segment that is large enough,
    release joins the segment with its free neighbours, resizing changes only
    the free end; an exception leaves the state as it was and is thrown exactly
    when there is no such step.  No assertion fails and no table entry is
    missing. *)
Theorem tmmgr_implements_layout t :
  reachable t →
  ∃ l, rep t l ∧
    (∀ h size, admissible (tmmgr.align t) (Alloc h size) → alloc_result t l h size (tmmgr.alloc h size t)) ∧
    (∀ h, free_result t l h (tmmgr.free h t)) ∧
    (∀ size, admissible (tmmgr.align t) (Resize size) → resize_result t l size (tmmgr.resize size t)).
Proof.
  intros [l Hrep]%reachable_rep. exists l. split; [done|]. split; [|split].
  - intros h size [H1 H2]. by apply alloc_spec.
  - intros h. by apply free_spec.
  - intros size Hsize. by apply resize_spec.
Qed.

Lemma segs_aligned a o l x s :
  Forall (λ s, (a | seg_size s)) l → (a | o) → (x, s) ∈ segs o l → (a | x) ∧ (a | seg_size s).
Proof.
  intros Hal Ho (l1 & l2 & -> & ->)%segs_split. apply Forall_app in Hal as [Hl1 [Hs _]%Forall_cons].
  split; [|done]. by apply Z.divide_add_r, total_divide.
Qed.

(** Blocks are inside the memory, aligned and do not overlap; the free
    bytes are the bytes that no block uses; the high water mark is the end of
    the last block. *)
Theorem blocks_disjoint t :
  reachable t →
  (∀ h o n, tmmgr.handle_to_offset_and_size t !! h = Some (o, n) →
     0 ≤ o ∧ 0 < n ∧ o + n ≤ tmmgr.high_water t ∧ (tmmgr.align t | o) ∧ (tmmgr.align t | n)) ∧
  (∀ h o n h' o' n', tmmgr.handle_to_offset_and_size t !! h = Some (o, n) →
     tmmgr.handle_to_offset_and_size t !! h' = Some (o', n') →
     h = h' ∨ o + n ≤ o' ∨ o' + n' ≤ o) ∧
  tmmgr.mem_free t + used_bytes t = tmmgr.mem_size t ∧
  (tmmgr.high_water t = 0 ∨
   ∃ h o n, tmmgr.handle_to_offset_and_size t !! h = Some (o, n) ∧ tmmgr.high_water t = o + n) ∧
  tmmgr.high_water t ≤ tmmgr.mem_size t < two64.
Proof.
  intros [l Hrep]%reachable_rep. pose proof (used_bytes_layout t l Hrep) as Hused.
  destruct Hrep as [_ Hwf _ Hhandle _ Hms Hmf Hhw]. pose proof (wf_positive _ _ Hwf) as Hpos.
  rewrite Hms, Hmf, Hhw, Hused. split; [|split; [|split; [lia|split]]].
  - intros h o n Ho%Hhandle. pose proof (segs_bounds _ _ _ _ Hpos Ho) as (? & ? & _).
    pose proof (high_used _ _ _ _ _ Hpos Ho).
    destruct (segs_aligned _ _ _ _ _ (wf_aligned _ _ Hwf) (Z.divide_0_r _) Ho) as [? ?].
    simpl in *. split_and!; try done; lia.
  - intros h o n h' o' n' Ho%Hhandle Ho'%Hhandle.
    destruct (segs_disjoint _ _ _ _ _ _ Hpos Ho Ho') as [[_ [= ->]]|?]; auto.
  - destruct (high_is_end l Hpos (wf_separate _ _ Hwf)) as [?|(o & h & n & Ho & ?)]; [by left|right].
    exists h, o, n. split; [by apply Hhandle|done].
  - pose proof (high_bounds _ Hpos). pose proof (wf_total _ _ Hwf). lia.
Qed.

(** Releasing a block right after it was allocated restores the state of
    the allocator. *)
Theorem alloc_free t h size r t' :
  reachable t → admissible (tmmgr.align t) (Alloc h size) →
  tmmgr.alloc h size t = (Ret r, t') → tmmgr.free h t' = (Ret tt, t).
Proof.
  intros [l Hrep]%reachable_rep [Hs1 Hs2] Halloc. pose proof (alloc_spec t l h size Hrep Hs1 Hs2) as Hspec.
  rewrite Halloc in Hspec. destruct r as [o n].
  destruct Hspec as (-> & Hh & Ha & l' & (l1 & m & l2 & -> & -> & Hle & _ & ->) & Hrep').
  set (n := tmmgr.alignUp size (tmmgr.align t)) in *.
  pose proof (rep_wf _ _ Hrep) as Hwf. pose proof (wf_separate _ _ Hwf) as (_ & Hsep & Hno)%separate_app.
  apply separate_cons in Hsep as [Hsep _].
  assert (¬ ends_free l1) as Hl1 by (intros ?; by apply Hno).
  pose proof (free_spec t' _ h Hrep') as Hfree. destruct (tmmgr.free h t') as [[[]|e] t''].
  2:{ destruct Hfree as (_ & _ & Hout). destruct Hout. rewrite handles_app. apply elem_of_app. right. by left. }
  destruct Hfree as (Ha' & l'' & (k1 & n' & k2 & Heq & Hl'') & Hrep'').
  assert (k1 = l1 ∧ n' = n ∧ k2 = free_seg (m - n) ++ l2) as (-> & -> & ->).
  { pose proof (wf_handles _ _ (rep_wf _ _ Hrep')) as Hnd. clear -Heq Hnd. revert k1 Heq Hnd.
    induction l1 as [|s l1 IH]; intros [|s' k1] Heq Hnd; simpl in *.
    - by injection Heq as -> ->.
    - injection Heq as <- Heq. simpl in Hnd. apply NoDup_cons in Hnd as [Hnd _]. destruct Hnd.
      rewrite Heq, handles_app. apply elem_of_app. right. by left.
    - injection Heq as -> Heq. simpl in Hnd. apply NoDup_cons in Hnd as [Hnd _]. destruct Hnd.
      rewrite handles_app. apply elem_of_app. right. by left.
    - injection Heq as -> Heq. destruct (IH k1) as (-> & -> & ->); [done| |done].
      destruct s'; [done|]. simpl in Hnd. by apply NoDup_cons in Hnd as [_ ?]. }
  rewrite strip_right_not_free in Hl'' by done.
  assert (strip_left (free_seg (m - n) ++ l2) = (m - n, l2)) as Hstrip.
  { unfold free_seg. destruct (Z.ltb_spec 0 (m - n)); [done|]. simpl.
    rewrite strip_left_not_free by (intros ?; by apply Hsep). f_equal. lia. }
  rewrite Hstrip in Hl''. subst l''. replace (0 + n + (m - n)) with m in Hrep'' by lia.
  f_equal. by apply (rep_determines _ _ _ Hrep'' Hrep); congruence.
Qed.

(** ** Two arenas *)
Lemma resize_layout_total n l :
  positive l → separate l → high l ≤ n →
  total (resize_layout n l) = n ∧ high (resize_layout n l) = high l.
Proof.
  intros Hpos Hsep Hn. unfold resize_layout. destruct (strip_right l) as [k f] eqn:Hr. simpl.
  destruct (strip_right_split l k f Hpos Hsep Hr) as (Hl & _ & Hk & Hkh).
  rewrite total_app, total_free_seg by lia. split; [lia|]. rewrite <- Hkh. unfold free_seg.
  destruct (0 <? _); [by rewrite high_snoc_free|by rewrite app_nil_r, high_not_free].
Qed.
Lemma alignDown_aligned n a :
  valid_align a → 0 ≤ n < two64 → (a | n) → tmmgr.alignDown n a = n.
Proof.
  intros Ha Hn Hdiv. rewrite alignDown_spec by done. pose proof (valid_align_bounds a Ha).
  rewrite (proj2 (Z.mod_divide n a ltac:(lia)) Hdiv). lia.
Qed.
Lemma high_aligned a l : wf a l → (a | high l).
Proof.
  intros Hwf. destruct (high_is_end l (wf_positive _ _ Hwf) (wf_separate _ _ Hwf)) as [->|(x & h & n & Hx & ->)].
  - apply Z.divide_0_r.
  - apply (segs_aligned a 0) in Hx as [? ?]; [|by apply wf_aligned|apply Z.divide_0_r].
    by apply Z.divide_add_r.
Qed.

(** Each arena ends where the used part of the other one begins. *)
Record joint (lu ld : layout.type) (t : dtmmgr.type) : Prop := {
  joint_up : rep (dtmmgr.up t) lu;
  joint_down : rep (dtmmgr.down t) ld;
  joint_align : tmmgr.align (dtmmgr.up t) = tmmgr.align (dtmmgr.down t);
  joint_size_up : total lu = dtmmgr.mem_size t - high ld;
  joint_size_down : total ld = dtmmgr.mem_size t - high lu;
  joint_size : 0 ≤ dtmmgr.mem_size t < two64;
  joint_aligned : (tmmgr.align (dtmmgr.up t) | dtmmgr.mem_size t)
}.

(** The layouts seen from an arena *)
Definition joint_at (a : dtmmgr.Arena_t) (l k : layout.type) (t : dtmmgr.type) : Prop :=
  match a with dtmmgr.ARENA_UP => joint l k t | dtmmgr.ARENA_DOWN => joint k l t end.

Lemma joint_at_rep a l k t :
  joint_at a l k t →
  rep (dtmmgr.arena a t) l ∧ rep (dtmmgr.arena (dtmmgr.other a) t) k ∧
  tmmgr.align (dtmmgr.arena a t) = tmmgr.align (dtmmgr.arena (dtmmgr.other a) t) ∧
  total l = dtmmgr.mem_size t - high k ∧ total k = dtmmgr.mem_size t - high l ∧
  0 ≤ dtmmgr.mem_size t < two64 ∧ (tmmgr.align (dtmmgr.arena a t) | dtmmgr.mem_size t).
Proof. destruct a; intros [? ? Hal ? ? ? Hd]; simpl; split_and!; try (done || lia); by rewrite <- ?Hal. Qed.

(** After the arena changed its layout, the other one can be resized. *)
Lemma resize_other_spec a l k t x l' :
  joint_at a l k t → rep x l' → tmmgr.align x = tmmgr.align (dtmmgr.arena a t) → total l' = total l →
  ∃ t' k', dtmmgr.resize_other a (dtmmgr.set_arena a x t) = (Ret tt, t') ∧ joint_at a l' k' t' ∧
    dtmmgr.arena a t' = x ∧ dtmmgr.mem_size t' = dtmmgr.mem_size t ∧
    tmmgr.handle_to_offset_and_size (dtmmgr.arena (dtmmgr.other a) t') =
    tmmgr.handle_to_offset_and_size (dtmmgr.arena (dtmmgr.other a) t).
Proof.
  intros Hj Hx Hax Htot. destruct (joint_at_rep _ _ _ _ Hj) as (_ & Hk & Hal & Hsl & Hsk & Hms & Hdiv).
  set (y := dtmmgr.arena (dtmmgr.other a) t) in *.
  pose proof (rep_wf _ _ Hx) as Hwfx. pose proof (wf_positive _ _ Hwfx) as Hpx.
  pose proof (rep_wf _ _ Hk) as Hwfk. pose proof (wf_positive _ _ Hwfk) as Hpk.
  pose proof (high_bounds _ Hpx). pose proof (high_bounds _ Hpk).
  pose proof (high_aligned _ _ Hwfx) as Hhx. rewrite Hax in Hhx.
  set (n := dtmmgr.mem_size t - high l').
  assert (tmmgr.alignDown n (tmmgr.align y) = n) as Hn.
  { apply alignDown_aligned; [apply (rep_align _ _ Hk)|lia|]. rewrite <- Hal. by apply Z.divide_sub_r. }
  assert (0 ≤ n < two64) as Hrange by lia.
  pose proof (resize_spec y k n Hk Hrange) as Hspec. unfold resize_result in Hspec. rewrite Hn in Hspec.
  destruct (resize_layout_total n k Hpk (wf_separate _ _ Hwfk)) as [Htk Hhk]; [lia|].
  destruct (tmmgr.resize n y) as [[[]|e] y'] eqn:Hrun; [|destruct Hspec as (_ & ? & _); lia].
  destruct Hspec as (_ & Hay & Hy').
  exists (dtmmgr.set_arena (dtmmgr.other a) y' (dtmmgr.set_arena a x t)), (resize_layout n k).
  assert (tmmgr.handle_to_offset_and_size y' = tmmgr.handle_to_offset_and_size y) as Hhandles.
  { apply map_eq. intros h. apply option_eq. intros [o m].
    rewrite (rep_handle _ _ Hy'), (rep_handle _ _ Hk). by apply resize_layout_used, wf_separate with (tmmgr.align y). }
  split.
  - unfold dtmmgr.resize_other. rewrite bind_get. unfold dtmmgr.on.
    assert (dtmmgr.arena (dtmmgr.other a) (dtmmgr.set_arena a x t) = y) as -> by (by destruct a).
    assert (dtmmgr.arena a (dtmmgr.set_arena a x t) = x) as -> by (by destruct a).
    assert (dtmmgr.mem_size (dtmmgr.set_arena a x t) = dtmmgr.mem_size t) as -> by (by destruct a).
    unfold tmmgr.highwater, w64. rewrite (rep_high _ _ Hx), Z.mod_small by lia. fold n. by rewrite Hrun.
  - split; [|destruct a; simpl; done].
    assert (tmmgr.align x | dtmmgr.mem_size t) as Hdx by (by rewrite Hax).
    destruct a; simpl in *; split; simpl; try done; try congruence; rewrite ?Hay, <- ?Hal; try done; lia.
Qed.

Lemma alloc_step_total h n o l l' : alloc_step h n o l l' → total l' = total l.
Proof.
  intros (l1 & m & l2 & -> & _ & Hle & _ & ->).
  rewrite !total_app, !total_cons, total_app, total_free_seg by lia. simpl. lia.
Qed.
Lemma free_step_total a h l l' : wf a l → free_step h l l' → total l' = total l.
Proof.
  intros Hwf (l1 & n & l2 & -> & Hl'). destruct (strip_right l1) as [k1 x] eqn:Hr, (strip_left l2) as [b k2] eqn:Hs.
  destruct (neighbourhood_split l1 h n l2 k1 x b k2) as (-> & Hx & Hb & _ & _ & _);
    [by apply (wf_positive a)|by apply (wf_separate a)|done..|].
  rewrite Hl', !total_app, total_cons. unfold neighbourhood.
  rewrite !total_app, total_cons, !total_free_seg by done. simpl. lia.
Qed.

Definition dt_admissible (align : Z) (x : dtmmgr.Arena_t * op) : Prop :=
  match x.2 with Resize _ => False | o => admissible align o end.
Definition dt_run (x : dtmmgr.Arena_t * op) (t : dtmmgr.type) : dtmmgr.type :=
  match x.2 with
  | Alloc h size => (dtmmgr.alloc h x.1 size t).2
  | Release h => (dtmmgr.free h x.1 t).2
  | Resize _ => t
  end.

Inductive dt_reachable : dtmmgr.type → Prop :=
| dt_reachable_make n a : valid_align a → 0 ≤ n < two64 → dt_reachable (dtmmgr.make n a)
| dt_reachable_run x t :
    dt_reachable t → dt_admissible (tmmgr.align (dtmmgr.up t)) x → dt_reachable (dt_run x t).

(** Where a block of an arena lies in the segment *)
Definition place (t : dtmmgr.type) (a : dtmmgr.Arena_t) (o n : Z) : Z :=
  match a with dtmmgr.ARENA_UP => o | dtmmgr.ARENA_DOWN => dtmmgr.mem_size t - (o + n) end.
Definition block_at (t : dtmmgr.type) (a : dtmmgr.Arena_t) (h o n : Z) : Prop :=
  tmmgr.handle_to_offset_and_size (dtmmgr.arena a t) !! h = Some (o, n).

(** The documented failures of an allocation, with the layout that explains
    them *)
Definition refused (t : tmmgr.type) (h size : Z) (e : tmmgr.error) : Prop :=
  let n := tmmgr.alignUp size (tmmgr.align t) in
  e = tmmgr.insufficient_memory h size n (tmmgr.mem_free t) ∨
  e = tmmgr.duplicate_handle h ∨
  e = tmmgr.insufficient_contiguous_memory h size n (tmmgr.mem_free t).

Lemma joint_alloc a l k t h size :
  joint_at a l k t → 0 < size → size + tmmgr.align (dtmmgr.arena a t) ≤ two64 →
  match dtmmgr.alloc h a size t with
  | (Ret (p, n), t') => dtmmgr.mem_size t' = dtmmgr.mem_size t ∧
      (∃ o, block_at t' a h o n ∧ p = place t' a o n) ∧
      tmmgr.handle_to_offset_and_size (dtmmgr.arena (dtmmgr.other a) t') =
      tmmgr.handle_to_offset_and_size (dtmmgr.arena (dtmmgr.other a) t) ∧
      ∃ l' k', joint_at a l' k' t'
  | (Throw e, t') => t' = t ∧ refused (dtmmgr.arena a t) h size e
  end.
Proof.
  intros Hj Hs1 Hs2. destruct (joint_at_rep _ _ _ _ Hj) as (Hl & _ & _ & Hsl & _ & Hms & _).
  pose proof (alloc_spec _ _ h size Hl Hs1 Hs2) as Hspec. unfold dtmmgr.alloc.
  unfold mbind at 1, M_bind at 1. unfold dtmmgr.on at 1.
  destruct (tmmgr.alloc h size (dtmmgr.arena a t)) as [[[o n]|e] x].
  2:{ destruct Hspec as [-> He]. split; [by destruct a, t|]. unfold refused.
      rewrite (rep_free _ _ Hl). naive_solver. }
  destruct Hspec as (Hn & _ & Hax & l' & Hstep & Hrep'). rewrite <- Hn in Hstep. apply alloc_step_total in Hstep as Htot.
  destruct (resize_other_spec a l k t x l' Hj Hrep' Hax Htot) as (t' & k' & Hrun & Hj' & Hx & Hm & Hother).
  unfold mbind at 1, M_bind at 1. rewrite Hrun.
  assert ((o, Used h n) ∈ segs 0 l') as Ho.
  { destruct Hstep as (l1 & m & l2 & _ & -> & _ & _ & ->).
    apply segs_middle_0. }
  assert (block_at t' a h o n) as Hb by (unfold block_at; rewrite Hx; by apply (rep_handle _ _ Hrep')).
  pose proof (wf_positive _ _ (rep_wf _ _ Hrep')) as Hpos.
  pose proof (segs_bounds _ _ _ _ Hpos Ho) as (? & ? & ?). simpl in *.
  pose proof (wf_positive _ _ (rep_wf _ _ (proj1 (proj2 (joint_at_rep _ _ _ _ Hj))))) as Hpk.
  pose proof (high_bounds _ Hpk).
  destruct a; simpl.
  - split; [done|]. split; [by exists o|]. split; [done|]. by exists l', k'.
  - rewrite bind_get. unfold dtmmgr.on, tmmgr.fhg_assert, w64. rewrite Hm.
    rewrite (Z.mod_small (o + n)), (proj2 (Z.leb_le _ _)), andb_false_r by lia.
    rewrite Z.mod_small by lia. unfold mbind, M_bind, mret, M_ret.
    replace (dtmmgr.set_arena dtmmgr.ARENA_DOWN (dtmmgr.arena dtmmgr.ARENA_DOWN t') t') with t' by (by destruct t').
    split; [done|]. split; [exists o; by rewrite <- Hm|]. split; [done|]. by exists l', k'.
Qed.

Lemma joint_free a l k t h :
  joint_at a l k t →
  match dtmmgr.free h a t with
  | (Ret _, t') => dtmmgr.mem_size t' = dtmmgr.mem_size t ∧
      tmmgr.handle_to_offset_and_size (dtmmgr.arena a t') !! h = None ∧
      tmmgr.handle_to_offset_and_size (dtmmgr.arena (dtmmgr.other a) t') =
      tmmgr.handle_to_offset_and_size (dtmmgr.arena (dtmmgr.other a) t) ∧
      ∃ l' k', joint_at a l' k' t'
  | (Throw e, t') => t' = t ∧ e = tmmgr.unknown_handle h ∧
      tmmgr.handle_to_offset_and_size (dtmmgr.arena a t) !! h = None
  end.
Proof.
  intros Hj. destruct (joint_at_rep _ _ _ _ Hj) as (Hl & _ & _ & _ & _ & _ & _).
  pose proof (free_spec _ _ h Hl) as Hspec. unfold dtmmgr.free.
  unfold mbind at 1, M_bind at 1. unfold dtmmgr.on at 1.
  destruct (tmmgr.free h (dtmmgr.arena a t)) as [[[]|e] x] eqn:Hrun.
  2:{ destruct Hspec as (-> & -> & Hout). split; [by destruct a, t|]. split; [done|].
      apply eq_None_not_Some. intros [[o n] Ho%(rep_handle _ _ Hl)]. apply Hout, (elem_of_handles _ _ 0). eauto. }
  destruct Hspec as (Hax & l' & Hstep & Hrep').
  pose proof (free_step_total _ _ _ _ (rep_wf _ _ Hl) Hstep) as Htot.
  destruct (resize_other_spec a l k t x l' Hj Hrep' Hax Htot) as (t' & k' & -> & Hj' & Hx & Hm & Hother).
  split; [done|]. split; [|split; [done|by exists l', k']]. rewrite Hx.
  apply eq_None_not_Some. intros [[o n] Ho%(rep_handle _ _ Hrep')].
  pose proof (wf_handles _ _ (rep_wf _ _ Hl)) as Hnd. destruct Hstep as (l1 & m & l2 & -> & Hl').
  destruct (strip_right l1) as [k1 y] eqn:Hr, (strip_left l2) as [b k2] eqn:Hs.
  destruct (neighbourhood_split l1 h m l2 k1 y b k2) as (Heq & _);
    [eapply wf_positive, rep_wf, Hl|eapply wf_separate, rep_wf, Hl|done..|].
  rewrite Heq in Hnd. assert (h ∈ handles l') as Hin by (apply (elem_of_handles _ _ 0); eauto).
  subst l'. unfold neighbourhood in Hnd. rewrite !handles_app, handles_free_seg in Hnd. simpl in Hnd.
  rewrite handles_free_seg in Hnd. simpl in Hnd. rewrite handles_app in Hin. simpl in Hin.
  apply NoDup_app in Hnd as (_ & Hd & [Hnd _]%NoDup_cons).
  apply elem_of_app in Hin as [Hin|Hin]; [by apply (Hd h Hin); left|done].
Qed.

Lemma dt_reachable_joint t : dt_reachable t → ∃ lu ld, joint lu ld t.
Proof.
  induction 1 as [n a Ha Hn|[a x] t _ (lu & ld & Hj) Hx].
  - pose proof (make_spec n a Ha Hn) as Hrep. destruct (alignDown_bounds n a Ha Hn) as (? & _ & Hdiv).
    set (d := tmmgr.alignDown n a) in *. pose proof (rep_high _ _ Hrep) as Hhigh.
    assert (tmmgr.high_water (tmmgr.make n a) = 0 ∧ tmmgr.align (tmmgr.make n a) = a ∧
            tmmgr.mem_size (tmmgr.make n a) = d) as (Hw & Hal & Hsz).
    { unfold tmmgr.make. fold d. unfold tmmgr.insert_free_segment. by destruct (0 <? d). }
    exists (free_seg d), (free_seg d). unfold dtmmgr.make, tmmgr.memsize. rewrite Hsz.
    split; simpl; try done; rewrite ?total_free_seg, ?Hal by lia; try lia; done.
  - assert (∃ l k, joint_at a l k t) as (l & k & Hja) by (destruct a; eauto).
    assert (tmmgr.align (dtmmgr.arena a t) = tmmgr.align (dtmmgr.up t)) as Hal.
    { destruct a; [done|]. symmetry. apply Hj. }
    assert (∀ l k t, joint_at a l k t → ∃ lu ld, joint lu ld t) as Hback.
    { intros l' k' t' ?. destruct a; eauto. }
    destruct x as [h size|h|size]; simpl in *; [..|done]; unfold dt_run; simpl.
    + destruct Hx as [H1 H2]. rewrite <- Hal in H2.
      pose proof (joint_alloc a l k t h size Hja H1 H2) as Hspec.
      destruct (dtmmgr.alloc h a size t) as [[[p n]|e] t']; simpl.
      * destruct Hspec as (_ & _ & _ & l' & k' & ?). eauto.
      * destruct Hspec as [-> _]. eauto.
    + pose proof (joint_free a l k t h Hja) as Hspec.
      destruct (dtmmgr.free h a t) as [[[]|e] t']; simpl.
      * destruct Hspec as (_ & _ & _ & l' & k' & ?). eauto.
      * destruct Hspec as [-> _]. eauto.
Qed.

(** All blocks of a well-formed pair of arenas lie inside the segment and are disjoint. *)
Lemma joint_disjoint lu ld t :
  joint lu ld t →
  (∀ a h o n, block_at t a h o n → 0 ≤ place t a o n ∧ 0 < n ∧ place t a o n + n ≤ dtmmgr.mem_size t) ∧
  (∀ a h o n a' h' o' n', block_at t a h o n → block_at t a' h' o' n' →
     (a = a' ∧ h = h') ∨ place t a o n + n ≤ place t a' o' n' ∨ place t a' o' n' + n' ≤ place t a o n).
Proof.
  intros [Hu Hd _ Hsu Hsd Hms _].
  pose proof (wf_positive _ _ (rep_wf _ _ Hu)) as Hpu. pose proof (wf_positive _ _ (rep_wf _ _ Hd)) as Hpd.
  assert (∀ h o n, block_at t dtmmgr.ARENA_UP h o n → 0 ≤ o ∧ 0 < n ∧ o + n ≤ high lu) as Bu.
  { intros h o n Ho%(rep_handle _ _ Hu). pose proof (high_used _ _ _ _ _ Hpu Ho).
    apply segs_bounds in Ho; [|done]. simpl in *. lia. }
  assert (∀ h o n, block_at t dtmmgr.ARENA_DOWN h o n → 0 ≤ o ∧ 0 < n ∧ o + n ≤ high ld) as Bd.
  { intros h o n Ho%(rep_handle _ _ Hd). pose proof (high_used _ _ _ _ _ Hpd Ho).
    apply segs_bounds in Ho; [|done]. simpl in *. lia. }
  pose proof (high_bounds _ Hpu). pose proof (high_bounds _ Hpd). split.
  - intros [] h o n Hb; simpl; [apply Bu in Hb|apply Bd in Hb]; lia.
  - intros a h o n a' h' o' n' Hb Hb'. destruct a, a'; simpl.
    + apply (rep_handle _ _ Hu) in Hb, Hb'.
      destruct (segs_disjoint _ _ _ _ _ _ Hpu Hb Hb') as [[_ [= -> _]]|?]; auto.
    + right. apply Bu in Hb. apply Bd in Hb'. lia.
    + right. apply Bd in Hb. apply Bu in Hb'. lia.
    + apply (rep_handle _ _ Hd) in Hb, Hb'.
      destruct (segs_disjoint _ _ _ _ _ _ Hpd Hb Hb') as [[_ [= -> _]]|Hdis]; [by left|right].
      simpl in Hdis. lia.
Qed.

(** C22: The two arenas of a segment never overlap: all blocks, of whichever
    arena, lie inside the segment and are disjoint from each other. *)
Theorem arenas_disjoint t :
  dt_reachable t →
  (∀ a h o n, block_at t a h o n → 0 ≤ place t a o n ∧ 0 < n ∧ place t a o n + n ≤ dtmmgr.mem_size t) ∧
  (∀ a h o n a' h' o' n', block_at t a h o n → block_at t a' h' o' n' →
     (a = a' ∧ h = h') ∨ place t a o n + n ≤ place t a' o' n' ∨ place t a' o' n' + n' ≤ place t a o n).
Proof. intros (lu & ld & Hj)%dt_reachable_joint. by apply (joint_disjoint lu ld). Qed.

(** C23: An operation on an arena never fails because of the other arena:
    allocation returns the place of the new block or throws one of the three
    documented refusals of the arena itself, release throws only for unknown
    handles; the blocks of the other arena stay, and a failed operation
    changes nothing. *)
Theorem dtmmgr_results t a h size :
  dt_reachable t → dt_admissible (tmmgr.align (dtmmgr.up t)) (a, Alloc h size) →
  match dtmmgr.alloc h a size t with
  | (Ret (p, n), t') => (∃ o, block_at t' a h o n ∧ p = place t' a o n) ∧
      (∀ h o n, block_at t' (dtmmgr.other a) h o n ↔ block_at t (dtmmgr.other a) h o n)
  | (Throw e, t') => t' = t ∧ refused (dtmmgr.arena a t) h size e
  end ∧
  match dtmmgr.free h a t with
  | (Ret _, t') => (∀ o n, ¬ block_at t' a h o n) ∧
      (∀ h o n, block_at t' (dtmmgr.other a) h o n ↔ block_at t (dtmmgr.other a) h o n)
  | (Throw e, t') => t' = t ∧ e = tmmgr.unknown_handle h ∧ ∀ o n, ¬ block_at t a h o n
  end.
Proof.
  intros (lu & ld & Hj)%dt_reachable_joint [H1 H2].
  assert (∃ l k, joint_at a l k t) as (l & k & Hja) by (destruct a; eauto).
  assert (tmmgr.align (dtmmgr.arena a t) = tmmgr.align (dtmmgr.up t)) as Hal.
  { destruct a; [done|]. symmetry. apply Hj. }
  rewrite <- Hal in H2. unfold block_at. split.
  - pose proof (joint_alloc a l k t h size Hja H1 H2) as Hspec.
    destruct (dtmmgr.alloc h a size t) as [[[p n]|e] t']; [|done].
    destruct Hspec as (_ & Hb & Hother & _). split; [done|]. intros. by rewrite Hother.
  - pose proof (joint_free a l k t h Hja) as Hspec.
    destruct (dtmmgr.free h a t) as [[[]|e] t'].
    + destruct Hspec as (_ & Hn & Hother & _). split; [intros; by rewrite Hn|]. intros. by rewrite Hother.
    + destruct Hspec as (-> & -> & Hn). split; [done|]. split; [done|]. intros. by rewrite Hn.
Qed.
End allocator.

(** ** Examples *)
Definition checked : AssertMode := {| assert_throws := true |}.

(** Blocks of 16, 80 and 8 bytes, the first one released again *)
Definition example_state : tmmgr.type :=
  @run canonical_multiset checked (Release 7)
    (@run canonical_multiset checked (Alloc 9 8)
      (@run canonical_multiset checked (Alloc 8 73)
        (@run canonical_multiset checked (Alloc 7 10) (tmmgr.make 130 8)))).

Lemma example_reachable : @reachable canonical_multiset checked example_state.
Proof.
  apply reachable_run; [|exact I]. do 3 (apply reachable_run; [|vm_compute; by split]).
  apply reachable_make; [by exists 3|by vm_compute].
Qed.

Lemma tmmgr_implements_layout_witness :
  ∃ l, rep example_state l ∧
    alloc_result example_state l 5 17 (@tmmgr.alloc canonical_multiset checked 5 17 example_state).
Proof.
  destruct (@tmmgr_implements_layout canonical_multiset checked example_state example_reachable)
    as (l & Hrep & Halloc & _).
  exists l. split; [exact Hrep|]. apply Halloc. vm_compute. by split.
Defined.

Lemma blocks_disjoint_witness :
  tmmgr.handle_to_offset_and_size example_state !! 8 = Some (16, 80) ∧
  tmmgr.mem_free example_state + used_bytes example_state = 128.
Proof.
  split; [by vm_compute|].
  apply (@blocks_disjoint canonical_multiset checked example_state example_reachable).
Defined.

Lemma alloc_free_witness :
  let t' := (@tmmgr.alloc canonical_multiset checked 5 9 example_state).2 in
  tmmgr.mem_free t' = 24 ∧ @tmmgr.free checked 5 t' = (Ret tt, example_state).
Proof.
  split; [by vm_compute|].
  apply (@alloc_free canonical_multiset checked example_state 5 9 (0, 16)); [exact example_reachable|..].
  - vm_compute. by split.
  - vm_compute. reflexivity.
Defined.

(** A block in each arena *)
Definition example_arenas : dtmmgr.type :=
  @dt_run canonical_multiset checked (dtmmgr.ARENA_DOWN, Alloc 2 30)
    (@dt_run canonical_multiset checked (dtmmgr.ARENA_UP, Alloc 1 50) (dtmmgr.make 100 1)).

Lemma example_dt_reachable : @dt_reachable canonical_multiset checked example_arenas.
Proof.
  do 2 (apply dt_reachable_run; [|vm_compute; by split]).
  apply dt_reachable_make; [by exists 0|by vm_compute].
Qed.

Lemma arenas_disjoint_witness :
  block_at example_arenas dtmmgr.ARENA_UP 1 0 50 ∧ block_at example_arenas dtmmgr.ARENA_DOWN 2 0 30 ∧
  place example_arenas dtmmgr.ARENA_DOWN 0 30 = 70 ∧
  0 ≤ place example_arenas dtmmgr.ARENA_DOWN 0 30 ∧ 0 < 30 ∧
  place example_arenas dtmmgr.ARENA_DOWN 0 30 + 30 ≤ dtmmgr.mem_size example_arenas.
Proof.
  do 3 (split; [vm_compute; reflexivity|]).
  destruct (@arenas_disjoint canonical_multiset checked example_arenas example_dt_reachable) as [Hin _].
  apply (Hin dtmmgr.ARENA_DOWN 2). vm_compute. reflexivity.
Defined.

Lemma dtmmgr_results_witness :
  (@dtmmgr.alloc canonical_multiset checked 3 dtmmgr.ARENA_UP 20 example_arenas).1 = Ret (50, 20) ∧
  (@dtmmgr.free checked 3 dtmmgr.ARENA_UP example_arenas).2 = example_arenas.
Proof.
  split; [vm_compute; reflexivity|].
  destruct (@dtmmgr_results canonical_multiset checked example_arenas dtmmgr.ARENA_UP 3 20 example_dt_reachable)
    as [_ Hfree]; [vm_compute; by split|].
  revert Hfree. assert (is_ret (@dtmmgr.free checked 3 dtmmgr.ARENA_UP example_arenas).1 = false) as Hthrow
    by (vm_compute; reflexivity).
  destruct (@dtmmgr.free checked 3 dtmmgr.ARENA_UP example_arenas) as [[[]|e] t']; [done|]. by intros (-> & _).
Defined.
End Allocator.
