(* ===== verification/SdpaJob.v ===== *)
(** * Jobs of an agent

    The state machine of [sdpa/daemon/Job.hpp] and the operations of
    [sdpa/daemon/Job.cpp].  A job carries an activity and, in the end, a
    result: activities are an arbitrary type here. *)

From S2P Require Import Prelude Value Token Function.

Module job.

(** [sdpa::status::code] *)
Inductive code : Type := FINISHED | FAILED | CANCELED | PENDING | RUNNING | CANCELING.
#[global] Instance code_eq_dec : EqDecision code.
Proof. solve_decision. Defined.

Definition is_terminal (c : code) : bool :=
  match c with FINISHED | FAILED | CANCELED => true | _ => false end.
Definition show (c : code) : string :=
  match c with
  | PENDING => "SDPA::Pending" | RUNNING => "SDPA::Running" | FINISHED => "SDPA::Finished"
  | FAILED => "SDPA::Failed" | CANCELED => "SDPA::Canceled" | CANCELING => "SDPA::Canceling"
  end.

(** the states and events of [JobFSM_] *)
Inductive state : Type :=
| s_pending | s_running | s_finished | s_failed | s_canceling | s_canceled.
Inductive event : Type :=
| e_begin_cancel | e_canceled | e_dispatch | e_failed | e_finished | e_reschedule.
#[global] Instance state_eq_dec : EqDecision state.
Proof. solve_decision. Defined.

Definition initial_state : state := s_pending.

(** [transition_table]: [_row] changes the state, [_irow] ignores the event *)
Definition transition_table (s : state) (e : event) : option state :=
  match s, e with
  | s_pending, e_begin_cancel => Some s_canceling
  | s_pending, e_dispatch => Some s_running
  | s_pending, e_failed => Some s_failed
  | s_pending, e_finished => Some s_finished
  | s_pending, e_reschedule => Some s_pending
  | s_running, e_begin_cancel => Some s_canceling
  | s_running, e_dispatch => Some s_running
  | s_running, e_failed => Some s_failed
  | s_running, e_finished => Some s_finished
  | s_running, e_reschedule => Some s_pending
  | s_finished, e_finished => Some s_finished
  | s_failed, e_failed => Some s_failed
  | s_canceling, e_begin_cancel => Some s_canceling
  | s_canceling, e_canceled => Some s_canceled
  | s_canceling, e_dispatch => Some s_canceling
  | s_canceling, e_failed => Some s_canceled
  | s_canceling, e_finished => Some s_canceled
  | s_canceled, e_canceled => Some s_canceled
  | s_canceled, e_failed => Some s_canceled
  | s_canceled, e_finished => Some s_canceled
  | _, _ => None
  end.

Definition state_code (s : state) : code :=
  match s with
  | s_pending => PENDING
  | s_running => RUNNING
  | s_finished => FINISHED
  | s_failed => FAILED
  | s_canceling => CANCELING
  | s_canceled => CANCELED
  end.

(** The state machine library calls [no_transition], which throws, when the
    table has no row; whether the exception leaves [process_event] or ends in
    [exception_caught] of the library depends on how it is configured. *)
Class StateMachine := { rethrows : bool }.

Inductive source_t : Type := job_source_wfe | job_source_master (master : nat) | job_source_client.
Inductive handler_t : Type := job_handler_wfe | job_handler_worker.

Section job.
Context {activity_t : Type}.

Record type : Type := mk {
  current_state : state;
  activity : activity_t;
  id : string;
  source : source_t;
  handler : handler_t;
  error_message : string;
  result : activity_t
}.

(** [Job::Job]; [no_activity] is the default constructed activity *)
Definition make (no_activity : activity_t) (id : string) (a : activity_t) (s : source_t) (h : handler_t) : type :=
  mk initial_state a id s h "" no_activity.

Definition getStatus (j : type) : code := state_code (current_state j).

Definition set_state (s : state) (j : type) : type :=
  mk s (activity j) (id j) (source j) (handler j) (error_message j) (result j).
Definition set_error_message (m : string) (j : type) : type :=
  mk (current_state j) (activity j) (id j) (source j) (handler j) m (result j).
Definition set_result (r : activity_t) (j : type) : type :=
  mk (current_state j) (activity j) (id j) (source j) (handler j) (error_message j) r.

Context `{StateMachine}.

(** the message of [no_transition] without the name of the event's type *)
Definition process_event (e : event) : M type exn unit :=
  get ≫= λ j : type,
  match transition_table (current_state j) e with
  | Some s => modify (set_state s)
  | None =>
      if rethrows then throw (runtime_error ("no transition from state " +:+ show (getStatus j)))
      else mret tt
  end.

Definition CancelJob : M type exn unit := process_event e_begin_cancel.
Definition CancelJobAck : M type exn unit := process_event e_canceled.
Definition Dispatch : M type exn unit := process_event e_dispatch.
Definition JobFailed (message : string) : M type exn unit :=
  process_event e_failed ≫= λ _, modify (set_error_message message).
Definition JobFinished (r : activity_t) : M type exn unit :=
  process_event e_finished ≫= λ _, modify (set_result r).
Definition Reschedule : M type exn unit := process_event e_reschedule.

(** ** Life of a job *)
Inductive call : Type :=
| Cancel | CancelAck | Dispatched | Failed (m : string) | Finished (r : activity_t) | Rescheduled.
Definition perform (c : call) : M type exn unit :=
  match c with
  | Cancel => CancelJob
  | CancelAck => CancelJobAck
  | Dispatched => Dispatch
  | Failed m => JobFailed m
  | Finished r => JobFinished r
  | Rescheduled => Reschedule
  end.
Definition perform_all (cs : list call) (j : type) : type := foldl (λ j c, (perform c j).2) j cs.

(** The calls that can move a job on *)
Definition after (j : type) (c : call) : code := getStatus (perform c j).2.

Lemma process_event_state e j :
  current_state (process_event e j).2 = default (current_state j) (transition_table (current_state j) e).
Proof.
  unfold process_event. rewrite bind_get. destruct (transition_table _ _); [done|]. by destruct rethrows.
Qed.
Definition event_of (c : call) : event :=
  match c with
  | Cancel => e_begin_cancel | CancelAck => e_canceled | Dispatched => e_dispatch
  | Failed _ => e_failed | Finished _ => e_finished | Rescheduled => e_reschedule
  end.
Lemma perform_state c j :
  current_state (perform c j).2 = default (current_state j) (transition_table (current_state j) (event_of c)).
Proof.
  destruct c; simpl; try apply process_event_state; unfold JobFailed, JobFinished;
    rewrite <- process_event_state; unfold mbind, M_bind; by destruct (process_event _ j) as [[[]|]].
Qed.

(** A job that has finished, failed or been canceled stays so, whatever is
    called on it; a job that is being canceled can only become canceled. *)
Theorem terminal_states_stay (j : type) (cs : list call) :
  (is_terminal (getStatus j) = true → getStatus (perform_all cs j) = getStatus j) ∧
  (getStatus j = CANCELING → getStatus (perform_all cs j) ∈ [CANCELING; CANCELED]).
Proof.
  unfold getStatus, perform_all. revert j. induction cs as [|c cs IH]; intros j; simpl.
  - split; [done|]. intros ->. by left.
  - specialize (IH (perform c j).2). rewrite perform_state in IH. destruct IH as [IH1 IH2].
    destruct (current_state j) eqn:Hs; simpl in *; split; try done; intros _.
    + destruct c; simpl in *; by apply IH1.
    + destruct c; simpl in *; by apply IH1.
    + destruct c; simpl in *; try (by apply IH2); rewrite IH1; done || (right; by left).
    + destruct c; simpl in *; by apply IH1.
Qed.

(** A job that is being canceled cannot be rescheduled: there is no row. *)
Lemma reschedule_canceling (j : type) :
  getStatus j = CANCELING → rethrows = true → is_ret (Reschedule j).1 = false.
Proof.
  unfold getStatus, Reschedule, process_event. rewrite bind_get.
  destruct (current_state j); try done. simpl. by intros _ ->.
Qed.
End job.
Arguments type : clear implicits.

Lemma terminal_states_stay_witness :
  let no_retry : StateMachine := {| rethrows := true |} in
  let j := (@JobFailed unit no_retry "lost" (make tt "job-1" tt job_source_wfe job_handler_worker)).2 in
  getStatus j = FAILED ∧
  getStatus (@perform_all unit no_retry [Rescheduled; Finished tt; Cancel] j) = FAILED.
Proof.
  split; [reflexivity|].
  apply (@terminal_states_stay unit {| rethrows := true |}
           (@JobFailed unit {| rethrows := true |} "lost" (make tt "job-1" tt job_source_wfe job_handler_worker)).2).
  reflexivity.
Defined.

End job.
