(* ===== verification/SdpaWorker.v ===== *)
(** * Workers, capabilities and reservations

    [sdpa/capability.hpp], [util-generic/refcounted_set.hpp],
    [sdpa/requirements_and_preferences.hpp], [sdpa/daemon/Worker.cpp] and
    [sdpa/daemon/scheduler/Reservation.cpp].  Costs and times are doubles;
    what [fhg::util::now] returns is an argument. *)

From Stdlib Require Import SpecFloat.
From S2P Require Import Prelude Value Token Function SdpaJob.

Abbreviation double := spec_float.
Definition dadd : double → double → double := Float.add Float.binary64.
Definition dsub : double → double → double := Float.sub Float.binary64.
Definition dmul : double → double → double := Float.mul Float.binary64.
Definition ddiv : double → double → double := Float.div Float.binary64.
Definition dlt : double → double → bool := SFltb.
Definition of_Z : Z → double := Float.of_Z Float.binary64.
Definition of_nat (n : nat) : double := of_Z (Z.of_nat n).

Abbreviation job_id_t := string.
Abbreviation worker_id_t := string.

(** [fhg_assert] in code that throws standard exceptions *)
Definition fhg_assert `{AssertMode} {S} (condition : bool) (message : string) : M S exn unit :=
  if assert_throws && negb condition then throw (logic_error message) else mret tt.

(** ** Ordered containers

    [std::set<std::string>] and maps with string keys iterate in the order of
    the keys. *)
Definition string_le (s t : string) : Prop := Order.string_cmp s t ≠ Gt.
#[global] Instance string_le_dec : RelDecision string_le.
Proof. intros s t. unfold string_le. destruct (Order.string_cmp s t); [left|left|right]; congruence. Defined.
Definition ordered (X : gset string) : list string := merge_sort string_le (elements X).

Lemma elem_of_ordered X x : x ∈ ordered X ↔ x ∈ X.
Proof. unfold ordered. rewrite merge_sort_Permutation. apply elem_of_elements. Qed.
Lemma NoDup_ordered X : NoDup (ordered X).
Proof. unfold ordered. rewrite merge_sort_Permutation. apply NoDup_elements. Qed.

(** ** Capabilities

    compared by [uuid_] only *)
Module capability.

Record type : Type := mk { name : string; depth : Z; owner : string; uuid : string }.

Definition with_increased_depth (c : type) : type :=
  mk (name c) (w64 (depth c + 1)) (owner c) (uuid c).

(** [std::set<Capability>]: indexed by the part that is compared *)
Abbreviation set := (gmap string type).
Definition find (c : type) (s : set) : option type := s !! uuid c.
Definition insert (c : type) (s : set) : set := (emplace (uuid c) c s).1.
Definition erase (c : type) (s : set) : set := delete (uuid c) s.
(** in the order of the [uuid]s *)
Definition members (s : set) : list type := omap (λ u, s !! u) (ordered (dom s)).

End capability.

(** ** [fhg::util::refcounted_set<std::string>] *)
Module refcounted_set.

Record type : Type := mk { xs : gset string; count : gmap string Z }.
Definition empty : type := mk ∅ ∅.
Definition emplace (x : string) (s : type) : type :=
  mk ({[x]} ∪ xs s) (<[x := w64 (default 0%Z (count s !! x) + 1)]> (count s)).
Definition erase (x : string) : M type exn unit :=
  get ≫= λ s : type,
  match count s !! x with
  | None => throw out_of_range
  | Some n =>
      let n := w64 (n - 1) in
      if (n =? 0)%Z then put (mk (xs s ∖ {[x]}) (delete x (count s)))
      else put (mk (xs s) (<[x := n]> (count s)))
  end.
Definition contains (x : string) (s : type) : bool := bool_decide (x ∈ xs s).

End refcounted_set.

(** ** Requirements and preferences *)
Module requirements.

Record requirement_t : Type := { value : string; is_mandatory : bool }.

Record type : Type := mk {
  reqs : list requirement_t;
  num_worker : option Z;
  transfer_cost : string → double;
  computational_cost : double;
  shared_memory_amount_required : Z;
  preferences : list string
}.
Definition numWorkers (r : type) : Z := default 1%Z (num_worker r).

(** [schedule_data] and [Requirements_and_preferences] check their arguments. *)
Definition make reqs num_worker transfer_cost computational_cost shm prefs : outcome exn type :=
  if decide (num_worker = Some 0%Z) then Throw (logic_error "schedule_data: num_worker == 0UL")
  else if decide (NoDup prefs) then
    Ret (mk reqs num_worker transfer_cost computational_cost shm prefs)
  else Throw (runtime_error "the preferences must be distinct!").

End requirements.

(** ** Workers *)
Module Worker.

Record type : Type := mk {
  cost_assigned_jobs : double;
  capabilities : capability.set;
  capability_names : refcounted_set.type;
  allocated_shared_memory_size : Z;
  children_allowed : bool;
  hostname : string;
  last_time_idle : double;
  pending : gset job_id_t;
  submitted : gset job_id_t;
  acknowledged : gset job_id_t;
  reserved : bool;
  backlog_full : bool
}.

(** the names as [std::set<std::string>] *)
Definition names (w : type) : gset string := refcounted_set.xs (capability_names w).

Definition set_cost f w := mk (f (cost_assigned_jobs w)) (capabilities w) (capability_names w)
  (allocated_shared_memory_size w) (children_allowed w) (hostname w) (last_time_idle w)
  (pending w) (submitted w) (acknowledged w) (reserved w) (backlog_full w).
Definition set_capabilities f w := mk (cost_assigned_jobs w) (f (capabilities w)) (capability_names w)
  (allocated_shared_memory_size w) (children_allowed w) (hostname w) (last_time_idle w)
  (pending w) (submitted w) (acknowledged w) (reserved w) (backlog_full w).
Definition set_capability_names f w := mk (cost_assigned_jobs w) (capabilities w) (f (capability_names w))
  (allocated_shared_memory_size w) (children_allowed w) (hostname w) (last_time_idle w)
  (pending w) (submitted w) (acknowledged w) (reserved w) (backlog_full w).
Definition set_last_time_idle t w := mk (cost_assigned_jobs w) (capabilities w) (capability_names w)
  (allocated_shared_memory_size w) (children_allowed w) (hostname w) t
  (pending w) (submitted w) (acknowledged w) (reserved w) (backlog_full w).
Definition set_jobs p s a w := mk (cost_assigned_jobs w) (capabilities w) (capability_names w)
  (allocated_shared_memory_size w) (children_allowed w) (hostname w) (last_time_idle w)
  p s a (reserved w) (backlog_full w).
Definition set_reserved b w := mk (cost_assigned_jobs w) (capabilities w) (capability_names w)
  (allocated_shared_memory_size w) (children_allowed w) (hostname w) (last_time_idle w)
  (pending w) (submitted w) (acknowledged w) b (backlog_full w).
Definition set_backlog_full b w := mk (cost_assigned_jobs w) (capabilities w) (capability_names w)
  (allocated_shared_memory_size w) (children_allowed w) (hostname w) (last_time_idle w)
  (pending w) (submitted w) (acknowledged w) (reserved w) b.

Definition make (now : double) (capabilities : capability.set) (shm : Z) (children_allowed : bool)
    (hostname : string) : type :=
  mk (S754_zero false) capabilities
    (foldl (λ s c, refcounted_set.emplace (capability.name c) s) refcounted_set.empty
       (capability.members capabilities))
    shm children_allowed hostname now ∅ ∅ ∅ false false.

Definition is_terminal (w : type) : bool := negb (children_allowed w).
Definition has_pending_jobs (w : type) : bool := negb (bool_decide (pending w = ∅)).
Definition has_running_jobs (w : type) : bool :=
  negb (bool_decide (submitted w = ∅)) || negb (bool_decide (acknowledged w = ∅)).
Definition isReserved (w : type) : bool := reserved w.
Definition hasCapability (c : string) (w : type) : bool :=
  refcounted_set.contains c (capability_names w).
Definition stealing_allowed (w : type) : bool :=
  (has_pending_jobs w && has_running_jobs w) || bool_decide (1 < size (pending w)).

Abbreviation W := (M type exn).

Definition assign (jobId : job_id_t) (cost : double) : W unit :=
  modify (λ w, set_jobs ({[jobId]} ∪ pending w) (submitted w) (acknowledged w) w) ≫= λ _,
  modify (set_cost (λ c, dadd c cost)).

Definition submit (jobId : job_id_t) : W unit :=
  get ≫= λ w : type,
  if decide (jobId ∈ pending w) then
    modify (set_jobs (pending w ∖ {[jobId]}) ({[jobId]} ∪ submitted w) (acknowledged w)) ≫= λ _,
    if children_allowed w then mret tt else modify (set_reserved true)
  else throw (runtime_error ("subnmit: no pending job with the id " +:+ jobId +:+ " was found!")).

Definition acknowledge (job_id : job_id_t) : W unit :=
  get ≫= λ w : type,
  if decide (job_id ∈ submitted w) then
    modify (set_jobs (pending w) (submitted w ∖ {[job_id]}) ({[job_id]} ∪ acknowledged w))
  else throw (runtime_error "acknowledge: job not in submitted queue").

Definition delete_submitted_job (now : double) (job_id : job_id_t) (cost : double) : W unit :=
  modify (λ w, set_jobs (pending w) (submitted w ∖ {[job_id]}) (acknowledged w ∖ {[job_id]}) w) ≫= λ _,
  modify (set_last_time_idle now) ≫= λ _,
  get ≫= λ w : type,
  (if children_allowed w then mret tt else modify (set_reserved false)) ≫= λ _,
  modify (set_cost (λ c, dsub c cost)).

Definition delete_pending_job (job_id : job_id_t) (cost : double) : W unit :=
  get ≫= λ w : type,
  if decide (job_id ∈ pending w) then
    modify (set_jobs (pending w ∖ {[job_id]}) (submitted w) (acknowledged w)) ≫= λ _,
    modify (set_cost (λ c, dsub c cost))
  else throw (runtime_error ("Could not remove the pending job " +:+ job_id)).

(** the loop bodies of [addCapabilities] and [removeCapabilities] *)
Definition add_capability (modified : bool) (c : capability.type) : W bool :=
  get ≫= λ w : type,
  match capability.find c (capabilities w) with
  | None =>
      modify (set_capabilities (capability.insert c)) ≫= λ _,
      modify (set_capability_names (refcounted_set.emplace (capability.name c))) ≫= λ _,
      mret true
  | Some old =>
      if (capability.depth c <? capability.depth old)%Z then
        modify (set_capabilities (capability.erase old)) ≫= λ _,
        modify (set_capabilities (capability.insert c)) ≫= λ _,
        mret true
      else mret modified
  end.
Definition addCapabilities (recv : capability.set) : W bool :=
  foldl (λ m c, m ≫= λ b, add_capability b c) (mret false) (capability.members recv).

Definition erase_name (x : string) : W unit :=
  λ w, let '(r, s) := refcounted_set.erase x (capability_names w) in (r, set_capability_names (λ _, s) w).
Definition remove_capability (removed : nat) (c : capability.type) : W nat :=
  get ≫= λ w : type,
  let removed := (removed + if decide (is_Some (capability.find c (capabilities w))) then 1 else 0)%nat in
  modify (set_capabilities (capability.erase c)) ≫= λ _,
  erase_name (capability.name c) ≫= λ _,
  mret removed.
Definition removeCapabilities (cpbset : capability.set) : W bool :=
  foldl (λ m c, m ≫= λ n, remove_capability n c) (mret 0%nat) (capability.members cpbset) ≫= λ removed,
  mret (negb (bool_decide (removed = 0))).

End Worker.

(** ** Reservations *)
Module Reservation.
Section reservation.
Context {activity_t : Type}.

(** [terminal_state] and [job_result_type] *)
Inductive terminal_state : Type :=
| s_finished (result : activity_t)
| s_failed (message : string)
| s_canceled.

Record type : Type := mk {
  workers : gset worker_id_t;
  implementation : option string;
  preferences : list string;
  cost : double;
  individual_results : gmap worker_id_t terminal_state;
  last_success : activity_t
}.

(** [no_activity] is the default constructed activity of [last_success] *)
Definition make (no_activity : activity_t) (ws : gset worker_id_t) (impl : option string)
    (prefs : list string) (cost : double) : type :=
  mk ws impl prefs cost ∅ no_activity.

Definition replace_worker (current_worker new_worker : worker_id_t) (impl : option string)
    (supports_implementation : string → bool) : M type exn unit :=
  get ≫= λ r : type,
  if negb (bool_decide (current_worker ∈ workers r)) then
    throw (runtime_error ("Asked to replace the non-existent worker " +:+ current_worker))
  else
    (match preferences r, impl with
     | [], _ => mret tt
     | _, None => throw (logic_error ("The implementation cannot be boost::none " +:+
                                      "if the set of preferences is not empty!"))
     | prefs, Some i =>
         if decide (i ∈ prefs) then mret tt
         else throw (logic_error ("The implementation must be set to one of " +:+
                                  "the preferences stored in the reservation!"))
     end) ≫= λ _,
    match impl with
    | Some i =>
        if supports_implementation i then mret tt
        else throw (runtime_error
               ("Cannot replace worker " +:+ current_worker +:+ " with worker " +:+ new_worker +:+ ": "
                +:+ new_worker +:+ " does not support the implementation " +:+ i +:+ "."))
    | None => mret tt
    end ≫= λ _,
    put (mk (({[new_worker]} ∪ workers r) ∖ {[current_worker]}) impl (preferences r) (cost r)
            (individual_results r) (last_success r)).

Definition store_result (worker : worker_id_t) (result : terminal_state) : M type exn unit :=
  get ≫= λ r : type,
  match individual_results r !! worker with
  | Some _ => throw (logic_error "store_result: second result")
  | None =>
      put (mk (workers r) (implementation r) (preferences r) (cost r)
              (<[worker := result]> (individual_results r))
              (match result with s_finished a => a | _ => last_success r end))
  end.

Definition mark_as_canceled_if_no_result_stored_yet (worker : worker_id_t) (r : type) : type :=
  mk (workers r) (implementation r) (preferences r) (cost r)
     (emplace worker s_canceled (individual_results r)).1 (last_success r).

Definition get_aggregated_results_if_all_terminated (r : type) :
    option (gmap worker_id_t terminal_state * activity_t) :=
  if decide (size (individual_results r) = size (workers r))
  then Some (individual_results r, last_success r) else None.

(** the workers that [apply_to_workers_without_result] visits, in order *)
Definition workers_without_result (r : type) : list worker_id_t :=
  filter (λ w, individual_results r !! w = None) (ordered (workers r)).
Definition apply_to_workers_without_result {S} (fun_ : worker_id_t → M S exn unit) (r : type) :
    M S exn bool :=
  for_each fun_ (workers_without_result r) ≫= λ _,
  mret (negb (bool_decide (workers_without_result r = []))).

Definition is_canceled (r : type) : bool :=
  existsb (λ x, match x.2 with s_canceled => true | _ => false end) (map_to_list (individual_results r)).
End reservation.
Arguments terminal_state : clear implicits.
Arguments type : clear implicits.
End Reservation.
