(* ===== verification/SdpaManager.v ===== *)
(** * The worker manager of an agent

    [sdpa/daemon/WorkerManager.cpp]: which workers there are, their classes of
    equal capabilities, the choice of workers for a job and the stealing of
    pending jobs.  Every member function holds the mutex of the manager, so it
    is one step. *)

From Stdlib Require Import SpecFloat.
From S2P Require Import Prelude Value Token Function SdpaJob SdpaWorker.

(** ** [std::priority_queue]

    [top] is a greatest element if the comparison is a strict weak order; which
    one, is not specified.  [pq_pop] gives the top and the remaining elements. *)
Definition strict_weak_on {A} (comp : A → A → bool) (l : list A) : Prop :=
  (∀ x, x ∈ l → comp x x = false) ∧
  (∀ x y z, x ∈ l → y ∈ l → z ∈ l → comp x y = true → comp y z = true → comp x z = true) ∧
  (∀ x y z, x ∈ l → y ∈ l → z ∈ l → comp x y = false → comp y z = false → comp x z = false).

Class PriorityQueue := {
  pq_pop : ∀ {A : Type}, (A → A → bool) → list A → option (A * list A);
  pq_pop_perm : ∀ {A} (comp : A → A → bool) l x l', pq_pop comp l = Some (x, l') → l ≡ₚ x :: l';
  pq_pop_none : ∀ {A} (comp : A → A → bool) l, pq_pop comp l = None → l = [];
  pq_pop_max : ∀ {A} (comp : A → A → bool) l x l',
    pq_pop comp l = Some (x, l') → strict_weak_on comp l → ∀ y, y ∈ l → comp x y = false
}.

(** One admissible implementation: the first greatest element *)
Fixpoint pop_greatest {A} (comp : A → A → bool) (l : list A) : option (A * list A) :=
  match l with
  | [] => None
  | x :: l =>
      match pop_greatest comp l with
      | None => Some (x, [])
      | Some (y, l') => if comp x y then Some (y, x :: l') else Some (x, y :: l')
      end
  end.

Lemma pop_greatest_perm {A} (comp : A → A → bool) l x l' :
  pop_greatest comp l = Some (x, l') → l ≡ₚ x :: l'.
Proof.
  revert x l'. induction l as [|a l IH]; intros x l'; simpl; [done|].
  destruct (pop_greatest comp l) as [[y k]|] eqn:Hpop.
  - specialize (IH y k eq_refl). rewrite IH. destruct (comp a y); intros [= <- <-]; [|done].
    apply perm_swap.
  - intros [= <- <-]. destruct l as [|b l]; [done|]. simpl in Hpop.
    destruct (pop_greatest comp l) as [[]|]; [|done]. by destruct (comp b a0).
Qed.
Lemma strict_weak_on_mono {A} (comp : A → A → bool) l k :
  (∀ x, x ∈ k → x ∈ l) → strict_weak_on comp l → strict_weak_on comp k.
Proof. intros Hkl (H1 & H2 & H3). split_and!; eauto 10. Qed.
Lemma pop_greatest_max {A} (comp : A → A → bool) l x l' :
  pop_greatest comp l = Some (x, l') → strict_weak_on comp l → ∀ y, y ∈ l → comp x y = false.
Proof.
  revert x l'. induction l as [|a l IH]; intros x l'; simpl; [done|]. intros Hpop Hsw y Hy.
  pose proof Hsw as (Hirr & Htrans & Hneg).
  assert (strict_weak_on comp l) as Hswl.
  { eapply strict_weak_on_mono; [|exact Hsw]. intros. by right. }
  destruct (pop_greatest comp l) as [[z k]|] eqn:Hl.
  - specialize (IH z k eq_refl Hswl). pose proof (pop_greatest_perm _ _ _ _ Hl) as Hp.
    assert (z ∈ l) as Hz by (rewrite Hp; by left).
    assert (a ∈ a :: l) as Ha by left. assert (z ∈ a :: l) as Hz' by (by right).
    destruct (comp a z) eqn:Haz; injection Hpop as <- <-; apply elem_of_cons in Hy as [->|Hy].
    + destruct (comp z a) eqn:Hza; [|done]. by rewrite <- (Hirr a Ha), (Htrans a z a).
    + by apply IH.
    + by apply Hirr.
    + apply (Hneg a z y); [done|done|by right|done|by apply IH].
  - injection Hpop as <- <-. destruct l as [|b l].
    + apply list_elem_of_singleton in Hy as ->. apply Hirr. by left.
    + simpl in Hl. destruct (pop_greatest comp l) as [[]|]; [|done]. by destruct (comp b a0).
Qed.
#[refine] Instance greatest_first : PriorityQueue := { pq_pop := @pop_greatest }.
Proof.
  - exact @pop_greatest_perm.
  - intros A comp [|x l]; simpl; [done|].
    destruct (pop_greatest comp l) as [[]|]; [|done]. by destruct (comp x a).
  - exact @pop_greatest_max.
Defined.

Definition w32 (z : Z) : Z := (z mod 4294967296)%Z.

(** ** Classes of workers with the same capabilities *)
Module equivalence_class.

Record type : Type := mk {
  n_pending_jobs : Z;
  n_running_jobs : Z;
  worker_ids : gset worker_id_t;
  idle_workers : gset worker_id_t;
  stealing_allowed_classes : gset (gset string)
}.
Definition empty : type := mk 0 0 ∅ ∅ ∅.
Definition n_workers (c : type) : nat := size (worker_ids c).

Definition set_pending z c :=
  mk z (n_running_jobs c) (worker_ids c) (idle_workers c) (stealing_allowed_classes c).
Definition set_running z c :=
  mk (n_pending_jobs c) z (worker_ids c) (idle_workers c) (stealing_allowed_classes c).
Definition set_worker_ids f c :=
  mk (n_pending_jobs c) (n_running_jobs c) (f (worker_ids c)) (idle_workers c) (stealing_allowed_classes c).
Definition set_idle f c :=
  mk (n_pending_jobs c) (n_running_jobs c) (worker_ids c) (f (idle_workers c)) (stealing_allowed_classes c).
Definition set_stealing f c :=
  mk (n_pending_jobs c) (n_running_jobs c) (worker_ids c) (idle_workers c) (f (stealing_allowed_classes c)).

Definition inc_pending_jobs (k : Z) (c : type) : type := set_pending (w32 (n_pending_jobs c + k)) c.
Definition inc_running_jobs (k : Z) (c : type) : type := set_running (w32 (n_running_jobs c + k)) c.

Section checked.
Context `{AssertMode}.
Definition dec_pending_jobs (k : Z) : M type exn unit :=
  get ≫= λ c : type,
  fhg_assert (k <=? n_pending_jobs c)%Z
    "The number of pending jobs of a group of workers cannot be a negative number" ≫= λ _,
  modify (set_pending (w32 (n_pending_jobs c - k))).
Definition dec_running_jobs (k : Z) : M type exn unit :=
  get ≫= λ c : type,
  fhg_assert (k <=? n_running_jobs c)%Z
    "The number of running jobs of a group of workers cannot be a negative number" ≫= λ _,
  modify (set_running (w32 (n_running_jobs c - k))).

(** the numbers of jobs of a worker, as [unsigned int] arguments *)
Definition pending_count (w : Worker.type) : Z := w32 (Z.of_nat (size (Worker.pending w))).
Definition running_count (w : Worker.type) : Z :=
  w32 (Z.of_nat (size (Worker.submitted w) + size (Worker.acknowledged w))).

Definition add_worker_entry (id : worker_id_t) (w : Worker.type) (c : type) : type :=
  set_idle (λ s, {[id]} ∪ s)
    (inc_running_jobs (running_count w)
      (inc_pending_jobs (pending_count w) (set_worker_ids (λ s, {[id]} ∪ s) c))).
Definition remove_worker_entry (id : worker_id_t) (w : Worker.type) : M type exn unit :=
  modify (set_worker_ids (λ s, s ∖ {[id]})) ≫= λ _,
  dec_pending_jobs (pending_count w) ≫= λ _,
  dec_running_jobs (running_count w) ≫= λ _,
  modify (set_idle (λ s, s ∖ {[id]})).
End checked.

(** classes whose capabilities contain one of the preferences *)
Definition allow_classes_matching_preferences_stealing (classes : gset (gset string))
    (preferences : list string) (c : type) : type :=
  match preferences with
  | [] => c
  | _ => set_stealing (λ s, filter (λ k, Exists (λ p, p ∈ k) preferences) classes ∪ s) c
  end.

End equivalence_class.

(** ** The choice of workers *)
Module cost_and_matching_info.

Record type : Type := mk {
  cost : double;
  matching_degree : double;
  shared_memory_size : Z;
  last_time_idle : double;
  worker_id : worker_id_t;
  implementation : option string
}.

(** [Compare]: the third component of both tuples is that of the left argument *)
Definition compare (l r : type) : bool :=
  dlt (cost l) (cost r) ||
  negb (dlt (cost r) (cost l)) &&
  (dlt (matching_degree l) (matching_degree r) ||
   negb (dlt (matching_degree r) (matching_degree l)) &&
   ((shared_memory_size l <? shared_memory_size l)%Z ||
    negb (shared_memory_size l <? shared_memory_size l)%Z &&
    dlt (last_time_idle l) (last_time_idle r))).

End cost_and_matching_info.

Module WorkerManager.
Import equivalence_class.

(** an address has 16 bytes; the bimap is kept by its left side *)
Abbreviation address_t := (list ascii).

Record type : Type := mk {
  worker_map : gmap worker_id_t Worker.type;
  worker_connections : gmap worker_id_t address_t;
  worker_equiv_classes : gmap (gset string) equivalence_class.type;
  num_free_workers : Z
}.
Definition empty : type := mk ∅ ∅ ∅ 0.

Definition set_worker_map f m :=
  mk (f (worker_map m)) (worker_connections m) (worker_equiv_classes m) (num_free_workers m).
Definition set_worker_connections f m :=
  mk (worker_map m) (f (worker_connections m)) (worker_equiv_classes m) (num_free_workers m).
Definition set_worker_equiv_classes f m :=
  mk (worker_map m) (worker_connections m) (f (worker_equiv_classes m)) (num_free_workers m).
Definition set_num_free_workers f m :=
  mk (worker_map m) (worker_connections m) (worker_equiv_classes m) (f (num_free_workers m)).

(** [worker_connections_.left.insert]: only if neither side is taken *)
Definition connect (id : worker_id_t) (a : address_t) (m : gmap worker_id_t address_t) :
    gmap worker_id_t address_t :=
  if decide (is_Some (m !! id)) then m
  else if decide (a ∈ (map_to_list m).*2) then m
  else <[id := a]> m.

(** the classes in the order of [std::map<std::set<std::string>, _>] *)
Definition class_le (a b : gset string) : Prop :=
  Order.lex Order.string_cmp (ordered a) (ordered b) ≠ Gt.
#[global] Instance class_le_dec : RelDecision class_le.
Proof.
  intros a b. unfold class_le.
  destruct (Order.lex Order.string_cmp (ordered a) (ordered b)); [left|left|right]; congruence.
Defined.
Definition class_keys (m : type) : list (gset string) :=
  merge_sort class_le (elements (dom (worker_equiv_classes m))).

Definition match_requirements_and_preferences (capabilities : gset string) (r : requirements.type) :
    option (double * option string) :=
  let reqs := requirements.reqs r in
  if forallb (λ q, negb (requirements.is_mandatory q)
                   || bool_decide (requirements.value q ∈ capabilities)) reqs then
    let matchingDeg :=
      length (filter (λ q, requirements.value q ∈ capabilities ∧ requirements.is_mandatory q = false) reqs) in
    let one := of_Z 1 in
    match requirements.preferences r with
    | [] => Some (ddiv (dadd (of_nat matchingDeg) one) (dadd (of_nat (size capabilities)) one), None)
    | prefs =>
        match list_find (λ p, p ∈ capabilities) prefs with
        | None => None
        | Some (i, preference) =>
            Some (ddiv (dadd (of_nat (matchingDeg + (length prefs - i))) one)
                       (dadd (of_nat (size capabilities + length prefs)) one),
                  Some preference)
        end
    end
  else None.

Section manager.
Context `{AssertMode} `{Unordered} `{PriorityQueue}.

Abbreviation W := (M type exn).

(** [bounded_priority_queue_t::emplace] *)
Definition bpq_emplace (capacity : Z) (x : cost_and_matching_info.type)
    (c : list cost_and_matching_info.type) : outcome exn (list cost_and_matching_info.type) :=
  if (Z.of_nat (length c) <? capacity)%Z then Ret (x :: c)
  else
    match pq_pop cost_and_matching_info.compare c with
    | None => Throw (undefined "top of an empty queue")
    | Some (top, rest) => Ret (if cost_and_matching_info.compare x top then x :: rest else c)
    end.

(** what [find_assignment] puts into the queue for a worker, or [None] *)
Definition candidate (r : requirements.type) (degree : double) (impl : option string)
    (id : worker_id_t) (w : Worker.type) : option cost_and_matching_info.type :=
  if (1 <? requirements.numWorkers r)%Z && Worker.children_allowed w then None
  else if (Worker.allocated_shared_memory_size w <? requirements.shared_memory_amount_required r)%Z then None
  else if Worker.backlog_full w then None
  else
    Some (cost_and_matching_info.mk
            (dadd (dadd (requirements.transfer_cost r (Worker.hostname w)) (requirements.computational_cost r))
                  (Worker.cost_assigned_jobs w))
            (dmul (of_Z (-1)) degree)
            (Worker.allocated_shared_memory_size w) (Worker.last_time_idle w) id impl).

Definition visit_worker (m : type) (r : requirements.type) (degree : double) (impl : option string)
    (c : list cost_and_matching_info.type) (id : worker_id_t) :
    outcome exn (list cost_and_matching_info.type) :=
  w ← or_throw out_of_range (worker_map m !! id);
  match candidate r degree impl id w with
  | None => Ret c
  | Some x => bpq_emplace (requirements.numWorkers r) x c
  end.

Definition visit_class (m : type) (r : requirements.type)
    (c : list cost_and_matching_info.type) (key : gset string) :
    outcome exn (list cost_and_matching_info.type) :=
  match match_requirements_and_preferences key r with
  | None => Ret c
  | Some (degree, impl) =>
      cls ← or_throw out_of_range (worker_equiv_classes m !! key);
      foldl (λ c id, c ≫= λ c, visit_worker m r degree impl c id) (Ret c)
        (unordered_elements (worker_ids cls))
  end.

Definition find_assignment (r : requirements.type) (m : type) :
    outcome exn (gset worker_id_t * option string) :=
  let num_required_workers := requirements.numWorkers r in
  if (Z.of_nat (size (worker_map m)) <? num_required_workers)%Z then Ret (∅, None)
  else
    bpq ← foldl (λ c key, c ≫= λ c, visit_class m r c key) (Ret []) (class_keys m);
    if (Z.of_nat (length bpq) =? num_required_workers)%Z then
      match pq_pop cost_and_matching_info.compare bpq with
      | None => Throw (undefined "front of an empty vector")
      | Some (front, _) =>
          Ret (list_to_set (cost_and_matching_info.worker_id <$> bpq),
               cost_and_matching_info.implementation front)
      end
    else Ret (∅, None).

(** ** Access to workers and classes *)

(** [worker_map_.at], [worker_equiv_classes_.at] *)
Definition worker_at (id : worker_id_t) : W Worker.type :=
  get ≫= λ m : type, lift (or_throw out_of_range (worker_map m !! id)).
Definition class_at (key : gset string) : W equivalence_class.type :=
  get ≫= λ m : type, lift (or_throw out_of_range (worker_equiv_classes m !! key)).
(** [find] followed by an unchecked [->second] *)
Definition worker_found (id : worker_id_t) : W Worker.type :=
  get ≫= λ m : type, lift (or_throw (undefined "dereference of end") (worker_map m !! id)).

(** Runs a member function of the worker, of the class. *)
Definition on_worker {A} (id : worker_id_t) (f : M Worker.type exn A) : W A :=
  w ← worker_found id;
  let '(r, w) := f w in
  modify (set_worker_map (<[id := w]>)) ≫= λ _, lift r.
Definition on_class {A} (key : gset string) (f : M equivalence_class.type exn A) : W A :=
  c ← class_at key;
  let '(r, c) := f c in
  modify (set_worker_equiv_classes (<[key := c]>)) ≫= λ _, lift r.

(** ** Member functions *)
Definition host_INDICATES_A_RACE (id : worker_id_t) (m : type) : outcome exn string :=
  w ← or_throw out_of_range (worker_map m !! id); Ret (Worker.hostname w).
Definition hasWorker (id : worker_id_t) (m : type) : bool := bool_decide (is_Some (worker_map m !! id)).

Definition findSubmOrAckWorkers (job : job_id_t) (m : type) : gset worker_id_t :=
  dom (filter (λ x, job ∈ Worker.submitted x.2 ∨ job ∈ Worker.acknowledged x.2) (worker_map m)).
Definition workers_to_send_cancel (job : job_id_t) (m : type) : gset worker_id_t :=
  findSubmOrAckWorkers job m.

Definition addWorker (now : double) (id : worker_id_t) (cpbSet : capability.set)
    (shm : Z) (children_allowed : bool) (hostname : string) (address : address_t) : W unit :=
  get ≫= λ m : type,
  if decide (is_Some (worker_map m !! id)) then
    throw (runtime_error ("worker '" +:+ id +:+ "' already exists"))
  else
    let w := Worker.make now cpbSet shm children_allowed hostname in
    let key := Worker.names w in
    modify (set_worker_connections (connect id address)) ≫= λ _,
    modify (set_worker_map (<[id := w]>)) ≫= λ _,
    modify (set_worker_equiv_classes
              (λ cs, <[key := add_worker_entry id w (default equivalence_class.empty (cs !! key))]> cs)) ≫= λ _,
    on_class key (modify (set_stealing (λ s, {[key]} ∪ s))) ≫= λ _,
    modify (set_num_free_workers (λ n, w64 (n + 1))).

Definition deleteWorker (id : worker_id_t) : W unit :=
  get ≫= λ m : type,
  fhg_assert (bool_decide (is_Some (worker_map m !! id)))
    "Worker not found when deletion was requested!" ≫= λ _,
  w ← worker_found id;
  let key := Worker.names w in
  (if decide (is_Some (worker_equiv_classes m !! key)) then mret tt
   else throw (undefined "dereference of end")) ≫= λ _,
  on_class key (remove_worker_entry id w) ≫= λ _,
  cls ← class_at key;
  (if decide (n_workers cls = 0) then
     modify (set_worker_equiv_classes (λ cs, set_stealing (λ s, s ∖ {[key]}) <$> delete key cs))
   else mret tt) ≫= λ _,
  modify (set_worker_map (delete id)) ≫= λ _,
  modify (set_worker_connections (delete id)) ≫= λ _,
  modify (set_num_free_workers (λ n, w64 (n - 1))).

(** the loop body of [getCapabilities] *)
Definition merge_capability (s : capability.set) (c : capability.type) : capability.set :=
  match capability.find c s with
  | None => capability.insert c s
  | Some old =>
      if (capability.depth c <? capability.depth old)%Z
      then capability.insert c (capability.erase old s) else s
  end.
Definition getCapabilities (agentCpbSet : capability.set) (m : type) : capability.set :=
  foldl (λ s x, foldl merge_capability s (capability.members (Worker.capabilities x.2)))
    agentCpbSet (unordered_list (worker_map m)).

(** [assign_job_to_worker] with an iterator and with an id *)
Definition assign_job_to_found_worker (job : job_id_t) (id : worker_id_t) (cost : double)
    (preferences : list string) : W unit :=
  on_worker id (Worker.assign job cost) ≫= λ _,
  w ← worker_found id;
  on_class (Worker.names w) (modify (inc_pending_jobs 1)) ≫= λ _,
  on_class (Worker.names w) (modify (set_idle (λ s, s ∖ {[id]}))) ≫= λ _,
  get ≫= λ m : type,
  on_class (Worker.names w)
    (modify (allow_classes_matching_preferences_stealing (dom (worker_equiv_classes m)) preferences)).
Definition assign_job_to_worker (job : job_id_t) (id : worker_id_t) (cost : double)
    (preferences : list string) : W unit :=
  get ≫= λ m : type,
  fhg_assert (bool_decide (is_Some (worker_map m !! id))) "worker != worker_map_.end()" ≫= λ _,
  assign_job_to_found_worker job id cost preferences.

Definition submit_job_to_worker (job : job_id_t) (id : worker_id_t) : W unit :=
  on_worker id (Worker.submit job) ≫= λ _,
  w ← worker_found id;
  let key := Worker.names w in
  on_class key (dec_pending_jobs 1) ≫= λ _,
  on_class key (modify (inc_running_jobs 1)) ≫= λ _,
  on_class key (modify (set_idle (λ s, s ∖ {[id]}))) ≫= λ _,
  if Worker.is_terminal w then modify (set_num_free_workers (λ n, w64 (n - 1))) else mret tt.

Definition acknowledge_job_sent_to_worker (job : job_id_t) (id : worker_id_t) : W unit :=
  worker_at id ≫= λ _, on_worker id (Worker.acknowledge job).

Definition delete_job_from_worker (now : double) (job : job_id_t) (id : worker_id_t) (cost : double) : W unit :=
  get ≫= λ m : type,
  match worker_map m !! id with
  | None => mret tt
  | Some w =>
      let key := Worker.names w in
      class_at key ≫= λ _,
      (if decide (job ∈ Worker.pending w) then
         on_worker id (Worker.delete_pending_job job cost) ≫= λ _,
         on_class key (dec_pending_jobs 1)
       else
         on_worker id (Worker.delete_submitted_job now job cost) ≫= λ _,
         on_class key (dec_running_jobs 1)) ≫= λ _,
      w ← worker_found id;
      (if negb (Worker.has_running_jobs w) && negb (Worker.has_pending_jobs w)
       then on_class key (modify (set_idle (λ s, {[id]} ∪ s))) else mret tt) ≫= λ _,
      if Worker.is_terminal w then modify (set_num_free_workers (λ n, w64 (n + 1))) else mret tt
  end.

(** [submit_and_serve_if_can_start_job_INDICATES_A_RACE] up to the call of
    [serve_job], which follows when the job can start *)
Definition can_start (workers : gset worker_id_t) (m : type) : bool :=
  forallb (λ id, match worker_map m !! id with
                 | Some w => negb (Worker.isReserved w)
                 | None => false
                 end) (ordered workers).
Definition submit_if_can_start_job (job : job_id_t) (workers : gset worker_id_t) : W bool :=
  get ≫= λ m : type,
  if can_start workers m then
    for_each (submit_job_to_worker job) (ordered workers) ≫= λ _, mret true
  else mret false.

Definition worker_capabilities (id : worker_id_t) (m : type) : outcome exn capability.set :=
  w ← or_throw out_of_range (worker_map m !! id); Ret (Worker.capabilities w).

Definition change_equivalence_class (id : worker_id_t) (old_cpbs : gset string) : W unit :=
  get ≫= λ m : type,
  fhg_assert (bool_decide (is_Some (worker_equiv_classes m !! old_cpbs)))
    "equivalence_class != worker_equiv_classes_.end()" ≫= λ _,
  (if decide (is_Some (worker_equiv_classes m !! old_cpbs)) then mret tt
   else throw (undefined "dereference of end")) ≫= λ _,
  w ← worker_found id;
  on_class old_cpbs (remove_worker_entry id w) ≫= λ _,
  cls ← class_at old_cpbs;
  (if decide (n_workers cls = 0) then modify (set_worker_equiv_classes (delete old_cpbs)) else mret tt) ≫= λ _,
  let key := Worker.names w in
  modify (set_worker_equiv_classes
            (λ cs, <[key := add_worker_entry id w (default equivalence_class.empty (cs !! key))]> cs)).

Definition add_worker_capabilities (id : worker_id_t) (cpb_set : capability.set) : W bool :=
  w ← worker_found id;
  let old_cpbs := Worker.names w in
  modified ← on_worker id (Worker.addCapabilities cpb_set);
  if (modified : bool) then change_equivalence_class id old_cpbs ≫= λ _, mret true else mret false.
Definition remove_worker_capabilities (id : worker_id_t) (cpb_set : capability.set) : W bool :=
  w ← worker_found id;
  let old_cpbs := Worker.names w in
  modified ← on_worker id (Worker.removeCapabilities cpb_set);
  if (modified : bool) then change_equivalence_class id old_cpbs ≫= λ _, mret true else mret false.

Definition set_worker_backlog_full (id : worker_id_t) (val : bool) : W unit :=
  worker_at id ≫= λ _, on_worker id (modify (Worker.set_backlog_full val)).

Definition address_by_worker (id : worker_id_t) (m : type) : option address_t := worker_connections m !! id.
Definition worker_by_address (a : address_t) (m : type) : option worker_id_t :=
  (λ x, x.2.1) <$> list_find (λ x, x.2 = a) (map_to_list (worker_connections m)).
End manager.
End WorkerManager.
