(* ===== verification/SdpaScheduler.v ===== *)
(** * The scheduler of an agent

    [sdpa/daemon/scheduler/CoallocationScheduler.cpp], with the parts of
    [WorkerManager.cpp] that work on reservations: stealing of pending jobs and
    what happens to the jobs of a lost worker.  Callbacks into the agent act on
    an arbitrary world; [now] gives the time at which a worker becomes idle. *)

From Stdlib Require Import SpecFloat.
From S2P Require Import Prelude Value Token Function SdpaJob SdpaWorker SdpaManager.

Module scheduler.
Import equivalence_class WorkerManager.

Section scheduler.
Context {activity_t : Type} (no_activity : activity_t).
Context `{AssertMode} `{Unordered} `{PriorityQueue} `{job.StateMachine}.

Record type : Type := mk {
  manager : WorkerManager.type;
  jobs_to_schedule : list job_id_t;
  allocation_table : gmap job_id_t (Reservation.type activity_t);
  pending_jobs : gset job_id_t
}.
Definition empty : type := mk WorkerManager.empty [] ∅ ∅.

Definition set_manager x s := mk x (jobs_to_schedule s) (allocation_table s) (pending_jobs s).
Definition set_jobs_to_schedule f s :=
  mk (manager s) (f (jobs_to_schedule s)) (allocation_table s) (pending_jobs s).
Definition set_allocation_table f s :=
  mk (manager s) (jobs_to_schedule s) (f (allocation_table s)) (pending_jobs s).
Definition set_pending_jobs f s :=
  mk (manager s) (jobs_to_schedule s) (allocation_table s) (f (pending_jobs s)).

Abbreviation S := (M type exn).

Definition on_manager {A} (f : M WorkerManager.type exn A) : S A :=
  λ s, let '(r, m) := f (manager s) in (r, set_manager m s).

(** [allocation_table_.at (job)] and member functions of the reservation *)
Definition reservation_at (job : job_id_t) : S (Reservation.type activity_t) :=
  get ≫= λ s : type, lift (or_throw out_of_range (allocation_table s !! job)).
Definition on_reservation {A} (job : job_id_t) (f : M (Reservation.type activity_t) exn A) : S A :=
  r ← reservation_at job;
  let '(o, r) := f r in
  modify (set_allocation_table (<[job := r]>)) ≫= λ _, lift o.

(** ** Queues *)
Definition enqueueJob (job : job_id_t) : S unit := modify (set_jobs_to_schedule (λ l, l ++ [job])).
Definition delete_job (job : job_id_t) : S bool :=
  get ≫= λ s : type,
  modify (set_jobs_to_schedule (filter (λ j, j ≠ job))) ≫= λ _,
  mret (bool_decide (job ∈ jobs_to_schedule s)).
Definition delete_pending_job (job : job_id_t) : S unit := modify (set_pending_jobs (λ p, p ∖ {[job]})).
Definition get_and_clear : S (list job_id_t) :=
  get ≫= λ s : type, modify (set_jobs_to_schedule (λ _, [])) ≫= λ _, mret (jobs_to_schedule s).
Definition push (jobs : list job_id_t) : S unit := modify (set_jobs_to_schedule (λ l, l ++ jobs)).

(** ** Reservations *)
Section releasing.
Context (now : worker_id_t → double).

(** [try { ... } catch (...) {}] *)
Definition ignoring {A} (f : S A) : S unit := λ s, (Ret tt, (f s).2).

Definition releaseReservation (job : job_id_t) : S unit :=
  get ≫= λ s : type,
  match allocation_table s !! job with
  | None => mret tt
  | Some r =>
      for_each (λ worker, ignoring (on_manager
        (delete_job_from_worker (now worker) job worker (Reservation.cost r)))) (ordered (Reservation.workers r)) ≫= λ _,
      modify (set_allocation_table (delete job))
  end.

(** ** Assignment *)
Section assigning.
Context (reqs : job_id_t → requirements.type).

Definition compute_reservation_cost (job : job_id_t) (workers : gset worker_id_t) (computational_cost : double)
    (m : WorkerManager.type) : outcome exn double :=
  total ← foldl (λ t worker,
              t ≫= λ t,
              host ← host_INDICATES_A_RACE worker m;
              Ret (dadd t (requirements.transfer_cost (reqs job) host)))
            (Ret (S754_zero false)) (ordered workers);
  Ret (dadd total computational_cost).

(** the block that is tried: assign the job to every worker, then remember it *)
Definition reserve (job : job_id_t) (workers : gset worker_id_t) (impl : option string)
    (prefs : list string) (cost : double) : S unit :=
  for_each (λ worker, on_manager (assign_job_to_worker job worker cost prefs)) (ordered workers) ≫= λ _,
  modify (set_allocation_table
            (λ t, (emplace job (Reservation.make no_activity workers impl prefs cost) t).1)) ≫= λ _,
  modify (set_pending_jobs (λ p, {[job]} ∪ p)).

(** [try] the reservation; [catch (std::out_of_range const&)] undoes it *)
Definition try_reserve (job : job_id_t) (workers : gset worker_id_t) (impl : option string)
    (prefs : list string) (cost : double) : S (option bool) :=
  λ s,
    match reserve job workers impl prefs cost s with
    | (Throw out_of_range, s) =>
        (for_each (λ worker, on_manager (delete_job_from_worker (now worker) job worker cost))
           (ordered workers) ≫= λ _, mret None) s
    | (Throw e, s) => (Throw e, s)
    | (Ret _, s) => (Ret (Some true), s)
    end.

(** One round of the loop: whether the job was reserved ([Some true]), has no
    matching workers ([Some false]) or must be tried again ([None]). *)
Definition assign_job (job : job_id_t) : S (option bool) :=
  let r := reqs job in
  if negb (bool_decide (requirements.preferences r = [])) && (1 <? requirements.numWorkers r)%Z then
    throw (runtime_error "Coallocation with preferences is forbidden!")
  else
    get ≫= λ s : type,
    found ← lift (find_assignment r (manager s));
    if decide (found.1 = ∅) then mret (Some false)
    else if decide (is_Some (allocation_table s !! job)) then
      throw (runtime_error ("already have reservation for job " +:+ job))
    else
      cost ← lift (compute_reservation_cost job found.1 (requirements.computational_cost r) (manager s));
      try_reserve job found.1 found.2 (requirements.preferences r) cost.

Fixpoint assign_loop (fuel : nat) (jobs nonmatching : list job_id_t) : S (list job_id_t) :=
  match jobs with
  | [] => mret nonmatching
  | job :: jobs =>
      match fuel with
      | O => throw out_of_fuel
      | Datatypes.S fuel =>
          r ← assign_job job;
          match r with
          | Some true => assign_loop fuel jobs nonmatching
          | Some false => assign_loop fuel jobs (nonmatching ++ [job])
          | None => assign_loop fuel (job :: jobs) nonmatching
          end
      end
  end.

(** The loop ends when [jobs_to_schedule] is empty, so only the jobs without
    matching workers are put back. *)
Definition assignJobsToWorkers (fuel : nat) : S unit :=
  jobs ← get_and_clear;
  nonmatching ← assign_loop fuel jobs [];
  push nonmatching.
End assigning.

(** ** Stealing *)
Definition cost_of (m : WorkerManager.type) (id : worker_id_t) : double :=
  match worker_map m !! id with Some w => Worker.cost_assigned_jobs w | None => S754_zero false end.

(** [std::max_element]: the first greatest *)
Definition max_step (best : S job_id_t) (job : job_id_t) : S job_id_t :=
  best ← best;
  rb ← reservation_at best;
  rj ← reservation_at job;
  mret (if dlt (Reservation.cost rb) (Reservation.cost rj) then job else best).
Definition most_expensive_job (jobs : list job_id_t) : S (option job_id_t) :=
  match jobs with
  | [] => mret None
  | j :: jobs => foldl max_step (mret j) jobs ≫= λ j, mret (Some j)
  end.

(** One thief: whether a job was stolen from [richest] *)
Definition steal_one (richest thief : worker_id_t) : S bool :=
  wr ← on_manager (worker_found richest);
  wt ← on_manager (worker_found thief);
  it_job ← most_expensive_job (ordered (Worker.pending wr));
  fhg_assert (bool_decide (is_Some it_job)) "it_job != richest_worker.pending_.end()" ≫= λ _,
  job ← lift (or_throw (undefined "dereference of end") it_job);
  r ← reservation_at job;
  let preferences := Reservation.preferences r in
  let preference := list_find (λ p, Worker.hasCapability p wt = true) preferences in
  if bool_decide (preferences = []) || bool_decide (is_Some preference) then
    on_reservation job
      (Reservation.replace_worker richest thief
         (match preferences with [] => None | _ => snd <$> preference end)
         (λ c, Worker.hasCapability c wt)) ≫= λ _,
    on_manager (assign_job_to_found_worker job thief (Reservation.cost r) preferences) ≫= λ _,
    on_manager (delete_job_from_worker (now richest) job richest (Reservation.cost r)) ≫= λ _,
    mret true
  else mret false.

Fixpoint steal_loop (thieves : list worker_id_t) (to_steal_from : list worker_id_t) : S unit :=
  match thieves with
  | [] => mret tt
  | thief :: thieves =>
      get ≫= λ s : type,
      match pq_pop (λ a b, dlt (cost_of (manager s) a) (cost_of (manager s) b)) to_steal_from with
      | None => mret tt
      | Some (richest, rest) =>
          stolen ← steal_one richest thief;
          if (stolen : bool) then
            w ← on_manager (worker_found richest);
            steal_loop thieves (if Worker.stealing_allowed w then richest :: rest else rest)
          else steal_loop thieves to_steal_from
      end
  end.

(** [WorkerEquivalenceClass::steal_work] *)
Definition collect_thieves (keys : list (gset string)) : S (gset worker_id_t) :=
  foldl (λ acc key, acc ≫= λ acc, c ← on_manager (class_at key); mret (acc ∪ idle_workers c)) (mret ∅) keys.
Fixpoint rich_workers (ids : list worker_id_t) : S (list worker_id_t) :=
  match ids with
  | [] => mret []
  | id :: ids =>
      get ≫= λ s : type,
      fhg_assert (bool_decide (is_Some (worker_map (manager s) !! id)))
        "it != worker_manager.worker_map_.end()" ≫= λ _,
      w ← on_manager (worker_found id);
      rich ← rich_workers ids;
      mret (if Worker.stealing_allowed w then id :: rich else rich)
  end.
Definition class_steal_work (key : gset string) : S unit :=
  c ← on_manager (class_at key);
  if (n_pending_jobs c =? 0)%Z then mret tt
  else
    thieves ← collect_thieves (merge_sort class_le (elements (stealing_allowed_classes c)));
    if decide (thieves = ∅) then mret tt
    else
      rich ← rich_workers (unordered_elements (worker_ids c));
      steal_loop (unordered_elements thieves) rich.

Definition steal_work : S unit :=
  get ≫= λ s : type, for_each class_steal_work (class_keys (manager s)).
End releasing.

(** ** Starting jobs *)

(** conversion of an unsigned long to long *)
Definition to_long (z : Z) : Z := if (z <? 9223372036854775808)%Z then z else (z - two64)%Z.

Section with_world.
Context {W : Type}.
Abbreviation SW := (M (type * W) exn).

Definition on_scheduler {A} (f : S A) : SW A := λ s, let '(r, x) := f s.1 in (r, (x, s.2)).
Definition on_world {A} (f : M W exn A) : SW A := λ s, let '(r, w) := f s.2 in (r, (s.1, w)).

Section starting.
Context (serve_job : gset worker_id_t → option string → job_id_t → M W exn unit).

Definition submit_and_serve_if_can_start_job (job : job_id_t) (workers : gset worker_id_t)
    (impl : option string) : SW (bool * Z) :=
  started ← on_scheduler (on_manager (submit_if_can_start_job job workers));
  (if (started : bool) then on_world (serve_job workers impl job) else mret tt) ≫= λ _,
  get ≫= λ s : type * W,
  mret (started, num_free_workers (manager s.1)).

Fixpoint start_loop (jobs : list job_id_t) (num_free_workers_left : Z) (started : gset job_id_t) :
    SW (gset job_id_t) :=
  match jobs with
  | [] => mret started
  | job :: jobs =>
      if (0 <? num_free_workers_left)%Z then
        r ← on_scheduler (reservation_at job);
        x ← submit_and_serve_if_can_start_job job (Reservation.workers r) (Reservation.implementation r);
        if (x.1 : bool) then
          on_scheduler (delete_pending_job job) ≫= λ _,
          start_loop jobs (to_long x.2) ({[job]} ∪ started)
        else start_loop jobs (to_long x.2) started
      else mret started
  end.

Definition start_pending_jobs : SW (gset job_id_t) :=
  get ≫= λ s : type * W,
  start_loop (unordered_elements (pending_jobs s.1)) (to_long (num_free_workers (manager s.1))) ∅.
End starting.
End with_world.

(** ** Results *)
Definition store_result (worker : worker_id_t) (job : job_id_t)
    (result : Reservation.terminal_state activity_t) : S unit :=
  get ≫= λ s : type,
  if decide (is_Some (allocation_table s !! job)) then
    on_reservation job (Reservation.store_result worker result)
  else throw (runtime_error "store_result: unknown job").
Definition get_aggregated_results_if_all_terminated (job : job_id_t) (s : type) :
    outcome exn (option (gmap worker_id_t (Reservation.terminal_state activity_t) * activity_t)) :=
  match allocation_table s !! job with
  | Some r => Ret (Reservation.get_aggregated_results_if_all_terminated r)
  | None => Throw (runtime_error "get_aggregated_results_if_all_terminated: unknown job")
  end.
Definition reservation_canceled (job : job_id_t) (s : type) : outcome exn bool :=
  r ← or_throw out_of_range (allocation_table s !! job); Ret (Reservation.is_canceled r).

(** ** Lost workers *)
Section losing.
Context {W : Type} (now : worker_id_t → double).
Context (cancel_worker_job : worker_id_t → job_id_t → M W exn unit).

(** the scheduler, the jobs of the agent and the world of the callback *)
Record agent : Type := mk_agent { sched : type; jobs : gmap job_id_t (job.type activity_t); world : W }.
Abbreviation A := (M agent exn).
Definition with_scheduler {X} (f : S X) : A X :=
  λ a, let '(r, s) := f (sched a) in (r, mk_agent s (jobs a) (world a)).
Definition with_world {X} (f : M W exn X) : A X :=
  λ a, let '(r, w) := f (world a) in (r, mk_agent (sched a) (jobs a) w).
Definition with_job {X} (id : job_id_t) (f : M (job.type activity_t) exn X) : A X :=
  λ a, match jobs a !! id with
       | None => (Throw (undefined "null pointer"), a)
       | Some j => let '(r, j) := f j in (r, mk_agent (sched a) (<[id := j]> (jobs a)) (world a))
       end.

(** the body of the loop over the jobs that run on the worker *)
Definition cancel_or_reschedule (worker : worker_id_t) (resched : gset job_id_t) (id : job_id_t) :
    A (gset job_id_t) :=
  get ≫= λ a : agent,
  fhg_assert (bool_decide (is_Some (jobs a !! id))) "pJob" ≫= λ _,
  with_scheduler (reservation_at id) ≫= λ _,
  with_job id job.Reschedule ≫= λ _,
  with_scheduler (on_reservation id
    (modify (Reservation.mark_as_canceled_if_no_result_stored_yet worker))) ≫= λ _,
  get ≫= λ a : agent,
  j ← lift (or_throw (undefined "null pointer") (jobs a !! id));
  let cancel_already_requested :=
    bool_decide (job.getStatus j = job.CANCELING) || bool_decide (job.getStatus j = job.CANCELED) in
  r ← with_scheduler (reservation_at id);
  applied ← Reservation.apply_to_workers_without_result
    (λ wid, if cancel_already_requested then mret tt else with_world (cancel_worker_job wid id)) r;
  mret (if (applied : bool) then resched else {[id]} ∪ resched).

Definition delete_or_cancel_worker_jobs (worker : worker_id_t) : A (gset job_id_t) :=
  w ← with_scheduler (on_manager (worker_at worker));
  foldl (λ acc id, acc ≫= λ resched, cancel_or_reschedule worker resched id)
    (mret (Worker.pending w)) (unordered_elements (Worker.submitted w ∪ Worker.acknowledged w)).

Definition reschedule_worker_jobs_and_maybe_remove_worker (worker : worker_id_t) (backlog_full : bool) : A unit :=
  resched ← delete_or_cancel_worker_jobs worker;
  for_each (λ id,
    with_scheduler (releaseReservation now id) ≫= λ _,
    with_scheduler (delete_pending_job id) ≫= λ _,
    with_scheduler (enqueueJob id)) (unordered_elements resched) ≫= λ _,
  if backlog_full then with_scheduler (on_manager (set_worker_backlog_full worker true))
  else with_scheduler (on_manager (deleteWorker worker)).
End losing.
End scheduler.
Arguments type : clear implicits.
Arguments agent : clear implicits.
End scheduler.
