(* ===== verification/SdpaFrame.v ===== *)
(** * What scheduling leaves as it is

    Assigning, stealing, starting and releasing jobs add no workers and do not touch
    the connections. *)

From Stdlib Require Import SpecFloat.
From S2P Require Import Prelude Value Token Function SdpaJob SdpaWorker SdpaManager SdpaScheduler.

Import WorkerManager scheduler.

Module Frame.
Create HintDb frame.
Section frame.
Context `{AssertMode} `{Unordered} `{PriorityQueue}.
Context (D : gset worker_id_t) (c : gmap worker_id_t WorkerManager.address_t).

Definition framed (m : WorkerManager.type) : Prop := dom (worker_map m) ⊆ D ∧ worker_connections m = c.

Ltac frame :=
  repeat match goal with
  | |- preserves _ (mret _) => apply preserves_ret
  | |- preserves _ (throw _) => apply preserves_throw
  | |- preserves _ (lift _) => apply preserves_lift
  | |- preserves _ get => apply preserves_get
  | |- preserves _ (mbind _ _) => apply preserves_bind; [|intros ?]
  | |- preserves _ (for_each _ _) => apply preserves_for_each; intros ? ?
  | |- preserves _ (modify _) => apply preserves_modify; intros ? ?; assumption
  | |- preserves _ (fhg_assert _ _) => unfold fhg_assert
  | |- preserves _ (match _ with _ => _ end) => case_match
  | |- preserves _ _ => solve [auto 1 with frame nocore]
  end.

(** ** Workers *)
Lemma worker_found_framed id : preserves framed (worker_found id).
Proof. unfold worker_found. frame. Qed.
Lemma worker_at_framed id : preserves framed (worker_at id).
Proof. unfold worker_at. frame. Qed.
Lemma class_at_framed key : preserves framed (class_at key).
Proof. unfold class_at. frame. Qed.
Lemma on_worker_framed {A} id (f : M Worker.type exn A) : preserves framed (on_worker id f).
Proof.
  intros m [Hd Hc]. unfold on_worker, worker_found. unfold mbind, M_bind. simpl.
  destruct (worker_map m !! id) as [w|] eqn:Hw; simpl; [|done]. destruct (f w) as [o w']. simpl.
  split; [|done]. simpl. rewrite dom_insert_L. apply elem_of_dom_2 in Hw. set_solver.
Qed.
Lemma on_class_framed {A} key (f : M equivalence_class.type exn A) : preserves framed (on_class key f).
Proof.
  intros m Hm. unfold on_class, class_at. unfold mbind, M_bind. simpl.
  destruct (worker_equiv_classes m !! key) as [x|]; simpl; [|done]. by destruct (f x).
Qed.
Hint Resolve worker_found_framed worker_at_framed class_at_framed on_worker_framed on_class_framed : frame.

Lemma assign_found_framed j id cost p : preserves framed (assign_job_to_found_worker j id cost p).
Proof. unfold assign_job_to_found_worker. frame. Qed.
Hint Resolve assign_found_framed : frame.
Lemma assign_framed j id cost p : preserves framed (assign_job_to_worker j id cost p).
Proof. unfold assign_job_to_worker. frame. Qed.
Lemma submit_framed j id : preserves framed (submit_job_to_worker j id).
Proof. unfold submit_job_to_worker. frame. Qed.
Lemma delete_framed now j id cost : preserves framed (delete_job_from_worker now j id cost).
Proof. unfold delete_job_from_worker. frame. Qed.
Lemma acknowledge_framed j id : preserves framed (acknowledge_job_sent_to_worker j id).
Proof. unfold acknowledge_job_sent_to_worker. frame. Qed.
Lemma backlog_framed id b : preserves framed (set_worker_backlog_full id b).
Proof. unfold set_worker_backlog_full. frame. Qed.
Lemma change_class_framed id k : preserves framed (change_equivalence_class id k).
Proof. unfold change_equivalence_class. frame. Qed.
Hint Resolve change_class_framed assign_framed submit_framed delete_framed acknowledge_framed backlog_framed : frame.
Lemma add_capabilities_framed id cs : preserves framed (add_worker_capabilities id cs).
Proof. unfold add_worker_capabilities. frame. Qed.
Lemma remove_capabilities_framed id cs : preserves framed (remove_worker_capabilities id cs).
Proof. unfold remove_worker_capabilities. frame. Qed.
Lemma submit_if_framed j ws : preserves framed (submit_if_can_start_job j ws).
Proof. unfold submit_if_can_start_job. frame. Qed.
Hint Resolve submit_if_framed : frame.

(** ** The scheduler *)
Section scheduler.
Context {activity_t : Type} (no_activity : activity_t) (now : worker_id_t → double) (reqs : job_id_t → requirements.type).

Definition framed_s (s : scheduler.type activity_t) : Prop := framed (manager s).
Lemma on_manager_framed {X} (f : M WorkerManager.type exn X) : preserves framed f → preserves framed_s (on_manager f).
Proof. intros Hf s Hs. specialize (Hf (manager s) Hs). unfold on_manager, framed_s in *. by destruct (f (manager s)). Qed.
Lemma ignoring_framed {X} (f : M (scheduler.type activity_t) exn X) : preserves framed_s f → preserves framed_s (ignoring f).
Proof. intros Hf s Hs. by apply Hf. Qed.
Ltac frame_s :=
  repeat match goal with
  | |- preserves _ (on_manager _) => apply on_manager_framed
  | |- preserves _ (ignoring _) => apply ignoring_framed
  | |- preserves _ _ => progress frame
  end.
Lemma releaseReservation_framed j : preserves framed_s (releaseReservation now j).
Proof. unfold releaseReservation. frame_s. Qed.
Lemma reserve_framed j ws impl p cost : preserves framed_s (reserve no_activity j ws impl p cost).
Proof. unfold reserve. frame_s. Qed.
Lemma try_reserve_framed j ws impl p cost : preserves framed_s (try_reserve no_activity now j ws impl p cost).
Proof.
  intros s Hs. unfold try_reserve. pose proof (reserve_framed j ws impl p cost s Hs) as Hr.
  destruct (reserve no_activity j ws impl p cost s) as [[?|e] s1]; [done|]. destruct e; try done.
  revert s1 Hr. match goal with |- ∀ s1, _ → framed_s (?f s1).2 => change (preserves framed_s f) end. frame_s.
Qed.
Hint Resolve try_reserve_framed : frame.
Lemma assign_loop_framed fuel l nm : preserves framed_s (assign_loop no_activity now reqs fuel l nm).
Proof.
  revert l nm. induction fuel as [|fuel IH]; intros [|j l] nm; simpl; frame_s.
  all: unfold assign_job; frame_s.
Qed.
Hint Resolve assign_loop_framed : frame.
Lemma assignJobsToWorkers_framed fuel : preserves framed_s (assignJobsToWorkers no_activity now reqs fuel).
Proof. unfold assignJobsToWorkers, get_and_clear, push. frame_s. Qed.
Lemma reservation_at_framed j : preserves framed_s (reservation_at j).
Proof. unfold reservation_at. frame_s. Qed.
Hint Resolve reservation_at_framed : frame.
Lemma most_expensive_framed l : preserves framed_s (most_expensive_job l).
Proof.
  unfold most_expensive_job. destruct l as [|j l]; frame_s.
  assert (∀ l (m : M (scheduler.type activity_t) exn job_id_t), preserves framed_s m → preserves framed_s (foldl max_step m l)) as Hf.
  { clear. induction l as [|x l IH]; intros m Hm; simpl; [done|]. apply IH. unfold max_step. frame_s. }
  apply Hf. frame_s.
Qed.
Hint Resolve most_expensive_framed : frame.
Lemma on_reservation_framed {X} j (f : M (Reservation.type activity_t) exn X) : preserves framed_s (on_reservation j f).
Proof. unfold on_reservation. frame_s. Qed.
Hint Resolve on_reservation_framed : frame.
Lemma steal_one_framed r t : preserves framed_s (steal_one now r t).
Proof. unfold steal_one. frame_s. Qed.
Hint Resolve steal_one_framed : frame.
Lemma steal_loop_framed ts l : preserves framed_s (steal_loop now ts l).
Proof. revert l. induction ts as [|t ts IH]; intros l; simpl; frame_s. Qed.
Hint Resolve steal_loop_framed : frame.
Lemma collect_thieves_framed ks : preserves framed_s (collect_thieves ks).
Proof.
  unfold collect_thieves.
  assert (∀ (m : M (scheduler.type activity_t) exn (gset worker_id_t)), preserves framed_s m →
    preserves framed_s (foldl (λ acc key, acc ≫= λ acc, c ← on_manager (class_at key); mret (acc ∪ equivalence_class.idle_workers c)) m ks)) as Hf.
  { induction ks as [|x ks IH]; intros m Hm; simpl; [done|]. apply IH. frame_s. }
  apply Hf. frame_s.
Qed.
Lemma rich_workers_framed l : preserves framed_s (rich_workers l).
Proof. induction l as [|id l IH]; simpl; frame_s. Qed.
Hint Resolve collect_thieves_framed rich_workers_framed : frame.
Lemma steal_work_framed : preserves framed_s (steal_work now).
Proof. unfold steal_work, class_steal_work. frame_s. Qed.

Section world.
Context {W : Type} (serve_job : gset worker_id_t → option string → job_id_t → M W exn unit).
Definition framed_w (x : scheduler.type activity_t * W) : Prop := framed_s x.1.
Lemma on_scheduler_framed {X} (f : M (scheduler.type activity_t) exn X) : preserves framed_s f → preserves framed_w (on_scheduler f).
Proof. intros Hf x Hx. specialize (Hf x.1 Hx). unfold on_scheduler, framed_w in *. by destruct (f x.1). Qed.
Lemma on_world_framed {X} (f : M W exn X) : preserves framed_w (on_world f).
Proof. intros x Hx. unfold on_world, framed_w in *. by destruct (f x.2). Qed.
Lemma start_loop_framed l n st : preserves framed_w (start_loop serve_job l n st).
Proof.
  revert n st. induction l as [|j l IH]; intros n st; simpl; frame_s.
  all: repeat first [apply on_scheduler_framed; frame_s | apply on_world_framed
                    | apply IH | unfold submit_and_serve_if_can_start_job, delete_pending_job; frame_s].
Qed.

(** the world *)
Context (I : W → Prop) (Hserve : ∀ ws impl j, preserves I (serve_job ws impl j)).
Lemma on_scheduler_world {X} (f : M (scheduler.type activity_t) exn X) : preserves (λ x : _ * W, I x.2) (on_scheduler f).
Proof. intros x Hx. unfold on_scheduler. by destruct (f x.1). Qed.
Lemma start_loop_world l n st : preserves (λ x : scheduler.type activity_t * W, I x.2) (start_loop serve_job l n st).
Proof.
  revert n st. induction l as [|j l IH]; intros n st; simpl; frame_s.
  all: repeat first [apply on_scheduler_world | apply IH | unfold submit_and_serve_if_can_start_job; frame_s].
  intros x Hx. specialize (Hserve (Reservation.workers a) (Reservation.implementation a) j x.2 Hx). unfold on_world.
  by destruct (serve_job _ _ _ x.2).
Qed.
End world.
End scheduler.
End frame.
End Frame.
