(* ===== verification/SdpaInvariant.v ===== *)
(** * Bookkeeping of the worker manager

    The classes of workers index the workers: every worker is in the class of
    its capabilities, the idle workers of a class are its workers without jobs,
    the numbers of jobs are exact, and stealing refers to classes that exist.
    All operations on jobs keep it so, in builds without assertions. *)

From Stdlib Require Import SpecFloat.
From S2P Require Import Prelude Value Token Function SdpaJob SdpaWorker SdpaManager.

Import equivalence_class WorkerManager.

Module Bookkeeping.

(** ** Numbers of jobs *)
Definition jobs (w : Worker.type) : gset job_id_t :=
  Worker.pending w ∪ Worker.submitted w ∪ Worker.acknowledged w.
Definition running (w : Worker.type) : nat := size (Worker.submitted w) + size (Worker.acknowledged w).

Definition share (f : Worker.type → nat) (key : gset string) (x : worker_id_t * Worker.type) : nat :=
  if decide (Worker.names x.2 = key) then f x.2 else 0.
Definition load (f : Worker.type → nat) (key : gset string) (wm : gmap worker_id_t Worker.type) : nat :=
  sum_list_with (share f key) (map_to_list wm).

Lemma sum_permutation {A} (f : A → nat) l k : l ≡ₚ k → sum_list_with f l = sum_list_with f k.
Proof. induction 1; simpl; lia. Qed.
Lemma load_new f key wm id w :
  wm !! id = None → load f key (<[id := w]> wm) = share f key (id, w) + load f key wm.
Proof. intros Hid. unfold load. by rewrite (sum_permutation _ _ _ (map_to_list_insert wm id w Hid)). Qed.
Lemma load_delete f key wm id w :
  wm !! id = Some w → load f key wm = share f key (id, w) + load f key (delete id wm).
Proof.
  intros Hid. rewrite <- (load_new f key (delete id wm)) by apply lookup_delete_eq.
  by rewrite insert_delete_id.
Qed.
Lemma load_update f key wm id w w' :
  wm !! id = Some w →
  load f key (<[id := w']> wm) + share f key (id, w) = load f key wm + share f key (id, w').
Proof.
  intros Hid. rewrite <- insert_delete_eq, load_new by apply lookup_delete_eq.
  rewrite (load_delete f key wm id w Hid). lia.
Qed.

(** ** The invariant *)
Definition disjoint_jobs (w : Worker.type) : Prop :=
  Worker.pending w ## Worker.submitted w ∪ Worker.acknowledged w ∧ Worker.submitted w ## Worker.acknowledged w.

(** A worker without children is reserved while it runs a job, and it runs one
    job at a time. *)
Definition exclusive (w : Worker.type) : Prop :=
  Worker.children_allowed w = false →
  running w ≤ 1 ∧ (Worker.reserved w = false → running w = 0).
Definition worker_ok (w : Worker.type) : Prop := disjoint_jobs w ∧ exclusive w.

Record consistent (m : WorkerManager.type) : Prop := {
  c_class : ∀ key c id, worker_equiv_classes m !! key = Some c →
    id ∈ worker_ids c ↔ ∃ w, worker_map m !! id = Some w ∧ Worker.names w = key;
  c_known : ∀ id w, worker_map m !! id = Some w → is_Some (worker_equiv_classes m !! Worker.names w);
  c_idle : ∀ key c id, worker_equiv_classes m !! key = Some c →
    id ∈ idle_workers c ↔ ∃ w, worker_map m !! id = Some w ∧ Worker.names w = key ∧ jobs w = ∅;
  c_steal : ∀ key c, worker_equiv_classes m !! key = Some c →
    stealing_allowed_classes c ⊆ dom (worker_equiv_classes m);
  c_pending : ∀ key c, worker_equiv_classes m !! key = Some c →
    n_pending_jobs c = w32 (Z.of_nat (load (λ w, size (Worker.pending w)) key (worker_map m)));
  c_running : ∀ key c, worker_equiv_classes m !! key = Some c →
    n_running_jobs c = w32 (Z.of_nat (load running key (worker_map m)));
  c_worker : ∀ id w, worker_map m !! id = Some w → worker_ok w
}.

(** Another worker and another class record *)
Definition update (id : worker_id_t) (w : Worker.type) (c : equivalence_class.type) (nf : Z)
    (m : WorkerManager.type) : WorkerManager.type :=
  mk (<[id := w]> (worker_map m)) (worker_connections m)
     (<[Worker.names w := c]> (worker_equiv_classes m)) nf.

Lemma w32_plus a k : w32 (w32 a + k) = w32 (a + k).
Proof. unfold w32. by rewrite Zplus_mod_idemp_l. Qed.

(** A worker whose jobs change while its class keeps up *)
Lemma consistent_update m id w w' c c' nf :
  consistent m → worker_map m !! id = Some w → worker_equiv_classes m !! Worker.names w = Some c →
  Worker.names w' = Worker.names w → worker_ok w' →
  worker_ids c' = worker_ids c →
  idle_workers c' = (if decide (jobs w' = ∅) then {[id]} ∪ idle_workers c else idle_workers c ∖ {[id]}) →
  stealing_allowed_classes c' ⊆ dom (worker_equiv_classes m) →
  n_pending_jobs c' = w32 (n_pending_jobs c + (Z.of_nat (size (Worker.pending w')) - Z.of_nat (size (Worker.pending w)))) →
  n_running_jobs c' = w32 (n_running_jobs c + (Z.of_nat (running w') - Z.of_nat (running w))) →
  consistent (update id w' c' nf m).
Proof.
  intros Hm Hid Hc Hn Hdis Hids Hidle Hst Hp Hr.
  assert (∀ f key, load f key (<[id := w']> (worker_map m)) + share f key (id, w)
                   = load f key (worker_map m) + share f key (id, w')) as Hload
    by (intros; by apply load_update).
  assert (dom (<[Worker.names w' := c']> (worker_equiv_classes m)) = dom (worker_equiv_classes m)) as Hdom.
  { rewrite dom_insert_L, Hn. assert (Worker.names w ∈ dom (worker_equiv_classes m)); [|set_solver].
    apply elem_of_dom. eauto. }
  destruct Hm as [H1 H2 H3 H4 H5 H6 H7]. split; simpl; rewrite ?Hdom, ?Hn.
  - intros key c1 i. rewrite lookup_insert_Some. intros [[<- <-]|[Hne Hc1]].
    + rewrite Hids, H1 by done. destruct (decide (i = id)) as [->|Hi].
      * rewrite lookup_insert_eq. naive_solver.
      * by rewrite lookup_insert_ne.
    + rewrite H1 by done. destruct (decide (i = id)) as [->|Hi].
      * rewrite lookup_insert_eq. naive_solver.
      * by rewrite lookup_insert_ne.
  - intros i wi. rewrite lookup_insert_Some. intros [[<- <-]|[Hne Hwi]].
    + rewrite Hn, lookup_insert_eq. eauto.
    + apply H2 in Hwi as [c1 Hc1]. destruct (decide (Worker.names w = Worker.names wi)) as [<-|].
      * rewrite lookup_insert_eq. eauto.
      * rewrite lookup_insert_ne by done. eauto.
  - intros key c1 i. rewrite lookup_insert_Some. intros [[<- <-]|[Hne Hc1]].
    + rewrite Hidle. specialize (H3 (Worker.names w) c i Hc). destruct (decide (i = id)) as [->|Hi].
      * rewrite lookup_insert_eq. case_decide as Hj.
        -- split; [|set_solver]. intros _. by exists w'.
        -- split; [set_solver|]. intros (w1 & [= <-] & _ & ?). done.
      * rewrite lookup_insert_ne, <- H3 by done. case_decide as Hj; clear -Hi; set_solver.
    + rewrite H3 by done. destruct (decide (i = id)) as [->|Hi].
      * rewrite lookup_insert_eq. naive_solver.
      * by rewrite lookup_insert_ne.
  - intros key c1. rewrite lookup_insert_Some. intros [[<- <-]|[Hne Hc1]]; [done|by apply (H4 key)].
  - intros key c1. rewrite lookup_insert_Some. specialize (Hload (λ w, size (Worker.pending w)) key).
    unfold share in Hload. simpl in Hload. rewrite Hn in Hload. intros [[<- <-]|[Hne Hc1]].
    + rewrite Hp, (H5 _ _ Hc). rewrite !decide_True in Hload by done.
      rewrite w32_plus. f_equal. lia.
    + rewrite (H5 _ _ Hc1). rewrite !decide_False in Hload by done. f_equal. lia.
  - intros key c1. rewrite lookup_insert_Some. specialize (Hload running key).
    unfold share in Hload. simpl in Hload. rewrite Hn in Hload. intros [[<- <-]|[Hne Hc1]].
    + rewrite Hr, (H6 _ _ Hc). rewrite !decide_True in Hload by done.
      rewrite w32_plus. f_equal. lia.
    + rewrite (H6 _ _ Hc1). rewrite !decide_False in Hload by done. f_equal. lia.
  - intros i wi. rewrite lookup_insert_Some. intros [[<- <-]|[Hne Hwi]]; [done|by apply (H7 i)].
Qed.

(** ** Operations on jobs *)
Lemma size_add `{Countable K} (x : K) (X : gset K) : x ∉ X → size ({[x]} ∪ X) = S (size X).
Proof. intros Hx. rewrite size_union, size_singleton by set_solver. done. Qed.
Lemma size_remove `{Countable K} (x : K) (X : gset K) : x ∈ X → S (size (X ∖ {[x]})) = size X.
Proof. intros Hx. rewrite <- (size_add x) by set_solver. f_equal. rewrite <- union_difference_singleton_L; done. Qed.
Lemma remove_absent `{Countable K} (x : K) (X : gset K) : x ∉ X → X ∖ {[x]} = X.
Proof. set_solver. Qed.
Lemma jobs_empty w : jobs w = ∅ ↔ Worker.pending w = ∅ ∧ Worker.submitted w = ∅ ∧ Worker.acknowledged w = ∅.
Proof. unfold jobs. set_solver. Qed.
Lemma idle_without_jobs w :
  negb (Worker.has_running_jobs w) && negb (Worker.has_pending_jobs w) = bool_decide (jobs w = ∅).
Proof.
  unfold Worker.has_running_jobs, Worker.has_pending_jobs. apply eq_bool_prop_intro.
  rewrite bool_decide_spec, jobs_empty. repeat case_bool_decide; simpl; intuition.
Qed.

(** The workers after the operations *)
Definition assigned (job : job_id_t) (cost : double) (w : Worker.type) : Worker.type :=
  Worker.set_cost (λ c, dadd c cost)
    (Worker.set_jobs ({[job]} ∪ Worker.pending w) (Worker.submitted w) (Worker.acknowledged w) w).
Definition submitted (job : job_id_t) (w : Worker.type) : Worker.type :=
  Worker.set_reserved (negb (Worker.children_allowed w) || Worker.reserved w)
    (Worker.set_jobs (Worker.pending w ∖ {[job]}) ({[job]} ∪ Worker.submitted w) (Worker.acknowledged w) w).
Definition acknowledged (job : job_id_t) (w : Worker.type) : Worker.type :=
  Worker.set_jobs (Worker.pending w) (Worker.submitted w ∖ {[job]}) ({[job]} ∪ Worker.acknowledged w) w.
Definition unassigned (job : job_id_t) (cost : double) (w : Worker.type) : Worker.type :=
  Worker.set_cost (λ c, dsub c cost)
    (Worker.set_jobs (Worker.pending w ∖ {[job]}) (Worker.submitted w) (Worker.acknowledged w) w).
Definition finished (now : double) (job : job_id_t) (cost : double) (w : Worker.type) : Worker.type :=
  Worker.set_cost (λ c, dsub c cost)
    (Worker.set_reserved (Worker.children_allowed w && Worker.reserved w)
      (Worker.set_last_time_idle now
        (Worker.set_jobs (Worker.pending w) (Worker.submitted w ∖ {[job]}) (Worker.acknowledged w ∖ {[job]}) w))).
Definition deleted (now : double) (job : job_id_t) (cost : double) (w : Worker.type) : Worker.type :=
  if decide (job ∈ Worker.pending w) then unassigned job cost w else finished now job cost w.

Lemma jobs_assigned job cost w : jobs (assigned job cost w) = {[job]} ∪ jobs w.
Proof. unfold jobs. simpl. set_solver. Qed.
Lemma jobs_submitted job w : job ∈ Worker.pending w → jobs (submitted job w) = jobs w.
Proof. intros Hj. unfold jobs. simpl. apply set_eq. intros j. destruct (decide (j = job)); set_solver. Qed.
Lemma jobs_deleted nw job cost w : worker_ok w → jobs (deleted nw job cost w) = jobs w ∖ {[job]}.
Proof.
  intros [[Hd _] _]. unfold jobs, deleted. case_decide; simpl; set_solver.
Qed.
Lemma pending_deleted nw job cost w : Worker.pending (deleted nw job cost w) = Worker.pending w ∖ {[job]}.
Proof. unfold deleted. case_decide; simpl; set_solver. Qed.

Section operations.
Context `{AssertMode} (no_assert : assert_throws = false).

Lemma fhg_assert_off {S} b message (s : S) : fhg_assert b message s = (Ret tt, s).
Proof. unfold fhg_assert. by rewrite no_assert. Qed.
Lemma bind_fhg_assert {S B} b message (k : unit → M S exn B) s : (fhg_assert b message ≫= k) s = k tt s.
Proof. unfold mbind, M_bind. by rewrite fhg_assert_off. Qed.
Lemma bind_ret {S A B} (f : M S exn A) (k : A → M S exn B) a s s' :
  f s = (Ret a, s') → (f ≫= k) s = k a s'.
Proof. unfold mbind, M_bind. by intros ->. Qed.
Lemma on_worker_run {A} id (f : M Worker.type exn A) m w r w' :
  worker_map m !! id = Some w → f w = (r, w') →
  on_worker id f m = (r, set_worker_map <[id := w']> m).
Proof.
  intros Hw Hf. unfold on_worker, worker_found, mbind, M_bind, lift, get, modify, or_throw. simpl.
  by rewrite Hw, Hf.
Qed.
Lemma on_class_run {A} key (f : M equivalence_class.type exn A) m c r c' :
  worker_equiv_classes m !! key = Some c → f c = (r, c') →
  on_class key f m = (r, set_worker_equiv_classes <[key := c']> m).
Proof.
  intros Hc Hf. unfold on_class, class_at, mbind, M_bind, lift, get, modify, or_throw. simpl.
  by rewrite Hc, Hf.
Qed.
Lemma worker_found_run id m w : worker_map m !! id = Some w → worker_found id m = (Ret w, m).
Proof. intros Hw. unfold worker_found. rewrite bind_get. by rewrite Hw. Qed.
Lemma class_at_run key m c : worker_equiv_classes m !! key = Some c → class_at key m = (Ret c, m).
Proof. intros Hc. unfold class_at. rewrite bind_get. by rewrite Hc. Qed.
Lemma dec_pending_run k c : dec_pending_jobs k c = (Ret tt, set_pending (w32 (n_pending_jobs c - k)) c).
Proof. unfold dec_pending_jobs. rewrite bind_get, bind_fhg_assert. done. Qed.
Lemma dec_running_run k c : dec_running_jobs k c = (Ret tt, set_running (w32 (n_running_jobs c - k)) c).
Proof. unfold dec_running_jobs. rewrite bind_get, bind_fhg_assert. done. Qed.

Lemma assign_run m job id w c cost prefs :
  worker_map m !! id = Some w → worker_equiv_classes m !! Worker.names w = Some c →
  assign_job_to_found_worker job id cost prefs m =
    (Ret tt, update id (assigned job cost w)
       (allow_classes_matching_preferences_stealing (dom (worker_equiv_classes m)) prefs
          (set_idle (λ s, s ∖ {[id]}) (inc_pending_jobs 1 c))) (num_free_workers m) m).
Proof.
  intros Hw Hc. unfold assign_job_to_found_worker.
  erewrite bind_ret by (by eapply on_worker_run).
  erewrite bind_ret by (eapply worker_found_run; apply lookup_insert_eq).
  erewrite bind_ret by (by eapply on_class_run).
  erewrite bind_ret by (eapply on_class_run; [apply lookup_insert_eq|done]).
  rewrite bind_get.
  erewrite on_class_run; [|apply lookup_insert_eq|done].
  unfold update, set_worker_equiv_classes, set_worker_map. simpl. rewrite !insert_insert_eq. do 2 f_equal.
  assert (dom (<[Worker.names w := c]> (worker_equiv_classes m)) = dom (worker_equiv_classes m)) as <-.
  { by rewrite insert_id. }
  by rewrite !dom_insert_L.
Qed.

Lemma submit_run m job id w c :
  worker_map m !! id = Some w → worker_equiv_classes m !! Worker.names w = Some c → job ∈ Worker.pending w →
  submit_job_to_worker job id m =
    (Ret tt, update id (submitted job w)
       (set_idle (λ s, s ∖ {[id]}) (inc_running_jobs 1 (set_pending (w32 (n_pending_jobs c - 1)) c)))
       (if Worker.is_terminal w then w64 (num_free_workers m - 1) else num_free_workers m) m).
Proof.
  intros Hw Hc Hj. unfold submit_job_to_worker.
  assert (Worker.submit job w = (Ret tt, submitted job w)) as Hs.
  { unfold Worker.submit. rewrite bind_get, decide_True, bind_modify by done. unfold submitted.
    destruct w as [? ? ? ? ch ? ? ? ? ? re ?]; by destruct ch. }
  erewrite bind_ret by (by eapply on_worker_run).
  erewrite bind_ret by (eapply worker_found_run; apply lookup_insert_eq).
  erewrite bind_ret by (eapply on_class_run; [done|apply dec_pending_run]).
  erewrite bind_ret by (eapply on_class_run; [apply lookup_insert_eq|done]).
  erewrite bind_ret by (eapply on_class_run; [apply lookup_insert_eq|done]).
  unfold update, set_worker_equiv_classes, set_worker_map. simpl. rewrite !insert_insert_eq.
  unfold Worker.is_terminal. simpl. by destruct (Worker.children_allowed w).
Qed.

Lemma acknowledge_run m job id w :
  worker_map m !! id = Some w → job ∈ Worker.submitted w →
  acknowledge_job_sent_to_worker job id m = (Ret tt, set_worker_map <[id := acknowledged job w]> m).
Proof.
  intros Hw Hj. unfold acknowledge_job_sent_to_worker.
  erewrite bind_ret by (unfold worker_at; rewrite bind_get; by rewrite Hw). eapply on_worker_run; [done|].
  unfold Worker.acknowledge. by rewrite bind_get, decide_True by done.
Qed.

Definition deleted_class (now : double) (job : job_id_t) (id : worker_id_t) (cost : double) (w : Worker.type)
    (c : equivalence_class.type) : equivalence_class.type :=
  let c := if decide (job ∈ Worker.pending w) then set_pending (w32 (n_pending_jobs c - 1)) c
           else set_running (w32 (n_running_jobs c - 1)) c in
  if decide (jobs (deleted now job cost w) = ∅) then set_idle (λ s, {[id]} ∪ s) c else c.
Lemma delete_run m now job id cost w c :
  worker_map m !! id = Some w → worker_equiv_classes m !! Worker.names w = Some c →
  delete_job_from_worker now job id cost m =
    (Ret tt, update id (deleted now job cost w) (deleted_class now job id cost w c)
       (if Worker.is_terminal w then w64 (num_free_workers m + 1) else num_free_workers m) m).
Proof.
  intros Hw Hc. unfold delete_job_from_worker. rewrite bind_get, Hw.
  erewrite bind_ret by (by apply class_at_run).
  erewrite (bind_ret _ _ tt).
  2:{ instantiate (1 := set_worker_equiv_classes
        <[Worker.names w := if decide (job ∈ Worker.pending w) then set_pending (w32 (n_pending_jobs c - 1)) c
                            else set_running (w32 (n_running_jobs c - 1)) c]>
        (set_worker_map <[id := deleted now job cost w]> m)). unfold deleted. case_decide as Hj.
      - erewrite bind_ret.
        2:{ eapply on_worker_run; [done|]. unfold Worker.delete_pending_job. by rewrite bind_get, decide_True by done. }
        eapply on_class_run; [done|apply dec_pending_run].
      - erewrite bind_ret.
        2:{ eapply on_worker_run; [done|]. unfold Worker.delete_submitted_job.
            rewrite !bind_modify, bind_get. simpl.
            instantiate (1 := finished now job cost w). unfold finished.
            by destruct w as [? ? ? ? [] ? ? ? ? ? ? ?]. }
        eapply on_class_run; [done|apply dec_running_run]. }
  assert (Worker.names (deleted now job cost w) = Worker.names w) as Hn.
  { unfold deleted. by case_decide. }
  assert (Worker.is_terminal (deleted now job cost w) = Worker.is_terminal w) as Ht.
  { unfold deleted. by case_decide. }
  erewrite bind_ret by (eapply worker_found_run; apply lookup_insert_eq).
  rewrite idle_without_jobs. unfold update. rewrite Hn, Ht.
  unfold deleted_class. destruct (decide (jobs (deleted now job cost w) = ∅)) as [He|He].
  - rewrite bool_decide_true by done.
    erewrite bind_ret by (eapply on_class_run; [apply lookup_insert_eq|done]).
    unfold set_worker_equiv_classes, set_worker_map. simpl. rewrite !insert_insert_eq.
    by destruct (Worker.is_terminal w).
  - rewrite bool_decide_false by done. by destruct (Worker.is_terminal w).
Qed.

(** ** The operations keep the invariant *)
Lemma assigned_ok job cost w : worker_ok w → job ∉ jobs w → worker_ok (assigned job cost w).
Proof.
  unfold worker_ok, disjoint_jobs, exclusive, jobs, running. simpl. intros [[H1 H2] H3] Hj.
  split; [|done]. split; [|done]. clear H3. set_solver.
Qed.
Lemma submitted_ok job w :
  worker_ok w → job ∈ Worker.pending w → Worker.reserved w = false → worker_ok (submitted job w).
Proof.
  unfold worker_ok, disjoint_jobs, exclusive, running. simpl. intros [[H1 H2] H3] Hj Hr. split.
  - clear H3. set_solver.
  - intros Hch. destruct (H3 Hch) as [_ H4]. specialize (H4 Hr). rewrite Hch. simpl.
    rewrite size_add by set_solver. split; [lia|done].
Qed.
Lemma acknowledged_ok job w : worker_ok w → job ∈ Worker.submitted w → worker_ok (acknowledged job w).
Proof.
  unfold worker_ok, disjoint_jobs, exclusive, running. simpl. intros [[H1 H2] H3] Hj. split.
  - clear H3. split; [|set_solver]. assert (job ∉ Worker.pending w) by set_solver. set_solver.
  - intros Hch. rewrite size_add by set_solver. pose proof (size_remove job (Worker.submitted w) Hj).
    destruct (H3 Hch) as [H4 H5]. split; [lia|]. intros Hr. specialize (H5 Hr). lia.
Qed.
Lemma deleted_ok now job cost w : worker_ok w → job ∈ jobs w → worker_ok (deleted now job cost w).
Proof.
  unfold worker_ok, disjoint_jobs, exclusive, running, jobs, deleted. intros [[H1 H2] H3] Hj.
  case_decide as Hp; simpl.
  - split; [|done]. clear H3. set_solver.
  - split; [clear H3; set_solver|]. intros Hch. destruct (H3 Hch) as [H4 _]. rewrite Hch. simpl.
    destruct (decide (job ∈ Worker.submitted w)) as [Hs|Hs].
    + rewrite (remove_absent job (Worker.acknowledged w)) by set_solver.
      pose proof (size_remove job _ Hs). lia.
    + assert (job ∈ Worker.acknowledged w) as Ha by set_solver. rewrite (remove_absent job (Worker.submitted w)) by done.
      pose proof (size_remove job _ Ha). lia.
Qed.
Lemma running_deleted now job cost w :
  worker_ok w → job ∈ jobs w → job ∉ Worker.pending w → S (running (deleted now job cost w)) = running w.
Proof.
  unfold worker_ok, disjoint_jobs, running, jobs, deleted. intros [[H1 H2] _] Hj Hp.
  rewrite decide_False by done. simpl. destruct (decide (job ∈ Worker.submitted w)) as [Hs|Hs].
  - rewrite (remove_absent job (Worker.acknowledged w)) by set_solver. pose proof (size_remove job _ Hs). lia.
  - assert (job ∈ Worker.acknowledged w) as Ha by set_solver. rewrite (remove_absent job (Worker.submitted w)) by done.
    pose proof (size_remove job _ Ha). lia.
Qed.

Lemma stealing_subset classes prefs c :
  stealing_allowed_classes c ⊆ classes →
  stealing_allowed_classes (allow_classes_matching_preferences_stealing classes prefs c) ⊆ classes.
Proof.
  intros Hc. destruct prefs; simpl; [done|]. apply union_subseteq. split; [|done]. intros k Hk.
  by apply elem_of_filter in Hk as [_ ?].
Qed.
Lemma allow_keeps classes prefs c :
  let c' := allow_classes_matching_preferences_stealing classes prefs c in
  worker_ids c' = worker_ids c ∧ idle_workers c' = idle_workers c ∧
  n_pending_jobs c' = n_pending_jobs c ∧ n_running_jobs c' = n_running_jobs c.
Proof. by destruct prefs. Qed.

Lemma assign_consistent m job id w cost prefs :
  consistent m → worker_map m !! id = Some w → job ∉ jobs w →
  ∃ m', assign_job_to_found_worker job id cost prefs m = (Ret tt, m') ∧ consistent m' ∧
    worker_map m' = <[id := assigned job cost w]> (worker_map m) ∧
    dom (worker_equiv_classes m') = dom (worker_equiv_classes m).
Proof.
  intros Hm Hw Hj. destruct (c_known _ Hm _ _ Hw) as [c Hc]. eexists. split; [by apply assign_run|].
  destruct (allow_keeps (dom (worker_equiv_classes m)) prefs
              (set_idle (λ s, s ∖ {[id]}) (inc_pending_jobs 1 c))) as (E1 & E2 & E3 & E4).
  split; [|split; [done|]].
  - eapply consistent_update; [done|done|done|done|by apply assigned_ok; [eapply c_worker|]|done| | | | ].
    + rewrite E2, decide_False; [done|]. unfold jobs. simpl. set_solver.
    + apply stealing_subset. by apply (c_steal _ Hm _ _ Hc).
    + rewrite E3. simpl. f_equal. rewrite size_add by (unfold jobs in Hj; set_solver). lia.
    + rewrite E4. simpl. unfold running. simpl. rewrite (c_running _ Hm _ _ Hc). rewrite w32_plus. f_equal. lia.
  - simpl. rewrite dom_insert_L. assert (Worker.names w ∈ dom (worker_equiv_classes m)) by (apply elem_of_dom; eauto).
    set_solver.
Qed.
Lemma submit_consistent m job id w :
  consistent m → worker_map m !! id = Some w → job ∈ Worker.pending w → Worker.reserved w = false →
  ∃ m', submit_job_to_worker job id m = (Ret tt, m') ∧ consistent m' ∧
    worker_map m' = <[id := submitted job w]> (worker_map m).
Proof.
  intros Hm Hw Hj Hr. destruct (c_known _ Hm _ _ Hw) as [c Hc]. eexists. split; [by apply submit_run|].
  split; [|done]. pose proof (c_worker _ Hm _ _ Hw) as Hok. destruct (Hok) as [[Hd1 Hd2] _].
  eapply consistent_update; [done|done|done|done|by apply submitted_ok|done| | | | ].
  - simpl. rewrite decide_False; [done|]. unfold jobs. simpl. set_solver.
  - by apply (c_steal _ Hm _ _ Hc).
  - simpl. pose proof (size_remove job _ Hj). f_equal. lia.
  - simpl. unfold running. simpl. rewrite size_add by set_solver. f_equal. lia.
Qed.
Lemma acknowledge_consistent m job id w :
  consistent m → worker_map m !! id = Some w → job ∈ Worker.submitted w →
  ∃ m', acknowledge_job_sent_to_worker job id m = (Ret tt, m') ∧ consistent m' ∧
    worker_map m' = <[id := acknowledged job w]> (worker_map m).
Proof.
  intros Hm Hw Hj. destruct (c_known _ Hm _ _ Hw) as [c Hc]. eexists. split; [by apply acknowledge_run|].
  split; [|done]. pose proof (c_worker _ Hm _ _ Hw) as Hok. destruct (Hok) as [[Hd1 Hd2] _].
  replace (set_worker_map _ m) with (update id (acknowledged job w) c (num_free_workers m) m).
  2:{ unfold update, set_worker_map. f_equal. by apply insert_id. }
  eapply consistent_update; [done|done|done|done|by apply acknowledged_ok|done| | | | ].
  - rewrite decide_False by (unfold jobs; simpl; set_solver).
    rewrite remove_absent; [done|]. rewrite (c_idle _ Hm _ _ _ Hc). intros (w1 & Hw1 & _ & He).
    simplify_eq. apply jobs_empty in He as (_ & He & _). set_solver.
  - by apply (c_steal _ Hm _ _ Hc).
  - simpl. rewrite (c_pending _ Hm _ _ Hc), w32_plus. f_equal. lia.
  - unfold running. simpl. rewrite size_add by set_solver. pose proof (size_remove job _ Hj).
    rewrite (c_running _ Hm _ _ Hc), w32_plus. f_equal. lia.
Qed.
Lemma deleted_names now job cost w : Worker.names (deleted now job cost w) = Worker.names w.
Proof. unfold deleted. by case_decide. Qed.
Lemma delete_consistent m now job id cost w :
  consistent m → worker_map m !! id = Some w → job ∈ jobs w →
  ∃ m', delete_job_from_worker now job id cost m = (Ret tt, m') ∧ consistent m' ∧
    worker_map m' = <[id := deleted now job cost w]> (worker_map m) ∧
    dom (worker_equiv_classes m') = dom (worker_equiv_classes m).
Proof.
  intros Hm Hw Hj. destruct (c_known _ Hm _ _ Hw) as [c Hc]. eexists. split; [by eapply delete_run|].
  pose proof (c_worker _ Hm _ _ Hw) as Hok. split; [|split; [done|]].
  2:{ simpl. rewrite dom_insert_L, deleted_names.
      assert (Worker.names w ∈ dom (worker_equiv_classes m)) by (apply elem_of_dom; eauto). set_solver. }
  assert (id ∉ idle_workers c) as Hidle.
  { rewrite (c_idle _ Hm _ _ _ Hc). intros (w1 & Hw1 & _ & He). simplify_eq. set_solver. }
  eapply consistent_update; [done|done|done|apply deleted_names|by apply deleted_ok| | | | | ].
  - unfold deleted_class. by repeat case_decide.
  - unfold deleted_class. repeat case_decide; simpl; rewrite ?remove_absent by done; done.
  - unfold deleted_class. repeat case_decide; simpl; by apply (c_steal _ Hm _ _ Hc).
  - pose proof (c_pending _ Hm _ _ Hc) as Hp. unfold deleted_class, deleted.
    destruct (decide (job ∈ Worker.pending w)) as [Hjp|Hjp].
    + pose proof (size_remove job _ Hjp). case_decide; simpl; f_equal; lia.
    + case_decide; simpl; rewrite Hp, w32_plus; f_equal; lia.
  - pose proof (c_running _ Hm _ _ Hc) as Hp. unfold deleted_class.
    destruct (decide (job ∈ Worker.pending w)) as [Hjp|Hjp].
    + assert (running (deleted now job cost w) = running w) as -> by (unfold deleted; by rewrite decide_True).
      case_decide; simpl; rewrite Hp, w32_plus; f_equal; lia.
    + pose proof (running_deleted now job cost w Hok Hj Hjp). case_decide; simpl; f_equal; lia.
Qed.

(** ** Workers that come and go *)
Lemma make_jobs now caps shm ch host : jobs (Worker.make now caps shm ch host) = ∅.
Proof. by apply jobs_empty. Qed.
Lemma make_ok now caps shm ch host : worker_ok (Worker.make now caps shm ch host).
Proof.
  unfold worker_ok, disjoint_jobs, exclusive, running. simpl. split; [set_solver|].
  intros _. split; [by apply le_S|done].
Qed.

(** A class that no worker has is an empty class. *)
Lemma load_empty f key (wm : gmap worker_id_t Worker.type) :
  (∀ id w, wm !! id = Some w → Worker.names w ≠ key) → load f key wm = 0.
Proof.
  unfold load. intros Hk. assert (∀ x, x ∈ map_to_list wm → share f key x = 0) as Hz.
  { intros [id w] Hx. apply elem_of_map_to_list in Hx. unfold share. by rewrite decide_False by eauto. }
  induction (map_to_list wm) as [|x l IH]; simpl; [done|]. rewrite (Hz x) by left. rewrite IH; [done|].
  intros y Hy. apply Hz. by right.
Qed.
Definition class_of (key : gset string) (m : WorkerManager.type) : equivalence_class.type :=
  default equivalence_class.empty (worker_equiv_classes m !! key).
Lemma class_of_spec m key :
  consistent m →
  (∀ id, id ∈ worker_ids (class_of key m) ↔ ∃ w, worker_map m !! id = Some w ∧ Worker.names w = key) ∧
  (∀ id, id ∈ idle_workers (class_of key m) ↔
         ∃ w, worker_map m !! id = Some w ∧ Worker.names w = key ∧ jobs w = ∅) ∧
  stealing_allowed_classes (class_of key m) ⊆ dom (worker_equiv_classes m) ∧
  n_pending_jobs (class_of key m) = w32 (Z.of_nat (load (λ w, size (Worker.pending w)) key (worker_map m))) ∧
  n_running_jobs (class_of key m) = w32 (Z.of_nat (load running key (worker_map m))).
Proof.
  intros Hm. unfold class_of. destruct (worker_equiv_classes m !! key) as [c|] eqn:Hc; simpl.
  - split_and!; intros; eauto using c_class, c_idle, c_pending, c_running. by apply (c_steal _ Hm key).
  - assert (∀ id w, worker_map m !! id = Some w → Worker.names w ≠ key) as Hnone.
    { intros id w Hw <-. destruct (c_known _ Hm _ _ Hw). congruence. }
    split_and!.
    + intros id. split; [set_solver|]. intros (w & Hw & Hn). by destruct (Hnone id w).
    + intros id. split; [set_solver|]. intros (w & Hw & Hn & _). by destruct (Hnone id w).
    + set_solver.
    + by rewrite load_empty.
    + by rewrite load_empty.
Qed.

(** [own]: the classes that the class of the worker may steal from in addition *)
Definition with_worker (own : gset (gset string)) (id : worker_id_t) (w : Worker.type) (cs : gmap worker_id_t address_t) (nf : Z)
    (m : WorkerManager.type) : WorkerManager.type :=
  let key := Worker.names w in
  mk (<[id := w]> (worker_map m)) cs
     (<[key := set_stealing (λ s, own ∪ s) (add_worker_entry id w (class_of key m))]> (worker_equiv_classes m)) nf.
Lemma with_worker_consistent own id w cs nf m :
  consistent m → worker_map m !! id = None → jobs w = ∅ → worker_ok w → own ⊆ {[Worker.names w]} →
  consistent (with_worker own id w cs nf m).
Proof.
  intros Hm Hid He Hok Hown. destruct (class_of_spec m (Worker.names w) Hm) as (S1 & S2 & S3 & S4 & S5).
  apply jobs_empty in He as He'. destruct He' as (E1 & E2 & E3).
  assert (running w = 0) as Er by (unfold running; by rewrite E2, E3, size_empty).
  assert (∀ f key, load f key (<[id := w]> (worker_map m)) = share f key (id, w) + load f key (worker_map m)) as Hload
    by (intros; by apply load_new).
  assert (∀ key, share (λ w, size (Worker.pending w)) key (id, w) = 0) as Hp0
    by (intros; unfold share; simpl; case_decide; [by rewrite E1, size_empty|done]).
  assert (∀ key, share running key (id, w) = 0) as Hr0
    by (intros; unfold share; simpl; by case_decide).
  assert (∀ i w1, worker_map m !! i = Some w1 → i ≠ id) as Hother by (intros i w1 Hi ->; congruence).
  split; simpl.
  - intros key c i. rewrite lookup_insert_Some. intros [[<- <-]|[Hne Hc]]; simpl.
    + rewrite elem_of_union, elem_of_singleton, S1. destruct (decide (i = id)) as [->|Hi].
      * rewrite lookup_insert_eq. split; [eauto|]. by left.
      * rewrite lookup_insert_ne by done. intuition congruence.
    + rewrite (c_class _ Hm _ _ _ Hc). destruct (decide (i = id)) as [->|Hi].
      * rewrite lookup_insert_eq, Hid. split; intros (? & ? & ?); congruence.
      * by rewrite lookup_insert_ne.
  - intros i wi. rewrite lookup_insert_Some. intros [[<- <-]|[Hne Hwi]]; [by rewrite lookup_insert_eq|].
    destruct (decide (Worker.names w = Worker.names wi)) as [<-|]; [by rewrite lookup_insert_eq|].
    rewrite lookup_insert_ne by done. by apply (c_known _ Hm i).
  - intros key c i. rewrite lookup_insert_Some. intros [[<- <-]|[Hne Hc]]; simpl.
    + rewrite elem_of_union, elem_of_singleton, S2. destruct (decide (i = id)) as [->|Hi].
      * rewrite lookup_insert_eq. split; [eauto|]. by left.
      * rewrite lookup_insert_ne by done. intuition congruence.
    + rewrite (c_idle _ Hm _ _ _ Hc). destruct (decide (i = id)) as [->|Hi].
      * rewrite lookup_insert_eq, Hid. split; intros (? & ? & ?); intuition congruence.
      * by rewrite lookup_insert_ne.
  - intros key c. rewrite dom_insert_L, lookup_insert_Some. intros [[<- <-]|[Hne Hc]]; simpl.
    + clear -S3 Hown. set_solver.
    + pose proof (c_steal _ Hm _ _ Hc). set_solver.
  - intros key c. rewrite lookup_insert_Some, Hload, Hp0. intros [[<- <-]|[Hne Hc]]; simpl.
    + unfold pending_count. rewrite S4, E1, size_empty, w32_plus. f_equal. change (w32 (Z.of_nat 0)) with 0%Z. lia.
    + by apply (c_pending _ Hm).
  - intros key c. rewrite lookup_insert_Some, Hload, Hr0. intros [[<- <-]|[Hne Hc]]; simpl.
    + unfold running_count. rewrite S5, E2, E3, size_empty, w32_plus. f_equal.
      change (w32 (Z.of_nat (0 + 0))) with 0%Z. lia.
    + by apply (c_running _ Hm).
  - intros i wi. rewrite lookup_insert_Some. intros [[<- <-]|[Hne Hwi]]; [done|by apply (c_worker _ Hm i)].
Qed.
Lemma addWorker_consistent m now id caps shm ch host addr :
  consistent m → worker_map m !! id = None →
  ∃ m', addWorker now id caps shm ch host addr m = (Ret tt, m') ∧ consistent m' ∧
    worker_map m' = <[id := Worker.make now caps shm ch host]> (worker_map m).
Proof.
  intros Hm Hid. unfold addWorker. rewrite bind_get, decide_False by (rewrite Hid; by intros []).
  rewrite !bind_modify. erewrite bind_ret by (eapply on_class_run; [apply lookup_insert_eq|done]).
  eexists. split; [done|]. split; [|done].
  eapply (with_worker_consistent {[Worker.names (Worker.make now caps shm ch host)]} id (Worker.make now caps shm ch host)) in Hm;
    [|done|apply make_jobs|apply make_ok|done].
  unfold modify, set_num_free_workers, set_worker_equiv_classes. simpl. rewrite insert_insert_eq. exact Hm.
Qed.

Definition class_without (id : worker_id_t) (w : Worker.type) (c : equivalence_class.type) : equivalence_class.type :=
  equivalence_class.mk (w32 (n_pending_jobs c - pending_count w)) (w32 (n_running_jobs c - running_count w))
     (worker_ids c ∖ {[id]}) (idle_workers c ∖ {[id]}) (stealing_allowed_classes c).
Definition without_worker (id : worker_id_t) (w : Worker.type) (c : equivalence_class.type)
    (m : WorkerManager.type) : WorkerManager.type :=
  let key := Worker.names w in
  WorkerManager.mk (delete id (worker_map m)) (delete id (worker_connections m))
     (if decide (worker_ids c ∖ {[id]} = ∅)
      then set_stealing (λ s, s ∖ {[key]}) <$> delete key (worker_equiv_classes m)
      else <[key := class_without id w c]> (worker_equiv_classes m))
     (w64 (num_free_workers m - 1)).
Lemma deleteWorker_run m id w c :
  worker_map m !! id = Some w → worker_equiv_classes m !! Worker.names w = Some c →
  deleteWorker id m = (Ret tt, without_worker id w c m).
Proof.
  intros Hw Hc. unfold deleteWorker. rewrite bind_get, bind_fhg_assert.
  erewrite bind_ret by (by apply worker_found_run). rewrite decide_True by eauto. rewrite bind_mret.
  erewrite bind_ret.
  2:{ eapply on_class_run; [done|]. unfold remove_worker_entry. rewrite bind_modify.
      erewrite bind_ret by apply dec_pending_run. erewrite bind_ret by apply dec_running_run.
      instantiate (1 := class_without id w c). done. }
  erewrite bind_ret by (eapply class_at_run; apply lookup_insert_eq).
  unfold without_worker, n_workers. simpl. rewrite (decide_ext (size (worker_ids c ∖ {[id]}) = 0) (worker_ids c ∖ {[id]} = ∅))
    by (rewrite size_empty_iff; apply leibniz_equiv_iff).
  case_decide.
  - rewrite !bind_modify. unfold modify, set_worker_equiv_classes, set_worker_map, set_worker_connections. simpl.
    by rewrite delete_insert_eq.
  - done.
Qed.
Lemma w32_minus a b : w32 (w32 a - w32 b) = w32 (a - b).
Proof. unfold w32. by rewrite <- Zminus_mod. Qed.

(** What is left of the classes *)
Lemma without_worker_class m id w c key c' :
  consistent m → worker_map m !! id = Some w → worker_equiv_classes m !! Worker.names w = Some c →
  worker_equiv_classes (without_worker id w c m) !! key = Some c' →
  ∃ c0, worker_equiv_classes m !! key = Some c0 ∧
    worker_ids c' = worker_ids c0 ∖ {[id]} ∧ idle_workers c' = idle_workers c0 ∖ {[id]} ∧
    stealing_allowed_classes c' ⊆ dom (worker_equiv_classes (without_worker id w c m)) ∧
    n_pending_jobs c' = w32 (Z.of_nat (load (λ w, size (Worker.pending w)) key (delete id (worker_map m)))) ∧
    n_running_jobs c' = w32 (Z.of_nat (load running key (delete id (worker_map m)))).
Proof.
  intros Hm Hw Hc Hc'.
  assert (∀ f key, load f key (worker_map m) = share f key (id, w) + load f key (delete id (worker_map m))) as Hload
    by (intros; by apply load_delete).
  assert (∀ f, key ≠ Worker.names w → load f key (delete id (worker_map m)) = load f key (worker_map m)) as Hl.
  { intros f Hk. rewrite (Hload f key). unfold share. simpl. rewrite decide_False by done. done. }
  assert (∀ c0, worker_equiv_classes m !! key = Some c0 → key ≠ Worker.names w →
    (id ∉ worker_ids c0) ∧ (id ∉ idle_workers c0)) as Hno.
  { intros c0 Hc0 Hk. rewrite (c_class _ Hm _ _ _ Hc0), (c_idle _ Hm _ _ _ Hc0).
    split; [intros (w1 & Hw1 & Hn)|intros (w1 & Hw1 & Hn & _)]; simplify_eq; done. }
  unfold without_worker in *. cbn in *. destruct (decide (worker_ids c ∖ {[id]} = ∅)) as [He|He].
  - rewrite lookup_fmap in Hc'. apply fmap_Some in Hc' as (c0 & Hc0 & ->). apply lookup_delete_Some in Hc0 as [Hk Hc0].
    exists c0. destruct (Hno c0 Hc0) as [N1 N2]; [done|]. simpl. rewrite !remove_absent by done.
    split_and!; try done.
    + pose proof (c_steal _ Hm _ _ Hc0). rewrite dom_fmap_L, dom_delete_L. clear -H0. set_solver.
    + rewrite Hl by done. by apply (c_pending _ Hm).
    + rewrite Hl by done. by apply (c_running _ Hm).
  - assert (dom (<[Worker.names w := class_without id w c]> (worker_equiv_classes m)) = dom (worker_equiv_classes m)) as ->.
    { rewrite dom_insert_L. assert ((Worker.names w) ∈ dom (worker_equiv_classes m)) by (apply elem_of_dom; eauto). set_solver. }
    apply lookup_insert_Some in Hc' as [[<- <-]|[Hk Hc0]].
    + exists c. simpl. pose proof (Hload (λ w, size (Worker.pending w)) (Worker.names w)) as L1. pose proof (Hload running (Worker.names w)) as L2.
      unfold share in L1, L2. simpl in L1, L2. rewrite decide_True in L1, L2 by done.
      split_and!; try done.
      * by apply (c_steal _ Hm _ _ Hc).
      * rewrite (c_pending _ Hm _ _ Hc). unfold pending_count. rewrite w32_minus. f_equal. lia.
      * rewrite (c_running _ Hm _ _ Hc). unfold running_count. rewrite w32_minus. f_equal.
        unfold running in L2 at 2. lia.
    + exists c'. destruct (Hno c' Hc0) as [N1 N2]; [done|]. rewrite !remove_absent by done. split_and!; try done.
      * by apply (c_steal _ Hm _ _ Hc0).
      * rewrite Hl by done. by apply (c_pending _ Hm).
      * rewrite Hl by done. by apply (c_running _ Hm).
Qed.
Lemma deleteWorker_consistent m id w :
  consistent m → worker_map m !! id = Some w →
  ∃ m', deleteWorker id m = (Ret tt, m') ∧ consistent m' ∧ worker_map m' = delete id (worker_map m).
Proof.
  intros Hm Hw. destruct (c_known _ Hm _ _ Hw) as [c Hc]. eexists. split; [by apply deleteWorker_run|].
  split; [|done]. pose proof (without_worker_class m id w c) as Hclass.
  assert (∀ i k w1, (delete id (worker_map m) !! i = Some w1 ∧ Worker.names w1 = k) ↔
                     (i ≠ id ∧ worker_map m !! i = Some w1 ∧ Worker.names w1 = k)) as Hdel.
  { intros i k w1. rewrite lookup_delete_Some. intuition. }
  split.
  - intros key' c' i Hc'. destruct (Hclass _ _ Hm Hw Hc Hc') as (c0 & Hc0 & -> & _). cbn.
    rewrite elem_of_difference, elem_of_singleton, (c_class _ Hm _ _ _ Hc0). setoid_rewrite Hdel. naive_solver.
  - intros i wi. cbn. rewrite lookup_delete_Some. intros [Hi Hwi]. destruct (c_known _ Hm _ _ Hwi) as [ci Hci].
    case_decide as He.
    + rewrite lookup_fmap, lookup_delete_ne; [by rewrite Hci; eauto|]. intros Heq.
      assert (i ∈ worker_ids c) by (rewrite (c_class _ Hm _ _ _ Hc); eauto). set_solver.
    + destruct (decide (Worker.names w = Worker.names wi)) as [<-|]; [by rewrite lookup_insert_eq|]. by rewrite lookup_insert_ne.
  - intros key' c' i Hc'. destruct (Hclass _ _ Hm Hw Hc Hc') as (c0 & Hc0 & _ & -> & _). cbn.
    rewrite elem_of_difference, elem_of_singleton, (c_idle _ Hm _ _ _ Hc0). setoid_rewrite lookup_delete_Some. naive_solver.
  - intros key' c' Hc'. by destruct (Hclass _ _ Hm Hw Hc Hc') as (c0 & Hc0 & _ & _ & ? & _).
  - intros key' c' Hc'. by destruct (Hclass _ _ Hm Hw Hc Hc') as (c0 & Hc0 & _ & _ & _ & ? & _).
  - intros key' c' Hc'. by destruct (Hclass _ _ Hm Hw Hc Hc') as (c0 & Hc0 & _ & _ & _ & _ & ?).
  - intros i wi. cbn. rewrite lookup_delete_Some. intros [Hi Hwi]. by apply (c_worker _ Hm i).
Qed.

Lemma backlog_consistent m id w b :
  consistent m → worker_map m !! id = Some w →
  ∃ m', set_worker_backlog_full id b m = (Ret tt, m') ∧ consistent m' ∧
    worker_map m' = <[id := Worker.set_backlog_full b w]> (worker_map m).
Proof.
  intros Hm Hw. destruct (c_known _ Hm _ _ Hw) as [c Hc]. unfold set_worker_backlog_full.
  erewrite bind_ret by (unfold worker_at; rewrite bind_get; by rewrite Hw).
  eexists. split; [by eapply on_worker_run|]. split; [|done].
  replace (set_worker_map _ m) with (update id (Worker.set_backlog_full b w) c (num_free_workers m) m).
  2:{ unfold update, set_worker_map. f_equal. by apply insert_id. }
  eapply consistent_update; [done|done|done|done|exact (c_worker _ Hm id w Hw)|done| | | | ].
  - change (jobs (Worker.set_backlog_full b w)) with (jobs w).
    pose proof (c_idle _ Hm _ _ id Hc) as Hidle. case_decide as He.
    + assert (id ∈ idle_workers c) by (apply Hidle; eauto). set_solver.
    + rewrite remove_absent; [done|]. rewrite Hidle. intros (w1 & Hw1 & _ & ?). simplify_eq.
  - by apply (c_steal _ Hm _ _ Hc).
  - simpl. rewrite (c_pending _ Hm _ _ Hc), w32_plus. f_equal. lia.
  - change (running (Worker.set_backlog_full b w)) with (running w).
    rewrite (c_running _ Hm _ _ Hc), w32_plus. f_equal. lia.
Qed.

(** *** Changes of capabilities

    They are right for workers without jobs that leave other workers in their class. *)
Definition same_jobs (w w' : Worker.type) : Prop :=
  Worker.pending w' = Worker.pending w ∧ Worker.submitted w' = Worker.submitted w ∧
  Worker.acknowledged w' = Worker.acknowledged w ∧ Worker.reserved w' = Worker.reserved w ∧
  Worker.children_allowed w' = Worker.children_allowed w.
#[global] Instance same_jobs_refl : Reflexive same_jobs.
Proof. done. Qed.
Lemma same_jobs_preserved w {B} (f : M Worker.type exn B) : (∀ v, same_jobs v (f v).2) → preserves (same_jobs w) f.
Proof. intros Hf v (E1 & E2 & E3 & E4 & E5). destruct (Hf v) as (F1 & F2 & F3 & F4 & F5). repeat split; congruence. Qed.
Lemma preserves_foldl {S E X Y} (I : S → Prop) (f : X → Y → M S E X) (l : list Y) m :
  preserves I m → (∀ x y, preserves I (f x y)) → preserves I (foldl (λ m y, m ≫= λ x, f x y) m l).
Proof. intros Hm Hf. revert m Hm. induction l as [|y l IH]; intros m Hm; simpl; [done|]. apply IH. by apply preserves_bind. Qed.
Lemma addCapabilities_same cpbs w : same_jobs w (Worker.addCapabilities cpbs w).2.
Proof.
  apply (preserves_foldl (same_jobs w)); [apply preserves_ret| |done]. intros b c. apply same_jobs_preserved. intros v.
  unfold Worker.add_capability. rewrite bind_get. destruct (capability.find _ _); [|done]. by destruct (_ <? _)%Z.
Qed.
Lemma removeCapabilities_same cpbs w : same_jobs w (Worker.removeCapabilities cpbs w).2.
Proof.
  apply (preserves_bind (same_jobs w)); [|intros n; apply preserves_ret|done].
  apply (preserves_foldl (same_jobs w)); [apply preserves_ret|]. intros n c. apply same_jobs_preserved. intros v.
  unfold Worker.remove_capability, Worker.erase_name. rewrite bind_get, bind_modify. unfold mbind, M_bind.
  by destruct (refcounted_set.erase _ _) as [[[]|e] s].
Qed.
Lemma addCapabilities_ret cpbs w : ∃ b w', Worker.addCapabilities cpbs w = (Ret b, w') ∧ (b = false → w' = w).
Proof.
  unfold Worker.addCapabilities.
  assert (∀ l (m : M Worker.type exn bool), (∃ b w', m w = (Ret b, w') ∧ (b = false → w' = w)) →
    ∃ b w', foldl (λ m c, m ≫= λ b, Worker.add_capability b c) m l w = (Ret b, w') ∧ (b = false → w' = w)) as Hl; [|by apply Hl; eauto].
  induction l as [|c l IH]; intros m (b & w' & Hm & Hw); simpl; [eauto|]. apply IH. unfold mbind, M_bind. rewrite Hm.
  unfold Worker.add_capability. rewrite bind_get. destruct (capability.find _ _); [destruct (_ <? _)%Z|]; first [by eexists _, _|by exists b, w'].
Qed.
Lemma change_consistent m id w w' c :
  consistent m → worker_map m !! id = Some w → worker_equiv_classes m !! Worker.names w = Some c →
  jobs w = ∅ → same_jobs w w' → worker_ids c ∖ {[id]} ≠ ∅ →
  ∃ m', change_equivalence_class id (Worker.names w) (WorkerManager.set_worker_map (<[id := w']>) m) = (Ret tt, m') ∧ consistent m' ∧
    worker_map m' = <[id := w']> (worker_map m).
Proof.
  intros Hm Hw Hc Hj (E1 & E2 & E3 & E4 & E5) Hne. destruct (c_worker _ Hm _ _ Hw) as [Hd He].
  assert (pending_count w' = pending_count w ∧ running_count w' = running_count w) as [Ep Er]
    by (unfold pending_count, running_count; by rewrite E1, E2, E3).
  destruct (deleteWorker_consistent m id w Hm Hw) as (m1 & Hrun & Hm1 & Hmap). rewrite (deleteWorker_run m id w c Hw Hc) in Hrun. injection Hrun as <-.
  pose proof (with_worker_consistent ∅ id w' (worker_connections m) (num_free_workers m) _ Hm1) as Hcons.
  unfold change_equivalence_class. rewrite bind_get, bind_fhg_assert. cbn. rewrite decide_True by eauto. rewrite bind_mret.
  erewrite bind_ret by (apply worker_found_run; apply lookup_insert_eq).
  erewrite bind_ret.
  2:{ eapply on_class_run; [done|]. unfold remove_worker_entry. rewrite bind_modify.
      erewrite bind_ret by apply dec_pending_run. erewrite bind_ret by apply dec_running_run.
      instantiate (1 := class_without id w c). cbn. by rewrite Ep, Er. }
  erewrite bind_ret by (eapply class_at_run; apply lookup_insert_eq).
  rewrite decide_False.
  2:{ unfold n_workers. simpl. rewrite size_empty_iff. intros ?%leibniz_equiv. done. }
  rewrite bind_mret. eexists. split; [done|]. split; [|done].
  unfold with_worker, without_worker, class_of in Hcons. cbn in Hcons. rewrite decide_False, insert_delete_eq in Hcons by done.
  assert (∀ c0, set_stealing (λ s, ∅ ∪ s) c0 = c0) as Hid by (intros []; unfold set_stealing; simpl; by rewrite union_empty_l_L).
  rewrite Hid in Hcons. apply Hcons.
  - apply lookup_delete_eq.
  - unfold jobs. rewrite E1, E2, E3. exact Hj.
  - unfold worker_ok, disjoint_jobs, exclusive, running. by rewrite E1, E2, E3, E4, E5.
  - set_solver.
Qed.

(** ** Histories of a manager *)
Inductive op : Type :=
| Add (now : double) (id : worker_id_t) (cpbs : capability.set) (shm : Z) (children_allowed : bool)
      (hostname : string) (address : address_t)
| Remove (id : worker_id_t)
| Assign (job : job_id_t) (id : worker_id_t) (cost : double) (preferences : list string)
| Submit (job : job_id_t) (id : worker_id_t)
| Acknowledge (job : job_id_t) (id : worker_id_t)
| DeleteJob (now : double) (job : job_id_t) (id : worker_id_t) (cost : double)
| BacklogFull (id : worker_id_t) (val : bool)
| Gain (id : worker_id_t) (cpbs : capability.set)
| Lose (id : worker_id_t) (cpbs : capability.set).

Definition perform (o : op) : M WorkerManager.type exn unit :=
  match o with
  | Add now id cpbs shm ch host addr => addWorker now id cpbs shm ch host addr
  | Remove id => deleteWorker id
  | Assign job id cost prefs => assign_job_to_worker job id cost prefs
  | Submit job id => submit_job_to_worker job id
  | Acknowledge job id => acknowledge_job_sent_to_worker job id
  | DeleteJob now job id cost => delete_job_from_worker now job id cost
  | BacklogFull id val => set_worker_backlog_full id val
  | Gain id cpbs => add_worker_capabilities id cpbs ≫= λ _, mret tt
  | Lose id cpbs => remove_worker_capabilities id cpbs ≫= λ _, mret tt
  end.

(** what the callers see to: a worker that exists, a job in the right set; and what they do not
    see to: that the capabilities of a worker only change while it has no jobs and another worker
    has the same ones, and that a lost capability was there *)
Definition on (id : worker_id_t) (P : Worker.type → bool) (m : WorkerManager.type) : bool :=
  match worker_map m !! id with Some w => P w | None => false end.
Definition idle_in_company (id : worker_id_t) (m : WorkerManager.type) : bool :=
  on id (λ w, bool_decide (jobs w = ∅) &&
    existsb (λ x, bool_decide (x.1 ≠ id ∧ Worker.names x.2 = Worker.names w)) (map_to_list (worker_map m))) m.
Definition contract (o : op) (m : WorkerManager.type) : bool :=
  match o with
  | Add _ id _ _ _ _ _ => negb (hasWorker id m)
  | Remove id => hasWorker id m
  | Assign job id _ _ => on id (λ w, bool_decide (job ∉ jobs w)) m
  | Submit job id => on id (λ w, bool_decide (job ∈ Worker.pending w) && negb (Worker.isReserved w)) m
  | Acknowledge job id => on id (λ w, bool_decide (job ∈ Worker.submitted w)) m
  | DeleteJob _ job id _ => on id (λ w, bool_decide (job ∈ jobs w)) m
  | BacklogFull id _ => hasWorker id m
  | Gain id _ => idle_in_company id m
  | Lose id cpbs =>
      idle_in_company id m && on id (λ w, match (Worker.removeCapabilities cpbs w).1 with Ret b => b | Throw _ => false end) m
  end.
Definition after (os : list op) (m : WorkerManager.type) : WorkerManager.type :=
  foldl (λ m o, (perform o m).2) m os.
Fixpoint legal (os : list op) (m : WorkerManager.type) : bool :=
  match os with
  | [] => true
  | o :: os => contract o m && legal os (perform o m).2
  end.

Lemma empty_consistent : consistent WorkerManager.empty.
Proof. split; intros *; simpl; rewrite lookup_empty; done. Qed.
Lemma on_true id P m : on id P m = true → ∃ w, worker_map m !! id = Some w ∧ P w = true.
Proof. unfold on. destruct (worker_map m !! id); [eauto|done]. Qed.
Lemma hasWorker_true id m : hasWorker id m = true → ∃ w, worker_map m !! id = Some w.
Proof. unfold hasWorker. by intros ?%bool_decide_eq_true. Qed.

Lemma idle_in_company_true id m :
  consistent m → idle_in_company id m = true →
  ∃ w c, worker_map m !! id = Some w ∧ worker_equiv_classes m !! Worker.names w = Some c ∧ jobs w = ∅ ∧ worker_ids c ∖ {[id]} ≠ ∅.
Proof.
  intros Hm (w & Hw & [Hj%bool_decide_eq_true Hex]%andb_true_iff)%on_true. destruct (c_known _ Hm _ _ Hw) as [c Hc].
  exists w, c. split_and!; try done. apply existsb_exists in Hex as ([i wi] & Hin & [Hi Hn]%bool_decide_eq_true).
  apply list_elem_of_In, elem_of_map_to_list in Hin. simpl in *.
  assert (i ∈ worker_ids c) by (rewrite (c_class _ Hm _ _ _ Hc); eauto). set_solver.
Qed.
Lemma gain_consistent m id cpbs :
  consistent m → idle_in_company id m = true →
  ∃ b w w' m', worker_map m !! id = Some w ∧ same_jobs w w' ∧ add_worker_capabilities id cpbs m = (Ret b, m') ∧ consistent m' ∧
    worker_map m' = <[id := w']> (worker_map m).
Proof.
  intros Hm (w & c & Hw & Hc & Hj & Hne)%idle_in_company_true; [|done].
  destruct (addCapabilities_ret cpbs w) as (b & w' & Hr & Hb). pose proof (addCapabilities_same cpbs w) as Hsame. rewrite Hr in Hsame.
  unfold add_worker_capabilities. erewrite bind_ret by (by apply worker_found_run).
  erewrite bind_ret by (by eapply on_worker_run). destruct b.
  - destruct (change_consistent m id w w' c Hm Hw Hc Hj Hsame Hne) as (m' & Hrun & Hm' & Hmap).
    exists true, w, w', m'. split_and!; try done. by erewrite bind_ret by (exact Hrun).
  - rewrite (Hb eq_refl) in *. exists false, w, w, m. split_and!; [done|done| |done|by rewrite insert_id].
    destruct m as [wm wc we nf]. unfold set_worker_map. simpl in *. by rewrite insert_id.
Qed.
Lemma lose_consistent m id cpbs :
  consistent m → contract (Lose id cpbs) m = true →
  ∃ w w' m', worker_map m !! id = Some w ∧ same_jobs w w' ∧ remove_worker_capabilities id cpbs m = (Ret true, m') ∧ consistent m' ∧
    worker_map m' = <[id := w']> (worker_map m).
Proof.
  intros Hm [(w & c & Hw & Hc & Hj & Hne)%idle_in_company_true (w1 & Hw1 & Hb)%on_true]%andb_true_iff; [|done]. simplify_eq.
  pose proof (removeCapabilities_same cpbs w) as Hsame.
  destruct (Worker.removeCapabilities cpbs w) as [[b|e] w'] eqn:Hr; [|done]. simpl in Hb, Hsame. subst b.
  destruct (change_consistent m id w w' c Hm Hw Hc Hj Hsame Hne) as (m' & Hrun & Hm' & Hmap).
  exists w, w', m'. split_and!; try done. unfold remove_worker_capabilities. erewrite bind_ret by (by apply worker_found_run).
  erewrite bind_ret by (by eapply on_worker_run). cbv beta iota. by erewrite bind_ret by (exact Hrun).
Qed.
Lemma perform_consistent o m :
  consistent m → contract o m = true → ∃ m', perform o m = (Ret tt, m') ∧ consistent m'.
Proof.
  intros Hm. destruct o; simpl; intros Hc.
  - apply negb_true_iff, bool_decide_eq_false, eq_None_not_Some in Hc.
    destruct (addWorker_consistent m now id cpbs shm children_allowed hostname address) as (m' & ? & ? & _); eauto.
  - apply hasWorker_true in Hc as [w Hw]. destruct (deleteWorker_consistent m id w) as (m' & ? & ? & _); eauto.
  - apply on_true in Hc as (w & Hw & Hj%bool_decide_eq_true). unfold assign_job_to_worker.
    rewrite bind_get, bind_fhg_assert.
    destruct (assign_consistent m job id w cost preferences) as (m' & ? & ? & _); eauto.
  - apply on_true in Hc as (w & Hw & [Hj%bool_decide_eq_true Hr%negb_true_iff]%andb_true_iff).
    destruct (submit_consistent m job id w) as (m' & ? & ? & _); eauto.
  - apply on_true in Hc as (w & Hw & Hj%bool_decide_eq_true).
    destruct (acknowledge_consistent m job id w) as (m' & ? & ? & _); eauto.
  - apply on_true in Hc as (w & Hw & Hj%bool_decide_eq_true).
    destruct (delete_consistent m now job id cost w) as (m' & ? & ? & _); eauto.
  - apply hasWorker_true in Hc as [w Hw]. destruct (backlog_consistent m id w val) as (m' & ? & ? & _); eauto.
  - destruct (gain_consistent m id cpbs Hm Hc) as (b & w & w' & m' & _ & _ & Hrun & Hm' & _). exists m'.
    by erewrite bind_ret by (exact Hrun).
  - destruct (lose_consistent m id cpbs Hm Hc) as (w & w' & m' & _ & _ & Hrun & Hm' & _). exists m'.
    by erewrite bind_ret by (exact Hrun).
Qed.
Lemma legal_consistent os m : consistent m → legal os m = true → consistent (after os m).
Proof.
  revert m. induction os as [|o os IH]; simpl; intros m Hm; [done|]. intros [Hc Hl]%andb_true_iff.
  destruct (perform_consistent o m Hm Hc) as (m1 & Hr & Hm1). rewrite Hr in *. by apply IH.
Qed.

End operations.

(** the same operation on several workers, some of which may be gone *)
Definition touched (ids : list worker_id_t) (f : worker_id_t → Worker.type → Worker.type)
    (old new : gmap worker_id_t Worker.type) : Prop :=
  ∀ id, new !! id = if decide (id ∈ ids) then f id <$> old !! id else old !! id.
Lemma for_each_workers (act : worker_id_t → M WorkerManager.type exn unit)
    (f : worker_id_t → Worker.type → Worker.type) (P : Worker.type → Prop) :
  (∀ m id w, consistent m → worker_map m !! id = Some w → P w →
     ∃ m', act id m = (Ret tt, m') ∧ consistent m' ∧ worker_map m' = <[id := f id w]> (worker_map m)) →
  ∀ ids m, NoDup ids → consistent m → (∀ id w, id ∈ ids → worker_map m !! id = Some w → P w) →
  (∀ id, id ∈ ids → is_Some (worker_map m !! id) ∨ ∀ m, worker_map m !! id = None → act id m = (Ret tt, m)) →
  ∃ m', for_each act ids m = (Ret tt, m') ∧ consistent m' ∧ touched ids f (worker_map m) (worker_map m').
Proof.
  intros Hact. induction ids as [|i ids IH]; intros m Hnd Hm HP Hskip; simpl.
  { exists m. split; [done|]. split; [done|]. intros id. by rewrite decide_False by apply not_elem_of_nil. }
  apply NoDup_cons in Hnd as [Hi Hnd].
  destruct (worker_map m !! i) as [w|] eqn:Hw.
  - destruct (Hact m i w Hm Hw) as (m1 & Hr1 & Hm1 & Hmap1); [apply (HP i w); [left|done]|].
    assert (∀ j, j ∈ ids → worker_map m1 !! j = worker_map m !! j) as Hsame.
    { intros j Hj. rewrite Hmap1, lookup_insert_ne; [done|]. by intros ->. }
    destruct (IH m1 Hnd Hm1) as (m' & Hr & Hm' & Ht).
    { intros id w1 Hid. rewrite Hsame by done. apply HP. by right. }
    { intros id Hid. rewrite Hsame by done. apply Hskip. by right. }
    exists m'. rewrite (bind_ret _ _ _ _ _ Hr1). split; [done|]. split; [done|]. intros id. rewrite Ht, Hmap1.
    destruct (decide (id = i)) as [->|Hne].
    + rewrite decide_False by done. rewrite decide_True by left. by rewrite lookup_insert_eq, Hw.
    + rewrite lookup_insert_ne by done. rewrite (decide_ext (id ∈ i :: ids) (id ∈ ids)); [done|]. set_solver.
  - destruct (Hskip i) as [[? ?]|Hid]; [by left|congruence|].
    destruct (IH m Hnd Hm) as (m' & Hr & Hm' & Ht).
    { intros id w1 Hid'. apply HP. by right. }
    { intros id Hid'. apply Hskip. by right. }
    exists m'. rewrite (bind_ret _ _ _ _ _ (Hid m Hw)). split; [done|]. split; [done|]. intros id. rewrite Ht.
    destruct (decide (id = i)) as [->|Hne].
    + rewrite decide_False by done. rewrite decide_True by left. by rewrite Hw.
    + rewrite (decide_ext (id ∈ i :: ids) (id ∈ ids)); [done|]. set_solver.
Qed.

(** Three workers, one of which runs a job while another job waits for it; another one gains a
    capability *)
Definition example_history : list op :=
  let cap := capability.mk "CUDA" 0 "owner" "uuid" in
  [Add (S754_zero false) "w1" {["uuid" := cap]} 0 false "host" [];
   Add (S754_zero false) "w2" ∅ 0 false "host" [];
   Assign "j1" "w1" (of_Z 1) []; Assign "j2" "w1" (of_Z 1) ["CUDA"];
   Submit "j1" "w1"; Acknowledge "j1" "w1";
   Add (S754_zero false) "w3" ∅ 0 false "host" []; Gain "w3" {["uuid" := cap]}].
End Bookkeeping.
