(* ===== verification/SdpaAssign.v ===== *)
(** * The choice of workers for a job

    [find_assignment] walks over the classes of workers and keeps the best
    candidates in a bounded priority queue.  It computes what the definition
    [eligible] with a selection of the best says: nothing when there are too few
    eligible workers, otherwise as many workers as required, none of which is
    worse than one that is left out. *)

From Stdlib Require Import SpecFloat.
From S2P Require Import Prelude Value Token Function SdpaJob SdpaWorker SdpaManager SdpaInvariant.

Import equivalence_class WorkerManager Bookkeeping.

Module Assignment.

(** ** The comparison is a strict weak order

    unless a cost or a time is not a number *)
Fixpoint lexlt (l k : list Z) : bool :=
  match l, k with
  | [], _ :: _ => true
  | _, [] => false
  | a :: l, b :: k => (a <? b)%Z || (a =? b)%Z && lexlt l k
  end.
Lemma lexlt_irrefl l : lexlt l l = false.
Proof. induction l as [|a l IH]; simpl; [done|]. by rewrite Z.ltb_irrefl, Z.eqb_refl, IH. Qed.
Lemma lexlt_total l k : lexlt l k = false → lexlt k l = false → l = k.
Proof.
  revert k. induction l as [|a l IH]; intros [|b k]; simpl; try done.
  destruct (Z.ltb_spec a b), (Z.ltb_spec b a), (Z.eqb_spec a b), (Z.eqb_spec b a); simpl; try done; try lia.
  intros. f_equal; [done|by apply IH].
Qed.
Lemma lexlt_trans l k n : lexlt l k = true → lexlt k n = true → lexlt l n = true.
Proof.
  revert k n. induction l as [|a l IH]; intros [|b k] [|c n]; simpl; try done.
  rewrite !orb_true_iff, !andb_true_iff, !Z.ltb_lt, !Z.eqb_eq.
  intros [?|[? ?]] [?|[? ?]]; [left; lia|left; lia|left; lia|]. right. split; [lia|]. by apply (IH k).
Qed.
Lemma lexlt_asym l k : lexlt l k = true → lexlt k l = false.
Proof.
  intros Hlk. destruct (lexlt k l) eqn:Hkl; [|done]. by rewrite <- (lexlt_irrefl l), (lexlt_trans l k l).
Qed.
Lemma lexlt_neg l k n : lexlt l k = false → lexlt k n = false → lexlt l n = false.
Proof.
  intros Hlk Hkn. destruct (lexlt l n) eqn:Hln; [|done].
  destruct (lexlt k l) eqn:Hkl; [by rewrite (lexlt_trans k l n) in Hkn|].
  by rewrite (lexlt_total l k) in Hln by done; congruence.
Qed.
Lemma lexlt_app a b l k : length a = length b →
  lexlt (a ++ l) (b ++ k) = lexlt a b || negb (lexlt b a) && lexlt l k.
Proof.
  revert b. induction a as [|x a IH]; intros [|y b]; simpl; try done. intros [= Hab]. rewrite IH by done.
  destruct (Z.ltb_spec x y), (Z.ltb_spec y x), (Z.eqb_spec x y), (Z.eqb_spec y x); simpl; done || lia.
Qed.

(** the position of a number in the order of the doubles *)
Definition key (f : double) : list Z :=
  match f with
  | S754_infinity true => [(-2)%Z; 0%Z; 0%Z]
  | S754_finite true m e => [(-1)%Z; (- e)%Z; Z.neg m]
  | S754_zero _ | S754_nan => [0%Z; 0%Z; 0%Z]
  | S754_finite false m e => [1%Z; e; Z.pos m]
  | S754_infinity false => [2%Z; 0%Z; 0%Z]
  end.
Definition is_number (f : double) : bool := match f with S754_nan => false | _ => true end.
Lemma dlt_key f g : is_number f = true → is_number g = true → dlt f g = lexlt (key f) (key g).
Proof.
  unfold dlt, SFltb. destruct f as [[]|[]| |[] m e], g as [[]|[]| |[] n d]; try done; intros _ _; simpl;
    rewrite !andb_false_r, ?orb_false_r.
  - destruct (Z.compare_spec e d), (Z.ltb_spec (- e) (- d)), (Z.eqb_spec (- e) (- d)); simpl; try done; try lia.
  - destruct (Z.compare_spec e d), (Z.ltb_spec e d), (Z.eqb_spec e d); simpl; try done; try lia.
Qed.

Definition comparable (x : cost_and_matching_info.type) : bool :=
  is_number (cost_and_matching_info.cost x) && is_number (cost_and_matching_info.matching_degree x)
  && is_number (cost_and_matching_info.last_time_idle x).
Definition keys (x : cost_and_matching_info.type) : list Z :=
  key (cost_and_matching_info.cost x) ++ key (cost_and_matching_info.matching_degree x)
  ++ key (cost_and_matching_info.last_time_idle x).
Lemma length_key f : length (key f) = 3.
Proof. by destruct f as [|[]| |[]]. Qed.
Lemma compare_keys x y :
  comparable x = true → comparable y = true → cost_and_matching_info.compare x y = lexlt (keys x) (keys y).
Proof.
  unfold comparable, cost_and_matching_info.compare, keys. rewrite !andb_true_iff.
  intros [[? ?] ?] [[? ?] ?]. rewrite !lexlt_app by (by rewrite !length_key).
  rewrite !dlt_key by done. by rewrite Z.ltb_irrefl.
Qed.
(** the size of the shared memory never decides *)
Lemma compare_ignores_memory c d t id impl c' d' t' id' impl' mem mem' other other' :
  cost_and_matching_info.compare
    (cost_and_matching_info.mk c d mem t id impl) (cost_and_matching_info.mk c' d' mem' t' id' impl') =
  cost_and_matching_info.compare
    (cost_and_matching_info.mk c d other t id impl) (cost_and_matching_info.mk c' d' other' t' id' impl').
Proof. unfold cost_and_matching_info.compare. simpl. by rewrite !Z.ltb_irrefl. Qed.
Lemma compare_strict_weak l :
  forallb comparable l = true → strict_weak_on cost_and_matching_info.compare l.
Proof.
  rewrite forallb_forall. intros Hl. setoid_rewrite <- list_elem_of_In in Hl. split_and!.
  - intros x Hx. rewrite compare_keys by auto. apply lexlt_irrefl.
  - intros x y z Hx Hy Hz. rewrite !compare_keys by auto. apply lexlt_trans.
  - intros x y z Hx Hy Hz. rewrite !compare_keys by auto. apply lexlt_neg.
Qed.

(** ** The bounded priority queue *)
Abbreviation info := cost_and_matching_info.type.
Abbreviation compare := cost_and_matching_info.compare.

(** [kept] are the best of [kept] and [dropped]. *)
Definition best_of (kept dropped : list info) : Prop :=
  strict_weak_on compare (kept ++ dropped) → ∀ x y, x ∈ kept → y ∈ dropped → compare y x = false.
Definition bounded (n : Z) (kept dropped : list info) : Prop :=
  (Z.of_nat (length kept) ≤ n)%Z ∧ (dropped ≠ [] → Z.of_nat (length kept) = n) ∧ best_of kept dropped.

Section queue.
Context `{PriorityQueue}.

Lemma best_of_replace x top rest d :
  best_of (top :: rest) d → (strict_weak_on compare (top :: rest) → ∀ z, z ∈ top :: rest → compare top z = false) →
  compare x top = true → best_of (x :: rest) (top :: d).
Proof.
  intros Hb Htop Hx Hsw y z Hy Hz. pose proof Hsw as (Hirr & Htr & Hneg).
  assert (∀ a, a ∈ (top :: rest) ++ d → a ∈ (x :: rest) ++ top :: d) as Hin by (intros a; set_solver).
  assert (strict_weak_on compare ((top :: rest) ++ d)) as Hsw1 by (eapply strict_weak_on_mono; eauto).
  assert (strict_weak_on compare (top :: rest)) as Hsw2
    by (eapply strict_weak_on_mono; [|exact Hsw1]; set_solver).
  specialize (Hb Hsw1). specialize (Htop Hsw2).
  assert (x ∈ (x :: rest) ++ top :: d) as Ix by set_solver.
  assert (top ∈ (x :: rest) ++ top :: d) as It by set_solver.
  assert (z ∈ (x :: rest) ++ top :: d) as Iz by set_solver.
  apply elem_of_cons in Hy as [->|Hy], Hz as [->|Hz].
  - destruct (compare top x) eqn:Htx; [|done]. by rewrite <- (Hirr x Ix), (Htr x top x).
  - destruct (compare z x) eqn:Hzx; [|done]. rewrite <- (Hb top z) by (done || left). symmetry. by apply (Htr z x top).
  - apply Htop. by right.
  - apply Hb; [by right|done].
Qed.
Lemma best_of_drop x top rest d :
  best_of (top :: rest) d → (strict_weak_on compare (top :: rest) → ∀ z, z ∈ top :: rest → compare top z = false) →
  compare x top = false → best_of (top :: rest) (x :: d).
Proof.
  intros Hb Htop Hx Hsw y z Hy Hz. pose proof Hsw as (Hirr & Htr & Hneg).
  assert (strict_weak_on compare ((top :: rest) ++ d)) as Hsw1
    by (eapply strict_weak_on_mono; [|exact Hsw]; set_solver).
  assert (strict_weak_on compare (top :: rest)) as Hsw2
    by (eapply strict_weak_on_mono; [|exact Hsw1]; set_solver).
  apply elem_of_cons in Hz as [->|Hz]; [|by apply Hb].
  apply (Hneg x top y); [set_solver..|done|by apply Htop].
Qed.
Lemma best_of_perm c c' d : c ≡ₚ c' → best_of c d → best_of c' d.
Proof.
  intros Hc Hb Hsw x y Hx Hy. apply Hb; [|by rewrite Hc|done].
  eapply strict_weak_on_mono; [|exact Hsw]. intros z. by rewrite Hc.
Qed.

Lemma bpq_emplace_spec n x c d :
  (0 < n)%Z → bounded n c d →
  ∃ c' d', bpq_emplace n x c = Ret c' ∧ c ++ d ++ [x] ≡ₚ c' ++ d' ∧ bounded n c' d'.
Proof.
  intros Hn (Hlen & Hfull & Hb). unfold bpq_emplace. destruct (Z.ltb_spec (Z.of_nat (length c)) n) as [Hlt|Hge].
  - assert (d = []) as -> by (destruct d; [done|]; exfalso; specialize (Hfull ltac:(done)); lia).
    exists (x :: c), []. split; [done|]. rewrite app_nil_r. split; [by rewrite Permutation_app_comm|].
    split; [simpl; lia|]. split; [done|]. intros _ ? ? _ Hy. by apply elem_of_nil in Hy.
  - destruct (pq_pop compare c) as [[top rest]|] eqn:Hpop.
    2:{ apply pq_pop_none in Hpop as ->. simpl in *. lia. }
    pose proof (pq_pop_perm _ _ _ _ Hpop) as Hp. pose proof (Permutation_length Hp) as Hl. simpl in Hl.
    assert (strict_weak_on compare (top :: rest) → ∀ z, z ∈ top :: rest → compare top z = false) as Htop.
    { intros Hsw z Hz. apply (pq_pop_max _ _ _ _ Hpop); [|by rewrite Hp].
      eapply strict_weak_on_mono; [|exact Hsw]. intros a. by rewrite Hp. }
    apply (best_of_perm _ _ _ Hp) in Hb. destruct (compare x top) eqn:Hx.
    + exists (x :: rest), (top :: d). split; [done|]. split.
      { rewrite Hp. simpl. rewrite (Permutation_app_comm d). simpl. rewrite <- !Permutation_middle.
        apply perm_swap. }
      split; [simpl in *; lia|]. split; [simpl in *; lia|]. by apply best_of_replace.
    + exists c, (x :: d). split; [done|]. split; [by rewrite (Permutation_app_comm d)|].
      split; [lia|]. split; [lia|]. apply (best_of_perm (top :: rest)); [by symmetry|]. by apply best_of_drop.
Qed.

Definition emplace_all (n : Z) (l : list info) (c : outcome exn (list info)) : outcome exn (list info) :=
  foldl (λ c x, c ≫= bpq_emplace n x) c l.
Lemma emplace_all_spec n l c d :
  (0 < n)%Z → bounded n c d →
  ∃ c' d', emplace_all n l (Ret c) = Ret c' ∧ c ++ d ++ l ≡ₚ c' ++ d' ∧ bounded n c' d'.
Proof.
  intros Hn. revert c d. induction l as [|x l IH]; intros c d Hb; simpl.
  - exists c, d. by rewrite app_nil_r.
  - destruct (bpq_emplace_spec n x c d Hn Hb) as (c1 & d1 & Hr & Hp & Hb1). simpl. rewrite Hr.
    destruct (IH c1 d1 Hb1) as (c2 & d2 & Hr2 & Hp2 & Hb2). exists c2, d2. split; [done|]. split; [|done].
    rewrite <- Hp2, (app_assoc c1 d1 l), <- Hp, <- !app_assoc. done.
Qed.
End queue.

(** ** The reference *)
Definition eligible_worker (r : requirements.type) (x : worker_id_t * Worker.type) : option info :=
  match match_requirements_and_preferences (Worker.names x.2) r with
  | None => None
  | Some (degree, impl) => candidate r degree impl x.1 x.2
  end.
(** what the workers that can take part in the job would cost *)
Definition eligible (r : requirements.type) (m : WorkerManager.type) : list info :=
  omap (eligible_worker r) (map_to_list (worker_map m)).

Lemma candidate_id r degree impl id w x :
  candidate r degree impl id w = Some x → cost_and_matching_info.worker_id x = id.
Proof. unfold candidate. repeat case_match; try done. by intros [= <-]. Qed.
Lemma eligible_id r x i : eligible_worker r x = Some i → cost_and_matching_info.worker_id i = x.1.
Proof. unfold eligible_worker. destruct (match_requirements_and_preferences _ _) as [[]|]; [apply candidate_id|done]. Qed.

Lemma NoDup_omap_ids {A B K} (f : A → option B) (g : A → K) (h : B → K) l :
  (∀ a b, f a = Some b → h b = g a) → NoDup (g <$> l) → NoDup (h <$> omap f l).
Proof.
  intros Hfg. induction l as [|a l IH]; csimpl; [done|]. intros [Ha Hl]%NoDup_cons.
  destruct (f a) as [b|] eqn:Hb; [|by apply IH]. csimpl. apply NoDup_cons. split; [|by apply IH].
  rewrite (Hfg _ _ Hb). contradict Ha. apply list_elem_of_fmap in Ha as (b' & Heq & Hb').
  apply list_elem_of_omap in Hb' as (a' & Ha' & Hfa'). apply Hfg in Hfa'. rewrite Heq, Hfa'.
  by apply list_elem_of_fmap_2.
Qed.
Lemma NoDup_eligible r m : NoDup (cost_and_matching_info.worker_id <$> eligible r m).
Proof.
  apply (NoDup_omap_ids _ fst); [intros a b; apply eligible_id|]. apply NoDup_fst_map_to_list.
Qed.
Lemma elem_of_eligible r m i :
  i ∈ eligible r m ↔ ∃ id w, worker_map m !! id = Some w ∧ eligible_worker r (id, w) = Some i.
Proof.
  unfold eligible. rewrite list_elem_of_omap. split.
  - intros ([id w] & Hin & Hi). apply elem_of_map_to_list in Hin. eauto.
  - intros (id & w & Hw & Hi). exists (id, w). by rewrite elem_of_map_to_list.
Qed.

(** ** Through the classes *)
Section classes.
Context `{Unordered}.

Definition class_candidate (r : requirements.type) (m : WorkerManager.type) (degree : double)
    (impl : option string) (id : worker_id_t) : option info :=
  w ← worker_map m !! id; candidate r degree impl id w.
Definition class_candidates (r : requirements.type) (m : WorkerManager.type) (key : gset string) : list info :=
  match match_requirements_and_preferences key r with
  | None => []
  | Some (degree, impl) => omap (class_candidate r m degree impl) (unordered_elements (worker_ids (class_of key m)))
  end.
Lemma elem_of_class_candidates r m key i :
  consistent m → is_Some (worker_equiv_classes m !! key) →
  i ∈ class_candidates r m key ↔
  ∃ id w, worker_map m !! id = Some w ∧ Worker.names w = key ∧ eligible_worker r (id, w) = Some i.
Proof.
  intros Hm [c Hc]. unfold class_candidates, eligible_worker. simpl.
  assert (class_of key m = c) as -> by (unfold class_of; by rewrite Hc).
  destruct (match_requirements_and_preferences key r) as [[degree impl]|] eqn:Hk.
  - rewrite list_elem_of_omap. unfold class_candidate. split.
    + intros (id & Hid & Hi). rewrite elem_of_unordered_elements, (c_class _ Hm _ _ _ Hc) in Hid.
      destruct Hid as (w & Hw & Hn). rewrite Hw in Hi. exists id, w. by rewrite Hn, Hk.
    + intros (id & w & Hw & Hn & Hi). rewrite Hn, Hk in Hi. exists id.
      rewrite elem_of_unordered_elements, (c_class _ Hm _ _ _ Hc), Hw. simpl. eauto.
  - split; [by intros ?%elem_of_nil|]. intros (id & w & _ & Hn & Hi). by rewrite Hn, Hk in Hi.
Qed.
Lemma NoDup_class_candidates r m key : NoDup (cost_and_matching_info.worker_id <$> class_candidates r m key).
Proof.
  unfold class_candidates. destruct (match_requirements_and_preferences key r) as [[degree impl]|]; [|constructor].
  apply (NoDup_omap_ids _ id).
  - unfold class_candidate. intros id b. destruct (worker_map m !! id); simpl; [|done]. apply candidate_id.
  - rewrite list_fmap_id. apply NoDup_unordered_elements.
Qed.
Lemma elem_of_class_keys m key : key ∈ class_keys m ↔ is_Some (worker_equiv_classes m !! key).
Proof. unfold class_keys. by rewrite merge_sort_Permutation, elem_of_elements, elem_of_dom. Qed.
Lemma NoDup_class_keys m : NoDup (class_keys m).
Proof. unfold class_keys. rewrite merge_sort_Permutation. apply NoDup_elements. Qed.

(** The classes partition the eligible workers. *)
Lemma candidates_eligible r m :
  consistent m → mjoin (class_candidates r m <$> class_keys m) ≡ₚ eligible r m.
Proof.
  intros Hm.
  assert (∀ ks, NoDup ks → (∀ k, k ∈ ks → is_Some (worker_equiv_classes m !! k)) →
    NoDup (mjoin (class_candidates r m <$> ks))) as Hnd.
  { induction ks as [|k ks IH]; csimpl; [constructor|]. intros [Hk Hks]%NoDup_cons Hin.
    apply NoDup_app. split; [eapply NoDup_fmap_1, NoDup_class_candidates|]. split.
    - intros i Hi Hi'. apply list_elem_of_join in Hi' as (l & Hil & Hl).
      apply list_elem_of_fmap in Hl as (k' & -> & Hk').
      apply elem_of_class_candidates in Hi as (id & w & Hw & Hn & He); [|done|apply Hin; by left].
      apply elem_of_class_candidates in Hil as (id' & w' & Hw' & Hn' & He'); [|done|apply Hin; by right].
      apply eligible_id in He, He'. simpl in *. simplify_eq. done.
    - apply IH; [done|]. intros k' Hk'. apply Hin. by right. }
  apply NoDup_Permutation.
  - apply Hnd; [apply NoDup_class_keys|]. intros k. by rewrite elem_of_class_keys.
  - eapply NoDup_fmap_1, NoDup_eligible.
  - intros i. rewrite elem_of_eligible, list_elem_of_join. split.
    + intros (l & Hil & Hl). apply list_elem_of_fmap in Hl as (k & -> & Hk). apply elem_of_class_keys in Hk.
      apply elem_of_class_candidates in Hil as (id & w & Hw & Hn & He); eauto.
    + intros (id & w & Hw & Hi). exists (class_candidates r m (Worker.names w)). split.
      * apply elem_of_class_candidates; [done|by eapply c_known|eauto].
      * apply list_elem_of_fmap_2, elem_of_class_keys. by eapply c_known.
Qed.

Context `{PriorityQueue}.

Lemma emplace_all_app n l k c : emplace_all n (l ++ k) c = emplace_all n k (emplace_all n l c).
Proof. apply foldl_app. Qed.
Lemma visit_workers_run r m degree impl ids c :
  (∀ id, id ∈ ids → is_Some (worker_map m !! id)) →
  foldl (λ c id, c ≫= λ c, visit_worker m r degree impl c id) c ids =
  emplace_all (requirements.numWorkers r) (omap (class_candidate r m degree impl) ids) c.
Proof.
  revert c. induction ids as [|id ids IH]; intros c Hin; csimpl; [done|].
  destruct (Hin id) as [w Hw]; [by left|]. rewrite IH by (intros; apply Hin; by right).
  unfold class_candidate at 2. rewrite Hw. simpl.
  destruct (candidate r degree impl id w) as [x|] eqn:Hx; simpl; f_equal; destruct c as [c|e]; simpl; try done;
    unfold visit_worker; rewrite Hw; simpl; by rewrite Hx.
Qed.
Lemma visit_classes_run r m ks c :
  consistent m → (∀ k, k ∈ ks → is_Some (worker_equiv_classes m !! k)) →
  foldl (λ c key, c ≫= λ c, visit_class m r c key) c ks =
  emplace_all (requirements.numWorkers r) (mjoin (class_candidates r m <$> ks)) c.
Proof.
  intros Hm. revert c. induction ks as [|k ks IH]; intros c Hin; csimpl; [done|].
  rewrite emplace_all_app, IH by (intros; apply Hin; by right). f_equal.
  destruct (Hin k) as [cls Hcls]; [by left|]. unfold visit_class, class_candidates.
  destruct (match_requirements_and_preferences k r) as [[degree impl]|]; simpl; [|by destruct c].
  assert (class_of k m = cls) as -> by (unfold class_of; by rewrite Hcls).
  rewrite <- visit_workers_run.
  2:{ intros id. rewrite elem_of_unordered_elements, (c_class _ Hm _ _ _ Hcls). intros (w & -> & _). eauto. }
  rewrite Hcls. destruct c as [c|e]; simpl; [done|]. by induction (unordered_elements _).
Qed.

Lemma length_eligible r m : length (eligible r m) ≤ size (worker_map m).
Proof.
  unfold eligible. rewrite <- length_map_to_list. generalize (map_to_list (worker_map m)).
  induction l as [|x l IH]; csimpl; [done|]. destruct (eligible_worker r x); csimpl; lia.
Qed.

(** The result, also when costs cannot be compared *)
Lemma find_assignment_spec r m :
  consistent m → (0 < requirements.numWorkers r)%Z →
  ((Z.of_nat (length (eligible r m)) < requirements.numWorkers r)%Z ∧ find_assignment r m = Ret (∅, None)) ∨
  ∃ chosen others front rest,
    eligible r m ≡ₚ chosen ++ others ∧ Z.of_nat (length chosen) = requirements.numWorkers r ∧
    best_of chosen others ∧ pq_pop compare chosen = Some (front, rest) ∧
    find_assignment r m =
      Ret (list_to_set (cost_and_matching_info.worker_id <$> chosen), cost_and_matching_info.implementation front).
Proof.
  intros Hm Hn. pose proof (length_eligible r m) as Hle. unfold find_assignment.
  destruct (Z.ltb_spec (Z.of_nat (size (worker_map m))) (requirements.numWorkers r)) as [Hlt|Hge].
  { left. split; [lia|done]. }
  rewrite visit_classes_run by (done || intros; by apply elem_of_class_keys).
  destruct (emplace_all_spec (requirements.numWorkers r) (mjoin (class_candidates r m <$> class_keys m)) [] [] Hn)
    as (c & d & Hr & Hp & Hlen & Hfull & Hb).
  { split; [simpl; lia|]. split; [done|]. by intros _ ? ? ?%elem_of_nil. }
  rewrite Hr. simpl in *. rewrite candidates_eligible in Hp by done.
  destruct (Z.eqb_spec (Z.of_nat (length c)) (requirements.numWorkers r)) as [Heq|Hne].
  - right. destruct (pq_pop compare c) as [[front rest]|] eqn:Hpop.
    + exists c, d, front, rest. done.
    + apply pq_pop_none in Hpop as ->. simpl in *. lia.
  - left. split; [|done]. assert (d = []) as ->.
    { destruct d; [done|]. exfalso. by apply Hne, Hfull. }
    apply Permutation_length in Hp. rewrite app_nil_r in Hp. lia.
Qed.
Lemma find_assignment_known r m :
  consistent m → (0 < requirements.numWorkers r)%Z →
  ∃ ws impl, find_assignment r m = Ret (ws, impl) ∧ ws ⊆ dom (worker_map m).
Proof.
  intros Hm Hn. destruct (find_assignment_spec r m Hm Hn)
    as [[_ ->]|(chosen & others & front & rest & Hp & _ & _ & _ & ->)]; do 2 eexists; (split; [done|]).
  - set_solver.
  - intros id. rewrite elem_of_list_to_set, list_elem_of_fmap. intros (x & -> & Hx).
    assert (x ∈ eligible r m) as He by (rewrite Hp; set_solver).
    apply elem_of_eligible in He as (id & w & Hw & Hi). apply eligible_id in Hi as ->. simpl. by eapply elem_of_dom_2.
Qed.

(** C12: For a job that needs [n] workers, [find_assignment] gives no workers
    exactly when fewer than [n] workers are eligible: they have the mandatory
    capabilities and one of the preferred ones, enough shared memory, room in their
    backlog and, if [n > 1], no children.  Otherwise it gives [n] of them, each as
    good as every eligible worker that is left out: lower cost first, then higher
    degree of matching, then longer idle.  The implementation is that of a worst of
    the chosen workers. *)
Theorem find_assignment_optimal (r : requirements.type) (m : WorkerManager.type) :
  consistent m → (0 < requirements.numWorkers r)%Z → forallb comparable (eligible r m) = true →
  ((Z.of_nat (length (eligible r m)) < requirements.numWorkers r)%Z ∧ find_assignment r m = Ret (∅, None)) ∨
  ∃ chosen others worst,
    eligible r m ≡ₚ chosen ++ others ∧ Z.of_nat (length chosen) = requirements.numWorkers r ∧
    (∀ x y, x ∈ chosen → y ∈ others → compare y x = false) ∧
    worst ∈ chosen ∧ (∀ x, x ∈ chosen → compare worst x = false) ∧
    find_assignment r m =
      Ret (list_to_set (cost_and_matching_info.worker_id <$> chosen), cost_and_matching_info.implementation worst).
Proof.
  intros Hm Hn Hc. apply compare_strict_weak in Hc.
  destruct (find_assignment_spec r m Hm Hn) as [?|(chosen & others & front & rest & Hp & Hl & Hb & Hpop & Hr)]; [by left|].
  assert (∀ x, x ∈ chosen ++ others → x ∈ eligible r m) as Hin by (intros x; by rewrite Hp).
  right. exists chosen, others, front. split; [done|]. split; [done|]. split.
  - apply Hb. eapply strict_weak_on_mono; eauto.
  - pose proof (pq_pop_perm _ _ _ _ Hpop) as Hf. split; [rewrite Hf; by left|]. split; [|done].
    apply (pq_pop_max _ _ _ _ Hpop). eapply strict_weak_on_mono; [|exact Hc]. intros x Hx. apply Hin. set_solver.
Qed.
End classes.

(** A job for two workers; of the three workers one has too little memory. *)
Definition example_workers : list op :=
  [Add (of_Z 1) "w1" ∅ 10 false "host" []; Add (of_Z 2) "w2" ∅ 100 false "host" [];
   Add (of_Z 3) "w3" ∅ 100 false "host" []].
Definition example_job : requirements.type :=
  requirements.mk [] (Some 2%Z) (λ _, of_Z 1) (of_Z 1) 50 [].
Lemma find_assignment_optimal_witness :
  let off : AssertMode := {| assert_throws := false |} in
  let m := @after off example_workers WorkerManager.empty in
  (Z.of_nat (length (eligible example_job m)) = 2)%Z ∧
  ∃ chosen others worst,
    eligible example_job m ≡ₚ chosen ++ others ∧ Z.of_nat (length chosen) = 2%Z ∧
    find_assignment example_job m =
      Ret (list_to_set (cost_and_matching_info.worker_id <$> chosen), cost_and_matching_info.implementation worst).
Proof.
  intros off m. split; [vm_compute; reflexivity|].
  destruct (find_assignment_optimal example_job m) as [[Hlt _]|(c & l & f & Hp & Hlen & _ & _ & _ & Hr)].
  - apply (@legal_consistent off eq_refl); [apply empty_consistent|vm_compute; reflexivity].
  - vm_compute; reflexivity.
  - vm_compute; reflexivity.
  - exfalso. vm_compute in Hlt. discriminate Hlt.
  - exists c, l, f. split; [exact Hp|]. split; [exact Hlen|exact Hr].
Defined.
End Assignment.
