(* ===== verification/SdpaRound.v ===== *)
(** * A round of the scheduler

    Assigning the queued jobs, stealing and starting, as the scheduling thread of
    the agent does it: no step throws, no job is lost or in two places, and a job
    starts on all of its workers or on none. *)

From Stdlib Require Import SpecFloat.
From S2P Require Import Prelude Value Token Function SdpaJob SdpaWorker SdpaManager SdpaScheduler SdpaFrame SdpaInvariant SdpaAssign.

Import equivalence_class WorkerManager scheduler Bookkeeping.

Module Round.
Section round.
Context {activity_t : Type} (no_activity : activity_t).
Context `{AssertMode} (no_assert : assert_throws = false).
Context `{Unordered} `{PriorityQueue}.
Implicit Types (s : scheduler.type activity_t) (m : WorkerManager.type).

Abbreviation workers_of s := (worker_map (manager s)).

(** ** Agreement

    of the reservations with the jobs of the workers; [q] are the jobs that wait
    for an assignment *)
Record agrees (q : list job_id_t) s : Prop := {
  a_manager : consistent (manager s);
  a_queue : NoDup q;
  a_fresh : ∀ j, j ∈ q → allocation_table s !! j = None;
  a_reserved : ∀ id w j, workers_of s !! id = Some w → j ∈ jobs w →
    ∃ r, allocation_table s !! j = Some r ∧ id ∈ Reservation.workers r;
  a_alive : ∀ j r id w, allocation_table s !! j = Some r → id ∈ Reservation.workers r →
    workers_of s !! id = Some w → j ∈ jobs w;
  a_pending : ∀ j, j ∈ pending_jobs s → ∃ r, allocation_table s !! j = Some r ∧
    ∀ id, id ∈ Reservation.workers r → ∃ w, workers_of s !! id = Some w ∧ j ∈ Worker.pending w;
  a_waiting : ∀ id w j, workers_of s !! id = Some w → j ∈ Worker.pending w → j ∈ pending_jobs s
}.

(** ** Lifting of the manager's operations *)
Lemma on_manager_run {A} (f : M WorkerManager.type exn A) s r m' :
  f (manager s) = (r, m') → on_manager f s = (r, set_manager m' s).
Proof. unfold on_manager. by intros ->. Qed.
Lemma for_each_on_manager {A : Type} (f : A → M WorkerManager.type exn unit) l s :
  for_each (λ x, on_manager (f x)) l s = on_manager (for_each f l) s.
Proof.
  revert s. induction l as [|x l IH]; intros s; simpl; [by destruct s|].
  unfold mbind, M_bind, on_manager at 1 3. destruct (f x (manager s)) as [[[]|e] m1]; [|done].
  rewrite IH. unfold on_manager. simpl. by destruct (for_each f l m1).
Qed.

(** ** Reserving *)
Lemma emplace_none `{Countable K} {V} (k : K) (v : V) (t : gmap K V) :
  t !! k = None → (emplace k v t).1 = <[k := v]> t.
Proof. intros Hk. unfold emplace. by rewrite Hk. Qed.
Lemma reserve_spec q s job ws impl prefs cost :
  agrees (job :: q) s → (∀ id, id ∈ ws → is_Some (workers_of s !! id)) →
  ∃ s', reserve no_activity job ws impl prefs cost s = (Ret tt, s') ∧ agrees q s' ∧
    jobs_to_schedule s' = jobs_to_schedule s ∧
    (∃ r, allocation_table s' = <[job := r]> (allocation_table s)).
Proof.
  intros Hs Hws. unfold reserve.
  assert (allocation_table s !! job = None) as Hjob by (apply (a_fresh _ _ Hs); left).
  assert (∀ id w, workers_of s !! id = Some w → job ∉ jobs w) as Hfree.
  { intros id w Hw Hj. destruct (a_reserved _ _ Hs _ _ _ Hw Hj) as (r & Hr & _). congruence. }
  destruct (for_each_workers (λ worker, assign_job_to_worker job worker cost prefs)
              (λ _, assigned job cost) (λ w, job ∉ jobs w)) with (ids := ordered ws) (m := manager s)
    as (m' & Hr & Hm' & Ht).
  { intros m id w Hm Hw Hj. unfold assign_job_to_worker. rewrite bind_get, bind_fhg_assert by done.
    destruct (assign_consistent no_assert m job id w cost prefs) as (m' & ? & ? & ? & _); eauto. }
  { apply NoDup_ordered. } { apply (a_manager _ _ Hs). } { eauto. }
  { intros id Hid. left. apply Hws. by apply elem_of_ordered. }
  assert (∀ id w', worker_map m' !! id = Some w' → ∃ w, workers_of s !! id = Some w ∧
    w' = if decide (id ∈ ws) then assigned job cost w else w) as Hback.
  { intros id w'. rewrite Ht, (decide_ext _ _ _ _ (elem_of_ordered ws id)). case_decide; [|eauto].
    intros (w & -> & Hw)%fmap_Some. eauto. }
  eexists. erewrite bind_ret by (rewrite for_each_on_manager; by apply on_manager_run).
  rewrite bind_modify. unfold modify, set_pending_jobs, set_allocation_table, set_manager. simpl.
  rewrite emplace_none by done. split; [done|]. split; [|split; [done|eauto]].
  destruct (proj1 (NoDup_cons _ _) (a_queue _ _ Hs)) as [Hjq Hq].
  split; simpl.
  - done.
  - done.
  - intros j Hj. rewrite lookup_insert_ne by (by intros ->). apply (a_fresh _ _ Hs). by right.
  - intros id w' j Hw' Hj. destruct (Hback _ _ Hw') as (w & Hw & ->). destruct (decide (j = job)) as [->|Hne].
    + rewrite lookup_insert_eq. eexists. split; [done|]. simpl. case_decide; [done|]. by destruct (Hfree id w).
    + rewrite lookup_insert_ne by done. apply (a_reserved _ _ Hs id w); [done|].
      case_decide; [|done]. rewrite jobs_assigned in Hj. set_solver.
  - intros j r id w' Hr' Hid Hw'. destruct (Hback _ _ Hw') as (w & Hw & ->).
    apply lookup_insert_Some in Hr' as [[<- <-]|[Hne Hr']].
    + simpl in Hid. rewrite decide_True by done. rewrite jobs_assigned. set_solver.
    + pose proof (a_alive _ _ Hs _ _ _ _ Hr' Hid Hw). case_decide; [|done]. rewrite jobs_assigned. set_solver.
  - intros j Hj. destruct (decide (j = job)) as [->|Hne].
    + rewrite lookup_insert_eq. eexists. split; [done|]. simpl. intros id Hid. destruct (Hws id Hid) as [w Hw].
      exists (assigned job cost w). rewrite Ht, decide_True by (by apply elem_of_ordered). rewrite Hw.
      split; [done|]. simpl. set_solver.
    + rewrite lookup_insert_ne by done. destruct (a_pending _ _ Hs j) as (r & Hr' & Hpend); [set_solver|].
      exists r. split; [done|]. intros id Hid. destruct (Hpend id Hid) as (w & Hw & Hp). rewrite Ht, Hw.
      case_decide; eexists; (split; [done|]); simpl; set_solver.
  - intros id w' j Hw' Hj. destruct (Hback _ _ Hw') as (w & Hw & ->). case_decide; simpl in *.
    + apply elem_of_union in Hj as [?|Hj]; [set_solver|]. pose proof (a_waiting _ _ Hs _ _ _ Hw Hj). set_solver.
    + pose proof (a_waiting _ _ Hs _ _ _ Hw Hj). set_solver.
Qed.

(** ** Assigning *)
Section assigning.
Context (now : worker_id_t → double) (reqs : job_id_t → requirements.type).

(** Jobs for several workers have no preferences. *)
Definition schedulable (r : requirements.type) : bool :=
  (0 <? requirements.numWorkers r)%Z &&
  (bool_decide (requirements.preferences r = []) || (requirements.numWorkers r <=? 1)%Z).

(** the jobs that the scheduler knows *)
Definition known (q : list job_id_t) s (j : job_id_t) : Prop := j ∈ q ∨ is_Some (allocation_table s !! j).

Lemma agrees_perm q q' s : q ≡ₚ q' → agrees q s → agrees q' s.
Proof.
  intros Hq [H1' H2' H3' H4' H5' H6' H7']. split; try done.
  - by rewrite <- Hq.
  - intros j Hj. apply H3'. by rewrite Hq.
Qed.
Lemma agrees_queue q f s : agrees q s → agrees q (set_jobs_to_schedule f s).
Proof. by intros []. Qed.

Lemma compute_reservation_cost_ret job ws c m :
  (∀ id, id ∈ ws → is_Some (worker_map m !! id)) → ∃ cost, compute_reservation_cost reqs job ws c m = Ret cost.
Proof.
  intros Hws. unfold compute_reservation_cost.
  assert (∀ ids t, (∀ id, id ∈ ids → is_Some (worker_map m !! id)) → ∃ t',
    foldl (λ (t : outcome exn double) worker, t ≫= λ t, host ← host_INDICATES_A_RACE worker m;
             Ret (dadd t (requirements.transfer_cost (reqs job) host))) (Ret t) ids = Ret t') as Hf.
  { induction ids as [|i ids IH]; intros t Hin; simpl; [eauto|]. destruct (Hin i) as [w Hw]; [by left|].
    unfold host_INDICATES_A_RACE at 2. rewrite Hw. simpl. apply IH. intros. apply Hin. by right. }
  destruct (Hf (ordered ws) (S754_zero false)) as [t ->]; [|simpl; eauto].
  intros id Hid. apply Hws. by apply elem_of_ordered.
Qed.

Lemma assign_job_spec q s job :
  agrees (job :: q) s → schedulable (reqs job) = true →
  ∃ b s', assign_job no_activity now reqs job s = (Ret (Some b), s') ∧ jobs_to_schedule s' = jobs_to_schedule s ∧
    agrees (if b : bool then q else job :: q) s' ∧
    ∀ j, known (if b then q else job :: q) s' j ↔ known (job :: q) s j.
Proof.
  intros Hs [Hn%Z.ltb_lt Hp]%andb_true_iff. unfold assign_job.
  assert (negb (bool_decide (requirements.preferences (reqs job) = []))
          && (1 <? requirements.numWorkers (reqs job))%Z = false) as ->.
  { apply orb_true_iff in Hp as [->|Hp%Z.leb_le]; [done|]. apply andb_false_iff. right. apply Z.ltb_ge. lia. }
  rewrite bind_get. destruct (Assignment.find_assignment_known (reqs job) (manager s) (a_manager _ _ Hs) Hn)
    as (ws & impl & Hfa & Hws). rewrite bind_lift, Hfa. simpl. case_decide as He.
  { exists false, s. by split_and!. }
  assert (∀ id, id ∈ ws → is_Some (workers_of s !! id)) as Hws' by (intros; by apply elem_of_dom, Hws).
  rewrite decide_False by (rewrite (a_fresh _ _ Hs job) by left; by intros []).
  destruct (compute_reservation_cost_ret job ws (requirements.computational_cost (reqs job)) _ Hws') as [cost Hc].
  rewrite bind_lift, Hc. unfold try_reserve.
  destruct (reserve_spec q s job ws impl (requirements.preferences (reqs job)) cost Hs Hws')
    as (s' & -> & Hs' & Hq & r & Ht).
  exists true, s'. split; [done|]. split; [done|]. split; [done|]. intros j. unfold known. rewrite Ht, elem_of_cons.
  destruct (decide (j = job)) as [->|Hne].
  - rewrite lookup_insert_eq. split; eauto.
  - rewrite lookup_insert_ne by done. tauto.
Qed.

Lemma assign_loop_spec fuel js nm s :
  length js ≤ fuel → agrees (js ++ nm) s → (∀ j, j ∈ js → schedulable (reqs j) = true) →
  ∃ rest s', assign_loop no_activity now reqs fuel js nm s = (Ret rest, s') ∧
    jobs_to_schedule s' = jobs_to_schedule s ∧ agrees rest s' ∧ ∀ j, known rest s' j ↔ known (js ++ nm) s j.
Proof.
  revert js nm s. induction fuel as [|fuel IH]; intros [|job js] nm s Hf Hs Hok; simpl in *; try lia.
  { exists nm, s. by split_and!. } { exists nm, s. by split_and!. }
  destruct (assign_job_spec (js ++ nm) s job Hs) as (b & s1 & Hr & Hq & Hs1 & Hk); [apply Hok; by left|].
  rewrite (bind_ret _ _ _ _ _ Hr). destruct b.
  - destruct (IH js nm s1) as (rest & s' & Hl & Hq' & Hs' & Hk'); [lia|done|intros; apply Hok; by right|].
    exists rest, s'. split_and!; [done|congruence|done|]. intros j. by rewrite Hk', Hk.
  - assert (job :: js ++ nm ≡ₚ js ++ nm ++ [job]) as Hperm.
    { rewrite (app_assoc js nm [job]). rewrite (Permutation_app_comm (js ++ nm)). done. }
    destruct (IH js (nm ++ [job]) s1) as (rest & s' & Hl & Hq' & Hs' & Hk').
    { lia. } { by apply (agrees_perm _ _ _ Hperm). } { intros. apply Hok. by right. }
    exists rest, s'. split_and!; [done|congruence|done|]. intros j. rewrite Hk'. unfold known in *.
    by rewrite <- Hperm, Hk.
Qed.

Lemma assignJobsToWorkers_spec fuel s :
  length (jobs_to_schedule s) ≤ fuel → agrees (jobs_to_schedule s) s →
  (∀ j, j ∈ jobs_to_schedule s → schedulable (reqs j) = true) →
  ∃ s', assignJobsToWorkers no_activity now reqs fuel s = (Ret tt, s') ∧ agrees (jobs_to_schedule s') s' ∧
    ∀ j, known (jobs_to_schedule s') s' j ↔ known (jobs_to_schedule s) s j.
Proof.
  intros Hf Hs Hok. unfold assignJobsToWorkers. unfold get_and_clear.
  erewrite bind_ret by done.
  destruct (assign_loop_spec fuel (jobs_to_schedule s) [] (set_jobs_to_schedule (λ _, []) s)) as (rest & s' & Hr & Hq & Hs' & Hk).
  { done. } { rewrite app_nil_r. by apply agrees_queue. } { done. }
  erewrite bind_ret by done. eexists. split; [done|]. simpl. rewrite Hq. simpl.
  split; [by apply agrees_queue|]. intros j. rewrite app_nil_r in Hk. apply Hk.
Qed.
End assigning.

(** ** Stealing *)
Section stealing.
Context (now : worker_id_t → double).

Lemma reservation_at_run s j r : allocation_table s !! j = Some r → reservation_at j s = (Ret r, s).
Proof. intros Hr. unfold reservation_at. rewrite bind_get. by rewrite Hr. Qed.
Lemma most_expensive_job_spec s js :
  js ≠ [] → (∀ j, j ∈ js → is_Some (allocation_table s !! j)) →
  ∃ j, j ∈ js ∧ most_expensive_job js s = (Ret (Some j), s).
Proof.
  intros Hne Hin. destruct js as [|j0 js]; [done|]. simpl.
  assert (∀ (l : list job_id_t) (m : M (scheduler.type activity_t) exn job_id_t) j,
    m s = (Ret j, s) → is_Some (allocation_table s !! j) →
    (∀ j, j ∈ l → is_Some (allocation_table s !! j)) →
    ∃ j', (j' = j ∨ j' ∈ l) ∧ foldl max_step m l s = (Ret j', s)) as Hfold.
  { induction l as [|k l IH]; intros m j Hm Hj Hl; simpl; [eauto|].
    destruct Hj as [rj Hj]. destruct (Hl k) as [rk Hk]; [by left|].
    destruct (IH (max_step m k) (if dlt (Reservation.cost rj) (Reservation.cost rk) then k else j)) as (j' & Hj' & Hr).
    - unfold max_step. rewrite (bind_ret _ _ _ _ _ Hm), (bind_ret _ _ _ _ _ (reservation_at_run _ _ _ Hj)),
        (bind_ret _ _ _ _ _ (reservation_at_run _ _ _ Hk)). done.
    - case_match; eauto.
    - intros i Hi. apply Hl. by right.
    - exists j'. split; [|done]. destruct Hj' as [->|Hj']; [|right; by right]. case_match; [right; by left|by left]. }
  destruct (Hfold js (mret j0) j0) as (j & Hj & Hr); [done|apply Hin; by left|intros; apply Hin; by right|].
  exists j. split; [destruct Hj as [->|?]; [by left|by right]|]. by rewrite (bind_ret _ _ _ _ _ Hr).
Qed.

(** the reservation after its worker was replaced *)
Definition replaced (richest thief : worker_id_t) (impl : option string) (r : Reservation.type activity_t) :
    Reservation.type activity_t :=
  Reservation.mk (({[thief]} ∪ Reservation.workers r) ∖ {[richest]}) impl (Reservation.preferences r)
    (Reservation.cost r) (Reservation.individual_results r) (Reservation.last_success r).
Lemma replace_worker_run richest thief wt r p :
  richest ∈ Reservation.workers r →
  list_find (λ p, Worker.hasCapability p wt = true) (Reservation.preferences r) = p →
  bool_decide (Reservation.preferences r = []) || bool_decide (is_Some p) = true →
  let impl := match Reservation.preferences r with [] => None | _ => snd <$> p end in
  Reservation.replace_worker richest thief impl (λ c, Worker.hasCapability c wt) r =
    (Ret tt, replaced richest thief impl r).
Proof.
  intros Hin Hp Hok impl. unfold Reservation.replace_worker. rewrite bind_get.
  rewrite bool_decide_true by done. simpl. unfold impl, replaced. clear impl.
  destruct (Reservation.preferences r) as [|p0 ps] eqn:Hps; [done|].
  simpl in Hok. apply bool_decide_eq_true in Hok as [[i q] Hq]. rewrite Hq in *. simpl.
  apply list_find_Some in Hp as (Hl & Hc & _). apply list_elem_of_lookup_2 in Hl.
  rewrite decide_True by done. rewrite bind_mret. rewrite Hc. done.
Qed.

(** What stealing does to the workers and the reservations *)
Definition stolen s job richest thief impl r m' : scheduler.type activity_t :=
  mk m' (jobs_to_schedule s) (<[job := replaced richest thief impl r]> (allocation_table s)) (pending_jobs s).
(** where a worker of the new state comes from *)
Lemma stolen_workers s job richest thief rw tw cost (wm : gmap worker_id_t Worker.type) id w' :
  worker_ok rw → workers_of s !! richest = Some rw → workers_of s !! thief = Some tw → jobs tw = ∅ →
  wm = <[richest := deleted (now richest) job cost rw]> (<[thief := assigned job cost tw]> (workers_of s)) →
  wm !! id = Some w' → ∃ w, workers_of s !! id = Some w ∧
    (id = richest ∧ jobs w' = jobs w ∖ {[job]} ∧ Worker.pending w' = Worker.pending w ∖ {[job]} ∨
     id = thief ∧ id ≠ richest ∧ jobs w' = {[job]} ∧ Worker.pending w' = {[job]} ∨
     id ≠ richest ∧ id ≠ thief ∧ w' = w).
Proof.
  intros Hok Hrw Htw Hidle ->. rewrite !lookup_insert_Some. intros [[<- <-]|[Hn [[<- <-]|[Hn' Hw]]]].
  - exists rw. split; [done|]. left. rewrite pending_deleted, jobs_deleted by done. done.
  - exists tw. split; [done|]. right. left. rewrite jobs_assigned. unfold jobs in *. simpl.
    split; [done|]. split; [done|]. split; set_solver.
  - exists w'. split; [done|]. right. right. done.
Qed.
Lemma stolen_agrees q s job richest thief rw tw impl r m' :
  agrees q s → workers_of s !! richest = Some rw → workers_of s !! thief = Some tw → jobs tw = ∅ →
  job ∈ Worker.pending rw → allocation_table s !! job = Some r → consistent m' →
  worker_map m' = <[richest := deleted (now richest) job (Reservation.cost r) rw]>
                    (<[thief := assigned job (Reservation.cost r) tw]> (workers_of s)) →
  agrees q (stolen s job richest thief impl r m').
Proof.
  intros Hs Hrw Htw Hidle Hjob Hr Hm' Hmap.
  assert (job ∈ pending_jobs s) as Hpj by (by apply (a_waiting _ _ Hs richest rw)).
  pose proof (c_worker _ (a_manager _ _ Hs) _ _ Hrw) as Hok.
  pose proof (λ id w', stolen_workers s job richest thief rw tw (Reservation.cost r) _ id w' Hok Hrw Htw Hidle Hmap)
    as Hback.
  split; simpl.
  - done.
  - apply (a_queue _ _ Hs).
  - intros j Hj. rewrite lookup_insert_ne; [by apply (a_fresh _ _ Hs)|]. intros <-.
    pose proof (a_fresh _ _ Hs _ Hj). congruence.
  - intros id w' j Hw' Hj. destruct (Hback _ _ Hw') as (w & Hw & Hcase). destruct (decide (job = j)) as [<-|Hj'].
    + rewrite lookup_insert_eq. eexists. split; [done|]. simpl. apply elem_of_difference. rewrite elem_of_singleton.
      destruct Hcase as [(-> & Hjw & _)|[(-> & ? & _)|(? & ? & ->)]].
      * rewrite Hjw in Hj. by apply elem_of_difference in Hj as [_ []%not_elem_of_singleton].
      * split; [|done]. apply elem_of_union_l. by apply elem_of_singleton.
      * destruct (a_reserved _ _ Hs _ _ _ Hw Hj) as (r' & ? & ?). simplify_eq. split; [by apply elem_of_union_r|done].
    + rewrite lookup_insert_ne by done. apply (a_reserved _ _ Hs id w); [done|].
      destruct Hcase as [(-> & Hjw & _)|[(-> & ? & Hjw & _)|(? & ? & ->)]]; [| |done].
      * rewrite Hjw in Hj. by apply elem_of_difference in Hj as [? _].
      * rewrite Hjw in Hj. by apply elem_of_singleton in Hj as ->.
  - intros j r' id w' Hr' Hid Hw'. destruct (Hback _ _ Hw') as (w & Hw & Hcase).
    apply lookup_insert_Some in Hr' as [[<- <-]|[Hj' Hr']]; simpl in *.
    + apply elem_of_difference in Hid as [Hid Hnr%not_elem_of_singleton].
      destruct Hcase as [(-> & _)|[(-> & ? & Hjw & _)|(? & Ht & ->)]].
      * done.
      * rewrite Hjw. by apply elem_of_singleton.
      * apply elem_of_union in Hid as [Hid|Hid]; [by apply elem_of_singleton in Hid|].
        by apply (a_alive _ _ Hs job r id).
    + pose proof (a_alive _ _ Hs _ _ _ _ Hr' Hid Hw) as Hjw0.
      destruct Hcase as [(-> & Hjw & _)|[(-> & ? & Hjw & _)|(? & ? & ->)]]; [| |done].
      * rewrite Hjw. apply elem_of_difference. split; [done|]. by rewrite elem_of_singleton.
      * simplify_eq. rewrite Hidle in Hjw0. by apply elem_of_empty in Hjw0.
  - intros j Hj. destruct (a_pending _ _ Hs j Hj) as (rj & Hrj & Hpend). destruct (decide (job = j)) as [<-|Hj'].
    + simplify_eq. rewrite lookup_insert_eq. eexists. split; [done|]. simpl. intros id Hid.
      apply elem_of_difference in Hid as [Hid Hnr%not_elem_of_singleton].
      rewrite Hmap, lookup_insert_ne by done. destruct (decide (thief = id)) as [<-|Ht].
      * rewrite lookup_insert_eq. eexists. split; [done|]. simpl. apply elem_of_union_l. by apply elem_of_singleton.
      * rewrite lookup_insert_ne by done. apply Hpend.
        apply elem_of_union in Hid as [Hid|Hid]; [by apply elem_of_singleton in Hid|done].
    + rewrite lookup_insert_ne by done. exists rj. split; [done|]. intros id Hid. rewrite Hmap.
      destruct (Hpend id Hid) as (w & Hw & Hp). destruct (decide (richest = id)) as [<-|Hi].
      * rewrite lookup_insert_eq. eexists. split; [done|]. rewrite pending_deleted. simplify_eq.
        apply elem_of_difference. split; [done|]. by rewrite elem_of_singleton.
      * rewrite lookup_insert_ne by done. destruct (decide (thief = id)) as [<-|Hi'].
        -- simplify_eq. apply jobs_empty in Hidle as [He _]. rewrite He in Hp. by apply elem_of_empty in Hp.
        -- rewrite lookup_insert_ne by done. eauto.
  - intros id w' j Hw' Hj. destruct (Hback _ _ Hw') as (w & Hw & Hcase).
    destruct Hcase as [(-> & _ & Hp)|[(-> & ? & _ & Hp)|(? & ? & ->)]].
    + apply (a_waiting _ _ Hs richest w); [done|]. rewrite Hp in Hj. by apply elem_of_difference in Hj as [? _].
    + rewrite Hp in Hj. by apply elem_of_singleton in Hj as ->.
    + by apply (a_waiting _ _ Hs id w).
Qed.

Lemma steal_one_spec q s richest thief rw tw :
  agrees q s → workers_of s !! richest = Some rw → Worker.pending rw ≠ ∅ →
  workers_of s !! thief = Some tw → jobs tw = ∅ →
  ∃ b s', steal_one now richest thief s = (Ret b, s') ∧ agrees q s' ∧
    jobs_to_schedule s' = jobs_to_schedule s ∧ dom (allocation_table s') = dom (allocation_table s) ∧
    dom (worker_equiv_classes (manager s')) = dom (worker_equiv_classes (manager s)) ∧
    (∀ id, id ≠ richest → id ≠ thief → workers_of s' !! id = workers_of s !! id) ∧
    is_Some (workers_of s' !! richest) ∧ (b = false → s' = s).
Proof.
  intros Hs Hrw Hp Htw Hidle. unfold steal_one.
  assert (richest ≠ thief) as Hne.
  { intros <-. simplify_eq. by apply jobs_empty in Hidle as [? _]. }
  rewrite (bind_ret _ _ _ _ _ (on_manager_run _ _ _ _ (worker_found_run _ _ _ Hrw))). destruct s as [m q0 t p].
  rewrite (bind_ret _ _ _ _ _ (on_manager_run _ _ _ _ (worker_found_run _ _ _ Htw))). simpl in *.
  set (s := mk m q0 t p) in *. change (set_manager m s) with s.
  destruct (most_expensive_job_spec s (ordered (Worker.pending rw))) as (job & Hjob & Hme).
  { intros He. apply Hp, set_eq. intros j. by rewrite <- elem_of_ordered, He, elem_of_nil, elem_of_empty. }
  { intros j Hj. apply elem_of_ordered in Hj. destruct (a_pending _ _ Hs j) as (r & Hr & _); [|eauto].
    by apply (a_waiting _ _ Hs richest rw). }
  apply elem_of_ordered in Hjob. rewrite (bind_ret _ _ _ _ _ Hme), bind_fhg_assert, bind_lift by done. simpl.
  destruct (a_pending _ _ Hs job) as (r & Hr & _); [by apply (a_waiting _ _ Hs richest rw)|].
  assert (job ∈ jobs rw) as Hjr by (unfold jobs; set_solver).
  destruct (a_reserved _ _ Hs _ _ _ Hrw Hjr) as (r' & Hr' & Hin). simplify_eq.
  rewrite (bind_ret _ _ _ _ _ (reservation_at_run _ _ _ Hr)).
  destruct (bool_decide (Reservation.preferences r = []) || _) eqn:Hok.
  2:{ exists false, s. split; [done|]. by split_and!. }
  erewrite bind_ret.
  2:{ unfold on_reservation. rewrite (bind_ret _ _ _ _ _ (reservation_at_run _ _ _ Hr)).
      rewrite (replace_worker_run richest thief tw r _ Hin eq_refl Hok). by rewrite bind_modify. }
  set (impl := match Reservation.preferences r with [] => None | _ => _ end).
  destruct (assign_consistent no_assert m job thief tw (Reservation.cost r) (Reservation.preferences r))
    as (m1 & Hr1 & Hm1 & Hmap1 & Hdom1); [apply (a_manager _ _ Hs)|done|rewrite Hidle; set_solver|].
  erewrite bind_ret by (apply on_manager_run; exact Hr1).
  destruct (delete_consistent no_assert m1 (now richest) job richest (Reservation.cost r) rw)
    as (m2 & Hr2 & Hm2 & Hmap2 & Hdom2); [done|by rewrite Hmap1, lookup_insert_ne|done|].
  erewrite bind_ret by (apply on_manager_run; exact Hr2). rewrite Hmap1 in Hmap2.
  eexists true, _. split; [done|]. split; [by apply (stolen_agrees q s job richest thief rw tw impl r m2)|].
  simpl. split; [done|]. split.
  { rewrite dom_insert_L. assert (job ∈ dom t) by (by eapply elem_of_dom_2). clear -H2. set_solver. }
  split; [congruence|]. rewrite Hmap2. split.
  - intros id Hid Hid'. by rewrite !lookup_insert_ne.
  - split; [by rewrite lookup_insert_eq|done].
Qed.

(** Idle thieves, and workers that have pending jobs *)
Definition idle s (id : worker_id_t) : Prop := ∃ w, workers_of s !! id = Some w ∧ jobs w = ∅.
Definition rich s (id : worker_id_t) : Prop := ∃ w, workers_of s !! id = Some w ∧ Worker.pending w ≠ ∅.
Lemma idle_not_rich s id : idle s id → rich s id → False.
Proof. intros (w & Hw & He) (w' & Hw' & Hne). simplify_eq. by apply jobs_empty in He as [? _]. Qed.
Lemma stealing_allowed_rich s id w :
  workers_of s !! id = Some w → Worker.stealing_allowed w = true → rich s id.
Proof.
  intros Hw. unfold Worker.stealing_allowed, Worker.has_pending_jobs.
  rewrite orb_true_iff, andb_true_iff, negb_true_iff, bool_decide_eq_false, bool_decide_eq_true.
  intros [[? _]|Hs]; exists w; (split; [done|]); [done|]. intros He. rewrite He, size_empty in Hs. lia.
Qed.

(** what does not change while jobs are stolen *)
Definition same_jobs (q : list job_id_t) s s' : Prop :=
  agrees q s' ∧ jobs_to_schedule s' = jobs_to_schedule s ∧ dom (allocation_table s') = dom (allocation_table s) ∧
  dom (worker_equiv_classes (manager s')) = dom (worker_equiv_classes (manager s)).
Lemma same_jobs_trans q s1 s2 s3 : same_jobs q s1 s2 → same_jobs q s2 s3 → same_jobs q s1 s3.
Proof. intros (? & ? & ? & ?) (? & ? & ? & ?). split_and!; congruence. Qed.

Lemma steal_loop_spec q thieves from s :
  agrees q s → NoDup thieves → NoDup from → (∀ id, id ∈ thieves → idle s id) → (∀ id, id ∈ from → rich s id) →
  ∃ s', steal_loop now thieves from s = (Ret tt, s') ∧ same_jobs q s s'.
Proof.
  revert from s. induction thieves as [|thief thieves IH]; intros from s Hs Hnt Hnf Hth Hfr; simpl.
  { exists s. by split_and!. }
  rewrite bind_get. destruct (pq_pop _ from) as [[richest rest]|] eqn:Hpop; [|by exists s; split_and!].
  pose proof (pq_pop_perm _ _ _ _ Hpop) as Hperm. apply NoDup_cons in Hnt as [Ht Hnt].
  assert (NoDup (richest :: rest)) as Hnr by (by rewrite <- Hperm). apply NoDup_cons in Hnr as Hnr'. destruct Hnr' as [Hr Hnr'].
  destruct (Hfr richest) as (rw & Hrw & Hpe); [rewrite Hperm; by left|].
  destruct (Hth thief) as (tw & Htw & Hid); [by left|].
  destruct (steal_one_spec q s richest thief rw tw Hs Hrw Hpe Htw Hid)
    as (b & s1 & Hrun & Hs1 & Hq1 & Hd1 & Hc1 & Hother & [rw' Hrw'] & Hsame).
  rewrite (bind_ret _ _ _ _ _ Hrun). assert (same_jobs q s s1) as Hsj by (by split_and!).
  assert (∀ id, id ∈ thieves → id ≠ richest ∧ id ≠ thief) as Hthief.
  { intros id Hi. split; [|by intros ->]. intros ->. apply (idle_not_rich s richest); [apply Hth; by right|].
    exists rw. done. }
  assert (∀ id, id ∈ rest → id ≠ richest ∧ id ≠ thief) as Hrest.
  { intros id Hi. split; [by intros ->|]. intros ->. apply (idle_not_rich s thief); [apply Hth; by left|].
    apply Hfr. rewrite Hperm. by right. }
  destruct b.
  - rewrite (bind_ret _ _ _ _ _ (on_manager_run _ _ _ _ (worker_found_run _ _ _ Hrw'))).
    replace (set_manager (manager s1) s1) with s1 by (by destruct s1).
    destruct (IH (if Worker.stealing_allowed rw' then richest :: rest else rest) s1) as (s' & Hl & Hsj').
    + done.
    + done.
    + by destruct (Worker.stealing_allowed rw').
    + intros id Hi. unfold idle. destruct (Hthief id Hi). rewrite Hother by done. apply Hth. by right.
    + assert (∀ id, id ∈ rest → rich s1 id) as Hrr.
      { intros id Hi. unfold rich. destruct (Hrest id Hi). rewrite Hother by done. apply Hfr. rewrite Hperm. by right. }
      intros id Hi. destruct (Worker.stealing_allowed rw') eqn:Hsa; [|by apply Hrr].
      apply elem_of_cons in Hi as [->|Hi]; [by apply (stealing_allowed_rich s1 _ rw')|by apply Hrr].
    + exists s'. split; [done|]. by apply (same_jobs_trans q s s1).
  - rewrite (Hsame eq_refl) in *. destruct (IH from s) as (s' & Hl & Hsj'); try done; [|by exists s'].
    intros id Hi. apply Hth. by right.
Qed.

Lemma set_manager_same s : set_manager (manager s) s = s.
Proof. by destruct s. Qed.
Lemma collect_thieves_spec s ks :
  consistent (manager s) → (∀ k, k ∈ ks → k ∈ dom (worker_equiv_classes (manager s))) →
  ∃ X, collect_thieves ks s = (Ret X, s) ∧ ∀ id, id ∈ X → idle s id.
Proof.
  intros Hm. unfold collect_thieves.
  assert (∀ (a : M (scheduler.type activity_t) exn (gset worker_id_t)) X, a s = (Ret X, s) → (∀ id, id ∈ X → idle s id) →
    (∀ k, k ∈ ks → k ∈ dom (worker_equiv_classes (manager s))) →
    ∃ X', foldl (λ acc key, acc ≫= λ acc, c ← on_manager (class_at key); mret (acc ∪ idle_workers c)) a ks s = (Ret X', s)
      ∧ ∀ id, id ∈ X' → idle s id) as Hfold.
  { induction ks as [|k ks IH]; intros a X Ha HX Hks; simpl; [eauto|].
    assert (k ∈ dom (worker_equiv_classes (manager s))) as [c Hc]%elem_of_dom by (apply Hks; by left).
    apply (IH _ (X ∪ idle_workers c)).
    - rewrite (bind_ret _ _ _ _ _ Ha).
      rewrite (bind_ret _ _ _ _ _ (on_manager_run _ _ _ _ (class_at_run _ _ _ Hc))). by rewrite set_manager_same.
    - intros id [?|Hid]%elem_of_union; [by apply HX|]. apply (c_idle _ Hm _ _ _ Hc) in Hid as (w & ? & _ & ?). by exists w.
    - intros k' Hk'. apply Hks. by right. }
  intros Hks. by apply (Hfold (mret ∅) ∅).
Qed.
Lemma rich_workers_spec s ids :
  NoDup ids → (∀ id, id ∈ ids → is_Some (workers_of s !! id)) →
  ∃ l, rich_workers ids s = (Ret l, s) ∧ NoDup l ∧ ∀ id, id ∈ l → id ∈ ids ∧ rich s id.
Proof.
  induction ids as [|i ids IH]; intros Hnd Hin; simpl.
  { exists []. split; [done|]. split; [constructor|]. by intros id ?%elem_of_nil. }
  apply NoDup_cons in Hnd as [Hi Hnd]. destruct (Hin i) as [w Hw]; [by left|].
  destruct IH as (l & Hr & Hl & Hrich); [done|intros; apply Hin; by right|].
  rewrite bind_get, bind_fhg_assert by done.
  rewrite (bind_ret _ _ _ _ _ (on_manager_run _ _ _ _ (worker_found_run _ _ _ Hw))), set_manager_same.
  rewrite (bind_ret _ _ _ _ _ Hr). eexists. split; [done|].
  destruct (Worker.stealing_allowed w) eqn:Hsa.
  - split.
    + apply NoDup_cons. split; [|done]. intros Hil. by apply Hrich in Hil as [? _].
    + intros id [->|Hid]%elem_of_cons; [split; [by left|by apply (stealing_allowed_rich s i w)]|].
      destruct (Hrich id Hid). split; [by right|done].
  - split; [done|]. intros id Hid. destruct (Hrich id Hid). split; [by right|done].
Qed.

Lemma class_steal_work_spec q s k :
  agrees q s → k ∈ dom (worker_equiv_classes (manager s)) →
  ∃ s', class_steal_work now k s = (Ret tt, s') ∧ same_jobs q s s'.
Proof.
  intros Hs [c Hc]%elem_of_dom. pose proof (a_manager _ _ Hs) as Hm. unfold class_steal_work.
  rewrite (bind_ret _ _ _ _ _ (on_manager_run _ _ _ _ (class_at_run _ _ _ Hc))), set_manager_same.
  destruct (n_pending_jobs c =? 0)%Z; [by exists s; split_and!|].
  destruct (collect_thieves_spec s (merge_sort class_le (elements (stealing_allowed_classes c)))) as (X & Hr & HX).
  { done. } { intros k'. rewrite merge_sort_Permutation, elem_of_elements. apply (c_steal _ Hm _ _ Hc). }
  rewrite (bind_ret _ _ _ _ _ Hr). case_decide; [by exists s; split_and!|].
  destruct (rich_workers_spec s (unordered_elements (worker_ids c))) as (l & Hl & Hnd & Hrich).
  { apply NoDup_unordered_elements. }
  { intros id. rewrite elem_of_unordered_elements, (c_class _ Hm _ _ _ Hc). intros (w & -> & _). eauto. }
  rewrite (bind_ret _ _ _ _ _ Hl). apply steal_loop_spec; [done|apply NoDup_unordered_elements|done| |].
  - intros id. rewrite elem_of_unordered_elements. apply HX.
  - intros id Hid. by apply Hrich.
Qed.
Lemma steal_work_spec q s : agrees q s → ∃ s', steal_work now s = (Ret tt, s') ∧ same_jobs q s s'.
Proof.
  intros Hs. unfold steal_work. rewrite bind_get.
  assert (∀ k, k ∈ class_keys (manager s) → k ∈ dom (worker_equiv_classes (manager s))) as Hks.
  { intros k. rewrite Assignment.elem_of_class_keys, elem_of_dom. done. }
  revert s Hs Hks. intros s. generalize (class_keys (manager s)). intros ks. revert s.
  induction ks as [|k ks IH]; intros s Hs Hks; simpl; [by exists s; split_and!|].
  destruct (class_steal_work_spec q s k Hs) as (s1 & Hr & Hs1); [apply Hks; by left|].
  rewrite (bind_ret _ _ _ _ _ Hr). destruct Hs1 as (Hag & Hq & Ht & Hd).
  destruct (IH s1 Hag) as (s' & Hr' & Hs').
  { intros k' Hk'. rewrite Hd. apply Hks. by right. }
  exists s'. split; [done|]. eapply same_jobs_trans; [|done]. done.
Qed.
End stealing.

(** ** Starting *)
Section starting.
Context {W : Type} (serve_job : gset worker_id_t → option string → job_id_t → M W exn unit).
(** serving a job succeeds for the workers that exist and makes [Served] true *)
Context (alive : gset worker_id_t) (Served : gset worker_id_t → job_id_t → W → Prop).
Context (serves : ∀ ws impl j w, ws ⊆ alive → (serve_job ws impl j w).1 = Ret tt ∧ Served ws j (serve_job ws impl j w).2).
Context (serves_keep : ∀ ws impl j ws' j' w, Served ws' j' w → Served ws' j' (serve_job ws impl j w).2).
Definition sent s (w : W) (j : job_id_t) : Prop :=
  ∃ r, allocation_table s !! j = Some r ∧ Served (Reservation.workers r) j w.

(** the job runs on all of its workers *)
Definition running_everywhere s (j : job_id_t) : Prop :=
  ∃ r, allocation_table s !! j = Some r ∧
    ∀ id, id ∈ Reservation.workers r → ∃ w, workers_of s !! id = Some w ∧ j ∈ Worker.submitted w.

Lemma submit_if_can_start_spec q s job r :
  agrees q s → job ∈ pending_jobs s → allocation_table s !! job = Some r →
  ∃ b m', submit_if_can_start_job job (Reservation.workers r) (manager s) = (Ret b, m') ∧
    (b = false → m' = manager s) ∧
    (b = true → consistent m' ∧
       touched (ordered (Reservation.workers r)) (λ _, submitted job) (workers_of s) (worker_map m')).
Proof.
  intros Hs Hj Hr. unfold submit_if_can_start_job. rewrite bind_get.
  destruct (can_start (Reservation.workers r) (manager s)) eqn:Hcan.
  2:{ by exists false, (manager s). }
  destruct (a_pending _ _ Hs job Hj) as (r' & Hr' & Hpend). simplify_eq.
  unfold can_start in Hcan. rewrite forallb_forall in Hcan. setoid_rewrite <- list_elem_of_In in Hcan.
  destruct (for_each_workers (submit_job_to_worker job) (λ _, submitted job)
              (λ w, job ∈ Worker.pending w ∧ Worker.reserved w = false))
    with (ids := ordered (Reservation.workers r)) (m := manager s) as (m' & Hrun & Hm' & Ht).
  { intros m id w Hm Hw [Hp Hres]. by apply submit_consistent. }
  { apply NoDup_ordered. } { apply (a_manager _ _ Hs). }
  { intros id w Hid Hw. specialize (Hcan id Hid). rewrite Hw in Hcan. apply negb_true_iff in Hcan.
    apply elem_of_ordered in Hid. destruct (Hpend id Hid) as (w' & Hw' & Hp). simplify_eq. done. }
  { intros id Hid%elem_of_ordered. left. destruct (Hpend id Hid) as (w' & -> & _). eauto. }
  exists true, m'. rewrite (bind_ret _ _ _ _ _ Hrun). done.
Qed.
Lemma started_agrees q s job r m' :
  agrees q s → job ∈ pending_jobs s → allocation_table s !! job = Some r → consistent m' →
  touched (ordered (Reservation.workers r)) (λ _, submitted job) (workers_of s) (worker_map m') →
  agrees q (set_pending_jobs (λ p, p ∖ {[job]}) (set_manager m' s)).
Proof.
  intros Hs Hj Hr Hm' Ht. destruct (a_pending _ _ Hs job Hj) as (r' & Hr' & Hpend). simplify_eq.
  assert (∀ id w', worker_map m' !! id = Some w' → ∃ w, workers_of s !! id = Some w ∧ jobs w' = jobs w ∧
    Worker.pending w' = Worker.pending w ∖ (if decide (id ∈ Reservation.workers r) then {[job]} else ∅)) as Hback.
  { intros id w'. rewrite Ht, (decide_ext _ _ _ _ (elem_of_ordered _ id)). case_decide as Hid.
    - destruct (Hpend id Hid) as (w & Hw & Hp). rewrite Hw. intros [= <-]. exists w. rewrite jobs_submitted by done. done.
    - intros Hw. exists w'. split; [done|]. split; [done|]. set_solver. }
  split; simpl.
  - done.
  - apply (a_queue _ _ Hs).
  - apply (a_fresh _ _ Hs).
  - intros id w' j Hw' Hjw. destruct (Hback _ _ Hw') as (w & Hw & Heq & _). rewrite Heq in Hjw.
    by apply (a_reserved _ _ Hs id w).
  - intros j r' id w' Hr'' Hid Hw'. destruct (Hback _ _ Hw') as (w & Hw & -> & _). by apply (a_alive _ _ Hs j r' id).
  - intros j [Hjp Hne%not_elem_of_singleton]%elem_of_difference. destruct (a_pending _ _ Hs j Hjp) as (rj & Hrj & Hpj).
    exists rj. split; [done|]. intros id Hid. destruct (Hpj id Hid) as (w & Hw & Hp). rewrite Ht, Hw.
    case_decide; eexists; (split; [done|]); [|done]. simpl. apply elem_of_difference. split; [done|].
    by rewrite elem_of_singleton.
  - intros id w' j Hw' Hjw. destruct (Hback _ _ Hw') as (w & Hw & _ & Hp). rewrite Hp in Hjw.
    apply elem_of_difference in Hjw as [Hjw Hn]. apply elem_of_difference.
    split; [by apply (a_waiting _ _ Hs id w)|]. intros ->%elem_of_singleton.
    destruct (a_reserved _ _ Hs id w job Hw) as (r' & Hr' & Hid); [unfold jobs; set_solver|]. simplify_eq.
    rewrite decide_True in Hn by done. set_solver.
Qed.

Lemma on_scheduler_run {A} (f : M (scheduler.type activity_t) exn A) s (w : W) o s' :
  f s = (o, s') → on_scheduler f (s, w) = (o, (s', w)).
Proof. unfold on_scheduler. simpl. by intros ->. Qed.
Lemma started_running s job r m' j :
  allocation_table s !! job = Some r → (∀ id, id ∈ Reservation.workers r → is_Some (workers_of s !! id)) →
  touched (ordered (Reservation.workers r)) (λ _, submitted job) (workers_of s) (worker_map m') →
  running_everywhere s j ∨ j = job →
  running_everywhere (set_pending_jobs (λ p, p ∖ {[job]}) (set_manager m' s)) j.
Proof.
  intros Hr Hin Ht Hj. destruct Hj as [(rj & Hrj & Hw)| ->].
  - exists rj. split; [done|]. intros id Hid. destruct (Hw id Hid) as (w & Hw' & Hs). simpl. rewrite Ht, Hw'.
    case_decide; eexists; (split; [done|]); [|done]. simpl. by apply elem_of_union_r.
  - exists r. split; [done|]. intros id Hid. destruct (Hin id Hid) as (w & Hw). simpl. rewrite Ht, Hw.
    rewrite decide_True by (by apply elem_of_ordered). eexists. split; [done|]. simpl.
    apply elem_of_union_l. by apply elem_of_singleton.
Qed.

Lemma start_loop_spec q js n started s w :
  agrees q s → dom (workers_of s) ⊆ alive → NoDup js → (∀ j, j ∈ js → j ∈ pending_jobs s) →
  (∀ j, j ∈ started → running_everywhere s j ∧ sent s w j) →
  ∃ started' s' w', start_loop serve_job js n started (s, w) = (Ret started', (s', w')) ∧ agrees q s' ∧
    jobs_to_schedule s' = jobs_to_schedule s ∧ allocation_table s' = allocation_table s ∧
    (∀ j, j ∈ started' → running_everywhere s' j ∧ sent s' w' j).
Proof.
  revert n started s w. induction js as [|job js IH]; intros n started s w Hs Hal Hnd Hp Hst; simpl.
  { exists started, s, w. by split_and!. }
  destruct (0 <? n)%Z; [|exists started, s, w; by split_and!]. apply NoDup_cons in Hnd as [Hj Hnd].
  assert (job ∈ pending_jobs s) as Hjp by (apply Hp; by left).
  destruct (a_pending _ _ Hs job Hjp) as (r & Hr & Hpend).
  rewrite (bind_ret _ _ _ _ _ (on_scheduler_run _ _ _ _ _ (reservation_at_run _ _ _ Hr))).
  destruct (submit_if_can_start_spec q s job r Hs Hjp Hr) as (b & m' & Hrun & Hfalse & Htrue).
  unfold submit_and_serve_if_can_start_job.
  assert (Reservation.workers r ⊆ alive) as Hws.
  { intros id Hid. destruct (Hpend id Hid) as (w0 & Hw0 & _). apply Hal. by eapply elem_of_dom_2. }
  destruct (serves (Reservation.workers r) (Reservation.implementation r) job w Hws) as [Hserve Hserved].
  erewrite bind_ret.
  2:{ rewrite (bind_ret _ _ _ _ _ (on_scheduler_run _ _ _ _ _ (on_manager_run _ _ _ _ Hrun))).
      rewrite (bind_ret _ _ tt _ (set_manager m' s, if b then (serve_job (Reservation.workers r) (Reservation.implementation r) job w).2 else w)).
      - by rewrite bind_get.
      - destruct b; [|done]. unfold on_world. simpl.
        destruct (serve_job _ _ _ w) as [o w1]. simpl in Hserve. by rewrite Hserve. }
  simpl. destruct b.
  - destruct Htrue as [Hm' Ht]; [done|]. erewrite bind_ret by done. simpl.
    refine (IH _ _ (set_pending_jobs (λ p, p ∖ {[job]}) (set_manager m' s)) _ _ _ _ _ _);
      [by apply (started_agrees q s job r)| |done| |].
    + simpl. intros id [w0 Hw0]%elem_of_dom. apply Hal, elem_of_dom. rewrite Ht in Hw0.
      case_decide; [apply fmap_Some in Hw0 as (? & -> & _)|]; eauto.
    + intros j Hjs. simpl. apply elem_of_difference. split; [apply Hp; by right|]. rewrite elem_of_singleton. by intros ->.
    + intros j Hjs. split.
      * apply (started_running s job r); [done| |done|].
        -- intros id Hid. destruct (Hpend id Hid) as (w0 & -> & _). eauto.
        -- apply elem_of_union in Hjs as [->%elem_of_singleton|?]; [by right|left; by apply Hst].
      * apply elem_of_union in Hjs as [->%elem_of_singleton|Hjs]; [by exists r|].
        destruct (Hst j Hjs) as [_ (rj & Hrj & ?)]. exists rj. auto.
  - rewrite (Hfalse eq_refl), set_manager_same. apply IH; [done|done|done| |done]. intros j Hjs. apply Hp. by right.
Qed.
End starting.

(** ** The round *)
Section thread.
Context (now : worker_id_t → double) (reqs : job_id_t → requirements.type).
Context {W : Type} (serve_job : gset worker_id_t → option string → job_id_t → M W exn unit).

(** the body of the loop of [Agent::scheduling_thread] *)
Definition scheduling_round (fuel : nat) : M (scheduler.type activity_t * W) exn (gset job_id_t) :=
  on_scheduler (assignJobsToWorkers no_activity now reqs fuel) ≫= λ _,
  on_scheduler (steal_work now) ≫= λ _,
  start_pending_jobs serve_job.

(** what a round leaves as it is *)
Lemma round_framed D c fuel : preserves (Frame.framed_w D c) (scheduling_round fuel).
Proof.
  unfold scheduling_round, start_pending_jobs.
  apply preserves_bind; [|intros _; apply preserves_bind; [|intros _; apply preserves_bind; [apply preserves_get|intros ?]]].
  - apply Frame.on_scheduler_framed, Frame.assignJobsToWorkers_framed.
  - apply Frame.on_scheduler_framed, Frame.steal_work_framed.
  - apply Frame.start_loop_framed.
Qed.
Lemma round_world (I : W → Prop) fuel :
  (∀ ws impl j, preserves I (serve_job ws impl j)) →
  preserves (λ x : scheduler.type activity_t * W, I x.2) (scheduling_round fuel).
Proof.
  intros Hserve. unfold scheduling_round, start_pending_jobs.
  apply preserves_bind; [|intros _; apply preserves_bind; [|intros _; apply preserves_bind; [apply preserves_get|intros ?]]].
  - apply Frame.on_scheduler_world.
  - apply Frame.on_scheduler_world.
  - by apply Frame.start_loop_world.
Qed.
Lemma round_spec (Served : gset worker_id_t → job_id_t → W → Prop) (fuel : nat) s (w : W) :
  agrees (jobs_to_schedule s) s → length (jobs_to_schedule s) ≤ fuel →
  forallb (λ j, schedulable (reqs j)) (jobs_to_schedule s) = true →
  (∀ ws impl j w, ws ⊆ dom (workers_of s) → (serve_job ws impl j w).1 = Ret tt ∧ Served ws j (serve_job ws impl j w).2) →
  (∀ ws impl j ws' j' w, Served ws' j' w → Served ws' j' (serve_job ws impl j w).2) →
  ∃ started s' w', scheduling_round fuel (s, w) = (Ret started, (s', w')) ∧
    agrees (jobs_to_schedule s') s' ∧
    (∀ j, known (jobs_to_schedule s') s' j ↔ known (jobs_to_schedule s) s j) ∧
    (∀ j, j ∈ started → running_everywhere s' j ∧ sent Served s' w' j).
Proof.
  intros Hs Hf Hok Hserve Hkeep. rewrite forallb_forall in Hok. setoid_rewrite <- list_elem_of_In in Hok. unfold scheduling_round.
  destruct (assignJobsToWorkers_spec now reqs fuel s Hf Hs Hok) as (s1 & Hr1 & Hs1 & Hk1).
  rewrite (bind_ret _ _ _ _ _ (on_scheduler_run _ _ _ _ _ Hr1)).
  destruct (steal_work_spec now _ s1 Hs1) as (s2 & Hr2 & Hs2 & Hq2 & Ht2 & _).
  rewrite (bind_ret _ _ _ _ _ (on_scheduler_run _ _ _ _ _ Hr2)).
  unfold start_pending_jobs. rewrite bind_get. simpl.
  destruct (start_loop_spec serve_job (dom (workers_of s)) Served Hserve Hkeep _ (unordered_elements (pending_jobs s2))
              (to_long (num_free_workers (manager s2))) ∅ s2 w Hs2)
    as (st & s3 & w3 & Hr3 & Hs3 & Hq3 & Ht3 & Hst).
  { assert (Frame.framed_s (dom (workers_of s)) (worker_connections (manager s)) s2) as [? _]; [|done].
    assert (Frame.framed_s (dom (workers_of s)) (worker_connections (manager s)) s) as Hfr by done.
    pose proof (Frame.assignJobsToWorkers_framed _ _ no_activity now reqs fuel s Hfr) as Hfr1. rewrite Hr1 in Hfr1.
    pose proof (Frame.steal_work_framed _ _ now s1 Hfr1) as Hfr2. by rewrite Hr2 in Hfr2. }
  { apply NoDup_unordered_elements. } { intros j. by rewrite elem_of_unordered_elements. } { set_solver. }
  exists st, s3, w3. split; [done|]. rewrite Hq3, Hq2. split; [done|]. split; [|done].
  intros j. rewrite <- Hk1. unfold known. rewrite Ht3, <- !elem_of_dom, Ht2. done.
Qed.
(** C9: With assertions switched off: a round of the scheduling thread on a state in
    which reservations, workers and queues agree never throws, if sending the jobs to
    the workers does not and every queued job needs at least one worker and, if it has
    preferences, no more than one: afterwards they agree again, exactly the same jobs
    are queued or reserved as before, and every started job has been submitted to all
    the workers of its reservation.  As many iterations as there are queued jobs are
    enough for the assignment. *)
Theorem round_keeps_agreement (fuel : nat) s (w : W) :
  agrees (jobs_to_schedule s) s → length (jobs_to_schedule s) ≤ fuel →
  forallb (λ j, schedulable (reqs j)) (jobs_to_schedule s) = true →
  (∀ ws impl j w, (serve_job ws impl j w).1 = Ret tt) →
  ∃ started s' w', scheduling_round fuel (s, w) = (Ret started, (s', w')) ∧
    agrees (jobs_to_schedule s') s' ∧
    (∀ j, known (jobs_to_schedule s') s' j ↔ known (jobs_to_schedule s) s j) ∧
    (∀ j, j ∈ started → running_everywhere s' j).
Proof.
  intros Hs Hf Hok Hserve.
  destruct (round_spec (λ _ _ _, True) fuel s w) as (st & s' & w' & ? & ? & ? & Hst); [done|done|done|by split|done|].
  exists st, s', w'. split_and!; [done|done|done|]. intros j Hj. by destruct (Hst j Hj).
Qed.
End thread.

(** A scheduler at the beginning: workers without jobs *)
Lemma agrees_start m q :
  consistent m → NoDup q → map_Forall (λ _ w, jobs w = ∅) (worker_map m) →
  agrees q (mk m q ∅ ∅).
Proof.
  intros Hm Hq Hw. split; simpl.
  - done.
  - done.
  - intros j _. apply lookup_empty.
  - intros id w j Hid Hj. rewrite (Hw id w Hid) in Hj. by apply elem_of_empty in Hj.
  - intros j r id w Hr. by rewrite lookup_empty in Hr.
  - intros j Hj. by apply elem_of_empty in Hj.
  - intros id w j Hid Hj. destruct (proj1 (jobs_empty w) (Hw id w Hid)) as [He _]. rewrite He in Hj.
    by apply elem_of_empty in Hj.
Qed.
End round.

(** Two jobs, one of them for two workers, and three workers *)
Definition example_round (fuel : nat) : M (scheduler.type unit * unit) exn (gset job_id_t) :=
  scheduling_round (H := {| assert_throws := false |}) tt (λ _, of_Z 9)
    (λ j, requirements.mk [] (if decide (j = "j1") then Some 2%Z else None) (λ _, of_Z 1) (of_Z 1) 0 [])
    (λ _ _ _ _, (Ret tt, tt)) fuel.
Definition example_start : scheduler.type unit :=
  mk (@after {| assert_throws := false |} Assignment.example_workers WorkerManager.empty) ["j1"; "j2"] ∅ ∅.
Lemma round_keeps_agreement_witness :
  ∃ started s' w', example_round 2 (example_start, tt) = (Ret started, (s', w')) ∧
    agrees (jobs_to_schedule s') s' ∧ (∀ j, j ∈ started → running_everywhere s' j).
Proof.
  assert (no_assert : @assert_throws {| assert_throws := false |} = false) by reflexivity.
  destruct (round_keeps_agreement (H := {| assert_throws := false |}) tt no_assert (λ _, of_Z 9)
    (λ j, requirements.mk [] (if decide (j = "j1") then Some 2%Z else None) (λ _, of_Z 1) (of_Z 1) 0 [])
    (λ _ _ _ _, (Ret tt, tt)) 2 example_start tt) as (st & s' & w' & Hr & Hs & _ & Hst).
  - apply agrees_start.
    + apply (@legal_consistent {| assert_throws := false |} eq_refl); [apply empty_consistent|vm_compute; reflexivity].
    + apply (bool_decide_unpack _). vm_compute. exact I.
    + apply (bool_decide_unpack _). vm_compute. exact I.
  - reflexivity.
  - vm_compute. reflexivity.
  - reflexivity.
  - exists st, s', w'. split; [exact Hr|]. split; [exact Hs|exact Hst].
Defined.
Example round_starts_both_jobs :
  match (example_round 2 (example_start, tt)).1 with Ret x => bool_decide (x = {["j1"; "j2"]}) | Throw _ => false end = true.
Proof. vm_compute. reflexivity. Qed.
End Round.
