(* ===== verification/SdpaLost.v ===== *)
(** * Lost workers

    What the scheduler does when a worker is lost or cannot take more jobs: the
    jobs that wait for it go back to the queue, the jobs that run on it are
    canceled on their other workers or rescheduled.  No job gets lost.
    Below, runs of the scheduler that end badly. *)

From Stdlib Require Import SpecFloat.
From S2P Require Import Prelude Value Token Function SdpaJob SdpaWorker SdpaManager SdpaScheduler SdpaInvariant SdpaAssign SdpaRound.

Import equivalence_class WorkerManager scheduler Bookkeeping Round.

Module Lost.
Section lost.
Context {activity_t : Type}.
Context `{AssertMode} (no_assert : assert_throws = false).
Context `{Unordered} `{PriorityQueue} `{job.StateMachine}.
Implicit Types (s : scheduler.type activity_t) (m : WorkerManager.type).
Context (now : worker_id_t → double).

Abbreviation workers_of s := (worker_map (manager s)).

(** ** Releasing a reservation *)
Definition released (job : job_id_t) (r : Reservation.type activity_t) (m' : WorkerManager.type) s :
    scheduler.type activity_t :=
  mk m' (jobs_to_schedule s) (delete job (allocation_table s)) (pending_jobs s).

Lemma for_each_ignoring (f : worker_id_t → M WorkerManager.type exn unit) l s :
  for_each (λ x, ignoring (on_manager (f x))) l s =
  on_manager (for_each (λ x m, (Ret tt, (f x m).2)) l) s.
Proof.
  rewrite <- for_each_on_manager. revert s. induction l as [|x l IH]; intros s; simpl; [done|].
  unfold mbind, M_bind, ignoring, on_manager in *. simpl. destruct (f x (manager s)). simpl. apply IH.
Qed.

Lemma releaseReservation_run q s job r :
  agrees q s → allocation_table s !! job = Some r →
  ∃ m', releaseReservation now job s = (Ret tt, released job r m' s) ∧ consistent m' ∧
    touched (ordered (Reservation.workers r)) (λ id, deleted (now id) job (Reservation.cost r))
      (workers_of s) (worker_map m').
Proof.
  intros Hs Hr. unfold releaseReservation. rewrite bind_get, Hr.
  destruct (for_each_workers (λ id m, (Ret tt, (delete_job_from_worker (now id) job id (Reservation.cost r) m).2))
              (λ id, deleted (now id) job (Reservation.cost r)) (λ w, job ∈ jobs w))
    with (ids := ordered (Reservation.workers r)) (m := manager s) as (m' & Hrun & Hm' & Ht).
  { intros m id w Hm Hw Hj. destruct (delete_consistent no_assert m (now id) job id (Reservation.cost r) w)
      as (m' & -> & ? & ? & _); eauto. }
  { apply NoDup_ordered. } { apply (a_manager _ _ Hs). }
  { intros id w Hid%elem_of_ordered Hw. by apply (a_alive _ _ Hs job r id). }
  { intros id _. right. intros m Hm. unfold delete_job_from_worker. by rewrite bind_get, Hm. }
  exists m'. split; [|done].
  rewrite (bind_ret _ _ tt s (set_manager m' s)) by (rewrite for_each_ignoring; by apply on_manager_run). done.
Qed.

(** where a worker of the new state comes from *)
Lemma released_workers q s job r (wm : gmap worker_id_t Worker.type) id w' :
  agrees q s → allocation_table s !! job = Some r →
  touched (ordered (Reservation.workers r)) (λ id, deleted (now id) job (Reservation.cost r)) (workers_of s) wm →
  wm !! id = Some w' → ∃ w, workers_of s !! id = Some w ∧ jobs w' = jobs w ∖ {[job]} ∧
    Worker.pending w' = Worker.pending w ∖ {[job]}.
Proof.
  intros Hs Hr Ht. rewrite Ht, (decide_ext _ _ _ _ (elem_of_ordered _ id)). case_decide as Hid.
  - intros (w & Hw & ->)%fmap_Some. exists w. split; [done|]. rewrite pending_deleted. split; [|done].
    apply jobs_deleted. by eapply c_worker; [apply (a_manager _ _ Hs)|].
  - intros Hw. exists w'. split; [done|].
    assert (job ∉ jobs w') as Hj.
    { intros Hj. destruct (a_reserved _ _ Hs id w' job Hw Hj) as (r' & Hr' & ?). by simplify_eq. }
    rewrite !remove_absent; [done| |done]. intros Hp. apply Hj. unfold jobs. set_solver.
Qed.

(** releasing and forgetting the pending job, as for a job that is rescheduled *)
Lemma released_agrees q s job r m' :
  agrees q s → allocation_table s !! job = Some r → consistent m' →
  touched (ordered (Reservation.workers r)) (λ id, deleted (now id) job (Reservation.cost r))
    (workers_of s) (worker_map m') →
  agrees q (set_pending_jobs (λ p, p ∖ {[job]}) (released job r m' s)).
Proof.
  intros Hs Hr Hm' Ht. pose proof (λ id w', released_workers q s job r _ id w' Hs Hr Ht) as Hback.
  split; simpl.
  - done.
  - apply (a_queue _ _ Hs).
  - intros j Hj. apply lookup_delete_None. right. by apply (a_fresh _ _ Hs).
  - intros id w' j Hw' Hj. destruct (Hback _ _ Hw') as (w & Hw & Heq & _). rewrite Heq in Hj.
    apply elem_of_difference in Hj as [Hj Hne%not_elem_of_singleton]. rewrite lookup_delete_ne by done.
    by apply (a_reserved _ _ Hs id w).
  - intros j rj id w' Hrj Hid Hw'. apply lookup_delete_Some in Hrj as [Hne Hrj].
    destruct (Hback _ _ Hw') as (w & Hw & -> & _). apply elem_of_difference. rewrite elem_of_singleton.
    split; [|done]. by apply (a_alive _ _ Hs j rj id).
  - intros j [Hj Hne%not_elem_of_singleton]%elem_of_difference. destruct (a_pending _ _ Hs j Hj) as (rj & Hrj & Hp).
    exists rj. rewrite lookup_delete_ne by done. split; [done|]. intros id Hid. destruct (Hp id Hid) as (w & Hw & Hpw).
    rewrite Ht, Hw. case_decide; eexists; (split; [done|]); [|done]. rewrite pending_deleted.
    apply elem_of_difference. by rewrite elem_of_singleton.
  - intros id w' j Hw' Hj. destruct (Hback _ _ Hw') as (w & Hw & _ & Heq). rewrite Heq in Hj.
    apply elem_of_difference in Hj as [Hj Hne]. apply elem_of_difference. split; [|done]. by apply (a_waiting _ _ Hs id w).
Qed.

(** ** Everything but the results of the reservations *)
Definition similar s s' : Prop :=
  manager s' = manager s ∧ jobs_to_schedule s' = jobs_to_schedule s ∧ pending_jobs s' = pending_jobs s ∧
  ∀ j, Reservation.workers <$> allocation_table s' !! j = Reservation.workers <$> allocation_table s !! j.
Lemma similar_trans s1 s2 s3 : similar s1 s2 → similar s2 s3 → similar s1 s3.
Proof. intros (? & ? & ? & Ht) (? & ? & ? & Ht'). split_and!; congruence. Qed.
Lemma similar_reservation s s' j r :
  similar s s' → allocation_table s !! j = Some r →
  ∃ r', allocation_table s' !! j = Some r' ∧ Reservation.workers r' = Reservation.workers r.
Proof.
  intros (_ & _ & _ & Ht) Hr. specialize (Ht j). rewrite Hr in Ht.
  destruct (allocation_table s' !! j) as [r'|]; [|done]. injection Ht as Ht. eauto.
Qed.
Lemma similar_back s s' j r' :
  similar s s' → allocation_table s' !! j = Some r' →
  ∃ r, allocation_table s !! j = Some r ∧ Reservation.workers r = Reservation.workers r'.
Proof.
  intros (_ & _ & _ & Ht) Hr. specialize (Ht j). rewrite Hr in Ht.
  destruct (allocation_table s !! j) as [r|]; [|done]. injection Ht as Ht. eauto.
Qed.
Lemma similar_known q s s' j : similar s s' → known q s' j ↔ known q s j.
Proof.
  intros (_ & _ & _ & Ht). unfold known. specialize (Ht j).
  destruct (allocation_table s' !! j), (allocation_table s !! j); try done; unfold is_Some; naive_solver.
Qed.
Lemma similar_agrees q s s' : agrees q s → similar s s' → agrees q s'.
Proof.
  intros Hs Hsim. pose proof Hsim as (Hm & Hq & Hp & Ht). split; rewrite ?Hm, ?Hp.
  - apply (a_manager _ _ Hs).
  - apply (a_queue _ _ Hs).
  - intros j Hj. apply (a_fresh _ _ Hs) in Hj. specialize (Ht j). rewrite Hj in Ht.
    by destruct (allocation_table s' !! j).
  - intros id w j Hw Hj. destruct (a_reserved _ _ Hs id w j Hw Hj) as (r & Hr & Hid).
    destruct (similar_reservation s s' j r Hsim Hr) as (r' & ? & ?). exists r'. split; [done|congruence].
  - intros j r' id w Hr' Hid Hw. destruct (similar_back s s' j r' Hsim Hr') as (r & Hr & Heq).
    apply (a_alive _ _ Hs j r id); [done|congruence|done].
  - intros j Hj. destruct (a_pending _ _ Hs j Hj) as (r & Hr & Hpend).
    destruct (similar_reservation s s' j r Hsim Hr) as (r' & Hr' & Heq). exists r'. split; [done|].
    intros id Hid. apply Hpend. congruence.
  - apply (a_waiting _ _ Hs).
Qed.

(** ** The jobs that run on the worker *)
Section agent.
Context {W : Type} (cancel_worker_job : worker_id_t → job_id_t → M W exn unit).
Context (cancels : ∀ id j w, (cancel_worker_job id j w).1 = Ret tt).
Implicit Types (a : agent activity_t W).

(** Jobs with a reservation exist; if the state machine throws when there is no
    transition they are not being canceled and have not terminated. *)
Definition reschedulable a : Prop :=
  ∀ j, is_Some (allocation_table (sched a) !! j) → ∃ jb, scheduler.jobs a !! j = Some jb ∧
    (job.rethrows = false ∨ job.current_state jb = job.s_pending ∨ job.current_state jb = job.s_running).

Lemma Reschedule_run (jb : job.type activity_t) :
  job.rethrows = false ∨ job.current_state jb = job.s_pending ∨ job.current_state jb = job.s_running →
  ∃ jb', job.Reschedule jb = (Ret tt, jb') ∧
    (job.rethrows = false ∨ job.current_state jb' = job.s_pending ∨ job.current_state jb' = job.s_running).
Proof.
  unfold job.Reschedule, job.process_event. rewrite bind_get. intros [Hr|[Hr|Hr]].
  - rewrite Hr. destruct (job.transition_table _ _); eexists; (split; [done|]); by left.
  - rewrite Hr. simpl. eexists. split; [done|]. right. by left.
  - rewrite Hr. simpl. eexists. split; [done|]. right. by left.
Qed.
Lemma with_scheduler_run {X} (f : M (scheduler.type activity_t) exn X) a o s' :
  f (sched a) = (o, s') → with_scheduler f a = (o, mk_agent s' (scheduler.jobs a) (world a)).
Proof. unfold with_scheduler. by intros ->. Qed.
Lemma agent_same a : mk_agent (sched a) (scheduler.jobs a) (world a) = a.
Proof. by destruct a. Qed.

(** every canceling request succeeds and acts on the world only *)
Lemma for_each_world {A} (f : A → M (agent activity_t W) exn unit) l a :
  (∀ x a, ∃ w, f x a = (Ret tt, mk_agent (sched a) (scheduler.jobs a) w)) →
  ∃ w, for_each f l a = (Ret tt, mk_agent (sched a) (scheduler.jobs a) w).
Proof.
  intros Hf. revert a. induction l as [|x l IH]; intros a; simpl; [exists (world a); by rewrite agent_same|].
  destruct (Hf x a) as [w Hw]. rewrite (bind_ret _ _ _ _ _ Hw).
  destruct (IH (mk_agent (sched a) (scheduler.jobs a) w)) as [w' Hw']. by exists w'.
Qed.

Lemma cancel_or_reschedule_spec worker resched j a :
  reschedulable a → is_Some (allocation_table (sched a) !! j) →
  ∃ R a', cancel_or_reschedule cancel_worker_job worker resched j a = (Ret R, a') ∧
    reschedulable a' ∧ similar (sched a) (sched a') ∧ resched ⊆ R ⊆ {[j]} ∪ resched.
Proof.
  intros Ha [r Hr]. destruct (Ha j) as (jb & Hjb & Hst); [eauto|].
  unfold cancel_or_reschedule. rewrite bind_get, bind_fhg_assert by done.
  rewrite (bind_ret _ _ _ _ _ (with_scheduler_run _ _ _ _ (reservation_at_run _ _ _ Hr))), agent_same.
  destruct (Reschedule_run jb Hst) as (jb' & Hjb' & Hst').
  erewrite bind_ret by (unfold with_job; rewrite Hjb, Hjb'; done).
  set (r' := Reservation.mark_as_canceled_if_no_result_stored_yet worker r).
  set (s' := set_allocation_table <[j := r']> (sched a)).
  assert (on_reservation j (modify (Reservation.mark_as_canceled_if_no_result_stored_yet worker)) (sched a) = (Ret tt, s')) as Hon.
  { unfold on_reservation. by rewrite (bind_ret _ _ _ _ _ (reservation_at_run _ _ _ Hr)). }
  rewrite (bind_ret _ _ _ _ _ (with_scheduler_run _ (mk_agent (sched a) (<[j := jb']> (scheduler.jobs a)) (world a)) _ _ Hon)).
  rewrite bind_get. simpl. rewrite lookup_insert_eq. simpl. erewrite bind_ret by done.
  erewrite bind_ret by (apply with_scheduler_run, reservation_at_run; apply lookup_insert_eq).
  match goal with |- context [Reservation.apply_to_workers_without_result ?g] => set (f := g) end.
  destruct (for_each_world f (Reservation.workers_without_result r')
              (mk_agent s' (<[j := jb']> (scheduler.jobs a)) (world a))) as [w' Hw'].
  { intros x b. unfold f. case_match; [exists (world b); by rewrite agent_same|].
    unfold with_world. specialize (cancels x j (world b)). destruct (cancel_worker_job x j (world b)) as [o w1].
    simpl in cancels. subst o. by exists w1. }
  simpl in Hw'. erewrite bind_ret
    by (unfold Reservation.apply_to_workers_without_result; rewrite (bind_ret _ _ _ _ _ Hw'); done).
  eexists _, _. split; [done|]. simpl. split_and!.
  - intros i Hi. simpl in *. destruct (decide (j = i)) as [<-|Hne].
    + rewrite lookup_insert_eq. eauto.
    + rewrite lookup_insert_ne by done. apply Ha. by rewrite lookup_insert_ne in Hi.
  - split; [done|]. split; [done|]. split; [done|]. intros i. simpl. destruct (decide (j = i)) as [<-|Hne]; [by rewrite lookup_insert_eq, Hr|by rewrite lookup_insert_ne].
  - destruct (negb _); set_solver.
  - destruct (negb _); set_solver.
Qed.

Lemma delete_or_cancel_spec worker w a :
  agrees (jobs_to_schedule (sched a)) (sched a) → reschedulable a → workers_of (sched a) !! worker = Some w →
  ∃ R a', delete_or_cancel_worker_jobs cancel_worker_job worker a = (Ret R, a') ∧
    similar (sched a) (sched a') ∧ Worker.pending w ⊆ R ⊆ jobs w.
Proof.
  intros Hs Ha Hw. unfold delete_or_cancel_worker_jobs.
  erewrite bind_ret by (apply with_scheduler_run, on_manager_run; unfold worker_at; rewrite bind_get, Hw; done).
  rewrite set_manager_same, agent_same.
  assert (∀ l, (∀ j, j ∈ l → j ∈ jobs w) → ∀ (acc : M (agent activity_t W) exn (gset job_id_t)) R b, acc a = (Ret R, b) →
    reschedulable b → similar (sched a) (sched b) → Worker.pending w ⊆ R ⊆ jobs w →
    ∃ R' a', foldl (λ acc id, acc ≫= λ resched, cancel_or_reschedule cancel_worker_job worker resched id) acc l a
             = (Ret R', a') ∧ similar (sched a) (sched a') ∧ Worker.pending w ⊆ R' ⊆ jobs w) as Hfold.
  { induction l as [|j l IH]; intros Hl acc R b Hacc Hb Hsim HR; simpl; [eauto|].
    destruct (a_reserved _ _ Hs worker w j Hw) as (r & Hr & _); [apply Hl; by left|].
    destruct (similar_reservation _ _ j r Hsim Hr) as (r' & Hr' & _).
    destruct (cancel_or_reschedule_spec worker R j b Hb) as (R1 & b1 & Hr1 & Hb1 & Hsim1 & HR1); [eauto|].
    apply (IH ltac:(intros; apply Hl; by right) _ R1 b1).
    - by rewrite (bind_ret _ _ _ _ _ Hacc).
    - done.
    - by apply (similar_trans _ (sched b)).
    - assert (j ∈ jobs w) as Hjw by (apply Hl; by left). clear -HR HR1 Hjw. set_solver. }
  apply (Hfold (unordered_elements (Worker.submitted w ∪ Worker.acknowledged w))) with (R := Worker.pending w) (b := a).
  - intros j. rewrite elem_of_unordered_elements. unfold jobs. set_solver.
  - done.
  - done.
  - done.
  - unfold jobs. set_solver.
Qed.

End agent.

(** ** The jobs that are scheduled again *)
Lemma requeue_spec {W} R (a : agent activity_t W) :
  agrees (jobs_to_schedule (sched a)) (sched a) → NoDup R →
  (∀ j, j ∈ R → is_Some (allocation_table (sched a) !! j)) →
  ∃ a', for_each (λ id,
      with_scheduler (releaseReservation now id) ≫= λ _,
      with_scheduler (delete_pending_job id) ≫= λ _,
      with_scheduler (enqueueJob id)) R a = (Ret tt, a') ∧
    agrees (jobs_to_schedule (sched a')) (sched a') ∧
    jobs_to_schedule (sched a') = jobs_to_schedule (sched a) ++ R ∧
    (∀ j, known (jobs_to_schedule (sched a')) (sched a') j ↔ known (jobs_to_schedule (sched a)) (sched a) j) ∧
    (∀ id w, workers_of (sched a) !! id = Some w → ∃ w', workers_of (sched a') !! id = Some w' ∧
       Worker.pending w' ⊆ Worker.pending w).
Proof.
  revert a. induction R as [|j R IH]; intros a Hs Hnd Hin; simpl.
  { exists a. split; [done|]. split; [done|]. rewrite app_nil_r. split; [done|]. split; [done|]. eauto. }
  apply NoDup_cons in Hnd as [Hj Hnd]. destruct (Hin j) as [r Hr]; [by left|].
  destruct (releaseReservation_run _ (sched a) j r Hs Hr) as (m' & Hrun & Hm' & Ht).
  set (s1 := set_pending_jobs (λ p, p ∖ {[j]}) (released j r m' (sched a))).
  set (a1 := mk_agent (set_jobs_to_schedule (λ l, l ++ [j]) s1) (scheduler.jobs a) (world a)).
  pose proof (released_agrees _ (sched a) j r m' Hs Hr Hm' Ht) as Hs1.
  assert (agrees (jobs_to_schedule (sched a) ++ [j]) (sched a1)) as Ha1.
  { apply agrees_queue. destruct Hs1 as [F1 F2 F3 F4 F5 F6 F7]. split; try done.
    - apply NoDup_app. split; [done|]. split; [|apply NoDup_singleton]. intros x Hx Hxj. apply list_elem_of_singleton in Hxj as ->.
      pose proof (a_fresh _ _ Hs _ Hx). congruence.
    - intros x Hx. apply elem_of_app in Hx as [Hx|Hx]; [by apply F3|].
      apply list_elem_of_singleton in Hx as ->. apply lookup_delete_eq. }
  destruct (IH a1 Ha1 Hnd) as (a' & Hrun' & Hs' & Hq' & Hk' & Hw').
  { intros x Hx. simpl. rewrite lookup_delete_ne by (by intros ->). apply Hin. by right. }
  exists a'. split.
  { rewrite <- Hrun'. unfold mbind at 1, M_bind at 1.
    rewrite (bind_ret _ _ _ _ _ (with_scheduler_run _ _ _ _ Hrun)). done. }
  split; [done|]. split; [rewrite Hq'; simpl; by rewrite <- app_assoc|]. split.
  - intros x. rewrite Hk'. unfold known. simpl. rewrite elem_of_app, list_elem_of_singleton.
    destruct (decide (x = j)) as [->|Hne].
    + rewrite lookup_delete_eq, Hr. split; [eauto|]. intros _. left. by right.
    + rewrite lookup_delete_ne by done. tauto.
  - intros id w Hw. assert (∃ w1, worker_map m' !! id = Some w1) as [w1 Hw1].
    { rewrite Ht, Hw. case_decide; simpl; eauto. }
    destruct (released_workers _ (sched a) j r _ id w1 Hs Hr Ht Hw1) as (w2 & Hw2 & _ & Hp). simplify_eq.
    destruct (Hw' id w1 Hw1) as (w3 & Hw3 & Hp3). exists w3. split; [done|]. rewrite Hp in Hp3. set_solver.
Qed.

(** ** The worker goes *)
Lemma removed_agrees q s worker w m' :
  agrees q s → workers_of s !! worker = Some w → Worker.pending w = ∅ → consistent m' →
  worker_map m' = delete worker (workers_of s) → agrees q (set_manager m' s).
Proof.
  intros [F1 F2 F3 F4 F5 F6 F7] Hw He Hm' Hmap. split; simpl; rewrite ?Hmap.
  - done.
  - done.
  - done.
  - intros id w' j Hw'. apply lookup_delete_Some in Hw' as [_ Hw']. by apply F4.
  - intros j r id w' Hr Hid Hw'. apply lookup_delete_Some in Hw' as [_ Hw']. by apply (F5 j r id).
  - intros j Hj. destruct (F6 j Hj) as (r & Hr & Hp). exists r. split; [done|]. intros id Hid.
    destruct (Hp id Hid) as (w' & Hw' & Hjp). exists w'. split; [|done]. rewrite lookup_delete_ne; [done|].
    intros <-. simplify_eq. set_solver.
  - intros id w' j Hw'. apply lookup_delete_Some in Hw' as [_ Hw']. by apply (F7 id).
Qed.
(** another worker with the same jobs *)
Lemma same_worker_agrees q s worker w wnew m' :
  agrees q s → workers_of s !! worker = Some w → consistent m' → jobs wnew = jobs w →
  Worker.pending wnew = Worker.pending w →
  worker_map m' = <[worker := wnew]> (workers_of s) → agrees q (set_manager m' s).
Proof.
  intros [F1 F2 F3 F4 F5 F6 F7] Hw Hm' Hj1 Hp1 Hmap.
  assert (∀ id w', worker_map m' !! id = Some w' → ∃ w0, workers_of s !! id = Some w0 ∧ jobs w' = jobs w0 ∧
    Worker.pending w' = Worker.pending w0) as Hback.
  { intros id w'. rewrite Hmap, lookup_insert_Some. intros [[<- <-]|[_ ?]]; eauto. }
  split; simpl.
  - done.
  - done.
  - done.
  - intros id w' j Hw' Hj. destruct (Hback _ _ Hw') as (w0 & Hw0 & Heq & _). rewrite Heq in Hj. by apply (F4 id w0).
  - intros j r id w' Hr Hid Hw'. destruct (Hback _ _ Hw') as (w0 & Hw0 & -> & _). by apply (F5 j r id).
  - intros j Hj. destruct (F6 j Hj) as (r & Hr & Hp). exists r. split; [done|]. intros id Hid.
    destruct (Hp id Hid) as (w' & Hw' & Hjp). rewrite Hmap. destruct (decide (worker = id)) as [<-|Hne].
    + rewrite lookup_insert_eq. simplify_eq. eexists. split; [done|]. by rewrite Hp1.
    + rewrite lookup_insert_ne by done. eauto.
  - intros id w' j Hw' Hj. destruct (Hback _ _ Hw') as (w0 & Hw0 & _ & Heq). rewrite Heq in Hj. by apply (F7 id w0).
Qed.

Section losing.
Context {W : Type} (cancel_worker_job : worker_id_t → job_id_t → M W exn unit).
Implicit Types (a : agent activity_t W).

(** what follows for the jobs [R], which run on the worker or wait for it *)
Lemma lost_worker_rest (worker : worker_id_t) (w : Worker.type) (backlog_full : bool) (R : gset job_id_t) a a1 :
  agrees (jobs_to_schedule (sched a)) (sched a) → workers_of (sched a) !! worker = Some w →
  similar (sched a) (sched a1) → Worker.pending w ⊆ R → R ⊆ jobs w →
  ∃ a', (for_each (λ id,
           with_scheduler (releaseReservation now id) ≫= λ _,
           with_scheduler (delete_pending_job id) ≫= λ _,
           with_scheduler (enqueueJob id)) (unordered_elements R) ≫= λ _,
         if backlog_full then with_scheduler (on_manager (set_worker_backlog_full worker true))
         else with_scheduler (on_manager (deleteWorker worker))) a1 = (Ret tt, a') ∧
    agrees (jobs_to_schedule (sched a')) (sched a') ∧
    (∀ j, known (jobs_to_schedule (sched a')) (sched a') j ↔ known (jobs_to_schedule (sched a)) (sched a) j) ∧
    (∀ j, j ∈ Worker.pending w → j ∈ jobs_to_schedule (sched a')) ∧
    (backlog_full = false → workers_of (sched a') !! worker = None).
Proof.
  intros Hs Hw Hsim HR1 HR2. pose proof Hsim as (Hman & Hq1 & Hp1 & _).
  pose proof (similar_agrees _ _ _ Hs Hsim) as Hs1. rewrite <- Hq1 in Hs1.
  destruct (requeue_spec (unordered_elements R) a1 Hs1) as (a2 & Hr2 & Hs2 & Hq2 & Hk2 & Hw2).
  { apply NoDup_unordered_elements. }
  { intros j. rewrite elem_of_unordered_elements. intros Hj.
    destruct (a_reserved _ _ Hs worker w j Hw) as (r & Hr & _); [set_solver|].
    destruct (similar_reservation _ _ j r Hsim Hr) as (r' & -> & _). eauto. }
  rewrite (bind_ret _ _ _ _ _ Hr2).
  assert (∀ j, known (jobs_to_schedule (sched a2)) (sched a2) j ↔ known (jobs_to_schedule (sched a)) (sched a) j) as Hk.
  { intros j. rewrite Hk2, Hq1. by apply similar_known. }
  assert (∀ j, j ∈ Worker.pending w → j ∈ jobs_to_schedule (sched a2)) as Hqueued.
  { intros j Hj. rewrite Hq2. apply elem_of_app. right. apply elem_of_unordered_elements. by apply HR1. }
  destruct (Hw2 worker w) as (w' & Hw' & Hpw); [by rewrite Hman|].
  assert (Worker.pending w' = ∅) as He.
  { apply set_eq. intros j. rewrite elem_of_empty. split; [|done]. intros Hj.
    destruct (a_reserved _ _ Hs2 worker w' j Hw') as (r & Hr & _); [unfold jobs; set_solver|].
    pose proof (a_fresh _ _ Hs2 j (Hqueued j (Hpw j Hj))). congruence. }
  destruct backlog_full.
  - destruct (backlog_consistent no_assert (manager (sched a2)) worker w' true) as (m' & Hrun & Hm' & Hmap);
      [apply (a_manager _ _ Hs2)|done|].
    eexists. split; [apply with_scheduler_run, on_manager_run; exact Hrun|]. simpl. split; [|done].
    by apply (same_worker_agrees _ _ worker w' (Worker.set_backlog_full true w')).
  - destruct (deleteWorker_consistent no_assert (manager (sched a2)) worker w') as (m' & Hrun & Hm' & Hmap);
      [apply (a_manager _ _ Hs2)|done|].
    eexists. split; [apply with_scheduler_run, on_manager_run; exact Hrun|]. simpl. split; [|split; [done|split; [done|]]].
    + by apply (removed_agrees _ _ worker w').
    + intros _. rewrite Hmap. apply lookup_delete_eq.
Qed.

(** C10: With assertions switched off, on a state in which reservations, workers and
    queues agree: when a known worker is lost, or its backlog is full, canceling the
    jobs on other workers does not throw, and every job that has a reservation exists
    and, if the state machine rethrows when it has no transition, is pending or running
    (not being canceled, not ended): no exception is thrown, reservations, workers and
    queues agree afterwards, all jobs that were queued or reserved are queued or
    reserved, and every job that waited for the worker is in the queue again.  A lost
    worker is gone. *)
Theorem lost_worker_jobs_survive (worker : worker_id_t) (w : Worker.type) (backlog_full : bool) a :
  agrees (jobs_to_schedule (sched a)) (sched a) → reschedulable a → workers_of (sched a) !! worker = Some w →
  (∀ id j w, (cancel_worker_job id j w).1 = Ret tt) →
  ∃ a', reschedule_worker_jobs_and_maybe_remove_worker now cancel_worker_job worker backlog_full a = (Ret tt, a') ∧
    agrees (jobs_to_schedule (sched a')) (sched a') ∧
    (∀ j, known (jobs_to_schedule (sched a')) (sched a') j ↔ known (jobs_to_schedule (sched a)) (sched a) j) ∧
    (∀ j, j ∈ Worker.pending w → j ∈ jobs_to_schedule (sched a')) ∧
    (backlog_full = false → workers_of (sched a') !! worker = None).
Proof.
  intros Hs Ha Hw Hcancel. unfold reschedule_worker_jobs_and_maybe_remove_worker.
  destruct (delete_or_cancel_spec cancel_worker_job Hcancel worker w a Hs Ha Hw) as (R & a1 & Hr1 & Hsim & HR1 & HR2).
  rewrite (bind_ret _ _ _ _ _ Hr1). by apply (lost_worker_rest worker w backlog_full R a a1).
Qed.
End losing.
End lost.

(** The workers of the example after the assignment of its jobs *)
Definition example_assigned : scheduler.type unit :=
  (assignJobsToWorkers (H := {| assert_throws := false |}) tt (λ _, of_Z 9)
    (λ j, requirements.mk [] (if decide (j = "j1") then Some 2%Z else None) (λ _, of_Z 1) (of_Z 1) 0 [])
    2 example_start).2.
Definition example_agent : agent unit (list (worker_id_t * job_id_t)) :=
  let jb j := job.make tt j tt job.job_source_wfe job.job_handler_worker in
  mk_agent example_assigned {["j1" := jb "j1"; "j2" := jb "j2"]} [].
Lemma example_agrees :
  agrees (jobs_to_schedule example_assigned) example_assigned ∧
  ∀ j, is_Some (allocation_table example_assigned !! j) → j ∈ ["j1"; "j2"].
Proof.
  destruct (assignJobsToWorkers_spec (H := {| assert_throws := false |}) tt eq_refl (λ _, of_Z 9)
    (λ j, requirements.mk [] (if decide (j = "j1") then Some 2%Z else None) (λ _, of_Z 1) (of_Z 1) 0 [])
    2 example_start) as (s' & Hr & Hs & Hk).
  - reflexivity.
  - apply agrees_start.
    + apply (@legal_consistent {| assert_throws := false |} eq_refl); [apply empty_consistent|vm_compute; reflexivity].
    + apply (bool_decide_unpack _). vm_compute. exact I.
    + apply (bool_decide_unpack _). vm_compute. exact I.
  - intros j. simpl. rewrite elem_of_cons, list_elem_of_singleton. intros [->| ->]; reflexivity.
  - unfold example_assigned. rewrite Hr. simpl. split; [done|]. intros j Hj.
    destruct (proj1 (Hk j) (or_intror Hj)) as [?|He]; [done|]. simpl in He. rewrite lookup_empty in He. by destruct He.
Qed.
Lemma lost_worker_jobs_survive_witness :
  let off : AssertMode := {| assert_throws := false |} in
  let throwing : job.StateMachine := {| job.rethrows := true |} in
  ∃ a', @reschedule_worker_jobs_and_maybe_remove_worker unit off _ throwing _ (λ _, of_Z 9)
          (λ id j w, (Ret tt, (id, j) :: w)) "w1" false example_agent = (Ret tt, a') ∧
    agrees (jobs_to_schedule (sched a')) (sched a') ∧ "j1" ∈ jobs_to_schedule (sched a').
Proof.
  intros off throwing. destruct example_agrees as [Hs Hj].
  destruct (worker_map (manager example_assigned) !! "w1") as [w|] eqn:Hw; [|vm_compute in Hw; discriminate Hw].
  destruct (@lost_worker_jobs_survive unit off eq_refl _ throwing (λ _, of_Z 9) _
    (λ id j w, (Ret tt, (id, j) :: w)) "w1" w false example_agent) as (a' & Hr & Ha' & _ & Hq & _).
  - exact Hs.
  - intros j Hin. specialize (Hj j Hin). apply elem_of_cons in Hj as [->|Hj]; [|apply list_elem_of_singleton in Hj as ->];
      eexists; (split; [vm_compute; reflexivity|right; left; reflexivity]).
  - exact Hw.
  - reflexivity.
  - exists a'. split; [exact Hr|]. split; [exact Ha'|]. apply Hq.
    assert (default false ((λ w, bool_decide ("j1" ∈ Worker.pending w)) <$>
              worker_map (manager example_assigned) !! "w1") = true) as Hp by (vm_compute; reflexivity).
    rewrite Hw in Hp. by apply bool_decide_eq_true in Hp.
Defined.
End Lost.

(** ** Runs of the scheduler that end badly

    Runs that start with no workers and no jobs and consist of calls that the
    agent makes.  Jobs that could run never start, jobs start on workers that are
    not eligible for them, and the scheduling thread ends with an exception. *)

Import equivalence_class WorkerManager scheduler Bookkeeping Round.

Module Faults.

#[local] Instance assertions : AssertMode := {| assert_throws := true |}.
#[local] Instance machine : job.StateMachine := {| job.rethrows := true |}.
Abbreviation sched_t := (scheduler.type unit).
Definition zero : double := S754_zero false.
Definition at_zero : worker_id_t → double := λ _, zero.
Definition needs (workers shm : Z) (prefs : list string) : requirements.type :=
  requirements.mk [] (Some workers) (λ _, zero) zero shm prefs.
Definition join (id : worker_id_t) (cpbs : capability.set) (shm : Z) : M sched_t exn unit :=
  on_manager (addWorker zero id cpbs shm false "host" (String.list_ascii_of_string id)).

(** ** Lost workers of a job for several workers *)
Section starvation.
Definition demand (j : job_id_t) : requirements.type := if decide (j = "pair") then needs 2 0 [] else needs 1 0 [].
Definition round : M (sched_t * unit) exn (gset job_id_t) :=
  scheduling_round tt at_zero demand (λ _ _ _ _, (Ret tt, tt)) 2.

(** the job "pair" runs on both workers *)
Definition paired : outcome exn (gset job_id_t) * (sched_t * unit) :=
  (on_scheduler (join "w1" ∅ 0 ≫= λ _, join "w2" ∅ 0 ≫= λ _, enqueueJob "pair") ≫= λ _, round) (scheduler.empty, tt).
(** the first worker is lost *)
Definition one_lost : outcome exn unit * agent unit unit :=
  reschedule_worker_jobs_and_maybe_remove_worker at_zero (λ _ _ _, (Ret tt, tt)) "w1" false
    (mk_agent paired.2.1
       {["pair" := (job.Dispatch (job.make tt "pair" tt job.job_source_wfe job.job_handler_worker)).2]} tt).
(** the second worker has canceled its part, the job is rescheduled, and another one is submitted *)
Definition rescheduled : outcome exn unit * sched_t :=
  (scheduler.store_result "w2" "pair" Reservation.s_canceled ≫= λ _, releaseReservation at_zero "pair" ≫= λ _,
   enqueueJob "pair" ≫= λ _, enqueueJob "single") (sched one_lost.2).
Definition next_round : outcome exn (gset job_id_t) * (sched_t * unit) := round (rescheduled.2, tt).
Fixpoint rounds (n : nat) (x : sched_t * unit) : list (outcome exn (gset job_id_t)) * (sched_t * unit) :=
  match n with
  | O => ([], x)
  | Datatypes.S n => let '(r, x) := round x in let '(rs, x) := rounds n x in (r :: rs, x)
  end.

(** equality of states, part by part *)
#[local] Instance class_eq_dec : EqDecision equivalence_class.type.
Proof. solve_decision. Defined.
Lemma state_eq (x y : sched_t * unit) :
  bool_decide (worker_equiv_classes (manager x.1) = worker_equiv_classes (manager y.1)) = true →
  worker_map (manager x.1) = worker_map (manager y.1) →
  worker_connections (manager x.1) = worker_connections (manager y.1) →
  num_free_workers (manager x.1) = num_free_workers (manager y.1) →
  jobs_to_schedule x.1 = jobs_to_schedule y.1 → allocation_table x.1 = allocation_table y.1 →
  pending_jobs x.1 = pending_jobs y.1 → x = y.
Proof.
  intros He%bool_decide_eq_true. destruct x as [[[] ] []], y as [[[] ] []]. simpl in *. congruence.
Qed.
Lemma round_result : (round next_round.2).1 = Ret ∅.
Proof. vm_compute. reflexivity. Qed.
Lemma round_state : (round next_round.2).2 = next_round.2.
Proof. apply state_eq; vm_compute; reflexivity. Qed.
Lemma round_fixed : round next_round.2 = (Ret ∅, next_round.2).
Proof. exact (eq_trans (surjective_pairing _) (f_equal2 pair round_result round_state)). Qed.
Lemma rounds_fixed n : rounds n next_round.2 = (replicate n (Ret ∅), next_round.2).
Proof. induction n as [|n IH]; cbn [rounds replicate]; [reflexivity|]. by rewrite round_fixed, IH. Qed.

(** Starvation: a job ran on two workers and one of them was lost; the counter of
    free workers has been decremented for it twice.  The other worker has canceled its
    part and is free, a new job is assigned to it, but in however many further rounds
    of scheduling, no job is started: the counter says that no worker is free. *)
Theorem lost_worker_starves_jobs (n : nat) :
  (is_ret paired.1, is_ret one_lost.1, is_ret rescheduled.1) = (true, true, true) ∧
  pending_jobs next_round.2.1 = {["single"]} ∧
  (∃ w, worker_map (manager next_round.2.1) !! "w2" = Some w ∧
     Worker.pending w = {["single"]} ∧ Worker.has_running_jobs w = false ∧ Worker.isReserved w = false) ∧
  (rounds n next_round.2).1 = replicate n (Ret ∅).
Proof.
  split; [vm_compute; reflexivity|]. split; [vm_compute; reflexivity|]. split.
  - eexists. split; [vm_compute; reflexivity|]. split; [vm_compute; reflexivity|]. split; vm_compute; reflexivity.
  - by rewrite rounds_fixed.
Qed.
End starvation.

(** ** Thieves with too little memory *)
Definition memory_round : outcome exn (gset job_id_t) * (sched_t * unit) :=
  (on_scheduler (join "large" ∅ 100 ≫= λ _, join "small" ∅ 0 ≫= λ _, enqueueJob "j1" ≫= λ _, enqueueJob "j2") ≫= λ _,
   scheduling_round tt at_zero (λ _, needs 1 50 []) (λ _ _ _ _, (Ret tt, tt)) 2) (scheduler.empty, tt).

(** Stealing does not look at the shared memory: two jobs need 50 units each and
    are assigned to the only worker that has them; in the same round the worker with no
    memory steals one of the jobs and runs it, although it is not eligible. *)
Theorem stealing_ignores_memory :
  is_ret memory_round.1 = true ∧
  ∃ w, worker_map (manager memory_round.2.1) !! "small" = Some w ∧
    Worker.has_running_jobs w = true ∧ Assignment.eligible_worker (needs 1 50 []) ("small", w) = None.
Proof.
  split; [vm_compute; reflexivity|].
  eexists. split; [vm_compute; reflexivity|]. split; vm_compute; reflexivity.
Qed.

(** ** Changing capabilities *)
Definition cap (x : string) : capability.type := capability.mk x 0 "owner" x.
Definition capability_run : outcome exn unit * sched_t :=
  (join "a" {["A" := cap "A"]} 0 ≫= λ _, join "b" {["B" := cap "B"]} 0 ≫= λ _,
   enqueueJob "j1" ≫= λ _,
   assignJobsToWorkers tt at_zero (λ _, needs 1 0 ["A"; "B"]) 1 ≫= λ _,
   on_manager (add_worker_capabilities "b" {["C" := cap "C"]}) ≫= λ _, mret tt) scheduler.empty.

(** A worker whose capabilities change leaves its class; the class is erased when it
    was the last worker but stays among the classes that others let steal from them.
    The next round of stealing then looks up a class that does not exist and throws, in
    the scheduling thread, which does not catch it. *)
Theorem capability_change_breaks_stealing :
  is_ret capability_run.1 = true ∧ (steal_work at_zero capability_run.2).1 = Throw out_of_range.
Proof. split; vm_compute; reflexivity. Qed.

End Faults.
