(* ===== verification/Layer.v ===== *)
(** * The workflow layer

    [we/layer.cpp]: the layer keeps the submitted workflows, extracts activities
    from them in a thread of its own, relates the activities (children) to their
    workflows (parents), and tells the runtime system about results.  While the
    thread works on a workflow the workflow is in none of the queues; what others
    want to do to it is deferred until the thread puts it back.

    Calls into the runtime system are recorded in [sent].  Activities are given
    by their interface; the random engine and the plugins, which only extraction
    uses, are one component [G].  A closure that is stored is the constructor of
    [removal], [on_error] or [finalizer] that has its captures as arguments. *)

From S2P Require Import Prelude Value Token Function SdpaJob SdpaWorker.

(** ** [we/workflow_response.cpp] *)
Definition get_response_id (show : value_type → string) (description : value_type) : outcome exn string :=
  match Path.peek ["response_id"] description with
  | None => Throw (logic_error ("Could not peek 'response_id' from '" +:+ show description +:+ "'"))
  | Some (Vstring s) => Ret s
  | Some _ => Throw bad_get
  end.
Definition make_response_description (response_id : string) (value : value_type) : value_type :=
  Path.poke ["response_id"] (Path.poke ["value"] Vcontrol value) (Vstring response_id).

Module layer.

Abbreviation id_type := string.

(** ** [sdpa::discovery_info_t]

    children are compared by their ids *)
Inductive discovery_info_t : Type :=
| mk_info (job_id : id_type) (state : option job.code) (children : list discovery_info_t).
Definition job_id (i : discovery_info_t) : id_type := let '(mk_info id _ _) := i in id.
Definition children_of (i : discovery_info_t) : list discovery_info_t := let '(mk_info _ _ l) := i in l.
Definition add_child_info (child_info : discovery_info_t) (i : discovery_info_t) : discovery_info_t :=
  let '(mk_info id st l) := i in
  if existsb (λ c, bool_decide (job_id c = job_id child_info)) l then i else mk_info id st (l ++ [child_info]).

(** ** Activities

    What the layer uses of [activity_t].  [extract] and [inject] get callbacks into
    the layer and touch it in no other way. *)
Class Activity (A G : Type) := {
  wrap : A → outcome exn A;
  unwrap : A → outcome exn A;
  wait_for_output : A → outcome exn bool;
  eureka_id : A → option string;
  put_token_on : string → value_type → M A exn unit;
  inject : ∀ {S : Type}, (value_type → value_type → M S exn unit) → (gset string → M S exn unit) →
    A → M (A * S) exn unit;
  extract : ∀ {S : Type}, (value_type → value_type → M S exn unit) → (gset string → M S exn unit) →
    (string → value_type → M S exn unit) → M (A * G * S) exn (option A);
  (** the message for an exception in a context *)
  describe : string → exn → string;
  show_value : value_type → string;
  inject_callbacks : ∀ {S} (I : S → Prop) wr er a,
    (∀ d v, preserves I (wr d v)) → (∀ ids, preserves I (er ids)) →
    preserves (λ x, I x.2) (@inject S wr er a);
  extract_callbacks : ∀ {S} (I : S → Prop) wr er pt,
    (∀ d v, preserves I (wr d v)) → (∀ ids, preserves I (er ids)) → (∀ p v, preserves I (pt p v)) →
    preserves (λ x, I x.2) (@extract S wr er pt)
}.

Section layer.
Context {A G : Type} `{Activity A G} `{AssertMode} `{Unordered}.

Record activity_data_type : Type := mk_data { d_id : id_type; d_activity : A }.

(** what is applied to a workflow, possibly later *)
Inductive removal : Type :=
| Put_token (put_token_id place_name : string) (value : value_type)
| Put_response (workflow_response_id place_name : string) (value : value_type)
| Put_from_plugin (place_name : string) (value : value_type)
| To_finish (parent : id_type) (result : A) (id : id_type)
| To_cancel (id : id_type)
| To_fail (child : id_type) (reason : string)
| To_terminate (child : id_type)
| To_discover (discover_id : id_type)
| To_cancel_eureka (parent : id_type) (caller : option id_type) (ids : gset string).

(** [std::rethrow_exception], the callbacks of [put_token] and of
    [request_workflow_response] *)
Inductive on_error : Type :=
| Rethrow
| Token_put (put_token_id : string)
| Response (id : id_type) (workflow_response_id : string).

(** what is left to do when the last child of a workflow has terminated *)
Inductive finalizer : Type := Finally_canceled | Finally_failed (reason : string).

(** the callbacks of the runtime system *)
Inductive rts : Type :=
| rts_submit (id : id_type) (a : A)
| rts_cancel (id : id_type)
| rts_finished (id : id_type) (a : A)
| rts_failed (id : id_type) (reason : string)
| rts_canceled (id : id_type)
| rts_discover (discover_id id : id_type)
| rts_discovered (discover_id : id_type) (info : discovery_info_t)
| rts_token_put (put_token_id : string) (error : option exn)
| rts_workflow_response (workflow_response_id : string) (response : exn + value_type).

Record type : Type := mk {
  container : list activity_data_type;
  container_inactive : list activity_data_type;
  to_be_removed : gmap id_type (list (removal * on_error * bool));
  interrupted : bool;
  relation : gmap id_type id_type;
  eureka_in_progress : gmap id_type (string * id_type);
  finalize_job_cancellation : gmap id_type finalizer;
  ignore_canceled_by_eureka : gset id_type;
  outstanding_responses : gmap id_type (gset string);
  discover_state : gmap id_type (Z * discovery_info_t);
  engine : G;
  sent : list rts
}.
Definition make (g : G) : type := mk [] [] ∅ false ∅ ∅ ∅ ∅ ∅ ∅ g [].

Definition set_container f s := mk (f (container s)) (container_inactive s) (to_be_removed s) (interrupted s) (relation s) (eureka_in_progress s) (finalize_job_cancellation s) (ignore_canceled_by_eureka s) (outstanding_responses s) (discover_state s) (engine s) (sent s).
Definition set_container_inactive f s := mk (container s) (f (container_inactive s)) (to_be_removed s) (interrupted s) (relation s) (eureka_in_progress s) (finalize_job_cancellation s) (ignore_canceled_by_eureka s) (outstanding_responses s) (discover_state s) (engine s) (sent s).
Definition set_to_be_removed f s := mk (container s) (container_inactive s) (f (to_be_removed s)) (interrupted s) (relation s) (eureka_in_progress s) (finalize_job_cancellation s) (ignore_canceled_by_eureka s) (outstanding_responses s) (discover_state s) (engine s) (sent s).
Definition set_interrupted b s := mk (container s) (container_inactive s) (to_be_removed s) b (relation s) (eureka_in_progress s) (finalize_job_cancellation s) (ignore_canceled_by_eureka s) (outstanding_responses s) (discover_state s) (engine s) (sent s).
Definition set_relation f s := mk (container s) (container_inactive s) (to_be_removed s) (interrupted s) (f (relation s)) (eureka_in_progress s) (finalize_job_cancellation s) (ignore_canceled_by_eureka s) (outstanding_responses s) (discover_state s) (engine s) (sent s).
Definition set_eureka_in_progress f s := mk (container s) (container_inactive s) (to_be_removed s) (interrupted s) (relation s) (f (eureka_in_progress s)) (finalize_job_cancellation s) (ignore_canceled_by_eureka s) (outstanding_responses s) (discover_state s) (engine s) (sent s).
Definition set_finalize f s := mk (container s) (container_inactive s) (to_be_removed s) (interrupted s) (relation s) (eureka_in_progress s) (f (finalize_job_cancellation s)) (ignore_canceled_by_eureka s) (outstanding_responses s) (discover_state s) (engine s) (sent s).
Definition set_ignore f s := mk (container s) (container_inactive s) (to_be_removed s) (interrupted s) (relation s) (eureka_in_progress s) (finalize_job_cancellation s) (f (ignore_canceled_by_eureka s)) (outstanding_responses s) (discover_state s) (engine s) (sent s).
Definition set_outstanding f s := mk (container s) (container_inactive s) (to_be_removed s) (interrupted s) (relation s) (eureka_in_progress s) (finalize_job_cancellation s) (ignore_canceled_by_eureka s) (f (outstanding_responses s)) (discover_state s) (engine s) (sent s).
Definition set_discover_state f s := mk (container s) (container_inactive s) (to_be_removed s) (interrupted s) (relation s) (eureka_in_progress s) (finalize_job_cancellation s) (ignore_canceled_by_eureka s) (outstanding_responses s) (f (discover_state s)) (engine s) (sent s).
Definition set_engine g s := mk (container s) (container_inactive s) (to_be_removed s) (interrupted s) (relation s) (eureka_in_progress s) (finalize_job_cancellation s) (ignore_canceled_by_eureka s) (outstanding_responses s) (discover_state s) g (sent s).
Definition set_sent f s := mk (container s) (container_inactive s) (to_be_removed s) (interrupted s) (relation s) (eureka_in_progress s) (finalize_job_cancellation s) (ignore_canceled_by_eureka s) (outstanding_responses s) (discover_state s) (engine s) (f (sent s)).

Abbreviation L := (M type exn).
Definition emit (e : rts) : L unit := modify (set_sent (λ l, l ++ [e])).

(** ** [locked_parent_child_relation_type] *)
Definition started (parent child : id_type) (eureka : option string) : L unit :=
  (match eureka with
   | Some e => modify (set_eureka_in_progress (λ m, (emplace child (e, parent) m).1))
   | None => mret tt
   end) ≫= λ _,
  modify (set_relation (λ m, (emplace child parent m).1)).
Definition children (parent : id_type) (s : type) : list id_type :=
  (unordered_list (filter (λ x, x.2 = parent) (relation s))).*1.
Definition contains (parent : id_type) (s : type) : bool :=
  negb (bool_decide (filter (λ x, x.2 = parent) (relation s) = ∅)).
Definition terminated (parent child : id_type) : L bool :=
  modify (set_eureka_in_progress (delete child)) ≫= λ _,
  modify (set_relation (λ m, if decide (m !! child = Some parent) then delete child m else m)) ≫= λ _,
  get ≫= λ s : type, mret (negb (contains parent s)).
Definition parent_of (child : id_type) (s : type) : option id_type := relation s !! child.
Definition apply_to_children (parent : id_type) (f : id_type → L unit) : L unit :=
  get ≫= λ s : type, for_each f (children parent s).
Definition apply_and_remove_eureka (eureka : string) (parent : id_type) (caller : option id_type)
    (f : id_type → L unit) : L unit :=
  get ≫= λ s : type,
  for_each (λ child, if decide (caller = Some child) then mret tt else f child)
    (unordered_list (filter (λ x, x.2 = (eureka, parent)) (eureka_in_progress s))).*1 ≫= λ _,
  modify (set_eureka_in_progress (filter (λ x, x.2 ≠ (eureka, parent)))).

(** ** Responses *)
Definition workflow_response (id : id_type) (response_id : string) (response : exn + value_type) : L unit :=
  emit (rts_workflow_response response_id response) ≫= λ _,
  get ≫= λ s : type,
  match outstanding_responses s !! id with
  | None => throw out_of_range
  | Some X =>
      let X := X ∖ {[response_id]} in
      modify (set_outstanding (if decide (X = ∅) then delete id else <[id := X]>))
  end.
Definition cancel_outstanding_responses (id : id_type) (reason : string) : L unit :=
  get ≫= λ s : type,
  match outstanding_responses s !! id with
  | None => mret tt
  | Some X =>
      for_each (λ response_id, emit (rts_workflow_response response_id (inl (runtime_error reason))))
        (unordered_elements X) ≫= λ _,
      modify (set_outstanding (delete id))
  end.

(** ** [async_remove_queue] *)
Definition run_on_error (h : on_error) (e : exn) : L unit :=
  match h with
  | Rethrow => throw e
  | Token_put put_token_id => emit (rts_token_put put_token_id (Some e))
  | Response id response_id => workflow_response id response_id (inl e)
  end.

(** [try { ... } catch (...) {}] *)
Definition ignoring (f : L unit) : L unit := λ s, (Ret tt, (f s).2).
Definition forget (id : id_type) : L unit :=
  get ≫= λ s : type,
  match to_be_removed s !! id with
  | None => mret tt
  | Some infos =>
      for_each (λ info : removal * on_error * bool,
        ignoring (run_on_error info.1.2 (runtime_error "activity was terminated"))) infos ≫= λ _,
      modify (set_to_be_removed (delete id))
  end.

Definition rts_finished_and_forget (id : id_type) (a : A) : L unit :=
  forget id ≫= λ _, cancel_outstanding_responses id "workflow finished" ≫= λ _, emit (rts_finished id a).
Definition rts_failed_and_forget (id : id_type) (message : string) : L unit :=
  forget id ≫= λ _, cancel_outstanding_responses id message ≫= λ _, emit (rts_failed id message).
Definition rts_canceled_and_forget (id : id_type) : L unit :=
  forget id ≫= λ _, cancel_outstanding_responses id "workflow was canceled" ≫= λ _, emit (rts_canceled id).

(** [list_with_id_lookup]; ids are unique *)
Definition find (id : id_type) (l : list activity_data_type) : option activity_data_type :=
  snd <$> list_find (λ d, d_id d = id) l.
Definition erase (id : id_type) (l : list activity_data_type) : list activity_data_type :=
  filter (λ d, d_id d ≠ id) l.
Definition write_back (id : id_type) (a : A) (l : list activity_data_type) : list activity_data_type :=
  (λ d, if decide (d_id d = id) then mk_data id a else d) <$> l.

(** a function is applied to the activity of a workflow; with its handler: the
    activity reached and the outcome *)
Abbreviation LA := (M (A * type) exn).
Definition guarded (fun_ : LA unit) (h : on_error) (a : A) (s : type) : outcome exn unit * (A * type) :=
  match fun_ (a, s) with
  | (Ret _, x) => (Ret tt, x)
  | (Throw e, (a, s)) => let '(o, s) := run_on_error h e s in (o, (a, s))
  end.

Definition defer (id : id_type) (r : removal) (h : on_error) (keep : bool) : L unit :=
  modify (set_to_be_removed (λ m, <[id := default [] (m !! id) ++ [(r, h, keep)]]> m)).

(** [apply]: a workflow that is not in a queue gets the function later; an inactive
    one is taken out of its queue first, and is gone if the handler throws. *)
Definition apply (id : id_type) (fun_ : LA unit) (r : removal) (h : on_error) : L unit :=
  get ≫= λ s : type,
  match find id (container s), find id (container_inactive s) with
  | Some d, _ =>
      let '(o, (a, s)) := guarded fun_ h (d_activity d) s in
      put (set_container (write_back id a) s) ≫= λ _, lift o
  | None, Some d =>
      let '(o, (a, s)) := guarded fun_ h (d_activity d) (set_container_inactive (erase id) s) in
      put s ≫= λ _, lift o ≫= λ _, modify (set_container (λ l, l ++ [mk_data id a]))
  | None, None => defer id r h true
  end.
Definition remove_and_apply (id : id_type) (fun_ : LA unit) (r : removal) (h : on_error) : L unit :=
  get ≫= λ s : type,
  match find id (container s), find id (container_inactive s) with
  | Some d, _ =>
      let '(o, (a, s)) := guarded fun_ h (d_activity d) s in
      put (set_container (write_back id a) s) ≫= λ _, lift o ≫= λ _, modify (set_container (erase id))
  | None, Some d =>
      let '(o, (a, s)) := guarded fun_ h (d_activity d) s in
      put (set_container_inactive (write_back id a) s) ≫= λ _, lift o ≫= λ _,
      modify (set_container_inactive (erase id))
  | None, None => defer id r h false
  end.

(** ** What is applied *)
Definition on_layer {X} (f : L X) : LA X := λ x, let '(o, s) := f x.2 in (o, (x.1, s)).
Definition on_activity {X} (f : M A exn X) : LA X := λ x, let '(o, a) := f x.1 in (o, (a, x.2)).

Definition cancel_eureka (parent id : id_type) (caller : option id_type) (ids : gset string) : L unit :=
  get ≫= λ s : type,
  if contains id s then
    for_each (λ e, apply_and_remove_eureka e parent caller
      (λ t_id, modify (set_ignore (λ X, {[t_id]} ∪ X)) ≫= λ _, emit (rts_cancel t_id))) (ordered ids)
  else mret tt.
Definition eureka_response (parent : id_type) (caller : option id_type) (ids : gset string) : L unit :=
  apply parent (on_layer (cancel_eureka parent parent caller ids)) (To_cancel_eureka parent caller ids) Rethrow.

Definition respond (id : id_type) (description value : value_type) : L unit :=
  lift (get_response_id show_value description) ≫= λ response_id,
  workflow_response id response_id (inr value).

Definition cancel_children (id : id_type) (f : finalizer) : L unit :=
  modify (set_finalize (λ m, (emplace id f m).1)) ≫= λ _,
  apply_to_children id (λ child, emit (rts_cancel child)).

(** the call operator of [RemovalFunction], for the workflow [id] *)
Definition run_removal (r : removal) (id : id_type) : LA unit :=
  match r with
  | Put_token put_token_id place_name value =>
      on_activity (put_token_on place_name value) ≫= λ _,
      on_layer (emit (rts_token_put put_token_id None))
  | Put_response response_id place_name value =>
      on_activity (put_token_on place_name (make_response_description response_id value))
  | Put_from_plugin place_name value => on_activity (put_token_on place_name value)
  | To_finish parent result child =>
      inject (respond parent) (eureka_response parent (Some child)) result ≫= λ _,
      on_layer (terminated parent child) ≫= λ _, mret tt
  | To_cancel cid =>
      on_layer (get ≫= λ s : type,
        if contains id s then cancel_children id Finally_canceled else rts_canceled_and_forget cid)
  | To_fail child reason =>
      on_layer (last ← terminated id child;
        if (last : bool) then rts_failed_and_forget id reason else cancel_children id (Finally_failed reason))
  | To_terminate child => on_layer (terminated id child ≫= λ _, mret tt)
  | To_discover discover_id =>
      on_layer (get ≫= λ s : type,
        fhg_assert (bool_decide (discover_state s !! discover_id = None))
          "_discover_state.find (discover_id) == _discover_state.end()" ≫= λ _,
        let info := mk_info id None [] in
        apply_to_children id (λ child, emit (rts_discover discover_id child)) ≫= λ _,
        if bool_decide (children id s = []) then emit (rts_discovered discover_id info)
        else modify (set_discover_state
               (λ m, (emplace discover_id (Z.of_nat (length (children id s)), info) m).1)))
  | To_cancel_eureka parent caller ids => on_layer (cancel_eureka parent id caller ids)
  end.

(** [apply] and [remove_and_apply] with a stored function *)
Definition apply_removal (id : id_type) (r : removal) (h : on_error) : L unit := apply id (run_removal r id) r h.

(** The loop of [put]: the deferred functions in turn, until one takes the workflow
    away.  The iterator is at the end when the last one has been taken out, so what
    that one defers stays deferred.  Gives the activity, whether it is active, and
    whether to put it. *)
Fixpoint drain (fuel : nat) (id : id_type) (a : A) (active : bool) : L (A * bool * bool) :=
  get ≫= λ s : type,
  match to_be_removed s !! id with
  | None | Some [] => mret (a, active, true)
  | Some ((r, h, keep) :: rest) =>
      match fuel with
      | O => throw out_of_fuel
      | S fuel =>
          let '(o, (a, s)) := guarded (run_removal r id) h a (set_to_be_removed (<[id := rest]>) s) in
          put s ≫= λ _, lift o ≫= λ _,
          if (keep : bool) then if decide (rest = []) then mret (a, true, true) else drain fuel id a true
          else mret (a, false, false)
      end
  end.
Definition erase_if_empty (id : id_type) (m : gmap id_type (list (removal * on_error * bool))) :=
  match m !! id with Some [] => delete id m | _ => m end.
Definition put_data (fuel : nat) (d : activity_data_type) (active : bool) : L unit :=
  x ← drain fuel (d_id d) (d_activity d) active;
  let '(a, active, do_put) := x in
  modify (set_to_be_removed (erase_if_empty (d_id d))) ≫= λ _,
  if (do_put : bool) then
    if (active : bool) then modify (set_container (λ l, l ++ [mk_data (d_id d) a]))
    else modify (set_container_inactive (λ l, l ++ [mk_data (d_id d) a]))
  else mret tt.

(** ** The interface *)
Definition submit (fuel : nat) (id : id_type) (act : A) : L unit :=
  a ← lift (wrap act); put_data fuel (mk_data id a) true.

Definition require_parent (child : id_type) : L id_type :=
  get ≫= λ s : type,
  fhg_assert (bool_decide (is_Some (parent_of child s))) "parent" ≫= λ _,
  lift (or_throw (undefined "dereference of none") (parent_of child s)).

Definition finalize (parent : id_type) : L unit :=
  get ≫= λ s : type,
  match finalize_job_cancellation s !! parent with
  | None => throw (undefined "dereference of end")
  | Some f =>
      (match f with
       | Finally_canceled => rts_canceled_and_forget parent
       | Finally_failed reason => rts_failed_and_forget parent reason
       end) ≫= λ _,
      modify (set_finalize (delete parent))
  end.
Definition canceled (child : id_type) : L unit :=
  get ≫= λ s : type,
  match parent_of child s with
  | None => mret tt
  | Some parent =>
      if decide (child ∈ ignore_canceled_by_eureka s) then
        modify (set_ignore (λ X, X ∖ {[child]})) ≫= λ _,
        apply_removal parent (To_terminate child) Rethrow
      else
        last ← terminated parent child;
        if (last : bool) then finalize parent else mret tt
  end.
Definition finished (id : id_type) (result : A) : L unit :=
  parent ← require_parent id;
  get ≫= λ s : type,
  if decide (is_Some (finalize_job_cancellation s !! parent)) then canceled id
  else apply_removal parent (To_finish parent result id) Rethrow.
Definition cancel (id : id_type) : L unit :=
  remove_and_apply id (run_removal (To_cancel id) id) (To_cancel id) Rethrow.
Definition failed (id : id_type) (reason : string) : L unit :=
  parent ← require_parent id;
  get ≫= λ s : type,
  if decide (is_Some (finalize_job_cancellation s !! parent) ∨ id ∈ ignore_canceled_by_eureka s) then canceled id
  else remove_and_apply parent (run_removal (To_fail id reason) parent) (To_fail id reason) Rethrow.

Definition discover (discover_id id : id_type) : L unit := apply_removal id (To_discover discover_id) Rethrow.
Definition discovered (discover_id : id_type) (result : discovery_info_t) : L unit :=
  get ≫= λ s : type,
  fhg_assert (bool_decide (is_Some (discover_state s !! discover_id)))
    "_discover_state.find (discover_id) != _discover_state.end()" ≫= λ _,
  x ← lift (or_throw (undefined "dereference of end") (discover_state s !! discover_id));
  let info := add_child_info result x.2 in
  let n := w64 (x.1 - 1) in
  if (n =? 0)%Z then emit (rts_discovered discover_id info) ≫= λ _, modify (set_discover_state (delete discover_id))
  else modify (set_discover_state (<[discover_id := (n, info)]>)).

Definition put_token (id : id_type) (put_token_id place_name : string) (value : value_type) : L unit :=
  apply_removal id (Put_token put_token_id place_name value) (Token_put put_token_id).
Definition request_workflow_response (id : id_type) (response_id place_name : string) (value : value_type) : L unit :=
  modify (set_outstanding (λ m, <[id := {[response_id]} ∪ default ∅ (m !! id)]> m)) ≫= λ _,
  apply_removal id (Put_response response_id place_name value) (Response id response_id).

(** ** The extracting thread

    The calls of others come between [get], the extraction, and [put]. *)
Inductive thread : Type :=
| Waiting
| Extracting (d : activity_data_type)
| Extracted (d : activity_data_type) (was_active : bool)
| Stopped.

Definition extract_from (d : activity_data_type) : LA (option A) :=
  λ x, let '(o, (a, g, s)) :=
         extract (respond (d_id d)) (eureka_response (d_id d) None)
           (λ place_name value, apply_removal (d_id d) (Put_from_plugin place_name value) Rethrow)
           (x.1, engine x.2, x.2) in
       (o, (a, set_engine g s)).

(** [child_id] is what [rts_id_generator] gives *)
Definition extraction (d : activity_data_type) (child_id : id_type) : L thread :=
  λ s,
    match extract_from d (d_activity d, s) with
    | (Throw e, (_, s)) => (rts_failed_and_forget (d_id d) (describe "workflow interpretation" e) ≫= λ _, mret Waiting) s
    | (Ret None, (a, s)) => (Ret (Extracted (mk_data (d_id d) a) false), s)
    | (Ret (Some activity), (a, s)) =>
        (started (d_id d) child_id (eureka_id activity) ≫= λ _,
         emit (rts_submit child_id activity) ≫= λ _,
         mret (Extracted (mk_data (d_id d) a) true)) s
    end.
Definition put_or_fail (fuel : nat) (d : activity_data_type) (was_active : bool) : L thread :=
  λ s, match put_data fuel d was_active s with
       | (Ret _, s) => (Ret Waiting, s)
       | (Throw e, s) =>
           (rts_failed_and_forget (d_id d)
              (describe "waiting for further events to continue workflow interpretation" e) ≫= λ _, mret Waiting) s
       end.
Definition continue_or_finish (fuel : nat) (d : activity_data_type) (was_active : bool) : L thread :=
  get ≫= λ s : type,
  wait ← (if contains (d_id d) s then mret true else lift (wait_for_output (d_activity d)));
  if (wait : bool) then put_or_fail fuel d was_active
  else
    a ← lift (unwrap (d_activity d));
    rts_finished_and_forget (d_id d) a ≫= λ _, mret Waiting.

(** one step of the thread *)
Definition advance (fuel : nat) (child_id : id_type) (t : thread) : L thread :=
  match t with
  | Waiting =>
      get ≫= λ s : type,
      if interrupted s then mret Stopped
      else
        match container s with
        | [] => mret Waiting
        | d :: _ => modify (set_container (λ l, tail l)) ≫= λ _, mret (Extracting d)
        end
  | Extracting d => extraction d child_id
  | Extracted d was_active => continue_or_finish fuel d was_active
  | Stopped => mret Stopped
  end.
Definition interrupt : L unit := modify (set_interrupted true).

(** ** The layer with its thread

    What can happen to it: the calls of the runtime system, tokens from plugins at
    any time, the steps of the thread.  What the thread does not catch ends the
    program. *)
Inductive call : Type :=
| Submit (id : id_type) (act : A)
| Finished (id : id_type) (result : A)
| Failed (id : id_type) (reason : string)
| Canceled (id : id_type)
| Cancel (id : id_type)
| Discover (discover_id id : id_type)
| Discovered (discover_id : id_type) (result : discovery_info_t)
| Put (id : id_type) (put_token_id place_name : string) (value : value_type)
| Request (id : id_type) (response_id place_name : string) (value : value_type)
| Plugin_put (id : id_type) (place_name : string) (value : value_type)
| Interrupt
| Advance (child_id : id_type).
Definition handle (fuel : nat) (c : call) : L unit :=
  match c with
  | Submit id act => submit fuel id act
  | Finished id result => finished id result
  | Failed id reason => failed id reason
  | Canceled id => canceled id
  | Cancel id => cancel id
  | Discover discover_id id => discover discover_id id
  | Discovered discover_id result => discovered discover_id result
  | Put id put_token_id place_name value => put_token id put_token_id place_name value
  | Request id response_id place_name value => request_workflow_response id response_id place_name value
  | Plugin_put id place_name value => apply_removal id (Put_from_plugin place_name value) Rethrow
  | Interrupt => interrupt
  | Advance _ => mret tt
  end.
Definition perform (fuel : nat) (c : call) : M (type * thread) exn unit :=
  λ '(s, t),
    match c with
    | Advance child_id =>
        match advance fuel child_id t s with
        | (Ret t', s') => (Ret tt, (s', t'))
        | (Throw e, s') => (Throw e, (s', t))
        end
    | _ => let '(o, s') := handle fuel c s in (o, (s', t))
    end.
End layer.
Arguments activity_data_type : clear implicits.
Arguments removal : clear implicits.
Arguments rts : clear implicits.
Arguments type : clear implicits.
Arguments thread : clear implicits.
Arguments call : clear implicits.
End layer.
