(* ===== verification/NetActivity.v ===== *)
(** * Nets as activities of the workflow layer

    The rest of [we/type/activity.cpp]: [wrap] and [unwrap], which make a net out
    of an activity that is none and back, [extract] and [inject].  With them a
    Petri net is what the workflow layer needs (class [layer.Activity]). *)

From S2P Require Import Prelude Value Token Function ReadShow Expr Parser Net NetFire SdpaJob SdpaWorker Layer.

Module activity_layer.

(** [fhg::util::starts_with] *)
Fixpoint starts_with (p x : string) : bool :=
  match p, x with
  | EmptyString, _ => true
  | String c p, String d x => bool_decide (c = d) && starts_with p x
  | _, _ => false
  end.

Section wrap.
Context `{Float.Libm} `{Unordered} `{AssertMode}.

Definition wrapped_activity_prefix : string := "_wrap_".
Definition wrapped_name (p : port.port_t) : string :=
  (match port.direction p with port.PORT_OUT => "_out_" | _ => "_in_" end) +:+ port.name p.

(** a place for each port, connected with it *)
Definition wrap_port (type : edge.type) (tid : transition_id_type) (p : port_id_type * port.port_t)
    (place_ids : gmap string place_id_type) : M (net_type workflow) exn (gmap string place_id_type) :=
  place_id ← net_ops.add_place (place.mk (wrapped_name p.2) (port.signature p.2) None);
  net_ops.add_connection type tid place_id p.1 (Vstruct []) ≫= λ _,
  mret (emplace (wrapped_name p.2) place_id place_ids).1.
Fixpoint wrap_ports (type : edge.type) (tid : transition_id_type) (ports : list (port_id_type * port.port_t))
    (place_ids : gmap string place_id_type) : M (net_type workflow) exn (gmap string place_id_type) :=
  match ports with
  | [] => mret place_ids
  | p :: ports => place_ids ← wrap_port type tid p place_ids; wrap_ports type tid ports place_ids
  end.
Definition wrapped_net (a : activity_t) : M (net_type workflow) exn unit :=
  let t := activity.transition a in
  tid ← net_ops.add_transition t;
  fhg_assert (bool_decide (size (transition.ports_tunnel t) = 0)) "transition().ports_tunnel().size() == 0" ≫= λ _,
  place_ids ← wrap_ports edge.PT tid (unordered_list (transition.ports_input t)) ∅;
  place_ids ← wrap_ports edge.TP tid (unordered_list (transition.ports_output t)) place_ids;
  for_each (λ top : token_on_port,
    port ← lift (or_throw out_of_range (transition.ports_input t !! top.2));
    place_id ← lift (or_throw (undefined "dereference of end") (place_ids !! wrapped_name port));
    net_ops.put_value place_id top.1) (activity.input a).
Definition wrap (a : activity_t) : outcome exn activity_t :=
  match activity.get_net a with
  | Some _ => Ret a
  | None =>
      let '(r, net) := wrapped_net a net.empty in
      r ≫= λ _,
      t ← transition.make (wrapped_activity_prefix +:+ transition.name (activity.transition a))
        (transition.net (subnet net)) None (Vstruct []) 0 None [];
      Ret (activity.make t (activity.transition_id a))
  end.

(** the tokens on the places of the output ports become the output *)
Fixpoint unwrap_ports (n : net_type workflow) (tid : transition_id_type)
    (ports : list (port_id_type * port.port_t)) : M activity_t exn unit :=
  match ports with
  | [] => mret tt
  | p :: ports =>
      m ← lift (or_throw out_of_range (net.port_to_place n !! tid));
      place ← lift (or_throw out_of_range (m !! p.1));
      for_each (λ token : token_id_type * value_type, activity_ops.add_output p.1 token.2)
        (unordered_list (net_ops.get_token n place.1)) ≫= λ _,
      unwrap_ports n tid ports
  end.
Definition unwrap (a : activity_t) : outcome exn activity_t :=
  if negb (starts_with wrapped_activity_prefix (transition.name (activity.transition a))) then Ret a
  else
    n ← or_throw (undefined "dereference of none") (activity.get_net a);
    inner ← or_throw (undefined "dereference of end") (head (unordered_list (net.tmap n)));
    let '(r, activity_inner) :=
      unwrap_ports n inner.1 (unordered_list (transition.ports_output inner.2))
        (activity.make inner.2 (activity.transition_id a)) in
    r ≫= λ _, Ret activity_inner.
End wrap.

(** ** [extract] and [inject]

    The code of plugins is not in the repository.  It acts on the layer by putting
    tokens into the workflow that uses the plugin, and keeps what it likes in [R],
    where the random engine is, too. *)
Class PluginCode (P R : Type) := {
  code : ∀ {S : Type}, (string → value_type → M S exn unit) → plugin.library P (R * S);
  random : nat → R → nat * R;
  print_exception : string → exn → string;
  code_callbacks : ∀ {S} (I : S → Prop) put_token, (∀ p v, preserves I (put_token p v)) →
    (∀ path c, preserves (λ w, I w.2) (plugin.plugin_create (@code S put_token) path c)) ∧
    (∀ p w, I w.2 → I (plugin.plugin_destroy (@code S put_token) p w).2) ∧
    (∀ p c, preserves (λ w, I w.2) (plugin.plugin_before_eval (@code S put_token) p c)) ∧
    (∀ p c, preserves (λ w, I w.2) (plugin.plugin_after_eval (@code S put_token) p c))
}.

Section layer.
Context `{Float.Libm} `{Unordered} `{AssertMode} {P R : Type} `{PluginCode P R}.

Definition environment {S : Type} (workflow_response : value_type → value_type → M S exn unit)
    (eureka_response : gset string → M S exn unit) (put_token : string → value_type → M S exn unit) :
    fire.environment P (R * S) := {|
  fire.library := code put_token;
  fire.random_index := λ n w, let '(i, r) := random n w.1 in (i, (r, w.2));
  fire.workflow_response := λ d v w, let '(o, s) := workflow_response d v w.2 in (o, (w.1, s));
  fire.eureka_response := λ ids w, let '(o, s) := eureka_response ids w.2 in (o, (w.1, s))
|}.
(** the loop is bounded by [fuel] *)
Definition extract (fuel : nat) {S : Type} (workflow_response : value_type → value_type → M S exn unit)
    (eureka_response : gset string → M S exn unit) (put_token : string → value_type → M S exn unit) :
    M (activity_t * (plugin.Plugins P * R) * S) exn (option activity_t) :=
  λ '(a, (ps, r), s),
    match activity.get_net a with
    | None => (Throw bad_get, (a, (ps, r), s))
    | Some n =>
        match fire.fire_expressions_and_extract_activity_random
                (environment workflow_response eureka_response put_token) fuel (n, (ps, (r, s))) with
        | None => (Throw out_of_fuel, (a, (ps, r), s))
        | Some (o, (n, (ps, (r, s)))) =>
            (o, (activity.set_transition (transition.set_net (subnet n) (activity.transition a)) a, (ps, r), s))
        end
    end.

(** injecting uses no plugins and no random engine *)
Definition callbacks {S : Type} (workflow_response : value_type → value_type → M S exn unit)
    (eureka_response : gset string → M S exn unit) : fire.environment unit S := {|
  fire.library := {|
    plugin.plugin_create := λ _ _, mret tt; plugin.plugin_destroy := λ _ w, w;
    plugin.plugin_before_eval := λ _ _, mret tt; plugin.plugin_after_eval := λ _ _, mret tt |};
  fire.random_index := λ _ w, (0, w);
  fire.workflow_response := workflow_response;
  fire.eureka_response := eureka_response
|}.
Definition inject {S : Type} (workflow_response : value_type → value_type → M S exn unit)
    (eureka_response : gset string → M S exn unit) (result : activity_t) : M (activity_t * S) exn unit :=
  λ '(a, s),
    match activity.get_net a with
    | None => (Throw bad_get, (a, s))
    | Some n =>
        match (tid ← or_throw (undefined "dereference of none") (activity.transition_id result);
               out ← activity_ops.output result;
               Ret (tid, out)) with
        | Throw e => (Throw e, (a, s))
        | Ret (tid, out) =>
            let '(o, (n, (_, s))) :=
              fire.inject (callbacks workflow_response eureka_response) tid out (activity.input result)
                (n, (plugin.none, s)) in
            (o, (activity.set_transition (transition.set_net (subnet n) (activity.transition a)) a, s))
        end
    end.
End layer.

(** ** The callbacks are all that touches the layer *)
Section confined.
Context `{Float.Libm} `{Unordered} {P W : Type} (env : fire.environment P W) (I : W → Prop).
Context (create_I : ∀ path c, preserves I (plugin.plugin_create (fire.library env) path c)).
Context (destroy_I : ∀ p w, I w → I (plugin.plugin_destroy (fire.library env) p w)).
Context (before_I : ∀ p c, preserves I (plugin.plugin_before_eval (fire.library env) p c)).
Context (after_I : ∀ p c, preserves I (plugin.plugin_after_eval (fire.library env) p c)).
Context (random_I : ∀ n w, I w → I (fire.random_index env n w).2).
Context (response_I : ∀ d v, preserves I (fire.workflow_response env d v)).
Context (eureka_I : ∀ ids, preserves I (fire.eureka_response env ids)).

Abbreviation state := (net_type workflow * (plugin.Plugins P * W))%type.
Definition held_by (s : state) : Prop := I s.2.2.

Lemma confined_on_net {X} (m : M (net_type workflow) exn X) : preserves held_by (fire.on_net m).
Proof. intros [n s] Hs. unfold fire.on_net. by destruct (m n). Qed.
Lemma confined_on_world {X} (m : M W exn X) : preserves I m → preserves held_by (fire.on_world m).
Proof. intros Hm [n [ps w]] Hs. unfold fire.on_world. specialize (Hm w Hs). by destruct (m w). Qed.
Lemma confined_on_plugins {X} (m : M (plugin.Plugins P * W) exn X) :
  preserves (λ x, I x.2) m → preserves held_by (fire.on_plugins m).
Proof. intros Hm [n s] Hs. unfold fire.on_plugins. specialize (Hm s Hs). by destruct (m s). Qed.
Lemma confined_nest {X} what (m : M state exn X) : preserves held_by m → preserves held_by (fire.nest_exceptions what m).
Proof. intros Hm s Hs. specialize (Hm s Hs). unfold fire.nest_exceptions. by destruct (m s) as [[]]. Qed.
Lemma confined_plugin_world {X} (m : M W exn X) : preserves I m → preserves (λ x, I x.2) (plugin.on_world (P := P) m).
Proof. intros Hm [ps w] Hw. unfold plugin.on_world. specialize (Hm w Hw). by destruct (m w). Qed.
Lemma confined_at id : preserves (λ x, I x.2) (plugin.at_ (P := P) (W := W) id).
Proof. by intros s Hs. Qed.
Lemma confined_create path c : preserves (λ x, I x.2) (plugin.create (fire.library env) path c).
Proof.
  intros [ps w] Hw. unfold plugin.create. specialize (create_I path c w Hw).
  by destruct (plugin.plugin_create _ path c w) as [[]].
Qed.
Lemma confined_destroy id : preserves (λ x, I x.2) (plugin.destroy (fire.library env) id).
Proof.
  apply preserves_bind; [apply confined_at|]. intros p. apply preserves_modify. intros [ps w] Hw. by apply destroy_I.
Qed.
Lemma confined_before id c : preserves (λ x, I x.2) (plugin.before_eval (fire.library env) id c).
Proof. apply preserves_bind; [apply confined_at|]. intros p. by apply confined_plugin_world. Qed.
Lemma confined_after id c : preserves (λ x, I x.2) (plugin.after_eval (fire.library env) id c).
Proof. apply preserves_bind; [apply confined_at|]. intros p. by apply confined_plugin_world. Qed.

Hint Resolve confined_on_net confined_on_world confined_on_plugins confined_nest confined_create confined_destroy
  confined_before confined_after : gspc.

Lemma confined_call_plugins key call commands c :
  (∀ id c, preserves (λ x, I x.2) (call id c)) → preserves held_by (fire.call_plugins key call commands c).
Proof.
  intros Hc. unfold fire.call_plugins. destruct (Path.peek _ _); [|auto with gspc].
  apply preserves_bind; [auto with gspc|]. intros s. apply preserves_bind; [auto with gspc|]. intros e.
  destruct (eval.eval_all e c) as [r c']. apply preserves_bind; [auto with gspc|]. intros pids.
  apply preserves_bind; [|auto with gspc]. apply preserves_for_each. intros pid _. auto 10 with gspc.
Qed.
Lemma confined_evaluate t c : preserves held_by (fire.evaluate env t c).
Proof.
  unfold fire.evaluate, fire.create_plugin, fire.destroy_plugin. apply preserves_bind.
  { case_match; [|auto with gspc]. apply preserves_bind; [by apply confined_call_plugins; auto with gspc|]. intros c'.
    apply preserves_bind; [|auto with gspc]. case_match; auto 10 with gspc. }
  intros c1. apply preserves_bind; [auto with gspc|]. intros e. destruct (eval.eval_all e c1) as [r c2].
  apply preserves_bind; [auto with gspc|]. intros _. case_match; [|auto with gspc].
  apply preserves_bind; [case_match; auto 10 with gspc|]. intros c3. by apply confined_call_plugins; auto with gspc.
Qed.
Lemma confined_put_many pid tokens : preserves held_by (fire.put_many (P := P) (W := W) pid tokens).
Proof. induction tokens; simpl; auto 10 with gspc. Qed.
Lemma confined_send_eureka ids : preserves held_by (fire.send_eureka env ids).
Proof. unfold fire.send_eureka. case_decide; auto with gspc. Qed.
Hint Resolve confined_evaluate confined_put_many confined_send_eureka : gspc.
Lemma confined_emit tid c p : preserves held_by (fire.emit env tid c p).
Proof. unfold fire.emit. apply preserves_bind; [auto with gspc|]. intros s. cbv zeta. repeat case_match; auto 12 with gspc. Qed.
Lemma confined_emit_all tid c ports : preserves held_by (fire.emit_all env tid c ports).
Proof. induction ports; simpl; auto 10 using confined_emit with gspc. Qed.
Lemma confined_fire_expression tid t : preserves held_by (fire.fire_expression env tid t).
Proof.
  unfold fire.fire_expression. apply preserves_bind; [auto with gspc|]. intros s.
  destruct (fire.do_extract _ _ _ _) as [r c]. auto 10 using confined_emit_all with gspc.
Qed.
Lemma confined_fire_step tids : preserves held_by (fire.fire_step env tids).
Proof.
  unfold fire.fire_step. apply preserves_bind.
  { apply confined_on_world. intros w Hw. specialize (random_I (size tids) w Hw). by destruct (fire.random_index _ _ w). }
  intros i. apply preserves_bind; [auto with gspc|]. intros tid. apply preserves_bind; [auto with gspc|]. intros s.
  apply preserves_bind; [auto with gspc|]. intros t. case_match; auto using confined_fire_expression with gspc.
Qed.
Lemma confined_fire_loop fuel s r :
  held_by s → fire.fire_expressions_and_extract_activity_random env fuel s = Some r → held_by r.2.
Proof.
  revert s. induction fuel as [|fuel IH]; intros s Hs; cbn; [done|].
  destruct (fire.highest _) as [[prio tids]|]; [|by intros [= <-]].
  pose proof (confined_fire_step tids s Hs) as Hs'.
  destruct (fire.fire_step env tids s) as [[[act|]|e] s']; [by intros [= <-]| |by intros [= <-]]. by apply IH.
Qed.
Lemma confined_inject tid output input : preserves held_by (fire.inject env tid output input).
Proof.
  unfold fire.inject. apply preserves_for_each. intros [v port] _. unfold fire.inject_token, fire.put_values.
  apply preserves_bind; [auto with gspc|]. intros s. cbv zeta. repeat case_match; auto 12 with gspc.
Qed.
End confined.

(** ** The instance *)
Section instance.
Context `{Float.Libm} `{Unordered} `{AssertMode} {P R : Type} `{PluginCode P R} (fuel : nat).

Lemma confined_activity_inject {S} (I : S → Prop) wr er a :
  (∀ d v, preserves I (wr d v)) → (∀ ids, preserves I (er ids)) → preserves (λ x, I x.2) (inject wr er a).
Proof.
  intros Hw He [b s] Hs. unfold inject. destruct (activity.get_net b) as [n|]; [|done].
  case_match; [|done]. case_match. subst.
  match goal with |- context [fire.inject ?env ?tid ?out ?inp ?x] =>
    pose proof (confined_inject env I Hw He tid out inp x Hs) as Hi; by destruct (fire.inject env tid out inp x) as [o [n' [ps s']]] end.
Qed.
Lemma confined_activity_extract {S} (I : S → Prop) wr er pt :
  (∀ d v, preserves I (wr d v)) → (∀ ids, preserves I (er ids)) → (∀ p v, preserves I (pt p v)) →
  preserves (λ x, I x.2) (extract (P := P) (R := R) fuel wr er pt).
Proof.
  intros Hw He Hp [[b [ps r]] s] Hs. unfold extract. destruct (activity.get_net b) as [n|]; [|done].
  destruct (fire.fire_expressions_and_extract_activity_random _ fuel _) as [[o [n' [ps' [r' s']]]]|] eqn:Hl; [|done].
  destruct (code_callbacks I pt Hp) as (Hc & Hd & Hb & Ha).
  eapply (confined_fire_loop _ (λ w, I w.2)) in Hl; [exact Hl|..]; try done.
  - intros k w Hw'. simpl. by destruct (random k w.1).
  - intros d v w Hw'. simpl. specialize (Hw d v w.2 Hw'). by destruct (wr d v w.2).
  - intros ids w Hw'. simpl. specialize (He ids w.2 Hw'). by destruct (er ids w.2).
Qed.
#[export] Instance net_activity : layer.Activity activity_t (plugin.Plugins P * R) := {|
  layer.wrap := wrap;
  layer.unwrap := unwrap;
  layer.wait_for_output := activity_ops.wait_for_output;
  layer.eureka_id := λ a, transition.eureka_id (activity.transition a);
  layer.put_token_on := activity_ops.put_token;
  layer.inject := λ S, inject;
  layer.extract := λ S, extract fuel;
  layer.describe := print_exception;
  layer.show_value := show.show;
  layer.inject_callbacks := λ S, confined_activity_inject;
  layer.extract_callbacks := λ S, confined_activity_extract
|}.
End instance.
End activity_layer.
