(* ===== verification/LayerSpec.v ===== *)
(** * Workflows are answered once

    Every submitted workflow is in exactly one place: in one of the queues, with
    the extracting thread, waiting for its children to be canceled, or answered. *)

From S2P Require Import Prelude Value Token Function SdpaJob SdpaWorker Layer.

Import layer.

Module Answers.
Section answers.
Context {A G : Type} `{Activity A G} `{AssertMode} `{Unordered}.
Implicit Types (s : type A G) (t : thread A).

(** ** Where workflows are *)
Definition ids (l : list (activity_data_type A)) : list id_type := d_id <$> l.
Definition queued s : list id_type := ids (container s) ++ ids (container_inactive s).
Definition held t : list id_type :=
  match t with Extracting d | Extracted d _ => [d_id d] | _ => [] end.
Definition finalizing s : list id_type := (map_to_list (finalize_job_cancellation s)).*1.
Definition answer (e : rts A) : option id_type :=
  match e with rts_finished id _ | rts_failed id _ | rts_canceled id => Some id | _ => None end.
Definition answered s : list id_type := omap answer (sent s).
Definition out s : list id_type := finalizing s ++ answered s.

(** what is deferred takes its workflow away exactly if it cancels it *)
Definition entry_ok (id : id_type) (x : removal A * on_error * bool) : Prop :=
  match x.1.1 with
  | To_cancel i => x.2 = false ∧ i = id
  | To_fail _ _ => x.2 = false
  | _ => x.2 = true
  end.
Definition deferred_ok s : Prop :=
  ∀ id l, to_be_removed s !! id = Some l → Forall (entry_ok id) l.

(** ** Steps that leave every workflow where it is *)
Definition ready s : Prop := NoDup (queued s) ∧ deferred_ok s.
Definition same s s' : Prop :=
  queued s' ≡ₚ queued s ∧ finalize_job_cancellation s' = finalize_job_cancellation s ∧
  answered s' = answered s ∧ deferred_ok s'.
Definition quiet s s' : Prop := ready s → same s s'.
Definition quietly {X} (f : M (type A G) exn X) : Prop := ∀ s0, preserves (quiet s0) f.

Lemma quiet_refl s : quiet s s.
Proof. by intros [_ ?]. Qed.
Lemma quiet_ready s s' : quiet s s' → ready s → ready s'.
Proof. intros Hq Hs. destruct (Hq Hs) as (Hp & _ & _ & Hd). split; [|done]. rewrite Hp. apply Hs. Qed.
Lemma quiet_trans s1 s2 s3 : quiet s1 s2 → quiet s2 s3 → quiet s1 s3.
Proof.
  intros Q1 Q2 Hs. destruct (Q1 Hs) as (P1 & F1 & A1 & D1).
  destruct (Q2 (quiet_ready _ _ Q1 Hs)) as (P2 & F2 & A2 & D2). split; [by rewrite P2|]. split; [congruence|].
  split; [congruence|done].
Qed.
Lemma quietly_run {X} (f : M (type A G) exn X) s : quietly f → quiet s (f s).2.
Proof. intros Hf. apply (Hf s), quiet_refl. Qed.
Lemma quietly_intro {X} (f : M (type A G) exn X) : (∀ s, quiet s (f s).2) → quietly f.
Proof. intros Hf s0 s Hs. by eapply quiet_trans. Qed.
Lemma quietly_ret {X} (x : X) : quietly (mret x).
Proof. intros s0. apply preserves_ret. Qed.
Lemma quietly_throw {X} e : quietly (throw e : M (type A G) exn X).
Proof. intros s0. apply preserves_throw. Qed.
Lemma quietly_lift {X} (o : outcome exn X) : quietly (lift o).
Proof. intros s0. apply preserves_lift. Qed.
Lemma quietly_get : quietly get.
Proof. intros s0. apply preserves_get. Qed.
Lemma quietly_bind {X Y} (f : M (type A G) exn X) (k : X → M (type A G) exn Y) :
  quietly f → (∀ x, quietly (k x)) → quietly (f ≫= k).
Proof. intros Hf Hk s0. apply preserves_bind; [apply Hf|]. intros x. apply Hk. Qed.
Lemma quietly_for_each {X} (f : X → M (type A G) exn unit) l : (∀ x, quietly (f x)) → quietly (for_each f l).
Proof. intros Hf s0. apply preserves_for_each. intros x _. apply Hf. Qed.
Lemma quietly_modify (f : type A G → type A G) : (∀ s, quiet s (f s)) → quietly (modify f).
Proof. intros Hf. by apply quietly_intro. Qed.
Lemma quietly_ignoring f : quietly f → quietly (ignoring f).
Proof. intros Hf. apply quietly_intro. intros s. apply (quietly_run f s Hf). Qed.
Lemma quietly_emit e : answer e = None → quietly (emit e).
Proof.
  intros He. apply quietly_modify. intros s [_ Hd]. split; [done|]. split; [done|]. split; [|done].
  unfold answered. simpl. rewrite omap_app. simpl. rewrite He. apply app_nil_r.
Qed.

Create HintDb quiet.
Hint Resolve quietly_ret quietly_throw quietly_lift quietly_get quietly_bind quietly_for_each quietly_ignoring : quiet.
Hint Extern 3 (quietly (emit _)) => apply quietly_emit; reflexivity : quiet.
Hint Extern 4 (quietly (modify _)) => apply quietly_modify; intros ? [? ?]; split; [done|]; split; [done|]; split; done : quiet.
Ltac quiet_auto := repeat first [progress intros | case_match | case_decide | solve [eauto with quiet] | apply quietly_bind | apply quietly_for_each | apply quietly_ignoring].

Lemma quietly_started parent child e : quietly (started parent child e).
Proof. unfold started. quiet_auto. Qed.
Lemma quietly_terminated parent child : quietly (terminated parent child).
Proof. unfold terminated. quiet_auto. Qed.
Lemma quietly_apply_to_children parent f : (∀ c, quietly (f c)) → quietly (apply_to_children parent f).
Proof. intros Hf. unfold apply_to_children. quiet_auto. Qed.
Lemma quietly_workflow_response id r x : quietly (workflow_response id r x).
Proof. unfold workflow_response. quiet_auto. Qed.
Lemma quietly_cancel_outstanding id reason : quietly (cancel_outstanding_responses id reason).
Proof. unfold cancel_outstanding_responses. quiet_auto. Qed.
Lemma quietly_run_on_error h e : quietly (run_on_error h e).
Proof. destruct h; simpl; [apply quietly_throw|by apply quietly_emit|apply quietly_workflow_response]. Qed.
Lemma quietly_forget id : quietly (forget id).
Proof.
  unfold forget. apply quietly_bind; [apply quietly_get|]. intros s. case_match; [|apply quietly_ret].
  apply quietly_bind; [apply quietly_for_each; intros; apply quietly_ignoring, quietly_run_on_error|].
  intros _. apply quietly_modify. intros s' [_ Hd]. split; [done|]. split; [done|]. split; [done|].
  intros i l' Hl. simpl in Hl. apply lookup_delete_Some in Hl as [_ Hl]. by apply (Hd i).
Qed.

(** ** Applying a function to a workflow *)
Definition quietly_on {X} (f : M (A * type A G) exn X) : Prop := ∀ a s, quiet s (f (a, s)).2.2.

Lemma quietly_on_layer {X} (f : M (type A G) exn X) : quietly f → quietly_on (on_layer f).
Proof.
  intros Hf a s. unfold on_layer. simpl. pose proof (quietly_run f s Hf) as Hq. by destruct (f s).
Qed.
Lemma quietly_on_activity {X} (f : M A exn X) : quietly_on (on_activity f).
Proof. intros a s. unfold on_activity. simpl. destruct (f a). apply quiet_refl. Qed.
Lemma quietly_on_bind {X Y} (f : M (A * type A G) exn X) (k : X → M (A * type A G) exn Y) :
  quietly_on f → (∀ x, quietly_on (k x)) → quietly_on (f ≫= k).
Proof.
  intros Hf Hk a s. specialize (Hf a s). unfold mbind, M_bind.
  destruct (f (a, s)) as [[x|e] [a' s']]; [|done]. eapply quiet_trans; [exact Hf|]. apply Hk.
Qed.
Lemma quietly_on_ret {X} (x : X) : quietly_on (mret x).
Proof. intros a s. apply quiet_refl. Qed.
Lemma guarded_quiet f h a s : quietly_on f → quiet s (guarded f h a s).2.2.
Proof.
  intros Hf. specialize (Hf a s). unfold guarded. destruct (f (a, s)) as [[x|e] [a' s']]; [done|].
  simpl in Hf. pose proof (quietly_run (run_on_error h e) s' (quietly_run_on_error h e)) as Hh.
  destruct (run_on_error h e s'). by eapply quiet_trans.
Qed.

(** queues as lists of ids *)
Lemma find_Some id (l : list (activity_data_type A)) d : find id l = Some d → d_id d = id ∧ d ∈ l.
Proof.
  unfold find. destruct (list_find _ l) as [[i x]|] eqn:Hl; [|done]. intros [= <-].
  apply list_find_Some in Hl as (Hl & Hx & _). split; [done|]. by eapply list_elem_of_lookup_2.
Qed.
Lemma find_None id (l : list (activity_data_type A)) : find id l = None ↔ id ∉ ids l.
Proof.
  unfold find, ids. rewrite fmap_None, list_find_None, list_elem_of_fmap, Forall_forall.
  split; [intros Hl (d & -> & Hd); by apply (Hl d)|]. intros Hl d Hd <-. apply Hl. eauto.
Qed.
Lemma ids_write_back id a (l : list (activity_data_type A)) : ids (write_back id a l) = ids l.
Proof.
  unfold ids, write_back. rewrite <- list_fmap_compose. apply list_fmap_ext. intros i d _. simpl.
  case_decide; simpl; congruence.
Qed.
Lemma filter_all {X} (P : X → Prop) `{∀ x, Decision (P x)} (l : list X) : (∀ x, x ∈ l → P x) → filter P l = l.
Proof.
  induction l as [|x l IH]; intros HP; [done|]. rewrite filter_cons_True by (apply HP; left).
  f_equal. apply IH. intros y Hy. apply HP. by right.
Qed.
Lemma ids_erase id (l : list (activity_data_type A)) :
  NoDup (ids l) → id ∈ ids l → ids l ≡ₚ id :: ids (erase id l).
Proof.
  unfold ids, erase. induction l as [|d l IH]; csimpl; [by intros _ ?%elem_of_nil|].
  intros [Hd Hnd]%NoDup_cons Hid. apply elem_of_cons in Hid as [->|Hid].
  - rewrite filter_cons_False by (by intros ?). f_equiv. clear IH.
    assert (∀ x, x ∈ l → d_id x ≠ d_id d) as Hne.
    { intros x Hx Heq. apply Hd. rewrite <- Heq. by apply list_elem_of_fmap_2. }
    by rewrite filter_all.
  - rewrite filter_cons_True; [|intros Heq; apply Hd; by rewrite Heq]. csimpl.
    rewrite (IH Hnd Hid) at 1. apply perm_swap.
Qed.

Lemma deferred_ok_defer id r h k s :
  entry_ok id (r, h, k) → quiet s (defer id r h k s).2.
Proof.
  intros Hr [_ Hd]. split; [done|]. split; [done|]. split; [done|]. intros i l. simpl.
  rewrite lookup_insert_Some. intros [[<- <-]|[_ Hl]]; [|by apply (Hd i)].
  apply Forall_app. split; [|by constructor].
  destruct (to_be_removed s !! id) as [l'|] eqn:Hl; simpl; [by apply (Hd id)|constructor].
Qed.

(** [apply], when it returns *)
Lemma apply_quiet id f r h s :
  quietly_on f → entry_ok id (r, h, true) →
  (apply id f r h s).1 = Ret tt → quiet s (apply id f r h s).2.
Proof.
  intros Hf Hr. unfold apply. rewrite bind_get.
  destruct (find id (container s)) as [d|] eqn:Hc; [|destruct (find id (container_inactive s)) as [d|] eqn:Hi].
  - pose proof (guarded_quiet f h (d_activity d) s Hf) as Hq. destruct (guarded f h _ s) as [o [a s']]. simpl in Hq.
    unfold mbind, M_bind, lift. simpl. intros _. eapply quiet_trans; [exact Hq|].
    intros [_ Hd]. split; [|done]. unfold queued. simpl. by rewrite ids_write_back.
  - apply find_Some in Hi as Hd. destruct Hd as [Hid Hin]. 
    set (s1 := set_container_inactive (erase id) s).
    pose proof (guarded_quiet f h (d_activity d) s1 Hf) as Hq. destruct (guarded f h _ s1) as [o [a s']]. simpl in Hq.
    unfold mbind, M_bind, lift. simpl. destruct o as [u|e]; [|done]. intros _ [Hnd Hok]. simpl.
    apply NoDup_app in Hnd as Hnd'. destruct Hnd' as (Hnc & Hdis & Hni).
    assert (id ∈ ids (container_inactive s)) as Hidi by (unfold ids; rewrite <- Hid; by apply list_elem_of_fmap_2).
    pose proof (ids_erase id (container_inactive s) Hni Hidi) as Her.
    destruct Hq as (Hp & Hfi & Ha & Hd).
    { split; [|done]. unfold queued in *. simpl. rewrite Her, <- Permutation_middle in Hnd.
      by apply NoDup_cons in Hnd as [_ ?]. }
    split; [|done]. unfold queued in *. simpl in *.
    unfold ids in *. rewrite fmap_app. simpl. rewrite <- app_assoc. simpl.
    rewrite <- Permutation_middle, Hp, Her. by rewrite <- Permutation_middle.
  - intros _. by apply deferred_ok_defer.
Qed.
(** [apply] to a workflow that is not in a queue *)
Lemma apply_defers id f r h s :
  id ∉ queued s → entry_ok id (r, h, true) → quiet s (apply id f r h s).2.
Proof.
  intros Hid Hr. unfold apply. rewrite bind_get. unfold queued in Hid. apply not_elem_of_app in Hid as [H3 H4].
  rewrite (proj2 (find_None id (container s)) H3), (proj2 (find_None id (container_inactive s)) H4).
  by apply deferred_ok_defer.
Qed.

(** ** Eurekas and responses *)
Lemma returns_bind (f : M (type A G) exn unit) (k : unit → M (type A G) exn unit) s :
  (f s).1 = Ret tt → (∀ s, (k tt s).1 = Ret tt) → ((f ≫= k) s).1 = Ret tt.
Proof. intros Hf Hk. unfold mbind, M_bind. destruct (f s) as [[[]|] s']; [apply Hk|done]. Qed.
Lemma returns_for_each {X} (f : X → M (type A G) exn unit) l s :
  (∀ x s, (f x s).1 = Ret tt) → (for_each f l s).1 = Ret tt.
Proof.
  intros Hf. revert s. induction l as [|x l IH]; intros s; simpl; [done|].
  unfold mbind, M_bind. specialize (Hf x s). destruct (f x s) as [o s']. simpl in Hf. by rewrite Hf.
Qed.
Lemma apply_and_remove_returns e parent caller f s :
  (∀ c s, (f c s).1 = Ret tt) → (apply_and_remove_eureka e parent caller f s).1 = Ret tt.
Proof.
  intros Hf. unfold apply_and_remove_eureka. rewrite bind_get. apply returns_bind; [|done].
  apply returns_for_each. intros c s1. by case_decide.
Qed.
Lemma cancel_eureka_returns parent id caller es s : (cancel_eureka parent id caller es s).1 = Ret tt.
Proof.
  unfold cancel_eureka. rewrite bind_get. case_match; [|done]. apply returns_for_each. intros e s'.
  by apply apply_and_remove_returns.
Qed.
Lemma quietly_cancel_eureka parent id caller es : quietly (cancel_eureka parent id caller es).
Proof. unfold cancel_eureka, apply_and_remove_eureka. quiet_auto. Qed.

Lemma guarded_returns f h a s : (f (a, s)).1 = Ret tt → (guarded f h a s).1 = Ret tt.
Proof. unfold guarded. destruct (f (a, s)) as [[]]; simpl; [done|]. by intros [=]. Qed.
Lemma apply_returns id f r h s : (∀ a s, (f (a, s)).1 = Ret tt) → (apply id f r h s).1 = Ret tt.
Proof.
  intros Hf. unfold apply. rewrite bind_get.
  destruct (find id (container s)) as [d|]; [|destruct (find id (container_inactive s)) as [d|]; [|done]].
  - pose proof (guarded_returns f h (d_activity d) s (Hf _ _)) as Hg. destruct (guarded f h _ s) as [o []].
    simpl in Hg. by subst.
  - set (s1 := set_container_inactive _ s).
    pose proof (guarded_returns f h (d_activity d) s1 (Hf _ _)) as Hg. destruct (guarded f h _ s1) as [o []].
    simpl in Hg. by subst.
Qed.
Lemma on_layer_returns (f : M (type A G) exn unit) a s : (f s).1 = Ret tt → (on_layer f (a, s)).1 = Ret tt.
Proof. unfold on_layer. simpl. by destruct (f s). Qed.
Lemma quietly_eureka_response parent caller es : quietly (eureka_response parent caller es).
Proof.
  apply quietly_intro. intros s. apply apply_quiet.
  - apply quietly_on_layer, quietly_cancel_eureka.
  - done.
  - apply apply_returns. intros a s'. apply on_layer_returns, cancel_eureka_returns.
Qed.
Lemma quietly_respond id d v : quietly (respond id d v).
Proof. unfold respond. apply quietly_bind; [apply quietly_lift|]. intros r. apply quietly_workflow_response. Qed.

(** ** What keeps its workflow *)
Definition keeps (r : removal A) : bool := match r with To_cancel _ | To_fail _ _ => false | _ => true end.
Lemma quietly_on_removal r id : keeps r = true → quietly_on (run_removal r id).
Proof.
  destruct r; intros Hk; try done; simpl.
  - apply quietly_on_bind; [apply quietly_on_activity|]. intros _. by apply quietly_on_layer, quietly_emit.
  - apply quietly_on_activity.
  - apply quietly_on_activity.
  - apply quietly_on_bind.
    + intros a s. apply (inject_callbacks (quiet s)); [| |apply quiet_refl].
      * intros d v. apply quietly_respond.
      * intros es. apply quietly_eureka_response.
    + intros _. apply quietly_on_bind; [apply quietly_on_layer, quietly_terminated|]. intros _. apply quietly_on_ret.
  - apply quietly_on_layer. apply quietly_bind; [apply quietly_terminated|]. intros _. apply quietly_ret.
  - apply quietly_on_layer. apply quietly_bind; [apply quietly_get|]. intros s.
    apply quietly_bind; [unfold fhg_assert; case_match; eauto with quiet|]. intros _.
    apply quietly_bind; [apply quietly_apply_to_children; intros; by apply quietly_emit|]. intros _.
    case_match; [by apply quietly_emit|]. eauto with quiet.
  - apply quietly_on_layer, quietly_cancel_eureka.
Qed.
Lemma apply_removal_quiet id r h s :
  keeps r = true → (apply_removal id r h s).1 = Ret tt → quiet s (apply_removal id r h s).2.
Proof. intros Hk. apply apply_quiet; [by apply quietly_on_removal|]. by destruct r. Qed.
Lemma apply_removal_defers id r h s :
  keeps r = true → id ∉ queued s → quiet s (apply_removal id r h s).2.
Proof. intros Hk Hid. apply apply_defers; [done|]. by destruct r. Qed.

(** ** Answers *)
Lemma forget_returns id s : (forget id s).1 = Ret tt.
Proof. unfold forget. rewrite bind_get. case_match; [|done]. apply returns_bind; [|done]. by apply returns_for_each. Qed.
Lemma cancel_outstanding_returns id reason s : (cancel_outstanding_responses id reason s).1 = Ret tt.
Proof.
  unfold cancel_outstanding_responses. rewrite bind_get. case_match; [|done].
  apply returns_bind; [|done]. by apply returns_for_each.
Qed.
Definition replied (id : id_type) s s' : Prop :=
  queued s' ≡ₚ queued s ∧ finalize_job_cancellation s' = finalize_job_cancellation s ∧
  answered s' = answered s ++ [id] ∧ deferred_ok s'.
Lemma answer_and_forget id reason e s :
  answer e = Some id → ready s →
  ∃ s', (forget id ≫= λ _, cancel_outstanding_responses id reason ≫= λ _, emit e) s = (Ret tt, s') ∧ replied id s s'.
Proof.
  intros He Hs. pose proof (forget_returns id s) as R1. pose proof (quietly_run _ s (quietly_forget id)) as Q1.
  unfold mbind, M_bind. destruct (forget id s) as [o1 s1]. simpl in *. subst o1.
  pose proof (cancel_outstanding_returns id reason s1) as R2.
  pose proof (quietly_run _ s1 (quietly_cancel_outstanding id reason)) as Q2.
  destruct (cancel_outstanding_responses id reason s1) as [o2 s2]. simpl in *. subst o2.
  eexists. split; [done|]. destruct (quiet_trans _ _ _ Q1 Q2 Hs) as (Hp & Hf & Ha & Hd).
  split; [done|]. split; [done|]. split; [|done]. unfold answered in *. simpl. rewrite omap_app. simpl. by rewrite He, Ha.
Qed.
Lemma rts_failed_and_forget_spec id reason s :
  ready s → ∃ s', rts_failed_and_forget id reason s = (Ret tt, s') ∧ replied id s s'.
Proof. by apply answer_and_forget. Qed.
Lemma rts_canceled_and_forget_spec id s :
  ready s → ∃ s', rts_canceled_and_forget id s = (Ret tt, s') ∧ replied id s s'.
Proof. by apply answer_and_forget. Qed.
Lemma rts_finished_and_forget_spec id a s :
  ready s → ∃ s', rts_finished_and_forget id a s = (Ret tt, s') ∧ replied id s s'.
Proof. by apply answer_and_forget. Qed.

(** ** What takes its workflow away

    The workflow waits for its children or has been answered. *)
Definition gone (id : id_type) s s' : Prop := queued s' ≡ₚ queued s ∧ out s' ≡ₚ id :: out s ∧ deferred_ok s'.

Lemma replied_gone id s s' : replied id s s' → gone id s s'.
Proof.
  intros (Hp & Hf & Ha & Hd). split; [done|]. split; [|done]. unfold out, finalizing. rewrite Hf, Ha, app_assoc.
  rewrite (Permutation_app_comm _ [id]). done.
Qed.
Lemma same_gone id s1 s2 s3 : same s1 s2 → gone id s2 s3 → gone id s1 s3.
Proof.
  intros (P1 & F1 & A1 & _) (P2 & O2 & D2). split; [by rewrite P2|]. split; [|done]. rewrite O2.
  unfold out, finalizing. by rewrite F1, A1.
Qed.
Lemma cancel_children_spec id f s :
  ready s → finalize_job_cancellation s !! id = None →
  ∃ s', cancel_children id f s = (Ret tt, s') ∧ gone id s s'.
Proof.
  intros Hs Hf. unfold cancel_children. rewrite bind_modify. set (s1 := set_finalize _ s).
  assert (quietly (apply_to_children id (λ child, emit (rts_cancel child)))) as Hq.
  { apply quietly_apply_to_children. intros c. by apply quietly_emit. }
  assert ((apply_to_children id (λ child, emit (rts_cancel child)) s1).1 = Ret tt) as Hr.
  { unfold apply_to_children. rewrite bind_get. by apply returns_for_each. }
  apply (quietly_run _ s1) in Hq. destruct (apply_to_children _ _ s1) as [o s2]. simpl in *. subst o.
  exists s2. split; [done|]. destruct (Hq Hs) as (Hp & Hfi & Ha & Hd).
  split; [done|]. split; [|done]. unfold out, finalizing. rewrite Hfi, Ha. unfold s1. simpl.
  unfold emplace. rewrite Hf. simpl. by rewrite (map_to_list_insert _ _ _ Hf).
Qed.
Lemma on_layer_run {X} (f : M (type A G) exn X) a s o s' : f s = (o, s') → on_layer f (a, s) = (o, (a, s')).
Proof. unfold on_layer. simpl. by intros ->. Qed.
Lemma run_final_removal r id a s :
  keeps r = false → (∀ i, r = To_cancel i → i = id) → ready s → finalize_job_cancellation s !! id = None →
  ∃ s', run_removal r id (a, s) = (Ret tt, (a, s')) ∧ gone id s s'.
Proof.
  intros Hk Hi Hs Hf. destruct r as [| | | |i|child reason| | |]; try done.
  - destruct (contains id s) eqn:Hc.
    + destruct (cancel_children_spec id Finally_canceled s Hs Hf) as (s' & Hr & Hg).
      exists s'. split; [|done]. apply on_layer_run. rewrite bind_get, Hc. done.
    + destruct (rts_canceled_and_forget_spec id s Hs) as (s' & Hr & Hg).
      exists s'. split; [|by apply replied_gone]. apply on_layer_run. rewrite bind_get, Hc, (Hi i eq_refl). done.
  - pose proof (quietly_run _ s (quietly_terminated id child)) as Hq.
    assert (∃ b s1, terminated id child s = (Ret b, s1)) as (b & s1 & Hr) by (do 2 eexists; done).
    rewrite Hr in Hq. simpl in Hq. assert (ready s1) as Hs1 by (by apply (quiet_ready s)). specialize (Hq Hs).
    assert (finalize_job_cancellation s1 !! id = None) as Hf1 by (destruct Hq as (_ & -> & _); done).
    assert (∃ s', (if b then rts_failed_and_forget id reason else cancel_children id (Finally_failed reason)) s1
              = (Ret tt, s') ∧ gone id s1 s') as (s' & Hr' & Hg).
    { destruct b; [|by apply cancel_children_spec].
      destruct (rts_failed_and_forget_spec id reason s1 Hs1) as (s' & ? & ?). eauto using replied_gone. }
    exists s'. split; [|by eapply same_gone]. apply on_layer_run. unfold mbind, M_bind. by rewrite Hr.
Qed.

(** ** Workflows of the layer

    [X] enters the layer: it is queued, waits for its children, or is answered. *)
Definition places s : list id_type := queued s ++ out s.
Definition gains (X : list id_type) s s' : Prop := places s' ≡ₚ X ++ places s ∧ deferred_ok s'.
Definition loses s s' : Prop := places s' ⊆+ places s ∧ deferred_ok s'.
Definition sound s : Prop := NoDup (places s) ∧ deferred_ok s.

Lemma sound_ready s : sound s → ready s.
Proof. intros [Hn Hd]. split; [|done]. by apply NoDup_app in Hn as (? & _ & _). Qed.
Lemma same_gains s s' : same s s' → gains [] s s'.
Proof. intros (Hp & Hf & Ha & Hd). split; [|done]. unfold places, out, finalizing. by rewrite Hp, Hf, Ha. Qed.
Lemma gone_gains id s s' : gone id s s' → gains [id] s s'.
Proof. intros (Hp & Ho & Hd). split; [|done]. unfold places. rewrite Hp, Ho. by rewrite <- Permutation_middle. Qed.
Lemma gains_trans X Y s1 s2 s3 : gains X s1 s2 → gains Y s2 s3 → gains (Y ++ X) s1 s3.
Proof. intros [P1 _] [P2 D2]. split; [|done]. by rewrite P2, P1, app_assoc. Qed.
Lemma gains_loses s s' : gains [] s s' → loses s s'.
Proof. intros [Hp Hd]. split; [|done]. by rewrite Hp. Qed.
Lemma gains_sound X s s' : NoDup (X ++ places s) → gains X s s' → sound s'.
Proof. intros Hn [Hp Hd]. split; [|done]. by rewrite Hp. Qed.
Lemma finalize_fresh id s : id ∉ out s → finalize_job_cancellation s !! id = None.
Proof.
  intros Hid. destruct (finalize_job_cancellation s !! id) as [f|] eqn:Hf; [|done]. exfalso. apply Hid.
  apply elem_of_app. left. unfold finalizing. apply list_elem_of_fmap. exists (id, f). split; [done|].
  by apply elem_of_map_to_list.
Qed.
Lemma queued_not_out id s : sound s → id ∈ queued s → id ∉ out s.
Proof. intros [Hn _] Hq. apply NoDup_app in Hn as (_ & Hn & _). by apply Hn. Qed.
Lemma quiet_gains s s' : sound s → quiet s s' → gains [] s s'.
Proof. intros Hs Hq. by apply same_gains, Hq, sound_ready. Qed.

(** ** [apply] and [remove_and_apply] *)
Lemma erase_inactive_sound id d s :
  sound s → find id (container_inactive s) = Some d →
  queued s ≡ₚ id :: queued (set_container_inactive (erase id) s).
Proof.
  intros [Hn _] Hd. apply find_Some in Hd as [Hid Hin]. unfold queued. simpl.
  apply NoDup_app in Hn as (Hn & _ & _). apply NoDup_app in Hn as (_ & _ & Hn).
  rewrite Permutation_middle. f_equiv. apply ids_erase; [done|]. unfold ids. rewrite <- Hid.
  by apply list_elem_of_fmap_2.
Qed.
Lemma erase_container_sound id d s :
  sound s → find id (container s) = Some d → queued s ≡ₚ id :: queued (set_container (erase id) s).
Proof.
  intros [Hn _] Hd. apply find_Some in Hd as [Hid Hin]. unfold queued. simpl.
  apply NoDup_app in Hn as (Hn & _ & _). apply NoDup_app in Hn as (Hn & _ & _).
  rewrite app_comm_cons. f_equiv. apply ids_erase; [done|]. unfold ids. rewrite <- Hid.
  by apply list_elem_of_fmap_2.
Qed.
Lemma apply_loses id f r h s :
  quietly_on f → entry_ok id (r, h, true) → sound s → loses s (apply id f r h s).2.
Proof.
  intros Hf Hr Hs. destruct (apply id f r h s).1 as [[]|e] eqn:Ho.
  { by apply gains_loses, quiet_gains, apply_quiet. }
  revert Ho. unfold apply. rewrite bind_get.
  destruct (find id (container s)) as [d|] eqn:Hc; [|destruct (find id (container_inactive s)) as [d|] eqn:Hi; [|done]].
  - pose proof (guarded_quiet f h (d_activity d) s Hf) as Hq. destruct (guarded f h _ s) as [o [a s']]. simpl in Hq.
    intros _. apply gains_loses. pose proof (quiet_gains _ _ Hs Hq) as Hg.
    unfold mbind, M_bind, lift, put. simpl. destruct Hg as [Hp Hd]. split; [|done]. rewrite <- Hp.
    unfold places, queued. simpl. by rewrite ids_write_back.
  - pose proof (erase_inactive_sound id d s Hs Hi) as He. set (s1 := set_container_inactive (erase id) s) in *.
    pose proof (guarded_quiet f h (d_activity d) s1 Hf) as Hq. destruct (guarded f h _ s1) as [o [a s']]. simpl in Hq.
    unfold mbind, M_bind, lift, put. simpl. destruct o as [u|e']; [done|]. intros _. simpl.
    destruct Hq as (Hp & Hfi & Ha & Hd).
    { split; [|apply Hs]. apply sound_ready in Hs as [Hn _]. rewrite He in Hn. by apply NoDup_cons in Hn as [_ ?]. }
    split; [|done]. unfold places, out, finalizing. rewrite Hp, Hfi, Ha, He. by apply submseteq_cons.
Qed.
Lemma entry_ok_final r h id : keeps r = false → (∀ i, r = To_cancel i → i = id) → entry_ok id (r, h, false).
Proof. destruct r; try done. intros _ Hi. split; [done|]. by apply Hi. Qed.
Lemma gone_queue id s s' s2 :
  gone id s s' → queued s' ≡ₚ id :: queued s2 → out s2 = out s' → deferred_ok s2 → gains [] s s2.
Proof.
  intros (Hp & Ho & _) Hq Hs2 Hd. split; [|done]. unfold places. rewrite Hs2, Ho, <- Permutation_middle.
  rewrite app_comm_cons, <- Hq. by rewrite Hp.
Qed.

(** taking a workflow away does not change the queues *)
Definition still (c ci : list (activity_data_type A)) s : Prop := container s = c ∧ container_inactive s = ci.
Ltac still_auto := repeat first
  [ progress intros | case_match | case_decide | apply preserves_bind | apply preserves_for_each
  | apply preserves_modify | progress eauto with gspc
  | solve [match goal with Hs : still _ _ _ |- _ => destruct Hs; split; assumption end] ].

Lemma still_workflow_response c ci id r x : preserves (still c ci) (workflow_response id r x).
Proof. unfold workflow_response, emit. still_auto. Qed.
Lemma still_ignoring c ci f : preserves (still c ci) f → preserves (still c ci) (ignoring f).
Proof. intros Hf s Hs. by apply Hf. Qed.
Lemma still_forget c ci id : preserves (still c ci) (forget id).
Proof.
  unfold forget. apply preserves_bind; [apply preserves_get|]. intros s. case_match; [|apply preserves_ret].
  apply preserves_bind; [|intros; by apply preserves_modify]. apply preserves_for_each. intros x _.
  apply still_ignoring. destruct x as [[? []] ?]; simpl;
    [apply preserves_throw|unfold emit; by apply preserves_modify|apply still_workflow_response].
Qed.
Lemma still_answer c ci id reason e :
  preserves (still c ci) (forget id ≫= λ _, cancel_outstanding_responses id reason ≫= λ _, emit e).
Proof.
  apply preserves_bind; [apply still_forget|]. intros _. unfold cancel_outstanding_responses, emit. still_auto.
Qed.
Lemma still_cancel_children c ci id f : preserves (still c ci) (cancel_children id f).
Proof. unfold cancel_children, apply_to_children, emit. still_auto. Qed.
Lemma still_on_layer {X} c ci (f : M (type A G) exn X) a s :
  preserves (still c ci) f → still c ci s → still c ci (on_layer f (a, s)).2.2.
Proof. intros Hf Hs. unfold on_layer. simpl. specialize (Hf s Hs). by destruct (f s). Qed.
Lemma still_final_removal r id a s :
  keeps r = false → still (container s) (container_inactive s) (run_removal r id (a, s)).2.2.
Proof.
  destruct r as [| | | |i|child reason| | |]; try done; intros _; apply still_on_layer; try done.
  - apply preserves_bind; [apply preserves_get|]. intros s'. case_match; [apply still_cancel_children|apply still_answer].
  - apply preserves_bind; [unfold terminated; still_auto|]. intros b.
    destruct b; [apply still_answer|apply still_cancel_children].
Qed.
Lemma guarded_final_still r h id a s :
  keeps r = false → (∀ i, r = To_cancel i → i = id) → ready s → finalize_job_cancellation s !! id = None →
  ∃ s', guarded (run_removal r id) h a s = (Ret tt, (a, s')) ∧ gone id s s' ∧ still (container s) (container_inactive s) s'.
Proof.
  intros Hk Hi Hs Hf. destruct (run_final_removal r id a s Hk Hi Hs Hf) as (s' & Hr & Hg).
  pose proof (still_final_removal r id a s Hk) as Hst. rewrite Hr in Hst.
  exists s'. split; [|done]. unfold guarded. by rewrite Hr.
Qed.
Lemma erase_write_back id a (l : list (activity_data_type A)) : erase id (write_back id a l) = erase id l.
Proof.
  unfold erase, write_back. induction l as [|d l IH]; [done|]. csimpl. rewrite !filter_cons, IH.
  destruct (decide (d_id d = id)) as [He|He]; simpl; repeat case_decide; congruence.
Qed.

(** [remove_and_apply] returns and keeps the workflows *)
Lemma remove_and_apply_gains id r h s :
  keeps r = false → (∀ i, r = To_cancel i → i = id) → sound s →
  ∃ s', remove_and_apply id (run_removal r id) r h s = (Ret tt, s') ∧ gains [] s s'.
Proof.
  intros Hk Hi Hs. unfold remove_and_apply. rewrite bind_get.
  assert (∀ d, find id (container s) = Some d ∨ find id (container_inactive s) = Some d →
    ∃ s', guarded (run_removal r id) h (d_activity d) s = (Ret tt, (d_activity d, s')) ∧ gone id s s' ∧
      still (container s) (container_inactive s) s') as Hg.
  { intros d Hd. apply guarded_final_still; [done..|by apply sound_ready|].
    apply finalize_fresh, queued_not_out; [done|]. apply elem_of_app.
    destruct Hd as [Hd|Hd]; apply find_Some in Hd as [<- Hd]; [left|right]; by apply list_elem_of_fmap_2. }
  destruct (find id (container s)) as [d|] eqn:Hc; [|destruct (find id (container_inactive s)) as [d|] eqn:Hci].
  - destruct (Hg d) as (s' & -> & Hgo & Hst1 & Hst2); [by left|]. eexists. split; [done|].
    eapply gone_queue; [exact Hgo| |done|apply Hgo]. pose proof (erase_container_sound id d s Hs Hc) as He.
    destruct Hgo as (Hp & _). rewrite Hp, He. unfold queued. simpl. by rewrite erase_write_back, Hst1, Hst2.
  - destruct (Hg d) as (s' & -> & Hgo & Hst1 & Hst2); [by right|]. eexists. split; [done|].
    eapply gone_queue; [exact Hgo| |done|apply Hgo]. pose proof (erase_inactive_sound id d s Hs Hci) as He.
    destruct Hgo as (Hp & _). rewrite Hp, He. unfold queued. simpl. by rewrite erase_write_back, Hst1, Hst2.
  - eexists. split; [done|]. apply quiet_gains; [done|]. by apply deferred_ok_defer, entry_ok_final.
Qed.

(** ** [put] *)
Lemma entry_keeps id r h k : entry_ok id (r, h, k) → k = keeps r.
Proof. unfold entry_ok. destruct r; simpl; (intros [? ?] || intros ?); assumption. Qed.
Lemma entry_cancels id r h k i : entry_ok id (r, h, k) → r = To_cancel i → i = id.
Proof. intros Hok ->. by destruct Hok. Qed.
Lemma gains_refl s : deferred_ok s → gains [] s s.
Proof. by split. Qed.
Lemma gains_nil_trans X s1 s2 s3 : gains [] s1 s2 → gains X s2 s3 → gains X s1 s3.
Proof. intros G1 G2. rewrite <- (app_nil_r X). by eapply gains_trans. Qed.
Lemma gains_nil_fresh id s s' : sound s → id ∉ places s → gains [] s s' → sound s' ∧ id ∉ places s'.
Proof.
  intros [Hn Hd] Hid Hg. split; [by eapply gains_sound; [|exact Hg]|]. destruct Hg as [Hp _]. by rewrite Hp.
Qed.
Definition drained (id : id_type) s (o : outcome exn (A * bool * bool)) s' : Prop :=
  match o with Ret (_, _, false) => gains [id] s s' | _ => gains [] s s' end.
Lemma drained_trans id s1 s2 o s3 : gains [] s1 s2 → drained id s2 o s3 → drained id s1 o s3.
Proof. unfold drained. intros Hg. destruct o as [[[? ?] []]|]; by apply gains_nil_trans. Qed.
Lemma pop_deferred id x rest s :
  deferred_ok s → to_be_removed s !! id = Some (x :: rest) →
  entry_ok id x ∧ gains [] s (set_to_be_removed (<[id := rest]>) s).
Proof.
  intros Hd Hl. specialize (Hd id _ Hl) as Hall. apply Forall_cons in Hall as [Hx Hr]. split; [done|]. split; [done|].
  intros i l. simpl. rewrite lookup_insert_Some. intros [[<- <-]|[_ Hi]]; [done|by apply (Hd i)].
Qed.
Lemma drain_spec fuel id a active s :
  sound s → id ∉ places s → drained id s (drain fuel id a active s).1 (drain fuel id a active s).2.
Proof.
  revert a active s. induction fuel as [|fuel IH]; intros a active s Hs Hid.
  { simpl. rewrite bind_get. destruct (to_be_removed s !! id) as [[|[[r h] k] rest]|]; apply gains_refl, Hs. }
  simpl. rewrite bind_get.
  destruct (to_be_removed s !! id) as [[|[[r h] k] rest]|] eqn:Hl; try (apply gains_refl, Hs).
  destruct (pop_deferred id _ rest s (proj2 Hs) Hl) as [Hok Hg1]. set (s1 := set_to_be_removed _ s) in *.
  destruct (gains_nil_fresh id s s1 Hs Hid Hg1) as [Hs1 Hid1].
  pose proof (entry_keeps _ _ _ _ Hok) as ->. destruct (keeps r) eqn:Hk.
  - pose proof (guarded_quiet (run_removal r id) h a s1 (quietly_on_removal r id Hk)) as Hq.
    destruct (guarded _ h a s1) as [o [a' s2]]. simpl in Hq. apply quiet_gains in Hq; [|done].
    unfold mbind, M_bind, lift, put. destruct o as [[]|e]; [|exact (gains_nil_trans _ _ _ _ Hg1 Hq)].
    eapply drained_trans; [eapply gains_nil_trans; [exact Hg1|exact Hq]|].
    destruct (gains_nil_fresh id s1 s2 Hs1 Hid1 Hq) as [Hs2 Hid2]. case_decide; [apply gains_refl, Hs2|by apply IH].
  - destruct (guarded_final_still r h id a s1) as (s2 & Hr & Hgo & _);
      [done|intros i; by apply (entry_cancels id r h false)|by apply sound_ready
      |apply finalize_fresh; intros Ho; apply Hid1, elem_of_app; by right|].
    rewrite Hr. unfold mbind, M_bind, lift, put. simpl. eapply gains_nil_trans; [exact Hg1|]. by apply gone_gains.
Qed.
Lemma erase_if_empty_gains id s : deferred_ok s → gains [] s (set_to_be_removed (erase_if_empty id) s).
Proof.
  intros Hd. split; [done|]. intros i l. unfold erase_if_empty. simpl.
  destruct (to_be_removed s !! id) as [[|]|]; try (by apply Hd). rewrite lookup_delete_Some. intros [_ ?]. by apply (Hd i).
Qed.
Lemma put_data_spec fuel d active s :
  sound s → d_id d ∉ places s →
  match put_data fuel d active s with
  | (Ret _, s') => gains [d_id d] s s'
  | (Throw _, s') => gains [] s s'
  end.
Proof.
  intros Hs Hid. pose proof (drain_spec fuel (d_id d) (d_activity d) active s Hs Hid) as Hd.
  unfold put_data, mbind, M_bind. destruct (drain _ _ _ _ s) as [[[[a act] b]|e] s1]; simpl in Hd; [|done].
  assert (deferred_ok s1) as Hd1 by (destruct b; apply Hd).
  pose proof (erase_if_empty_gains (d_id d) s1 Hd1) as He. unfold modify. simpl.
  set (s2 := set_to_be_removed _ s1) in *. destruct b.
  - pose proof (gains_nil_trans _ _ _ _ Hd He) as Hg. destruct act; simpl.
    + eapply gains_nil_trans; [exact Hg|]. split; [|apply He]. unfold places, queued, ids. simpl. rewrite fmap_app. simpl.
      rewrite <- !app_assoc. simpl. by rewrite <- Permutation_middle.
    + eapply gains_nil_trans; [exact Hg|]. split; [|apply He]. unfold places, queued, ids. simpl. rewrite fmap_app. simpl.
      rewrite <- !app_assoc. simpl. by rewrite !(app_assoc _ _ (_ :: _)), <- Permutation_middle, app_assoc.
  - exact (gains_trans _ _ _ _ _ Hd He).
Qed.

(** ** Calls *)
Definition enters {Y} (X : list id_type) s (r : outcome exn Y * type A G) : Prop :=
  match r.1 with
  | Ret _ => gains X s r.2
  | Throw _ => places r.2 ⊆+ X ++ places s ∧ deferred_ok r.2
  end.
Lemma gains_enters {Y} s s' (o : outcome exn Y) : gains [] s s' → enters [] s (o, s').
Proof. intros Hg. unfold enters. destruct o; simpl; [done|]. by apply gains_loses. Qed.
Lemma quietly_enters {Y} (f : M (type A G) exn Y) s : sound s → quietly f → enters [] s (f s).
Proof.
  intros Hs Hf. pose proof (quietly_run f s Hf) as Hq. destruct (f s) as [o s']. by apply gains_enters, quiet_gains.
Qed.
Lemma submseteq_NoDup {X} (l k : list X) : l ⊆+ k → NoDup k → NoDup l.
Proof. intros (m & Hm)%submseteq_Permutation. rewrite Hm. by intros (? & _ & _)%NoDup_app. Qed.
Lemma enters_sound {Y} s (r : outcome exn Y * type A G) : sound s → enters [] s r → sound r.2.
Proof.
  unfold enters. intros Hs He. destruct r as [[y|e] s']; simpl in *; [by eapply gains_sound; [|exact He]; apply Hs|].
  destruct He as [Hp Hd]. split; [|done]. by eapply submseteq_NoDup; [exact Hp|apply Hs].
Qed.
Lemma enters_bind {Y Z} (f : M (type A G) exn Y) (k : Y → M (type A G) exn Z) s :
  sound s → enters [] s (f s) → (∀ y s', sound s' → enters [] s' (k y s')) → enters [] s ((f ≫= k) s).
Proof.
  intros Hs Hf Hk. pose proof (enters_sound s (f s) Hs Hf) as Hs'. unfold mbind, M_bind.
  destruct (f s) as [[y|e] s']; [|done]. specialize (Hk y s' Hs'). unfold enters in *. simpl in Hf.
  destruct (k y s') as [[z|e] s2]; simpl in *; [by eapply gains_nil_trans|].
  destruct Hk as [Hp Hd], Hf as [Hp' _]. split; [|done]. by rewrite Hp, Hp'.
Qed.
Lemma apply_removal_enters id r h s : keeps r = true → sound s → enters [] s (apply_removal id r h s).
Proof.
  intros Hk Hs. pose proof (apply_removal_quiet id r h s Hk) as Hq.
  pose proof (apply_loses id (run_removal r id) r h s (quietly_on_removal r id Hk)) as Hl.
  unfold apply_removal in *. unfold enters. destruct (apply _ _ _ _ s) as [[[]|e] s']; simpl in *.
  - apply quiet_gains; [done|]. by apply Hq.
  - apply Hl; [by destruct r|done].
Qed.
Lemma finalize_enters parent s : sound s → enters [] s (finalize parent s).
Proof.
  intros Hs. unfold finalize. rewrite bind_get.
  destruct (finalize_job_cancellation s !! parent) as [f|] eqn:Hf;
    [|by apply gains_enters, gains_refl, Hs].
  assert (∃ s', (match f with
                 | Finally_canceled => rts_canceled_and_forget parent
                 | Finally_failed reason => rts_failed_and_forget parent reason
                 end) s = (Ret tt, s') ∧ replied parent s s') as (s' & Hr & Hp & Hfi & Ha & Hd).
  { destruct f; [apply rts_canceled_and_forget_spec|apply rts_failed_and_forget_spec]; by apply sound_ready. }
  unfold mbind, M_bind. rewrite Hr. apply gains_enters. split; [|done].
  unfold places, out, finalizing, answered in *. simpl. rewrite Hfi. unfold queued in *. simpl. rewrite Hp, Ha.
  f_equiv. rewrite app_assoc, (Permutation_app_comm _ [parent]). simpl.
  rewrite <- (map_to_list_delete _ _ _ Hf). done.
Qed.
Lemma canceled_enters child s : sound s → enters [] s (canceled child s).
Proof.
  intros Hs. unfold canceled. rewrite bind_get. destruct (parent_of child s) as [parent|];
    [|by apply gains_enters, gains_refl, Hs].
  case_decide.
  - apply enters_bind; [done| |intros; by apply apply_removal_enters].
    apply quietly_enters; [done|]. eauto with quiet.
  - apply enters_bind; [done|apply quietly_enters; [done|apply quietly_terminated]|].
    intros [] s' Hs'; [by apply finalize_enters|by apply gains_enters, gains_refl, Hs'].
Qed.
Lemma require_parent_enters child s : sound s → enters [] s (require_parent child s).
Proof.
  intros Hs. apply quietly_enters; [done|]. unfold require_parent.
  apply quietly_bind; [apply quietly_get|]. intros s'.
  apply quietly_bind; [unfold fhg_assert; case_match; eauto with quiet|]. intros _. apply quietly_lift.
Qed.
Lemma finished_enters id result s : sound s → enters [] s (finished id result s).
Proof.
  intros Hs. unfold finished. apply enters_bind; [done|by apply require_parent_enters|].
  intros parent s' Hs'. rewrite bind_get. case_decide; [by apply canceled_enters|by apply apply_removal_enters].
Qed.
Lemma remove_and_apply_enters id r h s :
  keeps r = false → (∀ i, r = To_cancel i → i = id) → sound s →
  enters [] s (remove_and_apply id (run_removal r id) r h s).
Proof. intros Hk Hi Hs. destruct (remove_and_apply_gains id r h s Hk Hi Hs) as (s' & -> & Hg). by apply gains_enters. Qed.
Lemma failed_enters id reason s : sound s → enters [] s (failed id reason s).
Proof.
  intros Hs. unfold failed. apply enters_bind; [done|by apply require_parent_enters|].
  intros parent s' Hs'. rewrite bind_get. case_decide; [by apply canceled_enters|by apply remove_and_apply_enters].
Qed.
Lemma quietly_discovered discover_id result : quietly (discovered discover_id result).
Proof.
  unfold discovered. apply quietly_bind; [apply quietly_get|]. intros s.
  apply quietly_bind; [unfold fhg_assert; case_match; eauto with quiet|]. intros _.
  apply quietly_bind; [apply quietly_lift|]. intros x. case_match; [|eauto with quiet].
  apply quietly_bind; [by apply quietly_emit|]. intros _. eauto with quiet.
Qed.
Definition submitted (c : call A) : list id_type := match c with Submit id _ => [id] | _ => [] end.
Lemma submit_enters fuel id act s : sound s → id ∉ places s → enters [id] s (submit fuel id act s).
Proof.
  intros Hs Hid. unfold submit, mbind, M_bind, lift. destruct (wrap act) as [a|e].
  - pose proof (put_data_spec fuel (mk_data id a) true s Hs Hid) as Hp. unfold enters.
    destruct (put_data _ _ _ s) as [[]]; simpl in *; [done|]. destruct Hp as [Hp Hd]. split; [|done].
    rewrite Hp. by apply submseteq_cons.
  - split; [|apply Hs]. by apply submseteq_cons.
Qed.
Lemma handle_enters fuel c s :
  sound s → (∀ id, id ∈ submitted c → id ∉ places s) → enters (submitted c) s (handle fuel c s).
Proof.
  intros Hs Hid. destruct c; simpl.
  - apply submit_enters; [done|]. apply Hid. simpl. set_solver.
  - by apply finished_enters.
  - by apply failed_enters.
  - by apply canceled_enters.
  - apply remove_and_apply_enters; [done| |done]. by intros i [=].
  - by apply apply_removal_enters.
  - apply quietly_enters; [done|]. apply quietly_discovered.
  - by apply apply_removal_enters.
  - apply enters_bind; [done| |intros; by apply apply_removal_enters].
    apply quietly_enters; [done|]. eauto with quiet.
  - by apply apply_removal_enters.
  - apply quietly_enters; [done|]. unfold interrupt. eauto with quiet.
  - apply gains_enters, gains_refl, Hs.
Qed.

(** ** The thread *)
Lemma quiet_same s s' : ready s → quiet s s' ↔ same s s'.
Proof. intros Hs. split; [intros Hq; by apply Hq|by intros ? _]. Qed.
Lemma extract_from_same d a s :
  ready s → d_id d ∉ queued s → same s (extract_from d (a, s)).2.2.
Proof.
  intros Hs Hd. unfold extract_from. simpl.
  assert (∀ f : M (type A G) exn unit, quietly f → preserves (same s) f) as Hq.
  { intros f Hf s' Hs'. apply (proj1 (quiet_same s _ Hs)), (Hf s), (proj2 (quiet_same s _ Hs)), Hs'. }
  pose proof (extract_callbacks (same s) (respond (d_id d)) (eureka_response (d_id d) None)
    (λ place_name value, apply_removal (d_id d) (Put_from_plugin place_name value) Rethrow)) as He.
  specialize (He (λ x y, Hq _ (quietly_respond (d_id d) x y)) (λ es, Hq _ (quietly_eureka_response (d_id d) None es))).
  assert (∀ (p : string) (v : value_type),
    preserves (same s) (apply_removal (d_id d) (Put_from_plugin p v) Rethrow)) as Hpt.
  { intros p v s' Hs'. apply (proj2 (quiet_same s _ Hs)) in Hs'.
    apply (proj1 (quiet_same s _ Hs)). eapply quiet_trans; [exact Hs'|]. apply apply_removal_defers; [done|].
    destruct (Hs' Hs) as (Hp & _). by rewrite Hp. }
  specialize (He Hpt (a, engine s, s)). simpl in He. specialize (He (quietly_run (mret tt) s (quietly_ret tt) Hs)).
  destruct (extract _ _ _ _) as [o [[a' g] s']]. simpl in *. exact He.
Qed.
(** the thread has workflows of the layer *)
Definition moves t s (r : outcome exn (thread A) * type A G) : Prop :=
  ∃ t' s', (r = (Ret t', s') ∨ t' = t ∧ ∃ e, r = (Throw e, s')) ∧
    places s' ++ held t' ≡ₚ places s ++ held t ∧ deferred_ok s'.
Lemma moves_same t t' s s' : held t' = held t → same s s' → moves t s (Ret t', s').
Proof. intros Hh [Hp Hd]%same_gains. eexists _, _. split; [by left|]. split; [|done]. by rewrite Hp, Hh. Qed.
Lemma moves_answered (f : M (type A G) exn unit) id t s1 s :
  held t = [id] → same s s1 → (∃ s2, f s1 = (Ret tt, s2) ∧ replied id s1 s2) →
  moves t s ((f ≫= λ _ : unit, mret Waiting) s1).
Proof.
  intros Hh Hs (s2 & Hr & Hre). unfold mbind, M_bind. rewrite Hr. eexists _, _. split; [by left|].
  apply replied_gone, gone_gains in Hre. apply same_gains in Hs.
  destruct (gains_nil_trans _ _ _ _ Hs Hre) as [Hp Hd]. split; [|done]. rewrite Hp, Hh, app_nil_r.
  by rewrite Permutation_app_comm.
Qed.
Lemma held_fresh id s : NoDup (places s ++ [id]) → id ∉ places s.
Proof. intros (_ & Hd & _)%NoDup_app Hid. apply (Hd id Hid). set_solver. Qed.

Lemma extraction_moves d child_id s :
  sound s → d_id d ∉ places s → moves (Extracting d) s (extraction d child_id s).
Proof.
  intros Hs Hid. unfold extraction.
  pose proof (extract_from_same d (d_activity d) s (sound_ready s Hs)
    (λ Hq, Hid (proj2 (elem_of_app _ _ _) (or_introl Hq)))) as He.
  destruct (extract_from d _) as [[[activity|]|e] [a s1]]; simpl in He.
  - assert (quietly (started (d_id d) child_id (eureka_id activity) ≫= λ _,
                     emit (rts_submit child_id activity))) as Hq.
    { apply quietly_bind; [apply quietly_started|]. intros _. by apply quietly_emit. }
    apply (quietly_run _ s1) in Hq. unfold mbind, M_bind in *.
    destruct (eureka_id activity); simpl in *; (apply moves_same; [done|]);
      apply (proj1 (quiet_same s _ (sound_ready s Hs))); (eapply quiet_trans; [|exact Hq]); by intros _.
  - by apply moves_same.
  - eapply moves_answered; [done|exact He|]. apply rts_failed_and_forget_spec.
    eapply quiet_ready; [|by apply sound_ready]. by intros _.
Qed.
Lemma put_or_fail_moves fuel d was_active s :
  sound s → d_id d ∉ places s → moves (Extracted d was_active) s (put_or_fail fuel d was_active s).
Proof.
  intros Hs Hid. pose proof (put_data_spec fuel d was_active s Hs Hid) as Hp. unfold put_or_fail.
  destruct (put_data fuel d was_active s) as [[u|e] s1].
  - eexists _, _. split; [by left|]. destruct Hp as [Hp Hd]. split; [|done]. simpl.
    rewrite Hp, app_nil_r. by rewrite Permutation_app_comm.
  - pose proof (gains_sound [] s s1 (proj1 Hs) Hp) as Hs1.
    destruct (rts_failed_and_forget_spec (d_id d)
      (describe "waiting for further events to continue workflow interpretation" e) s1 (sound_ready _ Hs1))
      as (s2 & Hr & Hre). unfold mbind, M_bind. rewrite Hr. eexists _, _. split; [by left|].
    apply replied_gone, gone_gains in Hre. destruct (gains_nil_trans _ _ _ _ Hp Hre) as [Hpl Hd].
    split; [|done]. simpl. rewrite Hpl, app_nil_r. by rewrite Permutation_app_comm.
Qed.
Lemma moves_throw t s e : deferred_ok s → moves t s (Throw e, s).
Proof. intros Hd. exists t, s. split; [right; eauto|done]. Qed.
Lemma continue_moves fuel d was_active s :
  sound s → d_id d ∉ places s → moves (Extracted d was_active) s (continue_or_finish fuel d was_active s).
Proof.
  intros Hs Hid. unfold continue_or_finish. rewrite bind_get.
  assert (moves (Extracted d was_active) s
    ((a ← lift (unwrap (d_activity d)); rts_finished_and_forget (d_id d) a ≫= λ _, mret Waiting) s)) as Hf.
  { unfold mbind at 1, M_bind at 1, lift. destruct (unwrap (d_activity d)) as [a|e]; [|apply moves_throw, Hs].
    eapply moves_answered; [done|by apply quiet_refl, sound_ready|]. by apply rts_finished_and_forget_spec, sound_ready. }
  destruct (contains (d_id d) s); [by apply put_or_fail_moves|].
  unfold mbind at 1, M_bind at 1, lift at 1. destruct (wait_for_output (d_activity d)) as [[]|e];
    [by apply put_or_fail_moves|exact Hf|apply moves_throw, Hs].
Qed.
Lemma advance_moves fuel child_id t s :
  deferred_ok s → NoDup (places s ++ held t) → moves t s (advance fuel child_id t s).
Proof.
  intros Hd Hn. apply NoDup_app in Hn as Hp. destruct Hp as [Hp _]. destruct t as [|d|d b|]; simpl.
  - rewrite bind_get. destruct (interrupted s); [by apply moves_same|].
    destruct (container s) as [|d l] eqn:Hc; [by apply moves_same|]. eexists _, _. split; [by left|]. split; [|done].
    simpl. unfold places, queued, ids. simpl. rewrite Hc. simpl. rewrite app_nil_r. by rewrite Permutation_app_comm.
  - apply extraction_moves; [done|]. by apply held_fresh.
  - apply continue_moves; [done|]. by apply held_fresh.
  - by apply moves_same.
Qed.

(** ** Histories

    The flag says that every call has returned; every id is submitted once. *)
Definition returned {Y} (o : outcome exn Y) : bool := match o with Ret _ => true | Throw _ => false end.
Inductive history (fuel : nat) : bool → list id_type → type A G * thread A → Prop :=
| at_start g : history fuel true [] (make g, Waiting)
| after_call b l x c o x' :
    history fuel b l x → (∀ id, id ∈ submitted c → id ∉ l) → perform fuel c x = (o, x') →
    history fuel (b && returned o) (submitted c ++ l) x'.

Definition whereabouts (x : type A G * thread A) : list id_type :=
  queued x.1 ++ held x.2 ++ finalizing x.1 ++ answered x.1.
Lemma whereabouts_places x : whereabouts x ≡ₚ places x.1 ++ held x.2.
Proof. unfold whereabouts, places, out. rewrite <- !app_assoc. f_equiv. by rewrite Permutation_app_comm, app_assoc. Qed.

Lemma perform_places fuel c s t o x' :
  deferred_ok s → NoDup (submitted c ++ places s ++ held t) → perform fuel c (s, t) = (o, x') →
  deferred_ok x'.1 ∧ whereabouts x' ⊆+ submitted c ++ places s ++ held t ∧
  (returned o = true → whereabouts x' ≡ₚ submitted c ++ places s ++ held t).
Proof.
  intros Hd Hn Hx. rewrite whereabouts_places.
  assert (sound s ∧ (∀ id, id ∈ submitted c → id ∉ places s)) as [Hs Hfr].
  { apply NoDup_app in Hn as (_ & Hf & Hn). split; [split; [|done]; by apply NoDup_app in Hn as (? & _)|].
    intros id Hid Hp. apply (Hf id Hid), elem_of_app. by left. }
  pose proof (handle_enters fuel c s Hs Hfr) as Hen. unfold enters in Hen.
  assert ((∃ child_id, c = Advance child_id) ∨ (o, x') = ((handle fuel c s).1, ((handle fuel c s).2, t)))
    as [[child_id ->]|[= -> ->]].
  { rewrite <- Hx. destruct c; try (by left; eexists); right; unfold perform;
      match goal with |- context [handle ?f ?c s] => by destruct (handle f c s) end. }
  - destruct (advance_moves fuel child_id t s Hd Hn) as (t' & s' & Hr & Hp & Hd'). simpl in Hx.
    assert (x' = (s', t')) as -> by (destruct Hr as [Hr|[-> [e Hr]]]; rewrite Hr in Hx; by injection Hx).
    simpl. split; [done|]. split; [by rewrite Hp|done].
  - simpl. destruct (handle fuel c s) as [[u|e] s']; simpl in *.
    + destruct Hen as [Hp Hd']. split; [done|]. split; [|intros _]; by rewrite Hp, <- app_assoc.
    + destruct Hen as [Hp Hd']. split; [done|]. split; [|done]. rewrite app_assoc. by apply submseteq_app.
Qed.
Lemma history_whereabouts fuel b l x :
  history fuel b l x →
  NoDup l ∧ deferred_ok x.1 ∧ whereabouts x ⊆+ l ∧ (b = true → whereabouts x ≡ₚ l).
Proof.
  induction 1 as [g|b l x c o x' _ (Hn & Hd & Hsub & Heq) Hfresh Hx].
  { split; [constructor|]. split; [|done]. intros ? ?. simpl. by rewrite lookup_empty. }
  destruct x as [s t]. rewrite whereabouts_places in Hsub, Heq. simpl in *.
  assert (NoDup (submitted c ++ l)) as Hn2.
  { apply NoDup_app. split; [destruct c; simpl; try constructor; [set_solver|constructor]|]. by split. }
  assert (submitted c ++ places s ++ held t ⊆+ submitted c ++ l) as Hsub2 by (by apply submseteq_app).
  destruct (perform_places fuel c s t o x' Hd (submseteq_NoDup _ _ Hsub2 Hn2) Hx) as (Hd' & Hp & He).
  split; [done|]. split; [done|]. split; [by rewrite Hp|]. intros [Hb Ho]%andb_true_iff.
  rewrite (He Ho). by rewrite (Heq Hb).
Qed.

(** C15: in every run of the layer, whatever the calls and whatever the thread does in
    between, no workflow is in two places and nothing but submitted workflows is
    anywhere: a workflow gets at most one answer, and none while it is queued, with the
    thread, or waits for its children.  If no call has thrown then no workflow is lost:
    each submitted one is in exactly one place. *)
Theorem workflows_answered_once fuel b l x :
  history fuel b l x →
  NoDup (queued x.1 ++ held x.2 ++ finalizing x.1 ++ answered x.1) ∧
  (∀ id, id ∈ queued x.1 ++ held x.2 ++ finalizing x.1 ++ answered x.1 → id ∈ l) ∧
  (b = true → queued x.1 ++ held x.2 ++ finalizing x.1 ++ answered x.1 ≡ₚ l).
Proof.
  intros Hh. destruct (history_whereabouts fuel b l x Hh) as (Hn & _ & Hsub & Heq).
  split; [by eapply submseteq_NoDup|]. split; [|done]. intros id Hid. by eapply elem_of_submseteq.
Qed.
End answers.
End Answers.
