(* ===== verification/LayerChildren.v ===== *)
(** * Answers come after the children

    No workflow is reported finished or canceled while activities that were
    extracted from it are running. *)

From S2P Require Import Prelude Value Token Function SdpaJob SdpaWorker Layer LayerSpec.

Import layer Answers.

Module Children.
Section children.
Context {A G : Type} `{Activity A G} `{AssertMode} `{Unordered}.
Implicit Types (s : type A G) (t : thread A).

Definition final (e : rts A) : option id_type :=
  match e with rts_finished id _ | rts_canceled id => Some id | _ => None end.
Definition finals s : list id_type := omap final (sent s).
(** what is deferred to cancel a workflow is deferred for that workflow *)
Definition cancels_own s : Prop :=
  ∀ id l r h k i, to_be_removed s !! id = Some l → (r, h, k) ∈ l → r = To_cancel i → i = id.
(** the workflows reported finished or canceled and those of [X] have no children *)
Definition settled (X : list id_type) s : Prop :=
  (∀ id, id ∈ X ++ finals s → contains id s = false) ∧ cancels_own s.
Definition settles {Y} (f : M (type A G) exn Y) : Prop := ∀ X, preserves (settled X) f.

Lemma contains_spec id s : contains id s = true ↔ ∃ child, relation s !! child = Some id.
Proof.
  unfold contains. rewrite negb_true_iff, bool_decide_eq_false. split.
  - intros (child & p & Hc)%map_choose. apply map_lookup_filter_Some in Hc as [Hc Hp]. simpl in Hp. subst. eauto.
  - intros (child & Hc) He. eapply (map_filter_empty_not_lookup _ _ child id) in He; [done|done].
Qed.
Lemma contains_anti id s s' : relation s' ⊆ relation s → contains id s = false → contains id s' = false.
Proof.
  intros Hr Hc. apply not_true_iff_false. intros (child & Hs')%contains_spec. apply not_true_iff_false in Hc.
  apply Hc, contains_spec. exists child. by eapply lookup_weaken.
Qed.
Lemma settled_shrink X s s' :
  relation s' ⊆ relation s → finals s' = finals s → cancels_own s' → settled X s → settled X s'.
Proof. intros Hr Hf Hc [Hs _]. split; [|done]. rewrite Hf. intros id Hid. eapply contains_anti; [done|]. by apply Hs. Qed.
Lemma settled_mono X s : settled X s → settled [] s.
Proof. intros [Hs Hc]. split; [|done]. intros id Hid. apply Hs, elem_of_app. by right. Qed.

(** ** Operations *)
Lemma settles_ret {Y} (y : Y) : settles (mret y).
Proof. intros X. apply preserves_ret. Qed.
Lemma settles_throw {Y} e : settles (throw e : M (type A G) exn Y).
Proof. intros X. apply preserves_throw. Qed.
Lemma settles_lift {Y} (o : outcome exn Y) : settles (lift o).
Proof. intros X. apply preserves_lift. Qed.
Lemma settles_get : settles get.
Proof. intros X. apply preserves_get. Qed.
Lemma settles_bind {Y Z} (f : M (type A G) exn Y) (k : Y → M (type A G) exn Z) :
  settles f → (∀ y, settles (k y)) → settles (f ≫= k).
Proof. intros Hf Hk X. apply preserves_bind; [apply Hf|]. intros y. apply Hk. Qed.
Lemma settles_for_each {Y} (f : Y → M (type A G) exn unit) l : (∀ y, settles (f y)) → settles (for_each f l).
Proof. intros Hf X. apply preserves_for_each. intros y _. apply Hf. Qed.
Lemma settles_ignoring f : settles f → settles (ignoring f).
Proof. intros Hf X s Hs. by apply Hf. Qed.
(** whatever leaves the relation, the answers and what is deferred *)
Lemma settles_modify (f : type A G → type A G) :
  (∀ s, relation (f s) ⊆ relation s) → (∀ s, finals (f s) = finals s) → (∀ s, to_be_removed (f s) = to_be_removed s) →
  settles (modify f).
Proof.
  intros Hr Hf Ht X s Hs. simpl. apply (settled_shrink X s); [done..| |done].
  destruct Hs as [_ Hc]. unfold cancels_own. rewrite Ht. exact Hc.
Qed.
Lemma settles_emit e : final e = None → settles (emit e).
Proof.
  intros He. apply settles_modify; [done| |done]. intros s. unfold finals. simpl. rewrite omap_app. simpl.
  rewrite He. apply app_nil_r.
Qed.
Create HintDb settles.
Hint Resolve settles_ret settles_throw settles_lift settles_get settles_bind settles_for_each settles_ignoring : settles.
Hint Extern 3 (settles (emit _)) => apply settles_emit; reflexivity : settles.
Hint Extern 4 (settles (modify _)) => apply settles_modify; done : settles.
Ltac settles_auto := repeat first [progress intros | case_match | case_decide | solve [eauto with settles] | apply settles_bind | apply settles_for_each | apply settles_ignoring].

Lemma settles_fhg_assert c m : settles (fhg_assert c m).
Proof. unfold fhg_assert. case_match; eauto with settles. Qed.
Lemma settles_terminated parent child : settles (terminated parent child).
Proof.
  unfold terminated. apply settles_bind; [eauto with settles|]. intros _.
  apply settles_bind; [|settles_auto]. apply settles_modify; [|done..]. intros s. simpl.
  case_decide; [apply delete_subseteq|done].
Qed.
Lemma settles_apply_to_children parent f : (∀ c, settles (f c)) → settles (apply_to_children parent f).
Proof. intros Hf. unfold apply_to_children. settles_auto. Qed.
Lemma settles_workflow_response id r x : settles (workflow_response id r x).
Proof. unfold workflow_response. settles_auto. Qed.
Lemma settles_run_on_error h e : settles (run_on_error h e).
Proof. destruct h; simpl; [apply settles_throw|by apply settles_emit|apply settles_workflow_response]. Qed.
Lemma settles_respond id d v : settles (respond id d v).
Proof. apply settles_bind; [apply settles_lift|]. intros r. apply settles_workflow_response. Qed.
Lemma settles_forget id : settles (forget id).
Proof.
  unfold forget. apply settles_bind; [apply settles_get|]. intros s0. case_match; [|apply settles_ret].
  apply settles_bind; [apply settles_for_each; intros; apply settles_ignoring, settles_run_on_error|]. intros _ X s Hs.
  simpl. apply (settled_shrink X s); [done..| |done]. destruct Hs as [_ Hc]. intros i l' r h k j Hl. simpl in Hl.
  apply lookup_delete_Some in Hl as [_ Hl]. by eapply Hc.
Qed.
Lemma settles_cancel_outstanding id reason : settles (cancel_outstanding_responses id reason).
Proof. unfold cancel_outstanding_responses. settles_auto. Qed.
Lemma settles_cancel_children id f : settles (cancel_children id f).
Proof.
  apply settles_bind; [eauto with settles|]. intros _. apply settles_apply_to_children. intros c. by apply settles_emit.
Qed.
Lemma settles_cancel_eureka parent id caller es : settles (cancel_eureka parent id caller es).
Proof. unfold cancel_eureka, apply_and_remove_eureka. settles_auto. Qed.

(** the final answers *)
Lemma emit_final X id e s : final e = Some id → settled (id :: X) s → settled X (emit e s).2.
Proof.
  intros He [Hs Hc]. split; [|exact Hc]. intros i Hi. apply (Hs i). unfold finals in *. simpl in *.
  rewrite omap_app in Hi. simpl in Hi. rewrite He in Hi. set_solver.
Qed.
Lemma answer_settled X id reason e s :
  (final e = None ∨ final e = Some id ∧ contains id s = false) → settled X s →
  settled X ((forget id ≫= λ _, cancel_outstanding_responses id reason ≫= λ _, emit e) s).2.
Proof.
  intros He Hs. destruct He as [He|[He Hc]].
  - revert s Hs. apply settles_bind; [apply settles_forget|]. intros _.
    apply settles_bind; [apply settles_cancel_outstanding|]. intros _. by apply settles_emit.
  - assert (settled (id :: X) s) as Hs'.
    { destruct Hs as [Hs Hco]. split; [|done]. simpl. intros i [->|Hi]%elem_of_cons; [done|by apply Hs]. }
    apply (settles_forget id) in Hs'. unfold mbind, M_bind. pose proof (forget_returns id s) as R1.
    destruct (forget id s) as [o1 s1]. simpl in *. subst o1.
    apply (settles_cancel_outstanding id reason) in Hs'. pose proof (cancel_outstanding_returns id reason s1) as R2.
    destruct (cancel_outstanding_responses id reason s1) as [o2 s2]. simpl in *. subst o2. by eapply emit_final.
Qed.

(** ** What is applied to a workflow *)
Definition settles_on {Y} (f : M (A * type A G) exn Y) : Prop := ∀ X a s, settled X s → settled X (f (a, s)).2.2.
Lemma settles_on_layer {Y} (f : M (type A G) exn Y) : settles f → settles_on (on_layer f).
Proof. intros Hf X a s Hs. unfold on_layer. simpl. specialize (Hf X s Hs). by destruct (f s). Qed.
Lemma settles_on_activity {Y} (f : M A exn Y) : settles_on (on_activity f).
Proof. intros X a s Hs. unfold on_activity. simpl. by destruct (f a). Qed.
Lemma settles_on_bind {Y Z} (f : M (A * type A G) exn Y) (k : Y → M (A * type A G) exn Z) :
  settles_on f → (∀ y, settles_on (k y)) → settles_on (f ≫= k).
Proof.
  intros Hf Hk X a s Hs. specialize (Hf X a s Hs). unfold mbind, M_bind.
  destruct (f (a, s)) as [[y|e] [a' s']]; [by apply Hk|done].
Qed.
Lemma settles_guarded f h X a s : settles_on f → settled X s → settled X (guarded f h a s).2.2.
Proof.
  intros Hf Hs. specialize (Hf X a s Hs). unfold guarded. destruct (f (a, s)) as [[u|e] [a' s']]; [done|].
  apply (settles_run_on_error h e) in Hf. simpl in Hf. by destruct (run_on_error h e s').
Qed.
Lemma settles_put_state f X s : relation (f s) = relation s → finals (f s) = finals s →
  to_be_removed (f s) = to_be_removed s → settled X s → settled X (f s).
Proof.
  intros Hr Hf Ht Hs. apply (settled_shrink X s); [by rewrite Hr|done| |done]. unfold cancels_own. rewrite Ht. apply Hs.
Qed.
Lemma settles_defer id r h k : (∀ i, r = To_cancel i → i = id) → settles (defer id r h k).
Proof.
  intros Hr X s Hs. simpl. apply (settled_shrink X s); [done..| |done]. destruct Hs as [_ Hc].
  intros i l r' h' k' j. simpl. rewrite lookup_insert_Some. intros [[<- <-]|[_ Hl]]; [|by eapply Hc].
  intros [Hin|Hin]%elem_of_app.
  - destruct (to_be_removed s !! id) as [l'|] eqn:Hl; simpl in Hin; [by eapply Hc|by apply elem_of_nil in Hin].
  - apply list_elem_of_singleton in Hin. injection Hin as -> -> ->. apply Hr.
Qed.
Lemma settles_apply id f r h : settles_on f → (∀ i, r = To_cancel i → i = id) → settles (apply id f r h).
Proof.
  intros Hf Hr X s Hs. unfold apply. rewrite bind_get.
  destruct (find id (container s)) as [d|]; [|destruct (find id (container_inactive s)) as [d|]].
  - pose proof (settles_guarded f h X (d_activity d) s Hf Hs) as Hg. destruct (guarded f h _ s) as [o [a s']].
    by apply settles_put_state.
  - pose proof (settles_guarded f h X (d_activity d) (set_container_inactive (erase id) s) Hf) as Hg.
    destruct (guarded f h _ _) as [o [a s']]. 
    specialize (Hg (settles_put_state (set_container_inactive (erase id)) X s eq_refl eq_refl eq_refl Hs)).
    unfold mbind, M_bind, lift, put. destruct o; [by apply settles_put_state|done].
  - by apply settles_defer.
Qed.
Lemma settles_remove_and_apply id f r h :
  settles_on f → (∀ i, r = To_cancel i → i = id) → settles (remove_and_apply id f r h).
Proof.
  intros Hf Hr X s Hs. unfold remove_and_apply. rewrite bind_get.
  destruct (find id (container s)) as [d|]; [|destruct (find id (container_inactive s)) as [d|]; [|by apply settles_defer]];
    pose proof (settles_guarded f h X (d_activity d) s Hf Hs) as Hg; destruct (guarded f h _ s) as [o [a s']];
    simpl in Hg; unfold mbind, M_bind, lift, put; destruct o; by repeat apply settles_put_state.
Qed.
Lemma settles_eureka_response parent caller es : settles (eureka_response parent caller es).
Proof. apply settles_apply; [apply settles_on_layer, settles_cancel_eureka|done]. Qed.
Lemma settles_removal r id : (∀ i, r = To_cancel i → i = id) → settles_on (run_removal r id).
Proof.
  intros Hr. destruct r as [ptid place value|rid place value|place value|p res c|i|c reason|c|did|p caller es]; simpl.
  - apply settles_on_bind; [apply settles_on_activity|]. intros _. by apply settles_on_layer, settles_emit.
  - apply settles_on_activity.
  - apply settles_on_activity.
  - apply settles_on_bind.
    + intros X a s Hs. apply (inject_callbacks (settled X)); [intros; apply settles_respond| |done].
      intros. apply settles_eureka_response.
    + intros _. apply settles_on_bind; [apply settles_on_layer, settles_terminated|]. intros _ X a s Hs. done.
  - apply settles_on_layer. intros X s Hs. rewrite bind_get. destruct (contains id s) eqn:Hc.
    + by apply settles_cancel_children.
    + rewrite (Hr i eq_refl). apply answer_settled; [by right|done].
  - apply settles_on_layer. apply settles_bind; [apply settles_terminated|]. intros [] X s Hs.
    + apply answer_settled; [by left|done].
    + by apply settles_cancel_children.
  - apply settles_on_layer, settles_bind; [apply settles_terminated|]. intros _. apply settles_ret.
  - apply settles_on_layer, settles_bind; [apply settles_get|]. intros s.
    apply settles_bind; [apply settles_fhg_assert|]. intros _.
    apply settles_bind; [apply settles_apply_to_children; intros; by apply settles_emit|]. intros _.
    case_match; eauto with settles.
  - apply settles_on_layer, settles_cancel_eureka.
Qed.
Lemma settles_drain fuel id a active : settles (drain fuel id a active).
Proof.
  revert a active. induction fuel as [|fuel IH]; intros a active X s Hs; simpl; rewrite bind_get;
    destruct (to_be_removed s !! id) as [[|[[r h] k] rest]|] eqn:Hl; try done.
  set (s1 := set_to_be_removed (<[id := rest]>) s).
  assert (settled X s1) as Hs1.
  { apply (settled_shrink X s); [done..| |done]. intros i l r' h' k' j. unfold s1. simpl.
    rewrite lookup_insert_Some. intros [[<- <-]|[_ Hl']]; [|by eapply (proj2 Hs)].
    intros Hin. eapply (proj2 Hs); [exact Hl|]. by right. }
  assert (settles_on (run_removal r id)) as Hr.
  { apply settles_removal. intros i. eapply (proj2 Hs); [exact Hl|]. left. }
  pose proof (settles_guarded _ h X a s1 Hr Hs1) as Hg. destruct (guarded _ h a s1) as [o [a' s2]]. simpl in Hg.
  unfold mbind, M_bind, put, lift. destruct o; [|done]. destruct k; [|done]. case_decide; [done|by apply IH].
Qed.
Lemma settles_put_data fuel d active : settles (put_data fuel d active).
Proof.
  apply settles_bind; [apply settles_drain|]. intros [[a act] b]. apply settles_bind.
  - intros X s Hs. simpl. apply (settled_shrink X s); [done..| |done]. intros i l r h k j. simpl. unfold erase_if_empty.
    destruct (to_be_removed s !! d_id d) as [[|]|]; try apply (proj2 Hs).
    rewrite lookup_delete_Some. intros [_ Hl]. by eapply (proj2 Hs).
  - intros _. destruct b; [destruct act|]; eauto with settles.
Qed.

(** ** Calls *)
Lemma finalize_settled X parent s : contains parent s = false → settled X s → settled X (finalize parent s).2.
Proof.
  intros Hc Hs. unfold finalize. rewrite bind_get. destruct (finalize_job_cancellation s !! parent) as [f|]; [|done].
  assert (settled X ((match f with
    | Finally_canceled => rts_canceled_and_forget parent
    | Finally_failed reason => rts_failed_and_forget parent reason
    end) s).2) as Hf by (destruct f; apply answer_settled; auto).
  unfold mbind, M_bind. destruct (_ s) as [[u|e] s']; [|done]. by apply settles_put_state.
Qed.
Lemma settles_canceled child : settles (canceled child).
Proof.
  intros X s Hs. unfold canceled. rewrite bind_get. destruct (parent_of child s) as [parent|]; [|done]. case_decide.
  - revert s Hs H2. intros s Hs _. revert s Hs. apply settles_bind; [eauto with settles|]. intros _.
    apply settles_apply; [by apply settles_removal|done].
  - pose proof (settles_terminated parent child X s Hs) as Ht. unfold mbind, M_bind.
    assert (∃ s1, terminated parent child s = (Ret (negb (contains parent s1)), s1)) as [s1 Hr] by (eexists; done).
    rewrite Hr in Ht |- *. simpl in Ht. destruct (contains parent s1) eqn:Hc; [done|]. by apply finalize_settled.
Qed.
Lemma settles_require_parent child : settles (require_parent child).
Proof.
  apply settles_bind; [apply settles_get|]. intros s. apply settles_bind; [apply settles_fhg_assert|]. intros _.
  apply settles_lift.
Qed.
Lemma settles_handle fuel c : settles (handle fuel c).
Proof.
  assert (∀ id r h, keeps r = true → settles (apply_removal id r h)) as Ha.
  { intros id r h Hk. apply settles_apply; [apply settles_removal|]; by intros i ->. }
  destruct c; simpl; try (by apply Ha).
  - apply settles_bind; [apply settles_lift|]. intros a. apply settles_put_data.
  - apply settles_bind; [apply settles_require_parent|]. intros parent. apply settles_bind; [apply settles_get|].
    intros s. case_decide; [apply settles_canceled|by apply Ha].
  - apply settles_bind; [apply settles_require_parent|]. intros parent. apply settles_bind; [apply settles_get|].
    intros s. case_decide; [apply settles_canceled|]. apply settles_remove_and_apply; [by apply settles_removal|done].
  - apply settles_canceled.
  - apply settles_remove_and_apply; [apply settles_removal|]; by intros i [=].
  - apply settles_bind; [apply settles_get|]. intros s. apply settles_bind; [apply settles_fhg_assert|]. intros _.
    apply settles_bind; [apply settles_lift|]. intros x. cbv zeta. case_match; [|eauto with settles].
    apply settles_bind; [by apply settles_emit|]. intros _. eauto with settles.
  - apply settles_bind; [eauto with settles|]. intros _. by apply Ha.
  - unfold interrupt. eauto with settles.
  - apply settles_ret.
Qed.

(** ** The thread *)
Lemma started_settled parent child e s :
  parent ∉ finals s → settled [] s → settled [] (started parent child e s).2.
Proof.
  intros Hp [Hs Hc]. assert (relation (started parent child e s).2 = (emplace child parent (relation s)).1 ∧
    finals (started parent child e s).2 = finals s ∧ to_be_removed (started parent child e s).2 = to_be_removed s)
    as (Hr & Hf & Ht) by (by destruct e).
  split; [|unfold cancels_own; by rewrite Ht]. rewrite Hf. intros id Hid. apply not_true_iff_false.
  intros (c & Hl)%contains_spec. rewrite Hr in Hl. assert (contains id s = true) as Hcon; [|by rewrite (Hs id Hid) in Hcon].
  apply contains_spec. exists c. unfold emplace in Hl. destruct (relation s !! child); [done|]. simpl in Hl.
  apply lookup_insert_Some in Hl as [[_ ->]|[_ Hl]]; [done|exact Hl].
Qed.
Lemma extract_from_settled d a s : settled [] s → settled [] (extract_from d (a, s)).2.2.
Proof.
  intros Hs. unfold extract_from. simpl.
  assert (∀ p v, settles (apply_removal (d_id d) (Put_from_plugin p v) Rethrow)) as Hp.
  { intros p v. apply settles_apply; [apply settles_removal|]; by intros i [=]. }
  pose proof (extract_callbacks (settled []) (respond (d_id d)) (eureka_response (d_id d) None)
    (λ place_name value, apply_removal (d_id d) (Put_from_plugin place_name value) Rethrow)
    (λ x y, settles_respond (d_id d) x y []) (λ es, settles_eureka_response (d_id d) None es [])
    (λ p v, Hp p v []) (a, engine s, s) Hs) as He.
  destruct (extract _ _ _ _) as [o [[a' g] s']]. simpl in *. exact He.
Qed.
Lemma finals_answered id s : id ∈ finals s → id ∈ answered s.
Proof.
  unfold finals, answered. rewrite !list_elem_of_omap. intros (e & He & Hid). exists e. split; [done|]. by destruct e.
Qed.
Lemma settles_failed id reason : settles (rts_failed_and_forget id reason ≫= λ _, mret (M := M (type A G) exn) (@Waiting A)).
Proof.
  apply settles_bind; [|intros; apply settles_ret]. intros X s Hs. apply answer_settled; [by left|done].
Qed.
Lemma put_or_fail_settled X fuel d was_active s : settled X s → settled X (put_or_fail fuel d was_active s).2.
Proof.
  intros Hs. apply (settles_put_data fuel d was_active) in Hs. unfold put_or_fail.
  destruct (put_data fuel d was_active s) as [[u|e] s1]; [done|]. by apply settles_failed.
Qed.
Lemma advance_settled fuel child_id t s :
  deferred_ok s → NoDup (places s ++ held t) → settled [] s → settled [] (advance fuel child_id t s).2.
Proof.
  intros Hd Hn Hs. destruct t as [|d|d b|]; simpl; [| | |done].
  - rewrite bind_get. destruct (interrupted s); [done|]. destruct (container s); [done|]. by apply settles_put_state.
  - assert (∀ s', same s s' → d_id d ∉ finals s') as Hfr.
    { intros s' (_ & _ & Ha & _) Hi%finals_answered. rewrite Ha in Hi. apply (held_fresh _ _ Hn).
      apply elem_of_app. right. apply elem_of_app. by right. }
    assert (sound s) as Hso by (split; [by apply NoDup_app in Hn as (? & _)|done]).
    pose proof (extract_from_same d (d_activity d) s (sound_ready s Hso)
      (λ Hq, held_fresh _ _ Hn (proj2 (elem_of_app _ _ _) (or_introl Hq)))) as Hsame.
    pose proof (extract_from_settled d (d_activity d) s Hs) as He. unfold extraction.
    destruct (extract_from d _) as [[[activity|]|e] [a s1]]; simpl in *; [|done|].
    + pose proof (started_settled (d_id d) child_id (eureka_id activity) s1 (Hfr s1 Hsame) He) as Hst.
      unfold mbind, M_bind. destruct (started _ _ _ s1) as [[u|ex] s2]; [|done].
      by apply (settles_emit (rts_submit child_id activity)) in Hst.
    + by apply settles_failed.
  - unfold continue_or_finish. rewrite bind_get. destruct (contains (d_id d) s) eqn:Hc;
      [by apply put_or_fail_settled|].
    unfold mbind at 1, M_bind at 1, lift at 1.
    destruct (wait_for_output (d_activity d)) as [[]|]; [by apply put_or_fail_settled| |done].
    unfold mbind at 1, M_bind at 1, lift at 1. destruct (unwrap (d_activity d)) as [a|]; [|done].
    pose proof (answer_settled [] (d_id d) "workflow finished" (rts_finished (d_id d) a) s
      (or_intror (conj eq_refl Hc)) Hs) as Ha.
    change (settled [] (rts_finished_and_forget (d_id d) a s).2) in Ha. unfold mbind, M_bind.
    by destruct (rts_finished_and_forget _ _ s) as [[u|e] s'].
Qed.

Lemma history_settled fuel b l x : history fuel b l x → settled [] x.1.
Proof.
  induction 1 as [g|b l x c o x' Hh IH Hfresh Hx].
  - split; [by intros id ?%elem_of_nil|]. intros id l r h k i. simpl. by rewrite lookup_empty.
  - destruct (history_whereabouts fuel b l x Hh) as (Hn & Hd & Hsub & _). destruct x as [s t]. simpl in *.
    assert ((∃ child_id, c = Advance child_id) ∨ x' = ((handle fuel c s).2, t)) as [[child_id ->]| ->].
    { destruct c; try (by left; eexists); right; unfold perform in Hx;
        match type of Hx with context [handle ?f ?c s] => destruct (handle f c s); by injection Hx end. }
    + rewrite whereabouts_places in Hsub. pose proof (submseteq_NoDup _ _ Hsub Hn) as Hnd.
      pose proof (advance_settled fuel child_id t s Hd Hnd IH) as Ha. simpl in Hx.
      destruct (advance fuel child_id t s) as [[]]; injection Hx as <- <-; exact Ha.
    + by apply settles_handle.
Qed.

(** C16: in every run of the layer, a workflow that has been reported finished or canceled
    has no running child: the report comes after the last child has terminated, and no
    activity is extracted from the workflow afterwards. *)
Theorem answers_follow_children fuel b l s t id :
  history fuel b l (s, t) → (∃ a, rts_finished id a ∈ sent s) ∨ rts_canceled id ∈ sent s →
  ∀ child, parent_of child s ≠ Some id.
Proof.
  intros Hh Hid child Hc. destruct (history_settled fuel b l _ Hh) as [Hs _]. simpl in Hs.
  assert (id ∈ finals s) as Hf.
  { unfold finals. apply list_elem_of_omap. destruct Hid as [[a Ha]|Ha]; eauto. }
  specialize (Hs id Hf). apply not_true_iff_false in Hs. apply Hs, contains_spec. eauto.
Qed.
End children.
End Children.
