(* ===== verification/LayerPut.v ===== *)
(** * The loop of [put] ends

    Deferred functions run while a workflow is put back, and may defer more. *)

From S2P Require Import Prelude Value Token Function SdpaJob SdpaWorker Layer LayerSpec.

Import layer Answers.

Module Puts.
Section puts.
Context {A G : Type} `{Activity A G} `{AssertMode} `{Unordered}.
Implicit Types (s : type A G) (t : thread A).

(** A deferred function defers nothing but the cancellation of eurekas, and that
    defers nothing. *)
Definition eureka_entry (x : removal A * on_error * bool) : Prop :=
  match x.1.1 with To_cancel_eureka _ _ _ => x.2 = true | _ => False end.
Definition deferred_since (id : id_type) l0 s : Prop :=
  ∃ l, to_be_removed s !! id = Some (l0 ++ l) ∧ Forall eureka_entry l.
Definition leaves m s : Prop := to_be_removed s = m.
Ltac leaves_auto := repeat first
  [ progress intros | case_match | case_decide | apply preserves_bind | apply preserves_for_each
  | apply preserves_modify | progress eauto with gspc | assumption ].

Lemma leaves_workflow_response m id r x : preserves (leaves m) (workflow_response id r x).
Proof. unfold workflow_response, emit. leaves_auto. Qed.
Lemma leaves_respond m id d v : preserves (leaves m) (respond id d v).
Proof.
  unfold respond. apply preserves_bind; [apply preserves_lift|]. intros r. apply leaves_workflow_response.
Qed.
Lemma leaves_run_on_error m h e : preserves (leaves m) (run_on_error h e).
Proof.
  destruct h; simpl; [apply preserves_throw|unfold emit; by apply preserves_modify|apply leaves_workflow_response].
Qed.
Lemma leaves_cancel_eureka m parent id caller es : preserves (leaves m) (cancel_eureka parent id caller es).
Proof. unfold cancel_eureka, apply_and_remove_eureka, emit. leaves_auto. Qed.
Lemma leaves_run (f : M (type A G) exn unit) s : (∀ m, preserves (leaves m) f) → to_be_removed (f s).2 = to_be_removed s.
Proof. intros Hf. by apply (Hf (to_be_removed s)). Qed.
Lemma leaves_deferred_since (f : M (type A G) exn unit) id l0 :
  (∀ m, preserves (leaves m) f) → preserves (deferred_since id l0) f.
Proof. intros Hf s. unfold deferred_since. by rewrite (leaves_run f s Hf). Qed.
Lemma deferred_since_defer id i l0 r h s :
  eureka_entry (r, h, true) → deferred_since id l0 s → deferred_since id l0 (defer i r h true s).2.
Proof.
  intros Hr (l & Hl & Hall). unfold deferred_since. simpl. destruct (decide (i = id)) as [->|Hne].
  - rewrite lookup_insert_eq, Hl. simpl. exists (l ++ [(r, h, true)]). split; [by rewrite app_assoc|].
    apply Forall_app. split; [done|by constructor].
  - rewrite lookup_insert_ne by done. eauto.
Qed.
Lemma guarded_leaves f h a s :
  (∀ a s, to_be_removed (f (a, s)).2.2 = to_be_removed s) → to_be_removed (guarded f h a s).2.2 = to_be_removed s.
Proof.
  intros Hf. specialize (Hf a s). unfold guarded. destruct (f (a, s)) as [[u|e] [a' s']]; [done|]. simpl in Hf.
  pose proof (leaves_run (run_on_error h e) s' (λ m, leaves_run_on_error m h e)) as Hh.
  destruct (run_on_error h e s') as [o s2]. simpl in *. congruence.
Qed.
Lemma on_layer_leaves (f : M (type A G) exn unit) a s :
  (∀ m, preserves (leaves m) f) → to_be_removed (on_layer f (a, s)).2.2 = to_be_removed s.
Proof. intros Hf. pose proof (leaves_run f s Hf) as Hl. unfold on_layer. simpl. by destruct (f s). Qed.
Lemma eureka_deferred_since id l0 parent caller es :
  preserves (deferred_since id l0) (eureka_response parent caller es).
Proof.
  intros s Hs. unfold eureka_response, apply. rewrite bind_get.
  assert (∀ a s, to_be_removed (guarded (on_layer (cancel_eureka parent parent caller es)) Rethrow a s).2.2
    = to_be_removed s) as Hg.
  { intros a s'. apply guarded_leaves. intros. apply on_layer_leaves. intros. apply leaves_cancel_eureka. }
  destruct (find parent (container s)) as [d|]; [|destruct (find parent (container_inactive s)) as [d|]].
  - specialize (Hg (d_activity d) s). destruct (guarded _ _ _ s) as [o [a s']]. simpl in Hg.
    unfold mbind, M_bind, lift, put, deferred_since in *. simpl. by rewrite Hg.
  - set (s1 := set_container_inactive _ s). specialize (Hg (d_activity d) s1).
    destruct (guarded _ _ _ s1) as [o [a s']]. simpl in Hg.
    unfold mbind, M_bind, lift, put, deferred_since in *. destruct o; simpl; by rewrite Hg.
  - by apply deferred_since_defer.
Qed.
Lemma on_activity_leaves {X} (f : M A exn X) a s : (on_activity f (a, s)).2.2 = s.
Proof. unfold on_activity. simpl. by destruct (f a). Qed.
Lemma removal_leaves r id a s :
  keeps r = true → (∀ parent result child, r ≠ To_finish parent result child) →
  to_be_removed (run_removal r id (a, s)).2.2 = to_be_removed s.
Proof.
  intros Hk Hnf. destruct r as [ptid place value|rid place value|place value|p res c|i|c reason|c|did|p caller es];
    try done; simpl.
  - unfold mbind, M_bind. pose proof (on_activity_leaves (put_token_on place value) a s) as Ha.
    destruct (on_activity _ _) as [[u|e] [a' s']]; simpl in Ha; subst; done.
  - by rewrite on_activity_leaves.
  - by rewrite on_activity_leaves.
  - exfalso. by eapply Hnf.
  - apply on_layer_leaves. intros m. apply preserves_bind; [apply preserves_get|]. intros s0.
    apply preserves_bind; [unfold fhg_assert; case_match; [apply preserves_throw|apply preserves_ret]|]. intros _.
    unfold apply_to_children, emit. leaves_auto.
  - apply on_layer_leaves. intros m. apply leaves_cancel_eureka.
Qed.
Lemma removal_deferred_since r h id a s l0 :
  keeps r = true → to_be_removed s !! id = Some l0 → deferred_since id l0 (guarded (run_removal r id) h a s).2.2.
Proof.
  intros Hk Hl. assert (deferred_since id l0 (run_removal r id (a, s)).2.2) as Hr.
  { assert (deferred_since id l0 s) as Hs by (exists []; rewrite app_nil_r; split; [done|constructor]).
    assert ((∃ p res c, r = To_finish p res c) ∨ ∀ p res c, r ≠ To_finish p res c) as [(p & res & c & ->)|Hnf]
      by (destruct r; try (by right); left; eauto).
    - simpl. unfold mbind, M_bind at 1.
      pose proof (inject_callbacks (deferred_since id l0) (respond p) (eureka_response p (Some c)) res) as Hi.
      specialize (Hi (λ d v, leaves_deferred_since _ _ _ (λ m, leaves_respond m p d v))
        (eureka_deferred_since id l0 p (Some c)) (a, s) Hs).
      destruct (inject _ _ res (a, s)) as [[u|e] [a' s']]; exact Hi.
    - unfold deferred_since. by rewrite removal_leaves. }
  unfold guarded. destruct (run_removal r id (a, s)) as [[u|e] [a' s']]; [done|]. simpl in Hr.
  pose proof (leaves_deferred_since (run_on_error h e) id l0 (λ m, leaves_run_on_error m h e) s' Hr) as Hh.
  by destruct (run_on_error h e s').
Qed.

(** [inject] and [put_token] end: they do not run out of fuel *)
Definition ends : Prop :=
  (∀ place_name value (a : A), (put_token_on place_name value a).1 ≠ Throw out_of_fuel) ∧
  (∀ parent child (result : A) (x : A * type A G),
    (inject (respond parent) (eureka_response parent (Some child)) result x).1 ≠ Throw out_of_fuel).
Definition ending {X} (f : M (type A G) exn X) : Prop := ∀ s, (f s).1 ≠ Throw out_of_fuel.
Lemma ending_bind {X Y} (f : M (type A G) exn X) (k : X → M (type A G) exn Y) :
  ending f → (∀ x, ending (k x)) → ending (f ≫= k).
Proof.
  intros Hf Hk s. specialize (Hf s). unfold mbind, M_bind. destruct (f s) as [[x|e] s']; [apply Hk|]. simpl in *. congruence.
Qed.
Lemma ending_returns (f : M (type A G) exn unit) : (∀ s, (f s).1 = Ret tt) → ending f.
Proof. intros Hf s. by rewrite Hf. Qed.
Lemma ending_answer id reason e :
  ending (forget id ≫= λ _, cancel_outstanding_responses id reason ≫= λ _, emit e).
Proof.
  apply ending_bind; [apply ending_returns, forget_returns|]. intros _.
  apply ending_bind; [apply ending_returns; intros; apply cancel_outstanding_returns|]. by intros _.
Qed.
Lemma ending_to_children id (f : id_type → M (type A G) exn unit) :
  (∀ c s, (f c s).1 = Ret tt) → ending (apply_to_children id f).
Proof. intros Hf s. unfold apply_to_children. rewrite bind_get. by rewrite returns_for_each. Qed.
Lemma ending_cancel_children id f : ending (cancel_children id f).
Proof. apply ending_bind; [done|]. intros _. by apply ending_to_children. Qed.
Lemma ending_on_layer {X} (f : M (type A G) exn X) a s : ending f → (on_layer f (a, s)).1 ≠ Throw out_of_fuel.
Proof. intros Hf. specialize (Hf s). unfold on_layer. simpl. by destruct (f s). Qed.
Lemma ending_on_activity {X} (f : M A exn X) a s :
  (f a).1 ≠ Throw out_of_fuel → (on_activity f (a, s)).1 ≠ Throw out_of_fuel.
Proof. unfold on_activity. simpl. by destruct (f a). Qed.
Lemma removal_ends r id a s : ends → (run_removal r id (a, s)).1 ≠ Throw out_of_fuel.
Proof.
  intros [Hput Hin]. destruct r; simpl.
  - pose proof (ending_on_activity (put_token_on place_name value) a s (Hput _ _ _)) as Ho.
    unfold mbind, M_bind. destruct (on_activity _ _) as [[u|e] [a' s']]; [done|]. simpl in *. congruence.
  - by apply ending_on_activity.
  - by apply ending_on_activity.
  - unfold mbind, M_bind. specialize (Hin parent id0 result (a, s)).
    destruct (inject _ _ _ _) as [[u|e] [a' s']]; [done|]. simpl in *. congruence.
  - apply ending_on_layer. apply ending_bind; [done|]. intros s'. case_match; [apply ending_cancel_children|apply ending_answer].
  - apply ending_on_layer. apply ending_bind; [done|]. intros []; [apply ending_answer|apply ending_cancel_children].
  - done.
  - apply ending_on_layer. apply ending_bind; [done|]. intros s'.
    apply ending_bind; [unfold fhg_assert; by case_match|]. intros _.
    apply ending_bind; [by apply ending_to_children|]. intros _. by case_match.
  - apply ending_on_layer, ending_returns. intros. apply cancel_eureka_returns.
Qed.
Lemma guarded_ends r h id a s : ends → (guarded (run_removal r id) h a s).1 ≠ Throw out_of_fuel.
Proof.
  intros He%(removal_ends r id a s). unfold guarded. destruct (run_removal r id (a, s)) as [[u|e] [a' s']]; [done|].
  simpl in He. destruct h; simpl; [congruence|done|]. unfold workflow_response, emit. rewrite bind_modify, bind_get. simpl.
  by destruct (outstanding_responses s' !! _).
Qed.
(** enough fuel for the loop *)
Definition drain_ends (id : id_type) a active s : Prop :=
  ∃ n, ∀ fuel, n ≤ fuel →
    drain fuel id a active s = drain n id a active s ∧ (drain fuel id a active s).1 ≠ Throw out_of_fuel.
Lemma drain_ends_nil id a active s : to_be_removed s !! id = Some [] → drain_ends id a active s.
Proof. intros Hl. exists 0. intros [|fuel] _; simpl; rewrite !bind_get, Hl; done. Qed.
Lemma drain_ends_step id r h k rest a active s :
  ends → entry_ok id (r, h, k) → to_be_removed s !! id = Some ((r, h, k) :: rest) →
  (∀ a' s', keeps r = true → rest ≠ [] →
    guarded (run_removal r id) h a (set_to_be_removed (<[id := rest]>) s) = (Ret tt, (a', s')) → drain_ends id a' true s') →
  drain_ends id a active s.
Proof.
  intros He Hok Hl IH. pose proof (entry_keeps _ _ _ _ Hok) as ->.
  pose proof (guarded_ends r h id a (set_to_be_removed (<[id := rest]>) s) He) as Hne.
  destruct (guarded _ h a _) as [o [a' s']] eqn:Hg. simpl in Hne.
  assert (∀ fuel, drain (S fuel) id a active s =
    match o with
    | Throw e => (Throw e, s')
    | Ret _ => if keeps r then if decide (rest = []) then (Ret (a', true, true), s') else drain fuel id a' true s'
               else (Ret (a', false, false), s')
    end) as Hs.
  { intros fuel. simpl. rewrite bind_get, Hl, Hg. unfold mbind, M_bind, put, lift. destruct o; [|done].
    destruct (keeps r); [|done]. by destruct (decide (rest = [])). }
  destruct o as [[]|e].
  - destruct (keeps r) eqn:Hk; [destruct (decide (rest = [])) as [Hr|Hr]|].
    + exists 1. intros [|fuel] Hf; [lia|]. by rewrite !Hs.
    + destruct (IH a' s' eq_refl Hr eq_refl) as (n & Hn). exists (S n). intros [|fuel] Hf; [lia|].
      rewrite !Hs. apply Hn. lia.
    + exists 1. intros [|fuel] Hf; [lia|]. by rewrite !Hs.
  - exists 1. intros [|fuel] Hf; [lia|]. rewrite !Hs. split; [done|]. simpl. congruence.
Qed.
Lemma eureka_entry_ok id x : eureka_entry x → entry_ok id x.
Proof. destruct x as [[[] ?] ?]; done. Qed.
Lemma drain_ends_eurekas id l a active s :
  ends → Forall eureka_entry l → to_be_removed s !! id = Some l → drain_ends id a active s.
Proof.
  intros He Hl. revert a active s. induction Hl as [|x l Hx Hl IH]; intros a active s Hs; [by apply drain_ends_nil|].
  destruct x as [[r h] k]. eapply drain_ends_step; [done|by apply eureka_entry_ok|exact Hs|]. intros a' s' Hk _ Hg.
  apply IH. assert (to_be_removed (guarded (run_removal r id) h a (set_to_be_removed (<[id:=l]>) s)).2.2
    = <[id := l]> (to_be_removed s)) as Hle.
  { apply guarded_leaves. intros. apply removal_leaves; [done|]. by intros p res c ->. }
  rewrite Hg in Hle. simpl in Hle. rewrite Hle. by rewrite lookup_insert_eq.
Qed.
Lemma drain_ends_all id l1 l2 a active s :
  ends → Forall (entry_ok id) l1 → Forall eureka_entry l2 → to_be_removed s !! id = Some (l1 ++ l2) →
  drain_ends id a active s.
Proof.
  intros He Hl1. revert l2 a active s. induction Hl1 as [|x l1 Hx Hl1 IH]; intros l2 a active s Hl2 Hs;
    [by eapply drain_ends_eurekas|].
  destruct x as [[r h] k]. apply (drain_ends_step id r h k (l1 ++ l2)); [done|exact Hx|exact Hs|]. intros a' s' Hk _ Hg.
  pose proof (removal_deferred_since r h id a (set_to_be_removed (<[id:=l1 ++ l2]>) s) (l1 ++ l2) Hk
    (lookup_insert_eq _ _ _)) as (l & Hl & Hel). rewrite Hg in Hl. simpl in Hl.
  apply (IH (l2 ++ l)); [by apply Forall_app|]. by rewrite Hl, <- app_assoc.
Qed.
Lemma drain_terminates id a active s : ends → deferred_ok s → drain_ends id a active s.
Proof.
  intros He Hd. destruct (to_be_removed s !! id) as [l|] eqn:Hl.
  - apply (drain_ends_all id l []); [done|by apply (Hd id)|constructor|]. by rewrite app_nil_r.
  - exists 0. intros [|fuel] _; simpl; rewrite !bind_get, Hl; done.
Qed.

(** C39: the loop of [put] ends in every state that a run of the layer reaches and for
    every workflow that is put, if what the activity itself does ends: more than some
    number of iterations are never needed, and that many are enough. *)
Theorem put_terminates fuel b l s t d active :
  ends → history fuel b l (s, t) →
  ∃ n, ∀ fuel', n ≤ fuel' →
    put_data fuel' d active s = put_data n d active s ∧ (put_data n d active s).1 ≠ Throw out_of_fuel.
Proof.
  intros He Hh. destruct (history_whereabouts fuel b l _ Hh) as (_ & Hd & _).
  destruct (drain_terminates (d_id d) (d_activity d) active s He Hd) as (n & Hn). exists n. intros fuel' Hf.
  destruct (Hn fuel' Hf) as [Heq _], (Hn n (le_n n)) as [_ Hne]. unfold put_data, mbind, M_bind. rewrite Heq. split; [done|].
  destruct (drain n _ _ _ s) as [[[[a act] []]|e] s1]; simpl in *; [|done|congruence]. by destruct act.
Qed.
End puts.
End Puts.
