(* ===== verification/LayerRuns.v ===== *)
(** * Runs of the workflow layer

    Concrete activities, which spawn children one after the other, and runs of the
    layer with them.  In three of the runs a workflow gets no answer although
    everything that was submitted for it has been answered. *)

From S2P Require Import Prelude Value Token Function SdpaJob SdpaWorker ReadShow Expr Parser Net NetFire Layer NetActivity LayerSpec LayerChildren LayerPut ModuleCall.

Import layer Answers Children Puts.

Module Runs.

#[local] Instance assertions : AssertMode := {| assert_throws := true |}.

(** ** Sequences of calls *)
Section sequences.
Context {A G : Type} `{Activity A G} `{Unordered}.

(** the outcomes of a sequence of calls and the state reached *)
Fixpoint perform_all (fuel : nat) (cs : list (call A)) (x : type A G * thread A) :
    list (outcome exn unit) * (type A G * thread A) :=
  match cs with
  | [] => ([], x)
  | c :: cs => let '(o, x) := perform fuel c x in let '(os, x) := perform_all fuel cs x in (o :: os, x)
  end.
Definition start (g : G) : type A G * thread A := (make g, Waiting).
(** the thread takes a workflow, extracts an activity for the child [c], puts the workflow *)
Definition turn (c : id_type) : list (call A) := [Advance c; Advance c; Advance c].

Fixpoint fresh_submissions (l : list id_type) (cs : list (call A)) : bool :=
  match cs with
  | [] => true
  | c :: cs => forallb (λ id, bool_decide (id ∉ l)) (submitted c) && fresh_submissions (submitted c ++ l) cs
  end.
Definition submissions (l : list id_type) (cs : list (call A)) : list id_type :=
  fold_left (λ l c, submitted c ++ l) cs l.
Lemma history_perform_all fuel cs b l x :
  history fuel b l x → fresh_submissions l cs = true →
  history fuel (b && forallb returned (perform_all fuel cs x).1) (submissions l cs) (perform_all fuel cs x).2.
Proof.
  revert b l x. induction cs as [|c cs IH]; intros b l x Hh Hf; simpl; [by rewrite andb_true_r|].
  simpl in Hf. apply andb_true_iff in Hf as [Hf1 Hf2]. destruct (perform fuel c x) as [o x1] eqn:Hx.
  assert (history fuel (b && returned o) (submitted c ++ l) x1) as Hh1.
  { eapply after_call; [exact Hh| |exact Hx]. intros id Hid.
    rewrite forallb_forall in Hf1. specialize (Hf1 id (proj1 (list_elem_of_In _ _) Hid)).
    by apply bool_decide_eq_true in Hf1. }
  specialize (IH _ _ _ Hh1 Hf2). destruct (perform_all fuel cs x1) as [os x2]. simpl in *.
  by rewrite andb_assoc.
Qed.
Lemma history_from_start fuel cs g :
  fresh_submissions [] cs = true →
  history fuel (forallb returned (perform_all fuel cs (start g)).1) (submissions [] cs) (perform_all fuel cs (start g)).2.
Proof. apply (history_perform_all fuel cs true [] (start g)), at_start. Qed.
End sequences.

(** ** Activities that spawn

    [todo] are the children still to be extracted; injecting a child calls the
    eurekas [calls] and throws if the child [breaks]. *)
Inductive script : Type :=
| mk_script (eureka : option string) (todo : list script) (calls : option (gset string)) (breaks : bool).
Definition eureka_of (a : script) : option string := let '(mk_script e _ _ _) := a in e.
Definition inject_script {S : Type} (er : gset string → M S exn unit) (child : script) : M (script * S) exn unit :=
  let '(mk_script _ _ calls breaks) := child in
  λ x, let '(o, s) := match calls with Some es => er es x.2 | None => (Ret tt, x.2) end in
       match o with
       | Throw e => (Throw e, (x.1, s))
       | Ret _ => (if breaks then Throw (runtime_error "inject") else Ret tt, (x.1, s))
       end.
Definition extract_script {S : Type} : M (script * unit * S) exn (option script) :=
  λ x, match x.1.1 with
       | mk_script _ [] _ _ => (Ret None, x)
       | mk_script e (c :: l) cs b => (Ret (Some c), (mk_script e l cs b, x.1.2, x.2))
       end.
#[refine] Instance spawning : Activity script unit := {|
  wrap := Ret; unwrap := Ret; wait_for_output := λ _, Ret false; eureka_id := eureka_of;
  put_token_on := λ _ _, mret tt;
  inject := λ S _ er child, inject_script er child;
  extract := λ S _ _ _, extract_script;
  describe := λ context _, context; show_value := λ _, EmptyString
|}.
Proof.
  - intros S I wr er [e l [es|] b] _ Her [a s] Hs; simpl in *; [|by destruct b].
    specialize (Her es s Hs). destruct (er es s) as [[u|ex] s']; [by destruct b|done].
  - intros S I wr er pt _ _ _ [[[e [|c l] cs b] g] s] Hs; done.
Defined.

Definition child (e : option string) (calls : option (gset string)) (breaks : bool) : script := mk_script e [] calls breaks.
Definition workflow (l : list script) : script := mk_script None l None false.
Abbreviation system := (type script unit * thread script)%type.

(** ** A run with two workflows

    The first one is finished, the second one is canceled while the thread has it and
    waits for its child. *)
Definition two_workflows : list (call script) :=
  [Submit "w" (workflow [child None None false]); Submit "v" (workflow [child None None false; child None None false])]
  ++ turn "c1" ++ turn "c2" ++ [Finished "c1" (child None None false)] ++ turn "" ++
  [Advance ""; Cancel "v"; Advance "c3"; Advance ""; Canceled "c2"].
Lemma workflows_answered_once_witness :
  forallb returned (perform_all 8 two_workflows (start tt)).1 = true ∧
  let x := (perform_all 8 two_workflows (start tt)).2 in
  answered x.1 = ["w"] ∧ finalizing x.1 = ["v"] ∧
  queued x.1 ++ held x.2 ++ finalizing x.1 ++ answered x.1 ≡ₚ ["v"; "w"].
Proof.
  split; [vm_compute; reflexivity|]. split; [vm_compute; reflexivity|]. split; [vm_compute; reflexivity|].
  apply (workflows_answered_once 8 true ["v"; "w"] (perform_all 8 two_workflows (start tt)).2); [|reflexivity].
  assert (forallb returned (perform_all 8 two_workflows (start tt)).1 = true) as <- by (vm_compute; reflexivity).
  apply (history_from_start 8 two_workflows tt). vm_compute. reflexivity.
Defined.

Lemma answers_follow_children_witness :
  let x := (perform_all 8 two_workflows (start tt)).2 in
  rts_finished "w" (workflow []) ∈ sent x.1 ∧ parent_of "c1" x.1 ≠ Some "w" ∧ parent_of "c3" x.1 = Some "v".
Proof.
  assert (rts_finished "w" (workflow []) ∈ sent (perform_all 8 two_workflows (start tt)).2.1) as Hin.
  { apply list_elem_of_In. vm_compute. tauto. }
  split; [exact Hin|]. split; [|vm_compute; reflexivity].
  apply (answers_follow_children 8 true ["v"; "w"] (perform_all 8 two_workflows (start tt)).2.1
    (perform_all 8 two_workflows (start tt)).2.2 "w"); [|by left; exists (workflow [])].
  rewrite <- surjective_pairing. assert (forallb returned (perform_all 8 two_workflows (start tt)).1 = true) as <-
    by (vm_compute; reflexivity). apply (history_from_start 8 two_workflows tt). vm_compute. reflexivity.
Defined.

Lemma spawning_ends : ends (A := script) (G := unit).
Proof.
  split; [done|]. intros parent c [e l [es|] b] [a s]; [|by destruct b]. simpl. unfold inject_script. simpl.
  pose proof (apply_returns parent (on_layer (cancel_eureka parent parent (Some c) es))
    (To_cancel_eureka parent (Some c) es) Rethrow s) as Hr.
  unfold eureka_response. destruct (apply _ _ _ _ s) as [o s']. simpl in Hr. rewrite Hr; [by destruct b|].
  intros a' s1. apply on_layer_returns, cancel_eureka_returns.
Qed.
(** a child that calls a eureka has finished while the thread has the workflow *)
Definition eureka_while_extracting : list (call script) :=
  [Submit "w" (workflow [child (Some "e") None false; child None (Some {["e"]}) false])]
  ++ turn "c1" ++ turn "c2" ++
  [Advance ""; Finished "c2" (child None (Some {["e"]}) false); Put "w" "t" "p" (Vbool true); Advance ""].
Lemma put_terminates_witness :
  ∃ n, ∀ fuel, n ≤ fuel →
    let s := (perform_all 8 eureka_while_extracting (start tt)).2.1 in
    put_data fuel (mk_data "w" (workflow [])) false s = put_data n (mk_data "w" (workflow [])) false s ∧
    (put_data n (mk_data "w" (workflow [])) false s).1 ≠ Throw out_of_fuel.
Proof.
  apply (put_terminates 8 true ["w"] (perform_all 8 eureka_while_extracting (start tt)).2.1
    (perform_all 8 eureka_while_extracting (start tt)).2.2 (mk_data "w" (workflow [])) false).
  - exact spawning_ends.
  - rewrite <- surjective_pairing. assert (forallb returned (perform_all 8 eureka_while_extracting (start tt)).1 = true) as <-
      by (vm_compute; reflexivity). apply (history_from_start 8 eureka_while_extracting tt). vm_compute. reflexivity.
Defined.

(** ** Runs without an answer

    A child has called the eureka of the other one and the layer has asked to cancel
    that one; then the workflow is canceled, then the child answers. *)
Definition cancel_after_eureka : list (call script) :=
  [Submit "w" (workflow [child (Some "e") None false; child None (Some {["e"]}) false])]
  ++ turn "c1" ++ turn "c2" ++ turn "" ++
  [Finished "c2" (child None (Some {["e"]}) false)] ++ turn "" ++ [Cancel "w"; Canceled "c1"].
(** The workflow is canceled and its child finishes while the thread has it. *)
Definition cancel_while_extracting : list (call script) :=
  [Submit "w" (workflow [child None None false])] ++ turn "c1" ++
  [Advance ""; Cancel "w"; Finished "c1" (child None None false); Advance ""; Advance ""].
(** The result of a child cannot be injected into a workflow that is not active. *)
Definition result_breaks : list (call script) :=
  [Submit "w" (workflow [child None None false])] ++ turn "c1" ++ turn "" ++ [Finished "c1" (child None None true)].

Definition answers (c : call script) : option id_type :=
  match c with Finished id _ | Failed id _ | Canceled id => Some id | _ => None end.
(** every child that was submitted has been answered, once *)
Definition children_answered (cs : list (call script)) (s : type script unit) : bool :=
  forallb (λ e, match e with
                | rts_submit c _ => length (filter (λ x, answers x = Some c) cs) =? 1
                | _ => true
                end) (sent s).
(** the thread has nothing to do *)
Lemma advance_idle fuel l s :
  interrupted s = false → container s = [] →
  (perform_all fuel (Advance <$> l) (s, Waiting)).2 = (s, Waiting).
Proof.
  intros Hi Hc. induction l as [|c l IH]; [done|]. simpl. rewrite bind_get, Hi, Hc. simpl.
  destruct (perform_all fuel _ _). done.
Qed.

(** a workflow can stay without an answer for ever.  In the first two runs every
    call returns, every child has answered once, and the workflow waits for the
    cancellation of its children whatever the thread does: the answer of a child that
    a eureka canceled, and an answer that is deferred behind the cancellation, are put
    aside for a workflow that never comes back.  In the third run the workflow is in
    no place at all. *)
Theorem workflow_without_answer :
  (∀ cs, cs ∈ [cancel_after_eureka; cancel_while_extracting] →
    let x := (perform_all 8 cs (start tt)).2 in
    forallb returned (perform_all 8 cs (start tt)).1 = true ∧ children_answered cs x.1 = true ∧
    ∀ l, (perform_all 8 (Advance <$> l) x).2 = x ∧ finalizing x.1 = ["w"] ∧ answered x.1 = []) ∧
  let x := (perform_all 8 result_breaks (start tt)).2 in
  children_answered result_breaks x.1 = true ∧ queued x.1 ++ held x.2 ++ finalizing x.1 ++ answered x.1 = [].
Proof.
  assert (∀ x : system, interrupted x.1 = false → container x.1 = [] → x.2 = Waiting →
    ∀ l, (perform_all 8 (Advance <$> l) x).2 = x) as Hidle.
  { intros [s t] Hi Hc Ht l. simpl in *. subst. by apply advance_idle. }
  split; [|split; vm_compute; reflexivity].
  intros cs Hcs x. repeat apply elem_of_cons in Hcs as [->|Hcs]; [| |by apply elem_of_nil in Hcs];
    (split; [vm_compute; reflexivity|]); (split; [vm_compute; reflexivity|]); intros l;
    (split; [apply Hidle; vm_compute; reflexivity|]); split; vm_compute; reflexivity.
Qed.

(** ** A module call

    An activity that is no net is submitted: the layer wraps it, submits the activity
    that it extracts from the wrapping net, injects the result and unwraps it. *)
#[refine] Instance no_plugins : activity_layer.PluginCode unit unit := {|
  activity_layer.code := λ S put_token, {|
    plugin.plugin_create := λ _ _, mret tt; plugin.plugin_destroy := λ _ w, w;
    plugin.plugin_before_eval := λ _ _, mret tt; plugin.plugin_after_eval := λ _ _, mret tt |};
  activity_layer.random := λ _ r, (0, r);
  activity_layer.print_exception := λ context _, context
|}.
Proof. intros S I put_token _. split_and!; try (intros ? ? w Hw; exact Hw); intros ? w Hw; exact Hw. Defined.
Definition call_f : transition_t Net.workflow :=
  transition.mk "f" (transition.module_call (module_call.simple "m" "f")) None
    {[0%Z := port.mk "x" port.PORT_IN (Signature.Sname "int") None]}
    {[1%Z := port.mk "y" port.PORT_OUT (Signature.Sname "int") None]}
    ∅ 2 (Vstruct []) [] [] 0 None.
Definition f_of_3 : activity_t := activity.mk call_f None [(Vint 3, 0%Z)] [] false.
(** what a worker makes of the activity it gets *)
Definition executed (a : activity_t) : activity_t := (activity_ops.add_output 1 (Vint 9) a).2.
Definition nets : Activity activity_t (plugin.Plugins unit * unit) := @activity_layer.net_activity Float.nan_libm _ _ _ _ _ 5.
Definition run_f : list (outcome exn unit) * (type activity_t (plugin.Plugins unit * unit) * thread activity_t) :=
  let _ := nets in
  perform_all 5 ([Submit "w" f_of_3] ++ turn "c" ++ turn "" ++
    [Finished "c" (executed (activity.mk call_f (Some 0%Z) [(Vint 3, 0%Z)] [] false))] ++ turn "") (start (plugin.none, tt)).
Lemma module_call_through_layer :
  forallb returned run_f.1 = true ∧
  sent run_f.2.1 =
    [rts_submit "c" (activity.mk call_f (Some 0%Z) [(Vint 3, 0%Z)] [] false);
     rts_finished "w" (activity.mk call_f None [] [(Vint 9, 1%Z)] false)].
Proof. split; vm_compute; reflexivity. Qed.
End Runs.
