(* ===== verification/SdpaAgent.v ===== *)
(** * Agents

    [sdpa/daemon/Agent.cpp]: the jobs of an agent, between its masters and clients,
    its workers with their scheduler, and its workflow engine.

    The state is that of [scheduler.agent]: the scheduler, the map of jobs, and a
    world, which has the other members of the class.  What is sent over the network
    is recorded; the event queue is a list.  The callbacks that the workflow engine
    makes during a call are taken from its record when the call ends and run then,
    in their order, those they cause included ([seen] counts them).  Logging is left
    out, and the ids that [gen_id] yields are arguments. *)

From Stdlib Require Import SpecFloat.
From S2P Require Import Prelude Value Token Function SdpaJob SdpaWorker SdpaManager SdpaScheduler SdpaInvariant SdpaAssign SdpaRound Layer.

Module Agent.
Import scheduler.

Abbreviation address := WorkerManager.address_t.
(** a default constructed address *)
Definition no_address : address := replicate 16 "000"%char.

Inductive error_code : Type := SDPA_EBACKLOGFULL | SDPA_ENODE_SHUTDOWN | SDPA_EUNKNOWN.

(** [sdpa::events]; a delayed function call has what it captures *)
Inductive event (A : Type) : Type :=
| SubmitJobEvent (job_id : option job_id_t) (activity : A) (implementation : option string) (workers : gset worker_id_t)
| SubmitJobAckEvent (job_id : job_id_t)
| CancelJobEvent (job_id : job_id_t)
| CancelJobAckEvent (job_id : job_id_t)
| DeleteJobEvent (job_id : job_id_t)
| DeleteJobAckEvent (job_id : job_id_t)
| JobFinishedEvent (job_id : job_id_t) (result : A)
| JobFinishedAckEvent (job_id : job_id_t)
| JobFailedEvent (job_id : job_id_t) (error_message : string)
| JobFailedAckEvent (job_id : job_id_t)
| QueryJobStatusEvent (job_id : job_id_t)
| JobStatusReplyEvent (job_id : job_id_t) (status : job.code) (error_message : string)
| SubscribeEvent (job_id : job_id_t)
| SubscribeAckEvent (job_id : job_id_t)
| DiscoverJobStatesEvent (job_id discover_id : job_id_t)
| DiscoverJobStatesReplyEvent (discover_id : job_id_t) (discover_result : layer.discovery_info_t)
| ErrorEvent (code : error_code) (reason : string) (job_id : option job_id_t)
| WorkerRegistrationEvent (name : string) (capabilities : capability.set) (shared_memory : Z)
    (children_allowed : bool) (hostname : string)
| worker_registration_response (error : option exn)
| CapabilitiesGainedEvent (capabilities : capability.set)
| CapabilitiesLostEvent (capabilities : capability.set)
| BacklogNoLongerFullEvent
| put_token (job_id : job_id_t) (put_token_id place_name : string) (value : value_type)
| put_token_response (put_token_id : string) (error : option exn)
| workflow_response (job_id : job_id_t) (workflow_response_id place_name : string) (value : value_type)
| workflow_response_response (workflow_response_id : string) (content : exn + value_type)
| delayed_cancel (job_id : job_id_t)
| delayed_discover (discover_id job_id : job_id_t).
Arguments SubmitJobEvent {A}. Arguments SubmitJobAckEvent {A}. Arguments CancelJobEvent {A}.
Arguments CancelJobAckEvent {A}. Arguments DeleteJobEvent {A}. Arguments DeleteJobAckEvent {A}.
Arguments JobFinishedEvent {A}. Arguments JobFinishedAckEvent {A}. Arguments JobFailedEvent {A}.
Arguments JobFailedAckEvent {A}. Arguments QueryJobStatusEvent {A}. Arguments JobStatusReplyEvent {A}.
Arguments SubscribeEvent {A}. Arguments SubscribeAckEvent {A}. Arguments DiscoverJobStatesEvent {A}.
Arguments DiscoverJobStatesReplyEvent {A}. Arguments ErrorEvent {A}. Arguments WorkerRegistrationEvent {A}.
Arguments worker_registration_response {A}. Arguments CapabilitiesGainedEvent {A}.
Arguments CapabilitiesLostEvent {A}. Arguments BacklogNoLongerFullEvent {A}. Arguments put_token {A}.
Arguments put_token_response {A}. Arguments workflow_response {A}. Arguments workflow_response_response {A}.
Arguments delayed_cancel {A}. Arguments delayed_discover {A}.

(** [master_network_info] *)
Record master : Type := mk_master { m_host : string; m_port : string; m_address : option address }.

(** What an agent uses of activities, besides the workflow engine *)
Class JobActivity (A : Type) := {
  no_activity : A;
  handle_by_workflow_engine : A → bool;
  requirements_and_preferences : A → outcome exn requirements.type
}.

(** [{{}, {}, null_transfer_cost, 1.0, 0, {}}] *)
Definition no_preferences : requirements.type :=
  requirements.mk [] None (λ _, S754_zero false) (of_Z 1) 0 [].

(** [fhg::util::join (errors, ", ")] *)
Fixpoint join (l : list string) : string :=
  match l with
  | [] => ""
  | [x] => x
  | x :: l => x +:+ ", " +:+ join l
  end.

Section agent.
Context {A G : Type} `{layer.Activity A G} `{JobActivity A}.
Context `{AssertMode} `{Unordered} `{PriorityQueue} `{job.StateMachine}.
(** the time, the printer of exceptions, the name of the host *)
Context (now : worker_id_t → double) (print : exn → string) (hostname : string).

Record world : Type := mk_world {
  name : string;
  master_info : list master;
  subscriptions : gset (address * job_id_t);
  discover_sources : gmap (job_id_t * job_id_t) address;
  put_token_source : gmap string address;
  workflow_response_source : gmap string address;
  requirements : gmap job_id_t requirements.type;
  scheduling_requested : bool;
  event_queue : list (address * event A);
  workflow_engine : option (layer.type A G * layer.thread A);
  seen : nat;
  registrations : list master;
  network : list (address * event A)
}.
Definition set_master_info f w := mk_world (name w) (f (master_info w)) (subscriptions w) (discover_sources w) (put_token_source w) (workflow_response_source w) (requirements w) (scheduling_requested w) (event_queue w) (workflow_engine w) (seen w) (registrations w) (network w).
Definition set_subscriptions f w := mk_world (name w) (master_info w) (f (subscriptions w)) (discover_sources w) (put_token_source w) (workflow_response_source w) (requirements w) (scheduling_requested w) (event_queue w) (workflow_engine w) (seen w) (registrations w) (network w).
Definition set_discover_sources f w := mk_world (name w) (master_info w) (subscriptions w) (f (discover_sources w)) (put_token_source w) (workflow_response_source w) (requirements w) (scheduling_requested w) (event_queue w) (workflow_engine w) (seen w) (registrations w) (network w).
Definition set_put_token_source f w := mk_world (name w) (master_info w) (subscriptions w) (discover_sources w) (f (put_token_source w)) (workflow_response_source w) (requirements w) (scheduling_requested w) (event_queue w) (workflow_engine w) (seen w) (registrations w) (network w).
Definition set_workflow_response_source f w := mk_world (name w) (master_info w) (subscriptions w) (discover_sources w) (put_token_source w) (f (workflow_response_source w)) (requirements w) (scheduling_requested w) (event_queue w) (workflow_engine w) (seen w) (registrations w) (network w).
Definition set_requirements f w := mk_world (name w) (master_info w) (subscriptions w) (discover_sources w) (put_token_source w) (workflow_response_source w) (f (requirements w)) (scheduling_requested w) (event_queue w) (workflow_engine w) (seen w) (registrations w) (network w).
Definition set_scheduling_requested b w := mk_world (name w) (master_info w) (subscriptions w) (discover_sources w) (put_token_source w) (workflow_response_source w) (requirements w) b (event_queue w) (workflow_engine w) (seen w) (registrations w) (network w).
Definition set_event_queue f w := mk_world (name w) (master_info w) (subscriptions w) (discover_sources w) (put_token_source w) (workflow_response_source w) (requirements w) (scheduling_requested w) (f (event_queue w)) (workflow_engine w) (seen w) (registrations w) (network w).
Definition set_workflow_engine x w := mk_world (name w) (master_info w) (subscriptions w) (discover_sources w) (put_token_source w) (workflow_response_source w) (requirements w) (scheduling_requested w) (event_queue w) x (seen w) (registrations w) (network w).
Definition set_seen n w := mk_world (name w) (master_info w) (subscriptions w) (discover_sources w) (put_token_source w) (workflow_response_source w) (requirements w) (scheduling_requested w) (event_queue w) (workflow_engine w) n (registrations w) (network w).
Definition set_registrations f w := mk_world (name w) (master_info w) (subscriptions w) (discover_sources w) (put_token_source w) (workflow_response_source w) (requirements w) (scheduling_requested w) (event_queue w) (workflow_engine w) (seen w) (f (registrations w)) (network w).
Definition set_network f w := mk_world (name w) (master_info w) (subscriptions w) (discover_sources w) (put_token_source w) (workflow_response_source w) (requirements w) (scheduling_requested w) (event_queue w) (workflow_engine w) (seen w) (registrations w) (f (network w)).

Abbreviation agent := (scheduler.agent A world).
Abbreviation Ag := (M agent exn).

Definition update (f : world → world) : Ag unit := with_world (modify f).
(** [try { f } catch (...) { h }]: undefined behaviour cannot be caught *)
Definition catchable (e : exn) : bool :=
  match e with undefined _ | out_of_fuel => false | _ => true end.
Definition catching {X} (f : Ag X) (h : exn → Ag X) : Ag X :=
  λ a, match f a with (Throw e, a) => if catchable e then h e a else (Throw e, a) | r => r end.
Definition set_jobs (f : gmap job_id_t (job.type A) → gmap job_id_t (job.type A)) : Ag unit :=
  modify (λ a, mk_agent (sched a) (f (jobs a)) (scheduler.world a)).

(** ** Messages: [sendEventToOther], [delay], [request_scheduling] *)
Definition send (to_ : address) (e : event A) : Ag unit := update (set_network (λ l, l ++ [(to_, e)])).
Definition delay (e : event A) : Ag unit := update (set_event_queue (λ l, l ++ [(no_address, e)])).
Definition request_scheduling : Ag unit := update (set_scheduling_requested true).

(** [child_proxy (this, _worker_manager.address_by_worker (worker).get()->second)] *)
Definition worker_address (worker : worker_id_t) : Ag address :=
  get ≫= λ a : agent,
  lift (or_throw (undefined "dereference of none") (WorkerManager.address_by_worker worker (manager (sched a)))).
Definition send_to_workers (workers : gset worker_id_t) (e : event A) : Ag unit :=
  for_each (λ w, to_ ← worker_address w; send to_ e) (unordered_elements workers).
(** [parent_proxy (this, master)] *)
Definition master_address (i : nat) : Ag address :=
  get ≫= λ a : agent,
  lift (or_throw (undefined "dereference of none") (master_info (scheduler.world a) !! i ≫= m_address)).
Definition send_to_masters (e : event A) : Ag unit :=
  get ≫= λ a : agent,
  for_each (λ m, match m_address m with Some to_ => send to_ e | None => mret tt end) (master_info (scheduler.world a)).
Definition master_by_address (source : address) (w : world) : option nat :=
  fst <$> list_find (λ m, m_address m = Some source) (master_info w).

(** ** Jobs *)
Definition addJob_with (job_id : job_id_t) (activity : A) (source : job.source_t) (handler : job.handler_t)
    (r : requirements.type) : Ag unit :=
  get ≫= λ a : agent,
  if decide (is_Some (jobs a !! job_id)) then throw (runtime_error "job with same id already exists")
  else
    set_jobs (<[job_id := job.make no_activity job_id activity source handler]>) ≫= λ _,
    update (set_requirements (<[job_id := r]>)).
(** the requirements are those of the activity before it is moved *)
Definition addJob (job_id : job_id_t) (activity : A) (source : job.source_t) (handler : job.handler_t) : Ag unit :=
  r ← lift (requirements_and_preferences activity);
  addJob_with job_id activity source handler r.
Definition addJobWithNoPreferences (job_id : job_id_t) (activity : A) (source : job.source_t)
    (handler : job.handler_t) : Ag unit := addJob_with job_id activity source handler no_preferences.
Definition findJob (job_id : job_id_t) (a : agent) : option (job.type A) := jobs a !! job_id.
Definition require_job (job_id : job_id_t) (error : string) : Ag (job.type A) :=
  get ≫= λ a : agent, lift (or_throw (logic_error error) (findJob job_id a)).
Definition deleteJob (job_id : job_id_t) : Ag unit :=
  get ≫= λ a : agent,
  if decide (is_Some (jobs a !! job_id)) then
    set_jobs (delete job_id) ≫= λ _, update (set_requirements (delete job_id))
  else throw (runtime_error "deleteJob: job not found").

(** ** Subscriptions *)
Definition unsubscribe (id : address) : Ag unit := update (set_subscriptions (filter (λ x, x.1 ≠ id))).
Definition isSubscriber (id : address) (job_id : job_id_t) (a : agent) : bool :=
  bool_decide ((id, job_id) ∈ subscriptions (scheduler.world a)).
(** [again] is what is left of the event after the first subscriber has got it *)
Definition notify_subscribers (job_id : job_id_t) (e again : event A) : Ag unit :=
  get ≫= λ a : agent,
  (match unordered_elements (filter (λ x, x.2 = job_id) (subscriptions (scheduler.world a))) with
   | [] => mret tt
   | x :: l => send x.1 e ≫= λ _, for_each (λ x : address * job_id_t, send x.1 again) l
   end) ≫= λ _,
  update (set_subscriptions (filter (λ x, x.2 ≠ job_id))).

(** ** The workflow engine

    [callbacks] runs the callbacks that the engine has made. *)
Section engine.
Context (fuel : nat) (callbacks : Ag unit).

Definition engine (c : layer.call A) : Ag unit :=
  get ≫= λ a : agent,
  match workflow_engine (scheduler.world a) with
  | None => throw (undefined "null pointer")
  | Some x =>
      let '(o, x) := layer.perform fuel c x in
      update (set_workflow_engine (Some x)) ≫= λ _, callbacks ≫= λ _, lift o
  end.

(** ** The ends of jobs *)
Definition job_finished (job_id : job_id_t) (result : A) : Ag unit :=
  with_job job_id (job.JobFinished result) ≫= λ _,
  j ← with_job job_id get;
  (match job.source j with
   | job.job_source_wfe => engine (layer.Finished job_id (job.result j))
   | job.job_source_client => mret tt
   | job.job_source_master m => to_ ← master_address m; send to_ (JobFinishedEvent job_id (job.result j))
   end) ≫= λ _,
  notify_subscribers job_id (JobFinishedEvent job_id (job.result j)) (JobFinishedEvent job_id (job.result j)).
(** [error_message] returns a new string, which is moved into the first event *)
Definition job_failed (job_id : job_id_t) (reason : string) : Ag unit :=
  with_job job_id (job.JobFailed reason) ≫= λ _,
  j ← with_job job_id get;
  (match job.source j with
   | job.job_source_wfe => engine (layer.Failed job_id (job.error_message j))
   | job.job_source_client => mret tt
   | job.job_source_master m => to_ ← master_address m; send to_ (JobFailedEvent job_id (job.error_message j))
   end) ≫= λ _,
  notify_subscribers job_id (JobFailedEvent job_id (job.error_message j)) (JobFailedEvent job_id "").
Definition job_canceled (job_id : job_id_t) : Ag unit :=
  with_job job_id job.CancelJobAck ≫= λ _,
  j ← with_job job_id get;
  (match job.source j with
   | job.job_source_wfe => engine (layer.Canceled job_id)
   | job.job_source_client => mret tt
   | job.job_source_master m => to_ ← master_address m; send to_ (CancelJobAckEvent job_id)
   end) ≫= λ _,
  notify_subscribers job_id (CancelJobAckEvent job_id) (CancelJobAckEvent job_id).

Definition workflow_engine_submit (job_id : job_id_t) : Ag bool :=
  catching
    (j ← with_job job_id get;
     engine (layer.Submit job_id (job.activity j)) ≫= λ _,
     with_job job_id job.Dispatch ≫= λ _, mret true)
    (λ e, job_failed job_id (print e) ≫= λ _, mret false).

Definition cancel_worker_handled_job (job_id : job_id_t) : Ag unit :=
  get ≫= λ a : agent,
  match findJob job_id a with
  | None => mret tt
  | Some j =>
      let cancel_already_requested :=
        bool_decide (job.getStatus j = job.CANCELING) || bool_decide (job.getStatus j = job.CANCELED) in
      with_job job_id job.CancelJob ≫= λ _,
      let workers_to_cancel := WorkerManager.workers_to_send_cancel job_id (manager (sched a)) in
      if decide (workers_to_cancel = ∅) then
        job_canceled job_id ≫= λ _,
        with_scheduler (delete_job job_id) ≫= λ _,
        with_scheduler (releaseReservation now job_id) ≫= λ _,
        with_scheduler (delete_pending_job job_id) ≫= λ _,
        match job.source j with job.job_source_client => mret tt | _ => deleteJob job_id end
      else if cancel_already_requested then mret tt
      else send_to_workers workers_to_cancel (CancelJobEvent job_id)
  end.

(** ** The callbacks of the workflow engine *)
Definition submit (job_id : job_id_t) (activity : A) : Ag unit :=
  catching
    (if handle_by_workflow_engine activity then
       addJobWithNoPreferences job_id activity job.job_source_wfe job.job_handler_wfe ≫= λ _,
       workflow_engine_submit job_id ≫= λ _, mret tt
     else
       addJob job_id activity job.job_source_wfe job.job_handler_worker ≫= λ _,
       with_scheduler (enqueueJob job_id) ≫= λ _,
       request_scheduling)
    (λ e, engine (layer.Failed job_id (print e))).
Definition cancel (job_id : job_id_t) : Ag unit := delay (delayed_cancel job_id).
Definition finished (id : job_id_t) (result : A) : Ag unit :=
  require_job id ("got finished message for old/unknown Job " +:+ id) ≫= λ _,
  job_finished id result.
Definition failed (id : job_id_t) (reason : string) : Ag unit :=
  require_job id ("got failed message for old/unknown Job " +:+ id) ≫= λ _,
  job_failed id reason.
Definition canceled (id : job_id_t) : Ag unit :=
  j ← require_job id "rts_canceled (unknown job)";
  job_canceled id ≫= λ _,
  match job.source j with job.job_source_master _ => deleteJob id | _ => mret tt end.
Definition discover (discover_id id : job_id_t) : Ag unit := delay (delayed_discover discover_id id).
Definition discovered (discover_id : job_id_t) (info : layer.discovery_info_t) : Ag unit :=
  get ≫= λ a : agent,
  let source_id := (discover_id, layer.job_id info) in
  to_ ← lift (or_throw out_of_range (discover_sources (scheduler.world a) !! source_id));
  send to_ (DiscoverJobStatesReplyEvent discover_id info) ≫= λ _,
  update (set_discover_sources (delete source_id)).
(** [take] *)
Definition taken (m : gmap string address) (key : string) : Ag address :=
  lift (or_throw (runtime_error ("take: key " +:+ key +:+ " not found")) (m !! key)).
Definition token_put (put_token_id : string) (error : option exn) : Ag unit :=
  get ≫= λ a : agent,
  to_ ← taken (put_token_source (scheduler.world a)) put_token_id;
  update (set_put_token_source (delete put_token_id)) ≫= λ _,
  send to_ (put_token_response put_token_id error).
Definition answer_workflow_response (id : string) (content : exn + value_type) : Ag unit :=
  get ≫= λ a : agent,
  to_ ← taken (workflow_response_source (scheduler.world a)) id;
  update (set_workflow_response_source (delete id)) ≫= λ _,
  send to_ (workflow_response_response id content).

Definition callback (e : layer.rts A) : Ag unit :=
  match e with
  | layer.rts_submit id a => submit id a
  | layer.rts_cancel id => cancel id
  | layer.rts_finished id a => finished id a
  | layer.rts_failed id reason => failed id reason
  | layer.rts_canceled id => canceled id
  | layer.rts_discover discover_id id => discover discover_id id
  | layer.rts_discovered discover_id info => discovered discover_id info
  | layer.rts_token_put put_token_id error => token_put put_token_id error
  | layer.rts_workflow_response id content => answer_workflow_response id content
  end.
End engine.

(** the callbacks that have been made and not run yet *)
Fixpoint callbacks (depth fuel : nat) : Ag unit :=
  get ≫= λ a : agent,
  match workflow_engine (scheduler.world a) with
  | None => mret tt
  | Some (l, _) =>
      let made := drop (seen (scheduler.world a)) (layer.sent l) in
      update (set_seen (length (layer.sent l))) ≫= λ _,
      match depth, made with
      | _, [] => mret tt
      | O, _ => throw out_of_fuel
      | S depth, _ => for_each (callback fuel (callbacks depth fuel)) made
      end
  end.

(** ** Events *)
Section handlers.
Context (depth fuel : nat).
Abbreviation run_callbacks := (callbacks depth fuel).
Abbreviation wfe := (engine fuel run_callbacks).
Definition hasWorkflowEngine (a : agent) : bool := bool_decide (is_Some (workflow_engine (scheduler.world a))).

Definition worker_of (source : address) : Ag worker_id_t :=
  get ≫= λ a : agent,
  lift (or_throw (undefined "dereference of none") (WorkerManager.worker_by_address source (manager (sched a)))).
Definition require_worker (source : address) (error : string) : Ag worker_id_t :=
  get ≫= λ a : agent,
  lift (or_throw (runtime_error error) (WorkerManager.worker_by_address source (manager (sched a)))).

Definition handleDeleteJobEvent (source : address) (id : job_id_t) : Ag unit :=
  j ← require_job id "delete_job for unknown job";
  if negb (job.is_terminal (job.getStatus j)) then
    throw (runtime_error "Cannot delete a job which is in a non-terminal state.")
  else match job.source j with
       | job.job_source_client => deleteJob id ≫= λ _, send source (DeleteJobAckEvent id)
       | _ => throw (invalid_argument "tried deleting a job not submitted by a client")
       end.

Definition handleCancelJobEvent (source : address) (id : job_id_t) : Ag unit :=
  j ← require_job id "cancel_job for unknown job";
  get ≫= λ a : agent,
  if decide (job.getStatus j = job.CANCELING) then
    throw (runtime_error "A cancelation request for this job was already posted!")
  else if job.is_terminal (job.getStatus j) then
    throw (runtime_error ("Cannot cancel an already terminated job, its current status is: "
                          +:+ job.show (job.getStatus j)))
  else if match job.source j with
          | job.job_source_master m =>
              negb (bool_decide ((master_info (scheduler.world a) !! m ≫= m_address) = Some source))
          | _ => false
          end then
    throw (logic_error "trying to cancel job owned by different master")
  else
    (if match job.source j with
        | job.job_source_wfe => true
        | job.job_source_client => negb (isSubscriber source id a)
        | job.job_source_master _ => false
        end
     then send source (CancelJobAckEvent id) else mret tt) ≫= λ _,
    match job.handler j with
    | job.job_handler_wfe =>
        if decide (job.getStatus j = job.RUNNING) then
          with_job id job.CancelJob ≫= λ _, wfe (layer.Cancel id)
        else job_canceled fuel run_callbacks id ≫= λ _, deleteJob id
    | job.job_handler_worker => cancel_worker_handled_job fuel run_callbacks id
    end.

(** [new_id] is what [gen_id] yields *)
Definition handleSubmitJobEvent (new_id : job_id_t) (source : address) (job_id : option job_id_t) (activity : A) :
    Ag unit :=
  get ≫= λ a : agent,
  match job_id ≫= λ id, id' ← findJob id a; Some id with
  | Some id => send source (SubmitJobAckEvent id)
  | None =>
      let id := default new_id job_id in
      let src := match master_by_address source (scheduler.world a) with
                 | Some m => job.job_source_master m | None => job.job_source_client end in
      let handler := if hasWorkflowEngine a then job.job_handler_wfe else job.job_handler_worker in
      addJobWithNoPreferences id activity src handler ≫= λ _,
      send source (SubmitJobAckEvent id) ≫= λ _,
      match handler with
      | job.job_handler_wfe => workflow_engine_submit fuel run_callbacks id ≫= λ _, mret tt
      | job.job_handler_worker => with_scheduler (enqueueJob id) ≫= λ _, request_scheduling
      end
  end.

(** the capabilities of others, one step deeper *)
Definition isOwnCapability (c : capability.type) (a : agent) : bool :=
  bool_decide (capability.owner c = name (scheduler.world a)).
Definition inherited (capabilities : capability.set) (a : agent) : capability.set :=
  foldl (λ s c, if isOwnCapability c a then s else capability.insert (capability.with_increased_depth c) s) ∅
    (capability.members capabilities).

Definition handleWorkerRegistrationEvent (source : address) (worker : string) (capabilities : capability.set)
    (shared_memory : Z) (children_allowed : bool) (host : string) : Ag unit :=
  catching
    (get ≫= λ a : agent,
     let workerCpbSet := inherited capabilities a in
     with_scheduler (on_manager (WorkerManager.addWorker (now worker) worker workerCpbSet shared_memory
                                   children_allowed host source)) ≫= λ _,
     request_scheduling ≫= λ _,
     (if decide (workerCpbSet = ∅) then mret tt else send_to_masters (CapabilitiesGainedEvent workerCpbSet)) ≫= λ _,
     send source (worker_registration_response None))
    (λ e, send source (worker_registration_response (Some e))).

(** [child_proxy (this, _worker_manager.address_by_worker (worker).get()->second).cancel_job (job)] *)
Definition cancel_worker_job (m : WorkerManager.type) (worker : worker_id_t) (id : job_id_t) : M world exn unit :=
  to_ ← lift (or_throw (undefined "dereference of none") (WorkerManager.address_by_worker worker m));
  modify (set_network (λ l, l ++ [(to_, CancelJobEvent id)])).
Definition lose_master (i : nat) : Ag unit :=
  get ≫= λ a : agent,
  match master_info (scheduler.world a) !! i with
  | None => mret tt
  | Some m =>
      let m := mk_master (m_host m) (m_port m) None in
      update (set_master_info (<[i := m]>)) ≫= λ _,
      update (set_registrations (λ l, l ++ [m]))
  end.
Definition handle_shutdown (source : address) (backlog_full : bool) : Ag unit :=
  get ≫= λ a : agent,
  unsubscribe source ≫= λ _,
  match WorkerManager.worker_by_address source (manager (sched a)) with
  | Some worker =>
      for_each (λ m, match m_address m with
                     | Some to_ => c ← lift (WorkerManager.worker_capabilities worker (manager (sched a)));
                                   send to_ (CapabilitiesLostEvent c)
                     | None => mret tt
                     end) (master_info (scheduler.world a)) ≫= λ _,
      reschedule_worker_jobs_and_maybe_remove_worker now (cancel_worker_job (manager (sched a))) worker
        backlog_full ≫= λ _,
      request_scheduling
  | None =>
      match master_by_address source (scheduler.world a) with
      | Some i => lose_master i
      | None => mret tt
      end
  end.
Definition handleErrorEvent (source : address) (code : error_code) (job_id : option job_id_t) : Ag unit :=
  match code with
  | SDPA_EBACKLOGFULL =>
      get ≫= λ a : agent,
      id ← lift (or_throw (undefined "dereference of none") job_id);
      match findJob id a, WorkerManager.worker_by_address source (manager (sched a)) with
      | None, _ => throw (runtime_error "Got SDPA_EBACKLOGFULL error related to unknown job!")
      | _, None => throw (runtime_error ("Unknown entity (unregister worker) rejected the job " +:+ id))
      | _, _ => handle_shutdown source true
      end
  | SDPA_ENODE_SHUTDOWN => handle_shutdown source false
  | SDPA_EUNKNOWN => mret tt
  end.

(** *** Results of workers *)
Definition failure_message (x : worker_id_t * Reservation.terminal_state A) : option string :=
  match x.2 with Reservation.s_failed message => Some (x.1 +:+ ": " +:+ message) | _ => None end.
(** [std::map]: the results in the order of the workers *)
Definition failures (results : gmap worker_id_t (Reservation.terminal_state A)) : list string :=
  omap (λ w, results !! w ≫= λ r, failure_message (w, r)) (ordered (dom results)).
Definition handle_job_termination (id : job_id_t) : Ag unit :=
  get ≫= λ a : agent,
  results ← lift (get_aggregated_results_if_all_terminated id (sched a));
  match results with
  | None => mret tt
  | Some (individual_results, last_success) =>
      canceled ← lift (reservation_canceled id (sched a));
      j ← with_job id get;
      let canceling := bool_decide (job.getStatus j = job.CANCELING) in
      if canceled && negb canceling then
        with_scheduler (releaseReservation now id) ≫= λ _,
        with_scheduler (enqueueJob id) ≫= λ _,
        request_scheduling
      else
        (if canceling then job_canceled fuel run_callbacks id
         else match failures individual_results with
              | [] => job_finished fuel run_callbacks id last_success
              | errors => job_failed fuel run_callbacks id (join errors)
              end) ≫= λ _,
        with_scheduler (releaseReservation now id) ≫= λ _,
        request_scheduling ≫= λ _,
        match job.source j with job.job_source_wfe => deleteJob id | _ => mret tt end
  end.
Definition handle_result (source : address) (id : job_id_t) (error : string)
    (result : Reservation.terminal_state A) : Ag unit :=
  require_job id error ≫= λ _,
  w ← worker_of source;
  with_scheduler (store_result w id result) ≫= λ _,
  handle_job_termination id.
Definition handleJobFinishedEvent (source : address) (id : job_id_t) (result : A) : Ag unit :=
  handle_result source id "job_finished for unknown job" (Reservation.s_finished result) ≫= λ _,
  send source (JobFinishedAckEvent id).
Definition handleJobFailedEvent (source : address) (id : job_id_t) (message : string) : Ag unit :=
  handle_result source id "job_failed for unknown job" (Reservation.s_failed message) ≫= λ _,
  send source (JobFailedAckEvent id).
Definition handleCancelJobAckEvent (source : address) (id : job_id_t) : Ag unit :=
  handle_result source id "cancel_job_ack for unknown job" Reservation.s_canceled.

(** *** Masters and capabilities *)
Definition handle_worker_registration_response (source : address) (error : option exn) : Ag unit :=
  get ≫= λ a : agent,
  match master_by_address source (scheduler.world a), error with
  | None, _ => throw (runtime_error "workerRegistrationAckEvent from source not in list of masters")
  | Some _, Some e => throw e
  | Some _, None => mret tt
  end.
Definition handleCapabilitiesGainedEvent (source : address) (capabilities : capability.set) : Ag unit :=
  w ← require_worker source "capabilities_gained for unknown worker";
  get ≫= λ a : agent,
  let workerCpbSet := inherited capabilities a in
  modified ← with_scheduler (on_manager (WorkerManager.add_worker_capabilities w workerCpbSet));
  if (modified : bool) then
    request_scheduling ≫= λ _,
    if decide (workerCpbSet = ∅) then mret tt else send_to_masters (CapabilitiesGainedEvent workerCpbSet)
  else mret tt.
Definition handleCapabilitiesLostEvent (source : address) (capabilities : capability.set) : Ag unit :=
  w ← require_worker source "capabilities_lost for unknown worker";
  removed ← with_scheduler (on_manager (WorkerManager.remove_worker_capabilities w capabilities));
  if (removed : bool) then send_to_masters (CapabilitiesLostEvent capabilities) else mret tt.

(** *** Subscribers, acknowledgements *)
Definition handleSubscribeEvent (source : address) (id : job_id_t) : Ag unit :=
  get ≫= λ a : agent,
  match findJob id a with
  | None => throw (runtime_error ("Could not subscribe for the job" +:+ id +:+ ". The job does not exist!"))
  | Some j =>
      send source (SubscribeAckEvent id) ≫= λ _,
      match job.getStatus j with
      | job.FINISHED => send source (JobFinishedEvent id (job.result j))
      | job.FAILED => send source (JobFailedEvent id (job.error_message j))
      | job.CANCELED => send source (CancelJobAckEvent id)
      | job.PENDING | job.RUNNING | job.CANCELING => update (set_subscriptions (λ s, {[(source, id)]} ∪ s))
      end
  end.
Definition handleSubmitJobAckEvent (source : address) (id : job_id_t) : Ag unit :=
  get ≫= λ a : agent,
  match findJob id a with
  | None => throw (runtime_error ("Could not acknowledge job: " +:+ id +:+ " not found"))
  | Some j =>
      if decide (job.getStatus j = job.CANCELING) then mret tt
      else
        w ← require_worker source "submit_job_ack for unknown worker";
        with_job id job.Dispatch ≫= λ _,
        with_scheduler (on_manager (WorkerManager.acknowledge_job_sent_to_worker id w))
  end.
(** [handleJobFinishedAckEvent], [handleJobFailedAckEvent] *)
Definition handle_job_ack (id : job_id_t) : Ag unit :=
  get ≫= λ a : agent,
  match findJob id a with
  | None => throw (runtime_error "Couldn't find the job!")
  | Some _ => deleteJob id
  end.
Definition handleBacklogNoLongerFullEvent (source : address) : Ag unit :=
  w ← worker_of source;
  with_scheduler (on_manager (WorkerManager.set_worker_backlog_full w false)) ≫= λ _,
  request_scheduling.
Definition handleQueryJobStatusEvent (source : address) (id : job_id_t) : Ag unit :=
  get ≫= λ a : agent,
  match findJob id a with
  | None => throw (runtime_error ("Inexistent job: " +:+ id))
  | Some j => send source (JobStatusReplyEvent id (job.getStatus j) (job.error_message j))
  end.

(** *** Discovery *)
Definition findSubmOrAckWorkers (id : job_id_t) (a : agent) : gset worker_id_t :=
  WorkerManager.findSubmOrAckWorkers id (manager (sched a)).
Definition handle_delayed_discover (discover_id id : job_id_t) : Ag unit :=
  get ≫= λ a : agent,
  match findJob id a with
  | None => wfe (layer.Discovered discover_id (layer.mk_info id None []))
  | Some j =>
      match job.getStatus j, job.handler j with
      | job.RUNNING, job.job_handler_worker =>
          send_to_workers (findSubmOrAckWorkers id a) (DiscoverJobStatesEvent id discover_id)
      | status, _ => wfe (layer.Discovered discover_id (layer.mk_info id (Some status) []))
      end
  end.
Definition handleDiscoverJobStatesEvent (source : address) (id discover_id : job_id_t) : Ag unit :=
  get ≫= λ a : agent,
  match findJob id a with
  | None => send source (DiscoverJobStatesReplyEvent discover_id (layer.mk_info id None []))
  | Some j =>
      match job.getStatus j with
      | job.RUNNING =>
          update (set_discover_sources (λ m, (emplace (discover_id, id) source m).1)) ≫= λ _,
          match job.handler j with
          | job.job_handler_worker =>
              send_to_workers (findSubmOrAckWorkers id a) (DiscoverJobStatesEvent id discover_id)
          | job.job_handler_wfe => wfe (layer.Discover discover_id id)
          end
      | status => send source (DiscoverJobStatesReplyEvent discover_id (layer.mk_info id (Some status) []))
      end
  end.
Definition handleDiscoverJobStatesReplyEvent (discover_id : job_id_t) (result : layer.discovery_info_t) : Ag unit :=
  get ≫= λ a : agent,
  let source_id := (discover_id, layer.job_id result) in
  match discover_sources (scheduler.world a) !! source_id with
  | None => wfe (layer.Discovered discover_id result)
  | Some to_ =>
      send to_ (DiscoverJobStatesReplyEvent discover_id result) ≫= λ _,
      update (set_discover_sources (delete source_id))
  end.

(** *** Tokens for running workflows *)
Definition handle_put_token (source : address) (id : job_id_t) (put_token_id place_name : string)
    (value : value_type) : Ag unit :=
  catching
    (get ≫= λ a : agent,
     match findJob id a with
     | Some j =>
         if decide (job.getStatus j = job.RUNNING) then
           update (set_put_token_source (λ m, (emplace put_token_id source m).1)) ≫= λ _,
           match job.handler j with
           | job.job_handler_worker =>
               send_to_workers (findSubmOrAckWorkers id a) (put_token id put_token_id place_name value)
           | job.job_handler_wfe => wfe (layer.Put id put_token_id place_name value)
           end
         else throw (runtime_error ("unable to put token: " +:+ id +:+ " unknown or not running"))
     | None => throw (runtime_error ("unable to put token: " +:+ id +:+ " unknown or not running"))
     end)
    (λ e, send source (put_token_response put_token_id (Some e))).
Definition handle_workflow_response (source : address) (id : job_id_t) (response_id place_name : string)
    (value : value_type) : Ag unit :=
  catching
    (get ≫= λ a : agent,
     match findJob id a with
     | Some j =>
         if decide (job.getStatus j = job.RUNNING) then
           update (set_workflow_response_source (λ m, (emplace response_id source m).1)) ≫= λ _,
           match job.handler j with
           | job.job_handler_worker =>
               send_to_workers (findSubmOrAckWorkers id a) (workflow_response id response_id place_name value)
           | job.job_handler_wfe => wfe (layer.Request id response_id place_name value)
           end
         else throw (runtime_error ("unable to request workflow response: " +:+ id +:+ " unknown or not running"))
     | None => throw (runtime_error ("unable to request workflow response: " +:+ id +:+ " unknown or not running"))
     end)
    (λ e, send source (workflow_response_response response_id (inl e))).

(** ** The event thread

    [handleBy]; the events an agent has no handler for throw *)
Definition handle (new_id : job_id_t) (source : address) (e : event A) : Ag unit :=
  match e with
  | SubmitJobEvent job_id activity _ _ => handleSubmitJobEvent new_id source job_id activity
  | SubmitJobAckEvent id => handleSubmitJobAckEvent source id
  | CancelJobEvent id => handleCancelJobEvent source id
  | CancelJobAckEvent id => handleCancelJobAckEvent source id
  | DeleteJobEvent id => handleDeleteJobEvent source id
  | DeleteJobAckEvent _ => throw (runtime_error "UNHANDLED EVENT: DeleteJobAck")
  | JobFinishedEvent id result => handleJobFinishedEvent source id result
  | JobFinishedAckEvent id | JobFailedAckEvent id => handle_job_ack id
  | JobFailedEvent id message => handleJobFailedEvent source id message
  | QueryJobStatusEvent id => handleQueryJobStatusEvent source id
  | JobStatusReplyEvent _ _ _ => throw (runtime_error "UNHANDLED EVENT: JobStatusReply")
  | SubscribeEvent id => handleSubscribeEvent source id
  | SubscribeAckEvent _ => throw (runtime_error "UNHANDLED EVENT: SubscribeAck")
  | DiscoverJobStatesEvent id discover_id => handleDiscoverJobStatesEvent source id discover_id
  | DiscoverJobStatesReplyEvent discover_id result => handleDiscoverJobStatesReplyEvent discover_id result
  | ErrorEvent code _ job_id => handleErrorEvent source code job_id
  | WorkerRegistrationEvent worker capabilities shared_memory children_allowed host =>
      handleWorkerRegistrationEvent source worker capabilities shared_memory children_allowed host
  | worker_registration_response error => handle_worker_registration_response source error
  | CapabilitiesGainedEvent capabilities => handleCapabilitiesGainedEvent source capabilities
  | CapabilitiesLostEvent capabilities => handleCapabilitiesLostEvent source capabilities
  | BacklogNoLongerFullEvent => handleBacklogNoLongerFullEvent source
  | put_token id put_token_id place_name value => handle_put_token source id put_token_id place_name value
  | put_token_response put_token_id error => token_put put_token_id error
  | workflow_response id response_id place_name value =>
      handle_workflow_response source id response_id place_name value
  | workflow_response_response response_id content => answer_workflow_response response_id content
  | delayed_cancel id => cancel_worker_handled_job fuel run_callbacks id
  | delayed_discover discover_id id => handle_delayed_discover discover_id id
  end.
Definition handle_event (new_id : job_id_t) (source : address) (e : event A) : Ag unit :=
  catching (handle new_id source e) (λ x, send source (ErrorEvent SDPA_EUNKNOWN (print x) None)).
(** the body of the loop of [handle_events] *)
Definition handle_next (new_id : job_id_t) : Ag unit :=
  get ≫= λ a : agent,
  match event_queue (scheduler.world a) with
  | [] => mret tt
  | (source, e) :: rest => update (set_event_queue (λ _, rest)) ≫= λ _, handle_event new_id source e
  end.

(** ** The scheduling thread *)
Definition serveJob (a : agent) (workers : gset worker_id_t) (implementation : option string) (id : job_id_t) :
    M world exn unit :=
  match findJob id a with
  | None => mret tt
  | Some j =>
      for_each (λ w,
        to_ ← lift (or_throw (undefined "dereference of none") (WorkerManager.address_by_worker w (manager (sched a))));
        modify (set_network (λ l, l ++ [(to_, SubmitJobEvent (Some (job.id j)) (job.activity j) implementation workers)])))
        (ordered workers)
  end.
(** [findJob (job_id)->requirements_and_preferences()] *)
Definition requirements_of (a : agent) (id : job_id_t) : requirements.type :=
  default no_preferences (requirements (scheduler.world a) !! id).
Definition schedule : Ag (gset job_id_t) :=
  λ a, let '(o, (s, w)) := Round.scheduling_round no_activity now (requirements_of a) (serveJob a)
                             (length (jobs_to_schedule (sched a))) (sched a, scheduler.world a) in
       (o, mk_agent s (jobs a) w).
(** the body of the loop of [scheduling_thread] *)
Definition scheduling_thread : Ag (gset job_id_t) :=
  get ≫= λ a : agent,
  if scheduling_requested (scheduler.world a) then
    update (set_scheduling_requested false) ≫= λ _,
    if forallb (λ id, bool_decide (is_Some (jobs a !! id))) (jobs_to_schedule (sched a)) then schedule
    else throw (undefined "null pointer")
  else mret ∅.

(** ** Registration *)
Definition requestRegistration (set_address : address → Ag unit) (m : master) (connected : option address) : Ag unit :=
  (match connected with
   | Some x => set_address x
   | None => update (set_registrations (λ l, l ++ [m]))
   end) ≫= λ _,
  get ≫= λ a : agent,
  to_ ← lift (or_throw (undefined "dereference of none") (match connected with Some x => Some x | None => m_address m end));
  send to_ (WorkerRegistrationEvent (name (scheduler.world a)) (WorkerManager.getCapabilities ∅ (manager (sched a))) 0 true hostname).
(** [do_registration_after_sleep]: the thread has a copy of the master *)
Definition do_registration (i : nat) (connected : option address) : Ag unit :=
  get ≫= λ a : agent,
  match registrations (scheduler.world a) !! i with
  | None => mret tt
  | Some m => update (set_registrations (λ l, delete i l)) ≫= λ _, requestRegistration (λ _, mret tt) m connected
  end.
(** the constructor; [connected] are the results of [connect_to] *)
Definition set_master_address (i : nat) (x : address) : Ag unit :=
  update (set_master_info (alter (λ m, mk_master (m_host m) (m_port m) (Some x)) i)).
Definition make (agent_name : string) (masters : list master) (create_wfe : option G) : agent :=
  mk_agent scheduler.empty ∅
    (mk_world agent_name masters ∅ ∅ ∅ ∅ ∅ false []
       ((λ g, (layer.make g, layer.Waiting)) <$> create_wfe) 0 [] []).
Definition register_all (connected : list (option address)) : Ag unit :=
  get ≫= λ a : agent,
  for_each (λ x : nat * master, requestRegistration (set_master_address x.1) x.2 (default None (connected !! x.1)))
    (imap pair (master_info (scheduler.world a))).
End handlers.
End agent.
End Agent.
