(* ===== verification/SdpaActivity.v ===== *)
(** * Nets as the activities of an agent

    What an agent asks of an activity before it is scheduled
    ([we/type/activity.cpp]): whether the workflow engine handles it, and its
    requirements and preferences, with the memory that a module call transfers and
    buffers.  The costs that the virtual memory gives for transfers are an argument. *)

From Stdlib Require Import SpecFloat.
From S2P Require Import Prelude Value Token Function ReadShow Expr Parser ModuleCall Net NetFire SdpaJob SdpaWorker SdpaManager SdpaScheduler SdpaFrame SdpaInvariant SdpaAssign SdpaRound SdpaAgent.

Module activity_schedule.
Section schedule.
Context `{Float.Libm}.
(** the order of evaluation in [zip], [transfer_costs] of the virtual memory *)
Context (local_first : bool) (virtual_memory_api : option (list (module_call.range * module_call.range) → string → double)).

Definition evaluation_context (a : activity_t) : outcome exn context.type :=
  match activity.get_net a with
  | Some _ => Throw (logic_error "evaluation context for net is undefined")
  | None =>
      let '(o, c) := for_each (λ top : token_on_port,
        p ← lift (or_throw out_of_range (transition.ports_input (activity.transition a) !! top.2));
        modify (context.bind_ref (port.name p) top.1)) (activity.input a) context.empty in
      o ≫= λ _, Ret c
  end.

(** an expression in the properties of the transition *)
Definition eval_property (path : list string) (a : activity_t) (c : context.type) : outcome exn (option value_type) :=
  match Path.peek path (transition.prop (activity.transition a)) with
  | None => Ret None
  | Some v => s ← fire.get_string v; e ← parser.make s; v ← (eval.eval_all e c).1; Ret (Some v)
  end.
(** an unsigned long is kept at its width *)
Definition eval_schedule_data (key : string) (a : activity_t) (c : context.type) : outcome exn (option Z) :=
  o ← eval_property ["fhg"; "drts"; "schedule"; key] a c;
  match o with
  | None => Ret None
  | Some v => n ← fire.get_ulong v; Ret (Some (w64 n))
  end.
Definition eval_dynamic_requirement (a : activity_t) (c : context.type) : outcome exn (option string) :=
  o ← eval_property ["fhg"; "drts"; "require"; "dynamic_requirement"] a c;
  match o with
  | None => Ret None
  | Some v => s ← fire.get_string v; Ret (Some s)
  end.

Definition handle_by_workflow_engine (a : activity_t) : bool := bool_decide (is_Some (activity.get_net a)).
(** the costs of the transfers that are known before the call, the size of the buffers *)
Definition module_memory (m : module_call.module_call_t) (c : context.type) : outcome exn ((string → double) * Z) :=
  gets ← module_call.gets local_first m c;
  puts_before ← module_call.puts_evaluated_before_call local_first m c;
  costs ← match gets ++ puts_before, virtual_memory_api with
          | [], _ => Ret (λ _, S754_zero false)
          | _, None => Throw (logic_error "vmem transfers without vmem knowledge in agent")
          | vm_transfers, Some transfer_costs => Ret (transfer_costs vm_transfers)
          end;
  total ← module_call.memory_buffer_size_total m c;
  Ret (costs, total).
Definition requirements_and_preferences (a : activity_t) : outcome exn requirements.type :=
  c ← evaluation_context a;
  num_worker ← eval_schedule_data "num_worker" a c;
  let t := activity.transition a in
  if decide (num_worker = Some 0%Z) then Throw (logic_error "schedule_data: num_worker == 0UL")
  else if (1 <? default 1 num_worker)%Z && negb (bool_decide (transition.preferences t = [])) then
    Throw (runtime_error "Not allowed to use coallocation for activities with multiple module implementations!")
  else
    dynamic_requirement ← eval_dynamic_requirement a c;
    memory ← match transition.data t with
             | transition.module_call m => module_memory m c
             | _ => Ret (λ _, S754_zero false, 0%Z)
             end;
    requirements.make
      (((λ x : string * bool, requirements.Build_requirement_t x.1 x.2) <$> transition.requirements t) ++
       match dynamic_requirement with Some r => [requirements.Build_requirement_t r true] | None => [] end)
      num_worker memory.1 (of_Z 1) memory.2 (transition.preferences t).

Lemma requirements_schedulable (a : activity_t) r :
  requirements_and_preferences a = Ret r → Round.schedulable r = true.
Proof.
  unfold requirements_and_preferences. intros (c & _ & Hr)%obind_ret_inv.
  apply obind_ret_inv in Hr as (n & Hn & Hr). case_decide as H0; [done|].
  destruct ((1 <? default 1 n)%Z && negb _) eqn:Hc; [done|].
  apply obind_ret_inv in Hr as (d & _ & Hr). apply obind_ret_inv in Hr as (m & _ & Hr).
  unfold requirements.make in Hr. rewrite decide_False in Hr by done. case_decide; [|done]. injection Hr as <-.
  unfold Round.schedulable, requirements.numWorkers. simpl. apply andb_true_iff. split.
  - apply Z.ltb_lt. unfold eval_schedule_data in Hn. apply obind_ret_inv in Hn as (o & _ & Hn).
    destruct o as [v|]; [|injection Hn as <-; simpl; lia]. apply obind_ret_inv in Hn as (z & _ & Hn). injection Hn as <-. simpl.
    pose proof (w64_range z) as [? _]. assert (w64 z ≠ 0)%Z by congruence. lia.
  - apply orb_true_iff. apply andb_false_iff in Hc as [Hc%Z.ltb_ge|Hc%negb_false_iff]; [right; by apply Z.leb_le|by left].
Qed.

(** [activity_t] as the agent's activity *)
#[global] Instance net_jobs : Agent.JobActivity activity_t := {
  Agent.no_activity := activity.make (transition.mk "<<transition unknown>>" (transition.expression []) None ∅ ∅ ∅ 0 (Vstruct []) [] [] 0 None) None;
  Agent.handle_by_workflow_engine := handle_by_workflow_engine;
  Agent.requirements_and_preferences := requirements_and_preferences
}.
End schedule.
End activity_schedule.
