(* ===== verification/SdpaAgentSpec.v ===== *)
(** * The jobs of an agent and its scheduler

    What holds between the events, rounds of scheduling and steps of the workflow
    engine: queues, reservations and workers agree, and the scheduler knows the live
    jobs that are handled by workers. *)

From Stdlib Require Import SpecFloat.
From S2P Require Import Prelude Value Token Function SdpaJob SdpaWorker SdpaManager SdpaScheduler SdpaInvariant SdpaAssign SdpaRound SdpaLost Layer SdpaAgent.

Import equivalence_class WorkerManager scheduler Bookkeeping Round Agent.

Module AgentSpec.
Create HintDb inert.

(** What is not undefined behaviour *)
Definition defined {X} (o : outcome exn X) : bool :=
  match o with Throw (undefined _) => false | _ => true end.

Section wp.
Context {S : Type}.
Implicit Types (s : S).

(** ** Weakest preconditions, for all outcomes that are defined *)
Definition wp {X} (f : M S exn X) (Q : outcome exn X → S → Prop) s : Prop :=
  defined (f s).1 = true → Q (f s).1 (f s).2.

Lemma wp_mono {X} (f : M S exn X) (Q R : outcome exn X → S → Prop) s :
  wp f Q s → (∀ o s', defined o = true → Q o s' → R o s') → wp f R s.
Proof. unfold wp. eauto. Qed.
Lemma wp_mret {X} (x : X) (Q : outcome exn X → S → Prop) s : Q (Ret x) s → wp (mret x) Q s.
Proof. by intros ? ?. Qed.
Lemma wp_throw {X} e (Q : outcome exn X → S → Prop) s : (defined (X := X) (Throw e) = true → Q (Throw e) s) → wp (throw e) Q s.
Proof. done. Qed.
Lemma wp_modify (f : S → S) (Q : outcome exn unit → S → Prop) s : Q (Ret tt) (f s) → wp (modify f) Q s.
Proof. by intros ? ?. Qed.
Lemma wp_bind {X Y} (f : M S exn X) (k : X → M S exn Y) (Q : outcome exn Y → S → Prop) s :
  wp f (λ o s', match o with Ret x => wp (k x) Q s' | Throw e => Q (Throw e) s' end) s → wp (f ≫= k) Q s.
Proof.
  unfold wp, mbind, M_bind. destruct (f s) as [[x|e] s1]; simpl; [|done]. intros Hk. by apply Hk.
Qed.
Lemma wp_get_bind {Y} (k : S → M S exn Y) (Q : outcome exn Y → S → Prop) s : wp (k s) Q s → wp (get ≫= k) Q s.
Proof. done. Qed.
Lemma wp_lift_bind {X Y} (o : outcome exn X) (k : X → M S exn Y) (Q : outcome exn Y → S → Prop) s :
  (∀ x, o = Ret x → wp (k x) Q s) → (∀ e, o = Throw e → defined (X := Y) (Throw e) = true → Q (Throw e) s) →
  wp (lift o ≫= k) Q s.
Proof. destruct o; intros HR HT; [by apply HR|intros ?; by apply HT]. Qed.
Lemma wp_modify_bind {Y} (f : S → S) (k : unit → M S exn Y) (Q : outcome exn Y → S → Prop) s :
  wp (k tt) Q (f s) → wp (modify f ≫= k) Q s.
Proof. done. Qed.

(** an invariant that holds in every outcome *)
Lemma wp_for_each {X} (I : S → Prop) (f : X → M S exn unit) l s :
  I s → (∀ x s, x ∈ l → I s → wp (f x) (λ _, I) s) → wp (for_each f l) (λ _, I) s.
Proof.
  intros HI Hf. revert s HI. induction l as [|x l IH]; intros s HI; simpl; [by apply wp_mret|].
  apply wp_bind. eapply wp_mono; [apply Hf; [by left|done]|]. intros [?|e] s' _ HI'; [|done].
  apply IH; [|done]. intros y s1 Hy. apply Hf. by right.
Qed.
Lemma wp_and {X} (f : M S exn X) (Q R : outcome exn X → S → Prop) s :
  wp f Q s → wp f R s → wp f (λ o s', Q o s' ∧ R o s') s.
Proof. unfold wp. eauto. Qed.
Lemma wp_bind_inv {X Y} (I : S → Prop) (f : M S exn X) (k : X → M S exn Y) s :
  wp f (λ _, I) s → (∀ x s', (f s).1 = Ret x → I s' → wp (k x) (λ _, I) s') → wp (f ≫= k) (λ _, I) s.
Proof.
  intros Hf Hk. apply wp_bind. unfold wp in *. destruct (f s) as [[x|e] s1]; simpl in *; [|done].
  intros ?. by apply Hk; [|apply Hf].
Qed.
End wp.

Section spec.
Context {A G : Type} `{layer.Activity A G} `{JobActivity A}.
Context `{AssertMode} (no_assert : assert_throws = false) `{Unordered} `{PriorityQueue} `{job.StateMachine}.
Context (print : exn → string).
(** [activity_t::requirements_and_preferences] throws otherwise *)
Context (requirements_ok : ∀ (x : A) r, requirements_and_preferences x = Ret r → schedulable r = true).

Abbreviation agent := (scheduler.agent A (@Agent.world A G)).
Abbreviation Ag := (M agent exn).
Abbreviation world_of := scheduler.world.
Abbreviation jobs_of := scheduler.jobs.
Abbreviation workers_of a := (worker_map (manager (sched a))).
Implicit Types (a : agent) (j id : job_id_t) (jb : job.type A).

(** the jobs that wait for workers or have a reservation *)
Definition scheduled a j : Prop := known (jobs_to_schedule (sched a)) (sched a) j.
Definition terminal jb : bool := job.is_terminal (job.getStatus jb).
Definition by_worker jb : Prop := job.handler jb = job.job_handler_worker.
Definition by_wfe jb : Prop := job.source jb = job.job_source_wfe.

(** ** Soundness

    [x] is a job whose end is being reported. *)
Record sound_but (x : option job_id_t) a : Prop := {
  s_agrees : agrees (jobs_to_schedule (sched a)) (sched a);
  s_scheduled : ∀ j, scheduled a j → ∃ jb, jobs_of a !! j = Some jb ∧ by_worker jb ∧
    (x = Some j ∨ by_wfe jb ∨ terminal jb = false);
  s_live : ∀ j jb, jobs_of a !! j = Some jb → by_worker jb → terminal jb = false → scheduled a j;
  s_id : ∀ j jb, jobs_of a !! j = Some jb → job.id jb = j;
  s_requirements : ∀ j, is_Some (jobs_of a !! j) →
    ∃ r, requirements (world_of a) !! j = Some r ∧ schedulable r = true;
  s_source : is_Some (workflow_engine (world_of a)) → ∀ j jb, jobs_of a !! j = Some jb → by_worker jb → by_wfe jb;
  s_address : ∀ w, is_Some (workers_of a !! w) → is_Some (worker_connections (manager (sched a)) !! w)
}.
Abbreviation sound := (sound_but None).

Lemma sound_weaken x a : sound a → sound_but x a.
Proof. intros [H1' H2' H3' H7' H4' H5' H6']. split; try done. intros j Hj. destruct (H2' j Hj) as (jb & ? & ? & [?|?]); [done|exists jb; auto]. Qed.
Lemma sound_strengthen j a : sound_but (Some j) a → ¬ scheduled a j → sound a.
Proof.
  intros [H1' H2' H3' H7' H4' H5' H6'] Hj. split; try done. intros i Hi.
  destruct (H2' i Hi) as (jb & ? & ? & [?|?]); [by simplify_eq|exists jb; auto].
Qed.

(** *** What does not concern jobs and scheduler *)
Definition same_core a a' : Prop :=
  sched a' = sched a ∧ jobs_of a' = jobs_of a ∧ requirements (world_of a') = requirements (world_of a) ∧
  (is_Some (workflow_engine (world_of a')) ↔ is_Some (workflow_engine (world_of a))).
Lemma same_core_refl a : same_core a a.
Proof. done. Qed.
Lemma same_core_trans a1 a2 a3 : same_core a1 a2 → same_core a2 a3 → same_core a1 a3.
Proof. intros (? & ? & ? & ?) (? & ? & ? & ?). split_and!; [congruence..|tauto]. Qed.
Lemma sound_core x a a' : same_core a a' → sound_but x a → sound_but x a'.
Proof.
  intros (Hs & Hj & Hr & He) [H1' H2' H3' H7' H4' H5' H6'].
  split; unfold scheduled in *; rewrite ?Hs, ?Hj, ?Hr, ?He; done.
Qed.

(** functions that leave the rest as it is *)
Definition inert {X} (f : Ag X) : Prop := ∀ a, same_core a (f a).2.
Lemma inert_bind {X Y} (f : Ag X) (k : X → Ag Y) : inert f → (∀ x, inert (k x)) → inert (f ≫= k).
Proof.
  intros Hf Hk a. specialize (Hf a). unfold mbind, M_bind. destruct (f a) as [[x|e] a1]; [|done].
  by eapply same_core_trans; [|apply Hk].
Qed.
Lemma inert_get_bind {Y} (k : agent → Ag Y) : (∀ a, inert (k a)) → inert (get ≫= k).
Proof. intros Hk a. apply Hk. Qed.
Lemma inert_lift {X} (o : outcome exn X) : inert (lift o).
Proof. done. Qed.
Lemma inert_mret {X} (x : X) : inert (mret x).
Proof. done. Qed.
Lemma inert_throw {X} e : inert (throw e : Ag X).
Proof. done. Qed.
Lemma inert_for_each {X} (f : X → Ag unit) l : (∀ x, inert (f x)) → inert (for_each f l).
Proof. intros Hf. induction l; simpl; [apply inert_mret|by apply inert_bind]. Qed.
Lemma inert_update f :
  (∀ w, requirements (f w) = requirements w ∧ (is_Some (workflow_engine (f w)) ↔ is_Some (workflow_engine w))) →
  inert (update f).
Proof. intros Hf [s js w]. split_and!; try done; apply Hf. Qed.

Ltac inert :=
  repeat match goal with
  | |- inert (mret _) => apply inert_mret
  | |- inert (lift _) => apply inert_lift
  | |- inert (throw _) => apply inert_throw
  | |- inert (mbind _ get) => apply inert_get_bind; intros ?
  | |- inert (mbind _ _) => apply inert_bind; [|intros ?]
  | |- inert (for_each _ _) => apply inert_for_each; intros ?
  | |- inert (update _) => apply inert_update; by intros
  | |- inert (match _ with _ => _ end) => case_match
  | |- inert _ => solve [auto 1 with inert nocore]
  end.
Lemma inert_send to_ e : inert (send to_ e).
Proof. unfold send. inert. Qed.
Lemma inert_delay e : inert (delay e).
Proof. unfold delay. inert. Qed.
Lemma inert_request_scheduling : inert request_scheduling.
Proof. unfold request_scheduling. inert. Qed.
Hint Resolve inert_send inert_delay inert_request_scheduling : inert.
Lemma inert_send_to_workers ws e : inert (send_to_workers ws e).
Proof. unfold send_to_workers, worker_address. inert. Qed.
Lemma inert_send_to_masters e : inert (send_to_masters e).
Proof. unfold send_to_masters. inert. Qed.
Lemma inert_notify_subscribers j e e' : inert (notify_subscribers j e e').
Proof. unfold notify_subscribers. inert. Qed.
Lemma inert_discovered d i : inert (discovered d i).
Proof. unfold discovered. inert. Qed.
Lemma inert_token_put i e : inert (token_put i e).
Proof. unfold token_put, taken. inert. Qed.
Lemma inert_answer_workflow_response i c : inert (answer_workflow_response i c).
Proof. unfold answer_workflow_response, taken. inert. Qed.
Lemma inert_require_job j m : inert (require_job j m).
Proof. unfold require_job. inert. Qed.
Hint Resolve inert_send_to_workers inert_send_to_masters inert_notify_subscribers inert_discovered inert_token_put
  inert_answer_workflow_response inert_require_job : inert.

(** *** What the callbacks of the workflow engine do to scheduled jobs *)
Definition has_engine a : Prop := is_Some (workflow_engine (world_of a)).
Definition evolves a0 a : Prop :=
  (has_engine a0 → has_engine a) ∧ (has_engine a → has_engine a0) ∧
  manager (sched a) = manager (sched a0) ∧ allocation_table (sched a) = allocation_table (sched a0) ∧
  pending_jobs (sched a) = pending_jobs (sched a0) ∧ (∀ j, scheduled a0 j → scheduled a j) ∧
  ∀ j jb, by_wfe jb ∨ scheduled a0 j → jobs_of a0 !! j = Some jb → ∃ jb', jobs_of a !! j = Some jb' ∧
    job.source jb' = job.source jb ∧ job.handler jb' = job.handler jb ∧ (terminal jb = true → terminal jb' = true).
Definition steady a0 x a : Prop := sound_but x a ∧ evolves a0 a.
Lemma steady_refl x a : sound_but x a → steady a x a.
Proof. intros Ha. split; [done|]. split_and!; eauto. Qed.
Lemma steady_core a0 x a a' : same_core a a' → steady a0 x a → steady a0 x a'.
Proof.
  intros Hc [Ha (Hi & Hi' & He1 & He2 & He3 & He4 & He5)]. split; [by apply (sound_core _ a)|].
  destruct Hc as (Hs & Hj & _ & He). unfold evolves, scheduled, has_engine in *. rewrite Hs, Hj, He. done.
Qed.
Lemma wp_inert {X} (f : Ag X) a0 x a : inert f → steady a0 x a → wp f (λ _, steady a0 x) a.
Proof. intros Hf Ha _. by apply (steady_core _ _ a). Qed.

(** functions that the workflow engine calls *)
Definition stable {X} (f : Ag X) : Prop := ∀ a0 a, has_engine a0 → steady a0 None a → wp f (λ _, steady a0 None) a.
Lemma stable_inert {X} (f : Ag X) : inert f → stable f.
Proof. intros Hf a0 a _. by apply wp_inert. Qed.
Lemma stable_bind {X Y} (f : Ag X) (k : X → Ag Y) : stable f → (∀ x, stable (k x)) → stable (f ≫= k).
Proof. intros Hf Hk a0 a He Ha. apply wp_bind_inv; [by apply Hf|]. intros x a' _. by apply Hk. Qed.
Lemma stable_for_each {X} (f : X → Ag unit) l : (∀ x, stable (f x)) → stable (for_each f l).
Proof. intros Hf a0 a He Ha. apply wp_for_each; [done|]. intros x b _. by apply Hf. Qed.
Lemma stable_catching {X} (f : Ag X) (h : exn → Ag X) : stable f → (∀ e, stable (h e)) → stable (catching f h).
Proof.
  intros Hf Hh a0 a Hen Ha. specialize (Hf a0 a Hen Ha). unfold wp, catching in *.
  destruct (f a) as [[x|e] a1]; simpl in *; [done|]. destruct (catchable e) eqn:He; [|done].
  apply Hh; [done|]. apply Hf. by destruct e.
Qed.

(** ** The calls of a job *)
Definition job_step (f : M (job.type A) exn unit) : Prop := ∀ jb,
  defined (f jb).1 = true ∧ job.source (f jb).2 = job.source jb ∧ job.handler (f jb).2 = job.handler jb ∧
  (terminal jb = true → terminal (f jb).2 = true) ∧ (∀ e, (f jb).1 = Throw e → terminal (f jb).2 = terminal jb) ∧
  job.id (f jb).2 = job.id jb.
Lemma process_event_run e jb :
  job.process_event e jb =
    (match job.transition_table (job.current_state jb) e with
     | None => if job.rethrows then Throw (runtime_error ("no transition from state " +:+ job.show (job.getStatus jb))) else Ret tt
     | Some _ => Ret tt
     end, job.set_state (default (job.current_state jb) (job.transition_table (job.current_state jb) e)) jb).
Proof.
  unfold job.process_event. rewrite bind_get. destruct (job.transition_table _ _); [done|].
  destruct jb, job.rethrows; done.
Qed.
Lemma job_step_event e : job_step (job.process_event e).
Proof.
  intros jb. rewrite process_event_run. unfold terminal, job.getStatus. simpl.
  split_and!; try done.
  - destruct (job.transition_table _ _); [done|]. by destruct job.rethrows.
  - by destruct (job.current_state jb), e.
  - intros x. by destruct (job.transition_table _ _).
Qed.
Lemma job_step_bind f (g : job.type A → job.type A) :
  job_step f → (∀ jb, job.source (g jb) = job.source jb ∧ job.handler (g jb) = job.handler jb ∧ job.id (g jb) = job.id jb ∧ terminal (g jb) = terminal jb) →
  job_step (f ≫= λ _, modify g).
Proof.
  intros Hf Hg jb. specialize (Hf jb). unfold mbind, M_bind. destruct (f jb) as [[[]|e] jb']; [|done]. simpl in *.
  destruct (Hg jb') as (-> & -> & -> & ->). naive_solver.
Qed.
Lemma job_step_finished r : job_step (job.JobFinished r).
Proof. apply job_step_bind; [apply job_step_event|done]. Qed.
Lemma job_step_failed m : job_step (job.JobFailed m).
Proof. apply job_step_bind; [apply job_step_event|done]. Qed.

Definition with_job_set a id jb : agent := mk_agent (sched a) (<[id := jb]> (jobs_of a)) (world_of a).
Lemma steady_job a0 x a id jb jb' :
  steady a0 x a → jobs_of a !! id = Some jb →
  job.source jb' = job.source jb → job.handler jb' = job.handler jb → job.id jb' = job.id jb →
  (terminal jb = true → terminal jb' = true) →
  (terminal jb' = true → x = Some id ∨ by_wfe jb ∨ ¬ by_worker jb ∨ terminal jb = true) →
  steady a0 x (with_job_set a id jb').
Proof.
  intros [[H1' H2' H3' H7' H4' H5' H6'] (Hi & Hi' & He1 & He2 & He3 & He4 & He5)] Hjb Hsrc Hh Hid Ht Hok.
  split; [split; simpl; try done|unfold evolves, has_engine in *; split_and!; try done; simpl].
  - intros j Hj. destruct (H2' j Hj) as (jb1 & Hj1 & Hw & Hor). destruct (decide (id = j)) as [<-|Hne].
    + rewrite lookup_insert_eq. simplify_eq. exists jb'. unfold by_worker, by_wfe in *. rewrite Hh, Hsrc.
      split_and!; [done|done|]. destruct Hor as [?|[?|?]]; [by left|auto|].
      destruct (terminal jb') eqn:Ht'; [|auto]. destruct (Hok eq_refl) as [?|[?|[?|?]]]; [auto|auto|done|congruence].
    + rewrite lookup_insert_ne by done. eauto.
  - intros j jb1 Hj. destruct (decide (id = j)) as [<-|Hne].
    + rewrite lookup_insert_eq in Hj. simplify_eq. unfold by_worker. rewrite Hh. intros Hw Hn.
      apply (H3' id jb); [done|done|]. destruct (terminal jb); [|done]. by rewrite Ht in Hn.
    + rewrite lookup_insert_ne in Hj by done. by apply H3'.
  - intros j jb1. destruct (decide (id = j)) as [<-|Hne].
    + rewrite lookup_insert_eq. intros [= <-]. rewrite Hid. by apply H7'.
    + rewrite lookup_insert_ne by done. apply H7'.
  - intros j [jb1 Hj]. apply H4'. destruct (decide (id = j)) as [<-|Hne]; [eauto|].
    rewrite lookup_insert_ne in Hj by done. eauto.
  - intros He j jb1 Hj. destruct (decide (id = j)) as [<-|Hne].
    + rewrite lookup_insert_eq in Hj. simplify_eq. unfold by_worker, by_wfe. rewrite Hh, Hsrc. by apply (H5' He id).
    + rewrite lookup_insert_ne in Hj by done. by apply (H5' He j).
  - intros j jb0 Hj Hjb0. destruct (He5 j jb0 Hj Hjb0) as (jb1 & Hj1 & Hs1 & Hh1 & Ht1).
    destruct (decide (id = j)) as [<-|Hne].
    + rewrite lookup_insert_eq. simplify_eq. exists jb'. split_and!; [done|congruence|congruence|auto].
    + rewrite lookup_insert_ne by done. eauto.
Qed.

Lemma wp_with_job {X} id (f : M (job.type A) exn X) (Q : outcome exn X → agent → Prop) a :
  (∀ jb, jobs_of a !! id = Some jb → Q (f jb).1 (with_job_set a id (f jb).2)) → wp (with_job id f) Q a.
Proof.
  intros HQ. unfold wp, with_job. destruct (jobs_of a !! id) as [jb|]; [|done].
  specialize (HQ jb eq_refl). unfold with_job_set in HQ. destruct (f jb) as [o jb']. simpl in *. done.
Qed.
Lemma with_job_set_same a id jb : jobs_of a !! id = Some jb → with_job_set a id jb = a.
Proof. intros Hj. unfold with_job_set. rewrite insert_id by done. by destruct a. Qed.
Lemma wp_with_job_get {Y} id (k : job.type A → Ag Y) (Q : outcome exn Y → agent → Prop) a :
  (∀ jb, jobs_of a !! id = Some jb → wp (k jb) Q a) → wp (with_job id get ≫= k) Q a.
Proof. intros HQ. apply wp_bind, wp_with_job. intros jb Hjb. simpl. rewrite with_job_set_same by done. auto. Qed.

Lemma steady_weaken a0 x a : steady a0 None a → steady a0 x a.
Proof. intros []. split; [by apply sound_weaken|done]. Qed.

(** ** The workflow engine *)
Section engine.
Context (fuel : nat) (callbacks : Ag unit) (Hcb : stable callbacks).

Lemma wp_engine c a0 a : steady a0 None a → wp (engine fuel callbacks c) (λ _, steady a0 None) a.
Proof.
  intros Ha. unfold engine. apply wp_get_bind. case_match eqn:He; [|by apply wp_throw].
  destruct (layer.perform fuel c p) as [o p'].
  apply wp_bind_inv with (I := steady a0 None).
  - intros _. apply (steady_core _ _ a); [|done]. split_and!; try done. all: by rewrite He.
  - intros [] a1 _ Ha1. apply wp_bind_inv; [apply Hcb; [|done]|].
    { apply (proj1 (proj2 (proj2 Ha))). eexists. exact He. } intros [] a2 _ Ha2. by intros _.
Qed.

(** the end of a job is told to whoever submitted it *)
Definition job_end id (f : M (job.type A) exn unit) (c : job.type A → layer.call A) (e e' : job.type A → event A) : Ag unit :=
  with_job id f ≫= λ _,
  j ← with_job id get;
  (match job.source j with
   | job.job_source_wfe => engine fuel callbacks (c j)
   | job.job_source_client => mret tt
   | job.job_source_master m => to_ ← master_address m; send to_ (e j)
   end) ≫= λ _,
  notify_subscribers id (e j) (e' j).
Lemma wp_send_master a0 x m e a : steady a0 x a → wp (to_ ← master_address m; send to_ e) (λ o a', o = Ret tt ∧ steady a0 x a') a.
Proof.
  intros Ha. unfold master_address, wp, mbind, M_bind. simpl.
  destruct (master_info (world_of a) !! m) as [mm|]; simpl; [|done]. destruct (m_address mm); simpl; [|done]. intros _. split; [done|]. apply (steady_core _ _ a); [apply inert_send|done].
Qed.
Lemma wp_job_end_rest a0 x id c e e' jb a :
  steady a0 x a → (x = None ∨ ¬ by_wfe jb ∨ steady a0 None a) →
  wp ((match job.source jb with
       | job.job_source_wfe => engine fuel callbacks (c jb)
       | job.job_source_client => mret tt
       | job.job_source_master m => to_ ← master_address m; send to_ (e jb)
       end) ≫= λ _, notify_subscribers id (e jb) (e' jb))
    (λ o a', steady a0 x a' ∧ (x = None ∨ is_ret o = true ∨ steady a0 None a')) a.
Proof.
  intros Ha Hx. apply wp_bind.
  assert (∀ a x, steady a0 x a → is_ret ((notify_subscribers id (e jb) (e' jb)) a).1 = true ∧ steady a0 x ((notify_subscribers id (e jb) (e' jb)) a).2) as Hn.
  { intros b y Hb. split; [|apply (steady_core _ _ b); [apply inert_notify_subscribers|done]].
    unfold notify_subscribers. rewrite bind_get. destruct (unordered_elements (filter (λ z, z.2 = id) (subscriptions (world_of b)))) as [|z l]; [done|].
    clear Hb. unfold mbind, M_bind. simpl. match goal with |- context [for_each _ l ?c] => generalize c end.
    induction l as [|z' l IH]; intros c'; [done|]. apply IH. }
  destruct (job.source jb) eqn:Hs.
  - apply wp_mono with (Q := λ _, steady a0 None).
    { apply wp_engine. destruct Hx as [->|[Hx|?]]; [done|by destruct Hx|done]. }
    intros [[]|ex] b _ Hb; [|split; [by apply steady_weaken|auto]].
    intros _. destruct (Hn b None Hb) as [? Hb']. split; [by apply steady_weaken|auto].
  - apply wp_mono with (Q := λ o b, o = Ret tt ∧ steady a0 x b); [by apply wp_send_master|]. intros o b _ [-> Hb]. intros _. destruct (Hn b x Hb). auto.
  - apply wp_mret. intros _. destruct (Hn a x Ha). auto.
Qed.
Lemma wp_job_end a id f c e e' jb :
  job_step f → sound a → jobs_of a !! id = Some jb →
  wp (job_end id f c e e')
    (λ o a', match o with
             | Throw _ => sound a'
             | Ret _ => steady (with_job_set a id (f jb).2) (Some id) a' ∧ (f jb).1 = Ret tt
             end) a.
Proof.
  intros Hf Ha Hjb. destruct (Hf jb) as (_ & Hsrc & Hh & Ht & Hthrow & Hjid). unfold job_end.
  apply wp_bind, wp_with_job. intros jb' Hjb'. simplify_eq.
  pose proof (steady_refl _ _ Ha) as Hst.
  assert (steady a (Some id) (with_job_set a id (f jb).2)) as Hany.
  { apply (steady_job _ _ _ _ jb); auto. by apply steady_weaken. }
  assert (by_wfe jb ∨ terminal (f jb).2 = terminal jb → steady a None (with_job_set a id (f jb).2)) as Hnone.
  { intros Hor. apply (steady_job _ _ _ _ jb); auto. destruct Hor as [?| ->]; auto. }
  destruct (f jb).1 as [[]|ex] eqn:Ho; [|apply Hnone; right; by apply (Hthrow ex)].
  apply wp_with_job_get. intros jb1 Hjb1. simpl in Hjb1. rewrite lookup_insert_eq in Hjb1. simplify_eq.
  eapply wp_mono; [apply (wp_job_end_rest (with_job_set a id (f jb).2) (Some id))|].
  - apply steady_refl, Hany.
  - destruct (job.source jb) eqn:Hwfe; [|right; left; unfold by_wfe; congruence..].
    right. right. apply steady_refl, Hnone. by left.
  - intros o b _ [Hb [?|[Hr|Hb']]]; [done| |].
    + by destruct o.
    + destruct o; [done|]. apply Hb'.
Qed.
Lemma stable_job_end_at a0 a id f c e e' :
  job_step f → steady a0 None a → (∀ jb, jobs_of a !! id = Some jb → by_wfe jb ∨ ¬ by_worker jb) →
  wp (job_end id f c e e') (λ _, steady a0 None) a.
Proof.
  intros Hf Ha Hok. unfold job_end. apply wp_bind, wp_with_job. intros jb Hjb.
  destruct (Hf jb) as (_ & Hsrc & Hh & Ht & _ & Hjid).
  assert (steady a0 None (with_job_set a id (f jb).2)) as Ha1.
  { apply (steady_job _ _ _ _ jb); auto. destruct (Hok jb Hjb); auto. }
  destruct (f jb).1; [|done]. apply wp_with_job_get. intros jb1 _.
  eapply wp_mono; [by apply (wp_job_end_rest a0 None); auto|]. by intros ? ? _ [].
Qed.

Lemma stable_job_end id f c e e' : job_step f → stable (job_end id f c e e').
Proof.
  intros Hf a0 a He Ha. apply stable_job_end_at; [done|done|]. intros jb Hjb.
  destruct (job.handler jb) eqn:Hh; [right; unfold by_worker; congruence|left].
  apply (s_source _ _ (proj1 Ha)) with (j := id); [by apply (proj1 (proj2 Ha))|done|done].
Qed.
Lemma stable_job_finished id r : stable (job_finished fuel callbacks id r).
Proof. apply (stable_job_end id _ (λ jb, layer.Finished id (job.result jb)) (λ jb, JobFinishedEvent id (job.result jb)) (λ jb, JobFinishedEvent id (job.result jb))), job_step_finished. Qed.
Lemma stable_job_failed id m : stable (job_failed fuel callbacks id m).
Proof. apply (stable_job_end id _ (λ jb, layer.Failed id (job.error_message jb)) (λ jb, JobFailedEvent id (job.error_message jb)) (λ _, JobFailedEvent id "")), job_step_failed. Qed.
Lemma stable_job_canceled id : stable (job_canceled fuel callbacks id).
Proof. apply (stable_job_end id _ (λ _, layer.Canceled id) (λ _, CancelJobAckEvent id) (λ _, CancelJobAckEvent id)), job_step_event. Qed.

Lemma stable_workflow_engine_submit id : stable (workflow_engine_submit print fuel callbacks id).
Proof.
  unfold workflow_engine_submit. apply stable_catching.
  - intros a0 a He Ha. apply wp_with_job_get. intros jb Hjb. apply wp_bind_inv; [by apply wp_engine|].
    intros _ a1 _ Ha1. apply wp_bind, wp_with_job. intros jb1 Hjb1. destruct (job_step_event job.e_dispatch jb1) as (_ & Hs & Hh & Ht & _ & Hjid).
    assert (steady a0 None (with_job_set a1 id (job.Dispatch jb1).2)) as Ha2.
    { apply (steady_job _ _ _ _ jb1); try done. unfold job.Dispatch. rewrite process_event_run. unfold terminal, job.getStatus. simpl.
      destruct (job.current_state jb1); simpl; auto. }
    destruct (job.Dispatch jb1).1; [by apply wp_mret|done].
  - intros e. apply stable_bind; [apply stable_job_failed|]. intros _. by apply stable_inert, inert_mret.
Qed.

(** *** New jobs *)
Definition with_new a id act src h r : agent :=
  mk_agent (sched a) (<[id := job.make no_activity id act src h]> (jobs_of a))
    (set_requirements (<[id := r]>) (world_of a)).
Lemma wp_addJob_with id act src h r (Q : outcome exn unit → agent → Prop) a :
  (jobs_of a !! id = None → Q (Ret tt) (with_new a id act src h r)) → (∀ e, Q (Throw e) a) →
  wp (addJob_with id act src h r) Q a.
Proof.
  intros HR HT. unfold addJob_with. apply wp_get_bind. case_decide as Hd; [by apply wp_throw|].
  assert (jobs_of a !! id = None) as Hn by (by apply eq_None_not_Some). by intros _; apply HR.
Qed.
Definition with_queued a id : agent :=
  mk_agent (set_jobs_to_schedule (λ l, l ++ [id]) (sched a)) (jobs_of a) (world_of a).
Lemma agrees_enqueue q (s : scheduler.type A) id f :
  agrees q s → id ∉ q → allocation_table s !! id = None → agrees (q ++ [id]) (set_jobs_to_schedule f s).
Proof.
  intros [F1 F2 F3 F4 F5 F6 F7] Hq Hn. split; try done.
  - apply NoDup_app. split; [done|]. split; [|apply NoDup_singleton]. intros x Hx Hxj. by apply list_elem_of_singleton in Hxj as ->.
  - intros x Hx. apply elem_of_app in Hx as [Hx|Hx]; [by apply F3|]. by apply list_elem_of_singleton in Hx as ->.
Qed.
Lemma scheduled_queued a id j : scheduled (with_queued a id) j ↔ scheduled a j ∨ j = id.
Proof. unfold scheduled, known. simpl. rewrite elem_of_app, list_elem_of_singleton. tauto. Qed.
Lemma sound_new a id act src h r :
  sound a → jobs_of a !! id = None → schedulable r = true → (has_engine a → h = job.job_handler_worker → src = job.job_source_wfe) →
  let a' := with_new a id act src h r in
  sound (match h with job.job_handler_wfe => a' | job.job_handler_worker => with_queued a' id end).
Proof.
  intros [F1 F2 F3 F7 F4 F5 F6] Hid Hr Hsrc a'.
  assert (¬ scheduled a id) as Hns. { intros (jb & Hjb & _)%F2. congruence. }
  assert (∀ j, scheduled a j → id ≠ j) as Hne by (intros j Hj <-; done).
  assert (∀ j, is_Some (jobs_of a' !! j) → ∃ r0, requirements (world_of a') !! j = Some r0 ∧ schedulable r0 = true) as G1.
  { intros j [jb Hj]. simpl in *. destruct (decide (id = j)) as [<-|Hij].
    - rewrite lookup_insert_eq. eauto.
    - rewrite lookup_insert_ne in Hj by done. rewrite lookup_insert_ne by done. eauto. }
  assert (has_engine a' → ∀ j jb, jobs_of a' !! j = Some jb → by_worker jb → by_wfe jb) as G2.
  { intros He j jb Hj Hw. simpl in *. destruct (decide (id = j)) as [<-|Hij].
    - rewrite lookup_insert_eq in Hj. simplify_eq. by apply Hsrc.
    - rewrite lookup_insert_ne in Hj by done. by apply (F5 He j). }
  assert (∀ j jb, jobs_of a' !! j = Some jb → job.id jb = j) as G3.
  { intros j jb. simpl. intros [[<- <-]|[_ ?]]%lookup_insert_Some; [done|by apply F7]. }
  destruct h; split; try done.
  - intros j Hj. destruct (F2 j Hj) as (jb & ? & ? & ?). exists jb. simpl. rewrite lookup_insert_ne by auto. done.
  - intros j jb Hj Hw Ht. simpl in *. destruct (decide (id = j)) as [<-|Hij].
    + rewrite lookup_insert_eq in Hj. by simplify_eq.
    + rewrite lookup_insert_ne in Hj by done. by apply (F3 j jb).
  - apply agrees_enqueue; [done| |]; simpl.
    + intros Hq. apply Hns. by left.
    + apply eq_None_not_Some. intros Hs. apply Hns. by right.
  - intros j [Hj| ->]%scheduled_queued; simpl.
    + destruct (F2 j Hj) as (jb & ? & ? & ?). exists jb. rewrite lookup_insert_ne by auto. done.
    + rewrite lookup_insert_eq. eexists. split_and!; [done|done|auto].
  - intros j jb Hj Hw Ht. apply scheduled_queued. simpl in *. destruct (decide (id = j)) as [<-|Hij]; [by right|left].
    rewrite lookup_insert_ne in Hj by done. by apply (F3 j jb).
Qed.

Lemma steady_new a0 a id act src h r :
  steady a0 None a → jobs_of a !! id = None → schedulable r = true →
  (has_engine a → h = job.job_handler_worker → src = job.job_source_wfe) →
  let a' := with_new a id act src h r in
  steady a0 None (match h with job.job_handler_wfe => a' | job.job_handler_worker => with_queued a' id end).
Proof.
  intros [Ha (Hi & Hi' & He1 & He2 & He3 & He4 & He5)] Hid Hr Hsrc a'. split; [by apply sound_new|].
  assert (∀ j jb, by_wfe jb ∨ scheduled a0 j → jobs_of a0 !! j = Some jb → ∃ jb', jobs_of a' !! j = Some jb' ∧
    job.source jb' = job.source jb ∧ job.handler jb' = job.handler jb ∧ (terminal jb = true → terminal jb' = true)) as Hjobs.
  { intros j jb Hj Hjb. destruct (He5 j jb Hj Hjb) as (jb' & Hjb' & ?). exists jb'. simpl.
    rewrite lookup_insert_ne; [done|]. intros <-. congruence. }
  destruct h; split_and!; try done. intros j Hj. apply scheduled_queued. left. by apply He4.
Qed.
Lemma no_preferences_schedulable : schedulable no_preferences = true.
Proof. reflexivity. Qed.

Lemma stable_submit id act : stable (submit print fuel callbacks id act).
Proof.
  unfold submit. apply stable_catching; [|intros e a0 a _; apply wp_engine].
  intros a0 a He Ha. assert (has_engine a) as Hen by (by apply (proj1 (proj2 Ha))).
  destruct (handle_by_workflow_engine act).
  - apply wp_bind, wp_addJob_with; [|done]. intros Hid.
    assert (steady a0 None (with_new a id act job.job_source_wfe job.job_handler_wfe no_preferences)) as Ha1.
    { by apply (steady_new a0 a id act job.job_source_wfe job.job_handler_wfe). }
    apply wp_bind_inv; [by apply stable_workflow_engine_submit|]. intros b a1 _ Ha2. by apply wp_mret.
  - apply wp_bind. unfold addJob. apply wp_lift_bind; [|done]. intros r Hr.
    apply wp_addJob_with; [|done]. intros Hid.
    pose proof (steady_new a0 a id act job.job_source_wfe job.job_handler_worker r Ha Hid (requirements_ok _ _ Hr)) as Ha1.
    simpl in Ha1. apply wp_bind_inv with (I := steady a0 None); [intros _; by apply Ha1|].
    intros [] a1 _ Ha2. apply wp_inert; [apply inert_request_scheduling|done].
Qed.

(** *** Jobs that go *)
Definition without a id : agent :=
  mk_agent (sched a) (delete id (jobs_of a)) (set_requirements (delete id) (world_of a)).
Lemma wp_deleteJob id (Q : outcome exn unit → agent → Prop) a :
  Q (Ret tt) (without a id) → (∀ e, Q (Throw e) a) → wp (deleteJob id) Q a.
Proof.
  intros HR HT. unfold deleteJob. apply wp_get_bind. case_decide as Hd; [by intros _|by apply wp_throw].
Qed.
Lemma sound_without a id : sound a → ¬ scheduled a id → sound (without a id).
Proof.
  intros [F1 F2 F3 F7 F4 F5 F6] Hid.
  assert (∀ j, scheduled a j → id ≠ j) as Hne by (intros j Hj <-; done).
  split; simpl; try done.
  - intros j Hj. destruct (F2 j Hj) as (jb & ? & ? & ?). exists jb. by rewrite lookup_delete_ne by auto.
  - intros j jb (? & Hj)%lookup_delete_Some. by apply (F3 j jb).
  - intros j jb (? & Hj)%lookup_delete_Some. by apply F7.
  - intros j [jb (Hne' & Hj)%lookup_delete_Some]. rewrite lookup_delete_ne by done. eauto.
  - intros He j jb (? & Hj)%lookup_delete_Some. by apply (F5 He j jb).
Qed.
Lemma steady_without a0 a id :
  steady a0 None a → ¬ scheduled a id → (∀ jb, jobs_of a !! id = Some jb → ¬ by_wfe jb) → steady a0 None (without a id).
Proof.
  intros [Ha (Hi & Hi' & He1 & He2 & He3 & He4 & He5)] Hid Hw. split; [by apply sound_without|].
  split_and!; try done. intros j jb Hj Hjb. destruct (He5 j jb Hj Hjb) as (jb' & Hjb' & Hs & Hh & Ht).
  exists jb'. simpl. rewrite lookup_delete_ne; [done|]. intros <-. destruct Hj as [Hj|Hj].
  - apply (Hw jb' Hjb'). unfold by_wfe in *. congruence.
  - by apply Hid, He4.
Qed.

(** the workflow engine is not told *)
Lemma wp_job_end_quiet a id f c e e' jb :
  jobs_of a !! id = Some jb → job_step f → ¬ by_wfe jb →
  wp (job_end id f c e e') (λ _, same_core (with_job_set a id (f jb).2)) a.
Proof.
  intros Hjb Hf Hs. unfold job_end. apply wp_bind, wp_with_job. intros jb' Hjb'. simplify_eq.
  destruct (f jb).1; [|done]. apply wp_with_job_get. intros jb1 Hjb1. simpl in Hjb1. rewrite lookup_insert_eq in Hjb1. simplify_eq.
  destruct (Hf jb) as (_ & -> & _). intros _.
  match goal with |- same_core _ (?g ?b).2 => assert (inert g) as Hg; [|by apply (Hg b)] end.
  unfold by_wfe in Hs. unfold master_address. destruct (job.source jb); [done|inert..].
Qed.
(** a job that has ended stays ended while it is told *)
Lemma wp_job_end_full a id f c e e' jb :
  job_step f → sound a → jobs_of a !! id = Some jb →
  wp (job_end id f c e e')
    (λ o a', match o with
             | Throw _ => sound a'
             | Ret _ => steady (with_job_set a id (f jb).2) (Some id) a' ∧
                 ∃ jb', jobs_of a' !! id = Some jb' ∧ job.source jb' = job.source jb ∧ job.handler jb' = job.handler jb ∧
                   ((f jb).1 = Ret tt → terminal (f jb).2 = true → terminal jb' = true)
             end) a.
Proof.
  intros Hf Ha Hjb.
  assert (wp (job_end id f c e e') (λ _ a', by_wfe jb ∨ same_core (with_job_set a id (f jb).2) a') a) as Hq.
  { destruct (job.source jb) eqn:Hs; [by intros _; left|..];
      (eapply wp_mono; [by apply (wp_job_end_quiet a id f c e e' jb Hjb Hf); unfold by_wfe; rewrite Hs|by right]). }
  eapply wp_mono; [apply wp_and; [by apply (wp_job_end a id f c e e' jb)|exact Hq]|].
  destruct (Hf jb) as (_ & Hsrc & Hhd & _). intros [[]|ex] a' _ [Hst Hor]; [|done]. destruct Hst as [Hst Hret]. split; [done|].
  destruct Hor as [Hw|(_ & Hj & _)].
  - destruct (proj2 Hst) as (_ & _ & _ & _ & _ & _ & He). destruct (He id (f jb).2) as (jb' & ? & ? & ? & ?).
    + left. unfold by_wfe in *. congruence.
    + apply lookup_insert_eq.
    + exists jb'. split_and!; [done|congruence|congruence|auto].
  - exists (f jb).2. rewrite Hj. simpl. rewrite lookup_insert_eq. auto.
Qed.
Lemma not_scheduled x a id jb : sound_but x a → jobs_of a !! id = Some jb → ¬ by_worker jb → ¬ scheduled a id.
Proof. intros Ha Hjb Hw Hs. destruct (s_scheduled _ _ Ha _ Hs) as (jb' & ? & ? & _). by simplify_eq. Qed.
Lemma require_job_ret id m a jb a' : require_job id m a = (Ret jb, a') → jobs_of a !! id = Some jb ∧ a' = a.
Proof.
  unfold require_job, findJob. rewrite bind_get. unfold lift, or_throw. destruct (jobs_of a !! id); [|done]. by intros [= -> ->].
Qed.
Lemma wp_require_job {Y} id m (k : job.type A → Ag Y) (Q : outcome exn Y → agent → Prop) a :
  (∀ jb, jobs_of a !! id = Some jb → wp (k jb) Q a) → (∀ e, Q (Throw e) a) → wp (require_job id m ≫= k) Q a.
Proof.
  intros HR HT. apply wp_bind. unfold wp. destruct (require_job id m a) as [[jb|e] a'] eqn:Hr; simpl.
  - apply require_job_ret in Hr as [? ->]. intros _. by apply HR.
  - unfold require_job, findJob in Hr. rewrite bind_get in Hr. unfold lift in Hr. by injection Hr as _ <-.
Qed.
Lemma stable_canceled id : stable (canceled fuel callbacks id).
Proof.
  unfold canceled. intros a0 a He Ha. apply wp_require_job; [|done]. intros jb Hjb.
  assert (wp (job_canceled fuel callbacks id) (λ _ a', steady a0 None a' ∧
    (by_wfe jb ∨ same_core (with_job_set a id (job.CancelJobAck jb).2) a')) a) as Hend.
  { apply wp_and; [by apply stable_job_canceled|].
    destruct (job.source jb) eqn:Hs; [by intros _; left|..]; (eapply wp_mono;
      [by apply (wp_job_end_quiet a id job.CancelJobAck (λ _, layer.Canceled id) (λ _, CancelJobAckEvent id) (λ _, CancelJobAckEvent id) jb Hjb
                   (job_step_event _)); unfold by_wfe; rewrite Hs|by right]). }
  apply wp_bind. eapply wp_mono; [exact Hend|]. intros [[]|e] a1 _ [Ha1 Hor]; [|done].
  destruct (job.source jb) eqn:Hs; try by apply wp_mret.
  destruct Hor as [Hw|(Hsame & Hjobs & _)]; [by unfold by_wfe in Hw; congruence|].
  apply wp_deleteJob; [|done]. apply steady_without; [done| |].
  - unfold scheduled. rewrite Hsame. apply (not_scheduled None a id jb); [apply Ha|done|].
    intros Hw. assert (by_wfe jb) as Hwfe; [|by unfold by_wfe in Hwfe; congruence].
    apply (s_source _ _ (proj1 Ha)) with (j := id); [by apply (proj1 (proj2 Ha))|done|done].
  - intros jb1. rewrite Hjobs. simpl. rewrite lookup_insert_eq. intros [= <-]. unfold by_wfe.
    destruct (job_step_event job.e_canceled jb) as (_ & Hsrc & _). unfold job.CancelJobAck. rewrite Hsrc. congruence.
Qed.

Lemma stable_callback e : stable (callback print fuel callbacks e).
Proof.
  destruct e; simpl.
  - apply stable_submit.
  - apply stable_inert, inert_delay.
  - unfold finished. apply stable_bind; [apply stable_inert, inert_require_job|]. intros _. apply stable_job_finished.
  - unfold failed. apply stable_bind; [apply stable_inert, inert_require_job|]. intros _. apply stable_job_failed.
  - apply stable_canceled.
  - apply stable_inert, inert_delay.
  - apply stable_inert, inert_discovered.
  - apply stable_inert, inert_token_put.
  - apply stable_inert, inert_answer_workflow_response.
Qed.
End engine.

Lemma stable_callbacks depth fuel : stable (callbacks print depth fuel).
Proof.
  induction depth as [|depth IH]; intros a0 a He Ha; simpl; apply wp_get_bind;
    (case_match; [|by apply wp_mret]); case_match;
    (apply wp_bind_inv with (I := steady a0 None); [by apply wp_inert; [apply inert_update|]|]); intros [] a1 _ Ha1;
    (case_match; [by apply wp_mret|]).
  - by apply wp_throw.
  - by apply stable_for_each; [intros e; apply stable_callback|..].
Qed.
End spec.
End AgentSpec.
