(* ===== verification/SdpaAgentEvents.v ===== *)
(** * The events of an agent

    Every event that an agent handles, every step of its workflow engine and every
    round of scheduling keeps the jobs, the scheduler and the workers in agreement. *)

From Stdlib Require Import SpecFloat.
From S2P Require Import Prelude Value Token Function SdpaJob SdpaWorker SdpaManager SdpaScheduler SdpaFrame SdpaInvariant SdpaAssign SdpaRound SdpaLost Layer SdpaAgent SdpaAgentSpec.

Import equivalence_class WorkerManager scheduler Bookkeeping Round Lost Agent AgentSpec.

Module AgentEvents.
Section events.
Context {A G : Type} `{layer.Activity A G} `{JobActivity A}.
Context `{AssertMode} (no_assert : assert_throws = false) `{Unordered} `{PriorityQueue} `{job.StateMachine}.
Context (now : worker_id_t → double) (print : exn → string).
Context (requirements_ok : ∀ (x : A) r, requirements_and_preferences x = Ret r → schedulable r = true).

Abbreviation agent := (scheduler.agent A (@Agent.world A G)).
Abbreviation Ag := (M agent exn).
Abbreviation world_of := scheduler.world.
Abbreviation jobs_of := scheduler.jobs.
Abbreviation workers_of a := (worker_map (manager (sched a))).
Abbreviation sound := (sound_but None).
Implicit Types (a : agent) (j id : job_id_t) (jb : job.type A) (s : scheduler.type A).

(** ** The scheduler on behalf of the agent *)
Definition addressed (m : WorkerManager.type) : Prop :=
  ∀ w, is_Some (worker_map m !! w) → is_Some (worker_connections m !! w).
Definition at_frame s : scheduler.type A → Prop :=
  Frame.framed_s (dom (worker_map (manager s))) (worker_connections (manager s)).
Lemma at_frame_refl s : at_frame s s.
Proof. done. Qed.
Lemma at_frame_addressed s s' : at_frame s s' → addressed (manager s) → addressed (manager s').
Proof. intros [Hd Hc] Hs w Hw. rewrite Hc. apply Hs, elem_of_dom, Hd. by apply elem_of_dom. Qed.

Definition with_sched a s : agent := mk_agent s (jobs_of a) (world_of a).
Lemma wp_with_scheduler {X} (f : M (scheduler.type A) exn X) (Q : outcome exn X → agent → Prop) a :
  wp f (λ o s, Q o (with_sched a s)) (sched a) → wp (with_scheduler f) Q a.
Proof. unfold wp, with_scheduler, with_sched. by destruct (f (sched a)). Qed.
Lemma wp_with_scheduler_ret {X Y} (f : M (scheduler.type A) exn X) (k : X → Ag Y) (Q : outcome exn Y → agent → Prop) a x s :
  f (sched a) = (Ret x, s) → wp (k x) Q (with_sched a s) → wp (with_scheduler f ≫= k) Q a.
Proof. intros Hf Hk. unfold wp, mbind, M_bind, with_scheduler in *. by rewrite Hf. Qed.

Lemma sound_sched x a s :
  sound_but x a → agrees (jobs_to_schedule s) s → addressed (manager s) →
  (∀ j, known (jobs_to_schedule s) s j → scheduled a j) →
  (∀ j jb, jobs_of a !! j = Some jb → by_worker jb → terminal jb = false → scheduled a j → known (jobs_to_schedule s) s j) →
  sound_but x (with_sched a s).
Proof.
  intros [F1 F2 F3 F7 F4 F5 F6] Hs Hm Hk Hl. split; simpl; try done.
  - intros j Hj. by apply F2, Hk.
  - intros j jb Hj Hw Ht. apply (Hl j jb); try done. by apply (F3 j jb).
Qed.
Lemma sound_addressed x a : sound_but x a → addressed (manager (sched a)).
Proof. intros Ha w. apply (s_address _ _ Ha). Qed.

(** *** Releasing *)
Lemma release_spec q s id :
  agrees q s → ∃ m', releaseReservation now id s = (Ret tt, mk m' (jobs_to_schedule s) (delete id (allocation_table s)) (pending_jobs s)) ∧
    agrees q (mk m' (jobs_to_schedule s) (delete id (allocation_table s)) (pending_jobs s ∖ {[id]})).
Proof.
  intros Hs. destruct (allocation_table s !! id) as [r|] eqn:Hr.
  - destruct (releaseReservation_run no_assert now q s id r Hs Hr) as (m' & Hrun & Hm' & Ht). exists m'. split; [done|].
    apply (released_agrees no_assert now q s id r m' Hs Hr Hm' Ht).
  - exists (manager s). rewrite delete_id by done. split.
    + unfold releaseReservation. rewrite bind_get, Hr. by destruct s.
    + rewrite remove_absent; [by destruct s|]. intros Hp. destruct (a_pending _ _ Hs id Hp) as (r & ? & _). congruence.
Qed.
Lemma agrees_filter q s id : agrees q s → agrees (filter (λ j, j ≠ id) q) s.
Proof.
  intros [F1 F2 F3 F4 F5 F6 F7]. split; try done; [by apply NoDup_filter|].
  intros j [_ Hj]%list_elem_of_filter. by apply F3.
Qed.

(** the job leaves the scheduler *)
Lemma drop_spec s id :
  agrees (jobs_to_schedule s) s →
  ∃ s', (delete_job id ≫= λ _, releaseReservation now id ≫= λ _, delete_pending_job id) s = (Ret tt, s') ∧
    agrees (jobs_to_schedule s') s' ∧ (∀ j, known (jobs_to_schedule s') s' j ↔ known (jobs_to_schedule s) s j ∧ j ≠ id) ∧
    at_frame s s'.
Proof.
  intros Hs. set (s1 := set_jobs_to_schedule (filter (λ j, j ≠ id)) s).
  assert (agrees (jobs_to_schedule s1) s1) as Hs1 by (apply agrees_queue; by apply agrees_filter).
  destruct (release_spec _ s1 id Hs1) as (m' & Hrun & Hs').
  exists (mk m' (jobs_to_schedule s1) (delete id (allocation_table s1)) (pending_jobs s1 ∖ {[id]})).
  split; [|split; [exact Hs'|split]].
  - unfold delete_job, mbind, M_bind. simpl. fold s1. rewrite Hrun. done.
  - intros j. unfold known. simpl. rewrite list_elem_of_filter, lookup_delete_is_Some. naive_solver.
  - pose proof (Frame.releaseReservation_framed (dom (worker_map (manager s))) (worker_connections (manager s)) now id s1) as Hf.
    rewrite Hrun in Hf. by apply Hf.
Qed.
Lemma wp_drop {Y} id (k : Ag Y) (Q : outcome exn Y → agent → Prop) a :
  sound_but (Some id) a → (∀ jb, jobs_of a !! id = Some jb → by_worker jb → terminal jb = true) →
  (∀ a', sound a' → ¬ scheduled a' id → jobs_of a' = jobs_of a → wp k Q a') →
  wp (with_scheduler (delete_job id) ≫= λ _, with_scheduler (releaseReservation now id) ≫= λ _,
      with_scheduler (delete_pending_job id) ≫= λ _, k) Q a.
Proof.
  intros Ha Ht Hk. destruct (drop_spec (sched a) id (s_agrees _ _ Ha)) as (s' & Hrun & Hs' & Hk' & Hf).
  assert (wp k Q (with_sched a s')) as Hwp.
  { apply Hk; [|intros Hn; by apply Hk' in Hn as [_ ?]|done].
    apply (sound_strengthen id); [|intros Hn; by apply Hk' in Hn as [_ ?]].
    apply sound_sched; [done|done|by apply (at_frame_addressed (sched a)), (sound_addressed _ _ Ha)| |].
    - intros j Hj. by apply Hk' in Hj as [? _].
    - intros j jb Hj Hw Hn Hsch. apply Hk'. split; [done|]. intros ->. by rewrite (Ht jb) in Hn. }
  unfold mbind, M_bind in Hrun. unfold wp, mbind, M_bind, with_scheduler in *. simpl in *.
  destruct (releaseReservation now id _) as [[[]|e] s2]; simpl in *; [|done]. by injection Hrun as ->.
Qed.

(** the reservation of a job that is not pending goes *)
Lemma release_sound a id :
  sound_but (Some id) a → id ∉ pending_jobs (sched a) → is_Some (allocation_table (sched a) !! id) →
  ∃ s', releaseReservation now id (sched a) = (Ret tt, s') ∧ agrees (jobs_to_schedule s') s' ∧
    jobs_to_schedule s' = jobs_to_schedule (sched a) ∧ allocation_table s' = delete id (allocation_table (sched a)) ∧
    (id ∉ jobs_to_schedule s') ∧ addressed (manager s').
Proof.
  intros Ha Hp [r Hr]. destruct (release_spec _ (sched a) id (s_agrees _ _ Ha)) as (m' & Hrun & Hs').
  rewrite remove_absent in Hs' by done. eexists. split; [exact Hrun|]. split_and!; try done.
  - intros Hq. pose proof (a_fresh _ _ (s_agrees _ _ Ha) id Hq). congruence.
  - apply (at_frame_addressed (sched a)); [|by eapply sound_addressed].
    pose proof (Frame.releaseReservation_framed (dom (workers_of a)) (worker_connections (manager (sched a))) now id (sched a)) as Hf.
    rewrite Hrun in Hf. by apply Hf.
Qed.

(** ** The handlers *)
Section handlers.
Context (depth fuel : nat).
Abbreviation run_callbacks := (callbacks print depth fuel).
Lemma Hcb : stable run_callbacks.
Proof. by apply stable_callbacks. Qed.
Definition safe {X} (f : Ag X) a : Prop := wp f (λ _, sound) a.
Lemma safe_inert {X} (f : Ag X) a : inert f → sound a → safe f a.
Proof. intros Hf Ha _. by apply (sound_core _ a). Qed.
Lemma safe_seq {X Y} (f : Ag X) (k : X → Ag Y) a : safe f a → (∀ x a', sound a' → safe (k x) a') → safe (f ≫= k) a.
Proof. intros Hf Hk. apply wp_bind_inv; [done|]. intros x a' _. apply Hk. Qed.
Lemma safe_engine c a : sound a → safe (engine fuel run_callbacks c) a.
Proof.
  intros Ha. eapply wp_mono; [apply (wp_engine fuel _ Hcb c a), steady_refl, Ha|]. by intros o a' _ [].
Qed.

Lemma CancelJob_terminal jb : terminal (job.CancelJob jb).2 = terminal jb.
Proof. unfold job.CancelJob. rewrite process_event_run. unfold terminal, job.getStatus. simpl. by destruct (job.current_state jb). Qed.
Lemma Dispatch_terminal jb : terminal (job.Dispatch jb).2 = terminal jb.
Proof. unfold job.Dispatch. rewrite process_event_run. unfold terminal, job.getStatus. simpl. by destruct (job.current_state jb). Qed.
Lemma Reschedule_terminal jb : terminal (job.Reschedule jb).2 = terminal jb.
Proof. unfold job.Reschedule. rewrite process_event_run. unfold terminal, job.getStatus. simpl. by destruct (job.current_state jb). Qed.
Lemma sound_job a id jb jb' :
  sound a → jobs_of a !! id = Some jb → job.source jb' = job.source jb → job.handler jb' = job.handler jb →
  job.id jb' = job.id jb → terminal jb' = terminal jb → sound (with_job_set a id jb').
Proof.
  intros Ha Hjb Hs Hh Hi Ht. apply (steady_job a None a id jb jb'); [by apply steady_refl|done|done|done|done|congruence|]. rewrite Ht. auto.
Qed.

(** after [CancelJob], [CancelJobAck] ends the job *)
Lemma cancel_ends jb :
  (job.CancelJob jb).1 = Ret tt → terminal (job.CancelJobAck (job.CancelJob jb).2).2 = true.
Proof.
  unfold job.CancelJob, job.CancelJobAck. rewrite !process_event_run. unfold terminal, job.getStatus. simpl.
  by destruct (job.current_state jb).
Qed.
Lemma safe_cancel_worker_handled_job id a : sound a → safe (cancel_worker_handled_job now fuel run_callbacks id) a.
Proof.
  intros Ha. unfold cancel_worker_handled_job, findJob. apply wp_get_bind. destruct (jobs_of a !! id) as [jb|] eqn:Hjb; [|by apply wp_mret].
  apply wp_bind, wp_with_job. intros jb0 Hjb0. simplify_eq.
  destruct (job_step_event job.e_begin_cancel jb) as (_ & Hs & Hh & _ & _ & Hjid).
  set (a1 := with_job_set a id (job.CancelJob jb).2).
  assert (sound a1) as Ha1 by (apply (sound_job a id jb); [done|done|done|done|done|apply CancelJob_terminal]).
  destruct (job.CancelJob jb).1 as [[]|e] eqn:Hc; [|done]. case_decide.
  2:{ case_match; [by apply wp_mret|]. apply safe_inert; [apply inert_send_to_workers|done]. }
  apply wp_bind. eapply wp_mono.
  { apply (wp_job_end_full fuel _ Hcb a1 id job.CancelJobAck (λ _, layer.Canceled id) (λ _, CancelJobAckEvent id) (λ _, CancelJobAckEvent id) (job.CancelJob jb).2);
      [apply job_step_event|done|apply lookup_insert_eq]. }
  intros [[]|ex] a2 _; [|done]. intros ([Ha2 _] & jb2 & Hjb2 & Hs2 & _ & Ht2). apply wp_drop; [done| |].
  - intros jb3 Hjb3 _. simplify_eq. apply Ht2; [|by apply cancel_ends].
    unfold job.CancelJob, job.CancelJobAck in *. rewrite process_event_run in Hc |- *. rewrite process_event_run. simpl in *.
    destruct (job.current_state jb); simpl in *; try done; by destruct job.rethrows.
  - intros a3 Ha3 Hn Hj3. assert (safe (deleteJob id) a3) as Hdel.
    { apply wp_deleteJob; [|done]. by apply sound_without. }
    destruct (job.source jb); try done. by apply wp_mret.
Qed.

(** *** Results of workers *)
Definition ended id a a' : Prop :=
  sound_but (Some id) a' ∧ allocation_table (sched a') = allocation_table (sched a) ∧
  pending_jobs (sched a') = pending_jobs (sched a) ∧ ∀ jb, jobs_of a' !! id = Some jb → terminal jb = true.
Lemma wp_report id f c e e' a jb :
  job_step f → sound a → jobs_of a !! id = Some jb → ((f jb).1 = Ret tt → terminal (f jb).2 = true) →
  wp (job_end fuel run_callbacks id f c e e') (λ o a', match o with Throw _ => sound a' | Ret _ => ended id a a' end) a.
Proof.
  intros Hf Ha Hjb Ht.
  eapply wp_mono; [apply wp_and; [by apply (wp_job_end_full fuel _ Hcb a id f c e e' jb)|by apply (wp_job_end fuel _ Hcb a id f c e e' jb)]|].
  intros [[]|ex] a' _; [|by intros []]. intros [([Ha' He] & jb' & Hjb' & _ & _ & Htt) [_ Hret]].
  destruct He as (_ & _ & _ & He2 & He3 & _). split_and!; [done|done|done|]. intros jb1 Hjb1. simplify_eq. auto.
Qed.
Lemma finish_ends jb r :
  job.getStatus jb ≠ job.CANCELING → (job.JobFinished r jb).1 = Ret tt → terminal (job.JobFinished r jb).2 = true.
Proof.
  unfold job.JobFinished, mbind, M_bind. rewrite process_event_run. unfold terminal, job.getStatus.
  destruct (job.current_state jb); simpl; try done; by destruct job.rethrows.
Qed.
Lemma fail_ends jb m :
  job.getStatus jb ≠ job.CANCELING → (job.JobFailed m jb).1 = Ret tt → terminal (job.JobFailed m jb).2 = true.
Proof.
  unfold job.JobFailed, mbind, M_bind. rewrite process_event_run. unfold terminal, job.getStatus.
  destruct (job.current_state jb); simpl; try done; by destruct job.rethrows.
Qed.
Lemma canceled_ends jb : job.getStatus jb = job.CANCELING → terminal (job.CancelJobAck jb).2 = true.
Proof.
  unfold job.CancelJobAck. rewrite process_event_run. unfold terminal, job.getStatus. simpl.
  by destruct (job.current_state jb).
Qed.

Lemma safe_job_termination id a :
  sound a → id ∉ pending_jobs (sched a) → safe (handle_job_termination now print depth fuel id) a.
Proof.
  intros Ha Hp. unfold handle_job_termination. apply wp_get_bind, wp_lift_bind; [|done]. intros [[ir ls]|] Hres; [|by apply wp_mret].
  assert (is_Some (allocation_table (sched a) !! id)) as Hr.
  { unfold get_aggregated_results_if_all_terminated in Hres. by destruct (allocation_table (sched a) !! id). }
  apply wp_lift_bind; [|done]. intros canceled _. apply wp_with_job_get. intros jb Hjb.
  destruct (canceled && negb (bool_decide (job.getStatus jb = job.CANCELING))).
  - destruct (release_sound a id (sound_weaken _ _ Ha) Hp Hr) as (s' & Hrun & Hs' & Hq & Hal & Hnq & Hm).
    apply (wp_with_scheduler_ret _ _ _ _ _ _ Hrun), safe_seq; [|intros _ a1 Ha1; by apply safe_inert; [apply inert_request_scheduling|]].
    intros _. assert (∀ j, known (jobs_to_schedule s' ++ [id]) s' j ↔ scheduled a j) as Hk.
    { intros j. unfold scheduled, known. rewrite Hq, Hal, elem_of_app, list_elem_of_singleton, lookup_delete_is_Some.
      destruct (decide (j = id)) as [->|Hne]; naive_solver. }
    apply (sound_sched None a); [done| |done|by intros j ?%Hk|by intros j jb' _ _ _ ?%Hk].
    apply agrees_enqueue; [done|done|]. simpl. rewrite Hal. apply lookup_delete_eq.
  - apply wp_bind. apply wp_mono with (Q := λ o a', match o with Throw _ => sound a' | Ret _ => ended id a a' end).
    { case_bool_decide as Hc.
      - apply (wp_report id job.CancelJobAck (λ _, layer.Canceled id) (λ _, CancelJobAckEvent id) (λ _, CancelJobAckEvent id) a jb);
          [apply job_step_event|done|done|by intros _; apply canceled_ends].
      - case_match.
        + apply (wp_report id (job.JobFinished ls) (λ jb, layer.Finished id (job.result jb)) (λ jb, JobFinishedEvent id (job.result jb)) (λ jb, JobFinishedEvent id (job.result jb)) a jb);
            [apply job_step_finished|done|done|by apply finish_ends].
        + apply (wp_report id (job.JobFailed _) (λ jb, layer.Failed id (job.error_message jb)) (λ jb, JobFailedEvent id (job.error_message jb)) (λ _, JobFailedEvent id "") a jb);
            [apply job_step_failed|done|done|by apply fail_ends]. }
    intros [[]|e] a1 _; [|done]. intros (Ha1 & Hal1 & Hp1 & Ht).
    destruct (release_sound a1 id Ha1) as (s' & Hrun & Hs' & Hq & Hal & Hnq & Hm); [by rewrite Hp1|by rewrite Hal1|].
    apply (wp_with_scheduler_ret _ _ _ _ _ _ Hrun).
    assert (¬ known (jobs_to_schedule s') s' id) as Hn.
    { intros [?|Hs]; [done|]. rewrite Hal, lookup_delete_is_Some in Hs. tauto. }
    assert (sound (with_sched a1 s')) as Ha2.
    { apply (sound_strengthen id); [|done]. apply sound_sched; [done|done|done| |].
      - intros j [Hj|Hj]; [left; by rewrite <- Hq|right]. rewrite Hal, lookup_delete_is_Some in Hj. tauto.
      - intros j jb' Hj _ Htf [Hsj|Hsj]; [left; by rewrite Hq|right]. rewrite Hal, lookup_delete_is_Some. split; [|done].
        intros <-. by rewrite (Ht jb') in Htf. }
    apply wp_bind. unfold wp at 1. intros _.
    set (a3 := (request_scheduling (with_sched a1 s')).2).
    assert (sound a3) as Ha3 by (by apply (sound_core _ (with_sched a1 s'))).
    destruct (job.source jb); try by apply wp_mret. apply wp_deleteJob; [|done]. by apply sound_without.
Qed.

(** *** Lost workers *)
Definition alike a a' : Prop :=
  similar (sched a) (sched a') ∧
  (∀ j, match jobs_of a !! j, jobs_of a' !! j with
        | Some jb, Some jb' => job.source jb' = job.source jb ∧ job.handler jb' = job.handler jb ∧ job.id jb' = job.id jb ∧ terminal jb' = terminal jb
        | None, None => True
        | _, _ => False
        end) ∧
  requirements (world_of a') = requirements (world_of a) ∧
  (is_Some (workflow_engine (world_of a')) ↔ is_Some (workflow_engine (world_of a))).
Lemma alike_core a a' : same_core a a' → alike a a'.
Proof.
  intros (Hs & Hj & Hr & He). unfold alike. rewrite Hs, Hj. split_and!; try done; try apply He.
  intros j. by destruct (jobs_of a !! j).
Qed.
Lemma alike_trans a1 a2 a3 : alike a1 a2 → alike a2 a3 → alike a1 a3.
Proof.
  intros (S1 & J1 & R1 & E1) (S2 & J2 & R2 & E2). split; [by apply (similar_trans _ (sched a2))|].
  split; [|split; [congruence|tauto]]. intros j. specialize (J1 j). specialize (J2 j).
  destruct (jobs_of a1 !! j), (jobs_of a2 !! j), (jobs_of a3 !! j); try done.
  destruct J1 as (? & ? & ? & ?), J2 as (? & ? & ? & ?). split_and!; congruence.
Qed.
Lemma alike_job a id jb jb' :
  jobs_of a !! id = Some jb → job.source jb' = job.source jb → job.handler jb' = job.handler jb →
  job.id jb' = job.id jb → terminal jb' = terminal jb → alike a (with_job_set a id jb').
Proof.
  intros Hjb Hs Hh Hi Ht. split_and!; try done. intros j. simpl. destruct (decide (id = j)) as [<-|Hne].
  - by rewrite lookup_insert_eq, Hjb.
  - rewrite lookup_insert_ne by done. by destruct (jobs_of a !! j).
Qed.
Lemma alike_similar a s : similar (sched a) s → alike a (with_sched a s).
Proof. intros Hs. split_and!; try done. intros j. simpl. by destruct (jobs_of a !! j). Qed.
Lemma sound_alike a a' : sound a → alike a a' → sound a'.
Proof.
  intros [F1 F2 F3 F7 F4 F5 F6] (Hs & Hj & Hr & He). pose proof Hs as (Hm & Hq & Hp & _).
  assert (∀ j, scheduled a' j ↔ scheduled a j) as Hk.
  { intros j. unfold scheduled. rewrite Hq. by apply similar_known. }
  assert (∀ j jb', jobs_of a' !! j = Some jb' → ∃ jb, jobs_of a !! j = Some jb ∧ job.source jb' = job.source jb ∧
    job.handler jb' = job.handler jb ∧ job.id jb' = job.id jb ∧ terminal jb' = terminal jb) as Hback.
  { intros j jb' Hj'. specialize (Hj j). rewrite Hj' in Hj. destruct (jobs_of a !! j); [eauto|done]. }
  split.
  - rewrite Hq. by apply (similar_agrees _ (sched a)).
  - intros j Hj'%Hk. destruct (F2 j Hj') as (jb & Hjb & Hw & Hor). specialize (Hj j). rewrite Hjb in Hj.
    destruct (jobs_of a' !! j) as [jb'|]; [|done]. destruct Hj as (E1 & E2 & _ & E3). exists jb'.
    unfold by_worker, by_wfe in *. rewrite E1, E2, E3. done.
  - intros j jb' Hj' Hw Ht. destruct (Hback j jb' Hj') as (jb & Hjb & E1 & E2 & _ & E3). apply Hk, (F3 j jb); [done| |congruence].
    unfold by_worker in *. congruence.
  - intros j jb' Hj'. destruct (Hback j jb' Hj') as (jb & Hjb & _ & _ & -> & _). by apply F7.
  - intros j [jb' Hj']. destruct (Hback j jb' Hj') as (jb & Hjb & _). rewrite Hr. eauto.
  - intros Hen j jb' Hj'. destruct (Hback j jb' Hj') as (jb & Hjb & E1 & E2 & _). unfold by_worker, by_wfe. rewrite E1, E2.
    apply (F5 (proj1 He Hen) j jb Hjb).
  - rewrite Hm. done.
Qed.

Lemma inert_cancel_worker_job m w id : inert (with_world (cancel_worker_job m w id) : Ag unit).
Proof. intros a. unfold with_world, cancel_worker_job, mbind, M_bind, address_by_worker. simpl. by destruct (worker_connections m !! w). Qed.
Lemma wp_cancel_or_reschedule m worker R id a :
  wp (cancel_or_reschedule (cancel_worker_job m) worker R id)
    (λ o a', alike a a' ∧ ∀ R', o = Ret R' → R ⊆ R' ⊆ {[id]} ∪ R) a.
Proof.
  unfold cancel_or_reschedule. apply wp_get_bind. unfold wp at 1. rewrite bind_fhg_assert by done.
  destruct (allocation_table (sched a) !! id) as [r|] eqn:Hr.
  2:{ unfold with_scheduler, reservation_at, mbind, M_bind. simpl. rewrite Hr. simpl. intros _. split; [|done].
      apply alike_core. by destruct a. }
  rewrite (bind_ret _ _ _ _ _ (with_scheduler_run _ _ _ _ (reservation_at_run _ _ _ Hr))), agent_same.
  match goal with |- defined (?f a).1 = true → ?P => change (wp f (λ o a', alike a a' ∧ ∀ R', o = Ret R' → R ⊆ R' ⊆ {[id]} ∪ R) a) end.
  apply wp_bind, wp_with_job. intros jb Hjb. destruct (job_step_event job.e_reschedule jb) as (_ & Hs & Hh & _ & _ & Hjid).
  set (a1 := with_job_set a id (job.Reschedule jb).2).
  assert (alike a a1) as Ha1 by (apply (alike_job a id jb); [done|done|done|done|apply Reschedule_terminal]).
  destruct (job.Reschedule jb).1 as [[]|e]; [|by split].
  set (r' := Reservation.mark_as_canceled_if_no_result_stored_yet worker r).
  set (s' := set_allocation_table <[id := r']> (sched a)).
  assert (on_reservation id (modify (Reservation.mark_as_canceled_if_no_result_stored_yet worker)) (sched a1) = (Ret tt, s')) as Hon.
  { unfold on_reservation. by rewrite (bind_ret _ _ _ _ _ (reservation_at_run _ _ _ Hr)). }
  apply (wp_with_scheduler_ret _ _ _ _ _ _ Hon). apply wp_get_bind, wp_lift_bind; [|by intros e; simpl; rewrite lookup_insert_eq].
  assert (alike a (with_sched a1 s')) as Ha2.
  { apply (alike_trans _ a1); [done|]. apply alike_similar. split_and!; try done. intros j. simpl.
    destruct (decide (id = j)) as [<-|Hne]; [by rewrite lookup_insert_eq, Hr|by rewrite lookup_insert_ne]. }
  intros jb2 _. eapply wp_with_scheduler_ret; [apply reservation_at_run; apply lookup_insert_eq|].
  apply wp_bind.
  apply wp_mono with (Q := λ o a', same_core (with_sched a1 s') a').
  { intros _. match goal with |- same_core _ (?f ?b).2 => assert (inert f) as Hf; [|apply (Hf b)] end.
    unfold Reservation.apply_to_workers_without_result. apply inert_bind; [|done]. apply inert_for_each. intros w.
    case_match; [done|apply inert_cancel_worker_job]. }
  intros o a' _ Hc. assert (alike a a') as Ha' by (apply (alike_trans _ _ _ Ha2), alike_core, Hc).
  destruct o as [b|e]; [|by split]. apply wp_mret. split; [done|]. intros R' [= <-]. destruct b; set_solver.
Qed.

(** all workers but one have addresses *)
Definition addressed_but (x : worker_id_t) (m : WorkerManager.type) : Prop :=
  ∀ w, w ≠ x → is_Some (worker_map m !! w) → is_Some (worker_connections m !! w).
Lemma framed_addressed_but x {X} (f : M WorkerManager.type exn X) :
  (∀ D c, preserves (Frame.framed D c) f) → preserves (addressed_but x) f.
Proof.
  intros Hf m Hm w Hx Hw. destruct (Hf (dom (worker_map m)) (worker_connections m) m) as [Hd Hc]; [done|].
  rewrite Hc. apply Hm; [done|]. apply elem_of_dom, Hd. by apply elem_of_dom.
Qed.
Lemma deleteWorker_addressed_but x : preserves (addressed_but x) (deleteWorker x).
Proof.
  unfold deleteWorker, fhg_assert. repeat first
    [ apply preserves_bind; [|intros ?] | apply preserves_get | apply preserves_ret | apply preserves_throw | apply preserves_lift
    | case_match
    | apply framed_addressed_but; intros ? ?; first [apply Frame.worker_found_framed | apply Frame.on_class_framed | apply Frame.class_at_framed]
    | apply preserves_modify; intros m Hm w Hx; simpl; rewrite ?lookup_delete_ne by done; by apply Hm ].
Qed.
Lemma with_scheduler_preserves (I : WorkerManager.type → Prop) J W {X} (f : M (scheduler.type A) exn X) :
  preserves (λ s, I (manager s)) f →
  preserves (λ a, I (manager (sched a)) ∧ jobs_of a = J ∧ world_of a = W) (with_scheduler f).
Proof. intros Hf a (Ha & ? & ?). specialize (Hf (sched a) Ha). unfold with_scheduler. by destruct (f (sched a)). Qed.
Lemma on_manager_preserves (I : WorkerManager.type → Prop) {X} (f : M WorkerManager.type exn X) :
  preserves I f → preserves (λ s, I (manager s)) (on_manager f : M (scheduler.type A) exn X).
Proof. intros Hf s Hs. specialize (Hf (manager s) Hs). unfold on_manager. by destruct (f (manager s)). Qed.

Lemma at_frame_but x s s' : at_frame s s' → addressed_but x (manager s) → addressed_but x (manager s').
Proof. intros [Hd Hc] Hs w Hx Hw. rewrite Hc. apply Hs; [done|]. apply elem_of_dom, Hd. by apply elem_of_dom. Qed.
Lemma requeue_preserves (I : WorkerManager.type → Prop) J W R :
  (∀ s s', at_frame s s' → I (manager s) → I (manager s')) →
  preserves (λ a, I (manager (sched a)) ∧ jobs_of a = J ∧ world_of a = W)
    (for_each (λ id, with_scheduler (releaseReservation now id) ≫= λ _,
       with_scheduler (delete_pending_job id) ≫= λ _, with_scheduler (enqueueJob id)) R).
Proof.
  intros HI. apply preserves_for_each. intros j _. apply preserves_bind; [|intros _; apply preserves_bind; [|intros _]];
    apply with_scheduler_preserves.
  - intros s. apply HI. by apply Frame.releaseReservation_framed.
  - by apply preserves_modify.
  - by apply preserves_modify.
Qed.
Lemma backlog_addressed worker b : preserves addressed (set_worker_backlog_full worker b).
Proof.
  intros m Hm w Hw. destruct (Frame.backlog_framed (dom (worker_map m)) (worker_connections m) worker b m) as [Hd Hc]; [done|].
  rewrite Hc. apply Hm, elem_of_dom, Hd. by apply elem_of_dom.
Qed.

Lemma safe_reschedule m worker b a :
  sound a → safe (reschedule_worker_jobs_and_maybe_remove_worker now (cancel_worker_job m) worker b) a.
Proof.
  intros Ha. unfold reschedule_worker_jobs_and_maybe_remove_worker, delete_or_cancel_worker_jobs.
  destruct (workers_of a !! worker) as [w|] eqn:Hw.
  2:{ apply wp_bind, wp_bind, wp_with_scheduler. unfold wp, on_manager, worker_at, mbind, M_bind. simpl. rewrite Hw. simpl.
      intros _. rewrite set_manager_same. unfold with_sched. by rewrite agent_same. }
  pose proof (s_agrees _ _ Ha) as Hs.
  set (P := λ (o : outcome exn (gset job_id_t)) a', alike a a' ∧ ∀ R, o = Ret R → Worker.pending w ⊆ R ⊆ jobs w).
  assert (∀ l, (∀ j, j ∈ l → j ∈ jobs w) → ∀ acc : Ag (gset job_id_t), wp acc P a →
    wp (foldl (λ acc id, acc ≫= λ R, cancel_or_reschedule (cancel_worker_job m) worker R id) acc l) P a) as Hfold.
  { induction l as [|j l IH]; intros Hl acc Hacc; simpl; [done|]. apply IH; [intros; apply Hl; by right|].
    apply wp_bind. eapply wp_mono; [exact Hacc|]. intros [R|e] a1 _ [Ha1 HR]; [|by split].
    eapply wp_mono; [apply wp_cancel_or_reschedule|]. intros o a2 _ [Ha2 HR2]. split; [by apply (alike_trans _ a1)|].
    intros R' ->. specialize (HR R eq_refl). specialize (HR2 R' eq_refl). assert (j ∈ jobs w) as Hj by (apply Hl; by left).
    clear -HR HR2 Hj. set_solver. }
  apply wp_bind. eapply wp_mono.
  { eapply wp_with_scheduler_ret; [apply on_manager_run; unfold worker_at; rewrite bind_get, Hw; done|].
    rewrite set_manager_same. unfold with_sched. rewrite agent_same. apply Hfold; [|apply wp_mret].
    - intros j. rewrite elem_of_unordered_elements. unfold jobs. set_solver.
    - split; [by apply alike_core|]. intros R [= <-]. unfold jobs. set_solver. }
  intros [R|e] a1 _ [Ha1 HR]; [|by apply (sound_alike a)]. destruct (HR R eq_refl) as [HR1 HR2].
  destruct (lost_worker_rest no_assert now (cancel_worker_job m) worker w b R a a1 Hs Hw (proj1 Ha1) HR1 HR2)
    as (a' & Hrun & Hs' & Hk & _ & Hgone).
  pose proof (sound_alike _ _ Ha Ha1) as Hsound.
  match type of Hrun with ?f a1 = _ => assert (preserves (λ c, (if b then addressed else addressed_but worker) (manager (sched c))
    ∧ jobs_of c = jobs_of a1 ∧ world_of c = world_of a1) f) as Hpres end.
  { apply preserves_bind.
    - apply requeue_preserves. intros s s'. destruct b; [apply at_frame_addressed|apply at_frame_but].
    - intros _. destruct b; apply with_scheduler_preserves, on_manager_preserves; [apply backlog_addressed|apply deleteWorker_addressed_but]. }
  specialize (Hpres a1). rewrite Hrun in Hpres. simpl in Hpres. destruct Hpres as (Hm' & Hj' & Hw').
  { split; [|done]. pose proof (sound_addressed _ _ Hsound) as Hm. destruct b; [done|]. intros x _. apply Hm. }
  intros _. rewrite Hrun. simpl. replace a' with (with_sched a1 (sched a')) by (unfold with_sched; rewrite <- Hj', <- Hw'; by destruct a').
  assert (∀ j, scheduled a1 j ↔ scheduled a j) as Hk1.
  { intros j. unfold scheduled. pose proof (proj1 Ha1) as Hsim. pose proof Hsim as (_ & -> & _). by apply similar_known. }
  apply sound_sched; [done|done| | |].
  - destruct b; [done|]. intros x Hx. apply Hm'; [|done]. intros ->. rewrite Hgone in Hx by done. by destruct Hx.
  - intros j ?%Hk. by apply Hk1.
  - intros j jb _ _ _ ?%Hk1. by apply Hk.
Qed.

(** *** New workers *)
Lemma added_agrees q s id w m' :
  agrees q s → worker_map (manager s) !! id = None → jobs w = ∅ → consistent m' →
  (∀ j r, allocation_table s !! j = Some r → id ∉ Reservation.workers r) →
  worker_map m' = <[id := w]> (worker_map (manager s)) → agrees q (set_manager m' s).
Proof.
  intros [F1 F2 F3 F4 F5 F6 F7] Hid Hw Hm' Hr Hmap. apply jobs_empty in Hw as Hp. destruct Hp as [Hp _].
  split; simpl; rewrite ?Hmap; try done.
  - intros i w' j [[<- <-]|[_ Hw']]%lookup_insert_Some Hj; [rewrite Hw in Hj; by apply elem_of_empty in Hj|by apply (F4 i w')].
  - intros j r i w' Hj Hi [[<- <-]|[_ Hw']]%lookup_insert_Some; [by destruct (Hr j r Hj)|by apply (F5 j r i)].
  - intros j Hj. destruct (F6 j Hj) as (r & Hjr & Hws). exists r. split; [done|]. intros i Hi.
    destruct (Hws i Hi) as (w' & Hw' & ?). exists w'. rewrite lookup_insert_ne; [done|]. intros <-. congruence.
  - intros i w' j [[<- <-]|[_ Hw']]%lookup_insert_Some Hj; [rewrite Hp in Hj; by apply elem_of_empty in Hj|by apply (F7 i w')].
Qed.
Lemma addWorker_connections t id cs shm ch h x m :
  worker_map m !! id = None →
  worker_connections (addWorker t id cs shm ch h x m).2 = connect id x (worker_connections m).
Proof.
  intros Hid. unfold addWorker. rewrite bind_get, decide_False by (rewrite Hid; by intros []). rewrite !bind_modify.
  unfold on_class, class_at, mbind, M_bind. simpl. by rewrite lookup_insert_eq.
Qed.
Lemma connect_keeps id x c w : is_Some (c !! w) → is_Some (connect id x c !! w).
Proof.
  intros Hw. unfold connect. repeat case_decide; [done|done|]. destruct (decide (id = w)) as [<-|Hne]; [by rewrite lookup_insert_eq|].
  by rewrite lookup_insert_ne.
Qed.
Lemma safe_addWorker t id cs shm ch h x a :
  sound a → (∀ j r, allocation_table (sched a) !! j = Some r → id ∉ Reservation.workers r) →
  x ∉ (map_to_list (worker_connections (manager (sched a)))).*2 →
  safe (with_scheduler (on_manager (addWorker t id cs shm ch h x))) a.
Proof.
  intros Ha Hr Hx. apply wp_with_scheduler. unfold wp, on_manager.
  destruct (workers_of a !! id) as [w|] eqn:Hid.
  { assert (addWorker t id cs shm ch h x (manager (sched a)) = (Throw (runtime_error ("worker '" +:+ id +:+ "' already exists")), manager (sched a))) as ->.
    { unfold addWorker. rewrite bind_get, decide_True by (rewrite Hid; eauto). done. }
    simpl. intros _. rewrite set_manager_same. unfold with_sched. by rewrite agent_same. }
  pose proof (s_agrees _ _ Ha) as Hs.
  destruct (addWorker_consistent no_assert (manager (sched a)) t id cs shm ch h x (a_manager _ _ Hs) Hid) as (m' & Hrun & Hm' & Hmap).
  pose proof (addWorker_connections t id cs shm ch h x (manager (sched a)) Hid) as Hconn. rewrite Hrun in *. simpl in *. intros _.
  apply (sound_sched None a); [done| | |done|done].
  - apply (added_agrees _ _ id (Worker.make t cs shm ch h)); done.
  - simpl. intros w Hw. rewrite Hconn. rewrite Hmap in Hw. destruct (decide (id = w)) as [<-|Hne].
    + unfold connect. case_decide; [done|]. rewrite decide_False by done. by rewrite lookup_insert_eq.
    + apply connect_keeps, (sound_addressed _ _ Ha). by rewrite lookup_insert_ne in Hw.
Qed.

(** ** All events

    What an agent relies on and does not check: a worker does not register with a name
    that is still in a reservation, or from an address that another worker has; results
    and acknowledgements of cancellations come only for jobs that do not wait for being
    started; the results of jobs are acknowledged only when they have ended, and by the
    masters that submitted them; and the capabilities of a worker change only while it
    has no jobs and another worker has the same capabilities, and only those are lost
    that the worker has. *)
Definition admissible (source : Agent.address) (e : event A) a : bool :=
  match e with
  | WorkerRegistrationEvent worker _ _ _ _ =>
      bool_decide (map_Forall (λ _ r, worker ∉ Reservation.workers r) (allocation_table (sched a))) &&
      bool_decide (source ∉ (map_to_list (worker_connections (manager (sched a)))).*2)
  | JobFinishedEvent id _ | JobFailedEvent id _ | CancelJobAckEvent id => bool_decide (id ∉ pending_jobs (sched a))
  | JobFinishedAckEvent id | JobFailedAckEvent id =>
      match jobs_of a !! id with
      | Some jb => terminal jb && match job.source jb with job.job_source_wfe => false | _ => true end
      | None => true
      end
  | CapabilitiesGainedEvent _ =>
      match worker_by_address source (manager (sched a)) with
      | Some w => idle_in_company w (manager (sched a))
      | None => true
      end
  | CapabilitiesLostEvent capabilities =>
      match worker_by_address source (manager (sched a)) with
      | Some w => contract (Lose w capabilities) (manager (sched a))
      | None => true
      end
  | _ => true
  end.

Lemma safe_catching {X} (f : Ag X) (h : exn → Ag X) a :
  safe f a → (∀ e a', sound a' → safe (h e) a') → safe (catching f h) a.
Proof.
  intros Hf Hh. unfold safe, wp, catching in *. destruct (f a) as [[x|e] a1]; simpl in *; [done|].
  destruct (catchable e) eqn:He; [|done]. apply Hh, Hf. by destruct e.
Qed.
Lemma terminal_not_scheduled a id jb :
  sound a → jobs_of a !! id = Some jb → terminal jb = true → ¬ by_wfe jb → ¬ scheduled a id.
Proof.
  intros Ha Hjb Ht Hw Hs. destruct (s_scheduled _ _ Ha id Hs) as (jb' & Hjb' & _ & [?|[?|?]]); simplify_eq; congruence.
Qed.

Lemma safe_delete source id a : sound a → safe (handleDeleteJobEvent source id) a.
Proof.
  intros Ha. unfold handleDeleteJobEvent. apply wp_require_job; [|done]. intros jb Hjb.
  destruct (negb (job.is_terminal (job.getStatus jb))) eqn:Ht; [by apply wp_throw|]. apply negb_false_iff in Ht.
  destruct (job.source jb) eqn:Hs; [by apply wp_throw..|]. apply safe_seq; [|intros _ a1 Ha1; by apply safe_inert; [apply inert_send|]].
  apply wp_deleteJob; [|done]. apply sound_without; [done|]. apply (terminal_not_scheduled a id jb); try done.
  unfold by_wfe. congruence.
Qed.
Lemma safe_cancel source id a : sound a → safe (handleCancelJobEvent now print depth fuel source id) a.
Proof.
  intros Ha. unfold handleCancelJobEvent. apply wp_require_job; [|done]. intros jb Hjb. apply wp_get_bind.
  case_decide; [by apply wp_throw|].
  do 2 (match goal with |- wp (if ?b then _ else _) _ _ => destruct b; [by apply wp_throw|] end). apply wp_bind.
  match goal with |- wp ?f _ a => assert (inert f) as Hf end.
  { match goal with |- inert (if ?b then _ else _) => destruct b end; [apply inert_send|done]. }
  intros _. destruct (Hf a) as (Hsch & Hj & _). pose proof (sound_core _ _ _ (Hf a) Ha) as Ha1.
  match goal with |- match ?o with _ => _ end => destruct o as [[]|e]; [|done] end.
  match goal with |- wp _ _ ?b => set (a1 := b) in * end. clear Hf. rewrite <- Hj in Hjb.
  destruct (job.handler jb) eqn:Hh; [|by apply safe_cancel_worker_handled_job]. case_decide.
  - apply wp_bind, wp_with_job. intros jb1 Hjb1. simplify_eq. destruct (job_step_event job.e_begin_cancel jb) as (_ & Hs' & Hh' & _ & _ & Hjid).
    assert (sound (with_job_set a1 id (job.CancelJob jb).2)) by (apply (sound_job a1 id jb); [done|done|done|done|done|apply CancelJob_terminal]).
    destruct (job.CancelJob jb).1; [|done]. by apply safe_engine.
  - apply wp_bind. eapply wp_mono.
    { apply (wp_job_end_full fuel _ Hcb a1 id job.CancelJobAck (λ _, layer.Canceled id) (λ _, CancelJobAckEvent id) (λ _, CancelJobAckEvent id) jb);
        [apply job_step_event|done|done]. }
    intros [[]|ex] a2 _; [|done]. intros ([Ha2 _] & jb2 & Hjb2 & _ & Hh2 & _).
    assert (¬ scheduled a2 id) as Hn by (apply (not_scheduled _ _ _ _ Ha2 Hjb2); unfold by_worker; congruence).
    apply wp_deleteJob; [|intros ?; by apply (sound_strengthen id)]. apply sound_without; [by apply (sound_strengthen id)|done].
Qed.
Lemma safe_workflow_engine_submit id a : sound a → safe (workflow_engine_submit print fuel run_callbacks id) a.
Proof.
  intros Ha. destruct (workflow_engine (world_of a)) eqn:He.
  - eapply wp_mono; [apply (stable_workflow_engine_submit print fuel _ Hcb id a a);
      [by eexists|by apply steady_refl]|]. by intros o a' _ [].
  - unfold workflow_engine_submit, safe, wp, catching, with_job, mbind, M_bind. destruct (jobs_of a !! id) as [jb|] eqn:Hjb; [|done].
    simpl. unfold engine, mbind, M_bind. simpl. by rewrite He.
Qed.
Lemma safe_submit new_id source job_id act a : sound a → safe (handleSubmitJobEvent print depth fuel new_id source job_id act) a.
Proof.
  intros Ha. unfold handleSubmitJobEvent. apply wp_get_bind. case_match; [by apply safe_inert; [apply inert_send|]|].
  set (id := default new_id job_id). match goal with |- context [addJobWithNoPreferences _ _ ?x _] => set (src := x) end.
  apply wp_bind, wp_addJob_with; [|done]. intros Hid.
  destruct (hasWorkflowEngine a) eqn:He; unfold hasWorkflowEngine in He; [apply bool_decide_eq_true in He|apply bool_decide_eq_false in He].
  - pose proof (sound_new a id act src job.job_handler_wfe no_preferences Ha Hid no_preferences_schedulable ltac:(done)) as Hn.
    apply safe_seq; [by apply safe_inert; [apply inert_send|]|]. intros _ a1 Ha1.
    apply safe_seq; [by apply safe_workflow_engine_submit|intros b a2 Ha2; by apply wp_mret].
  - pose proof (sound_new a id act src job.job_handler_worker no_preferences Ha Hid no_preferences_schedulable ltac:(done)) as Hn.
    simpl in Hn. apply wp_bind. intros _. apply wp_bind. intros _. apply safe_inert; [apply inert_request_scheduling|].
    refine (sound_core _ _ _ _ Hn). by split_and!.
Qed.
Lemma safe_registration source w cs shm ch h a :
  sound a → admissible source (WorkerRegistrationEvent w cs shm ch h) a = true →
  safe (handleWorkerRegistrationEvent now source w cs shm ch h) a.
Proof.
  intros Ha [Hr%bool_decide_eq_true Hx%bool_decide_eq_true]%andb_true_iff. unfold handleWorkerRegistrationEvent.
  apply safe_catching; [|intros e a1 Ha1; by apply safe_inert; [apply inert_send|]].
  apply wp_get_bind, safe_seq; [apply safe_addWorker; [done| |done]; intros j r; apply Hr|].
  intros _ a1 Ha1. apply safe_inert; [|done]. apply inert_bind; [apply inert_request_scheduling|intros _].
  apply inert_bind; [case_decide; [done|apply inert_send_to_masters]|intros _; apply inert_send].
Qed.
Lemma safe_shutdown source b a : sound a → safe (handle_shutdown now source b) a.
Proof.
  intros Ha. unfold handle_shutdown. apply wp_get_bind, safe_seq; [by apply safe_inert; [apply inert_update|]|].
  intros _ a1 Ha1. destruct (worker_by_address source _) as [w|].
  - apply safe_seq; [apply safe_inert; [|done]; apply inert_for_each; intros m; case_match; [|done];
      apply inert_bind; [done|intros ?; apply inert_send]|].
    intros _ a2 Ha2. apply safe_seq; [by apply safe_reschedule|]. intros _ a3 Ha3. by apply safe_inert; [apply inert_request_scheduling|].
  - case_match; [|by apply wp_mret]. apply safe_inert; [|done]. unfold lose_master. apply inert_get_bind. intros a2.
    case_match; [|done]. apply inert_bind; [by apply inert_update|intros _; by apply inert_update].
Qed.
Lemma safe_error source code x a : sound a → safe (handleErrorEvent now source code x) a.
Proof.
  intros Ha. unfold handleErrorEvent. destruct code; [|by apply safe_shutdown|by apply wp_mret].
  apply wp_get_bind, wp_lift_bind; [|done]. intros j _. destruct (findJob j a); [|by apply wp_throw].
  destruct (worker_by_address source _); [by apply safe_shutdown|by apply wp_throw].
Qed.
Lemma safe_result source id m r a :
  sound a → id ∉ pending_jobs (sched a) → safe (handle_result now print depth fuel source id m r) a.
Proof.
  intros Ha Hp. unfold handle_result. apply wp_require_job; [|done]. intros jb Hjb. unfold worker_of.
  apply wp_bind, wp_get_bind. unfold wp at 1, lift, or_throw.
  destruct (worker_by_address source (manager (sched a))) as [w|]; simpl; [|done]. intros _. apply wp_bind, wp_with_scheduler.
  unfold wp. intros _. set (s' := (store_result w id r (sched a)).2).
  assert (similar (sched a) s') as Hs.
  { unfold s', store_result. rewrite bind_get. case_decide as Hd; [|done]. destruct Hd as [rv Hrv].
    assert (Reservation.workers (Reservation.store_result w r rv).2 = Reservation.workers rv) as Hws.
    { unfold Reservation.store_result. rewrite bind_get. by destruct (Reservation.individual_results rv !! w). }
    unfold on_reservation. rewrite (bind_ret _ _ _ _ _ (reservation_at_run _ _ _ Hrv)).
    destruct (Reservation.store_result w r rv) as [o rv']. rewrite bind_modify. split_and!; try done. intros j. simpl in *.
    destruct (decide (id = j)) as [<-|Hne]; [|by rewrite lookup_insert_ne]. rewrite lookup_insert_eq, Hrv. simpl. by rewrite Hws. }
  assert (sound (with_sched a s')) as Ha1 by (apply (sound_alike a); [done|by apply alike_similar]).
  destruct (store_result w id r (sched a)).1 as [[]|e]; [|done]. apply safe_job_termination; [done|].
  destruct Hs as (_ & _ & Hpend & _). simpl. by rewrite Hpend.
Qed.

(** a worker is replaced by one with the same jobs *)
Lemma sound_worker a id w wnew m' :
  sound a → workers_of a !! id = Some w → consistent m' → jobs wnew = jobs w → Worker.pending wnew = Worker.pending w →
  worker_map m' = <[id := wnew]> (workers_of a) → addressed m' → sound (with_sched a (set_manager m' (sched a))).
Proof.
  intros Ha Hw Hm' Hj Hp Hmap Hadd. apply (sound_sched None a); [done| |done|done|done].
  apply (same_worker_agrees _ _ id w wnew); try done. apply (s_agrees _ _ Ha).
Qed.
Lemma framed_addressed {X} (f : M WorkerManager.type exn X) :
  (∀ D c, preserves (Frame.framed D c) f) → preserves addressed f.
Proof.
  intros Hf m Hm w Hw. destruct (Hf (dom (worker_map m)) (worker_connections m) m) as [Hd Hc]; [done|].
  rewrite Hc. apply Hm, elem_of_dom, Hd. by apply elem_of_dom.
Qed.
Lemma safe_acknowledge id w a :
  sound a → safe (with_scheduler (on_manager (acknowledge_job_sent_to_worker id w))) a.
Proof.
  intros Ha. apply wp_with_scheduler. unfold wp, on_manager.
  pose proof (framed_addressed (acknowledge_job_sent_to_worker id w) (λ D c, Frame.acknowledge_framed D c id w) _ (sound_addressed _ _ Ha)) as Hadd.
  destruct (workers_of a !! w) as [wk|] eqn:Hw.
  2:{ unfold acknowledge_job_sent_to_worker, worker_at, mbind, M_bind. simpl. rewrite Hw. simpl. intros _.
      rewrite set_manager_same. unfold with_sched. by rewrite agent_same. }
  destruct (decide (id ∈ Worker.submitted wk)) as [Hs|Hs].
  - destruct (acknowledge_consistent no_assert (manager (sched a)) id w wk) as (m' & Hrun & Hm' & Hmap);
      [apply (a_manager _ _ (s_agrees _ _ Ha))|done|done|]. rewrite Hrun in *. intros _.
    apply (sound_worker a w wk (acknowledged id wk)); try done. unfold jobs. simpl.
    apply set_eq. intros x. destruct (decide (x = id)); set_solver.
  - unfold acknowledge_job_sent_to_worker, worker_at, on_worker, worker_found, Worker.acknowledge, mbind, M_bind. simpl. rewrite Hw. simpl.
    rewrite decide_False by done. simpl. intros _.
    assert (set_worker_map <[w:=wk]> (manager (sched a)) = manager (sched a)) as ->.
    { unfold set_worker_map. rewrite insert_id by done. by destruct (manager (sched a)). }
    rewrite set_manager_same. unfold with_sched. by rewrite agent_same.
Qed.
Lemma safe_submit_ack source id a : sound a → safe (handleSubmitJobAckEvent source id) a.
Proof.
  intros Ha. unfold handleSubmitJobAckEvent, findJob. apply wp_get_bind. destruct (jobs_of a !! id) as [jb|] eqn:Hjb; [|by apply wp_throw].
  case_decide; [by apply wp_mret|]. unfold require_worker. apply wp_bind, wp_get_bind. unfold wp at 1, lift, or_throw.
  destruct (worker_by_address source (manager (sched a))) as [w|]; simpl; [|done]. intros _.
  apply wp_bind, wp_with_job. intros jb1 Hjb1. simplify_eq. destruct (job_step_event job.e_dispatch jb) as (_ & Hs & Hh & _ & _ & Hjid).
  assert (sound (with_job_set a id (job.Dispatch jb).2)) by (apply (sound_job a id jb); [done|done|done|done|done|apply Dispatch_terminal]).
  destruct (job.Dispatch jb).1; [|done]. by apply safe_acknowledge.
Qed.
Lemma safe_job_ack id a :
  sound a → match jobs_of a !! id with
            | Some jb => terminal jb && match job.source jb with job.job_source_wfe => false | _ => true end
            | None => true
            end = true → safe (handle_job_ack id) a.
Proof.
  intros Ha Hok. unfold handle_job_ack, findJob. apply wp_get_bind. destruct (jobs_of a !! id) as [jb|] eqn:Hjb; [|by apply wp_throw].
  apply andb_true_iff in Hok as [Ht Hs]. apply wp_deleteJob; [|done]. apply sound_without; [done|].
  apply (terminal_not_scheduled a id jb); try done. unfold by_wfe. by intros Hw; rewrite Hw in Hs.
Qed.
Lemma safe_backlog source a : sound a → safe (handleBacklogNoLongerFullEvent source) a.
Proof.
  intros Ha. unfold handleBacklogNoLongerFullEvent, worker_of. apply wp_bind, wp_get_bind. unfold wp at 1, lift, or_throw.
  destruct (worker_by_address source (manager (sched a))) as [w|]; simpl; [|done]. intros _.
  apply safe_seq; [|intros _ a1 Ha1; by apply safe_inert; [apply inert_request_scheduling|]].
  apply wp_with_scheduler. unfold wp, on_manager.
  pose proof (backlog_addressed w false _ (sound_addressed _ _ Ha)) as Hadd.
  destruct (workers_of a !! w) as [wk|] eqn:Hw.
  - destruct (backlog_consistent no_assert (manager (sched a)) w wk false) as (m' & Hrun & Hm' & Hmap);
      [apply (a_manager _ _ (s_agrees _ _ Ha))|done|]. rewrite Hrun in *. intros _.
    by apply (sound_worker a w wk (Worker.set_backlog_full false wk)).
  - unfold set_worker_backlog_full, worker_at, mbind, M_bind. simpl. rewrite Hw. simpl. intros _.
    rewrite set_manager_same. unfold with_sched. by rewrite agent_same.
Qed.
Lemma sound_changed a id w wnew m' :
  sound a → workers_of a !! id = Some w → Bookkeeping.same_jobs w wnew → consistent m' →
  worker_map m' = <[id := wnew]> (workers_of a) → addressed m' → sound (with_sched a (set_manager m' (sched a))).
Proof.
  intros Ha Hw (Hp & Hs & Hk & _) Hm' Hmap Hadd. apply (sound_worker a id w wnew); try done. unfold jobs. congruence.
Qed.
Lemma safe_gained source cs a :
  sound a → admissible source (CapabilitiesGainedEvent cs) a = true → safe (handleCapabilitiesGainedEvent source cs) a.
Proof.
  intros Ha Hok. unfold handleCapabilitiesGainedEvent, require_worker. simpl in Hok. apply wp_bind, wp_get_bind.
  unfold wp at 1, lift, or_throw. destruct (worker_by_address source (manager (sched a))) as [w|]; simpl; [|done]. intros _.
  apply wp_get_bind, safe_seq; [|intros [] a1 Ha1; [|by apply wp_mret]].
  - apply wp_with_scheduler. unfold wp, on_manager.
    pose proof (framed_addressed (add_worker_capabilities w (inherited cs a)) (λ D c, Frame.add_capabilities_framed D c w _) _ (sound_addressed _ _ Ha)) as Hadd.
    destruct (gain_consistent no_assert (manager (sched a)) w (inherited cs a)) as (b & wk & wk' & m' & Hw & Hsame & Hrun & Hm' & Hmap);
      [apply (a_manager _ _ (s_agrees _ _ Ha))|done|]. rewrite Hrun in *. intros _. by apply (sound_changed a w wk wk').
  - apply safe_inert; [|done]. apply inert_bind; [apply inert_request_scheduling|intros _].
    case_decide; [done|apply inert_send_to_masters].
Qed.
Lemma safe_lost source cs a :
  sound a → admissible source (CapabilitiesLostEvent cs) a = true → safe (handleCapabilitiesLostEvent source cs) a.
Proof.
  intros Ha Hok. unfold handleCapabilitiesLostEvent, require_worker. cbn [admissible] in Hok. apply wp_bind, wp_get_bind.
  unfold wp at 1, lift, or_throw. destruct (worker_by_address source (manager (sched a))) as [w|]; simpl; [|done]. intros _.
  apply safe_seq; [|intros [] a1 Ha1; [by apply safe_inert; [apply inert_send_to_masters|]|by apply wp_mret]].
  apply wp_with_scheduler. unfold wp, on_manager.
  pose proof (framed_addressed (remove_worker_capabilities w cs) (λ D c, Frame.remove_capabilities_framed D c w _) _ (sound_addressed _ _ Ha)) as Hadd.
  destruct (lose_consistent no_assert (manager (sched a)) w cs) as (wk & wk' & m' & Hw & Hsame & Hrun & Hm' & Hmap);
    [apply (a_manager _ _ (s_agrees _ _ Ha))|done|]. rewrite Hrun in *. intros _. by apply (sound_changed a w wk wk').
Qed.

(** *** Messages for workflows *)
Lemma safe_discover source id d a : sound a → safe (handleDiscoverJobStatesEvent print depth fuel source id d) a.
Proof.
  intros Ha. unfold handleDiscoverJobStatesEvent. apply wp_get_bind. destruct (findJob id a) as [jb|];
    [|by apply safe_inert; [apply inert_send|]].
  destruct (job.getStatus jb); try by apply safe_inert; [apply inert_send|].
  apply safe_seq; [by apply safe_inert; [apply inert_update|]|]. intros _ a1 Ha1.
  destruct (job.handler jb); [by apply safe_engine|by apply safe_inert; [apply inert_send_to_workers|]].
Qed.
Lemma safe_delayed_discover id d a : sound a → safe (handle_delayed_discover print depth fuel d id) a.
Proof.
  intros Ha. unfold handle_delayed_discover. apply wp_get_bind. destruct (findJob id a) as [jb|]; [|by apply safe_engine].
  destruct (job.getStatus jb), (job.handler jb); try by apply safe_engine. by apply safe_inert; [apply inert_send_to_workers|].
Qed.
Lemma safe_discover_reply d r a : sound a → safe (handleDiscoverJobStatesReplyEvent print depth fuel d r) a.
Proof.
  intros Ha. unfold handleDiscoverJobStatesReplyEvent. apply wp_get_bind. case_match; [|by apply safe_engine].
  apply safe_inert; [|done]. apply inert_bind; [apply inert_send|intros _; by apply inert_update].
Qed.
Lemma safe_put_token source id t p v a : sound a → safe (handle_put_token print depth fuel source id t p v) a.
Proof.
  intros Ha. unfold handle_put_token. apply safe_catching; [|intros e a1 Ha1; by apply safe_inert; [apply inert_send|]].
  apply wp_get_bind. destruct (findJob id a) as [jb|]; [|by apply wp_throw]. case_decide; [|by apply wp_throw].
  apply safe_seq; [by apply safe_inert; [apply inert_update|]|]. intros _ a1 Ha1.
  destruct (job.handler jb); [by apply safe_engine|by apply safe_inert; [apply inert_send_to_workers|]].
Qed.
Lemma safe_workflow_response source id t p v a : sound a → safe (handle_workflow_response print depth fuel source id t p v) a.
Proof.
  intros Ha. unfold handle_workflow_response. apply safe_catching; [|intros e a1 Ha1; by apply safe_inert; [apply inert_send|]].
  apply wp_get_bind. destruct (findJob id a) as [jb|]; [|by apply wp_throw]. case_decide; [|by apply wp_throw].
  apply safe_seq; [by apply safe_inert; [apply inert_update|]|]. intros _ a1 Ha1.
  destruct (job.handler jb); [by apply safe_engine|by apply safe_inert; [apply inert_send_to_workers|]].
Qed.

Lemma safe_handle new_id source e a :
  sound a → admissible source e a = true → safe (handle now print depth fuel new_id source e) a.
Proof.
  intros Ha Hok. destruct e; try (by apply wp_throw); cbn [handle]; try (by apply safe_gained); try (by apply safe_lost); simpl in Hok |- *.
  - by apply safe_submit.
  - by apply safe_submit_ack.
  - by apply safe_cancel.
  - apply bool_decide_eq_true in Hok. by apply safe_result.
  - by apply safe_delete.
  - apply bool_decide_eq_true in Hok. apply safe_seq; [by apply safe_result|]. intros _ a1 Ha1. by apply safe_inert; [apply inert_send|].
  - by apply safe_job_ack.
  - apply bool_decide_eq_true in Hok. apply safe_seq; [by apply safe_result|]. intros _ a1 Ha1. by apply safe_inert; [apply inert_send|].
  - by apply safe_job_ack.
  - apply safe_inert; [|done]. unfold handleQueryJobStatusEvent. apply inert_get_bind. intros a1. case_match; [apply inert_send|done].
  - apply safe_inert; [|done]. unfold handleSubscribeEvent. apply inert_get_bind. intros a1. case_match; [|done].
    apply inert_bind; [apply inert_send|intros _]. case_match; try apply inert_send; by apply inert_update.
  - by apply safe_discover.
  - by apply safe_discover_reply.
  - by apply safe_error.
  - by apply safe_registration.
  - apply safe_inert; [|done]. unfold handle_worker_registration_response. apply inert_get_bind. intros a1. by repeat case_match.
  - by apply safe_backlog.
  - by apply safe_put_token.
  - apply safe_inert; [apply inert_token_put|done].
  - by apply safe_workflow_response.
  - apply safe_inert; [apply inert_answer_workflow_response|done].
  - by apply safe_cancel_worker_handled_job.
  - by apply safe_delayed_discover.
Qed.
Lemma safe_handle_event new_id source e a :
  sound a → admissible source e a = true → safe (handle_event now print depth fuel new_id source e) a.
Proof. intros Ha Hok. apply safe_catching; [by apply safe_handle|]. intros x a1 Ha1. by apply safe_inert; [apply inert_send|]. Qed.
End handlers.
End events.
End AgentEvents.
