(* ===== verification/SdpaAgentRuns.v ===== *)
(** * Runs of an agent

    Messages arrive, the event thread handles them one by one, the workflow engine
    makes steps, the scheduling thread makes rounds and lost masters are contacted
    again, in any order. *)

From Stdlib Require Import SpecFloat.
From S2P Require Import Prelude Value Token Function SdpaJob SdpaWorker SdpaManager SdpaScheduler SdpaFrame SdpaInvariant SdpaAssign SdpaRound SdpaLost Layer SdpaAgent SdpaAgentSpec SdpaAgentEvents.

Import equivalence_class WorkerManager scheduler Bookkeeping Round Lost Agent AgentSpec AgentEvents.

Module AgentRuns.
Section runs.
Context {A G : Type} `{layer.Activity A G} `{JobActivity A}.
Context `{AssertMode} (no_assert : assert_throws = false) `{Unordered} `{PriorityQueue} `{job.StateMachine}.
Context (now : worker_id_t → double) (print : exn → string) (hostname : string) (depth fuel : nat).

Abbreviation agent := (scheduler.agent A (@Agent.world A G)).
Abbreviation Ag := (M agent exn).
Abbreviation world_of := scheduler.world.
Abbreviation jobs_of := scheduler.jobs.
Abbreviation workers_of a := (worker_map (manager (sched a))).
Abbreviation sound := (sound_but None).
Implicit Types (a : agent) (j id : job_id_t) (jb : job.type A) (s : scheduler.type A).

(** ** Steps *)
Inductive act : Type :=
| Receive (source : Agent.address) (e : event A)
| Handle (new_id : job_id_t)
| Engine (c : layer.call A)
| Schedule
| Register (i : nat) (connected : option Agent.address).
Definition perform (x : act) : Ag unit :=
  match x with
  | Receive source e => update (set_event_queue (λ l, l ++ [(source, e)]))
  | Handle new_id => handle_next now print depth fuel new_id
  | Engine c => engine fuel (callbacks print depth fuel) c
  | Schedule => scheduling_thread now ≫= λ _, mret tt
  | Register i connected => do_registration hostname i connected
  end.
(** the threads of the workflow engine extract activities and put tokens for plugins *)
Definition allowed (x : act) a : bool :=
  match x with
  | Handle _ => match event_queue (world_of a) with (source, e) :: _ => admissible source e a | [] => true end
  | Engine c => match c with layer.Advance _ | layer.Plugin_put _ _ _ => true | _ => false end
  | _ => true
  end.
Fixpoint legal (xs : list act) a : bool :=
  match xs with
  | [] => true
  | x :: xs => allowed x a && (let '(o, a) := perform x a in defined o && legal xs a)
  end.
Definition after (xs : list act) a : agent := foldl (λ a x, (perform x a).2) a xs.
Definition start (name : string) (masters : list master) (create_wfe : option G) (connected : list (option Agent.address)) : agent :=
  (register_all hostname connected (Agent.make name masters create_wfe)).2.

(** ** The scheduling thread *)
Definition served (a0 : agent) (ws : gset worker_id_t) j (w : @Agent.world A G) : Prop :=
  ∀ jb, jobs_of a0 !! j = Some jb → ∀ id, id ∈ ws → ∃ to_ impl, address_by_worker id (manager (sched a0)) = Some to_ ∧
    (to_, SubmitJobEvent (Some (job.id jb)) (job.activity jb) impl ws) ∈ network w.
Definition to_network (w w' : @Agent.world A G) : Prop :=
  requirements w' = requirements w ∧ workflow_engine w' = workflow_engine w ∧ network w ⊆ network w'.
Lemma serveJob_spec (a0 : agent) ws impl j w :
  let '(o, w') := serveJob a0 ws impl j w in
  to_network w w' ∧
  ((∀ id, id ∈ ws → is_Some (address_by_worker id (manager (sched a0)))) → o = Ret tt ∧ served a0 ws j w').
Proof.
  unfold serveJob, findJob, served. destruct (jobs_of a0 !! j) as [jb|]; [|done].
  set (f := λ id, to_ ← lift (or_throw (undefined "dereference of none") (address_by_worker id (manager (sched a0)))); _).
  assert (∀ id w, f id w = match address_by_worker id (manager (sched a0)) with
    | Some to_ => (Ret tt, set_network (λ l, l ++ [(to_, SubmitJobEvent (Some (job.id jb)) (job.activity jb) impl ws)]) w)
    | None => (Throw (undefined "dereference of none"), w)
    end) as Hf.
  { intros id w0. unfold f, mbind, M_bind. simpl. by destruct (address_by_worker id (manager (sched a0))). }
  clearbody f.
  assert (∀ l w, let '(o, w') := for_each f l w in to_network w w' ∧
    ((∀ id, id ∈ l → is_Some (address_by_worker id (manager (sched a0)))) → o = Ret tt ∧ ∀ id, id ∈ l →
      ∃ to_, address_by_worker id (manager (sched a0)) = Some to_ ∧
        (to_, SubmitJobEvent (Some (job.id jb)) (job.activity jb) impl ws) ∈ network w')) as Hl.
  { clear w. induction l as [|id l IH]; intros w; simpl; [split; [done|intros _; split; [done|set_solver]]|].
    unfold mbind, M_bind. rewrite Hf. destruct (address_by_worker id (manager (sched a0))) as [to_|] eqn:Hto; simpl.
    2:{ split; [done|]. intros Hall. destruct (Hall id) as [? Hx]; [by left|]. congruence. }
    match goal with |- context [for_each f l ?b] => specialize (IH b) end.
    destruct (for_each f l _) as [o w']. destruct IH as [(Hr & He & Hn) Hok]. simpl in *. split.
    - split_and!; [done|done|]. intros x Hx. apply Hn, elem_of_app. by left.
    - intros Hall. destruct Hok as [-> Hsent]; [intros; apply Hall; by right|]. split; [done|].
      intros i [->|Hi]%elem_of_cons; [|by apply Hsent]. exists to_. split; [done|]. apply Hn, elem_of_app. right. by left. }
  specialize (Hl (ordered ws) w). destruct (for_each f (ordered ws) w) as [o w']. destruct Hl as [Hn Hok]. split; [done|].
  intros Hall. destruct Hok as [-> Hsent]; [intros id Hid%elem_of_ordered; by apply Hall|]. split; [done|].
  intros jb' [= <-] id Hid%elem_of_ordered. destruct (Hsent id Hid) as (to_ & ? & ?). eauto.
Qed.

(** what a round leaves as it is *)
Lemma round_frame (a0 : agent) reqs n :
  let '(o, (s', w')) := scheduling_round no_activity now reqs (serveJob a0) n (sched a0, world_of a0) in
  at_frame (sched a0) s' ∧ to_network (world_of a0) w'.
Proof.
  pose proof (round_framed no_activity now reqs (serveJob a0) (dom (workers_of a0))
    (worker_connections (manager (sched a0))) n (sched a0, world_of a0) (at_frame_refl (sched a0))) as Hf.
  assert (∀ ws impl j, preserves (to_network (world_of a0)) (serveJob a0 ws impl j)) as Hs.
  { intros ws impl j w (Hr & He & Hn). pose proof (serveJob_spec a0 ws impl j w) as Hs.
    destruct (serveJob a0 ws impl j w) as [o w']. destruct Hs as [(Hr' & He' & Hn') _]. simpl.
    split_and!; [congruence|congruence|]. by etrans. }
  pose proof (round_world no_activity now reqs (serveJob a0) (to_network (world_of a0)) n Hs (sched a0, world_of a0)) as Hw.
  destruct (scheduling_round _ _ _ _ _ _) as [o [s' w']]. split; [done|]. by apply Hw.
Qed.

Section sound.
Context (requirements_ok : ∀ (x : A) r, requirements_and_preferences x = Ret r → schedulable r = true).

Lemma scheduling_thread_spec a :
  sound a → ∃ started a', scheduling_thread now a = (Ret started, a') ∧ sound a' ∧ jobs_of a' = jobs_of a ∧
    (∀ j, scheduled a' j ↔ scheduled a j) ∧
    (∀ j, j ∈ started → running_everywhere (sched a') j ∧ ∃ jb r, jobs_of a !! j = Some jb ∧
       allocation_table (sched a') !! j = Some r ∧ ∀ w, w ∈ Reservation.workers r → ∃ to_ impl,
         address_by_worker w (manager (sched a)) = Some to_ ∧
         (to_, SubmitJobEvent (Some j) (job.activity jb) impl (Reservation.workers r)) ∈ network (world_of a')).
Proof.
  intros Ha. unfold scheduling_thread. rewrite bind_get.
  destruct (scheduling_requested (world_of a)); [|exists ∅, a; split_and!; try done; set_solver].
  set (a0 := mk_agent (sched a) (jobs_of a) (set_scheduling_requested false (world_of a))).
  assert (sound a0) as Ha0 by (apply (sound_core _ a); [by split_and!|done]).
  assert (∀ j, j ∈ jobs_to_schedule (sched a) → is_Some (jobs_of a !! j)) as Hin.
  { intros j Hj. destruct (s_scheduled _ _ Ha j) as (jb & ? & _); [by left|eauto]. }
  erewrite bind_ret by reflexivity.
  assert (forallb (λ id, bool_decide (is_Some (jobs_of a !! id))) (jobs_to_schedule (sched a)) = true) as ->.
  { apply forallb_forall. intros j Hj%list_elem_of_In. by apply bool_decide_eq_true, Hin. }
  unfold schedule. fold a0.
  destruct (round_spec no_activity no_assert now (requirements_of a0) (serveJob a0) (served a0)
              (length (jobs_to_schedule (sched a0))) (sched a0) (world_of a0))
    as (st & s' & w' & Hrun & Hs' & Hk & Hst).
  { apply (s_agrees _ _ Ha0). } { done. }
  { apply forallb_forall. intros j Hj%list_elem_of_In. unfold requirements_of.
    destruct (s_requirements _ _ Ha0 j) as (r & -> & ?); [by apply Hin|done]. }
  { intros ws impl j w Hws. pose proof (serveJob_spec a0 ws impl j w) as Hsv. destruct (serveJob a0 ws impl j w) as [o w1].
    apply Hsv. intros id Hid. apply (sound_addressed _ _ Ha0), elem_of_dom. by apply Hws. }
  { intros ws impl j ws' j' w Hsv jb Hjb id Hid. destruct (Hsv jb Hjb id Hid) as (to_ & i & Hto & Hn). exists to_, i.
    split; [done|]. pose proof (serveJob_spec a0 ws impl j w) as Hsp. destruct (serveJob a0 ws impl j w) as [o w1].
    by apply Hsp. }
  rewrite Hrun. exists st, (mk_agent s' (jobs_of a0) w'). split; [done|].
  assert (∀ j, scheduled (mk_agent s' (jobs_of a0) w') j ↔ scheduled a j) as Hk' by apply Hk.
  pose proof (round_frame a0 (requirements_of a0) (length (jobs_to_schedule (sched a0)))) as Hfr. rewrite Hrun in Hfr.
  destruct Hfr as [Hfr (Hreq & Hen & _)].
  split; [|split; [done|split; [done|]]].
  - apply (sound_core _ (with_sched a0 s')); [split_and!; try done; simpl; by rewrite Hen|].
    apply sound_sched; [done|done|by apply (at_frame_addressed (sched a0)), (sound_addressed _ _ Ha0)| |].
    + intros j Hj. by apply Hk.
    + intros j jb _ _ _ Hj. by apply Hk.
  - intros j Hj. destruct (Hst j Hj) as [Hre (r & Hr & Hsv)]. split; [done|].
    destruct (s_scheduled _ _ Ha j) as (jb & Hjb & _); [apply Hk'; right; by exists r|].
    exists jb, r. split_and!; [done|done|]. intros w Hw. destruct (Hsv jb Hjb w Hw) as (to_ & impl & ? & ?).
    rewrite (s_id _ _ Ha j jb Hjb) in *. eauto.
Qed.

(** ** Runs *)
Lemma safe_perform x a : sound a → allowed x a = true → wp (perform x) (λ _, sound) a.
Proof.
  intros Ha Hok. destruct x as [source e|new_id|c| |i connected]; simpl.
  - by apply safe_inert; [apply inert_update|].
  - unfold handle_next. apply wp_get_bind. simpl in Hok. destruct (event_queue (world_of a)) as [|[source e] rest]; [by apply wp_mret|].
    apply wp_bind. intros _. apply safe_handle_event; try done.
    apply (sound_core _ a); [by split_and!|done].
  - by apply safe_engine.
  - destruct (scheduling_thread_spec a Ha) as (st & a' & Hrun & Ha' & _). apply wp_bind. intros _. rewrite Hrun. by apply wp_mret.
  - apply safe_inert; [|done]. unfold do_registration, requestRegistration. apply inert_get_bind. intros a1. case_match; [|done].
    apply inert_bind; [by apply inert_update|intros _]. apply inert_bind; [destruct connected; [done|by apply inert_update]|intros _].
    apply inert_get_bind. intros a2. apply inert_bind; [done|intros ?; apply inert_send].
Qed.
Lemma sound_after xs a : sound a → legal xs a = true → sound (after xs a).
Proof.
  revert a. induction xs as [|x xs IH]; intros a Ha; simpl; [done|]. intros [Hok Hl]%andb_true_iff.
  pose proof (safe_perform x a Ha Hok) as Hx. unfold wp in Hx. destruct (perform x a) as [o a1].
  apply andb_true_iff in Hl as [Hd Hl]. by apply IH; [apply Hx|].
Qed.
Lemma sound_start name masters g connected : sound (start name masters g connected).
Proof.
  assert (sound (Agent.make name masters g : agent)) as Hm.
  { split; simpl; try by intros *; rewrite lookup_empty.
    - apply agrees_start; [apply empty_consistent|apply NoDup_nil_2|apply map_Forall_empty].
    - intros j [Hj|Hj]; [by apply elem_of_nil in Hj|]. simpl in Hj. rewrite lookup_empty in Hj. by destruct Hj.
    - intros _ j jb. by rewrite lookup_empty. }
  unfold start. eapply sound_core; [|exact Hm].
  match goal with |- same_core ?b (?f ?b).2 => assert (inert f) as Hf; [|apply (Hf b)] end.
  unfold register_all. apply inert_get_bind. intros a. apply inert_for_each. intros [i m]. unfold requestRegistration. simpl.
  apply inert_bind; [destruct (default None _); [by apply inert_update|by apply inert_update]|intros _].
  apply inert_get_bind. intros a2. apply inert_bind; [done|intros ?; apply inert_send].
Qed.

(** C2: With assertions switched off, and with activities whose requirements can be
    scheduled ([schedulable]): after any run of an agent (events, steps of the workflow
    engine, rounds of scheduling, registrations, also when handlers throw) in which the
    handled events are [admissible] and no step has undefined behaviour, for every bound
    on the nesting of callbacks: queues, reservations and workers agree; every job that
    workers handle and that has not ended waits for an assignment or has a reservation;
    and every job that waits or has a reservation is known to the agent, is handled by
    workers and, unless the workflow engine submitted it, has not ended. *)
Theorem agent_schedules_live_jobs (name : string) (masters : list master) (create_wfe : option G)
    (connected : list (option Agent.address)) (xs : list act) :
  legal xs (start name masters create_wfe connected) = true →
  let a := after xs (start name masters create_wfe connected) in
  agrees (jobs_to_schedule (sched a)) (sched a) ∧
  (∀ j jb, jobs_of a !! j = Some jb → job.handler jb = job.job_handler_worker →
     job.is_terminal (job.getStatus jb) = false →
     j ∈ jobs_to_schedule (sched a) ∨ is_Some (allocation_table (sched a) !! j)) ∧
  (∀ j, j ∈ jobs_to_schedule (sched a) ∨ is_Some (allocation_table (sched a) !! j) →
     ∃ jb, jobs_of a !! j = Some jb ∧ job.handler jb = job.job_handler_worker ∧
       (job.source jb = job.job_source_wfe ∨ job.is_terminal (job.getStatus jb) = false)).
Proof.
  intros Hl a. pose proof (sound_after xs _ (sound_start _ _ _ _) Hl) as [Hs Hsch Hlive _ _ _ _]. fold a in Hs, Hsch, Hlive.
  split; [done|]. split; [apply Hlive|]. intros j Hj. destruct (Hsch j Hj) as (jb & ? & ? & [?|?]); [done|eauto].
Qed.

(** C3: With assertions switched off, and with activities whose requirements can be
    scheduled: after any run of an agent in which the handled events are [admissible]
    and no step has undefined behaviour, for every bound on the nesting of callbacks,
    the next round of the scheduling thread returns without exception, leaves exactly
    the same jobs queued or reserved, and has sent every job that it started to the
    address of each worker of its reservation. *)
Theorem scheduling_thread_returns (name : string) (masters : list master) (create_wfe : option G)
    (connected : list (option Agent.address)) (xs : list act) :
  legal xs (start name masters create_wfe connected) = true →
  let a := after xs (start name masters create_wfe connected) in
  ∃ started a', scheduling_thread now a = (Ret started, a') ∧
    (∀ j, known (jobs_to_schedule (sched a')) (sched a') j ↔ known (jobs_to_schedule (sched a)) (sched a) j) ∧
    ∀ j, j ∈ started → ∃ jb r, jobs_of a !! j = Some jb ∧ allocation_table (sched a') !! j = Some r ∧
      ∀ w, w ∈ Reservation.workers r → ∃ to_ impl, address_by_worker w (manager (sched a)) = Some to_ ∧
        (to_, SubmitJobEvent (Some j) (job.activity jb) impl (Reservation.workers r)) ∈ network (world_of a').
Proof.
  intros Hl a. destruct (scheduling_thread_spec a) as (st & a' & Hrun & _ & _ & Hk & Hst);
    [apply (sound_after xs _ (sound_start _ _ _ _) Hl)|].
  exists st, a'. split; [done|]. split; [done|]. intros j Hj. by destruct (Hst j Hj).
Qed.
End sound.
End runs.
Arguments act : clear implicits.
End AgentRuns.
