(* ===== verification/SdpaAgentExample.v ===== *)
(** * Lost masters, and runs of an agent with nets

    The thread that registers an agent again with a master has a copy of the
    master's entry: the address it finds is not stored in the agent. *)

From Stdlib Require Import SpecFloat.
From S2P Require Import Prelude Value Token Function ReadShow Expr Parser Net NetFire SdpaJob SdpaWorker SdpaManager SdpaScheduler SdpaFrame SdpaInvariant SdpaAssign SdpaRound SdpaLost Layer NetActivity LayerRuns SdpaAgent SdpaActivity SdpaAgentSpec SdpaAgentEvents SdpaAgentRuns.

Import WorkerManager scheduler Round Agent AgentRuns.

Module AgentMasters.
Create HintDb masters.
Section masters.
Context {A G : Type} `{layer.Activity A G} `{JobActivity A}.
Context `{AssertMode} `{Unordered} `{PriorityQueue} `{job.StateMachine}.
Context (now : worker_id_t → double) (print : exn → string) (hostname : string) (depth fuel : nat).
Abbreviation agent := (scheduler.agent A (@Agent.world A G)).
Abbreviation Ag := (M agent exn).
Context (i : nat).

(** the agent has no address of the master *)
Definition lost_in (w : @Agent.world A G) : Prop := (m_address <$> master_info w !! i) = Some None.
Definition lost (a : agent) : Prop := lost_in (scheduler.world a).

Lemma with_scheduler_lost {X} (f : M (scheduler.type A) exn X) : preserves lost (with_scheduler f).
Proof. intros a Ha. unfold with_scheduler. by destruct (f (sched a)). Qed.
Lemma with_job_lost {X} id (f : M (job.type A) exn X) : preserves lost (with_job id f).
Proof. intros a Ha. unfold with_job. destruct (jobs a !! id) as [j|]; [|done]. by destruct (f j). Qed.
Lemma with_world_lost {X} (f : M _ exn X) : preserves lost_in f → preserves lost (with_world f).
Proof. intros Hf a Ha. specialize (Hf _ Ha). unfold with_world. by destruct (f (scheduler.world a)). Qed.
Lemma update_lost f : (∀ w, master_info (f w) = master_info w) → preserves lost (update f).
Proof. intros Hf a Ha. unfold lost, lost_in in *. simpl. by rewrite Hf. Qed.
Lemma set_jobs_lost f : preserves lost (set_jobs f).
Proof. by intros a Ha. Qed.
Lemma catching_lost {X} (f : Ag X) h : preserves lost f → (∀ e, preserves lost (h e)) → preserves lost (catching f h).
Proof.
  intros Hf Hh a Ha. specialize (Hf a Ha). unfold catching. destruct (f a) as [[x|e] a1]; [done|].
  destruct (catchable e); [by apply Hh|done].
Qed.
Ltac masters :=
  repeat match goal with
  | |- preserves _ (mret _) => apply preserves_ret
  | |- preserves _ (throw _) => apply preserves_throw
  | |- preserves _ (lift _) => apply preserves_lift
  | |- preserves _ get => apply preserves_get
  | |- preserves _ (mbind _ _) => apply preserves_bind; [|intros ?]
  | |- preserves _ (for_each _ _) => apply preserves_for_each; intros ? ?
  | |- preserves _ (with_scheduler _) => apply with_scheduler_lost
  | |- preserves _ (with_job _ _) => apply with_job_lost
  | |- preserves _ (set_jobs _) => apply set_jobs_lost
  | |- preserves _ (update _) => apply update_lost; by intros
  | |- preserves _ (catching _ _) => apply catching_lost; [|intros ?]
  | |- preserves _ (fhg_assert _ _) => unfold fhg_assert
  | |- preserves _ (match _ with _ => _ end) => case_match
  | |- preserves _ _ => solve [auto 1 with masters nocore]
  end.
Lemma send_lost to_ e : preserves lost (send to_ e).
Proof. unfold send. masters. Qed.
Lemma delay_lost e : preserves lost (delay e).
Proof. unfold delay. masters. Qed.
Lemma request_scheduling_lost : preserves lost request_scheduling.
Proof. unfold request_scheduling. masters. Qed.
Hint Resolve send_lost delay_lost request_scheduling_lost : masters.
Lemma send_to_workers_lost ws e : preserves lost (send_to_workers ws e).
Proof. unfold send_to_workers, worker_address. masters. Qed.
Lemma send_to_masters_lost e : preserves lost (send_to_masters e).
Proof. unfold send_to_masters. masters. Qed.
Lemma notify_lost id e e' : preserves lost (notify_subscribers id e e').
Proof. unfold notify_subscribers. masters. Qed.
Lemma require_job_lost id m : preserves lost (require_job id m).
Proof. unfold require_job. masters. Qed.
Lemma addJob_with_lost id x src h r : preserves lost (addJob_with id x src h r).
Proof. unfold addJob_with. masters. Qed.
Lemma deleteJob_lost id : preserves lost (deleteJob id).
Proof. unfold deleteJob. masters. Qed.
Hint Resolve send_to_workers_lost send_to_masters_lost notify_lost require_job_lost addJob_with_lost deleteJob_lost : masters.

(** ** The workflow engine *)
Section engine.
Context (cb : Ag unit) (Hcb : preserves lost cb).
Hint Resolve Hcb : masters.
Lemma engine_lost c : preserves lost (engine fuel cb c).
Proof.
  intros a Ha. unfold engine. rewrite bind_get. case_match; [|done]. destruct (layer.perform fuel c p) as [o p']. revert a Ha H5.
  intros a Ha _. revert a Ha. change (preserves lost (update (set_workflow_engine (Some p')) ≫= λ _, cb ≫= λ _, lift o)). masters.
Qed.
Hint Resolve engine_lost : masters.
Lemma job_finished_lost id r : preserves lost (job_finished fuel cb id r).
Proof. unfold job_finished, master_address. masters. Qed.
Lemma job_failed_lost id m : preserves lost (job_failed fuel cb id m).
Proof. unfold job_failed, master_address. masters. Qed.
Lemma job_canceled_lost id : preserves lost (job_canceled fuel cb id).
Proof. unfold job_canceled, master_address. masters. Qed.
Hint Resolve job_finished_lost job_failed_lost job_canceled_lost : masters.
Lemma workflow_engine_submit_lost id : preserves lost (workflow_engine_submit print fuel cb id).
Proof. unfold workflow_engine_submit. masters. Qed.
Lemma cancel_worker_handled_job_lost id : preserves lost (cancel_worker_handled_job now fuel cb id).
Proof. unfold cancel_worker_handled_job. masters. Qed.
Hint Resolve workflow_engine_submit_lost cancel_worker_handled_job_lost : masters.
Lemma callback_lost e : preserves lost (callback print fuel cb e).
Proof.
  destruct e; simpl;
    unfold submit, cancel, finished, failed, canceled, discover, discovered, token_put, answer_workflow_response, taken,
      addJob, addJobWithNoPreferences; masters.
Qed.
End engine.
Lemma callbacks_lost d : preserves lost (callbacks print d fuel).
Proof.
  induction d as [|d IH]; simpl; masters. all: intros; by apply callback_lost.
Qed.

(** ** The events *)
Abbreviation cbs := (callbacks print depth fuel).
Hint Resolve callbacks_lost : masters.
Lemma engine_lost' c : preserves lost (engine fuel cbs c).
Proof. apply engine_lost, callbacks_lost. Qed.
Lemma cancel_lost' id : preserves lost (cancel_worker_handled_job now fuel cbs id).
Proof. apply cancel_worker_handled_job_lost, callbacks_lost. Qed.
Lemma submit_lost' id : preserves lost (workflow_engine_submit print fuel cbs id).
Proof. apply workflow_engine_submit_lost, callbacks_lost. Qed.
Lemma job_canceled_lost' id : preserves lost (job_canceled fuel cbs id).
Proof. apply job_canceled_lost, callbacks_lost. Qed.
Lemma job_finished_lost' id r : preserves lost (job_finished fuel cbs id r).
Proof. apply job_finished_lost, callbacks_lost. Qed.
Lemma job_failed_lost' id m : preserves lost (job_failed fuel cbs id m).
Proof. apply job_failed_lost, callbacks_lost. Qed.
Hint Resolve engine_lost' cancel_lost' submit_lost' job_canceled_lost' job_finished_lost' job_failed_lost' : masters.

Lemma cancel_or_reschedule_lost m w R id : preserves lost (cancel_or_reschedule (cancel_worker_job m) w R id).
Proof.
  unfold cancel_or_reschedule, Reservation.apply_to_workers_without_result. masters.
  apply with_world_lost. unfold cancel_worker_job. masters. by apply preserves_modify.
Qed.
Lemma reschedule_lost m w b : preserves lost (reschedule_worker_jobs_and_maybe_remove_worker now (cancel_worker_job m) w b).
Proof.
  unfold reschedule_worker_jobs_and_maybe_remove_worker, delete_or_cancel_worker_jobs. masters.
  assert (∀ l (acc : Ag (gset job_id_t)), preserves lost acc →
    preserves lost (foldl (λ acc id, acc ≫= λ R, cancel_or_reschedule (cancel_worker_job m) w R id) acc l)) as Hf.
  { induction l as [|x l IH]; intros acc Hacc; simpl; [done|]. apply IH. masters. apply cancel_or_reschedule_lost. }
  apply Hf. masters.
Qed.
Lemma lose_master_lost k : preserves lost (lose_master k).
Proof.
  intros a Ha. unfold lose_master. rewrite bind_get. destruct (master_info (scheduler.world a) !! k) as [m|] eqn:Hm; [|done].
  unfold mbind, M_bind, lost, lost_in in *. simpl. destruct (decide (k = i)) as [->|Hne].
  - rewrite list_lookup_insert_eq; [done|]. by eapply lookup_lt_Some.
  - by rewrite list_lookup_insert_ne.
Qed.
Hint Resolve reschedule_lost lose_master_lost : masters.
Lemma handle_lost new_id source e : preserves lost (handle now print depth fuel new_id source e).
Proof.
  destruct e; simpl;
    unfold handleSubmitJobEvent, handleSubmitJobAckEvent, handleCancelJobEvent, handleCancelJobAckEvent, handleDeleteJobEvent,
      handleJobFinishedEvent, handle_job_ack, handleJobFailedEvent, handleQueryJobStatusEvent, handleSubscribeEvent,
      handleDiscoverJobStatesEvent, handleDiscoverJobStatesReplyEvent, handleErrorEvent, handle_shutdown, unsubscribe,
      handleWorkerRegistrationEvent, handle_worker_registration_response, handleCapabilitiesGainedEvent,
      handleCapabilitiesLostEvent, handleBacklogNoLongerFullEvent, handle_put_token, handle_workflow_response, token_put,
      answer_workflow_response, taken, handle_delayed_discover, handle_result, handle_job_termination, worker_of, require_worker,
      addJobWithNoPreferences; masters.
Qed.
Lemma perform_lost x : preserves lost (perform now print hostname depth fuel x).
Proof.
  destruct x; simpl; unfold handle_next, handle_event, do_registration, requestRegistration, scheduling_thread; masters.
  - apply handle_lost.
  - intros b Hb. unfold schedule.
    assert (∀ ws impl j, preserves lost_in (serveJob b ws impl j)) as Hs.
    { intros ws impl j. unfold serveJob. masters. by apply preserves_modify. }
    pose proof (round_world no_activity now (requirements_of b) (serveJob b) lost_in (length (jobs_to_schedule (sched b))) Hs
                  (sched b, scheduler.world b) Hb) as Hw.
    by destruct (scheduling_round _ _ _ _ _ _) as [o [s' w']].
Qed.

(** A master that an agent has lost stays lost: whatever the agent goes through, the
    threads that register it again with the master included, it does not have an address
    of the master again.  The end of a job of this master is then reported through an
    address that is not there. *)
Theorem lost_master_stays_lost (xs : list (act A)) (a : agent) :
  (m_address <$> master_info (scheduler.world a) !! i) = Some None →
  let a' := after now print hostname depth fuel xs a in
  (m_address <$> master_info (scheduler.world a') !! i) = Some None ∧
  ∀ id jb r, scheduler.jobs a' !! id = Some jb → job.source jb = job.job_source_master i →
    (job.JobFinished r jb).1 = Ret tt →
    (job_finished fuel (callbacks print depth fuel) id r a').1 = Throw (undefined "dereference of none").
Proof.
  intros Ha a'. assert (lost a') as Ha'.
  { unfold a'. clear a'. revert a Ha. induction xs as [|x xs IH]; intros a Ha; [done|]. apply IH. by apply perform_lost. }
  split; [done|]. intros id jb r Hjb Hs Hr. unfold job_finished, with_job, mbind, M_bind. rewrite Hjb.
  assert (job.source (job.JobFinished r jb).2 = job.job_source_master i) as Hs'.
  { destruct (AgentSpec.job_step_finished r jb) as (_ & -> & _). done. }
  destruct (job.JobFinished r jb) as [o jb']. simpl in *. subst o. rewrite lookup_insert_eq. simpl. rewrite Hs'.
  unfold lost, lost_in in Ha'. unfold master_address, mbind, M_bind. simpl.
  destruct (master_info (scheduler.world a') !! i) as [m|]; simpl in *; [|done]. by injection Ha' as ->.
Qed.
End masters.
End AgentMasters.

(** ** Runs of an agent with nets

    An agent with a workflow engine and workers runs module calls for a client. *)

Import scheduler Agent AgentRuns.

Module AgentExample.

Instance asserts_off : AssertMode := {| assert_throws := false |}.
Instance throwing : job.StateMachine := {| job.rethrows := true |}.
Definition nets : layer.Activity activity_t (plugin.Plugins unit * unit) :=
  @activity_layer.net_activity Float.nan_libm _ _ _ _ Runs.no_plugins 5.
Definition net_jobs : JobActivity activity_t := @activity_schedule.net_jobs Float.nan_libm true None.
Lemma net_jobs_schedulable (x : activity_t) r :
  @requirements_and_preferences _ net_jobs x = Ret r → Round.schedulable r = true.
Proof. apply (@activity_schedule.requirements_schedulable Float.nan_libm true None). Qed.
Existing Instance nets.
Existing Instance net_jobs.

Definition to_address (x : string) : address := String.list_ascii_of_string x.
Definition client : address := to_address "client".
Abbreviation agent := (scheduler.agent activity_t (@Agent.world activity_t (plugin.Plugins unit * unit))).
Definition print_nothing : exn → string := λ _, "error".
Definition at_zero : worker_id_t → double := λ _, S754_zero false.
Abbreviation run := (after at_zero print_nothing "host" 8 5).
Abbreviation fresh := (start "host" "agent" [] (Some (plugin.none, tt)) []).
Definition event_of (source : address) (e : event activity_t) (new_id : string) : list (act activity_t) :=
  [Receive source e; Handle new_id].
Definition steps (child : string) : list (act activity_t) := Engine <$> (Runs.turn child).

Definition worker_joins (w : string) : list (act activity_t) :=
  event_of (to_address w) (WorkerRegistrationEvent w ∅ 0 false "host") "".
Abbreviation is_legal := (legal at_zero print_nothing "host" 8 5).
Abbreviation sent_by a := (network (scheduler.world a)).

(** ** A module call

    A worker joins, a client submits the call of the function and subscribes to it;
    the workflow engine makes a job for the worker out of it. *)
Definition called : list (act activity_t) :=
  worker_joins "w1" ++
  event_of client (SubmitJobEvent None Runs.f_of_3 None ∅) "job1" ++
  event_of client (SubscribeEvent "job1") "" ++
  steps "job2" ++ steps "".
Definition started : list (act activity_t) :=
  called ++ [Schedule] ++ event_of (to_address "w1") (SubmitJobAckEvent "job2") "".
Definition f_called : activity_t := activity.mk Runs.call_f (Some 0%Z) [(Vint 3, 0%Z)] [] false.
Definition answered : list (act activity_t) :=
  started ++ event_of (to_address "w1") (JobFinishedEvent "job2" (Runs.executed f_called)) "" ++ steps "".

(** From the client to the worker and back: the worker gets the activity that the
    workflow engine has extracted from the client's, with its input; when the worker
    has answered, the client gets its activity with the result, and nobody gets
    anything else but acknowledgements. *)
Theorem module_call_through_agent :
  is_legal answered fresh = true ∧
  sent_by (run answered fresh) =
    [(to_address "w1", worker_registration_response None);
     (client, SubmitJobAckEvent "job1");
     (client, SubscribeAckEvent "job1");
     (to_address "w1", SubmitJobEvent (Some "job2") f_called None {["w1"]});
     (to_address "w1", JobFinishedAckEvent "job2");
     (client, JobFinishedEvent "job1" (activity.mk Runs.call_f None [] [(Vint 9, 1%Z)] false))].
Proof. split; vm_compute; reflexivity. Qed.

(** two more workers join, and one of them gains a capability *)
Definition reinforced : list (act activity_t) :=
  started ++ worker_joins "w2" ++ worker_joins "w3" ++
  event_of (to_address "w3") (CapabilitiesGainedEvent {["uuid" := capability.mk "CUDA" 0 "w3" "uuid"]}) "" ++ [Schedule].
Lemma agent_schedules_live_jobs_witness :
  is_legal reinforced fresh = true ∧ is_Some (allocation_table (sched (run reinforced fresh)) !! "job2").
Proof.
  assert (is_legal reinforced fresh = true) as Hl by (vm_compute; reflexivity). split; [exact Hl|].
  destruct (agent_schedules_live_jobs (A := activity_t) (H0 := net_jobs) (H1 := asserts_off) eq_refl at_zero print_nothing "host" 8 5
              net_jobs_schedulable "agent" [] (Some (plugin.none, tt)) [] reinforced Hl) as (_ & Hlive & _).
  assert (jobs_to_schedule (sched (run reinforced fresh)) = []) as Hq by (vm_compute; reflexivity).
  assert (match scheduler.jobs (run reinforced fresh) !! "job2" with
          | Some jb => match job.handler jb with job.job_handler_worker => negb (job.is_terminal (job.getStatus jb)) | _ => false end
          | None => false end = true) as Hj by (vm_compute; reflexivity).
  destruct (scheduler.jobs (run reinforced fresh) !! "job2") as [jb|] eqn:Hjb; [|discriminate Hj].
  destruct (job.handler jb) eqn:Hh; [discriminate Hj|]. apply negb_true_iff in Hj.
  destruct (Hlive "job2" jb Hjb Hh Hj) as [Hin|Hin]; [|exact Hin].
  rewrite Hq in Hin. exfalso. inversion Hin.
Defined.
Lemma scheduling_thread_returns_witness :
  is_legal called fresh = true ∧
  ∃ a', scheduling_thread at_zero (run called fresh) = (Ret {["job2"]}, a') ∧
    ∃ to_ impl ws x, (to_, SubmitJobEvent (Some "job2") x impl ws) ∈ sent_by a'.
Proof.
  assert (is_legal called fresh = true) as Hl by (vm_compute; reflexivity). split; [exact Hl|].
  destruct (scheduling_thread_returns (A := activity_t) (H0 := net_jobs) (H1 := asserts_off) eq_refl at_zero print_nothing "host" 8 5
              net_jobs_schedulable "agent" [] (Some (plugin.none, tt)) [] called Hl)
    as (st & a' & Hr & _ & Hst).
  assert (match (scheduling_thread at_zero (run called fresh)).1 with Ret x => bool_decide (x = {["job2"]}) | Throw _ => false end = true)
    as Hs by (vm_compute; reflexivity).
  rewrite Hr in Hs. simpl in Hs. apply bool_decide_eq_true in Hs. subst st. exists a'. split; [exact Hr|].
  destruct (Hst "job2") as (jb & r & _ & Hal & Hw); [by apply elem_of_singleton|].
  assert (match allocation_table (sched (scheduling_thread at_zero (run called fresh)).2) !! "job2" with
          | Some r => bool_decide ("w1" ∈ Reservation.workers r) | None => false end = true) as Hin by (vm_compute; reflexivity).
  rewrite Hr in Hin. simpl in Hin. rewrite Hal in Hin. apply bool_decide_eq_true in Hin.
  destruct (Hw "w1" Hin) as (to_ & impl & _ & Hn). eauto.
Defined.

(** ** A workflow inside a workflow *)
Definition net_of (t : transition_t workflow) (input : list token_on_port) : net_type workflow :=
  (activity_layer.wrapped_net (H := Float.nan_libm) (activity.mk t None input [] false) net.empty).2.
Definition int_port (n : string) (d : port.PortDirection) (p : Z) : port.port_t :=
  port.mk n d (Signature.Sname "int") (Some p).
Definition sub : transition_t workflow :=
  transition.mk "sub" (transition.net (subnet (net_of Runs.call_f []))) None
    {[0%Z := int_port "x" port.PORT_IN 0]} {[1%Z := int_port "y" port.PORT_OUT 1]} ∅ 2 (Vstruct []) [] [] 0 None.
Definition nested : activity_t :=
  activity.make (transition.mk "outer" (transition.net (subnet (net_of sub [(Vint 3, 0%Z)]))) None ∅ ∅ ∅ 0 (Vstruct []) [] [] 0 None) None.
(** the job of the inner workflow's call runs on the worker, then the client cancels *)
Definition canceled : list (act activity_t) :=
  worker_joins "w1" ++
  event_of client (SubmitJobEvent None nested None ∅) "job1" ++
  event_of client (SubscribeEvent "job1") "" ++
  steps "job2" ++ steps "job3" ++ steps "" ++ [Schedule] ++
  event_of (to_address "w1") (SubmitJobAckEvent "job3") "" ++
  event_of client (CancelJobEvent "job1") "" ++ [Handle ""].
Definition worker_answers : list (act activity_t) :=
  event_of (to_address "w1") (JobFinishedEvent "job3" (Runs.executed f_called)) "" ++
  (Engine <$> [layer.Advance ""; layer.Advance ""]).
Definition is_cancel (x : address * event activity_t) : bool := match x.2 with CancelJobEvent _ => true | _ => false end.

(** Canceling a workflow does not cancel the workflows inside it: the client is told
    that its job is canceled while the call of the inner workflow runs on a worker; no
    worker is told to cancel anything.  When the worker has finished, the workflow
    engine reports the end of the inner workflow, which the agent does not know any
    more, and its thread ends with an exception. *)
Theorem inner_workflow_not_canceled :
  is_legal (canceled ++ worker_answers) fresh = true ∧
  last (sent_by (run canceled fresh)) = Some (client, CancelJobAckEvent "job1") ∧
  (job.getStatus <$> scheduler.jobs (run canceled fresh) !! "job3") = Some job.RUNNING ∧
  existsb is_cancel (sent_by (run canceled fresh)) = false ∧
  (perform at_zero print_nothing "host" 8 5 (Engine (layer.Advance "")) (run (canceled ++ worker_answers) fresh)).1 =
    Throw (logic_error "got finished message for old/unknown Job job2").
Proof. repeat split; vm_compute; reflexivity. Qed.

(** ** A lost master *)
Definition with_master : agent := start "host" "agent" [mk_master "host" "port" None] None [Some (to_address "m")].
Definition master_lost : agent := run (event_of (to_address "m") (ErrorEvent SDPA_ENODE_SHUTDOWN "" None) "") with_master.
Lemma lost_master_stays_lost_witness :
  (m_address <$> master_info (scheduler.world with_master) !! 0) = Some (Some (to_address "m")) ∧
  (m_address <$> master_info (scheduler.world (run [Register 0 (Some (to_address "m"))] master_lost)) !! 0) = Some None.
Proof.
  split; [vm_compute; reflexivity|].
  destruct (AgentMasters.lost_master_stays_lost at_zero print_nothing "host" 8 5 0 [Register 0 (Some (to_address "m"))] master_lost)
    as [Hl _]; [vm_compute; reflexivity|]. exact Hl.
Defined.
End AgentExample.
