(* ===== verification/DrtsWorker.v ===== *)
(** * Workers

    [drts/worker/drts.cpp]: a worker takes jobs from its masters into a bounded backlog
    and executes them one after the other.

    The event thread and the execution thread take turns: what a thread does between two
    accesses to what both share is one step, so that the steps of the threads, the
    arrival of messages, and the constructor and destructor interleave.  Jobs are shared
    between the map of jobs, the backlog and the execution thread: they are kept in a
    heap and known by their position in it.  A job refers to its owner by an iterator into
    the vector of masters, which dangles once the vector has moved its elements to get room
    for another one; how much room a vector makes is an argument ([grow]).  What executing an activity gives is an argument of the step;
    what is sent is recorded; logging is left out. *)

From Stdlib Require Import SpecFloat.
From S2P Require Import Prelude Value Token Function SdpaJob SdpaWorker SdpaManager SdpaScheduler Layer SdpaAgent.

Module drts.
Import Agent.
Abbreviation address := Agent.address.

(** [DRTSImpl::Job::state_t] *)
Inductive state_t : Type := PENDING | RUNNING | FINISHED | FAILED | CANCELED | CANCELED_DUE_TO_WORKER_SHUTDOWN.
#[global] Instance state_t_eq_dec : EqDecision state_t.
Proof. solve_decision. Defined.

(** [wfe_task_t::state_t] *)
Module wfe_task.
Inductive state_t : Type := PENDING | CANCELED | CANCELED_DUE_TO_WORKER_SHUTDOWN | FINISHED | FAILED.
End wfe_task.

(** what executing an activity ends with; the flag says that the module or the function
    did not unload *)
Inductive executed (A : Type) : Type :=
| Returned (activity : A)
| Cancelled
| Threw (what : string) (does_not_unload : bool).
Arguments Returned {A}. Arguments Cancelled {A}. Arguments Threw {A}.

(** [masters_t], a [std::vector]: its elements, for how many of them it has room, and the
    storage in which they are *)
Record masters_t : Type := mk_masters { addresses : list address; capacity : nat; storage : nat }.
(** [masters_t::const_iterator] *)
Record owner_type : Type := mk_owner { in_storage : nat; position : nat }.
(** [*it]: nothing is there when the elements have moved to another storage *)
#[global] Instance masters_lookup : Lookup owner_type address masters_t := λ it v,
  if decide (in_storage it = storage v) then addresses v !! position it else None.
(** [emplace_back]: without room the elements move to a storage for [grow] elements *)
Definition emplace_back (grow : nat → nat) (m : address) (v : masters_t) : masters_t :=
  if decide (length (addresses v) < capacity v) then mk_masters (addresses v ++ [m]) (capacity v) (storage v)
  else mk_masters (addresses v ++ [m]) (grow (length (addresses v))) (S (storage v)).

Section drts.
Context {A : Type} (no_activity : A).
Context (print : exn → string) (hostname m_my_name : string) (shared_memory_size : Z) (backlog_length : nat) (grow : nat → nat).

Record job : Type := mk_job {
  id : job_id_t;
  activity : A;
  target_impl : option string;
  owner : owner_type;
  workers : gset worker_id_t;
  state : state_t;
  result : A;
  message : string
}.
Definition set_state (s : state_t) (j : job) : job :=
  mk_job (id j) (activity j) (target_impl j) (owner j) (workers j) s (result j) (message j).
Definition set_result (a : A) (j : job) : job :=
  mk_job (id j) (activity j) (target_impl j) (owner j) (workers j) (state j) a (message j).
Definition set_message (m : string) (j : job) : job :=
  mk_job (id j) (activity j) (target_impl j) (owner j) (workers j) (state j) (result j) m.

(** [wfe_task_t], with [_cancelled] of its context *)
Record task : Type := mk_task { t_state : wfe_task.state_t; t_activity : A; cancelled : bool }.

(** Where the event thread is: it waits for an event, has put a job into the backlog and
    not yet acknowledged it, has acknowledged it and not yet stored it, or has found the
    backlog full and not yet said so or not yet remembered that it did. *)
Inductive event_thread : Type :=
| Ready
| Acknowledging (r : nat)
| Storing (r : nat)
| Refusing (source : address) (job_id : job_id_t)
| Recording (source : address).

(** Where the execution thread is, with [worker_was_tainted] *)
Inductive execution_thread : Type :=
| Waiting
| Taken (r : nat) (notify_can_take_jobs : bool)
| Claiming (r : nat)
| Dropping (r : nat)
| Starting (r : nat)
| Executing (r : nat)
| Executed (r : nat) (tainted : bool)
| Answering (r : nat) (tainted : bool)
| Aborted
| Ended.

Record worker : Type := mk_worker {
  shutting_down : bool;
  masters : masters_t;
  jobs : gmap job_id_t nat;
  heap : list job;
  event_queue : list (address * event A);
  pending : list nat;
  interrupted : bool;
  notified : gset address;
  tasks : gmap job_id_t task;
  registration_responses : gmap address (option (option exn));
  control : event_thread;
  thread : execution_thread;
  network : list (address * event A);
  receiving : bool;
  stop_requested : bool
}.
Definition set_shutting_down (x : bool) (w : worker) : worker :=
  mk_worker x (masters w) (jobs w) (heap w) (event_queue w) (pending w) (interrupted w) (notified w) (tasks w) (registration_responses w) (control w) (thread w) (network w) (receiving w) (stop_requested w).
Definition set_masters (f : masters_t → masters_t) (w : worker) : worker :=
  mk_worker (shutting_down w) (f (masters w)) (jobs w) (heap w) (event_queue w) (pending w) (interrupted w) (notified w) (tasks w) (registration_responses w) (control w) (thread w) (network w) (receiving w) (stop_requested w).
Definition set_jobs (f : gmap job_id_t nat → gmap job_id_t nat) (w : worker) : worker :=
  mk_worker (shutting_down w) (masters w) (f (jobs w)) (heap w) (event_queue w) (pending w) (interrupted w) (notified w) (tasks w) (registration_responses w) (control w) (thread w) (network w) (receiving w) (stop_requested w).
Definition set_heap (f : list job → list job) (w : worker) : worker :=
  mk_worker (shutting_down w) (masters w) (jobs w) (f (heap w)) (event_queue w) (pending w) (interrupted w) (notified w) (tasks w) (registration_responses w) (control w) (thread w) (network w) (receiving w) (stop_requested w).
Definition set_event_queue (f : list (address * event A) → list (address * event A)) (w : worker) : worker :=
  mk_worker (shutting_down w) (masters w) (jobs w) (heap w) (f (event_queue w)) (pending w) (interrupted w) (notified w) (tasks w) (registration_responses w) (control w) (thread w) (network w) (receiving w) (stop_requested w).
Definition set_pending (f : list nat → list nat) (w : worker) : worker :=
  mk_worker (shutting_down w) (masters w) (jobs w) (heap w) (event_queue w) (f (pending w)) (interrupted w) (notified w) (tasks w) (registration_responses w) (control w) (thread w) (network w) (receiving w) (stop_requested w).
Definition set_interrupted (x : bool) (w : worker) : worker :=
  mk_worker (shutting_down w) (masters w) (jobs w) (heap w) (event_queue w) (pending w) x (notified w) (tasks w) (registration_responses w) (control w) (thread w) (network w) (receiving w) (stop_requested w).
Definition set_notified (f : gset address → gset address) (w : worker) : worker :=
  mk_worker (shutting_down w) (masters w) (jobs w) (heap w) (event_queue w) (pending w) (interrupted w) (f (notified w)) (tasks w) (registration_responses w) (control w) (thread w) (network w) (receiving w) (stop_requested w).
Definition set_tasks (f : gmap job_id_t task → gmap job_id_t task) (w : worker) : worker :=
  mk_worker (shutting_down w) (masters w) (jobs w) (heap w) (event_queue w) (pending w) (interrupted w) (notified w) (f (tasks w)) (registration_responses w) (control w) (thread w) (network w) (receiving w) (stop_requested w).
Definition set_registration_responses (f : gmap address (option (option exn)) → gmap address (option (option exn))) (w : worker) : worker :=
  mk_worker (shutting_down w) (masters w) (jobs w) (heap w) (event_queue w) (pending w) (interrupted w) (notified w) (tasks w) (f (registration_responses w)) (control w) (thread w) (network w) (receiving w) (stop_requested w).
Definition set_control (x : event_thread) (w : worker) : worker :=
  mk_worker (shutting_down w) (masters w) (jobs w) (heap w) (event_queue w) (pending w) (interrupted w) (notified w) (tasks w) (registration_responses w) x (thread w) (network w) (receiving w) (stop_requested w).
Definition set_thread (x : execution_thread) (w : worker) : worker :=
  mk_worker (shutting_down w) (masters w) (jobs w) (heap w) (event_queue w) (pending w) (interrupted w) (notified w) (tasks w) (registration_responses w) (control w) x (network w) (receiving w) (stop_requested w).
Definition set_network (f : list (address * event A) → list (address * event A)) (w : worker) : worker :=
  mk_worker (shutting_down w) (masters w) (jobs w) (heap w) (event_queue w) (pending w) (interrupted w) (notified w) (tasks w) (registration_responses w) (control w) (thread w) (f (network w)) (receiving w) (stop_requested w).
Definition set_receiving (x : bool) (w : worker) : worker :=
  mk_worker (shutting_down w) (masters w) (jobs w) (heap w) (event_queue w) (pending w) (interrupted w) (notified w) (tasks w) (registration_responses w) (control w) (thread w) (network w) x (stop_requested w).
Definition set_stop_requested (x : bool) (w : worker) : worker :=
  mk_worker (shutting_down w) (masters w) (jobs w) (heap w) (event_queue w) (pending w) (interrupted w) (notified w) (tasks w) (registration_responses w) (control w) (thread w) (network w) (receiving w) x.

Abbreviation D := (M worker exn).
Definition make : worker :=
  mk_worker false (mk_masters [] 0 0) ∅ [] [] [] false ∅ ∅ ∅ Ready Waiting [] true false.

(** [try { f } catch (...) { h }] *)
Definition trying (f : D unit) (h : exn → D unit) : D unit :=
  λ w, match f w with (Throw e, w) => if catchable e then h e w else (Throw e, w) | r => r end.
Definition send_event (to_ : address) (e : event A) : D unit := modify (set_network (λ l, l ++ [(to_, e)])).
Definition set_job (r : nat) (f : job → job) : D unit := modify (set_heap (alter f r)).
Definition the_job (r : nat) : D job := w ← get; lift (or_throw (undefined "dangling pointer") (heap w !! r)).
(** [*job->owner] *)
Definition owner_of (j : job) : D address :=
  w ← get; lift (or_throw (undefined "dereference of an invalid iterator") (masters w !! owner j)).
(** [std::find (m_masters.cbegin(), m_masters.cend(), source)] *)
Definition master_of (source : address) (w : worker) : option owner_type :=
  (λ x, mk_owner (storage (masters w)) x.1) <$> list_find (λ m, m = source) (addresses (masters w)).

(** ** The constructor *)
Fixpoint make_capabilities (uuids names : list string) (worker_name : string) : capability.set :=
  match uuids, names with
  | uuid :: uuids, cap :: names =>
      capability.insert (capability.mk cap 0 worker_name uuid) (make_capabilities uuids names worker_name)
  | _, _ => ∅
  end.
Definition register (capabilities : capability.set) (master_address : address) : D unit :=
  modify (set_masters (emplace_back grow master_address)) ≫= λ _,
  modify (set_registration_responses (λ m, (emplace master_address None m).1)) ≫= λ _,
  send_event master_address (WorkerRegistrationEvent m_my_name capabilities shared_memory_size false hostname).
(** [wait_and_collect_exceptions]: nothing happens as long as a response is missing *)
Definition registered : D unit :=
  w ← get;
  let responses := (map_to_list (registration_responses w)).*2 in
  if existsb (λ r, match r with None => true | _ => false end) responses then mret tt
  else if existsb (λ r, match r with Some (Some _) => true | _ => false end) responses then throw (runtime_error "wait_and_collect_exceptions")
  else modify (set_registration_responses (λ _, ∅)).

(** ** Events *)

(** [std::promise::set_value], [set_exception] *)
Definition satisfy (source : address) (response : option exn) : D unit :=
  w ← get;
  match registration_responses w !! source with
  | None => throw out_of_range
  | Some (Some _) => throw (logic_error "promise already satisfied")
  | Some None => modify (set_registration_responses (<[source := Some response]>))
  end.
Definition handle_worker_registration_response (source : address) (error : option exn) : D unit :=
  w ← get;
  match master_of source w with
  | None => throw (runtime_error "worker_registration_response for unknown master")
  | Some _ =>
      match error with
      | Some e => satisfy source (Some e)
      | None => trying (satisfy source None) (λ e, satisfy source (Some e))
      end
  end.

(** ** The receiver

    [start_receiver]: it goes on after a message, and ends when a connection is lost *)
Definition receive (source : address) (e : event A) : D unit :=
  w ← get;
  if receiving w then modify (set_event_queue (λ l, l ++ [(source, e)])) else mret tt.
Definition connection_lost (source : address) : D unit :=
  w ← get;
  if receiving w then
    modify (set_receiving false) ≫= λ _,
    if shutting_down w then mret tt
    else if decide (registration_responses w = ∅) then modify (set_stop_requested true)
    else satisfy source (Some (runtime_error "connection_aborted"))
  else mret tt.

Definition handleSubmitJobEvent (source : address) (job_id : option job_id_t) (a : A)
    (implementation : option string) (ws : gset worker_id_t) : D unit :=
  w ← get;
  match master_of source w, job_id with
  | None, _ => throw (runtime_error "got SubmitJob from unknown source")
  | Some _, None => throw (runtime_error "Received job with an unspecified job id")
  | Some master, Some job_id =>
      if shutting_down w then
        send_event source (ErrorEvent SDPA_EBACKLOGFULL "abusing backlogfull to stop getting new jobs" (Some job_id))
      else if decide (is_Some (jobs w !! job_id)) then send_event source (SubmitJobAckEvent job_id)
      else if decide (length (pending w) < backlog_length) then
        let r := length (heap w) in
        modify (set_heap (λ l, l ++ [mk_job job_id a implementation master ws PENDING no_activity ""])) ≫= λ _,
        modify (set_pending (λ l, l ++ [r])) ≫= λ _,
        modify (set_control (Acknowledging r))
      else modify (set_control (Refusing source job_id))
  end.
(** the rest of [handleSubmitJobEvent] *)
Definition proceed : D unit :=
  w ← get;
  match control w with
  | Ready => mret tt
  | Acknowledging r =>
      j ← the_job r;
      to_ ← owner_of j;
      send_event to_ (SubmitJobAckEvent (id j)) ≫= λ _,
      modify (set_control (Storing r))
  | Storing r =>
      j ← the_job r;
      modify (set_jobs (λ m, (emplace (id j) r m).1)) ≫= λ _,
      modify (set_control Ready)
  | Refusing source job_id =>
      send_event source (ErrorEvent SDPA_EBACKLOGFULL "I am busy right now, please try again later!" (Some job_id)) ≫= λ _,
      modify (set_control (Recording source))
  | Recording source =>
      modify (set_notified (λ s, {[source]} ∪ s)) ≫= λ _,
      modify (set_control Ready)
  end.

(** the job of the map, which has to belong to the source *)
Definition owned_job (source : address) (job_id : job_id_t) (what : string) : D (nat * job) :=
  w ← get;
  match jobs w !! job_id with
  | None => throw (runtime_error (what +:+ " for unknown job"))
  | Some r =>
      j ← the_job r;
      to_ ← owner_of j;
      if decide (to_ = source) then mret (r, j) else throw (runtime_error (what +:+ " for non-owned job"))
  end.
Definition cancel_task (s : wfe_task.state_t) (t : task) : task := mk_task s (t_activity t) true.
Definition handleCancelJobEvent (source : address) (job_id : job_id_t) : D unit :=
  '(r, j) ← owned_job source job_id "cancel_job";
  match state j with
  | PENDING =>
      set_job r (set_state CANCELED) ≫= λ _,
      to_ ← owner_of j;
      send_event to_ (CancelJobAckEvent (id j))
  | RUNNING => modify (set_tasks (alter (cancel_task wfe_task.CANCELED) job_id))
  | _ => mret tt
  end.
Definition handleJobFailedAckEvent (source : address) (job_id : job_id_t) : D unit :=
  owned_job source job_id "job_failed_ack" ≫= λ _, modify (set_jobs (delete job_id)).
Definition handleJobFinishedAckEvent (source : address) (job_id : job_id_t) : D unit :=
  owned_job source job_id "job_finished_ack" ≫= λ _, modify (set_jobs (delete job_id)).
Definition status (s : state_t) : job.code :=
  match s with
  | PENDING => job.PENDING
  | RUNNING => job.RUNNING
  | FINISHED => job.FINISHED
  | FAILED | CANCELED_DUE_TO_WORKER_SHUTDOWN => job.FAILED
  | CANCELED => job.CANCELED
  end.
Definition handleDiscoverJobStatesEvent (source : address) (job_id discover_id : job_id_t) : D unit :=
  w ← get;
  let s := jobs w !! job_id ≫= λ r, heap w !! r in
  send_event source (DiscoverJobStatesReplyEvent discover_id (layer.mk_info job_id ((λ j, status (state j)) <$> s) [])).

(** what [EventHandler] throws for the events that the worker does not handle *)
Definition name_of (e : event A) : string :=
  match e with
  | SubmitJobEvent _ _ _ _ => "SubmitJob" | SubmitJobAckEvent _ => "SubmitJobAck"
  | CancelJobEvent _ => "CancelJob" | CancelJobAckEvent _ => "CancelJobAck"
  | DeleteJobEvent _ => "DeleteJob" | DeleteJobAckEvent _ => "DeleteJobAck"
  | JobFinishedEvent _ _ => "JobFinished" | JobFinishedAckEvent _ => "JobFinishedAck"
  | JobFailedEvent _ _ => "JobFailed" | JobFailedAckEvent _ => "JobFailedAck"
  | QueryJobStatusEvent _ => "QueryJobStatus" | JobStatusReplyEvent _ _ _ => "JobStatusReply"
  | SubscribeEvent _ => "Subscribe" | SubscribeAckEvent _ => "SubscribeAck"
  | DiscoverJobStatesEvent _ _ => "DiscoverJobStates" | DiscoverJobStatesReplyEvent _ _ => "DiscoverJobStatesReply"
  | ErrorEvent _ _ _ => "ErrorEvent" | WorkerRegistrationEvent _ _ _ _ _ => "WorkerRegistration"
  | worker_registration_response _ => "WorkerRegistrationAck"
  | CapabilitiesGainedEvent _ => "CapabilitiesGained" | CapabilitiesLostEvent _ => "CapabilitiesLost"
  | BacklogNoLongerFullEvent => "BacklogNoLongerFullEvent"
  | put_token _ _ _ _ => "put_token" | put_token_response _ _ => "put_token_response"
  | workflow_response _ _ _ _ => "workflow_response" | workflow_response_response _ _ => "workflow_response_response"
  | delayed_cancel _ | delayed_discover _ _ => "delayed function"
  end.
Definition handle (source : address) (e : event A) : D unit :=
  match e with
  | worker_registration_response error => handle_worker_registration_response source error
  | SubmitJobEvent job_id a implementation ws => handleSubmitJobEvent source job_id a implementation ws
  | CancelJobEvent job_id => handleCancelJobEvent source job_id
  | JobFailedAckEvent job_id => handleJobFailedAckEvent source job_id
  | JobFinishedAckEvent job_id => handleJobFinishedAckEvent source job_id
  | DiscoverJobStatesEvent job_id discover_id => handleDiscoverJobStatesEvent source job_id discover_id
  | e => throw (runtime_error ("UNHANDLED EVENT: " +:+ name_of e))
  end.
(** the body of the loop of [event_thread] *)
Definition handle_next : D unit :=
  w ← get;
  match control w, event_queue w with
  | Ready, (source, e) :: rest =>
      modify (set_event_queue (λ _, rest)) ≫= λ _,
      trying (handle source e) (λ x, send_event source (ErrorEvent SDPA_EUNKNOWN (print x) None))
  | _, _ => mret tt
  end.

(** ** Execution

    The event thread holds the mutex of the map of jobs while it handles an event, so that
    the execution thread and the destructor wait for it where they need the map. *)

(** [if (task.state == PENDING) ...] and the translation of the states of tasks *)
Definition final_state (s : wfe_task.state_t) : state_t :=
  match s with
  | wfe_task.PENDING | wfe_task.FINISHED => FINISHED
  | wfe_task.CANCELED => CANCELED
  | wfe_task.CANCELED_DUE_TO_WORKER_SHUTDOWN => CANCELED_DUE_TO_WORKER_SHUTDOWN
  | wfe_task.FAILED => FAILED
  end.
Definition is_pending (s : wfe_task.state_t) : bool := match s with wfe_task.PENDING => true | _ => false end.
(** the next step of [job_execution_thread] *)
Definition job_execution_thread (o : executed A) : D unit :=
  w ← get;
  match thread w with
  | Waiting =>
      if interrupted w then modify (set_thread Ended)
      else match pending w with
           | [] => mret tt
           | r :: rest =>
               modify (set_pending (λ _, rest)) ≫= λ _,
               modify (set_thread (Taken r (bool_decide (length (pending w) = backlog_length))))
           end
  | Taken r notify_can_take_jobs =>
      (if (notify_can_take_jobs : bool) then
         for_each (λ master, send_event master BacklogNoLongerFullEvent) (elements (notified w)) ≫= λ _,
         modify (set_notified (λ _, ∅))
       else mret tt) ≫= λ _,
      modify (set_thread (Claiming r))
  | Claiming r =>
      j ← the_job r;
      if decide (state j = PENDING) then set_job r (set_state RUNNING) ≫= λ _, modify (set_thread (Starting r))
      else modify (set_thread (Dropping r))
  | Dropping r =>
      match control w with
      | Ready =>
          j ← the_job r;
          modify (set_jobs (delete (id j))) ≫= λ _,
          modify (set_thread Waiting)
      | _ => mret tt
      end
  | Starting r =>
      set_job r (set_result no_activity) ≫= λ _,
      j ← the_job r;
      modify (set_tasks (λ m, (emplace (id j) (mk_task wfe_task.PENDING (activity j) false) m).1)) ≫= λ _,
      modify (set_thread (Executing r))
  | Executing r =>
      j ← the_job r;
      match o with
      | Returned a =>
          modify (set_tasks (alter (λ t, mk_task (t_state t) a (cancelled t)) (id j))) ≫= λ _,
          modify (set_thread (Executed r false))
      | Cancelled =>
          modify (set_tasks (alter (λ t, mk_task wfe_task.CANCELED (t_activity t) (cancelled t)) (id j))) ≫= λ _,
          modify (set_thread (Executed r false))
      | Threw what does_not_unload =>
          modify (set_tasks (alter (λ t, mk_task wfe_task.FAILED (t_activity t) (cancelled t)) (id j))) ≫= λ _,
          set_job r (set_message what) ≫= λ _,
          modify (set_thread (Executed r does_not_unload))
      end
  | Executed r tainted =>
      j ← the_job r;
      t ← lift (or_throw (undefined "dangling pointer") (tasks w !! id j));
      modify (set_tasks (delete (id j))) ≫= λ _,
      (if is_pending (t_state t) then set_job r (set_result (t_activity t)) else mret tt) ≫= λ _,
      set_job r (set_state (final_state (t_state t))) ≫= λ _,
      modify (set_thread (Answering r tainted))
  | Answering r tainted =>
      j ← the_job r;
      (match state j with
       | FINISHED => to_ ← owner_of j; send_event to_ (JobFinishedEvent (id j) (result j))
       | FAILED => to_ ← owner_of j; send_event to_ (JobFailedEvent (id j) (message j))
       | CANCELED => to_ ← owner_of j; send_event to_ (CancelJobAckEvent (id j))
       | CANCELED_DUE_TO_WORKER_SHUTDOWN => mret tt
       | _ => throw (undefined "INVALID_ENUM_VALUE")
       end) ≫= λ _,
      modify (set_thread (if (tainted : bool) then Aborted else Waiting))
  | Aborted | Ended => mret tt
  end.

(** ** The destructor *)
Definition shut_down : D unit :=
  modify (set_shutting_down true) ≫= λ _, modify (set_notified (λ _, ∅)).
Definition mark_remaining_tasks_as_canceled : D unit :=
  w ← get;
  match control w with
  | Ready =>
      modify (set_tasks (fmap (cancel_task wfe_task.CANCELED_DUE_TO_WORKER_SHUTDOWN))) ≫= λ _,
      for_each (λ x : job_id_t * nat, set_job x.2 (set_state CANCELED_DUE_TO_WORKER_SHUTDOWN)) (map_to_list (jobs w))
  | _ => mret tt
  end.
Definition interrupt : D unit := modify (set_interrupted true).

(** ** Steps *)
Inductive act : Type :=
| Register (capabilities : capability.set) (master_address : address)
| Registered
| Receive (source : address) (e : event A)
| Lost (source : address)
| Handle
| Proceed
| Step (o : executed A)
| Shut_down
| Mark_remaining
| Interrupt.
Definition perform (x : act) : D unit :=
  match x with
  | Register capabilities master_address => register capabilities master_address
  | Registered => registered
  | Receive source e => receive source e
  | Lost source => connection_lost source
  | Handle => handle_next
  | Proceed => proceed
  | Step o => job_execution_thread o
  | Shut_down => shut_down
  | Mark_remaining => mark_remaining_tasks_as_canceled
  | Interrupt => interrupt
  end.
Definition after (xs : list act) (w : worker) : worker := foldl (λ w x, (perform x w).2) w xs.
End drts.
Arguments job : clear implicits. Arguments task : clear implicits.
Arguments worker : clear implicits. Arguments act : clear implicits.
End drts.
