(* ===== verification/DrtsWorkerSpec.v ===== *)
(** * What a worker answers

    Whatever a worker receives and however its threads interleave, it answers every job
    that it has accepted at most once, to its owner, and has the jobs that it has not
    answered in its backlog or under execution; its execution thread answers them all. *)

From Stdlib Require Import SpecFloat.
From S2P Require Import Prelude Value Token Function SdpaJob SdpaWorker SdpaManager SdpaScheduler Layer SdpaAgent SdpaAgentSpec DrtsWorker.

Import Agent AgentSpec drts.

Module WorkerSpec.
Section spec.
Context {A : Type} (no_activity : A).
Context (print : exn → string) (hostname m_my_name : string) (shared_memory_size : Z) (backlog_length : nat) (grow : nat → nat).

Abbreviation worker := (drts.worker A).
Abbreviation job := (drts.job A).
Implicit Types (w : worker) (j : job) (r : nat) (heap : list job).

(** ** Answers *)
Definition answer : Type := address * job_id_t * state_t.
Definition answer_of (x : address * event A) : option answer :=
  match x.2 with
  | JobFinishedEvent id _ => Some (x.1, id, FINISHED)
  | JobFailedEvent id _ => Some (x.1, id, FAILED)
  | CancelJobAckEvent id => Some (x.1, id, CANCELED)
  | _ => None
  end.
Definition answers (l : list (address * event A)) : list answer := omap answer_of l.

Definition terminal (s : state_t) : bool :=
  match s with FINISHED | FAILED | CANCELED => true | _ => false end.
Definition is_answering (t : execution_thread) r : bool :=
  match t with Answering r' _ => bool_decide (r = r') | _ => false end.
(** the answer that a job has got: that of its state, unless it is just being sent *)
Definition answer_to (ms : masters_t) (t : execution_thread) heap r : option answer :=
  j ← heap !! r;
  if terminal (state j) && negb (is_answering t r) then (λ m, (m, drts.id j, state j)) <$> ms !! owner j else None.
Definition answered (ms : masters_t) (t : execution_thread) heap : list answer :=
  omap (answer_to ms t heap) (seq 0 (length heap)).

(** ** Jobs *)
Definition waiting_state (s : state_t) : Prop := s = PENDING ∨ s = CANCELED.
(** what the execution thread has done with its job *)
Definition in_phase (t : execution_thread) heap (p : list nat) (ts : gmap job_id_t (task A)) : Prop :=
  match t with
  | Waiting | Aborted | Ended => True
  | Taken r _ | Claiming r => (r ∉ p) ∧ ∃ j, heap !! r = Some j ∧ waiting_state (state j)
  | Dropping r => ∃ j, heap !! r = Some j ∧ state j = CANCELED
  | Starting r => ∃ j, heap !! r = Some j ∧ state j = RUNNING
  | Executing r | Executed r _ => ∃ j, heap !! r = Some j ∧ state j = RUNNING ∧ is_Some (ts !! drts.id j)
  | Answering r _ => ∃ j, heap !! r = Some j ∧ terminal (state j) = true
  end.
Definition before_claim (t : execution_thread) r : Prop :=
  match t with Taken r' _ | Claiming r' => r = r' | _ => False end.
Definition claimed (t : execution_thread) r : Prop :=
  match t with Starting r' | Executing r' | Executed r' _ => r = r' | _ => False end.
Definition located (t : execution_thread) (p : list nat) r (s : state_t) : Prop :=
  match s with
  | PENDING => r ∈ p ∨ before_claim t r
  | RUNNING => claimed t r
  | CANCELED_DUE_TO_WORKER_SHUTDOWN => False
  | _ => True
  end.

Record consistent (heap : list job) (p : list nat) (t : execution_thread) (ms : masters_t)
    (js : gmap job_id_t nat) (ts : gmap job_id_t (task A)) (c : event_thread) (l : list answer) : Prop := mk_consistent {
  c_once : NoDup p;
  c_pending r : r ∈ p → ∃ j, heap !! r = Some j ∧ waiting_state (state j);
  c_thread : in_phase t heap p ts;
  c_located r j : heap !! r = Some j → located t p r (state j);
  c_owner r j : heap !! r = Some j → is_Some (ms !! owner j);
  c_jobs id r : js !! id = Some r → ∃ j, heap !! r = Some j ∧ drts.id j = id;
  c_tasks : map_Forall (λ _ x, t_state x ≠ wfe_task.CANCELED_DUE_TO_WORKER_SHUTDOWN) ts;
  c_control r : c = Acknowledging r ∨ c = Storing r → is_Some (heap !! r);
  c_answers : l ≡ₚ answered ms t heap
}.
Definition sound w : Prop :=
  consistent (drts.heap w) (pending w) (thread w) (masters w) (jobs w) (tasks w) (control w) (answers (network w)).

Lemma sound_make : sound make.
Proof.
  split; simpl; try done; [apply NoDup_nil_2|by intros r ?%elem_of_nil|by intros r [|]].
Qed.

(** ** Counting answers *)
Lemma omap_change {Y} (f g : nat → option Y) (l : list nat) x y :
  NoDup l → x ∈ l → f x = None → g x = Some y → (∀ x', x' ∈ l → x' ≠ x → g x' = f x') → omap g l ≡ₚ y :: omap f l.
Proof.
  intros Hl Hx Hf Hg Hne. induction l as [|z l IH]; [by apply elem_of_nil in Hx|].
  apply NoDup_cons in Hl as [Hz Hl]. simpl. destruct (decide (z = x)) as [->|Hzx].
  - rewrite Hf, Hg. apply perm_skip, reflexive_eq, list_omap_ext, Forall_Forall2_diag, Forall_forall.
    intros z Hzl. apply Hne; set_solver.
  - rewrite (Hne z) by set_solver. destruct (f z); [etrans; [apply perm_skip, IH; set_solver|apply perm_swap]|apply IH; set_solver].
Qed.
Section answered.
Context (ms ms' : masters_t) (t t' : execution_thread) (h h' : list job).
Lemma answered_same :
  length h' = length h → (∀ r, r < length h → answer_to ms' t' h' r = answer_to ms t h r) → answered ms' t' h' = answered ms t h.
Proof.
  intros Hlen Hr. unfold answered. rewrite Hlen. apply list_omap_ext, Forall_Forall2_diag, Forall_forall.
  intros r Hin%elem_of_seq. apply Hr. lia.
Qed.
Lemma answered_more r y :
  length h' = length h → r < length h → answer_to ms t h r = None → answer_to ms' t' h' r = Some y →
  (∀ r', r' ≠ r → answer_to ms' t' h' r' = answer_to ms t h r') → answered ms' t' h' ≡ₚ answered ms t h ++ [y].
Proof.
  intros Hlen Hr Hn Hs Ho. unfold answered. rewrite Hlen, <- Permutation_cons_append. apply (omap_change _ _ _ r); try done.
  - apply NoDup_seq.
  - apply elem_of_seq. lia.
  - intros; by apply Ho.
Qed.
End answered.
Lemma answered_append ms t h j :
  terminal (state j) = false → answered ms t (h ++ [j]) = answered ms t h.
Proof.
  intros Hj. unfold answered. rewrite length_app. simpl. rewrite Nat.add_1_r, seq_S, omap_app. simpl.
  unfold answer_to at 2. rewrite lookup_app_r, Nat.sub_diag by lia. simpl. rewrite Hj. simpl. rewrite app_nil_r.
  apply list_omap_ext, Forall_Forall2_diag, Forall_forall. intros r Hr%elem_of_seq. unfold answer_to.
  by rewrite lookup_app_l by lia.
Qed.
(** as long as there is room, a new master leaves the iterators as they are *)
Lemma emplace_back_room (ms : masters_t) m it x :
  length (addresses ms) < capacity ms → ms !! it = Some x → emplace_back grow m ms !! it = Some x.
Proof.
  intros Hr. unfold emplace_back. rewrite decide_True by done. unfold lookup, masters_lookup. simpl. case_decide; [|done].
  apply lookup_app_l_Some.
Qed.
Lemma answered_masters ms m t h :
  length (addresses ms) < capacity ms → (∀ r j, h !! r = Some j → is_Some (ms !! owner j)) →
  answered (emplace_back grow m ms) t h = answered ms t h.
Proof.
  intros Hroom Ho. apply answered_same; [done|]. intros r Hr. unfold answer_to. destruct (h !! r) as [j|] eqn:Hj; [|done]. simpl.
  destruct (Ho r j Hj) as [x Hx]. by rewrite (emplace_back_room _ _ _ _ Hroom Hx), Hx.
Qed.
(** the execution thread goes on without sending *)
Lemma answered_thread ms t t' h : (∀ r, is_answering t' r = is_answering t r) → answered ms t' h = answered ms t h.
Proof. intros Ht. apply answered_same; [done|]. intros r _. unfold answer_to. by rewrite Ht. Qed.
Lemma answer_to_ne ms t f r h r' : r' ≠ r → answer_to ms t (alter f r h) r' = answer_to ms t h r'.
Proof. intros Hne. unfold answer_to. by rewrite list_lookup_alter_ne by done. Qed.

(** ** What the steps do to the jobs *)
Section steps.
Context (h : list job) (p : list nat) (t : execution_thread) (ms : masters_t).
Context (js : gmap job_id_t nat) (ts : gmap job_id_t (task A)) (c : event_thread) (l : list answer).
Context (Hc : consistent h p t ms js ts c l).

Lemma lookup_bound r j : h !! r = Some j → r < length h.
Proof. apply lookup_lt_Some. Qed.
Lemma pending_bound r : r ∈ p → r < length h.
Proof. intros (j & Hj & _)%(c_pending _ _ _ _ _ _ _ _ Hc). by eapply lookup_bound. Qed.

Lemma consistent_submit j :
  state j = PENDING → is_Some (ms !! owner j) →
  consistent (h ++ [j]) (p ++ [length h]) t ms js ts (Acknowledging (length h)) l.
Proof.
  intros Hs Ho. assert (∀ r j', h !! r = Some j' → (h ++ [j]) !! r = Some j') as Hold by (intros; by apply lookup_app_l_Some).
  assert ((h ++ [j]) !! length h = Some j) as Hnew by (rewrite lookup_app_r, Nat.sub_diag by lia; done).
  assert (∀ r j', (h ++ [j]) !! r = Some j' → h !! r = Some j' ∨ r = length h ∧ j' = j) as Hcases.
  { intros r j' [?|[? Hr]]%lookup_app_Some; [by left|]. right. apply list_lookup_singleton_Some in Hr as [? <-]. split; [lia|done]. }
  destruct Hc as [Hn Hp Ht Hl Hown Hj Hts _ Ha]. split.
  - apply NoDup_app. split; [done|]. split; [|apply NoDup_singleton]. intros r Hr ->%list_elem_of_singleton.
    apply pending_bound in Hr. lia.
  - intros r [Hr| ->%list_elem_of_singleton]%elem_of_app; [|by exists j; split; [|left]]. destruct (Hp r Hr) as (j' & ? & ?). eauto.
  - destruct t; simpl in *; try done; try (by destruct Ht as (j' & ? & ?); eauto).
    all: destruct Ht as (Hr & j' & Hj' & ?); (split; [|by eauto]); intros [?| ->%list_elem_of_singleton]%elem_of_app; [done|];
      apply lookup_bound in Hj'; lia.
  - intros r j' [Hr|[-> ->]]%Hcases; [|by rewrite Hs; left; apply elem_of_app; right; apply list_elem_of_singleton].
    specialize (Hl r j' Hr). destruct (state j'); simpl in *; try done. destruct Hl; [left; apply elem_of_app; by left|by right].
  - intros r j' [Hr|[-> ->]]%Hcases; eauto.
  - intros id r Hr. destruct (Hj id r Hr) as (j' & ? & ?). eauto.
  - done.
  - intros r [[= <-]|[=]]. eauto.
  - rewrite answered_append; [done|]. by rewrite Hs.
Qed.
Lemma consistent_frame js' ts' c' :
  (∀ id r, js' !! id = Some r → ∃ j, h !! r = Some j ∧ drts.id j = id) →
  (∀ id, is_Some (ts !! id) → is_Some (ts' !! id)) →
  map_Forall (λ _ x, t_state x ≠ wfe_task.CANCELED_DUE_TO_WORKER_SHUTDOWN) ts' →
  (∀ r, c' = Acknowledging r ∨ c' = Storing r → is_Some (h !! r)) →
  consistent h p t ms js' ts' c' l.
Proof.
  intros Hj' Hts' Hf' Hc'. destruct Hc as [Hn Hp Ht Hl Hown Hj Hts _ Ha]. split; try done.
  destruct t; simpl in *; try done; destruct Ht as (j & ? & ? & ?); eauto.
Qed.
Lemma consistent_master m :
  h = [] ∨ length (addresses ms) < capacity ms → consistent h p t (emplace_back grow m ms) js ts c l.
Proof.
  intros Hroom. destruct Hc as [Hn Hp Ht Hl Hown Hj Hts Hctl Ha]. split; try done.
  - intros r j Hr. destruct Hroom as [->|Hroom]; [done|]. destruct (Hown r j Hr) as [x Hx]. exists x. by apply emplace_back_room.
  - destruct Hroom as [->|Hroom]; [done|]. by rewrite answered_masters.
Qed.
(** a step of the execution thread that leaves the jobs as they are *)
Lemma consistent_thread p' t' :
  NoDup p' → (∀ r, r ∈ p' → r ∈ p) → in_phase t' h p' ts →
  (∀ r j, h !! r = Some j → located t p r (state j) → located t' p' r (state j)) →
  (∀ r, is_answering t' r = is_answering t r) →
  consistent h p' t' ms js ts c l.
Proof.
  intros Hn' Hp' Ht' Hl' Ha'. destruct Hc as [Hn Hp Ht Hl Hown Hj Hts Hctl Ha]. split; try done; eauto.
  by rewrite (answered_thread ms t t').
Qed.
End steps.

Section thread.
Context (h : list job) (p : list nat) (ms : masters_t) (js : gmap job_id_t nat) (ts : gmap job_id_t (task A)).
Context (c : event_thread) (l : list answer).
Abbreviation holds t := (consistent h p t ms js ts c l).
Lemma consistent_ended : holds Waiting → holds Ended.
Proof.
  intros Hc. apply (consistent_thread _ _ _ _ _ _ _ _ Hc); [apply Hc|done..| |done]. intros r j _. by destruct (state j).
Qed.
Lemma consistent_take r rest b : p = r :: rest → holds Waiting → consistent h rest (Taken r b) ms js ts c l.
Proof.
  intros Hp Hc. pose proof (c_once _ _ _ _ _ _ _ _ Hc) as Hn. rewrite Hp in Hn. apply NoDup_cons in Hn as [Hr Hn].
  apply (consistent_thread _ _ _ _ _ _ _ _ Hc); [done|set_solver| | |done].
  - simpl. split; [done|]. apply (c_pending _ _ _ _ _ _ _ _ Hc). set_solver.
  - intros r' j _. rewrite Hp. destruct (state j); simpl; try done. rewrite elem_of_cons. tauto.
Qed.
Lemma consistent_notified r b : holds (Taken r b) → holds (Claiming r).
Proof.
  intros Hc. apply (consistent_thread _ _ _ _ _ _ _ _ Hc); [apply Hc|done|apply Hc| |done]. intros r' j _. by destruct (state j).
Qed.
Lemma consistent_skip r j : h !! r = Some j → state j ≠ PENDING → holds (Claiming r) → holds (Dropping r).
Proof.
  intros Hj Hs Hc. apply (consistent_thread _ _ _ _ _ _ _ _ Hc); [apply Hc|done| | |done].
  - destruct (c_thread _ _ _ _ _ _ _ _ Hc) as (_ & j' & Hj' & [?|?]); simplify_eq. by exists j.
  - intros r' j' Hj'. destruct (state j') eqn:Hs'; simpl; try done. intros [?| ->]; [by left|]. simplify_eq.
Qed.
Lemma consistent_dropped r : holds (Dropping r) → holds Waiting.
Proof. intros Hc. apply (consistent_thread _ _ _ _ _ _ _ _ Hc); [apply Hc|done|done| |done]. intros r' j' _. by destruct (state j'). Qed.
End thread.

(** *** Steps that change a job *)
Definition same_job (f : job → job) : Prop := ∀ j, drts.id (f j) = drts.id j ∧ owner (f j) = owner j.
Lemma lookup_alter_cases (f : job → job) r (h : list job) r' j' :
  alter f r h !! r' = Some j' → (r' ≠ r ∧ h !! r' = Some j') ∨ (r' = r ∧ ∃ j, h !! r = Some j ∧ j' = f j).
Proof.
  destruct (decide (r' = r)) as [->|Hne]; [|rewrite list_lookup_alter_ne by done; auto].
  rewrite list_lookup_alter_eq. intros (j & -> & ?)%fmap_Some. right. eauto.
Qed.
Lemma answer_to_alter ms t (f : job → job) r h j :
  h !! r = Some j → same_job f →
  answer_to ms t (alter f r h) r =
    if terminal (state (f j)) && negb (is_answering t r) then (λ m, (m, drts.id j, state (f j))) <$> ms !! owner j else None.
Proof. intros Hj Hf. unfold answer_to. rewrite list_lookup_alter_eq, Hj. simpl. by destruct (Hf j) as [-> ->]. Qed.

Section alter.
Context (h : list job) (p : list nat) (t : execution_thread) (ms : masters_t).
Context (js : gmap job_id_t nat) (ts : gmap job_id_t (task A)) (c : event_thread) (l : list answer).
Context (Hc : consistent h p t ms js ts c l).
Context (r : nat) (j : job) (Hj : h !! r = Some j) (f : job → job) (Hf : same_job f).

Lemma consistent_alter t' ts' l' :
  (r ∈ p → waiting_state (state (f j))) →
  in_phase t' (alter f r h) p ts' →
  located t' p r (state (f j)) →
  (∀ r' j', r' ≠ r → h !! r' = Some j' → located t' p r' (state j')) →
  map_Forall (λ _ x, t_state x ≠ wfe_task.CANCELED_DUE_TO_WORKER_SHUTDOWN) ts' →
  l' ≡ₚ answered ms t' (alter f r h) →
  consistent (alter f r h) p t' ms js ts' c l'.
Proof.
  intros Hp' Ht' Hr Hr' Hts' Ha'. destruct Hc as [Hn Hp Ht Hl Hown Hjs Hts Hctl Ha].
  assert (∀ r' j', h !! r' = Some j' → ∃ j'', alter f r h !! r' = Some j'' ∧ drts.id j'' = drts.id j' ∧ (r' = r ∧ j'' = f j ∨ r' ≠ r ∧ j'' = j')) as Hex.
  { intros r' j' Hj'. destruct (decide (r' = r)) as [->|Hne].
    - exists (f j). rewrite list_lookup_alter_eq, Hj. simplify_eq. split; [done|]. split; [apply Hf|auto].
    - exists j'. rewrite list_lookup_alter_ne by done. auto. }
  split; try done.
  - intros r' Hr1. destruct (Hp r' Hr1) as (j' & Hj' & Hw). destruct (Hex r' j' Hj') as (j'' & ? & _ & [[-> ->]|[? ->]]); eauto.
  - intros r' j' [[Hne Hj']|[-> (j1 & Hj1 & ->)]]%lookup_alter_cases; [eauto|]. by simplify_eq.
  - intros r' j' [[Hne Hj']|[-> (j1 & Hj1 & ->)]]%lookup_alter_cases; [eauto|]. destruct (Hf j1) as [_ ->]. eauto.
  - intros id r' Hid. destruct (Hjs id r' Hid) as (j' & Hj' & <-). destruct (Hex r' j' Hj') as (j'' & ? & ? & _). eauto.
  - intros r' Hr1. destruct (Hctl r' Hr1) as [j' Hj']. destruct (Hex r' j' Hj') as (j'' & ? & _). eauto.
Qed.
(** the states of the other jobs fit when only the thread's job moves *)
Lemma others_located t' r' j' :
  r' ≠ r → h !! r' = Some j' → (before_claim t r' → before_claim t' r') → (claimed t r' → claimed t' r') → located t' p r' (state j').
Proof.
  intros Hne Hj' Hb Hcl. pose proof (c_located _ _ _ _ _ _ _ _ Hc r' j' Hj') as Hl. destruct (state j'); simpl in *; tauto.
Qed.
Lemma not_answered_same t' :
  answer_to ms t h r = None → answer_to ms t' (alter f r h) r = None → (∀ r', r' ≠ r → is_answering t' r' = is_answering t r') →
  l ≡ₚ answered ms t' (alter f r h).
Proof.
  intros H1 H2 Ht. rewrite (c_answers _ _ _ _ _ _ _ _ Hc). apply reflexive_eq. symmetry. apply answered_same; [by rewrite length_alter|].
  intros r' _. destruct (decide (r' = r)) as [->|Hne]; [congruence|]. rewrite answer_to_ne by done. unfold answer_to. by rewrite Ht.
Qed.
Lemma now_answered t' m :
  ms !! owner j = Some m → answer_to ms t h r = None → terminal (state (f j)) = true → is_answering t' r = false →
  (∀ r', r' ≠ r → is_answering t' r' = is_answering t r') →
  l ++ [(m, drts.id j, state (f j))] ≡ₚ answered ms t' (alter f r h).
Proof.
  intros Hm H1 Hs Ha Ht. rewrite (c_answers _ _ _ _ _ _ _ _ Hc). symmetry. apply (answered_more ms ms t t' h _ r).
  - by rewrite length_alter.
  - by eapply lookup_lt_Some.
  - done.
  - rewrite (answer_to_alter _ _ _ _ _ j), Hs, Ha, Hm by done. done.
  - intros r' Hne. rewrite answer_to_ne by done. unfold answer_to. by rewrite Ht.
Qed.
End alter.

Lemma same_state (s : state_t) : same_job (set_state s). Proof. done. Qed.
Lemma same_result (a : A) : same_job (set_result a). Proof. done. Qed.
Lemma same_message (m : string) : same_job (set_message m). Proof. done. Qed.
Lemma answer_to_open ms t h r j :
  h !! r = Some j → terminal (state j) = false ∨ is_answering t r = true → answer_to ms t h r = None.
Proof. intros Hj Ht. unfold answer_to. rewrite Hj. simpl. destruct Ht as [-> | ->]; [done|]. by rewrite andb_false_r. Qed.

Lemma alter_twice (f g : job → job) r (h : list job) : alter (f ∘ g) r h = alter f r (alter g r h).
Proof. revert r. induction h as [|j h IH]; intros [|r]; try done. simpl. f_equal. apply IH. Qed.

Section job_steps.
Context (h : list job) (p : list nat) (ms : masters_t) (js : gmap job_id_t nat) (ts : gmap job_id_t (task A)).
Context (c : event_thread) (l : list answer).
Abbreviation holds t := (consistent h p t ms js ts c l).

Lemma consistent_claim r j :
  holds (Claiming r) → h !! r = Some j → state j = PENDING →
  consistent (alter (set_state RUNNING) r h) p (Starting r) ms js ts c l.
Proof.
  intros Hc Hj Hs. destruct (c_thread _ _ _ _ _ _ _ _ Hc) as [Hr _].
  apply (consistent_alter _ _ _ _ _ _ _ _ Hc r j Hj _ (same_state RUNNING)); try done.
  - exists (set_state RUNNING j). by rewrite list_lookup_alter_eq, Hj.
  - intros r' j' Hne Hj'. apply (others_located _ _ _ _ _ _ _ _ Hc r); [done|done|simpl; by intros ->|done].
  - apply Hc.
  - apply (not_answered_same _ _ _ _ _ _ _ _ Hc r); [apply (answer_to_open _ _ _ _ j); [done|left; by rewrite Hs]| |done].
    apply (answer_to_open _ _ _ _ (set_state RUNNING j)); [by rewrite list_lookup_alter_eq, Hj|by left].
Qed.
(** between claiming and answering only the task and the data of the job change *)
Lemma consistent_running r j (f : job → job) t t' ts' :
  holds t → h !! r = Some j → state j = RUNNING → same_job f → state (f j) = RUNNING →
  claimed t r → claimed t' r → is_Some (ts' !! drts.id j) ∨ t' = Starting r →
  map_Forall (λ _ x, t_state x ≠ wfe_task.CANCELED_DUE_TO_WORKER_SHUTDOWN) ts' →
  consistent (alter f r h) p t' ms js ts' c l.
Proof.
  intros Hc Hj Hs Hf Hs' Ht Ht' Hts Hts'.
  assert (alter f r h !! r = Some (f j)) as Hfj by (by rewrite list_lookup_alter_eq, Hj).
  assert (∀ x, is_answering t x = false) as Ha by (by destruct t).
  assert (∀ x, is_answering t' x = false) as Ha' by (by destruct t').
  apply (consistent_alter _ _ _ _ _ _ _ _ Hc r j Hj _ Hf).
  - intros Hin. destruct (c_pending _ _ _ _ _ _ _ _ Hc r Hin) as (j' & Hj' & [?|?]); simplify_eq; congruence.
  - destruct t'; simpl in *; try done; subst; exists (f j); (split; [done|]); [done|..]; (split; [done|]); destruct (Hf j) as [-> _];
      by destruct Hts.
  - by rewrite Hs'.
  - intros r' j' Hne Hj'. apply (others_located _ _ _ _ _ _ _ _ Hc r); [done..| |].
    + by destruct t.
    + intros Hcl. destruct Hne. destruct t; simpl in *; first [done|congruence].
  - done.
  - apply (not_answered_same _ _ _ _ _ _ _ _ Hc r); [apply (answer_to_open _ _ _ _ j); [done|left; by rewrite Hs]| |].
    + apply (answer_to_open _ _ _ _ (f j)); [done|left; by rewrite Hs'].
    + intros r' _. by rewrite Ha, Ha'.
Qed.
Lemma consistent_end r b j (f : job → job) ts' :
  holds (Executed r b) → h !! r = Some j → same_job f → terminal (state (f j)) = true →
  map_Forall (λ _ x, t_state x ≠ wfe_task.CANCELED_DUE_TO_WORKER_SHUTDOWN) ts' →
  consistent (alter f r h) p (Answering r b) ms js ts' c l.
Proof.
  intros Hc Hj Hf Hs Hts'. destruct (c_thread _ _ _ _ _ _ _ _ Hc) as (j' & Hj' & Hrun & _). simplify_eq.
  assert (alter f r h !! r = Some (f j)) as Hfj by (by rewrite list_lookup_alter_eq, Hj).
  apply (consistent_alter _ _ _ _ _ _ _ _ Hc r j Hj _ Hf); [|by exists (f j)| | |done|].
  - intros Hin. destruct (c_pending _ _ _ _ _ _ _ _ Hc r Hin) as (j' & Hj'' & [?|?]); simplify_eq; congruence.
  - by destruct (state (f j)).
  - intros r' j' Hne Hj''. apply (others_located _ _ _ _ _ _ _ _ Hc r); [done..|]. simpl. by intros ->.
  - apply (not_answered_same _ _ _ _ _ _ _ _ Hc r); [apply (answer_to_open _ _ _ _ j); [done|left; by rewrite Hrun]| |].
    + apply (answer_to_open _ _ _ _ (f j)); [done|right; simpl; by apply bool_decide_eq_true].
    + intros r' Hne. simpl. by apply bool_decide_eq_false.
Qed.
Lemma consistent_answer r b j m :
  holds (Answering r b) → h !! r = Some j → ms !! owner j = Some m →
  consistent h p (if b : bool then Aborted else Waiting) ms js ts c (l ++ [(m, drts.id j, state j)]).
Proof.
  intros Hc Hj Hm. destruct (c_thread _ _ _ _ _ _ _ _ Hc) as (j' & Hj' & Hs). simplify_eq.
  set (t' := if b then Aborted else Waiting).
  assert (h = alter (λ j, j) r h) as Hid by (symmetry; apply list_alter_id; done).
  rewrite Hid. apply (consistent_alter _ _ _ _ _ _ _ _ Hc r j Hj (λ j, j)); [done| |by destruct b| | |apply Hc|].
  - intros Hin. by destruct (c_pending _ _ _ _ _ _ _ _ Hc r Hin) as (j' & Hj' & ?); simplify_eq.
  - by destruct (state j).
  - intros r' j' Hne Hj'. apply (others_located _ _ _ _ _ _ _ _ Hc r); done.
  - apply (now_answered _ _ _ _ _ _ _ _ Hc r j Hj (λ j, j)); [done|done| |done|by unfold t'; destruct b|].
    + apply (answer_to_open _ _ _ _ j); [done|right; simpl; by apply bool_decide_eq_true].
    + intros r' Hne. simpl. rewrite bool_decide_eq_false_2 by done. by unfold t'; destruct b.
Qed.
Lemma consistent_cancel t r j m :
  holds t → h !! r = Some j → state j = PENDING → ms !! owner j = Some m →
  consistent (alter (set_state CANCELED) r h) p t ms js ts c (l ++ [(m, drts.id j, CANCELED)]).
Proof.
  intros Hc Hj Hs Hm. pose proof (c_located _ _ _ _ _ _ _ _ Hc r j Hj) as Hl. rewrite Hs in Hl.
  assert (alter (set_state CANCELED) r h !! r = Some (set_state CANCELED j)) as Hfj by (by rewrite list_lookup_alter_eq, Hj).
  pose proof (c_thread _ _ _ _ _ _ _ _ Hc) as Ht.
  assert (is_answering t r = false) as Ha.
  { destruct t as [| | | | | | |r' b| |]; try done. simpl. apply bool_decide_eq_false. intros ->.
    destruct Ht as (j' & Hj' & Hs'). simplify_eq. by rewrite Hs in Hs'. }
  apply (consistent_alter _ _ _ _ _ _ _ _ Hc r j Hj _ (same_state CANCELED)).
  - intros _. by right.
  - assert (∀ x (P : job → Prop), (∃ j', h !! x = Some j' ∧ P j') → (P j → P (set_state CANCELED j)) →
              ∃ j', alter (set_state CANCELED) r h !! x = Some j' ∧ P j') as Hex.
    { intros x P (j' & Hj' & HP) Himp. destruct (decide (x = r)) as [->|Hne]; [simplify_eq; eauto|].
      exists j'. by rewrite list_lookup_alter_ne. }
    destruct t; simpl in *; try done.
    1, 2: destruct Ht as [Hr Ht]; split; [done|]; apply Hex; [done|]; by right.
    all: apply (Hex _ _ Ht); simpl; rewrite Hs; try done; by intros [? ?].
  - done.
  - intros r' j' Hne Hj'. apply (c_located _ _ _ _ _ _ _ _ Hc r' j' Hj').
  - apply Hc.
  - apply (now_answered _ _ _ _ _ _ _ _ Hc r j Hj _ (same_state CANCELED)); [done| |done|done|done].
    apply (answer_to_open _ _ _ _ j); [done|left; by rewrite Hs].
Qed.
End job_steps.

(** ** The operations *)
Abbreviation D := (M worker exn).
Definition safe (m : D unit) w : Prop := defined (m w).1 = true ∧ sound (m w).2.

Lemma answers_snoc l (x : address * event A) : answers (l ++ [x]) = answers l ++ match answer_of x with Some y => [y] | None => [] end.
Proof. unfold answers. rewrite omap_app. simpl. by destruct (answer_of x). Qed.
Lemma safe_send w to_ e : sound w → answer_of (to_, e) = None → safe (send_event to_ e) w.
Proof. intros Hw He. split; [done|]. unfold sound, send_event. simpl. by rewrite answers_snoc, He, app_nil_r. Qed.
(** a modification of what [sound] does not look at *)
Lemma safe_modify (f : worker → worker) w :
  (drts.heap (f w), pending (f w), thread (f w), masters (f w), jobs (f w), tasks (f w), control (f w), network (f w)) =
    (drts.heap w, pending w, thread w, masters w, jobs w, tasks w, control w, network w) →
  sound w → safe (modify f) w.
Proof. intros [= H1 H2 H3 H4 H5 H6 H7 H8] Hw. split; [done|]. unfold sound. simpl. by rewrite H1, H2, H3, H4, H5, H6, H7, H8. Qed.
Lemma safe_bind_ret {X} (m : D X) (k : X → D unit) w x w' : m w = (Ret x, w') → safe (k x) w' → safe (m ≫= k) w.
Proof. unfold safe, mbind, M_bind. by intros ->. Qed.
Lemma safe_get (k : worker → D unit) w : safe (k w) w → safe (get ≫= k) w.
Proof. done. Qed.
Lemma safe_modified (f : worker → worker) (k : unit → D unit) w : safe (k tt) (f w) → safe (modify f ≫= k) w.
Proof. done. Qed.
Lemma safe_then (m : D unit) (k : D unit) w : safe m w → (∀ w', sound w' → safe k w') → safe (m ≫= λ _, k) w.
Proof. unfold safe, mbind, M_bind. destruct (m w) as [[[]|e] w']; simpl; [|done]. intros [_ Hw] Hk. by apply Hk. Qed.

Lemma the_job_ret w r j : drts.heap w !! r = Some j → the_job r w = (Ret j, w).
Proof. unfold the_job, mbind, M_bind. simpl. by intros ->. Qed.
Lemma owner_of_ret w j r : sound w → drts.heap w !! r = Some j → ∃ m, masters w !! owner j = Some m ∧ owner_of j w = (Ret m, w).
Proof.
  intros Hw Hj. destruct (c_owner _ _ _ _ _ _ _ _ Hw r j Hj) as [m Hm]. exists m. split; [done|].
  unfold owner_of, mbind, M_bind. simpl. by rewrite Hm.
Qed.
Lemma master_of_some w source i : master_of source w = Some i → masters w !! i = Some source.
Proof.
  unfold master_of. intros ([i' m] & (? & -> & _)%list_find_Some & ->)%fmap_Some. unfold lookup, masters_lookup. simpl.
  by rewrite decide_True.
Qed.

Definition room w : Prop := drts.heap w = [] ∨ length (addresses (masters w)) < capacity (masters w).
Lemma safe_register capabilities m w : sound w → room w → safe (register hostname m_my_name shared_memory_size grow capabilities m) w.
Proof.
  intros Hw Hr. unfold register. apply safe_modified, safe_modified, safe_send; [|done].
  by apply (consistent_master _ _ _ _ _ _ _ _ Hw).
Qed.
Lemma safe_registered w : sound w → safe registered w.
Proof.
  intros Hw. unfold registered. apply safe_get.
  destruct (existsb _ _); [done|]. destruct (existsb _ _); [done|]. by apply safe_modify.
Qed.
Lemma safe_satisfy source e w : sound w → safe (satisfy source e) w.
Proof.
  intros Hw. unfold satisfy. apply safe_get.
  destruct (registration_responses w !! source) as [[?|]|]; [done| |done]. by apply safe_modify.
Qed.
Lemma safe_trying (m : D unit) (k : exn → D unit) w : safe m w → (∀ e w', sound w' → safe (k e) w') → safe (trying m k) w.
Proof.
  unfold safe, trying. destruct (m w) as [[?|e] w']; simpl; [done|]. intros [Hd Hw] Hk. destruct (catchable e); [by apply Hk|done].
Qed.
Lemma safe_registration_response source e w : sound w → safe (handle_worker_registration_response source e) w.
Proof.
  intros Hw. unfold handle_worker_registration_response. apply safe_get.
  destruct (master_of source w); [|done]. destruct e; [by apply safe_satisfy|].
  apply safe_trying; [by apply safe_satisfy|]. intros. by apply safe_satisfy.
Qed.
Lemma worker_safe_submit source job_id a impl ws w : sound w → safe (handleSubmitJobEvent no_activity backlog_length source job_id a impl ws) w.
Proof.
  intros Hw. unfold handleSubmitJobEvent. apply safe_get.
  destruct (master_of source w) as [i|] eqn:Hi; [|done]. apply master_of_some in Hi. destruct job_id as [id|]; [|done].
  destruct (shutting_down w); [by apply safe_send|]. case_decide; [by apply safe_send|]. case_decide.
  - split; [done|]. unfold sound. simpl. apply (consistent_submit _ _ _ _ _ _ _ _ Hw); [done|]. simpl. eauto.
  - split; [done|]. unfold sound. simpl. apply (consistent_frame _ _ _ _ _ _ _ _ Hw); [apply Hw|done|apply Hw|]. by intros r [|].
Qed.
Lemma safe_proceed w : sound w → safe proceed w.
Proof.
  intros Hw. unfold proceed. apply safe_get.
  pose proof (c_control _ _ _ _ _ _ _ _ Hw) as Hctl. destruct (control w) as [|r|r|source id|source] eqn:Hcon.
  - done.
  - destruct (Hctl r) as [j Hj]; [by left|]. apply (safe_bind_ret _ _ _ j w); [by apply the_job_ret|].
    destruct (owner_of_ret w j r Hw Hj) as (m & _ & Hm). apply (safe_bind_ret _ _ _ _ _ Hm).
    apply safe_modified. split; [done|]. unfold sound. simpl. rewrite answers_snoc. simpl. rewrite app_nil_r.
    apply (consistent_frame _ _ _ _ _ _ _ _ Hw); [apply Hw|done|apply Hw|]. intros r' [[=]|[= <-]]. eauto.
  - destruct (Hctl r) as [j Hj]; [by right|]. apply (safe_bind_ret _ _ _ j w); [by apply the_job_ret|].
    split; [done|]. unfold sound. simpl. apply (consistent_frame _ _ _ _ _ _ _ _ Hw); [|done|apply Hw|by intros r' [|]].
    intros id r'. unfold emplace. destruct (jobs w !! drts.id j) eqn:He; simpl; [apply Hw|].
    rewrite lookup_insert_Some. intros [[<- <-]|[_ ?]]; [eauto|by eapply (c_jobs _ _ _ _ _ _ _ _ Hw)].
  - apply safe_modified. split; [done|]. unfold sound. simpl. rewrite answers_snoc. simpl. rewrite app_nil_r.
    apply (consistent_frame _ _ _ _ _ _ _ _ Hw); [apply Hw|done|apply Hw|by intros r' [|]].
  - split; [done|]. unfold sound. simpl. apply (consistent_frame _ _ _ _ _ _ _ _ Hw); [apply Hw|done|apply Hw|by intros r' [|]].
Qed.

Lemma safe_owned source id what (k : nat * job → D unit) w :
  sound w →
  (∀ r j, jobs w !! id = Some r → drts.heap w !! r = Some j → drts.id j = id → masters w !! owner j = Some source → safe (k (r, j)) w) →
  safe (owned_job source id what ≫= k) w.
Proof.
  intros Hw Hk. unfold safe, owned_job, mbind, M_bind. simpl. destruct (jobs w !! id) as [r|] eqn:Hr; [|done].
  destruct (c_jobs _ _ _ _ _ _ _ _ Hw id r Hr) as (j & Hj & Hid). unfold the_job, owner_of, mbind, M_bind. simpl. rewrite Hj. simpl.
  destruct (owner_of_ret w j r Hw Hj) as (m & Hm & _). rewrite Hm. simpl. case_decide as Hs; [subst m; by apply Hk|done].
Qed.
Lemma safe_forget id w : sound w → safe (modify (set_jobs (delete id))) w.
Proof.
  intros Hw. split; [done|]. unfold sound. simpl. apply (consistent_frame _ _ _ _ _ _ _ _ Hw); [|done|apply Hw|apply Hw].
  intros id' r [_ ?]%lookup_delete_Some. by apply (c_jobs _ _ _ _ _ _ _ _ Hw).
Qed.
Lemma tasks_alter (g : task A → task A) id (ts : gmap job_id_t (task A)) :
  map_Forall (λ _ x, t_state x ≠ wfe_task.CANCELED_DUE_TO_WORKER_SHUTDOWN) ts →
  (∀ x, t_state x ≠ wfe_task.CANCELED_DUE_TO_WORKER_SHUTDOWN → t_state (g x) ≠ wfe_task.CANCELED_DUE_TO_WORKER_SHUTDOWN) →
  map_Forall (λ _ x, t_state x ≠ wfe_task.CANCELED_DUE_TO_WORKER_SHUTDOWN) (alter g id ts) ∧
  ∀ id', is_Some (ts !! id') → is_Some (alter g id ts !! id').
Proof.
  intros Hts Hg. split.
  - intros id' x [(-> & y & Hy & ->)|[_ Hx]]%lookup_alter_Some; [by apply Hg, (Hts id')|by apply (Hts id')].
  - intros id' Hid. by rewrite lookup_alter_is_Some.
Qed.
Lemma worker_safe_cancel source id w : sound w → safe (handleCancelJobEvent source id) w.
Proof.
  intros Hw. unfold handleCancelJobEvent. apply safe_owned; [done|]. intros r j Hr Hj Hid Hm.
  destruct (state j) eqn:Hs; try done.
  - split; [unfold set_job, owner_of, mbind, M_bind; simpl; by rewrite Hm|].
    unfold sound, set_job, owner_of, mbind, M_bind. simpl. rewrite Hm. simpl. rewrite answers_snoc. simpl.
    by apply (consistent_cancel _ _ _ _ _ _ _ _ _ _ _ Hw).
  - destruct (tasks_alter (cancel_task wfe_task.CANCELED) id (tasks w)) as [H1 H2]; [apply Hw|done|].
    split; [done|]. unfold sound. simpl. by apply (consistent_frame _ _ _ _ _ _ _ _ Hw); [apply Hw| | |apply Hw].
Qed.
Lemma worker_safe_handle source e w : sound w → safe (handle no_activity backlog_length source e) w.
Proof.
  intros Hw. destruct e; try done; simpl.
  - by apply worker_safe_submit.
  - by apply worker_safe_cancel.
  - apply safe_owned; [done|]. intros. by apply safe_forget.
  - apply safe_owned; [done|]. intros. by apply safe_forget.
  - unfold handleDiscoverJobStatesEvent. apply safe_get. by apply safe_send.
  - by apply safe_registration_response.
Qed.
Lemma safe_handle_next w : sound w → safe (handle_next no_activity print backlog_length) w.
Proof.
  intros Hw. unfold handle_next. apply safe_get. destruct (control w); try done. destruct (event_queue w) as [|[source e] rest]; [done|].
  apply safe_modified, safe_trying; [by apply worker_safe_handle|]. intros x w' Hw'. by apply safe_send.
Qed.

(** *** The execution thread *)
Lemma notify_sound w (l : list address) :
  sound w → let '(o, w') := for_each (λ m, send_event m BacklogNoLongerFullEvent) l w in
  o = Ret tt ∧ sound w' ∧ thread w' = thread w.
Proof.
  revert w. induction l as [|m l IH]; intros w Hw; simpl; [done|]. unfold mbind, M_bind. simpl.
  destruct (safe_send w m BacklogNoLongerFullEvent Hw eq_refl) as [_ Hw']. simpl in Hw'.
  specialize (IH _ Hw'). by destruct (for_each _ l _) as [o w''].
Qed.
Lemma safe_executing o w r :
  sound w → thread w = Executing r → safe (job_execution_thread no_activity backlog_length o) w.
Proof.
  intros Hw Ht. pose proof (c_thread _ _ _ _ _ _ _ _ Hw) as Hph. rewrite Ht in Hph. unfold job_execution_thread. apply safe_get. rewrite Ht. simpl in Hph.
  destruct Hph as (j & Hj & Hs & Hts). apply (safe_bind_ret _ _ _ j w); [by apply the_job_ret|].
  assert (drts.heap w = alter (λ j, j) r (drts.heap w)) as Hid by (symmetry; by apply list_alter_id).
  assert (∀ (g : task A → task A) (f : job → job) b, same_job f → state (f j) = RUNNING →
    (∀ x, t_state x ≠ wfe_task.CANCELED_DUE_TO_WORKER_SHUTDOWN → t_state (g x) ≠ wfe_task.CANCELED_DUE_TO_WORKER_SHUTDOWN) →
    consistent (alter f r (drts.heap w)) (pending w) (Executed r b) (masters w) (jobs w) (alter g (drts.id j) (tasks w))
      (control w) (answers (network w))) as Hgo.
  { intros g f b Hf Hsf Hg. destruct (tasks_alter g (drts.id j) (tasks w)) as [H1 H2]; [apply Hw|done|].
    apply (consistent_running _ _ _ _ (tasks w) _ _ r j _ (Executing r)); [by rewrite <- Ht|done..|left; auto|done]. }
  destruct o; (split; [done|]); unfold sound; simpl; [rewrite Hid|rewrite Hid|]; by apply Hgo.
Qed.
Lemma safe_executed o w r b :
  sound w → thread w = Executed r b → safe (job_execution_thread no_activity backlog_length o) w.
Proof.
  intros Hw Ht. pose proof (c_thread _ _ _ _ _ _ _ _ Hw) as Hph. rewrite Ht in Hph. unfold job_execution_thread. apply safe_get. rewrite Ht. simpl in Hph.
  destruct Hph as (j & Hj & Hs & [t Hts]). apply (safe_bind_ret _ _ _ j w); [by apply the_job_ret|].
  eapply safe_bind_ret; [by rewrite Hts|]. simpl.
  assert (∀ (f : job → job), same_job f → state (f j) = final_state (t_state t) →
    consistent (alter f r (drts.heap w)) (pending w) (Answering r b) (masters w) (jobs w) (delete (drts.id j) (tasks w))
      (control w) (answers (network w))) as Hgo.
  { intros f Hf Hsf. apply (consistent_end _ _ _ _ (tasks w) _ _ r b j); [by rewrite <- Ht|done|done| |].
    - rewrite Hsf. pose proof (c_tasks _ _ _ _ _ _ _ _ Hw _ _ Hts) as Hne. simpl in Hne. by destruct (t_state t).
    - by apply map_Forall_delete, Hw. }
  split; [by destruct (is_pending _)|]. unfold sound, mbind, M_bind. destruct (is_pending (t_state t)); simpl.
  + rewrite <- alter_twice. by apply (Hgo (set_state (final_state (t_state t)) ∘ set_result (t_activity t))).
  + by apply (Hgo (set_state (final_state (t_state t)))).
Qed.
Lemma safe_answering o w r b :
  sound w → thread w = Answering r b → safe (job_execution_thread no_activity backlog_length o) w.
Proof.
  intros Hw Ht. pose proof (c_thread _ _ _ _ _ _ _ _ Hw) as Hph. rewrite Ht in Hph. unfold job_execution_thread. apply safe_get. rewrite Ht. simpl in Hph.
  destruct Hph as (j & Hj & Hs). apply (safe_bind_ret _ _ _ j w); [by apply the_job_ret|].
  destruct (owner_of_ret w j r Hw Hj) as (m & Hm & Ho).
  assert (consistent (drts.heap w) (pending w) (if b then Aborted else Waiting) (masters w) (jobs w) (tasks w) (control w)
            (answers (network w) ++ [(m, drts.id j, state j)])) as Hgo.
  { apply (consistent_answer _ _ _ _ _ _ _ r); [by rewrite <- Ht|done|done]. }
  unfold safe, mbind, M_bind, sound.
  destruct (state j); try done; rewrite Ho; simpl; (split; [done|]); rewrite answers_snoc; exact Hgo.
Qed.
Lemma safe_step o w : sound w → safe (job_execution_thread no_activity backlog_length o) w.
Proof.
  intros Hw. destruct (thread w) as [|r b|r|r|r|r|r b|r b| |] eqn:Ht;
    [..|by apply (safe_executing o w r)|by apply (safe_executed o w r b)|by apply (safe_answering o w r b)| |].
  all: pose proof (c_thread _ _ _ _ _ _ _ _ Hw) as Hph; unfold job_execution_thread; apply safe_get; rewrite Ht in *; simpl in Hph.
  - destruct (interrupted w).
    { split; [done|]. unfold sound. simpl. apply consistent_ended. by rewrite <- Ht. }
    destruct (pending w) as [|r rest] eqn:Hp; [done|]. split; [done|]. unfold sound. simpl.
    apply (consistent_take _ (r :: rest)); [done|]. by rewrite <- Ht, <- Hp.
  - destruct b.
    + pose proof (notify_sound w (elements (notified w)) Hw) as Hn. unfold safe, mbind, M_bind.
      destruct (for_each _ _ w) as [o' w']. destruct Hn as (-> & Hw' & Ht'). simpl. split; [done|]. unfold sound. simpl.
      apply (consistent_notified _ _ _ _ _ _ _ r true). rewrite <- Ht, <- Ht'. exact Hw'.
    + split; [done|]. unfold sound. simpl. apply (consistent_notified _ _ _ _ _ _ _ r false). by rewrite <- Ht.
  - destruct Hph as (_ & j & Hj & _). apply (safe_bind_ret _ _ _ j w); [by apply the_job_ret|]. case_decide as Hs.
    + split; [done|]. unfold sound. simpl. apply (consistent_claim _ _ _ _ _ _ _ r j); [by rewrite <- Ht|done|done].
    + split; [done|]. unfold sound. simpl. apply (consistent_skip _ _ _ _ _ _ _ r j); [done|done|by rewrite <- Ht].
  - destruct (control w) eqn:Hcon; try done. destruct Hph as (j & Hj & Hs). apply (safe_bind_ret _ _ _ j w); [by apply the_job_ret|].
    split; [done|]. pose proof (safe_forget (drts.id j) w Hw) as [_ Hf]. unfold sound in *. simpl in *.
    apply (consistent_dropped _ _ _ _ _ _ _ r). by rewrite <- Ht.
  - destruct Hph as (j & Hj & Hs). apply safe_modified.
    assert (alter (set_result no_activity) r (drts.heap w) !! r = Some (set_result no_activity j)) as Hj'
      by (by rewrite list_lookup_alter_eq, Hj).
    eapply safe_bind_ret; [by apply (the_job_ret _ r)|]. split; [done|]. unfold sound. simpl.
    apply (consistent_running _ _ _ _ (tasks w) _ _ r j _ (Starting r)); [by rewrite <- Ht|done|done|done|done|done|done| |].
    + left. unfold emplace. destruct (tasks w !! drts.id j) eqn:Hid; simpl; [by rewrite Hid|by rewrite lookup_insert_eq].
    + unfold emplace. destruct (tasks w !! drts.id j); simpl; [apply Hw|]. apply map_Forall_insert_2; [done|apply Hw].
  - done.
  - done.
Qed.

(** ** Runs *)
Abbreviation perform := (perform no_activity print hostname m_my_name shared_memory_size backlog_length grow).
Abbreviation after := (after no_activity print hostname m_my_name shared_memory_size backlog_length grow).
(** everything but what the destructor does to the jobs *)
Definition alive (x : act A) : bool := match x with Mark_remaining => false | _ => true end.
(** a registration does not move the vector of masters when a job has been accepted *)
Definition undisturbed (x : act A) w : bool :=
  match x with
  | Register _ _ => match drts.heap w with [] => true | _ => bool_decide (length (addresses (masters w)) < capacity (masters w)) end
  | _ => true
  end.
Fixpoint orderly (xs : list (act A)) w : bool :=
  match xs with
  | [] => true
  | x :: xs => alive x && undisturbed x w && orderly xs (perform x w).2
  end.
Lemma worker_safe_perform x w : alive x = true → undisturbed x w = true → sound w → safe (perform x) w.
Proof.
  intros Hx Hu Hw. destruct x; simpl in *; try done.
  - apply safe_register; [done|]. unfold room. destruct (drts.heap w); [by left|]. right. by apply bool_decide_eq_true in Hu.
  - by apply safe_registered.
  - unfold receive. apply safe_get. by destruct (receiving w).
  - unfold connection_lost. apply safe_get. destruct (receiving w); [|done]. apply safe_modified.
    destruct (shutting_down w); [done|]. case_decide; [done|]. by apply safe_satisfy.
  - by apply safe_handle_next.
  - by apply safe_proceed.
  - by apply safe_step.
Qed.
Lemma worker_sound_after xs w : orderly xs w = true → sound w → sound (after xs w).
Proof.
  revert w. induction xs as [|x xs IH]; intros w; simpl; [done|]. intros [[Hx Hu]%andb_true_iff Hxs]%andb_true_iff Hw.
  apply IH; [done|]. by apply worker_safe_perform.
Qed.
Definition job_of (t : execution_thread) : option nat :=
  match t with
  | Taken r _ | Claiming r | Dropping r | Starting r | Executing r | Executed r _ | Answering r _ => Some r
  | _ => None
  end.

(** C13: A worker answers each job that it has accepted at most once, to the master that
    submitted it and according to the state that it has reached; a job without an answer is
    once in the backlog or is the one that the execution thread works on; and no step looks
    up a job, a task or a master that is not there.  This holds for every sequence of
    messages and every interleaving of the threads in which the destructor does not mark the
    remaining jobs, and in which no master is registered that makes the vector of masters move
    its elements after a job has been accepted ([orderly]); see [late_master_dangles] for what
    happens then. *)
Theorem worker_answers_once (xs : list (act A)) :
  orderly xs make = true →
  let w := after xs make in
  answers (network w) ≡ₚ answered (masters w) (thread w) (drts.heap w) ∧
  NoDup (pending w) ∧
  (∀ r j, drts.heap w !! r = Some j → terminal (state j) = true ∨ r ∈ pending w ∨ job_of (thread w) = Some r) ∧
  (∀ x, alive x = true → defined (perform x w).1 = true).
Proof.
  intros Hxs w. assert (sound w) as Hw by (apply worker_sound_after; [done|apply sound_make]).
  split_and!; [apply Hw|apply Hw| |intros x Hx; destruct (undisturbed x w) eqn:Hu; [by apply worker_safe_perform|by destruct x]].
  intros r j Hj. pose proof (c_located _ _ _ _ _ _ _ _ Hw r j Hj) as Hl.
  destruct (state j); simpl in *; auto; [destruct Hl as [?|Hl]; [auto|]|]; right; right;
    destruct (thread w); simpl in *; by subst.
Qed.

(** ** Progress *)
Definition untainted (t : execution_thread) : bool :=
  match t with Executed _ b | Answering _ b => negb b | Aborted | Ended => false | _ => true end.
Definition unloads (o : executed A) : bool := match o with Threw _ b => negb b | _ => true end.
Definition rank (t : execution_thread) : nat :=
  match t with
  | Taken _ _ => 7 | Claiming _ => 6 | Starting _ => 5 | Executing _ => 4 | Executed _ _ => 3 | Answering _ _ => 2
  | Dropping _ => 1 | _ => 0
  end.
Definition work w : nat := 8 * length (pending w) + rank (thread w).
Definition healthy w : Prop := control w = Ready ∧ interrupted w = false ∧ untainted (thread w) = true.
Lemma notify_rest w (l : list address) :
  let '(o, w') := for_each (λ m, send_event m BacklogNoLongerFullEvent) l w in
  o = Ret tt ∧ control w' = control w ∧ interrupted w' = interrupted w ∧ pending w' = pending w.
Proof.
  revert w. induction l as [|m l IH]; intros w; simpl; [done|]. unfold mbind, M_bind. simpl.
  specialize (IH (set_network (λ l, l ++ [(m, BacklogNoLongerFullEvent)]) w)). by destruct (for_each _ l _) as [o w'].
Qed.
Definition leads (m : D unit) (P : worker → Prop) w : Prop := P (m w).2.
Lemma leads_get (k : worker → D unit) P w : leads (k w) P w → leads (get ≫= k) P w.
Proof. done. Qed.
Lemma leads_modified (f : worker → worker) (k : unit → D unit) P w : leads (k tt) P (f w) → leads (modify f ≫= k) P w.
Proof. done. Qed.
Lemma leads_ret {X} (m : D X) (k : X → D unit) P w x w' : m w = (Ret x, w') → leads (k x) P w' → leads (m ≫= k) P w.
Proof. unfold leads, mbind, M_bind. by intros ->. Qed.
Lemma step_progress o w :
  sound w → healthy w → unloads o = true →
  leads (job_execution_thread no_activity backlog_length o) (λ w', healthy w' ∧ (work w' < work w ∨ work w = 0 ∧ w' = w)) w.
Proof.
  intros Hw (Hcon & Hint & Ht) Ho. pose proof (c_thread _ _ _ _ _ _ _ _ Hw) as Hph. unfold job_execution_thread.
  apply leads_get. unfold healthy, work at 2 3.
  destruct (thread w) as [|r b|r|r|r|r|r b|r b| |] eqn:Hth; simpl in Hph, Ht; try done.
  - rewrite Hint. destruct (pending w) as [|r rest] eqn:Hp; split; [by simpl; rewrite Hth|by right|done|left; unfold work; simpl; lia].
  - destruct b; [|by split; [|left; unfold work; simpl; lia]].
    pose proof (notify_rest w (elements (notified w))) as Hn. unfold leads, mbind, M_bind. destruct (for_each _ _ w) as [o' w1].
    destruct Hn as (-> & ? & ? & Hp). unfold work. simpl. rewrite Hp. split; [split_and!; congruence|left; lia].
  - destruct Hph as (_ & j & Hj & _). apply (leads_ret _ _ _ _ _ _ (the_job_ret w r j Hj)).
    case_decide; (split; [done|left; unfold work; simpl; lia]).
  - rewrite Hcon. destruct Hph as (j & Hj & _). apply (leads_ret _ _ _ _ _ _ (the_job_ret w r j Hj)).
    split; [done|left; unfold work; simpl; lia].
  - destruct Hph as (j & Hj & _). apply leads_modified. eapply leads_ret; [apply (the_job_ret _ r); simpl; by rewrite list_lookup_alter_eq, Hj|].
    split; [done|left; unfold work; simpl; lia].
  - destruct Hph as (j & Hj & _). apply (leads_ret _ _ _ _ _ _ (the_job_ret w r j Hj)).
    destruct o; (split; [done|left; unfold work; simpl; lia]).
  - destruct Hph as (j & Hj & _ & [t Hts]). apply (leads_ret _ _ _ _ _ _ (the_job_ret w r j Hj)). rewrite Hts.
    eapply leads_ret; [done|]. apply leads_modified. destruct (is_pending (t_state t)); (split; [done|left; unfold work; simpl; lia]).
  - destruct Hph as (j & Hj & Hs). apply negb_true_iff in Ht as ->. apply (leads_ret _ _ _ _ _ _ (the_job_ret w r j Hj)).
    destruct (owner_of_ret w j r Hw Hj) as (m & Hm & Hown). unfold leads, mbind, M_bind.
    destruct (state j); try done; rewrite Hown; (split; [done|left; unfold work; simpl; lia]).
Qed.
Lemma steps_drain os w :
  sound w → healthy w → forallb unloads os = true → work w ≤ length os →
  let w' := after (Step <$> os) w in sound w' ∧ pending w' = [] ∧ thread w' = Waiting.
Proof.
  revert w. induction os as [|o os IH]; intros w Hw Hh Hos Hlen; simpl in *.
  - split; [done|]. destruct Hh as (_ & _ & Ht). unfold work in Hlen.
    destruct (pending w); simpl in Hlen; [|lia]. split; [done|]. destruct (thread w); simpl in *; done || lia.
  - apply andb_true_iff in Hos as [Ho Hos]. destruct (step_progress o w Hw Hh Ho) as [Hh' Hwork].
    apply IH; [by apply safe_step|done|done|]. unfold perform. destruct Hwork as [?|[? ->]]; lia.
Qed.
Lemma omap_lookup_seq {Y} (g : job → option Y) (h : list job) : omap (λ r, h !! r ≫= g) (seq 0 (length h)) = omap g h.
Proof.
  induction h as [|j h IH] using rev_ind; [done|]. rewrite length_app, omap_app. simpl. rewrite Nat.add_1_r, seq_S, omap_app. simpl.
  rewrite lookup_app_r, Nat.sub_diag by lia. simpl. rewrite <- IH. f_equal.
  apply list_omap_ext, Forall_Forall2_diag, Forall_forall. intros r Hr%elem_of_seq. by rewrite lookup_app_l by lia.
Qed.

(** C14: The execution thread answers every accepted job: left alone long enough (eight steps
    for each job in the backlog and seven for the one it works on), it empties the backlog,
    and exactly the jobs that the worker has accepted have been answered, each once.  This
    is so after every run as in [worker_answers_once] that ends with a [healthy] worker: its
    event thread is not in the middle of an event, its execution thread has not been
    interrupted and has not ended or aborted and is not about to abort; and when the executions
    leave no library loaded behind ([unloads]), after which the worker aborts. *)
Theorem worker_answers_all (xs : list (act A)) (os : list (executed A)) :
  orderly xs make = true → healthy (after xs make) → forallb unloads os = true →
  8 * length (pending (after xs make)) + 7 ≤ length os →
  let w := after (Step <$> os) (after xs make) in
  pending w = [] ∧ thread w = Waiting ∧
  Forall (λ j, terminal (state j) = true) (drts.heap w) ∧
  answers (network w) ≡ₚ omap (λ j, (λ m, (m, drts.id j, state j)) <$> masters w !! owner j) (drts.heap w).
Proof.
  intros Hxs Hh Hos Hlen w. assert (sound (after xs make)) as Hs by (apply worker_sound_after; [done|apply sound_make]).
  destruct (steps_drain os _ Hs Hh Hos) as (Hw & Hp & Ht).
  { unfold work. destruct (thread (after xs make)); simpl; lia. }
  fold w in Hw, Hp, Ht. split; [done|]. split; [done|].
  assert (∀ r j, drts.heap w !! r = Some j → terminal (state j) = true) as Hterm.
  { intros r j Hj. pose proof (c_located _ _ _ _ _ _ _ _ Hw r j Hj) as Hl. rewrite Hp, Ht in Hl.
    destruct (state j); simpl in Hl; try done. by destruct Hl as [?%elem_of_nil|]. }
  split; [by apply Forall_lookup_2|]. rewrite (c_answers _ _ _ _ _ _ _ _ Hw), Ht. apply reflexive_eq. unfold answered.
  rewrite <- omap_lookup_seq. apply list_omap_ext, Forall_Forall2_diag, Forall_forall. intros r _. unfold answer_to.
  destruct (drts.heap w !! r) as [j|] eqn:Hj; [|done]. simpl. by rewrite (Hterm r j Hj).
Qed.
End spec.
End WorkerSpec.
