(* ===== verification/DrtsWorkerFaults.v ===== *)
(** * Workers that go wrong

    How a worker accepts a job that it never executes, and a run in which a master is never
    told that the backlog has space again. *)

From Stdlib Require Import SpecFloat.
From S2P Require Import Prelude Value Token Function ReadShow Expr Parser Net NetFire SdpaJob SdpaWorker SdpaManager SdpaScheduler SdpaFrame SdpaInvariant SdpaAssign SdpaRound Layer NetActivity LayerRuns SdpaAgent SdpaActivity SdpaAgentSpec SdpaAgentEvents SdpaAgentRuns SdpaAgentExample DrtsWorker DrtsWorkerSpec.

Import Agent AgentSpec drts WorkerSpec.

Module WorkerFaults.
Section faults.
Context {A : Type} (no_activity : A).
Context (print : exn → string) (hostname m_my_name : string) (shared_memory_size : Z) (backlog_length : nat) (grow : nat → nat).

Abbreviation worker := (drts.worker A).
Abbreviation job := (drts.job A).
Abbreviation D := (M worker exn).
Abbreviation perform := (perform no_activity print hostname m_my_name shared_memory_size backlog_length grow).
Abbreviation after := (after no_activity print hostname m_my_name shared_memory_size backlog_length grow).
Abbreviation orderly := (orderly no_activity print hostname m_my_name shared_memory_size backlog_length grow).
Implicit Types (w : worker) (j : job) (r : nat).

Lemma leads_trying (m : D unit) (k : exn → D unit) (P : worker → Prop) w :
  leads m P w → (∀ e w', P w' → leads (k e) P w') → leads (trying m k) P w.
Proof. unfold leads, trying. destruct (m w) as [[?|e] w']; simpl; [done|]. intros Hp Hk. destruct (catchable e); auto. Qed.
Lemma leads_owned source id what (k : nat * job → D unit) (P : worker → Prop) w :
  sound w → P w → (∀ r j, jobs w !! id = Some r → drts.heap w !! r = Some j → leads (k (r, j)) P w) →
  leads (owned_job source id what ≫= k) P w.
Proof.
  intros Hw HP Hk. unfold leads, owned_job, mbind, M_bind. simpl. destruct (jobs w !! id) as [r|] eqn:Hr; [|done].
  destruct (c_jobs _ _ _ _ _ _ _ _ Hw id r Hr) as (j & Hj & Hid). unfold the_job, owner_of, mbind, M_bind. simpl. rewrite Hj. simpl.
  destruct (owner_of_ret w j r Hw Hj) as (m & Hm & _). rewrite Hm. simpl. case_decide; [by apply Hk|done].
Qed.

(** ** A job in the map that nobody executes *)
Section gone.
Context (id : job_id_t) (r : nat).
(** the master does not acknowledge an answer of the job *)
Definition no_ack (e : event A) : bool :=
  match e with JobFinishedAckEvent x | JobFailedAckEvent x => bool_decide (x ≠ id) | _ => true end.
Record gone w : Prop := mk_gone {
  g_stored : jobs w !! id = Some r;
  g_pending : r ∉ pending w;
  g_thread : job_of (thread w) ≠ Some r;
  g_canceled : ∃ j, drts.heap w !! r = Some j ∧ drts.id j = id ∧ state j = CANCELED;
  g_unique r' j' : drts.heap w !! r' = Some j' → drts.id j' = id → r' = r;
  g_quiet : Forall (λ x, no_ack x.2 = true) (event_queue w)
}.

Lemma gone_same (f : worker → worker) w :
  (jobs (f w), pending (f w), thread (f w), drts.heap (f w), event_queue (f w)) =
    (jobs w, pending w, thread w, drts.heap w, event_queue w) → gone w → gone (f w).
Proof. intros [= H1 H2 H3 H4 H5] [G1 G2 G3 G4 G5 G6]. split; congruence || by rewrite ?H2, ?H3, ?H4, ?H5. Qed.
Lemma gone_alter (f : job → job) r0 w (g : worker → worker) :
  gone w → same_job f → r0 ≠ r → jobs (g w) !! id = Some r → pending (g w) = pending w → job_of (thread (g w)) ≠ Some r →
  drts.heap (g w) = alter f r0 (drts.heap w) → event_queue (g w) = event_queue w → gone (g w).
Proof.
  intros [G1 G2 G3 (j & Hj & Hid & Hs) G5 G6] Hf Hne Hjs Hp Ht Hh Hq. split; [done|by rewrite Hp|done|..|by rewrite Hq]; rewrite Hh.
  - exists j. by rewrite list_lookup_alter_ne.
  - intros r' j' [[_ Hj']|[-> (j1 & Hj1 & ->)]]%lookup_alter_cases Hid'; [by eapply G5|].
    destruct (Hf j1) as [Hf1 _]. rewrite Hf1 in Hid'. by eapply G5.
Qed.
Lemma gone_send to_ e w : gone w → leads (send_event to_ e) gone w.
Proof. by apply (gone_same (set_network _)). Qed.
Lemma gone_submit source job_id a impl ws w :
  gone w → leads (handleSubmitJobEvent no_activity backlog_length source job_id a impl ws) gone w.
Proof.
  intros Hg. unfold handleSubmitJobEvent. apply leads_get. destruct (master_of source w) as [i|]; [|done].
  destruct job_id as [x|]; [|done]. destruct (shutting_down w); [by apply gone_send|].
  case_decide as Hx; [by apply gone_send|]. case_decide; [|by apply (gone_same (set_control _))].
  destruct Hg as [G1 G2 G3 (j & Hj & Hid & Hs) G5 G6]. assert (x ≠ id) by (intros ->; eauto).
  pose proof (lookup_lt_Some _ _ _ Hj) as Hr. split; simpl; [done| |done|exists j; by rewrite lookup_app_l| |done].
  - intros [?|Hin%list_elem_of_singleton]%elem_of_app; [done|lia].
  - intros r' j' [?|[? Hl]]%lookup_app_Some Hid'; [by eapply G5|]. by apply list_lookup_singleton_Some in Hl as [_ <-].
Qed.
Lemma gone_cancel source x w : sound w → gone w → leads (handleCancelJobEvent source x) gone w.
Proof.
  intros Hw Hg. unfold handleCancelJobEvent. apply leads_owned; [done|done|]. intros r0 j0 Hr0 Hj0.
  destruct (state j0) eqn:Hs; try done; [|by apply (gone_same (set_tasks _))].
  assert (r0 ≠ r) as Hne. { destruct Hg as [_ _ _ (j & Hj & _ & Hs') _ _]. intros ->. congruence. }
  unfold leads, set_job, owner_of, mbind, M_bind. simpl.
  destruct (owner_of_ret w j0 r0 Hw Hj0) as (m & -> & _). simpl.
  by apply (gone_alter (set_state CANCELED) r0 w (λ w, set_network _ (set_heap _ w))); [|done|done|apply Hg|done|apply Hg| |].
Qed.
Lemma gone_forget x w : x ≠ id → gone w → leads (modify (set_jobs (delete x))) gone w.
Proof. intros Hx [G1 G2 G3 G4 G5 G6]. split; simpl; try done. by rewrite lookup_delete_ne. Qed.
Lemma gone_satisfy source x w : gone w → leads (satisfy source x) gone w.
Proof.
  intros Hw. unfold satisfy. apply leads_get. destruct (registration_responses w !! source) as [[?|]|]; [done| |done].
  by apply (gone_same (set_registration_responses _)).
Qed.
Lemma gone_lost source w : gone w → leads (connection_lost source) gone w.
Proof.
  intros Hw. unfold connection_lost. apply leads_get. destruct (receiving w); [|done]. apply leads_modified.
  assert (gone (set_receiving false w)) as Hr by (by apply (gone_same (set_receiving _))).
  destruct (shutting_down w); [done|]. case_decide; [by apply (gone_same (set_stop_requested _))|by apply gone_satisfy].
Qed.
Lemma gone_handle source e w : no_ack e = true → sound w → gone w → leads (handle no_activity backlog_length source e) gone w.
Proof.
  intros He Hw Hg. destruct e; try done; simpl in *.
  - by apply gone_submit.
  - by apply gone_cancel.
  - apply leads_owned; [done|done|]. intros. apply gone_forget; [by apply bool_decide_eq_true in He|done].
  - apply leads_owned; [done|done|]. intros. apply gone_forget; [by apply bool_decide_eq_true in He|done].
  - unfold handleDiscoverJobStatesEvent. apply leads_get. by apply gone_send.
  - unfold handle_worker_registration_response. apply leads_get. destruct (master_of source w); [|done].
    destruct error; [by apply gone_satisfy|]. apply leads_trying; auto using gone_satisfy.
Qed.
Lemma gone_handle_next w : sound w → gone w → leads (handle_next no_activity print backlog_length) gone w.
Proof.
  intros Hw Hg. unfold handle_next. apply leads_get. destruct (control w); try done.
  destruct (event_queue w) as [|[source e] rest] eqn:Hev; [done|].
  destruct Hg as [G1 G2 G3 G4 G5 G6]. rewrite Hev in G6. apply Forall_cons in G6 as [He Hrest].
  apply leads_modified, leads_trying; [apply gone_handle; [done|exact Hw|by split]|]. intros x w' Hg'. by apply gone_send.
Qed.
Lemma gone_proceed w : sound w → gone w → leads proceed gone w.
Proof.
  intros Hw Hg. unfold proceed. apply leads_get. pose proof (c_control _ _ _ _ _ _ _ _ Hw) as Hctl.
  destruct (control w) as [|r0|r0|source x|source] eqn:Hcon; [done| | |by apply (gone_same (λ w, set_control _ (set_network _ w)))|
    by apply (gone_same (λ w, set_control _ (set_notified _ w)))].
  - destruct (Hctl r0) as [j Hj]; [by left|]. apply (leads_ret _ _ _ _ _ _ (the_job_ret w r0 j Hj)).
    destruct (owner_of_ret w j r0 Hw Hj) as (m & _ & Hm). apply (leads_ret _ _ _ _ _ _ Hm).
    by apply (gone_same (λ w, set_control _ (set_network _ w))).
  - destruct (Hctl r0) as [j Hj]; [by right|]. apply (leads_ret _ _ _ _ _ _ (the_job_ret w r0 j Hj)).
    destruct Hg as [G1 G2 G3 G4 G5 G6]. split; simpl; try done. unfold emplace.
    destruct (jobs w !! drts.id j) eqn:He; simpl; [done|]. rewrite lookup_insert_ne; [done|]. intros Heq. congruence.
Qed.
Lemma gone_notify (l : list address) w :
  gone w → let '(o, w') := for_each (λ m, send_event m BacklogNoLongerFullEvent) l w in o = Ret tt ∧ gone w'.
Proof.
  revert w. induction l as [|m l IH]; intros w Hg; simpl; [done|]. unfold mbind, M_bind. simpl.
  apply IH. by apply (gone_same (set_network _)).
Qed.
Lemma gone_step o w : sound w → gone w → leads (job_execution_thread no_activity backlog_length o) gone w.
Proof.
  intros Hw Hg. pose proof (c_thread _ _ _ _ _ _ _ _ Hw) as Hph. pose proof Hg as [G1 G2 G3 G4 G5 G6]. unfold job_execution_thread.
  apply leads_get. destruct (thread w) as [|r0 b|r0|r0|r0|r0|r0 b|r0 b| |] eqn:Hth; simpl in Hph, G3; try done.
  - destruct (interrupted w); [by split|]. destruct (pending w) as [|r0 rest] eqn:Hp; [done|].
    split; simpl; try done; [intros Hin|intros [= ->]]; apply G2; set_solver.
  - destruct b; [|by split]. pose proof (gone_notify (elements (notified w)) w Hg) as Hn. unfold leads, mbind, M_bind.
    destruct (for_each _ _ w) as [o' w']. destruct Hn as (-> & [N1 N2 N3 N4 N5 N6]). by split.
  - destruct Hph as (_ & j & Hj & _). apply (leads_ret _ _ _ _ _ _ (the_job_ret w r0 j Hj)). case_decide; [|by split].
    apply (gone_alter (set_state RUNNING) r0 w (λ w, set_thread _ (set_heap _ w)));
      [done|done|congruence|exact G1|done|exact G3|done|done].
  - destruct (control w); try done. destruct Hph as (j & Hj & _). apply (leads_ret _ _ _ _ _ _ (the_job_ret w r0 j Hj)).
    split; simpl; try done. rewrite lookup_delete_ne; [done|]. intros Hid. apply G3. f_equal. by eapply G5.
  - destruct Hph as (j & Hj & _). apply leads_modified.
    eapply leads_ret; [apply (the_job_ret _ r0); simpl; by rewrite list_lookup_alter_eq, Hj|].
    apply (gone_alter (set_result no_activity) r0 w (λ w, set_thread _ (set_tasks _ (set_heap _ w))));
      [done|done|congruence|exact G1|done|exact G3|done|done].
  - destruct Hph as (j & Hj & _). apply (leads_ret _ _ _ _ _ _ (the_job_ret w r0 j Hj)). destruct o as [a| |what b]; [by split..|].
    apply (gone_alter (set_message what) r0 w (λ w, set_thread _ (set_heap _ (set_tasks _ w))));
      [done|done|congruence|exact G1|done|exact G3|done|done].
  - destruct Hph as (j & Hj & _ & [t Hts]). apply (leads_ret _ _ _ _ _ _ (the_job_ret w r0 j Hj)). rewrite Hts.
    eapply leads_ret; [done|]. apply leads_modified. destruct (is_pending (t_state t)).
    + apply (gone_alter (set_state (final_state (t_state t)) ∘ set_result (t_activity t)) r0 w
        (λ w, set_thread _ (set_heap _ (set_heap _ (set_tasks _ w)))));
      [done|done|congruence|exact G1|done|exact G3|simpl; by rewrite <- alter_twice|done].
    + apply (gone_alter (set_state (final_state (t_state t))) r0 w (λ w, set_thread _ (set_heap _ (set_tasks _ w))));
      [done|done|congruence|exact G1|done|exact G3|done|done].
  - destruct Hph as (j & Hj & Hs). apply (leads_ret _ _ _ _ _ _ (the_job_ret w r0 j Hj)).
    destruct (owner_of_ret w j r0 Hw Hj) as (m & Hm & Hown). unfold leads, mbind, M_bind.
    destruct (state j); try done; rewrite Hown; split; simpl; try done; by destruct b.
Qed.

(** messages without such an acknowledgement *)
Definition no_ack_received (x : act A) : bool := match x with Receive _ e => no_ack e | _ => true end.
Lemma gone_perform x w : alive x = true → no_ack_received x = true → sound w → gone w → leads (perform x) gone w.
Proof.
  intros Hx Hr Hw Hg. destruct x; simpl in *; try done.
  - by apply (gone_same (λ w, set_network _ (set_registration_responses _ (set_masters _ w)))).
  - unfold registered. apply leads_get. destruct (existsb _ _); [done|]. destruct (existsb _ _); [done|].
    by apply (gone_same (set_registration_responses _)).
  - unfold receive. apply leads_get. destruct (receiving w); [|done].
    destruct Hg as [G1 G2 G3 G4 G5 G6]. split; simpl; try done. apply Forall_app. auto.
  - by apply gone_lost.
  - by apply gone_handle_next.
  - by apply gone_proceed.
  - by apply gone_step.
  - by apply (gone_same (λ w, set_notified _ (set_shutting_down _ w))).
  - by apply (gone_same (set_interrupted _)).
Qed.
Lemma gone_after xs w :
  orderly xs w = true → forallb no_ack_received xs = true → sound w → gone w → sound (after xs w) ∧ gone (after xs w).
Proof.
  revert w. induction xs as [|x xs IH]; intros w; simpl; [done|].
  intros [[Hx Hu]%andb_true_iff Hxs]%andb_true_iff [Hr Hrs]%andb_true_iff Hw Hg.
  apply IH; [done|done|by apply worker_safe_perform|by apply gone_perform].
Qed.
Lemma filter_omap_one {Y} (P : Y → Prop) `{∀ y, Decision (P y)} (F : nat → option Y) (l : list nat) x a :
  NoDup l → x ∈ l → F x = Some a → P a → (∀ x' a', x' ≠ x → F x' = Some a' → ¬ P a') → filter P (omap F l) = [a].
Proof.
  clear grow. intros Hl Hx Hf HP Hne. assert (∀ l, x ∉ l → filter P (omap F l) = []) as Hnone.
  { clear l Hl Hx. induction l as [|y l IH]; intros Hy; [done|]. apply not_elem_of_cons in Hy as [Hxy Hy]. simpl.
    destruct (F y) as [b|] eqn:Hb; [|by apply IH]. rewrite filter_cons_False; [by apply IH|]. by eapply (Hne y). }
  induction l as [|y l IH]; [by apply elem_of_nil in Hx|]. apply NoDup_cons in Hl as [Hy Hl]. simpl.
  destruct (decide (y = x)) as [->|Hyx].
  - rewrite Hf, filter_cons_True by done. f_equal. by apply Hnone.
  - destruct (F y) as [b|] eqn:Hb; [rewrite filter_cons_False; [|by eapply (Hne y)]|]; apply IH; set_solver.
Qed.
Lemma gone_one_answer w :
  sound w → gone w → ∃ m, filter (λ x : answer, x.1.2 = id) (answers (network w)) = [(m, id, CANCELED)].
Proof.
  intros Hw [G1 G2 G3 (j & Hj & Hid & Hs) G5 _]. destruct (c_owner _ _ _ _ _ _ _ _ Hw r j Hj) as [m Hm]. exists m.
  apply Permutation_singleton_r. rewrite (c_answers _ _ _ _ _ _ _ _ Hw). apply reflexive_eq. unfold answered.
  apply (filter_omap_one _ _ _ r).
  - apply NoDup_seq.
  - apply elem_of_seq. split; [lia|]. by eapply lookup_lt_Some.
  - unfold answer_to. rewrite Hj. simpl. rewrite Hs, Hm. simpl.
    assert (is_answering (thread w) r = false) as ->; [|by rewrite Hid].
    destruct (thread w); try done. simpl. apply bool_decide_eq_false. intros ->. done.
  - done.
  - intros r' a' Hne Ha Hid'. apply Hne. unfold answer_to in Ha. destruct (drts.heap w !! r') as [j'|] eqn:Hj'; [|done].
    simpl in Ha. destruct (_ && _); [|done]. apply fmap_Some in Ha as (? & _ & ->). simpl in Hid'. by eapply G5.
Qed.
End gone.

(** ** A worker that does not say that it has room again

    It says so only when the execution thread takes a job from a backlog that is full. *)
Definition no_submit (e : event A) : bool := match e with SubmitJobEvent _ _ _ _ => false | _ => true end.
Definition full (e : event A) : bool := match e with BacklogNoLongerFullEvent => false | _ => true end.
Definition no_submit_received (x : act A) : bool := match x with Receive _ e => no_submit e | _ => true end.
Record silent (l0 : list (address * event A)) w : Prop := mk_silent {
  s_pending : length (pending w) < backlog_length;
  s_thread r : thread w ≠ Taken r true;
  s_queue : Forall (λ x, no_submit x.2 = true) (event_queue w);
  s_network : ∃ l, network w = l0 ++ l ∧ Forall (λ x, full x.2 = true) l
}.
Section silent.
Context (l0 : list (address * event A)).
Lemma silent_same (f : worker → worker) w :
  (pending (f w), thread (f w), event_queue (f w), network (f w)) = (pending w, thread w, event_queue w, network w) →
  silent l0 w → silent l0 (f w).
Proof. intros [= H1 H2 H3 H4] [S1 S2 S3 S4]. split; rewrite ?H1, ?H2, ?H3, ?H4; done. Qed.
Lemma silent_thread t w : (∀ r, t ≠ Taken r true) → silent l0 w → silent l0 (set_thread t w).
Proof. intros Ht [S1 S2 S3 S4]. by split. Qed.
Lemma silent_send to_ e w : full e = true → silent l0 w → leads (send_event to_ e) (silent l0) w.
Proof.
  intros He [S1 S2 S3 (l & Hl & Hf)]. split; simpl; try done. exists (l ++ [(to_, e)]). rewrite Hl, app_assoc. split; [done|].
  apply Forall_app. auto.
Qed.
(** operations that only look something up *)
Definition looks {X} (m : D X) : Prop := ∀ w, (m w).2 = w.
Lemma leads_looks {X} (m : D X) (k : X → D unit) (P : worker → Prop) w :
  looks m → P w → (∀ x, leads (k x) P w) → leads (m ≫= k) P w.
Proof. intros Hm HP Hk. unfold leads, mbind, M_bind. specialize (Hm w). destruct (m w) as [[x|e] w']; simpl in *; subst; [apply Hk|done]. Qed.
Lemma leads_sent {X} (m : D X) (k : X → D unit) (P : worker → Prop) w :
  P (m w).2 → (∀ x w', P w' → leads (k x) P w') → leads (m ≫= k) P w.
Proof. unfold leads, mbind, M_bind. destruct (m w) as [[x|e] w']; simpl; auto. Qed.
Lemma looks_lift {X} (o : outcome exn X) : looks (lift o). Proof. by destruct o. Qed.
Lemma looks_job r : looks (the_job r). Proof. intros w. unfold the_job, mbind, M_bind. simpl. by destruct (drts.heap w !! r). Qed.
Lemma looks_owner j : looks (owner_of j). Proof. intros w. unfold owner_of, mbind, M_bind. simpl. by destruct (masters w !! owner j). Qed.
Lemma looks_owned source id what : looks (owned_job source id what).
Proof.
  intros w. unfold owned_job, the_job, owner_of, mbind, M_bind. simpl. destruct (jobs w !! id) as [r|]; [|done].
  simpl. destruct (drts.heap w !! r) as [j|]; [|done]. simpl. destruct (masters w !! owner j); [|done]. simpl. by case_decide.
Qed.
Lemma silent_answer j e w : full e = true → silent l0 w → leads (to_ ← owner_of j; send_event to_ e) (silent l0) w.
Proof. intros He Hs. apply leads_looks; [apply looks_owner|done|]. intros. by apply silent_send. Qed.
Lemma silent_satisfy source x w : silent l0 w → leads (satisfy source x) (silent l0) w.
Proof.
  intros Hw. unfold satisfy. apply leads_get. destruct (registration_responses w !! source) as [[?|]|]; [done| |done].
  by apply (silent_same (set_registration_responses _)).
Qed.
Lemma silent_lost source w : silent l0 w → leads (connection_lost source) (silent l0) w.
Proof.
  intros Hw. unfold connection_lost. apply leads_get. destruct (receiving w); [|done]. apply leads_modified.
  assert (silent l0 (set_receiving false w)) as Hr by (by apply (silent_same (set_receiving _))).
  destruct (shutting_down w); [done|]. case_decide; [by apply (silent_same (set_stop_requested _))|by apply silent_satisfy].
Qed.
Lemma silent_handle source e w : no_submit e = true → silent l0 w → leads (handle no_activity backlog_length source e) (silent l0) w.
Proof.
  intros He Hs. destruct e; try done; simpl in *.
  - unfold handleCancelJobEvent. apply leads_looks; [apply looks_owned|done|]. intros [r0 j0].
    destruct (state j0); try done; [|by apply (silent_same (set_tasks _))].
    apply leads_modified. apply silent_answer; [done|]. by apply (silent_same (set_heap _)).
  - apply leads_looks; [apply looks_owned|done|]. intros. by apply (silent_same (set_jobs _)).
  - apply leads_looks; [apply looks_owned|done|]. intros. by apply (silent_same (set_jobs _)).
  - unfold handleDiscoverJobStatesEvent. apply leads_get. by apply silent_send.
  - unfold handle_worker_registration_response. apply leads_get. destruct (master_of source w); [|done].
    destruct error; [by apply silent_satisfy|]. apply leads_trying; auto using silent_satisfy.
Qed.
Lemma silent_proceed w : silent l0 w → leads proceed (silent l0) w.
Proof.
  intros Hs. unfold proceed. apply leads_get. destruct (control w) as [|r|r|source id|source]; [done|..].
  - apply leads_looks; [apply looks_job|done|]. intros j. apply leads_looks; [apply looks_owner|done|]. intros to_.
    apply leads_sent; [by apply silent_send|]. intros _ w'. by apply (silent_same (set_control _)).
  - apply leads_looks; [apply looks_job|done|]. intros j. by apply (silent_same (λ w, set_control _ (set_jobs _ w))).
  - apply leads_sent; [by apply silent_send|]. intros _ w'. by apply (silent_same (set_control _)).
  - by apply (silent_same (λ w, set_control _ (set_notified _ w))).
Qed.
Lemma silent_step o w : silent l0 w → leads (job_execution_thread no_activity backlog_length o) (silent l0) w.
Proof.
  intros Hs. pose proof Hs as [S1 S2 S3 S4]. unfold job_execution_thread. apply leads_get.
  destruct (thread w) as [|r b|r|r|r|r|r b|r b| |] eqn:Ht; try done.
  - destruct (interrupted w); [by apply silent_thread|]. destruct (pending w) as [|r rest] eqn:Hp; [done|].
    rewrite bool_decide_eq_false_2 by lia. split; simpl in *; try done. lia.
  - destruct b; [by destruct (S2 r)|]. by apply silent_thread.
  - apply leads_looks; [apply looks_job|done|]. intros j. case_decide; [|by apply silent_thread].
    by apply (silent_thread _ (set_heap _ w)), (silent_same (set_heap _)).
  - destruct (control w); try done. apply leads_looks; [apply looks_job|done|]. intros j.
    by apply (silent_thread _ (set_jobs _ w)), (silent_same (set_jobs _)).
  - apply leads_modified, leads_looks; [apply looks_job|by apply (silent_same (set_heap _))|]. intros j.
    by apply (silent_thread _ (set_tasks _ (set_heap _ w))), (silent_same (λ w, set_tasks _ (set_heap _ w))).
  - apply leads_looks; [apply looks_job|done|]. intros j. destruct o.
    + by apply (silent_thread _ (set_tasks _ w)), (silent_same (set_tasks _)).
    + by apply (silent_thread _ (set_tasks _ w)), (silent_same (set_tasks _)).
    + by apply (silent_thread _ (set_heap _ (set_tasks _ w))), (silent_same (λ w, set_heap _ (set_tasks _ w))).
  - apply leads_looks; [apply looks_job|done|]. intros j. apply leads_looks; [apply looks_lift|done|]. intros t.
    apply leads_modified. destruct (is_pending _).
    + by apply (silent_thread _ (set_heap _ (set_heap _ (set_tasks _ w)))), (silent_same (λ w, set_heap _ (set_heap _ (set_tasks _ w)))).
    + by apply (silent_thread _ (set_heap _ (set_tasks _ w))), (silent_same (λ w, set_heap _ (set_tasks _ w))).
  - apply leads_looks; [apply looks_job|done|]. intros j. apply leads_sent.
    + destruct (state j); try done; by apply silent_answer.
    + intros _ w'. apply silent_thread. by destruct b.
Qed.
Lemma silent_mark w : silent l0 w → leads mark_remaining_tasks_as_canceled (silent l0) w.
Proof.
  intros Hs. unfold mark_remaining_tasks_as_canceled. apply leads_get. destruct (control w); try done. apply leads_modified.
  assert (silent l0 (set_tasks (fmap (cancel_task wfe_task.CANCELED_DUE_TO_WORKER_SHUTDOWN)) w)) as H1 by (by apply (silent_same (set_tasks _))).
  revert H1. generalize (set_tasks (fmap (cancel_task wfe_task.CANCELED_DUE_TO_WORKER_SHUTDOWN)) w).
  induction (map_to_list (jobs w)) as [|x l IH]; intros w' Hw'; [done|]. apply (leads_modified (set_heap _)), IH.
  by apply (silent_same (set_heap _)).
Qed.
Lemma silent_perform x w : no_submit_received x = true → silent l0 w → leads (perform x) (silent l0) w.
Proof.
  intros Hr Hs. destruct x; simpl in *.
  - apply silent_send; [done|]. by apply (silent_same (λ w, set_registration_responses _ (set_masters _ w))).
  - unfold registered. apply leads_get. destruct (existsb _ _); [done|]. destruct (existsb _ _); [done|].
    by apply (silent_same (set_registration_responses _)).
  - unfold receive. apply leads_get. destruct (receiving w); [|done]. destruct Hs as [S1 S2 S3 S4]. split; simpl; try done.
    apply Forall_app. auto.
  - by apply silent_lost.
  - unfold handle_next. apply leads_get. destruct (control w); try done.
    destruct (event_queue w) as [|[source e] rest] eqn:Hev; [done|]. pose proof Hs as [S1 S2 S3 S4]. rewrite Hev in S3.
    apply Forall_cons in S3 as [He Hrest]. apply leads_modified, leads_trying; [apply silent_handle; [done|by split]|].
    intros x w' Hs'. by apply silent_send.
  - by apply silent_proceed.
  - by apply silent_step.
  - by apply (silent_same (λ w, set_notified _ (set_shutting_down _ w))).
  - by apply silent_mark.
  - by apply (silent_same (set_interrupted _)).
Qed.
Lemma silent_after xs w : forallb no_submit_received xs = true → silent l0 w → silent l0 (after xs w).
Proof.
  revert w. induction xs as [|x xs IH]; intros w; simpl; [done|]. intros [Hr Hrs]%andb_true_iff Hs.
  apply IH; [done|]. by apply silent_perform.
Qed.
End silent.
Lemma notify_run (l : list address) w :
  for_each (λ m, send_event m BacklogNoLongerFullEvent) l w =
    (Ret tt, set_network (λ n, n ++ ((λ m, (m, BacklogNoLongerFullEvent)) <$> l)) w).
Proof.
  revert w. induction l as [|m l IH]; intros w; simpl; [by destruct w; unfold mret, M_ret, set_network; simpl; rewrite app_nil_r|].
  unfold mbind, M_bind. simpl. rewrite IH. unfold set_network. simpl. by rewrite <- app_assoc.
Qed.

(** C40: A worker forgets to say that its backlog has room again, whatever its capacity: when it
    has found its backlog full for a job of a master and, before it has said and noted so, its
    execution thread has taken a job from the full backlog and tells those that had been
    noted before, then the master is refused and noted, and no sequence of steps and of messages
    other than new jobs makes the worker tell it, or anyone, that there is room. *)
Theorem master_never_told (w : worker) source id r o (xs : list (act A)) :
  control w = Refusing source id → thread w = Taken r true → length (pending w) < backlog_length →
  Forall (λ x, no_submit x.2 = true) (event_queue w) → forallb no_submit_received xs = true →
  let w1 := after [Step o; Proceed; Proceed] w in
  notified w1 = {[source]} ∧
  network w1 = network w ++ ((λ m, (m, BacklogNoLongerFullEvent)) <$> elements (notified w)) ++
    [(source, ErrorEvent SDPA_EBACKLOGFULL "I am busy right now, please try again later!" (Some id))] ∧
  ∃ l, network (after xs w1) = network w1 ++ l ∧ Forall (λ x, full x.2 = true) l.
Proof.
  intros Hc Ht Hp Hq Hxs w1.
  assert (w1 = set_control Ready (set_notified (λ s, {[source]} ∪ s) (set_control (Recording source) (set_network (λ l, l ++
    [(source, ErrorEvent SDPA_EBACKLOGFULL "I am busy right now, please try again later!" (Some id))]) (set_thread (Claiming r)
    (set_notified (λ _, ∅) (set_network (λ n, n ++ ((λ m, (m, BacklogNoLongerFullEvent)) <$> elements (notified w))) w))))))) as ->.
  { unfold w1. simpl. unfold job_execution_thread, mbind at 1, M_bind at 1. simpl. rewrite Ht. unfold mbind, M_bind.
    rewrite notify_run. unfold proceed, mbind, M_bind. simpl. by rewrite Hc. }
  simpl. rewrite union_empty_r_L, <- app_assoc. split_and!; [done|done|]. apply silent_after; [done|].
  split; simpl; [done|done|done|]. eexists []. rewrite app_nil_r. by rewrite <- app_assoc.
Qed.
End faults.

(** ** Runs *)
Definition master : address := String.list_ascii_of_string "master".
(** a vector doubles its room *)
Definition doubled (n : nat) : nat := 1 `max` (2 * n).
Abbreviation run capacity := (after "" (λ _, "") "host" "worker" 0 capacity doubled).
Definition got (e : event string) : list (act string) := [Receive master e; Handle; Proceed; Proceed].
Definition submit (id : job_id_t) : event string := SubmitJobEvent (Some id) "activity" None {["worker"]}.

(** two jobs, the first of which has been claimed *)
Definition two_jobs : list (act string) :=
  [Register ∅ master] ++ got (submit "job1") ++ got (submit "job2") ++ replicate 3 (Step Cancelled).
Lemma worker_answers_once_witness :
  orderly "" (λ _, "") "host" "worker" 0 2 doubled (two_jobs ++ got (CancelJobEvent "job2")) make = true ∧
  answers (network (run 2 (two_jobs ++ got (CancelJobEvent "job2")) make)) ≡ₚ [(master, "job2", CANCELED)].
Proof.
  split; [reflexivity|].
  destruct (worker_answers_once "" (λ _, "") "host" "worker" 0 2 doubled (two_jobs ++ got (CancelJobEvent "job2")) eq_refl) as [Hp _].
  etrans; [exact Hp|]. vm_compute. reflexivity.
Defined.
Lemma worker_answers_all_witness :
  healthy (run 2 two_jobs make) ∧
  answers (network (run 2 (Step <$> replicate 15 (Threw "error" false)) (run 2 two_jobs make))) ≡ₚ
    [(master, "job1", FAILED); (master, "job2", FAILED)].
Proof.
  assert (healthy (run 2 two_jobs make)) as Hh by (vm_compute; repeat split; reflexivity). split; [exact Hh|].
  destruct (worker_answers_all "" (λ _, "") "host" "worker" 0 2 doubled two_jobs (replicate 15 (Threw "error" false)) eq_refl Hh eq_refl)
    as (_ & _ & _ & Hp); [vm_compute; lia|].
  etrans; [exact Hp|]. vm_compute. reflexivity.
Defined.

(** The backlog is full when the second job comes; before the worker has said that it refuses
    the job, its execution thread has taken the first job. *)
Definition race : list (act string) :=
  [Register ∅ master] ++ got (submit "job1") ++ [Receive master (submit "job2"); Handle; Step Cancelled].
(** the worker executes its only job *)
Definition rest : list (act string) := replicate 5 (Step (Returned "result")) ++ [Receive master (CancelJobEvent "job1"); Handle].
Lemma master_never_told_witness :
  orderly "" (λ _, "") "host" "worker" 0 1 doubled race make = true ∧
  network (run 1 race make) = [(master, WorkerRegistrationEvent "worker" ∅ 0 false "host"); (master, SubmitJobAckEvent "job1")] ∧
  pending (run 1 rest (run 1 [Step Cancelled; Proceed; Proceed] (run 1 race make))) = [] ∧
  ∃ l, network (run 1 rest (run 1 [Step Cancelled; Proceed; Proceed] (run 1 race make))) =
    [(master, WorkerRegistrationEvent "worker" ∅ 0 false "host"); (master, SubmitJobAckEvent "job1");
     (master, ErrorEvent SDPA_EBACKLOGFULL "I am busy right now, please try again later!" (Some "job2"))] ++ l ∧
    Forall (λ x, full x.2 = true) l.
Proof.
  split; [vm_compute; reflexivity|]. split; [vm_compute; reflexivity|]. split; [vm_compute; reflexivity|].
  destruct (master_never_told "" (λ _, "") "host" "worker" 0 1 doubled (run 1 race make) master "job2" 0 Cancelled rest)
    as (_ & _ & Hl); [vm_compute; reflexivity|vm_compute; reflexivity|vm_compute; lia|vm_compute; constructor|reflexivity|].
  exact Hl.
Defined.

(** A job that a master has submitted before the next master is registered: the vector of masters
    moves its elements, and the worker looks up the owner of the job where it is no longer. *)
Lemma late_master_dangles :
  let w := run 2 ([Register ∅ master] ++ got (submit "job1") ++ [Register ∅ []] ++ replicate 6 (Step (Returned "result"))) make in
  (perform "" (λ _, "") "host" "worker" 0 2 doubled (Step (Returned "result")) w).1 = Throw (undefined "dereference of an invalid iterator").
Proof. vm_compute. reflexivity. Qed.
End WorkerFaults.

(** ** An agent and its workers

    The messages of an agent are given to a worker: a job for two workers is refused by one
    of them, canceled on the other one, and submitted to both again. *)

Import scheduler Agent AgentRuns AgentExample WorkerSpec.

Module AgentWorker.

(** ** The agent *)
Definition on_two_workers : value_type :=
  Vstruct [("fhg", Vstruct [("drts", Vstruct [("schedule", Vstruct [("num_worker", Vstring "2UL")])])])].
Definition call_on_two : transition_t workflow :=
  let t := Runs.call_f in
  transition.mk (transition.name t) (transition.data t) (transition.condition t) (transition.ports_input t) (transition.ports_output t)
    (transition.ports_tunnel t) (transition.port_id_counter t) on_two_workers (transition.requirements t) (transition.preferences t)
    (transition.priority t) (transition.eureka_id t).
Definition agent_run : list (act activity_t) :=
  worker_joins "w1" ++ worker_joins "w2" ++
  event_of client (SubmitJobEvent None (activity.mk call_on_two None [(Vint 3, 0%Z)] [] false) None ∅) "job1" ++
  steps "job2" ++ steps "" ++ [Schedule] ++
  event_of (to_address "w1") (SubmitJobAckEvent "job2") "" ++
  event_of (to_address "w2") (ErrorEvent SDPA_EBACKLOGFULL "I am busy right now, please try again later!" (Some "job2")) "" ++
  event_of (to_address "w1") (CancelJobAckEvent "job2") "" ++
  event_of (to_address "w2") BacklogNoLongerFullEvent "" ++ [Schedule] ++
  event_of (to_address "w1") (SubmitJobAckEvent "job2") "" ++
  event_of (to_address "w2") (SubmitJobAckEvent "job2") "".
Definition to_w1 : list (event activity_t) :=
  omap (λ x, if decide (x.1 = to_address "w1") then Some x.2 else None) (sent_by (run agent_run fresh)).

(** ** The worker

    It gets the messages of the agent and makes steps in between. *)
Definition the_agent : address := to_address "agent".
Abbreviation working := (drts.after (@no_activity _ net_jobs) print_nothing "host" "w1" 0 3 WorkerFaults.doubled).
Definition got (e : event activity_t) : list (drts.act activity_t) :=
  [drts.Receive the_agent e; drts.Handle; drts.Proceed; drts.Proceed].
Definition worker_run : list (drts.act activity_t) :=
  drts.Register ∅ the_agent ::
  concat (zip_with (λ e n, got e ++ replicate n (drts.Step drts.Cancelled)) to_w1 [0; 4; 3; 0]).
Abbreviation served := (working worker_run drts.make).

(** An agent waits for ever for a job that it has submitted to a worker again after it
    was canceled there: the worker acknowledges the job and, whatever it gets and does
    afterwards, does not answer it, because it still has the canceled job in its map; for the
    agent the job is running. *)
Theorem canceled_job_not_executed_again (xs : list (drts.act activity_t)) :
  orderly (@no_activity _ net_jobs) print_nothing "host" "w1" 0 3 WorkerFaults.doubled xs served = true →
  forallb (WorkerFaults.no_ack_received "job2") xs = true →
  is_legal agent_run fresh = true ∧
  (job.getStatus <$> scheduler.jobs (run agent_run fresh) !! "job2") = Some job.RUNNING ∧
  drts.network served =
    [(the_agent, WorkerRegistrationEvent "w1" ∅ 0 false "host"); (the_agent, SubmitJobAckEvent "job2");
     (the_agent, CancelJobAckEvent "job2"); (the_agent, SubmitJobAckEvent "job2")] ∧
  snd <$> filter (λ x : answer, x.1.2 = "job2") (answers (drts.network (working xs served))) = [drts.CANCELED].
Proof.
  intros Hx Hr. split; [vm_compute; reflexivity|]. split; [vm_compute; reflexivity|]. split; [vm_compute; reflexivity|].
  assert (sound served) as Hs by (apply worker_sound_after; [vm_compute; reflexivity|apply sound_make]).
  assert (WorkerFaults.gone "job2" 0 served) as Hg.
  { clear Hs. assert (length (drts.heap served) = 1) as Hh by (vm_compute; reflexivity).
    split; [vm_compute; reflexivity| |vm_compute; discriminate|eexists; vm_compute; repeat split; reflexivity| |].
    - assert (drts.pending served = []) as -> by (vm_compute; reflexivity). apply not_elem_of_nil.
    - intros [|r'] j' Hj' _; [reflexivity|]. apply lookup_lt_Some in Hj'. rewrite Hh in Hj'. lia.
    - assert (drts.event_queue served = []) as -> by (vm_compute; reflexivity). constructor. }
  destruct (WorkerFaults.gone_after (@no_activity _ net_jobs) print_nothing "host" "w1" 0 3 WorkerFaults.doubled "job2" 0 xs _ Hx Hr Hs Hg) as [Hs' Hg'].
  destruct (WorkerFaults.gone_one_answer "job2" 0 _ Hs' Hg') as [m Hm]. rewrite Hm. reflexivity.
Qed.
Lemma canceled_job_not_executed_again_witness :
  snd <$> filter (λ x : answer, x.1.2 = "job2") (answers (drts.network (working (replicate 9 (drts.Step drts.Cancelled)) served))) =
    [drts.CANCELED].
Proof.
  exact (proj2 (proj2 (proj2 (canceled_job_not_executed_again (replicate 9 (drts.Step drts.Cancelled)) eq_refl eq_refl)))).
Defined.
End AgentWorker.
