(* ===== verification/DrtsExecute.v ===== *)
(** * Workers execute activities

    How [activity_t::execute] ends decides how a worker answers: the handlers around the
    call in [DRTSImpl::job_execution_thread] ([drts/worker/drts.cpp]).  The exceptions that
    say that libraries stay loaded do not reach the handlers for them. *)

From Stdlib Require Import SpecFloat.
From S2P Require Import Prelude Value Token Function Position ReadShow Tokenizer Expr Parser ModuleCall Net NetFire ModuleRun ModuleRunSpec SdpaJob SdpaWorker SdpaManager SdpaScheduler Layer SdpaAgent DrtsWorker.

Import module_call module_run.

Module DrtsExecute.

(** the handlers; nothing if printing the exception ends the program *)
Definition executed_of (what : exn → string) (r : outcome thrown unit * (activity_t * world)) : option (drts.executed activity_t) :=
  match r with
  | (Ret _, (a, _)) => Some (drts.Returned a)
  | (Throw Cancelled, _) => Some drts.Cancelled
  | (Throw (Module_does_not_unload _ as e), _) | (Throw (Function_does_not_unload _ as e), _) =>
      (λ s, drts.Threw s true) <$> printed what e
  | (Throw e, _) => (λ s, drts.Threw s false) <$> printed what e
  end.

Section execute.
Context `{Float.Libm} `{Unordered} (local_first : bool) (what : exn → string).
Context (show_path : string → string) (path_lt : string → string → bool) (search_path : list string) (exists_ : string → bool).
Context (dlopen : string → list string → outcome thrown unit * list string)
        (dlclose : string → list string → list string)
        (we_mod_initialize : string → list string → list (string * wrapper) * outcome thrown unit * list string).
Context (virtual_memory_api : bool) (shared_memory : option (Z * Z)) (worker_name : string).
Abbreviation run_data := (execute_data local_first what show_path path_lt search_path exists_ dlopen dlclose we_mod_initialize
  virtual_memory_api shared_memory worker_name).
Abbreviation run := (module_run.execute local_first what show_path path_lt search_path exists_ dlopen dlclose we_mod_initialize
  virtual_memory_api shared_memory worker_name).

(** an exception that is not about libraries *)
Definition ordinary (e : thrown) : bool :=
  match e with Module_does_not_unload _ | Function_does_not_unload _ => false | _ => true end.
Lemma execute_data_ordinary target name d input w e w' :
  run_data target name d input w = (Throw e, w') → ordinary e = true.
Proof.
  assert (∀ m, execute_call local_first what show_path path_lt search_path exists_ dlopen dlclose we_mod_initialize
    virtual_memory_api shared_memory worker_name m input w = (Throw e, w') → ordinary e = true) as Hcall.
  { intros m. unfold execute_call. destruct (module_run.module_call _ _ _ _ _ _ _ _ _ _ _ _ m input w) as [[out|x] w1]; [done|].
    destruct x; intros [= <- _]; done. }
  unfold execute_data. destruct d; try (by intros [= <- _]); [apply Hcall|].
  destruct target as [t|]; [|by intros [= <- _]]. case_match; [|by intros [= <- _]]. case_match. apply Hcall.
Qed.
Lemma on_activity_ordinary {X} (m : M activity_t exn X) s e s' : on_activity m s = (Throw e, s') → ordinary e = true.
Proof. unfold on_activity. destruct (m s.1) as [[x|x] a]; [done|]. by intros [= <- _]. Qed.
Lemma execute_ordinary target s e s' : run target s = (Throw e, s') → ordinary e = true.
Proof.
  unfold module_run.execute. unfold mbind at 1, M_bind at 1. destruct (on_activity _ s) as [[input|x] s1] eqn:H1;
    [|intros [= <- _]; by eapply on_activity_ordinary].
  rewrite bind_get. unfold mbind, M_bind. destruct (on_world _ s1) as [[out|x] s2] eqn:H2; [apply on_activity_ordinary|].
  intros [= <- _]. unfold on_world in H2. destruct (run_data _ _ _ _ _) as [o w1] eqn:Hd. injection H2 as -> _.
  by eapply execute_data_ordinary.
Qed.

(** However the execution of an activity ends, the worker never finds that a module or
    a function left libraries loaded: the exceptions that say so are nested into others
    before they reach the handlers for them, and the worker takes its next job. *)
Theorem taint_never_detected (target : option string) (a : activity_t) (w : world) :
  match executed_of what (run target (a, w)) with
  | Some (drts.Threw _ does_not_unload) => does_not_unload = false
  | _ => True
  end.
Proof.
  destruct (run target (a, w)) as [[u|e] [a' w']] eqn:Hr; [done|]. apply execute_ordinary in Hr.
  destruct e as [x| | | | |x y]; try done. unfold executed_of. by destruct (printed what (Nested x y)).
Qed.
End execute.

(** ** Examples

    a function that leaves a library loaded, and a choice of targets without a target *)
Definition leaking : world :=
  mk_world ["libc.so"] {["m" := mk_module "libm.so" {["f" := λ input _ libs, (Ret input, "libx.so" :: libs)]}]} [] [].
Definition calling (d : transition.data_type workflow) : activity_t :=
  activity.make (transition.mk "t" d None ∅ ∅ ∅ 0%Z (Vstruct []) [] [] 0%Z None) None.
Definition execution (target : option string) (d : transition.data_type workflow) : option (drts.executed activity_t) :=
  executed_of (λ _, "") (@module_run.execute Float.nan_libm _ false (λ _, "") id String.ltb [] (λ _, false)
    (λ _ libs, (Ret tt, libs)) (λ _ libs, libs) CallSpec.no_initialize false None "worker" target (calling d, leaking)).
(** the function has to unload what it loads and does not: the job fails and the worker goes on *)
Lemma leaking_function_fails :
  execution None (transition.module_call (module_call.mk "m" "f" [] [] [] true false)) =
    Some (drts.Threw ("call to 'm::f' failed: function m::f dynamically opened libraries but did not properly unload, " +:+
      "leaking {libx.so} loaded in the process") false).
Proof. vm_compute. reflexivity. Qed.
(** nothing is nested in this exception, and printing it ends the program *)
Lemma no_target_terminates : execution None (transition.multi_module_call [("cpu", module_call.simple "m" "f")]) = None.
Proof. vm_compute. reflexivity. Qed.
End DrtsExecute.
