(* ===== verification/VmemHandle.v ===== *)
(** * Handles of the virtual memory

    [gpi-space/pc/type/handle.hpp], [gpi-space/pc/memory/handle_generator.cpp]: a handle is a
    64-bit number whose four most significant bits are the type of its segment; handles of
    global memory carry the rank of the node that made them.  The name of a handle in the
    values of a workflow ([drts/virtual_memory.cpp]) is read back by module calls. *)

From S2P Require Import Prelude Value Token Function Position ReadShow Tokenizer Expr Parser ModuleCall Net NetFire ModuleRun.

Module vmem_handle.
Local Open Scope Z_scope.
Import module_call module_run.

(** ** Types ([segment_type.hpp], [flags.hpp]) *)
Definition SEG_INVAL : Z := 0.
Definition SEG_GASPI : Z := 1.
Definition SEG_SHM : Z := 2.
Definition SEG_BEEGFS : Z := 3.
Definition F_NONE : Z := 0.
Definition F_EXCLUSIVE : Z := 2.
Definition F_GLOBAL : Z := 4.
Definition F_NOCREATE : Z := 8.
Definition is_set (f mask : Z) : bool := negb (Z.land f mask =? 0).

(** ** Bits *)
Definition ident_bits : Z := 12.
Definition typec_bits : Z := 4.
Definition global_count_bits : Z := 48.
Definition local_count_bits : Z := 60.

Definition check_for_overflow (bits part : Z) : outcome exn unit :=
  if Z.shiftl 1 bits - 1 <? part then Throw (runtime_error "handle would overflow") else Ret tt.

(** the fields of a handle *)
Definition type (h : Z) : Z := Z.shiftr h local_count_bits.
Definition ident (h : Z) : Z := Z.land (Z.shiftr h global_count_bits) (Z.ones ident_bits).
Definition global_cntr (h : Z) : Z := Z.land h (Z.ones global_count_bits).
Definition local_cntr (h : Z) : Z := Z.land h (Z.ones local_count_bits).

Definition encode (node seg counter : Z) : outcome exn Z :=
  if seg =? SEG_SHM then
    _ ← check_for_overflow local_count_bits counter;
    Ret (Z.lor (Z.shiftl seg local_count_bits) counter)
  else
    _ ← check_for_overflow typec_bits seg;
    _ ← check_for_overflow ident_bits node;
    _ ← check_for_overflow global_count_bits counter;
    Ret (Z.lor (Z.shiftl seg local_count_bits) (Z.lor (Z.shiftl node global_count_bits) counter)).

Definition validate (h : Z) : outcome exn unit :=
  if type h =? 0 then Throw (invalid_argument ("invalid handle: " +:+ show.integer h)) else Ret tt.

(** ** The generator *)
Record generator : Type := mk_generator { m_node_identifier : Z; m_counter : list Z }.
Definition make_generator (identifier : Z) : generator := mk_generator identifier (replicate 16 0).
Definition next (seg : Z) : M generator exn Z :=
  g ← get;
  match m_counter g !! Z.to_nat seg with
  | None => throw (invalid_argument "invalid segment type")
  | Some c =>
      let c := w64 (c + 1) in
      modify (λ g, mk_generator (m_node_identifier g) (<[Z.to_nat seg := c]> (m_counter g))) ≫= λ _,
      lift (encode (m_node_identifier g) seg c)
  end.
Definition initialize_counter (seg : Z) : M generator exn unit :=
  g ← get;
  match m_counter g !! Z.to_nat seg with
  | None => throw (invalid_argument "invalid segment type")
  | Some _ => modify (λ g, mk_generator (m_node_identifier g) (<[Z.to_nat seg := 0]> (m_counter g)))
  end.

(** ** Text *)
Definition hex_char (d : Z) : ascii := ascii_of_N (Z.to_N (if d <? 10 then 48 + d else 87 + d)).
(** [os << std::hex << std::setw (width) << std::setfill ('0') << h] for numbers with at most
    [width] digits: all digits, the most significant first *)
Fixpoint hex (width : nat) (h : Z) (rest : string) : string :=
  match width with
  | O => rest
  | S width => hex width (Z.shiftr h 4) (String (hex_char (Z.land h 15)) rest)
  end.
(** [operator<<] and the name that [vmem_allocation::global_memory_range] gives *)
Definition show_handle (h : Z) : string := "0x" +:+ hex 16 h "".
Definition handle_name (h : Z) : string := "0x" +:+ hex 18 h "".

(** [vmem_allocation::global_memory_range] *)
Definition global_memory_range (handle_id allocation_size offset size : Z) : outcome exn value_type :=
  if allocation_size <? w64 (offset + size) then
    Throw (logic_error ("slice [" +:+ show.integer offset +:+ ", " +:+ show.integer (w64 (offset + size)) +:+
      ") is outside of allocation"))
  else
    Ret (Path.poke ["size"] (Path.poke ["offset"] (Path.poke ["handle"; "name"] Vcontrol (Vstring (handle_name handle_id)))
           (Vulong offset)) (Vulong size)).

(** ** Names are read back *)
Lemma hex_digit_char d : 0 ≤ d < 16 → hex_digit (hex_char d) = Some d.
Proof.
  intros Hd. assert (d ∈ seqZ 0 16) as Hin by (apply elem_of_seqZ; lia). revert d Hin Hd.
  assert (Forall (λ d, hex_digit (hex_char d) = Some d) (seqZ 0 16)) as Hall by by_computation.
  intros d Hin _. rewrite Forall_forall in Hall. by apply Hall.
Qed.
Lemma land_15 h : Z.land h 15 = h mod 16.
Proof. change 15 with (Z.ones 4). rewrite Z.land_ones by lia. done. Qed.
Lemma hex_digits_hex w h rest n :
  0 ≤ h →
  foldl (λ n d, 16 * n + d) n (hex_digits (hex w h rest)) =
  foldl (λ n d, 16 * n + d) (n * 16 ^ Z.of_nat w + h mod 16 ^ Z.of_nat w) (hex_digits rest).
Proof.
  revert h rest. induction w as [|w IH]; intros h rest Hh.
  - simpl. rewrite Z.mod_1_r. f_equal. lia.
  - cbn [hex]. rewrite IH by (apply Z.shiftr_nonneg; lia). cbn [hex_digits]. rewrite hex_digit_char by (rewrite land_15; apply Z.mod_pos_bound; lia).
    cbn [foldl]. f_equal. rewrite land_15, Z.shiftr_div_pow2 by lia. change (2 ^ 4) with 16.
    rewrite Nat2Z.inj_succ, Z.pow_succ_r by lia. rewrite (Z.rem_mul_r h 16) by lia. lia.
Qed.
Lemma hex_digits_nonempty w h rest : hex_digits (hex (S w) h rest) ≠ [].
Proof.
  assert (∀ w h c rest, is_Some (hex_digit c) → hex_digits (hex w h (String c rest)) ≠ []) as Hgo.
  { clear. intros w. induction w as [|w IH]; intros h c rest Hc; cbn [hex].
    - cbn [hex_digits]. destruct Hc as [d ->]. done.
    - apply IH. rewrite hex_digit_char by (rewrite land_15; apply Z.mod_pos_bound; lia). eauto. }
  cbn [hex]. apply Hgo. rewrite hex_digit_char by (rewrite land_15; apply Z.mod_pos_bound; lia). eauto.
Qed.
Lemma hex_cons w h rest : ∃ c s, hex (S w) h rest = String c s ∧ is_Some (hex_digit c).
Proof.
  revert h rest. induction w as [|w IH]; intros h rest.
  - cbn [hex]. eexists _, rest. split; [done|]. rewrite hex_digit_char; [eauto|]. rewrite land_15. apply Z.mod_pos_bound. lia.
  - change (hex (S (S w)) h rest) with (hex (S w) (Z.shiftr h 4) (String (hex_char (Z.land h 15)) rest)). apply IH.
Qed.
Lemma stoul16_hex w h : is_w64 h → h < 16 ^ Z.of_nat (S w) → stoul16 ("0x" +:+ hex (S w) h "") = Ret h.
Proof.
  intros Hh Hw. unfold is_w64 in Hh. unfold stoul16. change (skip_space ("0x" +:+ hex (S w) h "")) with ("0x" +:+ hex (S w) h "").
  destruct (hex_cons w h "") as (c & s & Hc & Hd). change ("0x" +:+ hex (S w) h "") with (String "0" (String "x" (hex (S w) h ""))).
  cbv beta iota zeta.
  assert (without_prefix (String "0" (String "x" (hex (S w) h ""))) = hex (S w) h "") as ->.
  { rewrite Hc. cbn [without_prefix]. by rewrite (bool_decide_eq_true_2 _ Hd). }
  pose proof (hex_digits_hex (S w) h "" 0 (proj1 Hh)) as Hv. pose proof (hex_digits_nonempty w h "") as Hne.
  destruct (hex_digits (hex (S w) h "")) as [|d ds] eqn:Hds; [done|]. rewrite Hv.
  cbn [hex_digits foldl]. rewrite Z.mul_0_l, Z.add_0_l, Z.mod_small by lia.
  rewrite (proj2 (Z.ltb_lt _ _)) by lia. done.
Qed.

(** The range of an allocation that a client puts into the values of a workflow is the
    range that a module call finds there, and the name of its handle is read as the handle:
    the digits of all 64 bits survive. *)
Theorem global_memory_range_read_back (h n offset size : Z) (v : value_type) :
  is_w64 h → is_w64 offset → is_w64 size → global_memory_range h n offset size = Ret v →
  global_range v = Ret (mk_range (mk_interval offset size) (handle_name h)) ∧ stoul16 (handle_name h) = Ret h.
Proof.
  intros Hh Ho Hs Hv. split; [|unfold handle_name; apply stoul16_hex; [done|]; assert (two64 < 16 ^ Z.of_nat 18) by reflexivity; unfold is_w64 in Hh; lia].
  unfold global_memory_range in Hv. destruct (n <? _); [done|]. injection Hv as <-.
  assert (w64 offset = offset ∧ w64 size = size) as [E1 E2] by (by rewrite !w64_small).
  unfold global_range, interval_of, field_as, field. lazy -[handle_name w64]. by rewrite E1, E2.
Qed.
Lemma global_memory_range_read_back_witness :
  let h := 1152921504606847007 in
  handle_name h = "0x00100000000000001f" ∧
  match global_memory_range h 100 10 20 with
  | Ret v => global_range v = Ret (mk_range (mk_interval 10 20) "0x00100000000000001f") ∧ stoul16 "0x00100000000000001f" = Ret h
  | Throw _ => False
  end.
Proof.
  intros h. split; [vm_compute; reflexivity|].
  destruct (global_memory_range h 100 10 20) as [v|e] eqn:Hv; [|vm_compute in Hv; discriminate Hv].
  exact (global_memory_range_read_back h 100 10 20 v ltac:(split; [discriminate|reflexivity])
    ltac:(split; [discriminate|reflexivity]) ltac:(split; [discriminate|reflexivity]) Hv).
Defined.

(** ** Handles are different *)
Lemma field_high a c k : 0 ≤ k → 0 ≤ c < 2 ^ k → Z.shiftr (Z.lor (Z.shiftl a k) c) k = a.
Proof.
  intros Hk Hc. rewrite Z.shiftr_lor, Z.shiftr_shiftl_l, Z.sub_diag, Z.shiftl_0_r by lia.
  rewrite (Z.shiftr_div_pow2 c) by lia. by rewrite Z.div_small, Z.lor_0_r by lia.
Qed.
Lemma field_low a c k : 0 ≤ k → 0 ≤ c < 2 ^ k → Z.land (Z.lor (Z.shiftl a k) c) (Z.ones k) = c.
Proof.
  intros Hk Hc. rewrite Z.land_lor_distr_l, !Z.land_ones, Z.shiftl_mul_pow2 by lia.
  by rewrite Z.mod_mul, Z.lor_0_l, Z.mod_small by lia.
Qed.
Lemma lor_bound a c k n : 0 ≤ k → 0 ≤ n → 0 ≤ a < 2 ^ n → 0 ≤ c < 2 ^ k → 0 ≤ Z.lor (Z.shiftl a k) c < 2 ^ (k + n).
Proof.
  intros Hk Hn Ha Hc. rewrite Z.pow_add_r by lia. pose proof (field_high a c k Hk Hc) as Hh. pose proof (field_low a c k Hk Hc) as Hl.
  rewrite Z.shiftr_div_pow2 in Hh by lia. rewrite Z.land_ones in Hl by lia.
  pose proof (Z.div_mod (Z.lor (Z.shiftl a k) c) (2 ^ k)) as Hd. rewrite Hh, Hl in Hd. nia.
Qed.
Lemma check_for_overflow_ret k x u : 0 ≤ k → check_for_overflow k x = Ret u → x < 2 ^ k.
Proof. intros Hk. unfold check_for_overflow. rewrite Z.shiftl_1_l. destruct (_ <? x) eqn:Hx; [done|]. apply Z.ltb_ge in Hx. lia. Qed.
(** what a handle that was made says *)
Lemma encode_fields node seg counter h :
  0 ≤ node → 0 ≤ seg < 16 → 0 ≤ counter → encode node seg counter = Ret h →
  is_w64 h ∧ type h = seg ∧ (if seg =? SEG_SHM then local_cntr h = counter else ident h = node ∧ global_cntr h = counter).
Proof.
  intros Hn Hs Hc. unfold encode, type, local_cntr, ident, global_cntr, local_count_bits, global_count_bits, ident_bits, typec_bits, is_w64.
  change two64 with (2 ^ (60 + 4)). destruct (seg =? SEG_SHM).
  - intros ([] & H1%check_for_overflow_ret & [= <-])%obind_ret_inv; [|lia].
    split; [by apply lor_bound|]. split; [by apply field_high|by apply field_low].
  - intros ([] & _ & Hr)%obind_ret_inv. apply obind_ret_inv in Hr as ([] & H2%check_for_overflow_ret & Hr); [|lia].
    apply obind_ret_inv in Hr as ([] & H3%check_for_overflow_ret & [= <-]); [|lia].
    assert (0 ≤ Z.lor (Z.shiftl node 48) counter < 2 ^ 60) as Hb by (apply (lor_bound _ _ 48 12); lia).
    split; [by apply lor_bound|]. split; [by apply field_high|].
    set (x := Z.lor (Z.shiftl node 48) counter) in *.
    assert (Z.land (Z.lor (Z.shiftl seg 60) x) (Z.ones 60) = x) as Hx by (by apply field_low). split.
    + replace (Z.land (Z.shiftr (Z.lor (Z.shiftl seg 60) x) 48) (Z.ones 12)) with (Z.shiftr (Z.land (Z.lor (Z.shiftl seg 60) x) (Z.ones 60)) 48).
      * rewrite Hx. by apply field_high.
      * rewrite Z.shiftr_land. by rewrite (Z.shiftr_div_pow2 (Z.ones 60)) by lia.
    + replace (Z.land (Z.lor (Z.shiftl seg 60) x) (Z.ones 48)) with (Z.land (Z.land (Z.lor (Z.shiftl seg 60) x) (Z.ones 60)) (Z.ones 48)).
      * rewrite Hx. by apply field_low.
      * rewrite <- Z.land_assoc. by change (Z.land (Z.ones 60) (Z.ones 48)) with (Z.ones 48).
Qed.
Lemma check_for_overflow_ok k x : 0 ≤ k → x < 2 ^ k → check_for_overflow k x = Ret tt.
Proof. intros Hk Hx. unfold check_for_overflow. rewrite Z.shiftl_1_l. by rewrite (proj2 (Z.ltb_ge _ _)) by lia. Qed.
Lemma encode_ok r seg k : 0 ≤ r < 4096 → 0 ≤ seg < 16 → seg ≠ SEG_SHM → 0 ≤ k < 2 ^ 48 → ∃ h, encode r seg k = Ret h.
Proof.
  intros Hr Hs Hne Hk. unfold encode. rewrite (proj2 (Z.eqb_neq _ _)) by done.
  rewrite !check_for_overflow_ok; [by eexists|unfold typec_bits, ident_bits, global_count_bits; lia..].
Qed.
Lemma encode_inj node seg counter node' seg' counter' h :
  0 ≤ node → 0 ≤ seg < 16 → 0 ≤ counter → 0 ≤ node' → 0 ≤ seg' < 16 → 0 ≤ counter' →
  encode node seg counter = Ret h → encode node' seg' counter' = Ret h →
  seg = seg' ∧ counter = counter' ∧ (seg = SEG_SHM ∨ node = node').
Proof.
  intros ? ? ? ? ? ? He He'. apply encode_fields in He as (_ & Ht & Hf); [|done..]. apply encode_fields in He' as (_ & Ht' & Hf'); [|done..].
  subst seg seg'. destruct (type h =? SEG_SHM) eqn:Hs.
  - apply Z.eqb_eq in Hs. split_and!; [done|congruence|by left].
  - destruct Hf, Hf'. split_and!; [done|congruence|right; congruence].
Qed.

(** the handles that a generator makes when it is asked for one of each of these types in turn *)
Definition draw_step (x : list Z * generator) (seg : Z) : list Z * generator :=
  match next seg x.2 with
  | (Ret h, g) => (x.1 ++ [h], g)
  | (Throw _, g) => (x.1, g)
  end.
Definition draw (segs : list Z) (g : generator) : list Z * generator := foldl draw_step ([], g) segs.

Record drawn (node : Z) (n : nat) (x : list Z * generator) : Prop := {
  d_node : m_node_identifier x.2 = node;
  d_length : length (m_counter x.2) = 16%nat;
  d_counter : Forall (λ c, 0 ≤ c ≤ Z.of_nat n) (m_counter x.2);
  d_distinct : NoDup x.1;
  d_made : ∀ h, h ∈ x.1 → ∃ seg c c', 0 ≤ seg < 16 ∧ m_counter x.2 !! Z.to_nat seg = Some c' ∧ 1 ≤ c ≤ c' ∧ encode node seg c = Ret h
}.
Lemma drawn_make node : drawn node 0 ([], make_generator node).
Proof. split; simpl; try done; [by repeat constructor|apply NoDup_nil_2|intros h Hh%elem_of_nil; done]. Qed.
Lemma drawn_step node n x seg :
  0 ≤ node → 0 ≤ seg < 16 → Z.of_nat n + 1 < two64 → drawn node n x → drawn node (S n) (draw_step x seg).
Proof.
  intros Hn Hs Hlen [Dn Dl Dc Dd Dm]. unfold draw_step, next. rewrite bind_get.
  destruct (lookup_lt_is_Some_2 (m_counter x.2) (Z.to_nat seg)) as [c Hc]; [lia|]. rewrite Hc, bind_modify.
  pose proof (Forall_lookup_1 _ _ _ _ Dc Hc) as Hb. simpl in Hb. rewrite w64_small by (unfold is_w64; lia).
  set (g := mk_generator _ _).
  assert (m_counter g !! Z.to_nat seg = Some (c + 1)) as Hg by (simpl; apply list_lookup_insert_eq; lia).
  assert (Forall (λ c, 0 ≤ c ≤ Z.of_nat (S n)) (m_counter g)) as Hall.
  { apply Forall_insert; [|lia]. eapply Forall_impl; [exact Dc|]. simpl. lia. }
  assert (∀ h, h ∈ x.1 → ∃ seg0 c0 c', 0 ≤ seg0 < 16 ∧ m_counter g !! Z.to_nat seg0 = Some c' ∧ 1 ≤ c0 ≤ c' ∧
    encode node seg0 c0 = Ret h ∧ (seg0 = seg → c0 ≤ c)) as Hold.
  { intros h Hh. destruct (Dm h Hh) as (s0 & c0 & c' & H1 & H2 & H3 & H4). destruct (decide (s0 = seg)) as [->|Hne].
    - simplify_eq. exists seg, c0, (c + 1). split_and!; try done; lia.
    - exists s0, c0, c'. split_and!; try done; try lia. simpl. by rewrite list_lookup_insert_ne by lia. }
  destruct (lift (encode (m_node_identifier x.2) seg (c + 1)) g) as [[h|e] g'] eqn:He; injection He as He <-.
  - split; simpl; try done; [by rewrite length_insert|..].
    + apply NoDup_app. split_and!; [done| |apply NoDup_singleton].
      intros h' Hh' ->%list_elem_of_singleton. destruct (Hold h Hh') as (s0 & c0 & c' & H1 & H2 & H3 & H4 & H5).
      rewrite Dn in He. destruct (encode_inj node s0 c0 node seg (c + 1) h) as (-> & Heq & _); [lia..|done|done|].
      specialize (H5 eq_refl). lia.
    + intros h' [Hh'| ->%list_elem_of_singleton]%elem_of_app.
      * destruct (Hold h' Hh') as (s0 & c0 & c' & ? & ? & ? & ? & _). eauto 10.
      * exists seg, (c + 1), (c + 1). split_and!; try done; try lia. by rewrite <- Dn.
  - split; simpl; try done; [by rewrite length_insert|].
    intros h' Hh'. destruct (Hold h' Hh') as (s0 & c0 & c' & ? & ? & ? & ? & _). eauto 10.
Qed.
Lemma drawn_all node segs n x :
  0 ≤ node → Forall (λ s, 0 ≤ s < 16) segs → Z.of_nat (n + length segs) < two64 → drawn node n x →
  drawn node (n + length segs) (foldl draw_step x segs).
Proof.
  intros Hn. revert n x. induction segs as [|seg segs IH]; intros n x Hs Hlen Hd; simpl in *; [by rewrite Nat.add_0_r|].
  apply Forall_cons in Hs as [Hs Hss]. rewrite <- Nat.add_succ_comm. apply IH; [done|lia|]. apply drawn_step; [done|done|lia|done].
Qed.

(** C32: All handles that the generator of a node makes are different, and the handles that
    generators of different nodes make are different unless they are for shared memory, which
    is local to a node. *)
Theorem handles_different (node node' : Z) (segs segs' : list Z) :
  0 ≤ node → 0 ≤ node' → Forall (λ s, 0 ≤ s < 16) segs → Forall (λ s, 0 ≤ s < 16) segs' →
  Z.of_nat (length segs) < two64 → Z.of_nat (length segs') < two64 →
  NoDup (draw segs (make_generator node)).1 ∧
  (node ≠ node' → ∀ h, h ∈ (draw segs (make_generator node)).1 → h ∈ (draw segs' (make_generator node')).1 → type h = SEG_SHM).
Proof.
  intros Hn Hn' Hs Hs' Hl Hl'.
  assert (drawn node (length segs) (draw segs (make_generator node))) as D by (apply (drawn_all node segs 0); [done|done|done|apply drawn_make]).
  assert (drawn node' (length segs') (draw segs' (make_generator node'))) as D'
    by (apply (drawn_all node' segs' 0); [done|done|done|apply drawn_make]).
  split; [apply D|]. intros Hne h Hh Hh'. destruct (d_made _ _ _ D h Hh) as (s & c & ? & ? & _ & ? & He).
  destruct (d_made _ _ _ D' h Hh') as (s' & c' & ? & ? & _ & ? & He').
  pose proof (encode_fields node s c h) as (_ & Ht & _); [done|lia|lia|done|].
  destruct (encode_inj node s c node' s' c' h) as (_ & _ & [?|?]); [lia..|done|done|congruence|done].
Qed.
Lemma handles_different_witness :
  (draw [SEG_GASPI; SEG_SHM; SEG_GASPI] (make_generator 1)).1 = [1153202979583557633; 2305843009213693953; 1153202979583557634] ∧
  NoDup (draw [SEG_GASPI; SEG_SHM; SEG_GASPI] (make_generator 1)).1.
Proof.
  split; [vm_compute; reflexivity|].
  apply (handles_different 1 0 [SEG_GASPI; SEG_SHM; SEG_GASPI] []); try done; by repeat constructor.
Defined.
End vmem_handle.
