(* ===== verification/VmemUrl.v ===== *)
(** * Descriptions of segments

    [gpi-space/pc/url.cpp]: the text with which a client asks for a segment, and the numbers
    that areas read from it. *)

From S2P Require Import Prelude Value OrderSpec Token Bitset Function Position Num NumSpec ReadShow ReadShowSpec.

Module vmem_url.
Local Open Scope Z_scope.
Import require.

(** ** Parsing *)
Definition isalnum (c : ascii) : bool := char.isalpha c || char.isdigit c.
(** [until (pos, p)] *)
Definition until (p : ascii → bool) : P string :=
  λ pos, (Ret (take_while (λ c, negb (p c)) (position.rest pos)),
          skip_while_from (λ c, negb (p c)) (position.eaten pos) (position.rest pos)).

Definition is_end_of_value (c : ascii) : bool := negb (isalnum c).
Definition require_value : P string :=
  λ pos, if looking_at (λ c, negb (is_end_of_value c)) pos then until is_end_of_value pos
         else fail "value [a-zA-Z_0-9]+" pos.
Definition require_uint (bits : Z) : P Z :=
  i ← num.read_uint;
  if 0 <? Z.shiftr i bits then fail ("number in [0," +:+ show.integer (Z.shiftl 1 bits) +:+ ")")
  else mret (Z.land i (Z.shiftl 1 bits - 1)).
Definition require_port : P string :=
  λ pos, if looking_at (λ c, char.isdigit c || is_char "*" c) pos then
           if looking_at (is_char "*") pos then (skip ≫= λ _, mret "*") pos
           else (i ← require_uint 16; mret (show.integer i)) pos
         else fail "port {UINT16|*}" pos.
Definition require_ip : P string :=
  a ← require_uint 8; require_char "." ≫= λ _,
  b ← require_uint 8; require_char "." ≫= λ _,
  c ← require_uint 8; require_char "." ≫= λ _,
  d ← require_uint 8;
  mret (show.integer a +:+ "." +:+ show.integer b +:+ "." +:+ show.integer c +:+ "." +:+ show.integer d).
Definition is_end_of_hostname (c : ascii) : bool :=
  negb (isalnum c || is_char " " c || is_char "." c || is_char "-" c || is_char "_" c).
Definition is_end_of_path (c : ascii) : bool := is_char "?" c || is_char "&" c.
Definition require_host : P string :=
  λ pos, if looking_at (λ c, isalnum c || is_char "*" c) pos then
           if looking_at (is_char "*") pos then (skip ≫= λ _, mret "*") pos
           else if looking_at char.isdigit pos then require_ip pos
           else until is_end_of_hostname pos
         else fail "host {identifier_with_dot_and_space|ip}" pos.

Record url_t : Type := mk_url { type : string; path : string; args : gmap string string }.

Definition host_and_port : P string :=
  host ← require_host;
  get ≫= λ pos : position.type,
  if looking_at (is_char ":") pos then skip ≫= λ _, port ← require_port; mret (host +:+ ":" +:+ port)
  else mret host.
(** the two loops take at least one character each time *)
Fixpoint parse_path (fuel : nat) (path : string) : P string :=
  match fuel with
  | O => throw out_of_fuel
  | S fuel =>
      get ≫= λ pos : position.type,
      if looking_at (is_char "/") pos then
        skip ≫= λ _, x ← until is_end_of_path; parse_path fuel (path +:+ "/" +:+ x)
      else mret path
  end.
Fixpoint parse_args (fuel : nat) (sep : ascii) (args : gmap string string) : P (gmap string string) :=
  match fuel with
  | O => throw out_of_fuel
  | S fuel =>
      get ≫= λ pos : position.type,
      if position.at_end pos then mret args
      else
        require_char sep ≫= λ _,
        key ← identifier;
        require_char "=" ≫= λ _,
        value ← require_value;
        match args !! key with
        | Some _ => fail ("duplicate key '" +:+ key +:+ "'")
        | None => parse_args fuel "&" (<[key := value]> args)
        end
  end.
Definition parse_url (fuel : nat) : P url_t :=
  t ← identifier;
  get ≫= λ pos : position.type,
  if position.at_end pos then mret (mk_url t "" ∅)
  else
    require_string "://" ≫= λ _,
    get ≫= λ pos : position.type,
    if position.at_end pos then mret (mk_url t "" ∅)
    else
      host ← (if looking_at (λ c, is_char "/" c || is_char "?" c) pos then mret "" else host_and_port);
      path ← parse_path fuel host;
      args ← parse_args fuel "?" ∅;
      mret (mk_url t path args).
Definition make (input : string) : outcome exn url_t := (parse_url (S (String.length input)) (position.make input)).1.

(** [boost::lexical_cast<size_t>] for the texts that values can be *)
Fixpoint decimal (n : Z) (s : string) : option Z :=
  match s with
  | "" => Some n
  | String c s => if char.isdigit c then decimal (10 * n + (Z.of_nat (nat_of_ascii c) - 48)) s else None
  end.
Definition lexical_cast (s : string) : outcome exn Z :=
  match s, decimal 0 s with
  | "", _ | _, None => Throw (runtime_error "bad lexical cast: source type value could not be interpreted as target")
  | _, Some n => if n <? two64 then Ret n else Throw (runtime_error "bad lexical cast: source type value could not be interpreted as target")
  end.

(** ** The texts that clients send ([client/api.cpp], [remote_segment]) *)
Definition gaspi_info (size communication_buffer_size num_communication_buffers : Z) : string :=
  "gaspi://?total_size=" +:+ show.integer size +:+ "&buffer_size=" +:+ show.integer communication_buffer_size +:+
  "&buffers=" +:+ show.integer num_communication_buffers.
Definition filesystem_info (size : Z) (location : string) : string :=
  "beegfs://" +:+ location +:+ "?total_size=" +:+ show.integer size.
(** ** [operator<<] ([url_io.hpp]) *)
Fixpoint print_args (sep : ascii) (l : list (string * string)) : string :=
  match l with
  | [] => ""
  | (key, value) :: l => String sep (key +:+ String "=" (value +:+ print_args "&" l))
  end.
Definition key_le : relation (string * string) := λ x y, String.leb x.1 y.1 = true.
#[global] Instance key_le_dec : RelDecision key_le.
Proof. intros x y. unfold key_le. apply _. Defined.
Definition show_url (u : url_t) : string :=
  type u +:+ "://" +:+ path u +:+ print_args "?" (merge_sort key_le (map_to_list (args u))).

(** ** What is shown is read back *)
Import NumSpec ReadShow.

(** paths without a host, and values that can be read *)
Definition plain_path (s : string) : bool :=
  match s with "" => true | String c s => is_char "/" c && all_chars (λ c, negb (is_end_of_path c)) s end.
Definition plain_value (s : string) : bool := starts isalnum s && all_chars isalnum s.

Lemma until_run (p : ascii → bool) s k rest :
  all_chars (λ c, negb (p c)) s = true → starts (λ c, negb (p c)) rest = false →
  until p (at_ k (s +:+ rest)) = (Ret s, at_ (k + String.length s) rest).
Proof.
  intros Hs Hr. unfold until. cbn [position.rest position.eaten]. by rewrite take_while_run, skip_while_app by done.
Qed.
Lemma all_chars_ext f g s : (∀ c, f c = g c) → all_chars f s = all_chars g s.
Proof. intros Hfg. induction s as [|c s IH]; simpl; [done|]. by rewrite Hfg, IH. Qed.
Lemma print_args_starts sep l f : f sep = false → f "&"%char = false → starts f (print_args sep l) = false.
Proof. intros Hs _. by destruct l as [|[x y] l]. Qed.
Lemma require_value_run v k rest :
  plain_value v = true → starts isalnum rest = false → require_value (at_ k (v +:+ rest)) = (Ret v, at_ (k + String.length v) rest).
Proof.
  intros [Hst Hall]%andb_true_iff Hr. unfold require_value. rewrite looking_at_starts.
  assert (starts (λ c, negb (is_end_of_value c)) (v +:+ rest) = true) as ->.
  { destruct v as [|c v]; [done|]. rewrite string_app_cons. simpl in *. unfold is_end_of_value. by rewrite Hst. }
  apply until_run; unfold is_end_of_value.
  - rewrite <- Hall. apply all_chars_ext. intros c. by rewrite negb_involutive.
  - rewrite <- Hr. destruct rest; simpl; [done|]. by rewrite negb_involutive.
Qed.
Lemma parse_args_run fuel l sep m k :
  (length l < fuel)%nat → sep = "?"%char ∨ sep = "&"%char → NoDup l.*1 → Forall (λ x, m !! x.1 = None) l →
  Forall (λ x, is_identifier x.1 = true ∧ plain_value x.2 = true) l →
  ∃ k', parse_args fuel sep m (at_ k (print_args sep l)) = (Ret (foldl (λ m x, <[x.1 := x.2]> m) m l), at_ k' "").
Proof.
  revert l sep m k. induction fuel as [|fuel IH]; intros l sep m k Hf Hsep Hnd Hnew Hok; [lia|].
  destruct l as [|[key v] l]; cbn [parse_args print_args]; rewrite bind_get; cbn [position.at_end position.rest]; [by exists k|].
  apply Forall_cons in Hok as [[Hk Hv] Hok]. apply Forall_cons in Hnew as [Hn Hnew].
  rewrite fmap_cons in Hnd. apply NoDup_cons in Hnd as [Hnin Hnd]. simpl in Hf.
  destruct (IH l "&"%char (<[key := v]> m) (S (S k + String.length key) + String.length v)%nat) as [k' Hrun];
    [lia|by right|done| |done|].
  { apply Forall_forall. intros x Hx. rewrite lookup_insert_ne; [rewrite Forall_forall in Hnew; by apply Hnew|].
    intros E. apply Hnin. simpl. rewrite E. by apply (list_elem_of_fmap_2 fst). }
  exists k'. eapply bind_run; [apply require_char_run|].
  eapply bind_run; [apply identifier_run; [done|]; done|].
  eapply bind_run; [apply require_char_run|].
  eapply bind_run; [apply require_value_run; [done|]; by apply print_args_starts|]. simpl in Hn. rewrite Hn. exact Hrun.
Qed.
Lemma foldl_insert (l : list (string * string)) (m : gmap string string) :
  NoDup l.*1 → Forall (λ x, m !! x.1 = None) l → foldl (λ m x, <[x.1 := x.2]> m) m l = list_to_map l ∪ m.
Proof.
  revert m. induction l as [|[x y] l IH]; intros m Hnd Hm; simpl; [by rewrite map_empty_union|].
  rewrite fmap_cons in Hnd. apply NoDup_cons in Hnd as [Hx Hnd]. apply Forall_cons in Hm as [Hmx Hm]. rewrite IH; [|done|].
  - rewrite <- insert_union_r, <- insert_union_l; [done|]. by apply not_elem_of_list_to_map_1.
  - apply Forall_forall. intros z Hz. rewrite lookup_insert_ne; [rewrite Forall_forall in Hm; by apply Hm|].
    intros E. apply Hx. simpl. rewrite E. by apply (list_elem_of_fmap_2 fst).
Qed.
Lemma parse_path_run p k rest :
  plain_path p = true → starts (λ c, negb (is_end_of_path c)) rest = false → starts (is_char "/") rest = false →
  ∀ fuel, ∃ k', parse_path (S (S fuel)) "" (at_ k (p +:+ rest)) = (Ret p, at_ k' rest).
Proof.
  intros Hp Hr Hs fuel. destruct p as [|c p].
  - exists k. cbn [parse_path]. rewrite bind_get, string_app_nil_l, looking_at_starts, Hs. done.
  - simpl in Hp. apply andb_true_iff in Hp as [Hc%bool_decide_eq_true Hp]. subst c.
    exists (S k + String.length p)%nat. cbn [parse_path]. rewrite bind_get, looking_at_starts, string_app_cons. cbn [starts].
    rewrite is_char_refl. eapply bind_run; [apply skip_run|]. eapply bind_run; [by apply until_run|].
    rewrite bind_get, looking_at_starts, Hs. done.
Qed.
Lemma string_app_length (a b : string) : String.length (a +:+ b) = (String.length a + String.length b)%nat.
Proof. induction a as [|c a IH]; [done|]. rewrite string_app_cons. cbn [String.length]. by rewrite IH. Qed.
Lemma print_args_length sep l : (length l ≤ String.length (print_args sep l))%nat.
Proof.
  revert sep. induction l as [|[x y] l IH]; intros sep; [done|]. cbn [print_args length String.length].
  rewrite string_app_length. cbn [String.length]. rewrite string_app_length. specialize (IH "&"%char). lia.
Qed.
Lemma sorted_args_spec (m : gmap string string) :
  NoDup (merge_sort key_le (map_to_list m)).*1 ∧ list_to_map (merge_sort key_le (map_to_list m)) = m.
Proof.
  assert (Hp : merge_sort key_le (map_to_list m) ≡ₚ map_to_list m) by apply merge_sort_Permutation.
  assert (Hnd : NoDup (merge_sort key_le (map_to_list m)).*1) by (rewrite Hp; apply NoDup_fst_map_to_list).
  split; [done|]. rewrite (list_to_map_proper _ _ Hnd Hp). apply list_to_map_to_list.
Qed.
Lemma print_args_head l f : f "?"%char = false → starts f (print_args "?" l) = false.
Proof. by destruct l as [|[x y] l]. Qed.
Lemma at_end_char k c s : position.at_end (at_ k (String c s)) = false.
Proof. done. Qed.

Lemma parse_url_run t p (m : gmap string string) l k fuel :
  is_identifier t = true → plain_path p = true → NoDup l.*1 → list_to_map l = m →
  Forall (λ x, is_identifier x.1 = true ∧ plain_value x.2 = true) l → (length l < S (S fuel))%nat →
  ∃ k', parse_url (S (S fuel)) (at_ k (t +:+ "://" +:+ p +:+ print_args "?" l)) = (Ret (mk_url t p m), at_ k' "").
Proof.
  intros Ht Hp Hnd Hm Hok Hlen. set (k1 := (k + String.length t + 3)%nat).
  destruct (parse_path_run p k1 (print_args "?" l) Hp) with (fuel := fuel) as [k2 Hpath]; [by apply print_args_head..|].
  destruct (parse_args_run (S (S fuel)) l "?" ∅ k2) as [k3 Hargs]; [done|by left|done| |done|].
  { apply Forall_forall. intros x _. apply lookup_empty. }
  rewrite foldl_insert, map_union_empty, Hm in Hargs; [|done|apply Forall_forall; intros x _; apply lookup_empty].
  destruct (decide (p +:+ print_args "?" l = "")) as [E|E].
  - assert (p = "" ∧ l = []) as [-> ->].
    { destruct p; [|by rewrite string_app_cons in E]. rewrite string_app_nil_l in E. by destruct l as [|[x y] l]. }
    exists k1. unfold parse_url. eapply bind_run; [by apply identifier_run|]. rewrite bind_get.
    simpl in Hm. subst m. unfold position.at_end at 1. rewrite bool_decide_false by done.
    eapply bind_run; [apply (require_string_run "://" _ "")|]. done.
  - exists k3. unfold parse_url. eapply bind_run; [by apply identifier_run|]. rewrite bind_get. cbn [position.at_end].
    unfold position.at_end. rewrite bool_decide_false by done.
    eapply bind_run; [apply (require_string_run "://")|]. rewrite bind_get. unfold position.at_end. cbn [position.rest].
    rewrite bool_decide_false by done. rewrite looking_at_starts.
    assert (starts (λ c, is_char "/" c || is_char "?" c) (p +:+ print_args "?" l) = true) as ->.
    { destruct p as [|c p]; [rewrite string_app_nil_l in *; by destruct l as [|[x y] l]|].
      rewrite string_app_cons. simpl in Hp |- *. apply andb_true_iff in Hp as [-> _]. done. }
    eapply bind_run; [done|]. eapply bind_run; [exact Hpath|]. eapply bind_run; [exact Hargs|]. done.
Qed.

(** ** The texts of clients *)
Lemma decimal_value s n : all_chars char.isdigit s = true → decimal n s = Some (value num.dec n s).
Proof.
  revert n. induction s as [|c s IH]; intros n Hs; [done|]. cbn [all_chars] in Hs. apply andb_true_iff in Hs as [Hc Hs].
  cbn [decimal value]. rewrite Hc, IH by done. do 2 f_equal. cbn [num.radix num.val num.dec]. unfold num.digit, char.code.
  change (Z.of_nat (nat_of_ascii "0")) with 48. lia.
Qed.
Lemma show_natural z : 0 ≤ z → show.integer z = show.natural z.
Proof. intros Hz. unfold show.integer. by rewrite (proj2 (Z.ltb_ge _ _)). Qed.
Lemma lexical_cast_show z : 0 ≤ z < two64 → lexical_cast (show.integer z) = Ret z.
Proof.
  intros Hz. rewrite show_natural by lia. destruct (natural_spec z) as (Hne & Hall & Hval); [lia|]. unfold lexical_cast.
  pose proof (decimal_value _ 0 Hall) as Hd. rewrite Hval in Hd. destruct (show.natural z) as [|c s]; [done|]. rewrite Hd.
  by rewrite (proj2 (Z.ltb_lt _ _)) by lia.
Qed.
Lemma plain_value_show z : 0 ≤ z → plain_value (show.integer z) = true.
Proof.
  intros Hz. rewrite show_natural by done. destruct (natural_spec z Hz) as (Hne & Hall & _). unfold plain_value.
  assert (∀ c, char.isdigit c = true → isalnum c = true) as Hi by (intros c Hc; unfold isalnum; by rewrite Hc, orb_true_r).
  destruct (show.natural z) as [|c s]; [done|]. cbn [all_chars starts] in *. apply andb_true_iff in Hall as [Hc Hs].
  rewrite Hi by done. simpl. clear Hne. induction s as [|c' s IH]; [done|]. cbn [all_chars] in *. apply andb_true_iff in Hs as [Hc' Hs].
  rewrite Hi by done. by apply IH.
Qed.
Definition gaspi_url (size communication_buffer_size num_communication_buffers : Z) : url_t :=
  mk_url "gaspi" "" {[ "total_size" := show.integer size; "buffer_size" := show.integer communication_buffer_size;
    "buffers" := show.integer num_communication_buffers ]}.
Lemma make_gaspi_info size bs nb : 0 ≤ size → 0 ≤ bs → 0 ≤ nb → make (gaspi_info size bs nb) = Ret (gaspi_url size bs nb).
Proof.
  intros H1 H2 H3. set (l := [("total_size", show.integer size); ("buffer_size", show.integer bs); ("buffers", show.integer nb)]).
  assert (E : gaspi_info size bs nb = "gaspi" +:+ "://" +:+ "" +:+ print_args "?" l).
  { unfold gaspi_info. cbn [print_args l]. by rewrite string_app_nil_r. }
  assert (Hok : Forall (λ x, is_identifier x.1 = true ∧ plain_value x.2 = true) l).
  { repeat constructor; try done; by apply plain_value_show. }
  unfold make. rewrite E. clear E.
  destruct (parse_url_run "gaspi" "" (args (gaspi_url size bs nb)) l 0 (Nat.pred (String.length ("gaspi" +:+ "://" +:+ "" +:+ print_args "?" l)))) as [k Hrun];
    [done|done| |done|done| |].
  - by apply (bool_decide_unpack _).
  - rewrite !string_app_length. pose proof (print_args_length "?" l). simpl in *. lia.
  - rewrite Nat.succ_pred in Hrun; [unfold position.make; by rewrite Hrun|]. rewrite !string_app_length. simpl. lia.
Qed.

(** ** Only plain arguments are read *)
Lemma taken_satisfy f s : all_chars f (take_while f s) = true.
Proof. induction s as [|c s IH]; [done|]. simpl. destruct (f c) eqn:Hc; [|done]. simpl. by rewrite Hc. Qed.
Lemma identifier_reads p s q : identifier p = (Ret s, q) → is_identifier s = true.
Proof.
  unfold identifier, looking_at, position.current. destruct (position.rest p) as [|c r]; [done|].
  destruct (id_start c) eqn:Hc; [|done]. assert (is_identifier (take_while id_char (String c r)) = true) as Hi.
  { unfold is_identifier. rewrite taken_satisfy, andb_true_r. simpl. unfold id_char at 1. by rewrite Hc. }
  by intros [= <- _].
Qed.
Lemma value_reads p s q : require_value p = (Ret s, q) → plain_value s = true.
Proof.
  unfold require_value, looking_at, position.current. destruct (position.rest p) as [|c r] eqn:Hr; [done|].
  destruct (negb (is_end_of_value c)) eqn:Hc; [|done]. assert (plain_value (take_while (λ c, negb (is_end_of_value c)) (String c r)) = true) as Hi.
  { unfold plain_value. rewrite (all_chars_ext isalnum (λ c, negb (is_end_of_value c))), taken_satisfy
      by (intros; unfold is_end_of_value; by rewrite negb_involutive).
    simpl. rewrite Hc. simpl. unfold is_end_of_value in Hc. rewrite negb_involutive in Hc. by rewrite Hc. }
  unfold until. rewrite Hr. by intros [= <- _].
Qed.
Definition plain_args : gmap string string → Prop :=
  map_Forall (λ key value, is_identifier key = true ∧ plain_value value = true).
Lemma parse_args_reads fuel sep m p m' q : parse_args fuel sep m p = (Ret m', q) → plain_args m → plain_args m'.
Proof.
  revert sep m p. induction fuel as [|fuel IH]; intros sep m p; [done|]. cbn [parse_args]. rewrite bind_get.
  destruct (position.at_end p); [by intros [= <- _]|].
  intros ([] & p1 & _ & (key & p2 & Hkey & ([] & p3 & _ & (v & p4 & Hv & Hrest)%bind_ret_inv)%bind_ret_inv)%bind_ret_inv)%bind_ret_inv Hm.
  destruct (m !! key); [done|]. apply (IH _ _ _ Hrest). apply map_Forall_insert_2; [|done].
  by apply identifier_reads in Hkey; apply value_reads in Hv.
Qed.
Lemma parse_url_reads fuel p u q : parse_url fuel p = (Ret u, q) → is_identifier (type u) = true ∧ plain_args (args u).
Proof.
  unfold parse_url. intros (t & p1 & Ht%identifier_reads & Hrest)%bind_ret_inv. rewrite bind_get in Hrest.
  destruct (position.at_end p1); [by injection Hrest as <- _|].
  apply bind_ret_inv in Hrest as ([] & p2 & _ & Hrest). rewrite bind_get in Hrest.
  destruct (position.at_end p2); [by injection Hrest as <- _|].
  apply bind_ret_inv in Hrest as (host & p3 & _ & (path & p4 & _ & (m & p5 & Hm & [= <- _])%bind_ret_inv)%bind_ret_inv).
  split; [done|]. by apply (parse_args_reads _ _ _ _ _ _ Hm).
Qed.

(** C31: A description of a segment without a host (its path is empty or starts with a slash and
    contains neither a question mark nor an ampersand) that [operator<<] writes is read back by
    the constructor from text as the same description if and only if its type and the names of
    its arguments are identifiers and the values are non-empty and consist of letters and digits
    only: a value with an underscore, which the message of the error allows, is not. *)
Theorem url_read_back (u : url_t) :
  plain_path (path u) = true → (make (show_url u) = Ret u ↔ is_identifier (type u) = true ∧ plain_args (args u)).
Proof.
  intros Hp. split.
  { unfold make. destruct (parse_url _ _) as [r q] eqn:Hrun. simpl. intros ->. by apply parse_url_reads in Hrun. }
  destruct u as [t p m]. intros (Ht & Hargs). simpl in *. destruct (sorted_args_spec m) as [Hnd Hm].
  unfold make, show_url. cbn [type path args]. set (l := merge_sort key_le (map_to_list m)) in *.
  assert (Hok : Forall (λ x, is_identifier x.1 = true ∧ plain_value x.2 = true) l).
  { unfold l. rewrite merge_sort_Permutation. apply Forall_forall. intros [x y] Hx%elem_of_map_to_list. by apply (Hargs x y). }
  destruct (parse_url_run t p m l 0 (Nat.pred (String.length (t +:+ "://" +:+ p +:+ print_args "?" l)))) as [k Hrun]; [done..| |].
  - rewrite !string_app_length. pose proof (print_args_length "?" l). simpl. lia.
  - rewrite Nat.succ_pred in Hrun; [unfold position.make; by rewrite Hrun|]. rewrite !string_app_length. simpl. lia.
Qed.
Definition example_url : url_t :=
  mk_url "beegfs" "/scratch/data" {[ "total_size" := "1024"; "buffers" := "8" ]}.
Definition underscore_url : url_t := mk_url "beegfs" "/scratch" {[ "name" := "my_data" ]}.
Lemma url_read_back_witness : make (show_url example_url) = Ret example_url ∧ make (show_url underscore_url) ≠ Ret underscore_url.
Proof.
  split.
  - apply (url_read_back example_url); [done|]. split; [done|]. cbn [args example_url].
    apply map_Forall_insert_2; [done|]. by apply map_Forall_singleton.
  - intros [_ Hv]%(url_read_back underscore_url); [|done]. unfold plain_args in Hv. cbn [args underscore_url] in Hv.
    apply map_Forall_singleton in Hv as [_ [=]].
Defined.
End vmem_url.
