(* ===== verification/VmemArea.v ===== *)
(** * Areas of the virtual memory

    [gpi-space/pc/memory/memory_area.cpp] with its three kinds of areas
    ([gaspi_area.cpp], [shm_area.cpp], [beegfs_area.cpp]): allocations in a segment, which the
    memory manager of [mmgr] places, their bounds, where a part of an allocation is, and the
    processes that use a segment.

    An area keeps its part of the segment as a function from offsets to bytes; what virtual
    member functions do is selected by the type of the area.  Time stamps are left out. *)

From S2P Require Import Prelude Value Token Function Position ReadShow Tokenizer Expr Parser ModuleCall Net NetFire ModuleRun Mmgr VmemHandle.

Module vmem.
Local Open Scope Z_scope.
Import module_call module_run vmem_handle.

Definition GPI_PC_INVAL : Z := two64 - 1.

(** ** Descriptors ([handle_descriptor.hpp], [segment_descriptor.hpp]) *)
Record descriptor : Type := mk_descriptor {
  d_id : Z;
  d_segment : Z;
  d_offset : Z;
  d_size : Z;
  d_local_size : Z;
  d_nref : Z;
  d_name : string;
  d_creator : Z;
  d_flags : Z
}.
Definition set_offset (o : Z) (d : descriptor) : descriptor :=
  mk_descriptor (d_id d) (d_segment d) o (d_size d) (d_local_size d) (d_nref d) (d_name d) (d_creator d) (d_flags d).
Record location : Type := mk_location { l_handle : Z; l_offset : Z }.
(** [handle_buffer_t]: a buffer for communication, at an offset of the own part of the segment *)
Record handle_buffer : Type := mk_handle_buffer { b_handle : Z; hb_size : Z; b_data : Z }.

Record area : Type := mk_area {
  a_type : Z;
  a_id : Z;
  a_creator : Z;
  a_name : string;
  a_local_size : Z;
  a_avail : Z;
  a_allocs : Z;
  a_nref : Z;
  a_flags : Z;
  m_mmgr : dtmmgr.type;
  m_handles : gmap Z descriptor;
  m_attached_processes : gset Z;
  memory : Z → Z;
  m_com_handles : list handle_buffer
}.
Definition set_id (x : Z) (a : area) : area :=
  mk_area (a_type a) x (a_creator a) (a_name a) (a_local_size a) (a_avail a) (a_allocs a) (a_nref a) (a_flags a) (m_mmgr a) (m_handles a) (m_attached_processes a) (memory a) (m_com_handles a).
Definition set_counts (avail allocs : Z) (a : area) : area :=
  mk_area (a_type a) (a_id a) (a_creator a) (a_name a) (a_local_size a) avail allocs (a_nref a) (a_flags a) (m_mmgr a) (m_handles a) (m_attached_processes a) (memory a) (m_com_handles a).
Definition set_mmgr (x : dtmmgr.type) (a : area) : area :=
  mk_area (a_type a) (a_id a) (a_creator a) (a_name a) (a_local_size a) (a_avail a) (a_allocs a) (a_nref a) (a_flags a) x (m_handles a) (m_attached_processes a) (memory a) (m_com_handles a).
Definition set_handles (f : gmap Z descriptor → gmap Z descriptor) (a : area) : area :=
  mk_area (a_type a) (a_id a) (a_creator a) (a_name a) (a_local_size a) (a_avail a) (a_allocs a) (a_nref a) (a_flags a) (m_mmgr a) (f (m_handles a)) (m_attached_processes a) (memory a) (m_com_handles a).
Definition set_attached (nref : Z) (f : gset Z → gset Z) (a : area) : area :=
  mk_area (a_type a) (a_id a) (a_creator a) (a_name a) (a_local_size a) (a_avail a) (a_allocs a) nref (a_flags a) (m_mmgr a) (m_handles a) (f (m_attached_processes a)) (memory a) (m_com_handles a).
Definition set_memory (f : (Z → Z) → Z → Z) (a : area) : area :=
  mk_area (a_type a) (a_id a) (a_creator a) (a_name a) (a_local_size a) (a_avail a) (a_allocs a) (a_nref a) (a_flags a) (m_mmgr a) (m_handles a) (m_attached_processes a) (f (memory a)) (m_com_handles a).
Definition set_com_handles (f : list handle_buffer → list handle_buffer) (a : area) : area :=
  mk_area (a_type a) (a_id a) (a_creator a) (a_name a) (a_local_size a) (a_avail a) (a_allocs a) (a_nref a) (a_flags a) (m_mmgr a) (m_handles a) (m_attached_processes a) (memory a) (f (m_com_handles a)).

(** ** What depends on the type of the area *)
Definition grow_direction (type flags : Z) : dtmmgr.Arena_t :=
  if (type =? SEG_GASPI) && negb (is_set flags F_GLOBAL) then dtmmgr.ARENA_DOWN else dtmmgr.ARENA_UP.
(** gaspi segments are distributed, with the same size on every node *)
Definition get_local_size (type number_of_nodes size flags : Z) : Z :=
  if (type =? SEG_GASPI) && is_set flags F_GLOBAL then
    size / number_of_nodes + (if size mod number_of_nodes =? 0 then 0 else 1)
  else size.
Definition is_range_local (rank : Z) (a : area) (d : descriptor) (begin end_ : Z) : bool :=
  if a_type a =? SEG_GASPI then
    let my_rank := if is_set (d_flags d) F_GLOBAL then rank else 0 in
    let my_begin := w64 (my_rank * d_local_size d) in
    let my_end := w64 ((my_rank + 1) * d_local_size d) in
    let my_end := if d_size d <? my_end then d_size d else my_end in
    (my_begin <=? begin) && (end_ <=? my_end)
  else if a_type a =? SEG_SHM then
    (w64 (d_offset d + begin) <? a_local_size a) && (w64 (d_offset d + end_) <=? a_local_size a)
  else true.
(** the raw pointer to an offset, if there is one *)
Definition raw_ptr (a : area) (off : Z) : option Z :=
  if a_type a =? SEG_BEEGFS then None else if off <? a_local_size a then Some off else None.
Definition is_allowed_to_attach (proc : Z) (a : area) : bool :=
  if a_type a =? SEG_SHM then negb (is_set (a_flags a) F_EXCLUSIVE) || (proc =? a_creator a) else false.
(** which allocations other nodes are told about, and when they are released *)
Definition alloc_hook (type : Z) (d : descriptor) : bool :=
  if type =? SEG_GASPI then is_set (d_flags d) F_GLOBAL && negb (d_creator d =? GPI_PC_INVAL)
  else if type =? SEG_BEEGFS then negb (d_creator d =? GPI_PC_INVAL)
  else false.
Definition free_hook (type : Z) (d : descriptor) : bool :=
  if type =? SEG_GASPI then is_set (d_flags d) F_GLOBAL else type =? SEG_BEEGFS.

(** [interval::intersect] ([we/type/range.hpp]) *)
Definition intersect (x y : interval) : interval :=
  let left := if offset x <=? offset y then x else y in
  let right := if offset x <=? offset y then y else x in
  if offset right <? w64 (offset left + size left) then
    if w64 (offset right + size right) <? w64 (offset left + size left) then mk_interval (offset right) (size right)
    else mk_interval (offset right) (w64 (w64 (offset left + size left) - offset right))
  else mk_interval 0 0.
(** [get_transfer_costs], a double *)
Definition area_transfer_costs (a : area) (d : descriptor) (off size_ rank : Z) : SpecFloat.spec_float :=
  if a_type a =? SEG_GASPI then
    let local_part := intersect (mk_interval off size_) (mk_interval (w64 (rank * d_local_size d)) (d_local_size d)) in
    Float.add Float.binary64 (Float.of_Z Float.binary64 size_)
      (Float.mul Float.binary64 (Float.of_Z Float.binary64 1) (Float.of_Z Float.binary64 (w64 (size_ - size local_part))))
  else if a_type a =? SEG_BEEGFS then Float.of_Z Float.binary64 size_
  else Float.of_Z Float.binary64 0.

(** ** Allocation *)
Section area.
Context `{UnorderedMultiset} `{AssertMode}.
Abbreviation A := (M area exn).

(** what the memory manager throws and the area does not handle *)
Definition mmgr_exn (e : tmmgr.error) : exn :=
  match e with
  | tmmgr.unknown_handle h => runtime_error ("unknown handle " +:+ show.integer h)
  | tmmgr.assertion_failed c => logic_error ("assertion '" +:+ c +:+ "' failed.")
  | tmmgr.undefined_behaviour w => undefined w
  | _ => runtime_error "memory manager"
  end.
Definition on_mmgr {X} (f : tmmgr.error → exn) (m : M dtmmgr.type tmmgr.error X) : A X :=
  λ a, let '(o, t) := m (m_mmgr a) in (match o with Ret x => Ret x | Throw e => Throw (f e) end, set_mmgr t a).

Definition update_descriptor_from_mmgr : A unit :=
  modify (λ a, set_counts (dtmmgr.memfree (m_mmgr a))
    (Z.of_nat (dtmmgr.numhandle dtmmgr.ARENA_UP (m_mmgr a) + dtmmgr.numhandle dtmmgr.ARENA_DOWN (m_mmgr a))) a).
(** the constructor, with what [reinit] does *)
Definition make_area (type creator : Z) (name : string) (size_ flags : Z) : area :=
  (update_descriptor_from_mmgr
     (mk_area type GPI_PC_INVAL creator name size_ size_ 0 0 flags (dtmmgr.make size_ 1) ∅ ∅ (λ _, 0) [])).2.

Definition alloc_exn (d : descriptor) (a : area) (e : tmmgr.error) : exn :=
  let tail := " segment = " +:+ show.integer (a_id a) +:+ " avail = " +:+ show.integer (a_avail a) in
  match e with
  | tmmgr.insufficient_contiguous_memory _ _ _ _ =>
      runtime_error ("not enough contiguous memory available: requested_size = " +:+ show.integer (d_local_size d) +:+ tail)
  | tmmgr.insufficient_memory _ _ _ _ =>
      runtime_error ("not enough memory: requested_size = " +:+ show.integer (d_local_size d) +:+ tail)
  | tmmgr.duplicate_handle _ =>
      runtime_error ("duplicate handle: handle = " +:+ show.integer (d_id d) +:+ " segment " +:+ show.integer (a_id a))
  | e => mmgr_exn e
  end.
(** [internal_alloc], without the hook *)
Definition reserve (d : descriptor) : A descriptor :=
  a ← get;
  if a_avail a <? d_local_size d then
    throw (runtime_error ("out of memory: total size = " +:+ show.integer (d_size d) +:+ " local size = " +:+
      show.integer (d_local_size d) +:+ " segment = " +:+ show.integer (a_id a) +:+ " avail = " +:+ show.integer (a_avail a)))
  else
    '(offset, _) ← on_mmgr (alloc_exn d a) (dtmmgr.alloc (d_id d) (grow_direction (a_type a) (d_flags d)) (d_local_size d));
    mret (set_offset offset d).
Definition unreserve (d : descriptor) : A unit :=
  a ← get; on_mmgr mmgr_exn (dtmmgr.free (d_id d) (grow_direction (a_type a) (d_flags d))).
Definition commit (d : descriptor) : A unit :=
  update_descriptor_from_mmgr ≫= λ _, modify (set_handles (<[d_id d := d]>)).

(** [remote_alloc]: what another node has allocated has to get the same place here *)
Definition area_remote_alloc (hdl offset size_ local_size : Z) (name : string) : A unit :=
  a ← get;
  d ← reserve (mk_descriptor hdl (a_id a) offset size_ local_size 0 name GPI_PC_INVAL F_GLOBAL);
  if d_offset d =? offset then commit d
  else
    unreserve d ≫= λ _,
    throw (runtime_error ("remote_alloc failed: offset mismatch: expected = " +:+ show.integer offset +:+ " actual = " +:+
      show.integer (d_offset d))).

Definition no_such_handle (hdl : Z) (a : area) : exn :=
  runtime_error ("no such handle: handle = " +:+ show.integer hdl +:+ " segment = " +:+ show.integer (a_id a)).
Definition forget (d : descriptor) (hdl : Z) : A unit :=
  a ← get;
  on_mmgr mmgr_exn (dtmmgr.free hdl (grow_direction (a_type a) (d_flags d))) ≫= λ _,
  modify (set_handles (delete hdl)) ≫= λ _,
  update_descriptor_from_mmgr.
(** [free], without the hook *)
Definition release (hdl : Z) : A descriptor :=
  a ← get;
  match m_handles a !! hdl with
  | None => throw (no_such_handle hdl a)
  | Some d =>
      if d_nref d =? 0 then forget d hdl ≫= λ _, mret d
      else throw (runtime_error ("handle still in use: handle = " +:+ show.integer hdl +:+ " nref = " +:+ show.integer (d_nref d)))
  end.
Definition area_remote_free (hdl : Z) : A unit :=
  a ← get;
  match m_handles a !! hdl with
  | None => throw (no_such_handle hdl a)
  | Some d => forget d hdl
  end.

(** ** Processes *)
Definition in_use (a : area) : bool := 0 <? a_nref a.
Definition area_attach_process (id : Z) : A unit :=
  a ← get;
  if is_allowed_to_attach id a then
    if decide (id ∈ m_attached_processes a) then mret tt
    else modify (λ a, set_attached (w64 (a_nref a + 1)) ({[id]} ∪.) a)
  else throw (runtime_error "permission denied, exclusive segment and you are not the owner").
Definition area_detach_process (id : Z) : A unit :=
  a ← get;
  if decide (id ∈ m_attached_processes a) then modify (λ a, set_attached (w64 (a_nref a - 1)) (.∖ {[id]}) a)
  else mret tt.

(** ** Access *)
Definition find_handle (hdl : Z) (what : exn) (a : area) : outcome exn descriptor := or_throw what (m_handles a !! hdl).
Definition descriptor_of (hdl : Z) (a : area) : outcome exn descriptor :=
  find_handle hdl (runtime_error ("cannot find descriptor for handle " +:+ show.integer hdl)) a.
Definition check_bounds (loc : location) (size_ : Z) (a : area) : outcome exn unit :=
  d ← find_handle (l_handle loc) (invalid_argument "check_bounds: no such handle") a;
  if (l_offset loc <? d_size d) && (w64 (l_offset loc + size_) <=? d_size d) then Ret tt
  else Throw (invalid_argument ("out-of-bounds: access to " +:+ show_handle (d_id d) +:+ "-handle " +:+ d_name d +:+ ": range [" +:+
    show.integer (l_offset loc) +:+ "," +:+ show.integer (w64 (l_offset loc + size_)) +:+ ") is not withing [0," +:+
    show.integer (d_size d) +:+ ")")).
Definition is_local (rank : Z) (loc : location) (amount : Z) (a : area) : outcome exn bool :=
  d ← find_handle (l_handle loc) (runtime_error "is_local(): no such handle") a;
  Ret (is_range_local rank a d (l_offset loc) (w64 (l_offset loc + amount))).
Definition location_to_offset (loc : location) (a : area) : outcome exn Z :=
  d ← find_handle (l_handle loc) (runtime_error ("location_to_offset(): no such handle: " +:+ show_handle (l_handle loc))) a;
  if d_local_size d =? 0 then Throw (undefined "division by zero")
  else Ret (w64 (d_offset d + l_offset loc mod d_local_size d)).
Definition pointer_to (loc : location) (a : area) : outcome exn (option Z) :=
  off ← location_to_offset loc a; Ret (raw_ptr a off).
End area.
End vmem.
