(* ===== verification/VmemAreaSpec.v ===== *)
(** * Allocations of an area

    The table of handles of an area and the memory manager behind it agree: every descriptor
    is the block that the manager has for the handle, inside the area and apart from all other
    allocations.  An allocation and a release change the arena they use and nothing else of
    the other one but its size. *)

From S2P Require Import Prelude Value Token Function Position ReadShow Tokenizer Expr Parser ModuleCall Net NetFire ModuleRun Mmgr MmgrLayout MmgrSpec MmgrSafe VmemHandle VmemArea.

Module area_spec.
Local Open Scope Z_scope.
Import layout MmgrSpec Allocator vmem_handle vmem.

#[global] Instance Arena_t_eq_dec : EqDecision dtmmgr.Arena_t.
Proof. solve_decision. Defined.

Section mmgr.
Context `{UnorderedMultiset} `{AssertMode}.

(** ** One arena *)
Lemma alloc_handles t l h size o n t' :
  rep t l → 0 < size → size + tmmgr.align t ≤ two64 → tmmgr.alloc h size t = (Ret (o, n), t') →
  n = tmmgr.alignUp size (tmmgr.align t) ∧ tmmgr.handle_to_offset_and_size t !! h = None ∧
  tmmgr.handle_to_offset_and_size t' = <[h := (o, n)]> (tmmgr.handle_to_offset_and_size t).
Proof.
  intros Hrep Hs1 Hs2 Ha. pose proof (alloc_spec t l h size Hrep Hs1 Hs2) as Hspec. rewrite Ha in Hspec.
  destruct Hspec as (Hn & Hh & _ & l' & (l1 & m & l2 & -> & -> & Hle & _ & ->) & Hrep'). rewrite <- Hn in *.
  assert (tmmgr.handle_to_offset_and_size t !! h = None) as Hnone.
  { apply eq_None_not_Some. intros [[x y] Hx%(rep_handle _ _ Hrep)]. apply Hh. apply (elem_of_handles _ _ 0). eauto. }
  split_and!; [done|done|]. apply map_eq. intros h'. apply option_eq. intros [x y].
  rewrite (rep_handle _ _ Hrep'). pose proof (wf_positive _ _ (rep_wf _ _ Hrep)) as Hpos.
  pose proof (wf_positive _ _ (rep_wf _ _ Hrep')) as Hpos'. 
  rewrite (replace_segs l1 [Free m] (Used h n :: free_seg (m - n)) l2 (x, Used h' y)); [|done|left; simpl; rewrite total_free_seg by lia; lia].
  cbn [segs]. rewrite <- (rep_handle _ _ Hrep).
  assert (∀ z, (x, Used h' y) ∉ segs z (free_seg (m - n))) as Hno.
  { intros z. unfold free_seg. destruct (0 <? m - n); simpl; [by intros [= ]%list_elem_of_singleton|by intros ?%elem_of_nil]. }
  split.
  - intros [[Hold _]|[[= -> -> ->]|?]%elem_of_cons]; [|by rewrite lookup_insert_eq|by destruct (Hno (total l1 + n))].
    rewrite lookup_insert_ne; [done|]. intros ->. congruence.
  - intros [(-> & [= <- <-])|(Hne & Hold)]%lookup_insert_Some; [right; by left|]. left. split; [done|].
    by intros [= ]%list_elem_of_singleton.
Qed.
Lemma free_handles t l h t' :
  rep t l → tmmgr.free h t = (Ret tt, t') →
  is_Some (tmmgr.handle_to_offset_and_size t !! h) ∧ tmmgr.handle_to_offset_and_size t' = delete h (tmmgr.handle_to_offset_and_size t).
Proof.
  intros Hrep Hf. pose proof (free_spec t l h Hrep) as Hspec. rewrite Hf in Hspec. destruct Hspec as (_ & l' & (l1 & n & l2 & -> & Hl') & Hrep').
  destruct (strip_right l1) as [k1 a] eqn:Hr, (strip_left l2) as [b k2] eqn:Hs.
  pose proof (wf_positive _ _ (rep_wf _ _ Hrep)) as Hpos. pose proof (rep_wf _ _ Hrep) as Hwf.
  assert (tmmgr.handle_to_offset_and_size t !! h = Some (total l1, n)) as Hh by (apply (rep_handle _ _ Hrep); apply segs_middle_0).
  destruct (neighbourhood_split l1 h n l2 k1 a b k2) as (Heq & Ha & Hb & Ht & _); [done|apply (wf_separate _ _ Hwf)|done..|].
  split; [by eexists|]. apply map_eq. intros h'. apply option_eq. intros [x y]. rewrite (rep_handle _ _ Hrep'). subst l'.
  rewrite Heq in Hpos. pose proof (wf_positive _ _ (rep_wf _ _ Hrep')) as Hpos'.
  assert (0 < n) as Hn.
  { unfold neighbourhood in Hpos. rewrite !positive_app, positive_cons in Hpos. simpl in Hpos. lia. }
  assert (total (neighbourhood h a n b) = a + n + b) as Htn.
  { unfold neighbourhood. rewrite total_app, total_cons, !total_free_seg by lia. simpl. lia. }
  change (Free (a + n + b) :: k2) with ([Free (a + n + b)] ++ k2).
  rewrite (replace_segs k1 (neighbourhood h a n b) [Free (a + n + b)] k2 (x, Used h' y)); [|done|left; rewrite Htn; simpl; lia].
  rewrite <- Heq, <- (rep_handle _ _ Hrep), elem_of_neighbourhood by lia. rewrite lookup_delete_Some. split.
  - intros [[Hold Hno]|[= ]%list_elem_of_singleton]. split; [|done]. intros ->. apply Hno. right. left. rewrite Hh in Hold.
    injection Hold as <- <-. by rewrite Ht.
  - intros [Hne Hold]. left. split; [done|]. by intros [(_ & [=])|[[= _ ->]|(_ & [=])]].
Qed.

(** ** Both arenas *)
Lemma dt_alloc_spec a l k t h size :
  joint_at a l k t → 0 < size → size + tmmgr.align (dtmmgr.arena a t) ≤ two64 →
  match tmmgr.alloc h size (dtmmgr.arena a t) with
  | (Ret (o, n), x) => ∃ t', dtmmgr.alloc h a size t = (Ret (place t a o n, n), t') ∧ dtmmgr.arena a t' = x ∧
      dtmmgr.mem_size t' = dtmmgr.mem_size t ∧ tmmgr.align x = tmmgr.align (dtmmgr.arena a t) ∧
      tmmgr.handle_to_offset_and_size (dtmmgr.arena (dtmmgr.other a) t') = tmmgr.handle_to_offset_and_size (dtmmgr.arena (dtmmgr.other a) t) ∧
      ∃ l' k', joint_at a l' k' t' ∧ alloc_step h n o l l'
  | (Throw e, _) => dtmmgr.alloc h a size t = (Throw e, t)
  end.
Proof.
  intros Hj Hs1 Hs2. destruct (joint_at_rep _ _ _ _ Hj) as (Hl & _ & _ & Hsl & _ & Hms & _).
  pose proof (alloc_spec _ _ h size Hl Hs1 Hs2) as Hspec.
  destruct (tmmgr.alloc h size (dtmmgr.arena a t)) as [[[o n]|e] x] eqn:Halloc.
  2:{ destruct Hspec as [-> _]. unfold dtmmgr.alloc, mbind, M_bind, dtmmgr.on. rewrite Halloc. by destruct a, t. }
  destruct Hspec as (Hn & _ & Hax & l' & Hstep & Hrep'). rewrite <- Hn in Hstep. apply alloc_step_total in Hstep as Htot.
  destruct (resize_other_spec a l k t x l' Hj Hrep' Hax Htot) as (t' & k' & Hrun & Hj' & Hx & Hm & Hother).
  exists t'.
  assert ((o, Used h n) ∈ segs 0 l') as Ho by (destruct Hstep as (l1 & m & l2 & _ & -> & _ & _ & ->); apply segs_middle_0).
  pose proof (wf_positive _ _ (rep_wf _ _ Hrep')) as Hpos. pose proof (segs_bounds _ _ _ _ Hpos Ho) as (? & ? & ?). simpl in *.
  pose proof (high_bounds _ (wf_positive _ _ (rep_wf _ _ (proj1 (proj2 (joint_at_rep _ _ _ _ Hj)))))).
  split; [|by split_and!; eauto]. unfold dtmmgr.alloc, mbind at 1, M_bind at 1, dtmmgr.on at 1. rewrite Halloc.
  unfold mbind at 1, M_bind at 1. rewrite Hrun. destruct a; simpl; [done|].
  rewrite bind_get. unfold dtmmgr.on, tmmgr.fhg_assert, w64. rewrite Hm.
  rewrite (Z.mod_small (o + n)), (proj2 (Z.leb_le _ _)), andb_false_r by lia.
  rewrite Z.mod_small by lia. unfold mbind, M_bind, mret, M_ret.
  by replace (dtmmgr.set_arena dtmmgr.ARENA_DOWN (dtmmgr.arena dtmmgr.ARENA_DOWN t') t') with t' by (by destruct t').
Qed.
Lemma dt_free_spec a l k t h :
  joint_at a l k t →
  match tmmgr.free h (dtmmgr.arena a t) with
  | (Ret _, x) => ∃ t', dtmmgr.free h a t = (Ret tt, t') ∧ dtmmgr.arena a t' = x ∧
      dtmmgr.mem_size t' = dtmmgr.mem_size t ∧ tmmgr.align x = tmmgr.align (dtmmgr.arena a t) ∧
      tmmgr.handle_to_offset_and_size (dtmmgr.arena (dtmmgr.other a) t') = tmmgr.handle_to_offset_and_size (dtmmgr.arena (dtmmgr.other a) t) ∧
      ∃ l' k', joint_at a l' k' t'
  | (Throw e, _) => dtmmgr.free h a t = (Throw e, t)
  end.
Proof.
  intros Hj. destruct (joint_at_rep _ _ _ _ Hj) as (Hl & _). pose proof (free_spec _ _ h Hl) as Hspec.
  destruct (tmmgr.free h (dtmmgr.arena a t)) as [[[]|e] x] eqn:Hrun.
  2:{ destruct Hspec as [-> _]. unfold dtmmgr.free, mbind, M_bind, dtmmgr.on. rewrite Hrun. by destruct a, t. }
  destruct Hspec as (Hax & l' & Hstep & Hrep'). pose proof (free_step_total _ _ _ _ (rep_wf _ _ Hl) Hstep) as Htot.
  destruct (resize_other_spec a l k t x l' Hj Hrep' Hax Htot) as (t' & k' & Hresize & Hj' & Hx & Hm & Hother).
  exists t'. split; [|by split_and!; eauto]. unfold dtmmgr.free, mbind at 1, M_bind at 1, dtmmgr.on at 1. by rewrite Hrun.
Qed.
Lemma alignUp_1 size : 0 < size → size + 1 ≤ two64 → tmmgr.alignUp size 1 = size.
Proof.
  intros Hs Hle. unfold tmmgr.alignUp, tmmgr.alignDown, tmmgr.wnot. change (w64 (1 - 1)) with 0.
  replace (two64 - 1 - 0) with (Z.ones 64) by reflexivity. rewrite Z.land_ones by lia. change (2 ^ 64) with two64. unfold w64.
  destruct (Z.eq_dec (size + 1) two64) as [E|E].
  - rewrite E. change (two64 mod two64) with 0. replace size with (two64 - 1) by lia. reflexivity.
  - rewrite (Z.mod_small (size + 1)) by lia. replace (size + 1 - 1) with size by lia. by rewrite !(Z.mod_small size) by lia.
Qed.

(** ** The table of handles *)
Definition dir (a : area) (d : descriptor) : dtmmgr.Arena_t := grow_direction (a_type a) (d_flags d).
Record area_ok (a : area) : Prop := {
  ao_joint : ∃ lu ld, joint lu ld (m_mmgr a);
  ao_align : tmmgr.align (dtmmgr.up (m_mmgr a)) = 1;
  ao_size : dtmmgr.mem_size (m_mmgr a) = a_local_size a;
  ao_avail : a_avail a = dtmmgr.memfree (m_mmgr a);
  ao_table : ∀ h d, m_handles a !! h = Some d →
    d_id d = h ∧ d_nref d = 0 ∧
    ∃ o, block_at (m_mmgr a) (dir a d) h o (d_local_size d) ∧ d_offset d = place (m_mmgr a) (dir a d) o (d_local_size d);
  ao_blocks : ∀ x h o n, block_at (m_mmgr a) x h o n → ∃ d, m_handles a !! h = Some d ∧ dir a d = x
}.
(** descriptors are inside the area and apart *)
Lemma table_within a h d : area_ok a → m_handles a !! h = Some d → 0 ≤ d_offset d ∧ 0 < d_local_size d ∧ d_offset d + d_local_size d ≤ a_local_size a.
Proof.
  intros Ha Hd. destruct (ao_table _ Ha h d Hd) as (_ & _ & o & Hb & ->). destruct (ao_joint _ Ha) as (lu & ld & Hj).
  destruct (joint_disjoint lu ld _ Hj) as [Hin _]. specialize (Hin _ _ _ _ Hb). rewrite <- (ao_size _ Ha). done.
Qed.
Lemma table_apart a h d h' d' :
  area_ok a → m_handles a !! h = Some d → m_handles a !! h' = Some d' → h ≠ h' →
  d_offset d + d_local_size d ≤ d_offset d' ∨ d_offset d' + d_local_size d' ≤ d_offset d.
Proof.
  intros Ha Hd Hd' Hne. destruct (ao_table _ Ha h d Hd) as (_ & _ & o & Hb & ->). destruct (ao_table _ Ha h' d' Hd') as (_ & _ & o' & Hb' & ->).
  destruct (ao_joint _ Ha) as (lu & ld & Hj). destruct (joint_disjoint lu ld _ Hj) as [_ Hdis].
  destruct (Hdis _ _ _ _ _ _ _ _ Hb Hb') as [[_ ?]|?]; done.
Qed.
Lemma joint_arena a x : area_ok a → ∃ l k, joint_at x l k (m_mmgr a) ∧ tmmgr.align (dtmmgr.arena x (m_mmgr a)) = 1.
Proof.
  intros Ha. destruct (ao_joint _ Ha) as (lu & ld & Hj). pose proof (ao_align _ Ha) as Hal.
  destruct x; [exists lu, ld|exists ld, lu]; simpl; split; try done. rewrite <- (joint_align _ _ _ Hj). done.
Qed.
Lemma joint_of x l k t : joint_at x l k t → ∃ lu ld, joint lu ld t.
Proof. destruct x; simpl; eauto. Qed.

(** ** Operations of an area *)
Definition recount (a : area) : area := (update_descriptor_from_mmgr a).2.
Definition with_alloc (t : dtmmgr.type) (d : descriptor) (a : area) : area := set_handles (<[d_id d := d]>) (recount (set_mmgr t a)).
Definition without (t : dtmmgr.type) (h : Z) (a : area) : area := recount (set_handles (delete h) (set_mmgr t a)).
Lemma set_mmgr_id a : set_mmgr (m_mmgr a) a = a.
Proof. by destruct a. Qed.
Lemma commit_run d t a : commit d (set_mmgr t a) = (Ret tt, with_alloc t d a).
Proof. done. Qed.
Lemma alloc_ret_free t h size r t' : tmmgr.alloc h size t = (Ret r, t') → tmmgr.alignUp size (tmmgr.align t) ≤ tmmgr.mem_free t.
Proof. unfold tmmgr.alloc. rewrite bind_get. destruct (Z.ltb_spec (tmmgr.mem_free t) (tmmgr.alignUp size (tmmgr.align t))); [done|lia]. Qed.

(** the manager has one more block *)
Record grown (x : dtmmgr.Arena_t) (h o n : Z) (t t' : dtmmgr.type) : Prop := {
  gr_joint : ∃ lu ld, joint lu ld t';
  gr_align : tmmgr.align (dtmmgr.up t') = tmmgr.align (dtmmgr.up t);
  gr_size : dtmmgr.mem_size t' = dtmmgr.mem_size t;
  gr_new : ∀ o n, ¬ block_at t x h o n;
  gr_blocks : ∀ y h' o' n', block_at t' y h' o' n' ↔ (y = x ∧ h' = h ∧ o' = o ∧ n' = n) ∨ block_at t y h' o' n'
}.
Lemma place_size t t' x o n : dtmmgr.mem_size t' = dtmmgr.mem_size t → place t' x o n = place t x o n.
Proof. destruct x; simpl; intros; congruence. Qed.
Lemma dt_align x l k t : joint_at x l k t → tmmgr.align (dtmmgr.arena x t) = tmmgr.align (dtmmgr.up t).
Proof. destruct x; simpl; [done|]. intros Hj. symmetry. apply (joint_align _ _ _ Hj). Qed.
Lemma dt_alloc_grown x l k t h size o n y :
  joint_at x l k t → 0 < size → size + tmmgr.align (dtmmgr.arena x t) ≤ two64 →
  tmmgr.alloc h size (dtmmgr.arena x t) = (Ret (o, n), y) →
  ∃ t', dtmmgr.alloc h x size t = (Ret (place t x o n, n), t') ∧ dtmmgr.arena x t' = y ∧ grown x h o n t t' ∧
    n = tmmgr.alignUp size (tmmgr.align (dtmmgr.up t)).
Proof.
  intros Hj Hs1 Hs2 Hrun. pose proof (dt_alloc_spec x l k t h size Hj Hs1 Hs2) as Hspec. rewrite Hrun in Hspec.
  destruct Hspec as (t' & Halloc & Hx & Hm & Hal' & Hother & l' & k' & Hj' & _). exists t'.
  destruct (alloc_handles (dtmmgr.arena x t) l h size o n y) as (Hn & Hnone & Hmap); [by apply joint_at_rep in Hj as [? _]|done..|].
  rewrite (dt_align _ _ _ _ Hj) in Hn. split_and!; [done..| |done]. split.
  - by apply (joint_of _ _ _ _ Hj').
  - rewrite <- (dt_align _ _ _ _ Hj), <- (dt_align _ _ _ _ Hj'). congruence.
  - done.
  - intros o' n'. unfold block_at. by rewrite Hnone.
  - intros z h' o' n'. unfold block_at. destruct (decide (z = x)) as [->|Hy].
    + rewrite Hx, Hmap, lookup_insert_Some. split.
      * intros [[<- [= -> ->]]|[_ ?]]; auto.
      * intros [(_ & -> & -> & ->)|Hb]; [by left|]. right. split; [|done]. intros <-. congruence.
    + assert (z = dtmmgr.other x) as -> by (by destruct z, x). rewrite Hother. split; [by right|]. by intros [(? & _)|?].
Qed.
Lemma with_alloc_ok a d o t' :
  area_ok a → grown (dir a d) (d_id d) o (d_local_size d) (m_mmgr a) t' → d_nref d = 0 →
  d_offset d = place (m_mmgr a) (dir a d) o (d_local_size d) → m_handles a !! d_id d = None → area_ok (with_alloc t' d a).
Proof.
  intros Ha [Gj Ga Gs Gn Gb] Hn Ho Hfresh. split; simpl; try done.
  - rewrite Ga. apply Ha.
  - rewrite Gs. apply Ha.
  - intros h d0 [[<- <-]|[Hne Hd0]]%lookup_insert_Some.
    + split_and!; [done..|]. exists o. change (dir (with_alloc t' d a) d) with (dir a d). rewrite Gb, (place_size (m_mmgr a)) by done. split; [by left|done].
    + destruct (ao_table _ Ha h d0 Hd0) as (Hid & Hn0 & o0 & Hb & Ho0). split_and!; [done..|]. exists o0.
      change (dir (with_alloc t' d a) d0) with (dir a d0). rewrite Gb, (place_size (m_mmgr a)) by done. split; [by right|done].
  - intros x h o' n' [(-> & -> & -> & ->)|Hb]%Gb; [exists d; by rewrite lookup_insert_eq|].
    destruct (ao_blocks _ Ha x h o' n' Hb) as (d0 & Hd0 & Hx). exists d0. rewrite lookup_insert_ne; [done|]. congruence.
Qed.
Lemma reserve_run a d :
  area_ok a → 0 < d_local_size d → d_local_size d + 1 ≤ two64 →
  match tmmgr.alloc (d_id d) (d_local_size d) (dtmmgr.arena (dir a d) (m_mmgr a)) with
  | (Ret (o, n), x) => n = d_local_size d ∧ ∃ t', reserve d a = (Ret (set_offset (place (m_mmgr a) (dir a d) o n) d), set_mmgr t' a) ∧
      dtmmgr.arena (dir a d) t' = x ∧ grown (dir a d) (d_id d) o n (m_mmgr a) t' ∧
      dtmmgr.alloc (d_id d) (dir a d) (d_local_size d) (m_mmgr a) = (Ret (place (m_mmgr a) (dir a d) o n, n), t')
  | (Throw _, _) => ∃ text, reserve d a = (Throw (runtime_error text), a)
  end.
Proof.
  intros Ha Hpos Hle. destruct (joint_arena a (dir a d) Ha) as (l & k & Hj & Hal).
  assert (Hle' : d_local_size d + tmmgr.align (dtmmgr.arena (dir a d) (m_mmgr a)) ≤ two64) by (by rewrite Hal).
  unfold reserve. rewrite bind_get. destruct (tmmgr.alloc _ _ _) as [[[o n]|e] x] eqn:Hrun.
  - destruct (dt_alloc_grown _ _ _ _ _ _ _ _ _ Hj Hpos Hle' Hrun) as (t' & Halloc & Hx & Hg & Hn).
    rewrite (ao_align _ Ha), alignUp_1 in Hn by done. split; [done|]. exists t'. split_and!; [|done..].
    pose proof (alloc_ret_free _ _ _ _ _ Hrun) as Hfree. rewrite Hal, alignUp_1 in Hfree by done.
    rewrite (proj2 (Z.ltb_ge _ _)).
    + unfold on_mmgr, mbind, M_bind. unfold dir in Halloc. by rewrite Halloc.
    + rewrite (ao_avail _ Ha). unfold dtmmgr.memfree, tmmgr.memfree. destruct (dir a d); simpl in *; lia.
  - pose proof (dt_alloc_spec _ _ _ _ (d_id d) (d_local_size d) Hj Hpos Hle') as Hspec. rewrite Hrun in Hspec.
    pose proof (alloc_spec _ l (d_id d) (d_local_size d) (proj1 (joint_at_rep _ _ _ _ Hj)) Hpos Hle') as He. rewrite Hrun in He.
    destruct (a_avail a <? d_local_size d); [by eexists|]. unfold on_mmgr, mbind, M_bind. unfold dir in Hspec. rewrite Hspec, set_mmgr_id.
    destruct He as [_ [[-> _]|[[-> _]|[-> _]]]]; by eexists.
Qed.

(** the manager has one block less *)
Record shrunk (x : dtmmgr.Arena_t) (h : Z) (t t' : dtmmgr.type) : Prop := {
  sh_joint : ∃ lu ld, joint lu ld t';
  sh_align : tmmgr.align (dtmmgr.up t') = tmmgr.align (dtmmgr.up t);
  sh_size : dtmmgr.mem_size t' = dtmmgr.mem_size t;
  sh_blocks : ∀ y h' o n, block_at t' y h' o n ↔ block_at t y h' o n ∧ ¬ (y = x ∧ h' = h)
}.
Lemma dt_free_shrunk x l k t h o n :
  joint_at x l k t → block_at t x h o n →
  ∃ t' y, tmmgr.free h (dtmmgr.arena x t) = (Ret tt, y) ∧ dtmmgr.free h x t = (Ret tt, t') ∧ dtmmgr.arena x t' = y ∧ shrunk x h t t'.
Proof.
  intros Hj Hb. pose proof (dt_free_spec x l k t h Hj) as Hspec. destruct (joint_at_rep _ _ _ _ Hj) as (Hl & _).
  pose proof (free_spec _ _ h Hl) as Hfree. destruct (tmmgr.free h (dtmmgr.arena x t)) as [[[]|e] y] eqn:Hrun.
  2:{ destruct Hfree as (_ & _ & Hout). destruct Hout. apply (elem_of_handles _ _ 0). exists o, n. by apply (rep_handle _ _ Hl). }
  destruct Hspec as (t' & Ht' & Hx & Hm & Hal' & Hother & l' & k' & Hj'). exists t', y. split_and!; [done..|].
  destruct (free_handles _ l h y Hl Hrun) as [_ Hmap]. split.
  - by apply (joint_of _ _ _ _ Hj').
  - rewrite <- (dt_align _ _ _ _ Hj), <- (dt_align _ _ _ _ Hj'). congruence.
  - done.
  - intros z h' o' n'. unfold block_at. destruct (decide (z = x)) as [->|Hy].
    + rewrite Hx, Hmap, lookup_delete_Some. naive_solver.
    + assert (z = dtmmgr.other x) as -> by (by destruct z, x). rewrite Hother. naive_solver.
Qed.
Lemma without_ok a h d t' : area_ok a → m_handles a !! h = Some d → shrunk (dir a d) h (m_mmgr a) t' → area_ok (without t' h a).
Proof.
  intros Ha Hd [Sj Sa Ss Sb]. split; simpl; try done.
  - rewrite Sa. apply Ha.
  - rewrite Ss. apply Ha.
  - intros h0 d0 [Hne Hd0]%lookup_delete_Some. destruct (ao_table _ Ha h0 d0 Hd0) as (Hid & Hn0 & o0 & Hb & Ho0).
    split_and!; [done..|]. exists o0. change (dir (without t' h a) d0) with (dir a d0). rewrite Sb, (place_size (m_mmgr a)) by done.
    split; [|done]. split; [done|]. naive_solver.
  - intros x h0 o n [Hb Hne]%Sb. destruct (ao_blocks _ Ha x h0 o n Hb) as (d0 & Hd0 & Hx). exists d0.
    rewrite lookup_delete_ne; [done|]. intros <-. apply Hne. split; [|done]. congruence.
Qed.
Lemma forget_run a h d :
  area_ok a → m_handles a !! h = Some d →
  ∃ t' y, tmmgr.free h (dtmmgr.arena (dir a d) (m_mmgr a)) = (Ret tt, y) ∧ forget d h a = (Ret tt, without t' h a) ∧
    dtmmgr.arena (dir a d) t' = y ∧ shrunk (dir a d) h (m_mmgr a) t'.
Proof.
  intros Ha Hd. destruct (ao_table _ Ha h d Hd) as (_ & _ & o & Hb & _). destruct (joint_arena a (dir a d) Ha) as (l & k & Hj & _).
  destruct (dt_free_shrunk _ _ _ _ _ _ _ Hj Hb) as (t' & y & H1 & H2 & H3 & H4). exists t', y. split_and!; [done| |done..].
  unfold forget. rewrite bind_get. unfold on_mmgr, mbind, M_bind. unfold dir in H2. by rewrite H2.
Qed.

(** ** A new area *)
Lemma make_area_ok type creator name size flags : 0 ≤ size < two64 → area_ok (make_area type creator name size flags).
Proof.
  intros Hs. assert (Hv : valid_align 1) by (exists 0; lia).
  assert (Hd : tmmgr.alignDown size 1 = size).
  { unfold tmmgr.alignDown, tmmgr.wnot. change (w64 (1 - 1)) with 0. replace (two64 - 1 - 0) with (Z.ones 64) by reflexivity.
    rewrite Z.land_ones by lia. by apply Z.mod_small. }
  assert (Hmake : ∀ x, tmmgr.handle_to_offset_and_size (dtmmgr.arena x (dtmmgr.make size 1)) = ∅ ∧ tmmgr.align (dtmmgr.arena x (dtmmgr.make size 1)) = 1 ∧
    tmmgr.mem_size (dtmmgr.arena x (dtmmgr.make size 1)) = size).
  { intros x. assert (dtmmgr.arena x (dtmmgr.make size 1) = tmmgr.make size 1) as -> by (by destruct x).
    unfold tmmgr.make, tmmgr.insert_free_segment. rewrite Hd. by destruct (0 <? size). }
  split; simpl.
  - apply dt_reachable_joint. by apply dt_reachable_make.
  - apply (Hmake dtmmgr.ARENA_UP).
  - apply (Hmake dtmmgr.ARENA_UP).
  - done.
  - intros h d Hh. by rewrite lookup_empty in Hh.
  - intros x h o n Hb. unfold block_at in Hb. rewrite (proj1 (Hmake x)), lookup_empty in Hb. done.
Qed.
End mmgr.
End area_spec.
