(* ===== verification/VmemTransfer.v ===== *)
(** * Transfers of the virtual memory

    [gpi-space/pc/memory/gaspi_area.cpp] ([helper]), [gpi-space/gpi/gaspi.cpp] ([read_dma] and
    [write_dma]) and the access functions of [memory_area.cpp]: how a range of a distributed
    allocation is split by the ranks that hold it, how a part is cut into pieces that the
    network transfers at once, and how data goes through communication buffers.

    The one-sided operations of GASPI and the number of bytes that one call of [read] or
    [write] moves are not part of the repository: they are members of classes, with what the
    code relies on in [GaspiSpec].  An operation and the wait for it, which always follow each
    other, are one step here. *)

From S2P Require Import Prelude Value Token Function Position ReadShow Tokenizer Expr Parser ModuleCall Net NetFire ModuleRun Mmgr VmemHandle VmemArea.

Module transfer.
Local Open Scope Z_scope.
Import module_run vmem_handle vmem.

Definition two16 : Z := 65536.
Definition w16 (x : Z) : Z := x mod two16.
(** [fhg::util::divru] *)
Definition divru (a b : Z) : Z := w64 (w64 (a + b) - 1) / b.

(** ** Parts *)
Record transfer_part : Type := mk_part { p_rank : Z; p_local_offset : Z; p_remote_offset : Z; p_size : Z }.

(** [rank_t] is an [unsigned short], the rank plus one is an [int] *)
Fixpoint split_by_rank (fuel : nat) (local_offset remote_base offset per_node_size amount : Z)
    : outcome exn (list transfer_part) :=
  if amount =? 0 then Ret []
  else match fuel with
  | O => Throw out_of_fuel
  | S fuel =>
      if per_node_size =? 0 then Throw (undefined "division by zero")
      else
        let rank := w16 (offset / per_node_size) in
        let max_offset_on_rank := w64 ((rank + 1) * per_node_size) in
        let size := Z.min (Z.min per_node_size amount) (w64 (max_offset_on_rank - offset)) in
        let p := mk_part rank local_offset (w64 (remote_base + offset mod per_node_size)) size in
        parts ← split_by_rank fuel (w64 (local_offset + size)) remote_base (w64 (offset + size)) per_node_size (w64 (amount - size));
        Ret (p :: parts)
  end.
(** every part but the first and the last covers a whole node *)
Definition split_fuel (per_node_size amount : Z) : nat := S (S (Z.to_nat (amount / per_node_size))).

(** the loop over one part in [read_dma] and [write_dma] *)
Fixpoint cut (fuel : nat) (chunk_size rank l_off r_off remaining : Z) : outcome exn (list transfer_part) :=
  if remaining =? 0 then Ret []
  else match fuel with
  | O => Throw out_of_fuel
  | S fuel =>
      let to_transfer := Z.min chunk_size remaining in
      rest ← cut fuel chunk_size rank (w64 (l_off + to_transfer)) (w64 (r_off + to_transfer)) (w64 (remaining - to_transfer));
      Ret (mk_part rank l_off r_off to_transfer :: rest)
  end.
Definition cut_part (chunk_size : Z) (p : transfer_part) : outcome exn (list transfer_part) :=
  cut (S (Z.to_nat (p_size p / chunk_size))) chunk_size (p_rank p) (p_local_offset p) (p_remote_offset p) (p_size p).
Fixpoint cut_parts (chunk_size : Z) (l : list transfer_part) : outcome exn (list transfer_part) :=
  match l with
  | [] => Ret []
  | p :: l => x ← cut_part chunk_size p; y ← cut_parts chunk_size l; Ret (x ++ y)
  end.
(** what [write_dma] waits for *)
Definition number_of_chunks (chunk_size : Z) (l : list transfer_part) : Z :=
  foldl (λ accum p, w64 (accum + divru (p_size p) chunk_size)) 0 l.

(** ** Which bytes the parts move *)
Definition moved (p : transfer_part) : list (Z * (Z * Z)) :=
  (λ i, (p_local_offset p + i, (p_rank p, p_remote_offset p + i))) <$> seqZ 0 (p_size p).
Definition all_moved (l : list transfer_part) : list (Z * (Z * Z)) := l ≫= moved.
(** byte [offset + i] of a distributed allocation *)
Definition home (remote_base per_node_size offset : Z) : Z * Z :=
  (offset / per_node_size, remote_base + offset mod per_node_size).
Definition expected (local_offset remote_base offset per_node_size amount : Z) : list (Z * (Z * Z)) :=
  (λ i, (local_offset + i, home remote_base per_node_size (offset + i))) <$> seqZ 0 amount.

Lemma seqZ_split a b c : 0 ≤ b → 0 ≤ c → seqZ a (b + c) = seqZ a b ++ seqZ (a + b) c.
Proof. intros. by rewrite seqZ_app. Qed.
Lemma fmap_seqZ_shift {A} (f g : Z → A) a n b : (∀ i, 0 ≤ i < n → f (a + i) = g (b + i)) → f <$> seqZ a n = g <$> seqZ b n.
Proof.
  intros Hfg. apply list_eq_same_length with (n := Z.to_nat n); rewrite ?length_fmap, ?length_seqZ; [done..|].
  intros i x y Hi. rewrite !list_lookup_fmap. intros (u & [Hu Hu1]%lookup_seqZ & ->)%fmap_Some (v & [Hv _]%lookup_seqZ & ->)%fmap_Some.
  subst. apply Hfg. lia.
Qed.
Lemma expected_split lo rb o pn m n :
  0 ≤ m → 0 ≤ n → expected lo rb o pn (m + n) = expected lo rb o pn m ++ expected (lo + m) rb (o + m) pn n.
Proof.
  intros Hm Hn. unfold expected. rewrite seqZ_split by done. rewrite fmap_app. f_equal. apply fmap_seqZ_shift.
  intros i _. f_equal; [lia|]. f_equal. lia.
Qed.
(** a part within one node *)
Lemma moved_expected lo rb o pn n :
  0 < pn → 0 ≤ o → 0 ≤ n → o mod pn + n ≤ pn → moved (mk_part (o / pn) lo (rb + o mod pn) n) = expected lo rb o pn n.
Proof.
  intros Hpn Ho Hn Hle. unfold moved, expected, home. simpl. apply fmap_seqZ_shift. intros i Hi. f_equal.
  rewrite Z.add_0_l. pose proof (Z.div_mod o pn). pose proof (Z.mod_pos_bound o pn).
  assert ((o + i) / pn = o / pn ∧ (o + i) mod pn = o mod pn + i) as [-> ->]; [|f_equal; lia].
  split; [symmetry; apply Z.div_unique with (r := o mod pn + i)|symmetry; apply Z.mod_unique with (q := o / pn)]; lia.
Qed.

(** The bounds under which nothing wraps around. *)
Definition no_wrap (lo rb o pn n : Z) : Prop :=
  0 < pn ∧ 0 ≤ o ∧ 0 ≤ lo ∧ 0 ≤ rb ∧ 0 ≤ n ∧ lo + n < two64 ∧ rb + pn ≤ two64 ∧ o + n ≤ two16 * pn ∧ o + n + pn < two64.

Definition part_within (lo rb pn n : Z) (p : transfer_part) : Prop :=
  0 < p_size p ∧ 0 ≤ p_rank p ∧ lo ≤ p_local_offset p ∧ p_local_offset p + p_size p ≤ lo + n ∧
  rb ≤ p_remote_offset p ∧ p_remote_offset p + p_size p ≤ rb + pn.

Lemma split_by_rank_spec fuel lo rb o pn n :
  no_wrap lo rb o pn n → n = 0 ∨ o mod pn + n ≤ Z.of_nat fuel * pn →
  ∃ l, split_by_rank fuel lo rb o pn n = Ret l ∧ all_moved l = expected lo rb o pn n ∧ Forall (part_within lo rb pn n) l.
Proof.
  revert lo o n. induction fuel as [|fuel IH]; intros lo o n Hw Hf; pose proof Hw as (Hpn & Ho & Hlo & Hrb & Hn & Hwl & Hwr & Hwo & H16);
    pose proof (Z.mod_pos_bound o pn Hpn) as Hmod; cbn [split_by_rank]; (destruct (Z.eqb_spec n 0) as [->|Hn0]; [by exists []|]);
    [lia|]. rewrite (proj2 (Z.eqb_neq pn 0)) by lia.
  pose proof (Z.div_mod o pn ltac:(lia)) as Hdm. set (q := o / pn) in *.
  assert (Hq : 0 ≤ q < two16) by (unfold two16 in *; nia).
  assert (w16 q = q) as -> by (apply Z.mod_small; exact Hq).
  assert (w64 ((q + 1) * pn) = (q + 1) * pn) as -> by (apply w64_small; unfold is_w64; nia).
  set (m := Z.min n (pn - o mod pn)).
  assert (Hm : Z.min (Z.min pn n) (w64 ((q + 1) * pn - o)) = m) by (rewrite w64_small; unfold is_w64, m; nia).
  rewrite Hm. rewrite !(w64_small (_ + _)), (w64_small (n - m)) by (unfold is_w64, m; nia).
  destruct (IH (lo + m) (o + m) (n - m)) as (l & Hl & Hall & Hin).
  { unfold no_wrap, m. repeat split; lia. }
  { destruct (decide (n = m)) as [E|Hne]; [left; lia|right].
    assert (Hmm : (o + m) mod pn = 0) by (apply Z.mod_divide; [lia|]; exists (q + 1); lia). rewrite Hmm. lia. }
  rewrite Hl. eexists. split; [done|]. split.
  - unfold all_moved in *. cbn [mbind list_bind]. rewrite Hall. replace n with (m + (n - m)) at 2 by lia.
    rewrite expected_split by lia. f_equal. unfold q. apply moved_expected; lia.
  - constructor; [unfold part_within; simpl; lia|]. eapply Forall_impl; [exact Hin|]. unfold part_within. intros x Hx. lia.
Qed.
Lemma split_fuel_enough o pn n : 0 < pn → 0 ≤ n → o mod pn + n ≤ Z.of_nat (split_fuel pn n) * pn.
Proof.
  intros Hpn Hn. unfold split_fuel. pose proof (Z.mod_pos_bound o pn Hpn). pose proof (Z.div_mod n pn). pose proof (Z.mod_pos_bound n pn Hpn).
  assert (0 ≤ n / pn) by (apply Z.div_pos; lia). rewrite !Nat2Z.inj_succ, Z2Nat.id by done. nia.
Qed.

(** A part that is cut moves the same bytes, in pieces that are not too long and are as many
    as [write_dma] counts. *)
Lemma cut_spec fuel max rank lo ro n :
  0 < max → 0 ≤ lo → 0 ≤ ro → 0 ≤ n → lo + n < two64 → ro + n < two64 → n ≤ Z.of_nat fuel * max →
  ∃ l, cut fuel max rank lo ro n = Ret l ∧ all_moved l = moved (mk_part rank lo ro n) ∧
    Forall (λ p, p_rank p = rank ∧ 0 < p_size p ≤ max ∧ lo ≤ p_local_offset p ∧ p_local_offset p + p_size p ≤ lo + n ∧
                 ro ≤ p_remote_offset p ∧ p_remote_offset p + p_size p ≤ ro + n) l ∧
    Z.of_nat (length l) = (n + max - 1) / max.
Proof.
  intros Hmax. revert lo ro n. induction fuel as [|fuel IH]; intros lo ro n Hlo Hro Hn Hwl Hwr Hf; cbn [cut];
    (destruct (Z.eqb_spec n 0) as [->|Hn0]; [exists []; split_and!; [done..|]; simpl; rewrite Z.div_small; lia|]); [lia|].
  set (m := Z.min max n). rewrite !(w64_small (_ + _)), (w64_small (n - m)) by (unfold is_w64, m; lia).
  destruct (IH (lo + m) (ro + m) (n - m)) as (l & Hl & Hall & Hin & Hlen); [lia..|].
  rewrite Hl. eexists. split; [done|]. split; [|split].
  - unfold all_moved in *. cbn [mbind list_bind]. rewrite Hall. unfold moved. simpl. replace n with (m + (n - m)) at 2 by lia.
    rewrite seqZ_split, fmap_app by lia. f_equal. apply fmap_seqZ_shift. intros i _. f_equal; [lia|]. f_equal. lia.
  - constructor; [simpl; lia|]. eapply Forall_impl; [exact Hin|]. simpl. intros x Hx. lia.
  - cbn [length]. rewrite Nat2Z.inj_succ, Hlen. destruct (Z_le_gt_dec max n).
    + replace (n + max - 1) with ((n - m + max - 1) + 1 * max) by lia. rewrite Z.div_add by lia. lia.
    + replace (n - m) with 0 by lia. rewrite Z.div_small by lia. apply Z.div_unique with (r := n - 1); lia.
Qed.

(** ** The nodes

    Every node keeps its areas, the segments of its handles, the generator of handles and the
    copies that clients have asked for; files of beegfs segments are shared.  A pointer to
    mapped memory of a node is a segment and an offset. *)
Definition pointer : Type := Z * Z.
Inductive task : Type :=
| write_task (dst_seg : Z) (dst : location) (src_ptr : option pointer) (amount : Z)
| read_task (src_seg : Z) (src : location) (dst_ptr : option pointer) (amount : Z)
| send_task (dst_seg src_seg : Z) (src dst : location) (amount : Z)
| recv_task (src_seg dst_seg : Z) (dst src : location) (amount : Z).

Record node : Type := mk_node {
  m_areas : gmap Z area;
  m_handle_to_segment : gmap Z Z;
  handle_generator : generator;
  next_memcpy_id : Z;
  task_by_id : gmap Z (option (outcome thrown unit));
  tasks : list (Z * task)
}.
Definition set_areas (f : gmap Z area → gmap Z area) (n : node) : node :=
  mk_node (f (m_areas n)) (m_handle_to_segment n) (handle_generator n) (next_memcpy_id n) (task_by_id n) (tasks n).
Definition set_handle_to_segment (f : gmap Z Z → gmap Z Z) (n : node) : node :=
  mk_node (m_areas n) (f (m_handle_to_segment n)) (handle_generator n) (next_memcpy_id n) (task_by_id n) (tasks n).
Definition set_generator (g : generator) (n : node) : node :=
  mk_node (m_areas n) (m_handle_to_segment n) g (next_memcpy_id n) (task_by_id n) (tasks n).
Definition set_tasks (id : Z) (f : gmap Z (option (outcome thrown unit)) → gmap Z (option (outcome thrown unit)))
    (g : list (Z * task) → list (Z * task)) (n : node) : node :=
  mk_node (m_areas n) (m_handle_to_segment n) (handle_generator n) id (f (task_by_id n)) (g (tasks n)).

(** size and contents of a file *)
Record cluster : Type := mk_cluster { nodes : list node; files : gmap string (Z * (Z → Z)) }.
Definition set_nodes (f : list node → list node) (c : cluster) : cluster := mk_cluster (f (nodes c)) (files c).
Definition set_files (f : gmap string (Z * (Z → Z)) → gmap string (Z * (Z → Z))) (c : cluster) : cluster :=
  mk_cluster (nodes c) (f (files c)).
Definition on_node (r : Z) (f : node → node) : cluster → cluster := set_nodes (alter f (Z.to_nat r)).
Definition on_area (r seg : Z) (f : area → area) : cluster → cluster := on_node r (set_areas (alter f seg)).
Definition node_at (r : Z) (c : cluster) : option node := nodes c !! Z.to_nat r.
Definition area_at (r seg : Z) (c : cluster) : option area := n ← node_at r c; m_areas n !! seg.
Definition number_of_nodes (c : cluster) : Z := Z.of_nat (length (nodes c)).

(** ** What is not part of the repository *)
(** memory of all ranks in a segment *)
Definition parts : Type := Z → Z → Z.
Definition copy_bytes (src soff dst doff n : Z) (p : parts) : parts :=
  λ r o, if (r =? dst) && (doff <=? o) && (o <? doff + n) then p src (soff + (o - doff)) else p r o.
Class Gaspi := {
  max_transfer_size : Z;
  (** the sizes of the segment on the nodes that have it, the local rank and offset, the
      remote rank and offset, the number of bytes *)
  gaspi_read (sizes : Z → option Z) (me l_off rank r_off n : Z) : parts → outcome thrown parts;
  gaspi_write_notify (sizes : Z → option Z) (me l_off rank r_off n : Z) : parts → outcome thrown parts
}.
Definition in_segment (sizes : Z → option Z) (rank off n : Z) : Prop :=
  0 ≤ off ∧ ∃ size, sizes rank = Some size ∧ off + n ≤ size.
Class GaspiSpec `{Gaspi} := {
  max_transfer_size_positive : 0 < max_transfer_size;
  gaspi_read_done sizes me l_off rank r_off n p :
    in_segment sizes me l_off n → in_segment sizes rank r_off n → 0 < n ≤ max_transfer_size →
    gaspi_read sizes me l_off rank r_off n p = Ret (copy_bytes rank r_off me l_off n p);
  gaspi_write_done sizes me l_off rank r_off n p :
    in_segment sizes me l_off n → in_segment sizes rank r_off n → 0 < n ≤ max_transfer_size →
    gaspi_write_notify sizes me l_off rank r_off n p = Ret (copy_bytes me l_off rank r_off n p)
}.
(** how many bytes one call of [read] or [write] moves *)
Class Syscalls := {
  read_count (path : string) (offset amount : Z) : outcome thrown Z;
  write_count (path : string) (offset amount : Z) : outcome thrown Z
}.

(** ** Access *)
Section access.
Context `{Gaspi} `{Syscalls}.
Abbreviation C := (M cluster thrown).

Definition std {X} (o : outcome exn X) : C X :=
  lift (match o with Ret x => Ret x | Throw e => Throw (Std e) end).
(** an area that is used by reference *)
Definition the_area (r seg : Z) : C area :=
  c ← get; std (or_throw (undefined "use of an area that was removed") (area_at r seg c)).
Definition ask {X} (r seg : Z) (f : area → outcome exn X) : C X := a ← the_area r seg; std (f a).

Definition write_bytes (off n : Z) (data : Z → Z) (mem : Z → Z) : Z → Z :=
  λ o, if (off <=? o) && (o <? off + n) then data (o - off) else mem o.
Definition in_memory (n : Z) (a : area) (off : Z) : bool := (0 <=? off) && (off + n <=? a_local_size a).
(** [std::memmove] *)
Definition memmove (r : Z) (dst src : option pointer) (n : Z) : C unit :=
  match dst, src with
  | Some (dseg, doff), Some (sseg, soff) =>
      s ← the_area r sseg; d ← the_area r dseg;
      if in_memory n s soff && in_memory n d doff then
        modify (on_area r dseg (set_memory (write_bytes doff n (λ i, memory s (soff + i)))))
      else throw (Std (undefined "access outside of the mapped memory"))
  | _, _ => throw (Std (undefined "null pointer"))
  end.
Definition area_ptr (seg : Z) (a : area) (off : Z) : option pointer := pair seg <$> raw_ptr a off.
(** [read_from_impl] *)
Definition read_from_impl (r seg off : Z) (buffer : option pointer) (amount : Z) : C Z :=
  a ← the_area r seg;
  if a_type a =? SEG_BEEGFS then
    n ← lift (read_count (a_name a) off amount);
    c ← get;
    match files c !! a_name a, buffer with
    | Some (_, data), Some (bseg, boff) =>
        b ← the_area r bseg;
        if in_memory n b boff then
          modify (on_area r bseg (set_memory (write_bytes boff n (λ i, data (off + i))))) ≫= λ _, mret n
        else throw (Std (undefined "access outside of the mapped memory"))
    | None, _ => throw (Std (undefined "the file was removed while it is open"))
    | _, None => throw (Std (undefined "null pointer"))
    end
  else memmove r buffer (area_ptr seg a off) amount ≫= λ _, mret amount.
Definition write_to_impl (r seg off : Z) (buffer : option pointer) (amount : Z) : C Z :=
  a ← the_area r seg;
  if a_type a =? SEG_BEEGFS then
    n ← lift (write_count (a_name a) off amount);
    match buffer with
    | Some (bseg, boff) =>
        b ← the_area r bseg;
        if in_memory n b boff then
          modify (set_files (alter (λ f, (Z.max f.1 (off + n), write_bytes off n (λ i, memory b (boff + i)) f.2)) (a_name a))) ≫= λ _, mret n
        else throw (Std (undefined "access outside of the mapped memory"))
    | None => throw (Std (undefined "null pointer"))
    end
  else memmove r (area_ptr seg a off) buffer amount ≫= λ _, mret amount.
Definition read_from (r seg : Z) (loc : location) (buffer : option pointer) (amount : Z) : C Z :=
  ask r seg (check_bounds loc amount) ≫= λ _,
  ask r seg (is_local r loc amount) ≫= λ local : bool,
  if local then off ← ask r seg (location_to_offset loc); read_from_impl r seg off buffer amount
  else throw (Std (runtime_error "could not read non-local region")).
Definition write_to (r seg : Z) (loc : location) (buffer : option pointer) (amount : Z) : C Z :=
  ask r seg (check_bounds loc amount) ≫= λ _,
  ask r seg (is_local r loc amount) ≫= λ local : bool,
  if local then off ← ask r seg (location_to_offset loc); write_to_impl r seg off buffer amount
  else throw (Std (runtime_error "could not read non-local region")).

(** ** Communication with other nodes *)
Definition segment_parts (seg : Z) (c : cluster) : parts :=
  λ r, match area_at r seg c with Some a => memory a | None => λ _, 0 end.
Definition segment_sizes (seg : Z) (c : cluster) : Z → option Z := λ r, a_local_size <$> area_at r seg c.
Definition set_parts (seg : Z) (p : parts) : cluster → cluster :=
  set_nodes (imap (λ i, set_areas (alter (set_memory (λ _, p (Z.of_nat i))) seg))).
Definition one_sided (seg : Z) (f : (Z → option Z) → parts → outcome thrown parts) : C unit :=
  c ← get; p ← lift (f (segment_sizes seg c) (segment_parts seg c)); modify (set_parts seg p).
Definition read_dma (r seg : Z) (l : list transfer_part) : C unit :=
  chunks ← std (cut_parts max_transfer_size l);
  for_each (λ p, one_sided seg (λ sizes, gaspi_read sizes r (p_local_offset p) (p_rank p) (p_remote_offset p) (p_size p))) chunks.
Definition write_dma (r seg : Z) (l : list transfer_part) : C unit :=
  chunks ← std (cut_parts max_transfer_size l);
  for_each (λ p, one_sided seg (λ sizes, gaspi_write_notify sizes r (p_local_offset p) (p_rank p) (p_remote_offset p) (p_size p))) chunks.

Definition dma_read_and_wait_for_readable (r seg : Z) (src_hdl : descriptor) (src_offset : Z) (dst_hdl : descriptor) (dst_offset amount : Z) : C unit :=
  l ← std (split_by_rank (split_fuel (d_local_size src_hdl) amount) (w64 (d_offset dst_hdl + dst_offset)) (d_offset src_hdl) src_offset (d_local_size src_hdl) amount);
  read_dma r seg l.
Definition do_write_dma_and_wait_remote_written (r seg : Z) (src_hdl : descriptor) (src_offset : Z) (dst_hdl : descriptor) (dst_offset amount : Z) : C unit :=
  l ← std (split_by_rank (split_fuel (d_local_size dst_hdl) amount) (w64 (d_offset src_hdl + src_offset)) (d_offset dst_hdl) dst_offset (d_local_size dst_hdl) amount);
  write_dma r seg l.

Definition move_by (n : Z) (l : location) : location := mk_location (l_handle l) (w64 (l_offset l + n)).
Definition pool_get (r seg : Z) : C handle_buffer :=
  a ← the_area r seg;
  match m_com_handles a with
  | [] => throw (Std (undefined "waits for a communication buffer"))
  | b :: l => modify (on_area r seg (set_com_handles (λ _, l))) ≫= λ _, mret b
  end.
Definition pool_put (r seg : Z) (b : handle_buffer) : C unit := modify (on_area r seg (set_com_handles (.++ [b]))).
Fixpoint send_loop (fuel : nat) (r src_seg : Z) (src : location) (dst_seg : Z) (dst : location) (buf : handle_buffer) (remaining : Z) : C unit :=
  if remaining =? 0 then mret tt
  else match fuel with
  | O => throw (Std out_of_fuel)
  | S fuel =>
      read_bytes ← read_from r src_seg src (Some (dst_seg, b_data buf)) (Z.min remaining (hb_size buf));
      if read_bytes =? 0 then mret tt
      else
        from ← ask r dst_seg (descriptor_of (b_handle buf));
        to_ ← ask r dst_seg (descriptor_of (l_handle dst));
        do_write_dma_and_wait_remote_written r dst_seg from 0 to_ (l_offset dst) read_bytes ≫= λ _,
        send_loop fuel r src_seg (move_by read_bytes src) dst_seg (move_by read_bytes dst) buf (w64 (remaining - read_bytes))
  end.
Definition do_send (r src_seg : Z) (src : location) (dst_seg : Z) (dst : location) (amount : Z) : C unit :=
  buf ← pool_get r dst_seg;
  send_loop (S (Z.to_nat amount)) r src_seg src dst_seg dst buf amount ≫= λ _,
  pool_put r dst_seg buf.
Fixpoint recv_loop (fuel : nat) (r dst_seg : Z) (dst : location) (src_seg : Z) (src : location) (buf : handle_buffer) (remaining : Z) : C unit :=
  if remaining =? 0 then mret tt
  else match fuel with
  | O => throw (Std out_of_fuel)
  | S fuel =>
      let to_recv := Z.min remaining (hb_size buf) in
      from ← ask r src_seg (descriptor_of (l_handle src));
      to_ ← ask r src_seg (descriptor_of (b_handle buf));
      dma_read_and_wait_for_readable r src_seg from (l_offset src) to_ 0 to_recv ≫= λ _,
      written_bytes ← write_to r dst_seg dst (Some (src_seg, b_data buf)) to_recv;
      if written_bytes =? to_recv then
        recv_loop fuel r dst_seg (move_by to_recv dst) src_seg (move_by to_recv src) buf (w64 (remaining - to_recv))
      else mret tt
  end.
Definition do_recv (r dst_seg : Z) (dst : location) (src_seg : Z) (src : location) (amount : Z) : C unit :=
  buf ← pool_get r src_seg;
  recv_loop (S (Z.to_nat amount)) r dst_seg dst src_seg src buf amount ≫= λ _,
  pool_put r src_seg buf.

(** ** Tasks *)
Definition get_send_task (r src_seg : Z) (src : location) (dst_seg : Z) (dst : location) (amount : Z) : C task :=
  a ← the_area r dst_seg;
  if a_type a =? SEG_GASPI then mret (send_task dst_seg src_seg src dst amount)
  else throw (Std (logic_error "get_send_task not implemented")).
Definition get_recv_task (r dst_seg : Z) (dst : location) (src_seg : Z) (src : location) (amount : Z) : C task :=
  a ← the_area r src_seg;
  if a_type a =? SEG_GASPI then mret (recv_task src_seg dst_seg dst src amount)
  else throw (Std (logic_error "get_recv_task not implemented")).
Definition get_transfer_task (r src_seg : Z) (src : location) (dst_seg : Z) (dst : location) (amount : Z) : C task :=
  ask r src_seg (is_local r src amount) ≫= λ src_is_local : bool,
  ask r dst_seg (is_local r dst amount) ≫= λ dst_is_local : bool,
  direct ← (if src_is_local && dst_is_local then
              src_ptr ← ask r src_seg (pointer_to src);
              dst_ptr ← ask r dst_seg (pointer_to dst);
              mret (match src_ptr, dst_ptr with
                    | Some p, _ => Some (write_task dst_seg dst (Some (src_seg, p)) amount)
                    | None, Some p => Some (read_task src_seg src (Some (dst_seg, p)) amount)
                    | None, None => None
                    end)
            else mret None);
  match direct with
  | Some t => mret t
  | None =>
      if src_is_local then get_send_task r src_seg src dst_seg dst amount
      else if dst_is_local then get_recv_task r dst_seg dst src_seg src amount
      else throw (Std (undefined "one area always has to be local: there is always shm_area on one side"))
  end.
Definition run_task (r : Z) (t : task) : C unit :=
  match t with
  | write_task dst_seg dst src_ptr amount => write_to r dst_seg dst src_ptr amount ≫= λ _, mret tt
  | read_task src_seg src dst_ptr amount => read_from r src_seg src dst_ptr amount ≫= λ _, mret tt
  | send_task dst_seg src_seg src dst amount => do_send r src_seg src dst_seg dst amount
  | recv_task src_seg dst_seg dst src amount => do_recv r dst_seg dst src_seg src amount
  end.
End access.
End transfer.
