(* ===== verification/VmemTransferSpec.v ===== *)
(** * Transfers move the bytes they should

    A copy between mapped memory and a distributed allocation goes through a communication
    buffer, in rounds; every round is split by rank and cut into pieces.  Here: exactly the
    bytes of the range arrive, in place, and nothing else changes but the buffer. *)

From S2P Require Import Prelude Value Token Function Position ReadShow Tokenizer Expr Parser ModuleCall Net NetFire ModuleRun Mmgr VmemHandle VmemArea VmemTransfer.

Module transfer_spec.
Local Open Scope Z_scope.
Import module_run vmem_handle vmem transfer.

(** ** States that differ in the memory of one segment *)
Section memory.
Context (seg : Z).

Lemma set_memory_id a : set_memory (λ _, memory a) a = a.
Proof. by destruct a. Qed.
Lemma area_at_set_parts q seg' p c :
  0 ≤ q → area_at q seg' (set_parts seg p c) = if decide (seg' = seg) then set_memory (λ _, p q) <$> area_at q seg c else area_at q seg' c.
Proof.
  intros Hq. unfold area_at, node_at, set_parts. cbn [nodes set_nodes]. rewrite list_lookup_imap, Z2Nat.id by done.
  destruct (nodes c !! Z.to_nat q) as [n|]; simpl; [|by destruct (decide _)].
  destruct (decide (seg' = seg)) as [->|Hne]; [by rewrite lookup_alter_eq|by rewrite lookup_alter_ne].
Qed.
Lemma segment_parts_set_parts q p c a : 0 ≤ q → area_at q seg c = Some a → segment_parts seg (set_parts seg p c) q = p q.
Proof. intros Hq Ha. unfold segment_parts. rewrite area_at_set_parts, decide_True, Ha by done. done. Qed.
Lemma segment_sizes_set_parts q p c : 0 ≤ q → segment_sizes seg (set_parts seg p c) q = segment_sizes seg c q.
Proof. intros Hq. unfold segment_sizes. rewrite area_at_set_parts, decide_True by done. by destruct (area_at q seg c). Qed.
Lemma set_nodes_set_nodes f g c : set_nodes f (set_nodes g c) = set_nodes (f ∘ g) c.
Proof. done. Qed.
Lemma set_areas_ext f g n : f (m_areas n) = g (m_areas n) → set_areas f n = set_areas g n.
Proof. unfold set_areas. by intros ->. Qed.
Lemma set_parts_set_parts p p' c : set_parts seg p (set_parts seg p' c) = set_parts seg p c.
Proof.
  unfold set_parts, set_nodes. cbn [nodes files]. f_equal. apply list_eq. intros i. rewrite !list_lookup_imap.
  destruct (nodes c !! i) as [n|]; simpl; [|done]. unfold set_areas. simpl. by rewrite alter_alter_eq.
Qed.
(** an update on one node *)
Lemma on_area_set_parts r f p c a :
  0 ≤ r → area_at r seg c = Some a → on_area r seg (set_memory f) (set_parts seg p c) = set_parts seg (λ q, if q =? r then f (p r) else p q) c.
Proof.
  intros Hr Ha. unfold on_area, on_node, set_parts, set_nodes. cbn [nodes files]. f_equal. apply list_eq. intros i.
  destruct (decide (i = Z.to_nat r)) as [->|Hi].
  - rewrite list_lookup_alter_eq, !list_lookup_imap. destruct (nodes c !! Z.to_nat r) as [n|]; simpl; [|done].
    rewrite Z2Nat.id, Z.eqb_refl by done. unfold set_areas. simpl. by rewrite alter_alter_eq.
  - rewrite list_lookup_alter_ne, !list_lookup_imap by done. destruct (nodes c !! i); simpl; [|done].
    by rewrite (proj2 (Z.eqb_neq (Z.of_nat i) r)) by lia.
Qed.
End memory.

Lemma area_at_on_area q k r seg f c :
  0 ≤ q → 0 ≤ r → area_at q k (on_area r seg f c) = if decide (q = r ∧ k = seg) then f <$> area_at r seg c else area_at q k c.
Proof.
  intros Hq Hr. unfold area_at, node_at, on_area, on_node. cbn [nodes set_nodes]. destruct (decide (q = r)) as [->|Hne].
  - rewrite list_lookup_alter_eq. destruct (nodes c !! Z.to_nat r) as [n|]; simpl; [|by destruct (decide _)].
    destruct (decide (k = seg)) as [->|Hk].
    + by rewrite lookup_alter_eq, decide_True by done.
    + rewrite lookup_alter_ne, decide_False by (done || naive_solver). done.
  - rewrite list_lookup_alter_ne, decide_False by (lia || naive_solver). done.
Qed.
Lemma on_area_set_parts_comm r k seg f p c : k ≠ seg → on_area r k f (set_parts seg p c) = set_parts seg p (on_area r k f c).
Proof.
  intros Hne. unfold on_area, on_node, set_parts, set_nodes. cbn [nodes files]. f_equal. apply list_eq. intros i.
  rewrite list_lookup_imap. destruct (decide (i = Z.to_nat r)) as [->|Hi].
  - rewrite !list_lookup_alter_eq, list_lookup_imap. destruct (nodes c !! Z.to_nat r); simpl; [|done].
    unfold set_areas. simpl. by rewrite alter_alter_ne.
  - rewrite !list_lookup_alter_ne, list_lookup_imap by done. done.
Qed.
Lemma on_area_on_area r k f g c : on_area r k f (on_area r k g c) = on_area r k (f ∘ g) c.
Proof.
  unfold on_area, on_node, set_nodes. cbn [nodes files]. f_equal. apply list_eq. intros i. destruct (decide (i = Z.to_nat r)) as [->|Hi].
  - rewrite !list_lookup_alter_eq. destruct (nodes c !! Z.to_nat r); simpl; [|done]. unfold set_areas. simpl. by rewrite alter_alter_eq.
  - by rewrite !list_lookup_alter_ne.
Qed.
Lemma on_area_id r k f c : (∀ a, area_at r k c = Some a → f a = a) → on_area r k f c = c.
Proof.
  intros Hf. destruct c as [l fs]. unfold on_area, on_node, set_nodes. cbn [nodes files]. f_equal. apply list_eq. intros i.
  destruct (decide (i = Z.to_nat r)) as [->|Hi]; [|by rewrite list_lookup_alter_ne].
  rewrite list_lookup_alter_eq. unfold area_at, node_at in Hf. simpl in Hf. destruct (l !! Z.to_nat r) as [x|]; simpl; [|done].
  simpl in Hf. f_equal. destruct x. unfold set_areas. simpl in *. f_equal. by apply alter_id.
Qed.
Lemma set_parts_id seg c : set_parts seg (segment_parts seg c) c = c.
Proof.
  destruct c as [l fs]. unfold set_parts, set_nodes. cbn [nodes files]. f_equal. apply list_eq. intros i. rewrite list_lookup_imap.
  unfold segment_parts, area_at, node_at. cbn [nodes]. rewrite Nat2Z.id. destruct (l !! i) as [x|] eqn:Hx; simpl; [|done]. f_equal.
  destruct x as [ar h g x y z]. unfold set_areas. simpl. f_equal. apply alter_id. intros a Ha. simpl. rewrite Ha. apply set_memory_id.
Qed.

(** ** Copies in memory *)
Record copy : Type := mk_copy { c_src : Z; c_soff : Z; c_dst : Z; c_doff : Z; c_size : Z }.
Definition run_copies (l : list copy) (p : parts) : parts :=
  foldl (λ p x, copy_bytes (c_src x) (c_soff x) (c_dst x) (c_doff x) (c_size x) p) p l.
Definition pairs (x : copy) : list ((Z * Z) * (Z * Z)) :=
  (λ i, ((c_src x, c_soff x + i), (c_dst x, c_doff x + i))) <$> seqZ 0 (c_size x).
Definition byte (p : parts) (x : Z * Z) : Z := p x.1 x.2.

Lemma elem_of_pairs x s t :
  (s, t) ∈ pairs x ↔ ∃ i, 0 ≤ i < c_size x ∧ s = (c_src x, c_soff x + i) ∧ t = (c_dst x, c_doff x + i).
Proof.
  unfold pairs. rewrite list_elem_of_fmap. split.
  - intros (i & [= -> ->] & Hi%elem_of_seqZ). exists i. split; [lia|done].
  - intros (i & Hi & -> & ->). exists i. split; [done|]. apply elem_of_seqZ. lia.
Qed.
Lemma copy_bytes_pairs x p :
  (∀ s t, (s, t) ∈ pairs x → byte (copy_bytes (c_src x) (c_soff x) (c_dst x) (c_doff x) (c_size x) p) t = byte p s) ∧
  (∀ t, t ∉ (pairs x).*2 → byte (copy_bytes (c_src x) (c_soff x) (c_dst x) (c_doff x) (c_size x) p) t = byte p t).
Proof.
  split.
  - intros s t (i & Hi & -> & ->)%elem_of_pairs. unfold byte, copy_bytes. simpl. rewrite Z.eqb_refl. simpl.
    rewrite (proj2 (Z.leb_le _ _)), (proj2 (Z.ltb_lt _ _)) by lia. simpl. f_equal. lia.
  - intros [r o] Ht. unfold byte, copy_bytes. simpl. destruct (Z.eqb_spec r (c_dst x)) as [->|]; simpl; [|done].
    destruct (Z.leb_spec (c_doff x) o); simpl; [|done]. destruct (Z.ltb_spec o (c_doff x + c_size x)); [|done].
    destruct Ht. apply list_elem_of_fmap. exists ((c_src x, c_soff x + (o - c_doff x)), (c_dst x, o)). split; [done|].
    apply elem_of_pairs. exists (o - c_doff x). split; [lia|]. split; [done|]. f_equal. lia.
Qed.
Lemma run_copies_spec l p :
  NoDup (l ≫= pairs).*2 → (∀ s t, s ∈ (l ≫= pairs).*1 → t ∈ (l ≫= pairs).*2 → s ≠ t) →
  (∀ s t, (s, t) ∈ l ≫= pairs → byte (run_copies l p) t = byte p s) ∧
  (∀ t, t ∉ (l ≫= pairs).*2 → byte (run_copies l p) t = byte p t).
Proof.
  revert p. induction l as [|x l IH]; intros p Hnd Hdis; [split; [by intros s t ?%elem_of_nil|done]|].
  cbn [mbind list_bind] in *. rewrite fmap_app in Hnd, Hdis. apply NoDup_app in Hnd as (Hx & Hxl & Hl).
  rewrite fmap_app in Hdis. destruct (copy_bytes_pairs x p) as [Hc1 Hc2]. unfold run_copies. cbn [foldl].
  set (p1 := copy_bytes _ _ _ _ _ p) in *. fold (run_copies l p1).
  destruct (IH p1 Hl) as [IH1 IH2]; [intros s t Hs Ht; apply Hdis; apply elem_of_app; by right|]. split.
  - intros s t [Hst|Hst]%elem_of_app.
    + rewrite IH2; [by apply Hc1|]. apply Hxl. by apply (list_elem_of_fmap_2 snd) in Hst.
    + rewrite (IH1 s t Hst). apply Hc2. intros Hs. apply (Hdis s s); [|apply elem_of_app; by left|done].
      apply elem_of_app. right. by apply (list_elem_of_fmap_2 fst) in Hst.
  - intros t Ht. rewrite fmap_app, not_elem_of_app in Ht. destruct Ht as [Ht1 Ht2]. rewrite IH2 by done. by apply Hc2.
Qed.

(** ** One-sided operations on a segment that all nodes have *)
Section one_sided.
Context `{GaspiSpec}.
Context (seg : Z) (c : cluster) (n L : Z).
Definition present : Prop := ∀ q, 0 ≤ q < n → ∃ a, area_at q seg c = Some a ∧ a_local_size a = L.
Context (Hpresent : present).
Definition copy_ok (x : copy) : Prop :=
  0 ≤ c_src x < n ∧ 0 ≤ c_soff x ∧ c_soff x + c_size x ≤ L ∧ 0 ≤ c_dst x < n ∧ 0 ≤ c_doff x ∧ c_doff x + c_size x ≤ L ∧
  0 < c_size x ≤ max_transfer_size.
Definition agree (p p' : parts) : Prop := ∀ q o, 0 ≤ q < n → p q o = p' q o.
Definition does (f : (Z → option Z) → parts → outcome thrown parts) (x : copy) : Prop :=
  ∀ sizes p, in_segment sizes (c_src x) (c_soff x) (c_size x) → in_segment sizes (c_dst x) (c_doff x) (c_size x) →
    0 < c_size x ≤ max_transfer_size → f sizes p = Ret (copy_bytes (c_src x) (c_soff x) (c_dst x) (c_doff x) (c_size x) p).

Lemma in_segment_present p q off m : 0 ≤ q < n → 0 ≤ off → off + m ≤ L → in_segment (segment_sizes seg (set_parts seg p c)) q off m.
Proof.
  intros Hq Ho Hm. split; [done|]. exists L. rewrite segment_sizes_set_parts by lia. destruct (Hpresent q Hq) as (a & Ha & Hs).
  unfold segment_sizes. rewrite Ha. simpl. by rewrite Hs.
Qed.
Lemma copy_bytes_agree x p p' :
  0 ≤ c_src x < n → agree p p' →
  agree (copy_bytes (c_src x) (c_soff x) (c_dst x) (c_doff x) (c_size x) p) (copy_bytes (c_src x) (c_soff x) (c_dst x) (c_doff x) (c_size x) p').
Proof. intros Hx Hp q o Hq. unfold copy_bytes. rewrite !Hp by done. done. Qed.
Lemma run_copies_agree l p p' : Forall copy_ok l → agree p p' → agree (run_copies l p) (run_copies l p').
Proof.
  revert p p'. induction l as [|x l IH]; intros p p' Hl Hp; [done|]. apply Forall_cons in Hl as [Hx Hl].
  unfold run_copies. cbn [foldl]. apply IH; [done|]. apply copy_bytes_agree; [apply Hx|done].
Qed.
Lemma segment_parts_agree p : agree (segment_parts seg (set_parts seg p c)) p.
Proof. intros q o Hq. destruct (Hpresent q Hq) as (a & Ha & _). by rewrite (segment_parts_set_parts seg q p c a) by (lia || done). Qed.

Lemma one_sided_loop {A} (f : A → (Z → option Z) → parts → outcome thrown parts) (g : A → copy) l p :
  Forall copy_ok (g <$> l) → (∀ x, does (f x) (g x)) →
  ∃ p', for_each (λ x, one_sided seg (f x)) l (set_parts seg p c) = (Ret tt, set_parts seg p' c) ∧ agree p' (run_copies (g <$> l) p).
Proof.
  intros Hl Hf. revert p Hl. induction l as [|x l IH]; intros p Hl; [by exists p|].
  rewrite fmap_cons in Hl. apply Forall_cons in Hl as [Hx Hl]. pose proof Hx as (? & ? & ? & ? & ? & ? & ?).
  cbn [for_each]. set (sp := segment_parts seg (set_parts seg p c)).
  set (p1 := copy_bytes (c_src (g x)) (c_soff (g x)) (c_dst (g x)) (c_doff (g x)) (c_size (g x)) sp).
  assert (one_sided seg (f x) (set_parts seg p c) = (Ret tt, set_parts seg p1 c)) as E.
  { unfold one_sided. rewrite bind_get, bind_lift, (Hf x); [|by apply in_segment_present..|done].
    unfold modify. by rewrite set_parts_set_parts. }
  destruct (IH p1 Hl) as (p' & Hp' & Ha). exists p'. split.
  - unfold mbind, M_bind. rewrite E. exact Hp'.
  - rewrite fmap_cons. unfold run_copies in *. cbn [foldl]. intros q o Hq. rewrite Ha by done.
    apply run_copies_agree; [done| |done]. apply copy_bytes_agree; [done|]. apply segment_parts_agree.
Qed.

(** ** A range of a distributed allocation *)
Lemma cut_parts_spec lo rb pn m l :
  0 < max_transfer_size → 0 ≤ lo → 0 ≤ rb → lo + m < two64 → rb + pn < two64 → Forall (part_within lo rb pn m) l →
  ∃ k, cut_parts max_transfer_size l = Ret k ∧ all_moved k = all_moved l ∧
    Forall (λ p, p_size p ≤ max_transfer_size ∧ part_within lo rb pn m p ∧ ∃ p', p' ∈ l ∧ p_rank p = p_rank p') k.
Proof.
  intros Hmax Hlo Hrb Hwl Hwr. induction l as [|x l IH]; intros Hl; [by exists []|].
  apply Forall_cons in Hl as [Hx Hl]. destruct (IH Hl) as (k & Hk & Hall & Hin). destruct x as [rk xl xr xs].
  unfold part_within in Hx. simpl in Hx.
  destruct (cut_spec (S (Z.to_nat (xs / max_transfer_size))) max_transfer_size rk xl xr xs) as (k1 & Hk1 & Hall1 & Hin1 & _); [lia..| |].
  { pose proof (Z.div_mod xs max_transfer_size). pose proof (Z.mod_pos_bound xs max_transfer_size).
    assert (0 ≤ xs / max_transfer_size) by (apply Z.div_pos; lia). rewrite Nat2Z.inj_succ, Z2Nat.id by done. nia. }
  exists (k1 ++ k). cbn [cut_parts]. unfold cut_part. cbn [p_rank p_local_offset p_remote_offset p_size]. rewrite Hk1. cbn [mbind outcome_bind]. rewrite Hk.
  split; [done|]. split.
  - unfold all_moved in *. rewrite bind_app. cbn [mbind list_bind]. by rewrite Hall1, Hall.
  - apply Forall_app. split.
    + eapply Forall_impl; [exact Hin1|]. intros p' (Hr & Hp). unfold part_within. split; [lia|]. split; [lia|].
      eexists. split; [by left|done].
    + eapply Forall_impl; [exact Hin|]. intros p' (? & ? & p2 & ? & ?). split; [done|]. split; [done|]. exists p2. split; [by right|done].
Qed.
Lemma home_inj rb pn a b : 0 < pn → home rb pn a = home rb pn b → a = b.
Proof. intros Hpn [= H1 H2]. rewrite (Z.div_mod a pn), (Z.div_mod b pn) by lia. rewrite H1. lia. Qed.
Definition as_write (r : Z) (p : transfer_part) : copy := mk_copy r (p_local_offset p) (p_rank p) (p_remote_offset p) (p_size p).
Definition as_read (r : Z) (p : transfer_part) : copy := mk_copy (p_rank p) (p_remote_offset p) r (p_local_offset p) (p_size p).
Lemma pairs_as_write r l : (as_write r <$> l) ≫= pairs = (λ m, ((r, m.1), m.2)) <$> all_moved l.
Proof.
  unfold all_moved. induction l as [|p l IH]; [done|]. rewrite fmap_cons. cbn [mbind list_bind]. rewrite fmap_app, <- IH. f_equal.
  unfold pairs, moved. rewrite <- list_fmap_compose. done.
Qed.
Lemma pairs_as_read r l : (as_read r <$> l) ≫= pairs = (λ m, (m.2, (r, m.1))) <$> all_moved l.
Proof.
  unfold all_moved. induction l as [|p l IH]; [done|]. rewrite fmap_cons. cbn [mbind list_bind]. rewrite fmap_app, <- IH. f_equal.
  unfold pairs, moved. rewrite <- list_fmap_compose. done.
Qed.
Lemma elem_of_expected lo rb o pn m x h : (x, h) ∈ expected lo rb o pn m ↔ ∃ i, 0 ≤ i < m ∧ x = lo + i ∧ h = home rb pn (o + i).
Proof.
  unfold expected. rewrite list_elem_of_fmap. split.
  - intros (i & [= -> ->] & Hi%elem_of_seqZ). exists i. split; [lia|done].
  - intros (i & Hi & -> & ->). exists i. split; [done|]. apply elem_of_seqZ. lia.
Qed.
Lemma expected_homes lo rb o pn m : 0 < pn → NoDup (expected lo rb o pn m).*2.
Proof.
  intros Hpn. unfold expected. rewrite <- list_fmap_compose. apply NoDup_fmap_2_strong; [|apply NoDup_seqZ].
  intros x y _ _ E. simpl in E. apply home_inj in E; lia.
Qed.
Lemma expected_locals lo rb o pn m : NoDup (expected lo rb o pn m).*1.
Proof.
  unfold expected. rewrite <- list_fmap_compose. apply NoDup_fmap_2_strong; [|apply NoDup_seqZ]. intros x y _ _ E. simpl in E. lia.
Qed.

(** the range of an allocation and the buffer of rank [r] that are used *)
Record range_ok (r : Z) (lo : Z) (d : descriptor) (off m : Z) : Prop := {
  ro_rank : 0 ≤ r < n;
  ro_nodes : n ≤ two16;
  ro_segment : L < two64;
  ro_buffer : 0 ≤ lo ∧ lo + m ≤ L;
  ro_part : 0 < d_local_size d ∧ 0 ≤ d_offset d ∧ d_offset d + d_local_size d ≤ L;
  ro_range : 0 ≤ off ∧ 0 ≤ m ∧ off + m ≤ n * d_local_size d ∧ off + m + d_local_size d < two64;
  ro_apart : lo + m ≤ d_offset d ∨ d_offset d + d_local_size d ≤ lo
}.
Definition piece_ok (lo rb pn m : Z) (p : transfer_part) : Prop :=
  p_size p ≤ max_transfer_size ∧ part_within lo rb pn m p ∧ p_rank p < n.
Lemma pieces r lo d off m :
  range_ok r lo d off m →
  ∃ l k, split_by_rank (split_fuel (d_local_size d) m) lo (d_offset d) off (d_local_size d) m = Ret l ∧
    cut_parts max_transfer_size l = Ret k ∧ all_moved k = expected lo (d_offset d) off (d_local_size d) m ∧
    Forall (piece_ok lo (d_offset d) (d_local_size d) m) k.
Proof.
  intros [Hr Hn HL Hb (Hpn & Hd & Hd') (Ho & Hm & Hle & Hw) Hap].
  destruct (split_by_rank_spec (split_fuel (d_local_size d) m) lo (d_offset d) off (d_local_size d) m) as (l & Hl & Hall & Hin).
  { unfold no_wrap. repeat split; try lia. nia. }
  { right. by apply split_fuel_enough. }
  destruct (cut_parts_spec lo (d_offset d) (d_local_size d) m l) as (k & Hk & Hall' & Hin'); [apply max_transfer_size_positive|lia..|done|].
  exists l, k. split_and!; [done|done|congruence|]. apply Forall_forall. intros p Hp.
  rewrite Forall_forall in Hin'. destruct (Hin' p Hp) as (H1 & H2 & _). split_and!; [done|done|].
  destruct H2 as (Hs & _ & _). assert ((p_local_offset p, (p_rank p, p_remote_offset p)) ∈ all_moved k) as He.
  { apply list_elem_of_bind. exists p. split; [|done]. apply list_elem_of_fmap. exists 0. rewrite !Z.add_0_r. split; [done|].
    apply elem_of_seqZ. lia. }
  rewrite Hall', Hall in He. apply elem_of_expected in He as (i & Hi & _ & [= -> _]).
  apply Z.div_lt_upper_bound; [done|]. lia.
Qed.
(** the places of the range *)
Definition places (d : descriptor) (off m : Z) (x : Z * Z) : Prop := ∃ i, 0 ≤ i < m ∧ x = home (d_offset d) (d_local_size d) (off + i).
Definition bytes_of (lo m : Z) (o : Z) : Prop := lo ≤ o < lo + m.
Lemma places_apart r lo d off m q o : range_ok r lo d off m → bytes_of lo m o → ¬ places d off m (q, o).
Proof.
  intros [_ _ _ _ (Hpn & _) _ Hap] Ho (i & Hi & [= _ ->]). pose proof (Z.mod_pos_bound (off + i) (d_local_size d) Hpn).
  unfold bytes_of in Ho. lia.
Qed.

Lemma do_write_run r from d off m p :
  range_ok r (d_offset from) d off m →
  ∃ p', do_write_dma_and_wait_remote_written r seg from 0 d off m (set_parts seg p c) = (Ret tt, set_parts seg p' c) ∧
    (∀ i, 0 ≤ i < m → byte p' (home (d_offset d) (d_local_size d) (off + i)) = p r (d_offset from + i)) ∧
    (∀ q o, 0 ≤ q < n → ¬ places d off m (q, o) → p' q o = p q o).
Proof.
  intros Hok. destruct (pieces _ _ _ _ _ Hok) as (l & k & Hl & Hk & Hall & Hin). pose proof Hok as [Hr Hn HL Hb (Hpn & Hd & Hd') (Ho & Hm & Hle & Hw) Hap].
  assert (Hcopies : Forall copy_ok (as_write r <$> k)).
  { apply Forall_fmap. eapply Forall_impl; [exact Hin|]. intros x (? & (? & ? & ? & ? & ? & ?) & ?). unfold copy_ok. simpl. lia. }
  destruct (one_sided_loop (λ p sizes, gaspi_write_notify sizes r (p_local_offset p) (p_rank p) (p_remote_offset p) (p_size p))
              (as_write r) k p Hcopies) as (p' & Hp' & Ha).
  { intros x sizes p0 H1 H2 H3. by apply gaspi_write_done. }
  exists p'. unfold do_write_dma_and_wait_remote_written, write_dma, std. rewrite Z.add_0_r, w64_small by (unfold is_w64; lia).
  rewrite Hl, bind_lift, Hk, bind_lift. split; [exact Hp'|].
  assert (Hpairs : (as_write r <$> k) ≫= pairs = (λ m, ((r, m.1), m.2)) <$> expected (d_offset from) (d_offset d) off (d_local_size d) m)
    by (rewrite pairs_as_write; congruence).
  assert (Hsnd : ((as_write r <$> k) ≫= pairs).*2 = (expected (d_offset from) (d_offset d) off (d_local_size d) m).*2)
    by (rewrite Hpairs, <- list_fmap_compose; done).
  assert (Hplace : ∀ x, x ∈ ((as_write r <$> k) ≫= pairs).*2 ↔ places d off m x).
  { intros x. rewrite Hsnd, list_elem_of_fmap. unfold places. split.
    - intros ([y z] & -> & (i & Hi & _ & ->)%elem_of_expected). eauto.
    - intros (i & Hi & ->). eexists (_, _). split; [|apply elem_of_expected; eauto]. done. }
  destruct (run_copies_spec (as_write r <$> k) p) as [R1 R2].
  - rewrite Hsnd. by apply expected_homes.
  - intros s t Hs Ht%Hplace <-. rewrite Hpairs, <- list_fmap_compose in Hs. apply list_elem_of_fmap in Hs as ([y z] & -> & (i & Hi & -> & _)%elem_of_expected).
    revert Ht. apply (places_apart _ _ _ _ _ _ _ Hok). unfold bytes_of. simpl. lia.
  - split.
    + intros i Hi. assert (0 ≤ (off + i) / d_local_size d < n).
      { split; [apply Z.div_pos; lia|apply Z.div_lt_upper_bound; lia]. }
      unfold byte, home. simpl. rewrite Ha by done. apply (R1 (r, d_offset from + i) (home (d_offset d) (d_local_size d) (off + i))). rewrite Hpairs.
      apply list_elem_of_fmap. exists (d_offset from + i, home (d_offset d) (d_local_size d) (off + i)).
      split; [done|]. apply elem_of_expected. eauto.
    + intros q o Hq Hno. rewrite Ha by done. apply (R2 (q, o)). by rewrite Hplace.
Qed.
Lemma do_read_run r d off to_ m p :
  range_ok r (d_offset to_) d off m →
  ∃ p', dma_read_and_wait_for_readable r seg d off to_ 0 m (set_parts seg p c) = (Ret tt, set_parts seg p' c) ∧
    (∀ i, 0 ≤ i < m → p' r (d_offset to_ + i) = byte p (home (d_offset d) (d_local_size d) (off + i))) ∧
    (∀ q o, 0 ≤ q < n → ¬ (q = r ∧ bytes_of (d_offset to_) m o) → p' q o = p q o).
Proof.
  intros Hok. destruct (pieces _ _ _ _ _ Hok) as (l & k & Hl & Hk & Hall & Hin). pose proof Hok as [Hr Hn HL Hb (Hpn & Hd & Hd') (Ho & Hm & Hle & Hw) Hap].
  assert (Hcopies : Forall copy_ok (as_read r <$> k)).
  { apply Forall_fmap. eapply Forall_impl; [exact Hin|]. intros x (? & (? & ? & ? & ? & ? & ?) & ?). unfold copy_ok. simpl. lia. }
  destruct (one_sided_loop (λ p sizes, gaspi_read sizes r (p_local_offset p) (p_rank p) (p_remote_offset p) (p_size p))
              (as_read r) k p Hcopies) as (p' & Hp' & Ha).
  { intros x sizes p0 H1 H2 H3. by apply gaspi_read_done. }
  exists p'. unfold dma_read_and_wait_for_readable, read_dma, std. rewrite Z.add_0_r, w64_small by (unfold is_w64; lia).
  rewrite Hl, bind_lift, Hk, bind_lift. split; [exact Hp'|].
  assert (Hpairs : (as_read r <$> k) ≫= pairs = (λ m, (m.2, (r, m.1))) <$> expected (d_offset to_) (d_offset d) off (d_local_size d) m)
    by (rewrite pairs_as_read; congruence).
  assert (Htarget : ∀ q o, (q, o) ∈ ((as_read r <$> k) ≫= pairs).*2 ↔ q = r ∧ bytes_of (d_offset to_) m o).
  { intros q o. rewrite Hpairs, <- list_fmap_compose, list_elem_of_fmap. unfold bytes_of. split.
    - intros ([y z] & [= -> ->] & (i & Hi & -> & ->)%elem_of_expected). simpl. lia.
    - intros (-> & Hi). exists (o, home (d_offset d) (d_local_size d) (off + (o - d_offset to_))). split; [done|].
      apply elem_of_expected. exists (o - d_offset to_). split_and!; lia || done. }
  destruct (run_copies_spec (as_read r <$> k) p) as [R1 R2].
  - rewrite Hpairs, <- list_fmap_compose. pose proof (expected_locals (d_offset to_) (d_offset d) off (d_local_size d) m) as Hnd.
    apply (NoDup_fmap_2 (pair r)) in Hnd. by rewrite <- list_fmap_compose in Hnd.
  - intros s [q o] Hs [-> Ho']%Htarget ->. rewrite Hpairs, <- list_fmap_compose in Hs.
    apply list_elem_of_fmap in Hs as ([y z] & E & (i & Hi & -> & ->)%elem_of_expected). simpl in E.
    apply (places_apart _ _ _ _ _ r o Hok Ho'). exists i. split; [done|congruence].
  - split.
    + intros i Hi. rewrite Ha by lia. apply (R1 (home (d_offset d) (d_local_size d) (off + i)) (r, d_offset to_ + i)). rewrite Hpairs.
      apply list_elem_of_fmap. exists (d_offset to_ + i, home (d_offset d) (d_local_size d) (off + i)).
      split; [done|]. apply elem_of_expected. eauto.
    + intros q o Hq Hno. rewrite Ha by done. apply (R2 (q, o)). by rewrite Htarget.
Qed.
End one_sided.

(** ** What a transfer leaves as it is *)
Definition static (a : area) : area := set_com_handles (λ _, []) (set_memory (λ _ _, 0) a).
Definition pool (r seg : Z) (c : cluster) : list handle_buffer := from_option m_com_handles [] (area_at r seg c).
Definition bookkeeping : node → node := set_areas (λ _, ∅).
Definition same_shape (c c' : cluster) : Prop :=
  files c' = files c ∧ length (nodes c') = length (nodes c) ∧ (∀ q, bookkeeping <$> node_at q c' = bookkeeping <$> node_at q c) ∧
  ∀ q k, 0 ≤ q → static <$> area_at q k c' = static <$> area_at q k c ∧ pool q k c' ≡ₚ pool q k c.
#[global] Instance same_shape_preorder : PreOrder same_shape.
Proof.
  split; [done|]. intros x y z (F1 & N1 & B1 & H1) (F2 & N2 & B2 & H2). split_and!; [congruence..|intros q; congruence|]. intros q k Hq.
  destruct (H1 q k Hq) as [A1 P1], (H2 q k Hq) as [A2 P2]. split; [congruence|by rewrite P2].
Qed.
Lemma bookkeeping_on_area q r k f c : bookkeeping <$> node_at q (on_area r k f c) = bookkeeping <$> node_at q c.
Proof.
  unfold node_at, on_area, on_node. cbn [nodes set_nodes]. destruct (decide (Z.to_nat q = Z.to_nat r)) as [->|]; [|by rewrite list_lookup_alter_ne].
  rewrite list_lookup_alter_eq. by destruct (nodes c !! Z.to_nat r).
Qed.
Lemma same_shape_set_parts seg p c : same_shape c (set_parts seg p c).
Proof.
  split_and!; [done|apply length_imap| |].
  { intros q. unfold node_at, set_parts. cbn [nodes set_nodes]. rewrite list_lookup_imap. by destruct (nodes c !! Z.to_nat q). }
  intros q k Hq. unfold pool. rewrite area_at_set_parts by done.
  destruct (decide (k = seg)) as [->|]; [|done]. by destruct (area_at q seg c).
Qed.
Lemma length_on_area r k f c : length (nodes (on_area r k f c)) = length (nodes c).
Proof. unfold on_area, on_node. cbn [nodes set_nodes]. by rewrite length_alter. Qed.
Lemma same_shape_on_area r k f c :
  0 ≤ r → (∀ a, area_at r k c = Some a → static (f a) = static a ∧ m_com_handles (f a) ≡ₚ m_com_handles a) → same_shape c (on_area r k f c).
Proof.
  intros Hr Hf. split_and!; [done|apply length_on_area|intros q; apply bookkeeping_on_area|]. intros q k' Hq. unfold pool. rewrite area_at_on_area by done.
  destruct (decide (q = r ∧ k' = k)) as [[-> ->]|]; [|done]. destruct (area_at r k c) as [a|]; [|done]. simpl. destruct (Hf a); [done|]. split; [congruence|done].
Qed.
Lemma static_lookup c c' q k a :
  same_shape c c' → 0 ≤ q → area_at q k c = Some a → ∃ a', area_at q k c' = Some a' ∧ static a' = static a.
Proof.
  intros (_ & _ & _ & Hs) Hq Ha. destruct (Hs q k Hq) as [E _]. rewrite Ha in E. simpl in E. apply fmap_Some in E as (a' & Ha' & E). eauto.
Qed.
Lemma static_com f a : static (set_com_handles f a) = static a.
Proof. by destruct a. Qed.
Lemma static_fields a a' :
  static a' = static a → m_handles a' = m_handles a ∧ a_local_size a' = a_local_size a ∧ a_type a' = a_type a.
Proof. destruct a, a'. unfold static. simpl. intros [=]. done. Qed.

(** ** Copies through a communication buffer *)
Section copying.
Context `{HG : GaspiSpec} `{Syscalls}.
Context (n L r seg sseg : Z) (buf : handle_buffer) (hs hd : Z) (ds d db : descriptor).

(** an allocation in mapped memory of node [r] *)
Record mapped (c : cluster) (s : area) : Prop := {
  mp_area : area_at r sseg c = Some s;
  mp_type : a_type s = SEG_SHM;
  mp_handle : m_handles s !! hs = Some ds;
  mp_whole : d_local_size ds = d_size ds;
  mp_within : 0 ≤ d_offset ds ∧ d_offset ds + d_size ds ≤ a_local_size s;
  mp_bounded : a_local_size s < two64
}.
(** an allocation that is distributed over all nodes, and a communication buffer of node [r] *)
Record distributed (c : cluster) : Prop := {
  ds_present : present seg c n L;
  ds_rank : 0 ≤ r < n;
  ds_nodes : n ≤ two16;
  ds_segment : L < two64;
  ds_area : ∃ a, area_at r seg c = Some a ∧ m_handles a !! hd = Some d ∧ m_handles a !! b_handle buf = Some db;
  ds_part : 0 < d_local_size d ∧ 0 ≤ d_offset d ∧ d_offset d + d_local_size d ≤ L;
  ds_size : d_size d ≤ n * d_local_size d ∧ d_size d + d_local_size d < two64;
  ds_buffer : d_offset db = b_data buf ∧ 0 < hb_size buf ∧ 0 ≤ b_data buf ∧ b_data buf + hb_size buf ≤ L;
  ds_apart : b_data buf + hb_size buf ≤ d_offset d ∨ d_offset d + d_local_size d ≤ b_data buf
}.
Lemma distributed_range c off m :
  distributed c → 0 ≤ off → 0 ≤ m ≤ hb_size buf → off + m ≤ d_size d → range_ok n L r (d_offset db) d off m.
Proof. intros [? ? ? ? _ ? ? (-> & ? & ? & ?) ?] ? ? ?. split; lia || done. Qed.
Lemma ask_run {X} (f : area → outcome exn X) q k c a : area_at q k c = Some a → ask q k f c = std (f a) c.
Proof. intros Ha. unfold ask, the_area. unfold mbind, M_bind, get, std, lift. rewrite Ha. done. Qed.
Lemma the_area_run q k c a : area_at q k c = Some a → the_area q k c = (Ret a, c).
Proof. intros Ha. unfold the_area. rewrite bind_get, Ha. done. Qed.
Lemma bind_eq {S E A B} (m : M S E A) (k : A → M S E B) s a s' : m s = (Ret a, s') → (m ≫= k) s = k a s'.
Proof. intros Hm. unfold mbind, M_bind. by rewrite Hm. Qed.

(** what the access functions of mapped memory find *)
Lemma mapped_checks c s off m :
  mapped c s → 0 ≤ off → 0 < m → off + m ≤ d_size ds →
  check_bounds (mk_location hs off) m s = Ret tt ∧ is_local r (mk_location hs off) m s = Ret true ∧
  location_to_offset (mk_location hs off) s = Ret (d_offset ds + off) ∧
  area_ptr sseg s (d_offset ds + off) = Some (sseg, d_offset ds + off).
Proof.
  intros [Ha Ht Hh Hw Hin Hb] Ho Hm Hle.
  assert (w64 (off + m) = off + m) as Hwm by (apply w64_small; unfold is_w64; lia).
  unfold check_bounds, is_local, location_to_offset, find_handle, is_range_local, area_ptr, raw_ptr. cbn [l_handle l_offset].
  rewrite Hh. unfold mbind, outcome_bind. cbn [or_throw]. rewrite Ht, Hw, Hwm. split_and!.
  - by rewrite (proj2 (Z.ltb_lt _ _)), (proj2 (Z.leb_le _ _)) by lia.
  - change (SEG_SHM =? SEG_GASPI) with false. change (SEG_SHM =? SEG_SHM) with true. cbn iota.
    rewrite !w64_small by (unfold is_w64; lia). by rewrite (proj2 (Z.ltb_lt _ _)), (proj2 (Z.leb_le _ _)) by lia.
  - rewrite (proj2 (Z.eqb_neq _ _)), Z.mod_small, w64_small by (unfold is_w64; lia). done.
  - change (SEG_SHM =? SEG_BEEGFS) with false. cbn iota. by rewrite (proj2 (Z.ltb_lt _ _)) by lia.
Qed.

Lemma distributed_shape c c' : same_shape c c' → distributed c → distributed c'.
Proof.
  intros Hs [H1 H2 H3 H4 (a & Ha & Hd & Hb) H6 H7 H8 H9]. split; try done.
  - intros q Hq. destruct (H1 q Hq) as (b & Hb' & <-). destruct (static_lookup _ _ q _ _ Hs ltac:(lia) Hb') as (b' & ? & (? & ? & ?)%static_fields). eauto.
  - destruct (static_lookup _ _ r _ _ Hs ltac:(lia) Ha) as (a' & ? & (? & ? & ?)%static_fields). exists a'. split_and!; congruence.
Qed.
Lemma mapped_shape c c' s : 0 ≤ r → same_shape c c' → mapped c s → ∃ s', mapped c' s' ∧ static s' = static s.
Proof.
  intros Hr Hs [H1 H2 H3 H4 H5 H6]. destruct (static_lookup _ _ _ _ _ Hs Hr H1) as (s' & Hs' & E). exists s'.
  destruct (static_fields _ _ E) as (? & ? & ?). split; [|done]. split; congruence || lia.
Qed.

Context (Hother : sseg ≠ seg).
(** the memory of the buffer after [m] bytes were read into it *)
Definition buffered (m : Z) (data : Z → Z) (p : parts) : parts :=
  λ q, if q =? r then write_bytes (b_data buf) m data (p r) else p q.
Lemma buffered_in m data p i : 0 ≤ i < m → buffered m data p r (b_data buf + i) = data i.
Proof.
  intros Hi. unfold buffered, write_bytes. rewrite Z.eqb_refl, (proj2 (Z.leb_le _ _)), (proj2 (Z.ltb_lt _ _)) by lia.
  simpl. f_equal. lia.
Qed.
Lemma buffered_out m data p q o : ¬ (q = r ∧ bytes_of (b_data buf) m o) → buffered m data p q o = p q o.
Proof.
  intros Ho. unfold buffered, write_bytes. destruct (Z.eqb_spec q r) as [->|]; [|done].
  destruct (Z.leb_spec (b_data buf) o), (Z.ltb_spec o (b_data buf + m)); simpl; try done. destruct Ho. unfold bytes_of. lia.
Qed.
Lemma area_at_other c p : 0 ≤ r → area_at r sseg (set_parts seg p c) = area_at r sseg c.
Proof. intros Hr. by rewrite area_at_set_parts, decide_False by done. Qed.
Lemma area_at_same c p a : 0 ≤ r → area_at r seg c = Some a → area_at r seg (set_parts seg p c) = Some (set_memory (λ _, p r) a).
Proof. intros Hr Ha. by rewrite area_at_set_parts, decide_True, Ha by done. Qed.
Lemma local_size_L c a : distributed c → area_at r seg c = Some a → a_local_size a = L.
Proof. intros Hd Ha. destruct (ds_present _ Hd r) as (a' & Ha' & <-); [apply Hd|]. congruence. Qed.

Lemma read_from_mapped c s p off m :
  mapped c s → distributed c → 0 ≤ off → 0 < m ≤ hb_size buf → off + m ≤ d_size ds →
  read_from r sseg (mk_location hs off) (Some (seg, b_data buf)) m (set_parts seg p c) =
  (Ret m, set_parts seg (buffered m (λ i, memory s (d_offset ds + off + i)) p) c).
Proof.
  intros Hm Hd Ho Hb Hle. destruct (mapped_checks c s off m Hm) as (K1 & K2 & K3 & K4); [lia..|].
  pose proof (ds_rank _ Hd) as Hr. destruct (ds_area _ Hd) as (a & Ha & _). pose proof (local_size_L c a Hd Ha) as HL.
  assert (area_at r sseg (set_parts seg p c) = Some s) as Hs by (rewrite area_at_other by lia; apply Hm).
  unfold read_from. rewrite (bind_eq _ _ _ tt (set_parts seg p c)) by (rewrite (ask_run _ _ _ _ s), K1 by done; done).
  rewrite (bind_eq _ _ _ true (set_parts seg p c)) by (rewrite (ask_run _ _ _ _ s), K2 by done; done).
  rewrite (bind_eq _ _ _ (d_offset ds + off) (set_parts seg p c)) by (rewrite (ask_run _ _ _ _ s), K3 by done; done).
  unfold read_from_impl. rewrite (bind_eq _ _ _ s (set_parts seg p c)) by (by apply the_area_run).
  rewrite (mp_type _ _ Hm). change (SEG_SHM =? SEG_BEEGFS) with false. cbn iota. rewrite K4.
  rewrite (bind_eq _ _ _ tt (set_parts seg (buffered m (λ i, memory s (d_offset ds + off + i)) p) c)); [done|]. unfold memmove.
  rewrite (bind_eq _ _ _ s (set_parts seg p c)) by (by apply the_area_run).
  rewrite (bind_eq _ _ _ (set_memory (λ _, p r) a) (set_parts seg p c)) by (apply the_area_run; apply area_at_same; [lia|done]).
  unfold in_memory. cbn [a_local_size set_memory]. rewrite HL. pose proof (mp_within _ _ Hm). pose proof (ds_buffer _ Hd) as (? & ? & ? & ?).
  rewrite !(proj2 (Z.leb_le _ _)) by lia. simpl. unfold modify. by rewrite (on_area_set_parts seg r _ p c a) by (lia || done).
Qed.

Lemma send_loop_run c s fuel : ∀ p so off m,
  mapped c s → distributed c → (Z.to_nat m ≤ fuel)%nat → 0 ≤ so → 0 ≤ off → 0 ≤ m → so + m ≤ d_size ds → off + m ≤ d_size d →
  ∃ p', send_loop fuel r sseg (mk_location hs so) seg (mk_location hd off) buf m (set_parts seg p c) = (Ret tt, set_parts seg p' c) ∧
    (∀ i, 0 ≤ i < m → byte p' (home (d_offset d) (d_local_size d) (off + i)) = memory s (d_offset ds + so + i)) ∧
    (∀ q o, 0 ≤ q < n → ¬ places d off m (q, o) → ¬ (q = r ∧ bytes_of (b_data buf) (hb_size buf) o) → p' q o = p q o).
Proof.
  induction fuel as [|fuel IH]; intros p so off m Hmap Hd Hf Hso Hoff Hm Hle1 Hle2; cbn [send_loop];
    (destruct (Z.eqb_spec m 0) as [->|Hm0]; [exists p; split_and!; [done|lia|done]|]); [lia|].
  set (k := Z.min m (hb_size buf)). pose proof (ds_buffer _ Hd) as (Hbo & Hb1 & Hb2 & Hb3). pose proof (ds_rank _ Hd) as Hr.
  rewrite (bind_eq _ _ _ _ _ (read_from_mapped c s p so k Hmap Hd ltac:(lia) ltac:(lia) ltac:(lia))).
  rewrite (proj2 (Z.eqb_neq k 0)) by lia. set (p1 := buffered _ _ p). destruct (ds_area _ Hd) as (a & Ha & Hhd & Hhb).
  assert (area_at r seg (set_parts seg p1 c) = Some (set_memory (λ _, p1 r) a)) as Ha1 by (apply area_at_same; [lia|done]).
  rewrite (bind_eq _ _ _ db (set_parts seg p1 c)) by (rewrite (ask_run _ _ _ _ _ Ha1); unfold descriptor_of, find_handle; cbn [m_handles set_memory]; by rewrite Hhb).
  rewrite (bind_eq _ _ _ d (set_parts seg p1 c)) by (rewrite (ask_run _ _ _ _ _ Ha1); unfold descriptor_of, find_handle; cbn [m_handles set_memory l_handle]; by rewrite Hhd).
  destruct (do_write_run seg c n L (ds_present _ Hd) r db d off k p1) as (p2 & E2 & W1 & W2); [apply (distributed_range c); [done|lia..]|].
  cbn [l_offset]. rewrite (bind_eq _ _ _ _ _ E2). unfold move_by. cbn [l_handle l_offset].
  pose proof (mp_within _ _ Hmap). pose proof (mp_bounded _ _ Hmap). pose proof (ds_size _ Hd).
  pose proof (ds_part _ Hd) as (Hpn & _).
  rewrite (w64_small (so + k)), (w64_small (off + k)), (w64_small (m - k)) by (unfold is_w64; lia).
  destruct (IH p2 (so + k) (off + k) (m - k)) as (p' & E' & S1 & S2); [done|done|lia..|]. exists p'. split; [exact E'|]. split.
  - intros i Hi. destruct (Z_lt_le_dec i k) as [Hik|Hik].
    + assert (Hq : 0 ≤ (off + i) / d_local_size d < n) by (split; [apply Z.div_pos; lia|apply Z.div_lt_upper_bound; lia]).
      rewrite <- (buffered_in k (λ i, memory s (d_offset ds + so + i)) p i) by lia. fold p1. rewrite <- Hbo, <- W1 by lia. unfold byte. apply S2; [done| |].
      * intros (j & Hj & E). apply (home_inj (d_offset d)) in E; lia.
      * intros [_ Hin]. simpl in Hin. unfold bytes_of in Hin. pose proof (Z.mod_pos_bound (off + i) _ Hpn). pose proof (ds_apart _ Hd). lia.
    + replace (off + i) with (off + k + (i - k)) by lia. rewrite S1 by lia. f_equal. lia.
  - intros q o Hq Hno Hnb. rewrite S2, W2, <- (buffered_out k (λ i, memory s (d_offset ds + so + i)) p q o); try done.
    + intros [-> Hin]. apply Hnb. split; [done|]. unfold bytes_of in *. lia.
    + intros (j & Hj & E). apply Hno. exists j. split; [lia|done].
    + intros (j & Hj & E). apply Hno. exists (k + j). split; [lia|]. by rewrite E, Z.add_assoc.
Qed.

Lemma write_to_mapped c s p off m :
  mapped c s → distributed c → 0 ≤ off → 0 < m ≤ hb_size buf → off + m ≤ d_size ds →
  write_to r sseg (mk_location hs off) (Some (seg, b_data buf)) m (set_parts seg p c) =
  (Ret m, set_parts seg p (on_area r sseg (set_memory (write_bytes (d_offset ds + off) m (λ i, p r (b_data buf + i)))) c)).
Proof.
  intros Hm Hd Ho Hb Hle. destruct (mapped_checks c s off m Hm) as (K1 & K2 & K3 & K4); [lia..|].
  pose proof (ds_rank _ Hd) as Hr. destruct (ds_area _ Hd) as (a & Ha & _). pose proof (local_size_L c a Hd Ha) as HL.
  assert (area_at r sseg (set_parts seg p c) = Some s) as Hs by (rewrite area_at_other by lia; apply Hm).
  unfold write_to. rewrite (bind_eq _ _ _ tt (set_parts seg p c)) by (rewrite (ask_run _ _ _ _ s), K1 by done; done).
  rewrite (bind_eq _ _ _ true (set_parts seg p c)) by (rewrite (ask_run _ _ _ _ s), K2 by done; done).
  rewrite (bind_eq _ _ _ (d_offset ds + off) (set_parts seg p c)) by (rewrite (ask_run _ _ _ _ s), K3 by done; done).
  unfold write_to_impl. rewrite (bind_eq _ _ _ s (set_parts seg p c)) by (by apply the_area_run).
  rewrite (mp_type _ _ Hm). change (SEG_SHM =? SEG_BEEGFS) with false. cbn iota. rewrite K4.
  rewrite <- on_area_set_parts_comm by done. set (c' := on_area _ _ _ _).
  rewrite (bind_eq _ _ _ tt c'); [done|]. unfold memmove.
  rewrite (bind_eq _ _ _ (set_memory (λ _, p r) a) (set_parts seg p c)) by (apply the_area_run; apply area_at_same; [lia|done]).
  rewrite (bind_eq _ _ _ s (set_parts seg p c)) by (by apply the_area_run).
  unfold in_memory. cbn [a_local_size set_memory]. rewrite HL. pose proof (mp_within _ _ Hm). pose proof (ds_buffer _ Hd) as (? & ? & ? & ?).
  rewrite !(proj2 (Z.leb_le _ _)) by lia. done.
Qed.
Lemma mapped_update c s f : 0 ≤ r → mapped c s → mapped (on_area r sseg (set_memory f) c) (set_memory f s).
Proof. intros Hr [H1 H2 H3 H4 H5 H6]. split; try done. rewrite area_at_on_area, decide_True, H1 by done. done. Qed.
Lemma distributed_update c f : distributed c → distributed (on_area r sseg (set_memory f) c).
Proof.
  intros [H1 H2 H3 H4 H5 H6 H7 H8 H9]. assert (∀ q, 0 ≤ q → area_at q seg (on_area r sseg (set_memory f) c) = area_at q seg c) as E.
  { intros q Hq. rewrite area_at_on_area, decide_False by (lia || naive_solver). done. }
  split; try done.
  - intros q Hq. rewrite E by lia. by apply H1.
  - rewrite E by lia. done.
Qed.

Lemma recv_loop_run fuel : ∀ c s p so off m,
  mapped c s → distributed c → (Z.to_nat m ≤ fuel)%nat → 0 ≤ so → 0 ≤ off → 0 ≤ m → so + m ≤ d_size ds → off + m ≤ d_size d →
  ∃ p' mem, recv_loop fuel r sseg (mk_location hs so) seg (mk_location hd off) buf m (set_parts seg p c) =
      (Ret tt, set_parts seg p' (on_area r sseg (set_memory (λ _, mem)) c)) ∧
    (∀ i, 0 ≤ i < m → mem (d_offset ds + so + i) = byte p (home (d_offset d) (d_local_size d) (off + i))) ∧
    (∀ o, ¬ bytes_of (d_offset ds + so) m o → mem o = memory s o) ∧
    (∀ q o, 0 ≤ q < n → ¬ (q = r ∧ bytes_of (b_data buf) (hb_size buf) o) → p' q o = p q o).
Proof.
  induction fuel as [|fuel IH]; intros c s p so off m Hmap Hd Hf Hso Hoff Hm Hle1 Hle2; cbn [recv_loop];
    (destruct (Z.eqb_spec m 0) as [->|Hm0]; [exists p, (memory s); split_and!; [|lia|done..];
      rewrite on_area_id; [done|]; intros a Ha; rewrite (mp_area _ _ Hmap) in Ha; injection Ha as <-; apply set_memory_id|]); [lia|].
  set (k := Z.min m (hb_size buf)). pose proof (ds_buffer _ Hd) as (Hbo & Hb1 & Hb2 & Hb3). pose proof (ds_rank _ Hd) as Hr.
  destruct (ds_area _ Hd) as (a & Ha & Hhd & Hhb).
  assert (area_at r seg (set_parts seg p c) = Some (set_memory (λ _, p r) a)) as Ha1 by (apply area_at_same; [lia|done]).
  rewrite (bind_eq _ _ _ d (set_parts seg p c)) by (rewrite (ask_run _ _ _ _ _ Ha1); unfold descriptor_of, find_handle; cbn [m_handles set_memory l_handle]; by rewrite Hhd).
  rewrite (bind_eq _ _ _ db (set_parts seg p c)) by (rewrite (ask_run _ _ _ _ _ Ha1); unfold descriptor_of, find_handle; cbn [m_handles set_memory]; by rewrite Hhb).
  destruct (do_read_run seg c n L (ds_present _ Hd) r d off db k p) as (p1 & E1 & R1 & R2); [apply (distributed_range c); [done|lia..]|].
  cbn [l_offset]. rewrite (bind_eq _ _ _ _ _ E1).
  rewrite (bind_eq _ _ _ _ _ (write_to_mapped c s p1 so k Hmap Hd ltac:(lia) ltac:(lia) ltac:(lia))). rewrite Z.eqb_refl.
  set (w := write_bytes _ _ _). unfold move_by. cbn [l_handle l_offset].
  pose proof (mp_within _ _ Hmap). pose proof (mp_bounded _ _ Hmap). pose proof (ds_size _ Hd). pose proof (ds_part _ Hd) as (Hpn & _).
  rewrite (w64_small (so + k)), (w64_small (off + k)), (w64_small (m - k)) by (unfold is_w64; lia).
  destruct (IH _ _ p1 (so + k) (off + k) (m - k) (mapped_update c s w ltac:(lia) Hmap) (distributed_update c w Hd)) as (p' & mem & E' & S1 & S2 & S3); [lia..|].
  exists p', mem. split; [rewrite E', on_area_on_area; done|]. pose proof (ds_apart _ Hd) as Hap.
  assert (Hw : ∀ o, w (memory s) o = if decide (bytes_of (d_offset ds + so) k o) then byte p (home (d_offset d) (d_local_size d) (off + (o - (d_offset ds + so)))) else memory s o).
  { intros o. unfold w, write_bytes, bytes_of. destruct (decide _) as [Ho|Ho].
    - rewrite (proj2 (Z.leb_le _ _)), (proj2 (Z.ltb_lt _ _)) by lia. simpl. rewrite <- Hbo. apply R1. lia.
    - destruct (Z.leb_spec (d_offset ds + so) o), (Z.ltb_spec o (d_offset ds + so + k)); simpl; done || lia. }
  split_and!.
  - intros i Hi. destruct (Z_lt_le_dec i k) as [Hik|Hik].
    + rewrite S2 by (unfold bytes_of; lia). change (memory (set_memory w s)) with (w (memory s)). rewrite Hw, decide_True by (unfold bytes_of; lia).
      do 2 f_equal. lia.
    + replace (d_offset ds + so + i) with (d_offset ds + (so + k) + (i - k)) by lia. rewrite S1 by lia.
      replace (off + k + (i - k)) with (off + i) by lia. unfold byte. apply R2.
      * unfold home. simpl. split; [apply Z.div_pos; lia|apply Z.div_lt_upper_bound; lia].
      * unfold home, bytes_of. simpl. pose proof (Z.mod_pos_bound (off + i) _ Hpn). lia.
  - intros o Ho. rewrite S2 by (unfold bytes_of in *; lia). change (memory (set_memory w s)) with (w (memory s)).
    rewrite Hw, decide_False by (unfold bytes_of in *; lia). done.
  - intros q o Hq Hno. rewrite S3, R2; try done. intros [-> Hin]. apply Hno. split; [done|]. unfold bytes_of in *. lia.
Qed.

(** ** The whole copy *)
Definition take_buffer (rest : list handle_buffer) : cluster → cluster := on_area r seg (set_com_handles (λ _, rest)).
Definition put_buffer : cluster → cluster := on_area r seg (set_com_handles (.++ [buf])).
Lemma pool_get_run c rest : distributed c → pool r seg c = buf :: rest → pool_get r seg c = (Ret buf, take_buffer rest c).
Proof.
  intros Hd Hp. destruct (ds_area _ Hd) as (a & Ha & _). unfold pool in Hp. rewrite Ha in Hp. simpl in Hp.
  unfold pool_get. rewrite (bind_eq _ _ _ a c) by (by apply the_area_run). rewrite Hp. done.
Qed.
Lemma buffer_returned c c' rest :
  distributed c → pool r seg c = buf :: rest → same_shape (take_buffer rest c) c' → same_shape c (put_buffer c').
Proof.
  intros Hd Hp (F & N & B & Hs). pose proof (ds_rank _ Hd) as Hr. unfold put_buffer. unfold take_buffer in N, B, Hs.
  split; [done|]. rewrite length_on_area in *. split; [done|]. split; [intros q; by rewrite bookkeeping_on_area, B, bookkeeping_on_area|]. intros q k Hq. specialize (Hs q k Hq). unfold pool in *.
  rewrite area_at_on_area in * by lia. destruct (decide (q = r ∧ k = seg)) as [[-> ->]|]; [|done].
  destruct (area_at r seg c) as [a|]; [|done]. destruct (area_at r seg c') as [a'|]; [|by destruct Hs]. simpl in *.
  destruct Hs as [E P]. rewrite static_com in *. split; [done|]. rewrite P, Hp. symmetry. apply Permutation_cons_append.
Qed.
Lemma take_buffer_parts c rest q : 0 ≤ q → distributed c → segment_parts seg (take_buffer rest c) q = segment_parts seg c q.
Proof.
  intros Hq Hd. pose proof (ds_rank _ Hd). unfold segment_parts, take_buffer. rewrite area_at_on_area by lia.
  destruct (decide _) as [[-> _]|]; [|done]. by destruct (area_at r seg c).
Qed.
Lemma put_buffer_parts c q : 0 ≤ q → 0 ≤ r → segment_parts seg (put_buffer c) q = segment_parts seg c q.
Proof.
  intros Hq Hr. unfold segment_parts, put_buffer. rewrite area_at_on_area by lia.
  destruct (decide _) as [[-> _]|]; [|done]. by destruct (area_at r seg c).
Qed.
Lemma take_buffer_ready c rest : distributed c → distributed (take_buffer rest c).
Proof.
  intros [H1 H2 H3 H4 (a & Ha & Hd & Hb) H6 H7 H8 H9]. unfold take_buffer. split; try done.
  - intros q Hq. destruct (H1 q Hq) as (b & Hb' & <-). rewrite area_at_on_area by lia. destruct (decide _) as [[-> _]|]; [|eauto].
    rewrite Ha in Hb'. injection Hb' as <-. rewrite Ha. simpl. eauto.
  - rewrite area_at_on_area, decide_True, Ha by (lia || done). eexists. split; [done|]. done.
Qed.
Lemma other_area c f q k : 0 ≤ q → 0 ≤ r → k ≠ seg → area_at q k (on_area r seg f c) = area_at q k c.
Proof. intros Hq Hr Hk. rewrite area_at_on_area, decide_False by (lia || naive_solver). done. Qed.

Lemma do_send_run c s rest so off m :
  mapped c s → distributed c → pool r seg c = buf :: rest → 0 ≤ so → 0 ≤ off → 0 ≤ m → so + m ≤ d_size ds → off + m ≤ d_size d →
  ∃ c', do_send r sseg (mk_location hs so) seg (mk_location hd off) m c = (Ret tt, c') ∧ same_shape c c' ∧
    (∀ i, 0 ≤ i < m → byte (segment_parts seg c') (home (d_offset d) (d_local_size d) (off + i)) = memory s (d_offset ds + so + i)) ∧
    (∀ q o, 0 ≤ q < n → ¬ places d off m (q, o) → ¬ (q = r ∧ bytes_of (b_data buf) (hb_size buf) o) →
       segment_parts seg c' q o = segment_parts seg c q o) ∧
    (∀ q k, 0 ≤ q → k ≠ seg → area_at q k c' = area_at q k c).
Proof.
  intros Hm Hd Hp Hso Hoff Hm0 Hle1 Hle2. pose proof (ds_rank _ Hd) as Hr. set (c1 := take_buffer rest c).
  assert (Hd1 : distributed c1) by (by apply take_buffer_ready).
  assert (Hm1 : mapped c1 s) by (destruct Hm; split; try done; unfold c1, take_buffer; by rewrite other_area by (lia || done)).
  destruct (send_loop_run c1 s (S (Z.to_nat m)) (segment_parts seg c1) so off m) as (p' & E & S1 & S2); [done|done|lia..|].
  rewrite set_parts_id in E. exists (put_buffer (set_parts seg p' c1)). unfold do_send.
  rewrite (bind_eq _ _ _ _ _ (pool_get_run c rest Hd Hp)). fold c1. rewrite (bind_eq _ _ _ _ _ E). split; [done|].
  assert (Hpart : ∀ q, 0 ≤ q < n → segment_parts seg (put_buffer (set_parts seg p' c1)) q = p' q).
  { intros q Hq. rewrite put_buffer_parts by lia. destruct (ds_present _ Hd1 q Hq) as (a & Ha & _). by apply (segment_parts_set_parts seg q p' c1 a); [lia|]. }
  pose proof (ds_part _ Hd) as (Hpn & _). pose proof (ds_size _ Hd). split_and!.
  - apply (buffer_returned _ _ rest); [done..|]. apply same_shape_set_parts.
  - intros i Hi. unfold byte. rewrite Hpart; [by apply S1|]. simpl. split; [apply Z.div_pos; lia|apply Z.div_lt_upper_bound; lia].
  - intros q o Hq K1 K2. rewrite Hpart, S2 by done. unfold c1. by rewrite take_buffer_parts by (lia || done).
  - intros q k Hq Hk. unfold put_buffer. rewrite other_area by lia. rewrite area_at_set_parts, decide_False by done.
    unfold c1, take_buffer. by rewrite other_area by lia.
Qed.
Lemma do_recv_run c s rest so off m :
  mapped c s → distributed c → pool r seg c = buf :: rest → 0 ≤ so → 0 ≤ off → 0 ≤ m → so + m ≤ d_size ds → off + m ≤ d_size d →
  ∃ c' s', do_recv r sseg (mk_location hs so) seg (mk_location hd off) m c = (Ret tt, c') ∧ same_shape c c' ∧
    area_at r sseg c' = Some s' ∧
    (∀ i, 0 ≤ i < m → memory s' (d_offset ds + so + i) = byte (segment_parts seg c) (home (d_offset d) (d_local_size d) (off + i))) ∧
    (∀ o, ¬ bytes_of (d_offset ds + so) m o → memory s' o = memory s o) ∧
    (∀ q o, 0 ≤ q < n → ¬ (q = r ∧ bytes_of (b_data buf) (hb_size buf) o) → segment_parts seg c' q o = segment_parts seg c q o) ∧
    (∀ q k, 0 ≤ q → k ≠ seg → (q, k) ≠ (r, sseg) → area_at q k c' = area_at q k c).
Proof.
  intros Hm Hd Hp Hso Hoff Hm0 Hle1 Hle2. pose proof (ds_rank _ Hd) as Hr. set (c1 := take_buffer rest c).
  assert (Hd1 : distributed c1) by (by apply take_buffer_ready).
  assert (Hm1 : mapped c1 s) by (destruct Hm; split; try done; unfold c1, take_buffer; by rewrite other_area by (lia || done)).
  destruct (recv_loop_run (S (Z.to_nat m)) c1 s (segment_parts seg c1) so off m) as (p' & mem & E & S1 & S2 & S3); [done|done|lia..|].
  rewrite set_parts_id in E. set (c2 := on_area r sseg (set_memory (λ _, mem)) c1) in *.
  exists (put_buffer (set_parts seg p' c2)), (set_memory (λ _, mem) s). unfold do_recv.
  rewrite (bind_eq _ _ _ _ _ (pool_get_run c rest Hd Hp)). fold c1. rewrite (bind_eq _ _ _ _ _ E). split; [done|].
  assert (Hpart : ∀ q, 0 ≤ q < n → segment_parts seg (put_buffer (set_parts seg p' c2)) q = p' q).
  { intros q Hq. rewrite put_buffer_parts by lia. destruct (ds_present _ (distributed_update c1 (λ _, mem) Hd1) q Hq) as (a & Ha & _).
    by apply (segment_parts_set_parts seg q p' c2 a); [lia|]. }
  assert (Hparts : ∀ q, 0 ≤ q → segment_parts seg c1 q = segment_parts seg c q) by (intros; by apply take_buffer_parts).
  pose proof (ds_part _ Hd) as (Hpn & _). pose proof (ds_size _ Hd). split_and!.
  - apply (buffer_returned _ _ rest); [done..|]. fold c1. transitivity c2; [|apply same_shape_set_parts].
    apply same_shape_on_area; [lia|]. by intros a _.
  - unfold put_buffer. rewrite other_area by lia. rewrite area_at_set_parts, decide_False by (lia || done).
    unfold c2. rewrite area_at_on_area, decide_True by (lia || done). by rewrite (mp_area _ _ Hm1).
  - intros i Hi. cbn [memory set_memory]. rewrite S1 by done. unfold byte. rewrite Hparts; [done|]. simpl. apply Z.div_pos; lia.
  - intros o Ho. cbn [memory set_memory]. by apply S2.
  - intros q o Hq H2. rewrite Hpart, S3 by done. by rewrite Hparts by lia.
  - intros q k Hq Hk Hqk. unfold put_buffer. rewrite other_area by lia. rewrite area_at_set_parts, decide_False by done.
    unfold c2. rewrite area_at_on_area, decide_False by (lia || naive_solver). unfold c1, take_buffer. by rewrite other_area by lia.
Qed.
End copying.
(** ** The number of pieces *)
Section counted.
Context `{Gaspi}.
Definition total_size (l : list transfer_part) : Z := foldr (λ p n, p_size p + n) 0 l.
Lemma total_size_moved l : Forall (λ p, 0 ≤ p_size p) l → total_size l = Z.of_nat (length (all_moved l)).
Proof.
  induction 1 as [|p l Hp Hl IH]; [done|]. unfold all_moved in *. cbn [mbind list_bind]. rewrite length_app, Nat2Z.inj_add, <- IH.
  unfold moved. rewrite length_fmap, length_seqZ, Z2Nat.id by done. done.
Qed.
Lemma pieces_counted lo rb pn m l acc :
  0 < max_transfer_size → 0 ≤ lo → 0 ≤ rb → lo + m < two64 → rb + pn < two64 → pn + max_transfer_size < two64 → Forall (part_within lo rb pn m) l →
  0 ≤ acc → acc + total_size l < two64 →
  ∃ k, cut_parts max_transfer_size l = Ret k ∧ Z.of_nat (length k) ≤ total_size l ∧
    foldl (λ accum p, w64 (accum + divru (p_size p) max_transfer_size)) acc l = acc + Z.of_nat (length k).
Proof.
  intros Hmax Hlo Hrb Hwl Hwr Hwm Hl. revert acc. induction Hl as [|x l Hx Hl IH]; intros acc Ha Ht; [exists []; simpl; split_and!; [done|lia..]|].
  destruct x as [rk xl xr xs]. unfold part_within in Hx. cbn [p_size p_rank p_local_offset p_remote_offset total_size foldr foldl] in *. fold (total_size l) in *.
  set (q := (xs + max_transfer_size - 1) / max_transfer_size).
  assert (Hq : 0 ≤ q ≤ xs) by (split; [apply Z.div_pos; lia|]; apply Z.lt_succ_r, Z.div_lt_upper_bound; [lia|]; nia).
  assert (divru xs max_transfer_size = q) as -> by (unfold divru; rewrite !w64_small; unfold is_w64; rewrite ?w64_small; unfold is_w64; lia || done).
  assert (0 ≤ total_size l) as Hn. { clear -Hl. induction Hl as [|p l Hp _ IH]; [done|]. unfold part_within in Hp. cbn [total_size foldr]. fold (total_size l). lia. }
  rewrite w64_small by (unfold is_w64; lia). destruct (IH (acc + q)) as (k & Hk & Hlen & Hf); [lia..|].
  destruct (cut_spec (S (Z.to_nat (xs / max_transfer_size))) max_transfer_size rk xl xr xs) as (k1 & Hk1 & _ & _ & Hlen1); [lia..| |].
  { pose proof (Z.div_mod xs max_transfer_size). pose proof (Z.mod_pos_bound xs max_transfer_size).
    assert (0 ≤ xs / max_transfer_size) by (apply Z.div_pos; lia). rewrite Nat2Z.inj_succ, Z2Nat.id by done. nia. }
  exists (k1 ++ k). cbn [cut_parts]. unfold cut_part. cbn [p_rank p_local_offset p_remote_offset p_size]. rewrite Hk1. cbn [mbind outcome_bind]. rewrite Hk.
  split; [done|]. rewrite length_app, Nat2Z.inj_add, Hlen1. fold q. rewrite Hf. lia.
Qed.
End counted.
(** ** An instance: transfers of at most three bytes *)
Definition small_gaspi : Gaspi := {|
  max_transfer_size := 3;
  gaspi_read := λ _ me l_off rank r_off n p, Ret (copy_bytes rank r_off me l_off n p);
  gaspi_write_notify := λ _ me l_off rank r_off n p, Ret (copy_bytes me l_off rank r_off n p)
|}.
Lemma small_gaspi_spec : @GaspiSpec small_gaspi.
Proof. split; [done|by intros..]. Defined.
End transfer_spec.
