(* ===== verification/VmemNotify.v ===== *)
(** * Notifications of the virtual memory

    [gpi-space/gpi/gaspi.cpp]: how a node learns that what it has written has arrived.  Every
    piece that is written carries a notification (a ping) with the number of the write; the
    target answers with a notification of its own (a pong), and the writer counts the answers.
    The identifiers of notifications are divided among the nodes, and those of a node into
    pings and pongs, so that no notification overwrites another one that was not yet seen.

    The state of all nodes is kept together, every container with the rank of its node in the
    key.  Notifications travel in any order; a step is one operation under a lock. *)

From S2P Require Import Prelude Value Token Function Position ReadShow Tokenizer Expr Parser ModuleCall Net NetFire ModuleRun Mmgr VmemHandle VmemArea VmemTransfer VmemTransferSpec.

Module notify.
Local Open Scope Z_scope.
Import module_run vmem_handle vmem transfer transfer_spec.

(** ** Identifiers: sixteen bits *)
Section ids.
Context (per_node : Z).
Definition pong_ids_offset : Z := per_node / 2.
Definition ping_ids_count : Z := pong_ids_offset.
Definition total_number_of_notifications (number_of_nodes : Z) : Z := w16 (per_node * number_of_nodes).
Definition sending_rank (id : Z) : Z := w16 (id / per_node).
Definition ids_begin (rank : Z) : Z := w16 (rank * per_node).
Definition notification_id_offset (id : Z) : Z := w16 (id - ids_begin (sending_rank id)).
Definition is_pong (id : Z) : bool := pong_ids_offset <=? notification_id_offset id.
Definition corresponding_local_ping_id (me pong_id : Z) : Z :=
  w16 (ids_begin me + notification_id_offset pong_id - pong_ids_offset).
Definition corresponding_local_pong_id (me ping_id : Z) : Z :=
  w16 (ids_begin me + notification_id_offset ping_id + pong_ids_offset).
End ids.
Definition maximum_notifications_per_rank : Z := 16.
Definition notification_ids_per_node (available number_of_nodes : Z) : outcome exn Z :=
  let ids := Z.land (Z.min (available / number_of_nodes) maximum_notifications_per_rank) 4294967294 in
  if ids <? 2 then
    Throw (runtime_error ("need at least two notification ids per rank (" +:+ show.integer available +:+
      " notification ids available in total, but " +:+ show.integer number_of_nodes +:+ " ranks)"))
  else Ret ids.
(** numbers of writes: one byte of a notification value at a time *)
Definition all_write_ids : list Z :=
  n ← seqZ 1 254; (λ byte, Z.shiftl n (byte * 8)) <$> seqZ 0 4.

(** ** State *)
(** a thread in [write_dma] or [wait_remote_written]: its node, the number of its write, and the
    ranks of the pieces that it has still to send *)
Record writer : Type := mk_writer { t_rank : Z; t_write_id : Z; t_targets : list Z }.
Record notifications : Type := mk_notifications {
  ping_ids : gmap (Z * Z) (list Z);
  write_ids : gmap Z (list Z);
  outstanding : gmap (Z * Z) Z;
  (** notifications that were sent: the target, the identifier, the value *)
  network : list (Z * Z * Z);
  (** notifications that have arrived *)
  arrived : gmap (Z * Z) Z;
  writers : list writer
}.
Definition make (per_node number_of_nodes : Z) : notifications :=
  let ranks := seqZ 0 number_of_nodes in
  mk_notifications
    (list_to_map (a ← ranks; (λ b, ((a, b), seqZ (ids_begin per_node a) (ping_ids_count per_node))) <$> ranks))
    (list_to_map ((λ a, (a, all_write_ids)) <$> ranks)) ∅ [] ∅ [].

(** ** Operations *)
Section operations.
Context (per_node : Z).
Abbreviation W := (M notifications exn).
Definition set_ping_ids f s := mk_notifications (f (ping_ids s)) (write_ids s) (outstanding s) (network s) (arrived s) (writers s).
Definition set_write_ids f s := mk_notifications (ping_ids s) (f (write_ids s)) (outstanding s) (network s) (arrived s) (writers s).
Definition set_outstanding f s := mk_notifications (ping_ids s) (write_ids s) (f (outstanding s)) (network s) (arrived s) (writers s).
Definition set_network f s := mk_notifications (ping_ids s) (write_ids s) (outstanding s) (f (network s)) (arrived s) (writers s).
Definition set_arrived f s := mk_notifications (ping_ids s) (write_ids s) (outstanding s) (network s) (f (arrived s)) (writers s).
Definition set_writers f s := mk_notifications (ping_ids s) (write_ids s) (outstanding s) (network s) (arrived s) (f (writers s)).

Definition next_write_id (me : Z) : W Z :=
  s ← get;
  match write_ids s !! me with
  | Some (w :: l) => modify (set_write_ids (<[me := l]>)) ≫= λ _, mret w
  | _ => throw (undefined "waits for a write id")
  end.
Definition next_ping_id (me rank : Z) : W Z :=
  s ← get;
  match ping_ids s !! (me, rank) with
  | Some (id :: l) => modify (set_ping_ids (<[(me, rank) := l]>)) ≫= λ _, mret id
  | _ => throw (undefined "waits for a notification id")
  end.
(** [write_dma] up to the first piece: [chunks] is what it has counted, [targets] are the ranks
    of the pieces that it is going to send *)
Definition begin_write (me chunks : Z) (targets : list Z) : W unit :=
  w ← next_write_id me;
  s ← get;
  match outstanding s !! (me, w) with
  | Some _ => throw (logic_error "write_id already exists in outstanding notifications")
  | None => modify (set_outstanding (<[(me, w) := chunks]>)) ≫= λ _, modify (set_writers (.++ [mk_writer me w targets]))
  end.
(** one piece; the identifier that was taken is known to nobody else until it is sent, so taking
    and sending it are one step *)
Definition send_piece (me w rank : Z) : W unit :=
  id ← next_ping_id me rank; modify (set_network (.++ [(rank, id, w)])).
(** [wait_remote_written], when its condition holds *)
Definition finish_write (me w : Z) : W unit :=
  modify (set_outstanding (delete (me, w))) ≫= λ _, modify (set_write_ids (alter (.++ [w]) me)).
(** [notification_check], for a notification that was found *)
Definition notification_check (me id : Z) : W unit :=
  s ← get;
  match arrived s !! (me, id) with
  | None => throw (undefined "not found by waitsome")
  | Some write_id =>
      modify (set_arrived (delete (me, id))) ≫= λ _,
      if is_pong per_node id then
        match outstanding s !! (me, write_id) with
        | None => throw out_of_range
        | Some n =>
            modify (set_outstanding (<[(me, write_id) := w64 (n - 1)]>)) ≫= λ _,
            modify (set_ping_ids (alter (.++ [corresponding_local_ping_id per_node me id]) (me, sending_rank per_node id)))
        end
      else modify (set_network (.++ [(sending_rank per_node id, corresponding_local_pong_id per_node me id, write_id)]))
  end.
End operations.
End notify.
