(* ===== verification/VmemNotifySpec.v ===== *)
(** * Every write is confirmed

    The protocol of [VmemNotify] as a transition system, its invariant, and what follows: no
    notification is overwritten, a writer waits for exactly the pieces that are on the way, and
    no run gets stuck before every write is confirmed. *)

From S2P Require Import Prelude Value Token Function Position ReadShow Tokenizer Expr Parser ModuleCall Net NetFire ModuleRun Mmgr VmemHandle VmemArea VmemTransfer VmemTransferSpec VmemNotify.

Module notify_spec.
Local Open Scope Z_scope.
Import module_run vmem_handle vmem transfer transfer_spec notify.

Section protocol.
Context `{HGS : GaspiSpec}.
Context (P n : Z).

(** ** Steps *)
(** what a thread that writes a range of an allocation counts and sends *)
Definition pieces_of (me chunks : Z) (targets : list Z) : Prop :=
  ∃ L lo d off m l k, range_ok n L me lo d off m ∧ d_local_size d + max_transfer_size < two64 ∧
    split_by_rank (split_fuel (d_local_size d) m) lo (d_offset d) off (d_local_size d) m = Ret l ∧
    cut_parts max_transfer_size l = Ret k ∧ chunks = number_of_chunks max_transfer_size l ∧ targets = p_rank <$> k.
Inductive begins (s : notifications) : notifications → Prop :=
| begin me chunks targets s' : pieces_of me chunks targets → begin_write me chunks targets s = (Ret tt, s') → begins s s'.
Inductive moves (s : notifications) : notifications → Prop :=
| move_send i me w rank ts s' :
    writers s !! i = Some (mk_writer me w (rank :: ts)) → send_piece me w rank s = (Ret tt, s') →
    moves s (set_writers (<[i := mk_writer me w ts]>) s')
| move_finish i me w s' :
    writers s !! i = Some (mk_writer me w []) → outstanding s !! (me, w) = Some 0 → finish_write me w s = (Ret tt, s') →
    moves s (set_writers (delete i) s')
| move_deliver i to_ id v :
    network s !! i = Some (to_, id, v) → moves s (set_arrived (<[(to_, id) := v]>) (set_network (delete i) s))
| move_check me id s' :
    0 ≤ id < total_number_of_notifications P n → notification_check P me id s = (Ret tt, s') → moves s s'.
Definition steps (s s' : notifications) : Prop := begins s s' ∨ moves s s'.

(** ** Identifiers *)
Context (HP : 2 ≤ P) (Heven : P = 2 * (P / 2)) (Hn : 0 < n) (Hfit : P * n < two16).
Lemma w16_small x : 0 ≤ x < two16 → w16 x = x.
Proof. apply Z.mod_small. Qed.
Lemma id_fields a k :
  0 ≤ a < n → 0 ≤ k < P →
  sending_rank P (a * P + k) = a ∧ ids_begin P a = a * P ∧ notification_id_offset P (a * P + k) = k ∧ is_pong P (a * P + k) = (P / 2 <=? k).
Proof.
  intros Ha Hk. assert (sending_rank P (a * P + k) = a) as E1.
  { unfold sending_rank. rewrite Z.div_add_l, Z.div_small, Z.add_0_r by lia. apply w16_small. nia. }
  assert (ids_begin P a = a * P) as E2 by (apply w16_small; nia).
  assert (notification_id_offset P (a * P + k) = k) as E3.
  { unfold notification_id_offset. rewrite E1, E2. replace (a * P + k - a * P) with k by lia. apply w16_small. nia. }
  split_and!; [done..|]. unfold is_pong. by rewrite E3.
Qed.
Lemma id_split id : 0 ≤ id < P * n → ∃ a k, 0 ≤ a < n ∧ 0 ≤ k < P ∧ id = a * P + k.
Proof.
  intros Hid. exists (id / P), (id mod P). pose proof (Z.div_mod id P). pose proof (Z.mod_pos_bound id P).
  split_and!; try lia; [apply Z.div_pos; lia|apply Z.div_lt_upper_bound; lia].
Qed.
(** which ping an identifier at node [d] belongs to: writer, target and identifier *)
Definition token_of (d id : Z) : Z * Z * Z :=
  if is_pong P id then (d, sending_rank P id, corresponding_local_ping_id P d id) else (sending_rank P id, d, id).
Lemma token_ping d a k : 0 ≤ a < n → 0 ≤ k < P / 2 → token_of d (a * P + k) = (a, d, a * P + k).
Proof.
  intros Ha Hk. destruct (id_fields a k) as (E1 & _ & _ & E4); [lia..|]. unfold token_of. rewrite E4, (proj2 (Z.leb_gt _ _)), E1 by lia. done.
Qed.
Lemma token_pong d b k : 0 ≤ d < n → 0 ≤ b < n → 0 ≤ k < P / 2 → token_of d (b * P + (P / 2 + k)) = (d, b, d * P + k).
Proof.
  intros Hd Hb Hk. destruct (id_fields b (P / 2 + k)) as (E1 & _ & E3 & E4); [lia..|]. unfold token_of. rewrite E4, (proj2 (Z.leb_le _ _)), E1 by lia.
  unfold corresponding_local_ping_id. destruct (id_fields d 0) as (_ & -> & _); [lia..|]. rewrite E3. unfold pong_ids_offset.
  rewrite w16_small by nia. f_equal. lia.
Qed.
Lemma token_cases d id :
  0 ≤ d < n → 0 ≤ id < P * n →
  ∃ b k, 0 ≤ b < n ∧ 0 ≤ k < P / 2 ∧
    ((id = b * P + k ∧ is_pong P id = false ∧ sending_rank P id = b ∧ token_of d id = (b, d, id) ∧
      corresponding_local_pong_id P d id = d * P + (P / 2 + k)) ∨
     (id = b * P + (P / 2 + k) ∧ is_pong P id = true ∧ sending_rank P id = b ∧ token_of d id = (d, b, d * P + k) ∧
      corresponding_local_ping_id P d id = d * P + k)).
Proof.
  intros Hd Hid. destruct (id_split id Hid) as (b & k & Hb & Hk & ->). destruct (id_fields b k Hb Hk) as (E1 & _ & E3 & E4).
  destruct (id_fields d 0) as (_ & E5 & _); [lia..|]. destruct (Z_lt_le_dec k (P / 2)) as [Hlt|Hge].
  - exists b, k. split_and!; [lia..|left]. rewrite E4, (proj2 (Z.leb_gt _ _)) by lia. split_and!; [done..|apply token_ping; lia|].
    unfold corresponding_local_pong_id. rewrite E5, E3. unfold pong_ids_offset. rewrite w16_small by nia. lia.
  - exists b, (k - P / 2). split_and!; [lia..|right]. rewrite E4, (proj2 (Z.leb_le _ _)) by lia.
    split_and!; [lia|done|done| |].
    { replace (b * P + k) with (b * P + (P / 2 + (k - P / 2))) by lia. apply token_pong; lia. }
    unfold corresponding_local_ping_id. rewrite E5, E3. unfold pong_ids_offset. rewrite w16_small by nia. lia.
Qed.
(** ** Where the pings are *)
Definition pool_tokens (m : gmap (Z * Z) (list Z)) : list (Z * Z * Z) :=
  map_to_list m ≫= λ x, (λ id, (x.1.1, x.1.2, id)) <$> x.2.
Lemma pool_tokens_insert m a b l l' :
  m !! (a, b) = Some l → pool_tokens (<[(a, b) := l']> m) ++ ((λ id, (a, b, id)) <$> l) ≡ₚ pool_tokens m ++ ((λ id, (a, b, id)) <$> l').
Proof.
  intros Hm. assert (∀ l0, pool_tokens (<[(a, b) := l0]> m) ≡ₚ ((λ id, (a, b, id)) <$> l0) ++ pool_tokens (delete (a, b) m)) as E.
  { intros l0. unfold pool_tokens. rewrite <- insert_delete_eq. rewrite map_to_list_insert by apply lookup_delete_eq. done. }
  rewrite (E l'). pose proof (E l) as El. rewrite insert_id in El by done. rewrite El. solve_Permutation.
Qed.
Definition items (m : gmap (Z * Z) Z) : list (Z * Z * Z) := (λ x : (Z * Z) * Z, (x.1.1, x.1.2, x.2)) <$> map_to_list m.
Lemma items_insert m d id v : m !! (d, id) = None → items (<[(d, id) := v]> m) ≡ₚ (d, id, v) :: items m.
Proof. intros Hm. unfold items. by rewrite map_to_list_insert. Qed.
Lemma items_delete m d id v : m !! (d, id) = Some v → items m ≡ₚ (d, id, v) :: items (delete (d, id) m).
Proof. intros Hm. rewrite <- items_insert by apply lookup_delete_eq. by rewrite insert_delete_id. Qed.
Definition on_the_way (s : notifications) : list (Z * Z * Z) := network s ++ items (arrived s).
Lemma on_the_way_network s i x : network s !! i = Some x → on_the_way s ≡ₚ x :: delete i (network s) ++ items (arrived s).
Proof. intros Hi. unfold on_the_way. rewrite (delete_Permutation _ _ _ Hi) at 1. done. Qed.
Lemma on_the_way_arrived s d id v : arrived s !! (d, id) = Some v → on_the_way s ≡ₚ (d, id, v) :: network s ++ items (delete (d, id) (arrived s)).
Proof. intros Ha. unfold on_the_way. rewrite (items_delete _ _ _ _ Ha). solve_Permutation. Qed.
Definition tokens (s : notifications) : list (Z * Z * Z) :=
  pool_tokens (ping_ids s) ++ ((λ x, token_of x.1.1 x.1.2) <$> on_the_way s).
Definition all_tokens : list (Z * Z * Z) :=
  a ← seqZ 0 n; b ← seqZ 0 n; (λ id, (a, b, id)) <$> seqZ (a * P) (P / 2).
Lemma elem_of_all_tokens a b id : (a, b, id) ∈ all_tokens ↔ 0 ≤ a < n ∧ 0 ≤ b < n ∧ ∃ k, 0 ≤ k < P / 2 ∧ id = a * P + k.
Proof.
  unfold all_tokens. split.
  - intros (x & Hin & Hx%elem_of_seqZ)%list_elem_of_bind. apply list_elem_of_bind in Hin as (y & Hin & Hy%elem_of_seqZ).
    apply list_elem_of_fmap in Hin as (z & [= -> -> ->] & Hz%elem_of_seqZ). split; [lia|]. split; [lia|]. exists (z - x * P). lia.
  - intros (Ha & Hb & k & Hk & ->). apply list_elem_of_bind. exists a. split; [|apply elem_of_seqZ; lia]. apply list_elem_of_bind. exists b.
    split; [|apply elem_of_seqZ; lia]. apply list_elem_of_fmap. exists (a * P + k). split; [done|]. apply elem_of_seqZ. lia.
Qed.
Lemma NoDup_all_tokens : NoDup all_tokens.
Proof.
  unfold all_tokens. apply NoDup_bind; [| |apply NoDup_seqZ].
  - intros a a' [[x y] z] _ _ (b & Hin & _)%list_elem_of_bind (b' & Hin' & _)%list_elem_of_bind.
    apply list_elem_of_fmap in Hin as (i & [= -> _ _] & _). by apply list_elem_of_fmap in Hin' as (i' & [= -> _ _] & _).
  - intros a _. apply NoDup_bind; [| |apply NoDup_seqZ].
    + intros b b' [[x y] z] _ _ (i & [= _ -> _] & _)%list_elem_of_fmap (i' & [= _ -> _] & _)%list_elem_of_fmap. done.
    + intros b _. apply NoDup_fmap_2; [intros i i' [=]; done|apply NoDup_seqZ].
Qed.

(** ** The invariant *)
Definition sender (x : Z * Z * Z) : Z := (token_of x.1.1 x.1.2).1.1.
Definition pending (a w : Z) (l : list (Z * Z * Z)) : Z := Z.of_nat (length (filter (λ x, sender x = a ∧ x.2 = w) l)).
Definition key (t : writer) : Z * Z := (t_rank t, t_write_id t).
Record inv (s : notifications) : Prop := {
  inv_tokens : tokens s ≡ₚ all_tokens;
  inv_ids : ∀ d id v, (d, id, v) ∈ on_the_way s → 0 ≤ d < n ∧ 0 ≤ id < P * n;
  inv_pool : ∀ a b, 0 ≤ a < n → 0 ≤ b < n → is_Some (ping_ids s !! (a, b));
  inv_writers : NoDup (key <$> writers s);
  inv_ranks : ∀ t, t ∈ writers s → 0 ≤ t_rank t < n ∧ Forall (λ b, 0 ≤ b < n) (t_targets t);
  inv_count : ∀ t, t ∈ writers s → outstanding s !! key t = Some (Z.of_nat (length (t_targets t)) + pending (t_rank t) (t_write_id t) (on_the_way s)) ∧
                Z.of_nat (length (t_targets t)) + pending (t_rank t) (t_write_id t) (on_the_way s) < two64;
  inv_owner : ∀ x, x ∈ on_the_way s → (sender x, x.2) ∈ key <$> writers s;
  inv_outstanding : ∀ k, is_Some (outstanding s !! k) → k ∈ key <$> writers s;
  inv_write_ids : ∀ a, 0 ≤ a < n → ∃ l, write_ids s !! a = Some l ∧ NoDup l ∧ ∀ w, w ∈ l → (a, w) ∉ key <$> writers s
}.
Lemma pending_perm a w l l' : l ≡ₚ l' → pending a w l = pending a w l'.
Proof. intros Hl. unfold pending. by rewrite Hl. Qed.
Lemma pending_cons a w x l : pending a w (x :: l) = (if decide (sender x = a ∧ x.2 = w) then 1 else 0) + pending a w l.
Proof. unfold pending. rewrite filter_cons. destruct (decide _); simpl; lia. Qed.
Lemma pending_nonneg a w l : 0 ≤ pending a w l.
Proof. unfold pending. lia. Qed.
Lemma token_once s x y l : inv s → on_the_way s ≡ₚ x :: y :: l → token_of x.1.1 x.1.2 ≠ token_of y.1.1 y.1.2.
Proof.
  intros Hi Hl E. pose proof NoDup_all_tokens as Hnd. rewrite <- (inv_tokens _ Hi) in Hnd. unfold tokens in Hnd. rewrite Hl in Hnd.
  apply NoDup_app in Hnd as (_ & _ & Hnd). rewrite !fmap_cons in Hnd. apply NoDup_cons in Hnd as [Hx _]. apply Hx. rewrite E. by left.
Qed.
(** no notification arrives where one waits *)
Lemma arrives_free s i to_ id v : inv s → network s !! i = Some (to_, id, v) → arrived s !! (to_, id) = None.
Proof.
  intros Hi Hnet. apply eq_None_not_Some. intros [v' Hv'].
  apply (token_once s (to_, id, v) (to_, id, v') (delete i (network s) ++ items (delete (to_, id) (arrived s))) Hi); [|done].
  rewrite (on_the_way_network s i _ Hnet), (items_delete _ _ _ _ Hv'). solve_Permutation.
Qed.
(** ** Every step keeps it *)
Lemma pieces_of_ranks me chunks targets :
  pieces_of me chunks targets → 0 ≤ me < n ∧ chunks = Z.of_nat (length targets) ∧ chunks < two64 ∧ Forall (λ b, 0 ≤ b < n) targets.
Proof.
  intros (L & lo & d & off & m & l & k & Hr & Hmax & Hl & Hk & -> & ->).
  destruct (pieces n L me lo d off m Hr) as (l' & k' & Hl' & Hk' & _ & Hin). rewrite Hl in Hl'. injection Hl' as <-. rewrite Hk in Hk'. injection Hk' as <-.
  pose proof Hr as [R1 R2 R3 (R4 & R4') (R5 & R5' & R5'') (R6 & R6' & R6'' & R7) _]. pose proof max_transfer_size_positive as Hpos.
  destruct (split_by_rank_spec (split_fuel (d_local_size d) m) lo (d_offset d) off (d_local_size d) m) as (l2 & Hl2 & Hall & Hw).
  { unfold no_wrap. repeat split; lia || nia. }
  { right. by apply split_fuel_enough. }
  rewrite Hl in Hl2. injection Hl2 as <-. assert (total_size l = m) as Ht.
  { rewrite total_size_moved, Hall; [|eapply Forall_impl; [exact Hw|]; unfold part_within; intros; lia].
    unfold expected. by rewrite length_fmap, length_seqZ, Z2Nat.id. }
  destruct (pieces_counted lo (d_offset d) (d_local_size d) m l 0) as (k2 & Hk2 & Hlen & Hc); [done|lia..|done|lia|lia|].
  rewrite Hk in Hk2. injection Hk2 as <-. unfold number_of_chunks. rewrite Hc, length_fmap. split_and!; [lia..|].
  apply Forall_fmap. eapply Forall_impl; [exact Hin|]. unfold piece_ok, part_within. intros p Hp. simpl. lia.
Qed.
Lemma inv_begins s s' : inv s → begins s s' → inv s'.
Proof.
  intros Hi [me chunks targets s1 Hpc Hb]. destruct (pieces_of_ranks _ _ _ Hpc) as (Hme & -> & Hlt & Hts).
  destruct (inv_write_ids _ Hi me Hme) as (ws & Hws & Hnd & Hfree). unfold begin_write, next_write_id, mbind, M_bind, get in Hb.
  rewrite Hws in Hb. destruct ws as [|w l]; [done|]. cbn in Hb. destruct (outstanding s !! (me, w)) eqn:Ho; [done|]. injection Hb as <-.
  apply NoDup_cons in Hnd as [Hwl Hnd]. assert ((me, w) ∉ key <$> writers s) as Hnew by (apply Hfree; by left).
  destruct Hi as [I1 I2 I3 I4 I5 I6 I7 I8 I9].
  assert (pending me w (on_the_way s) = 0) as Hp0.
  { unfold pending. assert (filter (λ x, sender x = me ∧ x.2 = w) (on_the_way s) = []) as ->; [|done].
    apply elem_of_nil_inv. intros x [[E1 E2] Hx]%list_elem_of_filter. apply Hnew. rewrite <- E1, <- E2. by apply I7. }
  split; try done; simpl; rewrite ?fmap_app; cbn [fmap list_fmap key t_rank t_write_id].
  - apply NoDup_app. split_and!; [done| |apply NoDup_singleton]. intros k Hk ->%list_elem_of_singleton. done.
  - intros t [Ht| ->%list_elem_of_singleton]%elem_of_app; [by apply I5|done].
  - intros t [Ht| ->%list_elem_of_singleton]%elem_of_app.
    + rewrite lookup_insert_ne; [by apply I6|]. intros E. apply Hnew. rewrite E. apply list_elem_of_fmap. eauto.
    + simpl. rewrite lookup_insert_eq. change (on_the_way _) with (on_the_way s). rewrite Hp0. split; [f_equal; lia|lia].
  - intros x Hx. apply elem_of_app. left. by apply I7.
  - intros k Hk. apply elem_of_app. destruct (decide (k = (me, w))) as [->|Hne]; [right; by apply list_elem_of_singleton|]. left.
    rewrite lookup_insert_ne in Hk by done. by apply I8.
  - intros a Ha. destruct (decide (a = me)) as [->|Hne].
    + exists l. rewrite lookup_insert_eq. split_and!; [done..|]. intros v Hv [Hin|[= ->]%list_elem_of_singleton]%elem_of_app; [|done].
      revert Hin. apply Hfree. by right.
    + rewrite lookup_insert_ne by done. destruct (I9 a Ha) as (l' & Hl' & Hnd' & Hf'). exists l'. split_and!; [done..|].
      intros v Hv [Hin|[= -> _]%list_elem_of_singleton]%elem_of_app; [|done]. by apply (Hf' v).
Qed.
(** a notification that moves on and still belongs to the same ping *)
Lemma inv_way s s' x x' l :
  inv s → ping_ids s' = ping_ids s → write_ids s' = write_ids s → outstanding s' = outstanding s → writers s' = writers s →
  on_the_way s ≡ₚ x :: l → on_the_way s' ≡ₚ x' :: l → token_of x'.1.1 x'.1.2 = token_of x.1.1 x.1.2 → x'.2 = x.2 →
  0 ≤ x'.1.1 < n ∧ 0 ≤ x'.1.2 < P * n → inv s'.
Proof.
  intros [I1 I2 I3 I4 I5 I6 I7 I8 I9] E1 E2 E3 E4 Hl Hl' Ht Hv Hr.
  assert (sender x' = sender x) as Hs by (unfold sender; by rewrite Ht).
  assert (∀ a w, pending a w (on_the_way s') = pending a w (on_the_way s)) as Hp.
  { intros a w. rewrite (pending_perm a w _ _ Hl), (pending_perm a w _ _ Hl'), !pending_cons, Hs, Hv. done. }
  split; rewrite ?E1, ?E2, ?E3, ?E4; try done.
  - rewrite <- I1. unfold tokens. rewrite E1, Hl, Hl', !fmap_cons, Ht. done.
  - intros d id v Hin. rewrite Hl' in Hin. apply elem_of_cons in Hin as [<-|Hin]; [done|]. apply (I2 d id v). rewrite Hl. by right.
  - intros t Ht'. rewrite Hp. by apply I6.
  - intros y Hy. rewrite Hl' in Hy. apply elem_of_cons in Hy as [->|Hy].
    + rewrite Hs, Hv. apply I7. rewrite Hl. by left.
    + apply I7. rewrite Hl. by right.
Qed.
Lemma inv_deliver s i to_ id v :
  inv s → network s !! i = Some (to_, id, v) → inv (set_arrived (<[(to_, id) := v]>) (set_network (delete i) s)).
Proof.
  intros Hi Hnet. pose proof (arrives_free s i to_ id v Hi Hnet) as Hf. pose proof (on_the_way_network s i _ Hnet) as Hl.
  apply (inv_way s _ (to_, id, v) (to_, id, v) (delete i (network s) ++ items (arrived s))); try done.
  - unfold on_the_way. cbn [network arrived set_arrived set_network]. rewrite items_insert by done. solve_Permutation.
  - apply (inv_ids _ Hi to_ id v). rewrite Hl. by left.
Qed.
Lemma pool_token s a b l id : inv s → ping_ids s !! (a, b) = Some l → id ∈ l → (a, b, id) ∈ all_tokens.
Proof.
  intros Hi Hl Hid. rewrite <- (inv_tokens _ Hi). unfold tokens. apply elem_of_app. left. unfold pool_tokens. apply list_elem_of_bind.
  exists ((a, b), l). split; [|by apply elem_of_map_to_list]. apply list_elem_of_fmap. by exists id.
Qed.
Lemma key_unique s i t j t' : inv s → writers s !! i = Some t → writers s !! j = Some t' → key t = key t' → i = j.
Proof.
  intros Hi Ht Ht' E. apply (NoDup_lookup (key <$> writers s) i j (key t)); [apply Hi|rewrite list_lookup_fmap, Ht; done|rewrite list_lookup_fmap, Ht', E; done].
Qed.
Lemma inv_send s i me w rank ts s1 :
  inv s → writers s !! i = Some (mk_writer me w (rank :: ts)) → send_piece me w rank s = (Ret tt, s1) → inv (set_writers (<[i := mk_writer me w ts]>) s1).
Proof.
  intros Hi Ht Hs. set (t := mk_writer me w (rank :: ts)) in *. set (t' := mk_writer me w ts).
  destruct (inv_ranks _ Hi t) as (Hme & [Hrank Hts]%Forall_cons); [by apply list_elem_of_lookup_2 in Ht|]. cbn [t_rank t] in Hme.
  destruct (inv_pool _ Hi me rank Hme Hrank) as [ids Hids]. unfold send_piece, next_ping_id, mbind, M_bind, get in Hs. rewrite Hids in Hs.
  destruct ids as [|id l]; [done|]. cbn in Hs. injection Hs as <-. set (s' := set_writers _ _).
  destruct (proj1 (elem_of_all_tokens me rank id)) as (_ & _ & k & Hk & Hidk); [by apply (pool_token s me rank (id :: l)); [| |left]|].
  assert (Htok : token_of rank id = (me, rank, id)) by (rewrite Hidk; apply token_ping; lia).
  assert (Hway : on_the_way s' ≡ₚ (rank, id, w) :: on_the_way s) by (unfold on_the_way, s'; cbn; solve_Permutation).
  assert (Hpend : ∀ a v, pending a v (on_the_way s') = (if decide (me = a ∧ w = v) then 1 else 0) + pending a v (on_the_way s)).
  { intros a v. rewrite (pending_perm a v _ _ Hway), pending_cons. unfold sender. cbn [fst snd]. by rewrite Htok. }
  assert (Hkeys : key <$> writers s' = key <$> writers s).
  { unfold s'. cbn. rewrite list_fmap_insert. apply list_insert_id. by rewrite list_lookup_fmap, Ht. }
  destruct Hi as [I1 I2 I3 I4 I5 I6 I7 I8 I9] eqn:Hinv. split; rewrite ?Hkeys; try done.
  - rewrite <- I1. unfold tokens. rewrite Hway, fmap_cons. cbn [fst snd]. rewrite Htok. unfold s'. cbn.
    pose proof (pool_tokens_insert (ping_ids s) me rank (id :: l) l Hids) as Hp. rewrite fmap_cons in Hp.
    assert (pool_tokens (ping_ids s) ≡ₚ (me, rank, id) :: pool_tokens (<[(me, rank) := l]> (ping_ids s))) as ->; [|solve_Permutation].
    apply (Permutation_app_inv_r ((λ id, (me, rank, id)) <$> l)). rewrite <- Hp. solve_Permutation.
  - intros d id' v Hin. rewrite Hway in Hin. apply elem_of_cons in Hin as [[= -> -> ->]|Hin]; [|by apply (I2 d id' v)]. split; [done|]. nia.
  - intros a b Ha Hb. unfold s'. cbn. destruct (decide ((a, b) = (me, rank))) as [[= -> ->]|Hne]; [by rewrite lookup_insert_eq; eexists|].
    rewrite lookup_insert_ne by done. by apply I3.
  - intros x (j & Hj)%list_elem_of_lookup. unfold s' in Hj. cbn in Hj. apply list_lookup_insert_Some in Hj as [(<- & <- & _)|[Hne Hj]].
    + done.
    + apply I5. by apply list_elem_of_lookup_2 in Hj.
  - intros x (j & Hj)%list_elem_of_lookup. rewrite Hpend. change (outstanding s') with (outstanding s).
    unfold s' in Hj. cbn in Hj. apply list_lookup_insert_Some in Hj as [(<- & <- & _)|[Hne Hj]].
    + destruct (I6 t) as [Ho Hlt]; [by apply list_elem_of_lookup_2 in Ht|]. cbn [t_rank t_write_id t_targets t t' key length] in *.
      rewrite decide_True by done. change (key t') with (key t). rewrite Ho. split; [f_equal; lia|lia].
    + destruct (I6 x) as [Ho Hlt]; [by apply list_elem_of_lookup_2 in Hj|]. rewrite decide_False; [rewrite Z.add_0_l; by split|].
      intros [E1 E2]. apply Hne. apply (key_unique s i t j x); [by split|done|done|]. unfold key. cbn. by rewrite E1, E2.
  - intros x Hx. rewrite Hway in Hx. apply elem_of_cons in Hx as [->|Hx]; [|by apply I7].
    unfold sender. cbn [fst snd]. rewrite Htok. cbn. apply list_elem_of_fmap. exists t. split; [done|]. by apply list_elem_of_lookup_2 in Ht.
Qed.
Lemma pending_zero a w l x : pending a w l = 0 → x ∈ l → sender x = a → x.2 = w → False.
Proof.
  intros Hp Hx <- <-. unfold pending in Hp. destruct (filter _ l) as [|y l'] eqn:E; [|simpl in Hp; lia].
  by apply (filter_nil_not_elem_of _ l x) in E.
Qed.
Lemma inv_finish s i me w s1 :
  inv s → writers s !! i = Some (mk_writer me w []) → outstanding s !! (me, w) = Some 0 → finish_write me w s = (Ret tt, s1) →
  inv (set_writers (delete i) s1).
Proof.
  intros Hi Ht Ho Hs. set (t := mk_writer me w []) in *. injection Hs as <-. set (s' := set_writers _ _).
  assert (Hin : t ∈ writers s) by (by apply list_elem_of_lookup_2 in Ht). pose proof (delete_Permutation _ _ _ Ht) as Hw.
  destruct Hi as [I1 I2 I3 I4 I5 I6 I7 I8 I9].
  assert (Hnd : NoDup (key t :: (key <$> delete i (writers s)))) by (rewrite Hw, fmap_cons in I4; done). apply NoDup_cons in Hnd as [Hnk Hnd].
  assert (Hsub : ∀ x, x ∈ delete i (writers s) → x ∈ writers s) by (intros x Hx; rewrite Hw; by right).
  assert (Hkeys : ∀ k, k ∈ key <$> writers s → k ≠ key t → k ∈ key <$> delete i (writers s)).
  { intros k Hk Hne. rewrite Hw, fmap_cons in Hk. apply elem_of_cons in Hk as [?|?]; done. }
  destruct (I6 t Hin) as [Ho' _]. change (key t) with (me, w) in *. rewrite Ho in Ho'. injection Ho' as Hp. cbn [t_rank t_write_id t_targets t length] in Hp.
  assert (Hz : pending me w (on_the_way s) = 0) by (pose proof (pending_nonneg me w (on_the_way s)); lia).
  split; cbn; try done.
  - intros x Hx. by apply I5, Hsub.
  - intros x Hx. rewrite lookup_delete_ne; [by apply I6, Hsub|]. intros E. apply Hnk. rewrite E. apply list_elem_of_fmap. by exists x.
  - intros x Hx. apply Hkeys; [by apply I7|]. intros [= E1 E2]. by apply (pending_zero me w _ x Hz).
  - intros k [y [Hne Hy]%lookup_delete_Some]. apply Hkeys; [by apply I8; eexists|]. done.
  - intros a Ha. destruct (I9 a Ha) as (l & Hl & Hndl & Hf). destruct (decide (a = me)) as [->|Hne].
    + exists (l ++ [w]). rewrite lookup_alter_eq, Hl. split_and!; [done| |].
      * apply NoDup_app. split_and!; [done| |apply NoDup_singleton]. intros v Hv ->%list_elem_of_singleton. apply (Hf w Hv). apply list_elem_of_fmap. by exists t.
      * intros v [Hv| ->%list_elem_of_singleton]%elem_of_app Hin'; [|done]. apply (Hf v Hv). apply list_elem_of_fmap in Hin' as (x & -> & Hx).
        apply list_elem_of_fmap. exists x. split; [done|]. by apply Hsub.
    + rewrite lookup_alter_ne by done. exists l. split_and!; [done..|]. intros v Hv Hin'. apply (Hf v Hv). apply list_elem_of_fmap in Hin' as (x & -> & Hx).
      apply list_elem_of_fmap. exists x. split; [done|]. by apply Hsub.
Qed.
(** [notification_check] finds what it needs *)
Lemma check_run s me id v :
  inv s → arrived s !! (me, id) = Some v → ∃ s', notification_check P me id s = (Ret tt, s') ∧ inv s'.
Proof.
  intros Hi Ha. pose proof (on_the_way_arrived s me id v Ha) as Hl. set (l := network s ++ items (delete (me, id) (arrived s))) in *.
  destruct (inv_ids _ Hi me id v) as [Hme Hid]; [rewrite Hl; by left|]. destruct (token_cases me id Hme Hid) as (b & k & Hb & Hk & Hcase).
  unfold notification_check. rewrite bind_get, Ha, bind_modify. destruct Hcase as [(-> & E1 & E2 & E3 & E4)|(-> & E1 & E2 & E3 & E4)]; rewrite E1.
  - eexists. split; [done|]. rewrite E2, E4.
    apply (inv_way s _ (me, b * P + k, v) (b, me * P + (P / 2 + k), v) l); try done.
    + unfold on_the_way. cbn. unfold l. solve_Permutation.
    + cbn [fst snd]. rewrite E3. by apply token_pong.
    + cbn [fst snd]. split; [done|]. nia.
  - assert (Hown : (me, v) ∈ key <$> writers s).
    { pose proof (inv_owner _ Hi (me, b * P + (P / 2 + k), v) ltac:(rewrite Hl; by left)) as Hw. unfold sender in Hw. cbn [fst snd] in Hw. by rewrite E3 in Hw. }
    apply list_elem_of_fmap in Hown as (t & Hkt & Ht). destruct (inv_count _ Hi t Ht) as [Ho Hlt]. rewrite <- Hkt in Ho. unfold key in Hkt. injection Hkt as Hk1 Hk2.
    rewrite <- Hk1, <- Hk2 in Ho, Hlt. rewrite Ho. set (c := Z.of_nat _ + _) in *.
    assert (Hpend : ∀ a w, pending a w (on_the_way s) = (if decide (me = a ∧ v = w) then 1 else 0) + pending a w l).
    { intros a w. rewrite (pending_perm a w _ _ Hl), pending_cons. unfold sender. cbn [fst snd]. by rewrite E3. }
    assert (Hc : 1 ≤ c < two64).
    { unfold c in *. pose proof (Hpend me v) as E. rewrite decide_True in E by done. pose proof (pending_nonneg me v l). lia. }
    rewrite E2, E4, w64_small by (unfold is_w64; lia). rewrite bind_modify. eexists. split; [done|]. set (s' := set_ping_ids _ _).
    assert (Hway : on_the_way s' = l) by done. destruct (inv_pool _ Hi me b Hme Hb) as [ids Hids].
    assert (Hpings : ping_ids s' = <[(me, b) := ids ++ [me * P + k]]> (ping_ids s)).
    { unfold s'. cbn. apply map_eq. intros x. destruct (decide (x = (me, b))) as [->|Hne]; [by rewrite lookup_alter_eq, lookup_insert_eq, Hids|].
      by rewrite lookup_alter_ne, lookup_insert_ne. }
    pose proof Hi as [I1 I2 I3 I4 I5 I6 I7 I8 I9]. split; rewrite ?Hway; try done.
    + rewrite <- I1. unfold tokens. rewrite Hway, Hl, fmap_cons. cbn [fst snd]. rewrite E3, Hpings.
      pose proof (pool_tokens_insert (ping_ids s) me b ids (ids ++ [me * P + k]) Hids) as Hp. rewrite fmap_app in Hp.
      assert (pool_tokens (<[(me, b) := ids ++ [me * P + k]]> (ping_ids s)) ≡ₚ (me, b, me * P + k) :: pool_tokens (ping_ids s)) as ->; [|solve_Permutation].
      apply (Permutation_app_inv_r ((λ id, (me, b, id)) <$> ids)). rewrite Hp. cbn. solve_Permutation.
    + intros d id v' Hin. apply (I2 d id v'). rewrite Hl. by right.
    + intros x y Hx Hy. rewrite Hpings. destruct (decide ((x, y) = (me, b))) as [[= -> ->]|Hne]; [rewrite lookup_insert_eq; by eexists|].
      rewrite lookup_insert_ne by done. by apply I3.
    + intros x Hx. destruct (I6 x Hx) as [Hox Hltx]. rewrite Hpend in Hox, Hltx. unfold s'. cbn. destruct (decide (key x = (me, v))) as [Ek|Ek].
      * rewrite Ek, lookup_insert_eq. unfold key in Ek. injection Ek as Ek1 Ek2. rewrite decide_True in Hox, Hltx by done.
        assert (Some c = Some (Z.of_nat (length (t_targets x)) + (1 + pending (t_rank x) (t_write_id x) l))) as [= Ec].
        { rewrite <- Hox. unfold key. by rewrite Ek1, Ek2. }
        split; [f_equal; lia|lia].
      * assert (¬ (me = t_rank x ∧ v = t_write_id x)) as Hd by (intros [A B]; apply Ek; unfold key; by rewrite A, B).
        rewrite lookup_insert_ne by done. rewrite decide_False, Z.add_0_l in Hox, Hltx by done. done.
    + intros x Hx. apply I7. rewrite Hl. by right.
    + intros x Hx. unfold s' in Hx. cbn in Hx. apply I8. destruct (decide (x = (me, v))) as [->|Hne]; [by eexists|]. by rewrite lookup_insert_ne in Hx.
Qed.
Lemma inv_moves s s' : inv s → moves s s' → inv s'.
Proof.
  intros Hi [i me w rank ts s1 Ht Hs|i me w s1 Ht Ho Hs|i to_ id v Hnet|me id s1 _ Hs].
  - by apply (inv_send s i me w rank ts s1).
  - by apply (inv_finish s i me w s1).
  - by apply inv_deliver.
  - destruct (arrived s !! (me, id)) as [v|] eqn:Ha.
    + destruct (check_run s me id v Hi Ha) as (s2 & E & Hi2). rewrite Hs in E. by injection E as <-.
    + unfold notification_check in Hs. by rewrite bind_get, Ha in Hs.
Qed.
Lemma inv_steps s s' : inv s → steps s s' → inv s'.
Proof. intros Hi [Hb|Hm]; [by apply (inv_begins s)|by apply (inv_moves s)]. Qed.
Fixpoint different (l : list Z) : bool :=
  match l with [] => true | x :: l => forallb (λ y, negb (x =? y)) l && different l end.
Lemma different_NoDup l : different l = true → NoDup l.
Proof.
  induction l as [|x l IH]; intros Hd; [constructor|]. simpl in Hd. apply andb_true_iff in Hd as [Hx Hl]. constructor; [|by apply IH].
  intros Hin. rewrite forallb_forall in Hx. specialize (Hx x ltac:(by apply list_elem_of_In)). by rewrite Z.eqb_refl in Hx.
Qed.
Lemma NoDup_all_write_ids : NoDup all_write_ids.
Proof. apply different_NoDup. vm_compute. reflexivity. Qed.
Lemma grid_keys {A} (f : Z → A) (R R' : list Z) : (a ← R; (λ b, ((a, b), f a)) <$> R').*1 = a ← R; (λ b, (a, b)) <$> R'.
Proof. induction R as [|a R IH]; [done|]. cbn [mbind list_bind]. rewrite fmap_app, IH. f_equal. by rewrite <- list_fmap_compose. Qed.
Lemma grid_tokens (f g : Z → list Z) (R R' : list Z) :
  (∀ a, a ∈ R → f a = g a) →
  ((a ← R; (λ b, ((a, b), f a)) <$> R') ≫= λ x, (λ id, (x.1.1, x.1.2, id)) <$> x.2) = a ← R; b ← R'; (λ id, (a, b, id)) <$> g a.
Proof.
  induction R as [|a R IH]; intros Hfg; [done|]. cbn [mbind list_bind]. rewrite bind_app, IH by (intros x Hx; apply Hfg; by right). f_equal.
  rewrite (Hfg a) by by left. clear. induction R' as [|b R' IH]; [done|]. cbn [fmap list_fmap mbind list_bind]. by rewrite IH.
Qed.
Lemma inv_make : inv (make P n).
Proof.
  set (R := seqZ 0 n). set (L := a ← R; (λ b, ((a, b), seqZ (ids_begin P a) (ping_ids_count P))) <$> R).
  assert (HND : NoDup L.*1).
  { unfold L. rewrite grid_keys.
    apply NoDup_bind; [| |apply NoDup_seqZ].
    - intros a a' [x y] _ _ (i & [= -> _] & _)%list_elem_of_fmap (i' & [= -> _] & _)%list_elem_of_fmap. done.
    - intros a _. apply NoDup_fmap_2; [intros i i' [=]; done|apply NoDup_seqZ]. }
  assert (HLk : ∀ a b, 0 ≤ a < n → 0 ≤ b < n → ((a, b), seqZ (ids_begin P a) (ping_ids_count P)) ∈ L).
  { intros a b Ha Hb. apply list_elem_of_bind. exists a. split; [|apply elem_of_seqZ; lia]. apply list_elem_of_fmap. exists b. split; [done|]. apply elem_of_seqZ. lia. }
  split; cbn; try done.
  - unfold tokens, on_the_way. cbn. fold R L. rewrite app_nil_r. unfold pool_tokens. rewrite map_to_list_to_map by done. unfold L, all_tokens. fold R.
    rewrite (grid_tokens _ (λ a, seqZ (a * P) (P / 2))); [done|]. intros a Ha%elem_of_seqZ. by destruct (id_fields a 0) as (_ & -> & _); [lia..|].
  - intros d id v Hin. by apply elem_of_nil in Hin.
  - intros a b Ha Hb. fold R L. exists (seqZ (ids_begin P a) (ping_ids_count P)). apply elem_of_list_to_map; [done|]. by apply HLk.
  - apply NoDup_nil_2.
  - intros t Ht. by apply elem_of_nil in Ht.
  - intros t Ht. by apply elem_of_nil in Ht.
  - intros x Hx. by apply elem_of_nil in Hx.
  - intros k [x Hx]. by rewrite lookup_empty in Hx.
  - intros a Ha. exists all_write_ids. split_and!; [|apply NoDup_all_write_ids|by intros w _ ?%elem_of_nil].
    apply elem_of_list_to_map.
    + rewrite <- list_fmap_compose. apply NoDup_fmap_2; [intros i i' E; exact E|apply NoDup_seqZ].
    + apply list_elem_of_fmap. exists a. split; [done|]. apply elem_of_seqZ. lia.
Qed.
Lemma inv_reachable s0 s : inv s0 → rtc steps s0 s → inv s.
Proof. intros Hi Hr. revert Hi. induction Hr as [|s1 s2 s3 H12 _ IH]; intros Hi; [done|]. apply IH. by apply (inv_steps s1). Qed.
(** ** Every run ends *)
Definition way_left (stage : nat) (x : Z * Z * Z) : nat := if is_pong P x.1.2 then stage else (2 + stage)%nat.
Definition work_left (s : notifications) : nat :=
  (sum_list_with (λ t, 1 + 5 * length (t_targets t)) (writers s) +
   sum_list_with (way_left 2) (network s) + sum_list_with (way_left 1) (items (arrived s)))%nat.
Lemma sum_insert {A} (f : A → nat) l i x y : l !! i = Some x → (sum_list_with f (<[i := y]> l) + f x = sum_list_with f l + f y)%nat.
Proof. revert i. induction l as [|z l IH]; intros [|i] Hi; simpl in *; [done|done|injection Hi as ->; lia|]. specialize (IH i Hi). lia. Qed.
Lemma sum_delete {A} (f : A → nat) l i x : l !! i = Some x → (sum_list_with f (delete i l) + f x = sum_list_with f l)%nat.
Proof. revert i. induction l as [|z l IH]; intros [|i] Hi; simpl in *; [done|done|injection Hi as ->; lia|]. specialize (IH i Hi). lia. Qed.
Lemma sum_perm {A} (f : A → nat) l l' : l ≡ₚ l' → sum_list_with f l = sum_list_with f l'.
Proof. induction 1; simpl; lia. Qed.
Lemma sum_snoc {A} (f : A → nat) l x : sum_list_with f (l ++ [x]) = (sum_list_with f l + f x)%nat.
Proof. rewrite sum_list_with_app. simpl. lia. Qed.
Lemma moves_less s s' : inv s → moves s s' → (work_left s' < work_left s)%nat.
Proof.
  intros Hi [i me w rank ts s1 Ht Hs|i me w s1 Ht Ho Hs|i to_ id v Hnet|me id s1 _ Hs]; unfold work_left.
  - destruct (inv_ranks _ Hi (mk_writer me w (rank :: ts))) as (Hme & [Hrank _]%Forall_cons); [by apply list_elem_of_lookup_2 in Ht|].
    destruct (inv_pool _ Hi me rank Hme Hrank) as [ids Hids]. unfold send_piece, next_ping_id, mbind, M_bind, get in Hs. rewrite Hids in Hs.
    destruct ids as [|id l]; [done|]. cbn in Hs. injection Hs as <-. cbn [writers network arrived set_writers set_network set_ping_ids].
    pose proof (sum_insert (λ t, 1 + 5 * length (t_targets t))%nat _ _ _ (mk_writer me w ts) Ht) as Hw. cbn [t_targets length] in Hw.
    rewrite sum_snoc. assert (way_left 2 (rank, id, w) ≤ 4)%nat by (unfold way_left; destruct (is_pong _ _); lia). lia.
  - injection Hs as <-. cbn [writers network arrived set_writers set_write_ids set_outstanding].
    pose proof (sum_delete (λ t, 1 + 5 * length (t_targets t))%nat _ _ _ Ht) as Hw. cbn [t_targets length] in Hw. lia.
  - cbn [writers network arrived set_arrived set_network]. pose proof (sum_delete (way_left 2) _ _ _ Hnet) as Hw.
    rewrite (sum_perm _ _ _ (items_insert _ _ _ v (arrives_free s i to_ id v Hi Hnet))). simpl. unfold way_left in *. cbn [fst snd] in *.
    destruct (is_pong P id); lia.
  - destruct (arrived s !! (me, id)) as [v|] eqn:Ha; [|unfold notification_check in Hs; by rewrite bind_get, Ha in Hs].
    pose proof (sum_perm (way_left 1) _ _ (items_delete _ _ _ _ Ha)) as Hw. cbn [sum_list_with] in Hw.
    destruct (inv_ids _ Hi me id v) as [Hme Hid]; [rewrite (on_the_way_arrived s me id v Ha); by left|].
    destruct (token_cases me id Hme Hid) as (b & k & Hb & Hk & Hcase). unfold notification_check in Hs. rewrite bind_get, Ha, bind_modify in Hs.
    destruct Hcase as [(-> & E1 & E2 & E3 & E4)|(-> & E1 & E2 & E3 & E4)]; rewrite E1 in Hs.
    + injection Hs as <-. cbn [writers network arrived set_arrived set_network]. rewrite sum_snoc, E2, E4. unfold way_left in *. cbn [fst snd] in *.
      rewrite E1 in Hw. destruct (id_fields me (P / 2 + k)) as (_ & _ & _ & ->); [lia..|]. rewrite (proj2 (Z.leb_le _ _)) by lia. lia.
    + destruct (outstanding s !! (me, v)); [|done]. cbn in Hs. injection Hs as <-. cbn [writers network arrived set_ping_ids set_outstanding set_arrived].
      unfold way_left in *. cbn [fst snd] in *. rewrite E1 in Hw. lia.
Qed.
Lemma moves_end s : inv s → sn moves s.
Proof.
  remember (work_left s) as m eqn:Hm. revert s Hm. induction (lt_wf m) as [m _ IH]. intros s -> Hi. constructor. intros s' Hs.
  apply (IH (work_left s') (moves_less s s' Hi Hs) s' eq_refl). by apply (inv_moves s).
Qed.
(** something can happen as long as something is left to do *)
Lemma total_fits : total_number_of_notifications P n = P * n.
Proof. apply w16_small. nia. Qed.
Lemma not_stuck s : inv s → writers s ≠ [] ∨ on_the_way s ≠ [] → ∃ s', moves s s'.
Proof.
  intros Hi Hleft. destruct (network s) as [|[[d id] v] l] eqn:Hnet; [|eexists; apply (move_deliver s 0 d id v); by rewrite Hnet].
  destruct (items (arrived s)) as [|[[d id] v] l] eqn:Hit.
  2:{ assert (arrived s !! (d, id) = Some v) as Ha.
      { assert ((d, id, v) ∈ items (arrived s)) as Hin by (rewrite Hit; by left). apply list_elem_of_fmap in Hin as ([[x y] z] & [= -> -> ->] & Hin). by apply elem_of_map_to_list in Hin. }
      destruct (check_run s d id v Hi Ha) as (s' & E & _). exists s'. apply (move_check s d id); [|done]. rewrite total_fits.
      apply (inv_ids _ Hi d id v). rewrite (on_the_way_arrived s d id v Ha). by left. }
  assert (Hway : on_the_way s = []) by (unfold on_the_way; by rewrite Hnet, Hit).
  destruct (writers s) as [|[me w ts] ws] eqn:Hw; [destruct Hleft; congruence|]. set (t := mk_writer me w ts).
  assert (Ht : t ∈ writers s) by (rewrite Hw; by left). destruct (inv_count _ Hi t Ht) as [Ho _]. destruct (inv_ranks _ Hi t Ht) as [Hme Hts].
  destruct ts as [|b ts].
  - eexists. apply (move_finish s 0 me w); [by rewrite Hw| |done]. rewrite Hway in Ho. exact Ho.
  - apply Forall_cons in Hts as [Hb _]. destruct (inv_pool _ Hi me b Hme Hb) as [ids Hids].
    assert ((me, b, me * P + 0) ∈ tokens s) as Htok by (rewrite (inv_tokens _ Hi); apply elem_of_all_tokens; split; [exact Hme|split; [exact Hb|exists 0; lia]]).
    unfold tokens in Htok. rewrite Hway, app_nil_r in Htok. unfold pool_tokens in Htok. apply list_elem_of_bind in Htok as ([[x y] l] & Hin & Hl).
    apply list_elem_of_fmap in Hin as (z & [= <- <- <-] & Hz). apply elem_of_map_to_list in Hl. rewrite Hl in Hids. injection Hids as <-.
    destruct l as [|z l]; [by apply elem_of_nil in Hz|]. eexists. apply (move_send s 0 me w b ts); [by rewrite Hw|].
    unfold send_piece, next_ping_id, mbind, M_bind, get. rewrite Hl. done.
Qed.
End protocol.

Lemma ids_per_node_even available n P : notification_ids_per_node available n = Ret P → 2 ≤ P ∧ P = 2 * (P / 2).
Proof.
  unfold notification_ids_per_node. set (m := Z.land _ 4294967294). destruct (Z.ltb_spec m 2) as [|Hm]; [done|]. intros [= <-]. split; [done|].
  assert (Z.odd m = false) as Ho by (rewrite <- Z.bit0_odd; unfold m; rewrite Z.land_spec; by rewrite andb_false_r).
  pose proof (Z.div_mod m 2 ltac:(lia)) as Hd. rewrite Zmod_odd, Ho in Hd. lia.
Qed.
(** C19: notifications of writes, when the identifiers per node times the number of nodes fit
    into 16 bits (their product is below 65536), in every run of threads of all nodes that write and of the
    threads that answer, with notifications travelling in any order: a notification never
    arrives where another one waits to be seen; every notification that has arrived is one that
    is looked for and can be answered, with a counter of its write that exists and is not zero; the counter
    of a write is always the number of pieces that it has still to send plus the number of its
    pings and pongs that are on the way, so a writer that has sent everything stops waiting
    exactly when every piece is confirmed; and however the run goes on without new writes,
    it ends, with all writes confirmed and all identifiers of pings returned. *)
Theorem writes_confirmed `{HGS : GaspiSpec} (available n P : Z) (s : notifications) :
  0 < n → notification_ids_per_node available n = Ret P → P * n < two16 → rtc (steps P n) (make P n) s →
  (∀ i to_ id v, network s !! i = Some (to_, id, v) → arrived s !! (to_, id) = None) ∧
  (∀ me id v, arrived s !! (me, id) = Some v → id < total_number_of_notifications P n ∧ ∃ s', notification_check P me id s = (Ret tt, s')) ∧
  (∀ t, t ∈ writers s → outstanding s !! key t = Some (Z.of_nat (length (t_targets t)) + pending P (t_rank t) (t_write_id t) (on_the_way s))) ∧
  sn (moves P n) s ∧
  (∀ s', rtc (moves P n) s s' →
     (∃ s2, moves P n s' s2) ∨ (writers s' = [] ∧ on_the_way s' = [] ∧ outstanding s' = ∅ ∧ pool_tokens (ping_ids s') ≡ₚ all_tokens P n)).
Proof.
  intros Hn HP Hfit Hr. destruct (ids_per_node_even _ _ _ HP) as [H2 He].
  pose proof (inv_reachable P n H2 He Hn Hfit _ s (inv_make P n H2 He Hn Hfit) Hr) as Hi. split_and!.
  - intros i to_ id v. by apply (arrives_free P n s i).
  - intros me id v Ha. rewrite (total_fits P n H2 He Hn Hfit). split; [|by destruct (check_run P n H2 He Hn Hfit s me id v Hi Ha) as (s' & E & _); eauto].
    apply (inv_ids _ _ _ Hi me id v). rewrite (on_the_way_arrived s me id v Ha). by left.
  - intros t Ht. by apply (inv_count _ _ _ Hi t).
  - by apply (moves_end P n H2 He Hn Hfit).
  - intros s' Hr'. assert (inv P n s') as Hi'.
    { apply (inv_reachable P n H2 He Hn Hfit s s' Hi). by apply (rtc_subrel (moves P n)); [intros x y; right|]. }
    destruct (decide (writers s' = [] ∧ on_the_way s' = [])) as [[Hw Ho]|Hd]; [right|left].
    + split_and!; [done..| |].
      * apply map_empty. intros k. apply eq_None_not_Some. intros Hk%(inv_outstanding _ _ _ Hi'). rewrite Hw in Hk. by apply elem_of_nil in Hk.
      * rewrite <- (inv_tokens _ _ _ Hi'). unfold tokens. by rewrite Ho, app_nil_r.
    + apply (not_stuck P n H2 He Hn Hfit s' Hi'). destruct (writers s') eqn:?; [right; naive_solver|by left].
Qed.
(** node 1 writes eight bytes that are on nodes 1, 2 and 3, in four pieces *)
Definition one_write : notifications := (begin_write 1 4 [1; 2; 2; 3] (make 4 4)).2.
Lemma writes_confirmed_witness :
  notification_ids_per_node 16 4 = Ret 4 ∧ writers one_write = [mk_writer 1 1 [1; 2; 2; 3]] ∧ sn (moves 4 4) one_write.
Proof.
  split; [vm_compute; reflexivity|]. split; [vm_compute; reflexivity|].
  refine (proj1 (proj2 (proj2 (proj2 (@writes_confirmed small_gaspi small_gaspi_spec 16 4 4 one_write ltac:(lia) eq_refl eq_refl _))))).
  apply rtc_once. left. apply (@begin small_gaspi 4 (make 4 4) 1 4 [1; 2; 2; 3]); [|vm_compute; reflexivity].
  exists 200, 100, (mk_descriptor 0 0 20 17 5 0 "" 0 F_GLOBAL), 9, 8, [mk_part 1 100 24 1; mk_part 2 101 20 5; mk_part 3 106 20 2],
    [mk_part 1 100 24 1; mk_part 2 101 20 3; mk_part 2 104 23 2; mk_part 3 106 20 2].
  split; [split; vm_compute; repeat split; try discriminate; try reflexivity; right; discriminate|].
  split_and!; vm_compute; reflexivity.
Defined.
End notify_spec.
