(* ===== verification/VmemManager.v ===== *)
(** * The memory managers of all nodes

    [gpi-space/pc/memory/manager.cpp] with [gpi-space/pc/global/topology.cpp] and the functions
    of [memory_area.cpp] that tell the other nodes ([alloc], [free], [garbage_collect]): a node
    is a rank, a request to the other nodes runs there one after the other, and a failure on
    one of them is collected.  Requests that take longer than thirty seconds and requests of
    different nodes at the same time are not modelled. *)

From S2P Require Import Prelude Value Token Bitset Function Position Num ReadShow Tokenizer Expr Parser ModuleCall Net NetFire ModuleRun Mmgr VmemHandle VmemUrl VmemArea VmemTransfer.

Module manager.
Local Open Scope Z_scope.
Import module_run vmem_handle vmem transfer.

(** what BeeGFS says about a directory, and the memory of a node *)
Class Machine := {
  beegfs_testIsBeeGFS (path : string) : bool;
  beegfs_config (path : string) : option (list string);
  total_memory_size (rank : Z) : Z;
  (** the size and the contents of a shared memory object of a node *)
  shm_object (rank : Z) (path : string) : option (Z * (Z → Z))
}.
Definition tolower (c : ascii) : ascii :=
  let n := nat_of_ascii c in if (65 <=? n)%nat && (n <=? 90)%nat then ascii_of_nat (n + 32) else c.
Fixpoint lower (s : string) : string := match s with "" => "" | String c s => String (tolower c) (lower s) end.
(** [fhg::util::read_bool] *)
Definition read_bool (s : string) : outcome exn bool := (require.boolean (position.make (lower s))).1.

Section manager.
Context `{UnorderedMultiset} `{AssertMode} `{Unordered} `{Gaspi} `{Syscalls} `{Machine}.
Context (what : exn → string).
Abbreviation C := (M cluster thrown).

(** ** Exceptions *)
Definition catchable (e : thrown) : bool :=
  match e with Std (undefined _) | Std out_of_fuel => false | _ => true end.
Definition trying {X} (m : C X) (h : thrown → C X) : C X :=
  λ c, match m c with (Throw e, c) => if catchable e then h e c else (Throw e, c) | x => x end.
(** an operation of an area, of the generator *)
Definition in_area {X} (r seg : Z) (m : M area exn X) : C X :=
  a ← the_area r seg;
  let '(o, a) := m a in modify (on_area r seg (λ _, a)) ≫= λ _, std o.
Definition next_handle (r type : Z) : C Z :=
  c ← get;
  match node_at r c with
  | None => throw (Std (undefined "no such node"))
  | Some n => let '(o, g) := next type (handle_generator n) in modify (on_node r (set_generator g)) ≫= λ _, std o
  end.
Definition fhg_assert (condition : bool) (text : string) : C unit :=
  if assert_throws && negb condition then throw (Std (logic_error text)) else mret tt.
Definition fail {X} (text : string) : C X := throw (Std (runtime_error text)).

(** ** Areas and handles of a node *)
Definition find_area (r seg : Z) : C (option area) := c ← get; mret (area_at r seg c).
Definition add_area (r seg : Z) (a : area) : C unit :=
  x ← find_area r seg;
  match x with
  | Some _ => fail "cannot add another gpi segment: id already in use!"
  | None => modify (on_node r (set_areas (<[seg := a]>)))
  end.
Definition get_area (r seg : Z) : C area :=
  x ← find_area r seg;
  match x with Some a => mret a | None => fail ("no such memory: " +:+ show.integer seg) end.
Definition get_area_by_handle (r hdl : Z) : C Z :=
  c ← get;
  match n ← node_at r c; m_handle_to_segment n !! hdl with
  | Some seg => get_area r seg ≫= λ _, mret seg
  | None => fail ("no such handle: " +:+ show_handle hdl)
  end.
Definition add_handle (r hdl seg : Z) : C unit :=
  c ← get;
  match n ← node_at r c; m_handle_to_segment n !! hdl with
  | Some _ => fail "handle does already exist"
  | None => modify (on_node r (set_handle_to_segment (<[hdl := seg]>)))
  end.
Definition del_handle (r hdl : Z) : C unit :=
  c ← get;
  match n ← node_at r c; m_handle_to_segment n !! hdl with
  | Some _ => modify (on_node r (set_handle_to_segment (delete hdl)))
  | None => fail "handle does not exist"
  end.

(** ** Requests to all other nodes *)
Definition remote_alloc (r seg hdl offset size local_size : Z) (name : string) : C unit :=
  get_area r seg ≫= λ _,
  in_area r seg (area_remote_alloc hdl offset size local_size name) ≫= λ _,
  add_handle r hdl seg.
Definition remote_free (r hdl : Z) : C unit :=
  seg ← get_area_by_handle r hdl;
  in_area r seg (area_remote_free hdl) ≫= λ _,
  del_handle r hdl.

Definition others (r : Z) (c : cluster) : list Z := filter (λ q, q ≠ r) (seqZ 0 (number_of_nodes c)).
Fixpoint collect (f : Z → C unit) (l : list Z) (texts : list string) : C (list string) :=
  match l with
  | [] => mret texts
  | q :: l => λ c,
      match f q c with
      | (Ret _, c) => collect f l texts c
      | (Throw e, c) => if catchable e then collect f l (texts ++ [default "" (printed_lines what e)]) c else (Throw e, c)
      end
  end.
Definition request (r : Z) (f : Z → C unit) : C unit :=
  c ← get;
  texts ← collect f (others r c) [];
  match texts with [] => mret tt | _ => fail (String.concat newline texts) end.
Definition topology_free (r hdl : Z) : C unit := request r (λ q, remote_free q hdl).
Definition topology_alloc (r seg hdl offset size local_size : Z) (name : string) : C unit :=
  trying (request r (λ q, remote_alloc q seg hdl offset size local_size name))
    (λ e, topology_free r hdl ≫= λ _, throw e).

(** ** Allocations *)
Definition area_alloc (r seg proc size : Z) (name : string) (flags : Z) : C Z :=
  a ← the_area r seg;
  c ← get;
  hdl ← next_handle r (a_type a);
  d ← in_area r seg (reserve (mk_descriptor hdl (a_id a) 0 size (get_local_size (a_type a) (number_of_nodes c) size flags) 0 name proc flags));
  (if alloc_hook (a_type a) d then
     trying (topology_alloc r (a_id a) (d_id d) (d_offset d) (d_size d) (d_local_size d) (d_name d))
       (λ e, in_area r seg (unreserve d) ≫= λ _, throw (Nested "alloc_hook failed" (Some e)))
   else mret tt) ≫= λ _,
  in_area r seg (commit d) ≫= λ _,
  mret hdl.
Definition area_free (r seg hdl : Z) : C unit :=
  d ← in_area r seg (release hdl);
  a ← the_area r seg;
  if free_hook (a_type a) d then
    trying (topology_free r (d_id d)) (λ e, throw (Nested "free_hook failed" (Some e)))
  else mret tt.
Definition alloc (r proc seg size : Z) (name : string) (flags : Z) : C Z :=
  get_area r seg ≫= λ _,
  hdl ← area_alloc r seg proc size name flags;
  add_handle r hdl seg ≫= λ _,
  mret hdl.
Definition free (r hdl : Z) : C unit :=
  seg ← get_area_by_handle r hdl;
  del_handle r hdl ≫= λ _,
  area_free r seg hdl.
Definition info (r hdl : Z) : C descriptor :=
  seg ← get_area_by_handle r hdl; ask r seg (descriptor_of hdl).

(** ** Garbage *)
Fixpoint garbage_collect_all (fuel : nat) (r seg : Z) : C unit :=
  match fuel with
  | O => throw (Std out_of_fuel)
  | S fuel =>
      a ← the_area r seg;
      match unordered_list (m_handles a) with
      | [] => mret tt
      | (_, d) :: _ => trying (area_free r seg (d_id d)) (λ _, mret tt) ≫= λ _, garbage_collect_all fuel r seg
      end
  end.
(** every round removes a handle *)
Definition area_garbage_collect (r seg : Z) : C unit :=
  a ← the_area r seg; garbage_collect_all (S (size (m_handles a))) r seg.
(** a stack: the handles that were found last are released first *)
Definition area_garbage_collect_process (r seg pid : Z) : C unit :=
  a ← the_area r seg;
  for_each (λ x : Z * descriptor, area_free r seg x.1) (rev (filter (λ x : Z * descriptor, d_creator x.2 = pid) (unordered_list (m_handles a)))).

(** ** Segments *)
(** the destructor of an area: [beegfs_area_t::close] *)
Definition beegfs_close (a : area) : C unit :=
  if (a_type a =? SEG_BEEGFS) && negb (a_creator a =? 0) then modify (set_files (delete (a_name a))) else mret tt.
Definition unregister_segment (r seg : Z) : C unit :=
  a ← get_area r seg;
  if in_use a then fail "segment is still inuse, cannot unregister"
  else area_garbage_collect r seg ≫= λ _, modify (on_node r (set_areas (delete seg))) ≫= λ _, beegfs_close a.
Definition attach_process (r proc seg : Z) : C unit :=
  get_area r seg ≫= λ _,
  if proc =? 0 then mret tt else in_area r seg (area_attach_process proc).
Definition is_eligible_for_deletion (a : area) : C bool :=
  fhg_assert (a_nref a =? Z.of_nat (size (m_attached_processes a))) "m_descriptor.nref == m_attached_processes.size()" ≫= λ _,
  mret (a_nref a =? 0).
Definition detach_process (r proc seg : Z) : C unit :=
  get_area r seg ≫= λ _,
  if proc =? 0 then mret tt
  else
    in_area r seg (area_detach_process proc) ≫= λ _,
    a ← the_area r seg;
    is_eligible_for_deletion a ≫= λ eligible : bool,
    if eligible then unregister_segment r seg else mret tt.
Definition register_memory (r creator : Z) (a : area) : C Z :=
  id ← next_handle r SEG_INVAL;
  add_area r id (set_id id a) ≫= λ _,
  attach_process r creator id ≫= λ _,
  mret id.
Definition unregister_memory (r pid seg : Z) : C unit :=
  detach_process r pid seg ≫= λ _,
  x ← find_area r seg;
  match x with
  | None => mret tt
  | Some _ => trying (unregister_segment r seg) (λ e, attach_process r pid seg ≫= λ _, throw e)
  end.
Definition clear_step (r : Z) : C bool :=
  c ← get;
  match n ← node_at r c; head (unordered_list (m_areas n)) with
  | None => mret true
  | Some (seg, _) => unregister_segment r seg ≫= λ _, mret false
  end.
Fixpoint clear_loop (fuel : nat) (r : Z) : C unit :=
  match fuel with
  | O => throw (Std out_of_fuel)
  | S fuel => clear_step r ≫= λ done : bool, if done then mret tt else clear_loop fuel r
  end.
Definition clear (r : Z) : C unit :=
  c ← get; clear_loop (S (from_option (λ n, size (m_areas n)) 0%nat (node_at r c))) r.
(** the first loop of [garbage_collect (proc_id)] *)
Fixpoint collect_segments (r proc : Z) (l : list (Z * area)) : C (list Z) :=
  match l with
  | [] => mret []
  | (seg, _) :: l =>
      area_garbage_collect_process r seg proc ≫= λ _,
      a ← the_area r seg;
      segments ← collect_segments r proc l;
      mret (if decide (proc ∈ m_attached_processes a) then seg :: segments else segments)
  end.
Definition garbage_collect (r proc : Z) : C unit :=
  c ← get;
  segments ← collect_segments r proc (from_option (λ n, unordered_list (m_areas n)) [] (node_at r c));
  for_each (detach_process r proc) segments.

(** ** New segments *)
Definition argument (u : vmem_url.url_t) (key fallback : string) : C Z :=
  std (vmem_url.lexical_cast (default fallback (vmem_url.args u !! key))).
(** communication buffers: [alloc] of the new area, which tells nobody *)
Definition com_buffer (r : Z) (a : area) (size : Z) (name : string) : C (outcome exn (handle_buffer * area)) :=
  λ c, match next_handle r (a_type a) c with
       | (Throw (Std e), c) => (Ret (Throw e), c)
       | (Throw e, c) => (Throw e, c)
       | (Ret hdl, c) =>
           let '(o, a) := (d ← reserve (mk_descriptor hdl (a_id a) 0 size size 0 name GPI_PC_INVAL F_EXCLUSIVE);
                           commit d ≫= λ _, mret (mk_handle_buffer hdl (d_local_size d) (d_offset d))) a in
           (Ret (match o with Ret b => Ret (b, a) | Throw e => Throw e end), c)
       end.
Fixpoint com_buffers (n : nat) (i : Z) (r : Z) (a : area) (size : Z) (name : string) : C area :=
  match n with
  | O => mret a
  | S n =>
      x ← com_buffer r a size (name +:+ "-com-" +:+ show.integer i);
      match x with
      | Ret (b, a) => com_buffers n (i + 1) r (set_com_handles (.++ [b]) a) size name
      | Throw e => if catchable (Std e) then mret a else throw (Std e)
      end
  end.
(** [gaspi_segment_create] needs all nodes *)
Definition gaspi_create (r : Z) (u : vmem_url.url_t) (owner : Z) : C area :=
  comsize ← argument u "buffer_size" "4194304";
  numbuf ← argument u "buffers" "8";
  total ← (match vmem_url.args u !! "total_size" with
           | Some s => std (vmem_url.lexical_cast s)
           | None => throw (Std (undefined "get of an empty optional"))
           end);
  get ≫= λ c : cluster,
  let per_node_size := w64 (divru total (number_of_nodes c) + w64 (comsize * numbuf)) in
  if total_memory_size r <? per_node_size then
    fail ("not enough memory: requested memory size (" +:+ show.integer per_node_size +:+ ") exceeds total memory size (" +:+
          show.integer (total_memory_size r) +:+ ")")
  else if forallb (λ q, per_node_size <=? total_memory_size q) (seqZ 0 (number_of_nodes c)) then
    fhg_assert (0 <? numbuf) "m_num_com_buffers > 0" ≫= λ _,
    fhg_assert (0 <? comsize) "m_com_buffer_size > 0" ≫= λ _,
    a ← com_buffers (Z.to_nat numbuf) 0 r (make_area SEG_GASPI owner "GASPI" per_node_size F_GLOBAL) comsize "GASPI";
    match m_com_handles a with
    | [] => fail ("no communication buffer could be allocated: com-size := " +:+ show.integer comsize +:+ " mem-size := " +:+
                  show.integer per_node_size)
    | _ => mret a
    end
  else fail "gaspi_segment_create failed: timeout".

(** [vmem/segment/beegfs.cpp] *)
Fixpoint tuneUseGlobalFileLocks (lines : list string) : outcome exn bool :=
  match lines with
  | [] => Throw (runtime_error "'tuneUseGlobalFileLocks = [01]' not found in BeeGFS config")
  | line :: lines =>
      if bool_decide (line = "tuneUseGlobalFileLocks = 1") then Ret true
      else if bool_decide (line = "tuneUseGlobalFileLocks = 0") then Ret false
      else tuneUseGlobalFileLocks lines
  end.
Definition check_requirements (path : string) : outcome exn unit :=
  if beegfs_testIsBeeGFS path then
    lines ← or_throw (runtime_error "unable to get config file") (beegfs_config path);
    use ← tuneUseGlobalFileLocks lines;
    if use : bool then Ret tt else Throw (runtime_error "'tuneUseGlobalFileLocks' required but disabled")
  else Throw (runtime_error "not a BeeGFS mountpoint").
Definition requirements (path : string) : C unit :=
  trying (std (check_requirements path)) (λ e, throw (Nested ("BeeGFS segment requirements not met for " +:+ path) (Some e))).
(** [beegfs_area_t::open]: the owner makes the file, the others find it *)
Definition beegfs_open (path : string) (owner size : Z) : C unit :=
  get ≫= λ c : cluster,
  (if owner =? 0 then mret tt
   else match files c !! path with
        | Some _ => fail ("unable to create BeeGFS segment: " +:+ path +:+ " already exists")
        | None => modify (set_files (<[path := (size, λ _, 0)]>))
        end) ≫= λ _,
  trying
    (requirements path ≫= λ _,
     get ≫= λ c : cluster,
     match files c !! path with
     | None => fail "open: No such file or directory"
     | Some (file_size, _) =>
         if size =? file_size then mret tt
         else throw (Std (logic_error ("segment file on disk has size " +:+ show.integer file_size +:+ " but tried to open it with size " +:+
                show.integer size)))
     end)
    (λ e, (if owner =? 0 then mret tt else modify (set_files (delete path))) ≫= λ _, throw e).
Definition beegfs_create (u : vmem_url.url_t) (owner : Z) : C area :=
  exclusive ← std (read_bool (default "false" (vmem_url.args u !! "exclusive")));
  size ← argument u "total_size" "0";
  trying (beegfs_open (vmem_url.path u) owner size)
    (λ e, throw (Nested ("opening '" +:+ vmem_url.path u +:+ "' failed") (Some e))) ≫= λ _,
  mret (make_area SEG_BEEGFS owner (vmem_url.path u) size (Z.lor (if exclusive : bool then F_EXCLUSIVE else F_NONE) F_GLOBAL)).
Definition create_area (r : Z) (url_s : string) (owner : Z) : C area :=
  u ← std (vmem_url.make url_s);
  if bool_decide (vmem_url.type u = "gaspi") then gaspi_create r u owner
  else if bool_decide (vmem_url.type u = "beegfs") then beegfs_create u owner
  else fail ("no memory type registered with: '" +:+ url_s +:+ "'").
(** [shm_area_t] *)
Definition shm_create (r creator : Z) (name : string) (user_size : Z) : C area :=
  match name with
  | "" => fail "invalid shm name: must not be empty"
  | String c _ =>
      match shm_object r (if bool_decide (c = "/"%char) then name else String "/" name) with
      | None => fail "shm_open: No such file or directory"
      | Some (object_size, contents) =>
          let a := make_area SEG_SHM creator name (if user_size =? 0 then object_size else user_size) (Z.lor F_NOCREATE F_EXCLUSIVE) in
          mret (set_memory (λ _, contents) a)
      end
  end.
Definition keep_area (r seg : Z) (a : area) : C unit :=
  trying (add_area r seg (set_id seg a)) (λ e, beegfs_close a ≫= λ _, throw e).
Definition remote_add_memory (r seg : Z) (url : string) : C unit :=
  a ← create_area r url 0; keep_area r seg a.
(** [del_memory] up to the request *)
Definition del_local (r seg : Z) : C area :=
  if seg =? 0 then fail "invalid segment id"
  else
    a ← get_area r seg;
    if in_use a then fail "segment is still inuse, cannot unregister"
    else area_garbage_collect r seg ≫= λ _, modify (on_node r (set_areas (delete seg))) ≫= λ _, mret a.
Definition remote_del_memory (r seg : Z) : C unit := a ← del_local r seg; beegfs_close a.
Definition del_memory (r proc seg : Z) : C unit :=
  a ← del_local r seg;
  trying (if (0 <? proc) && is_set (a_flags a) F_GLOBAL then request r (λ q, remote_del_memory q seg) else mret tt)
    (λ e, beegfs_close a ≫= λ _, throw e) ≫= λ _,
  beegfs_close a.
(** the area of a beegfs segment is made before the others are told, a gaspi segment is made
    at the same time everywhere; what fails is undone *)
Definition add_memory (r proc : Z) (url_s : string) : C Z :=
  u ← std (vmem_url.make url_s);
  id ← next_handle r SEG_INVAL;
  let local := a ← create_area r url_s proc; keep_area r id a in
  let remote := request r (λ q, remote_add_memory q id url_s) in
  trying
    (if bool_decide (vmem_url.type u = "beegfs") then local ≫= λ _, remote
     else λ c, let '(o, c) := local c in (remote ≫= λ _, lift o) c)
    (λ e, trying (del_memory r proc id) (λ _, mret tt) ≫= λ _, throw e) ≫= λ _,
  mret id.

(** ** Copies *)
Definition memcpy (r : Z) (dst src : location) (amount : Z) : C Z :=
  src_seg ← get_area_by_handle r (l_handle src);
  dst_seg ← get_area_by_handle r (l_handle dst);
  ask r dst_seg (check_bounds dst amount) ≫= λ _,
  ask r src_seg (check_bounds src amount) ≫= λ _,
  t ← get_transfer_task r src_seg src dst_seg dst amount;
  c ← get;
  match node_at r c with
  | None => throw (Std (undefined "no such node"))
  | Some n =>
      let id := next_memcpy_id n in
      modify (on_node r (set_tasks (w64 (id + 1)) (<[id := None]>) (.++ [(id, t)]))) ≫= λ _, mret id
  end.
(** a thread takes the next task and runs it *)
Definition finish (r id : Z) (o : outcome thrown unit) (c : cluster) : cluster :=
  on_node r (λ n, set_tasks (next_memcpy_id n) (alter (λ _, Some o) id) (λ l, l) n) c.
Definition take_task (r : Z) : cluster → cluster := on_node r (λ n, set_tasks (next_memcpy_id n) (λ m, m) tail n).
Definition work (r : Z) : C unit :=
  λ c, match n ← node_at r c; head (tasks n) with
       | None => (Ret tt, c)
       | Some (id, t) =>
           match run_task r t (take_task r c) with
           | (Throw e, c) => if catchable e then (Ret tt, finish r id (Throw e) c) else (Throw e, c)
           | (Ret _, c) => (Ret tt, finish r id (Ret tt) c)
           end
       end.
Definition wait (r id : Z) : C unit :=
  c ← get;
  match n ← node_at r c; task_by_id n !! id with
  | None => throw (Std (invalid_argument "no such memcpy id"))
  | Some None => throw (Std (undefined "waits for a task"))
  | Some (Some o) => modify (on_node r (λ n, set_tasks (next_memcpy_id n) (delete id) (λ l, l) n)) ≫= λ _, lift o
  end.

(** ** Costs *)
Definition get_transfer_costs (hostname_of_rank : Z → string) (r : Z) (transfers : list (location * Z)) : C (gmap string SpecFloat.spec_float) :=
  get ≫= λ c : cluster,
  (fix go (l : list (location * Z)) (costs : gmap string SpecFloat.spec_float) : C (gmap string SpecFloat.spec_float) :=
     match l with
     | [] => mret costs
     | (loc, amount) :: l =>
         seg ← get_area_by_handle r (l_handle loc);
         a ← the_area r seg;
         d ← (if a_type a =? SEG_GASPI then std (descriptor_of (l_handle loc) a)
              else mret (mk_descriptor 0 0 0 0 0 0 "" 0 0));
         go l (foldl (λ costs q,
                 let host := hostname_of_rank q in
                 <[host := Float.add Float.binary64 (default (Float.of_Z Float.binary64 0) (costs !! host))
                             (area_transfer_costs a d (l_offset loc) amount q)]> costs) costs (seqZ 0 (number_of_nodes c)))
     end) transfers ∅.
End manager.
End manager.
