(* ===== verification/VmemReplicas.v ===== *)
(** * All nodes agree on distributed allocations

    A distributed allocation has the same place on every node although every node runs a
    memory manager of its own: the nodes together behave like one arena and one table of
    sizes.  [implements up G c]: in the cluster [c] the arena of distributed allocations of the
    segment is [up] on every node, and the table of such allocations, with their sizes, is [G].
    Allocations and releases keep this, whether they succeed or fail. *)

From S2P Require Import Prelude Value Token Bitset Function Position Num ReadShow Tokenizer Expr Parser ModuleCall Net NetFire ModuleRun Mmgr MmgrLayout MmgrSpec MmgrSafe VmemHandle VmemUrl VmemArea VmemAreaSpec VmemTransfer VmemTransferSpec VmemManager.

Module replicas.
Local Open Scope Z_scope.
Import Allocator module_run vmem_handle vmem area_spec transfer transfer_spec manager.

Section replicas.
Context `{UnorderedMultiset} `{AssertMode} `{Unordered} `{Gaspi} `{Syscalls} `{Machine}.
Context (what : exn → string) (seg n L : Z).

(** ** What the nodes agree on *)
Definition is_global (d : descriptor) : bool := is_set (d_flags d) F_GLOBAL.
Record replica (up : tmmgr.type) (G : gmap Z Z) (a : area) : Prop := {
  re_ok : area_ok a;
  re_type : a_type a = SEG_GASPI;
  re_id : a_id a = seg;
  re_size : a_local_size a = L;
  re_up : dtmmgr.up (m_mmgr a) = up;
  re_table : ∀ h s, G !! h = Some s ↔ ∃ d, m_handles a !! h = Some d ∧ is_global d = true ∧ d_size d = s;
  re_sizes : ∀ h d, m_handles a !! h = Some d → is_global d = true → 0 < d_size d ≤ n * d_local_size d;
  re_pool : ∀ b, b ∈ m_com_handles a → ∃ db, m_handles a !! b_handle b = Some db ∧ is_global db = false ∧
              d_offset db = b_data b ∧ d_local_size db = hb_size b
}.
Definition known (nd : node) (h : Z) : Prop :=
  is_Some (m_handle_to_segment nd !! h) ∨ ∃ k a, m_areas nd !! k = Some a ∧ is_Some (m_handles a !! h).
Record node_ok (up : tmmgr.type) (G : gmap Z Z) (K : Z → Z) (q : Z) (nd : node) : Prop := {
  no_area : ∃ a, m_areas nd !! seg = Some a ∧ replica up G a;
  no_known : ∀ h, m_handle_to_segment nd !! h = Some seg ↔ is_Some (G !! h);
  no_fresh : ∀ h, known nd h → type h = SEG_GASPI → global_cntr h ≤ K (ident h);
  no_generator : m_node_identifier (handle_generator nd) = q ∧ m_counter (handle_generator nd) !! 1%nat = Some (K q)
}.
(** [N] bounds the numbers of handles that were made *)
Definition implements (N : Z) (up : tmmgr.type) (G : gmap Z Z) (c : cluster) : Prop :=
  ∃ K, number_of_nodes c = n ∧ (∀ q, 0 ≤ K q ≤ N) ∧ ∀ q nd, 0 ≤ q → node_at q c = Some nd → node_ok up G K q nd.

(** ** One node *)
Definition area_with (d : descriptor) (a : area) : area :=
  with_alloc (dtmmgr.alloc (d_id d) dtmmgr.ARENA_UP (d_local_size d) (m_mmgr a)).2 d a.
Definition area_without (h : Z) (a : area) : area := without (dtmmgr.free h dtmmgr.ARENA_UP (m_mmgr a)).2 h a.
Definition node_alloc (d : descriptor) (nd : node) : node :=
  set_handle_to_segment (<[d_id d := seg]>) (set_areas (alter (area_with d) seg) nd).
Definition node_free (h : Z) (nd : node) : node :=
  set_handle_to_segment (delete h) (set_areas (alter (area_without h) seg) nd).

Lemma replica_dir up G a d : replica up G a → dir a d = if is_global d then dtmmgr.ARENA_UP else dtmmgr.ARENA_DOWN.
Proof. intros Ha. unfold dir, grow_direction, is_global. rewrite (re_type _ _ _ Ha). change (SEG_GASPI =? SEG_GASPI) with true. by destruct (is_set _ _). Qed.
Lemma area_with_grown up G a d o up' :
  replica up G a → is_global d = true → 0 < d_local_size d → d_local_size d + 1 ≤ two64 →
  tmmgr.alloc (d_id d) (d_local_size d) up = (Ret (o, d_local_size d), up') →
  ∃ t', dtmmgr.alloc (d_id d) dtmmgr.ARENA_UP (d_local_size d) (m_mmgr a) = (Ret (o, d_local_size d), t') ∧ dtmmgr.up t' = up' ∧
    grown dtmmgr.ARENA_UP (d_id d) o (d_local_size d) (m_mmgr a) t'.
Proof.
  intros Ha Hg Hp Hle Hrun. destruct (joint_arena a dtmmgr.ARENA_UP (re_ok _ _ _ Ha)) as (l & k & Hj & Hal).
  destruct (dt_alloc_grown dtmmgr.ARENA_UP l k (m_mmgr a) (d_id d) (d_local_size d) o (d_local_size d) up' Hj) as (t' & H1' & H2' & H3' & _);
    [done|by rewrite Hal|simpl; by rewrite (re_up _ _ _ Ha)|]. by exists t'.
Qed.
Lemma replica_alloc up G a d o up' :
  replica up G a → is_global d = true → d_nref d = 0 → d_offset d = o → 0 < d_size d ≤ n * d_local_size d →
  0 < d_local_size d → d_local_size d + 1 ≤ two64 → m_handles a !! d_id d = None →
  tmmgr.alloc (d_id d) (d_local_size d) up = (Ret (o, d_local_size d), up') → replica up' (<[d_id d := d_size d]> G) (area_with d a).
Proof.
  intros Ha Hg Hn Ho Hs Hp Hle Hfresh Hrun. destruct (area_with_grown _ _ _ _ _ _ Ha Hg Hp Hle Hrun) as (t' & Halloc & Hup & Hgr).
  unfold area_with. rewrite Halloc. cbn [snd]. destruct Ha as [A1 A2 A3 A4 A5 A6 A7 A8]. 
  assert (Hdir : dir a d = dtmmgr.ARENA_UP) by (rewrite (replica_dir up G); [by rewrite Hg|by split]).
  split; simpl; try done.
  - apply (with_alloc_ok _ _ o); [done|by rewrite Hdir|done|by rewrite Hdir|done].
  - intros h s. rewrite lookup_insert_Some. split.
    + intros [[<- <-]|[Hne Hh]]; [exists d; by rewrite lookup_insert_eq|]. apply A6 in Hh as (d0 & ? & ?). exists d0. by rewrite lookup_insert_ne.
    + intros (d0 & [[<- <-]|[Hne Hd0]]%lookup_insert_Some & Hg0 & <-); [by left|]. right. split; [done|]. apply A6. eauto.
  - intros h d0 [[<- <-]|[Hne Hd0]]%lookup_insert_Some Hg0; [done|]. by apply (A7 h).
  - intros b Hb. destruct (A8 b Hb) as (db & Hdb & ? & ? & ?). exists db. rewrite lookup_insert_ne by congruence. done.
Qed.
Lemma replica_free up G a h s up' :
  replica up G a → G !! h = Some s → tmmgr.free h up = (Ret tt, up') → replica up' (delete h G) (area_without h a).
Proof.
  intros Ha Hh Hrun. pose proof Ha as [A1 A2 A3 A4 A5 A6 A7 A8]. pose proof Hh as (d & Hd & Hg & _)%A6.
  assert (Hdir : dir a d = dtmmgr.ARENA_UP) by (rewrite (replica_dir up G); [by rewrite Hg|by split]).
  destruct (ao_table _ A1 h d Hd) as (_ & _ & o & Hb & _). destruct (joint_arena a dtmmgr.ARENA_UP A1) as (l & k & Hj & Hal).
  rewrite Hdir in Hb. destruct (dt_free_shrunk _ _ _ _ _ _ _ Hj Hb) as (t' & y & E1 & E2 & E3 & E4).
  simpl in E1, E3. rewrite A5, Hrun in E1. injection E1 as <-.
  unfold area_without. rewrite E2. cbn [snd]. split; simpl; try done.
  - apply (without_ok _ h d); [done..|]. by rewrite Hdir.
  - intros h' s'. rewrite lookup_delete_Some. split.
    + intros [Hne (d0 & ? & ? & ?)%A6]. exists d0. by rewrite lookup_delete_ne.
    + intros (d0 & [Hne Hd0]%lookup_delete_Some & Hg0 & <-). split; [done|]. apply A6. eauto.
  - intros h' d0 [Hne Hd0]%lookup_delete_Some Hg0. by apply (A7 h').
  - intros b Hb'. destruct (A8 b Hb') as (db & Hdb & ? & ? & ?). exists db. rewrite lookup_delete_ne by congruence. done.
Qed.

Lemma node_alloc_ok up G K q nd d o up' :
  node_ok up G K q nd → is_global d = true → d_nref d = 0 → d_offset d = o → 0 < d_size d ≤ n * d_local_size d →
  0 < d_local_size d → d_local_size d + 1 ≤ two64 → ¬ known nd (d_id d) → global_cntr (d_id d) ≤ K (ident (d_id d)) →
  tmmgr.alloc (d_id d) (d_local_size d) up = (Ret (o, d_local_size d), up') →
  node_ok up' (<[d_id d := d_size d]> G) K q (node_alloc d nd).
Proof.
  intros [(a & Ha & Hr) Hk Hf Hg] G1 G2 G3 G4 G5 G6 Hnew Hc Hrun.
  assert (Hnone : m_handles a !! d_id d = None) by (apply eq_None_not_Some; intros ?; apply Hnew; right; eauto).
  split; simpl; try done.
  - exists (area_with d a). rewrite lookup_alter_eq, Ha. split; [done|]. by apply (replica_alloc up _ _ _ o).
  - intros h. destruct (decide (h = d_id d)) as [->|Hne]; [rewrite !lookup_insert_eq; naive_solver|by rewrite !lookup_insert_ne].
  - intros h Hkn Hty. destruct (decide (h = d_id d)) as [->|Hne]; [done|]. apply Hf; [|done].
    destruct Hkn as [Hkn|(k & b & Hb & Hkn)]; simpl in *; [left; by rewrite lookup_insert_ne in Hkn|]. right.
    destruct (decide (k = seg)) as [->|Hk']; [|rewrite lookup_alter_ne in Hb by done; eauto].
    rewrite lookup_alter_eq, Ha in Hb. injection Hb as <-. simpl in Hkn. rewrite lookup_insert_ne in Hkn by done. eauto.
Qed.
Lemma node_free_ok up G K q nd h s up' :
  node_ok up G K q nd → G !! h = Some s → tmmgr.free h up = (Ret tt, up') → node_ok up' (delete h G) K q (node_free h nd).
Proof.
  intros [(a & Ha & Hr) Hk Hf Hg] Hh Hrun. split; simpl; try done.
  - exists (area_without h a). rewrite lookup_alter_eq, Ha. split; [done|]. by apply (replica_free up _ _ _ s).
  - intros h'. destruct (decide (h' = h)) as [->|Hne]; [|by rewrite !lookup_delete_ne]. rewrite !lookup_delete_eq. split; [done|by intros []].
  - intros h' Hkn Hty. apply Hf; [|done]. destruct Hkn as [Hkn|(k & b & Hb & Hkn)]; simpl in *.
    + left. destruct Hkn as [x [_ Hx]%lookup_delete_Some]. eauto.
    + right. destruct (decide (k = seg)) as [->|Hk']; [|rewrite lookup_alter_ne in Hb by done; eauto].
      rewrite lookup_alter_eq, Ha in Hb. injection Hb as <-. simpl in Hkn. destruct Hkn as [x [_ Hx]%lookup_delete_Some]. eauto.
Qed.

(** ** Running on a node *)
Lemma node_at_on_node q r f c : 0 ≤ q → 0 ≤ r → node_at q (on_node r f c) = if decide (q = r) then f <$> node_at r c else node_at q c.
Proof.
  intros Hq Hr. unfold node_at, on_node. cbn [nodes set_nodes]. destruct (decide (q = r)) as [->|Hne]; [by rewrite list_lookup_alter_eq|].
  by rewrite list_lookup_alter_ne by lia.
Qed.
Lemma number_on_node r f c : number_of_nodes (on_node r f c) = number_of_nodes c.
Proof. unfold number_of_nodes, on_node. cbn [nodes set_nodes]. by rewrite length_alter. Qed.
Lemma node_at_range q c nd : 0 ≤ q → node_at q c = Some nd → q < number_of_nodes c.
Proof. intros Hq Hnd. unfold node_at in Hnd. apply lookup_lt_Some in Hnd. unfold number_of_nodes. lia. Qed.
Lemma node_at_some q c : 0 ≤ q < number_of_nodes c → ∃ nd, node_at q c = Some nd.
Proof. intros Hq. unfold node_at. apply lookup_lt_is_Some. unfold number_of_nodes in Hq. lia. Qed.
Lemma on_node_on_node r f g c : on_node r f (on_node r g c) = on_node r (f ∘ g) c.
Proof.
  unfold on_node, set_nodes. cbn [nodes files]. f_equal. apply list_eq. intros i. destruct (decide (i = Z.to_nat r)) as [->|Hi].
  - rewrite !list_lookup_alter_eq. by destruct (nodes c !! Z.to_nat r).
  - by rewrite !list_lookup_alter_ne.
Qed.
Lemma on_node_ext r f g c nd : node_at r c = Some nd → f nd = g nd → on_node r f c = on_node r g c.
Proof.
  intros Hnd Hfg. unfold on_node, set_nodes. f_equal. apply list_eq. intros i. destruct (decide (i = Z.to_nat r)) as [->|Hi].
  - rewrite !list_lookup_alter_eq. unfold node_at in Hnd. rewrite Hnd. simpl. by rewrite Hfg.
  - by rewrite !list_lookup_alter_ne.
Qed.
Lemma in_area_run {X} r k (m : M area exn X) c a o a' :
  area_at r k c = Some a → m a = (o, a') → in_area r k m c = std o (on_area r k (λ _, a') c).
Proof. intros Ha Hm. unfold in_area. rewrite (bind_eq _ _ _ a c) by (by apply the_area_run). by rewrite Hm. Qed.
Lemma get_area_run r k c a : area_at r k c = Some a → get_area r k c = (Ret a, c).
Proof. intros Ha. unfold get_area, find_area. rewrite (bind_eq _ _ _ (Some a) c); [done|]. rewrite bind_get. by rewrite Ha. Qed.

Lemma remote_alloc_run up G K q c nd h o ls size name up' :
  0 ≤ q → node_at q c = Some nd → node_ok up G K q nd → ¬ known nd h → 0 < ls → ls + 1 ≤ two64 →
  tmmgr.alloc h ls up = (Ret (o, ls), up') →
  remote_alloc q seg h o size ls name c = (Ret tt, on_node q (node_alloc (mk_descriptor h seg o size ls 0 name GPI_PC_INVAL F_GLOBAL)) c).
Proof.
  intros Hq Hnd Hok Hnew Hp Hle Hrun. destruct (no_area _ _ _ _ _ Hok) as (a & Ha & Hr).
  assert (Haq : area_at q seg c = Some a) by (unfold area_at; by rewrite Hnd).
  set (d := mk_descriptor h seg o size ls 0 name GPI_PC_INVAL F_GLOBAL). unfold remote_alloc.
  rewrite (bind_eq _ _ _ a c) by (by apply get_area_run).
  destruct (area_with_grown up G a d o up') as (t' & Halloc & _); [done..|]. simpl in Halloc.
  assert (Hdir : dir a d = dtmmgr.ARENA_UP) by (by rewrite (replica_dir up G)).
  pose proof (reserve_run a d (re_ok _ _ _ Hr) Hp Hle) as Hres. rewrite Hdir in Hres. simpl in Hres. rewrite (re_up _ _ _ Hr), Hrun in Hres.
  destruct Hres as (_ & t2 & Hres & _ & _ & Halloc2). rewrite Halloc in Halloc2. injection Halloc2 as <-.
  assert (E : area_remote_alloc h o size ls name a = (Ret tt, with_alloc t' d a)).
  { unfold area_remote_alloc. rewrite bind_get, (re_id _ _ _ Hr).
    rewrite (bind_eq _ _ _ _ _ Hres). cbn [d_offset set_offset]. rewrite Z.eqb_refl. apply commit_run. }
  rewrite (bind_eq _ _ _ tt (on_area q seg (λ _, with_alloc t' d a) c)) by (by rewrite (in_area_run _ _ _ _ _ _ _ Haq E)).
  unfold add_handle. rewrite bind_get. unfold on_area. rewrite node_at_on_node, decide_True, Hnd by done. simpl.
  destruct (m_handle_to_segment nd !! h) as [x|] eqn:Hx; [destruct Hnew; left; by eexists|].
  unfold modify. rewrite on_node_on_node. f_equal. apply (on_node_ext _ _ _ _ nd Hnd). simpl. unfold node_alloc, set_handle_to_segment, set_areas.
  simpl. f_equal. apply alter_ext. intros x' Hx'. rewrite Ha in Hx'. injection Hx' as <-. unfold area_with. simpl. by rewrite Halloc.
Qed.

(** ** Requests that succeed everywhere *)
Definition on_nodes (l : list Z) (g : node → node) (c : cluster) : cluster := foldl (λ c q, on_node q g c) c l.
Lemma on_nodes_at l g c q :
  NoDup l → Forall (λ x, 0 ≤ x) l → 0 ≤ q → node_at q (on_nodes l g c) = if decide (q ∈ l) then g <$> node_at q c else node_at q c.
Proof.
  intros Hnd Hl Hq. revert c. unfold on_nodes. induction l as [|x l IH]; intros c; simpl; [done|].
  apply NoDup_cons in Hnd as [Hx Hnd]. apply Forall_cons in Hl as [Hx0 Hl]. rewrite IH by done. rewrite node_at_on_node by done.
  destruct (decide (q = x)) as [->|Hne].
  - rewrite decide_False, decide_True by (done || by left). done.
  - destruct (decide (q ∈ l)); [rewrite decide_True by (by right); done|]. rewrite decide_False; [done|]. by intros [?|?]%elem_of_cons.
Qed.
Lemma on_nodes_number l g c : number_of_nodes (on_nodes l g c) = number_of_nodes c.
Proof. unfold on_nodes. revert c. induction l as [|x l IH]; intros c; simpl; [done|]. by rewrite IH, number_on_node. Qed.
Lemma collect_run f g l c :
  NoDup l → Forall (λ x, 0 ≤ x) l →
  (∀ q c', q ∈ l → node_at q c' = node_at q c → f q c' = (Ret tt, on_node q g c')) → collect what f l [] c = (Ret [], on_nodes l g c).
Proof.
  intros Hnd Hl. revert c. unfold on_nodes. induction l as [|x l IH]; intros c Hf; [done|].
  apply NoDup_cons in Hnd as [Hx Hnd]. apply Forall_cons in Hl as [Hx0 Hl]. cbn [collect foldl].
  rewrite (Hf x c) by (done || by left). apply IH; [done..|]. intros q c' Hq Hc'. apply Hf; [by right|]. rewrite Hc'.
  rewrite node_at_on_node, decide_False; [done| | |done]; [intros ->; done|]. rewrite Forall_forall in Hl. by apply Hl.
Qed.
Lemma elem_of_others r c q : q ∈ others r c ↔ 0 ≤ q < number_of_nodes c ∧ q ≠ r.
Proof. unfold others. rewrite list_elem_of_filter, elem_of_seqZ. split; lia || (intros; split; lia). Qed.
Lemma request_run r f g c :
  (∀ q c', q ∈ others r c → node_at q c' = node_at q c → f q c' = (Ret tt, on_node q g c')) →
  request what r f c = (Ret tt, on_nodes (others r c) g c).
Proof.
  intros Hf. unfold request. rewrite bind_get. rewrite (bind_eq _ _ _ [] (on_nodes (others r c) g c)); [done|].
  apply collect_run; [|apply Forall_forall; intros q Hq%elem_of_others; lia|done]. apply NoDup_filter, NoDup_seqZ.
Qed.
Lemma others_at r g c q :
  0 ≤ q → node_at q (on_nodes (others r c) g c) = if decide (q = r) then node_at q c else g <$> node_at q c.
Proof.
  intros Hq. rewrite on_nodes_at; [|apply NoDup_filter, NoDup_seqZ|apply Forall_forall; intros x Hx%elem_of_others; lia|done].
  destruct (decide (q = r)) as [->|Hne]; [rewrite decide_False; [done|]; by intros [_ ?]%elem_of_others|].
  destruct (node_at q c) as [nd|] eqn:Hnd; [|by destruct (decide _)]. rewrite decide_True; [done|]. apply elem_of_others.
  pose proof (node_at_range q c nd Hq Hnd). lia.
Qed.

(** ** The next handle *)
Lemma next_handle_run N up G c r :
  implements N up G c → 0 ≤ r < n → N + 1 < two64 →
  ∃ o g, next_handle r SEG_GASPI c = std o (on_node r (set_generator g) c) ∧
    implements (N + 1) up G (on_node r (set_generator g) c) ∧
    (∀ h, o = Ret h → type h = SEG_GASPI ∧
       (∃ K', (∀ q, 0 ≤ K' q ≤ N + 1) ∧ global_cntr h ≤ K' (ident h) ∧
          ∀ q nd, 0 ≤ q → node_at q (on_node r (set_generator g) c) = Some nd → node_ok up G K' q nd) ∧
       ∀ q nd, 0 ≤ q → node_at q c = Some nd → ¬ known nd h) ∧
    (∀ e, o = Throw e → 2 ^ 48 ≤ N + 1 ∨ 4096 ≤ r).
Proof.
  intros (K & Hn & HK & Hok) Hr HN. destruct (node_at_some r c) as [nd Hnd]; [lia|]. pose proof (Hok r nd ltac:(lia) Hnd) as [R1 R2 R3 [R4 R5]].
  set (k := K r + 1). set (g := mk_generator r (<[1%nat := k]> (m_counter (handle_generator nd)))).
  exists (encode r SEG_GASPI k), g. split.
  { unfold next_handle. rewrite bind_get, Hnd. unfold next. rewrite bind_get. change (Z.to_nat SEG_GASPI) with 1%nat. rewrite R5.
    pose proof (HK r). rewrite w64_small by (unfold is_w64; lia). rewrite bind_modify. fold k. unfold lift. rewrite R4. done. }
  set (K' := λ q, if q =? r then k else K q).
  assert (HK' : ∀ q, 0 ≤ K' q ≤ N + 1) by (intros q; pose proof (HK q); pose proof (HK r); unfold K', k; destruct (q =? r); lia).
  assert (Hle : ∀ q, K q ≤ K' q) by (intros q; unfold K', k; destruct (Z.eqb_spec q r) as [->|]; lia).
  assert (Hok' : ∀ q nd, 0 ≤ q → node_at q (on_node r (set_generator g) c) = Some nd → node_ok up G K' q nd).
  { intros q nd' Hq. rewrite node_at_on_node by lia. destruct (decide (q = r)) as [->|Hne].
    - rewrite Hnd. simpl. intros [= <-]. split; [done..|intros h Hh Ht; etransitivity; [by apply R3|apply Hle]|]. simpl. split; [done|].
      unfold K'. rewrite Z.eqb_refl. apply list_lookup_insert_eq. by apply lookup_lt_Some in R5.
    - intros Hnd'. destruct (Hok q nd' Hq Hnd') as [S1 S2 S3 [S4 S5]]. split; [done..|intros h Hh Ht; etransitivity; [by apply S3|apply Hle]|].
      split; [done|]. unfold K'. by rewrite (proj2 (Z.eqb_neq q r)). }
  split; [exists K'; rewrite number_on_node; done|]. split.
  2:{ intros e He. destruct (Z_lt_le_dec (N + 1) (2 ^ 48)) as [Hsmall|]; [|by left]. destruct (Z_lt_le_dec r 4096); [|by right].
      destruct (encode_ok r SEG_GASPI k) as [h Hh]; [lia|done|done|pose proof (HK r); unfold k; lia|]. congruence. }
  intros h Hh.
  pose proof (HK r) as HKr. apply encode_fields in Hh as (_ & Ht & Hf); [|unfold k, SEG_GASPI; lia..].
  change (SEG_GASPI =? SEG_SHM) with false in Hf. destruct Hf as [Hi Hc]. split_and!; [done| |].
  - exists K'. split_and!; [done| |done]. rewrite Hi, Hc. unfold K'. by rewrite Z.eqb_refl.
  - intros q nd' Hq Hnd' Hkn. pose proof (no_fresh _ _ _ _ _ (Hok q nd' Hq Hnd') h Hkn Ht) as Hlt. rewrite Hi, Hc in Hlt. unfold k in Hlt. lia.
Qed.

(** ** Allocation *)
Definition part_size (size : Z) : Z := get_local_size SEG_GASPI n size F_GLOBAL.
Lemma part_size_flags size flags : is_set flags F_GLOBAL = true → get_local_size SEG_GASPI n size flags = part_size size.
Proof. intros Hf. unfold part_size, get_local_size. by rewrite Hf. Qed.
Lemma part_size_bounds size : 0 < n → 0 < size → 0 < part_size size ≤ size ∧ size ≤ n * part_size size.
Proof.
  intros Hn Hs. unfold part_size, get_local_size. change ((SEG_GASPI =? SEG_GASPI) && is_set F_GLOBAL F_GLOBAL) with true. cbn iota.
  pose proof (Z.div_mod size n). pose proof (Z.mod_pos_bound size n Hn). assert (0 ≤ size / n) by (apply Z.div_pos; lia).
  destruct (Z.eqb_spec (size mod n) 0); nia.
Qed.
Lemma trying_ret {X} (m : M cluster thrown X) f c x c' : m c = (Ret x, c') → trying m f c = (Ret x, c').
Proof. intros Hm. unfold trying. by rewrite Hm. Qed.
Lemma area_at_node r k c nd : node_at r c = Some nd → area_at r k c = m_areas nd !! k.
Proof. intros Hnd. unfold area_at. by rewrite Hnd. Qed.

(** from the reservation on the node that allocates to the end *)
Lemma alloc_everywhere up G K c r nd a d o up' t' :
  number_of_nodes c = n → 0 ≤ r < n → node_at r c = Some nd → m_areas nd !! seg = Some a →
  (∀ q nd, 0 ≤ q → node_at q c = Some nd → node_ok up G K q nd ∧ ¬ known nd (d_id d)) →
  is_global d = true → d_nref d = 0 → d_segment d = seg → d_offset d = o → 0 < d_size d ≤ n * d_local_size d → 0 < d_local_size d → d_local_size d + 1 ≤ two64 →
  global_cntr (d_id d) ≤ K (ident (d_id d)) → tmmgr.alloc (d_id d) (d_local_size d) up = (Ret (o, d_local_size d), up') →
  dtmmgr.alloc (d_id d) dtmmgr.ARENA_UP (d_local_size d) (m_mmgr a) = (Ret (o, d_local_size d), t') →
  ∃ c', (topology_alloc what r seg (d_id d) o (d_size d) (d_local_size d) (d_name d) ≫= λ _,
         in_area r seg (commit d) ≫= λ _, add_handle r (d_id d) seg) (on_area r seg (λ _, set_mmgr t' a) c) = (Ret tt, c') ∧
    number_of_nodes c' = n ∧ (∀ q nd, 0 ≤ q → node_at q c' = Some nd → node_ok up' (<[d_id d := d_size d]> G) K q nd) ∧
    (∀ q k, 0 ≤ q → k ≠ seg → area_at q k c' = area_at q k c).
Proof.
  intros Hn Hr Hnd Ha Hok G1 G2 G3 G4 G5 G6 G7 G8 Hrun Halloc. set (c2 := on_area r seg (λ _, set_mmgr t' a) c).
  set (rd := mk_descriptor (d_id d) seg o (d_size d) (d_local_size d) 0 (d_name d) GPI_PC_INVAL F_GLOBAL).
  assert (Hc2 : ∀ q, 0 ≤ q → node_at q c2 = if decide (q = r) then Some (set_areas (alter (λ _, set_mmgr t' a) seg) nd) else node_at q c).
  { intros q Hq. unfold c2, on_area. rewrite node_at_on_node by lia. by rewrite Hnd. }
  assert (Hn2 : number_of_nodes c2 = n) by (unfold c2, on_area; by rewrite number_on_node).
  set (c3 := on_nodes (others r c2) (node_alloc rd) c2).
  assert (E3 : topology_alloc what r seg (d_id d) o (d_size d) (d_local_size d) (d_name d) c2 = (Ret tt, c3)).
  { apply trying_ret, request_run. intros q c' [Hq Hne]%elem_of_others Hc'. rewrite Hc2, decide_False in Hc' by (lia || done).
    destruct (node_at_some q c) as [ndq Hq']; [lia|]. destruct (Hok q ndq ltac:(lia) Hq') as [Hok1 Hnew]. rewrite Hq' in Hc'.
    by apply (remote_alloc_run up G K q c' ndq (d_id d) o (d_local_size d) (d_size d) (d_name d) up'); [lia|..]. }
  rewrite (bind_eq _ _ _ tt c3 E3).
  assert (Hr3 : node_at r c3 = Some (set_areas (alter (λ _, set_mmgr t' a) seg) nd)).
  { unfold c3. rewrite others_at, decide_True by (lia || done). by rewrite Hc2, decide_True by (lia || done). }
  assert (Ha3 : area_at r seg c3 = Some (set_mmgr t' a)) by (rewrite (area_at_node _ _ _ _ Hr3); simpl; by rewrite lookup_alter_eq, Ha).
  rewrite (bind_eq _ _ _ tt (on_area r seg (λ _, with_alloc t' d a) c3)) by (by rewrite (in_area_run _ _ _ _ _ _ _ Ha3 (commit_run d t' a))).
  set (c4 := on_area r seg (λ _, with_alloc t' d a) c3). destruct (Hok r nd ltac:(lia) Hnd) as [Hokr Hnewr].
  assert (Hfinal : on_node r (set_handle_to_segment (<[d_id d := seg]>)) c4 = on_node r (λ _, node_alloc d nd) c3).
  { unfold c4, on_area. rewrite on_node_on_node. apply (on_node_ext _ _ _ _ _ Hr3). simpl. unfold node_alloc, set_handle_to_segment, set_areas. simpl.
    rewrite alter_alter_eq. f_equal. apply alter_ext. intros x Hx. rewrite Ha in Hx. injection Hx as <-. simpl. unfold area_with. by rewrite Halloc. }
  exists (on_node r (λ _, node_alloc d nd) c3). split_and!.
  - unfold add_handle. rewrite bind_get. unfold c4 at 1, on_area. rewrite node_at_on_node, decide_True, Hr3 by (lia || done). simpl.
    destruct (m_handle_to_segment nd !! d_id d) eqn:Hx; [destruct Hnewr; left; by eexists|]. unfold modify. by rewrite Hfinal.
  - rewrite number_on_node. unfold c3. by rewrite on_nodes_number.
  - intros q ndq Hq. rewrite node_at_on_node by lia. destruct (decide (q = r)) as [->|Hne].
    + rewrite Hr3. intros [= <-]. by apply (node_alloc_ok up G K r nd d o up').
    + unfold c3. rewrite others_at, decide_False, Hc2, decide_False by done. destruct (node_at q c) as [x|] eqn:Hx; [|done].
      intros [= <-]. destruct (Hok q x Hq Hx). by apply (node_alloc_ok up G K q x rd o up').
  - intros q k Hq Hk. unfold area_at. rewrite node_at_on_node by lia. destruct (decide (q = r)) as [->|Hne].
    + rewrite Hr3, Hnd. simpl. by rewrite lookup_alter_ne.
    + unfold c3. rewrite others_at, decide_False, Hc2, decide_False by done. destruct (node_at q c) as [x|]; simpl; [|done]. by rewrite lookup_alter_ne.
Qed.

Lemma area_at_generator r g c q k : 0 ≤ q → 0 ≤ r → area_at q k (on_node r (set_generator g) c) = area_at q k c.
Proof.
  intros Hq Hr. unfold area_at. rewrite node_at_on_node by done. destruct (decide (q = r)) as [->|]; [|done]. by destruct (node_at r c).
Qed.
Lemma bind_throw {S E A B} (m : M S E A) (k : A → M S E B) s e s' : m s = (Throw e, s') → (m ≫= k) s = (Throw e, s').
Proof. intros Hm. unfold mbind, M_bind. by rewrite Hm. Qed.

Lemma alloc_refines N up G c r proc size name flags :
  implements N up G c → 0 ≤ r < n → N + 1 < two64 → proc ≠ GPI_PC_INVAL → is_set flags F_GLOBAL = true → 0 < size < two64 →
  match alloc what r proc seg size name flags c with
  | (Ret h, c') => ∃ o up', tmmgr.alloc h (part_size size) up = (Ret (o, part_size size), up') ∧ G !! h = None ∧ type h = SEG_GASPI ∧
      implements (N + 1) up' (<[h := size]> G) c' ∧ (∀ q k, 0 ≤ q → k ≠ seg → area_at q k c' = area_at q k c)
  | (Throw _, c') => implements (N + 1) up G c' ∧ (∀ q k, 0 ≤ q → area_at q k c' = area_at q k c) ∧
      (2 ^ 48 ≤ N + 1 ∨ 4096 ≤ r ∨ ∃ h e up', G !! h = None ∧ tmmgr.alloc h (part_size size) up = (Throw e, up'))
  end.
Proof.
  intros Himp Hr HN Hproc Hflags Hsize. pose proof Himp as (K0 & Hn & _ & Hok0).
  destruct (part_size_bounds size) as [[Hp1 Hp2] Hp3]; [lia..|]. set (ls := part_size size) in *.
  destruct (node_at_some r c) as [nd0 Hnd0]; [lia|]. destruct (no_area _ _ _ _ _ (Hok0 r nd0 ltac:(lia) Hnd0)) as (a & Ha & Hrep).
  assert (Hac : area_at r seg c = Some a) by (by rewrite (area_at_node _ _ _ _ Hnd0)).
  destruct (next_handle_run N up G c r Himp Hr HN) as (oh & g & Hnext & Himp1 & Hnew & Hover). set (c1 := on_node r (set_generator g) c) in *.
  assert (Hac1 : area_at r seg c1 = Some a) by (unfold c1; by rewrite area_at_generator by lia).
  assert (Hsame : ∀ q k, 0 ≤ q → area_at q k c1 = area_at q k c) by (intros; apply area_at_generator; lia).
  unfold alloc. rewrite (bind_eq _ _ _ a c) by (by apply get_area_run).
  destruct oh as [h|e].
  2:{ assert (area_alloc what r seg proc size name flags c = (Throw (Std e), c1)) as E.
      { unfold area_alloc. rewrite (bind_eq _ _ _ a c) by (by apply the_area_run). rewrite bind_get, (re_type _ _ _ Hrep).
        by rewrite (bind_throw _ _ _ (Std e) c1) by (by rewrite Hnext). }
      rewrite (bind_throw _ _ _ _ _ E). split_and!; [done|done|]. destruct (Hover e eq_refl); auto. }
  destruct (Hnew h eq_refl) as (Hty & (K & HK & Hc & Hok) & Hunk).
  assert (Hnone : G !! h = None).
  { apply eq_None_not_Some. intros [x Hx]. apply (Hunk r nd0 ltac:(lia) Hnd0). right. exists seg, a. split; [done|].
    apply (re_table _ _ _ Hrep) in Hx as (dx & Hx & _). by eexists. }
  set (d0 := mk_descriptor h seg 0 size ls 0 name proc flags).
  assert (Hdir : dir a d0 = dtmmgr.ARENA_UP) by (rewrite (replica_dir up G a d0 Hrep); unfold is_global; simpl; by rewrite Hflags).
  pose proof (reserve_run a d0 (re_ok _ _ _ Hrep) Hp1 ltac:(simpl; lia)) as Hres. rewrite Hdir in Hres. simpl in Hres. rewrite (re_up _ _ _ Hrep) in Hres.
  destruct (tmmgr.alloc h ls up) as [[[o m]|e] up'] eqn:Hrun.
  2:{ destruct Hres as [e' Hres]. assert (area_alloc what r seg proc size name flags c = (Throw (Std (runtime_error e')), c1)) as E.
      { unfold area_alloc. rewrite (bind_eq _ _ _ a c) by (by apply the_area_run). rewrite bind_get, (re_type _ _ _ Hrep), Hn.
        rewrite (bind_eq _ _ _ h c1) by (by rewrite Hnext). rewrite part_size_flags, (re_id _ _ _ Hrep) by done. fold ls. fold d0. apply bind_throw.
        rewrite (in_area_run _ _ _ _ _ _ _ Hac1 Hres). unfold std, lift. f_equal. apply on_area_id. intros x Hx. congruence. }
      rewrite (bind_throw _ _ _ _ _ E). split_and!; [done|done|]. right. right. by exists h, e, up'. }
  destruct Hres as (-> & t' & Hres & _ & _ & Halloc). set (d := set_offset o d0) in *.
  destruct (node_at_some r c1) as [nd Hnd]; [unfold c1; rewrite number_on_node; lia|].
  destruct (alloc_everywhere up G K c1 r nd a d o up' t') as (c' & E & Hn' & Hok' & Hother);
    [unfold c1; by rewrite number_on_node|done|done|by rewrite <- (area_at_node _ _ _ _ Hnd)| |done|done|done|done|simpl; lia|simpl; lia|simpl; lia|done|done|done|].
  { intros q x Hq Hx. split; [by apply Hok|]. unfold c1 in Hx. rewrite node_at_on_node in Hx by lia. destruct (decide (q = r)) as [->|]; [|by apply (Hunk q)].
    rewrite Hnd0 in Hx. injection Hx as <-. by apply (Hunk r nd0 ltac:(lia)). }
  apply bind_ret_inv in E as ([] & c3 & E3 & E). apply bind_ret_inv in E as ([] & c4 & E4 & E5).
  assert (area_alloc what r seg proc size name flags c = (Ret h, c4)) as E.
  { unfold area_alloc. rewrite (bind_eq _ _ _ a c) by (by apply the_area_run). rewrite bind_get, (re_type _ _ _ Hrep), Hn.
    rewrite (bind_eq _ _ _ h c1) by (by rewrite Hnext). rewrite part_size_flags, (re_id _ _ _ Hrep) by done. fold ls. fold d0.
    rewrite (bind_eq _ _ _ d (on_area r seg (λ _, set_mmgr t' a) c1)) by (by rewrite (in_area_run _ _ _ _ _ _ _ Hac1 Hres)).
    assert (alloc_hook SEG_GASPI d = true) as -> by (unfold alloc_hook; simpl; rewrite Hflags; by rewrite (proj2 (Z.eqb_neq _ _)) by done).
    rewrite (bind_eq _ _ _ tt c3) by (by apply trying_ret). by rewrite (bind_eq _ _ _ tt c4). }
  rewrite (bind_eq _ _ _ _ _ E). rewrite (bind_eq _ _ _ tt c') by done. exists o, up'. split_and!; [done|done|done| |].
  - exists K. done.
  - intros q k Hq Hk. by rewrite Hother, Hsame.
Qed.

(** ** Release *)
Lemma area_free_run up G a h s :
  replica up G a → G !! h = Some s →
  ∃ d up', m_handles a !! h = Some d ∧ is_global d = true ∧ d_nref d = 0 ∧ d_id d = h ∧ tmmgr.free h up = (Ret tt, up') ∧
    forget d h a = (Ret tt, area_without h a).
Proof.
  intros Ha Hh. pose proof Hh as (d & Hd & Hg & _)%(re_table _ _ _ Ha). destruct (ao_table _ (re_ok _ _ _ Ha) h d Hd) as (Hid & Hn & _).
  assert (Hdir : dir a d = dtmmgr.ARENA_UP) by (by rewrite (replica_dir up G a d Ha), Hg).
  destruct (forget_run a h d (re_ok _ _ _ Ha) Hd) as (t' & y & E1 & E2 & E3 & _). rewrite Hdir in E1, E3. simpl in E1, E3. rewrite (re_up _ _ _ Ha) in E1.
  exists d, y. split_and!; try done. rewrite E2. unfold area_without. do 2 f_equal.
  destruct (joint_arena a dtmmgr.ARENA_UP (re_ok _ _ _ Ha)) as (l & k & Hj & _).
  pose proof (dt_free_spec dtmmgr.ARENA_UP l k (m_mmgr a) h Hj) as Hs. simpl in Hs. rewrite (re_up _ _ _ Ha), E1 in Hs.
  destruct Hs as (t2 & E & _). rewrite E. simpl. unfold forget, on_mmgr, mbind, M_bind in E2. simpl in E2.
  change (grow_direction (a_type a) (d_flags d)) with (dir a d) in E2. rewrite Hdir, E in E2. injection E2 as E2. done.
Qed.
Lemma remote_free_run up G K q c nd h s :
  0 ≤ q → node_at q c = Some nd → node_ok up G K q nd → G !! h = Some s →
  remote_free q h c = (Ret tt, on_node q (node_free h) c).
Proof.
  intros Hq Hnd [(a & Ha & Hr) Hk _ _] Hs. destruct (area_free_run up G a h s Hr Hs) as (d & up' & Hd & _ & _ & _ & _ & E).
  assert (Haq : area_at q seg c = Some a) by (by rewrite (area_at_node _ _ _ _ Hnd)).
  assert (Hh : m_handle_to_segment nd !! h = Some seg) by (apply Hk; by eexists).
  unfold remote_free. rewrite (bind_eq _ _ _ seg c).
  2:{ unfold get_area_by_handle. rewrite bind_get, Hnd. simpl. rewrite Hh. by rewrite (bind_eq _ _ _ a c) by (by apply get_area_run). }
  assert (E' : area_remote_free h a = (Ret tt, area_without h a)) by (unfold area_remote_free; rewrite bind_get, Hd; exact E).
  rewrite (bind_eq _ _ _ tt (on_area q seg (λ _, area_without h a) c)) by (by rewrite (in_area_run _ _ _ _ _ _ _ Haq E')).
  unfold del_handle. rewrite bind_get. unfold on_area. rewrite node_at_on_node, decide_True, Hnd by done. simpl. rewrite Hh.
  unfold modify. rewrite on_node_on_node. f_equal. apply (on_node_ext _ _ _ _ nd Hnd). simpl. unfold node_free, set_handle_to_segment, set_areas.
  simpl. f_equal. apply alter_ext. intros x Hx. congruence.
Qed.

Lemma free_refines N up G c r h s :
  implements N up G c → 0 ≤ r < n → G !! h = Some s →
  ∃ up' c', free what r h c = (Ret tt, c') ∧ tmmgr.free h up = (Ret tt, up') ∧ implements N up' (delete h G) c' ∧
    (∀ q k, 0 ≤ q → k ≠ seg → area_at q k c' = area_at q k c).
Proof.
  intros (K & Hn & HK & Hok) Hr Hs. destruct (node_at_some r c) as [nd Hnd]; [lia|].
  pose proof (Hok r nd ltac:(lia) Hnd) as [(a & Ha & Hrep) Hk _ _].
  destruct (area_free_run up G a h s Hrep Hs) as (d & up' & Hd & Hg & Hn0 & Hid & Hrun & E).
  assert (Hac : area_at r seg c = Some a) by (by rewrite (area_at_node _ _ _ _ Hnd)).
  assert (Hh : m_handle_to_segment nd !! h = Some seg) by (apply Hk; by eexists).
  set (c1 := on_node r (set_handle_to_segment (delete h)) c). set (c2 := on_area r seg (λ _, area_without h a) c1).
  assert (E2 : c2 = on_node r (node_free h) c).
  { unfold c2, c1, on_area. rewrite on_node_on_node. apply (on_node_ext _ _ _ _ nd Hnd). simpl.
    unfold node_free, set_handle_to_segment, set_areas. simpl. f_equal. apply alter_ext. intros x Hx. congruence. }
  set (c3 := on_nodes (others r c2) (node_free h) c2). exists up', c3.
  assert (Ha1 : area_at r seg c1 = Some a).
  { unfold area_at, c1. rewrite node_at_on_node, decide_True, Hnd by (lia || done). done. }
  assert (Hrel : release h a = (Ret d, area_without h a)).
  { unfold release. rewrite bind_get, Hd, Hn0. simpl. by rewrite (bind_eq _ _ _ _ _ E). }
  assert (Hc2 : ∀ q, 0 ≤ q → node_at q c2 = if decide (q = r) then Some (node_free h nd) else node_at q c).
  { intros q Hq. rewrite E2, node_at_on_node by lia. by rewrite Hnd. }
  assert (E3 : topology_free what r (d_id d) c2 = (Ret tt, c3)).
  { rewrite Hid. apply request_run. intros q c' [Hq Hne]%elem_of_others Hc'. rewrite Hc2, decide_False in Hc' by (lia || done).
    assert (number_of_nodes c2 = n) as Hn2 by (rewrite E2; by rewrite number_on_node).
    destruct (node_at_some q c) as [ndq Hq']; [lia|]. rewrite Hq' in Hc'. apply (remote_free_run up G K q c' ndq h s); [lia|done| |done].
    apply Hok; [lia|done]. }
  split_and!.
  - unfold free. rewrite (bind_eq _ _ _ seg c).
    2:{ unfold get_area_by_handle. rewrite bind_get, Hnd. simpl. rewrite Hh. by rewrite (bind_eq _ _ _ a c) by (by apply get_area_run). }
    rewrite (bind_eq _ _ _ tt c1). 2:{ unfold del_handle. rewrite bind_get, Hnd. simpl. by rewrite Hh. }
    unfold area_free. rewrite (bind_eq _ _ _ d c2) by (by rewrite (in_area_run _ _ _ _ _ _ _ Ha1 Hrel)).
    assert (area_at r seg c2 = Some (area_without h a)) as Ha2.
    { rewrite (area_at_node _ _ _ (node_free h nd)); [simpl; by rewrite lookup_alter_eq, Ha|]. by rewrite Hc2, decide_True by (lia || done). }
    rewrite (bind_eq _ _ _ (area_without h a) c2) by (by apply the_area_run).
    assert (free_hook (a_type (area_without h a)) d = true) as ->.
    { change (a_type (area_without h a)) with (a_type a). rewrite (re_type _ _ _ Hrep). exact Hg. }
    by apply trying_ret.
  - done.
  - exists K. split_and!; [unfold c3; rewrite on_nodes_number, E2; by rewrite number_on_node|done|].
    intros q x Hq. unfold c3. rewrite others_at, Hc2 by done. destruct (decide (q = r)) as [->|Hne].
    + intros [= <-]. apply (node_free_ok up G K r nd h s); [apply Hok; [lia|done]|done..].
    + destruct (node_at q c) as [y|] eqn:Hy; [|done]. intros [= <-]. apply (node_free_ok up G K q y h s); [by apply Hok|done..].
  - intros q k Hq Hk'. unfold area_at, c3. rewrite others_at, Hc2 by done. destruct (decide (q = r)) as [->|Hne].
    + rewrite Hnd. simpl. by rewrite lookup_alter_ne.
    + destruct (node_at q c); simpl; [|done]. by rewrite lookup_alter_ne.
Qed.
End replicas.
End replicas.
