(* ===== verification/VmemCluster.v ===== *)
(** * Runs of the virtual memory

    Module [beside]: clients register shared memory on their node and allocate in it.  Nothing of this is seen
    by other nodes, and nothing of it changes what the nodes agree on about a distributed
    segment: neither the areas of the segment nor the handles that are its allocations, and no
    handle is made that a distributed allocation could get later.  Module [runs]: the nodes
    agree on distributed allocations at any time of a run. *)

From S2P Require Import Prelude Value Token Bitset Function Position Num ReadShow Tokenizer Expr Parser ModuleCall Net NetFire ModuleRun MmgrLayout Mmgr MmgrSpec MmgrSafe VmemHandle VmemUrl VmemArea VmemAreaSpec VmemTransfer VmemTransferSpec VmemManager VmemReplicas.

Module beside.
Local Open Scope Z_scope.
Import Allocator module_run vmem_handle vmem area_spec transfer transfer_spec manager replicas.

Section beside.
Context `{UnorderedMultiset} `{AssertMode} `{Unordered} `{Gaspi} `{Syscalls} `{Machine}.
Context (what : exn → string) (seg n L : Z).

(** ** What stays *)
Record beside (nd nd' : node) : Prop := {
  be_area : m_areas nd' !! seg = m_areas nd !! seg;
  be_known : ∀ h, m_handle_to_segment nd' !! h = Some seg ↔ m_handle_to_segment nd !! h = Some seg;
  be_handles : ∀ h, known nd' h → type h = SEG_GASPI → known nd h;
  be_generator : m_node_identifier (handle_generator nd') = m_node_identifier (handle_generator nd) ∧
                 m_counter (handle_generator nd') !! 1%nat = m_counter (handle_generator nd) !! 1%nat
}.
#[global] Instance beside_preorder : PreOrder beside.
Proof.
  split; [done|]. intros x y z [A1 A2 A3 [A4 A5]] [B1 B2 B3 [B4 B5]]. split; [congruence| |auto|split; congruence]. intros h. by rewrite B2.
Qed.
Definition aside (c c' : cluster) : Prop :=
  length (nodes c') = length (nodes c) ∧ ∀ q nd', 0 ≤ q → node_at q c' = Some nd' → ∃ nd, node_at q c = Some nd ∧ beside nd nd'.
#[global] Instance aside_preorder : PreOrder aside.
Proof.
  split; [intros c; split; [done|]; intros q nd _ Hnd; by exists nd|]. intros x y z [N1 H1'] [N2 H2']. split; [congruence|]. intros q nd'' Hq Hnd''.
  destruct (H2' q nd'' Hq Hnd'') as (nd' & Hnd' & B2). destruct (H1' q nd' Hq Hnd') as (nd & Hnd & B1). exists nd. split; [done|]. by transitivity nd'.
Qed.
Lemma implements_aside N up G c c' : aside c c' → implements seg n L N up G c → implements seg n L N up G c'.
Proof.
  intros [HN Ha] (K & Hn & HK & Hok). exists K. split_and!; [unfold number_of_nodes in *; congruence|done|]. intros q nd' Hq Hnd'.
  destruct (Ha q nd' Hq Hnd') as (nd & Hnd & [B1 B2 B3 [B4 B5]]). destruct (Hok q nd Hq Hnd) as [R1 R2 R3 R4]. split.
  - by rewrite B1.
  - intros h. by rewrite B2.
  - intros h Hh Ht. auto.
  - by rewrite B4, B5.
Qed.
Lemma aside_node r f c : 0 ≤ r → (∀ nd, node_at r c = Some nd → beside nd (f nd)) → aside c (on_node r f c).
Proof.
  intros Hr Hf. split; [unfold on_node; cbn [nodes set_nodes]; by rewrite length_alter|]. intros q nd' Hq. rewrite node_at_on_node by done.
  destruct (decide (q = r)) as [->|]; [|intros Hnd; by exists nd']. destruct (node_at r c) as [nd|] eqn:Hnd; [|done]. intros [= <-]. exists nd. auto.
Qed.
(** an area of another segment, whose new handles are not those of distributed allocations *)
Lemma aside_areas r k f c :
  0 ≤ r → k ≠ seg →
  (∀ nd k', node_at r c = Some nd → k' ≠ k → f (m_areas nd) !! k' = m_areas nd !! k') →
  (∀ nd a h, node_at r c = Some nd → f (m_areas nd) !! k = Some a → is_Some (m_handles a !! h) → type h = SEG_GASPI → known nd h) →
  aside c (on_node r (set_areas f) c).
Proof.
  intros Hr Hk Ho Hh. apply aside_node; [done|]. intros nd Hnd. split; try done.
  - by apply Ho.
  - intros h [Hkn|(k' & a & Ha & Hkn)] Ht; [by left|]. simpl in Ha. destruct (decide (k' = k)) as [->|Hne]; [by apply (Hh nd a)|].
    rewrite Ho in Ha by done. right. eauto.
Qed.
Lemma aside_area r k f c :
  0 ≤ r → k ≠ seg → (∀ a h, area_at r k c = Some a → is_Some (m_handles (f a) !! h) → type h = SEG_GASPI → is_Some (m_handles a !! h)) →
  aside c (on_area r k f c).
Proof.
  intros Hr Hk Hf. apply (aside_areas r k); [done..| |].
  - intros nd k' _ Hne. by rewrite lookup_alter_ne.
  - intros nd a' h Hnd Ha' Hh Ht. rewrite lookup_alter_eq in Ha'. apply fmap_Some in Ha' as (a & Ha & ->). right. exists k, a. split; [done|].
    apply Hf; [by rewrite (area_at_node _ _ _ _ Hnd)|done..].
Qed.
Lemma aside_add_handle r h k c :
  0 ≤ r → k ≠ seg → type h ≠ SEG_GASPI → (∀ nd, node_at r c = Some nd → m_handle_to_segment nd !! h = None) →
  aside c (on_node r (set_handle_to_segment (<[h := k]>)) c).
Proof.
  intros Hr Hk Ht Hn. apply aside_node; [done|]. intros nd Hnd. specialize (Hn nd Hnd). split; try done; simpl.
  - intros h'. destruct (decide (h' = h)) as [->|Hne]; [|by rewrite lookup_insert_ne]. rewrite lookup_insert_eq, Hn. naive_solver.
  - intros h' [Hkn|?] Ht'; [|by right]. left. simpl in Hkn. by rewrite lookup_insert_ne in Hkn by congruence.
Qed.
Lemma aside_del_handle r h k c :
  0 ≤ r → k ≠ seg → (∀ nd, node_at r c = Some nd → m_handle_to_segment nd !! h = Some k) →
  aside c (on_node r (set_handle_to_segment (delete h)) c).
Proof.
  intros Hr Hk Hn. apply aside_node; [done|]. intros nd Hnd. specialize (Hn nd Hnd). split; try done; simpl.
  - intros h'. destruct (decide (h' = h)) as [->|Hne]; [|by rewrite lookup_delete_ne]. rewrite lookup_delete_eq, Hn. naive_solver.
  - intros h' [Hkn|?] Ht'; [|by right]. left. simpl in Hkn. destruct Hkn as [x [_ Hx]%lookup_delete_Some]. eauto.
Qed.
Lemma next_handle_aside r t c : 0 ≤ r → Z.to_nat t ≠ 1%nat → aside c (next_handle r t c).2.
Proof.
  intros Hr Ht. unfold next_handle. rewrite bind_get. destruct (node_at r c) as [nd|] eqn:Hnd; [|done]. unfold next. rewrite bind_get.
  destruct (m_counter (handle_generator nd) !! Z.to_nat t) as [x|] eqn:Hx; cbn -[on_node].
  - apply aside_node; [done|]. intros nd' Hnd'. rewrite Hnd in Hnd'. injection Hnd' as <-. split; try done. simpl. split; [done|]. by rewrite list_lookup_insert_ne.
  - apply aside_node; [done|]. intros nd' Hnd'. rewrite Hnd in Hnd'. injection Hnd' as <-. by split.
Qed.
Lemma next_handle_shm r c h : (next_handle r SEG_SHM c).1 = Ret h → type h = SEG_SHM.
Proof.
  unfold next_handle. rewrite bind_get. destruct (node_at r c) as [nd|]; [|done]. unfold next. rewrite bind_get.
  destruct (m_counter (handle_generator nd) !! Z.to_nat SEG_SHM) as [x|]; [|done]. cbn -[encode w64].
  destruct (encode (m_node_identifier (handle_generator nd)) SEG_SHM (w64 (x + 1))) as [h'|e] eqn:He; [|done]. cbn. intros [= <-].
  change (encode 0 SEG_SHM (w64 (x + 1)) = Ret h') in He. apply encode_fields in He as (_ & Ht & _); [done|done|done|]. by apply Z.mod_pos_bound.
Qed.
(** ** Operations on shared memory *)
Lemma in_area_aside {X} r k (m : M area exn X) c :
  0 ≤ r → k ≠ seg →
  (∀ a h, area_at r k c = Some a → is_Some (m_handles (m a).2 !! h) → type h = SEG_GASPI → is_Some (m_handles a !! h)) →
  aside c (in_area r k m c).2.
Proof.
  intros Hr Hk Hm. destruct (area_at r k c) as [a|] eqn:Ha.
  - destruct (m a) as [o a'] eqn:E. rewrite (in_area_run _ _ _ _ _ _ _ Ha E). apply aside_area; [done..|]. intros x h Hx. rewrite Ha in Hx. injection Hx as <-.
    specialize (Hm a h eq_refl). by rewrite E in Hm.
  - unfold in_area. rewrite (bind_throw _ _ _ (Std (undefined "use of an area that was removed")) c); [done|]. unfold the_area. by rewrite bind_get, Ha.
Qed.
Lemma attach_handles id a : m_handles (area_attach_process id a).2 = m_handles a.
Proof. unfold area_attach_process. rewrite bind_get. destruct (is_allowed_to_attach id a); [|done]. by destruct (decide _). Qed.
Lemma reserve_effect d a : m_handles (reserve d a).2 = m_handles a ∧ ∀ d', (reserve d a).1 = Ret d' → d_id d' = d_id d.
Proof.
  unfold reserve. rewrite bind_get. destruct (_ <? _); [done|]. unfold on_mmgr, mbind, M_bind.
  destruct (dtmmgr.alloc _ _ _ _) as [[[o m]|e] t]; simpl; [|done]. split; [done|]. by intros d' [= <-].
Qed.
Lemma release_effect h a :
  a_type (release h a).2 = a_type a ∧ ∀ h', is_Some (m_handles (release h a).2 !! h') → is_Some (m_handles a !! h').
Proof.
  unfold release. rewrite bind_get. destruct (m_handles a !! h) as [d|]; [|done]. destruct (_ =? _); [|done].
  unfold forget, on_mmgr, mbind, M_bind. simpl. destruct (dtmmgr.free _ _ _) as [[[]|e] t]; simpl; [|done]. split; [done|].
  intros h' [x [_ Hx]%lookup_delete_Some]. eauto.
Qed.
Lemma area_at_aside r c c' : 0 ≤ r → aside c c' → is_Some (area_at r seg c) → is_Some (area_at r seg c').
Proof.
  intros Hr [HN Ha] [a Hs]. unfold area_at in *. destruct (node_at r c) as [nd|] eqn:Hnd; [|done]. simpl in Hs.
  destruct (node_at r c') as [nd'|] eqn:Hnd'.
  - destruct (Ha r nd' Hr Hnd') as (x & Hx & B). rewrite Hnd in Hx. injection Hx as <-. simpl. rewrite (be_area _ _ B). eauto.
  - apply lookup_ge_None in Hnd'. apply lookup_lt_Some in Hnd. lia.
Qed.
Lemma register_aside r creator a c : 0 ≤ r → is_Some (area_at r seg c) → m_handles a = ∅ → aside c (register_memory r creator a c).2.
Proof.
  intros Hr Hseg Hh. unfold register_memory. pose proof (next_handle_aside r SEG_INVAL c Hr ltac:(done)) as Hc1.
  destruct (next_handle r SEG_INVAL c) as [[id|e] c1] eqn:E1; [|by rewrite (bind_throw _ _ _ _ _ E1)]. rewrite (bind_eq _ _ _ _ _ E1).
  destruct (area_at r id c1) as [x|] eqn:Hid.
  { rewrite (bind_throw _ _ _ (Std (runtime_error "cannot add another gpi segment: id already in use!")) c1); [done|]. unfold add_area.
    by rewrite (bind_eq _ _ _ (Some x) c1) by (unfold find_area; by rewrite bind_get, Hid). }
  assert (id ≠ seg) as Hne. { intros ->. destruct (area_at_aside r c c1 Hr Hc1 Hseg). congruence. }
  set (c2 := on_node r (set_areas (<[id := set_id id a]>)) c1).
  rewrite (bind_eq _ _ _ tt c2) by (unfold add_area; by rewrite (bind_eq _ _ _ None c1) by (unfold find_area; by rewrite bind_get, Hid)).
  assert (aside c1 c2) as H12.
  { apply (aside_areas r id); [done..| |].
    - intros nd k' _ Hk'. by rewrite lookup_insert_ne.
    - intros nd b h _ Hb. rewrite lookup_insert_eq in Hb. injection Hb as <-. simpl. rewrite Hh, lookup_empty. by intros []. }
  assert (aside c2 (attach_process r creator id c2).2) as H23.
  { unfold attach_process. destruct (area_at r id c2) as [b|] eqn:Hb.
    - rewrite (bind_eq _ _ _ b c2) by (by apply get_area_run). destruct (creator =? 0); [done|]. apply in_area_aside; [done..|].
      intros x h _. by rewrite attach_handles.
    - rewrite (bind_throw _ _ _ (Std (runtime_error ("no such memory: " +:+ show.integer id))) c2); [done|]. unfold get_area.
      by rewrite (bind_eq _ _ _ None c2) by (unfold find_area; by rewrite bind_get, Hb). }
  assert (aside c (attach_process r creator id c2).2) as H13 by (by transitivity c1; [|transitivity c2]).
  unfold mbind, M_bind. by destruct (attach_process r creator id c2) as [[[]|e] c3].
Qed.
Lemma add_handle_aside r h k c : 0 ≤ r → k ≠ seg → type h ≠ SEG_GASPI → aside c (add_handle r h k c).2.
Proof.
  intros Hr Hk Ht. unfold add_handle. rewrite bind_get. destruct (node_at r c) as [nd|] eqn:Hnd; simpl.
  - destruct (m_handle_to_segment nd !! h) eqn:Hx; [done|]. apply aside_add_handle; [done..|]. intros nd' Hnd'. congruence.
  - apply aside_add_handle; [done..|]. congruence.
Qed.
Lemma shm_alloc_aside r proc k size name flags c a :
  0 ≤ r → k ≠ seg → area_at r k c = Some a → a_type a = SEG_SHM → aside c (alloc what r proc k size name flags c).2.
Proof.
  intros Hr Hk Ha Ht. unfold alloc. rewrite (bind_eq _ _ _ a c) by (by apply get_area_run).
  assert (aside c (area_alloc what r k proc size name flags c).2 ∧
    ∀ h, (area_alloc what r k proc size name flags c).1 = Ret h → type h ≠ SEG_GASPI) as [H1' H2'].
  2:{ destruct (area_alloc what r k proc size name flags c) as [[h|e] c1] eqn:E; [|by rewrite (bind_throw _ _ _ _ _ E)]. rewrite (bind_eq _ _ _ _ _ E).
      transitivity c1; [done|]. pose proof (add_handle_aside r h k c1 Hr Hk (H2' h eq_refl)) as H3'. unfold mbind, M_bind.
      by destruct (add_handle r h k c1) as [[[]|e] c2]. }
  unfold area_alloc. rewrite (bind_eq _ _ _ a c) by (by apply the_area_run). rewrite bind_get, Ht.
  pose proof (next_handle_aside r SEG_SHM c Hr ltac:(done)) as Hc1. pose proof (next_handle_shm r c) as Htype.
  destruct (next_handle r SEG_SHM c) as [[h|e] c1] eqn:E1; [|by rewrite (bind_throw _ _ _ _ _ E1)]. rewrite (bind_eq _ _ _ _ _ E1). specialize (Htype h eq_refl).
  assert (type h ≠ SEG_GASPI) as Hh by (by rewrite Htype).
  set (D := mk_descriptor _ _ _ _ _ _ _ _ _).
  assert (aside c1 (in_area r k (reserve D) c1).2 ∧ ∀ d, (in_area r k (reserve D) c1).1 = Ret d → d_id d = h) as [Hc2 Hd].
  { split; [apply in_area_aside; [done..|]; intros x h' _; by rewrite (proj1 (reserve_effect D x))|].
    intros d. destruct (area_at r k c1) as [x|] eqn:Hx.
    - pose proof (proj2 (reserve_effect D x)) as He. destruct (reserve D x) as [o x'] eqn:Er. rewrite (in_area_run _ _ _ _ _ _ _ Hx Er).
      destruct o as [d'|e]; [|done]. cbn. intros [= <-]. by apply He.
    - unfold in_area. rewrite (bind_throw _ _ _ (Std (undefined "use of an area that was removed")) c1); [done|]. unfold the_area. by rewrite bind_get, Hx. }
  destruct (in_area r k (reserve D) c1) as [[d|e] c2] eqn:E2; [|rewrite (bind_throw _ _ _ _ _ E2); split; [by transitivity c1|done]].
  rewrite (bind_eq _ _ _ _ _ E2). specialize (Hd d eq_refl). change (alloc_hook SEG_SHM d) with false. cbn iota. rewrite (bind_eq _ _ _ tt c2) by done.
  assert (aside c2 (in_area r k (commit d) c2).2) as Hc3.
  { apply in_area_aside; [done..|]. intros x h' _. unfold commit, update_descriptor_from_mmgr. simpl. intros Hx Ht'.
    rewrite lookup_insert_ne in Hx by congruence. done. }
  assert (aside c (in_area r k (commit d) c2).2) as Hc by (by transitivity c1; [|transitivity c2]).
  unfold mbind, M_bind. destruct (in_area r k (commit d) c2) as [[[]|e] c3]; simpl in *; [|done]. split; [done|]. by intros h' [= <-].
Qed.
Lemma shm_free_aside r h k c nd a :
  0 ≤ r → k ≠ seg → node_at r c = Some nd → m_handle_to_segment nd !! h = Some k → area_at r k c = Some a → a_type a = SEG_SHM →
  aside c (free what r h c).2.
Proof.
  intros Hr Hk Hnd Hh Ha Ht. unfold free. rewrite (bind_eq _ _ _ k c).
  2:{ unfold get_area_by_handle. rewrite bind_get, Hnd. simpl. rewrite Hh. by rewrite (bind_eq _ _ _ a c) by (by apply get_area_run). }
  set (c1 := on_node r (set_handle_to_segment (delete h)) c).
  rewrite (bind_eq _ _ _ tt c1) by (unfold del_handle; rewrite bind_get, Hnd; simpl; by rewrite Hh).
  assert (aside c c1) as H1' by (apply (aside_del_handle r h k); [done..|]; intros x Hx; congruence).
  assert (area_at r k c1 = Some a) as Ha1.
  { unfold c1, area_at. rewrite node_at_on_node, decide_True, Hnd by done. simpl. by rewrite <- (area_at_node _ _ _ _ Hnd). }
  destruct (release_effect h a) as [R1 R2]. destruct (release h a) as [o a'] eqn:Er. simpl in R1, R2.
  assert (aside c1 (on_area r k (λ _, a') c1)) as H2'.
  { apply aside_area; [done..|]. intros x h' Hx. rewrite Ha1 in Hx. injection Hx as <-. intros Hs _. by apply R2. }
  set (c2 := on_area r k (λ _, a') c1) in *. unfold area_free.
  assert (aside c c2) as Hc by (by transitivity c1). pose proof (in_area_run _ _ _ _ _ _ _ Ha1 Er) as E2. fold c2 in E2.
  destruct o as [d|e]; [|by rewrite (bind_throw _ _ _ _ _ E2)]. rewrite (bind_eq _ _ _ _ _ E2).
  assert (area_at r k c2 = Some a') as Ha2 by (unfold c2; rewrite area_at_on_area, decide_True, Ha1 by done; done).
  rewrite (bind_eq _ _ _ a' c2) by (by apply the_area_run). rewrite R1, Ht. change (free_hook SEG_SHM d) with false. done.
Qed.
Lemma shm_create_run r creator name size c : (shm_create r creator name size c).2 = c ∧ ∀ a, (shm_create r creator name size c).1 = Ret a → m_handles a = ∅.
Proof.
  unfold shm_create. destruct name as [|x name]; [done|]. destruct (shm_object _ _) as [[z f]|]; [|done]. simpl. split; [done|]. by intros a [= <-].
Qed.
End beside.
End beside.

(** ** Runs

    The nodes agree on distributed allocations at any time of a run in which clients of all
    nodes register shared memory, allocate, release and copy: copies change bytes and
    communication buffers only. *)

Module runs.
Local Open Scope Z_scope.
Import Allocator module_run vmem_handle vmem area_spec transfer transfer_spec manager replicas beside.

(** ** Operations that leave allocations alone *)
Definition quiet (c c' : cluster) : Prop :=
  length (nodes c') = length (nodes c) ∧
  ∀ q, 0 ≤ q → m_handle_to_segment <$> node_at q c' = m_handle_to_segment <$> node_at q c ∧
    handle_generator <$> node_at q c' = handle_generator <$> node_at q c ∧
    ∀ k, static <$> area_at q k c' = static <$> area_at q k c ∧ pool q k c' ⊆ pool q k c.
#[global] Instance quiet_preorder : PreOrder quiet.
Proof.
  split; [by split; [done|]; intros q Hq; split_and!|]. intros x y z [N1 H1] [N2 H2]. split; [congruence|]. intros q Hq.
  destruct (H1 q Hq) as (A1 & B1 & C1), (H2 q Hq) as (A2 & B2 & C2). split_and!; [congruence..|]. intros k.
  destruct (C1 k), (C2 k). split; [congruence|]. by transitivity (pool q k y).
Qed.
Lemma quiet_node r f c :
  0 ≤ r →
  (∀ nd, node_at r c = Some nd → m_handle_to_segment (f nd) = m_handle_to_segment nd ∧ handle_generator (f nd) = handle_generator nd ∧
     ∀ k, static <$> m_areas (f nd) !! k = static <$> m_areas nd !! k ∧
          from_option m_com_handles [] (m_areas (f nd) !! k) ⊆ from_option m_com_handles [] (m_areas nd !! k)) →
  quiet c (on_node r f c).
Proof.
  intros Hr Hf. split; [unfold on_node; cbn [nodes set_nodes]; by rewrite length_alter|]. intros q Hq. unfold pool, area_at.
  rewrite node_at_on_node by done. destruct (decide (q = r)) as [->|]; [|by split_and!]. destruct (node_at r c) as [nd|] eqn:Hnd; [|by split_and!].
  simpl. destruct (Hf nd eq_refl) as (E1 & E2 & E3). split_and!; [congruence..|]. exact E3.
Qed.
Lemma quiet_area r k f c :
  0 ≤ r → (∀ a, area_at r k c = Some a → static (f a) = static a ∧ m_com_handles (f a) ⊆ m_com_handles a) → quiet c (on_area r k f c).
Proof.
  intros Hr Hf. apply quiet_node; [done|]. intros nd Hnd. split_and!; [done..|]. intros k'. simpl.
  destruct (decide (k' = k)) as [->|Hne]; [|by rewrite lookup_alter_ne]. rewrite lookup_alter_eq.
  destruct (m_areas nd !! k) as [a|] eqn:Ha; [|done]. simpl. destruct (Hf a); [by rewrite (area_at_node _ _ _ _ Hnd)|]. split; [congruence|done].
Qed.
Lemma quiet_parts seg p c : quiet c (set_parts seg p c).
Proof.
  split; [apply length_imap|]. intros q Hq. unfold pool, area_at, node_at, set_parts. cbn [nodes set_nodes]. rewrite list_lookup_imap.
  destruct (nodes c !! Z.to_nat q) as [nd|]; [|by split_and!]. simpl. split_and!; [done..|]. intros k.
  destruct (decide (k = seg)) as [->|Hne]; [|by rewrite lookup_alter_ne]. rewrite lookup_alter_eq. by destruct (m_areas nd !! seg).
Qed.
Lemma quiet_files f c : quiet c (set_files f c).
Proof. done. Qed.

Section quiet.
Context `{Gaspi} `{Syscalls} (c0 : cluster).
Abbreviation keeps m := (preserves (quiet c0) m).

Lemma keeps_modify (f : cluster → cluster) : (∀ c, quiet c (f c)) → keeps (modify f : M cluster thrown unit).
Proof. intros Hf. apply preserves_modify. intros c Hc. by transitivity c. Qed.
Lemma keeps_std {X} (o : outcome exn X) : keeps (std o).
Proof. apply preserves_lift. Qed.
Lemma keeps_the_area r k : keeps (the_area r k).
Proof. apply preserves_bind; [apply preserves_get|]. intros c. apply keeps_std. Qed.
Lemma keeps_ask {X} r k (f : area → outcome exn X) : keeps (ask r k f).
Proof. apply preserves_bind; [apply keeps_the_area|]. intros c. apply keeps_std. Qed.
Lemma keeps_memory r k f : 0 ≤ r → keeps (modify (on_area r k (set_memory f)) : M cluster thrown unit).
Proof. intros Hr. apply keeps_modify. intros c. by apply quiet_area. Qed.
Lemma keeps_bool {X} (b : bool) (m m' : M cluster thrown X) : keeps m → keeps m' → keeps (if b then m else m').
Proof. by destruct b. Qed.
Create HintDb quiet.
#[local] Hint Resolve preserves_ret preserves_throw preserves_lift preserves_get keeps_std keeps_the_area keeps_ask keeps_memory keeps_bool : quiet.
Ltac quietly := repeat (first [solve [eauto with quiet] | apply preserves_bind; [|intros ?] | apply keeps_bool |
  match goal with |- preserves _ (match ?x with _ => _ end) => destruct x end]).
Lemma keeps_memmove r d s m : 0 ≤ r → keeps (memmove r d s m).
Proof. intros Hr. unfold memmove. quietly. Qed.
#[local] Hint Resolve keeps_memmove : quiet.
Lemma keeps_read_from r k loc b m : 0 ≤ r → keeps (read_from r k loc b m).
Proof. intros Hr. unfold read_from, read_from_impl. quietly. Qed.
Lemma keeps_write_to r k loc b m : 0 ≤ r → keeps (write_to r k loc b m).
Proof.
  intros Hr. unfold write_to, write_to_impl. quietly. apply keeps_modify. intros c. apply quiet_files.
Qed.
Lemma keeps_one_sided k f : keeps (one_sided k f).
Proof. unfold one_sided. quietly. apply keeps_modify. intros c. apply quiet_parts. Qed.
#[local] Hint Resolve keeps_read_from keeps_write_to keeps_one_sided : quiet.
Lemma keeps_read_dma r k l : keeps (read_dma r k l).
Proof. unfold read_dma. quietly. apply preserves_for_each. eauto with quiet. Qed.
Lemma keeps_write_dma r k l : keeps (write_dma r k l).
Proof. unfold write_dma. quietly. apply preserves_for_each. eauto with quiet. Qed.
#[local] Hint Resolve keeps_read_dma keeps_write_dma : quiet.
Lemma keeps_send_loop fuel r sk src dk dst b m : 0 ≤ r → keeps (send_loop fuel r sk src dk dst b m).
Proof.
  intros Hr. revert src dst m. induction fuel as [|fuel IH]; intros src dst m; cbn [send_loop]; unfold do_write_dma_and_wait_remote_written; quietly.
Qed.
Lemma keeps_recv_loop fuel r dk dst sk src b m : 0 ≤ r → keeps (recv_loop fuel r dk dst sk src b m).
Proof.
  intros Hr. revert src dst m. induction fuel as [|fuel IH]; intros src dst m; cbn [recv_loop]; unfold dma_read_and_wait_for_readable; quietly.
Qed.
Lemma pool_get_cases r k c :
  (∃ e, pool_get r k c = (Throw e, c)) ∨
  ∃ a b l, area_at r k c = Some a ∧ m_com_handles a = b :: l ∧ pool_get r k c = (Ret b, on_area r k (set_com_handles (λ _, l)) c).
Proof.
  unfold pool_get. destruct (area_at r k c) as [a|] eqn:Ha.
  - rewrite (bind_eq _ _ _ a c) by (by apply the_area_run). destruct (m_com_handles a) as [|b l] eqn:Hp; [left; by eexists|]. right. by exists a, b, l.
  - left. eexists. apply bind_throw. unfold the_area. rewrite bind_get, Ha. done.
Qed.
(** the buffer that is returned was taken before *)
Lemma keeps_pooled r k (f : handle_buffer → M cluster thrown unit) :
  0 ≤ r → (∀ b, keeps (f b)) → keeps (b ← pool_get r k; f b ≫= λ _, pool_put r k b).
Proof.
  intros Hr Hf c Hc. destruct (pool_get_cases r k c) as [[e E]|(a & b & l & Ha & Hp & E)].
  { by rewrite (bind_throw _ _ _ _ _ E). }
  rewrite (bind_eq _ _ _ _ _ E). unfold mbind, M_bind.
  set (c1 := on_area r k _ c). assert (quiet c0 c1) as Hc1.
  { transitivity c; [done|]. apply quiet_area; [done|]. intros a' Ha'. rewrite Ha in Ha'. injection Ha' as <-. rewrite static_com. split; [done|].
    simpl. rewrite Hp. set_solver. }
  pose proof (Hf b c1 Hc1) as H2. destruct (f b c1) as [[[]|e] c2]; [|done]. simpl in *.
  assert (b ∈ pool r k c0) as Hb.
  { destruct Hc as [_ Hc]. destruct (Hc r Hr) as (_ & _ & Hk). apply (Hk k). unfold pool. rewrite Ha. simpl. rewrite Hp. by left. }
  destruct H2 as [N2 H2]. split; [by rewrite length_on_area|]. intros q Hq. destruct (H2 q Hq) as (A2 & B2 & C2). unfold on_area at 1 2.
  rewrite node_at_on_node by done. split_and!.
  - rewrite <- A2. destruct (decide (q = r)) as [->|]; [|done]. by destruct (node_at r c2).
  - rewrite <- B2. destruct (decide (q = r)) as [->|]; [|done]. by destruct (node_at r c2).
  - intros k'. destruct (C2 k') as [S2 P2]. unfold pool in *. rewrite area_at_on_area by done.
    destruct (decide (q = r ∧ k' = k)) as [[-> ->]|]; [|done]. destruct (area_at r k c2) as [x|]; [|done]. simpl in *. rewrite static_com.
    split; [done|]. intros y [Hy|Hy]%elem_of_app; [by apply P2|]. apply list_elem_of_singleton in Hy as ->. exact Hb.
Qed.
Lemma keeps_run_task r t : 0 ≤ r → keeps (run_task r t).
Proof.
  intros Hr. destruct t; cbn [run_task]; unfold do_send, do_recv.
  1, 2: quietly. all: apply keeps_pooled; [done|]; intros b.
  - by apply keeps_send_loop.
  - by apply keeps_recv_loop.
Qed.

Lemma quiet_tasks r id f g c : 0 ≤ r → quiet c (on_node r (λ n, set_tasks (id n) (f n) (g n) n) c).
Proof. intros Hr. apply quiet_node; [done|]. intros nd _. by split_and!. Qed.
Lemma keeps_get_area_by_handle r h : keeps (get_area_by_handle r h).
Proof. unfold get_area_by_handle, get_area, find_area, fail. quietly. Qed.
#[local] Hint Resolve keeps_get_area_by_handle : quiet.
Lemma keeps_memcpy r dst src m : 0 ≤ r → keeps (memcpy r dst src m).
Proof.
  intros Hr. unfold memcpy, get_transfer_task, get_send_task, get_recv_task. quietly.
  apply keeps_modify. intros c. by apply (quiet_tasks r (λ _, _) (λ _, _) (λ _, _)).
Qed.
Lemma keeps_wait r id : 0 ≤ r → keeps (wait r id).
Proof. intros Hr. unfold wait. quietly. apply keeps_modify. intros c. by apply (quiet_tasks r _ (λ _, _) (λ _, _)). Qed.
Lemma keeps_work r : 0 ≤ r → keeps (work r).
Proof.
  intros Hr c Hc. unfold work. destruct (_ ≫= _) as [[id t]|]; [|done].
  assert (quiet c0 (take_task r c)) as Hc1 by (transitivity c; [done|]; by apply (quiet_tasks r _ (λ _, _) (λ _, _))).
  pose proof (keeps_run_task r t Hr _ Hc1) as H2. destruct (run_task r t (take_task r c)) as [[[]|e] c2]; simpl in *.
  - transitivity c2; [done|]. by apply (quiet_tasks r _ (λ _, _) (λ _, _)).
  - destruct (catchable e); [|done]. simpl. transitivity c2; [done|]. by apply (quiet_tasks r _ (λ _, _) (λ _, _)).
Qed.
End quiet.

(** ** Runs *)
Section runs.
Context `{UnorderedMultiset} `{AssertMode} `{Unordered} `{Gaspi} `{Syscalls} `{Machine}.
Context (what : exn → string) (seg n L : Z).

Lemma replica_static up G a a' :
  static a' = static a → m_com_handles a' ⊆ m_com_handles a → replica seg n L up G a → replica seg n L up G a'.
Proof.
  intros Hs Hp [[J1 J2 J3 J4 J5 J6] A2 A3 A4 A5 A6 A7 A8]. destruct a, a'. unfold static in Hs. simpl in *. injection Hs. intros; subst.
  repeat (split; try done). intros b Hb. apply A8. by apply Hp.
Qed.
Lemma implements_quiet N up G c c' : quiet c c' → implements seg n L N up G c → implements seg n L N up G c'.
Proof.
  intros [HN Hq] (K & Hn & HK & Hok). exists K. split; [unfold number_of_nodes in *; congruence|]. split; [done|].
  intros q nd' Hq0 Hnd'. destruct (Hq q Hq0) as (E1 & E2 & E3). rewrite Hnd' in E1, E2. simpl in E1, E2.
  destruct (node_at q c) as [nd|] eqn:Hnd; [|done]. injection E1 as E1. injection E2 as E2.
  assert (∀ k, static <$> m_areas nd' !! k = static <$> m_areas nd !! k ∧
    from_option m_com_handles [] (m_areas nd' !! k) ⊆ from_option m_com_handles [] (m_areas nd !! k)) as E3'.
  { intros k. specialize (E3 k). unfold pool in E3. by rewrite !(area_at_node _ _ _ _ Hnd), !(area_at_node _ _ _ _ Hnd') in E3. }
  destruct (Hok q nd Hq0 Hnd) as [(a & Ha & Hr) R2 R3 R4]. split.
  - destruct (E3' seg) as [S1 S2]. rewrite Ha in S1, S2. simpl in S1, S2. apply fmap_Some in S1 as (a' & Ha' & S1). exists a'. split; [done|].
    rewrite Ha' in S2. by apply (replica_static _ _ a).
  - intros h. rewrite E1. apply R2.
  - intros h Hkn. apply R3. destruct Hkn as [Hkn|(k & b & Hb & Hkn)]; [left; by rewrite <- E1|right].
    destruct (E3' k) as [S1 _]. rewrite Hb in S1. symmetry in S1. apply fmap_Some in S1 as (b' & Hb' & S1). exists k, b'. split; [done|].
    destruct (static_fields _ _ S1) as (<- & _). done.
  - by rewrite E2.
Qed.

(** a step of a client or of a thread that runs copies, on any node; the request fails or not *)
Inductive step (c : cluster) : cluster → Prop :=
| step_alloc r proc size name flags :
    0 ≤ r < n → proc ≠ GPI_PC_INVAL → is_set flags F_GLOBAL = true → 0 < size < two64 → step c (alloc what r proc seg size name flags c).2
| step_free r h nd : 0 ≤ r < n → node_at r c = Some nd → m_handle_to_segment nd !! h = Some seg → step c (free what r h c).2
| step_register r creator name size a :
    0 ≤ r < n → (shm_create r creator name size c).1 = Ret a → step c (register_memory r creator a c).2
| step_shm_alloc r proc k size name flags a :
    0 ≤ r < n → k ≠ seg → area_at r k c = Some a → a_type a = SEG_SHM → step c (alloc what r proc k size name flags c).2
| step_shm_free r h k nd a :
    0 ≤ r < n → k ≠ seg → node_at r c = Some nd → m_handle_to_segment nd !! h = Some k → area_at r k c = Some a → a_type a = SEG_SHM →
    step c (free what r h c).2
| step_memcpy r dst src amount : 0 ≤ r < n → step c (memcpy r dst src amount c).2
| step_work r : 0 ≤ r < n → step c (work r c).2
| step_wait r id : 0 ≤ r < n → step c (wait r id c).2.

Lemma implements_more N N' up G c : N ≤ N' → implements seg n L N up G c → implements seg n L N' up G c.
Proof. intros HN (K & Hn & HK & Hok). exists K. split_and!; [done| |done]. intros q. specialize (HK q). lia. Qed.
Lemma step_implements N up G c c' :
  implements seg n L N up G c → step c c' → N + 1 < two64 → ∃ up' G', implements seg n L (N + 1) up' G' c'.
Proof.
  intros Hi Hs HN. assert (Hquiet : ∀ c', quiet c c' → ∃ up' G', implements seg n L (N + 1) up' G' c').
  { intros c'' Hq. exists up, G. apply (implements_more N); [lia|]. by apply (implements_quiet _ _ _ c). }
  assert (Haside : ∀ c', aside seg c c' → ∃ up' G', implements seg n L (N + 1) up' G' c').
  { intros c'' Hq. exists up, G. apply (implements_more N); [lia|]. by apply (implements_aside seg n L N up G c). }
  destruct Hs as [r proc size name flags Hr Hproc Hf Hsize|r h nd Hr Hnd Hh|r creator name size a Hr Ha|r proc k size name flags a Hr Hk Ha Ht|
    r h k nd a Hr Hk Hnd Hh Ha Ht|r dst src m Hr|r Hr|r id Hr].
  - pose proof (alloc_refines what seg n L N up G c r proc size name flags Hi Hr HN Hproc Hf Hsize) as Hspec.
    destruct (alloc what r proc seg size name flags c) as [[h|e] c']; simpl; [|eexists _, _; apply Hspec].
    destruct Hspec as (o & up' & _ & _ & _ & Hi' & _). eauto.
  - pose proof Hi as (K & _ & _ & Hok). apply (no_known _ _ _ _ _ _ _ _ (Hok r nd ltac:(lia) Hnd)) in Hh as [s Hs].
    destruct (free_refines what seg n L N up G c r h s Hi Hr Hs) as (up' & c' & -> & _ & Hi' & _). simpl. exists up', (delete h G).
    apply (implements_more N); [lia|done].
  - apply Haside. apply register_aside; [lia| |by apply (shm_create_run r creator name size c)].
    pose proof Hi as (K & Hn & _ & Hok). destruct (node_at_some r c) as [nd Hnd]; [lia|]. destruct (no_area _ _ _ _ _ _ _ _ (Hok r nd ltac:(lia) Hnd)) as (b & Hb & _).
    rewrite (area_at_node _ _ _ _ Hnd). eauto.
  - apply Haside. apply (shm_alloc_aside what seg r proc k size name flags c a); [lia|done..].
  - apply Haside. apply (shm_free_aside what seg r h k c nd a); [lia|done..].
  - apply Hquiet. apply keeps_memcpy; [lia|done].
  - apply Hquiet. apply keeps_work; [lia|done].
  - apply Hquiet. apply keeps_wait; [lia|done].
Qed.
Lemma run_implements k N up G c c' :
  implements seg n L N up G c → nsteps step k c c' → N + Z.of_nat k < two64 → ∃ up' G', implements seg n L (N + Z.of_nat k) up' G' c'.
Proof.
  revert N up G c. induction k as [|k IH]; intros N up G c Hi Hrun HN.
  - inversion Hrun; subst. rewrite Z.add_0_r. eauto.
  - inversion Hrun as [|? ? c1 ? Hs Hrest]; subst. destruct (step_implements N up G c c1 Hi Hs ltac:(lia)) as (up1 & G1 & H1').
    destruct (IH (N + 1) up1 G1 c1 H1' Hrest ltac:(lia)) as (up2 & G2 & H2'). exists up2, G2.
    by replace (N + Z.of_nat (S k)) with (N + 1 + Z.of_nat k) by lia.
Qed.
(** what the agreement says about two nodes *)
Lemma implements_agree N up G c q q' a a' h d :
  implements seg n L N up G c → 0 ≤ q → 0 ≤ q' → area_at q seg c = Some a → area_at q' seg c = Some a' → m_handles a !! h = Some d → is_global d = true →
  ∃ d', m_handles a' !! h = Some d' ∧ is_global d' = true ∧ d_size d' = d_size d ∧ d_local_size d' = d_local_size d ∧ d_offset d' = d_offset d.
Proof.
  intros (K & _ & _ & Hok) Hq Hq' Ha Ha' Hd Hg.
  assert (∀ q a, 0 ≤ q → area_at q seg c = Some a → replica seg n L up G a) as Hrep.
  { intros x b Hx Hb. unfold area_at in Hb. destruct (node_at x c) as [nd|] eqn:Hnd; [|done]. simpl in Hb.
    destruct (no_area _ _ _ _ _ _ _ _ (Hok x nd Hx Hnd)) as (b' & Hb' & Hr). congruence. }
  pose proof (Hrep q a Hq Ha) as R. pose proof (Hrep q' a' Hq' Ha') as R'.
  assert (G !! h = Some (d_size d)) as HG by (apply (re_table _ _ _ _ _ _ R); eauto).
  apply (re_table _ _ _ _ _ _ R') in HG as (d' & Hd' & Hg' & Hs). exists d'.
  destruct (ao_table _ (re_ok _ _ _ _ _ _ R) h d Hd) as (_ & _ & o & Hb & Ho). destruct (ao_table _ (re_ok _ _ _ _ _ _ R') h d' Hd') as (_ & _ & o' & Hb' & Ho').
  rewrite (replica_dir _ _ _ _ _ _ d R), Hg in Hb, Ho. rewrite (replica_dir _ _ _ _ _ _ d' R'), Hg' in Hb', Ho'.
  unfold block_at in Hb, Hb'. simpl in *. rewrite (re_up _ _ _ _ _ _ R) in Hb. rewrite (re_up _ _ _ _ _ _ R') in Hb'. rewrite Hb in Hb'. injection Hb' as -> E.
  split_and!; done || congruence.
Qed.
End runs.
End runs.
