(* ===== verification/VmemStart.v ===== *)
(** * A new distributed segment

    [add_memory] with the text that a client sends for a gaspi segment makes the segment on
    every node, and the nodes agree from the beginning, although the handles of their
    communication buffers differ. *)

From S2P Require Import Prelude Value Token Bitset Function Position Num ReadShow Tokenizer Expr Parser ModuleCall Net NetFire ModuleRun Mmgr MmgrLayout MmgrSpec MmgrSafe VmemHandle VmemUrl VmemArea VmemAreaSpec VmemTransfer VmemTransferSpec VmemManager VmemReplicas.

Module start.
Local Open Scope Z_scope.
Import layout MmgrSpec Allocator module_run vmem_handle vmem area_spec transfer transfer_spec manager replicas.

(** ** Memory managers that differ in the names of handles *)
Record sim (t t' : tmmgr.type) : Prop := {
  sim_by_size : tmmgr.free_offset_by_size t = tmmgr.free_offset_by_size t';
  sim_start : tmmgr.free_segment_start t = tmmgr.free_segment_start t';
  sim_end : tmmgr.free_segment_end t = tmmgr.free_segment_end t';
  sim_align : tmmgr.align t = tmmgr.align t';
  sim_size : tmmgr.mem_size t = tmmgr.mem_size t';
  sim_free : tmmgr.mem_free t = tmmgr.mem_free t';
  sim_high : tmmgr.high_water t = tmmgr.high_water t'
}.
#[global] Instance sim_refl : Reflexive sim.
Proof. by intros t. Qed.
Definition agree {X} (m m' : M tmmgr.type tmmgr.error X) (t t' : tmmgr.type) : Prop :=
  match m t, m' t' with
  | (Ret x, u), (Ret y, v) => x = y ∧ sim u v
  | (Throw _, u), (Throw _, v) => sim u v
  | _, _ => False
  end.
Lemma agree_bind {X Y} (m m' : M tmmgr.type tmmgr.error X) (k k' : X → M tmmgr.type tmmgr.error Y) t t' :
  agree m m' t t' → (∀ x u v, sim u v → agree (k x) (k' x) u v) → agree (m ≫= k) (m' ≫= k') t t'.
Proof.
  unfold agree, mbind, M_bind. destruct (m t) as [[x|e] u], (m' t') as [[y|e'] v]; try done. intros [<- Hs] Hk. by apply Hk.
Qed.
Lemma agree_get {X} (k k' : tmmgr.type → M tmmgr.type tmmgr.error X) t t' : agree (k t) (k' t') t t' → agree (get ≫= k) (get ≫= k') t t'.
Proof. done. Qed.
Lemma agree_ret {X} (x : X) t t' : sim t t' → agree (mret x) (mret x) t t'.
Proof. done. Qed.
Lemma agree_throw {X} e e' t t' : sim t t' → agree (throw e : M _ _ X) (throw e') t t'.
Proof. done. Qed.
Lemma agree_modify f g t t' : (∀ u v, sim u v → sim (f u) (g v)) → sim t t' → agree (modify f) (modify g) t t'.
Proof. intros Hfg Hs. split; [done|]. by apply Hfg. Qed.
Section sim.
Context `{UnorderedMultiset} `{AssertMode}.
Lemma agree_assert b s t t' : sim t t' → agree (tmmgr.fhg_assert b s) (tmmgr.fhg_assert b s) t t'.
Proof. intros Hs. unfold tmmgr.fhg_assert. by destruct (_ && _). Qed.
Lemma agree_lift {X} (o : outcome tmmgr.error X) t t' : sim t t' → agree (lift o) (lift o) t t'.
Proof. intros Hs. by destruct o. Qed.
Ltac sim_field := intros ? ? []; split; simpl; congruence.
Lemma agree_delete o s t t' : sim t t' → agree (tmmgr.delete_free_segment o s) (tmmgr.delete_free_segment o s) t t'.
Proof.
  intros Hs. unfold tmmgr.delete_free_segment. apply agree_get. rewrite (sim_by_size _ _ Hs).
  destruct (tmmgr.free_offset_by_size t' !! s) as [X|]; [|by apply agree_throw]. destruct (decide (o ∈ X)); [|by apply agree_throw].
  repeat first [apply agree_bind; [|intros ? ? ? ?]|apply agree_modify; [sim_field|done]].
Qed.
Lemma agree_insert o s t t' : sim t t' → agree (tmmgr.insert_free_segment o s) (tmmgr.insert_free_segment o s) t t'.
Proof.
  intros Hs. unfold tmmgr.insert_free_segment. destruct (0 <? s); [|done].
  repeat first [apply agree_bind; [|intros ? ? ? ?]|apply agree_modify; [sim_field|done]].
Qed.
Lemma agree_resize s t t' : sim t t' → agree (tmmgr.resize s) (tmmgr.resize s) t t'.
Proof.
  intros Hs. unfold tmmgr.resize. apply agree_get. destruct Hs as [S1 S2 S3 S4 S5 S6 S7]. rewrite S3, S4, S5, S6, S7.
  assert (sim t t') as Hs by (by split). destruct (_ <? _); [by apply agree_throw|]. destruct (_ <? _); [by apply agree_throw|].
  destruct (_ =? _); [done|]. apply agree_bind.
  - destruct (_ !! _).
    + apply agree_bind; [by apply agree_assert|]. intros ? ? ? ?. apply agree_bind; [by apply agree_delete|]. intros ? ? ? ?. by apply agree_insert.
    + apply agree_bind; [by apply agree_assert|]. intros ? ? ? ?. by apply agree_insert.
  - intros ? ? ? ?. apply agree_bind; [apply agree_modify; [sim_field|done]|]. intros ? u1 v1 Huv. apply agree_get. rewrite (sim_free _ _ Huv).
    apply agree_modify; [sim_field|done].
Qed.
Lemma agree_alloc h h' s t t' :
  sim t t' → tmmgr.handle_to_offset_and_size t !! h = None → tmmgr.handle_to_offset_and_size t' !! h' = None →
  agree (tmmgr.alloc h s) (tmmgr.alloc h' s) t t'.
Proof.
  intros Hs Hh Hh'. unfold tmmgr.alloc. apply agree_get. rewrite Hh, Hh'. destruct Hs as [S1 S2 S3 S4 S5 S6 S7].
  rewrite S1, S2, S3, S4, S6, S7. assert (sim t t') as Hs by (by split). destruct (_ <? _); [by apply agree_throw|].
  rewrite !decide_False by (by intros []). destruct (tmmgr.lower_bound _ _) as [[k X]|]; [|by apply agree_throw].
  apply agree_bind; [by apply agree_lift|]. intros o ? ? ?.
  repeat first [by apply agree_assert|by apply agree_lift|by apply agree_delete|by apply agree_insert|apply agree_bind; [|intros ? ? ? ?]
    |apply agree_modify; [sim_field|done]|by apply agree_ret|match goal with |- agree (if ?b then _ else _) _ _ _ => destruct b end].
Qed.

(** ** Both arenas *)
Record dsim (t t' : dtmmgr.type) : Prop := {
  ds_up : dtmmgr.up t = dtmmgr.up t';
  ds_down : sim (dtmmgr.down t) (dtmmgr.down t');
  ds_size : dtmmgr.mem_size t = dtmmgr.mem_size t'
}.
Definition dagree {X} (m m' : M dtmmgr.type tmmgr.error X) (t t' : dtmmgr.type) : Prop :=
  match m t, m' t' with
  | (Ret x, u), (Ret y, v) => x = y ∧ dsim u v
  | (Throw _, u), (Throw _, v) => dsim u v
  | _, _ => False
  end.
Lemma dagree_bind {X Y} (m m' : M dtmmgr.type tmmgr.error X) (k k' : X → M dtmmgr.type tmmgr.error Y) t t' :
  dagree m m' t t' → (∀ x u v, dsim u v → dagree (k x) (k' x) u v) → dagree (m ≫= k) (m' ≫= k') t t'.
Proof.
  unfold dagree, mbind, M_bind. destruct (m t) as [[x|e] u], (m' t') as [[y|e'] v]; try done. intros [<- Hs] Hk. by apply Hk.
Qed.
Lemma dagree_down {X} (m m' : M tmmgr.type tmmgr.error X) t t' :
  dsim t t' → agree m m' (dtmmgr.down t) (dtmmgr.down t') → dagree (dtmmgr.on dtmmgr.ARENA_DOWN m) (dtmmgr.on dtmmgr.ARENA_DOWN m') t t'.
Proof.
  intros [E1 E2 E3]. unfold agree, dagree, dtmmgr.on. simpl. destruct (m (dtmmgr.down t)) as [[x|e] u], (m' (dtmmgr.down t')) as [[y|e'] v]; try done.
  intros [<- Hs]. split; [done|]. by split.
Qed.
Lemma dagree_resize t t' : dsim t t' → dagree (dtmmgr.resize_other dtmmgr.ARENA_DOWN) (dtmmgr.resize_other dtmmgr.ARENA_DOWN) t t'.
Proof.
  intros [E1 E2 E3]. unfold dagree, dtmmgr.resize_other. rewrite !bind_get. unfold dtmmgr.on. simpl. rewrite E1, E3.
  unfold tmmgr.highwater. rewrite (sim_high _ _ E2). destruct (tmmgr.resize _ _) as [[x|e] y]; [split; [done|]|]; by split.
Qed.
Lemma dagree_alloc h h' s t t' :
  dsim t t' → tmmgr.handle_to_offset_and_size (dtmmgr.down t) !! h = None → tmmgr.handle_to_offset_and_size (dtmmgr.down t') !! h' = None →
  dagree (dtmmgr.alloc h dtmmgr.ARENA_DOWN s) (dtmmgr.alloc h' dtmmgr.ARENA_DOWN s) t t'.
Proof.
  intros Hd Hh Hh'. unfold dtmmgr.alloc. apply dagree_bind; [apply dagree_down; [done|]; by apply agree_alloc; [apply Hd|..]|].
  intros x u v Huv. apply dagree_bind; [by apply dagree_resize|]. intros _ u1 v1 Huv1.
  assert (E : ∀ (k : dtmmgr.type → M dtmmgr.type tmmgr.error (Z * Z)), dagree (k u1) (k v1) u1 v1 → dagree (get ≫= k) (get ≫= k) u1 v1) by done.
  apply E. rewrite (ds_size _ _ Huv1). apply dagree_bind; [apply dagree_down; [done|]; apply agree_assert; apply Huv1|]. by intros _ u2 v2 Huv2.
Qed.

(** ** Communication buffers *)
Fixpoint ref_buffers (n : nat) (i size : Z) (t : dtmmgr.type) : dtmmgr.type :=
  match n with
  | O => t
  | S n => match dtmmgr.alloc i dtmmgr.ARENA_DOWN size t with
           | (Ret _, t) => ref_buffers n (i + 1) size t
           | (Throw _, t) => t
           end
  end.
(** an area that has communication buffers of node [r] only, like the reference [t] *)
Record prepared (r k i L : Z) (t : dtmmgr.type) (a : area) : Prop := {
  pr_ok : area_ok a;
  pr_type : a_type a = SEG_GASPI;
  pr_id : a_id a = GPI_PC_INVAL;
  pr_size : a_local_size a = L;
  pr_like : dsim (m_mmgr a) t;
  pr_local : ∀ h d, m_handles a !! h = Some d → is_global d = false ∧ type h = SEG_GASPI ∧ ident h = r ∧ global_cntr h ≤ k;
  pr_pool : ∀ b, b ∈ m_com_handles a → ∃ db, m_handles a !! b_handle b = Some db ∧ d_offset db = b_data b ∧ d_local_size db = hb_size b;
  pr_ref : (∃ lu ld, joint lu ld t) ∧ tmmgr.align (dtmmgr.up t) = 1 ∧ ∀ h x, tmmgr.handle_to_offset_and_size (dtmmgr.down t) !! h = Some x → h < i
}.
Lemma prepared_more r k i L t a k' : k ≤ k' → prepared r k i L t a → prepared r k' i L t a.
Proof. intros Hk [P1 P2 P3 P4 P5 P6 P7 P8]. split; try done. intros h d Hd. destruct (P6 h d Hd) as (? & ? & ? & ?). split_and!; done || lia. Qed.
Lemma prepared_next r k i L t a h size name :
  prepared r k i L t a → 0 < size → size + 1 ≤ two64 → type h = SEG_GASPI → ident h = r → global_cntr h = k + 1 →
  let d := mk_descriptor h GPI_PC_INVAL 0 size size 0 name GPI_PC_INVAL F_EXCLUSIVE in
  match dtmmgr.alloc i dtmmgr.ARENA_DOWN size t with
  | (Ret (o, _), t') => ∃ u, reserve d a = (Ret (set_offset o d), set_mmgr u a) ∧
      prepared r (k + 1) (i + 1) L t' (set_com_handles (.++ [mk_handle_buffer h size o]) (with_alloc u (set_offset o d) a))
  | (Throw _, t') => (∃ text, reserve d a = (Throw (runtime_error text), a)) ∧ prepared r k i L t' a
  end.
Proof.
  intros Hp Hs Hle Ht Hi Hc d. pose proof Hp as [P1 P2 P3 P4 P5 P6 P7 ((lu & ld & Pj) & Pa & Pi)].
  assert (Hfresh : m_handles a !! h = None).
  { apply eq_None_not_Some. intros [x Hx]. destruct (P6 h x Hx) as (_ & _ & _ & ?). lia. }
  assert (Hdir : dir a d = dtmmgr.ARENA_DOWN) by (unfold dir; rewrite P2; done).
  pose proof (reserve_run a d P1 Hs Hle) as Hres. rewrite Hdir in Hres. cbn [d_id d_local_size d] in Hres.
  destruct (joint_arena a dtmmgr.ARENA_DOWN P1) as (l & k0 & Hj & Hal).
  assert (Hnone : tmmgr.handle_to_offset_and_size (dtmmgr.down (m_mmgr a)) !! h = None).
  { apply eq_None_not_Some. intros [[o n] Hb]. destruct (ao_blocks _ P1 dtmmgr.ARENA_DOWN h o n Hb) as (x & Hx & _). congruence. }
  assert (Hnone' : tmmgr.handle_to_offset_and_size (dtmmgr.down t) !! i = None).
  { apply eq_None_not_Some. intros [x Hx]. specialize (Pi i x Hx). lia. }
  pose proof (dagree_alloc h i size _ _ P5 Hnone Hnone') as Hag. unfold dagree in Hag.
  pose proof (dt_alloc_spec dtmmgr.ARENA_DOWN l k0 (m_mmgr a) h size Hj Hs ltac:(by rewrite Hal)) as Hspec.
  assert (Hald : tmmgr.align (dtmmgr.down t) = 1) by (rewrite <- (joint_align _ _ _ Pj); done).
  simpl in Hres, Hspec. destruct (tmmgr.alloc h size (dtmmgr.down (m_mmgr a))) as [[[o m]|e] y].
  - destruct Hres as (-> & u & Hres & _ & Hgr & Halloc). rewrite Halloc in Hag.
    destruct (dtmmgr.alloc i dtmmgr.ARENA_DOWN size t) as [[[o' m']|e'] t'] eqn:Href; [|done]. destruct Hag as [[= <- <-] Hsim].
    exists u. split; [done|]. set (d' := set_offset _ d) in *.
    assert (area_ok (with_alloc u d' a)) as Hok by (apply (with_alloc_ok _ _ o); try done; change (dir a d') with (dir a d); by rewrite Hdir).
    assert (Hj2 : joint_at dtmmgr.ARENA_DOWN ld lu t) by done.
    destruct (tmmgr.alloc i size (dtmmgr.down t)) as [[[o2 m2]|e2] y2] eqn:Hrun2.
    2:{ pose proof (dt_alloc_spec dtmmgr.ARENA_DOWN ld lu t i size Hj2 Hs ltac:(simpl; by rewrite Hald)) as H2. simpl in H2. rewrite Hrun2, Href in H2. done. }
    destruct (dt_alloc_grown dtmmgr.ARENA_DOWN ld lu t i size o2 m2 y2 Hj2 Hs ltac:(simpl; by rewrite Hald) Hrun2) as (t2 & H2 & _ & [Gj Ga Gs Gn Gb] & _).
    rewrite Href in H2. injection H2 as _ _ <-. split; try done.
    + destruct Hok as [K1 K2 K3 K4 K5 K6]. by split.
    + simpl. intros h' x [[<- <-]|[Hne Hx]]%lookup_insert_Some; [split_and!; done || lia|]. destruct (P6 h' x Hx) as (? & ? & ? & ?). split_and!; done || lia.
    + simpl. intros b [Hb| ->%list_elem_of_singleton]%elem_of_app; [|exists d'; by rewrite lookup_insert_eq].
      destruct (P7 b Hb) as (db & Hdb & ? & ?). exists db. rewrite lookup_insert_ne by congruence. done.
    + split_and!; [done|by rewrite Ga|]. intros h' [x z] Hx. apply (Gb dtmmgr.ARENA_DOWN) in Hx as [(_ & -> & _)|Hx]; [lia|]. specialize (Pi h' _ Hx). lia.
  - rewrite Hspec in Hag. destruct (dtmmgr.alloc i dtmmgr.ARENA_DOWN size t) as [x t'] eqn:Href. destruct x as [x|e']; [done|]. split; [done|].
    assert (t' = t) as ->.
    { pose proof (joint_alloc dtmmgr.ARENA_DOWN ld lu t i size ltac:(done) Hs ltac:(simpl; by rewrite Hald)) as H2. rewrite Href in H2. by destruct H2. }
    done.
Qed.
End sim.

(** ** Creating the segment on a node *)
Section create.
Context `{UnorderedMultiset} `{AssertMode} `{Unordered} `{Gaspi} `{Syscalls} `{Machine}.
Context (what : exn → string).

(** the generator of node [r], which has made [k] handles of gaspi segments *)
Definition counts (r k : Z) (g : generator) : Prop := m_node_identifier g = r ∧ m_counter g !! 1%nat = Some k.
Lemma next_gaspi r k c nd :
  node_at r c = Some nd → counts r k (handle_generator nd) → 0 ≤ r < 4096 → 0 ≤ k → k + 1 < 2 ^ 48 →
  ∃ h g, next_handle r SEG_GASPI c = (Ret h, on_node r (set_generator g) c) ∧ counts r (k + 1) g ∧
    type h = SEG_GASPI ∧ ident h = r ∧ global_cntr h = k + 1.
Proof.
  intros Hnd [Hi Hk] Hr Hk0 Hlt. destruct (encode_ok r SEG_GASPI (k + 1)) as [h Hh]; [done|done|done|lia|].
  assert (type h = SEG_GASPI ∧ ident h = r ∧ global_cntr h = k + 1) as Hf.
  { apply encode_fields in Hh as (_ & Ht & Hf); [by destruct Hf|unfold SEG_GASPI; lia..]. }
  exists h, (mk_generator r (<[1%nat := k + 1]> (m_counter (handle_generator nd)))). split_and!.
  - unfold next_handle. rewrite bind_get, Hnd. unfold next. rewrite bind_get. change (Z.to_nat SEG_GASPI) with 1%nat. rewrite Hk.
    rewrite w64_small by (unfold is_w64; change two64 with (2 ^ 64); lia). rewrite bind_modify. unfold lift. by rewrite Hi, Hh.
  - split; [done|]. apply list_lookup_insert_eq. by apply lookup_lt_Some in Hk.
  - by destruct Hf.
  - by destruct Hf as (_ & ? & _).
  - by destruct Hf as (_ & _ & ?).
Qed.
Lemma on_node_id r c nd f : node_at r c = Some nd → f nd = nd → on_node r f c = c.
Proof.
  intros Hnd Hf. destruct c as [l fs]. unfold on_node, set_nodes. cbn [nodes files]. f_equal. apply list_eq. intros i.
  destruct (decide (i = Z.to_nat r)) as [->|Hi]; [|by rewrite list_lookup_alter_ne]. rewrite list_lookup_alter_eq.
  unfold node_at in Hnd. simpl in Hnd. rewrite Hnd. simpl. by rewrite Hf.
Qed.
Lemma set_generator_twice r g g' c nd : node_at r c = Some nd → on_node r (set_generator g') (on_node r (set_generator g) c) = on_node r (set_generator g') c.
Proof. intros Hnd. rewrite on_node_on_node. by apply (on_node_ext _ _ _ _ nd). Qed.

Lemma com_buffers_run m : ∀ i r a size name c k t L nd,
  0 ≤ r < 4096 → node_at r c = Some nd → counts r k (handle_generator nd) → 0 ≤ k → k + Z.of_nat m < 2 ^ 48 →
  prepared r k i L t a → 0 < size → size + 1 ≤ two64 →
  ∃ g k' i' a', com_buffers m i r a size name c = (Ret a', on_node r (set_generator g) c) ∧ counts r k' g ∧ k ≤ k' ≤ k + Z.of_nat m ∧
    prepared r k' i' L (ref_buffers m i size t) a' ∧ (length (m_com_handles a) ≤ length (m_com_handles a'))%nat ∧
    ((∃ x t', m ≠ 0%nat ∧ dtmmgr.alloc i dtmmgr.ARENA_DOWN size t = (Ret x, t')) → m_com_handles a' ≠ []).
Proof.
  induction m as [|m IH]; intros i r a size name c k t L nd Hr Hnd Hcnt Hk Hlt Hp Hs Hle.
  - exists (handle_generator nd), k, i, a. split_and!; try done; try lia; [|by intros (x & t' & ? & _)].
    simpl. by rewrite (on_node_id r c nd) by (done || by destruct nd).
  - destruct (next_gaspi r k c nd) as (h & g & Hnext & Hg & Ht & Hi & Hc); [done|done|done|done|lia|].
    cbn [com_buffers ref_buffers]. pose proof (prepared_next r k i L t a h size (name +:+ "-com-" +:+ show.integer i) Hp Hs Hle Ht Hi Hc) as Hn.
    cbv zeta in Hn. set (d := mk_descriptor _ _ _ _ _ _ _ _ _) in Hn. set (c1 := on_node r (set_generator g) c) in *.
    assert (Hnd1 : node_at r c1 = Some (set_generator g nd)) by (unfold c1; rewrite node_at_on_node, decide_True, Hnd by (lia || done); done).
    destruct (dtmmgr.alloc i dtmmgr.ARENA_DOWN size t) as [[[o x]|e] t'] eqn:Href.
    + destruct Hn as (u & Hres & Hp'). set (b := mk_handle_buffer h size o) in *.
      assert (E : com_buffer r a size (name +:+ "-com-" +:+ show.integer i) c = (Ret (Ret (b, with_alloc u (set_offset o d) a)), c1)).
      { unfold com_buffer. rewrite (pr_type _ _ _ _ _ _ Hp), Hnext, (pr_id _ _ _ _ _ _ Hp). fold d.
        rewrite (bind_eq _ _ _ _ _ Hres), (bind_eq _ _ _ _ _ (commit_run _ _ _)). done. }
      rewrite (bind_eq _ _ _ _ _ E). cbv beta iota.
      destruct (IH (i + 1) r _ size name c1 (k + 1) t' L _ Hr Hnd1 Hg ltac:(lia) ltac:(lia) Hp' Hs Hle) as (g2 & k2 & i2 & a2 & E2 & C2 & K2 & P2 & L2 & _).
      exists g2, k2, i2, a2. split_and!; try done; try lia.
      * rewrite E2. unfold c1. by rewrite (set_generator_twice r g g2 c nd).
      * cbn [m_com_handles set_com_handles with_alloc set_handles recount set_mmgr] in L2. simpl in L2. rewrite length_app in L2. lia.
      * intros _ E'. rewrite E' in L2. simpl in L2. rewrite length_app in L2. simpl in L2. lia.
    + destruct Hn as [[text Hres] Hp'].
      assert (E : com_buffer r a size (name +:+ "-com-" +:+ show.integer i) c = (Ret (Throw (runtime_error text)), c1)).
      { unfold com_buffer. rewrite (pr_type _ _ _ _ _ _ Hp), Hnext, (pr_id _ _ _ _ _ _ Hp). fold d. by rewrite (bind_throw _ _ _ _ _ Hres). }
      rewrite (bind_eq _ _ _ _ _ E). cbv beta iota. exists g, (k + 1), i, a. split_and!; try done; try lia.
      * apply (prepared_more r k); [lia|done].
      * intros (x & t2 & _ & [=]).
Qed.

(** the first buffer always fits *)
Lemma make_alloc_ok size L h :
  0 < size ≤ L → L < two64 → ∃ x t, dtmmgr.alloc h dtmmgr.ARENA_DOWN size (dtmmgr.make L 1) = (Ret x, t).
Proof.
  intros Hs HL. pose proof (make_area_ok SEG_GASPI 0 "" L 0 ltac:(lia)) as Hok.
  destruct (joint_arena _ dtmmgr.ARENA_DOWN Hok) as (l & k & Hj & Hal). change (m_mmgr (make_area SEG_GASPI 0 "" L 0)) with (dtmmgr.make L 1) in *.
  pose proof (dt_alloc_spec dtmmgr.ARENA_DOWN l k _ h size Hj ltac:(lia) ltac:(rewrite Hal; lia)) as Hspec.
  destruct (tmmgr.alloc h size _) as [[[o n]|e] y] eqn:Hrun; [destruct Hspec as (t' & -> & _); eauto|].
  assert (Hv : valid_align 1) by (exists 0; lia). pose proof (make_spec L 1 Hv ltac:(lia)) as Hrep.
  assert (Hd : tmmgr.alignDown L 1 = L) by (apply alignDown_aligned; [done|lia|apply Z.divide_1_l]).
  rewrite Hd in Hrep. pose proof (alloc_spec _ _ h size Hrep ltac:(lia)) as He.
  assert (tmmgr.align (tmmgr.make L 1) = 1) as Ha by (unfold tmmgr.make, tmmgr.insert_free_segment; by destruct (0 <? _)).
  change (dtmmgr.arena dtmmgr.ARENA_DOWN (dtmmgr.make L 1)) with (tmmgr.make L 1) in Hrun. rewrite Ha, Hrun in He.
  specialize (He ltac:(lia)). unfold alloc_result in He. rewrite Ha, alignUp_1 in He by lia. destruct He as [_ [[_ He]|[[_ He]|[_ He]]]].
  - rewrite free_total_free_seg in He by lia. lia.
  - rewrite handles_free_seg in He. by apply elem_of_nil in He.
  - specialize (He L). unfold free_seg in He. rewrite (proj2 (Z.ltb_lt _ _)) in He by lia. specialize (He ltac:(by left)). lia.
Qed.
Definition per_node (n total cs nb : Z) : Z := (total + n - 1) / n + cs * nb.
Definition reference (n total cs nb : Z) : dtmmgr.type :=
  ref_buffers (Z.to_nat nb) 0 cs (dtmmgr.make (per_node n total cs nb) 1).
Record request_ok (n total cs nb : Z) : Prop := {
  rq_nodes : 0 < n ≤ 4096;
  rq_total : 0 < total ∧ total + n < two64;
  rq_buffers : 0 < cs ∧ 0 < nb < 2 ^ 40;
  rq_size : per_node n total cs nb < two64;
  rq_memory : ∀ q, 0 ≤ q < n → per_node n total cs nb ≤ total_memory_size q
}.
Lemma gaspi_create_run n total cs nb r owner c nd k :
  request_ok n total cs nb → number_of_nodes c = n → 0 ≤ r < n → node_at r c = Some nd → counts r k (handle_generator nd) → 0 ≤ k < 2 ^ 47 →
  ∃ g k' i' a, gaspi_create r (vmem_url.gaspi_url total cs nb) owner c = (Ret a, on_node r (set_generator g) c) ∧ counts r k' g ∧ k ≤ k' ≤ k + nb ∧
    prepared r k' i' (per_node n total cs nb) (reference n total cs nb) a ∧ m_com_handles a ≠ [].
Proof.
  intros [Q1 Q2 Q3 Q4 Q5] Hn Hr Hnd Hc Hk. set (L := per_node n total cs nb) in *.
  assert (Hdiv : 0 ≤ (total + n - 1) / n) by (apply Z.div_pos; lia).
  assert (HL : cs ≤ L) by (unfold L, per_node; nia). assert (HLn : cs * nb ≤ L) by (unfold L, per_node; lia).
  assert (Hcs : cs < two64 ∧ nb < two64) by (change two64 with (2 ^ 64) in *; lia).
  set (a0 := make_area SEG_GASPI owner "GASPI" L F_GLOBAL).
  assert (Hp0 : prepared r k 0 L (dtmmgr.make L 1) a0).
  { pose proof (make_area_ok SEG_GASPI owner "GASPI" L F_GLOBAL ltac:(lia)) as Hok. split; try done.
    - intros b Hb. by apply elem_of_nil in Hb.
    - split_and!; [apply Hok|apply Hok|]. intros h [o m] Hx. destruct (ao_blocks _ Hok dtmmgr.ARENA_DOWN h o m Hx) as (d & Hd & _).
      simpl in Hd. by rewrite lookup_empty in Hd. }
  destruct (com_buffers_run (Z.to_nat nb) 0 r a0 cs "GASPI" c k (dtmmgr.make L 1) L nd) as (g & k' & i' & a & E & C' & K' & P' & _ & Hne);
    [lia|done|done|lia|lia|done|lia|lia|].
  exists g, k', i', a. rewrite Z2Nat.id in K' by lia.
  assert (Hpool : m_com_handles a ≠ []).
  { apply Hne. destruct (make_alloc_ok cs L 0) as (x & t & Ht); [lia..|]. exists x, t. split; [lia|done]. }
  split_and!; try done; try lia. unfold gaspi_create, argument.
  assert (H1' : std (vmem_url.lexical_cast (default "4194304" (vmem_url.args (vmem_url.gaspi_url total cs nb) !! "buffer_size"))) c = (Ret cs, c)).
  { change (vmem_url.args _ !! "buffer_size") with (Some (show.integer cs)). simpl. by rewrite vmem_url.lexical_cast_show by lia. }
  assert (H2' : std (vmem_url.lexical_cast (default "8" (vmem_url.args (vmem_url.gaspi_url total cs nb) !! "buffers"))) c = (Ret nb, c)).
  { change (vmem_url.args _ !! "buffers") with (Some (show.integer nb)). simpl. by rewrite vmem_url.lexical_cast_show by lia. }
  rewrite (bind_eq _ _ _ _ _ H1'), (bind_eq _ _ _ _ _ H2').
  change (vmem_url.args _ !! "total_size") with (Some (show.integer total)). cbv beta iota.
  rewrite (bind_eq _ _ _ total c) by (by rewrite vmem_url.lexical_cast_show by lia). rewrite bind_get, Hn.
  assert (w64 (divru total n + w64 (cs * nb)) = L) as ->.
  { unfold divru. rewrite (w64_small (total + n)), (w64_small (total + n - 1)), (w64_small (cs * nb)) by (unfold is_w64; lia).
    apply w64_small. unfold is_w64, L, per_node in *. lia. }
  rewrite (proj2 (Z.ltb_ge _ _)) by (by apply Q5).
  assert (forallb (λ q, L <=? total_memory_size q) (seqZ 0 n) = true) as ->.
  { apply forallb_forall. intros q Hq%list_elem_of_In%elem_of_seqZ. apply Z.leb_le. apply Q5. lia. }
  unfold fhg_assert. rewrite !(proj2 (Z.ltb_lt _ _)) by lia. rewrite !andb_false_r.
  rewrite (bind_eq _ _ _ tt c) by done. rewrite (bind_eq _ _ _ tt c) by done. fold a0. rewrite (bind_eq _ _ _ _ _ E).
  by destruct (m_com_handles a).
Qed.

(** ** Creating the segment everywhere *)
Definition made (id n total cs nb q : Z) (nd : node) : Prop :=
  ∃ k i a, counts q k (handle_generator nd) ∧ 0 ≤ k ≤ nb ∧ m_handle_to_segment nd = ∅ ∧ m_areas nd = {[ id := set_id id a ]} ∧
    prepared q k i (per_node n total cs nb) (reference n total cs nb) a ∧ m_com_handles a ≠ [].
Definition fresh_node (q : Z) (nd : node) : Prop := m_areas nd = ∅ ∧ m_handle_to_segment nd = ∅ ∧ counts q 0 (handle_generator nd).

Lemma create_node id n total cs nb r owner c nd :
  request_ok n total cs nb → number_of_nodes c = n → 0 ≤ r < n → node_at r c = Some nd → fresh_node r nd →
  ∃ nd', (a ← create_area r (vmem_url.gaspi_info total cs nb) owner; keep_area r id a) c = (Ret tt, on_node r (λ _, nd') c) ∧
    made id n total cs nb r nd'.
Proof.
  intros Hq Hn Hr Hnd (F1 & F2 & F3). destruct (gaspi_create_run n total cs nb r owner c nd 0 Hq Hn Hr Hnd F3 ltac:(lia)) as (g & k & i & a & E & C' & K' & P' & Hne).
  assert (E1 : create_area r (vmem_url.gaspi_info total cs nb) owner c = (Ret a, on_node r (set_generator g) c)).
  { unfold create_area. destruct Hq as [_ [? ?] [? ?] _ _]. rewrite (bind_eq _ _ _ (vmem_url.gaspi_url total cs nb) c); [exact E|].
    by rewrite vmem_url.make_gaspi_info by lia. }
  rewrite (bind_eq _ _ _ _ _ E1). set (c1 := on_node r (set_generator g) c) in *.
  assert (Hnd1 : node_at r c1 = Some (set_generator g nd)) by (unfold c1; rewrite node_at_on_node, decide_True, Hnd by (lia || done); done).
  exists (set_areas (<[id := set_id id a]>) (set_generator g nd)). split.
  - unfold keep_area. apply trying_ret. unfold add_area. rewrite (bind_eq _ _ _ None c1).
    + unfold modify. f_equal. unfold c1. rewrite on_node_on_node. by apply (on_node_ext _ _ _ _ nd).
    + unfold find_area. rewrite bind_get, (area_at_node _ _ _ _ Hnd1). simpl. by rewrite F1, lookup_empty.
  - exists k, i, a. split_and!; try done; try lia. simpl. by rewrite F1, insert_empty.
Qed.
Lemma collect_made (P : Z → node → Prop) f l c :
  NoDup l → Forall (λ q, 0 ≤ q) l →
  (∀ q c', q ∈ l → node_at q c' = node_at q c → number_of_nodes c' = number_of_nodes c → ∃ nd', f q c' = (Ret tt, on_node q (λ _, nd') c') ∧ P q nd') →
  ∃ c', collect what f l [] c = (Ret [], c') ∧ number_of_nodes c' = number_of_nodes c ∧
    ∀ q, 0 ≤ q → (q ∈ l → ∀ nd, node_at q c' = Some nd → P q nd) ∧ (q ∉ l → node_at q c' = node_at q c).
Proof.
  intros Hnd Hl. revert c. induction l as [|x l IH]; intros c Hf.
  { exists c. split_and!; [done..|]. intros q Hq. split; [by intros ?%elem_of_nil|done]. }
  apply NoDup_cons in Hnd as [Hx Hnd]. apply Forall_cons in Hl as [Hx0 Hl].
  destruct (Hf x c) as (ndx & E & HP); [by left|done..|]. cbn [collect]. rewrite E. set (c1 := on_node x (λ _, ndx) c).
  assert (Hc1 : ∀ q, 0 ≤ q → q ≠ x → node_at q c1 = node_at q c) by (intros; unfold c1; by rewrite node_at_on_node, decide_False by done).
  destruct (IH Hnd Hl c1) as (c' & E' & N' & H').
  { intros q c2 Hq Hc2 Hn2. apply Hf; [by right| |]. - rewrite Hc2. apply Hc1; [rewrite Forall_forall in Hl; by apply Hl|]. by intros ->.
    - rewrite Hn2. unfold c1. by rewrite number_on_node. }
  exists c'. split_and!; [done|rewrite N'; unfold c1; by rewrite number_on_node|]. intros q Hq. destruct (H' q Hq) as [A B]. split.
  - intros [->|Hq']%elem_of_cons; [|by apply A]. intros nd Hnd'. rewrite B in Hnd' by done. unfold c1 in Hnd'.
    rewrite node_at_on_node, decide_True in Hnd' by done. destruct (node_at x c); [|done]. simpl in Hnd'. by injection Hnd' as <-.
  - intros [Hne Hq']%not_elem_of_cons. rewrite B by done. by apply Hc1.
Qed.

Lemma made_replica id n total cs nb q k i a :
  prepared q k i (per_node n total cs nb) (reference n total cs nb) a →
  replica id n (per_node n total cs nb) (dtmmgr.up (reference n total cs nb)) ∅ (set_id id a).
Proof.
  intros [P1 P2 P3 P4 P5 P6 P7 P8]. split; try done.
  - destruct P1 as [K1 K2 K3 K4 K5 K6]. by split.
  - simpl. by rewrite (ds_up _ _ P5).
  - intros h x. rewrite lookup_empty. split; [done|]. intros (d & Hd & Hg & _). simpl in Hd. destruct (P6 h d Hd) as [? _]. congruence.
  - intros h d Hd Hg. simpl in Hd. destruct (P6 h d Hd) as [? _]. congruence.
  - intros b Hb. destruct (P7 b Hb) as (db & Hdb & ? & ?). exists db. split_and!; try done. apply (P6 _ _ Hdb).
Qed.
Lemma made_implements id n total cs nb c :
  number_of_nodes c = n → 0 ≤ nb → (∀ q nd, 0 ≤ q → node_at q c = Some nd → made id n total cs nb q nd) →
  implements id n (per_node n total cs nb) nb (dtmmgr.up (reference n total cs nb)) ∅ c.
Proof.
  intros Hn Hnb Hm. set (K := λ q, if q <? 0 then 0 else match node_at q c with Some nd => default 0 (m_counter (handle_generator nd) !! 1%nat) | None => 0 end).
  assert (HK : ∀ q nd k, 0 ≤ q → node_at q c = Some nd → counts q k (handle_generator nd) → K q = k).
  { intros q nd k Hq Hnd [_ Hk]. unfold K. rewrite (proj2 (Z.ltb_ge _ _)), Hnd, Hk by done. done. }
  exists K. split_and!; [done| |].
  - intros q. destruct (Z_lt_le_dec q 0) as [Hq|Hq]; [unfold K; rewrite (proj2 (Z.ltb_lt _ _)) by done; lia|].
    destruct (node_at q c) as [nd|] eqn:Hnd.
    + destruct (Hm q nd Hq Hnd) as (k & i & a & C & B & _). by rewrite (HK q nd k).
    + unfold K. rewrite (proj2 (Z.ltb_ge _ _)), Hnd by done. lia.
  - intros q nd Hq Hnd. destruct (Hm q nd Hq Hnd) as (k & i & a & C & B & Hh & Ha & Hp & _). rewrite <- (HK q nd k Hq Hnd C) in *. split.
    + exists (set_id id a). rewrite Ha, lookup_singleton_eq. split; [done|]. by apply (made_replica id n total cs nb q (K q) i).
    + intros h. rewrite Hh, !lookup_empty. split; [done|by intros []].
    + intros h [Hkn|(k' & b & Hb & Hkn)] _; [rewrite Hh, lookup_empty in Hkn; by destruct Hkn|].
      rewrite Ha in Hb. apply lookup_singleton_Some in Hb as [<- <-]. destruct Hkn as [d Hd]. simpl in Hd.
      destruct (pr_local _ _ _ _ _ _ Hp h d Hd) as (_ & _ & -> & ?). done.
    + by rewrite (HK q nd k Hq Hnd C).
Qed.

(** ** All nodes start *)
Definition boot_node (q : Z) : node := mk_node ∅ ∅ (make_generator q) 0 ∅ [].
Definition boot (n : Z) : cluster := mk_cluster (boot_node <$> seqZ 0 n) ∅.
Lemma boot_at n q : 0 ≤ q → node_at q (boot n) = if decide (q < n) then Some (boot_node q) else None.
Proof.
  intros Hq. unfold node_at, boot. cbn [nodes]. rewrite list_lookup_fmap. destruct (decide (q < n)) as [Hlt|Hge].
  - rewrite lookup_seqZ_lt by lia. simpl. by rewrite Z.add_0_l, Z2Nat.id.
  - rewrite lookup_seqZ_ge by lia. done.
Qed.
Lemma boot_number n : 0 ≤ n → number_of_nodes (boot n) = n.
Proof. intros Hn. unfold number_of_nodes, boot. cbn [nodes]. rewrite length_fmap, length_seqZ. lia. Qed.
Lemma next_segment r n :
  0 ≤ r < n → n ≤ 4096 →
  ∃ id c1, next_handle r SEG_INVAL (boot n) = (Ret id, c1) ∧ number_of_nodes c1 = n ∧ ∀ q nd, 0 ≤ q → node_at q c1 = Some nd → fresh_node q nd.
Proof.
  intros Hr Hn. destruct (encode_ok r SEG_INVAL 1) as [id Hid]; [lia|done..|].
  exists id, (on_node r (set_generator (mk_generator r (<[0%nat := 1]> (replicate 16 0)))) (boot n)). split_and!.
  - unfold next_handle. rewrite bind_get, boot_at, decide_True by lia. unfold next. rewrite bind_get.
    change (m_counter (handle_generator (boot_node r)) !! Z.to_nat SEG_INVAL) with (Some 0). cbv beta iota zeta. rewrite bind_modify.
    change (w64 (0 + 1)) with 1. unfold lift. change (m_node_identifier (handle_generator (boot_node r))) with r. rewrite Hid. done.
  - rewrite number_on_node. apply boot_number. lia.
  - intros q nd Hq. rewrite node_at_on_node, !boot_at by lia. destruct (decide (q = r)) as [->|Hne].
    + rewrite decide_True by lia. intros [= <-]. done.
    + destruct (decide (q < n)); [|done]. intros [= <-]. done.
Qed.
Lemma add_memory_run n total cs nb r proc :
  request_ok n total cs nb → 0 ≤ r < n →
  ∃ id c', add_memory what r proc (vmem_url.gaspi_info total cs nb) (boot n) = (Ret id, c') ∧
    implements id n (per_node n total cs nb) nb (dtmmgr.up (reference n total cs nb)) ∅ c' ∧
    ∀ q, 0 ≤ q < n → pool q id c' ≠ [].
Proof.
  intros Hq Hr. pose proof Hq as [Q1 [Q2 Q2'] [Q3 Q3'] _ _]. destruct (next_segment r n Hr ltac:(lia)) as (id & c1 & E1 & N1 & F1).
  destruct (node_at_some r c1) as [nd Hnd]; [lia|].
  destruct (create_node id n total cs nb r proc c1 nd Hq N1 Hr Hnd (F1 r nd ltac:(lia) Hnd)) as (nd' & E2 & M2). set (c2 := on_node r (λ _, nd') c1) in *.
  assert (N2 : number_of_nodes c2 = n) by (unfold c2; by rewrite number_on_node).
  assert (Hc2 : ∀ q, 0 ≤ q → q ≠ r → node_at q c2 = node_at q c1) by (intros; unfold c2; by rewrite node_at_on_node, decide_False by lia).
  destruct (collect_made (made id n total cs nb) (λ q, remote_add_memory q id (vmem_url.gaspi_info total cs nb)) (others r c2) c2) as (c' & E3 & N3 & M3).
  { apply NoDup_filter, NoDup_seqZ. }
  { apply Forall_forall. intros q Hq'%elem_of_others. lia. }
  { intros q c0 [Hq' Hne]%elem_of_others Hc0 Hn0. destruct (node_at_some q c1) as [ndq Hndq]; [lia|].
    rewrite Hc2, Hndq in Hc0 by lia. unfold remote_add_memory. apply (create_node id n total cs nb q 0 c0 ndq); [done|lia|lia|done|]. by apply F1; [lia|]. }
  assert (HM : ∀ q nd, 0 ≤ q → node_at q c' = Some nd → made id n total cs nb q nd).
  { intros q x Hq' Hx. destruct (M3 q Hq') as [A B]. destruct (decide (q = r)) as [->|Hne].
    - rewrite B in Hx by (by intros [_ ?]%elem_of_others). unfold c2 in Hx. rewrite node_at_on_node, decide_True, Hnd in Hx by done. by injection Hx as <-.
    - apply A; [|done]. apply elem_of_others. pose proof (node_at_range q c' x Hq' Hx). lia. }
  exists id, c'. split_and!.
  - unfold add_memory. rewrite (bind_eq _ _ _ (vmem_url.gaspi_url total cs nb) (boot n)) by (by rewrite vmem_url.make_gaspi_info by lia).
    rewrite (bind_eq _ _ _ _ _ E1). cbv zeta. rewrite (bind_eq _ _ _ tt c'); [done|]. apply trying_ret. cbn [vmem_url.type vmem_url.gaspi_url].
    rewrite bool_decide_false by done. rewrite E2. rewrite (bind_eq _ _ _ tt c'); [done|]. unfold request. rewrite bind_get.
    rewrite (bind_eq _ _ _ _ _ E3). done.
  - apply made_implements; [lia|lia|done].
  - intros q Hq'. destruct (node_at_some q c') as [x Hx]; [lia|]. destruct (HM q x ltac:(lia) Hx) as (k & i & a & _ & _ & _ & Ha & _ & Hne).
    unfold pool. rewrite (area_at_node _ _ _ _ Hx), Ha, lookup_singleton_eq. done.
Qed.
End create.
End start.
