(* ===== verification/VmemCopy.v ===== *)
(** * Copies between mapped memory and distributed allocations

    [memcpy], the thread that runs the copy and [wait], from the request to the bytes: on a
    node that has a part of the range itself the data is moved directly, otherwise it goes
    through communication buffers to the nodes that have it. *)

From S2P Require Import Prelude Value Token Bitset Function Position Num ReadShow Tokenizer Expr Parser ModuleCall Net NetFire ModuleRun Mmgr MmgrLayout MmgrSpec MmgrSafe VmemHandle VmemUrl VmemArea VmemAreaSpec VmemTransfer VmemTransferSpec VmemManager VmemReplicas VmemCluster.

Module copies.
Local Open Scope Z_scope.
Import Allocator module_run vmem_handle vmem area_spec transfer transfer_spec manager replicas runs.

Section copies.
Context `{UnorderedMultiset} `{AssertMode} `{Unordered} `{HGS : GaspiSpec} `{Syscalls} `{Machine}.
Context (seg n L : Z).

(** ** From the agreement of the nodes *)
Lemma implements_area N up G c q : implements seg n L N up G c → 0 ≤ q < n → ∃ a, area_at q seg c = Some a ∧ replica seg n L up G a.
Proof.
  intros (K & Hn & _ & Hok) Hq. destruct (node_at_some q c) as [nd Hnd]; [lia|].
  destruct (no_area _ _ _ _ _ _ _ _ (Hok q nd ltac:(lia) Hnd)) as (a & Ha & Hr). exists a. split; [|done]. by rewrite (area_at_node _ _ _ _ Hnd).
Qed.
Lemma implements_distributed N up G c r h a d b :
  implements seg n L N up G c → 0 ≤ r < n → n ≤ two16 → (n + 1) * L < two64 → area_at r seg c = Some a → m_handles a !! h = Some d → is_global d = true →
  b ∈ m_com_handles a → ∃ db, distributed n L r seg b h d db c.
Proof.
  intros Hi Hr Hn HL Ha Hd Hg Hb. destruct (implements_area _ _ _ _ r Hi Hr) as (a' & Ha' & Hrep). rewrite Ha in Ha'. injection Ha' as <-.
  destruct (re_pool _ _ _ _ _ _ Hrep b Hb) as (db & Hdb & Hgb & Ho & Hs). exists db.
  destruct (table_within a h d (re_ok _ _ _ _ _ _ Hrep) Hd) as (W1 & W2 & W3). destruct (table_within a _ db (re_ok _ _ _ _ _ _ Hrep) Hdb) as (V1 & V2 & V3).
  rewrite (re_size _ _ _ _ _ _ Hrep) in *. pose proof (re_sizes _ _ _ _ _ _ Hrep h d Hd Hg) as Hsz.
  assert (h ≠ b_handle b) as Hne by (intros ->; congruence).
  pose proof (table_apart a h d (b_handle b) db (re_ok _ _ _ _ _ _ Hrep) Hd Hdb Hne) as Hap.
  split; try done; try nia.
  - intros q Hq. destruct (implements_area _ _ _ _ q Hi Hq) as (aq & Haq & Hrq). exists aq. split; [done|]. apply (re_size _ _ _ _ _ _ Hrq).
  - exists a. done.
Qed.

(** ** Direct copies *)
Section direct.
Context (r sseg : Z) (hs hd : Z) (ds d : descriptor).
(** the allocation as node [r] sees it *)
Record seen (c : cluster) (a : area) : Prop := {
  se_rank : 0 ≤ r < n;
  se_area : area_at r seg c = Some a;
  se_type : a_type a = SEG_GASPI;
  se_size : a_local_size a = L;
  se_handle : m_handles a !! hd = Some d;
  se_global : is_global d = true;
  se_part : 0 < d_local_size d ∧ 0 ≤ d_offset d ∧ d_offset d + d_local_size d ≤ L;
  se_total : 0 < d_size d ≤ n * d_local_size d;
  se_bounded : (n + 1) * L < two64
}.
Definition own_range (off m : Z) : bool :=
  (r * d_local_size d <=? off) && (off + m <=? Z.min ((r + 1) * d_local_size d) (d_size d)).
Lemma seen_bound c a : seen c a → 0 ≤ r * d_local_size d ∧ (r + 1) * d_local_size d < two64 ∧ n * d_local_size d < two64.
Proof. intros [? _ _ _ _ _ ? ? ?]. nia. Qed.
Lemma seen_checks c a off m :
  seen c a → 0 ≤ off → 0 < m → off + m ≤ d_size d →
  check_bounds (mk_location hd off) m a = Ret tt ∧ is_local r (mk_location hd off) m a = Ret (own_range off m) ∧
  location_to_offset (mk_location hd off) a = Ret (d_offset d + off mod d_local_size d) ∧
  area_ptr seg a (d_offset d + off mod d_local_size d) = Some (seg, d_offset d + off mod d_local_size d).
Proof.
  intros Hs Ho Hm Hle. destruct (seen_bound _ _ Hs) as (B1 & B2 & B3). destruct Hs as [S1 S2 S3 S4 S5 S6 S7 S8 S9].
  pose proof (Z.mod_pos_bound off (d_local_size d) ltac:(lia)) as Hmod.
  assert (HLb : L < two64) by nia.
  assert (w64 (off + m) = off + m) as Hwm by (apply w64_small; unfold is_w64; lia).
  unfold check_bounds, is_local, location_to_offset, find_handle, is_range_local, area_ptr, raw_ptr. cbn [l_handle l_offset].
  rewrite S5. unfold mbind, outcome_bind. cbn [or_throw]. rewrite S3, S4, Hwm. split_and!.
  - by rewrite (proj2 (Z.ltb_lt _ _)), (proj2 (Z.leb_le _ _)) by lia.
  - change (SEG_GASPI =? SEG_GASPI) with true. cbn iota. unfold is_global in S6. rewrite S6. rewrite !w64_small by (unfold is_w64; lia).
    unfold own_range. do 2 f_equal. destruct (Z.ltb_spec (d_size d) ((r + 1) * d_local_size d)); f_equal; lia.
  - rewrite (proj2 (Z.eqb_neq _ _)), w64_small by (unfold is_w64; lia). done.
  - change (SEG_GASPI =? SEG_BEEGFS) with false. cbn iota. by rewrite (proj2 (Z.ltb_lt _ _)) by lia.
Qed.
Lemma own_range_home off m i :
  0 < d_local_size d → 0 ≤ r → own_range off m = true → 0 ≤ i < m →
  home (d_offset d) (d_local_size d) (off + i) = (r, d_offset d + off mod d_local_size d + i) ∧ off mod d_local_size d + m ≤ d_local_size d.
Proof.
  intros Hp Hr [H1'%Z.leb_le H2'%Z.leb_le]%andb_true_iff Hi. set (l := d_local_size d) in *.
  assert (off / l = r) as Hq by (symmetry; apply (Z.div_unique off l r (off - r * l)); lia).
  pose proof (Z.div_mod off l ltac:(lia)) as Hdm. rewrite Hq in Hdm.
  unfold home. assert ((off + i) / l = r) as -> by (symmetry; apply (Z.div_unique (off + i) l r (off + i - r * l)); lia).
  assert ((off + i) mod l = off mod l + i) as -> by (symmetry; apply (Z.mod_unique (off + i) l r); lia).
  split; [f_equal|]; lia.
Qed.
(** moving bytes between the two areas of the node *)
Lemma write_to_part c a s so off m :
  seen c a → mapped r sseg hs ds c s → 0 ≤ so → 0 ≤ off → 0 < m → so + m ≤ d_size ds → off + m ≤ d_size d → own_range off m = true →
  write_to r seg (mk_location hd off) (Some (sseg, d_offset ds + so)) m c =
  (Ret m, on_area r seg (set_memory (write_bytes (d_offset d + off mod d_local_size d) m (λ i, memory s (d_offset ds + so + i)))) c).
Proof.
  intros Hs Hm Hso Ho Hm0 Hle1 Hle2 Hown. destruct (seen_checks c a off m Hs) as (K1 & K2 & K3 & K4); [done..|]. rewrite Hown in K2.
  destruct (own_range_home off m 0) as [_ Hin]; [apply Hs|apply Hs|done|lia|]. pose proof (se_area _ _ Hs) as Ha. pose proof (mp_area _ _ _ _ _ _ Hm) as Hsa.
  unfold write_to. rewrite (bind_eq _ _ _ tt c) by (rewrite (ask_run _ _ _ _ a), K1 by done; done).
  rewrite (bind_eq _ _ _ true c) by (rewrite (ask_run _ _ _ _ a), K2 by done; done).
  rewrite (bind_eq _ _ _ (d_offset d + off mod d_local_size d) c) by (rewrite (ask_run _ _ _ _ a), K3 by done; done).
  unfold write_to_impl. rewrite (bind_eq _ _ _ a c) by (by apply the_area_run). rewrite (se_type _ _ Hs).
  change (SEG_GASPI =? SEG_BEEGFS) with false. cbn iota. rewrite K4. set (c' := on_area _ _ _ _). rewrite (bind_eq _ _ _ tt c'); [done|].
  unfold memmove. rewrite (bind_eq _ _ _ s c), (bind_eq _ _ _ a c) by (by apply the_area_run).
  unfold in_memory. pose proof (mp_within _ _ _ _ _ _ Hm). pose proof (se_part _ _ Hs). pose proof (Z.mod_pos_bound off (d_local_size d) ltac:(lia)).
  rewrite (se_size _ _ Hs). rewrite !(proj2 (Z.leb_le _ _)) by lia. done.
Qed.
Lemma write_to_mapped_directly c a s so off m :
  seen c a → mapped r sseg hs ds c s → 0 ≤ so → 0 ≤ off → 0 < m → so + m ≤ d_size ds → off + m ≤ d_size d → own_range off m = true →
  write_to r sseg (mk_location hs so) (Some (seg, d_offset d + off mod d_local_size d)) m c =
  (Ret m, on_area r sseg (set_memory (write_bytes (d_offset ds + so) m (λ i, memory a (d_offset d + off mod d_local_size d + i)))) c).
Proof.
  intros Hs Hm Hso Ho Hm0 Hle1 Hle2 Hown. destruct (mapped_checks r sseg hs ds c s so m Hm) as (K1 & K2 & K3 & K4); [lia..|].
  destruct (own_range_home off m 0) as [_ Hin]; [apply Hs|apply Hs|done|lia|]. pose proof (se_area _ _ Hs) as Ha. pose proof (mp_area _ _ _ _ _ _ Hm) as Hsa.
  unfold write_to. rewrite (bind_eq _ _ _ tt c) by (rewrite (ask_run _ _ _ _ s), K1 by done; done).
  rewrite (bind_eq _ _ _ true c) by (rewrite (ask_run _ _ _ _ s), K2 by done; done).
  rewrite (bind_eq _ _ _ (d_offset ds + so) c) by (rewrite (ask_run _ _ _ _ s), K3 by done; done).
  unfold write_to_impl. rewrite (bind_eq _ _ _ s c) by (by apply the_area_run). rewrite (mp_type _ _ _ _ _ _ Hm).
  change (SEG_SHM =? SEG_BEEGFS) with false. cbn iota. rewrite K4. set (c' := on_area _ _ _ _). rewrite (bind_eq _ _ _ tt c'); [done|].
  unfold memmove. rewrite (bind_eq _ _ _ a c), (bind_eq _ _ _ s c) by (by apply the_area_run).
  unfold in_memory. pose proof (mp_within _ _ _ _ _ _ Hm). pose proof (se_part _ _ Hs). pose proof (Z.mod_pos_bound off (d_local_size d) ltac:(lia)).
  rewrite (se_size _ _ Hs). rewrite !(proj2 (Z.leb_le _ _)) by lia. done.
Qed.
End direct.

(** ** From the request to the answer *)
Definition copy (r : Z) (dst src : location) (m : Z) : M cluster thrown unit :=
  memcpy r dst src m ≫= λ id, work r ≫= λ _, wait r id.
(** no copy waits for a thread *)
Definition idle (c : cluster) : Prop := ∀ q nd, 0 ≤ q → node_at q c = Some nd → tasks nd = [].
(** the task was taken by a thread *)
Definition begun (r : Z) : cluster → cluster :=
  on_node r (λ nd, set_tasks (w64 (next_memcpy_id nd + 1)) (<[next_memcpy_id nd := None]>) (λ l, l) nd).
Lemma area_at_tasks q k r i f g c : 0 ≤ q → 0 ≤ r → area_at q k (on_node r (λ nd, set_tasks (i nd) (f nd) (g nd) nd) c) = area_at q k c.
Proof.
  intros Hq Hr. unfold area_at. rewrite node_at_on_node by done. destruct (decide (q = r)) as [->|]; [|done]. by destruct (node_at r c).
Qed.
Lemma get_area_by_handle_run r h k a c nd :
  node_at r c = Some nd → m_handle_to_segment nd !! h = Some k → area_at r k c = Some a → get_area_by_handle r h c = (Ret k, c).
Proof. intros Hnd Hh Ha. unfold get_area_by_handle. rewrite bind_get, Hnd. simpl. rewrite Hh. by rewrite (bind_eq _ _ _ a c) by (by apply get_area_run). Qed.
(** [loc] is a location of node [r], in segment [k] *)
Definition reachable (r : Z) (loc : location) (m k : Z) (c : cluster) : Prop :=
  ∃ nd a, node_at r c = Some nd ∧ m_handle_to_segment nd !! l_handle loc = Some k ∧ area_at r k c = Some a ∧ check_bounds loc m a = Ret tt.
Lemma reachable_run r loc m k c : reachable r loc m k c → get_area_by_handle r (l_handle loc) c = (Ret k, c) ∧ ask r k (check_bounds loc m) c = (Ret tt, c).
Proof.
  intros (nd & a & Hnd & Hk & Ha & Hc). split; [by apply (get_area_by_handle_run r _ k a c nd)|]. by rewrite (ask_run _ _ _ _ a), Hc.
Qed.
Lemma memcpy_run r dst src m c nd sk dk t :
  0 ≤ r → node_at r c = Some nd → reachable r src m sk c → reachable r dst m dk c → get_transfer_task r sk src dk dst m c = (Ret t, c) →
  memcpy r dst src m c = (Ret (next_memcpy_id nd), on_node r (set_tasks (w64 (next_memcpy_id nd + 1)) (<[next_memcpy_id nd := None]>) (.++ [(next_memcpy_id nd, t)])) c).
Proof.
  intros Hr Hnd [S1 S2]%reachable_run [D1 D2]%reachable_run Ht. unfold memcpy. rewrite (bind_eq _ _ _ sk c S1), (bind_eq _ _ _ dk c D1).
  rewrite (bind_eq _ _ _ tt c D2), (bind_eq _ _ _ tt c S2), (bind_eq _ _ _ t c Ht), bind_get, Hnd. done.
Qed.
Lemma copy_run r dst src m c sk dk t c2 :
  0 ≤ r → idle c → reachable r src m sk c → reachable r dst m dk c → get_transfer_task r sk src dk dst m c = (Ret t, c) →
  run_task r t (begun r c) = (Ret tt, c2) → same_shape (begun r c) c2 →
  ∃ c3, copy r dst src m c = (Ret tt, c3) ∧ idle c3 ∧ quiet c c3 ∧ ∀ q k, 0 ≤ q → area_at q k c3 = area_at q k c2.
Proof.
  intros Hr Hidle Hsrc Hdst Ht Hrun (_ & _ & Hb & _). destruct Hsrc as (nd & sa & Hnd & Hsrc). pose proof (Hidle r nd Hr Hnd) as Hnil.
  assert (Hsrc' : reachable r src m sk c) by (by exists nd, sa). pose proof (memcpy_run r dst src m c nd sk dk t Hr Hnd Hsrc' Hdst Ht) as E1.
  set (id := next_memcpy_id nd) in *. set (c1 := on_node r _ c) in E1.
  assert (Hnd1 : node_at r c1 = Some (set_tasks (w64 (id + 1)) (<[id := None]>) (.++ [(id, t)]) nd)) by (unfold c1; by rewrite node_at_on_node, decide_True, Hnd).
  assert (Htake : take_task r c1 = begun r c).
  { unfold take_task, c1, begun. rewrite on_node_on_node. apply (on_node_ext _ _ _ _ nd Hnd). simpl. unfold set_tasks. simpl. by rewrite Hnil. }
  assert (E2 : work r c1 = (Ret tt, finish r id (Ret tt) c2)).
  { unfold work. rewrite Hnd1. cbn. rewrite Hnil. cbn [head app]. rewrite Htake, Hrun. done. }
  assert (Hbooks : ∀ q, 0 ≤ q → bookkeeping <$> node_at q c2 = if decide (q = r) then Some (bookkeeping (set_tasks (w64 (id + 1)) (<[id := None]>) (λ l, l) nd)) else bookkeeping <$> node_at q c).
  { intros q Hq. rewrite Hb. unfold begun. rewrite node_at_on_node by done. destruct (decide (q = r)) as [->|]; [|done]. by rewrite Hnd. }
  pose proof (Hbooks r Hr) as Hbr. rewrite decide_True in Hbr by done. apply fmap_Some in Hbr as (nd2 & Hnd2 & Hbr).
  assert (task_by_id nd2 = <[id := None]> (task_by_id nd) ∧ tasks nd2 = []) as [T1 T2] by (destruct nd2; simpl in *; injection Hbr; intros; subst; done).
  set (c3 := on_node r (λ n, set_tasks (next_memcpy_id n) (delete id) (λ l, l) n) (finish r id (Ret tt) c2)).
  assert (E3 : wait r id (finish r id (Ret tt) c2) = (Ret tt, c3)).
  { unfold wait. rewrite bind_get. unfold finish at 1. rewrite node_at_on_node, decide_True, Hnd2 by done. cbn. rewrite T1, lookup_alter_eq, lookup_insert_eq. done. }
  exists c3. assert (E : copy r dst src m c = (Ret tt, c3)).
  { unfold copy. rewrite (bind_eq _ _ _ _ _ E1), (bind_eq _ _ _ _ _ E2). exact E3. }
  split_and!; [done| | |].
  - intros q x Hq. unfold c3, finish. rewrite node_at_on_node by done. destruct (decide (q = r)) as [->|Hne].
    + rewrite node_at_on_node, decide_True, Hnd2 by done. by intros [= <-].
    + rewrite node_at_on_node, decide_False by done. intros Hx. pose proof (Hbooks q Hq) as Hbq. rewrite decide_False, Hx in Hbq by done. simpl in Hbq.
      symmetry in Hbq. apply fmap_Some in Hbq as (y & Hy & Hbq). pose proof (Hidle q y Hq Hy). destruct x, y. simpl in *. by injection Hbq; intros; subst.
  - assert (preserves (quiet c) (copy r dst src m)) as Hp.
    { apply preserves_bind; [by apply keeps_memcpy|]. intros id'. apply preserves_bind; [by apply keeps_work|]. intros _. by apply keeps_wait. }
    specialize (Hp c ltac:(done)). by rewrite E in Hp.
  - intros q k Hq. unfold c3, finish. by rewrite (area_at_tasks _ _ _ _ (λ _, _) (λ _, _)), (area_at_tasks _ _ _ _ (λ _, _) (λ _, _)) by done.
Qed.
(** ** Storing into and loading from a distributed allocation *)
Section allocation.
Context (r sseg hs hd : Z) (ds d : descriptor).
Context (Hother : sseg ≠ seg).
(** everything that a copy of [m] bytes between the two allocations needs *)
Record copy_ok (N : Z) (up : tmmgr.type) (G : gmap Z Z) (so off m : Z) (c : cluster) (s a : area) : Prop := {
  co_implements : implements seg n L N up G c;
  co_nodes : n ≤ two16;
  co_idle : idle c;
  co_pool : pool r seg c ≠ [];
  co_seen : seen r hd d c a;
  co_mapped : mapped r sseg hs ds c s;
  co_known : ∃ nd, node_at r c = Some nd ∧ m_handle_to_segment nd !! hs = Some sseg;
  co_source : 0 ≤ so ∧ so + m ≤ d_size ds;
  co_range : 0 ≤ off ∧ 0 < m ∧ off + m ≤ d_size d
}.
Lemma begun_area q k c : 0 ≤ q → 0 ≤ r → area_at q k (begun r c) = area_at q k c.
Proof. intros Hq Hr. by apply (area_at_tasks q k r _ (λ nd, _) (λ nd, _)). Qed.
Lemma begun_seen c a : seen r hd d c a → seen r hd d (begun r c) a.
Proof. intros [S1 S2 S3 S4 S5 S6 S7 S8 S9]. split; try done. by rewrite begun_area by lia. Qed.
Lemma begun_mapped c s : 0 ≤ r → mapped r sseg hs ds c s → mapped r sseg hs ds (begun r c) s.
Proof. intros Hr [S1 S2 S3 S4 S5 S6]. split; try done. by rewrite begun_area by lia. Qed.
Lemma begun_distributed buf db c : distributed n L r seg buf hd d db c → distributed n L r seg buf hd d db (begun r c).
Proof.
  intros [S1 S2 S3 S4 S5 S6 S7 S8 S9]. split; try done; [|by rewrite begun_area by lia].
  intros q Hq. rewrite begun_area by lia. by apply S1.
Qed.
Lemma begun_parts c q : 0 ≤ q → 0 ≤ r → segment_parts seg (begun r c) q = segment_parts seg c q.
Proof. intros Hq Hr. unfold segment_parts. by rewrite begun_area by done. Qed.
Lemma mapped_reachable N up G so off m c s a : copy_ok N up G so off m c s a → reachable r (mk_location hs so) m sseg c.
Proof.
  intros [C1 C2 C3 C4 C5 C6 (nd & Hnd & Hk) [C8 C8'] (C9 & C9' & C9'')]. exists nd, s. split_and!; [done..|apply C6|].
  by destruct (mapped_checks r sseg hs ds c s so m C6 C8 C9' C8') as (? & _).
Qed.
Lemma global_reachable N up G so off m c s a : copy_ok N up G so off m c s a → reachable r (mk_location hd off) m seg c.
Proof.
  intros [C1 C2 C3 C4 C5 C6 (nd & Hnd & _) _ (C9 & C9' & C9'')]. exists nd, a. split_and!; [done| |apply C5|].
  - pose proof C1 as (K & _ & _ & Hok). pose proof (se_rank _ _ _ _ _ C5) as Hr. destruct (Hok r nd ltac:(lia) Hnd) as [(a' & Ha' & Hrep) Hk _ _].
    pose proof (se_area _ _ _ _ _ C5) as Ha. rewrite (area_at_node _ _ _ _ Hnd), Ha' in Ha. injection Ha as ->.
    apply Hk. exists (d_size d). apply (re_table _ _ _ _ _ _ Hrep). exists d. split_and!; [apply C5|apply C5|done].
  - by destruct (seen_checks r hd d c a off m C5 C9 C9' C9'') as (? & _).
Qed.
Lemma copy_buffer N up G so off m c s a :
  copy_ok N up G so off m c s a → ∃ buf rest db, pool r seg c = buf :: rest ∧ distributed n L r seg buf hd d db c.
Proof.
  intros [C1 C2 C3 C4 C5 C6 _ _ _]. pose proof (se_area _ _ _ _ _ C5) as Ha. unfold pool in *. rewrite Ha in *. simpl in *.
  destruct (m_com_handles a) as [|buf rest] eqn:Hp; [done|]. exists buf, rest.
  destruct (implements_distributed N up G c r hd a d buf C1) as [db Hdb]; [apply C5|done|apply C5|done|apply C5|apply C5|rewrite Hp; by left|]. by exists db.
Qed.
(** which task the request makes *)
Lemma store_task N up G so off m c s a :
  copy_ok N up G so off m c s a →
  get_transfer_task r sseg (mk_location hs so) seg (mk_location hd off) m c =
  (Ret (if own_range r d off m then write_task seg (mk_location hd off) (Some (sseg, d_offset ds + so)) m
        else send_task seg sseg (mk_location hs so) (mk_location hd off) m), c).
Proof.
  intros [C1 C2 C3 C4 C5 C6 _ [C8 C8'] (C9 & C9' & C9'')].
  destruct (mapped_checks r sseg hs ds c s so m C6 C8 C9' C8') as (_ & M2 & M3 & M4).
  destruct (seen_checks r hd d c a off m C5 C9 C9' C9'') as (_ & K2 & K3 & K4).
  pose proof (mp_area _ _ _ _ _ _ C6) as Hs. pose proof (se_area _ _ _ _ _ C5) as Ha. unfold get_transfer_task.
  rewrite (bind_eq _ _ _ true c) by (rewrite (ask_run _ _ _ _ s), M2 by done; done).
  rewrite (bind_eq _ _ _ (own_range r d off m) c) by (rewrite (ask_run _ _ _ _ a), K2 by done; done).
  destruct (own_range r d off m) eqn:Hown; cbn [andb].
  - rewrite (bind_eq _ _ _ (Some (write_task seg (mk_location hd off) (Some (sseg, d_offset ds + so)) m)) c); [done|].
    rewrite (bind_eq _ _ _ (raw_ptr s (d_offset ds + so)) c) by (rewrite (ask_run _ _ _ _ s) by done; unfold pointer_to; by rewrite M3).
    rewrite (bind_eq _ _ _ (raw_ptr a (d_offset d + off mod d_local_size d)) c) by (rewrite (ask_run _ _ _ _ a) by done; unfold pointer_to; by rewrite K3).
    unfold area_ptr in M4. apply fmap_Some in M4 as (x & -> & [= <-]). done.
  - rewrite (bind_eq _ _ _ None c) by done. unfold get_send_task. rewrite (bind_eq _ _ _ a c) by (by apply the_area_run). by rewrite (se_type _ _ _ _ _ C5).
Qed.
Lemma load_task N up G so off m c s a :
  copy_ok N up G so off m c s a →
  get_transfer_task r seg (mk_location hd off) sseg (mk_location hs so) m c =
  (Ret (if own_range r d off m then write_task sseg (mk_location hs so) (Some (seg, d_offset d + off mod d_local_size d)) m
        else recv_task seg sseg (mk_location hs so) (mk_location hd off) m), c).
Proof.
  intros [C1 C2 C3 C4 C5 C6 _ [C8 C8'] (C9 & C9' & C9'')].
  destruct (mapped_checks r sseg hs ds c s so m C6 C8 C9' C8') as (_ & M2 & M3 & M4).
  destruct (seen_checks r hd d c a off m C5 C9 C9' C9'') as (_ & K2 & K3 & K4).
  pose proof (mp_area _ _ _ _ _ _ C6) as Hs. pose proof (se_area _ _ _ _ _ C5) as Ha. unfold get_transfer_task.
  rewrite (bind_eq _ _ _ (own_range r d off m) c) by (rewrite (ask_run _ _ _ _ a), K2 by done; done).
  rewrite (bind_eq _ _ _ true c) by (rewrite (ask_run _ _ _ _ s), M2 by done; done).
  destruct (own_range r d off m) eqn:Hown; cbn [andb].
  - rewrite (bind_eq _ _ _ (Some (write_task sseg (mk_location hs so) (Some (seg, d_offset d + off mod d_local_size d)) m)) c); [done|].
    rewrite (bind_eq _ _ _ (raw_ptr a (d_offset d + off mod d_local_size d)) c) by (rewrite (ask_run _ _ _ _ a) by done; unfold pointer_to; by rewrite K3).
    rewrite (bind_eq _ _ _ (raw_ptr s (d_offset ds + so)) c) by (rewrite (ask_run _ _ _ _ s) by done; unfold pointer_to; by rewrite M3).
    unfold area_ptr in K4. apply fmap_Some in K4 as (x & -> & [= <-]). done.
  - rewrite (bind_eq _ _ _ None c) by done. unfold get_recv_task. rewrite (bind_eq _ _ _ a c) by (by apply the_area_run). by rewrite (se_type _ _ _ _ _ C5).
Qed.
(** only bytes of the range and of communication buffers change *)
Definition untouched (off m : Z) (c : cluster) (q o : Z) : Prop :=
  0 ≤ q < n ∧ ¬ places d off m (q, o) ∧ ∀ b, b ∈ pool r seg c → ¬ (q = r ∧ bytes_of (b_data b) (hb_size b) o).
Lemma same_shape_pool c c' q k : same_shape c c' → 0 ≤ q → pool q k c' ≡ₚ pool q k c.
Proof. intros (_ & _ & _ & Hs) Hq. by apply Hs. Qed.
Lemma pool_areas c c' q k : area_at q k c' = area_at q k c → pool q k c' = pool q k c.
Proof. unfold pool. by intros ->. Qed.
Lemma parts_areas c c' q : area_at q seg c' = area_at q seg c → segment_parts seg c' q = segment_parts seg c q.
Proof. unfold segment_parts. by intros ->. Qed.

Lemma store_direct N up G so off m c s a :
  copy_ok N up G so off m c s a → own_range r d off m = true →
  ∃ c2, write_to r seg (mk_location hd off) (Some (sseg, d_offset ds + so)) m (begun r c) = (Ret m, c2) ∧ same_shape (begun r c) c2 ∧
    (∀ i, 0 ≤ i < m → byte (segment_parts seg c2) (home (d_offset d) (d_local_size d) (off + i)) = memory s (d_offset ds + so + i)) ∧
    (∀ q o, untouched off m c q o → segment_parts seg c2 q o = segment_parts seg c q o) ∧
    (∀ q k, 0 ≤ q → k ≠ seg → area_at q k c2 = area_at q k c).
Proof.
  intros [C1 C2 C3 C4 C5 C6 _ [C8 C8'] (C9 & C9' & C9'')] Hown. pose proof (se_rank _ _ _ _ _ C5) as Hr.
  pose proof (se_part _ _ _ _ _ C5) as (Hp & _). pose proof (se_area _ _ _ _ _ C5) as Ha.
  rewrite (write_to_part r sseg hs hd ds d (begun r c) a s so off m (begun_seen c a C5) (begun_mapped c s ltac:(lia) C6)) by done.
  set (w := write_bytes _ _ _). eexists. split; [done|]. split; [by apply same_shape_on_area; [lia|]|].
  assert (Hparts : ∀ q, 0 ≤ q → segment_parts seg (on_area r seg (set_memory w) (begun r c)) q = if decide (q = r) then w (memory a) else segment_parts seg c q).
  { intros q Hq. unfold segment_parts. rewrite area_at_on_area by lia. destruct (decide (q = r)) as [->|Hne].
    - by rewrite decide_True, begun_area, Ha by (lia || done).
    - rewrite decide_False by naive_solver. by rewrite begun_area by lia. }
  split_and!.
  - intros i Hi. destruct (own_range_home r d off m i Hp ltac:(lia) Hown Hi) as [-> _]. unfold byte. cbn [fst snd]. rewrite Hparts, decide_True by (lia || done).
    unfold w, write_bytes. rewrite (proj2 (Z.leb_le _ _)), (proj2 (Z.ltb_lt _ _)) by lia. cbn [andb]. f_equal. lia.
  - intros q o (Hq & Hno & _). rewrite Hparts by lia. destruct (decide (q = r)) as [->|]; [|done]. unfold w, write_bytes, segment_parts. rewrite Ha.
    destruct (Z.leb_spec (d_offset d + off mod d_local_size d) o), (Z.ltb_spec o (d_offset d + off mod d_local_size d + m)); try done. cbn [andb].
    destruct Hno. exists (o - (d_offset d + off mod d_local_size d)). split; [lia|].
    destruct (own_range_home r d off m (o - (d_offset d + off mod d_local_size d)) Hp ltac:(lia) Hown ltac:(lia)) as [-> _]. f_equal. lia.
  - intros q k Hq Hk. rewrite area_at_on_area, decide_False by (lia || naive_solver). by apply begun_area; [|lia].
Qed.
Lemma store_run N up G so off m c s a :
  copy_ok N up G so off m c s a →
  ∃ c', copy r (mk_location hd off) (mk_location hs so) m c = (Ret tt, c') ∧ idle c' ∧ quiet c c' ∧ (∀ q k, 0 ≤ q → pool q k c' ≡ₚ pool q k c) ∧
    (∀ i, 0 ≤ i < m → byte (segment_parts seg c') (home (d_offset d) (d_local_size d) (off + i)) = memory s (d_offset ds + so + i)) ∧
    (∀ q o, untouched off m c q o → segment_parts seg c' q o = segment_parts seg c q o) ∧
    (∀ q k, 0 ≤ q → k ≠ seg → area_at q k c' = area_at q k c).
Proof.
  intros Hc. pose proof Hc as [C1 C2 C3 C4 C5 C6 _ [C8 C8'] (C9 & C9' & C9'')]. pose proof (se_rank _ _ _ _ _ C5) as Hr.
  pose proof (se_part _ _ _ _ _ C5) as (Hp & _). pose proof (store_task N up G so off m c s a Hc) as Ht.
  assert (∃ c2, run_task r (if own_range r d off m then write_task seg (mk_location hd off) (Some (sseg, d_offset ds + so)) m
        else send_task seg sseg (mk_location hs so) (mk_location hd off) m) (begun r c) = (Ret tt, c2) ∧ same_shape (begun r c) c2 ∧
    (∀ i, 0 ≤ i < m → byte (segment_parts seg c2) (home (d_offset d) (d_local_size d) (off + i)) = memory s (d_offset ds + so + i)) ∧
    (∀ q o, untouched off m c q o → segment_parts seg c2 q o = segment_parts seg c q o) ∧
    (∀ q k, 0 ≤ q → k ≠ seg → area_at q k c2 = area_at q k c)) as (c2 & E & Hs & B1 & B2 & B3).
  { destruct (own_range r d off m) eqn:Hown.
    - destruct (store_direct N up G so off m c s a Hc Hown) as (c2 & E & R). exists c2. split; [|done]. cbn [run_task]. by rewrite (bind_eq _ _ _ _ _ E).
    - destruct (copy_buffer N up G so off m c s a Hc) as (buf & rest & db & Hpool & Hd).
      destruct (do_send_run n L r seg sseg buf hs hd ds d db Hother (begun r c) s rest so off m) as (c2 & E & S1 & S2 & S3 & S4);
        [apply begun_mapped; [lia|done]|by apply begun_distributed|unfold pool in *; rewrite begun_area by lia; done|lia..|].
      exists c2. split_and!; [done..| |].
      + intros q o (Hq & H1' & H2'). rewrite S3; [by rewrite begun_parts by lia|done..|]. apply H2'. rewrite Hpool. by left.
      + intros q k Hq Hk. rewrite S4 by done. apply begun_area; lia. }
  destruct (copy_run r (mk_location hd off) (mk_location hs so) m c sseg seg _ c2 ltac:(lia) C3 (mapped_reachable N up G so off m c s a Hc)
    (global_reachable N up G so off m c s a Hc) Ht E Hs) as (c3 & E3 & Hi & Hq & Ha).
  exists c3. split_and!; [done..| | | |].
  - intros q k Hq0. rewrite (pool_areas c2 c3) by (by apply Ha). rewrite (same_shape_pool _ _ _ _ Hs Hq0). unfold pool. by rewrite begun_area by lia.
  - intros i Hi'. unfold byte. rewrite (parts_areas c2 c3) by (apply Ha; unfold home; simpl; apply Z.div_pos; lia). by apply B1.
  - intros q o Hu. rewrite (parts_areas c2 c3) by (apply Ha; apply Hu). by apply B2.
  - intros q k Hq0 Hk. rewrite Ha by done. by apply B3.
Qed.
Lemma load_run N up G so off m c s a :
  copy_ok N up G so off m c s a →
  ∃ c' s', copy r (mk_location hs so) (mk_location hd off) m c = (Ret tt, c') ∧ idle c' ∧ quiet c c' ∧ (∀ q k, 0 ≤ q → pool q k c' ≡ₚ pool q k c) ∧
    area_at r sseg c' = Some s' ∧
    (∀ i, 0 ≤ i < m → memory s' (d_offset ds + so + i) = byte (segment_parts seg c) (home (d_offset d) (d_local_size d) (off + i))) ∧
    (∀ o, ¬ bytes_of (d_offset ds + so) m o → memory s' o = memory s o) ∧
    (∀ q o, untouched off 0 c q o → segment_parts seg c' q o = segment_parts seg c q o) ∧
    (∀ q k, 0 ≤ q → k ≠ seg → (q, k) ≠ (r, sseg) → area_at q k c' = area_at q k c).
Proof.
  intros Hc. pose proof Hc as [C1 C2 C3 C4 C5 C6 _ [C8 C8'] (C9 & C9' & C9'')]. pose proof (se_rank _ _ _ _ _ C5) as Hr.
  pose proof (se_part _ _ _ _ _ C5) as (Hp & _). pose proof (load_task N up G so off m c s a Hc) as Ht. pose proof (se_area _ _ _ _ _ C5) as Ha0.
  assert (∃ c2 s', run_task r (if own_range r d off m then write_task sseg (mk_location hs so) (Some (seg, d_offset d + off mod d_local_size d)) m
        else recv_task seg sseg (mk_location hs so) (mk_location hd off) m) (begun r c) = (Ret tt, c2) ∧ same_shape (begun r c) c2 ∧
    area_at r sseg c2 = Some s' ∧
    (∀ i, 0 ≤ i < m → memory s' (d_offset ds + so + i) = byte (segment_parts seg c) (home (d_offset d) (d_local_size d) (off + i))) ∧
    (∀ o, ¬ bytes_of (d_offset ds + so) m o → memory s' o = memory s o) ∧
    (∀ q o, untouched off 0 c q o → segment_parts seg c2 q o = segment_parts seg c q o) ∧
    (∀ q k, 0 ≤ q → k ≠ seg → (q, k) ≠ (r, sseg) → area_at q k c2 = area_at q k c)) as (c2 & s' & E & Hs & B0 & B1 & B2 & B3 & B4).
  { destruct (own_range r d off m) eqn:Hown.
    - pose proof (write_to_mapped_directly r sseg hs hd ds d (begun r c) a s so off m (begun_seen c a C5) (begun_mapped c s ltac:(lia) C6)) as E.
      specialize (E ltac:(lia) ltac:(lia) ltac:(lia) ltac:(lia) ltac:(lia) Hown). set (w := write_bytes _ _ _) in E. eexists _, (set_memory w s).
      cbn [run_task]. rewrite (bind_eq _ _ _ _ _ E). split; [done|]. split; [by apply same_shape_on_area; [lia|]|]. split_and!.
      + rewrite area_at_on_area, decide_True, begun_area by (lia || done). by rewrite (mp_area _ _ _ _ _ _ C6).
      + intros i Hi. destruct (own_range_home r d off m i Hp ltac:(lia) Hown Hi) as [-> _]. unfold byte, segment_parts. cbn [fst snd]. rewrite Ha0.
        unfold w, write_bytes. cbn [memory set_memory]. rewrite (proj2 (Z.leb_le _ _)), (proj2 (Z.ltb_lt _ _)) by lia. cbn [andb]. f_equal. lia.
      + intros o Ho. unfold w, write_bytes, bytes_of in *. cbn [memory set_memory].
        destruct (Z.leb_spec (d_offset ds + so) o), (Z.ltb_spec o (d_offset ds + so + m)); done || lia.
      + intros q o (Hq & _ & _). rewrite <- (begun_parts c q) by lia. rewrite (parts_areas (begun r c)); [done|]. by rewrite area_at_on_area, decide_False by (lia || naive_solver).
      + intros q k Hq Hk Hqk. rewrite area_at_on_area, decide_False by (lia || naive_solver). apply begun_area; lia.
    - destruct (copy_buffer N up G so off m c s a Hc) as (buf & rest & db & Hpool & Hd).
      destruct (do_recv_run n L r seg sseg buf hs hd ds d db Hother (begun r c) s rest so off m) as (c2 & s' & E & S1 & S2 & S3 & S4 & S5 & S6);
        [apply begun_mapped; [lia|done]|by apply begun_distributed|unfold pool in *; rewrite begun_area by lia; done|lia..|].
      exists c2, s'. split_and!; [done..| |done| |].
      + intros i Hi. rewrite S3 by done. unfold byte. rewrite begun_parts; [done|unfold home; simpl; apply Z.div_pos; lia|lia].
      + intros q o (Hq & _ & H2'). rewrite S5; [by rewrite begun_parts by lia|done..|]. apply H2'. rewrite Hpool. by left.
      + intros q k Hq Hk Hqk. rewrite S6 by done. apply begun_area; lia. }
  destruct (copy_run r (mk_location hs so) (mk_location hd off) m c seg sseg _ c2 ltac:(lia) C3 (global_reachable N up G so off m c s a Hc)
    (mapped_reachable N up G so off m c s a Hc) Ht E Hs) as (c3 & E3 & Hi & Hq & Ha).
  exists c3, s'. split_and!; [done..| | |done|done| |].
  - intros q k Hq0. rewrite (pool_areas c2 c3) by (by apply Ha). rewrite (same_shape_pool _ _ _ _ Hs Hq0). unfold pool. by rewrite begun_area by lia.
  - by rewrite Ha by lia.
  - intros q o Hu. rewrite (parts_areas c2 c3) by (apply Ha; apply Hu). by apply B3.
  - intros q k Hq0 Hk Hqk. rewrite Ha by done. by apply B4.
Qed.
End allocation.
End copies.
End copies.
