(* ===== verification/VmemTheorems.v ===== *)
(** * What the virtual memory promises

    The theorems about distributed segments: the nodes agree on allocations in every run, the
    cluster allocates like one memory manager, a transfer of a range is cut into pieces that
    are exactly the bytes of the range, and what a client of one node copies into a
    distributed allocation is what a client of another node copies out of it. *)

From S2P Require Import Prelude Value Token Bitset Function Position Num ReadShow Tokenizer Expr Parser ModuleCall Net NetFire ModuleRun Mmgr MmgrLayout MmgrSpec MmgrSafe VmemHandle VmemUrl VmemArea VmemAreaSpec VmemTransfer VmemTransferSpec VmemManager VmemReplicas VmemCluster VmemStart VmemCopy.

Module vmem_theorems.
Local Open Scope Z_scope.
Import Allocator module_run vmem_handle vmem area_spec transfer transfer_spec manager replicas beside runs start copies.

(** ** An example: two nodes *)
Definition small_syscalls : Syscalls := {| read_count := λ _ _ n, Ret n; write_count := λ _ _ n, Ret n |}.
(** every node has a shared memory object of 16 bytes, whose contents depend on the node *)
Definition small_machine : Machine := {|
  beegfs_testIsBeeGFS := λ _, false;
  beegfs_config := λ _, None;
  total_memory_size := λ _, 1024;
  shm_object := λ rank path, if bool_decide (path = "/shm") then Some (16, λ i, 100 * (rank + 1) + i) else None
|}.
Definition asserting : AssertMode := {| assert_throws := true |}.
Definition no_text : exn → string := λ _, "".

(** ** Pieces of a transfer *)
Section pieces.
Context `{Gaspi}.
(** C26: a range of a distributed allocation is split and cut into pieces that are, in order,
    exactly the bytes of the range: byte [i] of the buffer goes with the node and the place that hold
    byte [offset + i] of the allocation.  No piece is larger than what the network transfers at
    once, and a writer waits for as many notifications as pieces are sent. *)
Theorem pieces_are_the_range (local_offset remote_base offset per_node_size amount : Z) :
  0 < max_transfer_size → no_wrap local_offset remote_base offset per_node_size amount → remote_base + per_node_size < two64 →
  per_node_size + max_transfer_size < two64 →
  ∃ l k, split_by_rank (split_fuel per_node_size amount) local_offset remote_base offset per_node_size amount = Ret l ∧
    cut_parts max_transfer_size l = Ret k ∧ all_moved k = expected local_offset remote_base offset per_node_size amount ∧
    Forall (λ p, 0 < p_size p ≤ max_transfer_size) k ∧ number_of_chunks max_transfer_size l = Z.of_nat (length k).
Proof.
  intros Hmax Hw Hrb Hpn. pose proof Hw as (? & ? & ? & ? & Hm & ? & _).
  destruct (split_by_rank_spec (split_fuel per_node_size amount) local_offset remote_base offset per_node_size amount Hw) as (l & Hl & Hall & Hin).
  { right. by apply split_fuel_enough. }
  destruct (cut_parts_spec local_offset remote_base per_node_size amount l) as (k & Hk & Hall' & Hin'); [done..|].
  assert (total_size l = amount) as Ht.
  { rewrite total_size_moved, Hall; [|eapply Forall_impl; [exact Hin|]; unfold part_within; intros; lia].
    unfold expected. by rewrite length_fmap, length_seqZ, Z2Nat.id. }
  destruct (pieces_counted local_offset remote_base per_node_size amount l 0) as (k' & Hk' & _ & Hn); [done..|lia|].
  exists l, k. split_and!; [done|done|congruence| |].
  - eapply Forall_impl; [exact Hin'|]. unfold part_within. intros p Hp. lia.
  - unfold number_of_chunks. rewrite Hn. rewrite Hk in Hk'. injection Hk' as <-. lia.
Qed.
End pieces.
Lemma pieces_are_the_range_witness :
  let l := [mk_part 1 100 24 1; mk_part 2 101 20 5; mk_part 3 106 20 2] in
  split_by_rank (split_fuel 5 8) 100 20 9 5 8 = Ret l ∧
  ∃ k, cut_parts 3 l = Ret k ∧ all_moved k = expected 100 20 9 5 8 ∧ number_of_chunks 3 l = Z.of_nat (length k).
Proof.
  cbv zeta. split; [vm_compute; reflexivity|].
  destruct (@pieces_are_the_range small_gaspi 100 20 9 5 8) as (l & k & Hl & Hk & Hall & _ & Hn); [done|unfold no_wrap; vm_compute; repeat split; discriminate|done|done|].
  assert (l = [mk_part 1 100 24 1; mk_part 2 101 20 5; mk_part 3 106 20 2]) as -> by (vm_compute in Hl; by injection Hl as <-). by exists k.
Defined.
(** ** Agreement *)
Section agreement.
Context `{UnorderedMultiset} `{AssertMode} `{Unordered} `{HGS : GaspiSpec} `{Syscalls} `{Machine}.
Context (what : exn → string).

(** C17: after a client of freshly started nodes has added a distributed segment with
    fewer than 2^40 communication buffers for which all of at most 4096 nodes have
    memory ([request_ok]), clients of all nodes may make distributed allocations
    ([F_GLOBAL]) of at least one byte in it and release them, register shared memory,
    allocate and release there, copy and wait, with success or not, fewer than 2^64
    times together with the communication buffers; they make no allocations in the
    segment that are local to a node, allocate no empty ranges there, and remove no
    segments: at any time an allocation that one node has in the segment is known to
    every node, with the same size and at the same place; it is within the part of the
    segment that every node has, large enough for the allocation together, and apart
    from every other allocation and communication buffer. *)
Theorem nodes_agree (n total cs nb r proc : Z) :
  request_ok n total cs nb → 0 ≤ r < n →
  ∃ id, (add_memory what r proc (vmem_url.gaspi_info total cs nb) (boot n)).1 = Ret id ∧
    ∀ k c, nsteps (step what id n) k (add_memory what r proc (vmem_url.gaspi_info total cs nb) (boot n)).2 c → nb + Z.of_nat k < two64 →
      ∀ q q' a h d, 0 ≤ q < n → 0 ≤ q' < n → area_at q id c = Some a → m_handles a !! h = Some d → is_global d = true →
        (∃ a' d', area_at q' id c = Some a' ∧ m_handles a' !! h = Some d' ∧ is_global d' = true ∧
           d_size d' = d_size d ∧ d_local_size d' = d_local_size d ∧ d_offset d' = d_offset d) ∧
        0 ≤ d_offset d ∧ d_offset d + d_local_size d ≤ per_node n total cs nb ∧ 0 < d_size d ≤ n * d_local_size d ∧
        ∀ h' d', m_handles a !! h' = Some d' → h' ≠ h → d_offset d + d_local_size d ≤ d_offset d' ∨ d_offset d' + d_local_size d' ≤ d_offset d.
Proof.
  intros Hq Hr. destruct (add_memory_run what n total cs nb r proc Hq Hr) as (id & c0 & E & Hi & _). exists id. rewrite E. split; [done|].
  intros k c Hrun Hk q q' a h d Hq0 Hq0' Ha Hd Hg. destruct (run_implements what id n _ k nb _ _ c0 c Hi Hrun Hk) as (up & G & Hi').
  destruct (implements_area _ _ _ _ _ _ _ q Hi' Hq0) as (x & Hx & Hrep). rewrite Ha in Hx. injection Hx as <-.
  destruct (implements_area _ _ _ _ _ _ _ q' Hi' Hq0') as (a' & Ha' & _).
  destruct (implements_agree id n _ _ _ _ c q q' a a' h d Hi' ltac:(lia) ltac:(lia) Ha Ha' Hd Hg) as (d' & Hd').
  destruct (table_within a h d (re_ok _ _ _ _ _ _ Hrep) Hd) as (W1 & W2 & W3). rewrite (re_size _ _ _ _ _ _ Hrep) in W3.
  split_and!; [by exists a', d'|done|done|by apply (re_sizes _ _ _ _ _ _ Hrep h d Hd)..|].
  intros h' d2 Hd2 Hne. by apply (table_apart a h d h' d2 (re_ok _ _ _ _ _ _ Hrep)).
Qed.

(** C20: on nodes that have a distributed segment with the same allocations, all of them
    distributed, and fewer than 2^64 handles made so far ([implements]), all nodes
    together allocate and release like one memory manager: a distributed allocation
    ([F_GLOBAL]) of at least one byte, for a process, takes the place that [tmmgr] gives
    to the part of one node, on every node, with a handle that was not in use, or
    nothing changes, because [tmmgr] refuses it or the numbers of handles are used up;
    every allocation can be released, from every node; segments and areas that are not
    concerned stay as they are. *)
Theorem cluster_refines_arena (seg n L N : Z) (up : tmmgr.type) (G : gmap Z Z) (c : cluster) (r proc size : Z) (name : string) (flags : Z) :
  implements seg n L N up G c → 0 ≤ r < n → N + 1 < two64 → proc ≠ GPI_PC_INVAL → is_set flags F_GLOBAL = true → 0 < size < two64 →
  match alloc what r proc seg size name flags c with
  | (Ret h, c') => ∃ o up', tmmgr.alloc h (part_size n size) up = (Ret (o, part_size n size), up') ∧ G !! h = None ∧ type h = SEG_GASPI ∧
      implements seg n L (N + 1) up' (<[h := size]> G) c' ∧ (∀ q k, 0 ≤ q → k ≠ seg → area_at q k c' = area_at q k c)
  | (Throw _, c') => implements seg n L (N + 1) up G c' ∧ (∀ q k, 0 ≤ q → area_at q k c' = area_at q k c) ∧
      (2 ^ 48 ≤ N + 1 ∨ 4096 ≤ r ∨ ∃ h e up', G !! h = None ∧ tmmgr.alloc h (part_size n size) up = (Throw e, up'))
  end ∧
  ∀ h s, G !! h = Some s →
    ∃ up' c', free what r h c = (Ret tt, c') ∧ tmmgr.free h up = (Ret tt, up') ∧ implements seg n L N up' (delete h G) c' ∧
      (∀ q k, 0 ≤ q → k ≠ seg → area_at q k c' = area_at q k c).
Proof.
  intros Hi Hr HN Hproc Hf Hs. split; [by apply alloc_refines|]. intros h s Hh. by apply (free_refines what seg n L N up G c r h s).
Qed.

(** ** Bytes *)
(** a client of node [r] has [m] bytes of its shared memory at [hs + so] *)
Record holds (seg r sseg hs so m : Z) (ds : descriptor) (c : cluster) (s : area) : Prop := {
  ho_other : sseg ≠ seg;
  ho_mapped : mapped r sseg hs ds c s;
  ho_known : ∃ nd, node_at r c = Some nd ∧ m_handle_to_segment nd !! hs = Some sseg;
  ho_range : 0 ≤ so ∧ so + m ≤ d_size ds
}.
Section bytes.
Context (seg n L : Z) (Hn : n ≤ two16) (HL : (n + 1) * L < two64).
Lemma implements_seen N up G c h s q :
  implements seg n L N up G c → 0 ≤ q < n → G !! h = Some s → ∃ a d, seen seg n L q h d c a ∧ d_size d = s ∧ replica seg n L up G a.
Proof.
  intros Hi Hq Hh. destruct (implements_area seg n L N up G c q Hi Hq) as (a & Ha & Hr). destruct (proj1 (re_table _ _ _ _ _ _ Hr h s) Hh) as (d & Hd & Hg & Hs).
  destruct (table_within a h d (re_ok _ _ _ _ _ _ Hr) Hd) as (? & ? & ?). rewrite (re_size _ _ _ _ _ _ Hr) in *.
  exists a, d. split; [|done]. split; try done; [apply Hr|apply Hr|by apply (re_sizes _ _ _ _ _ _ Hr h d)].
Qed.
Lemma holds_later r sseg hs so m ds c c' s :
  0 ≤ r → holds seg r sseg hs so m ds c s → quiet c c' → area_at r sseg c' = area_at r sseg c → holds seg r sseg hs so m ds c' s.
Proof.
  intros Hr [K1 [M1 M2 M3 M4 M5 M6] (nd & Hnd & Hk) K4] [_ Hq] Ha. split; try done; [split; try done; congruence|].
  destruct (Hq r Hr) as (E & _ & _). rewrite Hnd in E. simpl in E. apply fmap_Some in E as (nd' & Hnd' & E). exists nd'. split; [done|]. by rewrite <- E.
Qed.
(** bytes of allocations that are not in the range *)
Lemma untouched_byte N up G c r hd d a h' d' j off m :
  implements seg n L N up G c → seen seg n L r hd d c a → m_handles a !! h' = Some d' → is_global d' = true → 0 ≤ j < d_size d' →
  0 ≤ off → off + m ≤ d_size d → h' ≠ hd ∨ ¬ (off ≤ j < off + m) →
  untouched seg n r d off m c (home (d_offset d') (d_local_size d') j).1 (home (d_offset d') (d_local_size d') j).2.
Proof.
  intros Hi Hs Hd' Hg Hj Ho Hm Hne. pose proof (se_rank _ _ _ _ _ _ _ _ Hs) as Hr. destruct (implements_area seg n L N up G c r Hi Hr) as (x & Hx & Hrep).
  rewrite (se_area _ _ _ _ _ _ _ _ Hs) in Hx. injection Hx as <-. pose proof (re_ok _ _ _ _ _ _ Hrep) as Hok.
  destruct (table_within a h' d' Hok Hd') as (W1 & W2 & W3). pose proof (re_sizes _ _ _ _ _ _ Hrep h' d' Hd' Hg).
  pose proof (Z.mod_pos_bound j (d_local_size d') W2) as Hb. unfold home. cbn [fst snd]. split_and!.
  - apply Z.div_pos; lia.
  - apply Z.div_lt_upper_bound; lia.
  - intros (i & Hi' & E). destruct (decide (h' = hd)) as [->|Hh].
    + rewrite (se_handle _ _ _ _ _ _ _ _ Hs) in Hd'. injection Hd' as <-. change (home (d_offset d) (d_local_size d) j = home (d_offset d) (d_local_size d) (off + i)) in E.
      apply home_inj in E; [|done]. destruct Hne; [done|lia].
    + pose proof (table_apart a h' d' hd d Hok Hd' (se_handle _ _ _ _ _ _ _ _ Hs) Hh). pose proof (se_part _ _ _ _ _ _ _ _ Hs) as (Hp & _).
      pose proof (Z.mod_pos_bound (off + i) (d_local_size d) Hp). injection E as _ E. lia.
  - intros b Hb' [_ Hin]. unfold pool in Hb'. rewrite (se_area _ _ _ _ _ _ _ _ Hs) in Hb'. simpl in Hb'.
    destruct (re_pool _ _ _ _ _ _ Hrep b Hb') as (db & Hdb & Hgb & Eo & Es). assert (h' ≠ b_handle b) as Hh by (intros ->; congruence).
    pose proof (table_apart a h' d' _ db Hok Hd' Hdb Hh). unfold bytes_of in Hin. lia.
Qed.
(** two nodes see the same allocation, at different times *)
Lemma agree_later N up G c c' q q' a a' h d d' :
  implements seg n L N up G c → quiet c c' → 0 ≤ q → 0 ≤ q' → area_at q seg c = Some a → area_at q' seg c' = Some a' →
  m_handles a !! h = Some d → is_global d = true → m_handles a' !! h = Some d' →
  d_size d' = d_size d ∧ d_local_size d' = d_local_size d ∧ d_offset d' = d_offset d.
Proof.
  intros Hi [HN Hq] H0q H0q' Ha Ha' Hd Hg Hd'. destruct (Hq q' H0q') as (_ & _ & Hk). destruct (Hk seg) as [Hs _]. rewrite Ha' in Hs. simpl in Hs.
  symmetry in Hs. apply fmap_Some in Hs as (x & Hx & Hs). destruct (static_fields x a' Hs) as (E & _).
  destruct (implements_agree seg n L N up G c q q' a x h d Hi H0q H0q' Ha Hx Hd Hg) as (y & Hy & _ & Y). rewrite <- E, Hd' in Hy. by injection Hy as <-.
Qed.

(** C18: what a client of one node copies from its shared memory into a range of a distributed
    allocation is what a client of any node gets that copies the range into its shared memory
    afterwards, byte by byte, wherever the parts of the range are and however it is cut; both
    requests succeed, nothing else of that shared memory changes, and no byte of a distributed
    allocation outside the range. *)
Theorem stored_bytes_are_loaded (N : Z) (up : tmmgr.type) (G : gmap Z Z) (c : cluster) (h size off m : Z)
    (r1 sseg1 hs1 so1 : Z) (ds1 : descriptor) (s1 : area) (r2 sseg2 hs2 so2 : Z) (ds2 : descriptor) (s2 : area) :
  implements seg n L N up G c → idle c → (∀ q, 0 ≤ q < n → pool q seg c ≠ []) →
  G !! h = Some size → 0 ≤ off → 0 < m → off + m ≤ size →
  0 ≤ r1 < n → holds seg r1 sseg1 hs1 so1 m ds1 c s1 → 0 ≤ r2 < n → holds seg r2 sseg2 hs2 so2 m ds2 c s2 →
  ∃ c1 c2 s2', copy r1 (mk_location h off) (mk_location hs1 so1) m c = (Ret tt, c1) ∧
    copy r2 (mk_location hs2 so2) (mk_location h off) m c1 = (Ret tt, c2) ∧ area_at r2 sseg2 c2 = Some s2' ∧
    (∀ i, 0 ≤ i < m → memory s2' (d_offset ds2 + so2 + i) = memory s1 (d_offset ds1 + so1 + i)) ∧
    (∀ o, ¬ bytes_of (d_offset ds2 + so2) m o → memory s2' o = memory s2 o) ∧
    (∀ q a h' d' j, 0 ≤ q < n → area_at q seg c = Some a → m_handles a !! h' = Some d' → is_global d' = true → 0 ≤ j < d_size d' →
       h' ≠ h ∨ ¬ (off ≤ j < off + m) →
       byte (segment_parts seg c2) (home (d_offset d') (d_local_size d') j) = byte (segment_parts seg c) (home (d_offset d') (d_local_size d') j)).
Proof.
  intros Hi Hidle Hpool HG Hoff Hm Hle Hr1 Hh1 Hr2 Hh2.
  destruct (implements_seen N up G c h size r1 Hi Hr1 HG) as (a1 & d1 & Hs1 & Hd1 & Hrep1). pose proof Hh1 as [K1 K2 K3 K4]. pose proof Hh2 as [J1 J2 J3 J4].
  assert (Hok1 : copy_ok seg n L r1 sseg1 hs1 h ds1 d1 N up G so1 off m c s1 a1) by (split; try done; [by apply Hpool|lia]).
  destruct (store_run seg n L r1 sseg1 hs1 h ds1 d1 K1 N up G so1 off m c s1 a1 Hok1) as (c1 & E1 & I1 & Q1 & P1 & B1 & F1 & O1).
  assert (Hi1 : implements seg n L N up G c1) by (by apply (implements_quiet seg n L N up G c)).
  destruct (implements_seen N up G c1 h size r2 Hi1 Hr2 HG) as (a2 & d2 & Hs2 & Hd2 & Hrep2).
  assert (Hh2' : holds seg r2 sseg2 hs2 so2 m ds2 c1 s2) by (apply (holds_later r2 sseg2 hs2 so2 m ds2 c c1); [lia|done|done|]; apply O1; [lia|done]).
  pose proof Hh2' as [J1' J2' J3' J4'].
  assert (Hok2 : copy_ok seg n L r2 sseg2 hs2 h ds2 d2 N up G so2 off m c1 s2 a2).
  { split; try done; [|lia]. intros E. apply (Hpool r2 Hr2). apply Permutation_nil. by rewrite <- (P1 r2 seg), E by lia. }
  destruct (load_run seg n L r2 sseg2 hs2 h ds2 d2 J1 N up G so2 off m c1 s2 a2 Hok2) as (c2 & s2' & E2 & _ & _ & _ & A2 & B2 & F2 & U2 & _).
  destruct (agree_later N up G c c1 r1 r2 a1 a2 h d1 d2 Hi Q1 ltac:(lia) ltac:(lia)) as (_ & El & Eo); [apply Hs1|apply Hs2|apply Hs1|apply Hs1|apply Hs2|].
  exists c1, c2, s2'. split_and!; [done..| |done|].
  - intros i Hii. rewrite B2, Eo, El by done. by apply B1.
  - intros q a h' d' j Hq Ha Hd' Hg Hj Hne.
    destruct (implements_agree seg n L N up G c q r1 a a1 h' d' Hi ltac:(lia) ltac:(lia) Ha (se_area _ _ _ _ _ _ _ _ Hs1) Hd' Hg) as (x & Hx & Hgx & X1 & X2 & X3).
    assert (HG' : G !! h' = Some (d_size d')).
    { apply (re_table _ _ _ _ _ _ Hrep1). by exists x. }
    pose proof (proj1 (re_table _ _ _ _ _ _ Hrep2 h' _) HG') as (y & Hy & Hgy & Y1).
    destruct (agree_later N up G c c1 r1 r2 a1 a2 h' x y Hi Q1 ltac:(lia) ltac:(lia)) as (_ & Z2 & Z1); [apply Hs1|apply Hs2|done..|].
    rewrite <- X2, <- X3. unfold byte. transitivity (segment_parts seg c1 (home (d_offset x) (d_local_size x) j).1 (home (d_offset x) (d_local_size x) j).2).
    + apply U2. rewrite <- Z1, <- Z2. apply (untouched_byte N up G c1 r2 h d2 a2 h' y); try done; [lia..|right; lia].
    + apply F1. apply (untouched_byte N up G c r1 h d1 a1 h' x); try done; lia.
Qed.
End bytes.
End agreement.
(** ** The example *)
Section example.
#[local] Existing Instances small_gaspi small_gaspi_spec small_syscalls small_machine asserting.
Definition info_text : string := vmem_url.gaspi_info 16 4 2.
Definition added : cluster := (add_memory no_text 0 7 info_text (boot 2)).2.
Definition allocated : cluster := (alloc no_text 0 7 1 12 "data" F_GLOBAL added).2.
Definition data : Z := 1152921504606846979.
Lemma small_request : request_ok 2 16 4 2.
Proof. split; try (vm_compute; repeat split; discriminate || reflexivity). Qed.
Lemma nodes_agree_witness :
  request_ok 2 16 4 2 ∧
  ∃ a d, area_at 1 1 allocated = Some a ∧ m_handles a !! data = Some d ∧ d_size d = 12 ∧ d_local_size d = 6 ∧ d_offset d = 0.
Proof.
  split; [exact small_request|]. destruct (nodes_agree no_text 2 16 4 2 0 7 small_request ltac:(lia)) as (id & Hid & Hrun).
  assert (id = 1) as -> by (vm_compute in Hid; by injection Hid as <-).
  assert (nsteps (step no_text 1 2) 1 added allocated) as Hs.
  { econstructor; [|constructor]. apply step_alloc; [lia|vm_compute; discriminate|reflexivity|vm_compute; split; reflexivity]. }
  destruct (area_at 0 1 allocated) as [a|] eqn:Ha; [|vm_compute in Ha; discriminate].
  assert ((λ a, (λ d, (is_global d, d_size d, d_local_size d, d_offset d)) <$> m_handles a !! data) <$> area_at 0 1 allocated = Some (Some (true, 12, 6, 0))) as Hd
    by (vm_compute; reflexivity).
  rewrite Ha in Hd. injection Hd as Hd. apply fmap_Some in Hd as (d & Hd & [= Hg Hz Hl Ho]).
  destruct (Hrun 1%nat allocated Hs eq_refl 0 1 a data d ltac:(lia) ltac:(lia) Ha Hd (eq_sym Hg)) as [(a' & d' & Ha' & Hd' & _ & E1 & E2 & E3) _].
  exists a', d'. rewrite E1, E2, E3. exact (conj Ha' (conj Hd' (conj (eq_sym Hz) (conj (eq_sym Hl) (eq_sym Ho))))).
Defined.

Lemma added_implements : implements 1 2 16 2 (dtmmgr.up (reference 2 16 4 2)) ∅ added.
Proof.
  destruct (add_memory_run no_text 2 16 4 2 0 7 small_request ltac:(lia)) as (id & c & E & Hi & _). unfold added, info_text. rewrite E. cbn [snd].
  assert (id = 1) as -> by (apply (f_equal fst) in E; vm_compute in E; by injection E as <-). exact Hi.
Qed.
Lemma cluster_refines_arena_witness :
  implements 1 2 16 2 (dtmmgr.up (reference 2 16 4 2)) ∅ added ∧
  ∃ o up', (alloc no_text 0 7 1 12 "data" F_GLOBAL added).1 = Ret data ∧ tmmgr.alloc data 6 (dtmmgr.up (reference 2 16 4 2)) = (Ret (o, 6), up').
Proof.
  split; [exact added_implements|].
  destruct (cluster_refines_arena no_text 1 2 16 2 _ _ added 0 7 12 "data" F_GLOBAL added_implements ltac:(lia) eq_refl ltac:(vm_compute; discriminate) eq_refl ltac:(vm_compute; split; reflexivity)) as [H _].
  assert ((alloc no_text 0 7 1 12 "data" F_GLOBAL added).1 = Ret data) as E by (vm_compute; reflexivity).
  destruct (alloc no_text 0 7 1 12 "data" F_GLOBAL added) as [x c']. cbn [fst] in E. subst x. destruct H as (o & up' & H & _).
  exists o, up'. exact (conj eq_refl H).
Defined.
(** both nodes register their shared memory and allocate in it, node 1 allocates 12 bytes that
    are distributed *)
Definition shm_area_of (r : Z) (c : cluster) : area :=
  match (shm_create r 7 "shm" 0 c).1 with Ret a => a | Throw _ => make_area SEG_SHM 7 "shm" 0 0 end.
Definition shm_seg (r : Z) : Z := if r =? 0 then 2 else 281474976710657.
Definition registered : cluster :=
  let c := (register_memory 0 7 (shm_area_of 0 added) added).2 in (register_memory 1 7 (shm_area_of 1 c) c).2.
Definition mapped_both : cluster :=
  let c := (alloc no_text 0 7 (shm_seg 0) 16 "source" F_NONE registered).2 in (alloc no_text 1 7 (shm_seg 1) 16 "target" F_NONE c).2.
Definition ready : cluster := (alloc no_text 1 7 1 12 "data" F_GLOBAL mapped_both).2.
Definition shm_handle : Z := 2305843009213693953.
Definition data1 : Z := 1153202979583557635.
Lemma shm_area_empty r c : m_handles (shm_area_of r c) = ∅.
Proof.
  unfold shm_area_of. pose proof (proj2 (shm_create_run r 7 "shm" 0 c)) as H. destruct (shm_create r 7 "shm" 0 c) as [[a|e] c']; cbn [fst] in *; [|reflexivity].
  exact (H a eq_refl).
Qed.
Lemma alloc_shm_keeps r k size name N up G c :
  (a_type <$> area_at r k c) = Some SEG_SHM → 0 ≤ r → k ≠ 1 → implements 1 2 16 N up G c → implements 1 2 16 N up G (alloc no_text r 7 k size name F_NONE c).2.
Proof.
  intros Ht Hr Hk Hi. apply fmap_Some in Ht as (a & Ha & Ht). apply (implements_aside 1 2 16 N up G c); [|exact Hi].
  exact (shm_alloc_aside no_text 1 r 7 k size name F_NONE c a Hr Hk Ha (eq_sym Ht)).
Qed.
Lemma register_keeps r N up G c : 0 ≤ r < 2 → implements 1 2 16 N up G c → implements 1 2 16 N up G (register_memory r 7 (shm_area_of r c) c).2.
Proof.
  intros Hr Hi. apply (implements_aside 1 2 16 N up G c); [|exact Hi]. apply register_aside; [lia| |apply shm_area_empty].
  destruct (implements_area 1 2 16 N up G c r Hi Hr) as (a & Ha & _). rewrite Ha. by eexists.
Qed.
Lemma mapped_both_implements : implements 1 2 16 2 (dtmmgr.up (reference 2 16 4 2)) ∅ mapped_both.
Proof.
  apply alloc_shm_keeps; [vm_compute; reflexivity|lia|vm_compute; discriminate|].
  apply alloc_shm_keeps; [vm_compute; reflexivity|lia|vm_compute; discriminate|].
  apply register_keeps; [lia|]. apply register_keeps; [lia|]. exact added_implements.
Qed.
Lemma ready_implements : ∃ up G, implements 1 2 16 3 up G ready ∧ G !! data1 = Some 12.
Proof.
  pose proof (alloc_refines no_text 1 2 16 2 _ _ mapped_both 1 7 12 "data" F_GLOBAL mapped_both_implements ltac:(lia) eq_refl
    ltac:(vm_compute; discriminate) eq_refl ltac:(vm_compute; split; reflexivity)) as H.
  assert ((alloc no_text 1 7 1 12 "data" F_GLOBAL mapped_both).1 = Ret data1) as E by (vm_compute; reflexivity). unfold ready.
  destruct (alloc no_text 1 7 1 12 "data" F_GLOBAL mapped_both) as [x c']. cbn [fst] in E. subst x. destruct H as (o & up' & _ & _ & _ & H & _).
  exists up', (<[data1 := 12]> ∅). split; [exact H|]. apply lookup_insert_eq.
Qed.
Lemma ready_idle : idle ready.
Proof.
  assert (tasks <$> nodes ready = [[]; []]) as E by (vm_compute; reflexivity). intros q nd _ Hnd. unfold node_at in Hnd.
  apply (f_equal (fmap tasks)) in Hnd. rewrite <- list_lookup_fmap, E in Hnd. destruct (Z.to_nat q) as [|[|i]]; simpl in Hnd; [by injection Hnd as <-..|by rewrite lookup_nil in Hnd].
Qed.
Lemma ready_pool q : 0 ≤ q < 2 → pool q 1 ready ≠ [].
Proof. intros Hq. assert (q = 0 ∨ q = 1) as [-> | ->] by lia; vm_compute; discriminate. Qed.
Lemma ready_holds r : 0 ≤ r < 2 →
  ∃ ds s, d_offset ds = 0 ∧ d_size ds = 16 ∧ memory s = (λ i, 100 * (r + 1) + i) ∧
    ∀ so m, 0 ≤ so → so + m ≤ 16 → holds 1 r (shm_seg r) shm_handle so m ds ready s.
Proof.
  intros Hr.
  assert ((λ s, (a_type s, a_local_size s, memory s, (λ d, (d_offset d, d_size d, d_local_size d)) <$> m_handles s !! shm_handle)) <$> area_at r (shm_seg r) ready =
    Some (SEG_SHM, 16, (λ i, 100 * (r + 1) + i), Some (0, 16, 16)) ∧ (λ nd, m_handle_to_segment nd !! shm_handle) <$> node_at r ready = Some (Some (shm_seg r)) ∧ shm_seg r ≠ 1) as (E & En & Ek).
  { assert (r = 0 ∨ r = 1) as [-> | ->] by lia; (split; [vm_compute; reflexivity|split; [vm_compute; reflexivity|vm_compute; discriminate]]). }
  apply fmap_Some in E as (s & Hs & [= Et El Em Ed]). symmetry in Ed. apply fmap_Some in Ed as (ds & Hds & [= Eo Ez Eq]).
  apply fmap_Some in En as (nd & Hnd & Hk). exists ds, s. split; [exact (eq_sym Eo)|]. split; [exact (eq_sym Ez)|]. split; [exact (eq_sym Em)|].
  intros so m Hso Hm. split; [exact Ek| |exists nd; exact (conj Hnd (eq_sym Hk))|lia].
  split; [exact Hs|exact (eq_sym Et)|exact Hds|congruence|lia|]. rewrite <- El. reflexivity.
Qed.
Lemma stored_bytes_are_loaded_witness :
  ∃ c1 c2 s, copy 0 (mk_location data1 2) (mk_location shm_handle 1) 9 ready = (Ret tt, c1) ∧
    copy 1 (mk_location shm_handle 3) (mk_location data1 2) 9 c1 = (Ret tt, c2) ∧ area_at 1 (shm_seg 1) c2 = Some s ∧
    memory s 3 = 101 ∧ memory s 11 = 109 ∧ memory s 12 = 212.
Proof.
  destruct ready_implements as (up & G & Hi & HG). destruct (ready_holds 0 ltac:(lia)) as (ds1 & s1 & O1 & Z1 & M1 & H1).
  destruct (ready_holds 1 ltac:(lia)) as (ds2 & s2 & O2 & Z2 & M2 & H2).
  destruct (stored_bytes_are_loaded 1 2 16 ltac:(vm_compute; discriminate) eq_refl 3 up G ready data1 12 2 9 0 (shm_seg 0) shm_handle 1 ds1 s1 1 (shm_seg 1) shm_handle 3 ds2 s2
    Hi ready_idle ready_pool HG ltac:(lia) ltac:(lia) ltac:(lia) ltac:(lia) (H1 1 9 ltac:(lia) ltac:(lia)) ltac:(lia) (H2 3 9 ltac:(lia) ltac:(lia)))
    as (c1 & c2 & s & E1 & E2 & Ha & Hb & Hf & _).
  exists c1, c2, s. split; [exact E1|]. split; [exact E2|]. split; [exact Ha|]. rewrite O1, O2, M1 in Hb. rewrite O2, M2 in Hf. split; [|split].
  - exact (Hb 0 ltac:(lia)).
  - exact (Hb 8 ltac:(lia)).
  - apply (Hf 12). unfold bytes_of. lia.
Defined.
End example.
End vmem_theorems.
