(* ===== verification/VmemClient.v ===== *)
(** * Clients of the virtual memory

    [gpi-space/pc/container/manager.cpp]: the requests of a process that is connected to the
    daemon of its node, the replies, and what is left when the process ends (module
    [container]); then what the process itself does (module [client]). *)

From S2P Require Import Prelude Value Token Bitset Function Position Num ReadShow Tokenizer Expr Parser ModuleCall Net NetFire ModuleRun MmgrLayout Mmgr MmgrSpec MmgrSafe VmemHandle VmemUrl VmemArea VmemAreaSpec VmemTransfer VmemTransferSpec VmemManager VmemReplicas VmemCluster VmemStart VmemCopy VmemTheorems.

Module container.
Local Open Scope Z_scope.
Import module_run vmem_handle vmem transfer.

Inductive message : Type :=
| alloc_t (segment size : Z) (name : string) (flags : Z)
| free_t (handle : Z)
| memcpy_t (dst src : location) (size : Z)
| wait_t (memcpy_id : Z)
| info_t (handle : Z)
| get_transfer_costs_t (transfers : list (location * Z))
| register_t (name : string) (size : Z)
| unregister_t (id : Z)
| add_memory_t (url : string)
| del_memory_t (id : Z)
(** a message that is not a request *)
| a_reply.
Inductive errc : Type := success | bad_request.
Inductive reply : Type :=
| alloc_reply_t (handle : Z)
| memcpy_reply_t (memcpy_id : Z)
| wait_reply_t (o : outcome thrown unit)
| info_reply_t (d : descriptor)
| transfer_costs_t (costs : gmap string SpecFloat.spec_float)
| register_reply_t (id : Z)
| add_reply_t (o : outcome thrown Z)
| error_t (code : errc) (detail : string).

Section container.
Context `{UnorderedMultiset} `{AssertMode} `{Unordered} `{Gaspi} `{Syscalls} `{manager.Machine}.
Context (what : exn → string) (hostname_of_rank : Z → string).
Abbreviation C := (M cluster thrown).

(** the exception itself goes into the reply *)
Definition kept {X} (m : C X) : C (outcome thrown X) :=
  λ c, match m c with
       | (Ret x, c) => (Ret (Ret x), c)
       | (Throw e, c) => if manager.catchable e then (Ret (Throw e), c) else (Throw e, c)
       end.
Definition handle_request (r proc : Z) (m : message) : C reply :=
  match m with
  | alloc_t segment size name flags => h ← manager.alloc what r proc segment size name flags; mret (alloc_reply_t h)
  | free_t handle => manager.free what r handle ≫= λ _, mret (error_t success "success")
  | memcpy_t dst src size =>
      std (validate (l_handle dst)) ≫= λ _,
      std (validate (l_handle src)) ≫= λ _,
      id ← manager.memcpy r dst src size; mret (memcpy_reply_t id)
  | wait_t memcpy_id => o ← kept (manager.wait r memcpy_id); mret (wait_reply_t o)
  | info_t handle => d ← manager.info r handle; mret (info_reply_t d)
  | get_transfer_costs_t transfers => costs ← manager.get_transfer_costs hostname_of_rank r transfers; mret (transfer_costs_t costs)
  | register_t name size => a ← manager.shm_create r proc name size; id ← manager.register_memory r proc a; mret (register_reply_t id)
  | unregister_t id => manager.unregister_memory what r proc id ≫= λ _, mret (error_t success "success")
  | add_memory_t url => o ← kept (manager.add_memory what r proc url); mret (add_reply_t o)
  | del_memory_t id => manager.del_memory what r proc id ≫= λ _, mret (error_t success "")
  | a_reply => mret (error_t bad_request "invalid input message")
  end.
Definition handle_message (r proc : Z) (m : message) : C reply :=
  λ c, match handle_request r proc m c with
       | (Throw e, c) => if manager.catchable e then (Ret (error_t bad_request (default "" (printed_lines what e))), c) else (Throw e, c)
       | x => x
       end.
(** [process_communication_thread]: requests until the connection ends *)
Fixpoint communicate (r proc : Z) (l : list message) : C (list reply) :=
  match l with
  | [] => manager.garbage_collect what r proc ≫= λ _, mret []
  | m :: l => x ← handle_message r proc m; xs ← communicate r proc l; mret (x :: xs)
  end.
End container.

(** ** Messages on the socket

    [io_exact]: the calls of [read] or [write], each with the position in the buffer, the
    number of bytes it asks for and the number of bytes it moves. *)
Fixpoint io_exact (io : list Z) (position missing size : Z) : outcome exn (list (Z * Z * Z)) :=
  if missing <=? 0 then Ret []
  else match io with
  | [] => Throw (undefined "waits for data")
  | bytes :: io =>
      if (bytes =? 0) || (size <? bytes) then
        Throw (runtime_error ("io_exact: unable to read " +:+ show.integer size +:+ " bytes, read " +:+ show.integer bytes))
      else
        calls ← io_exact io (position + bytes) (w64 (missing - bytes)) size;
        Ret ((position, size, bytes) :: calls)
  end.
Definition read_exact (io : list Z) (size : Z) : outcome exn (list (Z * Z * Z)) := io_exact io 0 size size.
(** a message of which the first call gets only a part: the second call may write past the end
    of the buffer, and a lengthy one makes the missing bytes wrap around *)
Example short_read_passes_the_end : read_exact [3; 5] 8 = Ret [(0, 8, 3); (3, 8, 5)].
Proof. vm_compute. reflexivity. Qed.
End container.

(** ** A client of the virtual memory

    [gpi-space/pc/client/api.cpp], what [drts/private/virtual_memory_impl.hpp] and
    [drts/private/scoped_allocation.hpp] make of it, and the allocations of
    [drts/virtual_memory.cpp]: a process that is connected to the daemon of its node.

    A request and its reply are one step, in which the daemon handles the request; the shared
    memory objects that a client makes are those that the daemon finds.  [wait] waits for
    the threads of the daemon: what they do in the meantime is a parameter. *)

Module client.
Local Open Scope Z_scope.
Import module_call module_run vmem_handle vmem transfer transfer_spec container.

Record api_t : Type := mk_api { m_socket : bool; m_segments : gset Z }.
Definition connected : api_t := mk_api true ∅.

Section client.
Context `{UnorderedMultiset} `{AssertMode} `{Unordered} `{Gaspi} `{Syscalls} `{manager.Machine}.
Context (what : exn → string) (hostname_of_rank : Z → string).
(** the node and the process *)
Context (r proc : Z).
Abbreviation A := (M (api_t * cluster) thrown).

Definition stop : A unit := modify (λ s, if m_socket s.1 then (mk_api false ∅, s.2) else s).
Definition communicate (rqst : message) : A reply :=
  λ s, if m_socket s.1 then
         match handle_message what hostname_of_rank r proc rqst s.2 with
         | (Ret rply, c) => (Ret rply, (s.1, c))
         | (Throw e, c) => (Throw e, (s.1, c))
         end
       else (Throw (Std (runtime_error "write: Bad file descriptor")), s).
(** [boost::get<error_t>] in the handler of [bad_get] *)
Definition thrown_error {X} (rply : reply) : A X :=
  match rply with
  | error_t _ detail => throw (Std (runtime_error detail))
  | _ => throw (Std bad_get)
  end.

(** ** Allocations *)
Definition alloc (seg sz : Z) (name : string) (flags : Z) : A Z :=
  rply ← communicate (alloc_t seg sz name flags);
  match rply with alloc_reply_t handle => mret handle | _ => thrown_error rply end.
Definition free (hdl : Z) : A unit :=
  rply ← communicate (free_t hdl);
  match rply with
  | error_t success _ => mret tt
  | error_t _ detail => throw (Std (runtime_error ("handle could not be free'd: " +:+ detail)))
  | _ => throw (Std bad_get)
  end.
Definition info (h : Z) : A descriptor :=
  rply ← communicate (info_t h);
  match rply with info_reply_t d => mret d | _ => thrown_error rply end.
(** a pointer into the mapped segment *)
Definition ptr (h : Z) : A pointer :=
  d ← info h;
  s ← get;
  if decide (d_segment d ∈ m_segments s.1) then mret (d_segment d, d_offset d)
  else throw (Std (runtime_error ("Requested pointer for unknown handle '" +:+ show_handle h +:+ "'"))).

(** ** Copies *)
Definition memcpy (dst src : location) (amount : Z) : A Z :=
  rply ← communicate (memcpy_t dst src amount);
  match rply with memcpy_reply_t id => mret id | _ => thrown_error rply end.
(** what is thrown by [wait_reply_t::get] is an exception like any other *)
Definition wait (memcpy_id : Z) : A unit :=
  rply ← communicate (wait_t memcpy_id);
  match rply with
  | wait_reply_t (Ret _) => mret tt
  | wait_reply_t (Throw e) => stop ≫= λ _, throw e
  | _ => thrown_error rply
  end.
Definition memcpy_and_wait (meanwhile : cluster → cluster) (dst src : location) (amount : Z) : A unit :=
  id ← memcpy dst src amount;
  modify (λ s, (s.1, meanwhile s.2)) ≫= λ _,
  wait id.
Definition transfer_costs (transfers : list (location * Z)) : A (gmap string SpecFloat.spec_float) :=
  rply ← communicate (get_transfer_costs_t transfers);
  match rply with transfer_costs_t costs => mret costs | _ => thrown_error rply end.
(** the costs of the global ranges of a module call, as a function of the host *)
Fixpoint regions (transfers : list range) : outcome exn (list (location * Z)) :=
  match transfers with
  | [] => Ret []
  | x :: l =>
      h ← stoul16 (module_call.name x);
      rest ← regions l;
      Ret ((mk_location h (offset (where_ x)), size (where_ x)) :: rest)
  end.
Definition transfer_costs_of (transfers : list range) : A (string → outcome exn SpecFloat.spec_float) :=
  l ← lift (match regions transfers with Ret l => Ret l | Throw e => Throw (Std e) end);
  costs ← transfer_costs l;
  mret (λ host, or_throw out_of_range (costs !! host)).

(** ** Segments *)
Definition create_segment (text : string) : A Z :=
  rply ← communicate (add_memory_t text);
  match rply with add_reply_t o => lift o | _ => throw (Std bad_get) end.
Definition delete_segment (segment_id : Z) : A unit :=
  rply ← communicate (del_memory_t segment_id);
  match rply with
  | error_t _ "" => mret tt
  | error_t _ detail => throw (Std (runtime_error detail))
  | _ => throw (Std bad_get)
  end.
Definition register_segment (name : string) (sz : Z) : A Z :=
  match name with
  | "" => throw (Std (runtime_error "invalid name argument to segment_t(): name must not be empty"))
  | _ =>
      rply ← communicate (register_t name sz);
      match rply with
      | register_reply_t id => modify (λ s, (mk_api (m_socket s.1) ({[id]} ∪ m_segments s.1), s.2)) ≫= λ _, mret id
      | error_t _ detail => throw (Std (runtime_error ("memory segment registration failed: " +:+ detail)))
      | _ => throw (Std bad_get)
      end
  end.
(** a failure is logged only *)
Definition unregister_segment (id : Z) : A unit :=
  λ s, let forget (s : api_t * cluster) := (mk_api (m_socket s.1) (m_segments s.1 ∖ {[id]}), s.2) in
       match communicate (unregister_t id) s with
       | (Throw e, s) => if manager.catchable e then (Ret tt, forget s) else (Throw e, s)
       | (_, s) => (Ret tt, forget s)
       end.

(** ** Allocations of a runtime system *)
Inductive segment_description : Type :=
| gaspi_segment_description (communication_buffer_size communication_buffer_count : Z)
| beegfs_segment_description (path : string).
Definition make_remote_segment (sz : Z) (description : segment_description) : A Z :=
  create_segment (match description with
                  | gaspi_segment_description bs nb => vmem_url.gaspi_info sz bs nb
                  | beegfs_segment_description path => vmem_url.filesystem_info sz path
                  end).
Definition vmem_alloc (segment_id sz : Z) (description : string) : A Z :=
  handle_id ← alloc segment_id sz description F_GLOBAL;
  if handle_id =? 0 then
    throw (Std (runtime_error ("Could not allocate " +:+ show.integer sz +:+ " bytes with description '" +:+ description +:+ "'")))
  else mret handle_id.
(** an exception of a destructor ends the process *)
Definition in_destructor (m : A unit) : A unit :=
  λ s, match m s with (Throw _, s) => (Throw (Std (undefined "std::terminate: exception in a destructor")), s) | x => x end.
(** destructors of members when a constructor throws *)
Definition unwinding {X} (d : A unit) (m : A X) : A X :=
  λ s, match m s with (Throw e, s) => (d ≫= λ _, throw e) s | x => x end.
(** the segment and the allocation; a segment without its allocation is removed *)
Definition vmem_allocation (segment_desc : segment_description) (sz : Z) (description : string) : A (Z * Z) :=
  segment_id ← make_remote_segment sz segment_desc;
  handle_id ← unwinding (in_destructor (delete_segment segment_id)) (vmem_alloc segment_id sz description);
  mret (segment_id, handle_id).
Definition vmem_allocation_destroy (segment_id handle_id : Z) : A unit :=
  in_destructor (free handle_id) ≫= λ _, in_destructor (delete_segment segment_id).
(** [scoped_allocation] *)
Definition scoped_allocation (description : string) (sz : Z) : A (Z * Z) :=
  segment ← register_segment description sz;
  handle ← unwinding (unregister_segment segment) (alloc segment sz description F_EXCLUSIVE);
  mret (segment, handle).
End client.
End client.

(** ** Allocations of a client

    What a client gets: an allocation of a runtime system makes a segment of its own, and the
    segment is large enough for it; a copy that fails ends the connection. *)

Module client_spec.
Local Open Scope Z_scope.
Import layout MmgrSpec Allocator module_run vmem_handle vmem area_spec transfer transfer_spec manager replicas start copies container client.

(** ** The place for the allocation *)
Section room.
Context `{UnorderedMultiset} `{AssertMode}.
Lemma only_free l : positive l → separate l → handles l = [] → l = free_seg (total l).
Proof.
  intros Hp Hs Hh. destruct l as [|[x|h x] l]; [done| |done]. destruct l as [|[y|h y] l]; [|by destruct Hs as [[] _]|done].
  apply Forall_cons in Hp as [Hp _]. simpl in *. unfold free_seg. by rewrite Z.add_0_r, (proj2 (Z.ltb_lt _ _)).
Qed.
Lemma free_at_end us f l1 m l2 :
  Forall (λ s, is_free s = false) us → us ++ free_seg f = l1 ++ Free m :: l2 → l1 = us ∧ m = f ∧ l2 = [].
Proof.
  intros Hus. revert l1. induction Hus as [|u us Hu Hus IH]; intros l1 E.
  - unfold free_seg in E. destruct (0 <? f); [|by destruct l1]. destruct l1 as [|s l1]; [by injection E as <- <-|]. injection E as _ E. by destruct l1.
  - destruct l1 as [|s l1]; [injection E as -> _; done|]. injection E as <- E. destruct (IH l1 E) as (-> & -> & ->). done.
Qed.
(** [us] are the communication buffers *)
Record filled (M i : Z) (us : layout.type) (t : dtmmgr.type) : Prop := {
  fi_joint : ∃ lu, joint lu (us ++ free_seg (M - total us)) t ∧ handles lu = [];
  fi_size : dtmmgr.mem_size t = M;
  fi_align : tmmgr.align (dtmmgr.down t) = 1;
  fi_used : Forall (λ s, is_free s = false) us;
  fi_handles : ∀ h, h ∈ handles us → h < i
}.
Lemma filled_make M : 0 ≤ M < two64 → filled M 0 [] (dtmmgr.make M 1).
Proof.
  intros HM. assert (valid_align 1) as Ha by (exists 0; split; [lia|done]). assert (tmmgr.alignDown M 1 = M) as Hd by (apply alignDown_aligned; [done|done|apply Z.divide_1_l]).
  pose proof (make_spec M 1 Ha HM) as Hrep. rewrite Hd in Hrep.
  assert (tmmgr.high_water (tmmgr.make M 1) = 0 ∧ tmmgr.align (tmmgr.make M 1) = 1 ∧ tmmgr.mem_size (tmmgr.make M 1) = M) as (Hw & Hal & Hsz).
  { unfold tmmgr.make. rewrite Hd. unfold tmmgr.insert_free_segment. by destruct (0 <? M). }
  pose proof (rep_high _ _ Hrep) as Hhigh. rewrite Hw in Hhigh. split; try done.
  - exists (free_seg M). split; [|apply handles_free_seg]. simpl. rewrite Z.sub_0_r. unfold dtmmgr.make, tmmgr.memsize. rewrite Hsz.
    split; simpl; rewrite ?total_free_seg, ?Hal by lia; try done; [lia..|apply Z.divide_1_l].
  - by intros h ?%elem_of_nil.
Qed.
Lemma filled_alloc M i us t cs :
  filled M i us t → 0 < cs → total us + cs ≤ M → cs + 1 ≤ two64 →
  ∃ o t', dtmmgr.alloc i dtmmgr.ARENA_DOWN cs t = (Ret (o, cs), t') ∧ filled M (i + 1) (us ++ [Used i cs]) t'.
Proof.
  intros [(lu & Hj & Hlu) F2 F3 F4 F5] Hcs Hle Hb. set (l := us ++ free_seg (M - total us)) in *.
  assert (Hja : joint_at dtmmgr.ARENA_DOWN l lu t) by done. destruct (joint_at_rep _ _ _ _ Hja) as (Hl & _ & _ & _ & _ & HM & _). simpl in Hl.
  pose proof (alloc_spec (dtmmgr.down t) l i cs Hl Hcs ltac:(by rewrite F3)) as Hspec. unfold alloc_result in Hspec. rewrite F3, alignUp_1 in Hspec by done.
  assert (Hfree : free_seg (M - total us) = [Free (M - total us)]) by (unfold free_seg; by rewrite (proj2 (Z.ltb_lt _ _)) by lia).
  assert (Hnotin : i ∉ handles l).
  { unfold l. rewrite handles_app, handles_free_seg, app_nil_r. intros Hi. specialize (F5 i Hi). lia. }
  destruct (tmmgr.alloc i cs (dtmmgr.down t)) as [[[o m]|e] x] eqn:Hrun.
  2:{ exfalso. destruct Hspec as [_ [[_ Hlt]|[[_ Hin]|[_ Hall]]]]; [|done|].
      - unfold l in Hlt. rewrite free_total_app, Hfree in Hlt. simpl in Hlt.
        pose proof (free_total_bounds us) as Hp. destruct Hp; [|lia]. pose proof (wf_positive _ _ (rep_wf _ _ Hl)) as Hpos. by apply positive_app in Hpos as [? _].
      - specialize (Hall (M - total us)). unfold l in Hall. rewrite Hfree in Hall. specialize (Hall ltac:(apply elem_of_app; right; by left)). lia. }
  destruct Hspec as (-> & _ & _ & _).
  pose proof (dt_alloc_spec dtmmgr.ARENA_DOWN l lu t i cs Hja Hcs ltac:(simpl; by rewrite F3)) as Hdt. simpl in Hdt. rewrite Hrun in Hdt.
  destruct Hdt as (t' & Hrun' & Hx & Hsz & Hax & Hother & l' & lu' & Hj' & l1 & m & l2 & El & Eo & Hm & _ & El').
  destruct (free_at_end us (M - total us) l1 m l2 F4 El) as (-> & -> & ->). rewrite app_nil_r in El'.
  exists (dtmmgr.mem_size t - (o + cs)), t'. split; [done|]. split.
  - exists lu'. split.
    + rewrite <- app_assoc. simpl in Hj'. rewrite El' in Hj'. rewrite total_app. simpl. by replace (M - (total us + (cs + 0))) with (M - total us - cs) by lia.
    + pose proof (joint_up _ _ _ Hj') as Hu. pose proof (joint_up _ _ _ Hj) as Hu0. apply elem_of_nil_inv. intros h (x' & y & Hin)%(elem_of_handles _ _ 0).
      apply (rep_handle _ _ Hu) in Hin. rewrite Hother in Hin. apply (rep_handle _ _ Hu0) in Hin. assert (h ∈ handles lu) as Hh by (apply (elem_of_handles _ _ 0); eauto).
      rewrite Hlu in Hh. by apply elem_of_nil in Hh.
  - by rewrite Hsz.
  - by rewrite Hx, Hax.
  - apply Forall_app. split; [done|]. by repeat constructor.
  - intros h. rewrite handles_app, elem_of_app. intros [Hh| ->%list_elem_of_singleton]; [|lia]. specialize (F5 h Hh). lia.
Qed.
Lemma filled_buffers k : ∀ M i us t cs,
  filled M i us t → 0 < cs → total us + Z.of_nat k * cs ≤ M → cs + 1 ≤ two64 →
  ∃ us', filled M (i + Z.of_nat k) us' (ref_buffers k i cs t) ∧ total us' = total us + Z.of_nat k * cs.
Proof.
  induction k as [|k IH]; intros M i us t cs Hf Hcs Hle Hb; cbn [ref_buffers].
  - exists us. rewrite Z.add_0_r. split; [done|lia].
  - destruct (filled_alloc M i us t cs Hf Hcs ltac:(lia) Hb) as (o & t' & -> & Hf').
    destruct (IH M (i + 1) _ t' cs Hf' Hcs) as (us' & Hf2 & Ht); [rewrite total_app; simpl; lia|done|]. exists us'.
    replace (i + Z.of_nat (S k)) with (i + 1 + Z.of_nat k) by lia. split; [done|]. rewrite Ht, total_app. simpl. lia.
Qed.
(** the rest of the segment is free *)
Lemma reference_room n total cs nb h size :
  0 < n → 0 < total → 0 < cs → 0 < nb → per_node n total cs nb < two64 → 0 < size ≤ (total + n - 1) / n →
  ∃ o up', tmmgr.alloc h size (dtmmgr.up (reference n total cs nb)) = (Ret (o, size), up').
Proof.
  intros Hn Ht Hcs Hnb HM Hs. unfold reference. remember (per_node n total cs nb) as M eqn:EM. unfold per_node in EM.
  assert (0 < (total + n - 1) / n) as Hpos by (apply Z.div_str_pos; lia).
  destruct (filled_buffers (Z.to_nat nb) M 0 [] (dtmmgr.make M 1) cs) as (us & [(lu & Hj & Hlu) F2 F3 F4 F5] & Hus);
    [apply filled_make; nia|done|simpl; rewrite Z2Nat.id by lia; nia|nia|].
  simpl in Hus. rewrite Z2Nat.id in Hus by lia.
  set (t := ref_buffers (Z.to_nat nb) 0 cs (dtmmgr.make M 1)) in *. pose proof (joint_up _ _ _ Hj) as Hu. pose proof (rep_wf _ _ Hu) as Hwf.
  assert (tmmgr.align (dtmmgr.up t) = 1) as Hal by (by rewrite (joint_align _ _ _ Hj)).
  assert (layout.total lu = M - nb * cs) as Htot.
  { rewrite (joint_size_up _ _ _ Hj), F2. f_equal. replace (nb * cs) with (layout.total us) by lia.
    destruct (decide (0 < M - layout.total us)) as [Hpos'|Hneg].
    - unfold free_seg. rewrite (proj2 (Z.ltb_lt _ _)) by lia. apply high_snoc_free.
    - unfold free_seg. rewrite (proj2 (Z.ltb_ge _ _)), app_nil_r by lia. apply high_not_free. unfold ends_free.
      destruct (last us) as [s|] eqn:El; [|tauto]. apply last_Some_elem_of in El. rewrite Forall_forall in F4. by rewrite (F4 s El). }
  assert (lu = [Free (M - nb * cs)]) as Elu.
  { rewrite (only_free lu (wf_positive _ _ Hwf) (wf_separate _ _ Hwf) Hlu), Htot. unfold free_seg. by rewrite (proj2 (Z.ltb_lt _ _)) by lia. }
  pose proof (alloc_spec (dtmmgr.up t) lu h size Hu ltac:(lia) ltac:(rewrite Hal; nia)) as Hspec. unfold alloc_result in Hspec.
  rewrite Hal, alignUp_1 in Hspec by (lia || nia). rewrite Elu in Hspec.
  destruct (tmmgr.alloc h size (dtmmgr.up t)) as [[[o m]|e] x]; [destruct Hspec as (-> & _); by exists o, x|].
  exfalso. destruct Hspec as [_ [[_ Hlt]|[[_ Hin]|[_ Hall]]]].
  - simpl in Hlt. lia.
  - by apply elem_of_nil in Hin.
  - specialize (Hall (M - nb * cs) ltac:(by left)). lia.
Qed.
End room.
(** ** The requests *)
Section requests.
Context `{UnorderedMultiset} `{AssertMode} `{Unordered} `{Gaspi} `{Syscalls} `{manager.Machine}.
Context (what : exn → string) (hostname_of_rank : Z → string).
Lemma part_size_up n size : 0 < n → 0 < size → part_size n size = (size + n - 1) / n.
Proof.
  intros Hn Hs. unfold part_size, get_local_size. change ((SEG_GASPI =? SEG_GASPI) && is_set F_GLOBAL F_GLOBAL) with true. cbn iota.
  pose proof (Z.div_mod size n ltac:(lia)). pose proof (Z.mod_pos_bound size n Hn). destruct (Z.eqb_spec (size mod n) 0) as [E|E].
  - apply (Z.div_unique _ n _ (n - 1)); lia.
  - apply (Z.div_unique _ n _ (size mod n - 1)); lia.
Qed.
Lemma create_segment_run r proc text id c c' :
  manager.add_memory what r proc text c = (Ret id, c') → create_segment what hostname_of_rank r proc text (connected, c) = (Ret id, (connected, c')).
Proof.
  intros E. unfold create_segment. rewrite (bind_eq _ _ _ (add_reply_t (Ret id)) (connected, c')); [done|].
  unfold communicate. cbn [m_socket connected fst snd]. unfold handle_message. unfold handle_request.
  rewrite (bind_eq _ _ _ (Ret id) c'); [done|]. unfold kept. by rewrite E.
Qed.
Lemma client_alloc_run r proc seg size name flags h c c' :
  manager.alloc what r proc seg size name flags c = (Ret h, c') →
  alloc what hostname_of_rank r proc seg size name flags (connected, c) = (Ret h, (connected, c')).
Proof.
  intros E. unfold alloc. rewrite (bind_eq _ _ _ (alloc_reply_t h) (connected, c')); [done|].
  unfold communicate. cbn [m_socket connected fst snd]. unfold handle_message. unfold handle_request.
  by rewrite (bind_eq _ _ _ h c').
Qed.
(** C27: on nodes that have just started and have the memory, an allocation of a runtime system
    succeeds: the segment that is made for it and its communication buffers has room for
    it on every node, and all nodes agree on it. *)
Theorem vmem_allocation_succeeds (n size cs nb r proc : Z) (description : string) :
  request_ok n size cs nb → 0 ≤ r < n → proc ≠ GPI_PC_INVAL →
  ∃ id h c' up, vmem_allocation what hostname_of_rank r proc (gaspi_segment_description cs nb) size description (connected, boot n) =
      (Ret (id, h), (connected, c')) ∧
    implements id n (per_node n size cs nb) (nb + 1) up {[h := size]} c'.
Proof.
  intros Hq Hr Hproc. destruct (add_memory_run what n size cs nb r proc Hq Hr) as (id & c & E & Hi & _). pose proof Hq as [Q1 [Q2 Q2'] [Q3 [Q3' Q3'']] Q4 _].
  pose proof (alloc_refines what id n _ nb _ ∅ c r proc size description F_GLOBAL Hi Hr ltac:(assert (2 ^ 40 < two64) by done; lia) Hproc eq_refl ltac:(lia)) as Hspec.
  unfold vmem_allocation, make_remote_segment. rewrite (bind_eq _ _ _ _ _ (create_segment_run r proc _ id _ _ E)).
  destruct (manager.alloc what r proc id size description F_GLOBAL c) as [[h|e] c'] eqn:Ea.
  - destruct Hspec as (o & up' & _ & _ & Hty & Hi' & _). exists id, h, c', up'. split; [|exact Hi'].
    rewrite (bind_eq _ _ _ h (connected, c')); [done|]. unfold unwinding, vmem_alloc. rewrite (bind_eq _ _ _ _ _ (client_alloc_run r proc id size description F_GLOBAL h c c' Ea)).
    rewrite (proj2 (Z.eqb_neq h 0)); [done|]. intros ->. done.
  - exfalso. destruct Hspec as (_ & _ & [Hx|[Hx|(h & e' & up' & _ & Hx)]]); [assert (2 ^ 40 < 2 ^ 48 - 1) by done; lia|lia|].
    destruct (reference_room n size cs nb h (part_size n size)) as (o & up2 & E2); [lia..|done| |congruence].
    rewrite part_size_up by lia. split; [|lia]. apply Z.div_str_pos. lia.
Qed.
(** a failure of a copy is thrown by [wait], and the connection is closed: the client has no
    segments any more and every other request fails *)
Lemma failed_copy_disconnects r proc s id e c' :
  m_socket s.1 = true → manager.wait r id s.2 = (Throw e, c') → catchable e = true →
  wait what hostname_of_rank r proc id s = (Throw e, (mk_api false ∅, c')) ∧
  ∀ rqst, communicate what hostname_of_rank r proc rqst (mk_api false ∅, c') = (Throw (Std (runtime_error "write: Bad file descriptor")), (mk_api false ∅, c')).
Proof.
  intros Hs E He. split; [|done]. unfold wait. rewrite (bind_eq _ _ _ (wait_reply_t (Throw e)) (s.1, c')).
  - unfold stop. rewrite bind_modify. cbn [fst snd]. by rewrite Hs.
  - unfold communicate. rewrite Hs. unfold handle_message, handle_request. rewrite (bind_eq _ _ _ (Throw e) c'); [done|]. unfold kept. by rewrite E, He.
Qed.
End requests.
Section example.
Import vmem_theorems.
#[local] Existing Instances small_gaspi small_syscalls small_machine asserting.
Lemma vmem_allocation_succeeds_witness :
  request_ok 2 16 4 2 ∧
  ∃ c' up, vmem_allocation no_text (λ _, "") 1 7 (gaspi_segment_description 4 2) 16 "data" (connected, boot 2) =
      (Ret (281474976710657, 1153202979583557635), (connected, c')) ∧
    implements 281474976710657 2 16 3 up {[1153202979583557635 := 16]} c'.
Proof.
  split; [exact small_request|].
  destruct (vmem_allocation_succeeds no_text (λ _, "") 2 16 4 2 1 7 "data" small_request ltac:(lia) ltac:(vm_compute; discriminate)) as (id & h & c' & up & E & Hi).
  assert (Ret (id, h) = @Ret thrown _ (281474976710657, 1153202979583557635)) as [= -> ->] by (apply (f_equal fst) in E; cbn [fst] in E; rewrite <- E; vm_compute; reflexivity).
  exists c', up. exact (conj E Hi).
Defined.
End example.
End client_spec.
