(* ===== verification/XmlNet.v ===== *)
(** * Nets as the compiler sees them

    The data that the compiler has after it has read the XML files
    ([xml/parse/type]: function.cpp, net.cpp, transition.cpp, place.cpp, port.cpp, connect.cpp,
    struct.cpp, specialize.cpp), and the passes that run over it ([post_processing_passes] of
    parser.cpp): templates are specialized, functions that are used by name are put in place,
    types are looked up, and everything that is connected is checked.

    Positions in files and the texts of messages are left out. *)

From S2P Require Import Prelude Value Token Function ReadShow Expr Parser ModuleCall Net.

Module xml.
Import Signature.

(** ** Warnings and errors ([xml/parse/warning.hpp], [xml/parse/error.hpp]) *)
Inductive warning : Type :=
| independent_transition (transition : string)
| conflicting_port_types (transition port : string)
| overwrite_function_name_trans (transition function : string)
| inline_many_output_ports (transition : string)
| independent_place (place : string)
| property_overwritten (path : list string)
| synthesize_anonymous_function
| port_not_connected_warning (port : string)
| struct_redefined_warning (name : string).

Inductive error : Type :=
| a_warning (w : warning)
| unknown_function (name transition : string)
| duplicate_place (name : string)
| duplicate_transition (name : string)
| duplicate_connect (transition : string)
| duplicate_place_map (transition : string)
| duplicate_port (port : string)
| port_type_mismatch (port : string)
| memory_buffer_with_same_name_as_port (name : string)
| memory_buffer_for_non_module
| memory_transfer_for_non_module
| struct_redefined (name : string)
| unknown_template (name use : string)
(** of a class that is local to a function *)
| ignore_exception
| place_type_unknown (place type : string)
| port_with_unknown_type (port type : string)
| could_not_resolve (type : string) (path : list string)
| connect_to_nonexistent_place (transition place : string)
| connect_to_nonexistent_port (transition port : string)
| connect_type_error (transition port place : string)
| unknown_port_in_connect_response (port : string)
| unknown_to_in_connect_response (to_ : string)
| invalid_signature_in_connect_response (to_ : string)
| connect_eureka_to_nonexistent_out_port (port : string)
| eureka_port_type_mismatch (port : string)
| port_not_connected (port : string)
| port_connected_place_nonexistent (port : string)
| port_connected_type_error (port place : string)
| tunnel_connected_non_virtual (port place : string)
| tunnel_name_mismatch (port place : string)
| real_place_missing (place_virtual place_real transition : string)
| no_map_for_virtual_place (place : string)
| port_tunneled_type_error (place place_real : string)
| strange (what : string)
| weparse (descr : string) (e : exn)
(** an assumption of the compiler is broken: an empty [boost::optional], the wrong alternative
    of a [boost::variant], a key that is not in a map *)
| broken (e : exn)
(** other exceptions: of the engine, of the parser of expressions, of a property *)
| other (e : exn).

(** ** The options of the compiler that matter here ([state.hpp]) *)
Record state : Type := mk_state {
  warning_error : bool;
  warning_all : bool;
  active : warning → bool;
  synthesize_virtual_places : bool;
  no_inline : bool;
  (** what the files that were read require *)
  requirements : gmap string bool
}.
(** [generic_warn]: a warning is printed or thrown *)
Definition warn (st : state) (w : warning) : outcome error unit :=
  if warning_all st || active st w then if warning_error st then Throw (a_warning w) else Ret tt else Ret tt.

(** ** [fhg::pnet::util::unique]

    A hash map of values by their keys: the list of values in the order of iteration, which an
    insertion may change in any way. *)
Class Arrange := {
  arrange : ∀ {T : Type}, list T → list T;
  arrange_perm : ∀ {T : Type} (l : list T), arrange l ≡ₚ l
}.
Section unique.
Context `{Arrange} `{EqDecision K} {T : Type} (key : T → K).
Definition has (k : K) (l : list T) : bool := existsb (λ x, bool_decide (key x = k)) l.
Definition get (k : K) (l : list T) : option T := find (λ x, bool_decide (key x = k)) l.
Definition push (duplicate : error) (v : T) (l : list T) : outcome error (list T) :=
  if has (key v) l then Throw duplicate else Ret (arrange (v :: l)).
(** the values made of those of another container, one after the other *)
Fixpoint push_each {S} (make : S → outcome error T) (duplicate : T → error) (vs : list S) (l : list T) : outcome error (list T) :=
  match vs with
  | [] => Ret l
  | v :: vs => w ← make v; l ← push (duplicate w) w l; push_each make duplicate vs l
  end.
End unique.
(** a loop that may throw *)
Section each.
Context {E A B : Type} (f : A → outcome E unit) (g : A → outcome E B).
Fixpoint each (l : list A) : outcome E unit :=
  match l with [] => Ret tt | x :: l => f x ≫= λ _, each l end.
Fixpoint map_each (l : list A) : outcome E (list B) :=
  match l with [] => Ret [] | x :: l => y ← g x; ys ← map_each l; Ret (y :: ys) end.
End each.

(** ** Places, ports, connections *)
Record place_type : Type := mk_place {
  p_name : string;
  p_type : string;
  p_virtual : option bool;
  p_put_token : option bool;
  tokens : list string;
  p_properties : property_type;
  p_signature : option signature_type
}.
Definition is_virtual (p : place_type) : bool := default false (p_virtual p).
Definition with_name (n : string) (p : place_type) : place_type :=
  mk_place n (p_type p) (p_virtual p) (p_put_token p) (tokens p) (p_properties p) (p_signature p).
Record port_type : Type := mk_port {
  o_name : string;
  o_type : string;
  o_signature : option signature_type;
  o_place : option string;
  o_direction : port.PortDirection;
  o_properties : property_type
}.
#[global] Instance direction_eq_dec : EqDecision port.PortDirection.
Proof. solve_decision. Defined.
Definition port_key (p : port_type) : string * port.PortDirection := (o_name p, o_direction p).
Record connect_type : Type := mk_connect {
  c_place : string;
  c_port : string;
  c_direction : edge.type;
  c_properties : property_type
}.
(** [we::edge::is_PT] *)
Definition is_PT (e : edge.type) : bool := match e with edge.PT | edge.PT_READ => true | _ => false end.
Definition connect_key (c : connect_type) : string * string * bool := (c_place c, c_port c, is_PT (c_direction c)).
Definition with_place (n : string) (c : connect_type) : connect_type := mk_connect n (c_port c) (c_direction c) (c_properties c).
Record place_map_type : Type := mk_place_map { place_virtual : string; place_real : string; pm_properties : property_type }.
Definition place_map_key (p : place_map_type) : string * string := (place_virtual p, place_real p).
Definition with_place_real (n : string) (p : place_map_type) : place_map_type := mk_place_map (place_virtual p) n (pm_properties p).
Record response_type : Type := mk_response { r_port : string; r_to : string; r_properties : property_type }.
(** the signature of a structure has its name *)
Record structure_type : Type := mk_structure { s_name : string; s_fields : list field_type }.
Definition s_signature (s : structure_type) : signature_type := Sstruct (s_name s) (s_fields s).

(** ** Functions *)
Record memory_buffer_type : Type := mk_memory_buffer { mb_name : string; mb_size : string; mb_alignment : string }.
Record module_type : Type := mk_module {
  m_name : string;
  m_function : string;
  m_memory_buffer_arg : list string;
  m_eureka_id : option string;
  m_function_unloads : bool;
  m_module_unloads : bool
}.
Record function_data : Type := mk_function_data {
  f_name : option string;
  f_ports : list port_type;
  f_memory_buffers : list memory_buffer_type;
  f_memory_gets : list module_call.memory_transfer;
  f_memory_puts : list module_call.memory_transfer;
  f_memory_getputs : list module_call.memory_transfer;
  f_structs : list structure_type;
  f_conditions : list string;
  f_requirements : gmap string bool;
  f_preferences : list string;
  f_properties : property_type
}.
Record transition_data : Type := mk_transition_data {
  t_name : string;
  connections : list connect_type;
  responses : list response_type;
  eurekas : list string;
  place_map : list place_map_type;
  t_structs : list structure_type;
  t_conditions : list string;
  t_requirements : gmap string bool;
  t_priority : option Z;
  finline : option bool;
  t_properties : property_type
}.
(** [type_map], [type_get] *)
Record specialize_type : Type := mk_specialize { sp_name : string; sp_use : string; sp_map : gmap string string; sp_get : gset string }.
Record net_data : Type := mk_net_data {
  places : list place_type;
  specializes : list specialize_type;
  n_structs : list structure_type;
  n_properties : property_type
}.
Record transition_of (F : Type) : Type := mk_transition { t_data : transition_data; function_or_use : F + string }.
Record net_of (F : Type) : Type := mk_net {
  n_data : net_data;
  functions : list F;
  templates : list (string * F);
  transitions : list (transition_of F)
}.
Arguments mk_transition {F}.
Arguments t_data {F}.
Arguments function_or_use {F}.
Arguments mk_net {F}.
Arguments n_data {F}.
Arguments functions {F}.
Arguments templates {F}.
Arguments transitions {F}.
#[warnings="-register-all"]
Inductive content_of (F : Type) : Type :=
| expression (expressions : list string)
| module (m : module_type)
| net (n : net_of F)
| multi_module (modules : list (string * module_type)).
Arguments expression {F}.
Arguments module {F}.
Arguments net {F}.
Arguments multi_module {F}.
#[warnings="-register-all"]
Inductive function_type : Type := mk_function (f_data : function_data) (content : content_of function_type).
Abbreviation net_type := (net_of function_type).
Abbreviation transition_type := (transition_of function_type).
Definition f_data (f : function_type) : function_data := match f with mk_function d _ => d end.
Definition content (f : function_type) : content_of function_type := match f with mk_function _ c => c end.
Definition get_net (f : function_type) : option net_type := match content f with net n => Some n | _ => None end.
Definition is_net (f : function_type) : bool := match content f with net _ => true | _ => false end.
Definition ports (f : function_type) : list port_type := f_ports (f_data f).
Definition get_port (d : port.PortDirection) (name : string) (l : list port_type) : option port_type := get port_key (name, d) l.
Definition resolved_function (t : transition_type) : outcome error function_type :=
  match function_or_use t with inl f => Ret f | inr _ => Throw (broken bad_get) end.

(** the checks of the constructor of functions *)
Definition check_function (d : function_data) (is_module : bool) : outcome error unit :=
  each (λ p,
    (match o_direction p with
     | port.PORT_TUNNEL => Ret tt
     | dir =>
         match get_port (if decide (dir = port.PORT_IN) then port.PORT_OUT else port.PORT_IN) (o_name p) (f_ports d) with
         | Some q => if decide (o_type p = o_type q) then Ret tt else Throw (port_type_mismatch (o_name p))
         | None => Ret tt
         end
     end) ≫= λ _,
    if has mb_name (o_name p) (f_memory_buffers d) then Throw (memory_buffer_with_same_name_as_port (o_name p)) else Ret tt)
    (f_ports d) ≫= λ _,
  each (λ b, if has port_key (mb_name b, port.PORT_IN) (f_ports d) || has port_key (mb_name b, port.PORT_OUT) (f_ports d)
             then Throw (memory_buffer_with_same_name_as_port (mb_name b)) else Ret tt)
    (f_memory_buffers d) ≫= λ _,
  if is_module then Ret tt
  else match f_memory_buffers d, f_memory_gets d, f_memory_puts d, f_memory_getputs d with
  | [], [], [], [] => Ret tt
  | [], _, _, _ => Throw memory_transfer_for_non_module
  | _, _, _, _ => Throw memory_buffer_for_non_module
  end.

(** ** Prefixes *)
Section prefixes.
Context `{Arrange}.
(** [fhg::util::remove_prefix] *)
Fixpoint remove_prefix (prefix word : string) : outcome error string :=
  match prefix, word with
  | "", _ => Ret word
  | String a prefix', String b word' =>
      if decide (a = b) then remove_prefix prefix' word'
      else Throw (broken (runtime_error ("remove_prefix failed, rest: prefix = " +:+ word +:+ ", word = " +:+ prefix)))
  | _, "" => Throw (broken (runtime_error ("remove_prefix failed, rest: prefix = , word = " +:+ prefix)))
  end.
Definition renamed (rename : string → outcome error string) (t : transition_data) : outcome error transition_data :=
  cs ← push_each connect_key (λ c, n ← rename (c_place c); Ret (with_place n c)) (λ _, duplicate_connect (t_name t)) (connections t) [];
  pms ← push_each place_map_key (λ pm, n ← rename (place_real pm); Ret (with_place_real n pm)) (λ _, duplicate_place_map (t_name t)) (place_map t) [];
  n ← rename (t_name t);
  Ret (mk_transition_data n cs (responses t) (eurekas t) pms (t_structs t) (t_conditions t) (t_requirements t) (t_priority t) (finline t) (t_properties t)).
Definition rename_net (rename : string → outcome error string) (n : net_type) : outcome error net_type :=
  ps ← push_each p_name (λ p, m ← rename (p_name p); Ret (with_name m p)) (λ p, duplicate_place (p_name p)) (places (n_data n)) [];
  ts ← push_each (λ t : transition_type, t_name (t_data t)) (λ t, d ← renamed rename (t_data t); Ret (mk_transition d (function_or_use t)))
         (λ t, duplicate_transition (t_name (t_data t))) (transitions n) [];
  Ret (mk_net (mk_net_data ps (specializes (n_data n)) (n_structs (n_data n)) (n_properties (n_data n))) (functions n) (templates n) ts).
Definition set_prefix (prefix : string) : net_type → outcome error net_type := rename_net (λ n, Ret (prefix +:+ n)).
Definition unset_prefix (prefix : string) : net_type → outcome error net_type := rename_net (remove_prefix prefix).
(** [rewrite/validprefix.hpp] *)
Definition has_magic_prefix (name : string) : bool := match name with String "_" _ => true | _ => false end.
Definition mk_prefix (name : string) : string := "_" +:+ name +:+ "_".
End prefixes.

(** ** Setters *)
Definition set_ports (ps : list port_type) (d : function_data) : function_data :=
  mk_function_data (f_name d) ps (f_memory_buffers d) (f_memory_gets d) (f_memory_puts d) (f_memory_getputs d) (f_structs d)
    (f_conditions d) (f_requirements d) (f_preferences d) (f_properties d).
Definition set_requirements (r : gmap string bool) (d : function_data) : function_data :=
  mk_function_data (f_name d) (f_ports d) (f_memory_buffers d) (f_memory_gets d) (f_memory_puts d) (f_memory_getputs d) (f_structs d)
    (f_conditions d) r (f_preferences d) (f_properties d).
Definition set_structs (l : list structure_type) (d : function_data) : function_data :=
  mk_function_data (f_name d) (f_ports d) (f_memory_buffers d) (f_memory_gets d) (f_memory_puts d) (f_memory_getputs d) l
    (f_conditions d) (f_requirements d) (f_preferences d) (f_properties d).
Definition set_name (n : string) (d : function_data) : function_data :=
  mk_function_data (Some n) (f_ports d) (f_memory_buffers d) (f_memory_gets d) (f_memory_puts d) (f_memory_getputs d) (f_structs d)
    (f_conditions d) (f_requirements d) (f_preferences d) (f_properties d).
Definition set_t_structs (l : list structure_type) (t : transition_data) : transition_data :=
  mk_transition_data (t_name t) (connections t) (responses t) (eurekas t) (place_map t) l (t_conditions t) (t_requirements t) (t_priority t)
    (finline t) (t_properties t).
Definition set_n_structs (l : list structure_type) (n : net_type) : net_type :=
  mk_net (mk_net_data (places (n_data n)) (specializes (n_data n)) l (n_properties (n_data n))) (functions n) (templates n) (transitions n).

(** ** Signatures *)
(** [signature/is_literal.cpp] *)
Definition is_literal (t : string) : bool :=
  bool_decide (t ∈ ["control"; "bool"; "int"; "long"; "unsigned int"; "unsigned long"; "float"; "double"; "char"; "string";
                    "bitset"; "bytearray"; "list"; "set"; "map"; "stack"]).
(** [signature/resolve.cpp] *)
Section resolve.
Context (resolver : string → option signature_type).
Fixpoint resolve_field (path : list string) (f : field_type) : outcome error field_type :=
  match f with
  | Fsimple n t =>
      if is_literal t then Ret f
      else match resolver t with
      | None => Throw (could_not_resolve t (path ++ [n]))
      | Some (Sname s) => Ret (Fsimple n s)
      | Some (Sstruct _ fs) => Ret (Fstruct n fs)
      end
  | Fstruct n fs => gs ← map_each (resolve_field (path ++ [n])) fs; Ret (Fstruct n gs)
  end.
Definition resolve (s : structure_type) : outcome error signature_type :=
  fs ← map_each (resolve_field [s_name s]) (s_fields s); Ret (Sstruct (s_name s) fs).
End resolve.
#[global] Instance field_type_eq_dec : EqDecision field_type.
Proof.
  unfold EqDecision, RelDecision. fix go 1. intros x y. destruct x as [n t|n fs], y as [n' t'|n' fs']; [|by right|by right|].
  - destruct (decide (n = n')) as [->|]; [|right; congruence]. destruct (decide (t = t')) as [->|]; [by left|right; congruence].
  - destruct (decide (n = n')) as [->|]; [|right; congruence].
    destruct (@list_eq_dec field_type go fs fs') as [->|]; [by left|right; congruence].
Defined.
#[global] Instance signature_type_eq_dec : EqDecision signature_type.
Proof. solve_decision. Defined.

(** ** Templates

    A function that is the specialization of a template is a copy of the function of the
    template, with other types. *)
Abbreviation type_map_type := (gmap string string).
Abbreviation struct_set := (gmap string structure_type).
Definition mapped (m : type_map_type) (x : string) : string := default x (m !! x).
(** [signature/specialize.cpp] *)
Fixpoint specialize_field (m : type_map_type) (f : field_type) : field_type :=
  match f with
  | Fsimple n t => Fsimple n (mapped m t)
  | Fstruct n fs => Fstruct (mapped m n) (map (specialize_field m) fs)
  end.
Definition specialize_structure (m : type_map_type) (s : structure_type) : structure_type :=
  mk_structure (mapped m (s_name s)) (map (specialize_field m) (s_fields s)).
Definition specialized_place (m : type_map_type) (p : place_type) : place_type :=
  mk_place (p_name p) (mapped m (p_type p)) (p_virtual p) (p_put_token p) (tokens p) (p_properties p) (p_signature p).
Definition specialized_port (m : type_map_type) (p : port_type) : port_type :=
  mk_port (o_name p) (mapped m (o_type p)) (o_signature p) (o_place p) (o_direction p) (o_properties p).
Section specialize.
Context `{Unordered} `{Arrange} (st : state).
(** [structure_type_util] *)
Fixpoint make_structs (l : list structure_type) (set : struct_set) : outcome error struct_set :=
  match l with
  | [] => Ret set
  | s :: l =>
      (match set !! s_name s with
       | Some old => if decide (s_signature old = s_signature s) then warn st (struct_redefined_warning (s_name s)) else Throw (struct_redefined (s_name s))
       | None => Ret tt
       end) ≫= λ _,
      make_structs l (emplace (s_name s) s set).1
  end.
Definition join_structs (above below : struct_set) : outcome error struct_set :=
  foldl (λ joined ks, joined ≫= λ joined,
    match joined !! s_name ks.2 with
    | Some old => if decide (s_signature old = s_signature ks.2) then Ret joined else Throw (struct_redefined (s_name ks.2))
    | None => Ret (<[s_name ks.2 := ks.2]> joined)
    end) (Ret above) (unordered_list below).
Definition resolve_structure (m : struct_set) (s : structure_type) : outcome error structure_type :=
  x ← resolve (λ n, s_signature <$> m !! n) s;
  match x with
  | Sname n => Throw (other (runtime_error ("expected struct, got " +:+ n)))
  | Sstruct n fs => Ret (mk_structure n fs)
  end.
(** the structures of the child that stay there, and all structures of the parent *)
Definition split_structs (global : struct_set) (child parent : list structure_type) (type_get : gset string) :
    outcome error (list structure_type * list structure_type) :=
  p ← make_structs parent ∅;
  c ← make_structs child ∅;
  x ← join_structs p c;
  known ← join_structs global x;
  foldl (λ r s, r ≫= λ r,
    if decide (s_name s ∈ type_get) then s ← resolve_structure known s; Ret (r.1, r.2 ++ [s]) else Ret (r.1 ++ [s], r.2)) (Ret ([], parent)) child.
Definition type_map_apply (outer inner : type_map_type) : type_map_type := mapped outer <$> inner.
(** [specialize] of functions inside *)
Section inside.
Context (specialize : type_map_type → gset string → struct_set → function_type → outcome error function_type).
(** a function of a net whose structures are [structs] *)
Definition specialize_child (m : type_map_type) (type_get : gset string) (known : struct_set) (structs : list structure_type) (f : function_type) :
    outcome error (function_type * list structure_type) :=
  k ← make_structs structs ∅;
  k ← join_structs known k;
  g ← specialize m type_get k f;
  cp ← split_structs known (f_structs (f_data g)) structs type_get;
  Ret (mk_function (set_structs cp.1 (f_data g)) (content g), cp.2).
Fixpoint specialize_templates (m : type_map_type) (known : struct_set) (templates : list (string * function_type)) (sps : list specialize_type)
    (fs : list function_type) (structs : list structure_type) : outcome error (list function_type * list structure_type) :=
  match sps with
  | [] => Ret (fs, structs)
  | sp :: sps =>
      t ← or_throw (unknown_template (sp_name sp) (sp_use sp)) (get fst (sp_use sp) templates);
      let d := set_name (sp_name sp) (f_data t.2) in
      check_function d (match content t.2 with module _ => true | _ => false end) ≫= λ _,
      gs ← specialize_child (type_map_apply m (sp_map sp)) (sp_get sp) known structs (mk_function d (content t.2));
      fs ← push (λ f, f_name (f_data f)) ignore_exception gs.1 fs;
      specialize_templates m known templates sps fs gs.2
  end.
Fixpoint specialize_functions (m : type_map_type) (type_get : gset string) (known : struct_set) (l : list function_type) (structs : list structure_type) :
    outcome error (list function_type * list structure_type) :=
  match l with
  | [] => Ret ([], structs)
  | f :: l =>
      gs ← specialize_child m type_get known structs f;
      r ← specialize_functions m type_get known l gs.2;
      Ret (gs.1 :: r.1, r.2)
  end.
Fixpoint specialize_transitions (m : type_map_type) (type_get : gset string) (known : struct_set) (l : list transition_type)
    (structs : list structure_type) : outcome error (list transition_type * list structure_type) :=
  match l with
  | [] => Ret ([], structs)
  | t :: l =>
      k ← make_structs structs ∅;
      k ← join_structs known k;
      f ← match function_or_use t with inl f => g ← specialize m type_get k f; Ret (inl g) | inr u => Ret (inr u) end;
      cp ← split_structs known (t_structs (t_data t)) structs type_get;
      r ← specialize_transitions m type_get known l cp.2;
      Ret (mk_transition (set_t_structs cp.1 (t_data t)) f :: r.1, r.2)
  end.
Definition specialize_net (m : type_map_type) (type_get : gset string) (known : struct_set) (n : net_type) : outcome error net_type :=
  let d := n_data n in
  fs ← specialize_templates m known (templates n) (specializes d) (functions n) (n_structs d);
  fs ← specialize_functions m type_get known fs.1 fs.2;
  ts ← specialize_transitions m type_get known (transitions n) fs.2;
  ps ← push_each p_name (λ p, Ret (specialized_place m p)) (λ p, duplicate_place (p_name p)) (places d) [];
  Ret (mk_net (mk_net_data ps (specializes d) (map (specialize_structure m) ts.2) (n_properties d)) fs.1 (templates n) ts.1).
End inside.
(** functions that are nested deeper than [fuel] are not reached *)
Fixpoint specialize (fuel : nat) (m : type_map_type) (type_get : gset string) (known : struct_set) (f : function_type) : outcome error function_type :=
  match fuel with
  | O => Throw (broken out_of_fuel)
  | S fuel =>
      let d := f_data f in
      ps ← push_each port_key (λ p, Ret (specialized_port m p)) (λ p, duplicate_port (o_name p)) (f_ports d) [];
      let structs := map (specialize_structure m) (f_structs d) in
      k ← make_structs structs ∅;
      k ← join_structs known k;
      match content f with
      | net n =>
          n ← specialize_net (specialize fuel) m type_get k n;
          cp ← split_structs k (n_structs (n_data n)) structs type_get;
          Ret (mk_function (set_structs cp.2 (set_ports ps d)) (net (set_n_structs cp.1 n)))
      | c => Ret (mk_function (set_structs structs (set_ports ps d)) c)
      end
  end.
(** how deep functions are nested, those of templates too *)
Fixpoint height (f : function_type) : nat :=
  match f with
  | mk_function _ (net n) =>
      S (max_list (map height (functions n)) `max` max_list (map (λ x, match x with (_, g) => height g end) (templates n))
         `max` max_list (map (λ t, match t with mk_transition _ (inl g) => height g | _ => 0%nat end) (transitions n)))
  | _ => 1%nat
  end.
Definition specialize_all (f : function_type) : outcome error function_type := specialize (height f) ∅ ∅ ∅ f.
End specialize.

(** ** Functions that are used by name

    A transition inside of a function that uses the function is assigned a copy of what it is
    itself a part of. *)
Definition uses_itself : error := broken (undefined "a function that uses itself").
(**

    [known] holds references to functions of the nets around: [Some f] is the present value of
    such a function; [None] says that the function is being worked on, so that a use of it is
    inside of it. *)
Abbreviation known_functions := (gmap string (option function_type)).
Definition know (f : function_type) (known : known_functions) : known_functions :=
  match f_name (f_data f) with Some n => (emplace n (Some f) known).1 | None => known end.
(** the entry of a function of this net, unless a net around has one of that name *)
Definition know_again (outer : known_functions) (f : function_type) (x : option function_type) (known : known_functions) : known_functions :=
  match f_name (f_data f) with
  | Some n => match outer !! n with Some _ => known | None => <[n := x]> known end
  | None => known
  end.
(** the functions of a net one after the other, in place *)
Section in_place.
Context (outer : known_functions) (resolve : known_functions → function_type → outcome error function_type).
Fixpoint resolve_functions (known : known_functions) (l : list function_type) : outcome error (list function_type) :=
  match l with
  | [] => Ret []
  | f :: l =>
      g ← resolve (know_again outer f None known) f;
      gs ← resolve_functions (know_again outer f (Some g) known) l;
      Ret (g :: gs)
  end.
End in_place.
Fixpoint resolve_function_use_recursive (known : known_functions) (f : function_type) {struct f} : outcome error function_type :=
  match f with
  | mk_function d (net n) =>
      let inner := foldl (λ k g, know g k) known (functions n) in
      ts ← map_each (λ t, match t with
        | mk_transition td (inr name) =>
            match inner !! name with
            | None => Throw (unknown_function name (t_name td))
            | Some None => Throw uses_itself
            | Some (Some g) => Ret (mk_transition td (inl g))
            end
        | mk_transition td (inl g) => g ← resolve_function_use_recursive inner g; Ret (mk_transition td (inl g))
        end) (transitions n);
      ms ← map_each (λ m, match m with (name, g) => g ← resolve_function_use_recursive inner g; Ret (name, g) end) (templates n);
      fs ← resolve_functions known resolve_function_use_recursive inner (functions n);
      Ret (mk_function d (net (mk_net (n_data n) fs ms ts)))
  | _ => Ret f
  end.

(** ** Types *)
Abbreviation known_types := (gmap string signature_type).
(** the structures of a net or function: what is known comes first *)
Fixpoint know_structs (structs rest : list structure_type) (known : known_types) : outcome error known_types :=
  match rest with
  | [] => Ret known
  | s :: rest =>
      x ← resolve (λ n, match known !! n with Some t => Some t | None => s_signature <$> get s_name n structs end) s;
      know_structs structs rest (emplace (s_name s) x known).1
  end.
Definition lookup_type (known : known_types) (t : string) (e : error) : outcome error signature_type :=
  if is_literal t then Ret (Sname t) else or_throw e (known !! t).
Definition resolve_place (known : known_types) (p : place_type) : outcome error place_type :=
  s ← lookup_type known (p_type p) (place_type_unknown (p_name p) (p_type p));
  Ret (mk_place (p_name p) (p_type p) (p_virtual p) (p_put_token p) (tokens p) (p_properties p) (Some s)).
Definition resolve_port (known : known_types) (p : port_type) : outcome error port_type :=
  s ← lookup_type known (o_type p) (port_with_unknown_type (o_name p) (o_type p));
  Ret (mk_port (o_name p) (o_type p) (Some s) (o_place p) (o_direction p) (o_properties p)).
(** templates are left alone *)
Fixpoint resolve_types_recursive (known : known_types) (f : function_type) {struct f} : outcome error function_type :=
  match f with
  | mk_function d c =>
      known ← know_structs (f_structs d) (f_structs d) known;
      c ← match c with
          | net n =>
              inner ← know_structs (n_structs (n_data n)) (n_structs (n_data n)) known;
              ts ← map_each (λ t, match t with
                | mk_transition td (inl g) => g ← resolve_types_recursive inner g; Ret (mk_transition td (inl g))
                | _ => Ret t
                end) (transitions n);
              fs ← map_each (resolve_types_recursive inner) (functions n);
              ps ← map_each (resolve_place inner) (places (n_data n));
              Ret (net (mk_net (mk_net_data ps (specializes (n_data n)) (n_structs (n_data n)) (n_properties (n_data n))) fs (templates n) ts))
          | c => Ret c
          end;
      ps ← map_each (resolve_port known) (f_ports d);
      Ret (mk_function (set_ports ps d) c)
  end.

(** ** The type check *)
(** [_signature.get()] *)
Definition signature_of (s : option signature_type) : outcome error signature_type :=
  or_throw (broken (undefined "get of an empty optional")) s.
(** [type_checker] of port.cpp *)
Definition check_port (st : state) (f : function_type) (p : port_type) : outcome error unit :=
  match content f, o_place p with
  | net n, None =>
      match o_direction p with
      | port.PORT_IN => warn st (port_not_connected_warning (o_name p))
      | _ => Throw (port_not_connected (o_name p))
      end
  | net n, Some place =>
      match get p_name place (places (n_data n)) with
      | None => Throw (port_connected_place_nonexistent (o_name p))
      | Some place =>
          ps ← signature_of (p_signature place);
          os ← signature_of (o_signature p);
          if decide (ps = os) then
            match o_direction p with
            | port.PORT_TUNNEL =>
                if is_virtual place then
                  if decide (o_name p = p_name place) then Ret tt else Throw (tunnel_name_mismatch (o_name p) (p_name place))
                else Throw (tunnel_connected_non_virtual (o_name p) (p_name place))
            | _ => Ret tt
            end
          else Throw (port_connected_type_error (o_name p) (p_name place))
      end
  | _, Some _ => Throw (port_connected_place_nonexistent (o_name p))
  | _, None => Ret tt
  end.
Definition is_connect_tp_many (e : edge.type) (port_type : string) : bool :=
  match e with edge.TP_MANY => bool_decide (port_type = "list") | _ => false end.
Definition check_connect (parent : net_data) (t : transition_data) (f : outcome error function_type) (c : connect_type) : outcome error unit :=
  place ← or_throw (connect_to_nonexistent_place (t_name t) (c_place c)) (get p_name (c_place c) (places parent));
  f ← f;
  p ← or_throw (connect_to_nonexistent_port (t_name t) (c_port c))
        (get_port (if is_PT (c_direction c) then port.PORT_IN else port.PORT_OUT) (c_port c) (ports f));
  ps ← signature_of (p_signature place);
  os ← signature_of (o_signature p);
  if bool_decide (ps ≠ os) && negb (is_connect_tp_many (c_direction c) (o_type p))
  then Throw (connect_type_error (t_name t) (c_port c) (c_place c)) else Ret tt.
(** [we::is_response_description] *)
Definition is_response_description (s : signature_type) : bool :=
  match s with
  | Sname _ => false
  | Sstruct _ fs => existsb (λ f, match f with Fsimple n t => bool_decide (n = "response_id") && bool_decide (t = "string") | _ => false end) fs
  end.
Definition check_response (f : outcome error function_type) (r : response_type) : outcome error unit :=
  f ← f;
  if has port_key (r_port r, port.PORT_OUT) (ports f) then
    to_ ← or_throw (unknown_to_in_connect_response (r_to r)) (get_port port.PORT_IN (r_to r) (ports f));
    s ← signature_of (o_signature to_);
    if is_response_description s then Ret tt else Throw (invalid_signature_in_connect_response (r_to r))
  else Throw (unknown_port_in_connect_response (r_port r)).
Definition check_eureka (f : outcome error function_type) (e : string) : outcome error unit :=
  f ← f;
  p ← or_throw (connect_eureka_to_nonexistent_out_port e) (get_port port.PORT_OUT e (ports f));
  if decide (o_type p = "set") then Ret tt else Throw (eureka_port_type_mismatch e).
Definition check_connections (parent : net_data) (t : transition_type) : outcome error unit :=
  each (check_connect parent (t_data t) (resolved_function t)) (connections (t_data t)) ≫= λ _,
  each (check_response (resolved_function t)) (responses (t_data t)) ≫= λ _,
  each (check_eureka (resolved_function t)) (eurekas (t_data t)).
Fixpoint type_check (st : state) (f : function_type) : outcome error unit :=
  match f with
  | mk_function d c =>
      each (check_port st f) (f_ports d) ≫= λ _,
      match c with
      | net n =>
          each (λ t, check_connections (n_data n) t ≫= λ _,
                     match function_or_use t with inl g => type_check st g | inr _ => Ret tt end) (transitions n) ≫= λ _,
          each (type_check st) (functions n)
      | _ => Ret tt
      end
  end.
End xml.
