(* ===== verification/XmlSynthesize.v ===== *)
(** * From XML to nets of the engine

    The synthesis of the compiler ([function_synthesize] of function.cpp, [net_synthesize] of
    net.cpp, [transition_synthesize] of transition.cpp, [xml_to_we] of parser.cpp): a checked
    function becomes a transition of the engine, its nets become nets that are built with the
    operations of [Net]; transitions whose nets have places that stand for places outside, or
    that ask for it, are unfolded into the net around. *)

From S2P Require Import Prelude Value Token Function ReadShow Expr Parser ModuleCall Net XmlNet.

Module synthesize.
Import xml.

Section synthesize.
Context `{Float.Libm} `{Unordered} `{Arrange}.
Context (st : state).
Abbreviation B := (M (Net.net_type workflow) error).

(** exceptions of the engine and of the library *)
Definition engine {S A} (m : M S exn A) : M S error A :=
  λ s, match m s with (Ret a, s) => (Ret a, s) | (Throw e, s) => (Throw (other e), s) end.
Definition at_ {V} (k : string) (m : gmap string V) : outcome error V := or_throw (broken out_of_range) (m !! k).

(** ** Parsing ([util/weparse.cpp]) *)
Definition is_parse_problem (e : exn) : bool :=
  match e with divide_by_zero | eval_type_error _ | expr_parse_error _ _ _ => true | _ => false end.
Definition we_parse (input descr : string) : outcome error (list node.type) :=
  match parser.make input with
  | Ret e => Ret e
  | Throw e => Throw (if is_parse_problem e then weparse descr e else other e)
  end.
(** [conditions_type::flatten] *)
Fixpoint conjunction (l : list string) : string :=
  match l with [] => "" | [c] => "(" +:+ c +:+ ")" | c :: l => "(" +:+ c +:+ ") && " +:+ conjunction l end.
Definition flatten (l : list string) : string := match l with [] => "true" | _ => conjunction l end.
(** [expression_type::expression] *)
Fixpoint joined (l : list string) : string := match l with [] => "" | [e] => e | e :: l => e +:+ "; " +:+ joined l end.

(** ** Properties ([util/property.cpp], [value/positions.cpp]) *)
Fixpoint positions (path : list string) (v : value_type) : list (list string * value_type) :=
  match v with
  | Vstruct fs => concat (map (λ kv, positions (path ++ [kv.1]) kv.2) fs)
  | v => [(path, v)]
  end.
Definition set_property (prop : property_type) (path : list string) (v : value_type) : outcome error property_type :=
  (match Path.peek path prop with Some _ => warn st (property_overwritten path) | None => Ret tt end) ≫= λ _,
  Ret (Path.poke path prop v).
Definition join_properties (x y : property_type) : outcome error property_type :=
  foldl (λ x pv, x ≫= λ x, set_property x pv.1 pv.2) (Ret x) (positions [] y).
(** [is_true]: a property that is not a truth value is a [bad_get] *)
Definition is_true (prop : property_type) (path : list string) : outcome error bool :=
  match Path.peek path prop with
  | None => Ret false
  | Some (Vbool b) => Ret b
  | Some _ => Throw (other bad_get)
  end.
(** [requirements_type::join] *)
Definition join_requirements (x y : gmap string bool) : gmap string bool :=
  foldl (λ m kv, match m !! kv.1 with Some b => <[kv.1 := b || kv.2]> m | None => <[kv.1 := kv.2]> m end) x (unordered_list y).

(** ** Transitions of the engine *)
Record built : Type := mk_built {
  trans : transition_t workflow;
  port_id_in : gmap string Z;
  port_id_out : gmap string Z;
  real_place_names : gmap Z string
}.
Abbreviation T := (M built error).
Definition set_trans (t : transition_t workflow) (b : built) : built := mk_built t (port_id_in b) (port_id_out b) (real_place_names b).
Definition we_port (p : port_type) (associated : option Z) : outcome error port.port_t :=
  s ← signature_of (o_signature p); Ret (port.mk (o_name p) (o_direction p) s associated).
Definition add_port (p : port.port_t) : T Z :=
  λ b, match transition.add_port p (trans b) with
       | (Throw e, t) => (Throw (other e), set_trans t b)
       | (Ret id, t) =>
           (Ret id,
            match port.direction p with
            | port.PORT_OUT => mk_built t (port_id_in b) (emplace (port.name p) id (port_id_out b)).1 (real_place_names b)
            | _ => mk_built t (emplace (port.name p) id (port_id_in b)).1 (port_id_out b) (real_place_names b)
            end)
       end.
Definition add_ports (l : list port_type) : T unit :=
  for_each (λ p, q ← lift (we_port p None); add_port q ≫= λ _, mret tt) l.
(** ports of nets *)
Definition add_net_ports (l : list port_type) (pid_of_place : gmap string Z) (n : net_type) (place_map : list place_map_type) : T unit :=
  for_each (λ p,
    match o_place p with
    | None => q ← lift (we_port p None); add_port q ≫= λ _, mret tt
    | Some place =>
        pid ← lift (at_ place pid_of_place);
        q ← lift (we_port p (Some pid));
        id ← add_port q;
        match o_direction p with
        | port.PORT_TUNNEL =>
            for_each (λ pm,
              resolved ← lift (or_throw (broken (undefined "dereference of an empty optional")) (get p_name place (places (n_data n))));
              if decide (place_virtual pm = p_name resolved)
              then modify (λ b, mk_built (trans b) (port_id_in b) (port_id_out b) (emplace id (place_real pm) (real_place_names b)).1)
              else mret tt) place_map
        | _ => mret tt
        end
    end) l.
Definition add_requirements (f t : gmap string bool) : T unit :=
  modify (λ b, set_trans (foldl (λ t r, transition.add_requirement r t) (trans b) (unordered_list (join_requirements f t))) b).

(** ** Functions *)
(** [we::type::expression_t (text)] *)
Definition parsed (text : string) : outcome error (list node.type) :=
  match parser.make text with Ret e => Ret e | Throw e => Throw (other e) end.
Definition create_we_module (d : function_data) (m : module_type) : outcome error module_call.module_call_t :=
  bs ← map_each (λ name,
         b ← or_throw (broken (undefined "dereference of an empty optional")) (get mb_name name (f_memory_buffers d));
         size ← parsed (mb_size b);
         alignment ← parsed (mb_alignment b);
         Ret (mb_name b, module_call.mk_buffer_info size alignment)) (m_memory_buffer_arg m);
  let plain x := module_call.mk_transfer (module_call.global x) (module_call.local x) None in
  Ret (module_call.mk (m_name m) (m_function m) (unordered_list (list_to_map (M:=gmap string _) bs))
         (map plain (f_memory_gets d ++ f_memory_getputs d)) (f_memory_puts d ++ f_memory_getputs d)
         (m_function_unloads m) (m_module_unloads m)).
Definition condition (conditions : list string) : outcome error (list node.type) := we_parse (flatten conditions) "condition".
Definition make_transition (name : string) (data : transition.data_type workflow) (condition : option (list node.type))
    (prop : property_type) (priority : Z) (eureka_id : option string) (preferences : list string) : outcome error (transition_t workflow) :=
  match transition.make name data condition prop priority eureka_id preferences with Ret t => Ret t | Throw e => Throw (other e) end.
Definition on_built (m : T unit) (t : transition_t workflow) : outcome error built :=
  match m (mk_built t ∅ ∅ ∅) with (Ret _, b) => Ret b | (Throw e, _) => Throw e end.
Definition no_properties : property_type := Vstruct [].

(** [net_synthesize] of a net that is inside: it gets the places outside that places of the net
    stand for, and gives the places it has made *)
Section level.
Context (net_synthesize : gmap string Z → net_type → B (gmap string Z)).
Definition function_synthesize (f : function_type) (name : string) (conditions : list string) (trans_properties : property_type)
    (trans_requirements : gmap string bool) (priority : Z) (place_map : list place_map_type) : outcome error built :=
  let d := f_data f in
  properties ← join_properties trans_properties (f_properties d);
  let finish t := on_built (add_ports (f_ports d) ≫= λ _, add_requirements (f_requirements d) trans_requirements) t in
  let condition := condition (f_conditions d ++ conditions) in
  match content f with
  | expression es =>
      e ← we_parse (joined es) "expression";
      condition ← condition;
      t ← make_transition name (transition.expression e) (Some condition) properties priority None [];
      finish t
  | module m =>
      c ← create_we_module d m;
      condition ← condition;
      t ← make_transition name (transition.module_call c) (Some condition) properties priority (m_eureka_id m) [];
      finish t
  | multi_module ms =>
      cs ← map_each (λ m, c ← create_we_module d m.2; Ret (m.1, c)) ms;
      eureka ← or_throw (broken (undefined "dereference of end")) (m_eureka_id ∘ snd <$> head ms);
      condition ← condition;
      t ← make_transition name (transition.multi_module_call cs) (Some condition) properties priority eureka (f_preferences d);
      finish t
  | net n =>
      match net_synthesize ∅ n net.empty with
      | (Throw e, _) => Throw e
      | (Ret pid_of_place, we_net) =>
          properties ← join_properties properties (n_properties (n_data n));
          condition ← condition;
          t ← make_transition name (transition.net (subnet we_net)) (Some condition) properties priority None [];
          on_built (add_net_ports (f_ports d) pid_of_place n place_map ≫= λ _, add_requirements (f_requirements d) trans_requirements) t
      end
  end.

(** ** Transitions *)
Definition get_pid (pids : gmap string Z) (name : string) : outcome error Z :=
  or_throw (strange ("missing place " +:+ name +:+ " in pid_of_place")) (pids !! name).
Definition connect_to (pids ids : gmap string Z) (tid : Z) (c : connect_type) : B unit :=
  pid ← lift (get_pid pids (c_place c));
  id ← lift (at_ (c_port c) ids);
  engine (net_ops.add_connection (c_direction c) tid pid id (c_properties c)).
Definition conflicting (t : transition_data) (f : function_type) : outcome error unit :=
  each (λ p,
    match o_direction p with
    | port.PORT_IN =>
        match get_port port.PORT_OUT (o_name p) (ports f) with
        | Some q =>
            qs ← signature_of (o_signature q);
            ps ← signature_of (o_signature p);
            if decide (qs = ps) then Ret tt else warn st (conflicting_port_types (t_name t) (o_name p))
        | None => Ret tt
        end
    | _ => Ret tt
    end) (ports f).
(** the condition under which a net is unfolded *)
Definition unfolds (t : transition_data) (f : function_type) : bool :=
  bool_decide (t_priority t = None) && is_net f &&
  ((negb (synthesize_virtual_places st) && negb (bool_decide (place_map t = [])))
   || (negb (no_inline st) && default false (finline t))).
(** for every port of one direction of the function, a port into the transition and one out of it *)
Definition doubled_ports (dir : port.PortDirection) (l : list port_type) (t : transition_t workflow) : outcome error built :=
  on_built (for_each (λ p,
    if decide (o_direction p = dir) then
      s ← lift (signature_of (o_signature p));
      add_port (port.mk (o_name p) port.PORT_IN s None) ≫= λ _,
      add_port (port.mk (o_name p) port.PORT_OUT s None) ≫= λ _, mret tt
    else mret tt) l) t.
(** what connects a port with its place in the subnet *)
Definition connect_inside (dir : port.PortDirection) (type : edge.type) (prefix : string) (pids : gmap string Z) (ids : gmap string Z)
    (tid : Z) (l : list port_type) : B unit :=
  for_each (λ p,
    match o_place p with
    | Some place =>
        if decide (o_direction p = dir) then
          pid ← lift (get_pid pids (prefix +:+ place));
          id ← lift (at_ (o_name p) ids);
          engine (net_ops.add_connection type tid pid id (o_properties p))
        else mret tt
    | None => mret tt
    end) l.
Definition places_outside (pids : gmap string Z) (prefix : string) (t : transition_data) : outcome error (gmap string Z) :=
  foldl (λ m pm, m ≫= λ m,
    pid ← or_throw (real_place_missing (place_virtual pm) (place_real pm) (t_name t)) (pids !! place_real pm);
    Ret (<[prefix +:+ place_virtual pm := pid]> m)) (Ret ∅) (place_map t).
Definition unfold (pids : gmap string Z) (t : transition_data) (f : function_type) (n : net_type) : B unit :=
  let prefix := mk_prefix (t_name t) in
  place_map_map ← lift (places_outside pids prefix t);
  n' ← lift (set_prefix prefix n);
  pid_of_place ← net_synthesize place_map_map n';
  lift (unset_prefix prefix n') ≫= λ _,
  cond_in ← lift (condition (f_conditions (f_data f) ++ t_conditions t));
  properties ← lift (join_properties (f_properties (f_data f)) (t_properties t));
  (* into the subnet *)
  trans_in ← lift (make_transition (prefix +:+ "IN") (transition.expression []) (Some cond_in) properties 0 None []);
  b ← lift (doubled_ports port.PORT_IN (ports f) trans_in);
  tid_in ← engine (net_ops.add_transition (trans b));
  connect_inside port.PORT_IN edge.TP prefix pid_of_place (port_id_out b) tid_in (ports f) ≫= λ _,
  for_each (λ c, if is_PT (c_direction c) then connect_to pids (port_id_in b) tid_in c else mret tt) (connections t) ≫= λ _,
  (* out of the subnet *)
  trans_out ← lift (make_transition (prefix +:+ "OUT") (transition.expression []) None properties 0 None []);
  b ← lift (doubled_ports port.PORT_OUT (ports f) trans_out);
  tid_out ← engine (net_ops.add_transition (trans b));
  connect_inside port.PORT_OUT edge.PT prefix pid_of_place (port_id_in b) tid_out (ports f) ≫= λ _,
  for_each (λ c, if is_PT (c_direction c) then mret tt else connect_to pids (port_id_out b) tid_out c) (connections t) ≫= λ _,
  if (1 <? length (filter (λ c, is_PT (c_direction c) = false) (connections t)))%nat then
    many ← lift (is_true properties ["pnetc"; "warning"; "inline_many_output_ports"]);
    if many : bool then lift (warn st (inline_many_output_ports (t_name t))) else mret tt
  else mret tt.
Definition tunnel : property_type := Path.poke ["pnetc"; "tunnel"] no_properties (Vcontrol).
Definition not_unfold (pids : gmap string Z) (t : transition_data) (f : function_type) : B unit :=
  b ← lift (function_synthesize f (t_name t) (t_conditions t) (t_properties t) (t_requirements t) (default 0%Z (t_priority t)) (place_map t));
  tid ← engine (net_ops.add_transition (trans b));
  for_each (λ c, connect_to pids (if is_PT (c_direction c) then port_id_in b else port_id_out b) tid c) (connections t) ≫= λ _,
  for_each (λ r, id ← lift (at_ (r_port r) (port_id_out b)); engine (net_ops.add_response tid id (r_to r) (r_properties r))) (responses t) ≫= λ _,
  for_each (λ e, id ← lift (at_ e (port_id_out b)); engine (net_ops.add_eureka tid id)) (eurekas t) ≫= λ _,
  for_each (λ a, pid ← lift (get_pid pids a.2); engine (net_ops.add_connection edge.PT tid pid a.1 tunnel)) (unordered_list (real_place_names b)).
Definition transition_synthesize (pids : gmap string Z) (t : transition_type) : B unit :=
  let d := t_data t in
  lift (match connections d with [] => warn st (independent_transition (t_name d)) | _ => Ret tt end) ≫= λ _,
  f ← lift (resolved_function t);
  lift (conflicting d f) ≫= λ _,
  lift (match f_name (f_data f) with
        | Some n => if bool_decide (n ≠ t_name d) && negb (has_magic_prefix (t_name d))
                    then warn st (overwrite_function_name_trans (t_name d) n) else Ret tt
        | None => Ret tt
        end) ≫= λ _,
  match get_net f with
  | Some n => if unfolds d f then unfold pids d f n else not_unfold pids d f
  | None => not_unfold pids d f
  end.
End level.

(** ** Nets *)
Definition place_synthesize (place_map_map : gmap string Z) (pid_of_place : gmap string Z) (p : place_type) : B (gmap string Z) :=
  if negb (synthesize_virtual_places st) && is_virtual p then
    pid ← lift (or_throw (no_map_for_virtual_place (p_name p)) (place_map_map !! p_name p));
    Prelude.get ≫= λ n : Net.net_type workflow,
    place_real ← lift (or_throw (broken out_of_range) (net.pmap n !! pid));
    s ← lift (signature_of (p_signature p));
    if decide (place.signature place_real = s) then mret (emplace (p_name p) pid pid_of_place).1
    else throw (port_tunneled_type_error (p_name p) (place.name place_real))
  else
    s ← lift (signature_of (p_signature p));
    pid ← engine (net_ops.add_place (place.mk (p_name p) s (p_put_token p)));
    mret (emplace (p_name p) pid pid_of_place).1.
Fixpoint places_synthesize (place_map_map pid_of_place : gmap string Z) (l : list place_type) : B (gmap string Z) :=
  match l with
  | [] => mret pid_of_place
  | p :: l => pids ← place_synthesize place_map_map pid_of_place p; places_synthesize place_map_map pids l
  end.
(** [generic_we_parse (token).eval_all()] *)
Definition token_value (token : string) : outcome error value_type :=
  e ← we_parse token "parse token";
  match (eval.eval_all e context.empty).1 with Ret v => Ret v | Throw e => Throw (other e) end.
Definition independent (n : Net.net_type workflow) (pid : Z) : bool :=
  bool_decide (Forall (λ a, a.1 ≠ pid) (net.adj_tp n)) &&
  bool_decide (set_Forall (λ a, a.1 ≠ pid) (net.adj_pt_consume n)) && bool_decide (set_Forall (λ a, a.1 ≠ pid) (net.adj_pt_read n)).
Definition tokens_synthesize (pid_of_place : gmap string Z) (p : place_type) : B unit :=
  pid ← lift (at_ (p_name p) pid_of_place);
  for_each (λ t, v ← lift (token_value t); engine (net_ops.put_value pid v)) (tokens p) ≫= λ _,
  Prelude.get ≫= λ n : Net.net_type workflow,
  if independent n pid && negb (is_virtual p) then lift (warn st (independent_place (p_name p))) else mret tt.
(** nets that are nested deeper than [fuel] are not reached *)
Fixpoint net_synthesize (fuel : nat) (place_map_map : gmap string Z) (n : net_type) : B (gmap string Z) :=
  match fuel with
  | O => throw (broken out_of_fuel)
  | S fuel =>
      pid_of_place ← places_synthesize place_map_map ∅ (places (n_data n));
      for_each (transition_synthesize (net_synthesize fuel) pid_of_place) (transitions n) ≫= λ _,
      for_each (tokens_synthesize pid_of_place) (places (n_data n)) ≫= λ _,
      mret pid_of_place
  end.
(** the number of functions around each other *)
Fixpoint depth (f : function_type) : nat :=
  match f with
  | mk_function _ (net n) =>
      S (max_list (map (λ t, match t with mk_transition _ (inl g) => depth g | _ => 0%nat end) (transitions n)))
  | _ => 1%nat
  end.
(** [xml_to_we] *)
Definition xml_to_we (f : function_type) : outcome error (transition_t workflow) :=
  (match f_name (f_data f) with None => warn st synthesize_anonymous_function | Some _ => Ret tt end) ≫= λ _,
  trans <$> function_synthesize (net_synthesize (depth f)) f (default "anonymous" (f_name (f_data f))) [] no_properties ∅ 0 [].
(** [post_processing_passes], then the synthesis *)
Definition compile (f : function_type) : outcome error (transition_t workflow) :=
  f ← specialize_all st (mk_function (set_requirements (requirements st) (f_data f)) (content f));
  f ← resolve_function_use_recursive ∅ f;
  f ← resolve_types_recursive ∅ f;
  type_check st f ≫= λ _,
  xml_to_we f.
End synthesize.
End synthesize.
