(* ===== verification/XmlCheck.v ===== *)
(** * What the checks of the compiler ensure

    Containers, renaming and the meaning of the type check: a function that has been resolved
    and checked is [fun_ok], which says of every transition inside what its connections join. *)

From S2P Require Import Prelude Value Token Function ReadShow Expr Parser ModuleCall Net XmlNet XmlSynthesize.

Module check.
Import Signature xml synthesize.

(** ** Containers *)
Section unique.
Context `{Arrange} `{EqDecision K} {T : Type} (key : T → K).
Lemma has_spec k (l : list T) : has key k l = true ↔ k ∈ map key l.
Proof.
  unfold has. rewrite existsb_exists, list_elem_of_fmap. split.
  - intros (x & Hx & Hk%bool_decide_eq_true). exists x. by rewrite list_elem_of_In.
  - intros (x & -> & Hx%list_elem_of_In). exists x. by rewrite bool_decide_eq_true.
Qed.
Lemma get_some k (l : list T) x : get key k l = Some x → x ∈ l ∧ key x = k.
Proof. intros [Hx Hk%bool_decide_eq_true]%find_some. by rewrite list_elem_of_In. Qed.
Lemma get_has k (l : list T) : k ∈ map key l → ∃ x, get key k l = Some x.
Proof.
  intros (x & -> & Hx%list_elem_of_In)%list_elem_of_fmap. unfold get. destruct (find _ l) as [y|] eqn:E; [by exists y|].
  apply (find_none _ _ E) in Hx. by rewrite bool_decide_eq_false in Hx.
Qed.
Lemma get_unique k (l : list T) x : NoDup (map key l) → x ∈ l → key x = k → get key k l = Some x.
Proof.
  intros Hnd Hx Hk. destruct (get_has k l) as [y Hy]; [apply list_elem_of_fmap; by exists x|]. rewrite Hy. f_equal.
  apply get_some in Hy as [Hy Hk']. revert Hnd Hx Hy. induction l as [|z l IH]; simpl; intros Hnd Hx Hy; [by apply elem_of_nil in Hx|].
  apply NoDup_cons in Hnd as [Hz Hnd]. apply elem_of_cons in Hx, Hy.
  destruct Hx as [->|Hx], Hy as [->|Hy]; [done|..|by apply IH]; exfalso; apply Hz; apply list_elem_of_fmap; [exists y|exists x]; (split; [congruence|done]).
Qed.
(** different keys: everything is pushed *)
Lemma push_each_ok {S} make dup (vs : list S) (ws l : list T) :
  Forall2 (λ v w, make v = Ret w) vs ws → NoDup (map key (ws ++ l)) → ∃ k, push_each key make dup vs l = Ret k ∧ k ≡ₚ ws ++ l.
Proof.
  intros Hvs. revert l. induction Hvs as [|v w vs ws Hv _ IH]; simpl; intros l Hnd; [by exists l|]. apply NoDup_cons in Hnd as [Hw Hnd].
  rewrite Hv. simpl. unfold push. destruct (has key (key w) l) eqn:Hh.
  - exfalso. apply Hw. rewrite map_app, elem_of_app. right. by apply has_spec.
  - destruct (IH (arrange (w :: l))) as (k & Hk & Hp).
    + rewrite map_app in *. rewrite (fmap_Permutation key _ _ (arrange_perm (w :: l))). simpl. rewrite <- Permutation_middle. by constructor.
    + exists k. split; [exact Hk|]. by rewrite Hp, arrange_perm, <- Permutation_middle.
Qed.
Lemma push_each_map {S} make (h : S → T) dup (vs : list S) :
  (∀ v, v ∈ vs → make v = Ret (h v)) → NoDup (map key (map h vs)) → ∃ k, push_each key make dup vs [] = Ret k ∧ k ≡ₚ map h vs.
Proof.
  intros Hm Hnd. destruct (push_each_ok make dup vs (map h vs) []) as (k & Hk & Hp); [|by rewrite app_nil_r|rewrite app_nil_r in Hp; by exists k].
  clear -Hm. induction vs as [|v vs IH]; simpl; [by constructor|]. constructor; [apply Hm; by left|]. apply IH. intros x Hx. apply Hm. by right.
Qed.
End unique.

(** ** Renaming *)
Lemma remove_prefix_app p w : remove_prefix p (p +:+ w) = Ret w.
Proof. induction p as [|a p IH]; simpl; [by destruct w|]. by rewrite decide_True. Qed.
Lemma prefix_inj (p x y : string) : p +:+ x = p +:+ y → x = y.
Proof. intros E. apply (f_equal (remove_prefix p)) in E. rewrite !remove_prefix_app in E. by injection E. Qed.
(** ** Nets with other names *)
Definition renamed_data (h : string → string) (t : transition_data) (cs : list connect_type) (pms : list place_map_type) : transition_data :=
  mk_transition_data (h (t_name t)) cs (responses t) (eurekas t) pms (t_structs t) (t_conditions t) (t_requirements t) (t_priority t) (finline t) (t_properties t).
Definition renames (h : string → string) (t t' : transition_type) : Prop :=
  ∃ cs pms, t' = mk_transition (renamed_data h (t_data t) cs pms) (function_or_use t) ∧
    cs ≡ₚ map (λ c, with_place (h (c_place c)) c) (connections (t_data t)) ∧
    pms ≡ₚ map (λ m, with_place_real (h (place_real m)) m) (place_map (t_data t)).
Record renamed_net (h : string → string) (n n' : net_type) : Prop := {
  rn_places : places (n_data n') ≡ₚ map (λ q, with_name (h (p_name q)) q) (places (n_data n));
  rn_transitions : ∃ ts, Forall2 (renames h) (transitions n) ts ∧ transitions n' ≡ₚ ts
}.
(** the containers have every key once *)
Definition unique_transition (t : transition_data) : Prop := NoDup (map connect_key (connections t)) ∧ NoDup (map place_map_key (place_map t)).
Record unique_net (n : net_type) : Prop := {
  un_places : NoDup (map p_name (places (n_data n)));
  un_transitions : NoDup (map (λ t : transition_type, t_name (t_data t)) (transitions n));
  un_transition : Forall (λ t, unique_transition (t_data t)) (transitions n)
}.
Inductive occurs (n : net_type) : string → Prop :=
| occurs_place p : p ∈ places (n_data n) → occurs n (p_name p)
| occurs_transition t : t ∈ transitions n → occurs n (t_name (t_data t))
| occurs_connection t c : t ∈ transitions n → c ∈ connections (t_data t) → occurs n (c_place c)
| occurs_place_map t m : t ∈ transitions n → m ∈ place_map (t_data t) → occurs n (place_real m).
Lemma NoDup_map_key {A B K} (key : A → K) (g : A → B) (key' : B → K) l :
  (∀ x y, x ∈ l → y ∈ l → key' (g x) = key' (g y) → key x = key y) → NoDup (map key l) → NoDup (map key' (map g l)).
Proof.
  induction l as [|x l IH]; simpl; intros Hinj Hnd; [by constructor|]. apply NoDup_cons in Hnd as [Hx Hnd]. apply NoDup_cons. split.
  - intros Hin. apply Hx. apply list_elem_of_fmap in Hin as (y & E & (z & -> & Hz)%list_elem_of_fmap). apply list_elem_of_fmap. exists z.
    split; [|done]. apply Hinj; [by left|by right|done].
  - apply IH; [|done]. intros y z Hy Hz. apply Hinj; by right.
Qed.
Section rename.
Context `{Arrange} (rename : string → outcome error string) (h : string → string).
Lemma unique_renamed n (t : transition_type) :
  (∀ x y, occurs n x → occurs n y → h x = h y → x = y) → t ∈ transitions n → unique_transition (t_data t) →
  NoDup (map connect_key (map (λ c, with_place (h (c_place c)) c) (connections (t_data t)))) ∧
  NoDup (map place_map_key (map (λ m, with_place_real (h (place_real m)) m) (place_map (t_data t)))).
Proof.
  intros Hinj Ht [Hc Hm]. split.
  - apply (NoDup_map_key connect_key); [|done]. intros x y Hx Hy [= E1 E2 E3]. unfold connect_key. rewrite E2, E3.
    by rewrite (Hinj _ _ (occurs_connection n t x Ht Hx) (occurs_connection n t y Ht Hy) E1).
  - apply (NoDup_map_key place_map_key); [|done]. intros x y Hx Hy [= E1 E2]. unfold place_map_key. rewrite E1.
    by rewrite (Hinj _ _ (occurs_place_map n t x Ht Hx) (occurs_place_map n t y Ht Hy) E2).
Qed.
Lemma renamed_spec n (t : transition_type) :
  (∀ x, occurs n x → rename x = Ret (h x)) → (∀ x y, occurs n x → occurs n y → h x = h y → x = y) →
  t ∈ transitions n → unique_transition (t_data t) →
  ∃ d', renamed rename (t_data t) = Ret d' ∧ renames h t (mk_transition d' (function_or_use t)) ∧ unique_transition d'.
Proof.
  intros Hren Hinj Ht Hu. destruct (unique_renamed n t Hinj Ht Hu) as [Hc Hm]. unfold renamed.
  destruct (push_each_map connect_key (λ c, n ← rename (c_place c); Ret (with_place n c)) (λ c, with_place (h (c_place c)) c)
    (λ _, duplicate_connect (t_name (t_data t))) (connections (t_data t))) as (cs & E & Hcs).
  { intros c Hcc. by rewrite (Hren (c_place c)) by (by econstructor). }
  { done. }
  destruct (push_each_map place_map_key (λ m, n ← rename (place_real m); Ret (with_place_real n m)) (λ m, with_place_real (h (place_real m)) m)
    (λ _, duplicate_place_map (t_name (t_data t))) (place_map (t_data t))) as (pms & E' & Hpms).
  { intros m Hmm. by rewrite (Hren (place_real m)) by (by econstructor). }
  { done. }
  rewrite E. simpl. rewrite E'. simpl. rewrite (Hren (t_name (t_data t))) by (by constructor). simpl. eexists. split; [done|].
  split; [by exists cs, pms|]. unfold unique_transition. simpl. by rewrite Hcs, Hpms.
Qed.
Lemma rename_transitions n ts :
  (∀ x, occurs n x → rename x = Ret (h x)) → (∀ x y, occurs n x → occurs n y → h x = h y → x = y) →
  ts ⊆ transitions n → Forall (λ t, unique_transition (t_data t)) ts →
  ∃ ts', Forall2 (λ t t', (d ← renamed rename (t_data t); Ret (mk_transition d (function_or_use t))) = Ret t') ts ts' ∧
    Forall2 (renames h) ts ts' ∧ Forall (λ t : transition_type, unique_transition (t_data t)) ts'.
Proof.
  intros Hren Hinj Hsub. induction ts as [|t ts IH]; intros Hu; simpl; [by exists []|]. apply Forall_cons in Hu as [Ht Hu].
  destruct (renamed_spec n t Hren Hinj) as (d & E & Hd & Hud); [apply Hsub; by left|done|].
  destruct IH as (ts' & E' & Hts & Hut); [intros x Hx; apply Hsub; by right|done|].
  exists (mk_transition d (function_or_use t) :: ts'). split; [constructor; [by rewrite E|done]|]. by split; constructor.
Qed.
Lemma renames_names ts ts' : Forall2 (renames h) ts ts' →
  map (λ t : transition_type, t_name (t_data t)) ts' = map h (map (λ t : transition_type, t_name (t_data t)) ts).
Proof. induction 1 as [|x y l k (cs & pms & -> & _) _ IH]; simpl; [done|]. by rewrite IH. Qed.
Lemma rename_net_spec n :
  (∀ x, occurs n x → rename x = Ret (h x)) → (∀ x y, occurs n x → occurs n y → h x = h y → x = y) → unique_net n →
  ∃ n', rename_net rename n = Ret n' ∧ renamed_net h n n' ∧ unique_net n'.
Proof.
  intros Hren Hinj [Hp Ht Hu]. unfold rename_net.
  assert (Hps : NoDup (map p_name (map (λ q, with_name (h (p_name q)) q) (places (n_data n))))).
  { apply (NoDup_map_key p_name); [|done]. intros x y Hx Hy E. by apply Hinj; [constructor..|]. }
  destruct (push_each_map p_name (λ p, m ← rename (p_name p); Ret (with_name m p)) (λ q, with_name (h (p_name q)) q)
    (λ p, duplicate_place (p_name p)) (places (n_data n))) as (ps & E & Hpsp); [|done|].
  { intros q Hq. by rewrite (Hren (p_name q)) by (by constructor). }
  rewrite E. simpl. destruct (rename_transitions n (transitions n) Hren Hinj) as (ts & E' & Hts & Hut); [done|done|].
  assert (Hts' : NoDup (map (λ t : transition_type, t_name (t_data t)) ts)).
  { rewrite (renames_names _ _ Hts).
    apply (NoDup_map_key (λ t : transition_type, t_name (t_data t)) _ h); [|done]. intros x y Hx Hy E2. by apply Hinj; [constructor..|]. }
  destruct (push_each_ok (λ t : transition_type, t_name (t_data t)) _ (λ t, duplicate_transition (t_name (t_data t))) _ ts [] E') as (ts' & E2 & Hp2);
    [by rewrite app_nil_r|]. rewrite app_nil_r in Hp2. rewrite E2. simpl. eexists. split; [done|].
  split; split; simpl; [done|by exists ts|by rewrite Hpsp|by rewrite Hp2|by rewrite Hp2].
Qed.
End rename.
Section prefix.
Context `{Arrange}.
Lemma set_prefix_spec p n : unique_net n → ∃ n', set_prefix p n = Ret n' ∧ renamed_net (String.append p) n n' ∧ unique_net n'.
Proof. intros Hu. apply rename_net_spec; [done|intros x y _ _; apply prefix_inj|done]. Qed.
Lemma renamed_occurs h n n' x : renamed_net h n n' → occurs n' x → ∃ y, occurs n y ∧ x = h y.
Proof.
  intros [Hp (ts & Hts & Ht)] Hx.
  assert (Hold : ∀ t, t ∈ transitions n' → ∃ t0, t0 ∈ transitions n ∧ renames h t0 t).
  { intros t Hin. rewrite Ht in Hin. apply list_elem_of_lookup in Hin as (i & Hi). destruct (Forall2_lookup_r _ _ _ _ _ Hts Hi) as (t0 & Hi0 & Hr).
    exists t0. split; [by eapply list_elem_of_lookup_2|done]. }
  destruct Hx as [q Hq|t Hin|t c Hin Hc|t m Hin Hm].
  - rewrite Hp in Hq. apply list_elem_of_fmap in Hq as (y & -> & Hy). exists (p_name y). split; [by constructor|done].
  - destruct (Hold t Hin) as (t0 & H0 & cs & pms & -> & _). exists (t_name (t_data t0)). split; [by constructor|done].
  - destruct (Hold t Hin) as (t0 & H0 & cs & pms & -> & Hcs & _). simpl in Hc. rewrite Hcs in Hc. apply list_elem_of_fmap in Hc as (y & -> & Hy).
    exists (c_place y). split; [by econstructor|done].
  - destruct (Hold t Hin) as (t0 & H0 & cs & pms & -> & _ & Hpms). simpl in Hm. rewrite Hpms in Hm. apply list_elem_of_fmap in Hm as (y & -> & Hy).
    exists (place_real y). split; [by econstructor|done].
Qed.
(** what [remove_prefix] does to a word with the prefix *)
Definition without (p w : string) : string := match remove_prefix p w with Ret x => x | Throw _ => w end.
Lemma without_app p w : without p (p +:+ w) = w.
Proof. unfold without. by rewrite remove_prefix_app. Qed.
Lemma unset_prefix_spec p n n' :
  renamed_net (String.append p) n n' → unique_net n' → ∃ n'', unset_prefix p n' = Ret n'' ∧ renamed_net (without p) n' n''.
Proof.
  intros Hr Hu. destruct (rename_net_spec (remove_prefix p) (without p) n') as (n'' & E & Hn & _); [| |done|by exists n''].
  - intros x Hx. destruct (renamed_occurs _ _ _ _ Hr Hx) as (y & _ & ->). by rewrite without_app, remove_prefix_app.
  - intros x y Hx Hy. destruct (renamed_occurs _ _ _ _ Hr Hx) as (x' & _ & ->), (renamed_occurs _ _ _ _ Hr Hy) as (y' & _ & ->).
    by rewrite !without_app; intros ->.
Qed.
End prefix.

(** ** What is in order *)
Definition is_port (f : function_type) (name : string) (d : port.PortDirection) (p : port_type) : Prop :=
  p ∈ ports f ∧ o_name p = name ∧ o_direction p = d.
(** a connection joins a place and a port of the same type, or a port for lists whose elements go
    to the place one by one *)
Definition conn_ok (ps : list place_type) (f : function_type) (c : connect_type) : Prop :=
  ∃ pl p s s', pl ∈ ps ∧ p_name pl = c_place c ∧ is_port f (c_port c) (if is_PT (c_direction c) then port.PORT_IN else port.PORT_OUT) p ∧
    p_signature pl = Some s ∧ o_signature p = Some s' ∧ (s = s' ∨ c_direction c = edge.TP_MANY ∧ s' = Sname "list").
(** no input port is connected twice *)
Definition single (t : transition_data) : Prop := NoDup (map c_port (filter (λ c, is_PT (c_direction c) = true) (connections t))).
Record trans_ok (ps : list place_type) (t : transition_data) (f : function_type) : Prop := {
  to_connections : ∀ c, c ∈ connections t → conn_ok ps f c;
  to_single : single t;
  to_responses : ∀ r, r ∈ responses t → ∃ p, is_port f (r_port r) port.PORT_OUT p;
  to_eurekas : ∀ e, e ∈ eurekas t → ∃ p, is_port f e port.PORT_OUT p
}.
Definition tunnels_apart (f : function_type) : Prop :=
  ∀ x y p q, is_port f x port.PORT_IN p → is_port f y port.PORT_TUNNEL q → x ≠ y.
Definition buffers_known (d : function_data) (m : module_type) : Prop := ∀ b, b ∈ m_memory_buffer_arg m → b ∈ map mb_name (f_memory_buffers d).
Definition modules_ok (f : function_type) : Prop :=
  match content f with
  | module m => buffers_known (f_data f) m
  | multi_module ms => ms ≠ [] ∧ ∀ m, m ∈ ms → buffers_known (f_data f) m.2
  | _ => True
  end.
Record ports_ok (f : function_type) : Prop := {
  po_unique : NoDup (map port_key (ports f));
  po_signature : ∀ p, p ∈ ports f → is_Some (o_signature p);
  po_apart : tunnels_apart f
}.
(** the places of a net that its ports are connected to *)
Definition inner_ok (f : function_type) (n : net_type) : Prop :=
  ∀ p place, p ∈ ports f → o_place p = Some place →
    ∃ pl, pl ∈ places (n_data n) ∧ p_name pl = place ∧ p_signature pl = o_signature p ∧ (o_direction p = port.PORT_TUNNEL → is_virtual pl = true).
(** a net: names are unique, places have types, transitions have functions *)
Record net_shape (n : net_type) : Prop := {
  sh_unique : unique_net n;
  sh_signature : ∀ p, p ∈ places (n_data n) → is_Some (p_signature p);
  sh_transition : ∀ t, t ∈ transitions n → ∃ g, function_or_use t = inl g ∧ trans_ok (places (n_data n)) (t_data t) g
}.
Inductive fun_ok : function_type → Prop :=
| fun_ok_intro f :
    ports_ok f → modules_ok f → (∀ n, content f = net n → net_shape n ∧ inner_ok f n) →
    (∀ n t g, content f = net n → t ∈ transitions n → function_or_use t = inl g → fun_ok g) → fun_ok f.
Definition net_ok (n : net_type) : Prop :=
  net_shape n ∧ ∀ t g, t ∈ transitions n → function_or_use t = inl g → fun_ok g.
Lemma renamed_old h n n' t :
  renamed_net h n n' → t ∈ transitions n' → ∃ t0, t0 ∈ transitions n ∧ renames h t0 t.
Proof.
  intros [_ (ts & Hts & Ht)] Hin. rewrite Ht in Hin. apply list_elem_of_lookup in Hin as (i & Hi).
  destruct (Forall2_lookup_r _ _ _ _ _ Hts Hi) as (t0 & Hi0 & Hr). exists t0. split; [by eapply list_elem_of_lookup_2|done].
Qed.
Lemma renamed_place h n n' p : renamed_net h n n' → p ∈ places (n_data n') ↔ ∃ q, q ∈ places (n_data n) ∧ p = with_name (h (p_name q)) q.
Proof. intros [Hp _]. rewrite Hp. rewrite list_elem_of_fmap. naive_solver. Qed.
Lemma single_renamed h t cs pms :
  cs ≡ₚ map (λ c, with_place (h (c_place c)) c) (connections t) → single t → single (renamed_data h t cs pms).
Proof.
  intros Hcs. unfold single. simpl. rewrite (Permutation_map c_port (filter_Permutation _ _ _ Hcs)).
  assert (∀ l, map c_port (filter (λ c, is_PT (c_direction c) = true) (map (λ c, with_place (h (c_place c)) c) l)) =
    map c_port (filter (λ c, is_PT (c_direction c) = true) l)) as ->; [|done].
  induction l as [|c l IH]; [done|]. simpl. rewrite !filter_cons. simpl. case_decide; simpl; by rewrite IH.
Qed.
Lemma net_ok_renamed h n n' : renamed_net h n n' → unique_net n' → net_ok n → net_ok n'.
Proof.
  intros Hr Hu [[_ Hs Ht] Hf]. split; [split; [done|..]|].
  - intros p (q & Hq & ->)%(renamed_place h n n' p Hr). by apply (Hs q).
  - intros t (t0 & H0 & cs & pms & -> & Hcs & _)%(renamed_old h n n' t Hr). destruct (Ht t0 H0) as (g & Hg & [T1 T2 T3 T4]).
    exists g. split_and!; [done|]. split; [|by apply single_renamed|done..]. simpl.
    intros c. rewrite Hcs. intros (c0 & -> & Hc)%list_elem_of_fmap. destruct (T1 c0 Hc) as (pl & p & s & s' & P1 & P2 & P3 & P4 & P5 & P6).
    exists (with_name (h (p_name pl)) pl), p, s, s'. split_and!; try done; [apply (renamed_place h n n' _ Hr); by exists pl|simpl; by rewrite P2].
  - intros t g (t0 & H0 & cs & pms & -> & _)%(renamed_old h n n' t Hr). by apply (Hf t0).
Qed.

(** ** Results that are not failures of the compiler itself *)
Definition legit (e : error) : Prop := match e with broken _ | strange _ => False | _ => True end.
Definition ends {A} (P : A → Prop) (r : outcome error A) : Prop := match r with Ret a => P a | Throw e => legit e end.
Lemma ends_bind {A B} (Q : B → Prop) (m : outcome error A) (k : A → outcome error B) : ends (λ a, ends Q (k a)) m → ends Q (m ≫= k).
Proof. by destruct m. Qed.
Lemma ends_mono {A} (P Q : A → Prop) m : (∀ a, P a → Q a) → ends P m → ends Q m.
Proof. destruct m; simpl; auto. Qed.
Lemma ends_or_throw {A} (P : A → Prop) e (o : option A) : (∀ a, o = Some a → P a) → legit e → ends P (or_throw e o).
Proof. destruct o; simpl; auto. Qed.
Lemma ends_each {A} (P : A → Prop) (f : A → outcome error unit) l : (∀ x, x ∈ l → ends (λ _, P x) (f x)) → ends (λ _, ∀ x, x ∈ l → P x) (each f l).
Proof.
  induction l as [|x l IH]; simpl; intros Hf; [by intros y Hy%elem_of_nil|]. apply ends_bind.
  eapply ends_mono; [|apply (Hf x); by left]. intros ? Hx. eapply ends_mono; [|apply IH; intros y Hy; apply Hf; by right].
  intros ? Hl y [->|Hy]%elem_of_cons; auto.
Qed.
Lemma ends_map_each {A B} (R : A → B → Prop) (f : A → outcome error B) l :
  (∀ x, x ∈ l → ends (R x) (f x)) → ends (Forall2 R l) (map_each f l).
Proof.
  induction l as [|x l IH]; simpl; intros Hf; [by constructor|]. apply ends_bind.
  eapply ends_mono; [|apply (Hf x); by left]. intros y Hy. apply ends_bind. eapply ends_mono; [|apply IH; intros z Hz; apply Hf; by right].
  intros ys Hys. by constructor.
Qed.
Lemma ends_warn st w : ends (λ _, True) (warn st w).
Proof. unfold warn. by destruct (warning_all st || active st w), (warning_error st). Qed.

(** ** What the parser ensures

    Containers have every key once, buffers that are passed to a module exist, functions with
    several modules have at least one, and every function that is used has been found.  That no
    input port is connected twice, and that no tunnel has the name of an input port, is up to
    the author of the net. *)
Definition port_typed (p : port_type) : Prop := ∃ s, o_signature p = Some s ∧ (is_literal (o_type p) = true → s = Sname (o_type p)).
Record proper_net (typed : bool) (n : net_type) : Prop := {
  pn_unique : unique_net n;
  pn_signature : typed = true → ∀ p, p ∈ places (n_data n) → is_Some (p_signature p);
  pn_transition : ∀ t, t ∈ transitions n → single (t_data t) ∧ ∃ g, function_or_use t = inl g
}.
Inductive proper (typed : bool) : function_type → Prop :=
| proper_intro f :
    NoDup (map port_key (ports f)) → tunnels_apart f → modules_ok f → (typed = true → ∀ p, p ∈ ports f → port_typed p) →
    (∀ n, content f = net n → proper_net typed n) →
    (∀ n t g, content f = net n → t ∈ transitions n → function_or_use t = inl g → proper typed g) →
    (∀ n g, content f = net n → g ∈ functions n → proper typed g) → proper typed f.

(** ** Looking up types *)
Lemma ends_resolve_field resolver path f : ends (λ _, True) (resolve_field resolver path f).
Proof.
  revert path f. fix IH 2. intros path [n t|n fs]; simpl.
  - destruct (is_literal t); [done|]. by destruct (resolver t) as [[]|].
  - apply ends_bind. eapply ends_mono; [|apply (ends_map_each (λ _ _, True))]; [done|].
    assert (Forall (λ f, ∀ path, ends (λ _, True) (resolve_field resolver path f)) fs) as Hfs.
    { induction fs as [|f fs IHfs]; constructor; [|exact IHfs]. intros path'. exact (IH path' f). }
    clear IH. intros x Hx. exact (proj1 (Forall_forall _ _) Hfs x Hx _).
Qed.
Lemma ends_know_structs structs rest known : ends (λ _, True) (know_structs structs rest known).
Proof.
  revert known. induction rest as [|s rest IH]; intros known; simpl; [done|]. apply ends_bind. apply (ends_mono (λ _, True)); [intros x _; apply IH|].
  unfold resolve. apply ends_bind. eapply ends_mono; [|apply (ends_map_each (λ _ _, True)); intros; apply ends_resolve_field]. done.
Qed.
Lemma ends_lookup_type known t e : legit e → ends (λ s, is_literal t = true → s = Sname t) (lookup_type known t e).
Proof. intros He. unfold lookup_type. destruct (is_literal t); [done|]. by apply ends_or_throw. Qed.
Definition same_port (p q : port_type) : Prop := port_key q = port_key p ∧ port_typed q.
Lemma ends_resolve_port known p : ends (same_port p) (resolve_port known p).
Proof.
  unfold resolve_port. apply ends_bind. eapply ends_mono; [|by apply ends_lookup_type]. intros s Hs. split; [done|]. by exists s.
Qed.
Definition same_place (p q : place_type) : Prop := p_name q = p_name p ∧ is_Some (p_signature q).
Lemma ends_resolve_place known p : ends (same_place p) (resolve_place known p).
Proof. unfold resolve_place. apply ends_bind. eapply ends_mono; [|by apply ends_lookup_type]. by intros s _. Qed.
Lemma Forall2_map_eq {A B} (key : A → B) (R : A → A → Prop) l k : (∀ x y, R x y → key y = key x) → Forall2 R l k → map key k = map key l.
Proof. intros Hk. induction 1 as [|x y l k Hxy _ IH]; simpl; [done|]. by rewrite (Hk x y Hxy), IH. Qed.
Lemma same_ports_apart l k f f' : ports f = l → ports f' = k → Forall2 same_port l k → tunnels_apart f → tunnels_apart f'.
Proof.
  intros Hl Hk Hlk Ha x y p q (Hp & <- & Hdp) (Hq & <- & Hdq). rewrite Hk in Hp. rewrite Hk in Hq.
  assert (∀ p, p ∈ k → ∃ p0, p0 ∈ ports f ∧ o_name p = o_name p0 ∧ o_direction p = o_direction p0) as Hold.
  { intros r (i & Hi)%list_elem_of_lookup. destruct (Forall2_lookup_r _ _ _ _ _ Hlk Hi) as (r0 & Hr & [[= E1 E2] _]).
    exists r0. rewrite Hl. split_and!; [by eapply list_elem_of_lookup_2|done..]. }
  destruct (Hold p Hp) as (p0 & Hp0 & -> & E1), (Hold q Hq) as (q0 & Hq0 & -> & E2). apply (Ha _ _ p0 q0); split_and!; congruence.
Qed.
Definition same_transition (t t' : transition_type) : Prop := t_data t' = t_data t ∧ ∃ g, function_or_use t' = inl g ∧ proper true g.
Lemma same_net (n : net_type) ps ts fs :
  proper_net false n → Forall2 same_place (places (n_data n)) ps → Forall2 same_transition (transitions n) ts →
  proper_net true (mk_net (mk_net_data ps (specializes (n_data n)) (n_structs (n_data n)) (n_properties (n_data n))) fs (templates n) ts).
Proof.
  intros [[Hp Ht Hu] _ Hs] Hps Hts.
  assert (∀ t, t ∈ ts → ∃ t0, t0 ∈ transitions n ∧ same_transition t0 t) as Hold.
  { intros t (i & Hi)%list_elem_of_lookup. destruct (Forall2_lookup_r _ _ _ _ _ Hts Hi) as (t0 & H0 & Hst). exists t0. split; [by eapply list_elem_of_lookup_2|done]. }
  split; [split|..]; simpl.
  - rewrite (Forall2_map_eq p_name same_place _ _) by (done || by intros ?? []). done.
  - rewrite (Forall2_map_eq (λ t : transition_type, t_name (t_data t)) same_transition _ _) by (done || by intros ?? [-> _]). done.
  - apply Forall_forall. intros t (t0 & H0 & [-> _])%Hold. exact (proj1 (Forall_forall _ _) Hu t0 H0).
  - intros _ p (i & Hi)%list_elem_of_lookup. by destruct (Forall2_lookup_r _ _ _ _ _ Hps Hi) as (p0 & _ & [_ ?]).
  - intros t (t0 & H0 & [-> (g & Hg & _)])%Hold. split; [by apply Hs|by exists g].
Qed.
(** every type is found, or the function is refused *)
Lemma ends_resolve_types known f : proper false f → ends (proper true) (resolve_types_recursive known f).
Proof.
  intros Hf. revert known. induction Hf as [f Hk Ha Hm _ Hn Hts IHt Hfs IHf]. intros known. destruct f as [d c]; simpl.
  apply ends_bind. eapply ends_mono; [intros known1 _|apply ends_know_structs]. apply ends_bind.
  apply (ends_mono (λ c', match c with
    | net n => ∃ n', c' = net n' ∧ proper_net true n' ∧ (∀ t g, t ∈ transitions n' → function_or_use t = inl g → proper true g) ∧
                     ∀ g, g ∈ functions n' → proper true g
    | _ => c' = c end)).
  - intros c' Hc. apply ends_bind. eapply ends_mono; [|apply (ends_map_each same_port); intros; apply ends_resolve_port]. intros ps Hps. simpl.
    constructor; simpl; unfold ports; simpl.
    + rewrite (Forall2_map_eq port_key same_port _ _) by (done || by intros ?? []). done.
    + by apply (same_ports_apart (f_ports d) ps (mk_function d c)).
    + destruct c; [by rewrite Hc..|by destruct Hc as (n' & -> & _)|by rewrite Hc].
    + intros _ p (i & Hi)%list_elem_of_lookup. by destruct (Forall2_lookup_r _ _ _ _ _ Hps Hi) as (p0 & _ & [_ ?]).
    + intros n' ->. destruct c; try discriminate Hc. by destruct Hc as (? & [= <-] & ? & _).
    + intros n' t g ->. destruct c; try discriminate Hc. destruct Hc as (? & [= <-] & _ & ? & _). eauto.
    + intros n' g ->. destruct c; try discriminate Hc. destruct Hc as (? & [= <-] & _ & _ & ?). eauto.
  - destruct c as [| |n|]; [done..| |done]. specialize (Hn n eq_refl).
    apply ends_bind. eapply ends_mono; [intros inner _|apply ends_know_structs]. apply ends_bind.
    eapply ends_mono; [|apply (ends_map_each same_transition)].
    2: { intros [td [g|u]] Ht.
         - apply ends_bind. eapply ends_mono; [|by apply (IHt n _ g eq_refl Ht)]. intros g' Hg. split; [done|by exists g'].
         - destruct (pn_transition _ _ Hn _ Ht) as (_ & g & [=]). }
    intros ts Hts'. apply ends_bind. eapply ends_mono; [|apply (ends_map_each (λ _, proper true)); intros g Hg; by apply (IHf n g)].
    intros fs' Hfs'. apply ends_bind. eapply ends_mono; [|apply (ends_map_each same_place); intros; apply ends_resolve_place].
    intros ps Hps. simpl. eexists. split; [done|]. split_and!; [by apply same_net|..]; simpl.
    + intros t g (i & Hi)%list_elem_of_lookup Hg. destruct (Forall2_lookup_r _ _ _ _ _ Hts' Hi) as (t0 & _ & [_ (g' & Hg' & ?)]). congruence.
    + intros g (i & Hi)%list_elem_of_lookup. by destruct (Forall2_lookup_r _ _ _ _ _ Hfs' Hi) as (g0 & _ & ?).
Qed.

(** ** The type check *)
Lemma signature_of_some s : is_Some s → ∃ x, s = Some x ∧ signature_of s = Ret x.
Proof. intros [x ->]. by exists x. Qed.
Lemma ends_check_port st f p :
  p ∈ ports f → port_typed p → (∀ n, content f = net n → ∀ q, q ∈ places (n_data n) → is_Some (p_signature q)) →
  ends (λ _, ∀ n place, content f = net n → o_place p = Some place →
    ∃ pl, pl ∈ places (n_data n) ∧ p_name pl = place ∧ p_signature pl = o_signature p ∧ (o_direction p = port.PORT_TUNNEL → is_virtual pl = true))
    (check_port st f p).
Proof.
  intros Hp (s & Hs & _) Hsig. unfold check_port. destruct (content f) as [| |n|]; destruct (o_place p) as [place|] eqn:Ho; try done.
  - destruct (get p_name place (places (n_data n))) as [pl|] eqn:Hg; [|done]. apply get_some in Hg as [Hpl Hn].
    destruct (signature_of_some (p_signature pl)) as (s' & Hs' & ->); [by eapply Hsig|]. rewrite Hs. simpl. case_decide as E; [|done].
    apply (ends_mono (λ _, o_direction p = port.PORT_TUNNEL → is_virtual pl = true)).
    + intros _ Hv n' place' [= <-] [= <-]. exists pl. by rewrite Hs', E.
    + destruct (o_direction p); [done..|]. destruct (is_virtual pl); [|done]. by case_decide.
  - destruct (o_direction p); [|done..]. eapply ends_mono; [|apply ends_warn]. by intros.
Qed.
Lemma ends_check_connect parent t f c :
  (∀ p, p ∈ places parent → is_Some (p_signature p)) → (∀ p, p ∈ ports f → port_typed p) →
  ends (λ _, conn_ok (places parent) f c) (check_connect parent t (Ret f) c).
Proof.
  intros Hp Ho. unfold check_connect. apply ends_bind, ends_or_throw; [|done]. intros pl [Hpl Hn]%get_some. simpl.
  apply ends_bind, ends_or_throw; [|done]. intros p [Hin [= Hnp Hd]]%get_some.
  destruct (signature_of_some (p_signature pl)) as (s & Hs & ->); [by apply Hp|]. destruct (Ho p Hin) as (s' & Hs' & Hl). rewrite Hs'. simpl.
  destruct (bool_decide (s ≠ s') && negb (is_connect_tp_many (c_direction c) (o_type p))) eqn:E; [done|]. simpl.
  exists pl, p, s, s'. split_and!; [done..|]. apply andb_false_iff in E as [E|E]; [left; apply bool_decide_eq_false in E; by apply dec_stable|right].
  unfold is_connect_tp_many in E. destruct (c_direction c); simpl in E; try done. split; [done|].
  apply negb_false_iff, bool_decide_eq_true in E. rewrite E in Hl. by apply Hl.
Qed.
Lemma ends_check_response f r :
  (∀ p, p ∈ ports f → port_typed p) → ends (λ _, ∃ p, is_port f (r_port r) port.PORT_OUT p) (check_response (Ret f) r).
Proof.
  intros Ho. unfold check_response. simpl. destruct (has port_key _ (ports f)) eqn:Hh; [|done].
  apply has_spec, list_elem_of_fmap in Hh as (p & [= Hn Hd] & Hp).
  apply ends_bind, ends_or_throw; [|done]. intros q [Hq _]%get_some. destruct (Ho q Hq) as (s & -> & _). simpl.
  destruct (is_response_description s); [|done]. by exists p.
Qed.
Lemma ends_check_eureka f e : ends (λ _, ∃ p, is_port f e port.PORT_OUT p) (check_eureka (Ret f) e).
Proof.
  unfold check_eureka. simpl. apply ends_bind, ends_or_throw; [|done]. intros p [Hp [= Hn Hd]]%get_some. case_decide; [|done]. by exists p.
Qed.
Lemma ends_check_connections (n : net_type) t g :
  (∀ p, p ∈ places (n_data n) → is_Some (p_signature p)) → (∀ p, p ∈ ports g → port_typed p) →
  function_or_use t = inl g → single (t_data t) →
  ends (λ _, trans_ok (places (n_data n)) (t_data t) g) (check_connections (n_data n) t).
Proof.
  intros Hp Ho Hg Hs. unfold check_connections, resolved_function. rewrite Hg. apply ends_bind.
  eapply ends_mono; [|apply (ends_each (conn_ok (places (n_data n)) g)); intros; by apply ends_check_connect]. intros ? H1.
  apply ends_bind. eapply ends_mono; [|apply ends_each; intros; by apply ends_check_response]. intros ? H2.
  eapply ends_mono; [|apply ends_each; intros; by apply ends_check_eureka]. intros ? H3. by split.
Qed.
Lemma ends_type_check st f : proper true f → ends (λ _, fun_ok f) (type_check st f).
Proof.
  intros Hf. induction Hf as [f Hk Ha Hm Hs Hn Hts IHt Hfs IHf]. destruct f as [d c]. simpl. apply ends_bind.
  eapply ends_mono; [|apply ends_each; intros p Hp; apply (ends_check_port st (mk_function d c) p Hp); [by apply Hs|]].
  2: { intros n Hc. by apply (pn_signature _ _ (Hn n Hc)). }
  intros ? Hports. simpl in Hports.
  apply (ends_mono (λ _, ∀ n, c = net n → net_ok n)).
  - intros _ Hc. constructor; [split; [done| |done]|done|..].
    + intros p Hp. destruct (Hs eq_refl p Hp) as (s & -> & _). by eexists.
    + simpl. intros n E. split; [by apply Hc|]. intros p place Hp Ho. by apply (Hports p).
    + simpl. intros n t g E. by apply (Hc n E).
  - destruct c as [| |n|]; [done..| |done]. destruct (Hn n eq_refl) as [Hu Hsig Hsi]. apply ends_bind.
    eapply ends_mono; [|apply (ends_each (λ t, ∃ g, function_or_use t = inl g ∧ trans_ok (places (n_data n)) (t_data t) g ∧ fun_ok g))].
    2: { intros t Ht. destruct (Hsi t Ht) as (Hst & g & Hg). apply ends_bind. rewrite Hg.
         assert (∀ p, p ∈ ports g → port_typed p) as Hpg by (destruct (Hts n t g eq_refl Ht Hg); auto).
         eapply ends_mono; [|apply (ends_check_connections n t g); [by apply Hsig|done..]]. intros ? Hto.
         eapply ends_mono; [|by apply (IHt n t g)]. intros ? Hfo. by exists g. }
    intros ? Hall. eapply ends_mono; [|apply ends_each; intros g Hg; by apply (IHf n g)]. intros ? _ n' [= <-]. split; [split|]; [done|auto|..].
    + intros t Ht. destruct (Hall t Ht) as (g & ? & ? & _). eauto.
    + intros t g Ht Hg. destruct (Hall t Ht) as (g' & Hg' & _ & ?). congruence.
Qed.

(** ** Specializations end

    Functions are nested as deep after a specialization as before, so that the fuel is enough. *)
Definition nested_le (k : nat) (n : net_type) : Prop :=
  (∀ g, g ∈ functions n → (height g ≤ k)%nat) ∧ (∀ x g, (x, g) ∈ templates n → (height g ≤ k)%nat) ∧
  ∀ t g, t ∈ transitions n → function_or_use t = inl g → (height g ≤ k)%nat.
Lemma max_list_le l k : (max_list l ≤ k)%nat ↔ ∀ x, x ∈ l → (x ≤ k)%nat.
Proof.
  induction l as [|y l IH]; simpl; [split; [by intros _ x []%elem_of_nil|lia]|]. rewrite Nat.max_lub_iff, IH. setoid_rewrite elem_of_cons. naive_solver.
Qed.
Lemma height_le f k : (height f ≤ S k)%nat ↔ ∀ n, content f = net n → nested_le k n.
Proof.
  destruct f as [d [| |n|]]; simpl; [split; [done|lia]..| |split; [done|lia]].
  rewrite <- Nat.succ_le_mono, !Nat.max_lub_iff, !max_list_le. setoid_rewrite list_elem_of_fmap. unfold nested_le. split.
  - intros [[Hf Hm] Ht] n' [= <-]. split_and!; [eauto|intros x g Hx; apply Hm; by exists (x, g)|].
    intros t g Hin Hg. apply Ht. exists t. split; [|done]. destruct t as [td fu]. simpl in Hg. by rewrite Hg.
  - intros Hn. destruct (Hn n eq_refl) as (Hf & Hm & Ht). split_and!.
    + intros x (g & -> & Hg). by apply Hf.
    + intros x ([name g] & -> & Hg). by apply (Hm name).
    + intros x ([td [g|u]] & -> & Hin); [by apply (Ht _ g Hin)|lia].
Qed.
Lemma height_pos f : (0 < height f)%nat.
Proof. destruct f as [d [| |n|]]; simpl; lia. Qed.
Section heights.
Context `{Unordered} `{Arrange} (st : state).
Lemma ends_push {K T} `{EqDecision K} (key : T → K) dup v l : legit dup → ends (λ k, k ≡ₚ v :: l) (push key dup v l).
Proof. intros Hd. unfold push. destruct (has key (key v) l); [done|]. simpl. apply arrange_perm. Qed.
Lemma ends_push_each {K T S} `{EqDecision K} (key : T → K) (h : S → T) dup vs l : (∀ w, legit (dup w)) → ends (λ _, True) (push_each key (λ v, Ret (h v)) dup vs l).
Proof.
  intros Hd. revert l. induction vs as [|v vs IH]; intros l; simpl; [done|]. apply ends_bind. eapply ends_mono; [intros k _; apply IH|by apply ends_push].
Qed.
Lemma ends_make_structs l set : ends (λ _, True) (make_structs st l set).
Proof.
  revert set. induction l as [|s l IH]; intros set; simpl; [done|]. apply ends_bind. apply (ends_mono (λ _, True)); [intros _ _; apply IH|].
  destruct (set !! s_name s); [|done]. case_decide; [apply ends_warn|done].
Qed.
Lemma ends_foldl {A B} (f : B → A → outcome error B) l r : (∀ b a, ends (λ _, True) (f b a)) → ends (λ _, True) r → ends (λ _, True) (foldl (λ r a, r ≫= λ b, f b a) r l).
Proof. intros Hf. revert r. induction l as [|a l IH]; intros r Hr; simpl; [done|]. apply IH, ends_bind. eapply ends_mono; [intros b _; apply Hf|done]. Qed.
Lemma ends_join_structs a b : ends (λ _, True) (join_structs a b).
Proof.
  unfold join_structs. apply (ends_foldl (λ (joined : gmap string structure_type) (ks : string * structure_type), _)); [|done].
  intros j ks. destruct (j !! _); [by case_decide|done].
Qed.
Lemma ends_resolve_structure m s : ends (λ _, True) (resolve_structure m s).
Proof.
  unfold resolve_structure, resolve. apply ends_bind. apply (ends_mono (λ _, True)); [by intros [] _|]. apply ends_bind.
  eapply ends_mono; [|apply (ends_map_each (λ _ _, True)); intros; apply ends_resolve_field]. done.
Qed.
Lemma ends_split_structs global child parent type_get : ends (λ _, True) (split_structs st global child parent type_get).
Proof.
  unfold split_structs. apply ends_bind. eapply ends_mono; [intros p _|apply ends_make_structs]. apply ends_bind.
  eapply ends_mono; [intros c _|apply ends_make_structs]. apply ends_bind. eapply ends_mono; [intros x _|apply ends_join_structs]. apply ends_bind.
  eapply ends_mono; [intros known _|apply ends_join_structs].
  apply (ends_foldl (λ (r : list structure_type * list structure_type) (s : structure_type), _)); [|done].
  intros r s. case_decide; [|done]. apply ends_bind. eapply ends_mono; [intros y _|apply ends_resolve_structure]. done.
Qed.
Lemma ends_check_function d b : ends (λ _, True) (check_function d b).
Proof.
  unfold check_function. apply ends_bind. eapply ends_mono; [intros ? _|apply (ends_each (λ _, True))].
  2: { intros p _. apply ends_bind. apply (ends_mono (λ _, True)); [intros _ _; by destruct (has _ _ _)|].
       destruct (o_direction p); [..|done]; (destruct (get_port _ _ _); [by case_decide|done]). }
  apply ends_bind. eapply ends_mono; [intros ? _|apply (ends_each (λ _, True))]; [|intros x _; by destruct (_ || _)].
  destruct b; [done|]. by destruct (f_memory_buffers d), (f_memory_gets d), (f_memory_puts d), (f_memory_getputs d).
Qed.
(** the level below *)
Context (k : nat) (rec : gmap string string → gset string → gmap string structure_type → function_type → outcome error function_type).
Context (rec_le : ∀ m type_get known f, (height f ≤ k)%nat → ends (λ f', (height f' ≤ k)%nat) (rec m type_get known f)).
Lemma ends_specialize_child m type_get known structs f :
  (height f ≤ k)%nat → ends (λ r, (height r.1 ≤ k)%nat) (specialize_child st rec m type_get known structs f).
Proof.
  intros Hf. unfold specialize_child. apply ends_bind. eapply ends_mono; [intros x _|apply ends_make_structs]. apply ends_bind.
  eapply ends_mono; [intros y _|apply ends_join_structs]. apply ends_bind. eapply ends_mono; [|by apply rec_le]. intros g Hg. apply ends_bind.
  eapply ends_mono; [intros cp _|apply ends_split_structs]. simpl. by destruct g.
Qed.
Lemma ends_specialize_templates m known ts sps fs structs :
  (∀ x g, (x, g) ∈ ts → (height g ≤ k)%nat) → (∀ g, g ∈ fs → (height g ≤ k)%nat) →
  ends (λ r, ∀ g, g ∈ r.1 → (height g ≤ k)%nat) (specialize_templates st rec m known ts sps fs structs).
Proof.
  intros Hts. revert fs structs. induction sps as [|sp sps IH]; intros fs structs Hfs; simpl; [done|].
  apply ends_bind, ends_or_throw; [|done]. intros [x g] [Hx _]%get_some. apply ends_bind. eapply ends_mono; [intros ? _|apply ends_check_function].
  apply ends_bind. eapply ends_mono; [|apply ends_specialize_child]; [|simpl; pose proof (Hts x g Hx); by destruct g].
  intros [g' structs'] Hg. apply ends_bind. eapply ends_mono; [|by apply ends_push]. intros fs' Hp. apply IH.
  intros h. rewrite Hp. intros [->|Hh]%elem_of_cons; auto.
Qed.
Lemma ends_specialize_functions m type_get known l structs :
  (∀ g, g ∈ l → (height g ≤ k)%nat) → ends (λ r, ∀ g, g ∈ r.1 → (height g ≤ k)%nat) (specialize_functions st rec m type_get known l structs).
Proof.
  revert structs. induction l as [|f l IH]; intros structs Hl; simpl; [by intros g []%elem_of_nil|]. apply ends_bind.
  eapply ends_mono; [|apply ends_specialize_child, Hl; by left]. intros [g structs'] Hg. apply ends_bind.
  eapply ends_mono; [|apply IH; intros h Hh; apply Hl; by right]. intros [fs ss] Hr h [->|Hh]%elem_of_cons; [done|by apply Hr].
Qed.
Lemma ends_specialize_transitions m type_get known l structs :
  (∀ t g, t ∈ l → function_or_use t = inl g → (height g ≤ k)%nat) →
  ends (λ r, ∀ t g, t ∈ r.1 → function_or_use t = inl g → (height g ≤ k)%nat) (specialize_transitions st rec m type_get known l structs).
Proof.
  revert structs. induction l as [|t l IH]; intros structs Hl; simpl; [by intros ? ? []%elem_of_nil|]. apply ends_bind.
  eapply ends_mono; [intros x _|apply ends_make_structs]. apply ends_bind. eapply ends_mono; [intros y _|apply ends_join_structs]. apply ends_bind.
  apply (ends_mono (λ f, ∀ g, f = inl g → (height g ≤ k)%nat)).
  - intros f Hf. apply ends_bind. eapply ends_mono; [intros cp _|apply ends_split_structs]. apply ends_bind.
    eapply ends_mono; [|apply IH; intros t' g Ht'; apply Hl; by right]. intros [ts ss] Hr t' g [->|Ht']%elem_of_cons; [apply Hf|by apply Hr].
  - destruct (function_or_use t) as [f|u] eqn:E; [|done]. apply ends_bind. eapply ends_mono; [|apply rec_le, (Hl t); [by left|done]]. by intros g Hg h [= <-].
Qed.
Lemma ends_specialize_net m type_get known n : nested_le k n → ends (nested_le k) (specialize_net st rec m type_get known n).
Proof.
  intros (Hf & Hm & Ht). unfold specialize_net. apply ends_bind. eapply ends_mono; [|by apply ends_specialize_templates]. intros [fs ss] Hfs.
  apply ends_bind. eapply ends_mono; [|by apply ends_specialize_functions]. intros [fs' ss'] Hfs'. apply ends_bind.
  eapply ends_mono; [|by apply ends_specialize_transitions]. intros [ts ss''] Hts. apply ends_bind. eapply ends_mono; [intros ps _|by apply ends_push_each].
  by split_and!.
Qed.
End heights.
Lemma ends_specialize `{Unordered} `{Arrange} st fuel k m type_get known f :
  (height f ≤ k ≤ fuel)%nat → ends (λ f', (height f' ≤ k)%nat) (specialize st fuel m type_get known f).
Proof.
  revert k m type_get known f. induction fuel as [|fuel IH]; intros k m type_get known f [Hf Hk]; simpl; pose proof (height_pos f); [lia|].
  destruct k as [|k]; [lia|]. rewrite height_le in Hf. apply ends_bind. eapply ends_mono; [intros ps _|by apply ends_push_each]. apply ends_bind.
  eapply ends_mono; [intros x _|apply ends_make_structs]. apply ends_bind. eapply ends_mono; [intros y _|apply ends_join_structs].
  destruct (content f) as [| |n|] eqn:Ec; [simpl; lia..| |simpl; lia]. apply ends_bind.
  eapply ends_mono; [|apply (ends_specialize_net st k (specialize st fuel)); [intros; apply IH; lia|by apply Hf]]. intros n' Hn'. apply ends_bind.
  eapply ends_mono; [intros cp _|apply ends_split_structs]. apply height_le. by intros n'' [= <-].
Qed.
(** no exception of the compiler itself, in particular no end of the fuel *)
Lemma ends_specialize_all `{Unordered} `{Arrange} st f : ends (λ _, True) (specialize_all st f).
Proof. unfold specialize_all. eapply ends_mono; [|by apply (ends_specialize st _ (height f))]. done. Qed.
End check.
