(* ===== verification/XmlBuild.v ===== *)
(** * Building nets that fit together

    Runs of the compiler that end well or with an error of the input ([mends]); nets whose
    connections join ports and places that exist and have the same type ([linked]), transitions
    whose nets are of this kind ([sound]); and that the operations with which the compiler builds
    a net keep it so. *)

From S2P Require Import Prelude Value Token Function Expr ModuleCall Net NetFire NetEnabled NetInvariant XmlNet XmlSynthesize XmlCheck.

Module build.
Import Signature check Enabled Invariant.

(** ** Runs *)
Definition mends {S A} (Q : A → S → Prop) (r : outcome xml.error A * S) : Prop :=
  match r with (Ret a, s) => Q a s | (Throw e, _) => legit e end.
Section runs.
Context {S : Type}.
Lemma mends_bind {A B} (Q : B → S → Prop) (m : M S xml.error A) (k : A → M S xml.error B) s :
  mends (λ a s', mends Q (k a s')) (m s) → mends Q ((m ≫= k) s).
Proof. unfold mbind, M_bind. by destruct (m s) as [[a|e] s']. Qed.
Lemma mends_mono {A} (P Q : A → S → Prop) r : (∀ a s, P a s → Q a s) → mends P r → mends Q r.
Proof. destruct r as [[a|e] s]; simpl; auto. Qed.
Lemma mends_lift {A} (Q : A → S → Prop) o s : ends (λ a, Q a s) o → mends Q (lift o s).
Proof. by destruct o. Qed.
Lemma mends_engine {A} (Q : A → S → Prop) (m : M S exn A) s : (∀ a s', m s = (Ret a, s') → Q a s') → mends Q (synthesize.engine m s).
Proof. unfold synthesize.engine. destruct (m s) as [[a|e] s']; simpl; auto. Qed.
(** loops: what holds when some elements are left *)
Lemma mends_for_each {A} (I : list A → S → Prop) (f : A → M S xml.error unit) l s :
  (∀ x k s, I (x :: k) s → mends (λ _, I k) (f x s)) → I l s → mends (λ _, I []) (for_each f l s).
Proof.
  intros Hf. revert s. induction l as [|x l IH]; intros s Hs; simpl; [done|]. apply mends_bind.
  eapply mends_mono; [|by apply Hf]. intros ? s' Hs'. by apply IH.
Qed.
End runs.

Abbreviation we_net := (Net.net_type workflow).
Section build.
Context `{Float.Libm} `{Unordered} {P W : Type} (env : fire.environment P W).
Implicit Types (s : net.structure workflow) (m : we_net) (t u : transition_t workflow).

(** ** Nets that fit together *)
Record linked s : Prop := {
  li_out tid port c : net.port_to_place s !! tid ≫= (.!! port) = Some c →
    ∃ t q pl, net.tmap s !! tid = Some t ∧ transition.ports_output t !! port = Some q ∧ net.pmap s !! c.1 = Some pl ∧
      port.signature q = place.signature pl;
  (** the elements of a list go to the place one by one *)
  li_many tid port c : net.port_many_to_place s !! tid ≫= (.!! port) = Some c →
    ∃ t q pl, net.tmap s !! tid = Some t ∧ transition.ports_output t !! port = Some q ∧ net.pmap s !! c.1 = Some pl ∧
      (port.signature q = place.signature pl ∨ port.signature q = Sname "list");
  li_in tid pid c : net.place_to_port s !! tid ≫= (.!! pid) = Some c →
    ∃ t q pl, net.tmap s !! tid = Some t ∧ transition.ports_input t !! c.1 = Some q ∧ net.pmap s !! pid = Some pl ∧
      port.signature q = place.signature pl
}.
(** the ports of a transition that has a net, and the places inside *)
Definition any_port t id q : Prop :=
  transition.ports_input t !! id = Some q ∨ transition.ports_output t !! id = Some q ∨ transition.ports_tunnel t !! id = Some q.
Record inside t m : Prop := {
  is_place id q pid : any_port t id q → port.associated_place q = Some pid →
    ∃ pl, net.pmap m !! pid = Some pl ∧ place.signature pl = port.signature q;
  is_output id q : transition.ports_output t !! id = Some q → is_Some (port.associated_place q)
}.
Inductive sound : transition_t workflow → Prop :=
| sound_intro t :
    (∀ m, transition.data t = transition.net (subnet m) → reachable env m ∧ linked m ∧ inside t m) →
    (∀ m tid u, transition.data t = transition.net (subnet m) → net.tmap m !! tid = Some u → sound u) → sound t.

(** ** Nets that are being built *)
Record good m : Prop := {
  go_reachable : reachable env m;
  go_linked : linked m;
  go_sound tid u : net.tmap m !! tid = Some u → sound u;
  go_counters : (0 ≤ net.place_id m ∧ 0 ≤ net.transition_id m)%Z;
  go_fresh_place pid : (net.place_id m ≤ pid)%Z → net.pmap m !! pid = None;
  go_fresh_transition tid : (net.transition_id m ≤ tid)%Z → net.tmap m !! tid = None
}.
Definition count m : Z := net.place_id m + net.transition_id m.
Record grows (w : Z) m m' : Prop := {
  gr_places : net.pmap m ⊆ net.pmap m';
  gr_transitions : net.tmap m ⊆ net.tmap m';
  gr_count : (count m' ≤ count m + w)%Z
}.
Lemma grows_refl m : grows 0 m m.
Proof. split; [done..|lia]. Qed.
Lemma grows_trans v w x m1 m2 m3 : grows v m1 m2 → grows w m2 m3 → (v + w ≤ x)%Z → grows x m1 m3.
Proof. intros [P1 T1 C1] [P2 T2 C2] Hx. split; [by etrans..|lia]. Qed.
Definition inputs m (tid : transition_id_type) (used : list string) : Prop :=
  ∀ p t name, net.tmap m !! tid = Some t → is_input m tid p → cross.input_port_name m tid t p = Ret name → name ∈ used.
Lemma good_wf m : good m → wf m.
Proof. intros Hm. by eapply inv_wf, reachable_up_to_date, go_reachable. Qed.
Lemma good_empty : good net.empty.
Proof. split; [apply rtc_refl|split; done|done|done|done|done]. Qed.
Lemma linked_mono s s' :
  linked s → net.pmap s ⊆ net.pmap s' → net.tmap s ⊆ net.tmap s' → net.port_to_place s' = net.port_to_place s →
  net.port_many_to_place s' = net.port_many_to_place s → net.place_to_port s' = net.place_to_port s → linked s'.
Proof.
  intros [L1 L2 L3] Hp Ht E1 E2 E3. split; [rewrite E1|rewrite E2|rewrite E3]; intros tid x c Hc.
  - destruct (L1 tid x c Hc) as (t & q & pl & ? & ? & ? & ?). exists t, q, pl. split_and!; [by eapply lookup_weaken|done|by eapply lookup_weaken|done].
  - destruct (L2 tid x c Hc) as (t & q & pl & ? & ? & ? & ?). exists t, q, pl. split_and!; [by eapply lookup_weaken|done|by eapply lookup_weaken|done].
  - destruct (L3 tid x c Hc) as (t & q & pl & ? & ? & ? & ?). exists t, q, pl. split_and!; [by eapply lookup_weaken|done|by eapply lookup_weaken|done].
Qed.

(** ** Places and transitions *)
Lemma next_id_small i : (0 ≤ i)%Z → (i + 1 < two64)%Z → next_id i = (i + 1)%Z.
Proof. intros. unfold next_id. apply w64_small. split; lia. Qed.
Lemma mends_add_place p m :
  good m → (count m + 1 < two64)%Z →
  mends (λ pid m', good m' ∧ grows 1 m m' ∧ net.pmap m' !! pid = Some p) (synthesize.engine (net_ops.add_place p) m).
Proof.
  intros [Hr Hl Hs [C1 C2] Fp Ft] Hc. unfold count in Hc. apply mends_engine. intros pid m' Hrun. pose proof (step_add_place env p m pid m' Hrun) as Hstep.
  revert Hrun. unfold net_ops.add_place, net_ops.this. rewrite bind_get, bind_modify.
  destruct (emplace (place.name p) _ _) as [by_name is_new]. rewrite bind_modify. destruct is_new; [|done]. intros [= <- E].
  assert (Hp : net.pmap m' = <[net.place_id m := p]> (net.pmap m)) by (rewrite <- E; simpl; unfold emplace; by rewrite (Fp (net.place_id m)) by done).
  assert (Hsub : net.pmap m ⊆ net.pmap m') by (rewrite Hp; apply insert_subseteq, Fp; done).
  assert (Hid : net.place_id m' = (net.place_id m + 1)%Z) by (rewrite <- E; simpl; apply next_id_small; lia).
  assert (net.tmap m' = net.tmap m ∧ net.transition_id m' = net.transition_id m) as [Ht Hti] by (by rewrite <- E). split_and!.
  - split; [by eapply rtc_r|apply (linked_mono m); [done|done|by rewrite Ht|(by rewrite <- E)..]|by rewrite Ht|lia| |by rewrite Ht, Hti].
    intros q Hq. rewrite Hp, lookup_insert_ne by lia. apply Fp. lia.
  - split; [done|by rewrite Ht|unfold count; lia].
  - by rewrite Hp, lookup_insert_eq.
Qed.
Lemma mends_add_transition t m :
  good m → (count m + 1 < two64)%Z → sound t →
  mends (λ tid m', good m' ∧ grows 1 m m' ∧ net.pmap m' = net.pmap m ∧ net.tmap m' !! tid = Some t ∧ inputs m' tid [])
    (synthesize.engine (net_ops.add_transition t) m).
Proof.
  intros Hg Hc Ht. pose proof (good_wf m Hg) as Hwf. destruct Hg as [Hr Hl Hs [C1 C2] Fp Ft]. unfold count in Hc.
  apply mends_engine. intros tid m' Hrun. pose proof (step_add_transition env t m tid m' Hrun) as Hstep.
  revert Hrun. unfold net_ops.add_transition, net_ops.this. rewrite bind_get, bind_modify. intros [= <- E].
  assert (Hp : net.tmap m' = <[net.transition_id m := t]> (net.tmap m)) by (rewrite <- E; simpl; unfold emplace; by rewrite (Ft (net.transition_id m)) by done).
  assert (Hsub : net.tmap m ⊆ net.tmap m') by (rewrite Hp; apply insert_subseteq, Ft; done).
  assert (Hid : net.transition_id m' = (net.transition_id m + 1)%Z) by (rewrite <- E; simpl; apply next_id_small; lia).
  assert (net.pmap m' = net.pmap m ∧ net.place_id m' = net.place_id m) as [Hq Hqi] by (by rewrite <- E). split_and!.
  - split; [by eapply rtc_r|apply (linked_mono m); [done|by rewrite Hq|done|(by rewrite <- E)..]| |lia|by rewrite Hq, Hqi|].
    + intros tid u. rewrite Hp. intros [[<- <-]|[_ Hu]]%lookup_insert_Some; [done|by eapply Hs].
    + intros tid Hti. rewrite Hp, lookup_insert_ne by lia. apply Ft. lia.
  - split; [by rewrite Hq|done|unfold count; lia].
  - done.
  - by rewrite Hp, lookup_insert_eq.
  - intros p u name _ Hin _. exfalso. assert (is_input m (net.transition_id m) p) as Hin' by (by rewrite <- E in Hin).
    destruct (wf_port _ Hwf _ _ Hin') as (u' & ? & Hu & _). by rewrite Ft in Hu.
Qed.

(** ** The structure of a net does not depend on its tokens *)
Abbreviation str_is s := (λ m : we_net, net.str m = s).
#[local] Hint Extern 1 (preserves (str_is _) (modify _)) => (apply preserves_modify; intros ? Hm; exact Hm) : gspc.
#[local] Hint Extern 1 (preserves (str_is _) net_ops.this) => apply preserves_get : gspc.
Lemma str_at `{Countable K} {V} s (k : K) (x : gmap K V) : preserves (str_is s) (net_ops.at_ k x : M we_net exn V).
Proof. apply preserves_lift. Qed.
#[local] Hint Resolve str_at : gspc.
Lemma str_touch s pid : preserves (str_is s) (net_ops.touch pid : M we_net exn _).
Proof. unfold net_ops.touch. auto 10 with gspc. Qed.
Lemma str_disable s tid : preserves (str_is s) (net_ops.disable tid : M we_net exn _).
Proof. unfold net_ops.disable. auto 10 with gspc. Qed.
#[local] Hint Resolve str_touch str_disable : gspc.
Lemma str_push_places s fixed tid t roots is_read places x :
  preserves (str_is s) (net_ops.push_places fixed tid t roots is_read places x : M we_net exn _).
Proof.
  revert x. induction places as [|pid places IH]; intros x; cbn [net_ops.push_places]; [apply preserves_ret|].
  apply preserves_bind; [destruct fixed as [[fpid f]|]; [case_decide|]; auto 10 with gspc|]. intros tokens. case_decide; auto 10 with gspc.
Qed.
#[local] Hint Resolve str_push_places : gspc.
Lemma str_update s fixed tid : preserves (str_is s) (net_ops.update_enabled_with fixed tid : M we_net exn _).
Proof.
  unfold net_ops.update_enabled_with. do 3 (apply preserves_bind; [auto with gspc|]; intros ?).
  do 2 (apply preserves_bind; [auto with gspc|]; intros [?|]; [|auto with gspc]).
  do 2 (apply preserves_bind; [auto with gspc|]; intros ?). case_match; auto with gspc.
Qed.
#[local] Hint Resolve str_update : gspc.
Lemma str_put_value s pid v : preserves (str_is s) (net_ops.put_value pid v : M we_net exn _).
Proof.
  unfold net_ops.put_value, net_ops.do_put_value, net_ops.do_update. apply preserves_bind; [auto 12 with gspc|]. intros r.
  apply preserves_bind; [auto with gspc|]. intros n. apply preserves_for_each. intros tid _. unfold net_ops.update_enabled_put_token.
  do 2 (apply preserves_bind; [auto with gspc|]; intros ?). case_match; auto with gspc.
Qed.
Lemma preserves_ret_inv {A} (I : we_net → Prop) (c : M we_net exn A) m a m' : preserves I c → I m → c m = (Ret a, m') → I m'.
Proof. intros Hp Hi E. specialize (Hp m Hi). by rewrite E in Hp. Qed.

(** the structure decides, apart from how it was reached *)
Lemma good_same m m' : good m → step env m m' → net.str m' = net.str m → good m' ∧ grows 0 m m'.
Proof.
  intros [Hr Hl Hs C Fp Ft] Hstep E. split; [split; rewrite ?E; try done; by eapply rtc_r|]. split; [by rewrite E|by rewrite E|unfold count; rewrite E; lia].
Qed.
Lemma mends_put_value pid v m : good m → mends (λ _ m', good m' ∧ grows 0 m m') (synthesize.engine (net_ops.put_value pid v) m).
Proof.
  intros Hg. apply mends_engine. intros [] m' Hrun. apply good_same; [done|by eapply step_put_value|].
  by eapply (preserves_ret_inv (str_is m)); [apply str_put_value|done|].
Qed.
Lemma good_frame m m' :
  good m → step env m m' → net.pmap m' = net.pmap m → net.tmap m' = net.tmap m → net.place_id m' = net.place_id m →
  net.transition_id m' = net.transition_id m → linked m' → good m' ∧ grows 0 m m'.
Proof.
  intros [Hr Hl Hs C Fp Ft] Hstep E1 E2 E3 E4 Hl'. split; [split; rewrite ?E1, ?E2, ?E3, ?E4; try done; by eapply rtc_r|].
  split; [by rewrite E1|by rewrite E2|unfold count; rewrite E3, E4; lia].
Qed.
Lemma mends_add_response tid port to prop m :
  good m → mends (λ _ m', good m' ∧ grows 0 m m') (synthesize.engine (net_ops.add_response tid port to prop) m).
Proof.
  intros Hg. apply mends_engine. intros [] m' Hrun. pose proof (step_add_response env tid port to prop m m' Hrun) as Hstep.
  revert Hrun. unfold net_ops.add_response, net_ops.this. rewrite bind_get.
  destruct (net_ops.emplace2 _ _ _ _) as [x []]; rewrite bind_modify; [|done]. intros [= <-]. apply good_frame; try done.
  by apply (linked_mono m); [apply Hg|..].
Qed.
Lemma mends_add_eureka tid port m : good m → mends (λ _ m', good m' ∧ grows 0 m m') (synthesize.engine (net_ops.add_eureka tid port) m).
Proof.
  intros Hg. apply mends_engine. intros [] m' Hrun. pose proof (step_add_eureka env tid port m m' Hrun) as Hstep.
  revert Hrun. unfold net_ops.add_eureka, net_ops.this. rewrite bind_get.
  destruct (emplace _ _ _) as [x []]; rewrite bind_modify; [|done]. intros [= <-]. apply good_frame; try done.
  by apply (linked_mono m); [apply Hg|..].
Qed.

(** ** Connections *)
Lemma lookup2_insert `{Countable K1, Countable K2} {V} (k1 : K1) (k2 : K2) (v : V) (x : gmap K1 (gmap K2 V)) a b c :
  <[k1 := <[k2 := v]> (default ∅ (x !! k1))]> x !! a ≫= (.!! b) = Some c → (a = k1 ∧ b = k2 ∧ c = v) ∨ x !! a ≫= (.!! b) = Some c.
Proof.
  destruct (decide (a = k1)) as [->|Hne]; [|rewrite lookup_insert_ne by done; by right]. rewrite lookup_insert_eq. simpl.
  intros [[<- <-]|[Hne Hc]]%lookup_insert_Some; [by left|right]. destruct (x !! k1); simpl in *; [done|by apply lookup_empty_Some in Hc].
Qed.
(** a port fits to a place *)
Definition fits (type : edge.type) t (id : port_id_type) (q : port.port_t) (pl : place.type) : Prop :=
  if xml.is_PT type then transition.ports_input t !! id = Some q ∧ port.signature q = place.signature pl
  else transition.ports_output t !! id = Some q ∧
       (port.signature q = place.signature pl ∨ type = edge.TP_MANY ∧ port.signature q = Sname "list").
Lemma mends_connect_in (read : bool) tid pid id prop t q pl used m m' :
  good m → net.tmap m !! tid = Some t → net.pmap m !! pid = Some pl → transition.ports_input t !! id = Some q →
  port.signature q = place.signature pl → inputs m tid used → port.name q ∉ used →
  net.place_to_port m !! tid ≫= (.!! pid) = None → step env m m' → net.str m' = connect read tid pid (id, prop) m →
  good m' ∧ grows 0 m m' ∧ net.pmap m' = net.pmap m ∧ net.tmap m' = net.tmap m ∧ inputs m' tid (port.name q :: used).
Proof.
  intros Hg Ht Hp Hq Hs Hin Hfresh Hnew Hstep E.
  assert (Hsame : net.pmap m' = net.pmap m ∧ net.tmap m' = net.tmap m ∧ net.place_id m' = net.place_id m ∧ net.transition_id m' = net.transition_id m ∧
    net.port_to_place m' = net.port_to_place m ∧ net.port_many_to_place m' = net.port_many_to_place m ∧
    net.place_to_port m' = <[tid := <[pid := (id, prop)]> (default ∅ (net.place_to_port m !! tid))]> (net.place_to_port m)).
  { rewrite E. unfold connect. by destruct read. }
  destruct Hsame as (E1 & E2 & E3 & E4 & E5 & E6 & E7). pose proof (good_wf m Hg) as Hwf. destruct (go_linked m Hg) as [L1 L2 L3].
  assert (linked m') as Hl.
  { split; rewrite ?E5, ?E6, ?E7, ?E1, ?E2; [done..|]. intros a b c [(-> & -> & ->)|Hc]%lookup2_insert; [by exists t, q, pl|by apply L3]. }
  destruct (good_frame m m' Hg Hstep E1 E2 E3 E4 Hl) as [Hg' Hgr]. split_and!; try done.
  intros p u name. rewrite E2, E. intros Hu Hip. rewrite connect_port_name. assert (u = t) as -> by congruence. case_decide as Hpd.
  - simpl. rewrite Hq. intros [= <-]. by left.
  - destruct (net.place_to_port m !! tid ≫= (.!! p)); [|done]. intros Hn. right. apply connect_input in Hip as [[_ ?]|Hip]; [done|].
    by apply (Hin p t name).
Qed.
Lemma mends_connect type tid pid id prop t q pl used m :
  good m → net.tmap m !! tid = Some t → net.pmap m !! pid = Some pl → fits type t id q pl →
  inputs m tid used → (xml.is_PT type = true → port.name q ∉ used) →
  mends (λ _ m', good m' ∧ grows 0 m m' ∧ net.pmap m' = net.pmap m ∧ net.tmap m' = net.tmap m ∧
      inputs m' tid (if xml.is_PT type then port.name q :: used else used))
    (synthesize.engine (net_ops.add_connection type tid pid id prop) m).
Proof.
  intros Hg Ht Hp Hfit Hin Hfresh. apply mends_engine. intros [] m' Hrun.
  assert (Hstep : step env m m').
  { eapply step_add_connection; [|done]. intros Htype. exists t, (port.name q).
    assert (xml.is_PT type = true) as Hpt by (by destruct Htype as [-> | ->]). unfold fits in Hfit. rewrite Hpt in Hfit. destruct Hfit as [-> _].
    split_and!; [done..|]. intros p Hip Hn. by apply (Hfresh Hpt), (Hin p t). }
  revert Hrun. unfold net_ops.add_connection, net_ops.this. rewrite bind_get. pose proof (go_linked m Hg) as [L1 L2 L3].
  assert (∀ x, net_ops.require_no_output_connection x tid id m = (Ret tt, m) ∨
    ∃ e, net_ops.require_no_output_connection x tid id m = (Throw e, m)) as Hreq.
  { intros x. unfold net_ops.require_no_output_connection. destruct (x !! tid ≫= _); eauto. }
  destruct type; simpl in *.
  1, 2: destruct (net_ops.emplace2 _ _ _ _) as [x []] eqn:Hx; intros Hrun; rewrite bind_modify in Hrun; [|done];
    apply emplace2_new in Hx as [Hnone ->]; destruct Hfit as [Hq Hs].
  - apply (mends_connect_in false tid pid id prop t q pl used m m'); auto.
    eapply (preserves_ret_inv (str_is _)); [apply str_update| |exact Hrun]. done.
  - apply (mends_connect_in true tid pid id prop t q pl used m m'); auto.
    eapply (preserves_ret_inv (str_is _)); [apply str_update| |exact Hrun]. done.
  - intros ([] & m1 & Hr & Hrun)%bind_ret_inv. destruct (Hreq (net.port_many_to_place m)) as [Hr'|[e Hr']]; rewrite Hr' in Hr; [|done].
    injection Hr as <-. destruct (net_ops.emplace2 _ _ _ _) as [x []] eqn:Hx; rewrite bind_modify in Hrun; [|done]. injection Hrun as <-.
    apply emplace2_new in Hx as [_ ->]. destruct Hfit as [Hq [Hs|[[=] _]]].
    destruct (good_frame m _ Hg Hstep) as [Hg' Hgr]; try done.
    split; simpl; [|done..]. intros a b c [(-> & -> & ->)|Hc]%lookup2_insert; [by exists t, q, pl|by apply L1].
  - intros ([] & m1 & Hr & Hrun)%bind_ret_inv. destruct (Hreq (net.port_to_place m)) as [Hr'|[e Hr']]; rewrite Hr' in Hr; [|done].
    injection Hr as <-. destruct (net_ops.emplace2 _ _ _ _) as [x []] eqn:Hx; rewrite bind_modify in Hrun; [|done]. injection Hrun as <-.
    apply emplace2_new in Hx as [_ ->]. destruct Hfit as [Hq Hs].
    destruct (good_frame m _ Hg Hstep) as [Hg' Hgr]; try done.
    split; simpl; [done| |done]. intros a b c [(-> & -> & ->)|Hc]%lookup2_insert; [|by apply L2]. exists t, q, pl. naive_solver.
Qed.
End build.
End build.
