(* ===== verification/XmlSound.v ===== *)
(** * The compiler builds nets that fit together

    The synthesis of functions that have passed the checks: it ends with a transition whose nets
    are well connected and typed, at every level, or with an error of the input, never with a
    broken assumption of the compiler. *)

From S2P Require Import Prelude Value Token Function ReadShow Expr Parser ModuleCall Net NetFire NetEnabled NetInvariant XmlNet XmlSynthesize XmlCheck XmlBuild.

Module xml_sound.
Import Signature xml synthesize check build.

Section ports.
Context `{Float.Libm} `{Unordered} `{Arrange}.
Implicit Types (b : built) (q : port.port_t).

(** ** Ports

    [qs] are the ports that a transition has got so far. *)
Definition is_out q : bool := match port.direction q with port.PORT_OUT => true | _ => false end.
Record ported (qs : list port.port_t) (data : transition.data_type workflow) b : Prop := {
  pb_data : transition.data (trans b) = data;
  pb_count : transition.port_id_counter (trans b) = Z.of_nat (length qs);
  pb_fresh id : (Z.of_nat (length qs) ≤ id)%Z → transition.ports_input (trans b) !! id = None ∧
    transition.ports_output (trans b) !! id = None ∧ transition.ports_tunnel (trans b) !! id = None;
  pb_in q : q ∈ qs → port.direction q = port.PORT_IN →
    ∃ id, port_id_in b !! port.name q = Some id ∧ transition.ports_input (trans b) !! id = Some q;
  pb_out q : q ∈ qs → port.direction q = port.PORT_OUT →
    ∃ id, port_id_out b !! port.name q = Some id ∧ transition.ports_output (trans b) !! id = Some q;
  pb_keys_in name : is_Some (port_id_in b !! name) → ∃ q, q ∈ qs ∧ port.name q = name ∧ is_out q = false;
  pb_keys_out name : is_Some (port_id_out b !! name) → ∃ q, q ∈ qs ∧ port.name q = name ∧ is_out q = true;
  pb_any id q : any_port (trans b) id q → q ∈ qs;
  pb_output id q : transition.ports_output (trans b) !! id = Some q → is_Some (transition.get_net (trans b)) → is_Some (port.associated_place q);
  pb_names : real_place_names b = ∅
}.
Lemma emplace_lookup `{Countable K} {V} (k : K) (v : V) m x y : m !! k = None → (emplace k v m).1 !! x = Some y ↔ (x = k ∧ y = v) ∨ (x ≠ k ∧ m !! x = Some y).
Proof.
  intros Hk. unfold emplace. rewrite Hk. simpl. destruct (decide (x = k)) as [->|Hne].
  - rewrite lookup_insert_eq. naive_solver.
  - rewrite lookup_insert_ne by done. naive_solver.
Qed.
Lemma emplace_old `{Countable K} {V} (k : K) (v : V) m x y : m !! x = Some y → (emplace k v m).1 !! x = Some y.
Proof. intros Hx. unfold emplace. destruct (m !! k) eqn:Hk; [done|]. simpl. rewrite lookup_insert_ne; [done|congruence]. Qed.
Lemma emplace_is_some `{Countable K} {V} (k : K) (v : V) m x : is_Some ((emplace k v m).1 !! x) → x = k ∨ is_Some (m !! x).
Proof.
  unfold emplace. destruct (m !! k) eqn:Hk; [by right|]. simpl. destruct (decide (x = k)) as [->|Hne]; [by left|].
  rewrite lookup_insert_ne by done. by right.
Qed.
(** the names of ports that go in, and of those that go out, are different *)
Definition new_name (qs : list port.port_t) q : Prop := ∀ q', q' ∈ qs → is_out q' = is_out q → port.name q' ≠ port.name q.
Definition added q (b : built) : transition_t workflow :=
  let t := trans b in
  let id := transition.port_id_counter t in
  transition.mk (transition.name t) (transition.data t) (transition.condition t)
    (match port.direction q with port.PORT_IN => (emplace id q (transition.ports_input t)).1 | _ => transition.ports_input t end)
    (match port.direction q with port.PORT_OUT => (emplace id q (transition.ports_output t)).1 | _ => transition.ports_output t end)
    (match port.direction q with port.PORT_TUNNEL => (emplace id q (transition.ports_tunnel t)).1 | _ => transition.ports_tunnel t end)
    (next_id id) (transition.prop t) (transition.requirements t) (transition.preferences t) (transition.priority t) (transition.eureka_id t).
Lemma add_port_ret q b id b' : add_port q b = (Ret id, b') →
  id = transition.port_id_counter (trans b) ∧ trans b' = added q b ∧ real_place_names b' = real_place_names b ∧
  port_id_in b' = (if is_out q then port_id_in b else (emplace (port.name q) id (port_id_in b)).1) ∧
  port_id_out b' = (if is_out q then (emplace (port.name q) id (port_id_out b)).1 else port_id_out b) ∧
  (is_out q = true → is_Some (transition.get_net (trans b)) → is_Some (port.associated_place q)).
Proof.
  unfold add_port, transition.add_port, added, is_out. destruct (port.direction q); [by intros [= <- <-]| |by intros [= <- <-]].
  destruct (bool_decide (is_Some (transition.get_net (trans b)))) eqn:E1, (bool_decide (port.associated_place q = None)) eqn:E2;
    simpl; try done; intros [= <- <-]; split_and!; try done; intros _ Hn.
  - apply bool_decide_eq_false in E2. by apply not_eq_None_Some.
  - by apply bool_decide_eq_false in E1.
  - by apply bool_decide_eq_false in E1.
Qed.
Lemma mends_add_port qs data q b :
  ported qs data b → (Z.of_nat (length qs) + 1 < two64)%Z → new_name qs q → mends (λ _ b', ported (q :: qs) data b') (add_port q b).
Proof.
  intros [Hd Hc Hf Hin Hout Hki Hko Hany Hoa Hn] Hlt Hnew. destruct (add_port q b) as [[id|e] b'] eqn:E; simpl.
  2: { revert E. unfold add_port. destruct (transition.add_port q (trans b)) as [[]]; by intros [= <- _]. }
  apply add_port_ret in E as (Hid & Ht & Hn' & Ei & Eo & Hassoc). rewrite Hc in Hid.
  destruct (Hf id) as (F1 & F2 & F3); [lia|].
  assert (Hnext : transition.port_id_counter (trans b') = Z.of_nat (length (q :: qs))).
  { rewrite Ht. simpl. rewrite Hc. rewrite next_id_small; simpl; lia. }
  assert (Hfi : is_out q = false → port_id_in b !! port.name q = None).
  { intros Ho. apply eq_None_not_Some. intros (q' & Hq' & En & Ho')%Hki. by apply (Hnew q' Hq'); [congruence|]. }
  assert (Hfo : is_out q = true → port_id_out b !! port.name q = None).
  { intros Ho. apply eq_None_not_Some. intros (q' & Hq' & En & Ho')%Hko. by apply (Hnew q' Hq'); [congruence|]. }
  assert (Hti : ∀ x y, transition.ports_input (trans b') !! x = Some y ↔ (x = id ∧ y = q ∧ port.direction q = port.PORT_IN) ∨ transition.ports_input (trans b) !! x = Some y).
  { intros x y. rewrite Ht. simpl. rewrite Hc, <- Hid. destruct (port.direction q); [rewrite (emplace_lookup _ _ _ _ _ F1)|..]; naive_solver congruence. }
  assert (Hto : ∀ x y, transition.ports_output (trans b') !! x = Some y ↔ (x = id ∧ y = q ∧ port.direction q = port.PORT_OUT) ∨ transition.ports_output (trans b) !! x = Some y).
  { intros x y. rewrite Ht. simpl. rewrite Hc, <- Hid. destruct (port.direction q); [|rewrite (emplace_lookup _ _ _ _ _ F2)|]; naive_solver congruence. }
  assert (Htt : ∀ x y, transition.ports_tunnel (trans b') !! x = Some y ↔ (x = id ∧ y = q ∧ port.direction q = port.PORT_TUNNEL) ∨ transition.ports_tunnel (trans b) !! x = Some y).
  { intros x y. rewrite Ht. simpl. rewrite Hc, <- Hid. destruct (port.direction q); [..|rewrite (emplace_lookup _ _ _ _ _ F3)]; naive_solver congruence. }
  split.
  - by rewrite Ht.
  - done.
  - simpl length. intros x Hx. destruct (Hf x) as (G1 & G2 & G3); [lia|].
    split_and!; apply eq_None_not_Some; intros [y Hy]; [apply Hti in Hy|apply Hto in Hy|apply Htt in Hy]; destruct Hy as [(-> & _)|?]; try lia; congruence.
  - intros y [->|Hy]%elem_of_cons Hdir.
    + exists id. rewrite Ei, Hti. unfold is_out in *. rewrite Hdir in *. split; [|by left]. apply emplace_lookup; auto.
    + destruct (Hin y Hy Hdir) as (x & Hx & Hxy). exists x. rewrite Ei, Hti. split; [|by right]. destruct (is_out q); [done|by apply emplace_old].
  - intros y [->|Hy]%elem_of_cons Hdir.
    + exists id. rewrite Eo, Hto. unfold is_out in *. rewrite Hdir in *. split; [|by left]. apply emplace_lookup; auto.
    + destruct (Hout y Hy Hdir) as (x & Hx & Hxy). exists x. rewrite Eo, Hto. split; [|by right]. destruct (is_out q); [by apply emplace_old|done].
  - intros name Hname. rewrite Ei in Hname. destruct (is_out q) eqn:Ho; [|apply emplace_is_some in Hname as [->|Hname]].
    2: { exists q. split; [by left|done]. }
    all: destruct (Hki name Hname) as (q' & ? & ? & ?); exists q'; split; [by right|done].
  - intros name Hname. rewrite Eo in Hname. destruct (is_out q) eqn:Ho; [apply emplace_is_some in Hname as [->|Hname]|].
    1: { exists q. split; [by left|done]. }
    all: destruct (Hko name Hname) as (q' & ? & ? & ?); exists q'; split; [by right|done].
  - intros x y [Hy|[Hy|Hy]]; [apply Hti in Hy|apply Hto in Hy|apply Htt in Hy]; (destruct Hy as [(_ & -> & _)|Hy]; [by left|right; eapply Hany; unfold any_port; eauto]).
  - intros x y [(-> & -> & Hdir)|Hy]%Hto Hnet; rewrite Ht in Hnet; [apply Hassoc; [unfold is_out; by rewrite Hdir|done]|by apply (Hoa x)].
  - congruence.
Qed.
Definition has_in b (name : string) (s : signature_type) : Prop :=
  ∃ id q, port_id_in b !! name = Some id ∧ transition.ports_input (trans b) !! id = Some q ∧ port.name q = name ∧ port.signature q = s.
Definition has_out b (name : string) (s : signature_type) : Prop :=
  ∃ id q, port_id_out b !! name = Some id ∧ transition.ports_output (trans b) !! id = Some q ∧ port.name q = name ∧ port.signature q = s.
(** a port of a function and the port that is made of it *)
Record made (assoc : port_type → option Z) (p : port_type) q : Prop := {
  md_name : port.name q = o_name p;
  md_direction : port.direction q = o_direction p;
  md_signature : o_signature p = Some (port.signature q);
  md_place : port.associated_place q = assoc p
}.
Record made_all assoc (l : list port_type) (qs : list port.port_t) : Prop := {
  ma_left p : p ∈ l → ∃ q, q ∈ qs ∧ made assoc p q;
  ma_right q : q ∈ qs → ∃ p, p ∈ l ∧ made assoc p q
}.
Lemma new_name_made assoc l1 p l2 qs q :
  NoDup (map port_key (l1 ++ p :: l2)) →
  (∀ x y, x ∈ l1 ++ p :: l2 → y ∈ l1 ++ p :: l2 → o_direction x = port.PORT_IN → o_direction y = port.PORT_TUNNEL → o_name x ≠ o_name y) →
  made_all assoc l1 qs → made assoc p q → new_name qs q.
Proof.
  intros Hnd Ha [_ Hr] [N D _ _] q' Hq' Ho Hn. destruct (Hr q' Hq') as (p' & Hp' & [N' D' _ _]).
  assert (Hin' : p' ∈ l1 ++ p :: l2) by (apply elem_of_app; by left).
  assert (Hin : p ∈ l1 ++ p :: l2) by (apply elem_of_app; right; by left).
  assert (Hkey : port_key p' ≠ port_key p).
  { rewrite map_app in Hnd. apply NoDup_app in Hnd as (_ & Hdis & _). intros E. apply (Hdis (port_key p')); [by apply list_elem_of_fmap; exists p'|].
    simpl. rewrite E. by left. }
  unfold port_key in Hkey. unfold is_out in Ho. rewrite D, D' in Ho.
  destruct (o_direction p) eqn:E1, (o_direction p') eqn:E2; try done; try (by apply Hkey; f_equal; congruence).
  - by apply (Ha p p' Hin Hin' E1 E2); congruence.
  - by apply (Ha p' p Hin' Hin E2 E1); congruence.
Qed.
Definition apart (l : list port_type) : Prop :=
  ∀ x y, x ∈ l → y ∈ l → o_direction x = port.PORT_IN → o_direction y = port.PORT_TUNNEL → o_name x ≠ o_name y.
Lemma mends_port_loop assoc data (g : port_type → M built error unit) l b :
  NoDup (map port_key l) → apart l → (Z.of_nat (length l) < two64)%Z →
  (∀ p qs b, p ∈ l → ported qs data b → (Z.of_nat (length qs) + 1 < two64)%Z → (∀ q, made assoc p q → new_name qs q) →
    mends (λ _ b', ∃ q, made assoc p q ∧ ported (q :: qs) data b') (g p b)) →
  ported [] data b → mends (λ _ b', ∃ qs, ported qs data b' ∧ made_all assoc l qs) (for_each g l b).
Proof.
  intros Hnd Ha Hlt Hg Hb.
  apply (mends_mono (λ _ b', ∃ dn qs, l = dn ++ [] ∧ length qs = length dn ∧ ported qs data b' ∧ made_all assoc dn qs)).
  { intros _ b' (dn & qs & -> & _ & Hp & Hm). exists qs. by rewrite app_nil_r. }
  apply (mends_for_each (λ k b', ∃ dn qs, l = dn ++ k ∧ length qs = length dn ∧ ported qs data b' ∧ made_all assoc dn qs)).
  2: { exists [], []. split_and!; [done..|]. split; intros ? []%elem_of_nil. }
  intros p k b1 (dn & qs & -> & Hlen & Hp & [Hl Hr]). rewrite length_app in Hlt. simpl in Hlt.
  eapply mends_mono; [|apply (Hg p qs b1); [apply elem_of_app; right; by left|done|lia|]].
  - intros ? b2 (q & Hq & Hpq). exists (dn ++ [p]), (q :: qs). split_and!; [by rewrite <- app_assoc|rewrite length_app; simpl; lia|done|]. split.
    + intros x [Hx|Hx%list_elem_of_singleton]%elem_of_app; [|subst x; exists q; split; [by left|done]]. destruct (Hl x Hx) as (q' & ? & ?). exists q'. split; [by right|done].
    + intros q' [->|Hq']%elem_of_cons; [exists p; split; [apply elem_of_app; right; by left|done]|].
      destruct (Hr q' Hq') as (x & ? & ?). exists x. split; [apply elem_of_app; by left|done].
  - intros q Hq. by apply (new_name_made assoc dn p k).
Qed.
(** ports without places *)
Lemma mends_add_ports data l b :
  NoDup (map port_key l) → apart l → (Z.of_nat (length l) < two64)%Z → (∀ p, p ∈ l → is_Some (o_signature p)) →
  ported [] data b → mends (λ _ b', ∃ qs, ported qs data b' ∧ made_all (λ _, None) l qs) (add_ports l b).
Proof.
  intros Hnd Ha Hlt Hs. apply mends_port_loop; [done..|]. intros p qs b1 Hp Hpo Hl Hnew. apply mends_bind, mends_lift.
  unfold we_port. destruct (Hs p Hp) as [s Hs']. rewrite Hs'. simpl. set (q := port.mk _ _ _ _).
  assert (made (λ _, None) p q) as Hm by done. apply mends_bind. eapply mends_mono; [|by apply mends_add_port; [| |apply Hnew]].
  intros ? b2 Hb2. by exists q.
Qed.
(** ports with places of a net *)
Lemma mends_add_net_ports data l pids n pms b :
  NoDup (map port_key l) → apart l → (Z.of_nat (length l) < two64)%Z → (∀ p, p ∈ l → is_Some (o_signature p)) →
  (∀ p place, p ∈ l → o_place p = Some place → is_Some (pids !! place) ∧ o_direction p ≠ port.PORT_TUNNEL) →
  ported [] data b →
  mends (λ _ b', ∃ qs, ported qs data b' ∧ made_all (λ p, o_place p ≫= λ x, pids !! x) l qs) (add_net_ports l pids n pms b).
Proof.
  intros Hnd Ha Hlt Hs Hpl. apply (mends_port_loop (λ p, o_place p ≫= λ x, pids !! x)); [done..|]. intros p qs b1 Hp Hpo Hl Hnew.
  destruct (Hs p Hp) as [s Hs']. unfold we_port. rewrite Hs'. destruct (o_place p) as [place|] eqn:Ep.
  - destruct (Hpl p place Hp Ep) as [[pid Epid] Htun]. apply mends_bind, mends_lift. unfold at_. rewrite Epid. simpl. apply mends_bind, mends_lift. simpl. apply mends_bind.
    set (q := port.mk _ _ _ _). assert (made (λ p, o_place p ≫= λ x, pids !! x) p q) as Hm by (split; simpl; [done..|by rewrite Ep]).
    eapply mends_mono; [|by apply mends_add_port; [| |apply Hnew]]. intros ? b2 Hb2. destruct (o_direction p); [..|done]; by exists q.
  - apply mends_bind, mends_lift. simpl. set (q := port.mk _ _ _ _).
    assert (made (λ p, o_place p ≫= λ x, pids !! x) p q) as Hm by (split; simpl; [done..|by rewrite Ep]). apply mends_bind.
    eapply mends_mono; [|by apply mends_add_port; [| |apply Hnew]]. intros ? b2 Hb2. by exists q.
Qed.
(** for every port of one direction, a port in and a port out *)
Record doubled (dir : port.PortDirection) (l : list port_type) (qs : list port.port_t) : Prop := {
  dd_left p : p ∈ l → o_direction p = dir → ∃ s, o_signature p = Some s ∧
    port.mk (o_name p) port.PORT_IN s None ∈ qs ∧ port.mk (o_name p) port.PORT_OUT s None ∈ qs;
  dd_right q : q ∈ qs → ∃ p, p ∈ l ∧ o_direction p = dir ∧ port.name q = o_name p
}.
Lemma mends_doubled_ports dir data l b :
  NoDup (map port_key l) → (Z.of_nat (2 * length l) < two64)%Z → (∀ p, p ∈ l → is_Some (o_signature p)) → ported [] data b →
  mends (λ _ b', ∃ qs, ported qs data b' ∧ doubled dir l qs)
    (for_each (λ p, if decide (o_direction p = dir) then
       s ← lift (signature_of (o_signature p));
       add_port (port.mk (o_name p) port.PORT_IN s None) ≫= λ _,
       add_port (port.mk (o_name p) port.PORT_OUT s None) ≫= λ _, mret tt
     else mret tt) l b).
Proof.
  intros Hnd Hlt Hs Hb.
  apply (mends_mono (λ _ b', ∃ dn qs, l = dn ++ [] ∧ length qs ≤ 2 * length dn ∧ ported qs data b' ∧ doubled dir dn qs)).
  { intros _ b' (dn & qs & -> & _ & Hp & Hm). exists qs. by rewrite app_nil_r. }
  apply (mends_for_each (λ k b', ∃ dn qs, l = dn ++ k ∧ length qs ≤ 2 * length dn ∧ ported qs data b' ∧ doubled dir dn qs)).
  2: { exists [], []. split_and!; [done|simpl; lia|done|]. split; intros ? []%elem_of_nil. }
  intros p k b1 (dn & qs & -> & Hlen & Hp & [Hl Hr]). rewrite length_app in Hlt. simpl in Hlt. case_decide as Hd.
  2: { exists (dn ++ [p]), qs. split_and!; [by rewrite <- app_assoc|rewrite length_app; simpl; lia|done|]. split.
       - intros x [Hx|Hx%list_elem_of_singleton]%elem_of_app; [by apply Hl|by subst x].
       - intros q Hq. destruct (Hr q Hq) as (x & ? & ?). exists x. split; [apply elem_of_app; by left|done]. }
  destruct (Hs p) as [s Hs']; [apply elem_of_app; right; by left|]. rewrite Hs'.
  assert (Hnew : ∀ q, q ∈ qs → port.name q ≠ o_name p).
  { intros q Hq. destruct (Hr q Hq) as (x & Hx & Hdx & ->). intros E. rewrite map_app in Hnd. apply NoDup_app in Hnd as (_ & Hdis & _).
    apply (Hdis (port_key x)); [by apply list_elem_of_fmap; exists x|]. simpl. unfold port_key. rewrite E, Hdx, Hd. by left. }
  apply mends_bind, mends_lift. simpl. set (q1 := port.mk _ port.PORT_IN _ _). set (q2 := port.mk _ port.PORT_OUT _ _). apply mends_bind.
  eapply mends_mono; [|apply (mends_add_port qs data); [done|lia|intros q Hq _; by apply Hnew]]. intros ? b2 Hb2. apply mends_bind.
  eapply mends_mono; [|apply (mends_add_port (q1 :: qs) data); [done|simpl; lia|]].
  - intros ? b3 Hb3. exists (dn ++ [p]), (q2 :: q1 :: qs). split_and!; [by rewrite <- app_assoc|rewrite length_app; simpl; lia|done|]. split.
    + intros x [Hx|Hx%list_elem_of_singleton]%elem_of_app Hdx; [destruct (Hl x Hx Hdx) as (s' & ? & ? & ?); exists s'; split_and!; [done|by do 2 right..]|].
      subst x. exists s. split_and!; [done|right; by left|by left].
    + intros q [->|[->|Hq]%elem_of_cons]%elem_of_cons; [exists p; split; [apply elem_of_app; right; by left|done]..|].
      destruct (Hr q Hq) as (x & ? & ?). exists x. split; [apply elem_of_app; by left|done].
  - intros q [->|Hq]%elem_of_cons; [done|]. intros _. by apply Hnew.
Qed.
(** ** Transitions *)
Lemma ends_on_built (Q : built → Prop) m t : mends (λ _, Q) (m (mk_built t ∅ ∅ ∅)) → ends Q (on_built m t).
Proof. unfold on_built. by destruct (m _) as [[a|e] b]. Qed.
Lemma ends_make_transition name data c prop prio eureka preferences :
  ends (λ t, ported [] data (mk_built t ∅ ∅ ∅)) (make_transition name data c prop prio eureka preferences).
Proof.
  unfold make_transition, transition.make. destruct (match c with Some c => _ | None => _ end) as [c'|]; [|done].
  destruct (negb _ && negb _); [done|]. simpl. split; simpl; try done.
  - intros q []%elem_of_nil.
  - intros q []%elem_of_nil.
  - intros name' []. done.
  - intros name' []. done.
  - intros id q [Hq|[Hq|Hq]]; done.
Qed.
Lemma ported_requirements qs data b rs :
  ported qs data b → ported qs data (set_trans (foldl (λ t r, transition.add_requirement r t) (trans b) rs) b).
Proof.
  intros Hp. revert b Hp. induction rs as [|r rs IH]; intros b Hp; [by destruct b|]. simpl.
  apply (IH (set_trans (transition.add_requirement r (trans b)) b)). destruct Hp. by split.
Qed.
End ports.

(** ** How much is built

    The number of places, transitions and ports: the counters of the engine are 64 bits wide. *)
Fixpoint weight (f : function_type) : nat :=
  match f with
  | mk_function d c =>
      2 * length (f_ports d) +
      match c with
      | net n => length (places (n_data n)) + sum_list (map (λ t, match t with mk_transition _ (inl g) => 2 + weight g | _ => 2 end) (transitions n))
      | _ => 0
      end
  end%nat.
Definition weight_of (t : transition_type) : nat := match function_or_use t with inl g => 2 + weight g | inr _ => 2 end.
Definition weight_net (n : net_type) : nat := length (places (n_data n)) + sum_list (map weight_of (transitions n)).
Lemma weight_function f : weight f = (2 * length (ports f) + match content f with net n => weight_net n | _ => 0 end)%nat.
Proof.
  destruct f as [d [| |n|]]; simpl; try done. unfold weight_net, ports. simpl. do 3 f_equal. apply map_ext. by intros [td [g|u]].
Qed.
Lemma sum_list_permutation l k : l ≡ₚ k → sum_list l = sum_list k.
Proof. induction 1; simpl; lia. Qed.
Lemma weight_renamed h n n' : renamed_net h n n' → weight_net n' = weight_net n.
Proof.
  intros [Hp (ts & Hts & Ht)]. unfold weight_net. rewrite (Permutation_length Hp), length_map. f_equal.
  rewrite (sum_list_permutation _ _ (Permutation_map weight_of Ht)). f_equal.
  clear -Hts. induction Hts as [|t t' l k (cs & pms & -> & _) _ IH]; simpl; [done|]. by rewrite IH.
Qed.
(** the nets of the transitions are nested less deep than [k] *)
Definition shallow (k : nat) (n : net_type) : Prop := (0 < k)%nat ∧ ∀ t g, t ∈ transitions n → function_or_use t = inl g → (depth g < k)%nat.
Lemma max_list_elem x l : x ∈ l → (x ≤ max_list l)%nat.
Proof. induction l as [|y l IH]; intros [->|Hx]%elem_of_cons || intros []%elem_of_nil; simpl; [lia|]. specialize (IH Hx). lia. Qed.
Lemma shallow_depth f n : content f = net n → shallow (depth f) n.
Proof.
  destruct f as [d c]. simpl. intros ->. split; [lia|]. intros t g Ht Hg. apply le_n_S, max_list_elem, list_elem_of_fmap. exists t.
  split; [|done]. destruct t as [td fu]. simpl in Hg. by rewrite Hg.
Qed.
Lemma shallow_mono k k' n : (k ≤ k')%nat → shallow k n → shallow k' n.
Proof. intros Hk [H0 Hs]. split; [lia|]. intros t g Ht Hg. specialize (Hs t g Ht Hg). lia. Qed.
Lemma shallow_renamed h k n n' : renamed_net h n n' → shallow k n → shallow k n'.
Proof. intros Hr [H0 Hs]. split; [done|]. intros t g (t0 & Ht0 & cs & pms & -> & _)%(renamed_old h n n' t Hr) Hg. by apply (Hs t0 g). Qed.

(** induction over the functions of nets *)
Lemma function_induction (Q : function_type → Prop) :
  (∀ f, (∀ n t g, content f = net n → t ∈ transitions n → function_or_use t = inl g → Q g) → Q f) → ∀ f, Q f.
Proof.
  intros HQ. fix IH 1. intros f. apply HQ. destruct f as [d [es|mo|[nd fs ms ts]|ms]]; try (intros; discriminate).
  assert (Forall (λ t, ∀ g, function_or_use t = inl g → Q g) ts) as Hts.
  { induction ts as [|[td [g|u]] ts IHts]; constructor; try exact IHts; intros g' [= <-]. exact (IH g). }
  clear IH. intros n t g [= <-] Ht Hg. exact (proj1 (Forall_forall _ _) Hts t Ht g Hg).
Qed.
Lemma map_each_ret {E A B} (g : A → outcome E B) l k : map_each g l = Ret k → Forall2 (λ x y, g x = Ret y) l k.
Proof.
  revert k. induction l as [|x l IH]; simpl; intros k; [by intros [= <-]|].
  intros (y & Hy & (ys & Hys & [= <-])%obind_ret_inv)%obind_ret_inv. constructor; auto.
Qed.
Lemma weight_resolve known f f' : resolve_types_recursive known f = Ret f' → weight f' = weight f.
Proof.
  revert known f'. induction f as [f IH] using function_induction. intros known f'. destruct f as [d c]. simpl in *.
  intros (known1 & _ & (c' & Hc & (ps & Hps & [= <-])%obind_ret_inv)%obind_ret_inv)%obind_ret_inv.
  apply map_each_ret, Forall2_length in Hps. rewrite !weight_function. unfold ports. simpl. rewrite <- Hps. f_equal.
  destruct c as [| |n|]; [by injection Hc as <-..| |by injection Hc as <-].
  apply obind_ret_inv in Hc as (inner & _ & (ts & Hts & (fs & _ & (pls & Hpl & [= <-])%obind_ret_inv)%obind_ret_inv)%obind_ret_inv).
  apply map_each_ret in Hts. apply map_each_ret, Forall2_length in Hpl. unfold weight_net. simpl. rewrite <- Hpl. do 2 f_equal.
  assert (Hin : ∀ t, t ∈ transitions n → t ∈ transitions n) by done. revert Hin Hts. generalize (transitions n) at 1 3 4. intros l Hin Hts.
  induction Hts as [|t t' l k Ht _ IHl]; simpl; [done|]. rewrite IHl by (intros x Hx; apply Hin; by right). f_equal.
  destruct t as [td [g|u]]; [|by injection Ht as <-]. apply obind_ret_inv in Ht as (g' & Hg & [= <-]). unfold weight_of. simpl. do 2 f_equal.
  eapply (IH n _ g eq_refl); [apply Hin; by left|done|exact Hg].
Qed.

(** *** Functions that are used by name: an unknown one, or one that is used inside of itself *)
Definition fair {A} (r : outcome error A) : Prop := match r with Ret _ => True | Throw e => legit e ∨ e = uses_itself end.
Lemma fair_bind {A B} (r : outcome error A) (k : A → outcome error B) : fair r → (∀ a, fair (k a)) → fair (r ≫= k).
Proof. destruct r; simpl; auto. Qed.
Lemma fair_map_each {A B} (g : A → outcome error B) l : Forall (λ x, fair (g x)) l → fair (map_each g l).
Proof. induction 1 as [|x l Hx _ IH]; simpl; [done|]. apply fair_bind; [done|]. intros y. by apply fair_bind. Qed.
Lemma fair_resolve_use : ∀ f known, fair (resolve_function_use_recursive known f).
Proof.
  fix IH 1. intros [d [es|mo|[nd fs ms ts]|ms]] known; try exact I.
  assert (Forall (λ t, ∀ g, function_or_use t = inl g → ∀ known, fair (resolve_function_use_recursive known g)) ts) as Hts.
  { induction ts as [|[td [g|u]] ts IHts]; constructor; try exact IHts; intros g' [= <-]. exact (IH g). }
  assert (Forall (λ m : string * function_type, ∀ known, fair (resolve_function_use_recursive known m.2)) ms) as Hms.
  { induction ms as [|[name g] ms IHms]; constructor; [exact (IH g)|exact IHms]. }
  assert (Forall (λ g, ∀ known, fair (resolve_function_use_recursive known g)) fs) as Hfs.
  { induction fs as [|g fs IHfs]; constructor; [exact (IH g)|exact IHfs]. }
  clear IH. cbn [resolve_function_use_recursive]. generalize (foldl (λ k g, know g k) known (functions (mk_net nd fs ms ts))). intros inner.
  apply fair_bind; [apply fair_map_each|intros ts'; apply fair_bind; [apply fair_map_each|intros ms'; apply fair_bind; [|done]]].
  - eapply Forall_impl; [exact Hts|]. intros [td [g|name]] Hg; [apply fair_bind; [by apply Hg|done]|].
    destruct (inner !! name) as [[g|]|]; [done|by right|by left].
  - eapply Forall_impl; [exact Hms|]. intros [name g] Hg. apply fair_bind; [apply Hg|done].
  - simpl. revert inner. induction Hfs as [|g fs Hg _ IHfs]; intros inner; simpl; [done|].
    apply fair_bind; [apply Hg|]. intros g'. by apply fair_bind.
Qed.

(** ** Parts of functions *)
Section parts.
Context `{Float.Libm} `{Unordered} `{Arrange} (st : state).
Lemma ends_join_properties x y : ends (λ _, True) (join_properties st x y).
Proof.
  unfold join_properties. generalize (positions [] y). intros l.
  assert (∀ m, ends (λ _ : property_type, True) m → ends (λ _, True) (foldl (λ x pv, x ≫= λ x, set_property st x pv.1 pv.2) m l)) as Hl; [|by apply Hl].
  induction l as [|pv l IH]; intros m Hm; simpl; [done|]. apply IH, ends_bind. eapply ends_mono; [|done]. intros z _.
  unfold set_property. apply ends_bind. destruct (Path.peek _ z); [|done]. eapply ends_mono; [|apply ends_warn]. done.
Qed.
Lemma ends_we_parse input descr : ends (λ _, True) (we_parse input descr).
Proof. unfold we_parse. destruct (parser.make input); [done|]. by destruct (is_parse_problem e). Qed.
Lemma ends_parsed input : ends (λ _, True) (parsed input).
Proof. unfold parsed. by destruct (parser.make input). Qed.
Lemma ends_create_we_module d m : buffers_known d m → ends (λ _, True) (create_we_module d m).
Proof.
  intros Hb. unfold create_we_module. apply ends_bind. eapply ends_mono; [|apply (ends_map_each (λ _ _, True))]; [done|].
  intros name Hn. destruct (get_has mb_name name (f_memory_buffers d)) as [b ->]; [by apply Hb|]. simpl.
  apply ends_bind. eapply ends_mono; [intros ? _|apply ends_parsed]. apply ends_bind. eapply ends_mono; [intros ? _|apply ends_parsed]. done.
Qed.
Lemma ends_conflicting d f : (∀ p, p ∈ ports f → is_Some (o_signature p)) → ends (λ _, True) (conflicting st d f).
Proof.
  intros Hs. unfold conflicting. eapply ends_mono; [|apply (ends_each (λ _, True))]; [done|]. intros p Hp.
  destruct (o_direction p); [|done..]. destruct (get_port port.PORT_OUT (o_name p) (ports f)) as [q|] eqn:Hq; [|done].
  apply get_some in Hq as [Hq _]. destruct (Hs q Hq) as [sq ->], (Hs p Hp) as [sp ->]. simpl. case_decide; [done|]. apply ends_warn.
Qed.
End parts.

(** ** Functions *)
Section level.
Context `{Float.Libm} `{Unordered} `{Arrange} {P W : Type} (env : fire.environment P W) (st : state).
Abbreviation good := (build.good env).
Abbreviation sound := (build.sound env).
(** the places of a net have been made *)
Definition places_at (m : we_net) (pids : gmap string Z) (ps : list place_type) : Prop :=
  ∀ p, p ∈ ps → ∃ pid pl, pids !! p_name p = Some pid ∧ Net.net.pmap m !! pid = Some pl ∧ p_signature p = Some (place.signature pl).
Definition valid (m : we_net) (pids : gmap string Z) : Prop := ∀ k pid, pids !! k = Some pid → is_Some (Net.net.pmap m !! pid).
Lemma places_at_mono (m m' : we_net) pids ps : Net.net.pmap m ⊆ Net.net.pmap m' → places_at m pids ps → places_at m' pids ps.
Proof. intros Hs Hp p Hin. destruct (Hp p Hin) as (pid & pl & ? & ? & ?). exists pid, pl. split_and!; [done|by eapply lookup_weaken|done]. Qed.
Lemma valid_mono (m m' : we_net) pids : Net.net.pmap m ⊆ Net.net.pmap m' → valid m pids → valid m' pids.
Proof. intros Hs Hp k pid Hk. destruct (Hp k pid Hk) as [pl Hpl]. exists pl. by eapply lookup_weaken. Qed.
Abbreviation Synthesize := (gmap string Z → net_type → M we_net error (gmap string Z)).
(** what is made of a net *)
Definition net_spec (syn : Synthesize) (n : net_type) : Prop :=
  ∀ pmm m, good m → (count m + Z.of_nat (weight_net n) < two64)%Z → valid m pmm →
    mends (λ pids m', good m' ∧ grows (Z.of_nat (weight_net n)) m m' ∧ valid m' pids ∧ places_at m' pids (places (n_data n)) ∧
        ∀ p, p ∈ places (n_data n) → is_virtual p = true → is_Some (pmm !! p_name p))
      (syn pmm n m).
Definition serves (f : function_type) (b : built) : Prop :=
  ∀ name p s, o_signature p = Some s → (is_port f name port.PORT_IN p → has_in b name s) ∧ (is_port f name port.PORT_OUT p → has_out b name s).
Record made_of (f : function_type) (b : built) : Prop := {
  mo_sound : sound (trans b);
  mo_serves : serves f b;
  mo_names : real_place_names b = ∅
}.
Lemma ported_serves assoc qs data f b : ported qs data b → made_all assoc (ports f) qs → serves f b.
Proof.
  intros Hp [Hl _] name p s Hs. split; intros (Hin & <- & Hd); destruct (Hl p Hin) as (q & Hq & [N D S _]).
  - destruct (pb_in _ _ _ Hp q Hq) as (id & ? & ?); [congruence|]. rewrite N in *. exists id, q. split_and!; [done..|congruence].
  - destruct (pb_out _ _ _ Hp q Hq) as (id & ? & ?); [congruence|]. rewrite N in *. exists id, q. split_and!; [done..|congruence].
Qed.
Lemma sound_plain t : (∀ m, transition.data t ≠ transition.net (subnet m)) → sound t.
Proof. intros Hn. constructor; [intros m Hm|intros m tid u Hm]; by destruct (Hn m). Qed.
Lemma ports_ok_apart f : ports_ok f → apart (ports f).
Proof. intros [_ _ Ha] x y Hx Hy Dx Dy. by apply (Ha _ _ x y). Qed.
Context (syn : Synthesize) (k : nat) (syn_spec : ∀ n, net_ok n → shallow k n → net_spec syn n).
Lemma ends_plain f data r1 r2 t :
  ports_ok f → (Z.of_nat (length (ports f)) < two64)%Z → (∀ m, data ≠ transition.net (subnet m)) → ported [] data (mk_built t ∅ ∅ ∅) →
  ends (made_of f) (on_built (add_ports (ports f) ≫= λ _, add_requirements r1 r2) t).
Proof.
  intros Hf Hlt Hd Hp. apply ends_on_built, mends_bind.
  eapply mends_mono; [|apply (mends_add_ports data); [apply Hf|by apply ports_ok_apart|done|apply Hf|done]].
  intros ? b (qs & Hb & Hm). apply (ported_requirements _ _ _ (unordered_list (join_requirements r1 r2))) in Hb. split.
  - apply sound_plain. intros m. pose proof (pb_data _ _ _ Hb) as E. simpl in *. by rewrite E.
  - by eapply ported_serves.
  - by apply (pb_names _ _ _ Hb).
Qed.
(** the ports of a net *)
Lemma ends_net f n (m : we_net) pids pms r1 r2 t :
  ports_ok f → (Z.of_nat (length (ports f)) < two64)%Z → inner_ok f n → good m → places_at m pids (places (n_data n)) →
  (∀ p, p ∈ places (n_data n) → is_virtual p = false) → ported [] (transition.net (subnet m)) (mk_built t ∅ ∅ ∅) →
  ends (made_of f) (on_built (add_net_ports (ports f) pids n pms ≫= λ _, add_requirements r1 r2) t).
Proof.
  intros Hf Hlt Hi Hg Hpl Hv Hp. apply ends_on_built, mends_bind.
  eapply mends_mono; [|apply (mends_add_net_ports (transition.net (subnet m))); [apply Hf|by apply ports_ok_apart|done|apply Hf| |done]].
  2: { intros p place Hin Ho. destruct (Hi p place Hin Ho) as (pl & Hin' & <- & _ & Hvp). split.
       - destruct (Hpl pl Hin') as (pid & _ & -> & _). by eexists.
       - intros Hd. specialize (Hv pl Hin'). rewrite Hvp in Hv; done. }
  intros ? b (qs & Hb & Hm). apply (ported_requirements _ _ _ (unordered_list (join_requirements r1 r2))) in Hb. split.
  - pose proof (pb_data _ _ _ Hb) as Hd. constructor.
    + intros m' Hm'. simpl in *. rewrite Hd in Hm'. injection Hm' as <-. split; [apply Hg|split; [apply Hg|]]. split.
      * intros id q pid Hq Hpid. apply (pb_any _ _ _ Hb), (ma_right _ _ _ Hm) in Hq as (p & Hin & [_ _ S A]).
        rewrite A in Hpid. destruct (o_place p) as [place|] eqn:Ho; [|done]. simpl in Hpid.
        destruct (Hi p place Hin Ho) as (pl & Hin' & <- & Hs & _). destruct (Hpl pl Hin') as (pid' & pl' & ? & ? & Hs').
        exists pl'. split; congruence.
      * intros id q Hq. apply (pb_output _ _ _ Hb id q Hq). simpl. unfold transition.get_net. rewrite Hd. by eexists.
    + intros m' tid u Hm'. simpl in *. rewrite Hd in Hm'. injection Hm' as <-. apply (go_sound env m Hg).
  - by eapply ported_serves.
  - by apply (pb_names _ _ _ Hb).
Qed.
Lemma ends_function_synthesize f name conditions props reqs prio pms :
  fun_ok f → (∀ n, content f = net n → shallow k n) → (Z.of_nat (weight f) < two64)%Z →
  ends (made_of f) (function_synthesize st syn f name conditions props reqs prio pms).
Proof.
  intros Hf Hk Hw. pose proof (weight_function f) as Ew. destruct Hf as [f Hpo Hmo Hne Hre]. unfold function_synthesize.
  apply ends_bind. eapply ends_mono; [intros pr _|apply ends_join_properties]. unfold modules_ok in Hmo.
  assert (Hlt : (Z.of_nat (length (ports f)) < two64)%Z) by lia.
  destruct (content f) as [es|mo|n|ms] eqn:Ec.
  - apply ends_bind. eapply ends_mono; [intros e _|apply ends_we_parse]. apply ends_bind. eapply ends_mono; [intros c _|apply ends_we_parse].
    apply ends_bind. eapply ends_mono; [|apply ends_make_transition]. intros t Ht. eapply ends_plain; [done|done| |exact Ht]. by intros ?.
  - apply ends_bind. eapply ends_mono; [intros x _|by apply ends_create_we_module]. apply ends_bind. eapply ends_mono; [intros c _|apply ends_we_parse].
    apply ends_bind. eapply ends_mono; [|apply ends_make_transition]. intros t Ht. eapply ends_plain; [done|done| |exact Ht]. by intros ?.
  - destruct (Hne n eq_refl) as [Hsh Hin].
    assert (Hno : net_ok n) by (split; [done|intros t g Ht Hg; by apply (Hre n t g)]).
    pose proof (syn_spec n Hno (Hk n eq_refl) ∅ net.empty (good_empty env)) as Hsyn.
    destruct (syn ∅ n net.empty) as [[pids|e] m]; simpl in Hsyn.
    2: { apply Hsyn; [unfold count; simpl; lia|done]. }
    destruct Hsyn as (Hg & _ & _ & Hpl & Hv); [unfold count; simpl; lia|done|].
    apply ends_bind. eapply ends_mono; [intros pr' _|apply ends_join_properties]. apply ends_bind. eapply ends_mono; [intros c _|apply ends_we_parse].
    apply ends_bind. eapply ends_mono; [|apply ends_make_transition]. intros t Ht. apply (ends_net f n m); try done.
    intros p Hp. destruct (is_virtual p) eqn:E; [|done]. destruct (Hv p Hp E) as [? ?]. done.
  - destruct Hmo as [Hms Hbs]. apply ends_bind. eapply ends_mono; [|apply (ends_map_each (λ _ _, True))].
    2: { intros m Hm. apply ends_bind. eapply ends_mono; [intros x _|by apply ends_create_we_module, Hbs]. done. }
    intros cs _. destruct ms as [|m0 ms]; [done|]. simpl. apply ends_bind. eapply ends_mono; [intros c _|apply ends_we_parse].
    apply ends_bind. eapply ends_mono; [|apply ends_make_transition]. intros t Ht. eapply ends_plain; [done|done| |exact Ht]. by intros ?.
Qed.

(** ** Connections *)
Lemma mends_connect_loop {A} (type : A → edge.type) (name : A → string) (sel : A → bool) (body : A → M we_net error unit) tid u l (m : we_net) used :
  good m → Net.net.tmap m !! tid = Some u → inputs m tid used →
  (∀ x m', x ∈ l → sel x = false → body x m' = (Ret tt, m')) →
  (∀ x, x ∈ l → sel x = true → ∃ pid pl id q prop, Net.net.pmap m !! pid = Some pl ∧ fits (type x) u id q pl ∧ port.name q = name x ∧
    ∀ m', body x m' = engine (net_ops.add_connection (type x) tid pid id prop) m') →
  NoDup (map name (filter (λ x, sel x && is_PT (type x) = true) l)) → (∀ x, x ∈ l → sel x = true → is_PT (type x) = true → name x ∉ used) →
  mends (λ _ m', good m' ∧ grows 0 m m' ∧ Net.net.pmap m' = Net.net.pmap m ∧ Net.net.tmap m' = Net.net.tmap m ∧
      ∃ used', inputs m' tid used' ∧ ((∀ x, x ∈ l → sel x = true → is_PT (type x) = false) → used' = used)) (for_each body l m).
Proof.
  revert m used. induction l as [|x l IH]; intros m used Hg Ht Hi Hskip Hbody Hnd Hfresh; simpl.
  { split_and!; [done|apply grows_refl|done..|]. by exists used. }
  apply mends_bind. rewrite filter_cons in Hnd. destruct (sel x) eqn:Hs.
  2: { rewrite (Hskip x m) by (by left || done). simpl in *.
       eapply mends_mono; [|apply (IH m used); try done; intros y; intros; (apply Hskip || apply Hbody || apply Hfresh); by (right || done)].
       intros ? m' (? & ? & ? & ? & used' & ? & Hr). split_and!; [done..|]. exists used'. split; [done|]. intros Hall. apply Hr. intros y Hy. apply Hall. by right. }
  destruct (Hbody x) as (pid & pl & id & q & prop & Hp & Hfit & Hn & ->); [by left|done|].
  eapply mends_mono; [|apply (mends_connect env (type x) tid pid id prop u q pl used m); [done..|]].
  2: { intros Hpt. rewrite Hn. apply Hfresh; [by left|done..]. }
  intros ? m1 (Hg1 & Hgr1 & Ep & Et & Hi1).
  eapply mends_mono; [|apply (IH m1 (if is_PT (type x) then port.name q :: used else used)); [done|by rewrite Et|done|..]].
  - intros ? m2 (Hg2 & Hgr2 & Ep2 & Et2 & used' & Hi2 & Hr2). split_and!; [done|by eapply grows_trans|congruence..|].
    exists used'. split; [done|]. intros Hall. rewrite (Hall x) in Hr2 by (by left || done). apply Hr2. intros y Hy. apply Hall. by right.
  - intros y m' Hy. apply Hskip. by right.
  - intros y Hy Hsy. rewrite Ep. apply Hbody; [by right|done].
  - simpl in Hnd. case_decide; [by apply NoDup_cons in Hnd as [_ ?]|done].
  - intros y Hy Hsy Hpy. destruct (is_PT (type x)) eqn:Hpx; [|apply Hfresh; [by right|done..]].
    simpl in Hnd. apply NoDup_cons in Hnd as [Hnx _].
    intros [E|Hin]%elem_of_cons; [|by apply (Hfresh y); [right|..]]. apply Hnx. apply list_elem_of_fmap. exists y.
    split; [congruence|]. apply list_elem_of_filter. by rewrite Hsy, Hpy.
Qed.
(** a connection that has been checked finds its place and its port *)
Definition serves_connect (f : function_type) (b : built) (c : connect_type) : Prop :=
  ∀ p s, is_port f (c_port c) (if is_PT (c_direction c) then port.PORT_IN else port.PORT_OUT) p → o_signature p = Some s →
    if is_PT (c_direction c) then has_in b (c_port c) s else has_out b (c_port c) s.
Lemma connected f ps (m : we_net) pids b tid c :
  conn_ok ps f c → places_at m pids ps → serves_connect f b c →
  ∃ pid pl id q prop, Net.net.pmap m !! pid = Some pl ∧ fits (c_direction c) (trans b) id q pl ∧ port.name q = c_port c ∧
    ∀ m', connect_to pids (if is_PT (c_direction c) then port_id_in b else port_id_out b) tid c m' =
          engine (net_ops.add_connection (c_direction c) tid pid id prop) m'.
Proof.
  intros (pl & p & s & s' & Hpl & Hn & Hp & Hs & Hs' & Hss) Hat Hserves. destruct (Hat pl Hpl) as (pid & pl' & Hpid & Hpl' & Hsig).
  rewrite Hn in Hpid. specialize (Hserves p s' Hp Hs'). unfold connect_to, get_pid, at_, fits. rewrite Hpid. simpl.
  destruct (is_PT (c_direction c)) eqn:Hpt; destruct Hserves as (id & q & Hid & Hq & Hqn & Hqs); exists pid, pl', id, q, (c_properties c);
    rewrite Hid; split_and!; try done.
  - destruct Hss as [Hss|[Hm _]]; [congruence|]. by rewrite Hm in Hpt.
  - destruct Hss as [Hss|[Hm Hl]]; [left; congruence|right; split; congruence].
Qed.
Lemma mends_not_unfold pids (t : transition_data) f ps (m : we_net) :
  good m → (count m + Z.of_nat (2 + weight f) < two64)%Z → places_at m pids ps → trans_ok ps t f → fun_ok f →
  (∀ n, content f = net n → shallow k n) →
  mends (λ _ m', good m' ∧ grows (Z.of_nat (2 + weight f)) m m') (not_unfold st syn pids t f m).
Proof.
  intros Hg Hw Hpl [T1 T2 T3 T4] Hf Hsh. destruct (go_counters env m Hg) as [C1 C2]. unfold not_unfold. apply mends_bind, mends_lift.
  assert (Hc0 : (0 ≤ count m)%Z) by (unfold count; lia).
  eapply ends_mono; [|apply ends_function_synthesize; [done|done|lia]]. intros b [Hs Hser Hnames].
  apply mends_bind. eapply mends_mono; [|by apply (mends_add_transition env); [| lia|]]. intros tid m1 (Hg1 & Hgr1 & Ep1 & Ht1 & Hi1).
  apply mends_bind. eapply mends_mono; [|apply (mends_connect_loop c_direction c_port (λ _, true) _ tid (trans b) (connections t) m1 []); try done].
  2: { intros c Hc _. apply (connected f ps m1); [by apply T1|apply (places_at_mono m); [by rewrite Ep1|done]|].
       intros p s Hp Hsig. destruct (Hser (c_port c) p s Hsig) as [HI HO]. destruct (is_PT (c_direction c)); auto. }
  2: { intros c _ _ _. apply not_elem_of_nil. }
  intros ? m2 (Hg2 & Hgr2 & _). apply mends_bind.
  eapply mends_mono; [|apply (mends_for_each (λ l m', l ⊆ responses t ∧ good m' ∧ grows 0 m2 m'))].
  3: { split_and!; [done|done|apply grows_refl]. }
  2: { intros r l m' (Hin & Hg' & Hgr'). destruct (T3 r) as (p & Hp); [apply Hin; by left|]. apply mends_bind, mends_lift. unfold at_.
       destruct (po_signature f ltac:(by destruct Hf) p ltac:(apply Hp)) as [s Hsig]. destruct (Hser (r_port r) p s Hsig) as [_ HO].
       destruct (HO Hp) as (id & q & -> & _). simpl. eapply mends_mono; [|by apply (mends_add_response env)]. intros ? m'' [? ?].
       split_and!; [intros x Hx; apply Hin; by right|done|by eapply grows_trans]. }
  intros ? m3 (_ & Hg3 & Hgr3). apply mends_bind.
  eapply mends_mono; [|apply (mends_for_each (λ l m', l ⊆ eurekas t ∧ good m' ∧ grows 0 m3 m'))].
  3: { split_and!; [done|done|apply grows_refl]. }
  2: { intros r l m' (Hin & Hg' & Hgr'). destruct (T4 r) as (p & Hp); [apply Hin; by left|]. apply mends_bind, mends_lift. unfold at_.
       destruct (po_signature f ltac:(by destruct Hf) p ltac:(apply Hp)) as [s Hsig]. destruct (Hser r p s Hsig) as [_ HO].
       destruct (HO Hp) as (id & q & -> & _). simpl. eapply mends_mono; [|by apply (mends_add_eureka env)]. intros ? m'' [? ?].
       split_and!; [intros x Hx; apply Hin; by right|done|by eapply grows_trans]. }
  intros ? m4 (_ & Hg4 & Hgr4). rewrite Hnames. assert (unordered_list (∅ : gmap Z string) = []) as -> by (by apply unordered_list_nil). simpl.
  split; [done|]. pose proof (grows_trans 1 0 1 _ _ _ Hgr1 Hgr2 ltac:(lia)) as G2. pose proof (grows_trans 1 0 1 _ _ _ G2 Hgr3 ltac:(lia)) as G3.
  apply (grows_trans 1 0 _ _ _ _ G3 Hgr4). lia.
Qed.

(** ** Unfolding *)
Lemma doubled_has dir f qs data b p s :
  ported qs data b → doubled dir (ports f) qs → is_port f (o_name p) dir p → o_signature p = Some s →
  has_in b (o_name p) s ∧ has_out b (o_name p) s.
Proof.
  intros Hb [Hl _] (Hin & _ & Hd) Hs. destruct (Hl p Hin Hd) as (s' & Hs' & Hi & Ho). assert (s' = s) as -> by congruence. split.
  - destruct (pb_in _ _ _ Hb _ Hi eq_refl) as (id & ? & ?). by exists id, (port.mk (o_name p) port.PORT_IN s None).
  - destruct (pb_out _ _ _ Hb _ Ho eq_refl) as (id & ? & ?). by exists id, (port.mk (o_name p) port.PORT_OUT s None).
Qed.
Lemma NoDup_names (sel : port_type → Prop) `{∀ p, Decision (sel p)} dir l :
  NoDup (map port_key l) → (∀ p, sel p → o_direction p = dir) → NoDup (map o_name (filter sel l)).
Proof.
  intros Hnd Hsel. induction l as [|p l IH]; simpl; [by constructor|]. simpl in Hnd. apply NoDup_cons in Hnd as [Hp Hnd]. rewrite filter_cons.
  case_decide as Hs; [|by apply IH]. simpl. apply NoDup_cons. split; [|by apply IH]. intros (q & Hn & [Hq Hin]%list_elem_of_filter)%list_elem_of_fmap.
  apply Hp, list_elem_of_fmap. exists q. split; [|done]. unfold port_key. rewrite Hn, (Hsel p Hs), (Hsel q Hq). done.
Qed.
(** the places inside, for the ports *)
Definition inner_at (m : we_net) (prefix : string) (pids : gmap string Z) (l : list port_type) : Prop :=
  ∀ p place, p ∈ l → o_place p = Some place →
    ∃ pid pl, pids !! (prefix +:+ place) = Some pid ∧ Net.net.pmap m !! pid = Some pl ∧ o_signature p = Some (place.signature pl).
Definition the_direction (inward : bool) : port.PortDirection := if inward then port.PORT_IN else port.PORT_OUT.
Lemma mends_connect_inside (inward : bool) prefix pids f b qs data tid (m : we_net) :
  good m → Net.net.tmap m !! tid = Some (trans b) → inputs m tid [] → ports_ok f → inner_at m prefix pids (ports f) →
  ported qs data b → doubled (the_direction inward) (ports f) qs →
  mends (λ _ m', good m' ∧ grows 0 m m' ∧ Net.net.pmap m' = Net.net.pmap m ∧ Net.net.tmap m' = Net.net.tmap m ∧
      ∃ used, inputs m' tid used ∧ (inward = true → used = []))
    (connect_inside (the_direction inward) (if inward then edge.TP else edge.PT) prefix pids (if inward then port_id_out b else port_id_in b)
       tid (ports f) m).
Proof.
  intros Hg Ht Hi Hpo Hin Hb Hdd. unfold connect_inside.
  eapply mends_mono; [|apply (mends_connect_loop (λ _, if inward then edge.TP else edge.PT) o_name
    (λ p, bool_decide (o_direction p = the_direction inward ∧ is_Some (o_place p))) _ tid (trans b) (ports f) m []); try done].
  - intros ? m' (? & ? & ? & ? & used & ? & Hu). split_and!; [done..|]. exists used. split; [done|]. intros ->. by apply Hu.
  - intros p m' _ Hs%bool_decide_eq_false. destruct (o_place p); [|done]. rewrite decide_False; [done|]. intros Hd. apply Hs. split; [done|by eexists].
  - intros p Hp Hs%bool_decide_eq_true. destruct Hs as [Hd [place Ho]]. destruct (Hin p place Hp Ho) as (pid & pl & Hpid & Hpl & Hsig).
    destruct (doubled_has _ f qs data b p (place.signature pl) Hb Hdd) as [(i1 & q1 & Hi1 & Hq1 & Hn1 & Hs1) (i2 & q2 & Hi2 & Hq2 & Hn2 & Hs2)]; [done..|].
    rewrite Ho, decide_True by done. unfold get_pid, at_. rewrite Hpid. destruct inward.
    + exists pid, pl, i2, q2, (o_properties p). rewrite Hi2. split_and!; [done| |done..]. split; [done|by left].
    + exists pid, pl, i1, q1, (o_properties p). rewrite Hi1. split_and!; done.
  - apply (NoDup_names _ (the_direction inward)); [apply Hpo|]. intros p [Hs%bool_decide_eq_true _]%andb_true_iff. apply Hs.
  - intros p _ _ _. apply not_elem_of_nil.
Qed.
(** the transition into or out of the net *)
Lemma mends_gate (inward : bool) prefix pids pids' f ps (t : transition_data) u0 body (rest : M we_net error unit) (m : we_net) Q :
  good m → (count m + 1 < two64)%Z → ports_ok f → (Z.of_nat (2 * length (ports f)) < two64)%Z → trans_ok ps t f →
  places_at m pids ps → inner_at m prefix pids' (ports f) → ported [] (transition.expression []) (mk_built u0 ∅ ∅ ∅) →
  (∀ b tid c m', body b tid c m' = if Bool.eqb (is_PT (c_direction c)) inward
     then connect_to pids (if inward then port_id_in b else port_id_out b) tid c m' else (Ret tt, m')) →
  (∀ m', good m' → grows 1 m m' → Net.net.pmap m' = Net.net.pmap m → mends Q (rest m')) →
  mends Q ((b ← lift (doubled_ports (the_direction inward) (ports f) u0);
            tid ← engine (net_ops.add_transition (trans b));
            connect_inside (the_direction inward) (if inward then edge.TP else edge.PT) prefix pids' (if inward then port_id_out b else port_id_in b)
              tid (ports f) ≫= λ _,
            for_each (body b tid) (connections t) ≫= λ _, rest) m).
Proof.
  intros Hg Hc Hpo Hlt [T1 T2 _ _] Hpl Hin Hu0 Hbody Hrest. apply mends_bind, mends_lift. unfold doubled_ports.
  eapply ends_mono; [|apply (ends_on_built (λ b, ∃ qs, ported qs (transition.expression []) b ∧ doubled (the_direction inward) (ports f) qs)),
    mends_doubled_ports; [apply Hpo|done|apply Hpo|done]].
  intros b (qs & Hb & Hdd). apply mends_bind. eapply mends_mono; [|apply (mends_add_transition env); [done|done|]].
  2: { apply sound_plain. intros x. by rewrite (pb_data _ _ _ Hb). }
  intros tid m1 (Hg1 & Hgr1 & Ep1 & Ht1 & Hi1). apply mends_bind.
  eapply mends_mono; [|apply (mends_connect_inside inward prefix pids' f b qs (transition.expression [])); try done].
  2: { intros p place Hp Ho. rewrite Ep1. by apply Hin. }
  intros ? m2 (Hg2 & Hgr2 & Ep2 & Et2 & used & Hi2 & Hused). apply mends_bind.
  eapply mends_mono; [|apply (mends_connect_loop c_direction c_port (λ c, Bool.eqb (is_PT (c_direction c)) inward) (body b tid) tid (trans b)
    (connections t) m2 used); [done|by rewrite Et2|done|..]].
  - intros ? m3 (Hg3 & Hgr3 & Ep3 & _). apply Hrest; [done| |congruence].
    apply (grows_trans 1 0 _ _ m2); [by apply (grows_trans 1 0 _ _ m1)|done|done].
  - intros c m' _ Hsel. by rewrite Hbody, Hsel.
  - intros c Hcin Hsel. destruct (connected f ps m2 pids b tid c) as (pid & pl & id & q & prop & ? & ? & ? & Hrun); [by apply T1| | |].
    + apply (places_at_mono m); [by rewrite Ep2, Ep1|done].
    + apply Bool.eqb_prop in Hsel. intros p s Hp Hs. assert (c_port c = o_name p) as En by (by destruct Hp as (_ & ? & _)). rewrite En.
      destruct (doubled_has (the_direction inward) f qs (transition.expression []) b p s) as [HI HO]; [done|done| |done|].
      * destruct Hp as (Hp1 & Hp2 & Hp3). unfold the_direction. by rewrite <- Hsel.
      * by destruct (is_PT (c_direction c)).
    + exists pid, pl, id, q, prop. split_and!; [done..|]. intros m'. rewrite Hbody, Hsel, <- Hrun. apply Bool.eqb_prop in Hsel. by rewrite Hsel.
  - destruct inward.
    + rewrite (list_filter_iff _ (λ c, is_PT (c_direction c) = true)); [exact T2|]. intros c. by destruct (is_PT (c_direction c)).
    + assert (filter (λ c, Bool.eqb (is_PT (c_direction c)) false && is_PT (c_direction c) = true) (connections t) = []) as ->; [|by constructor].
      clear. induction (connections t) as [|c l IH]; [done|]. rewrite filter_cons. by destruct (is_PT (c_direction c)).
  - intros c _ Hsel Hpt. destruct inward; [rewrite Hused by done; apply not_elem_of_nil|]. by rewrite Hpt in Hsel.
Qed.
Lemma ends_places_outside (m : we_net) pids prefix t : valid m pids → ends (valid m) (places_outside pids prefix t).
Proof.
  intros Hv. unfold places_outside.
  assert (∀ l r, ends (valid m) r → ends (valid m) (foldl (λ x pm, x ≫= λ x,
    pid ← or_throw (real_place_missing (place_virtual pm) (place_real pm) (t_name t)) (pids !! place_real pm);
    Ret (<[prefix +:+ place_virtual pm := pid]> x)) r l)) as Hl; [|by apply Hl].
  induction l as [|pm l IH]; intros r Hr; simpl; [done|]. apply IH, ends_bind. eapply ends_mono; [|done]. intros x Hx.
  apply ends_bind, ends_or_throw; [|done]. intros pid Hpid. simpl. intros a b [[<- <-]|[_ Ha]]%lookup_insert_Some; eauto.
Qed.
Lemma inner_at_renamed (m : we_net) prefix pids f n n' :
  renamed_net (String.append prefix) n n' → inner_ok f n → places_at m pids (places (n_data n')) → inner_at m prefix pids (ports f).
Proof.
  intros Hr Hi Hpl p place Hp Ho. destruct (Hi p place Hp Ho) as (pl & Hin & <- & Hs & _).
  destruct (Hpl (with_name (prefix +:+ p_name pl) pl)) as (pid & pl' & ? & ? & ?); [apply (renamed_place _ n n' _ Hr); by exists pl|].
  exists pid, pl'. split_and!; [done..|]. rewrite <- Hs. done.
Qed.
Lemma mends_unfold pids (t : transition_data) f n ps (m : we_net) :
  good m → (count m + Z.of_nat (2 + weight f) < two64)%Z → valid m pids → places_at m pids ps → trans_ok ps t f → fun_ok f →
  content f = net n → shallow k n →
  mends (λ _ m', good m' ∧ grows (Z.of_nat (2 + weight f)) m m') (unfold st syn pids t f n m).
Proof.
  intros Hg Hw Hv Hpl Hto Hf Hn Hsh. pose proof (weight_function f) as Ew. rewrite Hn in Ew.
  destruct Hf as [f Hpo Hmo Hne Hre]. destruct (Hne n Hn) as [Hns Hin]. destruct (go_counters env m Hg) as [C1 C2]. unfold count in Hw.
  unfold unfold. set (prefix := mk_prefix (t_name t)). apply mends_bind, mends_lift.
  eapply ends_mono; [|by apply ends_places_outside]. intros pmm Hpmm. apply mends_bind, mends_lift.
  destruct (set_prefix_spec prefix n (sh_unique n Hns)) as (n' & -> & Hr & Hu). simpl.
  assert (Hno : net_ok n') by (apply (net_ok_renamed _ n n' Hr Hu); split; [done|intros t' g Ht' Hg'; by apply (Hre n t' g)]).
  apply mends_bind. pose proof (weight_renamed _ n n' Hr) as Ew'.
  eapply mends_mono; [|apply (syn_spec n' Hno (shallow_renamed _ k n n' Hr Hsh) pmm m Hg); [unfold count; lia|done]].
  intros pids' m1 (Hg1 & Hgr1 & Hv1 & Hpl1 & _). apply mends_bind, mends_lift.
  destruct (unset_prefix_spec prefix n n' Hr Hu) as (n'' & -> & _). simpl. apply mends_bind, mends_lift.
  eapply ends_mono; [intros cond _|apply ends_we_parse]. apply mends_bind, mends_lift. eapply ends_mono; [intros props _|apply ends_join_properties].
  apply mends_bind, mends_lift. eapply ends_mono; [|apply ends_make_transition]. intros t_in Htin.
  assert (Hc1 : (count m1 + 2 < two64)%Z) by (destruct Hgr1 as [_ _ Hc]; unfold count in *; lia).
  assert (Hpl1' : places_at m1 pids ps) by (apply (places_at_mono m); [apply Hgr1|done]).
  pose proof (inner_at_renamed m1 prefix pids' f n n' Hr Hin Hpl1) as Hia.
  apply (mends_gate true prefix pids pids' f ps t t_in (λ b tid c, if is_PT (c_direction c) then connect_to pids (port_id_in b) tid c else mret tt));
    [done|lia|done|lia|done..| |].
  { intros b tid c m'. by destruct (is_PT (c_direction c)). }
  intros m2 Hg2 Hgr2 Ep2. apply mends_bind, mends_lift. eapply ends_mono; [|apply ends_make_transition]. intros t_out Htout.
  assert (Hc2 : (count m2 + 1 < two64)%Z) by (destruct Hgr2; lia).
  apply (mends_gate false prefix pids pids' f ps t t_out (λ b tid c, if is_PT (c_direction c) then mret tt else connect_to pids (port_id_out b) tid c));
    [done|lia|done|lia|done|by apply (places_at_mono m1); [rewrite Ep2|]| |done| |].
  { intros p place Hp Ho. rewrite Ep2. by apply Hia. }
  { intros b tid c m'. by destruct (is_PT (c_direction c)). }
  intros m3 Hg3 Hgr3 _.
  assert (Hend : good m3 ∧ grows (Z.of_nat (2 + weight f)) m m3).
  { split; [done|]. apply (grows_trans (Z.of_nat (weight_net n') + 1) 1 _ _ m2); [by apply (grows_trans (Z.of_nat (weight_net n')) 1 _ _ m1)|done|lia]. }
  destruct (1 <? _)%nat; [|done]. apply mends_bind, mends_lift. unfold is_true. destruct (Path.peek _ props) as [[]|]; try done.
  simpl. case_match; [|done]. apply mends_lift. eapply ends_mono; [|apply ends_warn]. done.
Qed.
Lemma mends_transition pids n t (m : we_net) :
  good m → (count m + Z.of_nat (weight_of t) < two64)%Z → valid m pids → places_at m pids (places (n_data n)) → net_ok n → shallow (S k) n →
  t ∈ transitions n →
  mends (λ _ m', good m' ∧ grows (Z.of_nat (weight_of t)) m m') (transition_synthesize st syn pids t m).
Proof.
  intros Hg Hw Hv Hpl [[Hu Hs Ht] Hfo] [_ Hsh] Hin. destruct (Ht t Hin) as (f & Hf & Hto). pose proof (Hfo t f Hin Hf) as Hok.
  unfold weight_of in *. rewrite Hf in *. unfold transition_synthesize. apply mends_bind, mends_lift.
  apply (ends_mono (λ _, True)); [intros _ _|destruct (connections (t_data t)); [apply ends_warn|done]].
  apply mends_bind, mends_lift. unfold resolved_function. rewrite Hf. simpl. apply mends_bind, mends_lift.
  eapply ends_mono; [intros ? _|apply ends_conflicting; by destruct Hok as [? [_ ? _]]]. apply mends_bind, mends_lift.
  apply (ends_mono (λ _, True)); [intros _ _|destruct (f_name (f_data f)); [|done]; destruct (_ && _); [apply ends_warn|done]].
  specialize (Hsh t f Hin Hf). assert (Hshn : ∀ n', content f = net n' → shallow k n').
  { intros n' Hn'. eapply shallow_mono; [|by apply shallow_depth]. lia. }
  pose proof (mends_not_unfold pids (t_data t) f (places (n_data n)) m Hg Hw Hpl Hto Hok Hshn) as Hnu.
  pose proof (λ n' Hn', mends_unfold pids (t_data t) f n' (places (n_data n)) m Hg Hw Hv Hpl Hto Hok Hn' (Hshn n' Hn')) as Hun.
  unfold get_net. destruct (content f) as [| |n'|] eqn:Ec; try exact Hnu. destruct (unfolds st (t_data t) f); [by apply Hun|exact Hnu].
Qed.
End level.

(** ** Nets *)
Section nets.
Context `{Float.Libm} `{Unordered} `{Arrange} {P W : Type} (env : fire.environment P W) (st : state).
Context (no_virtual_places : synthesize_virtual_places st = false).
Abbreviation good := (build.good env).
Lemma valid_insert (m : we_net) pids x pid : valid m pids → is_Some (Net.net.pmap m !! pid) → valid m (<[x := pid]> pids).
Proof. intros Hv Hp a b [[<- <-]|[_ Ha]]%lookup_insert_Some; eauto. Qed.
Lemma mends_place pmm pids p s (m : we_net) :
  good m → (count m + 1 < two64)%Z → valid m pmm → p_signature p = Some s → pids !! p_name p = None →
  mends (λ pids' m', good m' ∧ grows 1 m m' ∧ ∃ pid pl, pids' = <[p_name p := pid]> pids ∧ Net.net.pmap m' !! pid = Some pl ∧ place.signature pl = s ∧
      (is_virtual p = true → is_Some (pmm !! p_name p)))
    (place_synthesize st pmm pids p m).
Proof.
  intros Hg Hc Hv Hs Hn. unfold place_synthesize. rewrite no_virtual_places, Hs. simpl. unfold emplace. destruct (is_virtual p).
  - apply mends_bind, mends_lift, ends_or_throw; [|done]. intros pid Hpid. rewrite bind_get. apply mends_bind, mends_lift.
    destruct (Hv _ _ Hpid) as [pl Hpl]. rewrite Hpl. simpl. apply mends_bind, mends_lift. simpl. case_decide as E; [|done]. simpl. rewrite Hn.
    split; [done|]. split; [split; [done|done|lia]|]. exists pid, pl. split_and!; [done..|]. intros _. by eexists.
  - apply mends_bind, mends_lift. simpl. apply mends_bind. eapply mends_mono; [|by apply (mends_add_place env)]. intros pid m' (? & ? & Hp). simpl. rewrite Hn.
    split_and!; [done..|]. by eexists _, _.
Qed.
Lemma mends_places pmm pids l (m : we_net) :
  good m → (count m + Z.of_nat (length l) < two64)%Z → valid m pmm → valid m pids → NoDup (map p_name l) →
  (∀ p, p ∈ l → pids !! p_name p = None) → (∀ p, p ∈ l → is_Some (p_signature p)) →
  mends (λ pids' m', good m' ∧ grows (Z.of_nat (length l)) m m' ∧ valid m' pids' ∧ pids ⊆ pids' ∧ places_at m' pids' l ∧
      ∀ p, p ∈ l → is_virtual p = true → is_Some (pmm !! p_name p))
    (places_synthesize st pmm pids l m).
Proof.
  revert pids m. induction l as [|p l IH]; intros pids m Hg Hc Hv Hvp Hnd Hnew Hs; simpl.
  { split_and!; [done|apply grows_refl|done..| |]; intros ? []%elem_of_nil. }
  simpl in Hnd, Hc. apply NoDup_cons in Hnd as [Hp Hnd]. destruct (Hs p) as [s Hsp]; [by left|]. apply mends_bind.
  eapply mends_mono; [|apply (mends_place pmm pids p s); [done|lia|done|done|apply Hnew; by left]].
  intros pids1 m1 (Hg1 & Hgr1 & pid & pl & -> & Hpl & Hsig & Hvirt). pose proof (gr_count _ _ _ Hgr1) as Hc1.
  eapply mends_mono; [|apply IH; [done|lia|by apply (valid_mono m); [apply Hgr1|]| |done|..]].
  - intros pids2 m2 (Hg2 & Hgr2 & Hv2 & Hsub & Hat & Hvi). split_and!; [done|apply (grows_trans 1 (Z.of_nat (length l)) _ _ m1); [done|done|lia]|done| | |].
    + etrans; [|done]. apply insert_subseteq, Hnew. by left.
    + intros q [->|Hq]%elem_of_cons; [|by apply Hat]. exists pid, pl. split_and!; [|by eapply lookup_weaken, gr_places|congruence].
      eapply lookup_weaken; [apply lookup_insert_eq|done].
    + intros q [->|Hq]%elem_of_cons; [done|by apply Hvi].
  - apply valid_insert; [apply (valid_mono m); [apply Hgr1|done]|by eexists].
  - intros q Hq. rewrite lookup_insert_ne; [apply Hnew; by right|]. intros E. apply Hp. rewrite E. by apply list_elem_of_fmap; exists q.
  - intros q Hq. apply Hs. by right.
Qed.
Lemma ends_token_value token : ends (λ _, True) (token_value token).
Proof. unfold token_value. apply ends_bind. eapply ends_mono; [intros e _|apply ends_we_parse]. by destruct (eval.eval_all e context.empty).1. Qed.
Lemma mends_tokens pids p ps (m : we_net) :
  good m → places_at m pids ps → p ∈ ps → mends (λ _ m', good m' ∧ grows 0 m m') (tokens_synthesize st pids p m).
Proof.
  intros Hg Hat Hp. destruct (Hat p Hp) as (pid & pl & Hpid & _). unfold tokens_synthesize. apply mends_bind, mends_lift. unfold at_. rewrite Hpid. simpl.
  apply mends_bind. eapply mends_mono; [|apply (mends_for_each (λ _ m', good m' ∧ grows 0 m m'))].
  3: { split; [done|apply grows_refl]. }
  2: { intros tok l m' (Hg' & Hgr'). apply mends_bind, mends_lift. eapply ends_mono; [intros v _|apply ends_token_value].
       eapply mends_mono; [|by apply (mends_put_value env)]. intros ? m'' [? ?]. split; [done|by eapply grows_trans]. }
  intros ? m1 Hm1. rewrite bind_get. destruct (_ && _); [|done]. apply mends_lift. eapply ends_mono; [|apply ends_warn]. done.
Qed.
Lemma net_synthesize_spec fuel n : net_ok n → shallow fuel n → net_spec env (net_synthesize st fuel) n.
Proof.
  revert n. induction fuel as [|fuel IH]; intros n Hn Hsh pmm m Hg Hc Hv; [destruct Hsh; lia|]. cbn [net_synthesize].
  pose proof Hn as [[Hu Hs Ht] Hfo]. unfold weight_net in *. apply mends_bind.
  eapply mends_mono; [|apply mends_places; [done|lia|done|done|apply Hu|done|done]]. intros pids m1 (Hg1 & Hgr1 & Hv1 & _ & Hat1 & Hvi).
  pose proof (gr_count _ _ _ Hgr1) as Hc1. set (w := λ l, Z.of_nat (sum_list (map weight_of l))).
  apply mends_bind. eapply mends_mono; [|apply (mends_for_each (λ l m', l ⊆ transitions n ∧ good m' ∧ ∃ v, grows v m1 m' ∧ (v + w l ≤ w (transitions n))%Z))].
  3: { split_and!; [done|done|]. exists 0%Z. split; [apply grows_refl|lia]. }
  2: { intros t l m' (Hl & Hg' & v & Hgr' & Hvw). pose proof (gr_count _ _ _ Hgr') as Hc'. unfold w in *. simpl in Hvw.
       eapply mends_mono; [|apply (mends_transition env st (net_synthesize st fuel) fuel IH pids n t m'); try done].
       - intros ? m'' [Hg'' Hgr'']. split_and!; [intros x Hx; apply Hl; by right|done|].
         exists (v + Z.of_nat (weight_of t))%Z. split; [by eapply grows_trans|lia].
       - lia.
       - apply (valid_mono m1); [apply Hgr'|done].
       - apply (places_at_mono m1); [apply Hgr'|done].
       - apply Hl. by left. }
  intros ? m2 (_ & Hg2 & v & Hgr2 & Hvw). apply mends_bind.
  eapply mends_mono; [|apply (mends_for_each (λ l m', l ⊆ places (n_data n) ∧ good m' ∧ grows 0 m2 m'))].
  3: { split_and!; [done|done|apply grows_refl]. }
  2: { intros p l m' (Hl & Hg' & Hgr'). eapply mends_mono; [|apply (mends_tokens pids p (places (n_data n))); [done| |apply Hl; by left]].
       - intros ? m'' [? ?]. split_and!; [intros x Hx; apply Hl; by right|done|by eapply grows_trans].
       - apply (places_at_mono m1); [etrans; [apply Hgr2|apply Hgr']|done]. }
  intros ? m3 (_ & Hg3 & Hgr3). simpl. assert (Hsub : Net.net.pmap m1 ⊆ Net.net.pmap m3) by (etrans; [apply Hgr2|apply Hgr3]).
  split_and!; [done| |by apply (valid_mono m1)|by apply (places_at_mono m1)|done].
  apply (grows_trans (Z.of_nat (length (places (n_data n)))) v _ _ m1); [done|apply (grows_trans v 0 _ _ m2); [done|done|lia]|]. unfold w in *. simpl in Hvw. lia.
Qed.
(** the function that the parser has put together, with its templates specialized and all uses of
    functions resolved *)
Definition resolved (g : function_type) : outcome error function_type :=
  f ← specialize_all st (mk_function (set_requirements (requirements st) (f_data g)) (content g)); resolve_function_use_recursive ∅ f.
End nets.

(** ** An example

    The net of the function [f] is unfolded into the net of [main]: its place [v] stands for the
    place [b] outside, and the function [g] of its transition is used by name and is the
    specialization of a template of [main].  Containers keep the order in which values are
    pushed. *)
#[local] Instance in_order : Arrange.
Proof.
  refine {| arrange := λ _ l, match l with [] => [] | x :: l => l ++ [x] end |}. intros T [|x l]; [done|]. by rewrite Permutation_app_comm.
Defined.
Definition options : state := mk_state false false (λ _, true) false false ∅.
Definition a_place (name : string) (virtual : option bool) (tokens : list string) : place_type :=
  mk_place name "long" virtual None tokens no_properties None.
Definition a_port (name type : string) (d : port.PortDirection) (place : option string) : port_type := mk_port name type None place d no_properties.
Definition a_connect (place name : string) (e : edge.type) : connect_type := mk_connect place name e no_properties.
Definition a_function (name : string) (l : list port_type) (c : content_of function_type) : function_type :=
  mk_function (mk_function_data (Some name) l [] [] [] [] [] [] ∅ [] no_properties) c.
Definition a_net (ps : list place_type) (fs : list function_type) (ts : list transition_type) : net_type :=
  mk_net (mk_net_data ps [] [] no_properties) fs [] ts.
Definition with_template (name use : string) (types : gmap string string) (f : function_type) (n : net_type) : net_type :=
  mk_net (mk_net_data (places (n_data n)) [mk_specialize name use types ∅] (n_structs (n_data n)) no_properties)
    (functions n) [(use, f)] (transitions n).
Definition a_transition (name : string) (cs : list connect_type) (pms : list place_map_type) (f : function_type + string) : transition_type :=
  mk_transition (mk_transition_data name cs [] [] pms [] [] ∅ None (Some true) no_properties) f.
Definition example_g (name T : string) : function_type :=
  a_function name [a_port "x" T port.PORT_IN None; a_port "y" T port.PORT_OUT None; a_port "z" T port.PORT_OUT None]
    (expression ["${y} := ${x} + 1L"; "${z} := ${x}"]).
Definition example_f (g : function_type + string) : function_type :=
  a_function "f" [a_port "x" "long" port.PORT_IN (Some "p"); a_port "y" "long" port.PORT_OUT (Some "q"); a_port "v" "long" port.PORT_TUNNEL (Some "v")]
    (net (a_net [a_place "p" None []; a_place "q" None []; a_place "v" (Some true) []] []
      [a_transition "inner" [a_connect "p" "x" edge.PT; a_connect "q" "y" edge.TP; a_connect "v" "z" edge.TP] [] g])).
Definition example_net (fs : list function_type) (f : function_type + string) : net_type :=
  a_net [a_place "a" None ["1L"]; a_place "b" None []] fs
    [a_transition "t" [a_connect "a" "x" edge.PT; a_connect "b" "y" edge.TP] [mk_place_map "v" "b" no_properties] f].
Definition main (n : net_type) : function_type := a_function "main" [] (net n).
Definition template_g (n : net_type) : net_type := with_template "g" "t" {["T" := "long"]} (example_g "t" "T") n.
Definition example : function_type := main (template_g (example_net [] (inl (example_f (inr "g"))))).
Definition example_resolved : function_type := main (template_g (example_net [example_g "g" "long"] (inl (example_f (inl (example_g "g" "long")))))).
(** the names of the places and transitions of the net of a transition *)
Definition names_of (t : transition_t workflow) : list string * list string :=
  match transition.get_net t with
  | Some (subnet m) => (map (λ x, place.name x.2) (map_to_list (Net.net.pmap m)), map (λ x, transition.name x.2) (map_to_list (Net.net.tmap m)))
  | None => ([], [])
  end.
#[local] Existing Instance Float.nan_libm.
Ltac each_element := repeat (match goal with
  | H : _ ∈ _ :: _ |- _ => apply elem_of_cons in H as [->|H]
  | H : _ ∈ [] |- _ => by apply elem_of_nil in H
  end).
Lemma example_g_proper : proper false (example_g "g" "long").
Proof.
  constructor; try discriminate; [by_computation| |done].
  intros x y p q (Hp & <- & Hd) (Hq & <- & Hd'). unfold ports in *. simpl in *. each_element; discriminate.
Qed.
Lemma example_f_proper : proper false (example_f (inl (example_g "g" "long"))).
Proof.
  constructor; try discriminate; [by_computation| |done|..].
  - intros x y p q (Hp & <- & Hd) (Hq & <- & Hd'). unfold ports in *. simpl in *. each_element; discriminate.
  - intros n [= <-]. split; [split; [by_computation|by_computation|repeat constructor; by_computation]|discriminate|].
    simpl. intros t Ht. each_element. split; [unfold single; by_computation|by eexists].
  - intros n t g [= <-] Ht. simpl in Ht. each_element. intros [= <-]. apply example_g_proper.
  - intros n g [= <-] Hg. simpl in Hg. each_element.
Qed.
Lemma example_proper : proper false example_resolved.
Proof.
  constructor; try discriminate; [by_computation| |done|..].
  - intros x y p q (Hp & _) _. unfold ports in Hp. simpl in Hp. each_element.
  - intros n [= <-]. split; [split; [by_computation|by_computation|repeat constructor; by_computation]|discriminate|].
    simpl. intros t Ht. each_element. split; [unfold single; by_computation|by eexists].
  - intros n t g [= <-] Ht. simpl in Ht. each_element. intros [= <-]. apply example_f_proper.
  - intros n g [= <-] Hg. simpl in Hg. each_element. apply example_g_proper.
Qed.

(** A function that is used by name, whose net uses a function by name: the copy of the function
    that the transition gets is made before the net of the function is looked through, so that
    the inner use is never resolved. *)
Lemma nested_use_is_not_resolved :
  compile options (main (example_net [example_f (inr "g"); example_g "g" "long"] (inr "f"))) = Throw (broken bad_get).
Proof. vm_compute. reflexivity. Qed.
(** A template whose net specializes a template: the net of the specialized function is
    specialized twice, the second time with a function that exists already. *)
Definition nested_template : function_type :=
  a_function "o" [] (net (with_template "i_long" "i" {["T" := "U"]} (example_g "i" "T") (a_net [] [] []))).
Lemma nested_specialization_fails :
  compile options (main (with_template "o_long" "o" {["U" := "long"]} nested_template (a_net [] [] []))) = Throw ignore_exception.
Proof. vm_compute. reflexivity. Qed.
(** A specialization changes the names of fields that are structures and have the name of a
    parameter of the template. *)
Lemma field_renamed_by_specialization :
  specialize_structure {["T" := "long"]} (mk_structure "s" [Fstruct "T" [Fsimple "x" "T"]]) = mk_structure "s" [Fstruct "long" [Fsimple "x" "long"]].
Proof. done. Qed.
Definition copy_function : function_type + string :=
  inl (a_function "f" [a_port "x" "long" port.PORT_IN None; a_port "y" "long" port.PORT_OUT None] (expression ["${y} := ${x}"])).
(** Whether a port that is connected by [connect-out-many] has lists is checked only if its type
    is not that of the place. *)
Lemma many_of_no_list :
  is_ret (compile options (main (a_net [a_place "a" None []; a_place "b" None []] []
    [a_transition "t" [a_connect "a" "x" edge.PT; a_connect "b" "y" edge.TP_MANY] [] copy_function]))) = true.
Proof. vm_compute. reflexivity. Qed.
(** Two places may be connected to the same input port: the transition fires when both have a
    token, and the port gets one of them. *)
Lemma input_port_connected_twice :
  is_ret (compile options (main (a_net [a_place "a" None ["1L"]; a_place "b" None ["2L"]] []
    [a_transition "t" [a_connect "a" "x" edge.PT; a_connect "b" "x" edge.PT] [] copy_function]))) = true.
Proof. vm_compute. reflexivity. Qed.
End xml_sound.
